(* ===== verification/_CoqProject ===== *)
-Q . S2P
Prelude.v
GoRuntime.v
Shared.v
Candle.v
CandleSpec.v
BoundedMap.v
Cells.v
Watermark.v
OrderBook.v
OrderBookSpec.v
Fusion.v
FusionSpec.v
BuildCandle.v
BuildCandleSpec.v
Tape.v
TapeSpec.v
Stats.v
StatsSpec.v
BuildStats.v
BuildStatsSpec.v
BuildTape.v
BuildTapeSpec.v
UpdateOrderBook.v
UpdateOrderBookSpec.v
GapDetector.v
Hash.v
Envelope.v
Sequencer.v
Replay.v
ReplaySpec.v
InstrumentStream.v
InstrumentStreamSpec.v
Ingest.v
IngestSpec.v
Ownership.v
Delivery.v
DeliveryRing.v
SeqPolicy.v
Router.v
RouterSpec.v
SessionQueue.v
SessionQueueSpec.v
PolicyKit.v
ShardRegistry.v
ShardRegistrySpec.v
Supervisor.v
Guardian.v
GuardianSpec.v
Loops.v
OpenInterest.v
OpenInterestSpec.v
Federation.v
FederationSpec.v
MarketModel.v
MarketModelSpec.v
BookProcessor.v
BookProcessorSpec.v
Evidence.v
EvidenceRules.v
EvidenceEngine.v
EvidenceSpec.v
Insights.v
Grouping.v
VolumeProfile.v
VolumeProfileSpec.v
SessionProfile.v
SessionProfileSpec.v
CrossVenueTrades.v
CrossVenueTradesSpec.v
Heatmap.v
HeatmapSpec.v
Sha256.v
Subjects.v
RetryBudget.v
BusPolicy.v
Consumer.v
ConsumerSpec.v
