(* ===== verification/Prelude.v ===== *)
(** * Stream Analytics: verification library (root file)

    ** The program

    The repository is a market-data pipeline in Go. Exchange connectors hand
    raw events to the _ingest_ use case (core/marketdata), which numbers and
    deduplicates them per stream and publishes envelopes on a bus, from which
    consumers take them, in groups that share the streams, and settle each message
    with the broker (adapters/jetstream). The
    _aggregation_ use cases (core/aggregation) consume trades, book updates,
    liquidations, mark prices and funding rates and keep one aggregate per
    instrument and timeframe in a bounded LRU map: candles, order books, tape
    windows, stats windows. An event-time window manager tells them when a
    window is over; closed windows go to a store and to the bus. The _delivery_
    actors (core/delivery, actors/delivery/runtime) route envelopes to the
    sessions subscribed to their subject, number the deliveries and queue them
    under backpressure. The _evidence_ engine (core/evidence) watches the same
    events with rules that report unusual states of the market. The _insights_
    use cases (core/insights) turn them into volume profiles per window and per
    trading session, snapshots of one instrument on several venues, and heatmaps of
    the order book. Queries for stored windows go through readers that _federate_ a
    hot and a cold storage tier (adapters/storage/federation). The
    _market model_ (core/marketmodel) normalises what the exchanges send. The
    processes are run by a guardian actor with a restart policy (actors/runtime),
    and divide the streams by shards that each instance owns under a lease
    (shared/shardregistry). Shared packages hold the error values, validators,
    hashes, the LRU map, the ownership rule for streams, the overload policy and
    the replay of recorded events.

    ** How the code is modelled

    A Go method with a pointer receiver that may fail is a [Meth]: the state
    after the call and an error or a result; what was assigned before an early
    return stays assigned. Integers are [Z] with the wrap-around of the 64-bit
    operations written out, [float64] is IEEE-754 binary64 ([spec_float], which
    evaluates), strings are byte strings, maps are [gmap]s where their order
    does not matter, and lists where it does. A run-time panic is an error of
    the method. Aggregates that the code mutates through pointers kept in a map
    live in a heap ([Cells]), so that a pointer held by two parties is one cell.
    Ports (stores, publishers, readers, connections) are classes that answer
    a call in any way, by the history of calls, and the state keeps that
    history: theorems about "what is published" are about it. The clock of a
    component is a function [clk : nat → Z], the [n]-th reading; nothing is
    assumed about it unless a theorem says so.

    Parameters for what is not in the repository: [GoRuntime] (what the language
    leaves open: conversion of out-of-range floats, map iteration order, unstable
    sorting, non-ASCII case mapping), [BTreeLib] (github.com/google/btree),
    [StableSort] (sort.SliceStable), [kvStore] and [OwnerCodec] (the NATS key-value
    bucket and the encoding of its records), [TimeZones] (the time zone database),
    [BusLib] (encoding/json at the types the bus uses, fmt), the ports, the payload decoder and SHA-256 in the replay player. Each is instantiated in the witnesses
    ([go_amd64], [sortedBTree], [insertionSort], [memKV], ...).

    Most loops of the modelled code are structural over a list. Those that are
    not are run with fuel. The merges of two slices and the binary search run under
    [Loops.loop] with one more than a measure every pass decreases, so the fuel always
    suffices ([merge_ends_with_one_row_per_window], [findLevel_spec]); the value area
    of a session grows by a bin per pass, so the number of bins plus one is enough; a
    heatmap that is over its limit is coarsened at most six times (its fuel is nine),
    after which the event is refused; the power of ten nearest a raw bin size is found
    in fewer than 320 steps, the range of the exponents of a [float64]. The
    calls of the shard registry, which repeat until they succeed, are trees of
    calls that interleaved processes walk, not functions with fuel.

    ** Files

    Foundations:
    - this file: record update, the [Meth] monad, tactics and generic lemmas;
    - GoRuntime: integers, floats, strings, time; Loops: loops with fuel, with the
      rule for total correctness, and sort.Search;
    - Shared: shared/problem, shared/validation, shared/naming;
    - BoundedMap, Cells: shared/ds/boundedmap.go, and pointers kept in it;
    - Hash, Sha256: shared/hash; Envelope: shared/envelope.

    Aggregation:
    - Candle, CandleSpec: domain/candle.go, timeframe.go, candle_rollup.go;
    - Tape, TapeSpec: domain/tape.go; Stats, StatsSpec: domain/stats.go;
    - OrderBook, OrderBookSpec: domain/orderbook.go, btree_orderbook.go,
      orderbook_policy.go, orderbook_checksum.go, events.go;
    - Fusion, FusionSpec: domain/fusion.go, fusion_engine.go, cross_venue_book.go,
      grouped_book.go, the views over several venues;
    - Watermark: domain/watermark_window.go, window_manager.go;
    - BuildCandle, BuildStats, BuildTape, UpdateOrderBook, each with its Spec:
      the use cases app/build_candle.go, build_stats.go, build_tape.go and
      update_orderbook.go;
    - OpenInterest, OpenInterestSpec: app/build_open_interest.go, build_funding.go
      and the open-interest part of domain/analytics_primitives.go;
    - BookProcessor, BookProcessorSpec: the route of a book delta through the actor
      actors/aggregation/runtime/processor.go and its cross-venue and fusion
      strategies, over UpdateOrderBook, Fusion and Envelope;
    - GapDetector: app/gap_detector.go;
    - Federation, FederationSpec: adapters/storage/federation, the readers over two
      tiers, with the contract of a reader as the class [Serves] that the
      composite both uses and fulfils, and the gap detector on top of it.

    Evidence:
    - Evidence: core/evidence/domain, evidence events and their validation, the
      interface of a rule, the buffer per kind and the regime store;
    - EvidenceRules: core/evidence/app, the rolling rings and the five rules as
      instances of one class;
    - EvidenceEngine: app/state_store.go and engine.go, over the interface of a rule;
    - EvidenceSpec: the theorems, with the cooldown shown once for every rule against
      the class [CooledRule].

    Insights:
    - Insights: what the domain types of core/insights share; Grouping:
      domain/binning.go, the choice of a bin size and the binning of prices;
    - VolumeProfile, VolumeProfileSpec: domain/volume_profile.go and
      app/build_volume_profile.go with vpvr_overload_policy.go and
      vpvr_overload_alerts.go, the profile of a window and how it is thinned out;
    - SessionProfile, SessionProfileSpec: domain/session.go,
      session_volume_profile.go, app/build_session_volume_profile.go and
      session_emit_policy.go, the profile of a trading session;
    - CrossVenueTrades, CrossVenueTradesSpec: domain/crossvenue_trade_snapshot.go and
      app/join_crossvenue_trades.go, the last trades of an instrument on each venue;
    - Heatmap, HeatmapSpec: domain/heatmap_bucket.go and app/build_heatmap.go.

    Market data:
    - Sequencer: the contract of the sequencer port and the in-memory sequencer
      of cmd/consumer/bootstrap.go; Replay, ReplaySpec: shared/replay;
    - InstrumentStream, InstrumentStreamSpec: core/marketdata/domain;
    - Ingest, IngestSpec: core/marketdata/app/ingest.go;
    - MarketModel, MarketModelSpec: core/marketmodel.

    Bus (adapters/jetstream, with shared/envelope/binary.go):
    - Subjects: subject_validation.go and shard.go, the taxonomy of subjects and the
      groups of consumers; RetryBudget: the tracker of retry_budget.go;
    - BusPolicy: ingest_policy.go, problems that are poison and problems that pass,
      and the envelope that quarantines a message;
    - Consumer, ConsumerSpec: consumer.go, publisher.go, stream.go and the budget.

    Delivery:
    - Ownership: shared/ownership; SeqPolicy: the router's use of it;
    - Delivery: core/delivery/domain;
    - Router, RouterSpec: actors/delivery/runtime/router.go;
    - DeliveryRing, SessionQueue, SessionQueueSpec: the ring buffer and the
      drop policies of a session;
    - PolicyKit: shared/policykit, the overload policy.

    Runtime:
    - ShardRegistry, ShardRegistrySpec: shared/shardregistry/registry.go, processes
      that interleave on one key-value bucket;
    - Supervisor: actors/runtime/supervisor.go, the restart policy;
    - Guardian, GuardianSpec: actors/runtime/guardian.go and protocol.go.

    ** What the theorems show

    - An aggregate is the summary of its inputs: a candle is the OHLCV of its
      trades and a rolled-up candle the one of all its parts' trades
      ([candle_summarises_trades], [RollupCandle_is_direct_candle]), a tape
      window does not depend on the order of its trades
      ([tape_window_is_order_independent]), a stats window summarises its inputs
      ([stats_window_summarises_inputs]), an order book is two maps from prices
      to quantities, sorted, uncrossed and bounded ([update_refines_price_map],
      [reachable_book_is_consistent], [snapshot_replay_roundtrip]), and so is the
      market model's book of two sorted slices ([book_delta_updates_price_map]).
      Fused depth in merge mode is the sum of the active venues' books, whatever their order
      ([fused_depth_sums_active_venues], [fusion_is_deterministic]), the cross-venue
      top a ranking of them ([cross_venue_ranks_active_venues]), and grouping a
      partition of the levels ([grouping_partitions_levels]).
    - Containers refine their abstract types: the bounded map an LRU list with
      expiry ([BoundedMap_refines_lru], [recent_entry_survives]), the ring buffer
      a bounded queue ([ring_refines_bounded_queue]), the routing tables one
      subscription relation ([router_implements_subscriptions]), the reader over two
      tiers a reader of their union ([federated_reader_serves_union]), the arrival
      ring the last ten arrivals ([cadence_is_median_of_last_ten]).
    - Windows: every window opened is closed once or still open, and the decision
      on an event is the one its time dictates ([windows_opened_are_closed_or_open],
      [Observe_decides_by_event_time]).
    - Use cases: what a request returns is what the ports have seen, in order
      ([Execute_emits_what_it_returns] and its siblings), only consistent books
      leave ([only_consistent_books_leave]), cumulative volumes accumulate
      ([published_cvd_accumulates]), open-interest changes are since an accepted
      window ([oi_change_is_since_an_accepted_window]), gap reports are exact, over
      one store and over two tiers ([gaps_are_exactly_the_missing_windows],
      [federated_gaps_are_missing_from_both_tiers]).
    - Ordering: published, replayed and delivered sequence numbers increase, published
      ones without trust in the sequencer while their stream stays in the map
      ([published_sequences_increase], [stream_orders_and_deduplicates],
      [replay_restores_sequences], [sequence_numbers_never_go_back],
      [stream_numbers_increase], [view_numbers_increase]); every subscriber gets an event once
      ([subscribers_get_event_once]).
    - Backpressure and overload: which events are kept
      ([queue_keeps_by_policy], [overload_keeps_final_and_every_kth],
      [overload_level_settles]).
    - Evidence: a rule reports a stream at most once per cooldown
      ([emissions_respect_cooldown]), its statistics are those of the last sixty-four
      values ([rolling_statistics_of_last_64]), an imbalance is reported for a run of
      observations ([imbalance_reported_for_streak]), the engine lets out valid
      evidence only ([engine_emits_valid_evidence]) and the buffer lists the last
      events of a kind ([buffer_lists_last_of_kind]).
    - Insights: a volume profile is the summary of its window's trades
      as long as the windows fit in its table
      ([profile_summarises_window_trades]) and stays a valid profile when it is
      thinned out ([compressed_profile_is_valid]); a session's profile covers the
      candles of the session that is running ([session_profile_covers_current_session]),
      its value area holds the share of volume it should and not one bin more than
      needed ([value_area_is_tight]); a cross-venue snapshot joins the latest trade of
      every venue ([snapshot_joins_latest_trades]); a heatmap accounts for every event
      it accepted, however often it was coarsened ([heatmap_accounts_for_events]).
    - Bus: every message fetched is settled once and for a reason, and no message ends
      the loop ([consumer_settles_every_message]); a quarantine is not quarantined
      again ([quarantine_is_not_quarantined_again]); every stream is handled by one
      group ([each_stream_is_handled_by_one_group]); failures are counted while the
      ring has room ([partition_failures_are_counted]).
    - Coordination: between two owners of a shard the lease was over, or the record
      was removed by a release ([ownership_passes_after_expiry], [topology_complete_iff_all_alive]), a
      subsystem has at most one child ([one_child_per_subsystem]) and restarts
      within its budget unless it is marked recovered ([restarts_stay_in_budget]); the store of books stays
      consistent ([state_store_stays_consistent]) and its keys are canonical
      ([stream_key_is_canonical]); the processor's tables stay bounded
      ([cross_venue_tables_stay_bounded]).
    - Errors: what a refused input leaves behind
      ([rejected_trade_changes_nothing], [volume_overflow_wedges_candle]), and
      places where the code falls short of its purpose, each with a theorem that
      shows it ([expired_book_restarts_empty], [forced_close_closes_nothing],
      [failed_save_blocks_key], [refused_event_cannot_be_resubmitted],
      [refused_primary_silences_alias], [release_race_gives_two_owners],
      [failure_in_cooldown_strands_subsystem], [signal_text_is_cut_not_rejected],
      [expired_stream_behind_fresh_head_is_served], [fused_snapshot_valid_iff],
      [evicted_instrument_restarts_numbering], [market_types_share_a_subject],
      [evicted_stream_keeps_its_rule_state], [bin_size_not_multiple_of_tick],
      [late_trade_becomes_latest_window], [absurd_price_blocks_window],
      [rolled_session_is_never_emitted], [wide_candle_has_one_bucket], [late_candle_discards_session],
      [zero_volume_session_is_refused], [absurd_price_blocks_instrument],
      [prices_apart_share_a_cell], [coarsened_heatmap_depends_on_iteration],
      [partition_evicted_despite_room], [undecodable_message_has_no_budget],
      [malformed_venue_is_not_quarantined], ...).

    ** Not modelled

    - Metrics, logs and tracing spans: no component reads them back.
    - The configuration loader, the bootstrap and the wiring of the processes: they
      assemble the components above and hold no state of their own.
    - The adapters of exchanges and databases, the artifact publisher and the replay
      source of the bus, and the HTTP and WebSocket servers: they translate between the use cases and third-party libraries, and
      appear as the ports of the use cases.
    - The protobuf and JSON codecs and the contracts: generated code and its glue.
    - Of the insights context, the profiles by time at price, the profiles and
      heatmaps fused over venues, and the service that forwards to the use cases.
    - Of the evidence context, the liquidity-evidence engine (a second engine of the
      shape of the one modelled), the trend regime detector and the decay of
      confidence.
    - The session's flush and client commands, the other actors, the workspace store,
      tick sizes and service-level evaluation: they are mostly message plumbing and
      timers around the components above. *)

From stdpp Require Export base tactics option list list_numbers gmap strings sorting.
From Stdlib Require Export ZArith Lia.

#[export] Set Default Goal Selector "!".

(** ** Record update

    [r <| f := v |>] is the record [r] with field [f] set to [v], and
    [r <| f ::= g |>] applies [g] to the field: the Go assignment [r.f = v].
    A record declares its eta expansion once ([Eta]); the setter of a field is
    derived from it by replacing the projection. *)

Class Eta (R : Type) := eta : R → R.
Class Setter {R T : Type} (proj : R → T) := upd : (T → T) → R → R.

Ltac app_head t := lazymatch t with ?f _ => app_head f | _ => t end.
Ltac derive_setter R T proj :=
  let e := lazymatch constr:(@eta R _) with @eta _ ?i => i end in
  let h := app_head e in
  exact (fun (f : T → T) (r : R) => ltac:(
    let body := eval cbv beta delta [h] in (e r) in
    let body := eval cbv beta in body in
    lazymatch eval pattern (proj r) in body with
    | ?g _ => let t := eval cbv beta in (g (f (proj r))) in exact t
    end)).

#[global] Hint Extern 1 (@Setter ?R ?T ?proj) => derive_setter R T proj : typeclass_instances.

Declare Scope go_scope.
Delimit Scope go_scope with go.

Notation "r <| p := v |>" := (upd (proj:=p) (λ _, v) r)
  (at level 1, p at level 0, left associativity, format "r  <| p  :=  v |>") : go_scope.
Notation "r <| p ::= f |>" := (upd (proj:=p) f r)
  (at level 1, p at level 0, left associativity, format "r  <| p  ::=  f |>") : go_scope.
Global Open Scope go_scope.

(** ** Methods with a receiver and an error result

    A Go method with a pointer receiver of type [S] that returns [(A, error)]
    is a function [S → S * (E + A)]. On an early [return err] the receiver keeps
    the assignments already made, so the state is threaded through [inl] too:
    nothing is rolled back. *)

Definition Meth (S E A : Type) : Type := S → S * (E + A).

#[export] Instance Meth_ret {S E} : MRet (Meth S E) := λ A x s, (s, inr x).
#[export] Instance Meth_bind {S E} : MBind (Meth S E) := λ A B f m s,
  match m s with
  | (s', inr x) => f x s'
  | (s', inl e) => (s', inl e)
  end.

(** Reading and writing the receiver, and the early return. *)
Definition recv {S E} : Meth S E S := λ s, (s, inr s).
Definition assign {S E} (f : S → S) : Meth S E unit := λ s, (f s, inr tt).
Definition throw {S E A} (e : E) : Meth S E A := λ s, (s, inl e).

(** [if p := check; p != nil { return p }] *)
Definition check {S E} (p : option E) : Meth S E unit := λ s,
  match p with
  | Some e => (s, inl e)
  | None => (s, inr tt)
  end.

(** [x, p := f(); if p != nil { return p }] for a function without receiver. *)
Definition try_ {S E A} (r : E + A) : Meth S E A := λ s, (s, r).

(** [if cond { return p }] *)
Definition fail_if {S E} (b : bool) (p : E) : Meth S E unit := λ s,
  (s, if b then inl p else inr tt).

(** A method called on a local variable [x] rather than on the receiver. *)
Definition on_local {S T E A} (x : T) (m : Meth T E A) : Meth S E (T * A) := λ s,
  match m x with
  | (x', inr y) => (s, inr (x', y))
  | (_, inl e) => (s, inl e)
  end.

(** [for _, x := range l { body }] with early return. *)
Fixpoint for_each {S E A} (l : list A) (body : A → Meth S E unit) : Meth S E unit :=
  match l with
  | [] => mret tt
  | x :: l' => body x ;; for_each l' body
  end.

(** The error result of a method, as the [*problem.Problem] a caller tests. *)
Definition err_of {E A} (r : E + A) : option E :=
  match r with inl e => Some e | inr _ => None end.
Definition ok_of {E A} (r : E + A) : option A :=
  match r with inl _ => None | inr x => Some x end.

(** What [f] observes of a successful run, and of the error and state of a
    failed one. *)
Definition observed {S E A O} (f : S → A → O) (r : S * (E + A)) : option O :=
  match r with (s, inr x) => Some (f s x) | (_, inl _) => None end.
Definition observed_err {S E A O} (f : S → E → O) (r : S * (E + A)) : option O :=
  match r with (s, inl e) => Some (f s e) | (_, inr _) => None end.

(** ** Tactics and hint databases *)

(** [golib]: the lemmas that close the routine obligations of the components. *)
Create HintDb golib.

(** Case analysis on the first [match] or [if] whose discriminee is not itself
    one, remembering the equation. *)
Ltac split_match :=
  match goal with
  | |- context [match ?x with _ => _ end] =>
      lazymatch x with
      | context [match _ with _ => _ end] => fail
      | _ => destruct x eqn:?
      end
  end.
Ltac split_match_in H :=
  match type of H with
  | context [match ?x with _ => _ end] =>
      lazymatch x with
      | context [match _ with _ => _ end] => fail
      | _ => destruct x eqn:?
      end
  end.

(** Turn the boolean tests of the code into propositions that [lia] reads. *)
Ltac reflect_bools :=
  repeat match goal with
  | H : _ && _ = true |- _ => apply andb_true_iff in H as [? ?]
  | H : _ && _ = false |- _ => apply andb_false_iff in H
  | H : _ || _ = true |- _ => apply orb_true_iff in H
  | H : _ || _ = false |- _ => apply orb_false_iff in H as [? ?]
  | H : negb _ = true |- _ => apply negb_true_iff in H
  | H : negb _ = false |- _ => apply negb_false_iff in H
  | H : Z.leb _ _ = true |- _ => apply Z.leb_le in H
  | H : Z.leb _ _ = false |- _ => apply Z.leb_gt in H
  | H : Z.ltb _ _ = true |- _ => apply Z.ltb_lt in H
  | H : Z.ltb _ _ = false |- _ => apply Z.ltb_ge in H
  | H : Z.eqb _ _ = true |- _ => apply Z.eqb_eq in H
  | H : Z.eqb _ _ = false |- _ => apply Z.eqb_neq in H
  | H : bool_decide _ = true |- _ => apply bool_decide_eq_true in H
  | H : bool_decide _ = false |- _ => apply bool_decide_eq_false in H
  end.

(** Turn the premises of [H] into goals, in order, keeping its conclusion. *)
Ltac discharge H :=
  lazymatch type of H with
  | ?P → _ =>
      let h := fresh "h" in
      assert P as h; [|specialize (H h); clear h; discharge H]
  | _ => idtac
  end.

(** Unfold the method combinators. *)
Ltac unfold_meth :=
  unfold mbind, mret, Meth_bind, Meth_ret, recv, assign, throw, check, try_, fail_if, on_local in *.

(** ** Generic lemmas *)

Section meth.
Context {S E : Type}.

(** A successful sequence: both halves succeed. *)
Lemma bind_ok {A B} (m : Meth S E A) (f : A → Meth S E B) s s' y :
  (m ≫= f) s = (s', inr y) →
  ∃ s1 x, m s = (s1, inr x) ∧ f x s1 = (s', inr y).
Proof.
  unfold mbind, Meth_bind. destruct (m s) as [s1 [e|x]] eqn:Hm; [done|eauto].
Qed.

Lemma bind_run {A B} (m : Meth S E A) (f : A → Meth S E B) s s1 x :
  m s = (s1, inr x) → (m ≫= f) s = f x s1.
Proof. intros Hm. unfold mbind, Meth_bind. by rewrite Hm. Qed.

Lemma recv_run {B} (f : S → Meth S E B) s : (recv ≫= f) s = f s s.
Proof. done. Qed.
Lemma assign_run {B} (g : S → S) (f : unit → Meth S E B) s : (assign g ≫= f) s = f tt (g s).
Proof. done. Qed.

Lemma bind_err {A B} (m : Meth S E A) (f : A → Meth S E B) s s1 e :
  m s = (s1, inl e) → (m ≫= f) s = (s1, inl e).
Proof. intros Hm. unfold mbind, Meth_bind. by rewrite Hm. Qed.

(** A run that is observed has a result: concrete runs are evaluated only up to
    the observation. *)
Lemma observed_run {A O} (f : S → A → O) (r : S * (E + A)) o :
  observed f r = Some o → ∃ s x, r = (s, inr x) ∧ f s x = o.
Proof. destruct r as [s [e|x]]; cbn; [done|]. intros [= <-]. eauto. Qed.
Lemma observed_err_run {A O} (f : S → E → O) (r : S * (E + A)) o :
  observed_err f r = Some o → ∃ s e, r = (s, inl e) ∧ f s e = o.
Proof. destruct r as [s [e|x]]; cbn; [|done]. intros [= <-]. eauto. Qed.

Lemma check_ok (p : option E) (s s' : S) u :
  check p s = (s', inr u) → p = None ∧ s' = s.
Proof. destruct p; naive_solver. Qed.

Lemma try_ok {A} (r : E + A) (s s' : S) x :
  try_ r s = (s', inr x) → r = inr x ∧ s' = s.
Proof. unfold try_. naive_solver. Qed.

Lemma fail_if_ok (b : bool) (p : E) (s s' : S) u :
  fail_if b p s = (s', inr u) → b = false ∧ s' = s.
Proof. unfold fail_if. destruct b; by intros [= <- <-]. Qed.

Lemma on_local_ok {T A} (x : T) (m : Meth T E A) (s s' : S) y :
  on_local x m s = (s', inr y) → m x = (y.1, inr y.2) ∧ s' = s.
Proof. unfold on_local. destruct (m x) as [x' [e|z]]; [done|]. intros H. by injection H as <- <-. Qed.

Lemma recv_ok (s s' x : S) :
  (recv : Meth S E S) s = (s', inr x) → x = s ∧ s' = s.
Proof. unfold recv. naive_solver. Qed.

Lemma assign_ok (f : S → S) (s s' : S) u :
  (assign f : Meth S E unit) s = (s', inr u) → s' = f s.
Proof. unfold assign. naive_solver. Qed.
End meth.

(** ** Reasoning about methods *)

Section triples.
Context {S E : Type}.

(** From [Pre], a normal return establishes [Post] and an error return [Err]. *)
Definition triple {A} (Pre : S → Prop) (m : Meth S E A) (Post : A → S → Prop) (Err : S → Prop) : Prop :=
  ∀ s, Pre s → match m s with (s', inr x) => Post x s' | (s', inl _) => Err s' end.

Lemma triple_bind {A B} Pre (m : Meth S E A) (f : A → Meth S E B) Mid Post Err :
  triple Pre m Mid Err → (∀ x, triple (Mid x) (f x) Post Err) → triple Pre (m ≫= f) Post Err.
Proof.
  intros Hm Hf s Hs. specialize (Hm s Hs). unfold mbind, Meth_bind.
  destruct (m s) as [s1 [e|x]]; [done|]. by apply Hf.
Qed.
Lemma triple_conseq {A} (Pre Pre' : S → Prop) (m : Meth S E A) (Post Post' : A → S → Prop) (Err Err' : S → Prop) :
  triple Pre' m Post' Err' → (∀ s, Pre s → Pre' s) → (∀ x s, Post' x s → Post x s) →
  (∀ s, Err' s → Err s) → triple Pre m Post Err.
Proof. intros Hm H1 H2 H3 s Hs. specialize (Hm s (H1 s Hs)). destruct (m s) as [s1 [e|x]]; auto. Qed.
Lemma triple_ret {A} Pre (x : A) (Post : A → S → Prop) Err :
  (∀ s, Pre s → Post x s) → triple Pre (mret x) Post Err.
Proof. intros H s Hs. by apply H. Qed.
Lemma triple_recv Pre (Post : S → S → Prop) Err : (∀ s, Pre s → Post s s) → triple Pre (recv : Meth S E S) Post Err.
Proof. intros H s Hs. by apply H. Qed.
Lemma triple_assign Pre g (Post : unit → S → Prop) Err :
  (∀ s, Pre s → Post tt (g s)) → triple Pre (assign g : Meth S E unit) Post Err.
Proof. intros H s Hs. by apply H. Qed.
Lemma triple_fail_if (Pre : S → Prop) (b : bool) (e : E) (Post : unit → S → Prop) (Err : S → Prop) :
  (∀ s, Pre s → if b then Err s else Post tt s) → triple Pre (fail_if b e) Post Err.
Proof. intros H s Hs. specialize (H s Hs). unfold fail_if. by destruct b. Qed.
Lemma triple_try {A} (Pre : S → Prop) (r : E + A) (Post : A → S → Prop) (Err : S → Prop) :
  (∀ s, Pre s → match r with inl _ => Err s | inr x => Post x s end) → triple Pre (try_ r) Post Err.
Proof. intros H s Hs. specialize (H s Hs). unfold try_. by destruct r. Qed.
Lemma triple_check (Pre : S → Prop) (p : option E) (Post : unit → S → Prop) (Err : S → Prop) :
  (∀ s, Pre s → match p with Some _ => Err s | None => Post tt s end) → triple Pre (check p) Post Err.
Proof. intros H s Hs. specialize (H s Hs). unfold check. by destruct p. Qed.
Lemma triple_run {A} Pre (m : Meth S E A) Post Err s s' x :
  triple Pre m Post Err → Pre s → m s = (s', inr x) → Post x s'.
Proof. intros Hm Hs Hrun. specialize (Hm s Hs). by rewrite Hrun in Hm. Qed.

(** The method never changes [f] of its receiver, whatever it returns. *)
Definition keeps {A B} (f : S → B) (m : Meth S E A) : Prop := ∀ s, f (m s).1 = f s.

Lemma keeps_bind {A B C} (f : S → C) (m : Meth S E A) (g : A → Meth S E B) :
  keeps f m → (∀ x, keeps f (g x)) → keeps f (m ≫= g).
Proof.
  intros Hm Hg s. specialize (Hm s). unfold mbind, Meth_bind.
  destruct (m s) as [s1 [e|x]]; [done|]. rewrite Hg. done.
Qed.
(** Every error the method returns satisfies [P]. *)
Definition fails_with {A} (P : E → Prop) (m : Meth S E A) : Prop := ∀ s s' e, m s = (s', inl e) → P e.

Lemma fails_bind {A B} P (m : Meth S E A) (g : A → Meth S E B) :
  fails_with P m → (∀ x, fails_with P (g x)) → fails_with P (m ≫= g).
Proof.
  intros Hm Hg s s' e. unfold mbind, Meth_bind.
  destruct (m s) as [s1 [e1|x]] eqn:Hrun; [intros [= <- <-]; eauto|apply Hg].
Qed.
Lemma fails_ret {A} P (x : A) : fails_with P (mret x : Meth S E A).
Proof. by intros s s' e. Qed.
Lemma fails_recv P : fails_with P (recv : Meth S E S).
Proof. by intros s s' e. Qed.
Lemma fails_assign P g : fails_with P (assign g : Meth S E unit).
Proof. by intros s s' e. Qed.
Lemma fails_throw {A} (P : E → Prop) (e : E) : P e → fails_with P (throw e : Meth S E A).
Proof. by intros HP s s' e' [= <- <-]. Qed.
Lemma fails_fail_if (P : E → Prop) b (e : E) : P e → fails_with P (fail_if b e).
Proof. intros HP s s' e'. unfold fail_if. destruct b; by intros [= <- <-]. Qed.
Lemma fails_try {A} (P : E → Prop) (r : E + A) : (∀ e, r = inl e → P e) → fails_with P (try_ r).
Proof. intros HP s s' e' [= <- ->]. auto. Qed.
Lemma fails_check (P : E → Prop) (p : option E) : (∀ e, p = Some e → P e) → fails_with P (check p).
Proof. intros HP s s' e'. unfold check. destruct p; intros [= <- <-]; auto. Qed.

Lemma keeps_ret {A C} (f : S → C) (x : A) : keeps f (mret x : Meth S E A).
Proof. done. Qed.
Lemma keeps_recv {C} (f : S → C) : keeps f (recv : Meth S E S).
Proof. done. Qed.
Lemma keeps_throw {A C} (f : S → C) (e : E) : keeps f (throw e : Meth S E A).
Proof. done. Qed.
Lemma keeps_assign {C} (f : S → C) g : (∀ s, f (g s) = f s) → keeps f (assign g : Meth S E unit).
Proof. done. Qed.
Lemma keeps_fail_if {C} (f : S → C) b (e : E) : keeps f (fail_if b e).
Proof. done. Qed.
Lemma keeps_try {A C} (f : S → C) (r : E + A) : keeps f (try_ r).
Proof. done. Qed.
Lemma keeps_check {C} (f : S → C) (p : option E) : keeps f (check p).
Proof. intros s. by destruct p. Qed.
Lemma keeps_on_local {T A C} (f : S → C) (x : T) (m : Meth T E A) : keeps f (on_local x m).
Proof. intros s. unfold on_local. by destruct (m x) as [? []]. Qed.
End triples.

#[export] Hint Resolve keeps_bind keeps_ret keeps_recv keeps_throw keeps_fail_if keeps_try keeps_check
  keeps_on_local : golib.

(** Prove [keeps f m] by walking the statements of [m]. *)
Ltac solve_keeps :=
  repeat first
    [ assumption
    | apply keeps_bind; [|intros ?]
    | apply keeps_ret | apply keeps_recv | apply keeps_throw | apply keeps_fail_if | apply keeps_try
    | apply keeps_check | apply keeps_on_local
    | solve [apply keeps_assign; eauto with golib]
    | solve [apply keeps_assign; intros ?; repeat case_match; reflexivity]
    | case_match ].

(** Prove [fails_with P m] up to the errors the statements of [m] throw. *)
Ltac solve_fails :=
  repeat first
    [ assumption
    | apply fails_bind; [|intros ?]
    | apply fails_ret | apply fails_recv | apply fails_assign
    | apply fails_throw | apply fails_fail_if | apply fails_try | apply fails_check
    | case_match ].

(** ** Lists *)

Lemma filter_id {A} (P : A → Prop) `{∀ x, Decision (P x)} (l : list A) :
  (∀ x, x ∈ l → P x) → filter P l = l.
Proof.
  induction l as [|x l IH]; intros Hall; [done|].
  rewrite filter_cons_True by (apply Hall; left). rewrite IH; [done|]. intros y Hy. apply Hall. by right.
Qed.

Lemma filter_ext_in {A} (P Q : A → Prop) `{∀ x, Decision (P x)} `{∀ x, Decision (Q x)} (l : list A) :
  (∀ x, x ∈ l → P x ↔ Q x) → filter P l = filter Q l.
Proof.
  induction l as [|x l IH]; intros Hall; [done|]. rewrite !filter_cons.
  assert (P x ↔ Q x) as HPQ by (apply Hall; left).
  rewrite IH by (intros y Hy; apply Hall; by right). do 2 case_decide; tauto.
Qed.

Lemma Forall_filtered {A} (P Q : A → Prop) `{∀ x, Decision (Q x)} (l : list A) :
  Forall P l → Forall P (filter Q l).
Proof. rewrite !Forall_forall. intros HP x [_ Hx]%list_elem_of_filter. auto. Qed.

Lemma StronglySorted_lookup_lt {A} (R : A → A → Prop) (l : list A) i j x y :
  StronglySorted R l → l !! i = Some x → l !! j = Some y → (i < j)%nat → R x y.
Proof.
  intros Hs. revert i j. induction Hs as [|z l Hs IH Hall]; intros i j Hi Hj Hij; [done|].
  destruct j as [|j]; [lia|]. destruct i as [|i]; cbn in *; [|apply (IH i j); auto; lia].
  injection Hi as ->. rewrite Forall_forall in Hall. by apply Hall, (list_elem_of_lookup_2 _ j).
Qed.

(** The last [n] elements. *)
Definition lastN {A} (n : nat) (l : list A) : list A := drop (length l - n) l.

Lemma lastN_full {A} n (l : list A) x :
  (n ≤ length l)%nat → (0 < n)%nat → lastN n (l ++ [x]) = tail (lastN n l) ++ [x].
Proof.
  intros Hn H0. unfold lastN. rewrite length_app. cbn [length].
  rewrite drop_app_le by lia. replace (length l + 1 - n)%nat with (S (length l - n)) by lia.
  f_equal. replace (S (length l - n))%nat with ((length l - n) + 1)%nat by lia.
  rewrite <- drop_drop. by destruct (drop (length l - n) l).
Qed.

Lemma lastN_short {A} n (l : list A) x : (length l < n)%nat → lastN n (l ++ [x]) = lastN n l ++ [x].
Proof.
  intros Hn. unfold lastN. rewrite length_app. cbn [length].
  replace (length l + 1 - n)%nat with 0%nat by lia. by replace (length l - n)%nat with 0%nat by lia.
Qed.

Lemma lastN_length {A} n (l : list A) : length (lastN n l) = Nat.min n (length l).
Proof. unfold lastN. rewrite length_drop. lia. Qed.

Lemma lastN_lookup {A} n (l : list A) i x :
  l !! i = Some x → (length l ≤ i + n)%nat → x ∈ lastN n l.
Proof.
  intros Hi Hn. pose proof (lookup_lt_Some _ _ _ Hi). apply list_elem_of_lookup. unfold lastN.
  exists (i - (length l - n))%nat. rewrite lookup_drop. by replace (length l - n + (i - (length l - n)))%nat with i by lia.
Qed.
Lemma lastN_all {A} n (l : list A) : (length l ≤ n)%nat → lastN n l = l.
Proof. intros Hn. unfold lastN. by replace (length l - n)%nat with 0%nat by lia. Qed.
Lemma lookup_lastN {A} n (l : list A) i : lastN n l !! i = l !! (length l - n + i)%nat.
Proof. unfold lastN. apply lookup_drop. Qed.

Lemma NoDup_snoc {A} (x : A) l : x ∉ l → NoDup l → NoDup (l ++ [x]).
Proof.
  intros Hx Hl. apply NoDup_app. split; [done|]. split; [|apply NoDup_singleton].
  by intros y Hy ->%list_elem_of_singleton.
Qed.
Lemma Sorted_impl {A} (R R' : A → A → Prop) l : (∀ a b, R a b → R' a b) → Sorted R l → Sorted R' l.
Proof. intros HR. induction 1 as [|a l _ IH Hd]; constructor; [done|]. destruct Hd; constructor. by apply HR. Qed.

(** Decompose a successful run [m s = (s', inr x)] of a method body into the
    successful runs of its statements. *)
Ltac inv_ok H :=
  lazymatch type of H with
  | (throw _) _ = (_, inr _) => discriminate H
  | (_ ≫= _) _ = (_, inr _) =>
      let s := fresh "s" in let x := fresh "x" in
      let H1 := fresh "Hrun" in let H2 := fresh "Hrun" in
      apply bind_ok in H as (s & x & H1 & H2); cbn beta in H2; inv_ok H1; inv_ok H2
  | check _ _ = (_, inr _) => apply check_ok in H as [H ->]
  | try_ _ _ = (_, inr _) => apply try_ok in H as [H ->]
  | fail_if _ _ _ = (_, inr _) => apply fail_if_ok in H as [H ->]
  | on_local _ _ _ = (_, inr _) => apply on_local_ok in H as [H ->]
  | recv _ = (_, inr _) => apply recv_ok in H as [-> ->]
  | assign _ _ = (_, inr _) => apply assign_ok in H as ->
  | mret _ _ = (_, inr _) => injection H as <- <-
  | (if ?b then _ else _) _ = (_, inr _) => destruct b eqn:?; inv_ok H
  | _ => idtac
  end.
