(* ===== verification/GoRuntime.v ===== *)
(** * GoRuntime: the parts of Go and its standard library the program uses

    - [int64]/[int]: values are [Z]; every operation that can overflow wraps
      explicitly ([add64], [sub64], [mul64], [quot64]).
    - [float64]: IEEE-754 binary64 as the executable [spec_float] of the
      standard library (precision 53, emax 1024), with Go's comparisons,
      conversions and the [math] functions used by the sources. Each operation
      rounds: a compiler that fuses a multiplication and an addition, as Go may
      on arm64, is not modelled.
    - [string]: byte strings; [strings.TrimSpace], [ToLower], [ToUpper],
      [Compare].
    - [GoRuntime]: what the language leaves open (conversion of an
      out-of-range float, map iteration order, unstable sorting) and the
      Unicode tables, which only matter for non-ASCII text. *)

From S2P Require Import Prelude.
From Stdlib Require Export SpecFloat.
From Stdlib Require Import Ascii String Zdiv.

Local Open Scope Z_scope.

(** ** 64-bit integers *)

Definition MinInt64 : Z := -9223372036854775808.
Definition MaxInt64 : Z := 9223372036854775807.
Definition in_i64 (z : Z) : Prop := MinInt64 ≤ z ≤ MaxInt64.

(** Two's-complement wrap-around to 64 bits. *)
Definition wrap64 (z : Z) : Z := (z + 9223372036854775808) mod 18446744073709551616 - 9223372036854775808.
Definition add64 (a b : Z) : Z := wrap64 (a + b).
Definition sub64 (a b : Z) : Z := wrap64 (a - b).
Definition mul64 (a b : Z) : Z := wrap64 (a * b).
(** Go's [/] truncates toward zero. *)
Definition quot64 (a b : Z) : Z := wrap64 (Z.quot a b).
(** Unsigned 32- and 64-bit wrap-around. *)
Definition wrapu32 (z : Z) : Z := z mod 4294967296.
Definition wrapu64 (z : Z) : Z := z mod 18446744073709551616.

(** ** Times

    Nanoseconds since the Unix epoch; [time.Time{}] is year 1. [t.Sub(u)]
    saturates at the range of [time.Duration]. *)

Definition zeroTime : Z := -62135596800000000000.
Definition time_sub (t u : Z) : Z := Z.max MinInt64 (Z.min MaxInt64 (t - u)).
Definition UnixMilli (t : Z) : Z := t / 1000000.

(** ** float64 *)

Abbreviation float64 := spec_float.

Definition fadd : float64 → float64 → float64 := SFadd 53 1024.
Definition fsub : float64 → float64 → float64 := SFsub 53 1024.
Definition fmul : float64 → float64 → float64 := SFmul 53 1024.
Definition fdiv : float64 → float64 → float64 := SFdiv 53 1024.
Definition fneg : float64 → float64 := SFopp.
Definition fltb : float64 → float64 → bool := SFltb.
Definition fleb : float64 → float64 → bool := SFleb.
Definition feqb : float64 → float64 → bool := SFeqb.
Abbreviation fgtb a b := (fltb b a).
Abbreviation fgeb a b := (fleb b a).

Definition isNaN (f : float64) : bool := match f with S754_nan => true | _ => false end.
Definition isInf (f : float64) : bool := match f with S754_infinity _ => true | _ => false end.
(** [!math.IsNaN(v) && !math.IsInf(v, 0)] *)
Definition isFinite (f : float64) : bool := negb (isNaN f) && negb (isInf f).

(** [float64(z)] for an integer, round to nearest even. *)
Definition f_of_Z (z : Z) : float64 := binary_normalize 53 1024 z 0 false.
(** The float64 nearest to the decimal literal [n / d]. *)
Definition flit (n d : Z) : float64 := fdiv (f_of_Z n) (f_of_Z d).
Definition f0 : float64 := S754_zero false.
Definition f1 : float64 := f_of_Z 1.

(** Integer part (toward zero) of a finite float. *)
Definition trunc_Z (f : float64) : option Z :=
  match f with
  | S754_finite s m e =>
      let q := if 0 <=? e then Zpos m * 2 ^ e else Zpos m / 2 ^ (- e) in
      Some (if s then - q else q)
  | S754_zero _ => Some 0
  | _ => None
  end.

(** The rounding functions of [math]: [up q r half] says whether the magnitude
    [q + r / 2^(-e)] is rounded up. The result is an integer of at most 53
    significant bits, so it is exact; the sign of zero is kept. *)
Definition round_with (up : bool → Z → Z → Z → bool) (f : float64) : float64 :=
  match f with
  | S754_finite s m e =>
      if 0 <=? e then f
      else
        let d := 2 ^ (- e) in
        let q := Zpos m / d in
        let r := Zpos m mod d in
        let q' := if up s q r (d / 2) then q + 1 else q in
        if q' =? 0 then S754_zero s else binary_normalize 53 1024 (if s then - q' else q') 0 s
  | _ => f
  end.
Definition RoundToEven : float64 → float64 :=
  round_with (λ _ q r half, (half <? r) || ((r =? half) && Z.odd q)).
Definition Round : float64 → float64 := round_with (λ _ _ r half, half <=? r).
Definition Floor : float64 → float64 := round_with (λ s _ r _, s && negb (r =? 0)).
Definition fabs : float64 → float64 := SFabs.

(** ** Strings *)

Definition ascii_lt128 (c : ascii) : bool := (N_of_ascii c <? 128)%N.
Fixpoint str_forallb (p : ascii → bool) (s : string) : bool :=
  match s with
  | EmptyString => true
  | String c s' => p c && str_forallb p s'
  end.
Fixpoint str_map (f : ascii → ascii) (s : string) : string :=
  match s with
  | EmptyString => EmptyString
  | String c s' => String (f c) (str_map f s')
  end.
Definition is_ascii : string → bool := str_forallb ascii_lt128.

Definition is_space (c : ascii) : bool :=
  let n := N_of_ascii c in ((9 <=? n) && (n <=? 13) || (n =? 32))%N.
Definition lower_ascii (c : ascii) : ascii :=
  let n := N_of_ascii c in if ((65 <=? n) && (n <=? 90))%N then ascii_of_N (n + 32) else c.
Definition upper_ascii (c : ascii) : ascii :=
  let n := N_of_ascii c in if ((97 <=? n) && (n <=? 122))%N then ascii_of_N (n - 32) else c.

Definition is_alnum (c : ascii) : bool :=
  let n := N_of_ascii c in ((48 <=? n) && (n <=? 57) || (65 <=? n) && (n <=? 90) || (97 <=? n) && (n <=? 122))%N.

Fixpoint trim_left (s : string) : string :=
  match s with
  | String c s' => if is_space c then trim_left s' else s
  | EmptyString => EmptyString
  end.
Fixpoint trim_right (s : string) : string :=
  match s with
  | EmptyString => EmptyString
  | String c s' =>
      match trim_right s' with
      | EmptyString => if is_space c then EmptyString else String c EmptyString
      | t => String c t
      end
  end.
Definition trim_ascii (s : string) : string := trim_right (trim_left s).

Definition str_eqb : string → string → bool := String.eqb.
(** [strings.Compare]: lexicographic on bytes. *)
Definition str_compare : string → string → comparison := String.compare.
Definition str_ltb (a b : string) : bool :=
  match str_compare a b with Lt => true | _ => false end.

(** ** What the language leaves open *)

(** [less] is a strict weak order on the elements of [l]. *)
Definition weak_order_on {A} (less : A → A → bool) (l : list A) : Prop :=
  (∀ x y, x ∈ l → y ∈ l → less x y = true → less y x = false) ∧
  (∀ x y z, x ∈ l → y ∈ l → z ∈ l → less x y = true → less x z = true ∨ less z y = true).

Class GoRuntime := {
  (** [int64(f)] for a float outside the range of [int64], implementation-defined. *)
  f2i_overflow : float64 → Z;
  f2i_overflow_range : ∀ f, in_i64 (f2i_overflow f);
  (** [strings.TrimSpace], [ToLower], [ToUpper] on text with non-ASCII bytes. *)
  trim_unicode : string → string;
  lower_unicode : string → string;
  upper_unicode : string → string;
  (** The runes [r] with [unicode.IsLetter(r) || unicode.IsDigit(r)] of a text
      with non-ASCII bytes. *)
  alnum_unicode : string → string;
  (** [strings.EqualFold] when one of the texts has non-ASCII bytes. *)
  equal_fold_unicode : string → string → bool;
  trim_unicode_idem : ∀ s, is_ascii s = false →
    let t := trim_unicode s in (if is_ascii t then trim_ascii t else trim_unicode t) = t;
  (** [sort.Slice] and [slices.SortFunc]: some sorted permutation. *)
  sort_slice : ∀ {A : Type}, (A → A → bool) → list A → list A;
  sort_slice_perm : ∀ {A : Type} (less : A → A → bool) l, sort_slice less l ≡ₚ l;
  sort_slice_sorted : ∀ {A : Type} (less : A → A → bool) l,
    weak_order_on less l → Sorted (λ a b, less b a = false) (sort_slice less l);
  (** [for k, v := range m]: some order of the entries. *)
  map_range : ∀ {K V : Type} `{EqDecision K, !Countable K}, gmap K V → list (K * V);
  map_range_perm : ∀ {K V : Type} `{EqDecision K, !Countable K} (m : gmap K V),
    map_range m ≡ₚ map_to_list m;
  (** [math.Float64bits] of a NaN. *)
  nan_bits : Z;
}.

Section runtime.
Context {GR : GoRuntime}.

(** [int64(f)] *)
Definition i64_of_f (f : float64) : Z :=
  match trunc_Z f with
  | Some z => if (MinInt64 <=? z) && (z <=? MaxInt64) then z else f2i_overflow f
  | None => f2i_overflow f
  end.

Definition TrimSpace (s : string) : string := if is_ascii s then trim_ascii s else trim_unicode s.
Definition ToLower (s : string) : string := if is_ascii s then str_map lower_ascii s else lower_unicode s.
Definition ToUpper (s : string) : string := if is_ascii s then str_map upper_ascii s else upper_unicode s.

Definition EqualFold (s t : string) : bool :=
  if is_ascii s && is_ascii t then str_eqb (str_map lower_ascii s) (str_map lower_ascii t)
  else equal_fold_unicode s t.

(** [math.Float64bits] *)
Definition Float64bits (f : float64) : Z :=
  match f with
  | S754_zero s => if s then 2 ^ 63 else 0
  | S754_infinity s => (if s then 2 ^ 63 else 0) + 2047 * 2 ^ 52
  | S754_nan => nan_bits
  | S754_finite s m e =>
      (if s then 2 ^ 63 else 0) +
      (if Zpos (digits2_pos m) =? 53 then (e + 1075) * 2 ^ 52 + (Zpos m - 2 ^ 52) else Zpos m)
  end.
End runtime.

(** [strings.Split(s, sep)] for a separator of one byte, [strings.Join],
    [strings.Contains], [HasPrefix] and [HasSuffix]. *)
Fixpoint Split (sep : ascii) (s : string) : list string :=
  match s with
  | EmptyString => [EmptyString]
  | String c s' =>
      if Ascii.eqb c sep then EmptyString :: Split sep s'
      else match Split sep s' with
           | [] => [String c EmptyString]
           | w :: ws => String c w :: ws
           end
  end.
Fixpoint Join (parts : list string) (sep : string) : string :=
  match parts with
  | [] => EmptyString
  | [w] => w
  | w :: ws => String.append w (String.append sep (Join ws sep))
  end.
(** [strings.SplitN(s, sep, n)] for [n > 0]: at most [n] parts. *)
Fixpoint SplitN (sep : ascii) (n : nat) (s : string) : list string :=
  match s with
  | EmptyString => [EmptyString]
  | String c s' =>
      match n with
      | O | S O => [s]
      | S (S _ as n') =>
          if Ascii.eqb c sep then EmptyString :: SplitN sep n' s'
          else match SplitN sep n s' with
               | [] => [String c EmptyString]
               | w :: ws => String c w :: ws
               end
      end
  end.
(** [strconv.ParseInt(s, 10, 64)]: an optional sign and decimal digits, in range. *)
Fixpoint parse_digits (acc : Z) (s : string) : option Z :=
  match s with
  | EmptyString => Some acc
  | String c s' =>
      let d := Z.of_N (N_of_ascii c) - 48 in
      if (0 <=? d) && (d <=? 9) then parse_digits (10 * acc + d) s' else None
  end.
Definition ParseInt64 (s : string) : option Z :=
  let '(negative, digits) :=
    match s with
    | String "-"%char s' => (true, s')
    | String "+"%char s' => (false, s')
    | _ => (false, s)
    end in
  match digits with
  | EmptyString => None
  | _ => match parse_digits 0 digits with
         | Some u => let z := if negative then - u else u in
                     if (MinInt64 <=? z) && (z <=? MaxInt64) then Some z else None
         | None => None
         end
  end.
Definition HasPrefix (s p : string) : bool := String.prefix p s.
Fixpoint Contains (s sub : string) : bool :=
  String.prefix sub s || match s with EmptyString => false | String _ s' => Contains s' sub end.
Fixpoint HasSuffix (s suffix : string) : bool :=
  str_eqb s suffix || match s with EmptyString => false | String _ s' => HasSuffix s' suffix end.

(** Stable insertion sort: one sort the runtime may use. *)
Fixpoint insert_by {A} (less : A → A → bool) (x : A) (l : list A) : list A :=
  match l with
  | [] => [x]
  | y :: l' => if less y x then y :: insert_by less x l' else x :: l
  end.
Fixpoint sort_by {A} (less : A → A → bool) (l : list A) : list A :=
  match l with
  | [] => []
  | x :: l' => insert_by less x (sort_by less l')
  end.

(** ** CRC-32C ([hash/crc32] with the Castagnoli table) *)

Fixpoint crc_bits (n : nat) (c : Z) : Z :=
  match n with
  | O => c
  | S n' => crc_bits n' (if Z.odd c then Z.lxor (Z.shiftr c 1) 2197175160 else Z.shiftr c 1)
  end.
(** One byte: [table[byte(crc) ^ v] ^ (crc >> 8)]. *)
Definition crc_byte (crc v : Z) : Z :=
  Z.lxor (crc_bits 8 (Z.lxor (Z.land crc 255) v)) (Z.shiftr crc 8).
Definition crc32_Update (crc : Z) (p : list Z) : Z :=
  Z.lxor (foldl crc_byte (Z.lxor crc 4294967295) p) 4294967295.
(** [binary.LittleEndian.PutUint64] *)
Definition le64 (v : Z) : list Z :=
  map (λ i, Z.land (Z.shiftr v (8 * Z.of_nat i)) 255) (seq 0 8).

(** ** Integer lemmas *)

Lemma wrap64_range z : in_i64 (wrap64 z).
Proof. unfold in_i64, wrap64, MinInt64, MaxInt64. pose proof (Z.mod_pos_bound (z + 9223372036854775808) 18446744073709551616). lia. Qed.

Lemma wrap64_id z : in_i64 z → wrap64 z = z.
Proof. unfold in_i64, wrap64, MinInt64, MaxInt64. intros ?. rewrite Z.mod_small; lia. Qed.

(** Overflow of a sum of two non-negative values always shows as a negative result. *)
Lemma add64_nonneg a b :
  0 ≤ a ≤ MaxInt64 → 0 ≤ b ≤ MaxInt64 →
  (a + b ≤ MaxInt64 ∧ add64 a b = a + b) ∨ (MaxInt64 < a + b ∧ add64 a b < 0).
Proof.
  unfold add64. intros Ha Hb. destruct (decide (a + b ≤ MaxInt64)).
  - left. split; [done|]. apply wrap64_id. unfold in_i64, MinInt64 in *. lia.
  - right. unfold wrap64, MaxInt64 in *. split; [lia|].
    replace (a + b + 9223372036854775808)
      with ((a + b - 9223372036854775808) + 1 * 18446744073709551616) by lia.
    rewrite Z.mod_add by lia. rewrite Z.mod_small; lia.
Qed.

Lemma add64_id a b : in_i64 (a + b) → add64 a b = a + b.
Proof. apply wrap64_id. Qed.
Lemma sub64_id a b : in_i64 (a - b) → sub64 a b = a - b.
Proof. apply wrap64_id. Qed.
Lemma mul64_id a b : in_i64 (a * b) → mul64 a b = a * b.
Proof. apply wrap64_id. Qed.
Lemma wrap64_add_l a b : add64 (wrap64 a) b = wrap64 (a + b).
Proof.
  unfold add64, wrap64. f_equal.
  replace ((a + 9223372036854775808) mod 18446744073709551616 - 9223372036854775808 + b + 9223372036854775808)
    with ((a + 9223372036854775808) mod 18446744073709551616 + b) by lia.
  rewrite Zplus_mod_idemp_l. f_equal. lia.
Qed.
Lemma add64_range a b : in_i64 (add64 a b).
Proof. apply wrap64_range. Qed.
Lemma sub64_range a b : in_i64 (sub64 a b).
Proof. apply wrap64_range. Qed.
#[export] Hint Resolve wrap64_range add64_range sub64_range : golib.

(** The start of the bucket of width [d] that holds [t]: Go's [(t / d) * d] *)
Lemma bucket_bounds t d :
  0 ≤ t ≤ MaxInt64 → 0 < d ≤ MaxInt64 →
  let w := mul64 (quot64 t d) d in
  w = d * (t / d) ∧ 0 ≤ w ≤ t ∧ t < w + d.
Proof.
  intros Ht Hd. unfold quot64. cbv zeta.
  pose proof (Z.mul_div_le t d ltac:(lia)). pose proof (Z.mul_succ_div_gt t d ltac:(lia)).
  assert (0 ≤ t / d) by (apply Z.div_pos; lia).
  assert (t / d ≤ t) by (apply Z.div_le_upper_bound; nia).
  rewrite Z.quot_div_nonneg by lia.
  rewrite (wrap64_id (t / d)) by (unfold in_i64, MinInt64; lia).
  rewrite mul64_id by (unfold in_i64, MinInt64; lia). lia.
Qed.

(** ** The order on floats

    Every non-NaN float has a key on which [SFcompare] is the lexicographic
    comparison, so the order facts are integer arithmetic. *)

Definition fkey (f : float64) : Z * Z * Z :=
  match f with
  | S754_infinity true => (-2, 0, 0)
  | S754_finite true m e => (-1, - e, - Zpos m)
  | S754_zero _ => (0, 0, 0)
  | S754_finite false m e => (1, e, Zpos m)
  | S754_infinity false => (2, 0, 0)
  | S754_nan => (3, 0, 0)
  end.
Definition key_lt (a b : Z * Z * Z) : Prop :=
  match a, b with
  | (a1, a2, a3), (b1, b2, b3) => a1 < b1 ∨ (a1 = b1 ∧ (a2 < b2 ∨ (a2 = b2 ∧ a3 < b3)))
  end.

Lemma SFcompare_key a b :
  isNaN a = false → isNaN b = false →
  match SFcompare a b with
  | Some Lt => key_lt (fkey a) (fkey b)
  | Some Eq => fkey a = fkey b
  | Some Gt => key_lt (fkey b) (fkey a)
  | None => False
  end.
Proof.
  destruct a as [s|s| |s m e], b as [s'|s'| |s' m' e']; cbn; try done; intros _ _;
    repeat match goal with s : bool |- _ => destruct s end; cbn; try lia; try done.
  - destruct (Z.compare_spec e e'); try lia. subst.
    destruct (Pos.compare_cont Eq m m') eqn:Hm; cbn;
      change (Pos.compare_cont Eq m m') with (Pos.compare m m') in Hm.
    + apply Pos.compare_eq in Hm. by subst.
    + rewrite Pos.compare_lt_iff in Hm. lia.
    + rewrite Pos.compare_gt_iff in Hm. lia.
  - destruct (Z.compare_spec e e'); try lia. subst.
    destruct (Pos.compare_cont Eq m m') eqn:Hm; cbn;
      change (Pos.compare_cont Eq m m') with (Pos.compare m m') in Hm.
    + apply Pos.compare_eq in Hm. by subst.
    + rewrite Pos.compare_lt_iff in Hm. lia.
    + rewrite Pos.compare_gt_iff in Hm. lia.
Qed.

Lemma fltb_nan_l a : isNaN a = true → ∀ b, fltb a b = false.
Proof. by destruct a. Qed.
Lemma fltb_nan_r b : isNaN b = true → ∀ a, fltb a b = false.
Proof. destruct b; try done; by intros _ []. Qed.

Lemma fltb_key a b :
  isNaN a = false → isNaN b = false → fltb a b = true ↔ key_lt (fkey a) (fkey b).
Proof.
  intros Ha Hb. pose proof (SFcompare_key a b Ha Hb) as H. unfold fltb, SFltb.
  destruct (fkey a) as [[??]?], (fkey b) as [[??]?], (SFcompare a b) as [[]|]; cbn in *;
    simplify_eq; split; intros; try done; lia.
Qed.
Lemma fleb_key a b :
  isNaN a = false → isNaN b = false → fleb a b = true ↔ ¬ key_lt (fkey b) (fkey a).
Proof.
  intros Ha Hb. pose proof (SFcompare_key a b Ha Hb) as H. unfold fleb, SFleb.
  destruct (fkey a) as [[??]?], (fkey b) as [[??]?], (SFcompare a b) as [[]|]; cbn in *;
    simplify_eq; split; intros; try done; lia.
Qed.
Lemma feqb_key a b :
  isNaN a = false → isNaN b = false → feqb a b = true ↔ fkey a = fkey b.
Proof.
  intros Ha Hb. pose proof (SFcompare_key a b Ha Hb) as H. unfold feqb, SFeqb.
  destruct (fkey a) as [[??]?], (fkey b) as [[??]?], (SFcompare a b) as [[]|]; cbn in *;
    simplify_eq; split; intros; simplify_eq; try done; lia.
Qed.

Lemma fltb_not_nan a b : fltb a b = true → isNaN a = false ∧ isNaN b = false.
Proof. destruct a, b; done. Qed.

(** Asymmetry, transitivity and negative transitivity (on non-NaN values). *)
Lemma fltb_asym a b : fltb a b = true → fltb b a = false.
Proof.
  intros H. destruct (fltb_not_nan _ _ H) as [Ha Hb].
  apply not_true_iff_false. rewrite fltb_key in H |- * by done.
  destruct (fkey a) as [[??]?], (fkey b) as [[??]?]; cbn in *. lia.
Qed.
Lemma fltb_irrefl a : fltb a a = false.
Proof. destruct (fltb a a) eqn:H; [|done]. by rewrite (fltb_asym _ _ H) in H. Qed.
Lemma fltb_trans a b c : fltb a b = true → fltb b c = true → fltb a c = true.
Proof.
  intros H1 H2. destruct (fltb_not_nan _ _ H1), (fltb_not_nan _ _ H2).
  rewrite fltb_key in H1, H2 |- * by done.
  destruct (fkey a) as [[??]?], (fkey b) as [[??]?], (fkey c) as [[??]?]; cbn in *. lia.
Qed.
Lemma fltb_ntrans a b c :
  isNaN c = false → fltb a b = true → fltb a c = true ∨ fltb c b = true.
Proof.
  intros Hc H. destruct (fltb_not_nan _ _ H).
  rewrite !fltb_key in * by done.
  destruct (fkey a) as [[??]?], (fkey b) as [[??]?], (fkey c) as [[??]?]; cbn in *. lia.
Qed.
Lemma fleb_ltb a b : isNaN a = false → isNaN b = false → fleb a b = negb (fltb b a).
Proof.
  intros. apply eq_true_iff_eq. rewrite negb_true_iff, <- not_true_iff_false.
  by rewrite fleb_key, fltb_key.
Qed.

(** Two non-zero floats that compare equal are the same float. *)
Lemma fkey_inj a b : fkey a = fkey b → fkey a ≠ (0, 0, 0) → a = b.
Proof. destruct a as [[]|[]| |[] ??], b as [[]|[]| |[] ??]; cbn; intros; simplify_eq; try done; f_equal; lia. Qed.

(** ** Truncation, rounding and conversion *)

Section conv_lemmas.
Context {GR : GoRuntime}.

Lemma i64_of_f_range f : in_i64 (i64_of_f f).
Proof.
  unfold i64_of_f. repeat split_match; auto using f2i_overflow_range.
  reflect_bools. split; lia.
Qed.
End conv_lemmas.

(** ** Strings *)

Lemma trim_left_idem s : trim_left (trim_left s) = trim_left s.
Proof. induction s as [|c s IH]; [done|]. cbn. destruct (is_space c) eqn:Hc; [done|]. cbn. by rewrite Hc. Qed.

Lemma trim_right_idem s : trim_right (trim_right s) = trim_right s.
Proof.
  induction s as [|c s IH]; [done|]. cbn.
  destruct (trim_right s) as [|c' t] eqn:Ht.
  - destruct (is_space c) eqn:Hc; [done|]. cbn. by rewrite Hc.
  - cbn in *. by rewrite IH.
Qed.

Lemma trim_left_right s : trim_left s = s → trim_left (trim_right s) = trim_right s.
Proof.
  destruct s as [|c s]; [done|]. cbn. destruct (is_space c) eqn:Hc.
  - intros Heq. exfalso. assert (Hlen : ∀ t, (String.length (trim_left t) ≤ String.length t)%nat).
    { intros t. induction t as [|c' t IH]; cbn; [lia|]. destruct (is_space c'); cbn; lia. }
    specialize (Hlen s). rewrite Heq in Hlen. cbn in Hlen. lia.
  - intros _. destruct (trim_right s); cbn; by rewrite Hc.
Qed.

Lemma trim_ascii_idem s : trim_ascii (trim_ascii s) = trim_ascii s.
Proof.
  unfold trim_ascii.
  rewrite (trim_left_right (trim_left s)) by apply trim_left_idem. apply trim_right_idem.
Qed.

Lemma str_forallb_trim_left p s : str_forallb p s = true → str_forallb p (trim_left s) = true.
Proof.
  induction s as [|c s IH]; [done|]. cbn. intros H. apply andb_true_iff in H as [Hc Hs].
  destruct (is_space c); [auto|]. cbn. by rewrite Hc, Hs.
Qed.
Lemma str_forallb_trim_right p s : str_forallb p s = true → str_forallb p (trim_right s) = true.
Proof.
  induction s as [|c s IH]; [done|]. cbn. intros H. apply andb_true_iff in H as [Hc Hs].
  specialize (IH Hs). destruct (trim_right s) as [|c' t].
  - destruct (is_space c); cbn; [done|]. by rewrite Hc.
  - cbn in *. by rewrite Hc, IH.
Qed.
Lemma is_ascii_trim s : is_ascii s = true → is_ascii (trim_ascii s) = true.
Proof. intros H. by apply str_forallb_trim_right, str_forallb_trim_left. Qed.

Section string_lemmas.
Context {GR : GoRuntime}.

Lemma TrimSpace_idem s : TrimSpace (TrimSpace s) = TrimSpace s.
Proof.
  unfold TrimSpace. destruct (is_ascii s) eqn:Hs.
  - rewrite is_ascii_trim by done. apply trim_ascii_idem.
  - by apply trim_unicode_idem.
Qed.
End string_lemmas.

(** ** Sorting *)

Lemma insert_by_perm {A} less (x : A) l : insert_by less x l ≡ₚ x :: l.
Proof.
  induction l as [|y l IH]; [done|]. cbn. destruct (less y x); [|done].
  rewrite IH. by constructor.
Qed.
Lemma sort_by_perm {A} less (l : list A) : sort_by less l ≡ₚ l.
Proof. induction l as [|x l IH]; [done|]. cbn. by rewrite insert_by_perm, IH. Qed.

Lemma weak_order_on_sub {A} (less : A → A → bool) l k :
  (∀ x, x ∈ k → x ∈ l) → weak_order_on less l → weak_order_on less k.
Proof. intros Hsub [H1 H2]. split; intros; [apply H1|apply H2]; auto. Qed.

Lemma insert_by_sorted {A} (less : A → A → bool) x l :
  weak_order_on less (x :: l) →
  Sorted (λ a b, less b a = false) l → Sorted (λ a b, less b a = false) (insert_by less x l).
Proof.
  intros Hw Hl. induction Hl as [|y l Hl IH Hhd]; cbn; [by repeat constructor|].
  destruct (less y x) eqn:Hyx; [|by repeat constructor].
  assert (Hxy : less x y = false).
  { destruct Hw as [Has _]. apply Has; [| |done]; rewrite !elem_of_cons; auto. }
  constructor.
  - apply IH. eapply weak_order_on_sub; [|exact Hw]. intros z. rewrite !elem_of_cons. tauto.
  - inversion Hhd as [|z l' Hz]; subst; cbn; [by constructor|].
    destruct (less z x); by constructor.
Qed.

Lemma sort_by_sorted {A} (less : A → A → bool) l :
  weak_order_on less l → Sorted (λ a b, less b a = false) (sort_by less l).
Proof.
  induction l as [|x l IH]; intros Hl; cbn; [constructor|].
  apply insert_by_sorted.
  - eapply weak_order_on_sub; [|exact Hl]. intros y. by rewrite !elem_of_cons, sort_by_perm.
  - apply IH. eapply weak_order_on_sub; [|exact Hl]. intros y. rewrite elem_of_cons. auto.
Qed.

(** [sort.SliceStable]: some sorted permutation. *)
Class StableSort := {
  SliceStable : ∀ {A : Type}, (A → A → bool) → list A → list A;
  SliceStable_perm : ∀ {A : Type} (less : A → A → bool) l, SliceStable less l ≡ₚ l;
  SliceStable_sorted : ∀ {A : Type} (less : A → A → bool) l,
    weak_order_on less l → Sorted (λ a b, less b a = false) (SliceStable less l);
}.
Definition insertionSort : StableSort :=
  {| SliceStable _ := sort_by; SliceStable_perm _ := sort_by_perm; SliceStable_sorted _ := sort_by_sorted |}.

(** ** The order of strings *)

Lemma str_compare_Lt a b : str_compare a b = Lt ↔ (a ≤ b)%string ∧ a ≠ b.
Proof.
  unfold str_compare, String.le, String.leb. destruct (String.compare a b) eqn:Hc; cbn.
  - apply String.compare_eq_iff in Hc as ->. naive_solver.
  - split; [|done]. intros _. split; [done|]. intros ->.
    pose proof (String.compare_antisym b b) as Hb. rewrite Hc in Hb. discriminate Hb.
  - naive_solver.
Qed.
Lemma str_lt_trans a b c : str_compare a b = Lt → str_compare b c = Lt → str_compare a c = Lt.
Proof.
  rewrite !str_compare_Lt. intros [Hab Hne] [Hbc Hne']. split; [by etrans|]. intros ->.
  apply Hne. by apply (anti_symm String.le).
Qed.
Lemma str_lt_total a b : str_compare a b = Lt ∨ a = b ∨ str_compare b a = Lt.
Proof.
  rewrite !str_compare_Lt. destruct (decide (a = b)); [tauto|].
  destruct (total String.le a b); naive_solver.
Qed.
Lemma str_lt_irrefl a : str_compare a a ≠ Lt.
Proof. rewrite str_compare_Lt. tauto. Qed.

(** [a] does not come after [b]. *)
Definition str_le (a b : string) : Prop := str_ltb b a = false.

Lemma str_ltb_lt a b : str_ltb a b = true ↔ str_compare a b = Lt.
Proof. unfold str_ltb. by destruct (str_compare a b). Qed.
Lemma str_le_alt a b : str_le a b ↔ str_compare b a ≠ Lt.
Proof. unfold str_le, str_ltb. by destruct (str_compare b a). Qed.
Lemma str_le_antisym a b : str_le a b → str_le b a → a = b.
Proof. rewrite !str_le_alt. destruct (str_lt_total a b) as [?|[?|?]]; naive_solver. Qed.
#[export] Instance str_le_trans : Transitive str_le.
Proof.
  intros a b c. rewrite !str_le_alt. intros Hba Hcb Hca.
  destruct (str_lt_total a b) as [Hab|[->|Hab]]; [|by apply Hcb|by apply Hba].
  by apply Hcb, (str_lt_trans c a b).
Qed.

(** Sorting by a string key is sorting by a strict weak order. *)
Lemma str_weak_order {A} (key : A → string) l : weak_order_on (λ a b, str_ltb (key a) (key b)) l.
Proof.
  split.
  - intros x y _ _. rewrite str_ltb_lt. intros Hxy. apply str_le_alt. intros Hyx.
    exact (str_lt_irrefl _ (str_lt_trans _ _ _ Hxy Hyx)).
  - intros x y z _ _ _. rewrite !str_ltb_lt. intros Hxy.
    destruct (str_lt_total (key x) (key z)) as [?|[Heq|Hzx]]; [by left|right; by rewrite <- Heq|].
    right. by apply (str_lt_trans _ (key x)).
Qed.

(** ** Two concrete runtimes

    The amd64 and arm64 ports of Go differ in the conversion of an out-of-range
    float: amd64 yields the minimum, arm64 saturates. Non-ASCII text is trimmed
    and case-mapped bytewise, which is one behaviour the class allows. *)

Program Definition go_amd64 : GoRuntime := {|
  f2i_overflow _ := MinInt64;
  trim_unicode := trim_ascii;
  lower_unicode := str_map lower_ascii;
  upper_unicode := str_map upper_ascii;
  alnum_unicode s := s;
  equal_fold_unicode := String.eqb;
  sort_slice _ := sort_by;
  map_range _ _ _ _ := map_to_list;
  nan_bits := 9221120237041090561;
|}.
Next Obligation. intros f. unfold in_i64, MinInt64, MaxInt64. lia. Qed.
Next Obligation. intros s _. cbn. destruct (is_ascii _); apply trim_ascii_idem. Qed.
Next Obligation. intros. apply sort_by_perm. Qed.
Next Obligation. intros. by apply sort_by_sorted. Qed.
Next Obligation. done. Qed.

Definition f2i_saturate (f : float64) : Z :=
  match f with
  | S754_infinity s | S754_finite s _ _ => if s then MinInt64 else MaxInt64
  | _ => 0
  end.
Program Definition go_arm64 : GoRuntime := {|
  f2i_overflow := f2i_saturate;
  trim_unicode := trim_ascii;
  lower_unicode := str_map lower_ascii;
  upper_unicode := str_map upper_ascii;
  alnum_unicode s := s;
  equal_fold_unicode := String.eqb;
  sort_slice _ := sort_by;
  map_range _ _ _ _ := map_to_list;
  nan_bits := 9221120237041090561;
|}.
Next Obligation. intros [|[]| |[] ??]; unfold f2i_saturate, in_i64, MinInt64, MaxInt64; lia. Qed.
Next Obligation. intros s _. cbn. destruct (is_ascii _); apply trim_ascii_idem. Qed.
Next Obligation. intros. apply sort_by_perm. Qed.
Next Obligation. intros. by apply sort_by_sorted. Qed.
Next Obligation. done. Qed.

(** A list sorted by a key whose values are distinct has only one sorted order,
    so an unstable sort is deterministic on it. *)
Lemma sorted_perm_unique {A} (key : A → Z) (l k : list A) :
  l ≡ₚ k → Sorted (λ a b, (key b <? key a) = false) l →
  StronglySorted (λ a b, key a < key b) k → l = k.
Proof.
  intros Hp Hl Hk.
  apply Sorted_StronglySorted in Hl; [|intros a b c ?%Z.ltb_ge ?%Z.ltb_ge; apply Z.ltb_ge; lia].
  revert l Hp Hl. induction Hk as [|x k Hk IH Hx]; intros l Hp Hl.
  - by apply Permutation_nil_r in Hp.
  - destruct Hl as [|y l Hl Hy]; [by apply Permutation_nil_l in Hp|].
    assert (y = x) as ->.
    { assert (y ∈ x :: k) as Hyk by (rewrite <- Hp; left).
      assert (x ∈ y :: l) as Hxl by (rewrite Hp; left).
      apply elem_of_cons in Hyk as [?|Hyk]; [done|].
      apply elem_of_cons in Hxl as [?|Hxl]; [done|].
      rewrite Forall_forall in Hx, Hy. specialize (Hx y Hyk). specialize (Hy x Hxl).
      apply Z.ltb_ge in Hy. lia. }
    f_equal. apply IH; [by apply Permutation_cons_inv in Hp|done].
Qed.

Section sort_lemmas.
Context {GR : GoRuntime}.

(** Sorting by an integer key is sorting by a strict weak order. *)
Lemma key_weak_order {A} (key : A → Z) l : weak_order_on (λ a b, key a <? key b) l.
Proof. split; intros x y; [|intros z]; rewrite ?Z.ltb_lt, ?Z.ltb_ge; lia. Qed.

Lemma sort_slice_key {A} (key : A → Z) (l k : list A) :
  l ≡ₚ k → StronglySorted (λ a b, key a < key b) k →
  sort_slice (λ a b, key a <? key b) l = k.
Proof.
  intros Hp Hk. apply (sorted_perm_unique key); [by rewrite sort_slice_perm| |done].
  apply sort_slice_sorted, key_weak_order.
Qed.

Lemma weak_order_trans {A} (less : A → A → bool) :
  (∀ l, weak_order_on less l) → Transitive (λ a b, less b a = false).
Proof.
  intros Hw a b c Hba Hcb. destruct (less c a) eqn:Hca; [|done].
  destruct (Hw [c; a; b]) as [_ Hn].
  destruct (Hn c a b ltac:(left) ltac:(right; left) ltac:(right; right; left) Hca); congruence.
Qed.
(** Two sorted lists of the same elements are one list when elements that
    compare equal are equal: an unstable sort is then as good as a stable one,
    and the order in which it gets its elements does not matter. *)
Lemma sorted_unique {A} (less : A → A → bool) (l k : list A) :
  (∀ l, weak_order_on less l) →
  (∀ x y, x ∈ l → y ∈ l → less x y = false → less y x = false → x = y) →
  l ≡ₚ k → Sorted (λ a b, less b a = false) l → Sorted (λ a b, less b a = false) k → l = k.
Proof.
  intros Hw Hanti Hp Hl Hk. pose proof (weak_order_trans less Hw) as Htr.
  apply (Sorted_unique_strong (λ a b, less b a = false)); [|done..].
  intros x y Hx Hy. rewrite <- Hp in Hy. auto.
Qed.
Lemma sort_slice_reference {A} (less : A → A → bool) (l k : list A) :
  (∀ l, weak_order_on less l) →
  (∀ x y, x ∈ l → y ∈ l → less x y = false → less y x = false → x = y) →
  l ≡ₚ k → sort_slice less l = sort_by less k.
Proof.
  intros Hw Hanti Hp. apply (sorted_unique less); [done| | |by apply sort_slice_sorted|by apply sort_by_sorted].
  - intros x y. rewrite !sort_slice_perm. auto.
  - by rewrite sort_slice_perm, sort_by_perm.
Qed.

(** Strings sorted in any way are in the one order of [str_le]. *)
Lemma sort_strings_reference (l k : list string) : l ≡ₚ k → sort_slice str_ltb l = sort_by str_ltb k.
Proof.
  apply sort_slice_reference; [apply (str_weak_order id)|]. intros x y _ _ Hxy Hyx. by apply str_le_antisym.
Qed.

(** Sorting by an injective string key. *)
Lemma sort_by_key_reference {A} (key : A → string) (l k : list A) :
  NoDup (key <$> l) → l ≡ₚ k →
  sort_slice (λ a b, str_ltb (key a) (key b)) l = sort_by (λ a b, str_ltb (key a) (key b)) k.
Proof.
  intros Hnd. apply sort_slice_reference; [apply str_weak_order|].
  intros x y Hx Hy Hxy Hyx. assert (Heq : key x = key y) by by apply str_le_antisym.
  apply list_elem_of_lookup in Hx as [i Hi], Hy as [j Hj].
  assert (i = j) as ->; [|congruence].
  apply (NoDup_lookup (key <$> l) i j (key x)); [done| |]; rewrite list_lookup_fmap.
  - by rewrite Hi.
  - by rewrite Hj, Heq.
Qed.
End sort_lemmas.
