(* ===== verification/Shared.v ===== *)
(** * Shared: internal/shared/problem, validation, naming

    - [Problem] is [problem.Problem]; a nil [*Problem] is [None]. A message
      keeps its format string and arguments instead of the rendered text.
    - [validation]: the validators and [Collect] (first non-nil problem).
    - [naming]: the canonical forms of venues, instruments and event types. *)

From S2P Require Import Prelude GoRuntime.
From Stdlib Require Import Ascii String.

Local Open Scope string_scope.
Local Open Scope Z_scope.

(** ** internal/shared/problem/problem.go *)

Inductive ProblemCode :=
| ValidationFailed | InvalidArgument
| NotFound | Conflict | Internal | Unavailable
| OutOfOrder | Duplicate
| IntegrityViolation.

#[export] Instance ProblemCode_eq_dec : EqDecision ProblemCode.
Proof. solve_decision. Defined.

(** Dynamic values used as format arguments and details. *)
Inductive any :=
| AnyInt (z : Z)
| AnyFloat (f : float64)
| AnyStr (s : string)
| AnyStrs (l : list string).

Record message := Msg { msg_format : string; msg_args : list any }.

Record Problem := MkProblem {
  Code : ProblemCode;
  Message : message;
  Details : gmap string any;
  Cause : option string;
  Retryable : bool;
}.
#[export] Instance Problem_eta : Eta Problem := λ r,
  MkProblem (Code r) (Message r) (Details r) (Cause r) (Retryable r).

Definition Newf (code : ProblemCode) (format : string) (args : list any) : Problem :=
  MkProblem code (Msg format args) ∅ None false.
Definition New (code : ProblemCode) (msg : string) : Problem := Newf code msg [].
Definition WithDetail (p : option Problem) (key : string) (value : any) : option Problem :=
  match p with
  | None => None
  | Some p => Some (p <| Details ::= <[key := value]> |>)
  end.
Definition WithRetryable (p : option Problem) : option Problem :=
  match p with
  | None => None
  | Some p => Some (p <| Retryable := true |>)
  end.
Definition Wrap (err : string) (code : ProblemCode) (msg : string) : Problem :=
  (New code msg) <| Cause := Some err |>.

(** [problem.WithDetail] on a non-nil problem. *)
Definition with_detail (p : Problem) (key : string) (value : any) : Problem :=
  p <| Details ::= <[key := value]> |>.

(** ** internal/shared/validation/validation.go *)

Section validation.
Context {GR : GoRuntime}.

Definition NonEmptyString (fieldName value : string) : option Problem :=
  if str_eqb (TrimSpace value) "" then
    Some (with_detail (Newf ValidationFailed "%s must not be empty" [AnyStr fieldName]) "field" (AnyStr fieldName))
  else None.

Definition MaxLength (fieldName value : string) (max : Z) : option Problem :=
  if max <? Z.of_nat (String.length value) then
    Some (with_detail (with_detail
      (Newf ValidationFailed "%s must not exceed %d characters" [AnyStr fieldName; AnyInt max])
      "field" (AnyStr fieldName)) "max" (AnyInt max))
  else None.

Definition Positive (fieldName : string) (value : float64) : option Problem :=
  if fleb value f0 then
    Some (with_detail (with_detail
      (Newf ValidationFailed "%s must be positive, got %s" [AnyStr fieldName; AnyFloat value])
      "field" (AnyStr fieldName)) "value" (AnyFloat value))
  else None.

Definition NonNegative (fieldName : string) (value : float64) : option Problem :=
  if fltb value f0 then
    Some (with_detail (with_detail
      (Newf ValidationFailed "%s must be non-negative, got %s" [AnyStr fieldName; AnyFloat value])
      "field" (AnyStr fieldName)) "value" (AnyFloat value))
  else None.

Definition WithinRangeInclusive (fieldName : string) (value min max : float64) : option Problem :=
  if fltb value min || fgtb value max then
    Some (with_detail (with_detail (with_detail
      (Newf ValidationFailed "%s must be in [%s, %s], got %s"
         [AnyStr fieldName; AnyFloat min; AnyFloat max; AnyFloat value])
      "field" (AnyStr fieldName)) "min" (AnyFloat min)) "max" (AnyFloat max))
  else None.

Fixpoint one_of (value : string) (allowed : list string) : bool :=
  match allowed with
  | [] => false
  | a :: rest => if str_eqb a value then true else one_of value rest
  end.
Definition OneOf (fieldName value : string) (allowed : list string) : option Problem :=
  if one_of value allowed then None
  else Some (with_detail (with_detail
    (Newf ValidationFailed "%s must be one of %v, got %q" [AnyStr fieldName; AnyStrs allowed; AnyStr value])
    "field" (AnyStr fieldName)) "value" (AnyStr value)).

Definition PositiveInt (fieldName : string) (value : Z) : option Problem :=
  if value <=? 0 then
    Some (with_detail (with_detail
      (Newf ValidationFailed "%s must be positive, got %d" [AnyStr fieldName; AnyInt value])
      "field" (AnyStr fieldName)) "value" (AnyInt value))
  else None.

Definition NonNegativeInt (fieldName : string) (value : Z) : option Problem :=
  if value <? 0 then
    Some (with_detail (with_detail
      (Newf ValidationFailed "%s must be non-negative, got %d" [AnyStr fieldName; AnyInt value])
      "field" (AnyStr fieldName)) "value" (AnyInt value))
  else None.

Definition NonEmptySliceLen (fieldName : string) (length : Z) : option Problem :=
  if length =? 0 then
    Some (with_detail (Newf ValidationFailed "%s must not be empty" [AnyStr fieldName]) "field" (AnyStr fieldName))
  else None.
End validation.

Fixpoint Collect (validators : list (option Problem)) : option Problem :=
  match validators with
  | [] => None
  | Some p :: _ => Some p
  | None :: rest => Collect rest
  end.

(** ** internal/shared/naming/naming.go *)

Fixpoint str_filter (p : ascii → bool) (s : string) : string :=
  match s with
  | EmptyString => EmptyString
  | String c s' => if p c then String c (str_filter p s') else str_filter p s'
  end.
Definition is_separator (c : ascii) : bool :=
  existsb (λ d, Ascii.eqb c d) ["/"%char; "-"%char; "_"%char; "."%char].

Section naming.
Context {GR : GoRuntime}.

Definition CanonicalVenue (venue : string) : string := ToUpper (TrimSpace venue).
Definition CanonicalInstrument (instrument : string) : string :=
  let s := ToUpper (TrimSpace instrument) in
  str_filter (λ c, negb (is_separator c)) s.
Definition CanonicalSymbol (venue instrument : string) : string :=
  CanonicalVenue venue ++ ":" ++ CanonicalInstrument instrument.
Definition NormalizeEventType (eventType : string) : string := ToLower (TrimSpace eventType).
Definition NormalizeTimeframe (tf : string) : string := ToLower (TrimSpace tf).
Definition NormalizeSide (side : string) : string := ToLower (TrimSpace side).
End naming.

Fixpoint StripMarketType (instrument : string) : string :=
  match instrument with
  | EmptyString => EmptyString
  | String c s => if Ascii.eqb c ":"%char then EmptyString else String c (StripMarketType s)
  end.

(** ** Lemmas *)

Lemma Collect_none l : Collect l = None ↔ Forall (λ p, p = None) l.
Proof.
  induction l as [|[p|] l IH]; cbn.
  - done.
  - split; [done|]. by inversion 1.
  - rewrite IH. split; [by constructor|by inversion 1].
Qed.

Lemma PositiveInt_none f z : PositiveInt f z = None ↔ 0 < z.
Proof. unfold PositiveInt. destruct (Z.leb_spec z 0); split; intros; try done; lia. Qed.
Lemma NonNegativeInt_none f z : NonNegativeInt f z = None ↔ 0 ≤ z.
Proof. unfold NonNegativeInt. destruct (Z.ltb_spec z 0); split; intros; try done; lia. Qed.
Lemma OneOf_none f v l : OneOf f v l = None ↔ v ∈ l.
Proof.
  unfold OneOf. assert (Hin : one_of v l = true ↔ v ∈ l).
  { induction l as [|a l IH]; cbn; [by rewrite elem_of_nil|].
    rewrite elem_of_cons. unfold str_eqb. destruct (String.eqb_spec a v) as [->|Hne].
    - naive_solver.
    - rewrite IH. naive_solver. }
  destruct (one_of v l); naive_solver.
Qed.

(** A validator reports nothing else than [ValidationFailed]. *)
Definition validates (o : option Problem) : Prop := ∀ p, o = Some p → Code p = ValidationFailed.

Lemma Collect_validates l : Forall validates l → validates (Collect l).
Proof.
  induction 1 as [|[p|] l Hp Hl IH]; cbn; [by intros p|by intros p' [= <-]; apply Hp|done].
Qed.

Section shared_lemmas.
Context {GR : GoRuntime}.

Lemma NonEmptyString_validates f s : validates (NonEmptyString f s).
Proof. unfold NonEmptyString. case_match; by intros p [= <-]. Qed.
Lemma PositiveInt_validates f z : validates (PositiveInt f z).
Proof. unfold PositiveInt. case_match; by intros p [= <-]. Qed.
Lemma NonNegativeInt_validates f z : validates (NonNegativeInt f z).
Proof. unfold NonNegativeInt. case_match; by intros p [= <-]. Qed.
Lemma Positive_validates f z : validates (Positive f z).
Proof. unfold Positive. case_match; by intros p [= <-]. Qed.
Lemma NonNegative_validates f z : validates (NonNegative f z).
Proof. unfold NonNegative. case_match; by intros p [= <-]. Qed.
Lemma OneOf_validates f s l : validates (OneOf f s l).
Proof. unfold OneOf. case_match; by intros p [= <-]. Qed.

Lemma NonEmptyString_none f s : NonEmptyString f s = None ↔ TrimSpace s ≠ "".
Proof. unfold NonEmptyString, str_eqb. destruct (String.eqb_spec (TrimSpace s) ""); naive_solver. Qed.
End shared_lemmas.

#[export] Hint Resolve NonEmptyString_validates PositiveInt_validates NonNegativeInt_validates
  Positive_validates NonNegative_validates OneOf_validates Forall_nil_2 Forall_cons_2 : golib.

(** The validators that passed, as the facts they establish. *)
Ltac collect_facts :=
  repeat match goal with
  | H : Collect _ = None |- _ => rewrite Collect_none, ?Forall_cons, ?Forall_nil in H
  | H : _ ∧ _ |- _ => destruct H
  | H : PositiveInt _ _ = None |- _ => rewrite PositiveInt_none in H
  | H : NonNegativeInt _ _ = None |- _ => rewrite NonNegativeInt_none in H
  | H : NonEmptyString _ _ = None |- _ => rewrite NonEmptyString_none in H
  | H : OneOf _ _ _ = None |- _ => rewrite OneOf_none in H
  end.
