(* ===== verification/Candle.v ===== *)
(** * Candle: internal/core/aggregation/domain/candle.go, timeframe.go, candle_rollup.go

    The OHLCV candle aggregate. [CandleV1] carries every field of the Go struct,
    the exported float mirrors and the unexported fixed-point fields; every
    method is a [Meth CandleV1 Problem] whose receiver keeps the assignments made
    before an error return. [RollupCandle] folds closed candles of a lower
    timeframe. The abstract specification is [ohlcv], the summary of a list of
    fixed-point trades. *)

From S2P Require Import Prelude GoRuntime Shared.

Local Open Scope string_scope.
Local Open Scope list_scope.
Local Open Scope Z_scope.

(** ** timeframe.go *)

Definition timeframeToMs : gmap string Z := list_to_map [
  ("1s", 1000); ("5s", 5000); ("1m", 60000); ("5m", 300000); ("15m", 900000);
  ("30m", 1800000); ("1h", 3600000); ("4h", 14400000); ("1d", 86400000)].

(** ** candle.go *)

Definition candleFixedScale : Z := 100000000.
Definition AllowedCandleTimeframes : list string :=
  ["1s"; "5s"; "1m"; "5m"; "15m"; "30m"; "1h"; "4h"; "1d"].

Record CandleKey := MkCandleKey { key_Venue : string; key_Instrument : string; key_Timeframe : string }.

Record CandleV1 := MkCandleV1 {
  Venue : string;
  Instrument : string;
  Timeframe : string;
  WindowStartTs : Z;
  WindowEndTs : Z;
  Open : float64;
  High : float64;
  Low : float64;
  ClosePrice : float64;
  Volume : float64;
  BuyVolume : float64;
  SellVolume : float64;
  TradeCount : Z;
  SeqFirst : Z;
  SeqLast : Z;
  IsClosed : bool;
  openFixed : Z;
  highFixed : Z;
  lowFixed : Z;
  closeFixed : Z;
  volumeFixed : Z;
  buyVolumeFixed : Z;
  sellVolumeFixed : Z;
}.
#[export] Instance CandleV1_eta : Eta CandleV1 := λ r,
  MkCandleV1 (Venue r) (Instrument r) (Timeframe r) (WindowStartTs r) (WindowEndTs r)
    (Open r) (High r) (Low r) (ClosePrice r) (Volume r) (BuyVolume r) (SellVolume r)
    (TradeCount r) (SeqFirst r) (SeqLast r) (IsClosed r)
    (openFixed r) (highFixed r) (lowFixed r) (closeFixed r)
    (volumeFixed r) (buyVolumeFixed r) (sellVolumeFixed r).

Abbreviation CandleM := (Meth CandleV1 Problem).

Record CandleClosed := NewCandleClosed { closed_candle : CandleV1 }.

Definition Key (c : CandleV1) : CandleKey := MkCandleKey (Venue c) (Instrument c) (Timeframe c).

Definition fromFixed (value scale : Z) : float64 := fdiv (f_of_Z value) (f_of_Z scale).

Definition syncFromFixed : CandleM unit := assign (λ c, c
  <| Open := fromFixed (openFixed c) candleFixedScale |>
  <| High := fromFixed (highFixed c) candleFixedScale |>
  <| Low := fromFixed (lowFixed c) candleFixedScale |>
  <| ClosePrice := fromFixed (closeFixed c) candleFixedScale |>
  <| Volume := fromFixed (volumeFixed c) candleFixedScale |>
  <| BuyVolume := fromFixed (buyVolumeFixed c) candleFixedScale |>
  <| SellVolume := fromFixed (sellVolumeFixed c) candleFixedScale |>).

Section candle.
Context {GR : GoRuntime}.

Definition TimeframeToMs (tf : string) : Problem + Z :=
  match timeframeToMs !! ToLower (TrimSpace tf) with
  | Some ms => inr ms
  | None => inl (Newf ValidationFailed "unsupported timeframe %q" [AnyStr tf])
  end.

Definition NewCandleKey (venue instrument timeframe : string) : Problem + CandleKey :=
  match Collect [NonEmptyString "venue" venue; NonEmptyString "instrument" instrument;
                 OneOf "timeframe" timeframe AllowedCandleTimeframes] with
  | Some p => inl p
  | None => inr (MkCandleKey (TrimSpace venue) (TrimSpace instrument) (TrimSpace timeframe))
  end.

Definition NewCandleV1 (venue instrument timeframe : string) (windowStartTs : Z) : Problem + CandleV1 :=
  match Collect [NonEmptyString "venue" venue; NonEmptyString "instrument" instrument;
                 OneOf "timeframe" timeframe AllowedCandleTimeframes;
                 NonNegativeInt "window_start_ts" windowStartTs] with
  | Some p => inl p
  | None => inr (MkCandleV1 (TrimSpace venue) (TrimSpace instrument) (TrimSpace timeframe)
                   windowStartTs 0 f0 f0 f0 f0 f0 f0 f0 0 0 0 false 0 0 0 0 0 0 0)
  end.

Definition toNonNegativeFixed (field : string) (value : float64) (scale : Z) : Problem + Z :=
  if isNaN value || isInf value then
    inl (Newf ValidationFailed "%s must be a finite number" [AnyStr field])
  else
    let scaled := RoundToEven (fmul value (f_of_Z scale)) in
    if fgtb scaled (f_of_Z MaxInt64) || fltb scaled (f_of_Z MinInt64) then
      inl (Newf ValidationFailed "%s out of fixed precision range" [AnyStr field])
    else
      let fixed := i64_of_f scaled in
      if fixed <? 0 then inl (Newf ValidationFailed "%s must be non-negative" [AnyStr field])
      else inr fixed.

Definition toPositiveFixed (field : string) (value : float64) (scale : Z) : Problem + Z :=
  match toNonNegativeFixed field value scale with
  | inl p => inl p
  | inr fixed =>
      if fixed <=? 0 then inl (Newf ValidationFailed "%s must be positive" [AnyStr field])
      else inr fixed
  end.

(** One field of [hydrateFixedFromFields]. *)
Definition hydrate1 (cond : CandleV1 → bool) (conv : CandleV1 → Problem + Z)
    (set : Z → CandleV1 → CandleV1) : CandleM unit :=
  c ← recv;
  if cond c then fixed ← try_ (conv c); assign (set fixed) else mret tt.

Definition hydrateFixedFromFields : CandleM unit :=
  c ← recv;
  if TradeCount c <=? 0 then mret tt else
  hydrate1 (λ c, openFixed c =? 0) (λ c, toPositiveFixed "open" (Open c) candleFixedScale)
    (λ z c, c <| openFixed := z |>) ;;
  hydrate1 (λ c, highFixed c =? 0) (λ c, toPositiveFixed "high" (High c) candleFixedScale)
    (λ z c, c <| highFixed := z |>) ;;
  hydrate1 (λ c, lowFixed c =? 0) (λ c, toPositiveFixed "low" (Low c) candleFixedScale)
    (λ z c, c <| lowFixed := z |>) ;;
  hydrate1 (λ c, closeFixed c =? 0) (λ c, toPositiveFixed "close" (ClosePrice c) candleFixedScale)
    (λ z c, c <| closeFixed := z |>) ;;
  hydrate1 (λ c, volumeFixed c =? 0) (λ c, toNonNegativeFixed "volume" (Volume c) candleFixedScale)
    (λ z c, c <| volumeFixed := z |>) ;;
  hydrate1 (λ c, (buyVolumeFixed c =? 0) && fgtb (BuyVolume c) f0)
    (λ c, toNonNegativeFixed "buy_volume" (BuyVolume c) candleFixedScale)
    (λ z c, c <| buyVolumeFixed := z |>) ;;
  hydrate1 (λ c, (sellVolumeFixed c =? 0) && fgtb (SellVolume c) f0)
    (λ c, toNonNegativeFixed "sell_volume" (SellVolume c) candleFixedScale)
    (λ z c, c <| sellVolumeFixed := z |>).

Definition Validate : CandleM unit :=
  c ← recv;
  check (Collect [NonEmptyString "venue" (Venue c); NonEmptyString "instrument" (Instrument c);
                  OneOf "timeframe" (Timeframe c) AllowedCandleTimeframes;
                  NonNegativeInt "window_start_ts" (WindowStartTs c);
                  NonNegativeInt "trade_count" (TradeCount c)]) ;;
  fail_if (IsClosed c && (WindowEndTs c <=? WindowStartTs c))
    (New IntegrityViolation "closed candle must have window_end_ts > window_start_ts") ;;
  fail_if (negb (IsClosed c) && negb (WindowEndTs c =? 0))
    (New IntegrityViolation "open candle must not have window_end_ts set") ;;
  if TradeCount c =? 0 then mret tt else
  hydrateFixedFromFields ;;
  c ← recv;
  fail_if ((SeqFirst c <=? 0) || (SeqLast c <? SeqFirst c))
    (New IntegrityViolation "seq bounds are invalid") ;;
  fail_if ((openFixed c <=? 0) || (highFixed c <=? 0) || (lowFixed c <=? 0) || (closeFixed c <=? 0))
    (New IntegrityViolation "ohlc must be strictly positive") ;;
  fail_if (highFixed c <? lowFixed c) (New IntegrityViolation "high must be >= low") ;;
  fail_if ((highFixed c <? openFixed c) || (highFixed c <? closeFixed c))
    (New IntegrityViolation "high must be >= open and close") ;;
  fail_if ((openFixed c <? lowFixed c) || (closeFixed c <? lowFixed c))
    (New IntegrityViolation "low must be <= open and close") ;;
  fail_if ((volumeFixed c <? 0) || (buyVolumeFixed c <? 0) || (sellVolumeFixed c <? 0))
    (New IntegrityViolation "volumes must be non-negative") ;;
  fail_if (negb (volumeFixed c =? add64 (buyVolumeFixed c) (sellVolumeFixed c)))
    (New IntegrityViolation "volume must equal buy_volume + sell_volume").

(** The assignments of [ApplyTrade], after its guards. *)
Definition tradeUpdate (priceFixed qtyFixed : Z) (isBuy : bool) (seq : Z) (c : CandleV1) : CandleV1 :=
  let c := if TradeCount c =? 0 then
      c <| openFixed := priceFixed |> <| highFixed := priceFixed |> <| lowFixed := priceFixed |>
        <| closeFixed := priceFixed |> <| SeqFirst := seq |>
    else
      let c := if highFixed c <? priceFixed then c <| highFixed := priceFixed |> else c in
      let c := if priceFixed <? lowFixed c then c <| lowFixed := priceFixed |> else c in
      c <| closeFixed := priceFixed |> in
  let c := c <| volumeFixed := add64 (volumeFixed c) qtyFixed |> in
  let c := if isBuy then c <| buyVolumeFixed := add64 (buyVolumeFixed c) qtyFixed |>
           else c <| sellVolumeFixed := add64 (sellVolumeFixed c) qtyFixed |> in
  c <| SeqLast := seq |> <| TradeCount := add64 (TradeCount c) 1 |>.

Definition ApplyTrade (price qty : float64) (isBuy : bool) (seq : Z) : CandleM unit :=
  c ← recv;
  fail_if (IsClosed c) (New Conflict "cannot mutate closed candle") ;;
  check (PositiveInt "seq" seq) ;;
  priceFixed ← try_ (toPositiveFixed "price" price candleFixedScale);
  qtyFixed ← try_ (toPositiveFixed "qty" qty candleFixedScale);
  fail_if ((0 <? SeqLast c) && (seq <? SeqLast c))
    (Newf OutOfOrder "seq must be monotonic: got=%d last=%d" [AnyInt seq; AnyInt (SeqLast c)]) ;;
  assign (tradeUpdate priceFixed qtyFixed isBuy seq) ;;
  syncFromFixed ;;
  Validate.

(** The assignments of [ApplyClosedCandle], after its guards. *)
Definition childUpdate (child c : CandleV1) : CandleV1 :=
  let c := if TradeCount c =? 0 then
      c <| openFixed := openFixed child |> <| highFixed := highFixed child |>
        <| lowFixed := lowFixed child |> <| closeFixed := closeFixed child |>
        <| SeqFirst := SeqFirst child |>
    else
      let c := if highFixed c <? highFixed child then c <| highFixed := highFixed child |> else c in
      let c := if lowFixed child <? lowFixed c then c <| lowFixed := lowFixed child |> else c in
      c <| closeFixed := closeFixed child |> in
  c <| volumeFixed := add64 (volumeFixed c) (volumeFixed child) |>
    <| buyVolumeFixed := add64 (buyVolumeFixed c) (buyVolumeFixed child) |>
    <| sellVolumeFixed := add64 (sellVolumeFixed c) (sellVolumeFixed child) |>
    <| TradeCount := add64 (TradeCount c) (TradeCount child) |>
    <| SeqLast := SeqLast child |>.

Definition ApplyClosedCandle (child : CandleV1) : CandleM unit :=
  c ← recv;
  fail_if (IsClosed c) (New Conflict "cannot mutate closed candle") ;;
  fail_if (negb (IsClosed child)) (New ValidationFailed "child candle must be closed") ;;
  fail_if (negb (str_eqb (TrimSpace (Venue child)) (Venue c)))
    (New ValidationFailed "child venue mismatch") ;;
  fail_if (negb (str_eqb (TrimSpace (Instrument child)) (Instrument c)))
    (New ValidationFailed "child instrument mismatch") ;;
  fail_if (TradeCount child <=? 0) (New ValidationFailed "child candle must contain trades") ;;
  validated ← on_local child Validate;
  hydrated ← on_local (fst validated) hydrateFixedFromFields;
  let child := fst hydrated in
  fail_if ((0 <? SeqLast c) && (SeqFirst child <? SeqLast c))
    (Newf OutOfOrder "child seq out of order: child_first=%d last=%d"
       [AnyInt (SeqFirst child); AnyInt (SeqLast c)]) ;;
  assign (childUpdate child) ;;
  syncFromFixed ;;
  Validate.

Definition Close (windowEndTs : Z) : CandleM unit :=
  c ← recv;
  fail_if (IsClosed c) (New Conflict "candle already closed") ;;
  fail_if (TradeCount c <=? 0) (New ValidationFailed "cannot close candle without trades") ;;
  fail_if (windowEndTs <=? WindowStartTs c)
    (Newf ValidationFailed "window_end_ts must be > window_start_ts: start=%d end=%d"
       [AnyInt (WindowStartTs c); AnyInt windowEndTs]) ;;
  assign (λ c, c <| WindowEndTs := windowEndTs |> <| IsClosed := true |>) ;;
  Validate.

(** ** candle_rollup.go *)

Definition bucketStartDomain (tsMs windowMs : Z) : Z :=
  if windowMs <=? 0 then tsMs else mul64 (quot64 tsMs windowMs) windowMs.

(** The loop body of [RollupCandle], on the candle under construction. *)
Definition rollupStep (venue instrument : string) (windowStart intervalMs : Z) (src : CandleV1) : CandleM unit :=
  fail_if (negb (IsClosed src)) (New ValidationFailed "all source candles must be closed") ;;
  fail_if (negb (str_eqb (Venue src) venue))
    (New ValidationFailed "all source candles must have the same venue") ;;
  fail_if (negb (str_eqb (Instrument src) instrument))
    (New ValidationFailed "all source candles must have the same instrument") ;;
  fail_if (negb (bucketStartDomain (WindowStartTs src) intervalMs =? windowStart))
    (New ValidationFailed "all source candles must belong to the same target window") ;;
  ApplyClosedCandle src.

Definition RollupCandle (source : list CandleV1) (toInterval : string) : Problem + CandleV1 :=
  match NonEmptySliceLen "source" (Z.of_nat (length source)) with
  | Some p => inl p
  | None =>
  match TimeframeToMs toInterval with
  | inl p => inl p
  | inr intervalMs =>
  let sorted := sort_slice (λ a b, WindowStartTs a <? WindowStartTs b) source in
  match sorted with
  | [] => inl (New Internal "runtime error: index out of range")
  | first :: _ =>
  if negb (IsClosed first) then inl (New ValidationFailed "all source candles must be closed") else
  let venue := Venue first in
  let instrument := Instrument first in
  let windowStart := bucketStartDomain (WindowStartTs first) intervalMs in
  match NewCandleV1 venue instrument toInterval windowStart with
  | inl p => inl p
  | inr candle =>
  let fold := for_each sorted (rollupStep venue instrument windowStart intervalMs) ;;
              Close (add64 windowStart intervalMs) in
  match fold candle with
  | (candle, inr _) => inr candle
  | (_, inl p) => inl p
  end end end end end.
End candle.
