(* ===== verification/CandleSpec.v ===== *)
(** * CandleSpec: what a candle promises, and that candle.go implements it

    The specification of a candle is the OHLCV summary of the list of
    fixed-point trades it has absorbed ([view]); [inv] adds the identity and the
    float mirrors. [ApplyTrade] appends a trade, [ApplyClosedCandle] appends the
    trades of the child, [Close] only closes; an overflowing volume is always
    detected, and leaves the candle unusable. *)

From S2P Require Import Prelude GoRuntime Shared Candle.

Local Open Scope string_scope.
Local Open Scope list_scope.
Local Open Scope Z_scope.

(** ** The specification *)

(** A raw trade: price, quantity, side and sequence number, as [ApplyTrade] takes them. *)
Abbreviation raw_trade := (float64 * float64 * bool * Z)%type.

Record trade := MkTrade { t_price : Z; t_qty : Z; t_buy : bool; t_seq : Z }.

Definition sumZ (l : list Z) : Z := foldr Z.add 0 l.
Definition qty_of (ts : list trade) : Z := sumZ (t_qty <$> ts).
Definition buy_qty (ts : list trade) : Z := sumZ ((λ t, if t_buy t then t_qty t else 0) <$> ts).
Definition sell_qty (ts : list trade) : Z := sumZ ((λ t, if t_buy t then 0 else t_qty t) <$> ts).
Definition highest (ts : list trade) : Z := foldr (λ t m, Z.max (t_price t) m) 0 ts.
Definition lowest (ts : list trade) : Z :=
  match ts with
  | [] => 0
  | t :: ts' => foldr (λ u m, Z.min (t_price u) m) (t_price t) ts'
  end.
Definition first_price (ts : list trade) : Z := default 0 (t_price <$> head ts).
Definition last_price (ts : list trade) : Z := default 0 (t_price <$> last ts).
Definition first_seq (ts : list trade) : Z := default 0 (t_seq <$> head ts).
Definition last_seq (ts : list trade) : Z := default 0 (t_seq <$> last ts).

(** The candle summarises the trades [ts], exactly (no wrap-around, no rounding). *)
Record view (c : CandleV1) (ts : list trade) : Prop := {
  view_open : openFixed c = first_price ts;
  view_high : highFixed c = highest ts;
  view_low : lowFixed c = lowest ts;
  view_close : closeFixed c = last_price ts;
  view_volume : volumeFixed c = qty_of ts;
  view_buy : buyVolumeFixed c = buy_qty ts;
  view_sell : sellVolumeFixed c = sell_qty ts;
  view_count : TradeCount c = Z.of_nat (length ts);
  view_first : SeqFirst c = first_seq ts;
  view_last : SeqLast c = last_seq ts;
}.

Definition trade_ok (t : trade) : Prop :=
  0 < t_price t ≤ MaxInt64 ∧ 0 < t_qty t ≤ MaxInt64 ∧ 0 < t_seq t ≤ MaxInt64.

(** Trades a candle can absorb: positive, in sequence order, total in range. *)
Record trades_ok (ts : list trade) : Prop := {
  tok_each : Forall trade_ok ts;
  tok_seq : StronglySorted (λ a b, t_seq a ≤ t_seq b) ts;
  tok_volume : qty_of ts ≤ MaxInt64;
  tok_count : Z.of_nat (length ts) ≤ MaxInt64;
}.

(** The exported floats are the fixed-point fields divided by the scale. *)
Record mirror (c : CandleV1) : Prop := {
  mirror_open : Open c = fromFixed (openFixed c) candleFixedScale;
  mirror_high : High c = fromFixed (highFixed c) candleFixedScale;
  mirror_low : Low c = fromFixed (lowFixed c) candleFixedScale;
  mirror_close : ClosePrice c = fromFixed (closeFixed c) candleFixedScale;
  mirror_volume : Volume c = fromFixed (volumeFixed c) candleFixedScale;
  mirror_buy : BuyVolume c = fromFixed (buyVolumeFixed c) candleFixedScale;
  mirror_sell : SellVolume c = fromFixed (sellVolumeFixed c) candleFixedScale;
}.

Section spec.
Context {GR : GoRuntime}.

Record ident (c : CandleV1) : Prop := {
  ident_venue : TrimSpace (Venue c) = Venue c ∧ Venue c ≠ "";
  ident_instrument : TrimSpace (Instrument c) = Instrument c ∧ Instrument c ≠ "";
  ident_timeframe : Timeframe c ∈ AllowedCandleTimeframes;
  ident_start : 0 ≤ WindowStartTs c;
  ident_end : if IsClosed c then WindowStartTs c < WindowEndTs c else WindowEndTs c = 0;
}.

(** The candle [c] is well formed and summarises [ts]. *)
Record inv (c : CandleV1) (ts : list trade) : Prop := {
  inv_ident : ident c;
  inv_view : view c ts;
  inv_mirror : mirror c;
  inv_trades : trades_ok ts;
}.

(** Identity and window fields, which no trade changes. *)
Definition ident_fields (c : CandleV1) : string * string * string * Z * Z * bool :=
  (Venue c, Instrument c, Timeframe c, WindowStartTs c, WindowEndTs c, IsClosed c).

(** A raw trade request and the fixed-point trade it denotes. *)
Definition fixed_trade (price qty : float64) (isBuy : bool) (seq : Z) : option trade :=
  match toPositiveFixed "price" price candleFixedScale,
        toPositiveFixed "qty" qty candleFixedScale with
  | inr p, inr q => Some (MkTrade p q isBuy seq)
  | _, _ => None
  end.
Definition fixed_raw (r : raw_trade) : option trade :=
  let '(price, qty, isBuy, seq) := r in fixed_trade price qty isBuy seq.
Definition apply_raw (r : raw_trade) : CandleM unit :=
  let '(price, qty, isBuy, seq) := r in ApplyTrade price qty isBuy seq.
End spec.

(** ** Summaries of lists of trades *)

Lemma sumZ_app l k : sumZ (l ++ k) = sumZ l + sumZ k.
Proof. unfold sumZ. induction l as [|x l IH]; cbn; [done|]. rewrite IH. lia. Qed.
Lemma sumZ_nonneg l : Forall (λ z, 0 ≤ z) l → 0 ≤ sumZ l.
Proof. unfold sumZ. induction 1; cbn; lia. Qed.

Lemma qty_app ts us : qty_of (ts ++ us) = qty_of ts + qty_of us.
Proof. unfold qty_of. by rewrite fmap_app, sumZ_app. Qed.
Lemma buy_app ts us : buy_qty (ts ++ us) = buy_qty ts + buy_qty us.
Proof. unfold buy_qty. by rewrite fmap_app, sumZ_app. Qed.
Lemma sell_app ts us : sell_qty (ts ++ us) = sell_qty ts + sell_qty us.
Proof. unfold sell_qty. by rewrite fmap_app, sumZ_app. Qed.
Lemma qty_split ts : qty_of ts = buy_qty ts + sell_qty ts.
Proof.
  unfold qty_of, buy_qty, sell_qty, sumZ. induction ts as [|t ts IH]; cbn; [done|].
  rewrite IH. destruct (t_buy t); lia.
Qed.

Lemma qty_nonneg ts : Forall trade_ok ts → 0 ≤ qty_of ts ∧ 0 ≤ buy_qty ts ∧ 0 ≤ sell_qty ts.
Proof.
  unfold qty_of, buy_qty, sell_qty. intros H. split_and!; apply sumZ_nonneg, Forall_fmap;
    (eapply Forall_impl; [exact H|]); intros t (?&?&?); cbn; repeat split_match; lia.
Qed.
Lemma qty_pos t ts : trade_ok t → Forall trade_ok ts → 0 < qty_of (t :: ts).
Proof.
  intros (?&?&?) Hts. change (t :: ts) with ([t] ++ ts). rewrite qty_app.
  destruct (qty_nonneg ts Hts). unfold qty_of at 1. cbn. lia.
Qed.

Lemma foldr_max_start ts a : 0 ≤ a →
  foldr (λ t m, Z.max (t_price t) m) a ts = Z.max (highest ts) a.
Proof. intros Ha. unfold highest. induction ts as [|t ts IH]; cbn; [lia|]. rewrite IH. lia. Qed.
Lemma highest_nonneg ts : 0 ≤ highest ts.
Proof. unfold highest. induction ts; cbn; lia. Qed.
Lemma highest_app ts us : highest (ts ++ us) = Z.max (highest ts) (highest us).
Proof. unfold highest at 1. rewrite foldr_app. fold (highest us). rewrite foldr_max_start; [done|apply highest_nonneg]. Qed.
Lemma highest_elem t ts : t ∈ ts → t_price t ≤ highest ts.
Proof. unfold highest. induction ts as [|u ts IH]; [by intros ?%elem_of_nil|]. cbn. intros [->|H%IH]%elem_of_cons; lia. Qed.

Lemma foldr_min_start ts a b :
  foldr (λ t m, Z.min (t_price t) m) (Z.min a b) ts
  = Z.min (foldr (λ t m, Z.min (t_price t) m) a ts) b.
Proof. induction ts as [|t ts IH]; cbn; [lia|]. rewrite IH. lia. Qed.
Lemma lowest_cons t ts : lowest (t :: ts) = if decide (ts = []) then t_price t else Z.min (t_price t) (lowest ts).
Proof.
  case_decide as H; [by subst|]. destruct ts as [|u ts]; [done|]. cbn.
  rewrite <- (Z.min_id (t_price u)) at 1. rewrite Z.min_comm.
  pose proof (foldr_min_start ts (t_price u) (t_price t)) as H1.
  pose proof (foldr_min_start ts (t_price t) (t_price u)) as H2.
  rewrite (Z.min_comm (t_price t)) in H2. lia.
Qed.
Lemma lowest_app ts us : ts ≠ [] → us ≠ [] → lowest (ts ++ us) = Z.min (lowest ts) (lowest us).
Proof.
  intros Hts Hus. induction ts as [|t ts IH]; [done|]. cbn [app].
  rewrite !lowest_cons. destruct ts as [|u ts]; cbn [app] in *.
  - by rewrite decide_False, decide_True.
  - rewrite !decide_False by done. rewrite IH by done. lia.
Qed.
Lemma lowest_elem t ts : t ∈ ts → lowest ts ≤ t_price t.
Proof.
  induction ts as [|u ts IH]; [by intros ?%elem_of_nil|]. rewrite lowest_cons.
  intros [->|H]%elem_of_cons.
  - case_decide; lia.
  - specialize (IH H). case_decide; [subst; by apply elem_of_nil in H|]. lia.
Qed.
Lemma lowest_in ts : ts ≠ [] → ∃ t, t ∈ ts ∧ lowest ts = t_price t.
Proof.
  induction ts as [|u ts IH]; [done|]. intros _. rewrite lowest_cons. case_decide as Hd.
  - exists u. split; [left|done].
  - destruct (IH Hd) as (t & Hin & Heq). rewrite Heq.
    destruct (decide (t_price u ≤ t_price t)).
    + exists u. split; [left|lia].
    + exists t. split; [by right|lia].
Qed.

Lemma head_in {A} (l : list A) x : head l = Some x → x ∈ l.
Proof. destruct l; cbn; [done|]. intros [= ->]. left. Qed.
Lemma first_price_in ts : ts ≠ [] → ∃ t, t ∈ ts ∧ first_price ts = t_price t ∧ first_seq ts = t_seq t.
Proof. destruct ts as [|t ts]; [done|]. intros _. exists t. split; [left|done]. Qed.
Lemma last_price_in ts : ts ≠ [] → ∃ t, t ∈ ts ∧ last_price ts = t_price t ∧ last_seq ts = t_seq t.
Proof.
  unfold last_price, last_seq. destruct (last ts) as [t|] eqn:Hl.
  - intros _. exists t. split; [|done]. by apply list_elem_of_lookup_2 with (i := pred (length ts)); rewrite <- last_lookup.
  - by apply last_None in Hl.
Qed.

(** ** Validation of a hydrated candle *)

(** No field needs hydration: the fixed-point fields are already set. *)
Record hydrated (c : CandleV1) : Prop := {
  hyd_open : openFixed c ≠ 0;
  hyd_high : highFixed c ≠ 0;
  hyd_low : lowFixed c ≠ 0;
  hyd_close : closeFixed c ≠ 0;
  hyd_volume : volumeFixed c ≠ 0;
  hyd_buy : buyVolumeFixed c = 0 → fgtb (BuyVolume c) f0 = false;
  hyd_sell : sellVolumeFixed c = 0 → fgtb (SellVolume c) f0 = false;
}.

(** The numeric invariants CA-3..CA-7 that [Validate] enforces. *)
Record numeric_ok (c : CandleV1) : Prop := {
  num_seq : 0 < SeqFirst c ≤ SeqLast c;
  num_low : 0 < lowFixed c;
  num_low_open : lowFixed c ≤ openFixed c;
  num_low_close : lowFixed c ≤ closeFixed c;
  num_high_open : openFixed c ≤ highFixed c;
  num_high_close : closeFixed c ≤ highFixed c;
  num_volume : 0 ≤ volumeFixed c;
  num_buy : 0 ≤ buyVolumeFixed c;
  num_sell : 0 ≤ sellVolumeFixed c;
  num_total : volumeFixed c = add64 (buyVolumeFixed c) (sellVolumeFixed c);
}.

Section validate.
Context {GR : GoRuntime}.
Implicit Types c : CandleV1.

Lemma fixed_zero_not_pos : fgtb (fromFixed 0 candleFixedScale) f0 = false.
Proof. by vm_compute. Qed.

Lemma mirror_hydrated c :
  mirror c → openFixed c ≠ 0 → highFixed c ≠ 0 → lowFixed c ≠ 0 → closeFixed c ≠ 0 →
  volumeFixed c ≠ 0 → hydrated c.
Proof.
  intros [] ?????. split; try done; intros Hz.
  - rewrite mirror_buy0, Hz. apply fixed_zero_not_pos.
  - rewrite mirror_sell0, Hz. apply fixed_zero_not_pos.
Qed.

Lemma hydrate1_skip cond conv set c : cond c = false → hydrate1 cond conv set c = (c, inr tt).
Proof. intros H. unfold hydrate1. unfold_meth. by rewrite H. Qed.

Lemma hydrate_id c : hydrated c → hydrateFixedFromFields c = (c, inr tt).
Proof.
  intros []. unfold hydrateFixedFromFields. erewrite bind_run by reflexivity.
  destruct (TradeCount c <=? 0); [done|].
  do 4 (erewrite bind_run by (apply hydrate1_skip; by apply Z.eqb_neq)).
  erewrite bind_run by (apply hydrate1_skip; by apply Z.eqb_neq).
  erewrite bind_run by (apply hydrate1_skip; destruct (Z.eqb_spec (buyVolumeFixed c) 0); cbn; auto).
  apply hydrate1_skip. destruct (Z.eqb_spec (sellVolumeFixed c) 0); cbn; auto.
Qed.

Lemma ident_collect c : ident c → 0 ≤ TradeCount c →
  Collect [NonEmptyString "venue" (Venue c); NonEmptyString "instrument" (Instrument c);
           OneOf "timeframe" (Timeframe c) AllowedCandleTimeframes;
           NonNegativeInt "window_start_ts" (WindowStartTs c);
           NonNegativeInt "trade_count" (TradeCount c)] = None.
Proof.
  intros [[Hv ?] [Hi ?] ???] ?. rewrite Collect_none, !Forall_cons, Forall_nil.
  rewrite !NonEmptyString_none, OneOf_none, !NonNegativeInt_none, Hv, Hi. done.
Qed.

(** [Validate] up to the numeric checks. *)
Definition numericChecks : CandleM unit :=
  c ← recv;
  fail_if ((SeqFirst c <=? 0) || (SeqLast c <? SeqFirst c))
    (New IntegrityViolation "seq bounds are invalid") ;;
  fail_if ((openFixed c <=? 0) || (highFixed c <=? 0) || (lowFixed c <=? 0) || (closeFixed c <=? 0))
    (New IntegrityViolation "ohlc must be strictly positive") ;;
  fail_if (highFixed c <? lowFixed c) (New IntegrityViolation "high must be >= low") ;;
  fail_if ((highFixed c <? openFixed c) || (highFixed c <? closeFixed c))
    (New IntegrityViolation "high must be >= open and close") ;;
  fail_if ((openFixed c <? lowFixed c) || (closeFixed c <? lowFixed c))
    (New IntegrityViolation "low must be <= open and close") ;;
  fail_if ((volumeFixed c <? 0) || (buyVolumeFixed c <? 0) || (sellVolumeFixed c <? 0))
    (New IntegrityViolation "volumes must be non-negative") ;;
  fail_if (negb (volumeFixed c =? add64 (buyVolumeFixed c) (sellVolumeFixed c)))
    (New IntegrityViolation "volume must equal buy_volume + sell_volume").

Lemma Validate_hydrated c :
  ident c → hydrated c → 0 < TradeCount c → Validate c = numericChecks c.
Proof.
  intros Hi Hh Ht. unfold Validate. erewrite bind_run by reflexivity.
  rewrite ident_collect by (done || lia). erewrite bind_run by reflexivity.
  assert (IsClosed c && (WindowEndTs c <=? WindowStartTs c) = false) as ->.
  { destruct Hi as [_ _ _ _ He]. destruct (IsClosed c); [|done]. apply Z.leb_gt. lia. }
  erewrite bind_run by reflexivity.
  assert (negb (IsClosed c) && negb (WindowEndTs c =? 0) = false) as ->.
  { destruct Hi as [_ _ _ _ He]. destruct (IsClosed c); [done|]. by rewrite He. }
  erewrite bind_run by reflexivity.
  destruct (Z.eqb_spec (TradeCount c) 0); [lia|].
  by erewrite bind_run by (by apply hydrate_id).
Qed.

Ltac run_checks :=
  unfold numericChecks, fail_if; unfold_meth;
  repeat match goal with
  | |- context [?a <=? ?b] => destruct (Z.leb_spec a b); try lia
  | |- context [?a <? ?b] => destruct (Z.ltb_spec a b); try lia
  | |- context [?a =? ?b] => destruct (Z.eqb_spec a b); try lia
  end.

Lemma numericChecks_ok c : numeric_ok c → numericChecks c = (c, inr tt).
Proof. intros []. run_checks; done. Qed.

(** A negative volume is always reported, whatever the other fields are. *)
Lemma numericChecks_negative c :
  volumeFixed c < 0 → ∃ p, numericChecks c = (c, inl p) ∧ Code p = IntegrityViolation.
Proof.
  intros Hneg. unfold numericChecks, fail_if. unfold_meth.
  repeat (split_match; [eauto|]). reflect_bools. lia.
Qed.

(** [Validate] never changes a hydrated candle, and reports a negative volume. *)
Lemma Validate_ok c :
  ident c → hydrated c → 0 < TradeCount c → numeric_ok c → Validate c = (c, inr tt).
Proof. intros. rewrite Validate_hydrated by done. by apply numericChecks_ok. Qed.
Lemma Validate_negative c :
  ident c → hydrated c → 0 < TradeCount c → volumeFixed c < 0 →
  ∃ p, Validate c = (c, inl p) ∧ Code p = IntegrityViolation.
Proof. intros. rewrite Validate_hydrated by done. by apply numericChecks_negative. Qed.
End validate.

(** ** The operations on a candle that summarises [ts] *)

Section operations.
Context {GR : GoRuntime}.
Implicit Types (c child : CandleV1) (ts us : list trade).

Lemma trades_ok_seq_last ts : ts ≠ [] → trades_ok ts → 0 < first_seq ts ≤ last_seq ts.
Proof.
  intros Hne [Hall Hs _ _]. destruct ts as [|t ts]; [done|].
  destruct (last_price_in (t :: ts)) as (u & Hu & _ & ->); [done|].
  unfold first_seq. cbn. inversion Hs as [|?? Hs' Hle]; subst.
  rewrite Forall_cons in Hall. destruct Hall as [(?&?&?) _].
  apply elem_of_cons in Hu as [->|Hu]; [lia|]. rewrite Forall_forall in Hle. specialize (Hle _ Hu). lia.
Qed.

Lemma view_numeric c ts : ts ≠ [] → view c ts → trades_ok ts → numeric_ok c.
Proof.
  intros Hne [] Htok. pose proof (trades_ok_seq_last ts Hne Htok).
  destruct Htok as [Hall _ Hvol _]. pose proof (qty_nonneg ts Hall) as (?&?&?).
  pose proof (qty_split ts). rewrite Forall_forall in Hall.
  destruct (lowest_in ts Hne) as (t & Ht & Hlo). destruct (Hall t Ht) as (?&?&?).
  destruct (first_price_in ts Hne) as (u & Hu & Hfp & _).
  destruct (last_price_in ts Hne) as (w & Hw & Hlp & _).
  pose proof (lowest_elem _ _ Hu). pose proof (lowest_elem _ _ Hw).
  pose proof (highest_elem _ _ Hu). pose proof (highest_elem _ _ Hw).
  split; try lia. rewrite add64_id by (unfold in_i64, MinInt64; lia). lia.
Qed.

Lemma view_hydrated c ts : ts ≠ [] → view c ts → mirror c → trades_ok ts → hydrated c.
Proof.
  intros Hne Hv Hm Htok. pose proof (view_numeric _ _ Hne Hv Htok) as [].
  apply mirror_hydrated; try (done || lia).
  destruct Hv, Htok as [Hall _ _ _]. destruct ts as [|t ts]; [done|].
  apply Forall_cons in Hall as [Ht Hts]. pose proof (qty_pos t ts Ht Hts). lia.
Qed.

Lemma inv_Validate c ts : ts ≠ [] → inv c ts → Validate c = (c, inr tt).
Proof.
  intros Hne [Hi Hv Hm Htok]. apply Validate_ok; [done|by eapply view_hydrated| |by eapply view_numeric].
  destruct Hv. destruct ts; [done|]. cbn in *. lia.
Qed.

Lemma ident_sync c : ident c → ident (fst (syncFromFixed c)).
Proof. by intros []. Qed.
Lemma sync_mirror c : mirror (fst (syncFromFixed c)).
Proof. by destruct c. Qed.
Lemma sync_view c ts : view c ts → view (fst (syncFromFixed c)) ts.
Proof. by intros []. Qed.

(** Sequencing and totals of an appended list of trades. *)
Lemma trades_ok_app_l ts us : trades_ok (ts ++ us) → trades_ok ts.
Proof.
  intros [Hall Hs Hv Hn]. apply Forall_app in Hall as [Ht Hu].
  rewrite qty_app in Hv. rewrite length_app in Hn. destruct (qty_nonneg us Hu).
  split; [done| |lia|lia]. by apply StronglySorted_app in Hs as (_ & ? & _).
Qed.

Lemma last_seq_app ts us : us ≠ [] → last_seq (ts ++ us) = last_seq us.
Proof. intros H. unfold last_seq. rewrite last_app. destruct (last us) eqn:E; [done|]. by apply last_None in E. Qed.
Lemma last_price_app ts us : us ≠ [] → last_price (ts ++ us) = last_price us.
Proof. intros H. unfold last_price. rewrite last_app. destruct (last us) eqn:E; [done|]. by apply last_None in E. Qed.

Lemma count_zero c ts : view c ts → (TradeCount c =? 0) = bool_decide (ts = []).
Proof.
  intros []. rewrite view_count0. destruct ts as [|t ts]; [done|].
  rewrite bool_decide_false by done. apply Z.eqb_neq. cbn [length]. lia.
Qed.

(** The assignments of [ApplyClosedCandle] append the trades of the child. *)
Lemma childUpdate_view c child ts us :
  view c ts → view child us → us ≠ [] → trades_ok (ts ++ us) →
  view (childUpdate child c) (ts ++ us).
Proof.
  intros Hc Hch Hus Htok. destruct Htok as [Hall _ Hvol Hcnt].
  apply Forall_app in Hall as [Hats Haus].
  destruct (qty_nonneg ts Hats) as (?&?&?), (qty_nonneg us Haus) as (?&?&?).
  pose proof (qty_split ts). pose proof (qty_split us).
  rewrite qty_app in Hvol. rewrite length_app in Hcnt.
  unfold childUpdate. rewrite (count_zero c ts Hc). destruct Hc, Hch.
  case_bool_decide as Hnil.
  - subst ts. cbn in *. split; cbn; rewrite ?add64_id; unfold in_i64, MinInt64 in *; try lia.
  - assert (lowest (ts ++ us) = Z.min (lowest ts) (lowest us)) by by apply lowest_app.
    pose proof (highest_app ts us).
    assert (first_price (ts ++ us) = first_price ts ∧ first_seq (ts ++ us) = first_seq ts) as [??].
    { by destruct ts. }
    split; destruct (Z.ltb_spec (highFixed c) (highFixed child)); cbn [lowFixed highFixed upd];
      destruct (Z.ltb_spec (lowFixed child) (lowFixed c)); cbn;
      rewrite ?last_price_app, ?last_seq_app, ?qty_app, ?buy_app, ?sell_app, ?length_app by done;
      rewrite ?add64_id; unfold in_i64, MinInt64 in *; try lia.
Qed.

(** [ApplyTrade]'s assignments are those of a one-trade child. *)
Definition single_candle (t : trade) : CandleV1 :=
  MkCandleV1 "" "" "" 0 0 f0 f0 f0 f0 f0 f0 f0 1 (t_seq t) (t_seq t) true
    (t_price t) (t_price t) (t_price t) (t_price t) (t_qty t)
    (if t_buy t then t_qty t else 0) (if t_buy t then 0 else t_qty t).

Lemma single_view t : 0 < t_price t → view (single_candle t) [t].
Proof. intros ?. split; cbn; unfold highest; cbn; repeat split_match; lia. Qed.

Lemma tradeUpdate_view c ts t :
  view c ts → trades_ok (ts ++ [t]) →
  view (tradeUpdate (t_price t) (t_qty t) (t_buy t) (t_seq t) c) (ts ++ [t]).
Proof.
  intros Hc Htok. assert (0 < t_price t).
  { destruct Htok as [Hall _ _ _]. apply Forall_app in Hall as [_ Ht].
    rewrite Forall_singleton in Ht. destruct Ht. lia. }
  pose proof (childUpdate_view c (single_candle t) ts [t] Hc (single_view t ltac:(done)) ltac:(done) Htok) as Hv.
  assert (Hb : in_i64 (buyVolumeFixed c) ∧ in_i64 (sellVolumeFixed c)).
  { destruct Hc. apply trades_ok_app_l in Htok as [Hall _ Hvol _].
    destruct (qty_nonneg ts Hall) as (?&?&?). pose proof (qty_split ts).
    unfold in_i64, MinInt64. lia. }
  revert Hv. unfold tradeUpdate, childUpdate. destruct Hb as [Hb Hs].
  destruct Hc. destruct c as [????????????????? hf lf ????]. cbn in *.
  repeat split_match; cbn; intros []; cbn in *; split; cbn; try done;
    unfold add64 in *; rewrite ?Z.add_0_r in *; rewrite ?(wrap64_id) in * by done; try done; try lia.
Qed.

Lemma ident_same c c' : ident_fields c' = ident_fields c → ident c → ident c'.
Proof. unfold ident_fields. intros [= Hv Hi Ht Hs He Hc] []. split; by rewrite ?Hv, ?Hi, ?Ht, ?Hs, ?He, ?Hc. Qed.

Lemma sync_ident c : ident_fields (fst (syncFromFixed c)) = ident_fields c.
Proof. by destruct c. Qed.
Lemma tradeUpdate_ident p q b s c : ident_fields (tradeUpdate p q b s c) = ident_fields c.
Proof. unfold tradeUpdate. destruct c. by repeat split_match. Qed.
Lemma childUpdate_ident child c : ident_fields (childUpdate child c) = ident_fields c.
Proof. unfold childUpdate. destruct c. by repeat split_match. Qed.

Lemma toPositiveFixed_range f v sc z : toPositiveFixed f v sc = inr z → 0 < z ≤ MaxInt64.
Proof.
  unfold toPositiveFixed, toNonNegativeFixed. repeat split_match; intros; simplify_eq.
  reflect_bools. match goal with |- context [i64_of_f ?x] => pose proof (i64_of_f_range x) as [??] end. lia.
Qed.

Lemma fixed_trade_ok price qty isBuy seq t :
  fixed_trade price qty isBuy seq = Some t →
  toPositiveFixed "price" price candleFixedScale = inr (t_price t) ∧
  toPositiveFixed "qty" qty candleFixedScale = inr (t_qty t) ∧
  t_buy t = isBuy ∧ t_seq t = seq.
Proof. unfold fixed_trade. repeat split_match; intros; by simplify_eq. Qed.

(** With the guards passed, [ApplyTrade] is its assignments followed by validation. *)
Lemma ApplyTrade_run c price qty isBuy seq t :
  IsClosed c = false → 0 < seq → fixed_trade price qty isBuy seq = Some t →
  (SeqLast c ≤ 0 ∨ SeqLast c ≤ seq) →
  ApplyTrade price qty isBuy seq c =
    Validate (fst (syncFromFixed (tradeUpdate (t_price t) (t_qty t) (t_buy t) (t_seq t) c))).
Proof.
  intros Hcl Hpos (Hp & Hq & Hb & Hs)%fixed_trade_ok Hord. subst isBuy seq.
  unfold ApplyTrade. erewrite bind_run by reflexivity. rewrite Hcl.
  erewrite bind_run by reflexivity.
  rewrite (proj2 (PositiveInt_none _ _) Hpos). erewrite bind_run by reflexivity.
  rewrite Hp. erewrite bind_run by reflexivity. rewrite Hq. erewrite bind_run by reflexivity.
  assert ((0 <? SeqLast c) && (t_seq t <? SeqLast c) = false) as ->.
  { apply andb_false_iff. rewrite !Z.ltb_ge. lia. }
  done.
Qed.

Lemma inv_seq_le c ts t : view c ts → trades_ok (ts ++ [t]) → SeqLast c ≤ t_seq t ∧ 0 < t_seq t.
Proof.
  intros Hv [Hall Hs _ _]. destruct Hv. rewrite view_last0.
  apply Forall_app in Hall as [_ Ht]. rewrite Forall_singleton in Ht. destruct Ht as (?&?&?).
  split; [|lia]. destruct (decide (ts = [])) as [->|Hne]; [cbn; lia|].
  destruct (last_price_in ts Hne) as (u & Hu & _ & ->).
  apply StronglySorted_app in Hs as (Hord & _ & _). apply Hord; [done|]. left.
Qed.

Lemma ApplyTrade_accepts c ts price qty isBuy seq t :
  inv c ts → IsClosed c = false → fixed_trade price qty isBuy seq = Some t →
  trades_ok (ts ++ [t]) →
  ∃ c', ApplyTrade price qty isBuy seq c = (c', inr tt) ∧ inv c' (ts ++ [t]) ∧
        ident_fields c' = ident_fields c.
Proof.
  intros [Hi Hv Hm _] Hcl Hft Htok. destruct (inv_seq_le _ _ _ Hv Htok) as [Hle Hpos].
  pose proof (fixed_trade_ok _ _ _ _ _ Hft) as (_ & _ & _ & Heq). rewrite Heq in *.
  rewrite (ApplyTrade_run _ _ _ _ _ _ Hcl Hpos Hft) by auto.
  set (c' := fst (syncFromFixed _)). exists c'.
  assert (ident_fields c' = ident_fields c) as Hsame.
  { etrans; [apply sync_ident|apply tradeUpdate_ident]. }
  assert (inv c' (ts ++ [t])) as Hinv.
  { split; [by eapply ident_same|apply sync_view, tradeUpdate_view; done|apply sync_mirror|done]. }
  rewrite (inv_Validate c' (ts ++ [t])); [done|by destruct ts|done].
Qed.

(** A trade that a guard rejects leaves the candle unchanged. *)
Lemma ApplyTrade_rejects c price qty isBuy seq :
  IsClosed c = true ∨ seq ≤ 0 ∨ fixed_trade price qty isBuy seq = None ∨ (0 < SeqLast c ∧ seq < SeqLast c) →
  ∃ p, ApplyTrade price qty isBuy seq c = (c, inl p) ∧
       Code p ∈ [Conflict; ValidationFailed; OutOfOrder].
Proof.
  intros Hrej. unfold ApplyTrade, fixed_trade, PositiveInt, try_, check, fail_if in *. unfold_meth.
  destruct (IsClosed c); [eexists; split; [done|]; set_solver|].
  destruct (Z.leb_spec seq 0); [eexists; split; [done|]; set_solver|].
  assert (Hcode : ∀ f v sc p, toPositiveFixed f v sc = inl p → Code p = ValidationFailed).
  { intros f v sc p. unfold toPositiveFixed, toNonNegativeFixed. by repeat split_match; intros; simplify_eq. }
  destruct (toPositiveFixed "price" _ _) eqn:Hp; [eexists; split; [done|]; rewrite (Hcode _ _ _ _ Hp); set_solver|].
  destruct (toPositiveFixed "qty" _ _) eqn:Hq; [eexists; split; [done|]; rewrite (Hcode _ _ _ _ Hq); set_solver|].
  destruct Hrej as [?|[?|[?|[? ?]]]]; [done|lia|done|].
  rewrite (proj2 (Z.ltb_lt _ _)), (proj2 (Z.ltb_lt seq _)) by done. cbn.
  eexists; split; [done|]; set_solver.
Qed.
End operations.

(** ** Overflow, closing and roll-up *)

Section rollup.
Context {GR : GoRuntime}.
Implicit Types (c child : CandleV1) (ts us : list trade).

(** The candle after an overflowing trade: still open, prices set, volume negative. *)
Record poisoned (c : CandleV1) : Prop := {
  poi_ident : ident c;
  poi_hyd : hydrated c;
  poi_count : 0 < TradeCount c;
  poi_volume : volumeFixed c < 0;
}.

Lemma tradeUpdate_poisons c ts t :
  inv c ts → IsClosed c = false → trade_ok t →
  Z.of_nat (length ts) < MaxInt64 → MaxInt64 < qty_of ts + t_qty t →
  poisoned (fst (syncFromFixed (tradeUpdate (t_price t) (t_qty t) (t_buy t) (t_seq t) c))).
Proof.
  intros [Hi Hv Hm Htok] Hcl (Hp & Hq & _) Hn Hov.
  assert (Hne : ts ≠ []) by (intros ->; cbn in Hov; lia).
  pose proof (view_numeric _ _ Hne Hv Htok) as []. pose proof (qty_nonneg ts (tok_each _ Htok)).
  pose proof (tok_volume _ Htok).
  destruct Hv. assert (Hadd : add64 (volumeFixed c) (t_qty t) < 0).
  { destruct (add64_nonneg (volumeFixed c) (t_qty t)); lia. }
  assert (Hcnt : add64 (TradeCount c) 1 = TradeCount c + 1).
  { apply add64_id. unfold in_i64, MinInt64. lia. }
  assert (Htc : (TradeCount c =? 0) = false).
  { apply Z.eqb_neq. destruct ts; [done|]. cbn [length] in *. lia. }
  set (c1 := tradeUpdate _ _ _ _ c).
  assert (Hf : openFixed c1 ≠ 0 ∧ highFixed c1 ≠ 0 ∧ lowFixed c1 ≠ 0 ∧ closeFixed c1 ≠ 0 ∧
               volumeFixed c1 < 0 ∧ 0 < TradeCount c1).
  { unfold c1, tradeUpdate. rewrite Htc. apply Z.eqb_neq in Htc.
    repeat split_match; cbn; reflect_bools; split_and!; lia. }
  destruct Hf as (?&?&?&?&?&?). split.
  - eapply ident_same; [|exact Hi]. etrans; [apply sync_ident|apply tradeUpdate_ident].
  - apply mirror_hydrated; [apply sync_mirror|done..|]. change (volumeFixed c1 ≠ 0). lia.
  - done.
  - done.
Qed.

Lemma poisoned_Close c we :
  poisoned c → IsClosed c = false → WindowStartTs c < we →
  ∃ c' p, Close we c = (c', inl p) ∧ Code p = IntegrityViolation ∧ IsClosed c' = true.
Proof.
  intros [Hi Hh Hc Hv] Hcl Hwe. unfold Close. erewrite bind_run by reflexivity. rewrite Hcl.
  erewrite bind_run by reflexivity. rewrite (proj2 (Z.leb_gt (TradeCount c) 0)) by lia.
  erewrite bind_run by reflexivity. rewrite (proj2 (Z.leb_gt we _)) by lia.
  do 2 (erewrite bind_run by reflexivity).
  match goal with |- context [Validate ?x] => set (c' := x) end.
  destruct (Validate_negative c') as (p & Hp & Hcode).
  - destruct Hi. by split.
  - by destruct Hh.
  - done.
  - done.
  - exists c', p. by rewrite Hp.
Qed.

(** [Close] keeps the summary and only sets the end of the window. *)
Lemma Close_accepts c ts we :
  inv c ts → ts ≠ [] → IsClosed c = false → WindowStartTs c < we →
  ∃ c', Close we c = (c', inr tt) ∧ inv c' ts ∧
        ident_fields c' = (Venue c, Instrument c, Timeframe c, WindowStartTs c, we, true).
Proof.
  intros [Hi Hv Hm Htok] Hne Hcl Hwe. unfold Close. erewrite bind_run by reflexivity. rewrite Hcl.
  erewrite bind_run by reflexivity. rewrite (proj2 (Z.leb_gt (TradeCount c) 0)).
  2:{ destruct Hv. destruct ts; [done|]. cbn [length] in *. lia. }
  erewrite bind_run by reflexivity. rewrite (proj2 (Z.leb_gt we _)) by lia.
  do 2 (erewrite bind_run by reflexivity).
  match goal with |- context [Validate ?x] => set (c' := x) end.
  assert (inv c' ts) as Hinv.
  { split; [destruct Hi; by split|by destruct Hv|by destruct Hm|done]. }
  exists c'. by rewrite (inv_Validate c' ts).
Qed.

(** A closed child appends its trades to the parent. *)
Lemma ApplyClosedCandle_accepts c child ts us :
  inv c ts → inv child us → us ≠ [] → IsClosed c = false → IsClosed child = true →
  Venue child = Venue c → Instrument child = Instrument c → trades_ok (ts ++ us) →
  ∃ c', ApplyClosedCandle child c = (c', inr tt) ∧ inv c' (ts ++ us) ∧
        ident_fields c' = ident_fields c.
Proof.
  intros Hc Hch Hus Hcl Hclc Hven Hins Htok. pose proof (inv_Validate _ _ Hus Hch) as Hval.
  destruct Hc as [Hi Hv Hm _], Hch as [Hic Hvc Hmc Htokc].
  unfold ApplyClosedCandle. erewrite bind_run by reflexivity. rewrite Hcl, Hclc. cbn [negb].
  do 2 (erewrite bind_run by reflexivity).
  assert (TrimSpace (Venue child) = Venue c ∧ TrimSpace (Instrument child) = Instrument c) as [-> ->].
  { destruct Hic as [[? _] [? _] _ _ _]. split; congruence. }
  unfold str_eqb. rewrite !String.eqb_refl. do 2 (erewrite bind_run by reflexivity).
  assert (0 < TradeCount child) by (destruct Hvc, us; [done|]; cbn [length] in *; lia).
  rewrite (proj2 (Z.leb_gt (TradeCount child) 0)) by done. erewrite bind_run by reflexivity.
  erewrite bind_run by (unfold on_local; by rewrite Hval). cbn [fst].
  erewrite bind_run by (unfold on_local; by rewrite hydrate_id by by eapply view_hydrated). cbn [fst].
  assert ((0 <? SeqLast c) && (SeqFirst child <? SeqLast c) = false) as ->.
  { apply andb_false_iff. rewrite !Z.ltb_ge. destruct Hv, Hvc. rewrite view_last0, view_first1.
    destruct (decide (ts = [])) as [->|Hne]; [left; cbn; lia|right].
    destruct (last_price_in ts Hne) as (u & Hu & _ & ->).
    destruct (first_price_in us Hus) as (w & Hw & _ & ->).
    destruct Htok as [_ Hs _ _]. apply StronglySorted_app in Hs as (Hord & _ & _). by apply Hord. }
  do 3 (erewrite bind_run by reflexivity).
  match goal with |- context [Validate ?x] => set (c' := x) end.
  assert (ident_fields c' = ident_fields c) as Hsame.
  { etrans; [apply sync_ident|apply childUpdate_ident]. }
  assert (inv c' (ts ++ us)) as Hinv.
  { split; [by eapply ident_same|by apply sync_view, childUpdate_view|apply sync_mirror|done]. }
  exists c'. rewrite (inv_Validate c' (ts ++ us)); [done| |done]. by destruct ts, us.
Qed.
End rollup.

Section claims.
Context {GR : GoRuntime}.
Implicit Types (c child : CandleV1) (ts us : list trade).

(** A well-formed candle is determined by its identity, window and trades. *)
Lemma inv_unique c c' ts : inv c ts → inv c' ts → ident_fields c = ident_fields c' → c = c'.
Proof.
  intros [_ Hv Hm _] [_ Hv' Hm' _] Hid. destruct c, c', Hv, Hv', Hm, Hm'.
  unfold ident_fields in Hid. cbn in *. simplify_eq. congruence.
Qed.

Lemma allowed_trim tf : tf ∈ AllowedCandleTimeframes → TrimSpace tf = tf.
Proof. unfold AllowedCandleTimeframes. rewrite !elem_of_cons. intros H. destruct_or!; subst; try reflexivity. by apply elem_of_nil in H. Qed.

Lemma trades_ok_nil : trades_ok [].
Proof. split; [constructor|constructor|done|done]. Qed.

Lemma NewCandleV1_inv venue instrument tf ws c :
  NewCandleV1 venue instrument tf ws = inr c →
  inv c [] ∧ ident_fields c = (TrimSpace venue, TrimSpace instrument, TrimSpace tf, ws, 0, false) ∧
  tf ∈ AllowedCandleTimeframes.
Proof.
  unfold NewCandleV1. split_match; [done|]. intros [= <-]. collect_facts.
  assert (Htf : TrimSpace tf = tf) by by apply allowed_trim.
  split_and!; [|done|done]. split; [|by split|by split|apply trades_ok_nil].
  split; cbn; rewrite ?TrimSpace_idem, ?Htf; done.
Qed.

(** The loop of [RollupCandle]. *)
Lemma rollup_loop (srcs : list (CandleV1 * list trade)) venue instrument wstart ms c ts :
  inv c ts → IsClosed c = false → Venue c = venue → Instrument c = instrument →
  Forall (λ s, inv s.1 s.2 ∧ s.2 ≠ [] ∧ IsClosed s.1 = true ∧ Venue s.1 = venue ∧
               Instrument s.1 = instrument ∧ bucketStartDomain (WindowStartTs s.1) ms = wstart) srcs →
  trades_ok (ts ++ mjoin (snd <$> srcs)) →
  ∃ c', for_each (fst <$> srcs) (rollupStep venue instrument wstart ms) c = (c', inr tt) ∧
        inv c' (ts ++ mjoin (snd <$> srcs)) ∧ ident_fields c' = ident_fields c.
Proof.
  revert c ts. induction srcs as [|[s us] srcs IH]; intros c ts Hc Hcl Hven Hins Hall Htok.
  - exists c. cbn in *. by rewrite app_nil_r.
  - apply Forall_cons in Hall as [(Hs & Hne & Hclo & Hv & Hi & Hw) Hall]. cbn in *.
    rewrite app_assoc in Htok |- *.
    destruct (ApplyClosedCandle_accepts c s ts us) as (c' & Hrun & Hinv & Hid);
      [done..|congruence|congruence|by apply trades_ok_app_l in Htok|].
    assert (rollupStep venue instrument wstart ms s c = (c', inr tt)) as Hstep.
    { unfold rollupStep, str_eqb. rewrite Hclo, Hv, Hi, Hw, !String.eqb_refl, Z.eqb_refl. exact Hrun. }
    unfold ident_fields in Hid.
    destruct (IH c' (ts ++ us)) as (c'' & Hrun' & Hinv' & Hid'); [done|congruence..|done|done|].
    exists c''. erewrite bind_run by exact Hstep. split_and!; [done|done|].
    unfold ident_fields in *. congruence.
Qed.

(** Applying raw trades that denote [us] appends them, one [ApplyTrade] at a time. *)
Lemma apply_raws_inv raws us c ts :
  inv c ts → IsClosed c = false → Forall2 (λ r t, fixed_raw r = Some t) raws us →
  trades_ok (ts ++ us) →
  ∃ c', for_each raws apply_raw c = (c', inr tt) ∧ inv c' (ts ++ us) ∧ ident_fields c' = ident_fields c.
Proof.
  intros Hc Hcl Hall. revert c ts Hc Hcl. induction Hall as [|r t raws us Ht _ IH]; intros c ts Hc Hcl Htok.
  - exists c. cbn. by rewrite app_nil_r.
  - replace (ts ++ t :: us) with ((ts ++ [t]) ++ us) in * by by rewrite <- app_assoc.
    destruct r as [[[price qty] isBuy] seq]. cbn in Ht.
    destruct (ApplyTrade_accepts c ts price qty isBuy seq t) as (c1 & Hrun & Hinv & Hid);
      [done..|by apply trades_ok_app_l in Htok|].
    unfold ident_fields in Hid.
    destruct (IH c1 (ts ++ [t])) as (c2 & Hrun2 & Hinv2 & Hid2); [done|congruence|done|].
    exists c2. cbn [for_each]. unfold apply_raw at 1. erewrite bind_run by exact Hrun.
    split_and!; [done|done|]. unfold ident_fields in *. congruence.
Qed.

(** C1: A new candle accepts every list of positive, in-order trades whose total
    volume fits in 64 bits, and then holds exactly their open, high, low, close,
    volume, buy and sell volume, count and sequence bounds. *)
Theorem candle_summarises_trades venue instrument tf ws c0 raws ts :
  NewCandleV1 venue instrument tf ws = inr c0 →
  Forall2 (λ r t, fixed_raw r = Some t) raws ts → trades_ok ts →
  ∃ c, for_each raws apply_raw c0 = (c, inr tt) ∧ inv c ts ∧
       WindowStartTs c = ws ∧ IsClosed c = false.
Proof.
  intros (Hinv & Hid & _)%NewCandleV1_inv Hall Htok. unfold ident_fields in Hid.
  destruct (apply_raws_inv raws ts c0 [] Hinv ltac:(congruence) Hall Htok) as (c & Hrun & Hc & Hid').
  unfold ident_fields in Hid'. exists c. split_and!; [done|done|congruence|congruence].
Qed.

(** [ApplyTrade] on a closed candle, a non-positive sequence number, a price or
    quantity that is not a positive fixed-point number, or a sequence number that
    goes backwards reports an error and leaves the candle unchanged. *)
Theorem rejected_trade_changes_nothing c price qty isBuy seq :
  IsClosed c = true ∨ seq ≤ 0 ∨ fixed_trade price qty isBuy seq = None ∨
    (0 < SeqLast c ∧ seq < SeqLast c) →
  ∃ p, ApplyTrade price qty isBuy seq c = (c, inl p) ∧
       Code p ∈ [Conflict; ValidationFailed; OutOfOrder].
Proof. apply ApplyTrade_rejects. Qed.

(** A trade whose quantity pushes the fixed-point volume of a candle past the
    64-bit range is reported, but the candle keeps the wrapped volume: closing
    it then fails after marking it closed, and every later trade or close of that
    candle is refused. *)
Theorem volume_overflow_wedges_candle c ts price qty isBuy seq t we :
  inv c ts → IsClosed c = false → fixed_trade price qty isBuy seq = Some t →
  0 < seq ≤ MaxInt64 → last_seq ts ≤ seq → Z.of_nat (length ts) < MaxInt64 →
  MaxInt64 < qty_of ts + t_qty t → WindowStartTs c < we →
  ∃ c1 p1 c2 p2,
    ApplyTrade price qty isBuy seq c = (c1, inl p1) ∧ Code p1 = IntegrityViolation ∧
    volumeFixed c1 < 0 ∧
    Close we c1 = (c2, inl p2) ∧ Code p2 = IntegrityViolation ∧
    (∀ price' qty' isBuy' seq', err_of (snd (ApplyTrade price' qty' isBuy' seq' c2)) =
       Some (New Conflict "cannot mutate closed candle")) ∧
    (∀ we', err_of (snd (Close we' c2)) = Some (New Conflict "candle already closed")).
Proof.
  intros Hinv Hcl Hft Hseq Hlast Hlen Hov Hwe.
  pose proof (fixed_trade_ok _ _ _ _ _ Hft) as (Hp & Hq & Hb & Hs).
  apply toPositiveFixed_range in Hp, Hq.
  assert (Hpoi := tradeUpdate_poisons c ts t Hinv Hcl ltac:(split_and!; lia) Hlen Hov).
  assert (SeqLast c ≤ seq) by (destruct Hinv as [_ [] _ _]; lia).
  rewrite (ApplyTrade_run c price qty isBuy seq t Hcl ltac:(lia) Hft) by auto.
  set (c1 := fst (syncFromFixed _)) in *.
  assert (ident_fields c1 = ident_fields c) as Hid.
  { etrans; [apply sync_ident|apply tradeUpdate_ident]. }
  unfold ident_fields in Hid.
  destruct Hpoi as [Hi Hh Hn Hv].
  destruct (Validate_negative c1 Hi Hh Hn Hv) as (p1 & Hval & Hp1).
  destruct (poisoned_Close c1 we) as (c2 & p2 & Hclose & Hp2 & Hcl2); [done|congruence|congruence|].
  exists c1, p1, c2, p2. split_and!; try done.
  - intros. unfold ApplyTrade. unfold_meth. by rewrite Hcl2.
  - intros. unfold Close. unfold_meth. by rewrite Hcl2.
Qed.

(** C5: Rolling up closed candles of one target window, given in any order, succeeds
    and yields the candle of the whole window: it summarises the concatenation of
    their trades in window order, and is the very record that applying all those
    trades directly would produce. *)
Theorem RollupCandle_is_direct_candle (srcs : list (CandleV1 * list trade)) input tf ms venue instrument ws :
  StronglySorted (λ a b, WindowStartTs a < WindowStartTs b) (fst <$> srcs) →
  input ≡ₚ fst <$> srcs → srcs ≠ [] →
  tf ∈ AllowedCandleTimeframes → TimeframeToMs tf = inr ms → 0 ≤ ws → ws + ms ≤ MaxInt64 → 0 < ms →
  Forall (λ s, inv s.1 s.2 ∧ s.2 ≠ [] ∧ IsClosed s.1 = true ∧ Venue s.1 = venue ∧
               Instrument s.1 = instrument ∧ bucketStartDomain (WindowStartTs s.1) ms = ws) srcs →
  trades_ok (mjoin (snd <$> srcs)) →
  ∃ c, RollupCandle input tf = inr c ∧ inv c (mjoin (snd <$> srcs)) ∧
       ident_fields c = (venue, instrument, tf, ws, ws + ms, true) ∧
       (∀ c', inv c' (mjoin (snd <$> srcs)) → ident_fields c' = ident_fields c → c' = c).
Proof.
  intros Hsort Hperm Hne Htf Hms Hws Hend Hpos Hall Htok. unfold RollupCandle.
  assert (NonEmptySliceLen "source" (Z.of_nat (length input)) = None) as ->.
  { unfold NonEmptySliceLen. rewrite Hperm, length_fmap. destruct srcs; [done|].
    by rewrite (proj2 (Z.eqb_neq _ _)) by (cbn [length]; lia). }
  rewrite Hms, (sort_slice_key WindowStartTs input (fst <$> srcs) Hperm Hsort).
  destruct srcs as [|[s us] srcs]; [done|]. cbn [fmap list_fmap fst].
  pose proof Hall as ((Hs & Hus & Hclo & Hv & Hi & Hw) & _)%Forall_cons. cbn [fst snd] in *.
  rewrite Hclo. cbn [negb].
  destruct Hs as [[[Hvt Hv0] [Hit Hi0] _ _ _] _ _ _].
  destruct (NewCandleV1 _ _ _ _) as [p|c0] eqn:Hnew.
  { exfalso. revert Hnew. unfold NewCandleV1. split_match; [|done]. intros _.
    enough (Collect [NonEmptyString "venue" (Venue s); NonEmptyString "instrument" (Instrument s);
      OneOf "timeframe" tf AllowedCandleTimeframes; NonNegativeInt "window_start_ts" (bucketStartDomain (WindowStartTs s) ms)] = None)
      by congruence.
    rewrite Collect_none, !Forall_cons, Forall_nil, !NonEmptyString_none, OneOf_none, NonNegativeInt_none, Hvt, Hit, Hw. done. }
  apply NewCandleV1_inv in Hnew as (Hinv0 & Hid0 & _).
  pose proof (allowed_trim tf Htf) as Htft.
  rewrite Hvt, Hit, Htft, Hw in Hid0. unfold ident_fields in Hid0.
  destruct (rollup_loop ((s, us) :: srcs) venue instrument ws ms c0 []) as (c1 & Hrun & Hinv1 & Hid1);
    [done|congruence..|done|done|].
  unfold ident_fields in Hid1. cbn [app] in Hinv1.
  destruct (Close_accepts c1 (mjoin (snd <$> (s, us) :: srcs)) (ws + ms)) as (c2 & Hclose & Hinv2 & Hid2).
  { done. } { cbn. by destruct us. } { congruence. } { replace (WindowStartTs c1) with ws by congruence. lia. }
  exists c2. rewrite Hv, Hi, Hw. erewrite bind_run by exact Hrun.
  rewrite add64_id by (unfold in_i64, MinInt64; lia). rewrite Hclose.
  split_and!; [done|done|congruence|]. intros c' Hc' Hidc'. by eapply inv_unique.
Qed.
End claims.

(** ** Concrete instances (amd64 runtime) *)

Definition w_t1 : trade := MkTrade 10000000000 50000000 true 1.
Definition w_t2 : trade := MkTrade 9900000000 25000000 false 2.
Definition w_raws : list raw_trade := [(flit 100 1, flit 5 10, true, 1); (flit 99 1, flit 25 100, false, 2)].

Definition w_candle (ws we : Z) (closed : bool) (t : trade) : CandleV1 :=
  let m z := fromFixed z candleFixedScale in
  let b := if t_buy t then t_qty t else 0 in
  let s := if t_buy t then 0 else t_qty t in
  MkCandleV1 "BINANCE" "BTCUSDT" "1s" ws we (m (t_price t)) (m (t_price t)) (m (t_price t)) (m (t_price t))
    (m (t_qty t)) (m b) (m s) 1 (t_seq t) (t_seq t) closed
    (t_price t) (t_price t) (t_price t) (t_price t) (t_qty t) b s.
Definition w_full : trade := MkTrade 10000000000 9000000000000000000 true 1.

(** A one-trade candle satisfies the invariant. *)
Lemma w_candle_inv (ws we : Z) (closed : bool) (t : trade) :
  trade_ok t → 0 ≤ ws → (if closed then ws < we else we = 0) →
  inv (GR:=go_amd64) (w_candle ws we closed t) [t].
Proof.
  intros (?&?&?) ??. split; [split; cbn; try done| |by split|].
  - repeat constructor.
  - split; cbn; unfold highest; cbn; repeat split_match; lia.
  - split; [repeat constructor; lia|repeat constructor|cbn; lia|done].
Qed.

(** Concrete [Forall] and [StronglySorted] facts about lists of records. *)
Ltac solve_forall tac := rewrite ?Forall_cons, Forall_nil; repeat split; tac.
Ltac solve_sorted tac := repeat (apply SSorted_cons; [|solve_forall tac]); apply SSorted_nil.
Ltac solve_trades_ok :=
  simpl; split;
  [ solve_forall ltac:(cbn; unfold MaxInt64; lia)
  | solve_sorted ltac:(cbn; lia)
  | cbn; unfold MaxInt64; lia
  | cbn; unfold MaxInt64; lia ].

Lemma candle_summarises_trades_witness :
  ∃ c, for_each w_raws (apply_raw (GR:=go_amd64))
         (MkCandleV1 "BINANCE" "BTCUSDT" "1s" 5000 0 f0 f0 f0 f0 f0 f0 f0 0 0 0 false 0 0 0 0 0 0 0) = (c, inr tt) ∧
       inv (GR:=go_amd64) c [w_t1; w_t2] ∧ WindowStartTs c = 5000 ∧ IsClosed c = false.
Proof.
  apply (candle_summarises_trades (GR:=go_amd64) " BINANCE" "BTCUSDT" "1s" 5000 _ w_raws [w_t1; w_t2]);
    [vm_compute; reflexivity| |solve_trades_ok].
  repeat constructor; vm_compute; reflexivity.
Defined.

Lemma rejected_trade_changes_nothing_witness :
  ∃ p, ApplyTrade (GR:=go_amd64) (flit 1 1) (flit 1 1) true 0 (w_candle 0 0 false w_t1) = (w_candle 0 0 false w_t1, inl p) ∧
       Code p ∈ [Conflict; ValidationFailed; OutOfOrder].
Proof. apply (rejected_trade_changes_nothing (GR:=go_amd64)). right. left. lia. Defined.

Lemma volume_overflow_wedges_candle_witness :
  ∃ c1 p1 c2 p2,
    ApplyTrade (GR:=go_amd64) (flit 1 1) (flit 9000000000 1) true 2 (w_candle 0 0 false w_full) = (c1, inl p1) ∧
    Code p1 = IntegrityViolation ∧ volumeFixed c1 < 0 ∧
    Close (GR:=go_amd64) 1000 c1 = (c2, inl p2) ∧ Code p2 = IntegrityViolation ∧
    (∀ price' qty' isBuy' seq', err_of (snd (ApplyTrade (GR:=go_amd64) price' qty' isBuy' seq' c2)) =
       Some (New Conflict "cannot mutate closed candle")) ∧
    (∀ we', err_of (snd (Close (GR:=go_amd64) we' c2)) = Some (New Conflict "candle already closed")).
Proof.
  apply (volume_overflow_wedges_candle (GR:=go_amd64) _ [w_full] _ _ _ _ (MkTrade 100000000 900000000000000000 true 2));
    [apply w_candle_inv; [repeat split; cbn; unfold MaxInt64; lia|lia|reflexivity]|reflexivity|vm_compute; reflexivity|
     unfold MaxInt64; lia|cbn; lia|cbn; unfold MaxInt64; lia|cbn; unfold MaxInt64; lia|cbn; lia].
Defined.

Lemma RollupCandle_is_direct_candle_witness :
  ∃ c, RollupCandle (GR:=go_amd64) [w_candle 1000 2000 true w_t2; w_candle 0 1000 true w_t1] "1m" = inr c ∧
       inv (GR:=go_amd64) c [w_t1; w_t2] ∧
       ident_fields c = ("BINANCE", "BTCUSDT", "1m", 0, 60000, true) ∧
       (∀ c', inv (GR:=go_amd64) c' [w_t1; w_t2] → ident_fields c' = ident_fields c → c' = c).
Proof.
  apply (RollupCandle_is_direct_candle (GR:=go_amd64)
    [(w_candle 0 1000 true w_t1, [w_t1]); (w_candle 1000 2000 true w_t2, [w_t2])] _ "1m" 60000);
    [solve_sorted ltac:(cbn; lia)|apply perm_swap|done|set_solver|vm_compute; reflexivity|lia|unfold MaxInt64; lia|lia| |solve_trades_ok].
  rewrite !Forall_cons, Forall_nil. split_and!; try done; apply w_candle_inv; try lia; repeat split; cbn; unfold MaxInt64; lia.
Defined.
