(* ===== verification/BoundedMap.v ===== *)
(** * BoundedMap: internal/shared/ds/boundedmap.go

    The LRU map with capacity and TTL that every use case keeps its aggregates
    in. The state is the Go struct: [items] is the map, [lru] the keys of the
    doubly linked list front first (most recently used first). The clock is read
    once per operation, so an operation takes [now]; [onEvict] and [onSweep]
    are represented by whether they are set, and an operation returns the eviction
    events it fires.
    The mutex makes each operation atomic.

    The abstract specification is a list of entries in recency order; every
    operation refines it. *)

From S2P Require Import Prelude GoRuntime.

Local Open Scope string_scope.
Local Open Scope list_scope.
Local Open Scope Z_scope.

Definition EvictReasonSize : string := "size".
Definition EvictReasonTTL : string := "ttl".
Definition EvictReasonUnknown : string := "unknown".

(** [m.lru.Remove(entry.element)]: unlink the node of a key. *)
Fixpoint unlink {K} `{EqDecision K} (k : K) (l : list K) : list K :=
  match l with
  | [] => []
  | x :: l' => if decide (x = k) then l' else x :: unlink k l'
  end.

Record boundedEntry (V : Type) := MkEntry { value : V; expiresAt : Z }.
Arguments MkEntry {V}. Arguments value {V}. Arguments expiresAt {V}.

Record BoundedMap (K V : Type) `{Countable K} := MkBoundedMap {
  maxSize : Z;
  ttl : Z;
  items : gmap K (boundedEntry V);
  lru : list K;
  onEvict : bool;
  onSweep : bool;
  opCount : Z;
  sweepEveryOps : Z;
  sweepMinInterval : Z;
  lastSweep : Z;
}.
Arguments MkBoundedMap {K V _ _}. Arguments maxSize {K V _ _}. Arguments ttl {K V _ _}.
Arguments items {K V _ _}. Arguments lru {K V _ _}. Arguments onEvict {K V _ _}. Arguments onSweep {K V _ _}.
Arguments opCount {K V _ _}. Arguments sweepEveryOps {K V _ _}.
Arguments sweepMinInterval {K V _ _}. Arguments lastSweep {K V _ _}.

#[export] Instance BoundedMap_eta {K V} `{Countable K} : Eta (BoundedMap K V) := λ r,
  MkBoundedMap (maxSize r) (ttl r) (items r) (lru r) (onEvict r) (onSweep r) (opCount r)
    (sweepEveryOps r) (sweepMinInterval r) (lastSweep r).

Record evictionEvent (K V : Type) := MkEviction { ev_key : K; ev_value : V; ev_reason : string }.
Arguments MkEviction {K V}. Arguments ev_key {K V}. Arguments ev_value {K V}. Arguments ev_reason {K V}.

Section boundedmap.
Context {GR : GoRuntime} {K V : Type} `{Countable K}.
Implicit Types (m : BoundedMap K V) (now : Z).

Definition NewBoundedMap (maxSize ttl now : Z) : BoundedMap K V :=
  MkBoundedMap (if maxSize <=? 0 then 1 else maxSize) ttl ∅ [] false false 0 0 0 now.

Definition SetOnEvict (fn : bool) m : BoundedMap K V := m <| onEvict := fn |>.
Definition SetOnSweep (fn : bool) m : BoundedMap K V := m <| onSweep := fn |>.
Definition SetSweepEveryOps (n : Z) m : BoundedMap K V := m <| sweepEveryOps := n |>.
Definition SetSweepMinInterval (d : Z) m : BoundedMap K V := m <| sweepMinInterval := d |>.

Definition nextExpiryAt m now : Z := if ttl m <=? 0 then 0 else now + ttl m.

Definition isExpiredAt m (e : boundedEntry V) now : bool :=
  if ttl m <=? 0 then false else negb (expiresAt e =? 0) && (expiresAt e <=? now).

Definition evictLocked m (k : K) (e : boundedEntry V) (reason : string)
    : BoundedMap K V * list (evictionEvent K V) :=
  (m <| items ::= delete k |> <| lru ::= unlink k |>,
   if onEvict m then [MkEviction k (value e) reason] else []).

(** The range loop of [sweepLocked] over the entries still to visit. *)
Fixpoint sweepEntries now (entries : list (K * boundedEntry V)) m
    : BoundedMap K V * Z * list (evictionEvent K V) :=
  match entries with
  | [] => (m, 0, [])
  | (k, e) :: rest =>
      if isExpiredAt m e now then
        let '(m1, ev) := evictLocked m k e EvictReasonTTL in
        let '(m2, n, evs) := sweepEntries now rest m1 in
        (m2, n + 1, ev ++ evs)
      else sweepEntries now rest m
  end.

Definition sweepLocked now m : BoundedMap K V * Z * list (evictionEvent K V) :=
  if (ttl m <=? 0) || bool_decide (size (items m) = 0%nat) then (m, 0, [])
  else sweepEntries now (map_range (items m)) m.

Definition sweepDue now m : bool :=
  ((0 <? sweepEveryOps m) && (opCount m mod sweepEveryOps m =? 0)) ||
  ((0 <? sweepMinInterval m) && (sweepMinInterval m <=? time_sub now (lastSweep m))).

Definition maybeSweepLocked now m : BoundedMap K V * list (evictionEvent K V) :=
  if ttl m <=? 0 then (m, [])
  else if negb (sweepDue now m) then (m, [])
  else
    let '(m1, _, evs) := sweepLocked now m in
    (m1 <| lastSweep := now |>, evs).

Definition bumpOps m : BoundedMap K V := m <| opCount := wrapu64 (opCount m + 1) |>.

Definition Get (key : K) now m : BoundedMap K V * option V * list (evictionEvent K V) :=
  let m := bumpOps m in
  match items m !! key with
  | None => let '(m, evs) := maybeSweepLocked now m in (m, None, evs)
  | Some entry =>
      if isExpiredAt m entry now then
        let '(m, ev) := evictLocked m key entry EvictReasonTTL in
        let '(m, evs) := maybeSweepLocked now m in (m, None, ev ++ evs)
      else
        let m := m <| lru ::= λ l, key :: unlink key l |> in
        let '(m, evs) := maybeSweepLocked now m in (m, Some (value entry), evs)
  end.

(** The eviction of the LRU tail when a new key does not fit. *)
Definition evictTail m : BoundedMap K V * list (evictionEvent K V) :=
  if maxSize m <=? Z.of_nat (size (items m)) then
    match last (lru m) with
    | None => (m, [])
    | Some tailKey =>
        match items m !! tailKey with
        | None => (m, [])
        | Some old => evictLocked m tailKey old EvictReasonSize
        end
    end
  else (m, []).

Definition Put (key : K) (v : V) now m : BoundedMap K V * list (evictionEvent K V) :=
  let m := bumpOps m in
  match items m !! key with
  | Some _ =>
      let m := m <| items ::= <[key := MkEntry v (nextExpiryAt m now)]> |>
                 <| lru ::= λ l, key :: unlink key l |> in
      maybeSweepLocked now m
  | None =>
      let '(m, ev) := evictTail m in
      let m := m <| lru ::= cons key |> <| items ::= <[key := MkEntry v (nextExpiryAt m now)]> |> in
      let '(m, evs) := maybeSweepLocked now m in (m, ev ++ evs)
  end.

Definition Delete (key : K) now m : BoundedMap K V * list (evictionEvent K V) :=
  let m := bumpOps m in
  let '(m, ev) := match items m !! key with
                  | Some entry => evictLocked m key entry EvictReasonUnknown
                  | None => (m, [])
                  end in
  let '(m, evs) := maybeSweepLocked now m in (m, ev ++ evs).

Definition Len m : Z := Z.of_nat (size (items m)).

(** [Sweep] returns the number removed; the last component is the argument of
    the [onSweep] callback, when it is set. *)
Definition Sweep now m : BoundedMap K V * Z * list (evictionEvent K V) * option Z :=
  let '(m, removed, evs) := sweepLocked now m in
  (m <| lastSweep := now |>, removed, evs, if onSweep m then Some removed else None).

(** ** The abstract specification: entries in recency order *)

Abbreviation entries := (list (K * boundedEntry V)).

Definition as_map (l : entries) : gmap K (boundedEntry V) := list_to_map l.
Definition drop_key (k : K) (l : entries) : entries := filter (λ x, x.1 ≠ k) l.
(** What is left of the entries after the sweep that [m] may owe at [now]. *)
Definition spec_sweep m now (l : entries) : entries :=
  if (ttl m <=? 0) || negb (sweepDue now m) then l
  else filter (λ x, isExpiredAt m x.2 now = false) l.

Definition spec_Get m (k : K) now (l : entries) : entries * option V :=
  let m := bumpOps m in
  match as_map l !! k with
  | None => (spec_sweep m now l, None)
  | Some e =>
      if isExpiredAt m e now then (spec_sweep m now (drop_key k l), None)
      else (spec_sweep m now ((k, e) :: drop_key k l), Some (value e))
  end.

Definition spec_Put m (k : K) (v : V) now (l : entries) : entries :=
  let m := bumpOps m in
  let e := MkEntry v (nextExpiryAt m now) in
  match as_map l !! k with
  | Some _ => spec_sweep m now ((k, e) :: drop_key k l)
  | None =>
      let kept := if maxSize m <=? Z.of_nat (length l) then take (length l - 1) l else l in
      spec_sweep m now ((k, e) :: kept)
  end.

Definition spec_Delete m (k : K) now (l : entries) : entries :=
  spec_sweep (bumpOps m) now (drop_key k l).

Definition spec_Sweep m now (l : entries) : entries :=
  if ttl m <=? 0 then l else filter (λ x, isExpiredAt m x.2 now = false) l.

(** The concrete map [m] holds the entries [l], most recently used first. *)
Record rep m (l : entries) : Prop := {
  rep_lru : lru m = l.*1;
  rep_items : items m = as_map l;
  rep_nodup : NoDup l.*1;
  rep_size : Z.of_nat (length l) ≤ maxSize m;
  rep_cap : 1 ≤ maxSize m;
}.

(** ** Lists of entries *)

Lemma as_map_lookup (l : entries) k e : NoDup l.*1 → as_map l !! k = Some e ↔ (k, e) ∈ l.
Proof. intros Hnd. unfold as_map. symmetry. by apply elem_of_list_to_map. Qed.
Lemma as_map_none (l : entries) k : as_map l !! k = None ↔ k ∉ l.*1.
Proof. unfold as_map. symmetry. apply not_elem_of_list_to_map. Qed.

Lemma elem_filter_fst (P : K * boundedEntry V → Prop) `{∀ x, Decision (P x)} (l : entries) k :
  k ∈ (filter P l).*1 → k ∈ l.*1.
Proof. rewrite !list_elem_of_fmap. intros (x & -> & [_ Hx]%list_elem_of_filter). eauto. Qed.
Lemma NoDup_filter_fst (P : K * boundedEntry V → Prop) `{∀ x, Decision (P x)} (l : entries) :
  NoDup l.*1 → NoDup (filter P l).*1.
Proof.
  induction l as [|x l IH]; [done|]. rewrite fmap_cons, NoDup_cons. intros [Hx Hl].
  rewrite filter_cons. case_decide; [|auto]. rewrite fmap_cons, NoDup_cons. split; [|auto].
  intros ?. by apply Hx, (elem_filter_fst P).
Qed.

(** Filtering the entries by a predicate filters the map. *)
Lemma as_map_filter_lookup (P : K * boundedEntry V → Prop) `{∀ x, Decision (P x)} (l : entries) k e :
  NoDup l.*1 → as_map (filter P l) !! k = Some e ↔ as_map l !! k = Some e ∧ P (k, e).
Proof.
  intros Hnd. rewrite !as_map_lookup, list_elem_of_filter by auto using NoDup_filter_fst. naive_solver.
Qed.

Lemma as_map_drop (l : entries) k : NoDup l.*1 → as_map (drop_key k l) = delete k (as_map l).
Proof.
  intros Hnd. apply map_eq. intros k'. apply option_eq. intros e. unfold drop_key.
  rewrite as_map_filter_lookup by done. cbn. rewrite lookup_delete_Some. naive_solver.
Qed.

Lemma unlink_notin k (l : list K) : k ∉ l → unlink k l = l.
Proof.
  induction l as [|x l IH]; [done|]. rewrite not_elem_of_cons. intros [Hx Hl]. cbn.
  rewrite decide_False by done. by rewrite IH.
Qed.
Lemma unlink_drop (l : entries) k : NoDup l.*1 → unlink k l.*1 = (drop_key k l).*1.
Proof.
  unfold drop_key. induction l as [|[x e] l IH]; [done|].
  rewrite fmap_cons, NoDup_cons. intros [Hx Hl]. cbn [unlink fst] in *. case_decide as Hxk.
  - subst x. rewrite filter_cons_False by (cbn; tauto).
    assert (filter (λ x, x.1 ≠ k) l = l) as ->; [|done].
    clear IH Hl. induction l as [|[y e'] l IH]; [done|].
    rewrite fmap_cons in Hx. apply not_elem_of_cons in Hx as [? Hx].
    rewrite filter_cons_True by (cbn in *; congruence). by rewrite IH.
  - rewrite filter_cons_True by done. by rewrite fmap_cons, IH.
Qed.

Lemma length_drop_key (l : entries) k : (length (drop_key k l) ≤ length l)%nat.
Proof. apply length_filter. Qed.

(** Dropping a key that is present frees one slot. *)
Lemma length_drop_present (l : entries) k :
  k ∈ l.*1 → (length (drop_key k l) < length l)%nat.
Proof.
  unfold drop_key. induction l as [|[x e] l IH]; [by intros ?%elem_of_nil|].
  rewrite fmap_cons, filter_cons. cbn [fst length]. case_decide as Hxk; cbn [length].
  - intros [->|Hk]%elem_of_cons; [done|]. specialize (IH Hk). lia.
  - intros _. pose proof (length_drop_key l k) as Hle. unfold drop_key in Hle. lia.
Qed.

Lemma rep_map_size m l : rep m l → size (items m) = length l.
Proof.
  intros [_ -> Hnd _ _]. unfold as_map. rewrite <- length_map_to_list.
  rewrite map_to_list_to_map by done. done.
Qed.

(** ** Every operation refines the specification *)

(** The configuration fields, which no operation changes. *)
Definition config m : Z * Z * bool * bool * Z * Z :=
  (maxSize m, ttl m, onEvict m, onSweep m, sweepEveryOps m, sweepMinInterval m).

Lemma config_expired m m' e now : config m = config m' → isExpiredAt m e now = isExpiredAt m' e now.
Proof. unfold config, isExpiredAt. intros Hc. injection Hc as _ -> _ _ _ _. done. Qed.

Definition kv (x : K * boundedEntry V) : K * V := (x.1, value x.2).
Definition gone (ev : evictionEvent K V) : K * V := (ev_key ev, ev_value ev).

(** [m] with the entries [l] became [m'] with the entries [l'], and the events
    [evs] report exactly the entries that left. *)
Record moves m (l : entries) m' (l' : entries) (evs : list (evictionEvent K V)) : Prop := {
  moves_rep : rep m' l';
  moves_config : config m' = config m;
  moves_gone : onEvict m = true → kv <$> l ≡ₚ (kv <$> l') ++ (gone <$> evs);
}.

Lemma moves_refl m l m' : rep m' l → config m' = config m → moves m l m' l [].
Proof. intros Hr Hc. split; [done|done|]. intros _. by rewrite app_nil_r. Qed.

Lemma moves_trans m l m1 l1 e1 m2 l2 e2 :
  moves m l m1 l1 e1 → moves m1 l1 m2 l2 e2 → moves m l m2 l2 (e1 ++ e2).
Proof.
  intros [_ C1 G1] [R2 C2 G2]. split; [done|congruence|]. intros Hon.
  assert (onEvict m1 = true) as Hon1 by (unfold config in C1; congruence).
  rewrite (G1 Hon), (G2 Hon1), fmap_app. solve_Permutation.
Qed.

(** What is left when a present entry is dropped. *)
Lemma drop_key_perm (l : entries) k e : NoDup l.*1 → (k, e) ∈ l → l ≡ₚ drop_key k l ++ [(k, e)].
Proof.
  intros Hnd Hin. apply NoDup_Permutation.
  - by eapply NoDup_fmap_1.
  - apply NoDup_app. split_and!.
    + apply NoDup_fmap_1 with fst. by apply NoDup_filter_fst.
    + intros x [Hx _]%list_elem_of_filter ->%list_elem_of_singleton. done.
    + apply NoDup_singleton.
  - intros x. rewrite elem_of_app, list_elem_of_singleton. unfold drop_key.
    rewrite list_elem_of_filter. split.
    + intros Hx. destruct (decide (x.1 = k)) as [Hk|]; [|tauto]. right. destruct x as [k' e']. cbn in Hk.
      subst k'. apply as_map_lookup in Hx, Hin; [|done|done]. congruence.
    + intros [[_ Hx]| ->]; done.
Qed.

Lemma evictLocked_moves m l k e reason :
  rep m l → (k, e) ∈ l →
  moves m l (evictLocked m k e reason).1 (drop_key k l) (evictLocked m k e reason).2.
Proof.
  intros [Hl Hi Hnd Hs Hc] Hin. split; [|done|].
  - split; cbn; [by rewrite Hl, unlink_drop|by rewrite Hi, as_map_drop| | |done].
    + by apply NoDup_filter_fst.
    + pose proof (length_drop_key l k). lia.
  - cbn. intros ->. rewrite (drop_key_perm l k e Hnd Hin) at 1. by rewrite fmap_app.
Qed.

(** Moving a key to the front of the list. *)
Lemma rep_touch m l k e :
  rep m l → k ∈ l.*1 →
  rep (m <| items ::= <[k := e]> |> <| lru ::= λ x, k :: unlink k x |>) ((k, e) :: drop_key k l).
Proof.
  intros [Hl Hi Hnd Hs Hc] Hk. split; cbn.
  - by rewrite Hl, unlink_drop.
  - change (as_map ((k, e) :: drop_key k l)) with (<[k := e]> (as_map (drop_key k l))).
    by rewrite Hi, as_map_drop, insert_delete_eq.
  - apply NoDup_cons. split; [|by apply NoDup_filter_fst]. unfold drop_key.
    rewrite list_elem_of_fmap. intros (x & Hx & [Hne _]%list_elem_of_filter). naive_solver.
  - pose proof (length_drop_present l k Hk). lia.
  - done.
Qed.

Lemma rep_push m l k e :
  rep m l → k ∉ l.*1 → Z.of_nat (length l) < maxSize m →
  rep (m <| lru ::= cons k |> <| items ::= <[k := e]> |>) ((k, e) :: l).
Proof.
  intros [Hl Hi Hnd Hs Hc] Hk Hlt. split; cbn; [by rewrite Hl|by rewrite Hi| |lia|done].
  by apply NoDup_cons.
Qed.

(** Removing the expired entries of [es], one after the other. *)
Lemma sweepEntries_moves now es : ∀ m l,
  rep m l → NoDup es.*1 → (∀ x, x ∈ es → x ∈ l) →
  let '(m', n, evs) := sweepEntries now es m in
  let dead := filter (λ x, isExpiredAt m x.2 now = true) es in
  moves m l m' (filter (λ x, x.1 ∉ dead.*1) l) evs ∧ n = Z.of_nat (length dead).
Proof.
  induction es as [|[k e] es IH]; intros m l Hrep Hnd Hin; cbn [sweepEntries].
  { cbn. split; [|done]. rewrite filter_id by (intros ? _; apply not_elem_of_nil). by apply moves_refl. }
  rewrite fmap_cons, NoDup_cons in Hnd. destruct Hnd as [Hk Hnd].
  destruct (isExpiredAt m e now) eqn:Hexp.
  - pose proof (evictLocked_moves m l k e EvictReasonTTL Hrep (Hin _ (list_elem_of_here _ _))) as Hmv.
    specialize (IH _ _ (moves_rep _ _ _ _ _ Hmv) Hnd).
    destruct (evictLocked m k e EvictReasonTTL) as [m1 ev] eqn:Hev. cbn [fst snd] in *.
    destruct (sweepEntries now es m1) as [[m2 n] evs]. destruct IH as [Hmv2 Hn].
    { intros x Hx. unfold drop_key. apply list_elem_of_filter. split; [|apply Hin; by right].
      intros Hxk. apply Hk. cbn in Hxk. rewrite <- Hxk. by apply list_elem_of_fmap_2. }
    pose proof (moves_trans _ _ _ _ _ _ _ _ Hmv Hmv2) as Hmv3.
    injection Hev as <- <-.
    rewrite (filter_cons_True (λ x, isExpiredAt m x.2 now = true)) by done.
    assert (n = Z.of_nat (length (filter (λ x, isExpiredAt m x.2 now = true) es))) as Hn' by exact Hn.
    rewrite fmap_cons. cbn [fst length]. split; [|lia].
    unfold drop_key in Hmv3. rewrite list_filter_filter in Hmv3.
    erewrite filter_ext_in; [exact Hmv3|].
    intros x _. cbn beta. rewrite not_elem_of_cons. tauto.
  - rewrite (filter_cons_False (λ x, isExpiredAt m x.2 now = true)) by (cbn; congruence).
    apply IH; [done|done|]. intros x Hx. apply Hin. by right.
Qed.

Lemma bool_negb_filter (f : K * boundedEntry V → bool) (l : entries) :
  filter (λ x, f x ≠ true) l = filter (λ x, f x = false) l.
Proof. apply filter_ext_in. intros x _. by destruct (f x). Qed.

Lemma sweepLocked_moves now m l :
  rep m l →
  let '(m', n, evs) := sweepLocked now m in
  moves m l m' (spec_Sweep m now l) evs ∧ n = Z.of_nat (length l - length (spec_Sweep m now l)).
Proof.
  intros Hrep. unfold sweepLocked, spec_Sweep. destruct (ttl m <=? 0) eqn:Httl; cbn [orb].
  { split; [by apply moves_refl|lia]. }
  case_bool_decide as Hsz.
  { rewrite (rep_map_size m l Hrep) in Hsz. destruct l; [|done]. split; [by apply moves_refl|done]. }
  pose proof Hrep as [_ Hi Hnd _ _].
  assert (map_range (items m) ≡ₚ l) as Hperm.
  { rewrite map_range_perm, Hi. unfold as_map. by rewrite map_to_list_to_map. }
  pose proof (sweepEntries_moves now (map_range (items m)) m l Hrep) as Hmv.
  destruct (sweepEntries now (map_range (items m)) m) as [[m' n] evs].
  destruct Hmv as [Hmv Hn]; [by rewrite Hperm|intros x; by rewrite Hperm|].
  set (dead := filter (λ x, isExpiredAt m x.2 now = true) (map_range (items m))) in *.
  assert (filter (λ x, x.1 ∉ dead.*1) l = filter (λ x, isExpiredAt m x.2 now = false) l) as Heq.
  { apply filter_ext_in. intros [k e] Hx. cbn. rewrite <- not_true_iff_false. apply not_iff_compat.
    rewrite list_elem_of_fmap. unfold dead. split.
    - intros ([k' e'] & Hk & [Hexp Hin]%list_elem_of_filter). cbn in *. subst k'. rewrite Hperm in Hin.
      apply as_map_lookup in Hin, Hx; [|done|done]. congruence.
    - intros Hexp. exists (k, e). split; [done|]. apply list_elem_of_filter. by rewrite Hperm. }
  rewrite Heq in Hmv. split; [done|]. rewrite Hn. f_equal.
  assert (length dead = length (filter (λ x, isExpiredAt m x.2 now = true) l)) as ->
    by (apply Permutation_length; unfold dead; by rewrite Hperm).
  pose proof (filter_app_complement (λ x, isExpiredAt m x.2 now = true) l) as Hcomp.
  apply Permutation_length in Hcomp. rewrite length_app in Hcomp.
  rewrite (bool_negb_filter (λ x, isExpiredAt m x.2 now)) in Hcomp. lia.
Qed.

Lemma maybeSweepLocked_moves now m l :
  rep m l → let '(m', evs) := maybeSweepLocked now m in moves m l m' (spec_sweep m now l) evs.
Proof.
  intros Hrep. unfold maybeSweepLocked, spec_sweep. destruct (ttl m <=? 0) eqn:Httl; [by apply moves_refl|].
  destruct (sweepDue now m); [|by apply moves_refl]. cbn [negb orb].
  pose proof (sweepLocked_moves now m l Hrep) as Hmv.
  destruct (sweepLocked now m) as [[m1 n] evs]. destruct Hmv as [[[] Hc Hg] _].
  unfold spec_Sweep in *. rewrite Httl in *. split; [by split|done|done].
Qed.

(** Prepend the eviction made before the sweep. *)
Lemma then_sweep now m l m1 l1 ev :
  moves m l m1 l1 ev →
  let '(m', evs) := maybeSweepLocked now m1 in moves m l m' (spec_sweep m1 now l1) (ev ++ evs).
Proof.
  intros Hmv. pose proof (maybeSweepLocked_moves now m1 l1 (moves_rep _ _ _ _ _ Hmv)) as Hs.
  destruct (maybeSweepLocked now m1). by eapply moves_trans.
Qed.

(** The sweep only reads the configuration, the counter and the last sweep. *)
Lemma spec_sweep_ext m m' now l :
  config m = config m' → opCount m = opCount m' → lastSweep m = lastSweep m' →
  spec_sweep m now l = spec_sweep m' now l.
Proof.
  unfold spec_sweep, sweepDue, isExpiredAt, config. intros Hc Ho Hl. rewrite Ho, Hl.
  injection Hc as _ -> _ _ -> ->. done.
Qed.

Lemma rep_bump m l : rep m l → rep (bumpOps m) l.
Proof. intros []. by split. Qed.

Lemma drop_last_key (l : entries) x : NoDup (l ++ [x]).*1 → drop_key x.1 (l ++ [x]) = l.
Proof.
  intros Hnd. unfold drop_key. rewrite filter_app, filter_cons_False, filter_nil, app_nil_r by (cbn; tauto).
  rewrite fmap_app in Hnd. apply NoDup_app in Hnd as (_ & Hx & _).
  apply filter_id. intros y Hy Heq. apply (Hx y.1); [by apply list_elem_of_fmap_2|].
  rewrite Heq. by left.
Qed.

(** A full map evicts the least recently used entry, and only that. *)
Lemma evictTail_moves m l :
  rep m l →
  let '(m', ev) := evictTail m in
  let kept := if maxSize m <=? Z.of_nat (length l) then take (length l - 1) l else l in
  moves m l m' kept ev ∧ Z.of_nat (length kept) < maxSize m ∧ opCount m' = opCount m ∧
  lastSweep m' = lastSweep m.
Proof.
  intros Hrep. unfold evictTail. rewrite (rep_map_size m l Hrep).
  destruct (maxSize m <=? Z.of_nat (length l)) eqn:Hfull; reflect_bools;
    [|split_and!; [by apply moves_refl|lia|done|done]].
  pose proof Hrep as [Hl Hi Hnd Hs Hc].
  destruct l as [|[k e] l0 _] using rev_ind; [cbn in *; lia|].
  rewrite Hl, Hi, fmap_app. change ([(k, e)].*1) with [k]. rewrite last_snoc.
  assert (as_map (l0 ++ [(k, e)]) !! k = Some e) as ->.
  { apply as_map_lookup; [done|]. apply elem_of_app. right. by left. }
  rewrite length_app in *. cbn [length] in *.
  replace (length l0 + 1 - 1)%nat with (length l0) by lia. rewrite take_app_length.
  split_and!; [|lia|done|done].
  rewrite <- (drop_last_key l0 (k, e)) at 2 by done.
  apply evictLocked_moves; [done|]. apply elem_of_app. right. by left.
Qed.

(** The operations as data, for statements about sequences of them. *)
Inductive bm_op := OGet (k : K) | OPut (k : K) (v : V) | ODelete (k : K) | OSweep.

Definition bm_step (op : bm_op) now m : BoundedMap K V * option V * list (evictionEvent K V) :=
  match op with
  | OGet k => Get k now m
  | OPut k v => let '(m', evs) := Put k v now m in (m', None, evs)
  | ODelete k => let '(m', evs) := Delete k now m in (m', None, evs)
  | OSweep => let '(m', _, evs, _) := Sweep now m in (m', None, evs)
  end.

Definition spec_step (op : bm_op) now m (l : entries) : entries * option V :=
  match op with
  | OGet k => spec_Get m k now l
  | OPut k v => (spec_Put m k v now l, None)
  | ODelete k => (spec_Delete m k now l, None)
  | OSweep => (spec_Sweep m now l, None)
  end.

(** The entries present at the moment evictions are decided: a [Put] has
    replaced the entry of its key. *)
Definition offered (op : bm_op) now m (l : entries) : entries :=
  match op with
  | OPut k v => (k, MkEntry v (nextExpiryAt m now)) :: drop_key k l
  | _ => l
  end.

Lemma rep_present m l k e : rep m l → items m !! k = Some e → (k, e) ∈ l.
Proof. intros [_ Hi Hnd _ _]. rewrite Hi. by apply as_map_lookup. Qed.

Lemma drop_absent (l : entries) k : k ∉ l.*1 → drop_key k l = l.
Proof. intros Hk. apply filter_id. intros x Hx <-. apply Hk. by apply list_elem_of_fmap_2. Qed.

(** The entries in another order are the same multiset. *)
Lemma moves_reorder m l l0 m' l' evs :
  moves m l m' l' evs → l0 ≡ₚ l → moves m l0 m' l' evs.
Proof. intros [Hr Hc Hg] Hp. split; [done|done|]. intros Hon. by rewrite Hp, (Hg Hon). Qed.

Lemma moves_bump m l m' l' evs : moves (bumpOps m) l m' l' evs → moves m l m' l' evs.
Proof. intros [Hr Hc Hg]. by split. Qed.

Lemma Get_moves k now m l :
  rep m l →
  let '(m', r, evs) := Get k now m in
  moves m l m' (spec_Get m k now l).1 evs ∧ r = (spec_Get m k now l).2.
Proof.
  intros Hrep%rep_bump. unfold Get, spec_Get. pose proof Hrep as [_ Hi Hnd _ _]. rewrite Hi.
  destruct (as_map l !! k) as [e|] eqn:Hk.
  - assert ((k, e) ∈ l) as Hin by (by apply as_map_lookup).
    destruct (isExpiredAt (bumpOps m) e now).
    + pose proof (evictLocked_moves _ l k e EvictReasonTTL Hrep Hin) as Hmv%(then_sweep now).
      destruct (evictLocked (bumpOps m) k e EvictReasonTTL) as [m1 ev] eqn:Hev. cbn [fst snd] in Hmv.
      destruct (maybeSweepLocked now m1) as [m2 evs]. split; [|done].
      injection Hev as <- <-. by apply moves_bump.
    + assert (rep ((bumpOps m) <| lru ::= λ l, k :: unlink k l |>) ((k, e) :: drop_key k l)) as Hrep1.
      { pose proof (rep_touch _ l k e Hrep (list_elem_of_fmap_2 fst _ _ Hin)) as [].
        split; try done. cbn in *. rewrite Hi in *. by rewrite <- rep_items0, insert_id. }
      pose proof (maybeSweepLocked_moves now _ _ Hrep1) as Hmv.
      destruct (maybeSweepLocked now _) as [m2 evs]. split; [|done].
      apply moves_bump, moves_reorder with ((k, e) :: drop_key k l); [|].
      * destruct Hmv as [? ? ?]. by split.
      * rewrite (drop_key_perm l k e Hnd Hin) at 1. solve_Permutation.
  - pose proof (maybeSweepLocked_moves now _ l Hrep) as Hmv.
    destruct (maybeSweepLocked now (bumpOps m)) as [m2 evs]. split; [|done]. by apply moves_bump.
Qed.

Lemma Put_moves k v now m l :
  rep m l →
  let '(m', evs) := Put k v now m in
  moves m (offered (OPut k v) now m l) m' (spec_Put m k v now l) evs.
Proof.
  intros Hrep%rep_bump. unfold Put, spec_Put, offered. pose proof Hrep as [_ Hi Hnd _ _]. rewrite Hi.
  set (e := MkEntry v (nextExpiryAt (bumpOps m) now)).
  change (MkEntry v (nextExpiryAt m now)) with e.
  destruct (as_map l !! k) as [e0|] eqn:Hk.
  - assert (k ∈ l.*1) as Hin by (by apply (list_elem_of_fmap_2 fst _ (k, e0)), as_map_lookup).
    pose proof (rep_touch _ l k e Hrep Hin) as Hrep1.
    pose proof (maybeSweepLocked_moves now _ _ Hrep1) as Hmv.
    destruct (maybeSweepLocked now _) as [m2 evs].
    apply moves_bump. destruct Hmv as [? ? ?]. by split.
  - apply as_map_none in Hk. rewrite (drop_absent l k Hk).
    pose proof (evictTail_moves _ l Hrep) as Hev.
    destruct (evictTail (bumpOps m)) as [m1 ev]. destruct Hev as ([Hr Hc Hg] & Hlt & Ho & Hls).
    set (kept := if maxSize (bumpOps m) <=? Z.of_nat (length l) then take (length l - 1) l else l) in *.
    assert (ttl m1 = ttl m) as Httl by (by injection Hc).
    assert (nextExpiryAt m1 now = nextExpiryAt (bumpOps m) now) as -> by (unfold nextExpiryAt; cbn; by rewrite Httl).
    fold e. assert (k ∉ kept.*1) as Hk'.
    { unfold kept. destruct (_ <=? _); [|done]. rewrite fmap_take. intros Hx. apply Hk.
      rewrite <- (take_drop (length l - 1) l.*1). apply elem_of_app. by left. }
    assert (moves (bumpOps m) ((k, e) :: l) (m1 <| lru ::= cons k |> <| items ::= <[k := e]> |>)
              ((k, e) :: kept) ev) as Hmv.
    { split; [apply rep_push; [done|done|]|done|].
      - assert (maxSize m1 = maxSize m) as -> by (by injection Hc). done.
      - intros Hon. rewrite !fmap_cons, (Hg Hon). done. }
    apply (then_sweep now) in Hmv. destruct (maybeSweepLocked now _) as [m2 evs].
    apply moves_bump. rewrite (spec_sweep_ext _ (m1 <| lru ::= cons k |> <| items ::= <[k := e]> |>)); done.
Qed.

Lemma Delete_moves k now m l :
  rep m l → let '(m', evs) := Delete k now m in moves m l m' (spec_Delete m k now l) evs.
Proof.
  intros Hrep%rep_bump. unfold Delete, spec_Delete. pose proof Hrep as [_ Hi Hnd _ _]. rewrite Hi.
  destruct (as_map l !! k) as [e|] eqn:Hk.
  - apply as_map_lookup in Hk; [|done].
    pose proof (evictLocked_moves _ l k e EvictReasonUnknown Hrep Hk) as Hmv%(then_sweep now).
    destruct (evictLocked (bumpOps m) k e EvictReasonUnknown) as [m1 ev] eqn:Hev. cbn [fst snd] in Hmv.
    destruct (maybeSweepLocked now m1) as [m2 evs]. injection Hev as <- <-. by apply moves_bump.
  - apply as_map_none in Hk. rewrite (drop_absent l k Hk).
    pose proof (maybeSweepLocked_moves now _ l Hrep) as Hmv.
    destruct (maybeSweepLocked now (bumpOps m)) as [m2 evs]. by apply moves_bump.
Qed.

Lemma bm_step_moves op now m l :
  rep m l →
  let '(m', r, evs) := bm_step op now m in
  moves m (offered op now m l) m' (spec_step op now m l).1 evs ∧ r = (spec_step op now m l).2.
Proof.
  intros Hrep. destruct op as [k|k v|k|]; cbn [bm_step spec_step fst snd].
  - by apply Get_moves.
  - pose proof (Put_moves k v now m l Hrep) as Hmv. by destruct (Put k v now m).
  - pose proof (Delete_moves k now m l Hrep) as Hmv. by destruct (Delete k now m).
  - pose proof (sweepLocked_moves now m l Hrep) as Hmv. unfold Sweep.
    destruct (sweepLocked now m) as [[m1 n] evs]. destruct Hmv as [[[] Hc Hg] _]. by repeat split.
Qed.

Fixpoint bm_run (ops : list (bm_op * Z)) m : BoundedMap K V :=
  match ops with
  | [] => m
  | (op, now) :: ops' => bm_run ops' (bm_step op now m).1.1
  end.

Lemma rep_new cap t now : rep (NewBoundedMap cap t now) [].
Proof. split; cbn; try done; [apply NoDup_nil_2|destruct (cap <=? 0) eqn:?; lia..]. Qed.

Lemma bm_run_rep ops : ∀ m l, rep m l → ∃ l', rep (bm_run ops m) l' ∧ config (bm_run ops m) = config m.
Proof.
  induction ops as [|[op now] ops IH]; intros m l Hrep; cbn [bm_run]; [eauto|].
  pose proof (bm_step_moves op now m l Hrep) as Hmv.
  destruct (bm_step op now m) as [[m1 r] evs]. destruct Hmv as [[Hr Hc _] _]. cbn [fst].
  destruct (IH m1 _ Hr) as (l' & ? & ?). exists l'. split; [done|congruence].
Qed.

(** ** What recency guarantees *)

Definition touched (op : bm_op) : gset K :=
  match op with OGet k | OPut k _ | ODelete k => {[k]} | OSweep => ∅ end.

Definition touched_by (ops : list (bm_op * Z)) : gset K := ⋃ (touched ∘ fst <$> ops).

(** [(k, e)] is present and only keys of [S] are more recent. *)
Definition front (k : K) (e : boundedEntry V) (S : gset K) (l : entries) : Prop :=
  ∃ l1 l2, l = l1 ++ (k, e) :: l2 ∧ ∀ k', k' ∈ l1.*1 → k' ∈ S.

Lemma front_mono k e S S' l : front k e S l → S ⊆ S' → front k e S' l.
Proof. intros (l1 & l2 & -> & Hl1) HS. exists l1, l2. set_solver. Qed.

Lemma front_filter k e S l (P : K * boundedEntry V → Prop) `{∀ x, Decision (P x)} :
  front k e S l → P (k, e) → front k e S (filter P l).
Proof.
  intros (l1 & l2 & -> & Hl1) HP. exists (filter P l1), (filter P l2).
  rewrite filter_app, filter_cons_True by done. split; [done|].
  intros k' Hk'. by apply Hl1, (elem_filter_fst P).
Qed.

Lemma front_cons k e S l k' e' : front k e S l → front k e ({[k']} ∪ S) ((k', e') :: l).
Proof. intros (l1 & l2 & -> & Hl1). exists ((k', e') :: l1), l2. set_solver. Qed.

Lemma NoDup_size_le (l : list K) (S : gset K) : NoDup l → (∀ x, x ∈ l → x ∈ S) → (length l ≤ size S)%nat.
Proof.
  intros Hnd HS. rewrite <- (size_list_to_set (C:=gset K) l) by done. apply subseteq_size. set_solver.
Qed.

(** A new key evicts the tail; the entry is the tail only when [S] fills the map. *)
Lemma front_take k e S l k' :
  front k e S l → NoDup l.*1 → k' ∉ l.*1 → (size ({[k']} ∪ S) < length l)%nat →
  front k e S (take (length l - 1) l).
Proof.
  intros (l1 & l2 & -> & Hl1) Hnd Hk' Hsz. destruct l2 as [|x l2 _] using rev_ind.
  - exfalso. rewrite fmap_app in Hnd, Hk'. apply NoDup_app in Hnd as (Hnd & _ & _).
    pose proof (NoDup_size_le (k' :: l1.*1) ({[k']} ∪ S)) as Hle.
    rewrite length_app in Hsz. cbn in Hsz, Hle. rewrite length_fmap in Hle.
    discharge Hle; [apply NoDup_cons; set_solver|set_solver|lia].
  - exists l1, l2. split; [|done].
    change ((k, e) :: l2 ++ [x]) with (((k, e) :: l2) ++ [x]). rewrite app_assoc, length_app.
    cbn [length]. replace (_ + 1 - 1)%nat with (length (l1 ++ (k, e) :: l2)) by lia.
    by rewrite take_app_length.
Qed.

Lemma front_sweep k e S l m now :
  front k e S l → isExpiredAt m e now = false → front k e S (spec_sweep m now l).
Proof.
  intros Hf He. unfold spec_sweep. destruct (_ || _); [done|]. by apply front_filter.
Qed.

Lemma front_step k e S m l op now :
  rep m l → front k e S l → k ∉ touched op → isExpiredAt m e now = false →
  Z.of_nat (size (touched op ∪ S)) < maxSize m →
  front k e (touched op ∪ S) (spec_step op now m l).1.
Proof.
  intros Hrep Hf Hk He Hsz. assert (isExpiredAt (bumpOps m) e now = false) as He' by done.
  assert (front k e (touched op ∪ S) l) as Hf' by (apply (front_mono _ _ _ _ _ Hf); set_solver).
  assert (∀ k', k ≠ k' → front k e S (drop_key k' l)) as Hdrop.
  { intros k' Hne. by apply front_filter. }
  destruct op as [k'|k' v'|k'|]; cbn [touched spec_step fst] in *.
  - unfold spec_Get. repeat case_match; cbn [fst]; apply front_sweep; try done.
    + apply (front_mono _ _ S); set_solver.
    + apply front_cons, Hdrop. set_solver.
  - unfold spec_Put. destruct (as_map l !! k') eqn:Hk'; apply front_sweep; try done.
    + apply front_cons, Hdrop. set_solver.
    + apply front_cons. destruct (_ <=? _) eqn:Hfull; [|done]. apply Z.leb_le in Hfull. cbn in Hfull.
      apply as_map_none in Hk'. apply (front_take _ _ _ _ k'); [done|by destruct Hrep|done|lia].
  - apply front_sweep; [|done]. apply (front_mono _ _ S); [|set_solver]. apply Hdrop. set_solver.
  - unfold spec_Sweep. destruct (ttl m <=? 0); [done|]. by apply front_filter.
Qed.

Lemma front_run k e ops : ∀ S m l,
  rep m l → front k e S l → k ∉ touched_by ops →
  Forall (λ x, isExpiredAt m e x.2 = false) ops →
  Z.of_nat (size (touched_by ops ∪ S)) < maxSize m →
  ∃ l' S', rep (bm_run ops m) l' ∧ front k e S' l' ∧ config (bm_run ops m) = config m.
Proof.
  induction ops as [|[op now] ops IH]; intros S m l Hrep Hf Hk Hexp Hsz; [by eexists _, _|].
  unfold touched_by in *. cbn [bm_run fmap list_fmap union_list foldr] in *.
  change (touched (fst (op, now))) with (touched op) in *. apply Forall_cons in Hexp as [He Hexp].
  change (foldr union ∅ (touched ∘ fst <$> ops)) with (⋃ (touched ∘ fst <$> ops)) in *.
  set (T := ⋃ (touched ∘ fst <$> ops)) in *. cbn [compose fst snd] in *.
  assert (size (touched op ∪ S) ≤ size (touched op ∪ T ∪ S))%nat by (apply subseteq_size; set_solver).
  pose proof (front_step k e S m l op now Hrep Hf) as Hf1.
  discharge Hf1; [set_solver|done|lia|].
  pose proof (bm_step_moves op now m l Hrep) as Hmv.
  destruct (bm_step op now m) as [[m1 r] evs]. destruct Hmv as [[Hr Hc _] _]. cbn [fst] in *.
  destruct (IH _ m1 _ Hr Hf1) as (l' & S' & ? & ? & ?).
  - set_solver.
  - eapply Forall_impl; [exact Hexp|]. intros x Hx. cbn in *. by rewrite (config_expired m1 m).
  - assert (maxSize m1 = maxSize m) as -> by (by injection Hc).
    replace (T ∪ (touched op ∪ S)) with (touched op ∪ T ∪ S) by set_solver. done.
  - exists l', S'. split_and!; [done|done|congruence].
Qed.

Lemma front_lookup k e S m l :
  rep m l → front k e S l → as_map l !! k = Some e.
Proof.
  intros [_ _ Hnd _ _] (l1 & l2 & -> & _). apply as_map_lookup; [done|]. apply elem_of_app. right. by left.
Qed.

Lemma not_expired_entry m v now now' :
  ttl m <= 0 ∨ now' < now + ttl m → isExpiredAt m (MkEntry v (nextExpiryAt m now)) now' = false.
Proof.
  intros Ht. unfold isExpiredAt, nextExpiryAt. destruct (ttl m <=? 0) eqn:Httl; [done|].
  reflect_bools. cbn. apply andb_false_iff. right. apply Z.leb_gt. lia.
Qed.

(** C3: the map is an LRU map. However it was configured, after any sequence of
    operations it represents some list of entries in recency order within the
    capacity ([rep]); every operation then returns what the specification
    returns and leaves the map representing what the specification leaves: a hit
    moves to the front, an insertion into a full map evicts exactly the last
    entry, an expired entry is never returned, a due sweep removes exactly the
    expired entries. With an eviction callback set, the entries that left are
    reported once each: offered entries = remaining entries + events. *)
Theorem BoundedMap_refines_lru cap t start evict everyOps minInterval ops op now :
  let m := bm_run ops (SetSweepMinInterval minInterval (SetSweepEveryOps everyOps
             (SetOnEvict evict (NewBoundedMap cap t start)))) in
  ∃ l, rep m l ∧
  let '(m', r, evs) := bm_step op now m in
  let '(l', r') := spec_step op now m l in
  rep m' l' ∧ r = r' ∧ Len m' ≤ Z.max 1 cap ∧
  (evict = true → kv <$> offered op now m l ≡ₚ (kv <$> l') ++ (gone <$> evs)).
Proof.
  set (m0 := SetSweepMinInterval _ _). intros m.
  assert (rep m0 []) as Hrep0 by (pose proof (rep_new cap t start) as []; by split).
  destruct (bm_run_rep ops m0 [] Hrep0) as (l & Hrep & Hcfg). exists l. split; [done|].
  fold m in Hrep, Hcfg. pose proof (bm_step_moves op now m l Hrep) as Hmv.
  destruct (bm_step op now m) as [[m' r] evs]. destruct (spec_step op now m l) as [l' r'].
  cbn [fst snd] in Hmv. destruct Hmv as [[Hr Hc Hg] ->]. rewrite Hcfg in Hc.
  injection Hcfg as _ _ Hev _ _ _. injection Hc as Hmax _ _ _ _ _.
  split_and!; [done|done| |].
  - unfold Len. rewrite (rep_map_size m' l' Hr). destruct Hr as [_ _ _ Hs _].
    destruct (cap <=? 0) eqn:?; reflect_bools; lia.
  - intros Hon. apply Hg. by rewrite Hev.
Qed.

(** An entry survives while it is recent. After [Put(k, v)], any sequence
    of operations on other keys that touches fewer than [maxSize] distinct keys,
    all before the entry's expiry, leaves [k] in the map: the next [Get(k)]
    before the expiry returns [v]. *)
Theorem recent_entry_survives m l k v now ops now' :
  rep m l →
  k ∉ touched_by ops →
  Z.of_nat (size (touched_by ops)) < maxSize m →
  Forall (λ x, ttl m ≤ 0 ∨ x.2 < now + ttl m) ops →
  ttl m ≤ 0 ∨ now' < now + ttl m →
  (Get k now' (bm_run ops (Put k v now m).1)).1.2 = Some v.
Proof.
  intros Hrep Hk Hsz Hops Hnow'. set (e := MkEntry v (nextExpiryAt m now)).
  pose proof (Put_moves k v now m l Hrep) as Hmv.
  assert (front k e ∅ (spec_Put m k v now l)) as Hf.
  { assert (∀ l2, front k e ∅ ((k, e) :: l2)) as Hhd by (intros l2; exists [], l2; set_solver).
    assert (isExpiredAt (bumpOps m) e now = false) as He
      by (apply (not_expired_entry (bumpOps m) v now now); cbn; lia).
    unfold spec_Put. destruct (as_map l !! k); apply front_sweep; done. }
  destruct (Put k v now m) as [m1 evs]. cbn [fst]. destruct Hmv as [Hr Hc _].
  assert (∀ now, isExpiredAt m1 e now = isExpiredAt m e now) as Hx by (intros; by apply config_expired).
  assert (maxSize m1 = maxSize m) as Hmax by (by injection Hc).
  destruct (front_run k e ops ∅ m1 _ Hr Hf Hk) as (l' & S' & Hr' & Hf' & Hc').
  - eapply Forall_impl; [exact Hops|]. intros x Ht. cbn in *. rewrite Hx. by apply not_expired_entry.
  - rewrite Hmax. by replace (touched_by ops ∪ ∅) with (touched_by ops) by set_solver.
  - pose proof (Get_moves k now' _ _ Hr') as Hget.
    destruct (Get k now' (bm_run ops m1)) as [[m2 r] evs2]. destruct Hget as [_ ->]. cbn [fst snd].
    unfold spec_Get. rewrite (front_lookup k e S' _ l' Hr' Hf').
    assert (isExpiredAt (bumpOps (bm_run ops m1)) e now' = false) as ->; [|done].
    change (isExpiredAt (bm_run ops m1) e now' = false). rewrite (config_expired _ m1), Hx by done.
    by apply not_expired_entry.
Qed.
End boundedmap.

Lemma recent_entry_survives_witness :
  (Get (GR:=go_amd64) 7%Z 14
     (bm_run (GR:=go_amd64) [(OPut 8%Z 80, 11); (OGet 9%Z, 12); (OSweep, 13); (ODelete 8%Z, 13)]
       (Put (GR:=go_amd64) 7 70 10 (NewBoundedMap 3 5 0)).1)).1.2 = Some 70.
Proof.
  apply (recent_entry_survives (GR:=go_amd64) (NewBoundedMap 3 5 0) []).
  - apply rep_new.
  - vm_compute. intros H. by apply (bool_decide_unpack _) in H || discriminate H.
  - vm_compute. reflexivity.
  - rewrite !Forall_cons. cbn. split_and!; [lia|lia|lia|lia|apply Forall_nil_2].
  - cbn. lia.
Defined.
