(* ===== verification/Cells.v ===== *)
(** * Cells: aggregates behind pointers in a bounded map

    The use cases keep their aggregates in a [ds.BoundedMap] of pointers and
    mutate them in place. [Cells] is that store: the bounded map from keys to
    addresses, the heap the addresses point into, and the number of clock
    readings made so far. The clock is a parameter, [clk n] being its [n]-th
    reading: every map operation reads it once. An aggregate that a method has
    half updated before failing stays so in the heap, whether or not the map
    still points to it. *)

From S2P Require Import Prelude GoRuntime Shared BoundedMap.

Local Open Scope string_scope.
Local Open Scope list_scope.
Local Open Scope Z_scope.

Record Cells (K V : Type) `{Countable K} := MkCells {
  cmap : BoundedMap K Z;
  heap : gmap Z V;
  nextAddr : Z;
  reads : nat;
}.
Arguments MkCells {K V _ _}. Arguments cmap {K V _ _}. Arguments heap {K V _ _}.
Arguments nextAddr {K V _ _}. Arguments reads {K V _ _}.

#[export] Instance Cells_eta {K V} `{Countable K} : Eta (Cells K V) := λ r,
  MkCells (cmap r) (heap r) (nextAddr r) (reads r).

Definition nilPanic : Problem := New Internal "runtime error: invalid memory address or nil pointer dereference".

(** ** The entries a map operation leaves *)

Section entries.
Context {GR : GoRuntime} {K U : Type} `{Countable K}.
Implicit Types l : list (K * boundedEntry U).

(** [l'] has no entries beyond those of [l], and none twice. *)
Definition fewer (l' l : list (K * boundedEntry U)) : Prop := l' ⊆+ l.

Lemma filter_fewer (Q : K * boundedEntry U → Prop) `{∀ x, Decision (Q x)} l : fewer (filter Q l) l.
Proof. apply sublist_submseteq, sublist_filter. Qed.

Lemma sweep_fewer (m : BoundedMap K U) now l : fewer (spec_sweep m now l) l.
Proof. unfold spec_sweep. destruct (_ || _); [done|]. apply filter_fewer. Qed.

Lemma touch_fewer l k e : NoDup l.*1 → as_map l !! k = Some e → fewer ((k, e) :: drop_key k l) l.
Proof.
  intros Hnd Hk. apply as_map_lookup in Hk; [|done]. unfold fewer.
  rewrite (drop_key_perm l k e Hnd Hk) at 2. rewrite Permutation_app_comm. done.
Qed.

Lemma NoDup_drop l k : NoDup l.*1 → ∀ e, (k, e) ∉ drop_key k l.
Proof. intros _ e Hin. unfold drop_key in Hin. apply list_elem_of_filter in Hin as [Hne _]. by apply Hne. Qed.

(** The entries of the map after [Put(k, a)]: the new one and some of the others. *)
Lemma spec_Put_entries (m : BoundedMap K U) l k a now :
  rep m l →
  let e := MkEntry a (nextExpiryAt m now) in
  (k, e) ∈ spec_Put m k a now l ∧ fewer (spec_Put m k a now l) ((k, e) :: drop_key k l).
Proof.
  intros Hr e. assert (isExpiredAt (bumpOps m) e now = false) as Hexp.
  { apply (not_expired_entry (bumpOps m) a now now). cbn. lia. }
  assert (∀ l', (k, e) ∈ spec_sweep (bumpOps m) now ((k, e) :: l')) as Hin.
  { intros l'. unfold spec_sweep. destruct (_ || _); [by left|]. apply list_elem_of_filter. split; [done|by left]. }
  unfold spec_Put. change (MkEntry a (nextExpiryAt (bumpOps m) now)) with e.
  destruct (as_map l !! k) eqn:Hk; (split; [apply Hin|]); (etrans; [apply sweep_fewer|]); [done|].
  apply as_map_none in Hk. rewrite (drop_absent l k Hk). apply submseteq_skip.
  destruct (_ <=? _); [apply submseteq_take|done].
Qed.

(** The entries of the map after [Get(k)], and the value returned. *)
Lemma Get_entries (m : BoundedMap K U) l k now :
  rep m l →
  ∃ m' r evs l', Get k now m = (m', r, evs) ∧ rep m' l' ∧ fewer l' l ∧
    ∀ v, r = Some v → ∃ e, as_map l !! k = Some e ∧ value e = v.
Proof.
  intros Hr. pose proof Hr as [_ _ Hnd _ _]. pose proof (Get_moves k now m l Hr) as Hmv.
  destruct (Get k now m) as [[m' r] evs]. destruct Hmv as [[Hr' _ _] ->]. unfold spec_Get in *.
  destruct (as_map l !! k) as [e|] eqn:Hk; [destruct (isExpiredAt (bumpOps m) e now)|]; cbn [fst snd] in *;
    eexists _, _, _, _; (split; [reflexivity|]); (split; [exact Hr'|]).
  - split; [|done]. etrans; [apply sweep_fewer|apply filter_fewer].
  - split; [|intros v [= <-]; by exists e]. etrans; [apply sweep_fewer|by apply touch_fewer].
  - split; [|done]. apply sweep_fewer.
Qed.
End entries.

Section cells.
Context {GR : GoRuntime} {K V : Type} `{Countable K} (clk : nat → Z).
Implicit Types (c : Cells K V) (l : list (K * boundedEntry Z)).

Abbreviation CellsM := (Meth (Cells K V) Problem).

Definition newCells (maxSize ttl : Z) : Cells K V := MkCells (NewBoundedMap maxSize ttl (clk 0)) ∅ 0 1.

Definition cellGet (k : K) : CellsM (option Z) := λ c,
  let '(m, r, _) := Get k (clk (reads c)) (cmap c) in
  (c <| cmap := m |> <| reads ::= S |>, inr r).

Definition cellPut (k : K) (a : Z) : CellsM unit := λ c,
  let '(m, _) := Put k a (clk (reads c)) (cmap c) in
  (c <| cmap := m |> <| reads ::= S |>, inr tt).

Definition cellDelete (k : K) : CellsM unit := λ c,
  let '(m, _) := Delete k (clk (reads c)) (cmap c) in
  (c <| cmap := m |> <| reads ::= S |>, inr tt).

(** [&v]: allocate. *)
Definition alloc (v : V) : CellsM Z := λ c,
  (c <| heap ::= <[nextAddr c := v]> |> <| nextAddr ::= Z.succ |>, inr (nextAddr c)).

(** [*a] *)
Definition load (a : Z) : CellsM V := λ c,
  match heap c !! a with
  | Some v => (c, inr v)
  | None => (c, inl nilPanic)
  end.

(** A method call through the pointer [a]. *)
Definition callAt {A} (a : Z) (m : Meth V Problem A) : CellsM A := λ c,
  match heap c !! a with
  | None => (c, inl nilPanic)
  | Some v => let '(v', r) := m v in (c <| heap ::= <[a := v']> |>, r)
  end.

Definition cellLen (c : Cells K V) : Z := Len (cmap c).

(** ** The store invariant *)

(** The addresses of a list of entries. *)
Definition addrs (l : list (K * boundedEntry Z)) : list Z := (λ x, value x.2) <$> l.

(** The map represents [l]; its addresses are allocated, distinct, and each
    points to an aggregate that [P] accepts for its key. *)
Record stores (P : K → V → Prop) c (l : list (K * boundedEntry Z)) : Prop := {
  stores_rep : rep (cmap c) l;
  stores_nodup : NoDup (addrs l);
  stores_alloc : ∀ a, nextAddr c ≤ a → heap c !! a = None;
  stores_cell : ∀ k e, (k, e) ∈ l → ∃ v, heap c !! value e = Some v ∧ P k v;
}.

Lemma fewer_stores P c c' l l' :
  stores P c l → rep (cmap c') l' → heap c' = heap c → nextAddr c' = nextAddr c → fewer l' l → stores P c' l'.
Proof.
  intros [Hr Hnd Ha Hc] Hr' Hh Hn Hf. split; [done| |by rewrite Hh, Hn|].
  - destruct (submseteq_Permutation _ _ Hf) as [k Hk]. unfold addrs in *. rewrite Hk, fmap_app in Hnd.
    by apply NoDup_app in Hnd as (? & _ & _).
  - intros k e Hin. rewrite Hh. apply Hc. by eapply elem_of_submseteq.
Qed.

Lemma cellGet_stores P c l k :
  stores P c l →
  ∃ c' r l', cellGet k c = (c', inr r) ∧ stores P c' l' ∧ fewer l' l ∧ heap c' = heap c ∧
    reads c' = S (reads c) ∧ config (cmap c') = config (cmap c) ∧
    match r with
    | Some a => ∃ e v, (k, e) ∈ l' ∧ value e = a ∧ heap c' !! a = Some v ∧ P k v
    | None => ∀ e, (k, e) ∉ l'
    end.
Proof.
  intros Hst. pose proof Hst as [Hr Hnd Ha Hc]. pose proof Hr as [_ _ Hk _ _].
  set (now := clk (reads c)). pose proof (Get_moves k now (cmap c) l Hr) as Hmv.
  unfold cellGet. fold now. destruct (Get k now (cmap c)) as [[m r] evs]. destruct Hmv as [[Hr' Hcfg _] ->].
  set (c' := c <| cmap := m |> <| reads ::= S |>).
  unfold spec_Get in Hr' |- *.
  destruct (as_map l !! k) as [e|] eqn:Hl; [destruct (isExpiredAt (bumpOps (cmap c)) e now) eqn:Hexp|];
    cbn [fst snd] in *; match type of Hr' with rep _ ?l' => exists c' end; eexists _, _;
    (split; [reflexivity|]).
  - assert (fewer (spec_sweep (bumpOps (cmap c)) now (drop_key k l)) l) as Hf
      by (etrans; [apply sweep_fewer|apply filter_fewer]).
    split; [by eapply (fewer_stores P c)|]. split_and!; try done.
    intros e' Hin. eapply elem_of_submseteq in Hin; [|apply sweep_fewer]. by eapply NoDup_drop.
  - assert (fewer (spec_sweep (bumpOps (cmap c)) now ((k, e) :: drop_key k l)) l) as Hf
      by (etrans; [apply sweep_fewer|by apply touch_fewer]).
    assert (stores P c' (spec_sweep (bumpOps (cmap c)) now ((k, e) :: drop_key k l))) as Hst'
      by (by eapply (fewer_stores P c)).
    split; [exact Hst'|]. split_and!; try done.
    assert ((k, e) ∈ spec_sweep (bumpOps (cmap c)) now ((k, e) :: drop_key k l)) as Hin.
    { unfold spec_sweep. destruct (_ || _); [by left|]. apply list_elem_of_filter. split; [done|by left]. }
    destruct (stores_cell _ _ _ Hst' k e Hin) as (v & Hv & HP). eauto 10.
  - assert (fewer (spec_sweep (bumpOps (cmap c)) now l) l) as Hf by apply sweep_fewer.
    split; [by eapply (fewer_stores P c)|]. split_and!; try done.
    intros e Hin. eapply elem_of_submseteq in Hin; [|apply sweep_fewer].
    apply as_map_lookup in Hin; [|done]. congruence.
Qed.

Lemma cellPut_stores P c l k a v :
  stores P c l → heap c !! a = Some v → P k v →
  (∀ k' e, (k', e) ∈ l → value e = a → k' = k) →
  ∃ c' l', cellPut k a c = (c', inr tt) ∧ stores P c' l' ∧ heap c' = heap c ∧ reads c' = S (reads c) ∧
    config (cmap c') = config (cmap c) ∧
    (k, MkEntry a (nextExpiryAt (cmap c) (clk (reads c)))) ∈ l' ∧ (∀ k' e, (k', e) ∈ l' → k' ≠ k → (k', e) ∈ l).
Proof.
  intros [Hr Hnd Ha Hc] Hv HP Hown. pose proof Hr as [_ _ Hkeys _ _].
  set (now := clk (reads c)). pose proof (Put_moves k a now (cmap c) l Hr) as Hmv.
  destruct (spec_Put_entries (cmap c) l k a now Hr) as [Hin Hf]. cbn zeta in *.
  set (e := MkEntry a (nextExpiryAt (cmap c) now)) in *.
  unfold cellPut. fold now. destruct (Put k a now (cmap c)) as [m evs]. destruct Hmv as [Hr' Hcfg _].
  eexists _, (spec_Put (cmap c) k a now l). split; [reflexivity|]. split_and!; try done.
  - split; [exact Hr'| |done|].
    + destruct (submseteq_Permutation _ _ Hf) as [rest Hrest].
      assert (NoDup (addrs ((k, e) :: drop_key k l))) as Hnd'.
      { unfold addrs. rewrite fmap_cons. apply NoDup_cons. split.
        - intros ([k' e'] & Ha' & Hd)%list_elem_of_fmap. unfold drop_key in Hd.
          apply list_elem_of_filter in Hd as [Hne Hd]. apply Hne. cbn in *. by apply (Hown k' e').
        - destruct (submseteq_Permutation _ _ (filter_fewer (λ x, x.1 ≠ k) l)) as [r Hr2].
          unfold addrs in Hnd. rewrite Hr2, fmap_app in Hnd. by apply NoDup_app in Hnd as (? & _ & _). }
      unfold addrs in *. rewrite Hrest, fmap_app in Hnd'. by apply NoDup_app in Hnd' as (? & _ & _).
    + intros k' e' Hin'. eapply elem_of_submseteq in Hin'; [|exact Hf].
      apply elem_of_cons in Hin' as [[= -> ->]|Hin']; [by exists v|].
      apply Hc. unfold drop_key in Hin'. by apply list_elem_of_filter in Hin' as [_ ?].
  - intros k' e' Hin' Hne. eapply elem_of_submseteq in Hin'; [|exact Hf].
    apply elem_of_cons in Hin' as [[= -> ->]|Hin']; [done|].
    unfold drop_key in Hin'. by apply list_elem_of_filter in Hin' as [_ ?].
Qed.

Lemma cellDelete_stores P c l k :
  stores P c l →
  ∃ c' l', cellDelete k c = (c', inr tt) ∧ stores P c' l' ∧ fewer l' l ∧ heap c' = heap c ∧
    nextAddr c' = nextAddr c ∧ config (cmap c') = config (cmap c) ∧ ∀ e, (k, e) ∉ l'.
Proof.
  intros Hst. pose proof Hst as [Hr Hnd Ha Hc]. pose proof Hr as [_ _ Hkeys _ _].
  pose proof (Delete_moves k (clk (reads c)) (cmap c) l Hr) as Hmv.
  unfold cellDelete. destruct (Delete k (clk (reads c)) (cmap c)) as [m evs]. destruct Hmv as [Hr' Hcfg _].
  assert (fewer (spec_Delete (cmap c) k (clk (reads c)) l) l) as Hf
    by (etrans; [apply sweep_fewer|apply filter_fewer]).
  eexists _, _. split; [reflexivity|]. split; [by eapply (fewer_stores P c)|]. split_and!; try done.
  intros e Hin. eapply elem_of_submseteq in Hin; [|apply sweep_fewer]. by eapply NoDup_drop.
Qed.

(** A fresh address is owned by no entry. *)
Lemma alloc_stores P c l v :
  stores P c l →
  ∃ c' a, alloc v c = (c', inr a) ∧ stores P c' l ∧ heap c' !! a = Some v ∧ cmap c' = cmap c ∧ reads c' = reads c ∧
    (∀ k e, (k, e) ∈ l → value e ≠ a) ∧
    (∀ b w, heap c !! b = Some w → heap c' !! b = Some w ∧ b ≠ a).
Proof.
  intros [Hr Hnd Ha Hc]. eexists _, _. split; [reflexivity|].
  assert (∀ k e, (k, e) ∈ l → value e ≠ nextAddr c) as Hfresh.
  { intros k e Hin Heq. destruct (Hc k e Hin) as (w & Hw & _). rewrite Ha in Hw; [done|lia]. }
  assert (∀ b w, heap c !! b = Some w → b ≠ nextAddr c) as Hne.
  { intros b w Hb ->. rewrite Ha in Hb; [done|lia]. }
  split_and!; [|apply lookup_insert_eq|done|done|done|].
  - split; [done|done| |].
    + intros a. cbn. intros Hle. rewrite lookup_insert_ne by lia. apply Ha. lia.
    + intros k e Hin. destruct (Hc k e Hin) as (w & Hw & HP). exists w. split; [|done].
      cbn. rewrite lookup_insert_ne; [done|]. symmetry. by apply (Hfresh k).
  - intros b w Hb. split; [|by eapply Hne]. cbn. rewrite lookup_insert_ne; [done|]. symmetry. by eapply Hne.
Qed.

(** A call keeps the store when it keeps the cell acceptable to its owner. *)
Lemma callAt_stores {A} P c l a (m : Meth V Problem A) v v' r :
  stores P c l → heap c !! a = Some v → m v = (v', r) →
  (∀ k e, (k, e) ∈ l → value e = a → P k v') →
  ∃ c', callAt a m c = (c', r) ∧ stores P c' l ∧ heap c' = <[a := v']> (heap c) ∧ nextAddr c' = nextAddr c ∧
    cmap c' = cmap c.
Proof.
  intros [Hr Hnd Ha Hc] Hv Hm HP. unfold callAt. rewrite Hv, Hm. eexists. split; [reflexivity|].
  split_and!; try done. split; [done|done| |].
  - intros b Hb. cbn. rewrite lookup_insert_ne; [by apply Ha|]. intros ->. rewrite Ha in Hv; done.
  - intros k e Hin. cbn. destruct (decide (value e = a)) as [Heq|Hne].
    + exists v'. rewrite Heq, lookup_insert_eq. eauto.
    + rewrite lookup_insert_ne by done. by apply Hc.
Qed.

(** Distinct keys never share an aggregate. *)
Lemma stores_inj P c l k1 e1 k2 e2 :
  stores P c l → (k1, e1) ∈ l → (k2, e2) ∈ l → value e1 = value e2 → k1 = k2.
Proof.
  intros [_ Hnd _ _] H1 H2 Heq. unfold addrs in Hnd.
  apply list_elem_of_lookup in H1 as [i Hi], H2 as [j Hj].
  assert (i = j) as ->; [|congruence].
  eapply NoDup_lookup; [exact Hnd| |]; rewrite list_lookup_fmap; [by rewrite Hi|]. rewrite Hj. cbn. by rewrite Heq.
Qed.

Lemma newCells_stores P maxSize ttl : stores P (newCells maxSize ttl) [].
Proof.
  split; [apply rep_new|apply NoDup_nil_2|done|]. by intros ? ? ?%elem_of_nil.
Qed.

(** ** The operations as triples *)

Definition inStore (P : K → V → Prop) c : Prop := ∃ l, stores P c l.

(** The caller holds the address [a] of an aggregate for [k], and no other key's
    entry points to it. *)
Definition owns (P : K → V → Prop) (k : K) (a : Z) c : Prop :=
  ∃ l v, stores P c l ∧ heap c !! a = Some v ∧ P k v ∧ ∀ k' e, (k', e) ∈ l → value e = a → k' = k.

Lemma owns_inStore P k a c : owns P k a c → inStore P c.
Proof. intros (l & v & ? & _). by exists l. Qed.

Lemma cellGet_triple P k :
  triple (inStore P) (cellGet k)
    (λ r c, match r with Some a => owns P k a c | None => inStore P c end) (λ _, False).
Proof.
  intros c [l Hl]. destruct (cellGet_stores P c l k Hl) as (c' & r & l' & -> & Hl' & _ & _ & _ & _ & Hr).
  destruct r as [a|]; [|by exists l']. destruct Hr as (e & v & Hin & Ha & Hv & HP). exists l', v.
  split_and!; [done..|]. intros k' e' Hin' Ha'. eapply (stores_inj P c' l'); [done..|congruence].
Qed.

Lemma load_triple P k a :
  triple (owns P k a) (load a) (λ v c, owns P k a c ∧ heap c !! a = Some v ∧ P k v) (λ _, False).
Proof. intros c (l & v & Hl & Hv & HP & Ho). unfold load. rewrite Hv. split_and!; [|done|done]. by exists l, v. Qed.

Lemma callAt_triple {A} P k a (m : Meth V Problem A) :
  (∀ v, P k v → P k (m v).1) → triple (owns P k a) (callAt a m) (λ _, owns P k a) (owns P k a).
Proof.
  intros Hm c (l & v & Hl & Hv & HP & Ho). destruct (m v) as [v' r] eqn:Hrun.
  assert (P k v') as HP' by (specialize (Hm v HP); by rewrite Hrun in Hm).
  destruct (callAt_stores P c l a m v v' r Hl Hv Hrun) as (c' & -> & Hl' & Hh & _ & _).
  { intros k' e Hin Ha. by rewrite (Ho k' e Hin Ha). }
  assert (owns P k a c') as Hown.
  { exists l, v'. split_and!; [done| |done|done]. by rewrite Hh, lookup_insert_eq. }
  by destruct r.
Qed.

Lemma cellPut_triple P k a : triple (owns P k a) (cellPut k a) (λ _, owns P k a) (λ _, False).
Proof.
  intros c (l & v & Hl & Hv & HP & Ho).
  destruct (cellPut_stores P c l k a v Hl Hv HP Ho) as (c' & l' & -> & Hl' & Hh & _ & _ & _ & Hold).
  exists l', v. split_and!; [done|by rewrite Hh|done|].
  intros k' e Hin Ha. destruct (decide (k' = k)) as [|Hne]; [done|]. by apply (Ho k' e); [apply Hold|].
Qed.

Lemma cellDelete_triple P k : triple (inStore P) (cellDelete k) (λ _, inStore P) (λ _, False).
Proof. intros c [l Hl]. destruct (cellDelete_stores P c l k Hl) as (c' & l' & -> & Hl' & _). by exists l'. Qed.

Lemma alloc_triple P k v : P k v → triple (inStore P) (alloc v) (λ a, owns P k a) (λ _, False).
Proof.
  intros HP c [l Hl]. destruct (alloc_stores P c l v Hl) as (c' & a & -> & Hl' & Ha & _ & _ & Hno & _).
  exists l, v. split_and!; [done..|]. intros k' e Hin He. by destruct (Hno k' e Hin).
Qed.

(** The map has an entry for [k], and it points to [a]. *)
Definition linked (P : K → V → Prop) (k : K) (a : Z) c : Prop :=
  ∃ l e v, stores P c l ∧ (k, e) ∈ l ∧ value e = a ∧ heap c !! a = Some v ∧ P k v.

Lemma linked_owns P k a c : linked P k a c → owns P k a c.
Proof.
  intros (l & e & v & Hl & Hin & Ha & Hv & HP). exists l, v. split_and!; [done..|].
  intros k' e' Hin' Ha'. eapply (stores_inj P c l); [done..|congruence].
Qed.

Lemma cellGet_linked P k :
  triple (inStore P) (cellGet k) (λ r c, match r with Some a => linked P k a c | None => inStore P c end) (λ _, False).
Proof.
  intros c [l Hl]. destruct (cellGet_stores P c l k Hl) as (c' & r & l' & -> & Hl' & _ & _ & _ & _ & Hr).
  destruct r as [a|]; [|by exists l']. destruct Hr as (e & v & Hin & Ha & Hv & HP). by exists l', e, v.
Qed.

Lemma cellPut_linked P k a : triple (owns P k a) (cellPut k a) (λ _, linked P k a) (λ _, False).
Proof.
  intros c (l & v & Hl & Hv & HP & Ho).
  destruct (cellPut_stores P c l k a v Hl Hv HP Ho) as (c' & l' & -> & Hl' & Hh & _ & _ & Hin & _).
  exists l', (MkEntry a (nextExpiryAt (cmap c) (clk (reads c)))), v. split_and!; [done..|by rewrite Hh|done].
Qed.

(** A clock reading by someone else. *)
Lemma tick_linked P k a c : linked P k a c → linked P k a (c <| reads ::= S |>).
Proof. intros (l & e & v & [] & ? & ? & ? & ?). exists l, e, v. split_and!; try done. Qed.
Lemma tick_store P c : inStore P c → inStore P (c <| reads ::= S |>).
Proof. intros [l []]. exists l. by split. Qed.
Lemma tick_owns P k a c : owns P k a c → owns P k a (c <| reads ::= S |>).
Proof. intros (l & v & [] & ? & ? & ?). exists l, v. split_and!; try done. Qed.

(** Looking up an entry that is present and not expired. *)
Lemma cellGet_present c l k e :
  rep (cmap c) l → as_map l !! k = Some e → isExpiredAt (cmap c) e (clk (reads c)) = false →
  ∃ c' l', cellGet k c = (c', inr (Some (value e))) ∧ rep (cmap c') l' ∧ as_map l' !! k = Some e ∧
    heap c' = heap c ∧ nextAddr c' = nextAddr c ∧ reads c' = S (reads c) ∧ config (cmap c') = config (cmap c).
Proof.
  intros Hr Hk Hexp. pose proof (Get_moves k (clk (reads c)) (cmap c) l Hr) as Hmv.
  unfold cellGet. destruct (Get k (clk (reads c)) (cmap c)) as [[m r] evs]. destruct Hmv as [[Hr' Hcfg _] ->].
  unfold spec_Get in Hr' |- *. rewrite Hk in Hr' |- *.
  assert (isExpiredAt (bumpOps (cmap c)) e (clk (reads c)) = false) as Hexp' by done. rewrite Hexp' in Hr' |- *.
  cbn [fst snd] in Hr' |- *. eexists _, _. split; [reflexivity|]. split; [exact Hr'|]. split_and!; try done.
  apply as_map_lookup; [by destruct Hr'|]. unfold spec_sweep. destruct (_ || _); [by left|].
  apply list_elem_of_filter. split; [done|by left].
Qed.
End cells.
