(* ===== verification/Watermark.v ===== *)
(** * Watermark: internal/core/aggregation/domain/watermark_window.go, window_manager.go

    The event-time window manager the candle, stats and tape use cases consult
    before every update: it tracks one open window per (venue, instrument,
    timeframe), decides whether an event is late, whether it closes the current
    window, and which window is closed by force when the bound is reached.
    A run-time panic (indexing an empty [order]) is the error [indexPanic]; the
    theorems show it never happens. *)

From S2P Require Import Prelude GoRuntime Shared.

Local Open Scope string_scope.
Local Open Scope list_scope.
Local Open Scope Z_scope.

(** ** window_manager.go *)

Record WindowKey := MkWindowKey { wk_Venue : string; wk_Instrument : string; wk_Timeframe : string }.

#[export] Instance WindowKey_eq_dec : EqDecision WindowKey.
Proof. solve_decision. Defined.
#[export] Instance WindowKey_countable : Countable WindowKey :=
  inj_countable' (λ k, (wk_Venue k, wk_Instrument k, wk_Timeframe k))
    (λ t, MkWindowKey t.1.1 t.1.2 t.2) (λ k, match k with MkWindowKey _ _ _ => eq_refl end).

Record ForcedWindowClose := MkForced { forced_Key : WindowKey; forced_WindowStart : Z }.

Record WindowDecision := MkDecision {
  WindowStart : Z;
  ShouldCloseCurrent : bool;
  PreviousWindowStart : Z;
  IsLate : bool;
  ForcedClose : option ForcedWindowClose;
}.
#[export] Instance WindowDecision_eta : Eta WindowDecision := λ r,
  MkDecision (WindowStart r) (ShouldCloseCurrent r) (PreviousWindowStart r) (IsLate r) (ForcedClose r).

(** ** watermark_window.go *)

Record WatermarkWindowConfig := MkWatermarkConfig { MaxOpenWindows : Z; LateToleranceMs : Z }.

Record watermarkState := MkWatermarkState { windowStart : Z }.
#[export] Instance watermarkState_eq_dec : EqDecision watermarkState.
Proof. solve_decision. Defined.

Record WatermarkWindowManager := MkManager {
  maxOpenWindows : Z;
  lateToleranceMs : Z;
  states : gmap WindowKey watermarkState;
  order : list WindowKey;
}.
#[export] Instance WatermarkWindowManager_eta : Eta WatermarkWindowManager := λ r,
  MkManager (maxOpenWindows r) (lateToleranceMs r) (states r) (order r).

Abbreviation ManagerM := (Meth WatermarkWindowManager Problem).

Definition indexPanic : Problem := New Internal "runtime error: index out of range [0] with length 0".

Definition NewWatermarkWindowManager (cfg : WatermarkWindowConfig) : Problem + WatermarkWindowManager :=
  if MaxOpenWindows cfg <=? 0 then inl (New ValidationFailed "max_open_windows must be > 0")
  else if LateToleranceMs cfg <? 0 then inl (New ValidationFailed "late_tolerance_ms must be >= 0")
  else inr (MkManager (MaxOpenWindows cfg) (LateToleranceMs cfg) ∅ []).

Definition ActiveWindows (m : WatermarkWindowManager) : Z := Z.of_nat (size (states m)).

(** [m.states[key]], the zero state when absent. *)
Definition stateOf (m : WatermarkWindowManager) (key : WindowKey) : watermarkState :=
  default (MkWatermarkState 0) (states m !! key).

Definition compareWindowKey (a b : WindowKey) : comparison :=
  if negb (str_eqb (wk_Venue a) (wk_Venue b)) then str_compare (wk_Venue a) (wk_Venue b)
  else if negb (str_eqb (wk_Instrument a) (wk_Instrument b)) then
    str_compare (wk_Instrument a) (wk_Instrument b)
  else str_compare (wk_Timeframe a) (wk_Timeframe b).

(** One iteration of the loop of [oldestWindow]. *)
Definition older (m : WatermarkWindowManager) (oldest : WindowKey * watermarkState) (key : WindowKey)
    : WindowKey * watermarkState :=
  let '(oldestKey, oldestState) := oldest in
  let state := stateOf m key in
  if windowStart state <? windowStart oldestState then (key, state)
  else if (windowStart state =? windowStart oldestState) &&
          (match compareWindowKey key oldestKey with Lt => true | _ => false end)
  then (key, state)
  else oldest.

Definition oldestWindow : ManagerM (WindowKey * watermarkState) :=
  m ← recv;
  match order m with
  | [] => throw indexPanic
  | oldestKey :: rest => mret (foldl (older m) (oldestKey, stateOf m oldestKey) rest)
  end.

Fixpoint removeFromOrder (target : WindowKey) (order : list WindowKey) : list WindowKey :=
  match order with
  | [] => []
  | key :: rest => if decide (key = target) then rest else key :: removeFromOrder target rest
  end.

Definition bucketWindowStart (tsMs windowMs : Z) : Z := mul64 (quot64 tsMs windowMs) windowMs.

Definition observeExisting (key : WindowKey) (state : watermarkState) (ws : Z) : ManagerM WindowDecision :=
  m ← recv;
  if ws <? windowStart state then
    let lag := sub64 (windowStart state) ws in
    if lateToleranceMs m <? lag then mret (MkDecision ws false 0 true None)
    else mret (MkDecision ws false 0 true None)
  else if ws =? windowStart state then mret (MkDecision ws false 0 false None)
  else
    assign (λ m, m <| states ::= <[key := MkWatermarkState ws]> |>) ;;
    mret (MkDecision ws true (windowStart state) false None).

Definition observeNew (key : WindowKey) (ws : Z) : ManagerM WindowDecision :=
  m ← recv;
  forced ← (if maxOpenWindows m <=? Z.of_nat (size (states m)) then
      oldest ← oldestWindow;
      let '(forcedKey, forcedState) := oldest in
      assign (λ m, m <| states ::= delete forcedKey |>) ;;
      assign (λ m, m <| order ::= removeFromOrder forcedKey |>) ;;
      mret (Some (MkForced forcedKey (windowStart forcedState)))
    else mret None);
  assign (λ m, m <| states ::= <[key := MkWatermarkState ws]> |>) ;;
  assign (λ m, m <| order ::= λ o, o ++ [key] |>) ;;
  mret (MkDecision ws false 0 false forced).

Section watermark.
Context {GR : GoRuntime}.

Definition normalizeKey (key : WindowKey) : WindowKey :=
  MkWindowKey (ToLower (TrimSpace (wk_Venue key))) (ToUpper (TrimSpace (wk_Instrument key)))
    (ToLower (TrimSpace (wk_Timeframe key))).

Definition Observe (key : WindowKey) (eventTsMs windowDurationMs : Z) : ManagerM WindowDecision :=
  check (Collect [NonEmptyString "venue" (wk_Venue key); NonEmptyString "instrument" (wk_Instrument key);
                  NonEmptyString "timeframe" (wk_Timeframe key);
                  PositiveInt "window_duration_ms" windowDurationMs]) ;;
  fail_if (eventTsMs <? 0) (Newf ValidationFailed "event_ts_ms must be >= 0, got %d" [AnyInt eventTsMs]) ;;
  let normalizedKey := normalizeKey key in
  let ws := bucketWindowStart eventTsMs windowDurationMs in
  m ← recv;
  match states m !! normalizedKey with
  | Some state => observeExisting normalizedKey state ws
  | None => observeNew normalizedKey ws
  end.
End watermark.

(** ** Invariant *)

(** [order] lists the keys of [states] once each, and the bound holds. *)
Record wf (m : WatermarkWindowManager) : Prop := {
  wf_nodup : NoDup (order m);
  wf_dom : ∀ k, k ∈ order m ↔ is_Some (states m !! k);
  wf_bound : Z.of_nat (size (states m)) ≤ maxOpenWindows m;
  wf_pos : 0 < maxOpenWindows m;
}.

Lemma removeFromOrder_elem k o x : NoDup o → x ∈ removeFromOrder k o ↔ x ∈ o ∧ x ≠ k.
Proof.
  induction o as [|y o IH]; cbn; [set_solver|]. rewrite NoDup_cons. intros [Hy Ho].
  case_decide; [subst; set_solver|]. rewrite !elem_of_cons, IH by done. naive_solver.
Qed.
Lemma removeFromOrder_nodup k o : NoDup o → NoDup (removeFromOrder k o).
Proof.
  induction o as [|y o IH]; cbn; [done|]. rewrite NoDup_cons. intros [Hy Ho].
  case_decide; [done|]. apply NoDup_cons. split; [|auto]. by rewrite removeFromOrder_elem; [naive_solver|].
Qed.

(** ** The order of [oldestWindow] *)

(** [(a, s)] comes before [(b, t)]: earlier start, ties by key. *)
Definition before (x y : WindowKey * watermarkState) : Prop :=
  windowStart x.2 < windowStart y.2 ∨
  (windowStart x.2 = windowStart y.2 ∧ compareWindowKey x.1 y.1 = Lt).

Lemma compareWindowKey_Lt a b :
  compareWindowKey a b = Lt ↔
  str_compare (wk_Venue a) (wk_Venue b) = Lt ∨
  (wk_Venue a = wk_Venue b ∧ (str_compare (wk_Instrument a) (wk_Instrument b) = Lt ∨
   (wk_Instrument a = wk_Instrument b ∧ str_compare (wk_Timeframe a) (wk_Timeframe b) = Lt))).
Proof.
  unfold compareWindowKey, str_eqb.
  destruct (String.eqb_spec (wk_Venue a) (wk_Venue b)) as [Hv|Hv]; cbn; [|tauto].
  rewrite Hv. pose proof (str_lt_irrefl (wk_Venue b)).
  destruct (String.eqb_spec (wk_Instrument a) (wk_Instrument b)) as [Hi|Hi]; cbn; [|tauto].
  rewrite Hi. pose proof (str_lt_irrefl (wk_Instrument b)). tauto.
Qed.
Lemma compareWindowKey_trans a b c :
  compareWindowKey a b = Lt → compareWindowKey b c = Lt → compareWindowKey a c = Lt.
Proof.
  destruct a as [va ia ta], b as [vb ib tb], c as [vc ic tc]. rewrite !compareWindowKey_Lt. cbn.
  intros [H1|(-> & [H1|(-> & H1)])] [H2|(-> & [H2|(-> & H2)])]; eauto 6 using str_lt_trans.
Qed.
Lemma compareWindowKey_total a b : compareWindowKey a b = Lt ∨ a = b ∨ compareWindowKey b a = Lt.
Proof.
  destruct a as [va ia ta], b as [vb ib tb]. rewrite !compareWindowKey_Lt. cbn.
  destruct (str_lt_total va vb) as [?|[->|?]]; [tauto| |tauto].
  destruct (str_lt_total ia ib) as [?|[->|?]]; [tauto| |tauto].
  destruct (str_lt_total ta tb) as [?|[->|?]]; tauto.
Qed.

Lemma before_trans x y z : before x y → before y z → before x z.
Proof.
  unfold before. intros [H1|[E1 H1]] [H2|[E2 H2]]; try (left; lia).
  right. split; [lia|]. by eapply compareWindowKey_trans.
Qed.
Lemma before_total x y : x.1 ≠ y.1 → before x y ∨ before y x.
Proof.
  intros Hne. unfold before. destruct (Z.lt_trichotomy (windowStart x.2) (windowStart y.2)) as [?|[?|?]];
    [tauto| |tauto]. destruct (compareWindowKey_total x.1 y.1) as [?|[?|?]]; naive_solver.
Qed.

(** The fold keeps the least element seen. *)
Lemma older_fold m : ∀ rest best,
  NoDup (best.1 :: rest) → best.2 = stateOf m best.1 →
  let r := foldl (older m) best rest in
  r.2 = stateOf m r.1 ∧ r.1 ∈ best.1 :: rest ∧
  ∀ k, k ∈ best.1 :: rest → k = r.1 ∨ before r (k, stateOf m k).
Proof.
  induction rest as [|k rest IH]; intros [bk bs] Hnd Hb; cbn [fst snd] in *.
  { cbn. split_and!; [done|by left|]. intros k ->%list_elem_of_singleton. by left. }
  rewrite !NoDup_cons in Hnd. destruct Hnd as (Hbk & Hk & Hnd).
  cbn [foldl]. set (best' := older m (bk, bs) k).
  assert (best'.2 = stateOf m best'.1 ∧
    ((best'.1 = k ∧ before best' (bk, bs)) ∨ (best'.1 = bk ∧ before best' (k, stateOf m k)))) as [Hst Hor].
  { unfold best', older. rewrite not_elem_of_cons in Hbk.
    destruct (Z.ltb_spec (windowStart (stateOf m k)) (windowStart bs)).
    { split; [done|]. left. split; [done|]. by left. }
    destruct (Z.eqb_spec (windowStart (stateOf m k)) (windowStart bs)) as [Heq|Hne]; cbn [andb].
    - destruct (compareWindowKey k bk) eqn:Hc.
      2: { split; [done|]. left. split; [done|]. by right. }
      all: split; [done|]; right; split; [done|]; right; split; [done|]; cbn.
      all: destruct (compareWindowKey_total k bk) as [?|[?|?]]; [congruence|by destruct Hbk as [[] _]|done].
    - split; [done|]. right. split; [done|]. left. cbn. lia. }
  destruct (IH best') as (Hr & Hin & Hmin); [|done|].
  { apply NoDup_cons. split; [|done]. destruct Hor as [[-> _]|[-> _]]; set_solver. }
  set (r := foldl (older m) best' rest) in *. cbn zeta in *. split_and!; [done| |].
  { destruct Hor as [[E _]|[E _]]; rewrite E in Hin; set_solver. }
  assert (∀ k', k' = best'.1 ∨ before best' (k', stateOf m k') → k' = r.1 ∨ before r (k', stateOf m k')) as Hgo.
  { intros k' [->|Hlt].
    - apply Hmin. by left.
    - destruct (Hmin best'.1) as [E|Hb'].
      + by left.
      + assert (r = best') as -> by (destruct r, best'; cbn in *; congruence). by right.
      + right. eapply before_trans; [exact Hb'|]. rewrite <- Hst. by destruct best'. }
  intros k' [->|[->|Hk']%elem_of_cons]%elem_of_cons.
  - apply Hgo. destruct Hor as [[E Hlt]|[E _]]; [right; by rewrite <- Hb|by left].
  - apply Hgo. destruct Hor as [[E _]|[E Hlt]]; [by left|by right].
  - apply Hmin. by right.
Qed.

(** In a well-formed manager the oldest window exists, is open, and precedes
    every other open window. *)
Lemma oldestWindow_spec m :
  wf m → order m ≠ [] →
  ∃ k s, oldestWindow m = (m, inr (k, s)) ∧ states m !! k = Some s ∧
  ∀ k' s', states m !! k' = Some s' → k' = k ∨ before (k, s) (k', s').
Proof.
  intros [Hnd Hdom _ _] Hne. unfold oldestWindow. rewrite (bind_run _ _ _ m m) by done.
  destruct (order m) as [|k0 rest] eqn:Ho; [done|].
  destruct (older_fold m rest (k0, stateOf m k0)) as (Hs & Hin & Hmin); [done|done|].
  destruct (foldl (older m) (k0, stateOf m k0) rest) as [k s]. cbn [fst snd] in *.
  assert (∀ k', k' ∈ k0 :: rest → states m !! k' = Some (stateOf m k')) as Hlook.
  { intros k' [s' Hs']%Hdom. unfold stateOf. by rewrite Hs'. }
  exists k, s. split_and!; [done|rewrite Hs; by apply Hlook|].
  intros k' s' Hs'. assert (k' ∈ k0 :: rest) as Hk' by (apply Hdom; eauto).
  specialize (Hlook _ Hk'). destruct (Hmin _ Hk') as [?|?]; [by left|right]. congruence.
Qed.

(** ** What one decision does to the open windows *)

Abbreviation window := (WindowKey * Z)%type.

Definition openWindows (m : WatermarkWindowManager) : list window :=
  map_to_list (windowStart <$> states m).

(** The window an accepted event opens, when it is not the open one. *)
Definition opens (m : WatermarkWindowManager) (k : WindowKey) (d : WindowDecision) : list window :=
  if IsLate d || bool_decide (states m !! k = Some (MkWatermarkState (WindowStart d))) then []
  else [(k, WindowStart d)].

(** The windows the caller is told to close. *)
Definition closes (k : WindowKey) (d : WindowDecision) : list window :=
  (if ShouldCloseCurrent d then [(k, PreviousWindowStart d)] else []) ++
  match ForcedClose d with Some f => [(forced_Key f, forced_WindowStart f)] | None => [] end.

Definition balanced (m m' : WatermarkWindowManager) (k : WindowKey) (d : WindowDecision) : Prop :=
  opens m k d ++ openWindows m ≡ₚ openWindows m' ++ closes k d.

Lemma openWindows_insert m k ws :
  states m !! k = None →
  openWindows (m <| states ::= <[k := MkWatermarkState ws]> |>) ≡ₚ (k, ws) :: openWindows m.
Proof.
  intros Hk. unfold openWindows. cbn. rewrite fmap_insert, map_to_list_insert; [done|].
  by rewrite lookup_fmap, Hk.
Qed.
Lemma openWindows_delete m k s :
  states m !! k = Some s →
  openWindows m ≡ₚ (k, windowStart s) :: openWindows (m <| states ::= delete k |>).
Proof.
  intros Hk. unfold openWindows. cbn. rewrite fmap_delete, map_to_list_delete; [done|].
  by rewrite lookup_fmap, Hk.
Qed.

Lemma openWindows_replace m k ws :
  openWindows (m <| states ::= <[k := MkWatermarkState ws]> |>) ≡ₚ
  (k, ws) :: openWindows (m <| states ::= delete k |>).
Proof.
  unfold openWindows. cbn. rewrite <- insert_delete_eq, fmap_insert, map_to_list_insert; [done|].
  by rewrite lookup_fmap, lookup_delete_eq.
Qed.

Lemma observeExisting_spec m k s ws :
  wf m → states m !! k = Some s →
  ∃ m' d, observeExisting k s ws m = (m', inr d) ∧ wf m' ∧ balanced m m' k d ∧ WindowStart d = ws ∧
    ForcedClose d = None ∧ maxOpenWindows m' = maxOpenWindows m ∧
    IsLate d = (ws <? windowStart s) ∧ ShouldCloseCurrent d = (windowStart s <? ws) ∧
    (ShouldCloseCurrent d = true → PreviousWindowStart d = windowStart s) ∧
    states m' = <[k := MkWatermarkState (Z.max ws (windowStart s))]> (states m).
Proof.
  intros Hwf Hk. unfold observeExisting. rewrite (bind_run _ _ _ m m) by done.
  destruct (Z.ltb_spec ws (windowStart s)) as [Hlt|Hge].
  - exists m, (MkDecision ws false 0 true None).
    split; [by destruct (lateToleranceMs m <? _)|]. unfold balanced, opens, closes. cbn.
    rewrite Z.max_r, (proj2 (Z.ltb_ge _ _)) by lia. split_and!; try done; [by rewrite app_nil_r|].
    symmetry. apply insert_id. by destruct s.
  - destruct (Z.eqb_spec ws (windowStart s)) as [->|Hne].
    + exists m, (MkDecision (windowStart s) false 0 false None). split; [done|].
      unfold balanced, opens, closes. cbn. rewrite Z.max_id, Z.ltb_irrefl.
      rewrite bool_decide_eq_true_2 by (by destruct s). split_and!; try done; [by rewrite app_nil_r|].
      symmetry. apply insert_id. by destruct s.
    + eexists _, _. split; [done|].
      rewrite Z.max_l by lia. cbn. rewrite (proj2 (Z.ltb_lt _ _)) by lia. split_and!; try done.
      * destruct Hwf as [Hnd Hdom Hb Hp]. split; cbn; [done| | |done].
        -- intros k'. rewrite Hdom. destruct (decide (k' = k)) as [->|]; [|by rewrite lookup_insert_ne].
           rewrite lookup_insert_eq, Hk. by split; eauto.
        -- rewrite map_size_insert_Some by eauto. done.
      * unfold balanced, opens, closes. cbn.
        rewrite bool_decide_eq_false_2 by (rewrite Hk; destruct s; cbn in *; congruence). cbn.
        rewrite (openWindows_delete m k s Hk), openWindows_replace. solve_Permutation.
Qed.

Lemma wf_insert_new m k ws :
  wf m → states m !! k = None → Z.of_nat (size (states m)) < maxOpenWindows m →
  wf (m <| states ::= <[k := MkWatermarkState ws]> |> <| order ::= λ o, o ++ [k] |>).
Proof.
  intros [Hnd Hdom Hb Hp] Hk Hlt. split; cbn; [| | |done].
  - apply NoDup_app. split_and!; [done| |apply NoDup_singleton].
    intros x Hx ->%list_elem_of_singleton. apply Hdom in Hx as [? ?]. congruence.
  - intros k'. rewrite elem_of_app, list_elem_of_singleton, Hdom.
    destruct (decide (k' = k)) as [->|]; [rewrite lookup_insert_eq; naive_solver|].
    rewrite lookup_insert_ne by done. naive_solver.
  - rewrite map_size_insert_None by done. lia.
Qed.

Lemma wf_delete m k s :
  wf m → states m !! k = Some s →
  wf (m <| states ::= delete k |> <| order ::= removeFromOrder k |>).
Proof.
  intros [Hnd Hdom Hb Hp] Hk. split; cbn; [by apply removeFromOrder_nodup| | |done].
  - intros k'. rewrite removeFromOrder_elem, Hdom by done.
    destruct (decide (k' = k)) as [->|]; [rewrite lookup_delete_eq|rewrite lookup_delete_ne by done].
    + split; [tauto|]. by intros [].
    + tauto.
  - rewrite map_size_delete_Some by eauto. lia.
Qed.

Lemma observeNew_spec m k ws :
  wf m → states m !! k = None →
  ∃ m' d, observeNew k ws m = (m', inr d) ∧ wf m' ∧ balanced m m' k d ∧ WindowStart d = ws ∧
    ShouldCloseCurrent d = false ∧ IsLate d = false ∧ maxOpenWindows m' = maxOpenWindows m ∧
    match ForcedClose d with
    | None => ActiveWindows m < maxOpenWindows m ∧
        states m' = <[k := MkWatermarkState ws]> (states m)
    | Some (MkForced fk fs) => ActiveWindows m = maxOpenWindows m ∧
        states m !! fk = Some (MkWatermarkState fs) ∧
        (∀ k' s', states m !! k' = Some s' → k' = fk ∨ before (fk, MkWatermarkState fs) (k', s')) ∧
        states m' = <[k := MkWatermarkState ws]> (delete fk (states m))
    end.
Proof.
  intros Hwf Hk. unfold observeNew. rewrite (bind_run _ _ _ m m) by done.
  pose proof Hwf as [Hnd Hdom Hb Hp]. unfold ActiveWindows.
  destruct (Z.leb_spec (maxOpenWindows m) (Z.of_nat (size (states m)))) as [Hfull|Hfree].
  - assert (order m ≠ []) as Hne.
    { intros Ho. assert (states m = ∅) as He; [|rewrite He, map_size_empty in Hfull; lia].
      apply map_eq. intros k'. rewrite lookup_empty. apply eq_None_not_Some. rewrite <- Hdom, Ho. set_solver. }
    destruct (oldestWindow_spec m Hwf Hne) as (fk & [fs] & Hold & Hfk & Hmin).
    unfold mbind, Meth_bind. rewrite Hold. cbn -[removeFromOrder].
    eexists _, _. split; [done|]. cbn -[removeFromOrder].
    assert (delete fk (states m) !! k = None) as Hk' by (rewrite lookup_delete_None; tauto).
    split_and!; try done; [| |lia].
    + pose proof (wf_insert_new _ k ws (wf_delete m fk _ Hwf Hfk) Hk') as Hw. apply Hw.
      cbn. rewrite map_size_delete_Some by eauto. lia.
    + unfold balanced, opens, closes. cbn. rewrite bool_decide_eq_false_2 by (rewrite Hk; done). cbn.
      rewrite (openWindows_delete m fk _ Hfk).
      pose proof (openWindows_insert (m <| states ::= delete fk |>) k ws Hk') as Hins.
      unfold openWindows in *. cbn in *. rewrite Hins. solve_Permutation.
  - eexists _, _. split; [done|]. cbn. split_and!; try done.
    + by apply wf_insert_new.
    + unfold balanced, opens, closes. cbn. rewrite bool_decide_eq_false_2 by (rewrite Hk; done).
      rewrite app_nil_r. symmetry. apply (openWindows_insert m k ws Hk).
Qed.

(** ** Theorems *)

Section theorems.
Context {GR : GoRuntime}.

(** A call: the key, the event time and the window duration. *)
Abbreviation call := (WindowKey * Z * Z)%type.

(** A sequence of calls; the windows opened and closed are accumulated. *)
Fixpoint observeAll (calls : list call) (m : WatermarkWindowManager)
    : WatermarkWindowManager * list window * list window :=
  match calls with
  | [] => (m, [], [])
  | (key, ts, dur) :: rest =>
      match Observe key ts dur m with
      | (m1, inl _) => observeAll rest m1
      | (m1, inr d) =>
          let k := normalizeKey key in
          let '(m2, opened, closed) := observeAll rest m1 in
          (m2, opens m k d ++ opened, closes k d ++ closed)
      end
  end.

Definition callOk (c : call) : Prop :=
  let '(key, ts, dur) := c in
  TrimSpace (wk_Venue key) ≠ "" ∧ TrimSpace (wk_Instrument key) ≠ "" ∧
  TrimSpace (wk_Timeframe key) ≠ "" ∧ 0 < dur ∧ 0 ≤ ts.

Lemma Observe_valid key ts dur m :
  callOk (key, ts, dur) →
  Observe key ts dur m =
    match states m !! normalizeKey key with
    | Some state => observeExisting (normalizeKey key) state (bucketWindowStart ts dur) m
    | None => observeNew (normalizeKey key) (bucketWindowStart ts dur) m
    end.
Proof.
  intros (Hv & Hi & Ht & Hd & Hts). unfold Observe.
  rewrite (bind_run _ _ _ m tt).
  2: { unfold check. rewrite (proj2 (Collect_none _)); [done|]. rewrite !Forall_cons, Forall_nil.
       by rewrite !NonEmptyString_none, PositiveInt_none. }
  rewrite (bind_run _ _ _ m tt).
  2: { unfold fail_if. by rewrite (proj2 (Z.ltb_ge _ _)). }
  rewrite (bind_run _ _ _ m m) by done. by destruct (states m !! normalizeKey key).
Qed.

(** An invalid call is refused and changes nothing. *)
Lemma Observe_invalid key ts dur :
  ¬ callOk (key, ts, dur) →
  ∃ p, (∀ m, Observe key ts dur m = (m, inl p)) ∧ Code p = ValidationFailed.
Proof.
  intros Hbad. unfold Observe. set (vs := Collect _).
  assert (validates vs) as Hvs by (apply Collect_validates; auto with golib).
  destruct vs as [p|] eqn:Hvs'.
  { exists p. split; [done|by apply Hvs]. }
  destruct (Z.ltb_spec ts 0) as [Hneg|Hnn]; [by eexists|].
  exfalso. apply Hbad. subst vs. collect_facts. by unfold callOk.
Qed.

#[local] Instance callOk_dec c : Decision (callOk c).
Proof. destruct c as [[key ts] dur]. unfold callOk. apply _. Defined.

(** Every call keeps the invariant; an accepted one is balanced. *)
Lemma Observe_step key ts dur m :
  wf m →
  match Observe key ts dur m with
  | (m', inr d) => wf m' ∧ balanced m m' (normalizeKey key) d ∧ maxOpenWindows m' = maxOpenWindows m
  | (m', inl p) => m' = m ∧ Code p = ValidationFailed
  end.
Proof.
  intros Hwf. destruct (decide (callOk (key, ts, dur))) as [Hok|Hbad].
  - rewrite Observe_valid by done. destruct (states m !! normalizeKey key) as [s|] eqn:Hs.
    + destruct (observeExisting_spec m _ s (bucketWindowStart ts dur) Hwf Hs)
        as (m' & d & -> & ? & ? & _ & _ & ? & _). done.
    + destruct (observeNew_spec m _ (bucketWindowStart ts dur) Hwf Hs)
        as (m' & d & -> & ? & ? & _ & _ & _ & ? & _). done.
  - destruct (Observe_invalid key ts dur Hbad) as (p & Hp & ?). by rewrite Hp.
Qed.

(** The keys tracked after a call, and the key closed by force. *)
Lemma Observe_keys key ts dur m m' d :
  wf m → Observe key ts dur m = (m', inr d) →
  wf m' ∧ (∀ k, is_Some (states m' !! k) → is_Some (states m !! k) ∨ k = normalizeKey key) ∧
  (∀ f, ForcedClose d = Some f → is_Some (states m !! forced_Key f)).
Proof.
  intros Hwf Hrun. destruct (decide (callOk (key, ts, dur))) as [Hok|Hbad].
  2: { destruct (Observe_invalid key ts dur Hbad) as (p & Hp & _). by rewrite Hp in Hrun. }
  rewrite Observe_valid in Hrun by done.
  assert (∀ k (x : watermarkState) (st : gmap WindowKey watermarkState),
    is_Some (<[normalizeKey key := x]> st !! k) → is_Some (st !! k) ∨ k = normalizeKey key) as Hins.
  { intros k x st. rewrite lookup_insert_is_Some. naive_solver. }
  destruct (states m !! normalizeKey key) as [s|] eqn:Hs.
  - destruct (observeExisting_spec m _ s (bucketWindowStart ts dur) Hwf Hs)
      as (m1 & d1 & Hrun1 & ? & _ & _ & Hf & _ & _ & _ & _ & Hst).
    rewrite Hrun in Hrun1. injection Hrun1 as <- <-. split_and!; [done| |by rewrite Hf].
    intros k. rewrite Hst. apply Hins.
  - destruct (observeNew_spec m _ (bucketWindowStart ts dur) Hwf Hs)
      as (m1 & d1 & Hrun1 & ? & _ & _ & _ & _ & _ & Hd).
    rewrite Hrun in Hrun1. injection Hrun1 as <- <-. split; [done|].
    destruct (ForcedClose d) as [[fk fs]|].
    + destruct Hd as (_ & Hfk & _ & Hst). split.
      * intros k. rewrite Hst. intros [[? Hk]|]%Hins; [|by right]. left.
        apply lookup_delete_Some in Hk as [_ Hk]. eauto.
      * intros f [= <-]. eauto.
    + destruct Hd as (_ & Hst). split; [|done]. intros k. rewrite Hst. apply Hins.
Qed.

Lemma observeAll_balance calls : ∀ m,
  wf m →
  let '(m', opened, closed) := observeAll calls m in
  wf m' ∧ maxOpenWindows m' = maxOpenWindows m ∧ opened ++ openWindows m ≡ₚ closed ++ openWindows m'.
Proof.
  induction calls as [|[[key ts] dur] calls IH]; intros m Hwf; cbn [observeAll]; [done|].
  pose proof (Observe_step key ts dur m Hwf) as Hstep.
  destruct (Observe key ts dur m) as [m1 [p|d]].
  - destruct Hstep as [-> _]. by apply IH.
  - destruct Hstep as (Hwf1 & Hbal & Hmax). specialize (IH m1 Hwf1).
    destruct (observeAll calls m1) as [[m2 opened] closed]. destruct IH as (Hwf2 & Hmax2 & Hperm).
    split_and!; [done|congruence|]. unfold balanced in Hbal.
    transitivity (opened ++ opens m (normalizeKey key) d ++ openWindows m); [solve_Permutation|].
    rewrite Hbal. rewrite (Permutation_app_comm (openWindows m1)), app_assoc, (Permutation_app_comm opened).
    rewrite <- app_assoc, Hperm. solve_Permutation.
Qed.

Lemma New_wf cfg m : NewWatermarkWindowManager cfg = inr m → wf m ∧ openWindows m = [] ∧
  maxOpenWindows m = MaxOpenWindows cfg.
Proof.
  unfold NewWatermarkWindowManager. destruct (_ <=? _) eqn:Hp; [done|]. destruct (_ <? _); [done|].
  intros [= <-]. reflect_bools. split_and!; [|done|done].
  split; cbn [order states maxOpenWindows]; [apply NoDup_nil_2| |rewrite map_size_empty; lia|done].
  intros k. rewrite lookup_empty. split; [by intros ?%elem_of_nil|by intros []].
Qed.

(** C7: no window is lost or closed twice. From a fresh manager, any sequence of
    calls leaves at most [MaxOpenWindows] windows open, the keys in [order] are
    exactly the open ones, and the windows opened are, as a multiset, those
    closed (by a later window of the same key or by force) together with those
    still open. No call indexes an empty [order]: a refused call is one that
    failed validation, and it changes nothing. *)
Theorem windows_opened_are_closed_or_open cfg m0 calls key ts dur :
  NewWatermarkWindowManager cfg = inr m0 →
  let '(m, opened, closed) := observeAll calls m0 in
  opened ≡ₚ closed ++ openWindows m ∧
  ActiveWindows m ≤ MaxOpenWindows cfg ∧
  NoDup (order m) ∧ (∀ k, k ∈ order m ↔ is_Some (states m !! k)) ∧
  (∀ m' p, Observe key ts dur m = (m', inl p) → m' = m ∧ Code p = ValidationFailed).
Proof.
  intros Hnew. destruct (New_wf cfg m0 Hnew) as (Hwf0 & Ho & Hmax0).
  pose proof (observeAll_balance calls m0 Hwf0) as Hall.
  destruct (observeAll calls m0) as [[m opened] closed]. destruct Hall as (Hwf & Hmax & Hperm).
  rewrite Ho, app_nil_r in Hperm. pose proof Hwf as [Hnd Hdom Hb _].
  split_and!; [done|unfold ActiveWindows; lia|done|done|].
  intros m' p Hobs. pose proof (Observe_step key ts dur m Hwf) as Hstep. by rewrite Hobs in Hstep.
Qed.

(** C8: the decision is the one event time dictates. For a valid event of a key
    whose open window starts at [s], the event's bucket [ws], the greatest multiple
    of the duration that is not after the event, is late exactly when
    [ws < s] (nothing changes), belongs to the open window when equal, and
    otherwise closes [s] and opens [ws]: the open window never moves back. For a
    key with no open window one is opened, and only when the bound is reached
    another is closed by force: the one with the least start, ties broken by the
    key, which is unique. *)
Theorem Observe_decides_by_event_time m key ts dur :
  wf m → callOk (key, ts, dur) → ts ≤ MaxInt64 → dur ≤ MaxInt64 →
  let k := normalizeKey key in
  let ws := dur * (ts / dur) in
  ∃ m' d, Observe key ts dur m = (m', inr d) ∧ WindowStart d = ws ∧
  match states m !! k with
  | Some (MkWatermarkState s) =>
      IsLate d = (ws <? s) ∧ ShouldCloseCurrent d = (s <? ws) ∧ ForcedClose d = None ∧
      (s < ws → PreviousWindowStart d = s) ∧
      states m' = <[k := MkWatermarkState (Z.max ws s)]> (states m)
  | None =>
      IsLate d = false ∧ ShouldCloseCurrent d = false ∧
      match ForcedClose d with
      | None => ActiveWindows m < maxOpenWindows m ∧ states m' = <[k := MkWatermarkState ws]> (states m)
      | Some (MkForced fk fs) => ActiveWindows m = maxOpenWindows m ∧
          states m !! fk = Some (MkWatermarkState fs) ∧
          (∀ k' s', states m !! k' = Some s' → k' = fk ∨ before (fk, MkWatermarkState fs) (k', s')) ∧
          states m' = <[k := MkWatermarkState ws]> (delete fk (states m))
      end
  end.
Proof.
  intros Hwf Hok Hts Hdur k. rewrite Observe_valid by done. fold k.
  assert (bucketWindowStart ts dur = dur * (ts / dur)) as ->.
  { destruct Hok as (? & ? & ? & ? & ?). apply bucket_bounds; cbn in *; lia. }
  generalize (dur * (ts / dur)). intros ws.
  destruct (states m !! k) as [[s]|] eqn:Hs.
  - destruct (observeExisting_spec m k _ ws Hwf Hs)
      as (m' & d & -> & _ & _ & Hws & Hf & _ & Hl & Hc & Hp & Hst). cbn in *.
    exists m', d. split_and!; try done. intros Hlt. apply Hp. rewrite Hc. by apply Z.ltb_lt.
  - destruct (observeNew_spec m k ws Hwf Hs) as (m' & d & -> & _ & _ & Hws & Hc & Hl & _ & Hd). eauto 10.
Qed.

(** The late-arrival tolerance has no effect. Two managers that differ only
    in [LateToleranceMs] take the same decisions on every sequence of calls. *)
Theorem late_tolerance_is_ignored m tolerance key ts dur :
  let m2 := m <| lateToleranceMs := tolerance |> in
  (Observe key ts dur m2).2 = (Observe key ts dur m).2 ∧
  (Observe key ts dur m2).1 = (Observe key ts dur m).1 <| lateToleranceMs := tolerance |>.
Proof.
  destruct (decide (callOk (key, ts, dur))) as [Hok|Hbad]; intros m2; subst m2.
  - rewrite !Observe_valid by done. cbn. destruct (states m !! normalizeKey key) as [s|].
    + unfold observeExisting. unfold_meth. cbn [lateToleranceMs].
      destruct (_ <? windowStart s); [|by destruct (_ =? _)].
      by destruct (_ <? _), (_ <? _).
    + unfold observeNew, oldestWindow, mbind, Meth_bind, recv. cbn -[removeFromOrder].
      destruct (maxOpenWindows m <=? Z.of_nat (size (states m))); [|done].
      change (order m <| lateToleranceMs := tolerance |>) with (order m).
      destruct (order m) as [|k0 rest]; [done|]. cbn -[removeFromOrder].
      change (stateOf m <| lateToleranceMs := tolerance |>) with (stateOf m).
      change (older m <| lateToleranceMs := tolerance |>) with (older m).
      by destruct (foldl (older m) (k0, stateOf m k0) rest).
  - destruct (Observe_invalid key ts dur Hbad) as (p & Hp & _). by rewrite !Hp.
Qed.
End theorems.

(** Two keys of one manager with room for one window, then a late event. *)
Definition btc : WindowKey := MkWindowKey "BINANCE" "BTCUSDT" "1m".
Definition eth : WindowKey := MkWindowKey "BINANCE" "ETHUSDT" "1m".

Lemma windows_opened_are_closed_or_open_witness :
  let '(m, opened, closed) := observeAll (GR:=go_amd64)
    [(btc, 61000, 60000); (btc, 125000, 60000); (btc, 61000, 60000); (eth, 126000, 60000)]
    (MkManager 1 0 ∅ []) in
  opened ≡ₚ closed ++ openWindows m ∧ ActiveWindows m = 1 ∧ length closed = 2%nat.
Proof.
  pose proof (windows_opened_are_closed_or_open (GR:=go_amd64) (MkWatermarkConfig 1 0) (MkManager 1 0 ∅ [])
    [(btc, 61000, 60000); (btc, 125000, 60000); (btc, 61000, 60000); (eth, 126000, 60000)] btc 0 0 eq_refl) as H.
  assert ((λ '(m, _, closed), (ActiveWindows m, length closed)) (observeAll (GR:=go_amd64)
    [(btc, 61000, 60000); (btc, 125000, 60000); (btc, 61000, 60000); (eth, 126000, 60000)]
    (MkManager 1 0 ∅ [])) = (1, 2%nat)) as Hobs by (vm_compute; reflexivity).
  destruct (observeAll _ _) as [[m opened] closed]. destruct H as (H & _). split; [exact H|].
  injection Hobs as ? ?. split; assumption.
Defined.

Lemma Observe_decides_by_event_time_witness :
  let m := MkManager 2 0 {[normalizeKey (GR:=go_amd64) btc := MkWatermarkState 60000]}
             [normalizeKey (GR:=go_amd64) btc] in
  ∃ m' d, Observe (GR:=go_amd64) btc 125000 60000 m = (m', inr d) ∧ WindowStart d = 120000 ∧
    ShouldCloseCurrent d = true ∧ PreviousWindowStart d = 60000.
Proof.
  intros m. destruct (Observe_decides_by_event_time (GR:=go_amd64) m btc 125000 60000) as (m' & d & Hrun & Hws & H).
  - split; [apply NoDup_singleton| | |reflexivity].
    + intros k. subst m. cbn [order states]. rewrite list_elem_of_singleton.
      rewrite lookup_singleton_is_Some. split; congruence.
    + vm_compute. discriminate.
  - split_and!; try discriminate; reflexivity.
  - discriminate.
  - discriminate.
  - exists m', d. split; [exact Hrun|]. split; [exact Hws|].
    assert (observed (λ _ d, (ShouldCloseCurrent d, PreviousWindowStart d)) (Observe (GR:=go_amd64) btc 125000 60000 m)
      = Some (true, 60000)) as Hobs by (vm_compute; reflexivity).
    rewrite Hrun in Hobs. injection Hobs as ? ?. split; assumption.
Defined.
