(* ===== verification/OrderBook.v ===== *)
(** * OrderBook: internal/core/aggregation/domain/orderbook.go, btree_orderbook.go,
      orderbook_policy.go, orderbook_checksum.go, events.go

    The limit order book: two price-ordered trees, deltas and snapshots, pruning
    to a level bound, the crossed-book check and the snapshot events. The trees
    are github.com/google/btree, which is not part of the repository: the class
    [BTreeLib] states what the code relies on, and [sortedBTree] is one
    implementation of it.

    Specification: a side of the book maps prices to quantities; a delta sets or
    removes the quantity of each price it names, and the book keeps the best
    [MaxLevelsPerSide] levels of each side in price order. *)

From S2P Require Import Prelude GoRuntime Shared.

Local Open Scope string_scope.
Local Open Scope list_scope.
Local Open Scope Z_scope.

(** ** github.com/google/btree *)

(** [less] is a strict weak order on the items in play, and [l] ascends. *)
Definition ascending {A} (less : A → A → bool) (l : list A) : Prop :=
  StronglySorted (λ a b, less a b = true) l.

(** The generic B-tree: [items] is what [Ascend] visits. [ReplaceOrInsert]
    replaces the item equal to its argument, [Delete] removes it. The laws hold
    where [less] orders the items. *)
Class BTreeLib := {
  BTreeG : Type → Type;
  NewG : ∀ {T}, Z → (T → T → bool) → BTreeG T;
  ReplaceOrInsert : ∀ {T}, T → BTreeG T → BTreeG T;
  TreeDelete : ∀ {T}, T → BTreeG T → BTreeG T;
  TreeLen : ∀ {T}, BTreeG T → Z;
  items : ∀ {T}, BTreeG T → list T;
  lessOf : ∀ {T}, BTreeG T → T → T → bool;
  lessOf_new : ∀ {T} d (less : T → T → bool), lessOf (NewG d less) = less;
  lessOf_insert : ∀ {T} (x : T) t, lessOf (ReplaceOrInsert x t) = lessOf t;
  lessOf_delete : ∀ {T} (x : T) t, lessOf (TreeDelete x t) = lessOf t;
  items_new : ∀ {T} d (less : T → T → bool), items (NewG d less) = [];
  items_len : ∀ {T} (t : BTreeG T), TreeLen t = Z.of_nat (length (items t));
  items_insert : ∀ {T} (x : T) t,
    weak_order_on (lessOf t) (x :: items t) → ascending (lessOf t) (items t) →
    items (ReplaceOrInsert x t) =
      filter (λ y, lessOf t y x = true) (items t) ++ x :: filter (λ y, lessOf t x y = true) (items t);
  items_delete : ∀ {T} (x : T) t,
    weak_order_on (lessOf t) (x :: items t) → ascending (lessOf t) (items t) →
    items (TreeDelete x t) = filter (λ y, lessOf t y x = true ∨ lessOf t x y = true) (items t);
}.

(** One implementation: the ordered list of the items. *)
Definition sortedBTree : BTreeLib.
Proof.
  refine {|
    BTreeG T := ((T → T → bool) * list T)%type;
    NewG T _ less := (less, []);
    ReplaceOrInsert T x t := (t.1, filter (λ y, t.1 y x = true) t.2 ++ x :: filter (λ y, t.1 x y = true) t.2);
    TreeDelete T x t := (t.1, filter (λ y, t.1 y x = true ∨ t.1 x y = true) t.2);
    TreeLen T t := Z.of_nat (length t.2);
    items T t := t.2;
    lessOf T t := t.1;
  |}; done.
Defined.

(** [tree.Ascend(visit)]: the visitor returns false to stop. *)
Fixpoint ascend_list {S T} (visit : T → S → S * bool) (l : list T) (s : S) : S :=
  match l with
  | [] => s
  | x :: l' => let '(s', continue) := visit x s in if continue : bool then ascend_list visit l' s' else s'
  end.
Definition Ascend {BT : BTreeLib} {S T} (t : BTreeG T) (visit : T → S → S * bool) (s : S) : S :=
  ascend_list visit (items t) s.

(** ** orderbook.go, orderbook_policy.go *)

Record BookID := MkBookID { book_Venue : string; book_Instrument : string }.
#[export] Instance BookID_eq_dec : EqDecision BookID.
Proof. solve_decision. Defined.
#[export] Instance BookID_countable : Countable BookID :=
  inj_countable' (λ b, (book_Venue b, book_Instrument b)) (λ t, MkBookID t.1 t.2)
    (λ b, match b with MkBookID _ _ => eq_refl end).

Record Level := MkLevel { Price : float64; Quantity : float64 }.

Inductive HealthState := Healthy | NeedsResync.

Record OrderBookLimitsPolicy := MkLimits { MaxLevelsPerSide : Z }.

Definition NewOrderBookLimitsPolicy (maxLevelsPerSide : Z) : Problem + OrderBookLimitsPolicy :=
  if maxLevelsPerSide <? 0 then inl (New ValidationFailed "max_levels must be >= 0")
  else inr (MkLimits maxLevelsPerSide).

Definition IsBounded (p : OrderBookLimitsPolicy) : bool := 0 <? MaxLevelsPerSide p.

Definition badLevel (format side : string) (idx : Z) (value : float64) (reason : string) : Problem :=
  with_detail (with_detail (with_detail
    (Newf ValidationFailed format [AnyStr side; AnyInt idx; AnyFloat value])
    "side" (AnyStr side)) "index" (AnyInt idx)) "reason" (AnyStr reason).
Definition badPrice : string → Z → float64 → string → Problem :=
  badLevel "%s level[%d] price must be a finite positive number, got %g".
Definition badQty : string → Z → float64 → string → Problem :=
  badLevel "%s level[%d] quantity must be a finite non-negative number, got %g".

Definition validateLevel (side : string) (idx : Z) (l : Level) : option Problem :=
  let price := Price l in
  let qty := Quantity l in
  if isNaN price then Some (badPrice side idx price "nan")
  else if isInf price then Some (badPrice side idx price "inf")
  else if fltb price f0 then Some (badPrice side idx price "neg_price")
  else if feqb price f0 then Some (badPrice side idx price "zero_price")
  else if isNaN qty then Some (badQty side idx qty "nan")
  else if isInf qty then Some (badQty side idx qty "inf")
  else if fltb qty f0 then Some (badQty side idx qty "neg_qty")
  else None.

(** The validation loop over a side, from index [i]. *)
Fixpoint validateLevels (side : string) (i : Z) (ls : list Level) : option Problem :=
  match ls with
  | [] => None
  | l :: rest =>
      match validateLevel side i l with
      | Some p => Some p
      | None => validateLevels side (i + 1) rest
      end
  end.

(** ** events.go *)

Record OrderBookUpdated := MkOrderBookUpdated {
  upd_BookID : BookID; upd_Seq : Z; BidTop : option Level; AskTop : option Level;
  upd_Spread : float64; BidLen : Z; AskLen : Z;
}.

Record OrderBookInconsistentDetected := MkInconsistent {
  inc_BookID : BookID; inc_Seq : Z; Reason : message;
}.

Record SnapshotProduced := MkSnapshot {
  snap_BookID : BookID;
  snap_Seq : Z;
  snap_Bids : list Level;
  snap_Asks : list Level;
  BestBidPrice : float64;
  BestAskPrice : float64;
  SpreadBPS : float64;
  snap_Checksum : Z;
  TsIngestMs : Z;
  BidCount : Z;
  AskCount : Z;
  DepthCap : Z;
  Version : Z;
}.
#[export] Instance SnapshotProduced_eta : Eta SnapshotProduced := λ r,
  MkSnapshot (snap_BookID r) (snap_Seq r) (snap_Bids r) (snap_Asks r) (BestBidPrice r) (BestAskPrice r)
    (SpreadBPS r) (snap_Checksum r) (TsIngestMs r) (BidCount r) (AskCount r) (DepthCap r) (Version r).

Inductive DomainEvent :=
| EvUpdated (e : OrderBookUpdated)
| EvInconsistent (e : OrderBookInconsistentDetected)
| EvSnapshot (e : SnapshotProduced).

Definition EventName (e : DomainEvent) : string :=
  match e with
  | EvUpdated _ => "OrderBookUpdated"
  | EvInconsistent _ => "OrderBookInconsistentDetected"
  | EvSnapshot _ => "SnapshotProduced"
  end.

Definition capLevels (levels : list Level) (depthCap : Z) : list Level :=
  if (depthCap <=? 0) || (Z.of_nat (length levels) <=? depthCap) then levels
  else take (Z.to_nat depthCap) levels.

Definition snapshotBestBid (levels : list Level) : float64 :=
  match levels with [] => f0 | l :: _ => Price l end.
Definition snapshotBestAsk (levels : list Level) : float64 :=
  match levels with [] => f0 | l :: _ => Price l end.

Definition spreadBPSFromBest (bestBid bestAsk : float64) : float64 :=
  if fleb bestBid f0 || fleb bestAsk f0 then f_of_Z (-1) else
  let mid := fmul (fadd bestBid bestAsk) (flit 1 2) in
  if fleb mid f0 then f_of_Z (-1)
  else fmul (fdiv (fsub bestAsk bestBid) mid) (f_of_Z 10000).

Definition Capped (s : SnapshotProduced) (depthCap tsIngestMs : Z) : SnapshotProduced :=
  let out := s <| TsIngestMs := tsIngestMs |> in
  let out := if Version out <=? 0 then out <| Version := 2 |> else out in
  let out := if BidCount out <=? 0 then out <| BidCount := Z.of_nat (length (snap_Bids out)) |> else out in
  let out := if AskCount out <=? 0 then out <| AskCount := Z.of_nat (length (snap_Asks out)) |> else out in
  let rebest out := out <| BestBidPrice := snapshotBestBid (snap_Bids out) |>
                        <| BestAskPrice := snapshotBestAsk (snap_Asks out) |>
                        <| SpreadBPS := spreadBPSFromBest (snapshotBestBid (snap_Bids out))
                                          (snapshotBestAsk (snap_Asks out)) |> in
  if depthCap <=? 0 then rebest (out <| DepthCap := 0 |>)
  else rebest (out <| DepthCap := depthCap |>
                   <| snap_Bids ::= λ l, capLevels l depthCap |>
                   <| snap_Asks ::= λ l, capLevels l depthCap |>).

(** ** orderbook_checksum.go *)

Section checksum.
Context {GR : GoRuntime}.

Definition checksumLevel (checksum : Z) (l : Level) : Z :=
  crc32_Update (crc32_Update checksum (le64 (Float64bits (Price l)))) (le64 (Float64bits (Quantity l))).

Definition computeOrderBookChecksum (bids asks : list Level) : Z :=
  let checksum := foldl checksumLevel 0 bids in
  let checksum := crc32_Update checksum [255] in
  foldl checksumLevel checksum asks.

Definition ComputeOrderBookChecksum (bids asks : list Level) : Z := computeOrderBookChecksum bids asks.
End checksum.

(** ** btree_orderbook.go *)

Definition orderBookBTreeDegree : Z := 16.
(** [levelNode] has the fields of [Level]; the code converts between them freely. *)
Abbreviation levelNode := Level.

Inductive OrderBookPruneStrategy := FurthestFromMidPruneStrategy.

Section book.
Context {GR : GoRuntime} {BT : BTreeLib}.

Record OrderBook := MkOrderBook {
  id : BookID;
  lastSeq : Z;
  bids : BTreeG levelNode;
  asks : BTreeG levelNode;
  limits : OrderBookLimitsPolicy;
  pruneStrategy : OrderBookPruneStrategy;
  lastPrunedLevels : Z;
  state : HealthState;
  events : list DomainEvent;
}.
#[export] Instance OrderBook_eta : Eta OrderBook := λ r,
  MkOrderBook (id r) (lastSeq r) (bids r) (asks r) (limits r) (pruneStrategy r)
    (lastPrunedLevels r) (state r) (events r).

Abbreviation BookM := (Meth OrderBook Problem).

Definition bidLess (a b : levelNode) : bool := fgtb (Price a) (Price b).
Definition askLess (a b : levelNode) : bool := fltb (Price a) (Price b).
Definition newBidTree : BTreeG levelNode := NewG orderBookBTreeDegree bidLess.
Definition newAskTree : BTreeG levelNode := NewG orderBookBTreeDegree askLess.

Definition NewBTreeOrderBook (venue instrument : string) (limits : OrderBookLimitsPolicy)
    (strategy : option OrderBookPruneStrategy) : Problem + OrderBook :=
  match Collect [NonEmptyString "venue" venue; NonEmptyString "instrument" instrument] with
  | Some p => inl p
  | None =>
      let strategy := default FurthestFromMidPruneStrategy strategy in
      inr (MkOrderBook (MkBookID venue instrument) 0 newBidTree newAskTree limits strategy 0 Healthy [])
  end.

Definition NewOrderBookWithMaxLevels (venue instrument : string) (maxLevels : Z) : Problem + OrderBook :=
  match Collect [NonEmptyString "venue" venue; NonEmptyString "instrument" instrument] with
  | Some p => inl p
  | None =>
      match NewOrderBookLimitsPolicy maxLevels with
      | inl p => inl p
      | inr policy => NewBTreeOrderBook venue instrument policy (Some FurthestFromMidPruneStrategy)
      end
  end.

Definition NewOrderBook (venue instrument : string) : Problem + OrderBook :=
  NewOrderBookWithMaxLevels venue instrument 0.

(** The visitor of the prune functions: keep the first [maxLevels] nodes. *)
Definition keepVisitor (maxLevels : Z) (node : levelNode) (kept : list levelNode) : list levelNode * bool :=
  if maxLevels <=? Z.of_nat (length kept) then (kept, false) else (kept ++ [node], true).

Definition pruneBidTree (maxLevels : Z) (book : OrderBook) : OrderBook * Z :=
  if TreeLen (bids book) <=? maxLevels then (book, 0) else
  let kept := Ascend (bids book) (keepVisitor maxLevels) [] in
  let removed := TreeLen (bids book) - Z.of_nat (length kept) in
  (book <| bids := foldl (λ t node, ReplaceOrInsert node t) newBidTree kept |>, removed).

Definition pruneAskTree (maxLevels : Z) (book : OrderBook) : OrderBook * Z :=
  if TreeLen (asks book) <=? maxLevels then (book, 0) else
  let kept := Ascend (asks book) (keepVisitor maxLevels) [] in
  let removed := TreeLen (asks book) - Z.of_nat (length kept) in
  (book <| asks := foldl (λ t node, ReplaceOrInsert node t) newAskTree kept |>, removed).

Definition Prune (s : OrderBookPruneStrategy) (book : OrderBook) : OrderBook * Z :=
  match s with
  | FurthestFromMidPruneStrategy =>
      if negb (IsBounded (limits book)) then (book, 0) else
      let maxLevels := MaxLevelsPerSide (limits book) in
      let '(book, pruned) := pruneBidTree maxLevels book in
      let '(book, pruned') := pruneAskTree maxLevels book in
      (book, pruned + pruned')
  end.

Definition ID (b : OrderBook) : BookID := id b.

Definition firstLevel (tree : BTreeG levelNode) : option Level :=
  if TreeLen tree =? 0 then None
  else Ascend tree (λ node _, (Some node, false)) None.

Definition BestBid (b : OrderBook) : option Level := firstLevel (bids b).
Definition BestAsk (b : OrderBook) : option Level := firstLevel (asks b).

Definition Spread (b : OrderBook) : float64 :=
  match BestBid b, BestAsk b with
  | Some bid, Some ask => fsub (Price ask) (Price bid)
  | _, _ => f_of_Z (-1)
  end.

Definition levelsFromTree (tree : BTreeG levelNode) : list Level :=
  if TreeLen tree =? 0 then []
  else Ascend tree (λ node out, (out ++ [node], true)) [].

Definition Bids (b : OrderBook) : list Level := levelsFromTree (bids b).
Definition Asks (b : OrderBook) : list Level := levelsFromTree (asks b).

Definition levelsFromTreeLimited (tree : BTreeG levelNode) (n : Z) : list Level :=
  if TreeLen tree =? 0 then []
  else if (n <=? 0) || (TreeLen tree <=? n) then levelsFromTree tree
  else Ascend tree (λ node out, (out ++ [node], Z.of_nat (length (out ++ [node])) <? n)) [].

Definition TopN (b : OrderBook) (n : Z) : list Level * list Level :=
  if n <=? 0 then (Bids b, Asks b)
  else (levelsFromTreeLimited (bids b) n, levelsFromTreeLimited (asks b) n).

(** One update of [applySideUpdates]. *)
Definition applyUpdate (tree : BTreeG levelNode) (u : Level) : BTreeG levelNode :=
  if feqb (Quantity u) f0 then TreeDelete (MkLevel (Price u) f0) tree
  else ReplaceOrInsert u tree.
Definition applySideUpdates (tree : BTreeG levelNode) (updates : list Level) : BTreeG levelNode :=
  foldl applyUpdate tree updates.

Definition checkSpread (b : OrderBook) : option Problem :=
  match BestBid b, BestAsk b with
  | Some bid, Some ask =>
      if fgeb (Price bid) (Price ask) then
        Some (with_detail (with_detail
          (Newf IntegrityViolation "crossed book: best bid %.8f >= best ask %.8f"
             [AnyFloat (Price bid); AnyFloat (Price ask)])
          "best_bid" (AnyFloat (Price bid))) "best_ask" (AnyFloat (Price ask)))
      else None
  | _, _ => None
  end.

Definition applyDelta (seq : Z) (bidUpdates askUpdates : list Level) (isSnapshot : bool) : BookM unit :=
  check (PositiveInt "seq" seq) ;;
  b ← recv;
  fail_if ((seq <=? lastSeq b) && negb isSnapshot)
    (with_detail (with_detail
      (Newf OutOfOrder "seq %d is not greater than last seq %d" [AnyInt seq; AnyInt (lastSeq b)])
      "seq" (AnyInt seq)) "last_seq" (AnyInt (lastSeq b))) ;;
  check (validateLevels "bid" 0 bidUpdates) ;;
  check (validateLevels "ask" 0 askUpdates) ;;
  (if isSnapshot then assign (λ b, b <| bids := newBidTree |> <| asks := newAskTree |>) else mret tt) ;;
  assign (λ b, b <| bids ::= λ t, applySideUpdates t bidUpdates |>) ;;
  assign (λ b, b <| asks ::= λ t, applySideUpdates t askUpdates |>) ;;
  assign (λ b, let '(b', pruned) := Prune (pruneStrategy b) b in b' <| lastPrunedLevels := pruned |>) ;;
  b ← recv;
  match checkSpread b with
  | Some p =>
      assign (λ b, b <| state := NeedsResync |>
                     <| lastSeq := seq |>
                     <| events ::= λ evs, evs ++ [EvInconsistent (MkInconsistent (ID b) seq (Message p))] |>
                     <| bids := newBidTree |>
                     <| asks := newAskTree |>) ;;
      throw p
  | None => assign (λ b, b <| state := Healthy |> <| lastSeq := seq |>)
  end.

Definition ApplyDelta (seq : Z) (bidUpdates askUpdates : list Level) : BookM unit :=
  applyDelta seq bidUpdates askUpdates false.
Definition ApplySnapshot (seq : Z) (bidUpdates askUpdates : list Level) : BookM unit :=
  applyDelta seq bidUpdates askUpdates true.

Definition LastSeq (b : OrderBook) : Z := lastSeq b.
Definition LastPrunedLevels (b : OrderBook) : Z := lastPrunedLevels b.
Definition State (b : OrderBook) : HealthState := state b.
Definition IsHealthy (b : OrderBook) : bool := match state b with Healthy => true | _ => false end.
Definition needsResync (b : OrderBook) : bool := match state b with NeedsResync => true | _ => false end.

Definition PullDomainEvents (b : OrderBook) : OrderBook * list DomainEvent :=
  (b <| events := [] |>, events b).

Definition Checksum (b : OrderBook) : Z := computeOrderBookChecksum (Bids b) (Asks b).

Definition NewOrderBookUpdated (book : OrderBook) (seq : Z) : OrderBookUpdated :=
  MkOrderBookUpdated (ID book) seq (BestBid book) (BestAsk book) (Spread book)
    (Z.of_nat (length (Bids book))) (Z.of_nat (length (Asks book))).

Definition NewSnapshotProduced (book : OrderBook) : SnapshotProduced :=
  let bids := Bids book in
  let asks := Asks book in
  let bestBid := match bids with [] => f0 | l :: _ => Price l end in
  let bestAsk := match asks with [] => f0 | l :: _ => Price l end in
  MkSnapshot (ID book) (LastSeq book) bids asks bestBid bestAsk (spreadBPSFromBest bestBid bestAsk)
    (Checksum book) 0 (Z.of_nat (length bids)) (Z.of_nat (length asks)) 0 2.
End book.
