(* ===== verification/OrderBookSpec.v ===== *)
(** * OrderBookSpec: what the order book promises

    A side of the book is a partial map from prices to quantities ([qtyAt]); the
    trees hold it in price order. The lemmas are proved once for a side with an
    abstract price order and used for bids and asks. *)

From S2P Require Import Prelude GoRuntime Shared OrderBook.

Local Open Scope string_scope.
Local Open Scope list_scope.
Local Open Scope Z_scope.

(** ** Valid levels *)

(** A strictly positive finite float. *)
Definition validPrice (p : float64) : bool :=
  match p with S754_finite false _ _ => true | _ => false end.
(** Zero (which removes the level) or strictly positive finite. *)
Definition validQty (q : float64) : bool :=
  match q with S754_zero _ | S754_finite false _ _ => true | _ => false end.
Definition validLevel (l : Level) : Prop := validPrice (Price l) = true ∧ validQty (Quantity l) = true.
(** A level that is in the book: the quantity is not zero. *)
Definition stored (l : Level) : Prop := validLevel l ∧ feqb (Quantity l) f0 = false.

#[export] Instance validLevel_dec l : Decision (validLevel l).
Proof. unfold validLevel. apply _. Defined.

Lemma validateLevel_none side i l : validateLevel side i l = None ↔ validLevel l.
Proof.
  unfold validateLevel, validLevel. destruct l as [[?|?| |[] m e] [?|?| |[] m' e']]; cbn;
    split; intros; try done; by destruct_and?.
Qed.
Lemma validateLevel_validates side i l : validates (validateLevel side i l).
Proof. unfold validateLevel. repeat case_match; by intros p [= <-]. Qed.

Lemma validateLevels_none side ls : ∀ i, validateLevels side i ls = None ↔ Forall validLevel ls.
Proof.
  induction ls as [|l ls IH]; intros i; cbn; [done|]. rewrite Forall_cons, <- (validateLevel_none side i), <- (IH (i + 1)).
  destruct (validateLevel side i l); naive_solver.
Qed.
Lemma validateLevels_validates side ls : ∀ i, validates (validateLevels side i ls).
Proof.
  induction ls as [|l ls IH]; intros i; cbn; [done|].
  pose proof (validateLevel_validates side i l). by destruct (validateLevel side i l).
Qed.

Lemma validPrice_not_nan p : validPrice p = true → isNaN p = false.
Proof. by destruct p. Qed.
Lemma validPrice_eqb p q : validPrice p = true → feqb p q = true ↔ p = q.
Proof.
  intros Hp. destruct (isNaN q) eqn:Hq; [destruct p, q; done|].
  rewrite feqb_key by auto using validPrice_not_nan. split; [|by intros ->].
  intros Hk. apply fkey_inj; [done|]. by destruct p as [| | |[]].
Qed.
Lemma validPrice_refl p : validPrice p = true → feqb p p = true.
Proof. intros Hp. by apply validPrice_eqb. Qed.
Lemma validPrice_total p q :
  validPrice p = true → validPrice q = true → fltb p q = true ∨ p = q ∨ fltb q p = true.
Proof.
  intros Hp Hq. rewrite <- (validPrice_eqb p q) by done.
  assert (isNaN p = false ∧ isNaN q = false) as [??] by auto using validPrice_not_nan.
  rewrite !fltb_key, feqb_key by done. destruct (fkey p) as [[??]?], (fkey q) as [[??]?]; cbn.
  rewrite !pair_equal_spec. lia.
Qed.

(** ** One side of the book *)

(** The quantity at a price in a list of levels. *)
Fixpoint qtyAt (l : list Level) (p : float64) : option float64 :=
  match l with
  | [] => None
  | x :: l' => if feqb (Price x) p then Some (Quantity x) else qtyAt l' p
  end.

(** A level update on the map: zero removes the price, anything else sets it. *)
Definition setQty (f : float64 → option float64) (u : Level) : float64 → option float64 :=
  λ p, if feqb (Price u) p then (if feqb (Quantity u) f0 then None else Some (Quantity u)) else f p.
Definition setQtys (f : float64 → option float64) (us : list Level) : float64 → option float64 :=
  foldl setQty f us.

(** What a side's tree needs of its order: it compares prices, totally. *)
Class PriceOrder (less : levelNode → levelNode → bool) := {
  po_asym : ∀ a b, less a b = true → less b a = false;
  po_trans : ∀ a b c, less a b = true → less b c = true → less a c = true;
  po_total : ∀ a b, validLevel a → validLevel b →
    less a b = true ∨ Price a = Price b ∨ less b a = true;
  po_price : ∀ a b c, Price a = Price b → less a c = less b c ∧ less c a = less c b;
}.

#[export] Instance askLess_order : PriceOrder askLess.
Proof.
  split; unfold askLess.
  - intros a b. apply fltb_asym.
  - intros a b c. apply fltb_trans.
  - intros a b [Ha _] [Hb _]. by apply validPrice_total.
  - by intros a b c ->.
Qed.
#[export] Instance bidLess_order : PriceOrder bidLess.
Proof.
  split; unfold bidLess.
  - intros a b. apply fltb_asym.
  - intros a b c H1 H2. by eapply fltb_trans.
  - intros a b [Ha _] [Hb _]. destruct (validPrice_total (Price a) (Price b)) as [|[|]]; auto.
  - by intros a b c ->.
Qed.

Section side.
Context {GR : GoRuntime} {BT : BTreeLib} (less : levelNode → levelNode → bool) {PO : PriceOrder less}.
Let less_asym := po_asym (less:=less).
Let less_trans := po_trans (less:=less).
Let less_total := po_total (less:=less).
Let less_price := po_price (less:=less).

Lemma less_irrefl a : less a a = false.
Proof. destruct (less a a) eqn:H; [|done]. by rewrite (less_asym _ _ H) in H. Qed.

Lemma less_weak_order l : Forall validLevel l → weak_order_on less l.
Proof.
  intros Hl. rewrite Forall_forall in Hl. split; [auto|].
  intros x y z Hx Hy Hz Hxy. destruct (less_total x z) as [?|[Heq|Hzx]]; auto.
  - right. by rewrite <- (proj1 (less_price x z y Heq)).
  - right. by eapply less_trans.
Qed.

(** The tree of a side: its order, its levels ascending and stored. *)
Record side (t : BTreeG levelNode) : Prop := {
  side_less : lessOf t = less;
  side_asc : ascending less (items t);
  side_stored : Forall stored (items t);
}.

Lemma side_new d : side (NewG d less).
Proof. split; [apply lessOf_new|rewrite items_new; constructor|by rewrite items_new]. Qed.

Lemma stored_valid l : Forall stored l → Forall validLevel l.
Proof. intros Hl. eapply Forall_impl; [exact Hl|]. by intros x []. Qed.

Lemma side_weak_order t u : side t → validLevel u → weak_order_on (lessOf t) (u :: items t).
Proof. intros [-> _ Hs] Hu. apply less_weak_order. apply Forall_cons. auto using stored_valid. Qed.

Lemma ascending_filter (P : Level → Prop) `{∀ x, Decision (P x)} l : ascending less l → ascending less (filter P l).
Proof.
  induction 1 as [|x l Hl IH Hx]; [constructor|]. rewrite filter_cons. case_decide; [|done].
  constructor; [done|]. by apply Forall_filtered.
Qed.

(** The levels before and after a price, with the price's level in between. *)
Lemma ascending_around l u :
  ascending less l →
  ascending less (filter (λ y, less y u = true) l ++ u :: filter (λ y, less u y = true) l).
Proof.
  intros Hl. apply StronglySorted_app_2.
  - intros x y Hx%list_elem_of_filter [->|Hy%list_elem_of_filter]%elem_of_cons; [tauto|].
    destruct Hx, Hy. by eapply less_trans.
  - by apply ascending_filter.
  - constructor; [by apply ascending_filter|]. apply Forall_forall. by intros y [? _]%list_elem_of_filter.
Qed.

Lemma applyUpdate_less t u : lessOf (applyUpdate t u) = lessOf t.
Proof. unfold applyUpdate. case_match; [apply lessOf_delete|apply lessOf_insert]. Qed.

Lemma items_applyUpdate t u :
  side t → validLevel u →
  items (applyUpdate t u) =
    if feqb (Quantity u) f0 then filter (λ y, less y u = true ∨ less u y = true) (items t)
    else filter (λ y, less y u = true) (items t) ++ u :: filter (λ y, less u y = true) (items t).
Proof.
  intros Hside Hu. pose proof Hside as [Hless Hasc Hst]. unfold applyUpdate.
  destruct (feqb (Quantity u) f0) eqn:Hq.
  - rewrite items_delete; [|apply (side_weak_order t); [done|]|by rewrite Hless].
    + apply filter_ext_in. intros y _. rewrite !Hless.
      destruct (less_price (MkLevel (Price u) f0) u y eq_refl) as [-> ->]. done.
    + by destruct Hu.
  - rewrite items_insert; [by rewrite Hless|by apply (side_weak_order t)|by rewrite Hless].
Qed.

Lemma side_update t u : side t → validLevel u → side (applyUpdate t u).
Proof.
  intros Hside Hu. pose proof Hside as [Hless Hasc Hst].
  assert (side (applyUpdate t u) ↔ ascending less (items (applyUpdate t u)) ∧ Forall stored (items (applyUpdate t u))) as ->.
  { split; [by intros []|]. intros []. split; [by rewrite applyUpdate_less|done|done]. }
  rewrite items_applyUpdate by done. destruct (feqb (Quantity u) f0) eqn:Hq.
  - split; [by apply ascending_filter|by apply Forall_filtered].
  - split; [by apply ascending_around|].
    apply Forall_app. split; [by apply Forall_filtered|].
    apply Forall_cons. split; [done|by apply Forall_filtered].
Qed.

Lemma same_price_not_less a b : Price a = Price b → less a b = false.
Proof. intros Hp. rewrite (proj1 (less_price a b b Hp)). apply less_irrefl. Qed.

Lemma qtyAt_Some l p q :
  ascending less l → Forall validLevel l →
  qtyAt l p = Some q ↔ MkLevel p q ∈ l.
Proof.
  induction 1 as [|x l Hl IH Hx]; [rewrite elem_of_nil; done|]. rewrite Forall_cons. intros [Hv Hvl].
  cbn. rewrite elem_of_cons. rewrite Forall_forall in Hx.
  destruct (feqb (Price x) p) eqn:Hp.
  - apply validPrice_eqb in Hp as <-; [|apply Hv]. split.
    + intros [= <-]. left. by destruct x.
    + intros [Hxq|Hin]; [apply (f_equal Quantity) in Hxq; cbn in Hxq; congruence|]. specialize (Hx _ Hin).
      by rewrite same_price_not_less in Hx.
  - rewrite IH by done. split; [by right|]. intros [<-|?]; [|done].
    cbn in *. by rewrite validPrice_refl in Hp by apply Hv.
Qed.

Lemma ascending_NoDup l : ascending less l → NoDup l.
Proof.
  induction 1 as [|x l Hl IH Hx]; constructor; [|done].
  intros Hin. rewrite Forall_forall in Hx. specialize (Hx _ Hin). by rewrite less_irrefl in Hx.
Qed.

(** A side is determined by its map. *)
Lemma ascending_unique l1 l2 :
  ascending less l1 → ascending less l2 → Forall validLevel l1 → Forall validLevel l2 →
  (∀ p, qtyAt l1 p = qtyAt l2 p) → l1 = l2.
Proof.
  intros H1 H2 Hv1 Hv2 Heq. eapply StronglySorted_unique; [|exact H1|exact H2|].
  - intros a b Hab Hba. by rewrite (less_asym _ _ Hab) in Hba.
  - apply NoDup_Permutation; [by apply ascending_NoDup..|].
    intros [p q]. by rewrite <- (qtyAt_Some l1), <- (qtyAt_Some l2), Heq.
Qed.

(** The quantities after one update. *)
Lemma update_qtyAt t u p :
  side t → validLevel u →
  qtyAt (items (applyUpdate t u)) p = setQty (qtyAt (items t)) u p.
Proof.
  intros Hside Hu. pose proof Hside as [Hless Hasc Hst].
  pose proof (side_update t u Hside Hu) as [_ Hasc' Hst'%stored_valid]. apply stored_valid in Hst.
  apply option_eq. intros q. rewrite qtyAt_Some by done. unfold setQty.
  assert (∀ x, x ∈ items t → less x u = true ∨ Price x = Price u ∨ less u x = true) as Htot.
  { intros x Hx. apply less_total; [|done]. by eapply Forall_forall in Hst. }
  rewrite items_applyUpdate by done. destruct (feqb (Quantity u) f0) eqn:Hq.
  - rewrite list_elem_of_filter. destruct (feqb (Price u) p) eqn:Hp.
    + apply validPrice_eqb in Hp as <-; [|apply Hu]. split; [|done].
      rewrite !same_price_not_less by done. naive_solver.
    + rewrite qtyAt_Some by done. split; [tauto|]. intros Hin. split; [|done].
      destruct (Htot _ Hin) as [?|[Heq|?]]; [tauto| |tauto].
      cbn in Heq. subst p. cbn in *. by rewrite validPrice_refl in Hp by apply Hu.
  - rewrite elem_of_app, elem_of_cons, !list_elem_of_filter.
    destruct (feqb (Price u) p) eqn:Hp.
    + apply validPrice_eqb in Hp as <-; [|apply Hu].
      rewrite !same_price_not_less by done. split.
      * intros [[? _]|[<-|[? _]]]; done.
      * intros [= <-]. right. left. by destruct u.
    + rewrite qtyAt_Some by done. split.
      * intros [[_ ?]|[<-|[_ ?]]]; [done| |done].
        cbn in *. by rewrite validPrice_refl in Hp by apply Hu.
      * intros Hin. destruct (Htot _ Hin) as [?|[Heq|?]]; [tauto| |tauto].
        cbn in Heq. subst p. cbn in *. by rewrite validPrice_refl in Hp by apply Hu.
Qed.

Lemma side_updates us : ∀ t,
  side t → Forall validLevel us →
  side (applySideUpdates t us) ∧
  ∀ p, qtyAt (items (applySideUpdates t us)) p = setQtys (qtyAt (items t)) us p.
Proof.
  unfold applySideUpdates, setQtys. induction us as [|u us IH]; intros t Ht; [done|].
  rewrite Forall_cons. intros [Hu Hus]. cbn.
  destruct (IH (applyUpdate t u) (side_update t u Ht Hu) Hus) as [Hs Hq]. split; [done|].
  intros p. rewrite Hq. clear IH Hs Hq.
  assert (∀ f g, (∀ p, f p = g p) → ∀ p, foldl setQty f us p = foldl setQty g us p) as Hext.
  { clear. induction us as [|u us IH]; intros f g Hfg p; cbn; [done|]. apply IH. intros q.
    unfold setQty. by rewrite Hfg. }
  apply Hext. intros q. by apply update_qtyAt.
Qed.

(** Inserting an ascending list of stored levels into an empty tree gives it back. *)
Lemma insert_above t u :
  side t → validLevel u → Forall (λ x, less x u = true) (items t) →
  items (ReplaceOrInsert u t) = items t ++ [u].
Proof.
  intros Hside Hu Hall. pose proof Hside as [Hless Hasc Hst].
  rewrite items_insert; [|by apply (side_weak_order t)|by rewrite Hless]. rewrite Hless.
  rewrite Forall_forall in Hall. rewrite filter_id by done. f_equal. f_equal.
  destruct (filter (λ y, less u y = true) (items t)) as [|x l] eqn:Hf; [done|].
  assert (x ∈ filter (λ y, less u y = true) (items t)) as [Hux Hx]%list_elem_of_filter
    by (rewrite Hf; by left).
  by rewrite (less_asym x u (Hall x Hx)) in Hux.
Qed.

Lemma rebuild l : ∀ t,
  side t → ascending less (items t ++ l) → Forall stored l →
  let t' := foldl (λ t node, ReplaceOrInsert node t) t l in side t' ∧ items t' = items t ++ l.
Proof.
  induction l as [|u l IH]; intros t Hside Hasc Hl; cbn [foldl]; [by rewrite app_nil_r|].
  apply Forall_cons in Hl as [Hu Hl]. pose proof Hasc as (Hlt & _ & _)%StronglySorted_app.
  assert (items (ReplaceOrInsert u t) = items t ++ [u]) as Hins.
  { apply insert_above; [done|apply Hu|]. apply Forall_forall. intros x Hx. apply Hlt; [done|by left]. }
  assert (side (ReplaceOrInsert u t)) as Hside'.
  { replace (ReplaceOrInsert u t) with (applyUpdate t u); [by apply side_update; [|apply Hu]|].
    unfold applyUpdate. by destruct Hu as [_ ->]. }
  destruct (IH _ Hside') as [Hs Hit]; [by rewrite Hins, <- app_assoc|done|].
  split; [done|]. by rewrite Hit, Hins, <- app_assoc.
Qed.

Lemma updates_insert l : ∀ t,
  Forall stored l → applySideUpdates t l = foldl (λ t node, ReplaceOrInsert node t) t l.
Proof.
  unfold applySideUpdates. induction l as [|u l IH]; intros t; [done|]. rewrite Forall_cons.
  intros [[_ Hu] Hl]. cbn. unfold applyUpdate at 2. rewrite Hu. by apply IH.
Qed.

(** ** Visiting a tree *)

Lemma keepVisitor_take n l : ∀ kept,
  0 ≤ n → ascend_list (keepVisitor n) l kept = kept ++ take (Z.to_nat n - length kept) l.
Proof.
  induction l as [|x l IH]; intros kept Hn; cbn; [by rewrite take_nil, app_nil_r|].
  unfold keepVisitor at 1. destruct (Z.leb_spec n (Z.of_nat (length kept))).
  - replace (Z.to_nat n - length kept)%nat with 0%nat by lia. by rewrite app_nil_r.
  - rewrite IH, length_app by done. cbn.
    replace (Z.to_nat n - length kept)%nat with (S (Z.to_nat n - (length kept + 1)))%nat by lia.
    by rewrite <- app_assoc.
Qed.

Lemma collect_all (l : list Level) : ∀ out, ascend_list (λ node out, (out ++ [node], true)) l out = out ++ l.
Proof. induction l as [|x l IH]; intros out; cbn; [by rewrite app_nil_r|]. by rewrite IH, <- app_assoc. Qed.

Lemma levelsFromTree_items t : levelsFromTree t = items t.
Proof.
  unfold levelsFromTree, Ascend. rewrite items_len, collect_all.
  destruct (Z.eqb_spec (Z.of_nat (length (items t))) 0); [|done]. destruct (items t); [done|cbn in *; lia].
Qed.
Lemma firstLevel_head t : firstLevel t = head (items t).
Proof.
  unfold firstLevel, Ascend. rewrite items_len. destruct (items t); [done|]. cbn [length].
  destruct (Z.eqb_spec (Z.of_nat (S (length l0))) 0); [lia|done].
Qed.

Lemma ascending_take n l : ascending less l → ascending less (take n l).
Proof. rewrite <- (take_drop n l) at 1. intros H%StronglySorted_app. tauto. Qed.
End side.

(** ** The book *)

Section book_spec.
Context {GR : GoRuntime} {BT : BTreeLib}.

(** The best [MaxLevelsPerSide] levels of a side. *)
Definition keepBest (lim : OrderBookLimitsPolicy) (l : list Level) : list Level :=
  if IsBounded lim then take (Z.to_nat (MaxLevelsPerSide lim)) l else l.

(** Every bid is below every ask. *)
Definition uncrossed (bs as_ : list Level) : Prop :=
  ∀ x y, x ∈ bs → y ∈ as_ → fltb (Price x) (Price y) = true.

(** The levels of a side whose quantities are [f] after the updates [us]. *)
Record sideAfter (less : levelNode → levelNode → bool) (f : float64 → option float64) (us full : list Level)
    : Prop := {
  after_asc : ascending less full;
  after_stored : Forall stored full;
  after_qty : ∀ p, qtyAt full p = setQtys f us p;
}.

Record book_ok (b : OrderBook) : Prop := {
  ok_bids : side bidLess (bids b);
  ok_asks : side askLess (asks b);
  ok_uncrossed : uncrossed (Bids b) (Asks b);
  ok_bids_bound : keepBest (limits b) (Bids b) = Bids b;
  ok_asks_bound : keepBest (limits b) (Asks b) = Asks b;
  ok_seq : 0 ≤ lastSeq b;
}.

Lemma keepBest_idem lim l : keepBest lim (keepBest lim l) = keepBest lim l.
Proof. unfold keepBest. destruct (IsBounded lim); [|done]. by rewrite take_take, Nat.min_id. Qed.
Lemma keepBest_nil lim : keepBest lim [] = [].
Proof. unfold keepBest. destruct (IsBounded lim); [|done]. by rewrite take_nil. Qed.

(** Pruning one tree. *)
Lemma pruned_tree less `{!PriceOrder less} d n (t : BTreeG levelNode) :
  side less t → 0 ≤ n →
  let t' := foldl (λ t node, ReplaceOrInsert node t) (NewG d less) (Ascend t (keepVisitor n) []) in
  side less t' ∧ items t' = take (Z.to_nat n) (items t).
Proof.
  intros [Hless Hasc Hst] Hn. unfold Ascend. rewrite keepVisitor_take by done. cbn [app length].
  rewrite Nat.sub_0_r.
  destruct (rebuild less (take (Z.to_nat n) (items t)) (NewG d less)) as [Hs Hit].
  - apply side_new.
  - rewrite items_new. by apply ascending_take.
  - by apply Forall_take.
  - split; [done|]. by rewrite Hit, items_new.
Qed.

Lemma Prune_spec s b :
  side bidLess (bids b) → side askLess (asks b) →
  let '(b', n) := Prune s b in
  side bidLess (bids b') ∧ side askLess (asks b') ∧
  items (bids b') = keepBest (limits b) (items (bids b)) ∧
  items (asks b') = keepBest (limits b) (items (asks b)) ∧
  n = Z.of_nat (length (items (bids b)) - length (items (bids b'))) +
      Z.of_nat (length (items (asks b)) - length (items (asks b'))) ∧
  (id b', lastSeq b', limits b', pruneStrategy b', state b', events b') =
  (id b, lastSeq b, limits b, pruneStrategy b, state b, events b).
Proof.
  intros Hb Ha. destruct s. unfold Prune, keepBest. destruct (IsBounded (limits b)) eqn:Hlim; cbn [negb].
  2: { rewrite !Nat.sub_diag. done. }
  unfold IsBounded in Hlim. reflect_bools.
  set (n := MaxLevelsPerSide (limits b)) in *.
  assert (∀ (t : BTreeG levelNode), TreeLen t <= n → take (Z.to_nat n) (items t) = items t) as Htake.
  { intros t. rewrite items_len. intros. apply take_ge. lia. }
  assert (∀ l : list Level, Z.of_nat (length l - length (take (Z.to_nat n) l)) =
          Z.of_nat (length l) - Z.of_nat (length (take (Z.to_nat n) l))) as Hlen.
  { intros l. rewrite length_take. lia. }
  destruct (pruned_tree bidLess orderBookBTreeDegree n (bids b) Hb ltac:(lia)) as [Hb' Hib].
  destruct (pruned_tree askLess orderBookBTreeDegree n (asks b) Ha ltac:(lia)) as [Ha' Hia].
  pose proof (Htake (bids b)) as Htb. pose proof (Htake (asks b)) as Hta.
  unfold pruneBidTree, pruneAskTree, newBidTree, newAskTree.
  destruct (Z.leb_spec (TreeLen (bids b)) n) as [Hlb|Hlb]; cbn [asks upd];
    destruct (Z.leb_spec (TreeLen (asks b)) n) as [Hla|Hla];
    cbn [bids asks limits id lastSeq pruneStrategy state events upd];
    (split_and!; [assumption|assumption|first [assumption|symmetry; auto]|first [assumption|symmetry; auto]| |reflexivity]);
    rewrite ?Hib, ?Hia, ?Hlen, ?items_len; unfold Ascend;
    rewrite ?keepVisitor_take by lia; cbn [app length]; rewrite ?Nat.sub_0_r; lia.
Qed.

Lemma head_elem {A} (l : list A) x : head l = Some x → x ∈ l.
Proof. destruct l; [done|]. intros [= ->]. by left. Qed.

(** The head of an ascending side is its best level. *)
Lemma head_least less (l : list Level) x y : ascending less l → head l = Some x → y ∈ l → y = x ∨ less x y = true.
Proof.
  intros Hl Hx. destruct l as [|z l]; [done|]. injection Hx as ->. inversion Hl as [|? ? _ Hall]; subst.
  intros [->|Hy]%elem_of_cons; [by left|right]. by eapply Forall_forall in Hall.
Qed.

Lemma checkSpread_spec b :
  side bidLess (bids b) → side askLess (asks b) →
  match checkSpread b with
  | None => uncrossed (items (bids b)) (items (asks b))
  | Some p => Code p = IntegrityViolation ∧
      ∃ x y, x ∈ items (bids b) ∧ y ∈ items (asks b) ∧ fltb (Price x) (Price y) = false
  end.
Proof.
  intros [_ Hba Hbs%stored_valid] [_ Haa Has%stored_valid]. unfold checkSpread, BestBid, BestAsk.
  rewrite !firstLevel_head. rewrite Forall_forall in Hbs, Has.
  destruct (head (items (bids b))) as [x|] eqn:Hx.
  2: { destruct (items (bids b)); [|done]. by intros ? ? ?%elem_of_nil. }
  destruct (head (items (asks b))) as [y|] eqn:Hy.
  2: { destruct (items (asks b)); [|done]. by intros ? ? _ ?%elem_of_nil. }
  pose proof (head_elem _ _ Hx) as Hxin. pose proof (head_elem _ _ Hy) as Hyin.
  rewrite fleb_ltb by (apply validPrice_not_nan; first [by apply Hbs|by apply Has]).
  destruct (fltb (Price x) (Price y)) eqn:Hlt; cbn [negb]; [|eauto 10].
  intros x' y' Hx' Hy'.
  assert (fltb (Price x') (Price y) = true) as Hx'y.
  { destruct (head_least _ _ x x' Hba Hx Hx') as [->|Hl]; [done|]. unfold bidLess in Hl. by eapply fltb_trans. }
  destruct (head_least _ _ y y' Haa Hy Hy') as [->|Hl]; [done|]. unfold askLess in Hl. by eapply fltb_trans.
Qed.

(** An update that passes the guards of [applyDelta]. *)
Definition acceptable (b : OrderBook) (seq : Z) (bu au : list Level) (snap : bool) : Prop :=
  0 < seq ∧ (snap = false → lastSeq b < seq) ∧ Forall validLevel bu ∧ Forall validLevel au.

#[export] Instance acceptable_dec b seq bu au snap : Decision (acceptable b seq bu au snap).
Proof. unfold acceptable. destruct snap; apply _. Defined.

(** The book just before the crossed-book check. *)
Definition merged (bu au : list Level) (snap : bool) (b : OrderBook) : OrderBook :=
  let b := if snap then b <| bids := newBidTree |> <| asks := newAskTree |> else b in
  let b := b <| bids ::= λ t, applySideUpdates t bu |> in
  let b := b <| asks ::= λ t, applySideUpdates t au |> in
  let '(b', pruned) := Prune (pruneStrategy b) b in b' <| lastPrunedLevels := pruned |>.

Definition crossedBook (seq : Z) (p : Problem) (b : OrderBook) : OrderBook :=
  b <| state := NeedsResync |> <| lastSeq := seq |>
    <| events ::= λ evs, evs ++ [EvInconsistent (MkInconsistent (ID b) seq (Message p))] |>
    <| bids := newBidTree |> <| asks := newAskTree |>.

Lemma applyDelta_refused b seq bu au snap :
  ¬ acceptable b seq bu au snap →
  ∃ p, applyDelta seq bu au snap b = (b, inl p) ∧
    Code p = if (0 <? seq) && (seq <=? lastSeq b) && negb snap then OutOfOrder else ValidationFailed.
Proof.
  intros Hno. unfold applyDelta. unfold mbind, Meth_bind, check at 1.
  unfold PositiveInt. destruct (Z.leb_spec seq 0) as [Hs|Hs].
  { eexists. split; [done|]. by rewrite (proj2 (Z.ltb_ge _ _)). }
  rewrite (proj2 (Z.ltb_lt _ _)) by done. cbn [recv fail_if andb].
  destruct ((seq <=? lastSeq b) && negb snap) eqn:Hst; [by eexists|].
  unfold check.
  pose proof (validateLevels_none "bid" bu 0) as Hb. pose proof (validateLevels_validates "bid" bu 0) as Hbv.
  destruct (validateLevels "bid" 0 bu) as [p|]; [eexists; split; [done|by apply Hbv]|].
  pose proof (validateLevels_none "ask" au 0) as Ha. pose proof (validateLevels_validates "ask" au 0) as Hav.
  destruct (validateLevels "ask" 0 au) as [p|]; [eexists; split; [done|by apply Hav]|].
  exfalso. apply Hno. split_and!; [done| |by apply Hb|by apply Ha].
  intros ->. rewrite andb_true_r in Hst. by apply Z.leb_gt.
Qed.

Lemma applyDelta_accepted b seq bu au snap :
  acceptable b seq bu au snap →
  let b1 := merged bu au snap b in
  applyDelta seq bu au snap b =
    match checkSpread b1 with
    | Some p => (crossedBook seq p b1, inl p)
    | None => (b1 <| state := Healthy |> <| lastSeq := seq |>, inr tt)
    end.
Proof.
  intros (Hseq & Hmono & Hb & Ha) b1. unfold applyDelta. unfold mbind, Meth_bind, check.
  unfold PositiveInt. rewrite (proj2 (Z.leb_gt _ _)) by done. cbn [recv fail_if].
  assert ((seq <=? lastSeq b) && negb snap = false) as ->.
  { destruct snap; [by rewrite andb_false_r|]. rewrite (proj2 (Z.leb_gt _ _)); auto. }
  rewrite (proj2 (validateLevels_none "bid" bu 0)), (proj2 (validateLevels_none "ask" au 0)) by done.
  subst b1. unfold merged. destruct snap; unfold assign, mret, Meth_ret, recv.
  all: match goal with |- context [Prune ?s ?x] => destruct (Prune s x) as [b' n] end.
  all: by destruct (checkSpread _).
Qed.

(** The quantities a delta starts from; a snapshot starts from an empty book. *)
Definition startQty (snap : bool) (l : list Level) : float64 → option float64 :=
  if snap then λ _, None else qtyAt l.

Lemma updated_side less `{!PriceOrder less} t us :
  side less t → Forall validLevel us →
  side less (applySideUpdates t us) ∧ sideAfter less (qtyAt (items t)) us (items (applySideUpdates t us)).
Proof.
  intros Ht Hus. destruct (side_updates less us t Ht Hus) as [Hs Hq]. split; [done|].
  destruct Hs. by split.
Qed.

Lemma updated_new less `{!PriceOrder less} d us :
  Forall validLevel us →
  side less (applySideUpdates (NewG d less) us) ∧
  sideAfter less (λ _, None) us (items (applySideUpdates (NewG d less) us)).
Proof.
  intros Hus. destruct (updated_side less (NewG d less) us (side_new less d) Hus) as [Hs [Ha Hst Hq]].
  split; [done|]. split; [done|done|]. intros p. rewrite Hq, items_new. done.
Qed.

Lemma merged_spec b bu au snap :
  book_ok b → Forall validLevel bu → Forall validLevel au →
  let b1 := merged bu au snap b in
  side bidLess (bids b1) ∧ side askLess (asks b1) ∧
  (id b1, lastSeq b1, limits b1, state b1, events b1) = (id b, lastSeq b, limits b, state b, events b) ∧
  ∃ fullB fullA,
    sideAfter bidLess (startQty snap (Bids b)) bu fullB ∧ sideAfter askLess (startQty snap (Asks b)) au fullA ∧
    items (bids b1) = keepBest (limits b) fullB ∧ items (asks b1) = keepBest (limits b) fullA ∧
    lastPrunedLevels b1 = Z.of_nat (length fullB - length (items (bids b1))) +
                          Z.of_nat (length fullA - length (items (asks b1))).
Proof.
  intros [Hb Ha _ _ _ _] Hbu Hau. unfold merged, Bids, Asks. rewrite !levelsFromTree_items.
  set (b0 := if snap then b <| bids := newBidTree |> <| asks := newAskTree |> else b).
  set (b2 := b0 <| bids ::= λ t, applySideUpdates t bu |> <| asks ::= λ t, applySideUpdates t au |>).
  assert (side bidLess (bids b2) ∧ sideAfter bidLess (startQty snap (items (bids b))) bu (items (bids b2)))
    as [Hb2 HB].
  { unfold b2, b0. destruct snap; [by apply (updated_new bidLess)|by apply (updated_side bidLess)]. }
  assert (side askLess (asks b2) ∧ sideAfter askLess (startQty snap (items (asks b))) au (items (asks b2)))
    as [Ha2 HA].
  { unfold b2, b0. destruct snap; [by apply (updated_new askLess)|by apply (updated_side askLess)]. }
  assert ((id b2, lastSeq b2, limits b2, state b2, events b2) = (id b, lastSeq b, limits b, state b, events b)) as Hrest
    by (unfold b2, b0; by destruct snap).
  fold b2. clearbody b2. clear b0.
  pose proof (Prune_spec (pruneStrategy b2) b2 Hb2 Ha2) as HP.
  destruct (Prune (pruneStrategy b2) b2) as [b3 n]. destruct HP as (H1 & H2 & H3 & H4 & H5 & H6).
  cbn [bids asks id lastSeq limits state events lastPrunedLevels upd].
  assert (limits b2 = limits b) as Hlim by congruence. rewrite Hlim in *.
  split_and!; [done|done|congruence|]. by exists (items (bids b2)), (items (asks b2)).
Qed.

Lemma side_bounds b bs as_ :
  Bids b = keepBest (limits b) bs → Asks b = keepBest (limits b) as_ →
  keepBest (limits b) (Bids b) = Bids b ∧ keepBest (limits b) (Asks b) = Asks b.
Proof. intros -> ->. by rewrite !keepBest_idem. Qed.

Lemma empty_book_ok b :
  bids b = newBidTree → asks b = newAskTree → 0 ≤ lastSeq b → book_ok b ∧ Bids b = [] ∧ Asks b = [].
Proof.
  intros Hb Ha Hseq. assert (Bids b = []) as HB
    by (unfold Bids; rewrite levelsFromTree_items, Hb; apply items_new).
  assert (Asks b = []) as HA by (unfold Asks; rewrite levelsFromTree_items, Ha; apply items_new).
  split; [|done]. split; rewrite ?HB, ?HA, ?Hb, ?Ha, ?keepBest_nil; try done; try apply side_new; try apply _.
  by intros ? ? ?%elem_of_nil.
Qed.

(** The outcome of an accepted update, in terms of the quantity maps. *)
Lemma applyDelta_outcome b seq bu au snap :
  book_ok b → acceptable b seq bu au snap →
  ∃ fullB fullA b' r,
    sideAfter bidLess (startQty snap (Bids b)) bu fullB ∧
    sideAfter askLess (startQty snap (Asks b)) au fullA ∧
    let B := keepBest (limits b) fullB in
    let A := keepBest (limits b) fullA in
    applyDelta seq bu au snap b = (b', r) ∧ book_ok b' ∧ lastSeq b' = seq ∧
    limits b' = limits b ∧ id b' = id b ∧
    lastPrunedLevels b' = Z.of_nat (length fullB - length B) + Z.of_nat (length fullA - length A) ∧
    match r with
    | inr _ => uncrossed B A ∧ Bids b' = B ∧ Asks b' = A ∧ state b' = Healthy ∧ events b' = events b
    | inl p => (∃ x y, x ∈ B ∧ y ∈ A ∧ fltb (Price x) (Price y) = false) ∧ Code p = IntegrityViolation ∧
        Bids b' = [] ∧ Asks b' = [] ∧ state b' = NeedsResync ∧
        events b' = events b ++ [EvInconsistent (MkInconsistent (id b) seq (Message p))]
    end.
Proof.
  intros Hok Hacc. rewrite (applyDelta_accepted b seq bu au snap Hacc).
  destruct Hacc as (Hseq & _ & Hbu & Hau).
  destruct (merged_spec b bu au snap Hok Hbu Hau) as (Hb & Ha & Hrest & fullB & fullA & HB & HA & Hib & Hia & Hn).
  set (b1 := merged bu au snap b) in *. clearbody b1.
  pose proof (checkSpread_spec b1 Hb Ha) as Hcs. exists fullB, fullA.
  assert (id b1 = id b ∧ limits b1 = limits b ∧ events b1 = events b) as (Hid & Hlim & Hev) by (split_and!; congruence).
  destruct (checkSpread b1) as [p|]; eexists _, _; (split; [exact HB|]); (split; [exact HA|]); cbn zeta;
    (split; [reflexivity|]).
  - destruct Hcs as [Hcode Hcross]. destruct (empty_book_ok (crossedBook seq p b1)) as (? & ? & ?); [done|done|cbn; lia|].
    rewrite Hib, Hia in Hcross. split_and!; try done.
    + cbn. by rewrite Hn, Hib, Hia.
    + cbn. unfold ID. by rewrite Hev, Hid.
  - set (b' := b1 <| state := Healthy |> <| lastSeq := seq |>).
    assert (Bids b' = keepBest (limits b') fullB) as HBids
      by (unfold Bids; rewrite levelsFromTree_items; cbn; by rewrite Hlim).
    assert (Asks b' = keepBest (limits b') fullA) as HAsks
      by (unfold Asks; rewrite levelsFromTree_items; cbn; by rewrite Hlim).
    destruct (side_bounds b' _ _ HBids HAsks) as [HkB HkA].
    change (limits b') with (limits b1) in HBids, HAsks. rewrite Hlim in HBids, HAsks.
    rewrite Hib, Hia in Hcs. split_and!; try done; [|cbn; by rewrite Hn, Hib, Hia].
    split; [done|done|by rewrite HBids, HAsks|done|done|cbn; lia].
Qed.

(** ** Histories of a book *)

Inductive book_op :=
| BDelta (seq : Z) (bu au : list Level)
| BSnapshot (seq : Z) (bu au : list Level)
| BPull.

Definition book_step (op : book_op) (b : OrderBook) : OrderBook :=
  match op with
  | BDelta seq bu au => (ApplyDelta seq bu au b).1
  | BSnapshot seq bu au => (ApplySnapshot seq bu au b).1
  | BPull => (PullDomainEvents b).1
  end.

Lemma applyDelta_ok b seq bu au snap :
  book_ok b →
  book_ok (applyDelta seq bu au snap b).1 ∧ limits (applyDelta seq bu au snap b).1 = limits b.
Proof.
  intros Hok. destruct (decide (acceptable b seq bu au snap)) as [Hacc|Hno].
  - destruct (applyDelta_outcome b seq bu au snap Hok Hacc) as (? & ? & b' & r & _ & _ & -> & ? & _ & ? & _). done.
  - destruct (applyDelta_refused b seq bu au snap Hno) as (p & -> & _). done.
Qed.

Lemma book_step_ok op b : book_ok b → book_ok (book_step op b) ∧ limits (book_step op b) = limits b.
Proof.
  intros Hok. destruct op as [seq bu au|seq bu au|]; [by apply applyDelta_ok..|].
  split; [|done]. destruct Hok. by split.
Qed.

Lemma book_run_ok ops : ∀ b,
  book_ok b → book_ok (foldl (flip book_step) b ops) ∧ limits (foldl (flip book_step) b ops) = limits b.
Proof.
  induction ops as [|op ops IH]; intros b Hok; cbn; [done|].
  destruct (book_step_ok op b Hok) as [Hok' <-]. by apply IH.
Qed.

Lemma New_book_ok venue instrument maxLevels b :
  NewOrderBookWithMaxLevels venue instrument maxLevels = inr b →
  book_ok b ∧ limits b = MkLimits maxLevels ∧ 0 ≤ maxLevels.
Proof.
  unfold NewOrderBookWithMaxLevels, NewBTreeOrderBook, NewOrderBookLimitsPolicy.
  destruct (Collect _); [done|]. destruct (Z.ltb_spec maxLevels 0); [done|].
  intros [= <-]. split; [|done]. by apply empty_book_ok.
Qed.

Lemma keepBest_length lim l :
  keepBest lim l = l → 0 < MaxLevelsPerSide lim → Z.of_nat (length l) ≤ MaxLevelsPerSide lim.
Proof.
  unfold keepBest, IsBounded. intros Hk Hpos. rewrite (proj2 (Z.ltb_lt _ _)) in Hk by done.
  apply (f_equal length) in Hk. rewrite length_take in Hk. lia.
Qed.

(** A side of stored levels is its own quantity map, replayed on an empty side. *)
Lemma replay_side less `{!PriceOrder less} l full :
  ascending less l → Forall stored l → sideAfter less (λ _, None) l full → full = l.
Proof.
  intros Hasc Hst [Ha Hs Hq].
  destruct (updated_new less 16 l (stored_valid l Hst)) as [_ [_ _ Hq']].
  assert (items (applySideUpdates (NewG 16 less) l) = l) as Hl.
  { rewrite updates_insert by done.
    destruct (rebuild less l (NewG 16 less)) as [_ Hr]; [apply side_new|by rewrite items_new|done|].
    rewrite Hr, items_new. done. }
  apply (ascending_unique less); [done|done|by apply stored_valid|by apply stored_valid|].
  intros p. rewrite Hq, <- Hq', Hl. done.
Qed.

(** ** Theorems *)

(** The invariants of the aggregate hold in every reachable book. Whatever
    sequence of deltas, snapshots and event pulls a new book receives, valid or
    not, bids strictly descend and asks strictly ascend in price, every level has
    a strictly positive finite price and quantity, every bid is below every ask,
    each side is within the level bound, and the sequence is non-negative. *)
Theorem reachable_book_is_consistent venue instrument maxLevels b0 ops :
  NewOrderBookWithMaxLevels venue instrument maxLevels = inr b0 →
  let b := foldl (flip book_step) b0 ops in
  ascending bidLess (Bids b) ∧ ascending askLess (Asks b) ∧
  Forall stored (Bids b ++ Asks b) ∧ uncrossed (Bids b) (Asks b) ∧ 0 ≤ LastSeq b ∧
  (0 < maxLevels →
     Z.of_nat (length (Bids b)) ≤ maxLevels ∧ Z.of_nat (length (Asks b)) ≤ maxLevels).
Proof.
  intros (Hok0 & Hlim0 & _)%New_book_ok b.
  destruct (book_run_ok ops b0 Hok0) as [Hok Hlim]. fold b in Hok, Hlim. clearbody b.
  destruct Hok as [[_ Hb Hbs] [_ Ha Has] Hun HkB HkA Hseq].
  rewrite Hlim, Hlim0 in *. unfold Bids, Asks in *. rewrite !levelsFromTree_items in *.
  split_and!; try done; [by apply Forall_app|]. intros Hpos. split; by apply (keepBest_length (MkLimits maxLevels)).
Qed.

(** C4: an update is what it says on the price-to-quantity maps. In a consistent
    book an update with a non-positive sequence, an invalid level, or (for a
    delta) a sequence not above the last is refused and changes nothing. Any
    other sets each named price to its last named quantity (zero removes it; a
    snapshot starts from nothing), keeps the best levels of each side and
    succeeds, unless the result is crossed: then the book is emptied, marked for
    resync, its sequence still advances and an inconsistency event is queued. *)
Theorem update_refines_price_map b seq bu au snap :
  book_ok b →
  match decide (acceptable b seq bu au snap) with
  | right _ => ∃ p, applyDelta seq bu au snap b = (b, inl p) ∧
      Code p = if (0 <? seq) && (seq <=? lastSeq b) && negb snap then OutOfOrder else ValidationFailed
  | left _ => ∃ fullB fullA b' r,
      sideAfter bidLess (startQty snap (Bids b)) bu fullB ∧
      sideAfter askLess (startQty snap (Asks b)) au fullA ∧
      let B := keepBest (limits b) fullB in
      let A := keepBest (limits b) fullA in
      applyDelta seq bu au snap b = (b', r) ∧ lastSeq b' = seq ∧ id b' = id b ∧
      lastPrunedLevels b' = Z.of_nat (length fullB - length B) + Z.of_nat (length fullA - length A) ∧
      match r with
      | inr _ => uncrossed B A ∧ Bids b' = B ∧ Asks b' = A ∧ state b' = Healthy ∧ events b' = events b
      | inl p => (∃ x y, x ∈ B ∧ y ∈ A ∧ fltb (Price x) (Price y) = false) ∧ Code p = IntegrityViolation ∧
          Bids b' = [] ∧ Asks b' = [] ∧ state b' = NeedsResync ∧
          events b' = events b ++ [EvInconsistent (MkInconsistent (id b) seq (Message p))]
      end
  end.
Proof.
  intros Hok. destruct (decide (acceptable b seq bu au snap)) as [Hacc|Hno]; [|by apply applyDelta_refused].
  destruct (applyDelta_outcome b seq bu au snap Hok Hacc)
    as (fullB & fullA & b' & r & HB & HA & H1 & _ & H2 & _ & H3 & H4 & H5).
  by exists fullB, fullA, b', r.
Qed.

(** C36: a snapshot round-trips. The snapshot of a consistent book, applied to
    any consistent book with the same level bound, succeeds and reproduces the
    levels of both sides, the sequence and the checksum it carries. *)
Theorem snapshot_replay_roundtrip b b0 :
  book_ok b → 0 < LastSeq b → book_ok b0 → limits b0 = limits b →
  let s := NewSnapshotProduced b in
  ∃ b', ApplySnapshot (snap_Seq s) (snap_Bids s) (snap_Asks s) b0 = (b', inr tt) ∧
    Bids b' = Bids b ∧ Asks b' = Asks b ∧ LastSeq b' = LastSeq b ∧ Checksum b' = snap_Checksum s.
Proof.
  intros [Hb Ha Hun HkB HkA _] Hseq Hok0 Hlim s.
  assert (Bids b = items (bids b)) as HBi by apply levelsFromTree_items.
  assert (Asks b = items (asks b)) as HAi by apply levelsFromTree_items.
  destruct Hb as [_ Hba Hbs], Ha as [_ Haa Has]. rewrite <- HBi in Hba, Hbs. rewrite <- HAi in Haa, Has.
  assert (acceptable b0 (LastSeq b) (Bids b) (Asks b) true) as Hacc
    by (split_and!; [done|done|by apply stored_valid|by apply stored_valid]).
  destruct (applyDelta_outcome b0 _ _ _ true Hok0 Hacc)
    as (fullB & fullA & b' & r & HB & HA & Hrun & _ & Hs & _ & _ & _ & Hr).
  cbn [startQty] in HB, HA. 
  assert (fullB = Bids b) as -> by (by apply (replay_side bidLess)).
  assert (fullA = Asks b) as -> by (by apply (replay_side askLess)).
  rewrite Hlim, HkB, HkA in Hr.
  destruct r as [p|[]]; [destruct Hr as ((x & y & Hx & Hy & Hxy) & _); by rewrite (Hun x y) in Hxy|].
  destruct Hr as (_ & HB' & HA' & _). exists b'. split; [exact Hrun|].
  split_and!; [done|done|done|]. unfold Checksum. by rewrite HB', HA'.
Qed.

(** One side of a capped snapshot. *)
Definition capped (depthCap : Z) (l : list Level) : list Level :=
  if depthCap <=? 0 then l else capLevels l depthCap.

Lemma capped_take depthCap l :
  capped depthCap l = if 0 <? depthCap then take (Z.to_nat depthCap) l else l.
Proof.
  unfold capped, capLevels. destruct (Z.leb_spec depthCap 0) as [Hc|Hc].
  - by rewrite (proj2 (Z.ltb_ge _ _)).
  - rewrite (proj2 (Z.ltb_lt _ _)) by done. cbn [orb].
    destruct (Z.leb_spec (Z.of_nat (length l)) depthCap); [|done]. symmetry. apply take_ge. lia.
Qed.
Lemma capped_best depthCap l :
  match capped depthCap l with [] => f0 | x :: _ => Price x end = match l with [] => f0 | x :: _ => Price x end.
Proof.
  rewrite capped_take. destruct (Z.ltb_spec 0 depthCap) as [Hc|Hc]; [|done].
  destruct l; [by rewrite take_nil|]. by replace (Z.to_nat depthCap) with (S (Z.to_nat depthCap - 1)) by lia.
Qed.

(** [Capped] on a snapshot that carries its version and counts. *)
Lemma Capped_counted s depthCap ts :
  Version s = 2 → BidCount s = Z.of_nat (length (snap_Bids s)) → AskCount s = Z.of_nat (length (snap_Asks s)) →
  let B := capped depthCap (snap_Bids s) in
  let A := capped depthCap (snap_Asks s) in
  Capped s depthCap ts =
  MkSnapshot (snap_BookID s) (snap_Seq s) B A (snapshotBestBid B) (snapshotBestAsk A)
    (spreadBPSFromBest (snapshotBestBid B) (snapshotBestAsk A)) (snap_Checksum s) ts
    (BidCount s) (AskCount s) (if depthCap <=? 0 then 0 else depthCap) (Version s).
Proof.
  destruct s as [sid seq B A bb ba sp ck t bc ac dc v]. cbn. intros -> -> ->. unfold Capped, capped.
  destruct (depthCap <=? 0); [cbn|cbn -[capLevels]];
    destruct (Z.of_nat (length B) <=? 0), (Z.of_nat (length A) <=? 0) eqn:HA;
    first [reflexivity|cbn -[capLevels]; rewrite HA; reflexivity].
Qed.

(** The best levels of a side: all of them when the cap is not positive. *)
Definition topLevels (depthCap : Z) (l : list Level) : list Level :=
  if 0 <? depthCap then take (Z.to_nat depthCap) l else l.

(** Capping the depth loses nothing that is published about the top of the
    book. The capped snapshot of a book keeps its identity, sequence, checksum,
    full level counts, best prices and spread; each side is the best prefix of
    the full side, of length at most the cap. *)
Theorem Capped_keeps_top_of_book b depthCap ts :
  let s := NewSnapshotProduced b in
  let c := Capped s depthCap ts in
  snap_BookID c = ID b ∧ snap_Seq c = LastSeq b ∧ snap_Checksum c = Checksum b ∧ TsIngestMs c = ts ∧
  BidCount c = Z.of_nat (length (Bids b)) ∧ AskCount c = Z.of_nat (length (Asks b)) ∧
  BestBidPrice c = BestBidPrice s ∧ BestAskPrice c = BestAskPrice s ∧ SpreadBPS c = SpreadBPS s ∧
  snap_Bids c = topLevels depthCap (Bids b) ∧ snap_Asks c = topLevels depthCap (Asks b).
Proof.
  intros s c. subst c s. rewrite Capped_counted by done.
  unfold NewSnapshotProduced; cbn [snap_BookID snap_Seq snap_Bids snap_Asks BestBidPrice BestAskPrice
    SpreadBPS snap_Checksum TsIngestMs BidCount AskCount DepthCap Version].
  assert (∀ l : list Level, capped depthCap l = topLevels depthCap l) as Hcap by (intros l; apply capped_take).
  unfold snapshotBestBid, snapshotBestAsk. rewrite !capped_best. by rewrite !Hcap.
Qed.

(** A crossed book heals without a snapshot. After an update that crossed the
    book, the next valid one-sided delta with a later sequence succeeds and
    marks the book healthy, although it then holds only the levels of that delta. *)
Theorem delta_heals_crossed_book b seq bu au snap b1 p seq' bu' :
  book_ok b → acceptable b seq bu au snap → applyDelta seq bu au snap b = (b1, inl p) →
  seq < seq' → Forall validLevel bu' →
  ∃ b2, ApplyDelta seq' bu' [] b1 = (b2, inr tt) ∧ needsResync b1 = true ∧ IsHealthy b2 = true ∧
    Asks b2 = [] ∧
    ∃ full, sideAfter bidLess (λ _, None) bu' full ∧ Bids b2 = keepBest (limits b) full.
Proof.
  intros Hok Hacc Hrun Hseq Hbu'. pose proof Hacc as (Hpos & _).
  destruct (applyDelta_outcome b seq bu au snap Hok Hacc)
    as (? & ? & b1' & r & _ & _ & Hrun' & Hok1 & Hs1 & Hlim1 & _ & _ & Hr).
  rewrite Hrun in Hrun'. injection Hrun' as <- <-. destruct Hr as (_ & _ & HB1 & HA1 & Hst1 & _).
  assert (acceptable b1 seq' bu' [] false) as Hacc'
    by (split_and!; [lia|intros _; lia|done|apply Forall_nil_2]).
  destruct (applyDelta_outcome b1 seq' bu' [] false Hok1 Hacc')
    as (fullB & fullA & b2 & r2 & HB & HA & Hrun2 & _ & _ & _ & _ & _ & Hr2).
  cbn [startQty] in HB, HA. rewrite HB1 in HB. rewrite HA1 in HA.
  assert (fullA = []) as -> by (by apply (replay_side askLess [] fullA); [constructor|apply Forall_nil_2|]).
  rewrite keepBest_nil, Hlim1 in Hr2.
  destruct r2 as [p2|[]]; [destruct Hr2 as ((x2 & y2 & _ & Hy & _) & _); by apply elem_of_nil in Hy|].
  destruct Hr2 as (_ & HB2 & HA2 & Hst2 & _). exists b2. split; [exact Hrun2|].
  unfold needsResync, IsHealthy. rewrite Hst1, Hst2. split_and!; try done. exists fullB. done.
Qed.
End book_spec.

(** ** Witnesses: two bids and an ask, then a crossing ask *)

Definition lv (p q : Z) : Level := MkLevel (f_of_Z p) (f_of_Z q).

Definition emptyBook : OrderBook (BT:=sortedBTree) :=
  MkOrderBook (BT:=sortedBTree) (MkBookID "BINANCE" "BTCUSDT") 0 (newBidTree (BT:=sortedBTree))
    (newAskTree (BT:=sortedBTree)) (MkLimits 2) FurthestFromMidPruneStrategy 0 Healthy [].
Definition smallBook : OrderBook (BT:=sortedBTree) :=
  book_step (BT:=sortedBTree) (BDelta 1 [lv 99 1; lv 98 2; lv 97 3] [lv 101 1]) emptyBook.

Lemma smallBook_ok : book_ok (BT:=sortedBTree) smallBook.
Proof. apply book_step_ok. by apply empty_book_ok. Qed.

Ltac solve_levels := repeat apply Forall_cons_2; [..|apply Forall_nil_2]; vm_compute; split; reflexivity.

Lemma reachable_book_is_consistent_witness :
  let b := foldl (flip (book_step (BT:=sortedBTree))) emptyBook
             [BDelta 1 [lv 99 1; lv 98 2; lv 97 3] [lv 101 1]; BDelta 2 [lv 102 1] []; BPull] in
  0 ≤ LastSeq b ∧ LastSeq b = 2 ∧ Bids b = [].
Proof.
  pose proof (reachable_book_is_consistent (GR:=go_amd64) (BT:=sortedBTree) "BINANCE" "BTCUSDT" 2 emptyBook
    [BDelta 1 [lv 99 1; lv 98 2; lv 97 3] [lv 101 1]; BDelta 2 [lv 102 1] []; BPull] eq_refl) as H.
  destruct H as (_ & _ & _ & _ & H & _). split; [exact H|]. split; vm_compute; reflexivity.
Defined.

Lemma update_refines_price_map_witness :
  ∃ fullB fullA b' r,
    sideAfter bidLess (qtyAt (Bids smallBook)) [lv 99 0] fullB ∧
    sideAfter askLess (qtyAt (Asks smallBook)) [lv 100 5] fullA ∧
    applyDelta (BT:=sortedBTree) 2 [lv 99 0] [lv 100 5] false smallBook = (b', r) ∧
    Bids b' = [lv 98 2] ∧ lastSeq b' = 2.
Proof.
  pose proof (update_refines_price_map (BT:=sortedBTree) smallBook 2 [lv 99 0] [lv 100 5] false
    smallBook_ok) as H.
  destruct (decide _) as [Hacc|Hno].
  - destruct H as (fullB & fullA & b' & r & HB & HA & Hrun & Hseq & _). exists fullB, fullA, b', r.
    split; [exact HB|]. split; [exact HA|]. split; [exact Hrun|].
    vm_compute in Hrun. injection Hrun as <- <-. split; reflexivity.
  - exfalso. apply Hno. split; [reflexivity|]. split; [intros _; reflexivity|]. split; solve_levels.
Defined.

Lemma snapshot_replay_roundtrip_witness :
  ∃ b', ApplySnapshot 1 (Bids smallBook) (Asks smallBook) emptyBook = (b', inr tt) ∧
    Checksum (GR:=go_amd64) b' = Checksum (GR:=go_amd64) smallBook.
Proof.
  destruct (snapshot_replay_roundtrip (GR:=go_amd64) (BT:=sortedBTree) smallBook emptyBook)
    as (b' & Hrun & _ & _ & _ & Hck).
  - exact smallBook_ok.
  - reflexivity.
  - apply empty_book_ok; [reflexivity..|discriminate].
  - reflexivity.
  - exists b'. split; [exact Hrun|exact Hck].
Defined.

Lemma delta_heals_crossed_book_witness :
  let b1 := (applyDelta (BT:=sortedBTree) 2 [lv 102 1] [] false smallBook).1 in
  ∃ b2, ApplyDelta (BT:=sortedBTree) 3 [lv 50 1] [] b1 = (b2, inr tt) ∧
    needsResync b1 = true ∧ IsHealthy b2 = true ∧ Asks b2 = [].
Proof.
  intros b1. destruct (delta_heals_crossed_book (BT:=sortedBTree) smallBook 2 [lv 102 1] [] false b1
    (with_detail (with_detail
      (Newf IntegrityViolation "crossed book: best bid %.8f >= best ask %.8f"
        [AnyFloat (f_of_Z 102); AnyFloat (f_of_Z 101)])
      "best_bid" (AnyFloat (f_of_Z 102))) "best_ask" (AnyFloat (f_of_Z 101))) 3 [lv 50 1])
    as (b2 & Hrun & Hn & Hh & Ha & _).
  - exact smallBook_ok.
  - split; [reflexivity|]. split; [intros _; reflexivity|]. split; [solve_levels|apply Forall_nil_2].
  - vm_compute. reflexivity.
  - reflexivity.
  - solve_levels.
  - exists b2. split; [exact Hrun|]. split; [exact Hn|]. split; [exact Hh|exact Ha].
Defined.
