(* ===== verification/Fusion.v ===== *)
(** * Fusion: internal/core/aggregation/domain/fusion.go, fusion_engine.go,
      cross_venue_book.go, grouped_book.go

    The multi-venue views of the order books: fused depth, which adds up the
    sizes of all venues at a price in fixed point, the cross-venue top of book,
    and the grouping of one book's levels into price buckets. The functions are
    pure; Go's map of venue timestamps is ranged in any order, and the sorts are
    unstable ([GoRuntime]). *)

From S2P Require Import Prelude GoRuntime Shared OrderBook.

Local Open Scope string_scope.
Local Open Scope list_scope.
Local Open Scope Z_scope.

(** ** fusion.go *)

Definition FusionMode : Type := string.
Definition FusionSingleVenue : FusionMode := "single".
Definition FusionWeighted : FusionMode := "weighted".
Definition FusionMerge : FusionMode := "merge".
Definition ValidFusionMode (m : FusionMode) : bool :=
  bool_decide (m ∈ [FusionSingleVenue; FusionWeighted; FusionMerge]).

Definition FusedDepthMaxLevels : Z := 50.
Definition FusedSourceMixMaxLen : Z := 8.
Definition FusedFeatureTagMaxLen : Z := 10.

Record SourceEntry := MkSourceEntry {
  se_Venue : string; WeightPct : float64; LastSeenMs : Z; IsStale : bool;
}.
#[export] Instance SourceEntry_eta : Eta SourceEntry := λ r,
  MkSourceEntry (se_Venue r) (WeightPct r) (LastSeenMs r) (IsStale r).

Record StalenessReport := MkStalenessReport {
  FreshCount : Z; StaleCount : Z; OldestMs : Z; NewestMs : Z;
}.
#[export] Instance StalenessReport_eta : Eta StalenessReport := λ r,
  MkStalenessReport (FreshCount r) (StaleCount r) (OldestMs r) (NewestMs r).

Record FusionMeta := MkFusionMeta {
  meta_Reason : string;
  Confidence : float64;
  SourceMix : list SourceEntry;
  Staleness : StalenessReport;
  FeatureTags : list string;
}.

Record FusedLevel := MkFusedLevel { PriceFP : Z; SizeFP : Z; Venues : list string }.

Record FusedDepthSnapshotV1 := MkFusedDepth {
  fd_Instrument : string;
  fd_TsServerMs : Z;
  Mode : FusionMode;
  fd_Bids : list FusedLevel;
  fd_Asks : list FusedLevel;
  SourceVenues : list string;
  GlobalSpreadBPS : float64;
  fd_Meta : FusionMeta;
}.

(** [slices.IsSorted] on strings *)
Fixpoint IsSorted (l : list string) : bool :=
  match l with
  | a :: (b :: _) as rest => negb (str_ltb b a) && IsSorted rest
  | _ => true
  end.
(** [slices.Compact]: of equal neighbours, the first is kept. *)
Fixpoint Compact (l : list string) : list string :=
  match l with
  | a :: (b :: _) as rest => if str_eqb a b then Compact rest else a :: Compact rest
  | _ => l
  end.

Section fusion.
Context {GR : GoRuntime}.

Definition rejected (msg : string) : option Problem := Some (New ValidationFailed msg).

Definition FusionMeta_Validate (m : FusionMeta) : option Problem :=
  if str_eqb (TrimSpace (meta_Reason m)) "" then rejected "fusion_meta reason must not be empty"
  else if negb (isFinite (Confidence m)) || fltb (Confidence m) f0 || fltb f1 (Confidence m)
       then rejected "fusion_meta confidence must be in [0,1]"
  else if Z.of_nat (length (SourceMix m)) =? 0 then rejected "fusion_meta source_mix must not be empty"
  else if FusedSourceMixMaxLen <? Z.of_nat (length (SourceMix m))
       then rejected "fusion_meta source_mix exceeds max length"
  else if FusedFeatureTagMaxLen <? Z.of_nat (length (FeatureTags m))
       then rejected "fusion_meta feature_tags exceeds max length"
  else if negb (IsSorted (FeatureTags m)) then rejected "fusion_meta feature_tags must be sorted"
  else None.

Definition FusedDepth_Validate (s : FusedDepthSnapshotV1) : option Problem :=
  match Collect [NonEmptyString "instrument" (fd_Instrument s); PositiveInt "ts_server_ms" (fd_TsServerMs s)] with
  | Some p => Some p
  | None =>
      if negb (ValidFusionMode (Mode s)) then rejected "fused depth mode must be a recognized value"
      else if FusedDepthMaxLevels <? Z.of_nat (length (fd_Bids s)) then rejected "fused depth bids exceed max levels"
      else if FusedDepthMaxLevels <? Z.of_nat (length (fd_Asks s)) then rejected "fused depth asks exceed max levels"
      else if Z.of_nat (length (SourceVenues s)) =? 0 then rejected "fused depth source_venues must not be empty"
      else if negb (IsSorted (SourceVenues s)) then rejected "fused depth source_venues must be sorted"
      else FusionMeta_Validate (fd_Meta s)
  end.

(** [fresh++] over the sources that are not stale *)
Definition countFresh (sources : list SourceEntry) : Z :=
  foldl (λ fresh s, if IsStale s then fresh else fresh + 1) 0 sources.
Definition countStale (sources : list SourceEntry) : Z :=
  foldl (λ stale s, if IsStale s then stale + 1 else stale) 0 sources.

Definition DeriveFusionConfidence (sources : list SourceEntry) : float64 :=
  if Z.of_nat (length sources) =? 0 then f0 else
  let fresh := countFresh sources in
  let ratio := fdiv (f_of_Z fresh) (f_of_Z (Z.of_nat (length sources))) in
  let ratio := if fresh =? 1 then fmul ratio (flit 7 10) else ratio in
  if fltb f1 ratio then f1 else ratio.

Definition DeriveFeatureTags (confidence : float64) (sources : list SourceEntry) (divergenceBPS : float64)
    (depthCapped : bool) : list string :=
  let n := Z.of_nat (length sources) in
  let stale := countStale sources in
  let tags :=
    (if fleb (flit 9 10) confidence then ["high_confidence"] else []) ++
    (if fltb confidence (flit 1 2) then ["degraded"] else []) ++
    (if depthCapped then ["depth_capped"] else []) ++
    (if (0 <? stale) && (stale <? n) then ["partial_sources"] else []) ++
    (if n - stale =? 1 then ["single_source"] else []) ++
    (if fltb (f_of_Z 50) divergenceBPS then ["venue_divergent"] else []) in
  Compact (sort_slice str_ltb tags).

Definition BuildSourceMix (venues : gmap string Z) (nowMs staleThresholdMs : Z) : list SourceEntry :=
  let entries := (λ '(venue, lastSeen),
    MkSourceEntry venue f0 lastSeen (staleThresholdMs <? sub64 nowMs lastSeen)) <$> map_range venues in
  let entries := sort_slice (λ a b, str_ltb (se_Venue a) (se_Venue b)) entries in
  let fresh := countFresh entries in
  if 0 <? fresh then
    let w := fdiv (f_of_Z 100) (f_of_Z fresh) in
    (λ e, if IsStale e then e else e <| WeightPct := w |>) <$> entries
  else entries.

(** The loop of [BuildStalenessReport] from index [i]. *)
Fixpoint stalenessLoop (i : Z) (sources : list SourceEntry) (nowMs : Z) (report : StalenessReport)
    : StalenessReport :=
  match sources with
  | [] => report
  | s :: rest =>
      let age := sub64 nowMs (LastSeenMs s) in
      let report := if IsStale s then report <| StaleCount ::= Z.succ |> else report <| FreshCount ::= Z.succ |> in
      let report := if (i =? 0) || (OldestMs report <? age) then report <| OldestMs := age |> else report in
      let report := if (i =? 0) || (age <? NewestMs report) then report <| NewestMs := age |> else report in
      stalenessLoop (i + 1) rest nowMs report
  end.
Definition BuildStalenessReport (sources : list SourceEntry) (nowMs : Z) : StalenessReport :=
  stalenessLoop 0 sources nowMs (MkStalenessReport 0 0 0 0).

(** ** fusion_engine.go *)

Definition fusionFixedPointScale : float64 := f_of_Z 100000000.

Record FusionDepthInput := MkFusionDepthInput {
  fi_Venue : string; fi_TsIngestMs : Z; fi_Seq : Z; fi_Bids : list Level; fi_Asks : list Level;
}.

Definition fusionPriceToFP (price : float64) : Z :=
  i64_of_f (fadd (fmul price fusionFixedPointScale) (flit 1 2)).
Definition fusionQtyToFP (qty : float64) : Z :=
  i64_of_f (fadd (fmul qty fusionFixedPointScale) (flit 1 2)).

Definition validateFuseDepthArgs (instrument : string) (nowMs : Z) (mode : FusionMode) (staleThresholdMs : Z)
    : option Problem :=
  match Collect [NonEmptyString "instrument" instrument; PositiveInt "now_ms" nowMs] with
  | Some p => Some p
  | None =>
      if negb (ValidFusionMode mode) then rejected "fusion mode must be a recognized value"
      else if staleThresholdMs <=? 0 then rejected "stale_threshold_ms must be > 0"
      else None
  end.

(** One pass of the loop of [filterActiveDepthInputs]. *)
Definition filterStep (nowMs staleThresholdMs : Z)
    (acc : list FusionDepthInput * gmap string Z) (inp : FusionDepthInput) : list FusionDepthInput * gmap string Z :=
  let '(active, venueTimestamps) := acc in
  let v := TrimSpace (fi_Venue inp) in
  if str_eqb v "" then acc else
  let venueTimestamps := <[v := fi_TsIngestMs inp]> venueTimestamps in
  if (fi_TsIngestMs inp <=? 0) || (staleThresholdMs <? sub64 nowMs (fi_TsIngestMs inp))
  then (active, venueTimestamps)
  else if (Z.of_nat (length (fi_Bids inp)) =? 0) && (Z.of_nat (length (fi_Asks inp)) =? 0)
  then (active, venueTimestamps)
  else (active ++ [inp], venueTimestamps).
Definition filterActiveDepthInputs (inputs : list FusionDepthInput) (nowMs staleThresholdMs : Z)
    : list FusionDepthInput * gmap string Z :=
  let '(active, venueTimestamps) := foldl (filterStep nowMs staleThresholdMs) ([], ∅) inputs in
  (sort_slice (λ a b, str_ltb (fi_Venue a) (fi_Venue b)) active, venueTimestamps).

Definition capFusedLevels (bids asks : list FusedLevel) : list FusedLevel * list FusedLevel * bool :=
  let over (l : list FusedLevel) := FusedDepthMaxLevels <? Z.of_nat (length l) in
  let cut l := if over l then take (Z.to_nat FusedDepthMaxLevels) l else l in
  (cut bids, cut asks, over bids || over asks).

Definition fusionSpreadBPS (bid ask : float64) : float64 :=
  if fleb bid f0 || fleb ask f0 || fleb ask bid then f0 else
  let mid := fdiv (fadd bid ask) (f_of_Z 2) in
  if fleb mid f0 then f0 else fmul (fdiv (fsub ask bid) mid) (f_of_Z 10000).

Definition fusionComputeSpread (bids asks : list FusedLevel) : float64 :=
  match bids, asks with
  | bid :: _, ask :: _ =>
      fusionSpreadBPS (fdiv (f_of_Z (PriceFP bid)) fusionFixedPointScale)
        (fdiv (f_of_Z (PriceFP ask)) fusionFixedPointScale)
  | _, _ => f0
  end.

(** The local variables of [fuseLevels]: [index] points to the entries, which only
    it points to, and [keys] lists its prices in the order of their first level. *)
Record merged := MkMerged { m_priceFP : Z; m_sizeFP : Z; m_venues : list string }.
Record fuseState := MkFuse { index : gmap Z merged; keys : list Z }.

Definition fuseLevel (venue : string) (st : fuseState) (lvl : Level) : fuseState :=
  if fleb (Price lvl) f0 || fleb (Quantity lvl) f0 then st else
  let fp := fusionPriceToFP (Price lvl) in
  match index st !! fp with
  | Some m =>
      let venues := if bool_decide (venue ∈ m_venues m) then m_venues m else m_venues m ++ [venue] in
      MkFuse (<[fp := MkMerged (m_priceFP m) (add64 (m_sizeFP m) (fusionQtyToFP (Quantity lvl))) venues]> (index st))
        (keys st)
  | None =>
      MkFuse (<[fp := MkMerged fp (fusionQtyToFP (Quantity lvl)) [venue]]> (index st)) (keys st ++ [fp])
  end.

Definition fuseInput (isBid : bool) (st : fuseState) (inp : FusionDepthInput) : fuseState :=
  foldl (fuseLevel (fi_Venue inp)) st (if isBid then fi_Bids inp else fi_Asks inp).

Definition fusedOf (m : merged) : FusedLevel :=
  MkFusedLevel (m_priceFP m) (m_sizeFP m) (sort_slice str_ltb (m_venues m)).

Definition fuseLevels (inputs : list FusionDepthInput) (isBid : bool) (mode : FusionMode) : list FusedLevel :=
  let st := foldl (fuseInput isBid) (MkFuse ∅ []) inputs in
  let result := omap (λ k, fusedOf <$> index st !! k) (keys st) in
  if isBid then sort_slice (λ a b, PriceFP b <? PriceFP a) result
  else sort_slice (λ a b, PriceFP a <? PriceFP b) result.

Definition fusionReason (mode : FusionMode) : string :=
  if str_eqb mode FusionMerge then "cross_venue_merge"
  else if str_eqb mode FusionWeighted then "weighted_fusion"
  else "single_venue".

Definition FuseDepth (instrument : string) (nowMs : Z) (inputs : list FusionDepthInput) (mode : FusionMode)
    (staleThresholdMs : Z) : Problem + FusedDepthSnapshotV1 :=
  match validateFuseDepthArgs instrument nowMs mode staleThresholdMs with
  | Some p => inl p
  | None =>
      let '(active, venueTimestamps) := filterActiveDepthInputs inputs nowMs staleThresholdMs in
      let sourceMix := BuildSourceMix venueTimestamps nowMs staleThresholdMs in
      let staleness := BuildStalenessReport sourceMix nowMs in
      let confidence := DeriveFusionConfidence sourceMix in
      let sourceVenues := fi_Venue <$> active in
      let '(bids, asks, depthCapped) := capFusedLevels (fuseLevels active true mode) (fuseLevels active false mode) in
      let spreadBPS := fusionComputeSpread bids asks in
      let tags := DeriveFeatureTags confidence sourceMix f0 depthCapped in
      inr (MkFusedDepth (TrimSpace instrument) nowMs mode bids asks sourceVenues spreadBPS
             (MkFusionMeta (fusionReason mode) confidence sourceMix staleness tags))
  end.

(** ** cross_venue_book.go *)

Definition crossVenueFixedPointScale : float64 := f_of_Z 100000000.

Record CrossVenueVenueBook := MkVenueBook {
  vb_Venue : string; vb_TsIngest : Z; vb_Seq : Z; vb_BestBid : option Level; vb_BestAsk : option Level;
}.

Record VenueLevel := MkVenueLevel { vl_Venue : string; vl_PriceFP : Z; vl_SizeFP : Z }.

Record CrossVenueBookSnapshotV1 := MkCrossVenueBook {
  cv_Instrument : string;
  cv_TsServerMs : Z;
  BestBids : list VenueLevel;
  BestAsks : list VenueLevel;
  cv_GlobalSpreadBPS : float64;
  VenueDivergenceBPS : float64;
}.

Definition priceToFixedPoint (price : float64) : Z := i64_of_f (Round (fmul price crossVenueFixedPointScale)).
Definition quantityToFixedPoint (quantity : float64) : Z := i64_of_f (Round (fmul quantity crossVenueFixedPointScale)).

Definition spreadBPS (bid ask : float64) : float64 :=
  if fleb bid f0 || fleb ask f0 || fleb ask bid then f0 else
  let mid := fdiv (fadd bid ask) (f_of_Z 2) in
  if fleb mid f0 then f0 else fmul (fdiv (fsub ask bid) mid) (f_of_Z 10000).

(** The guards of the loop over the books: an active book with its two levels. *)
Definition activeBook (nowMs staleThresholdMs : Z) (book : CrossVenueVenueBook)
    : option (CrossVenueVenueBook * Level * Level) :=
  if str_eqb (TrimSpace (vb_Venue book)) "" then None
  else if (vb_TsIngest book <=? 0) || (staleThresholdMs <? sub64 nowMs (vb_TsIngest book)) then None
  else match vb_BestBid book, vb_BestAsk book with
       | Some bid, Some ask =>
           if fleb (Price bid) f0 || fleb (Price ask) f0 then None else Some (book, bid, ask)
       | _, _ => None
       end.

Definition venueLevel (venue : string) (l : Level) : VenueLevel :=
  MkVenueLevel venue (priceToFixedPoint (Price l)) (quantityToFixedPoint (Quantity l)).

(** The comparators of the two sorts: [cmp(a, b) < 0]. *)
Definition bidBefore (a b : VenueLevel) : bool :=
  if vl_PriceFP b <? vl_PriceFP a then true
  else if vl_PriceFP a <? vl_PriceFP b then false
  else str_ltb (ToLower (vl_Venue a)) (ToLower (vl_Venue b)).
Definition askBefore (a b : VenueLevel) : bool :=
  if vl_PriceFP a <? vl_PriceFP b then true
  else if vl_PriceFP b <? vl_PriceFP a then false
  else str_ltb (ToLower (vl_Venue a)) (ToLower (vl_Venue b)).

(** [math.MaxFloat64] *)
Definition MaxFloat64 : float64 := S754_finite false 9007199254740991 971.

Definition spreadRange (active : list (CrossVenueVenueBook * Level * Level)) : float64 * float64 :=
  foldl (λ '(minSpread, maxSpread) '(_, bid, ask),
    let spread := spreadBPS (Price bid) (Price ask) in
    (if fltb spread minSpread then spread else minSpread, if fltb maxSpread spread then spread else maxSpread))
    (MaxFloat64, fneg MaxFloat64) active.

Definition Merge (instrument : string) (nowMs : Z) (books : list CrossVenueVenueBook) (staleThresholdMs : Z)
    : Problem + CrossVenueBookSnapshotV1 :=
  match Collect [NonEmptyString "instrument" instrument; PositiveInt "now_ms" nowMs] with
  | Some p => inl p
  | None =>
      if staleThresholdMs <=? 0 then inl (New ValidationFailed "stale_threshold_ms must be > 0") else
      let active := omap (activeBook nowMs staleThresholdMs) books in
      let active := sort_slice (λ a b, str_ltb (ToLower (vb_Venue a.1.1)) (ToLower (vb_Venue b.1.1))) active in
      let bids := sort_slice bidBefore ((λ '(book, bid, _), venueLevel (vb_Venue book) bid) <$> active) in
      let asks := sort_slice askBefore ((λ '(book, _, ask), venueLevel (vb_Venue book) ask) <$> active) in
      match bids, asks with
      | bid :: _, ask :: _ =>
          let bestBidPrice := fdiv (f_of_Z (vl_PriceFP bid)) crossVenueFixedPointScale in
          let bestAskPrice := fdiv (f_of_Z (vl_PriceFP ask)) crossVenueFixedPointScale in
          let '(minSpread, maxSpread) := spreadRange active in
          let divergence :=
            if feqb minSpread MaxFloat64 || feqb maxSpread (fneg MaxFloat64) then f0
            else fsub maxSpread minSpread in
          inr (MkCrossVenueBook (TrimSpace instrument) nowMs bids asks (spreadBPS bestBidPrice bestAskPrice) divergence)
      | _, _ => inr (MkCrossVenueBook (TrimSpace instrument) nowMs [] [] f0 f0)
      end
  end.
End fusion.

(** ** grouped_book.go *)

Record GroupedLevel := MkGroupedLevel {
  gl_Price : float64; TotalQuantity : float64; LevelCount : Z; CumulativeQuantity : float64;
}.
#[export] Instance GroupedLevel_eta : Eta GroupedLevel := λ r,
  MkGroupedLevel (gl_Price r) (TotalQuantity r) (LevelCount r) (CumulativeQuantity r).

Definition skipped (l : Level) : bool :=
  negb (isFinite (Price l)) || negb (isFinite (Quantity l)) || fleb (Price l) f0 || fltb (Quantity l) f0.
Definition bucketOf (groupSize : float64) (l : Level) : float64 :=
  fmul (Floor (fdiv (Price l) groupSize)) groupSize.

(** The loop; [return out] is the [break]. *)
Fixpoint groupLoop (groupSize : float64) (maxRows : Z) (levels : list Level) (out : list GroupedLevel)
    : list GroupedLevel :=
  match levels with
  | [] => out
  | l :: rest =>
      if skipped l then groupLoop groupSize maxRows rest out else
      let bucket := bucketOf groupSize l in
      if match last out with Some row => feqb (gl_Price row) bucket | None => false end then
        groupLoop groupSize maxRows rest
          (alter (λ row, row <| TotalQuantity ::= λ q, fadd q (Quantity l) |> <| LevelCount ::= Z.succ |>)
             (pred (length out)) out)
      else if (0 <? maxRows) && (maxRows <=? Z.of_nat (length out)) then out
      else groupLoop groupSize maxRows rest (out ++ [MkGroupedLevel bucket (Quantity l) 1 f0])
  end.

Definition GroupLevels (levels : list Level) (groupSize : float64) (maxRows : Z) : list GroupedLevel :=
  let groupSize := if negb (isFinite groupSize) || fleb groupSize f0 then f1 else groupSize in
  groupLoop groupSize maxRows levels [].

Fixpoint fillFrom (running : float64) (grouped : list GroupedLevel) : list GroupedLevel :=
  match grouped with
  | [] => []
  | g :: rest =>
      let running := fadd running (TotalQuantity g) in
      g <| CumulativeQuantity := running |> :: fillFrom running rest
  end.
Definition FillCumulative (grouped : list GroupedLevel) : list GroupedLevel := fillFrom f0 grouped.
