(* ===== verification/FusionSpec.v ===== *)
(** * FusionSpec: what the multi-venue views promise

    The reference of a fused side: for every price some active venue quotes, one
    level with the sum of the sizes quoted there and the venues that quote it,
    best price first. The engine, which builds an index level by level over
    venues in any order and sorts with an unstable sort, computes it. *)

From S2P Require Import Prelude GoRuntime Shared OrderBook Fusion.

Local Open Scope string_scope.
Local Open Scope list_scope.
Local Open Scope Z_scope.

(** ** The reference *)

(** What one level of one venue adds to the fused side. *)
Record contribution := MkContribution { c_price : Z; c_size : Z; c_venue : string }.

Section reference.
Context {GR : GoRuntime}.

Definition contributes (venue : string) (lvl : Level) : option contribution :=
  if fleb (Price lvl) f0 || fleb (Quantity lvl) f0 then None
  else Some (MkContribution (fusionPriceToFP (Price lvl)) (fusionQtyToFP (Quantity lvl)) venue).
Definition contributionsOf (isBid : bool) (inp : FusionDepthInput) : list contribution :=
  omap (contributes (fi_Venue inp)) (if isBid then fi_Bids inp else fi_Asks inp).
Definition contributions (isBid : bool) (inputs : list FusionDepthInput) : list contribution :=
  inputs ≫= contributionsOf isBid.
End reference.

Definition at_price (p : Z) (cs : list contribution) : list contribution := filter (λ c, c_price c = p) cs.
Definition sizeAt (p : Z) (cs : list contribution) : Z := foldr Z.add 0 (c_size <$> at_price p cs).
Definition venuesAt (p : Z) (cs : list contribution) : list string := remove_dups (c_venue <$> at_price p cs).

Definition levelAt (cs : list contribution) (p : Z) : FusedLevel :=
  MkFusedLevel p (wrap64 (sizeAt p cs)) (sort_by str_ltb (venuesAt p cs)).
Definition betterPrice (isBid : bool) (a b : FusedLevel) : bool :=
  if isBid then PriceFP b <? PriceFP a else PriceFP a <? PriceFP b.
Definition fusedSide (isBid : bool) (cs : list contribution) : list FusedLevel :=
  sort_by (betterPrice isBid) (levelAt cs <$> remove_dups (c_price <$> cs)).

(** ** Building the index *)

Lemma sizeAt_snoc p cs c : sizeAt p (cs ++ [c]) = sizeAt p cs + (if bool_decide (c_price c = p) then c_size c else 0).
Proof.
  unfold sizeAt, at_price. rewrite filter_app, fmap_app, foldr_app. cbn.
  case_bool_decide as Hc; [rewrite decide_True by done|rewrite decide_False by done]; cbn.
  all: generalize (c_size <$> filter (λ c, c_price c = p) cs); intros l; induction l; cbn; lia.
Qed.

(** The entry of the index for price [p] after the contributions [cs]. *)
Record entry (cs : list contribution) (p : Z) (m : merged) : Prop := {
  entry_price : m_priceFP m = p;
  entry_size : m_sizeFP m = wrap64 (sizeAt p cs);
  entry_nodup : NoDup (m_venues m);
  entry_venues : ∀ v, v ∈ m_venues m ↔ v ∈ c_venue <$> at_price p cs;
}.

Record indexes (cs : list contribution) (st : fuseState) : Prop := {
  idx_nodup : NoDup (keys st);
  idx_keys : ∀ p, p ∈ keys st ↔ p ∈ c_price <$> cs;
  idx_dom : ∀ p, is_Some (index st !! p) ↔ p ∈ keys st;
  idx_entry : ∀ p m, index st !! p = Some m → entry cs p m;
}.

Section engine.
Context {GR : GoRuntime}.

(** One contribution entered in the index. *)
Definition enterAt (o : option merged) (c : contribution) : merged :=
  match o with
  | Some m =>
      MkMerged (m_priceFP m) (add64 (m_sizeFP m) (c_size c))
        (if bool_decide (c_venue c ∈ m_venues m) then m_venues m else m_venues m ++ [c_venue c])
  | None => MkMerged (c_price c) (c_size c) [c_venue c]
  end.
Definition enter (st : fuseState) (c : contribution) : fuseState :=
  let o := index st !! c_price c in
  MkFuse (<[c_price c := enterAt o c]> (index st)) (match o with Some _ => keys st | None => keys st ++ [c_price c] end).

Lemma fuseLevel_enters venue st lvl :
  fuseLevel venue st lvl = match contributes venue lvl with Some c => enter st c | None => st end.
Proof.
  unfold fuseLevel, contributes, enter. destruct (_ || _); [done|]. cbn. by destruct (index st !! _).
Qed.

Lemma fuseInput_enters isBid st inp : fuseInput isBid st inp = foldl enter st (contributionsOf isBid inp).
Proof.
  unfold fuseInput, contributionsOf. generalize (if isBid then fi_Bids inp else fi_Asks inp). intros ls.
  revert st. induction ls as [|l ls IH]; intros st; [done|]. cbn. rewrite fuseLevel_enters, IH.
  by destruct (contributes _ l).
Qed.

Lemma fuse_enters isBid inputs st :
  foldl (fuseInput isBid) st inputs = foldl enter st (contributions isBid inputs).
Proof.
  revert st. induction inputs as [|inp inputs IH]; intros st; [done|].
  cbn. by rewrite foldl_app, IH, fuseInput_enters.
Qed.

(** Sizes are int64 values. *)
Lemma contributes_range venue lvl c : contributes venue lvl = Some c → in_i64 (c_size c).
Proof.
  unfold contributes. destruct (_ || _); [done|]. intros [= <-]. apply i64_of_f_range.
Qed.
Lemma contributions_range isBid inputs : Forall (λ c, in_i64 (c_size c)) (contributions isBid inputs).
Proof.
  apply Forall_forall. intros c (inp & Hc & _)%list_elem_of_bind.
  apply list_elem_of_omap in Hc as (lvl & _ & Hc). by eapply contributes_range.
Qed.

Lemma at_price_snoc p cs c :
  c_venue <$> at_price p (cs ++ [c]) =
  (c_venue <$> at_price p cs) ++ (if bool_decide (c_price c = p) then [c_venue c] else []).
Proof.
  unfold at_price. rewrite filter_app, fmap_app. cbn.
  case_bool_decide; [by rewrite decide_True|by rewrite decide_False].
Qed.

Lemma enterAt_entry cs c o :
  in_i64 (c_size c) → (∀ m, o = Some m → entry cs (c_price c) m) → (o = None → at_price (c_price c) cs = []) →
  entry (cs ++ [c]) (c_price c) (enterAt o c).
Proof.
  intros Hr Hsome Hnone. destruct o as [m|]; cbn.
  - destruct (Hsome m eq_refl) as [Hp Hs Hnd Hv]. split; cbn.
    + done.
    + by rewrite sizeAt_snoc, bool_decide_true, Hs, wrap64_add_l.
    + case_bool_decide; [done|by apply NoDup_snoc].
    + intros v. rewrite at_price_snoc, (bool_decide_true (c_price c = c_price c)) by done.
      case_bool_decide; rewrite !elem_of_app, <- ?Hv, ?list_elem_of_singleton; naive_solver.
  - specialize (Hnone eq_refl). split; cbn.
    + done.
    + rewrite sizeAt_snoc, bool_decide_true by done. unfold sizeAt. rewrite Hnone. cbn. by rewrite wrap64_id.
    + apply NoDup_singleton.
    + intros v. rewrite at_price_snoc, Hnone. by rewrite bool_decide_true.
Qed.

Lemma entry_other cs c p m : c_price c ≠ p → entry cs p m → entry (cs ++ [c]) p m.
Proof.
  intros Hne [Hp Hs Hnd Hv]. split; [done| |done|].
  - by rewrite sizeAt_snoc, bool_decide_false, Z.add_0_r.
  - intros v. by rewrite at_price_snoc, bool_decide_false, app_nil_r.
Qed.

Lemma enter_indexes cs st c :
  in_i64 (c_size c) → indexes cs st → indexes (cs ++ [c]) (enter st c).
Proof.
  intros Hr [Hnd Hk Hd He].
  assert (Hkeys : ∀ p, p ∈ keys (enter st c) ↔ p ∈ keys st ∨ p = c_price c).
  { intros p. cbn. destruct (index st !! c_price c) as [m|] eqn:Hm.
    - assert (c_price c ∈ keys st) by (apply Hd; by eexists). naive_solver.
    - by rewrite elem_of_app, list_elem_of_singleton. }
  split.
  - cbn. destruct (index st !! c_price c) eqn:Hm; [done|].
    apply NoDup_snoc; [|done]. rewrite <- Hd, Hm. by intros [? ?].
  - intros p. rewrite Hkeys, fmap_app, elem_of_app, Hk. cbn. by rewrite list_elem_of_singleton.
  - intros p. rewrite Hkeys. cbn. rewrite lookup_insert_is_Some', Hd. naive_solver.
  - intros p m. cbn. rewrite lookup_insert. case_decide as Heq.
    + subst p. intros [= <-]. apply enterAt_entry; [done|auto|]. intros Hno.
      apply elem_of_nil_inv. intros c' [Heq Hc']%list_elem_of_filter.
      assert (Hin : c_price c ∈ keys st) by (apply Hk; rewrite <- Heq; by apply list_elem_of_fmap_2).
      apply Hd in Hin. rewrite Hno in Hin. by destruct Hin.
    + intros Hm. apply entry_other; auto.
Qed.

Lemma enter_all cs : Forall (λ c, in_i64 (c_size c)) cs → indexes cs (foldl enter (MkFuse ∅ []) cs).
Proof.
  induction cs as [|c cs IH] using rev_ind.
  - intros _. split; cbn; try done; [constructor|].
    intros p. split; [by intros [? ?]|by intros ?%not_elem_of_nil].
  - intros [Hcs Hc]%Forall_app. rewrite foldl_app. cbn. apply enter_indexes; [|auto].
    by apply Forall_cons in Hc as [? _].
Qed.

Lemma betterPrice_order isBid l : weak_order_on (betterPrice isBid) l.
Proof. destruct isBid; split; unfold betterPrice; intros x y; [|intros z| |intros z]; rewrite ?Z.ltb_lt, ?Z.ltb_ge; lia. Qed.

(** An index of the contributions holds the levels of the reference. *)
Lemma indexed_levels cs st :
  indexes cs st → omap (λ k, fusedOf <$> index st !! k) (keys st) = levelAt cs <$> keys st.
Proof.
  intros [_ _ Hd He]. assert (Hall : ∀ p, p ∈ keys st → fusedOf <$> index st !! p = Some (levelAt cs p)).
  { intros p Hp. apply Hd in Hp as [m Hm]. rewrite Hm. cbn. f_equal.
    destruct (He _ _ Hm) as [Hp Hs Hnd Hv]. unfold fusedOf, levelAt. f_equal; [done..|].
    apply sort_strings_reference, NoDup_Permutation; [done|apply NoDup_remove_dups|].
    intros v. unfold venuesAt. by rewrite elem_of_remove_dups. }
  revert Hall. generalize (keys st). intros ks. induction ks as [|k ks IH]; intros Hall; [done|]. cbn.
  rewrite (Hall k) by left. f_equal. apply IH. intros p Hp. apply Hall. by right.
Qed.

(** The engine computes the reference, whatever the mode. *)
Lemma fuseLevels_reference inputs isBid mode :
  fuseLevels inputs isBid mode = fusedSide isBid (contributions isBid inputs).
Proof.
  set (cs := contributions isBid inputs).
  pose proof (enter_all cs (contributions_range _ _)) as Hidx.
  unfold fuseLevels. rewrite fuse_enters. fold cs.
  rewrite (indexed_levels _ _ Hidx). destruct Hidx as [Hnd Hk _ _].
  assert (Hp : levelAt cs <$> keys (foldl enter (MkFuse ∅ []) cs) ≡ₚ levelAt cs <$> remove_dups (c_price <$> cs)).
  { apply fmap_Permutation, NoDup_Permutation; [done|apply NoDup_remove_dups|].
    intros p. by rewrite elem_of_remove_dups. }
  transitivity (sort_slice (betterPrice isBid) (levelAt cs <$> keys (foldl enter (MkFuse ∅ []) cs)));
    [by destruct isBid|].
  apply sort_slice_reference; [apply betterPrice_order| |done].
  intros x y (p & -> & _)%list_elem_of_fmap (q & -> & _)%list_elem_of_fmap.
  destruct isBid; cbn; rewrite !Z.ltb_ge; intros; f_equal; lia.
Qed.
End engine.

(** ** The reference does not depend on the order of the contributions *)

Lemma at_price_perm p cs cs' : cs ≡ₚ cs' → at_price p cs ≡ₚ at_price p cs'.
Proof. intros Hp. unfold at_price. by rewrite Hp. Qed.
Lemma sizeAt_perm p cs cs' : cs ≡ₚ cs' → sizeAt p cs = sizeAt p cs'.
Proof.
  intros Hp%(at_price_perm p)%(fmap_Permutation c_size). unfold sizeAt.
  induction Hp as [|x l k _ IH|x y l|l k m _ IH _ IH']; cbn; lia.
Qed.
Lemma remove_dups_perm {A} `{EqDecision A} (l k : list A) : l ≡ₚ k → remove_dups l ≡ₚ remove_dups k.
Proof.
  intros Hp. apply NoDup_Permutation; [apply NoDup_remove_dups..|].
  intros x. by rewrite !elem_of_remove_dups, Hp.
Qed.
Lemma levelAt_perm cs cs' p : cs ≡ₚ cs' → levelAt cs p = levelAt cs' p.
Proof.
  intros Hp. unfold levelAt. rewrite (sizeAt_perm p cs cs' Hp). f_equal.
  rewrite <- !(sort_strings_reference (GR:=go_amd64) _ _ (reflexivity _)).
  rewrite (sort_strings_reference (GR:=go_amd64) _ (venuesAt p cs')); [done|].
  by apply remove_dups_perm, fmap_Permutation, at_price_perm.
Qed.
Lemma fusedSide_perm isBid cs cs' : cs ≡ₚ cs' → fusedSide isBid cs = fusedSide isBid cs'.
Proof.
  intros Hp. unfold fusedSide. apply (sorted_unique (betterPrice isBid)).
  - apply betterPrice_order.
  - intros x y. rewrite !sort_by_perm.
    intros (p & -> & _)%list_elem_of_fmap (q & -> & _)%list_elem_of_fmap.
    destruct isBid; cbn; rewrite !Z.ltb_ge; intros; f_equal; lia.
  - rewrite !sort_by_perm.
    rewrite (list_fmap_ext (levelAt cs) (levelAt cs') (remove_dups (c_price <$> cs)))
      by (intros; by apply levelAt_perm).
    by apply fmap_Permutation, remove_dups_perm, fmap_Permutation.
  - apply sort_by_sorted, betterPrice_order.
  - apply sort_by_sorted, betterPrice_order.
Qed.
#[export] Instance contributions_perm {GR : GoRuntime} isBid : Proper ((≡ₚ) ==> (≡ₚ)) (contributions isBid).
Proof. intros l k Hp. unfold contributions. by rewrite Hp. Qed.
#[export] Instance fusedSide_proper isBid : Proper ((≡ₚ) ==> (=)) (fusedSide isBid).
Proof. intros cs cs'. apply fusedSide_perm. Qed.

(** Best price first, and each price once. *)
Lemma fusedSide_sorted isBid cs :
  StronglySorted (λ a b, betterPrice isBid a b = true) (fusedSide isBid cs).
Proof.
  assert (Hnd : NoDup (PriceFP <$> fusedSide isBid cs)).
  { unfold fusedSide. rewrite sort_by_perm, <- list_fmap_compose.
    change (NoDup (Datatypes.id <$> remove_dups (c_price <$> cs))). rewrite list_fmap_id. apply NoDup_remove_dups. }
  assert (Hs : Sorted (λ a b, betterPrice isBid b a = false) (fusedSide isBid cs))
    by apply sort_by_sorted, betterPrice_order.
  apply Sorted_StronglySorted in Hs;
    [|intros x y z; destruct isBid; cbn; rewrite !Z.ltb_ge; lia].
  induction Hs as [|x l Hs IH Hx]; constructor.
  - apply IH. by apply NoDup_cons in Hnd as [_ ?].
  - apply NoDup_cons in Hnd as [Hne _]. rewrite Forall_forall in Hx |- *. intros y Hy.
    specialize (Hx y Hy). assert (PriceFP x ≠ PriceFP y).
    { intros Heq. apply Hne. rewrite Heq. by apply list_elem_of_fmap_2. }
    destruct isBid; cbn in *; rewrite Z.ltb_lt; rewrite Z.ltb_ge in Hx; lia.
Qed.

(** ** The active inputs and the venues *)

Section active.
Context {GR : GoRuntime}.

Definition activeb (nowMs staleThresholdMs : Z) (inp : FusionDepthInput) : bool :=
  negb (str_eqb (TrimSpace (fi_Venue inp)) "") &&
  negb ((fi_TsIngestMs inp <=? 0) || (staleThresholdMs <? sub64 nowMs (fi_TsIngestMs inp))) &&
  negb ((Z.of_nat (length (fi_Bids inp)) =? 0) && (Z.of_nat (length (fi_Asks inp)) =? 0)).

(** A named venue with a book that was seen at most the threshold ago. *)
Definition isActive (nowMs staleThresholdMs : Z) (inp : FusionDepthInput) : Prop :=
  TrimSpace (fi_Venue inp) ≠ "" ∧ 0 < fi_TsIngestMs inp ∧ nowMs - fi_TsIngestMs inp ≤ staleThresholdMs ∧
  (fi_Bids inp ≠ [] ∨ fi_Asks inp ≠ []).
#[export] Instance isActive_dec nowMs thr inp : Decision (isActive nowMs thr inp).
Proof. unfold isActive. apply _. Defined.

Lemma activeb_spec nowMs thr inp :
  in_i64 nowMs → 0 < nowMs → in_i64 (fi_TsIngestMs inp) → activeb nowMs thr inp = true ↔ isActive nowMs thr inp.
Proof.
  intros Hn Hpos Ht. unfold activeb.
  assert (Hsub : 0 < fi_TsIngestMs inp → sub64 nowMs (fi_TsIngestMs inp) = nowMs - fi_TsIngestMs inp).
  { intros. apply sub64_id. unfold in_i64, MinInt64, MaxInt64 in *. lia. }
  rewrite !andb_true_iff, !negb_true_iff, orb_false_iff, andb_false_iff.
  unfold str_eqb. rewrite String.eqb_neq, Z.leb_gt, Z.ltb_ge, !Z.eqb_neq.
  assert (Hlen : ∀ l : list Level, Z.of_nat (length l) ≠ 0 ↔ l ≠ []) by (intros [|]; cbn; naive_solver lia).
  rewrite !Hlen. split.
  - intros [[? [? Hs]] ?]. rewrite Hsub in Hs by done. done.
  - intros (? & ? & ? & ?). rewrite Hsub by done. auto.
Qed.

(** The venues that have a name, with the time of each of their books. *)
Definition named (inputs : list FusionDepthInput) : list (string * Z) :=
  omap (λ inp, let v := TrimSpace (fi_Venue inp) in if str_eqb v "" then None else Some (v, fi_TsIngestMs inp)) inputs.

Lemma filterActive_fold nowMs thr inputs :
  foldl (filterStep nowMs thr) ([], ∅) inputs =
  (filter (λ inp, activeb nowMs thr inp = true) inputs, list_to_map (reverse (named inputs))).
Proof.
  induction inputs as [|inp inputs IH] using rev_ind; [done|].
  rewrite foldl_app, IH. cbn. rewrite filter_app. unfold named. rewrite omap_app, reverse_app. cbn.
  unfold activeb. destruct (str_eqb _ _) eqn:Hv; cbn; [by rewrite app_nil_r|].
  destruct (_ || _) eqn:Hs; cbn; [by rewrite app_nil_r|].
  destruct (_ && _) eqn:Hb; cbn; [by rewrite app_nil_r|done].
Qed.

Definition byVenue (a b : FusionDepthInput) : bool := str_ltb (fi_Venue a) (fi_Venue b).

Lemma filterActive_spec nowMs thr inputs :
  filterActiveDepthInputs inputs nowMs thr =
  (sort_slice byVenue (filter (λ inp, activeb nowMs thr inp = true) inputs), list_to_map (reverse (named inputs))).
Proof. unfold filterActiveDepthInputs. by rewrite filterActive_fold. Qed.

(** The mix has one entry per venue; its order is the one of the names. *)
Definition mixEntry (nowMs thr : Z) (p : string * Z) : SourceEntry :=
  MkSourceEntry p.1 f0 p.2 (thr <? sub64 nowMs p.2).
Definition weigh (entries : list SourceEntry) : list SourceEntry :=
  if 0 <? countFresh entries then
    (λ e, if IsStale e then e else e <| WeightPct := fdiv (f_of_Z 100) (f_of_Z (countFresh entries)) |>) <$> entries
  else entries.
Lemma BuildSourceMix_reference venues nowMs thr :
  BuildSourceMix venues nowMs thr =
  weigh (sort_by (λ a b, str_ltb (se_Venue a) (se_Venue b)) (mixEntry nowMs thr <$> map_to_list venues)).
Proof.
  unfold BuildSourceMix. fold (weigh (sort_slice (λ a b, str_ltb (se_Venue a) (se_Venue b))
    ((λ '(venue, lastSeen), MkSourceEntry venue f0 lastSeen (thr <? sub64 nowMs lastSeen)) <$> map_range venues))).
  f_equal. rewrite (list_fmap_ext _ (mixEntry nowMs thr) (map_range venues)) by by intros ? [].
  apply sort_by_key_reference; [|by rewrite map_range_perm].
  rewrite map_range_perm, <- list_fmap_compose. apply NoDup_fst_map_to_list.
Qed.
End active.

(** ** Fused depth *)

Section depth.
Context {GR : GoRuntime}.

Definition cap (l : list FusedLevel) : list FusedLevel := take (Z.to_nat FusedDepthMaxLevels) l.
Lemma cut_cap (l : list FusedLevel) :
  (if FusedDepthMaxLevels <? Z.of_nat (length l) then take (Z.to_nat FusedDepthMaxLevels) l else l) = cap l.
Proof.
  unfold cap, FusedDepthMaxLevels. destruct (Z.ltb_spec 50 (Z.of_nat (length l))); [done|].
  rewrite take_ge; [done|lia].
Qed.
Lemma capFusedLevels_spec bids asks : (capFusedLevels bids asks).1 = (cap bids, cap asks).
Proof. unfold capFusedLevels. cbn. by rewrite !cut_cap. Qed.

Lemma FuseDepth_ok instrument nowMs inputs mode thr s :
  FuseDepth instrument nowMs inputs mode thr = inr s →
  validateFuseDepthArgs instrument nowMs mode thr = None ∧
  let active := sort_slice byVenue (filter (λ inp, activeb nowMs thr inp = true) inputs) in
  fd_Instrument s = TrimSpace instrument ∧ fd_TsServerMs s = nowMs ∧ Mode s = mode ∧
  fd_Bids s = cap (fuseLevels active true mode) ∧ fd_Asks s = cap (fuseLevels active false mode) ∧
  SourceVenues s = fi_Venue <$> active ∧
  meta_Reason (fd_Meta s) = fusionReason mode ∧
  SourceMix (fd_Meta s) = BuildSourceMix (list_to_map (reverse (named inputs))) nowMs thr ∧
  Confidence (fd_Meta s) = DeriveFusionConfidence (SourceMix (fd_Meta s)) ∧
  ∃ c capped, FeatureTags (fd_Meta s) = DeriveFeatureTags c (SourceMix (fd_Meta s)) f0 capped.
Proof.
  unfold FuseDepth. destruct (validateFuseDepthArgs _ _ _ _) eqn:Hv; [done|]. rewrite filterActive_spec.
  set (active := sort_slice byVenue _).
  pose proof (capFusedLevels_spec (fuseLevels active true mode) (fuseLevels active false mode)) as Hc.
  destruct (capFusedLevels _ _) as [[bids asks] capped]. cbn in Hc. injection Hc as -> ->.
  intros [= <-]. cbn. split; [done|]. split_and!; eauto.
Qed.

Lemma validateFuseDepthArgs_none instrument nowMs mode thr :
  validateFuseDepthArgs instrument nowMs mode thr = None →
  TrimSpace instrument ≠ "" ∧ 0 < nowMs ∧ ValidFusionMode mode = true ∧ 0 < thr.
Proof.
  unfold validateFuseDepthArgs. destruct (Collect _) eqn:Hc; [done|].
  apply Collect_none in Hc. apply Forall_cons in Hc as [Hi Hc]. apply Forall_cons in Hc as [Hn _].
  apply NonEmptyString_none in Hi. apply PositiveInt_none in Hn.
  destruct (ValidFusionMode mode); [|done]. destruct (Z.leb_spec thr 0); [done|]. done.
Qed.

Lemma active_inputs nowMs thr inputs :
  in_i64 nowMs → 0 < nowMs → Forall (λ inp, in_i64 (fi_TsIngestMs inp)) inputs →
  filter (λ inp, activeb nowMs thr inp = true) inputs = filter (isActive nowMs thr) inputs.
Proof.
  intros Hn Hpos Hr. apply filter_ext_in. intros inp Hinp.
  rewrite Forall_forall in Hr. apply activeb_spec; auto.
Qed.

Lemma Sorted_fmap_key {A B} (key : A → B) (R : B → B → Prop) l :
  Sorted (λ a b, R (key a) (key b)) l → Sorted R (key <$> l).
Proof. induction 1 as [|x l _ IH Hx]; constructor; [done|]. by destruct Hx; constructor. Qed.
Lemma StronglySorted_weaken {A} (R R' : A → A → Prop) l :
  StronglySorted R l → (∀ a b, R a b → R' a b) → StronglySorted R' l.
Proof. intros Hl HR. induction Hl as [|x l _ IH Hx]; constructor; [done|]. eapply Forall_impl; eauto. Qed.
Lemma StronglySorted_take {A} (R : A → A → Prop) n l : StronglySorted R l → StronglySorted R (take n l).
Proof.
  intros Hl. revert n. induction Hl as [|x l _ IH Hx]; intros [|n]; cbn; constructor; [done|].
  by apply Forall_take.
Qed.

Lemma venues_sorted l : fi_Venue <$> sort_slice byVenue l = sort_by str_ltb (fi_Venue <$> l).
Proof.
  apply (sorted_unique str_ltb); [apply (str_weak_order Datatypes.id)| | | |].
  - intros x y _ _ Hxy Hyx. by apply str_le_antisym.
  - by rewrite sort_slice_perm, sort_by_perm.
  - apply Sorted_fmap_key, sort_slice_sorted, str_weak_order.
  - apply sort_by_sorted, (str_weak_order Datatypes.id).
Qed.

(** The mode a request names does not change the levels of its result. *)
Lemma fuseLevels_ignores_mode inputs isBid mode mode' :
  fuseLevels inputs isBid mode = fuseLevels inputs isBid mode'.
Proof. by rewrite !fuseLevels_reference. Qed.

(** C17: In merge mode a venue's depth in the fused book is what it quotes: of the
    levels of the active venues, on each side the best fifty prices, each once, best
    first, with the sum of the sizes quoted at the price and the venues that quote
    it. *)
Theorem fused_depth_sums_active_venues instrument nowMs inputs thr s :
  in_i64 nowMs → Forall (λ inp, in_i64 (fi_TsIngestMs inp)) inputs →
  FuseDepth instrument nowMs inputs FusionMerge thr = inr s →
  let active := filter (isActive nowMs thr) inputs in
  fd_Bids s = cap (fusedSide true (contributions true active)) ∧
  fd_Asks s = cap (fusedSide false (contributions false active)) ∧
  SourceVenues s = sort_by str_ltb (fi_Venue <$> active) ∧
  StronglySorted (λ a b, PriceFP b < PriceFP a) (fd_Bids s) ∧
  StronglySorted (λ a b, PriceFP a < PriceFP b) (fd_Asks s).
Proof.
  intros Hn Hr Hf active. apply FuseDepth_ok in Hf as (Hv & Hf).
  apply validateFuseDepthArgs_none in Hv as (_ & Hpos & _ & _).
  rewrite (active_inputs nowMs thr inputs) in Hf by done. fold active in Hf.
  destruct Hf as (_ & _ & _ & Hb & Ha & Hs & _).
  rewrite fuseLevels_reference in Hb, Ha.
  rewrite sort_slice_perm in Hb, Ha.
  split_and!; [done|done| | |].
  - rewrite Hs. apply venues_sorted.
  - rewrite Hb. apply StronglySorted_take, (StronglySorted_weaken _ _ _ (fusedSide_sorted true _)).
    intros x y. cbn. lia.
  - rewrite Ha. apply StronglySorted_take, (StronglySorted_weaken _ _ _ (fusedSide_sorted false _)).
    intros x y. cbn. lia.
Qed.

(** *** Validation of the result *)

Lemma venue_names inputs v : v ∈ (named inputs).*1 ↔ v ≠ "" ∧ ∃ inp, inp ∈ inputs ∧ TrimSpace (fi_Venue inp) = v.
Proof.
  unfold named. rewrite list_elem_of_fmap. setoid_rewrite list_elem_of_omap. split.
  - intros ([v' t] & -> & inp & Hin & Hv). cbn in Hv. destruct (str_eqb _ _) eqn:He; [done|].
    injection Hv as <- <-. cbn. apply String.eqb_neq in He. eauto.
  - intros (Hne & inp & Hin & <-). exists (TrimSpace (fi_Venue inp), fi_TsIngestMs inp). split; [done|].
    exists inp. split; [done|]. cbv zeta. apply String.eqb_neq in Hne. unfold str_eqb. by rewrite Hne.
Qed.

(** The distinct names of the venues. *)
Definition venueSet (inputs : list FusionDepthInput) : gset string := list_to_set (named inputs).*1.

Lemma weigh_length l : length (weigh l) = length l.
Proof. unfold weigh. case_match; [by rewrite length_fmap|done]. Qed.
Lemma mix_length inputs nowMs thr :
  length (BuildSourceMix (list_to_map (reverse (named inputs))) nowMs thr) = size (venueSet inputs).
Proof.
  rewrite BuildSourceMix_reference, weigh_length, sort_by_perm, length_fmap, length_map_to_list.
  rewrite <- size_dom. f_equal. rewrite dom_list_to_map_L. unfold venueSet. by rewrite fmap_reverse, reverse_Permutation.
Qed.

Lemma countFresh_bounds l : 0 ≤ countFresh l ≤ Z.of_nat (length l).
Proof.
  induction l as [|s l IH] using rev_ind; [done|].
  unfold countFresh in *. rewrite foldl_app, length_app. cbn. destruct (IsStale s); lia.
Qed.

(** The ratio of fresh sources is in the unit interval: by evaluation for up to
    eight sources, the most a snapshot may have. *)
Definition unitFloat (f : float64) : bool := isFinite f && negb (fltb f f0) && negb (fltb f1 f).
Definition ratioOf (fresh n : Z) : float64 :=
  let ratio := fdiv (f_of_Z fresh) (f_of_Z n) in
  let ratio := if fresh =? 1 then fmul ratio (flit 7 10) else ratio in
  if fltb f1 ratio then f1 else ratio.
Lemma ratios_unit : forallb (λ n, forallb (λ k, unitFloat (ratioOf k n)) (seqZ 0 9)) (seqZ 1 8) = true.
Proof. by vm_compute. Qed.

Lemma confidence_unit l : (length l ≤ 8)%nat → unitFloat (DeriveFusionConfidence l) = true.
Proof.
  intros Hl. pose proof (countFresh_bounds l) as Hc. unfold DeriveFusionConfidence.
  destruct (Z.eqb_spec (Z.of_nat (length l)) 0) as [H0|H0]; [done|].
  fold (ratioOf (countFresh l) (Z.of_nat (length l))).
  pose proof ratios_unit as Hall. rewrite forallb_forall in Hall.
  assert (Hn : In (Z.of_nat (length l)) (seqZ 1 8)) by (apply list_elem_of_In, elem_of_seqZ; lia).
  specialize (Hall _ Hn). rewrite forallb_forall in Hall. apply Hall.
  apply list_elem_of_In, elem_of_seqZ. lia.
Qed.

Lemma IsSorted_spec l : IsSorted l = true ↔ Sorted str_le l.
Proof.
  induction l as [|a [|b l] IH].
  - split; [constructor|done].
  - split; [by repeat constructor|done].
  - cbn [IsSorted]. rewrite andb_true_iff, negb_true_iff, IH. split.
    + intros [Hba Hl]. constructor; [done|]. by constructor.
    + intros Hs. inversion Hs as [|? ? Hl Hhd]; subst. inversion Hhd; subst. done.
Qed.
Lemma Compact_sorted l : Sorted str_le l → Sorted str_le (Compact l) ∧ (∀ x, HdRel str_le x l → HdRel str_le x (Compact l)).
Proof.
  induction l as [|a [|b l] IH]; [done|done|]. intros Hs. inversion Hs as [|? ? Hl Hhd]; subst.
  destruct (IH Hl) as [Hc Hh]. inversion Hhd as [|? ? Hab]; subst. cbn [Compact]. destruct (str_eqb a b) eqn:He.
  - apply String.eqb_eq in He as ->. split; [done|]. intros x Hx. apply Hh. inversion Hx; subst. by constructor.
  - split; [|intros x Hx; inversion Hx; subst; by constructor]. constructor; [done|]. by apply Hh.
Qed.
Lemma Compact_length l : (length (Compact l) ≤ length l)%nat.
Proof.
  induction l as [|a [|b l] IH]; [done|done|].
  change (Compact (a :: b :: l)) with (if str_eqb a b then Compact (b :: l) else a :: Compact (b :: l)).
  destruct (str_eqb a b); [|rewrite !length_cons]; cbn [length] in *; lia.
Qed.

Lemma tags_valid c l capped :
  Z.of_nat (length (DeriveFeatureTags c l f0 capped)) ≤ 6 ∧ IsSorted (DeriveFeatureTags c l f0 capped) = true.
Proof.
  unfold DeriveFeatureTags. set (tags := _ ++ _). split.
  - pose proof (Compact_length (sort_slice str_ltb tags)) as Hl.
    pose proof (Permutation_length (sort_slice_perm str_ltb tags)) as Hp.
    assert (length tags ≤ 6)%nat; [|lia].
    unfold tags. rewrite !length_app. repeat case_match; cbn; lia.
  - apply IsSorted_spec, Compact_sorted, sort_slice_sorted, (str_weak_order Datatypes.id).
Qed.

Lemma reason_named mode : TrimSpace (fusionReason mode) ≠ "".
Proof. unfold fusionReason. repeat case_match; by vm_compute. Qed.

Lemma FusionMeta_Validate_none m :
  TrimSpace (meta_Reason m) ≠ "" → Confidence m = DeriveFusionConfidence (SourceMix m) →
  Z.of_nat (length (FeatureTags m)) ≤ 6 → IsSorted (FeatureTags m) = true →
  FusionMeta_Validate m = None ↔ SourceMix m ≠ [] ∧ (length (SourceMix m) ≤ 8)%nat.
Proof.
  intros Hr Hc Ht Hs. unfold FusionMeta_Validate. apply String.eqb_neq in Hr. unfold str_eqb. rewrite Hr.
  rewrite Hs. cbn [negb].
  destruct (Z.ltb_spec FusedFeatureTagMaxLen (Z.of_nat (length (FeatureTags m)))) as [Hx|_];
    [unfold FusedFeatureTagMaxLen in Hx; lia|].
  destruct (decide (length (SourceMix m) ≤ 8)%nat) as [Hl|Hl].
  - pose proof (confidence_unit (SourceMix m) Hl) as Hu. rewrite <- Hc in Hu. unfold unitFloat in Hu.
    apply andb_prop in Hu as [[Hf H0]%andb_prop H1]. rewrite Hf.
    apply negb_true_iff in H0, H1. rewrite H0, H1. cbn.
    destruct (Z.ltb_spec FusedSourceMixMaxLen (Z.of_nat (length (SourceMix m)))) as [Hx|_];
      [unfold FusedSourceMixMaxLen in Hx; lia|].
    destruct (SourceMix m) as [|e l]; cbn; naive_solver.
  - destruct (Z.ltb_spec FusedSourceMixMaxLen (Z.of_nat (length (SourceMix m)))) as [_|Hx];
      [|unfold FusedSourceMixMaxLen in Hx; lia].
    split; [by repeat case_match|]. by intros [_ ?].
Qed.

Lemma active_nonempty nowMs thr inputs :
  (∃ inp, inp ∈ inputs ∧ isActive nowMs thr inp) ↔ filter (isActive nowMs thr) inputs ≠ [].
Proof.
  split.
  - intros (inp & Hin & Hia) Hnil. apply (filter_nil_not_elem_of _ _ _ Hnil Hia Hin).
  - intros Hne. destruct (filter _ inputs) as [|inp l] eqn:Hfl; [done|]. exists inp.
    assert (inp ∈ filter (isActive nowMs thr) inputs) as [? ?]%list_elem_of_filter by (rewrite Hfl; left). done.
Qed.
Lemma venueSet_nonempty inputs inp :
  inp ∈ inputs → TrimSpace (fi_Venue inp) ≠ "" → size (venueSet inputs) ≠ 0%nat.
Proof.
  intros Hin Hne Hsz. apply size_empty_inv in Hsz.
  assert (TrimSpace (fi_Venue inp) ∈ venueSet inputs); [|set_solver].
  unfold venueSet. rewrite elem_of_list_to_set, venue_names. eauto.
Qed.

(** C19: The engine does not check its own result: what it returns is valid exactly
    when some venue is active and at most eight venues were given. *)
Theorem fused_snapshot_valid_iff instrument nowMs inputs mode thr s :
  in_i64 nowMs → Forall (λ inp, in_i64 (fi_TsIngestMs inp)) inputs →
  FuseDepth instrument nowMs inputs mode thr = inr s →
  FusedDepth_Validate s = None ↔
  (∃ inp, inp ∈ inputs ∧ isActive nowMs thr inp) ∧ (size (venueSet inputs) ≤ 8)%nat.
Proof.
  intros Hn Hr Hf. apply FuseDepth_ok in Hf as (Hv & Hf).
  apply validateFuseDepthArgs_none in Hv as (Hi & Hpos & Hm & _).
  rewrite (active_inputs nowMs thr inputs) in Hf by done.
  set (active := filter (isActive nowMs thr) inputs) in Hf.
  destruct Hf as (HI & HT & HM & Hb & Ha & Hs & HR & Hmix & Hconf & c & capped & Htags).
  pose proof (tags_valid c (SourceMix (fd_Meta s)) capped) as [Ht1 Ht2]. rewrite <- Htags in Ht1, Ht2.
  unfold FusedDepth_Validate. rewrite HI, HT, HM, Hm. cbn [negb].
  rewrite (proj2 (Collect_none _)).
  2: { repeat constructor; [apply NonEmptyString_none; by rewrite TrimSpace_idem|by apply PositiveInt_none]. }
  rewrite Hb, Ha. unfold cap, FusedDepthMaxLevels. rewrite !length_take.
  do 2 (match goal with |- context [if ?x <? ?y then _ else _] => destruct (Z.ltb_spec x y); [lia|] end).
  assert (Hsorted : IsSorted (SourceVenues s) = true).
  { rewrite Hs, venues_sorted. apply IsSorted_spec, sort_by_sorted, (str_weak_order Datatypes.id). }
  rewrite Hsorted. cbn [negb]. rewrite Hs, length_fmap, (Permutation_length (sort_slice_perm _ _)).
  pose proof (active_nonempty nowMs thr inputs) as Hact. fold active in Hact.
  rewrite Hact. destruct (decide (active = [])) as [->|Hne].
  { cbn. split; [done|]. by intros [? _]. }
  destruct (Z.eqb_spec (Z.of_nat (length active)) 0) as [Hz|_]; [destruct active; [done|cbn in Hz; lia]|].
  rewrite FusionMeta_Validate_none by (rewrite ?HR; auto using reason_named).
  rewrite <- (mix_length inputs nowMs thr), <- Hmix.
  split; [naive_solver|]. intros [_ Hl]. split; [|done]. intros Hnil.
  apply Hact in Hne as (inp & Hin & Hname & _).
  apply (venueSet_nonempty inputs inp); [done..|]. by rewrite <- (mix_length inputs nowMs thr), <- Hmix, Hnil.
Qed.
End depth.

(** ** Determinism

    Two runs on one kind of host agree on the conversion of floats and on white
    space, and may differ in everything else the language leaves open: the order
    of map iteration and what an unstable sort does with equal elements. *)
Definition same_host (R1 R2 : GoRuntime) : Prop :=
  (∀ f, f2i_overflow (GoRuntime:=R1) f = f2i_overflow (GoRuntime:=R2) f) ∧
  (∀ s, trim_unicode (GoRuntime:=R1) s = trim_unicode (GoRuntime:=R2) s).

Section determinism.
Context (R1 R2 : GoRuntime) (host : same_host R1 R2).

Lemma host_trim s : TrimSpace (GR:=R1) s = TrimSpace (GR:=R2) s.
Proof. unfold TrimSpace. by rewrite (proj2 host). Qed.
Lemma host_i64 f : i64_of_f (GR:=R1) f = i64_of_f (GR:=R2) f.
Proof. unfold i64_of_f. by repeat case_match; rewrite ?(proj1 host). Qed.

Lemma host_contributions isBid inputs :
  contributions (GR:=R1) isBid inputs = contributions (GR:=R2) isBid inputs.
Proof.
  unfold contributions. induction inputs as [|inp inputs IH]; [done|]. cbn. rewrite IH. f_equal.
  unfold contributionsOf. generalize (if isBid then fi_Bids inp else fi_Asks inp). intros ls.
  induction ls as [|l ls IHl]; [done|]. cbn. rewrite IHl.
  unfold contributes, fusionPriceToFP, fusionQtyToFP. by rewrite !host_i64.
Qed.

Lemma host_named inputs : named (GR:=R1) inputs = named (GR:=R2) inputs.
Proof. unfold named. induction inputs as [|inp inputs IH]; [done|]. cbn. by rewrite IH, host_trim. Qed.

Lemma host_active nowMs thr (inputs : list FusionDepthInput) :
  filter (λ inp, activeb (GR:=R1) nowMs thr inp = true) inputs =
  filter (λ inp, activeb (GR:=R2) nowMs thr inp = true) inputs.
Proof. apply filter_ext_in. intros inp _. unfold activeb. by rewrite host_trim. Qed.

Lemma host_validate instrument nowMs mode thr :
  validateFuseDepthArgs (GR:=R1) instrument nowMs mode thr = validateFuseDepthArgs (GR:=R2) instrument nowMs mode thr.
Proof. unfold validateFuseDepthArgs, NonEmptyString. by rewrite host_trim. Qed.

Lemma host_tags c l d capped :
  DeriveFeatureTags (GR:=R1) c l d capped = DeriveFeatureTags (GR:=R2) c l d capped.
Proof.
  unfold DeriveFeatureTags. cbv zeta.
  by rewrite (sort_strings_reference (GR:=R1) _ _ (reflexivity _)), (sort_strings_reference (GR:=R2) _ _ (reflexivity _)).
Qed.

Lemma host_levels isBid mode active active' :
  active ≡ₚ active' → fuseLevels (GR:=R1) active isBid mode = fuseLevels (GR:=R2) active' isBid mode.
Proof.
  intros Hp. rewrite !fuseLevels_reference, host_contributions. by rewrite Hp.
Qed.
End determinism.

(** C18: The fused view does not depend on the order in which the venues' books are
    collected, nor on the order of map iteration or the sort in use, as long as
    every venue is given once. *)
Theorem fusion_is_deterministic R1 R2 instrument nowMs inputs inputs' mode thr :
  same_host R1 R2 → NoDup (named (GR:=R1) inputs).*1 → inputs ≡ₚ inputs' →
  FuseDepth (GR:=R1) instrument nowMs inputs mode thr = FuseDepth (GR:=R2) instrument nowMs inputs' mode thr.
Proof.
  intros host Hnd Hp. unfold FuseDepth. rewrite (host_validate R1 R2 host).
  destruct (validateFuseDepthArgs _ _ _ _); [done|]. rewrite !filterActive_spec.
  rewrite <- (host_active R1 R2 host nowMs thr inputs').
  set (act := filter (λ inp, activeb (GR:=R1) nowMs thr inp = true) inputs).
  set (act' := filter (λ inp, activeb (GR:=R1) nowMs thr inp = true) inputs').
  assert (Hact : act ≡ₚ act') by (unfold act, act'; by rewrite Hp).
  assert (Hmap : list_to_map (reverse (named (GR:=R1) inputs)) =@{gmap string Z} list_to_map (reverse (named (GR:=R2) inputs'))).
  { rewrite <- (host_named R1 R2 host). apply list_to_map_proper.
    - by rewrite fmap_reverse, reverse_Permutation.
    - unfold named. by rewrite !reverse_Permutation, Hp. }
  rewrite Hmap, !BuildSourceMix_reference.
  rewrite !(venues_sorted (GR:=R1)), !(venues_sorted (GR:=R2)).
  rewrite (host_levels R1 R2 host true mode _ (sort_slice (GoRuntime:=R2) byVenue act'))
    by (by rewrite !sort_slice_perm).
  rewrite (host_levels R1 R2 host false mode _ (sort_slice (GoRuntime:=R2) byVenue act'))
    by (by rewrite !sort_slice_perm).
  destruct (capFusedLevels _ _) as [[bids asks] capped].
  rewrite (host_tags R1 R2), (host_trim R1 R2 host).
  rewrite <- !(sort_strings_reference (GR:=R2) _ _ (reflexivity _)).
  rewrite (sort_strings_reference (GR:=R2) _ (fi_Venue <$> act')) by (by rewrite Hact).
  by rewrite (sort_strings_reference (GR:=R2) _ _ (reflexivity _)).
Qed.

(** ** The cross-venue top of book *)

Section crossvenue.
Context {GR : GoRuntime}.

Definition bidLevels (active : list (CrossVenueVenueBook * Level * Level)) : list VenueLevel :=
  (λ '(book, bid, _), venueLevel (vb_Venue book) bid) <$> active.
Definition askLevels (active : list (CrossVenueVenueBook * Level * Level)) : list VenueLevel :=
  (λ '(book, _, ask), venueLevel (vb_Venue book) ask) <$> active.

(** Ranking by price, in either direction, and then by name. *)
Definition rank (dir : Z) (a b : VenueLevel) : bool :=
  if dir * vl_PriceFP a <? dir * vl_PriceFP b then true
  else if dir * vl_PriceFP b <? dir * vl_PriceFP a then false
  else str_ltb (ToLower (vl_Venue a)) (ToLower (vl_Venue b)).
Lemma rank_order dir l : weak_order_on (rank dir) l.
Proof.
  destruct (str_weak_order (λ a, ToLower (vl_Venue a)) l) as [Has Hnt]. unfold rank. split.
  - intros x y Hx Hy. repeat case_match; reflect_bools; try done; try lia. auto.
  - intros x y z Hx Hy Hz. repeat case_match; reflect_bools; try done; try lia; auto.
Qed.
Lemma bidBefore_rank a b : bidBefore a b = rank (-1) a b.
Proof. unfold bidBefore, rank. repeat case_match; reflect_bools; try done; lia. Qed.
Lemma askBefore_rank a b : askBefore a b = rank 1 a b.
Proof. unfold askBefore, rank. repeat case_match; reflect_bools; try done; lia. Qed.

Lemma weak_order_ext {A} (less less' : A → A → bool) l :
  (∀ a b, less a b = less' a b) → weak_order_on less' l → weak_order_on less l.
Proof. intros Heq [Has Hnt]. split; intros *; rewrite !Heq; auto. Qed.
(** Levels that neither order puts first have one price and one name. *)
Lemma rank_same dir a b :
  rank dir a b = false → rank dir b a = false → ToLower (vl_Venue a) = ToLower (vl_Venue b).
Proof. unfold rank. repeat case_match; intros; reflect_bools; try done; try lia. by apply str_le_antisym. Qed.

Definition activeName (t : CrossVenueVenueBook * Level * Level) : string := ToLower (vb_Venue t.1.1).

(** Venues with distinct names have one level each on a side. *)
Lemma one_level_each (f : CrossVenueVenueBook * Level * Level → VenueLevel) active x y :
  (∀ t, vl_Venue (f t) = vb_Venue t.1.1) → NoDup (activeName <$> active) →
  x ∈ f <$> active → y ∈ f <$> active → ToLower (vl_Venue x) = ToLower (vl_Venue y) → x = y.
Proof.
  intros Hf Hnd (t & -> & Ht)%list_elem_of_fmap (u & -> & Hu)%list_elem_of_fmap. rewrite !Hf. intros Heq.
  apply list_elem_of_lookup in Ht as [i Hi], Hu as [j Hj].
  assert (i = j) as ->; [|congruence].
  apply (NoDup_lookup (activeName <$> active) i j (activeName t)); [done| |]; rewrite list_lookup_fmap.
  - by rewrite Hi.
  - rewrite Hj. cbn. unfold activeName. by rewrite Heq.
Qed.

Lemma sorted_head {A} (less : A → A → bool) x l y :
  (∀ l, weak_order_on less l) → Sorted (λ a b, less b a = false) (x :: l) → y ∈ l → less y x = false.
Proof.
  intros Hw Hs Hy. apply Sorted_StronglySorted in Hs.
  - inversion Hs as [|? ? _ Hall]; subst. rewrite Forall_forall in Hall. auto.
  - by apply weak_order_trans.
Qed.

Lemma side_ranked dir before (f : CrossVenueVenueBook * Level * Level → VenueLevel) active sorted :
  (∀ a b, before a b = rank dir a b) → (∀ t, vl_Venue (f t) = vb_Venue t.1.1) →
  NoDup (activeName <$> active) → sorted ≡ₚ active →
  sort_slice before (f <$> sorted) = sort_by before (f <$> active) ∧
  ∀ top rest l, sort_slice before (f <$> sorted) = top :: rest → l ∈ rest →
    dir * vl_PriceFP top ≤ dir * vl_PriceFP l.
Proof.
  intros Hb Hf Hnd Hp. assert (Hw : ∀ l, weak_order_on before l).
  { intros l. apply (weak_order_ext _ (rank dir)); [done|apply rank_order]. }
  split.
  - apply sort_slice_reference; [done| |by apply fmap_Permutation].
    intros x y Hx Hy. rewrite !Hb. intros Hxy Hyx. apply (one_level_each f sorted); [done|by rewrite Hp|done..|].
    by apply (rank_same dir).
  - intros top rest l Hs Hl. pose proof (sort_slice_sorted before (f <$> sorted) (Hw _)) as Hsort.
    rewrite Hs in Hsort. apply (sorted_head before _ _ l) in Hsort; [|done..].
    rewrite Hb in Hsort. unfold rank in Hsort. repeat case_match; reflect_bools; try done; lia.
Qed.

Lemma Merge_ok instrument nowMs books thr c :
  Merge instrument nowMs books thr = inr c →
  let active := sort_slice (λ a b, str_ltb (activeName a) (activeName b)) (omap (activeBook nowMs thr) books) in
  BestBids c = sort_slice bidBefore (bidLevels active) ∧ BestAsks c = sort_slice askBefore (askLevels active).
Proof.
  unfold Merge. destruct (Collect _); [done|]. destruct (thr <=? 0); [done|]. cbv zeta.
  change (λ a b : CrossVenueVenueBook * Level * Level, str_ltb (ToLower (vb_Venue a.1.1)) (ToLower (vb_Venue b.1.1)))
    with (λ a b, str_ltb (activeName a) (activeName b)).
  set (active := sort_slice (λ a b, str_ltb (activeName a) (activeName b)) _). fold (bidLevels active) (askLevels active).
  destruct (sort_slice bidBefore (bidLevels active)) as [|bid bids] eqn:Hb,
    (sort_slice askBefore (askLevels active)) as [|ask asks] eqn:Ha.
  all: try destruct (spreadRange active); intros [= <-]; cbn; try done; exfalso.
  all: apply (f_equal length) in Hb, Ha;
    rewrite (Permutation_length (sort_slice_perm _ _)) in Hb;
    rewrite (Permutation_length (sort_slice_perm _ _)) in Ha; unfold bidLevels, askLevels in *;
    rewrite length_fmap in Hb, Ha; cbn in Hb, Ha; lia.
Qed.

(** The merged top of book ranks the active venues, each once on each side, by
    price and then by name, however their books are ordered; the first bid is the
    highest and the first ask the lowest. *)
Theorem cross_venue_ranks_active_venues instrument nowMs books thr c :
  Merge instrument nowMs books thr = inr c →
  let active := omap (activeBook nowMs thr) books in
  NoDup (activeName <$> active) →
  BestBids c = sort_by bidBefore (bidLevels active) ∧
  BestAsks c = sort_by askBefore (askLevels active) ∧
  (∀ top rest l, BestBids c = top :: rest → l ∈ rest → vl_PriceFP l ≤ vl_PriceFP top) ∧
  (∀ top rest l, BestAsks c = top :: rest → l ∈ rest → vl_PriceFP top ≤ vl_PriceFP l).
Proof.
  intros [Hb Ha]%Merge_ok active Hnd.
  set (sorted := sort_slice (λ a b, str_ltb (activeName a) (activeName b)) _) in Hb, Ha.
  assert (Hp : sorted ≡ₚ active) by apply sort_slice_perm.
  destruct (side_ranked (-1) bidBefore (λ '(book, bid, _), venueLevel (vb_Venue book) bid) active sorted)
    as [Hb1 Hb2]; [apply bidBefore_rank|by intros [[? ?] ?]|done..|].
  destruct (side_ranked 1 askBefore (λ '(book, _, ask), venueLevel (vb_Venue book) ask) active sorted)
    as [Ha1 Ha2]; [apply askBefore_rank|by intros [[? ?] ?]|done..|].
  split_and!; [by rewrite Hb|by rewrite Ha| |].
  - intros top rest l Ht Hl. rewrite Hb in Ht. specialize (Hb2 _ _ _ Ht Hl). lia.
  - intros top rest l Ht Hl. rewrite Ha in Ht. specialize (Ha2 _ _ _ Ht Hl). lia.
Qed.
End crossvenue.

(** ** Grouped levels *)

Section grouped.
Context (groupSize : float64) (maxRows : Z).

(** A row is the sum of a run of levels in its bucket. *)
Definition runOf (run : list Level) (row : GroupedLevel) : Prop :=
  match run with
  | [] => False
  | l :: rest =>
      gl_Price row = bucketOf groupSize l ∧
      Forall (λ l', feqb (gl_Price row) (bucketOf groupSize l') = true) rest ∧
      TotalQuantity row = foldl fadd (Quantity l) (Quantity <$> rest) ∧
      LevelCount row = Z.of_nat (length run)
  end.
Definition differ (a b : GroupedLevel) : Prop := feqb (gl_Price a) (gl_Price b) = false.
Definition valid (levels : list Level) : list Level := filter (λ l, skipped l = false) levels.

Lemma runOf_extend run row l :
  runOf run row → feqb (gl_Price row) (bucketOf groupSize l) = true →
  runOf (run ++ [l]) (row <| TotalQuantity ::= λ q, fadd q (Quantity l) |> <| LevelCount ::= Z.succ |>).
Proof.
  destruct run as [|l0 run]; [done|]. intros (Hp & Hall & Hq & Hn) Hl. cbn in *. split_and!.
  - done.
  - apply Forall_app. by repeat constructor.
  - by rewrite fmap_app, foldl_app, <- Hq.
  - rewrite length_app. cbn. lia.
Qed.

Lemma Sorted_snoc {A} (R : A → A → Prop) l x y : Sorted R (l ++ [x]) → R x y → Sorted R ((l ++ [x]) ++ [y]).
Proof.
  induction l as [|z [|z' l] IH]; cbn; intros Hs Hxy; inversion Hs as [|? ? Hl Hhd]; subst.
  - by repeat constructor.
  - constructor; [by apply IH|]. inversion Hhd; subst. by constructor.
  - constructor; [by apply IH|]. inversion Hhd; subst. by constructor.
Qed.
Lemma Sorted_snoc_ext {A} (R : A → A → Prop) l x x' :
  (∀ z, R z x → R z x') → Sorted R (l ++ [x]) → Sorted R (l ++ [x']).
Proof.
  intros HR. induction l as [|z [|z' l] IH]; cbn; intros Hs; inversion Hs as [|? ? Hl Hhd]; subst.
  - by repeat constructor.
  - constructor; [by apply IH|]. inversion Hhd; subst. constructor. auto.
  - constructor; [by apply IH|]. inversion Hhd; subst. by constructor.
Qed.

(** [out] groups the runs so far. *)
Record groups (runs : list (list Level)) (out : list GroupedLevel) : Prop := {
  groups_runs : Forall2 runOf runs out;
  groups_differ : Sorted differ out;
  groups_max : 0 < maxRows → Z.of_nat (length out) ≤ maxRows;
}.

Lemma groups_fresh runs out l :
  groups runs out → (∀ row, last out = Some row → feqb (gl_Price row) (bucketOf groupSize l) = false) →
  (0 < maxRows → Z.of_nat (length out) < maxRows) →
  groups (runs ++ [[l]]) (out ++ [MkGroupedLevel (bucketOf groupSize l) (Quantity l) 1 f0]).
Proof.
  intros [Hr Hd _] Hlast Hmax. split.
  - apply Forall2_app; [done|]. constructor; [|constructor]. by cbn.
  - destruct out as [|row o _] using rev_ind; [by repeat constructor|].
    apply Sorted_snoc; [done|]. apply Hlast. by rewrite last_snoc.
  - rewrite length_app. cbn. lia.
Qed.

Lemma groups_extend runs out row l :
  groups runs out → last out = Some row → feqb (gl_Price row) (bucketOf groupSize l) = true →
  ∃ runs', concat runs' = concat runs ++ [l] ∧
    groups runs' (alter (λ row, row <| TotalQuantity ::= λ q, fadd q (Quantity l) |> <| LevelCount ::= Z.succ |>)
                    (pred (length out)) out).
Proof.
  intros [Hr Hd Hm] Hlast Hl. destruct out as [|row' o _] using rev_ind; [done|].
  rewrite last_snoc in Hlast. injection Hlast as ->.
  rewrite length_app. replace (pred (length o + length [row]))%nat with (length o + 0)%nat by (cbn; lia).
  rewrite alter_app_r. cbn [alter list_alter].
  apply Forall2_app_inv_r in Hr as (rs & ? & Hrs & Hrun & ->).
  inversion Hrun as [|run ? ? ? Hr Hnil]; subst. inversion Hnil; subst.
  exists (rs ++ [run ++ [l]]). split; [rewrite !concat_app; cbn; rewrite !app_nil_r; by rewrite app_assoc|]. split.
  - apply Forall2_app; [done|]. constructor; [|constructor]. by apply runOf_extend.
  - by apply (Sorted_snoc_ext _ _ row).
  - rewrite length_app in Hm |- *. done.
Qed.

Lemma groupLoop_groups levels out runs :
  groups runs out →
  ∃ runs' rest, concat runs ++ valid levels = concat runs' ++ rest ∧
    groups runs' (groupLoop groupSize maxRows levels out) ∧
    (rest ≠ [] → 0 < maxRows ∧ Z.of_nat (length (groupLoop groupSize maxRows levels out)) = maxRows).
Proof.
  revert out runs. induction levels as [|l levels IH]; intros out runs Hg.
  { exists runs, []. by split_and!. }
  unfold valid. rewrite filter_cons. cbn [groupLoop]. destruct (skipped l) eqn:Hskip; [by apply IH|].
  rewrite decide_True by done. fold (valid levels). cbv zeta.
  destruct (match last out with Some row => feqb (gl_Price row) (bucketOf groupSize l) | None => false end) eqn:Hsame.
  - destruct (last out) as [row|] eqn:Hlast; [|done].
    destruct (groups_extend runs out row l) as (runs' & Hc & Hg'); [done..|].
    destruct (IH _ _ Hg') as (runs'' & rest & Heq & Hres). exists runs'', rest.
    split; [|done]. rewrite <- Heq, Hc. by rewrite <- app_assoc.
  - destruct (_ && _) eqn:Hfull.
    + apply andb_prop in Hfull as [?%Z.ltb_lt ?%Z.leb_le]. exists runs, (l :: valid levels).
      split_and!; [done..|]. intros _. pose proof (groups_max _ _ Hg). lia.
    + apply andb_false_iff in Hfull. rewrite Z.ltb_ge, Z.leb_gt in Hfull.
      edestruct (IH _ _ (groups_fresh runs out l Hg ltac:(intros row Hrow; by rewrite Hrow in Hsame) ltac:(lia)))
        as (runs' & rest & Heq & Hres).
      exists runs', rest. split; [|done]. rewrite <- Heq, concat_app. cbn. by rewrite <- app_assoc.
Qed.
End grouped.

Lemma fillFrom_spec running grouped i g :
  fillFrom running grouped !! i = Some g →
  ∃ g0, grouped !! i = Some g0 ∧
    g = g0 <| CumulativeQuantity := foldl fadd running (TotalQuantity <$> take (S i) grouped) |>.
Proof.
  revert running i. induction grouped as [|g0 grouped IH]; intros running i; [done|].
  destruct i as [|i]; cbn.
  - intros [= <-]. by exists g0.
  - intros (g1 & ? & ->)%IH. by exists g1.
Qed.

(** Grouping partitions the usable levels, in order, into runs of one bucket, one
    row each, and stops only when the rows are used up; a row counts its run and
    sums its quantities from the first, and the cumulative quantities are the
    running sums of the rows. *)
Theorem grouping_partitions_levels levels groupSize maxRows :
  let size := if negb (isFinite groupSize) || fleb groupSize f0 then f1 else groupSize in
  let rows := GroupLevels levels groupSize maxRows in
  (∃ runs rest, valid levels = concat runs ++ rest ∧ Forall2 (runOf size) runs rows ∧ Sorted differ rows ∧
     (rest ≠ [] → 0 < maxRows ∧ Z.of_nat (length rows) = maxRows)) ∧
  ∀ i g, FillCumulative rows !! i = Some g → ∃ g0, rows !! i = Some g0 ∧
    g = g0 <| CumulativeQuantity := foldl fadd f0 (TotalQuantity <$> take (S i) rows) |>.
Proof.
  intros size rows. split; [|apply fillFrom_spec].
  destruct (groupLoop_groups size maxRows levels [] []) as (runs & rest & Heq & [Hr Hd _] & Hrest).
  { split; [constructor..|]. cbn. lia. }
  exists runs, rest. by split_and!.
Qed.

(** ** Concrete runs *)

Definition lvl (p q : Z) : Level := MkLevel (f_of_Z p) (f_of_Z q).
Definition twoVenues : list FusionDepthInput :=
  [MkFusionDepthInput "OKX" 990 7 [lvl 100 2; lvl 99 1] [lvl 101 3];
   MkFusionDepthInput "BINANCE" 1000 9 [lvl 100 5] [lvl 102 1; lvl 101 4];
   MkFusionDepthInput "KRAKEN" 10 1 [lvl 98 1] [lvl 103 1]].

(** The stale venue is left out; sizes at one price add up. *)
Example fused_example :
  observed (S:=unit) (λ _ s, (fd_Bids s, fd_Asks s, SourceVenues s))
    (tt, FuseDepth (GR:=go_amd64) "BTC-USDT" 1000 twoVenues FusionMerge 500) =
  Some ([MkFusedLevel 10000000000 700000000 ["BINANCE"; "OKX"]; MkFusedLevel 9900000000 100000000 ["OKX"]],
        [MkFusedLevel 10100000000 700000000 ["BINANCE"; "OKX"]; MkFusedLevel 10200000000 100000000 ["BINANCE"]],
        ["BINANCE"; "OKX"]).
Proof. by vm_compute. Qed.

Definition twoVenuesFused : FusedDepthSnapshotV1 :=
  match FuseDepth (GR:=go_amd64) "BTC-USDT" 1000 twoVenues FusionMerge 500 with
  | inr s => s
  | inl _ => MkFusedDepth "" 0 "" [] [] [] f0 (MkFusionMeta "" f0 [] (MkStalenessReport 0 0 0 0) [])
  end.
Lemma twoVenues_fuse : FuseDepth (GR:=go_amd64) "BTC-USDT" 1000 twoVenues FusionMerge 500 = inr twoVenuesFused.
Proof. by vm_compute. Qed.
Lemma twoVenues_times : Forall (λ inp, in_i64 (fi_TsIngestMs inp)) twoVenues.
Proof. repeat constructor; cbn; unfold MinInt64, MaxInt64; lia. Qed.
Lemma now_in_range : in_i64 1000.
Proof. unfold in_i64, MinInt64, MaxInt64. lia. Qed.

Lemma fused_depth_sums_active_venues_witness :
  fd_Bids twoVenuesFused = cap (fusedSide true (contributions (GR:=go_amd64) true
    (filter (isActive (GR:=go_amd64) 1000 500) twoVenues))).
Proof.
  exact (proj1 (fused_depth_sums_active_venues (GR:=go_amd64) _ _ _ _ _ now_in_range twoVenues_times twoVenues_fuse)).
Defined.

Lemma fused_snapshot_valid_iff_witness : FusedDepth_Validate (GR:=go_amd64) twoVenuesFused = None.
Proof.
  apply (fused_snapshot_valid_iff (GR:=go_amd64) _ _ _ _ _ _ now_in_range twoVenues_times twoVenues_fuse).
  split; [|vm_compute; lia]. exists (MkFusionDepthInput "OKX" 990 7 [lvl 100 2; lvl 99 1] [lvl 101 3]).
  split; [left|]. split_and!; [by vm_compute|cbn; lia|cbn; lia|by left].
Defined.

(** The venues in another order, on a runtime that sorts and ranges in another way. *)
Program Definition go_shuffled : GoRuntime := {|
  f2i_overflow _ := MinInt64;
  trim_unicode := trim_ascii;
  lower_unicode := str_map lower_ascii;
  upper_unicode := str_map upper_ascii;
  alnum_unicode s := s;
  equal_fold_unicode := String.eqb;
  sort_slice _ less l := sort_by less (reverse l);
  map_range _ _ _ _ m := reverse (map_to_list m);
  nan_bits := 9221120237041090561;
|}.
Next Obligation. intros f. unfold in_i64, MinInt64, MaxInt64. lia. Qed.
Next Obligation. intros s _. cbn. destruct (is_ascii _); apply trim_ascii_idem. Qed.
Next Obligation. intros. by rewrite sort_by_perm, reverse_Permutation. Qed.
Next Obligation.
  intros A less l Hw. apply sort_by_sorted. eapply weak_order_on_sub; [|exact Hw].
  intros x. by rewrite reverse_Permutation.
Qed.
Next Obligation. intros. apply reverse_Permutation. Qed.

Lemma fusion_is_deterministic_witness :
  FuseDepth (GR:=go_amd64) "BTC-USDT" 1000 twoVenues FusionMerge 500 =
  FuseDepth (GR:=go_shuffled) "BTC-USDT" 1000 (reverse twoVenues) FusionMerge 500.
Proof.
  apply (fusion_is_deterministic go_amd64 go_shuffled).
  - done.
  - vm_compute. repeat constructor; set_solver.
  - symmetry. apply reverse_Permutation.
Defined.

Definition topBooks : list CrossVenueVenueBook :=
  [MkVenueBook "OKX" 990 7 (Some (lvl 100 2)) (Some (lvl 103 3));
   MkVenueBook "BINANCE" 1000 9 (Some (lvl 100 5)) (Some (lvl 102 4))].
Definition topMerged : CrossVenueBookSnapshotV1 :=
  match Merge (GR:=go_amd64) "BTC-USDT" 1000 topBooks 500 with
  | inr c => c
  | inl _ => MkCrossVenueBook "" 0 [] [] f0 f0
  end.
Lemma topBooks_merge : Merge (GR:=go_amd64) "BTC-USDT" 1000 topBooks 500 = inr topMerged.
Proof. by vm_compute. Qed.

Lemma cross_venue_ranks_active_venues_witness :
  BestBids topMerged = sort_by (bidBefore (GR:=go_amd64)) (bidLevels (GR:=go_amd64) (omap (activeBook (GR:=go_amd64) 1000 500) topBooks)) ∧
  BestBids topMerged = [MkVenueLevel "BINANCE" 10000000000 500000000; MkVenueLevel "OKX" 10000000000 200000000].
Proof.
  split; [|by vm_compute].
  apply (cross_venue_ranks_active_venues (GR:=go_amd64) _ _ _ _ _ topBooks_merge).
  vm_compute. repeat constructor; set_solver.
Defined.
