(* ===== verification/BuildCandle.v ===== *)
(** * BuildCandle: internal/core/aggregation/app/build_candle.go

    The use case that turns trades into closed candles: it validates a trade,
    asks the window manager for the window, closes and emits the 1s candle the
    trade leaves, applies the trade, and folds a closed 1s candle into the
    candles of the higher timeframes.

    The store and the publisher are ports: [CandlePorts] answers each call from
    the history of calls, in any way; the state keeps that history, which is what
    the outside world has seen. Metrics are not modelled. *)

From S2P Require Import Prelude GoRuntime Shared BoundedMap Cells Candle Watermark.

Local Open Scope string_scope.
Local Open Scope list_scope.
Local Open Scope Z_scope.

#[export] Instance CandleKey_eq_dec : EqDecision CandleKey.
Proof. solve_decision. Defined.
#[export] Instance CandleKey_countable : Countable CandleKey :=
  inj_countable' (λ k, (key_Venue k, key_Instrument k, key_Timeframe k))
    (λ t, MkCandleKey t.1.1 t.1.2 t.2) (λ k, match k with MkCandleKey _ _ _ => eq_refl end).

Definition candleTimeframeBase : string := "1s".

Definition Second : Z := 1000000000.
Definition Minute : Z := 60 * Second.
Definition Hour : Z := 60 * Minute.
(** [d.Milliseconds()] *)
Definition Milliseconds (d : Z) : Z := Z.quot d 1000000.

Record BuildCandleConfig := MkBuildCandleConfig {
  MaxCandles : Z;
  WindowCap : Z;
  CandleTTL : Z;
  LateTolerance : Z;
  WindowDuration : option (gmap string Z);
}.

Record BuildCandleRequest := MkBuildCandleRequest {
  req_Venue : string;
  req_Instrument : string;
  req_Price : float64;
  req_Quantity : float64;
  req_IsBuy : bool;
  req_Seq : Z;
  req_TsIngest : Z;
}.

Record BuildCandleResponse := MkBuildCandleResponse { resp_Closed : list CandleClosed; resp_Active : Z }.

(** A call of a port, with its answer. *)
Inductive PortCall :=
| CallSaveCandle (evt : CandleClosed) (answer : option Problem)
| CallPublishCandleClosed (evt : CandleClosed) (answer : option Problem).

Class CandlePorts := {
  SaveCandle : list PortCall → CandleClosed → option Problem;
  PublishCandleClosed : list PortCall → CandleClosed → option Problem;
}.

Record BuildCandleFromEvents := MkBuildCandle {
  hasPublisher : bool;
  hasStore : bool;
  candles : Cells CandleKey CandleV1;
  windows : option WatermarkWindowManager;
  windowMs : gmap string Z;
  timeframes : list string;
  portCalls : list PortCall;
}.
#[export] Instance BuildCandle_eta : Eta BuildCandleFromEvents := λ r,
  MkBuildCandle (hasPublisher r) (hasStore r) (candles r) (windows r) (windowMs r) (timeframes r) (portCalls r).

Abbreviation UCM := (Meth BuildCandleFromEvents Problem).

Definition defaultDurations : gmap string Z := list_to_map [
  ("1s", Second); ("5s", 5 * Second); ("1m", Minute); ("5m", 5 * Minute); ("15m", 15 * Minute);
  ("30m", 30 * Minute); ("1h", Hour); ("4h", 4 * Hour); ("1d", 24 * Hour)].

Fixpoint resolveLoop (config : option (gmap string Z)) (allowed : list string) (out : gmap string Z)
    : Problem + gmap string Z :=
  match allowed with
  | [] => inr out
  | timeframe :: rest =>
      let dur := default 0 (defaultDurations !! timeframe) in
      let dur := match config with
                 | Some config => default dur (config !! timeframe)
                 | None => dur
                 end in
      if dur <=? 0 then
        inl (Newf ValidationFailed "window duration must be > 0 for timeframe=%s" [AnyStr timeframe])
      else resolveLoop config rest (<[timeframe := Milliseconds dur]> out)
  end.
Definition resolveWindowDurations (config : option (gmap string Z)) (allowed : list string)
    : Problem + gmap string Z := resolveLoop config allowed ∅.

Definition bucketStart (tsMs windowMs : Z) : Z :=
  if windowMs <=? 0 then tsMs else mul64 (quot64 tsMs windowMs) windowMs.

Section build_candle.
Context {GR : GoRuntime} {ports : CandlePorts} (clk : nat → Z).

Definition NewBuildCandleFromEvents (pub store : bool) (cfg : BuildCandleConfig) : BuildCandleFromEvents :=
  let maxCandles := if MaxCandles cfg <=? 0 then 50000 else MaxCandles cfg in
  let candleTTL := if CandleTTL cfg <=? 0 then Hour else CandleTTL cfg in
  let windowCap := if WindowCap cfg <=? 0 then 96 else WindowCap cfg in
  let lateTolerance := if LateTolerance cfg <=? 0 then 30 * Second else LateTolerance cfg in
  let windowMs := match resolveWindowDurations (WindowDuration cfg) AllowedCandleTimeframes with
    | inr ms => ms
    | inl _ => default ∅ (ok_of (resolveWindowDurations None AllowedCandleTimeframes))
    end in
  let candles := newCells clk maxCandles candleTTL in
  let candles := candles <| cmap ::= SetSweepEveryOps 1024 |> <| cmap ::= SetSweepMinInterval Second |> in
  let windows := match NewWatermarkWindowManager (MkWatermarkConfig windowCap (Milliseconds lateTolerance)) with
    | inr w => Some w
    | inl _ => ok_of (NewWatermarkWindowManager (MkWatermarkConfig 96 30000))
    end in
  MkBuildCandle pub store candles windows windowMs
    ["1s"; "5s"; "1m"; "5m"; "15m"; "30m"; "1h"; "4h"; "1d"] [].

Definition onCandles {A} (m : Meth (Cells CandleKey CandleV1) Problem A) : UCM A := λ uc,
  let '(c, r) := m (candles uc) in (uc <| candles := c |>, r).

(** [uc.windowMs[timeframe]] *)
Definition durationOf (uc : BuildCandleFromEvents) (timeframe : string) : Z :=
  default 0 (windowMs uc !! timeframe).

(** A call of a port: the answer is logged, an error is returned. *)
Definition callPort (answer : list PortCall → option Problem) (call : option Problem → PortCall) : UCM unit := λ uc,
  let r := answer (portCalls uc) in
  (uc <| portCalls ::= λ l, l ++ [call r] |>, match r with Some p => inl p | None => inr tt end).

Definition persistClosedCandle (candle : CandleV1) : UCM CandleClosed :=
  let evt := NewCandleClosed candle in
  uc ← recv;
  (if hasStore uc then callPort (λ h, SaveCandle h evt) (CallSaveCandle evt) else mret tt) ;;
  (if hasPublisher uc then callPort (λ h, PublishCandleClosed h evt) (CallPublishCandleClosed evt) else mret tt) ;;
  mret evt.

Definition validateRequest (req : BuildCandleRequest) : option Problem :=
  match Collect [NonEmptyString "venue" (req_Venue req); NonEmptyString "instrument" (req_Instrument req);
                 PositiveInt "seq" (req_Seq req); PositiveInt "ts_ingest" (req_TsIngest req)] with
  | Some p => Some p
  | None =>
      if isNaN (req_Price req) || isInf (req_Price req) || fleb (req_Price req) f0 then
        Some (New ValidationFailed "price must be a positive finite number")
      else if isNaN (req_Quantity req) || isInf (req_Quantity req) || fleb (req_Quantity req) f0 then
        Some (New ValidationFailed "quantity must be a positive finite number")
      else None
  end.

Definition closeIfWindowChanged (key : CandleKey) (windowStart windowDurationMs : Z)
    : UCM (option CandleClosed * option CandleV1) :=
  found ← onCandles (cellGet clk key);
  match found with
  | None => mret (None, None)
  | Some existing =>
      c ← onCandles (load existing);
      if WindowStartTs c =? windowStart then mret (None, None) else
      onCandles (callAt existing (Close (add64 (WindowStartTs c) windowDurationMs))) ;;
      closedNow ← onCandles (load existing);
      closedEvt ← persistClosedCandle closedNow;
      onCandles (cellDelete clk key) ;;
      mret (Some closedEvt, Some (closed_candle closedEvt))
  end.

Definition getOrCreateCandle (key : CandleKey) (windowStart : Z) : UCM Z :=
  found ← onCandles (cellGet clk key);
  match found with
  | Some a =>
      c ← onCandles (load a);
      fail_if (negb (WindowStartTs c =? windowStart))
        (New IntegrityViolation "candle window mismatch after window roll") ;;
      mret a
  | None =>
      c ← try_ (NewCandleV1 (key_Venue key) (key_Instrument key) (key_Timeframe key) windowStart);
      a ← onCandles (alloc c);
      onCandles (cellPut clk key a) ;;
      mret a
  end.

Definition forceCloseWindow (forced : ForcedWindowClose) : UCM (option CandleClosed) :=
  let fk := forced_Key forced in
  let key := MkCandleKey (wk_Venue fk) (wk_Instrument fk) (wk_Timeframe fk) in
  found ← onCandles (cellGet clk key);
  match found with
  | None => mret None
  | Some existing =>
      c ← onCandles (load existing);
      if negb (WindowStartTs c =? forced_WindowStart forced) then mret None else
      uc ← recv;
      let windowDurationMs := durationOf uc (key_Timeframe key) in
      fail_if (windowDurationMs <=? 0)
        (Newf ValidationFailed "window duration must be > 0 for timeframe=%s" [AnyStr (key_Timeframe key)]) ;;
      onCandles (callAt existing (Close (add64 (WindowStartTs c) windowDurationMs))) ;;
      closedNow ← onCandles (load existing);
      evt ← persistClosedCandle closedNow;
      onCandles (cellDelete clk key) ;;
      mret (Some evt)
  end.

(** [domain.WindowKey(key)] *)
Definition windowKey (key : CandleKey) : WindowKey :=
  MkWindowKey (key_Venue key) (key_Instrument key) (key_Timeframe key).

Definition observeWindow (key : CandleKey) (eventTsMs windowDurationMs : Z)
    : UCM (WindowDecision * option CandleClosed) :=
  uc ← recv;
  match windows uc with
  | None => mret (MkDecision (bucketStart eventTsMs windowDurationMs) false 0 false None, None)
  | Some w =>
      let '(w', r) := Observe (windowKey key) eventTsMs windowDurationMs w in
      assign (λ uc, uc <| windows := Some w' |>) ;;
      decision ← try_ r;
      match ForcedClose decision with
      | None => mret (decision, None)
      | Some forced =>
          forcedClosed ← forceCloseWindow forced;
          mret (decision, forcedClosed)
      end
  end.

Definition optList {A} (o : option A) : list A := match o with Some x => [x] | None => [] end.

(** The loop of [cascadeFromClosedBase] over the timeframes still to visit. *)
Fixpoint cascadeLoop (base : CandleV1) (tfs : list string) (closed : list CandleClosed) : UCM (list CandleClosed) :=
  match tfs with
  | [] => mret closed
  | timeframe :: rest =>
      if str_eqb timeframe candleTimeframeBase then cascadeLoop base rest closed else
      let key := MkCandleKey (Venue base) (Instrument base) timeframe in
      uc ← recv;
      observed ← observeWindow key (WindowStartTs base) (durationOf uc timeframe);
      let '(decision, forcedClosed) := observed in
      let closed := closed ++ optList forcedClosed in
      if IsLate decision then cascadeLoop base rest closed else
      let windowStart := WindowStart decision in
      uc ← recv;
      rolled ← closeIfWindowChanged key windowStart (durationOf uc timeframe);
      let closed := closed ++ optList (fst rolled) in
      candle ← getOrCreateCandle key windowStart;
      onCandles (callAt candle (ApplyClosedCandle base)) ;;
      onCandles (cellPut clk key candle) ;;
      cascadeLoop base rest closed
  end.
Definition cascadeFromClosedBase (base : CandleV1) : UCM (list CandleClosed) :=
  uc ← recv;
  cascadeLoop base (timeframes uc) [].

Definition respond (closed : list CandleClosed) : UCM BuildCandleResponse :=
  uc ← recv;
  mret (MkBuildCandleResponse closed (cellLen (candles uc))).

Definition Execute (req : BuildCandleRequest) : UCM BuildCandleResponse :=
  check (validateRequest req) ;;
  let venue := CanonicalVenue (req_Venue req) in
  let instrument := CanonicalInstrument (req_Instrument req) in
  let baseKey := MkCandleKey venue instrument candleTimeframeBase in
  uc ← recv;
  observed ← observeWindow baseKey (req_TsIngest req) (durationOf uc candleTimeframeBase);
  let '(baseDecision, forcedClosed) := observed in
  let closed := optList forcedClosed in
  if IsLate baseDecision then respond closed else
  let baseWindowStart := WindowStart baseDecision in
  uc ← recv;
  rolled ← closeIfWindowChanged baseKey baseWindowStart (durationOf uc candleTimeframeBase);
  let '(baseClosedEvt, baseClosed) := rolled in
  let closed := closed ++ optList baseClosedEvt in
  baseCandle ← getOrCreateCandle baseKey baseWindowStart;
  onCandles (callAt baseCandle (ApplyTrade (req_Price req) (req_Quantity req) (req_IsBuy req) (req_Seq req))) ;;
  onCandles (cellPut clk baseKey baseCandle) ;;
  match baseClosed with
  | Some base =>
      cascadeClosed ← cascadeFromClosedBase base;
      respond (closed ++ cascadeClosed)
  | None => respond closed
  end.

Definition ActiveCandles (uc : BuildCandleFromEvents) : Z := cellLen (candles uc).
End build_candle.
