(* ===== verification/BuildCandleSpec.v ===== *)
(** * BuildCandleSpec: what the candle use case promises

    - the store invariant: every key owns its own candle, with the key's identity;
    - emission: a successful request returns exactly the candles that were saved
      and published, in order, all of them closed and non-empty;
    - the window manager's forced closes never close anything (their keys carry
      the venue in lower case, the candles' keys in upper case);
    - a failed save leaves a closed candle behind that blocks its key. *)

From S2P Require Import Prelude GoRuntime Shared BoundedMap Cells Candle CandleSpec Watermark BuildCandle.

Local Open Scope string_scope.
Local Open Scope list_scope.
Local Open Scope Z_scope.

(** ** Candle methods keep the identity *)

Definition identity (c : CandleV1) : string * string * string * Z :=
  (Venue c, Instrument c, Timeframe c, WindowStartTs c).
(** The identity and the lifecycle fields. *)
Definition lifecycle (c : CandleV1) : string * string * string * Z * Z * bool * Z :=
  (Venue c, Instrument c, Timeframe c, WindowStartTs c, WindowEndTs c, IsClosed c, TradeCount c).

Section methods.
Context {GR : GoRuntime}.

Lemma hydrate1_keeps {B} (f : CandleV1 → B) cond conv set :
  (∀ z c, f (set z c) = f c) → keeps f (hydrate1 cond conv set).
Proof.
  intros Hset. unfold hydrate1. apply keeps_bind; [apply keeps_recv|]. intros c.
  destruct (cond c); [|apply keeps_ret]. apply keeps_bind; [apply keeps_try|]. intros z.
  apply keeps_assign. apply Hset.
Qed.
Lemma hydrate_keeps : keeps lifecycle hydrateFixedFromFields.
Proof.
  unfold hydrateFixedFromFields. apply keeps_bind; [apply keeps_recv|]. intros c.
  destruct (TradeCount c <=? 0); [apply keeps_ret|].
  repeat (apply keeps_bind; [by apply hydrate1_keeps|intros _]). by apply hydrate1_keeps.
Qed.
Lemma Validate_keeps : keeps lifecycle Validate.
Proof. pose proof hydrate_keeps. unfold Validate. solve_keeps. Qed.

Lemma keeps_weaken {A B C} (f : CandleV1 → B) (g : B → C) (m : CandleM A) :
  keeps f m → keeps (λ c, g (f c)) m.
Proof. intros H c. cbn. by rewrite H. Qed.
Lemma Validate_keeps_identity : keeps identity Validate.
Proof. exact (keeps_weaken lifecycle (λ x, let '(v, i, t, w, _, _, _) := x in (v, i, t, w)) _ Validate_keeps). Qed.

Lemma tradeUpdate_identity p q b s c : identity (tradeUpdate p q b s c) = identity c.
Proof. pose proof (tradeUpdate_ident p q b s c) as H. unfold ident_fields, identity in *. congruence. Qed.
Lemma childUpdate_identity child c : identity (childUpdate child c) = identity c.
Proof. pose proof (childUpdate_ident child c) as H. unfold ident_fields, identity in *. congruence. Qed.

Lemma sync_keeps : keeps identity syncFromFixed.
Proof. done. Qed.

#[local] Hint Resolve tradeUpdate_identity childUpdate_identity : golib.

Lemma ApplyTrade_keeps price qty isBuy seq : keeps identity (ApplyTrade price qty isBuy seq).
Proof. pose proof Validate_keeps_identity. pose proof sync_keeps. unfold ApplyTrade. solve_keeps. Qed.
Lemma ApplyClosedCandle_keeps child : keeps identity (ApplyClosedCandle child).
Proof. pose proof Validate_keeps_identity. pose proof sync_keeps. unfold ApplyClosedCandle. solve_keeps. Qed.
Lemma Close_keeps we : keeps identity (Close we).
Proof. pose proof Validate_keeps_identity. unfold Close. solve_keeps. Qed.

(** A candle that was closed: it has trades and a window. *)
Definition sealed (c : CandleV1) : Prop :=
  IsClosed c = true ∧ 0 < TradeCount c ∧ WindowStartTs c < WindowEndTs c.

Lemma Close_seals we c c' : Close we c = (c', inr tt) → sealed c' ∧ WindowEndTs c' = we ∧ IsClosed c = false.
Proof.
  unfold Close. intros H. inv_ok H. reflect_bools.
  match goal with Hv : Validate ?x = (c', inr _) |- _ =>
    pose proof (Validate_keeps x) as Hk; rewrite Hv in Hk end.
  unfold lifecycle in Hk. cbn in Hk. injection Hk as _ _ _ Hw Hwe Hc Ht.
  unfold sealed. rewrite Hc, Hw, Hwe, Ht. split_and!; done.
Qed.
End methods.

(** ** The store invariant

    [Q] is what is known of the venues of the candle keys and [W] of the venues
    of the window keys; both instances below are used. *)

Section store.
Context {GR : GoRuntime} {ports : CandlePorts} (clk : nat → Z).
Variables (Q W : string → Prop).
Hypothesis Q_trim : ∀ v, Q v → Q (TrimSpace v).
Hypothesis W_window : ∀ v, Q v → W (ToLower (TrimSpace v)).

(** The candle of a key has the key's identity. *)
Definition candleOk (k : CandleKey) (c : CandleV1) : Prop :=
  Venue c = TrimSpace (key_Venue k) ∧ Instrument c = TrimSpace (key_Instrument k) ∧
  Timeframe c = TrimSpace (key_Timeframe k) ∧ Q (key_Venue k).

Definition windowsOk (w : option WatermarkWindowManager) : Prop :=
  match w with
  | None => True
  | Some w => wf w ∧ ∀ k, is_Some (states w !! k) → W (wk_Venue k)
  end.

Definition ucOk (uc : BuildCandleFromEvents) : Prop := inStore candleOk (candles uc) ∧ windowsOk (windows uc).
Definition holds (k : CandleKey) (a : Z) (uc : BuildCandleFromEvents) : Prop :=
  owns candleOk k a (candles uc) ∧ windowsOk (windows uc).

Lemma holds_ok k a uc : holds k a uc → ucOk uc.
Proof. intros [H Hw]. split; [by eapply owns_inStore|done]. Qed.

(** Operations on the store leave the rest of the state alone. *)
Lemma onCandles_triple {A} (m : Meth (Cells CandleKey CandleV1) Problem A) Pre Post Err :
  triple Pre m Post Err →
  triple (λ uc, Pre (candles uc) ∧ windowsOk (windows uc)) (onCandles m)
    (λ x uc, Post x (candles uc) ∧ windowsOk (windows uc)) (λ uc, Err (candles uc) ∧ windowsOk (windows uc)).
Proof.
  intros Hm uc [Hp Hw]. unfold onCandles. specialize (Hm (candles uc) Hp).
  destruct (m (candles uc)) as [c [e|x]]; done.
Qed.

Lemma identity_candleOk {A} k (m : CandleM A) :
  keeps identity m → ∀ c, candleOk k c → candleOk k (m c).1.
Proof.
  intros Hm c (Hv & Hi & Ht & HQ). specialize (Hm c). unfold identity in Hm. injection Hm as H1 H2 H3 _.
  unfold candleOk. rewrite H1, H2, H3. done.
Qed.

(** ** The statements of the use case *)

Lemma get_ok k :
  triple ucOk (onCandles (cellGet clk k))
    (λ r uc, match r with Some a => holds k a uc ∧ Q (key_Venue k) | None => ucOk uc end) ucOk.
Proof.
  eapply triple_conseq; [apply onCandles_triple, (cellGet_triple clk candleOk k)|done| |by intros ? [[] _]].
  intros [a|] uc [H Hw]; [|done]. split; [done|]. by destruct H as (l & v & Hl & Hv & (? & ? & ? & ?) & Ho).
Qed.
Lemma load_ok k a :
  triple (holds k a) (onCandles (load a)) (λ v uc, holds k a uc ∧ candleOk k v) ucOk.
Proof.
  eapply triple_conseq; [apply onCandles_triple, (load_triple candleOk k a)|done| |by intros ? [[] _]].
  intros v uc [(H & _ & HP) Hw]. done.
Qed.
Lemma call_ok {A} k a (m : CandleM A) :
  keeps identity m → triple (holds k a) (onCandles (callAt a m)) (λ _, holds k a) ucOk.
Proof.
  intros Hm. eapply triple_conseq;
    [apply onCandles_triple, (callAt_triple candleOk k a); by apply identity_candleOk|done|done|].
  intros uc H. exact (holds_ok k a uc H).
Qed.
Lemma put_ok k a : triple (holds k a) (onCandles (cellPut clk k a)) (λ _, ucOk) ucOk.
Proof.
  eapply triple_conseq; [apply onCandles_triple, (cellPut_triple clk candleOk k a)|done| |by intros ? [[] _]].
  intros ? uc H. exact (holds_ok k a uc H).
Qed.
Lemma putback_ok k a : triple (holds k a) (onCandles (cellPut clk k a)) (λ _, holds k a) ucOk.
Proof.
  by eapply triple_conseq; [apply onCandles_triple, (cellPut_triple clk candleOk k a)|done| |intros ? [[] _]].
Qed.
Lemma delete_ok k : triple ucOk (onCandles (cellDelete clk k)) (λ _, ucOk) ucOk.
Proof.
  by eapply triple_conseq; [apply onCandles_triple, (cellDelete_triple clk candleOk k)|done| |intros ? [[] _]].
Qed.
Lemma alloc_ok k c : candleOk k c → triple ucOk (onCandles (alloc c)) (λ a, holds k a) ucOk.
Proof.
  intros Hc. by eapply triple_conseq;
    [apply onCandles_triple, (alloc_triple candleOk k c Hc)|done| |intros ? [[] _]].
Qed.

Lemma persist_keeps {B} (f : BuildCandleFromEvents → B) c :
  (∀ uc g, f (uc <| portCalls ::= g |>) = f uc) → keeps f (persistClosedCandle c).
Proof.
  intros Hf. assert (∀ ans call, keeps f (callPort ans call)) as Hcall by (intros ans call uc; apply Hf).
  unfold persistClosedCandle. solve_keeps; apply Hcall.
Qed.
Lemma persist_ok c : triple ucOk (persistClosedCandle c) (λ evt uc, ucOk uc ∧ evt = NewCandleClosed c) ucOk.
Proof.
  intros uc Huc. pose proof (persist_keeps (λ uc, (candles uc, windows uc)) c (λ _ _, eq_refl) uc) as Hk.
  destruct (persistClosedCandle c uc) as [uc' r] eqn:Hrun. cbn in Hk. injection Hk as Hc Hw.
  assert (ucOk uc') as Hok by (unfold ucOk; by rewrite Hc, Hw).
  destruct r as [p|evt]; [done|]. split; [done|]. unfold persistClosedCandle in Hrun. by inv_ok Hrun.
Qed.

Lemma closeIfWindowChanged_ok k ws dur :
  triple ucOk (closeIfWindowChanged clk k ws dur)
    (λ r uc, ucOk uc ∧ match r with (_, Some base) => Venue base = TrimSpace (key_Venue k) ∧ Q (key_Venue k) | _ => True end)
    ucOk.
Proof.
  unfold closeIfWindowChanged. eapply triple_bind; [apply get_ok|]. intros [a|]; [|by apply triple_ret].
  eapply triple_bind.
  { eapply triple_conseq; [apply (load_ok k a)|by intros ? []|done|done]. }
  intros c. destruct (WindowStartTs c =? ws).
  { apply triple_ret. intros uc [H _]. split; [by eapply holds_ok|done]. }
  eapply triple_bind.
  { eapply triple_conseq; [apply (call_ok k a), Close_keeps|by intros ? []|done|done]. }
  intros []. eapply triple_bind; [apply (load_ok k a)|]. intros c'.
  eapply (triple_bind _ _ _ (λ evt uc, ucOk uc ∧ evt = NewCandleClosed c' ∧ candleOk k c')).
  { intros uc [Hh Hc']. pose proof (persist_ok c' uc (holds_ok k a uc Hh)) as Hp.
    destruct (persistClosedCandle c' uc) as [uc' [p|evt]]; [done|]. by destruct Hp. }
  intros evt. eapply (triple_bind _ _ _ (λ _ uc, ucOk uc ∧ evt = NewCandleClosed c' ∧ candleOk k c')).
  { intros uc (Hok & Hev & Hc'). pose proof (delete_ok k uc Hok) as Hd.
    by destruct (onCandles (cellDelete clk k) uc) as [uc' [p|[]]]. }
  intros []. apply triple_ret. intros uc (Hok & -> & (Hv & _ & _ & HQ)). done.
Qed.

Lemma getOrCreateCandle_ok k ws :
  Q (key_Venue k) → triple ucOk (getOrCreateCandle clk k ws) (λ a, holds k a) ucOk.
Proof.
  intros HQ. unfold getOrCreateCandle. eapply triple_bind; [apply get_ok|]. intros [a|].
  - eapply triple_bind.
    { eapply triple_conseq; [apply (load_ok k a)|by intros ? []|done|done]. }
    intros c. eapply (triple_bind _ _ _ (λ _, holds k a)); [|by intros []; apply triple_ret].
    apply triple_fail_if. intros uc [Hh _]. case_match; [by eapply holds_ok|done].
  - destruct (NewCandleV1 (key_Venue k) (key_Instrument k) (key_Timeframe k) ws) as [p|c] eqn:Hnew.
    { by intros uc Hok. }
    eapply (triple_bind _ _ _ (λ x uc, ucOk uc ∧ x = c)); [by apply triple_try|].
    intros x. eapply (triple_bind _ _ _ (λ a, holds k a)).
    { intros uc [Hok ->]. apply alloc_ok; [|done]. unfold NewCandleV1 in Hnew.
      destruct (Collect _); [done|]. by injection Hnew as <-. }
    intros a. eapply triple_bind; [apply putback_ok|]. intros []. by apply triple_ret.
Qed.

(** [a] is the address that was looked up: closing, persisting and deleting it. *)
Lemma closeAndPersist_ok k a we :
  triple (holds k a)
    (onCandles (callAt a (Close we)) ;; closedNow ← onCandles (load a); persistClosedCandle closedNow)
    (λ _, ucOk) ucOk.
Proof.
  eapply triple_bind; [apply (call_ok k a), Close_keeps|]. intros [].
  eapply triple_bind; [apply (load_ok k a)|]. intros c.
  eapply triple_conseq; [apply (persist_ok c)| |by intros ? ? []|done].
  intros uc [H _]. exact (holds_ok k a uc H).
Qed.

(** When no venue is both a candle's and a window's, nothing is ever forced. *)
Definition disjoint : Prop := ∀ v, W v → Q v → False.

Lemma forceCloseWindow_ok forced :
  W (wk_Venue (forced_Key forced)) →
  triple ucOk (forceCloseWindow clk forced) (λ r uc, ucOk uc ∧ (disjoint → r = None)) ucOk.
Proof.
  intros HW. unfold forceCloseWindow. set (key := MkCandleKey _ _ _).
  eapply triple_bind; [apply get_ok|]. intros [a|]; [|by apply triple_ret].
  intros uc0 [Hh0 HQ]. assert (¬ disjoint) as Hnd by (intros Hd; exact (Hd _ HW HQ)).
  revert uc0 Hh0. apply (triple_conseq (holds key a) (holds key a) _ _ (λ _, ucOk) ucOk ucOk); [|done| |done].
  2: { intros r uc Hok. split; [done|]. intros Hd. by destruct Hnd. }
  eapply triple_bind; [apply (load_ok key a)|]. intros c.
  destruct (negb _).
  { apply triple_ret. intros uc [H _]. exact (holds_ok key a uc H). }
  eapply (triple_bind _ _ _ (λ _, holds key a)); [by apply triple_recv; intros ? []|]. intros uc1.
  eapply (triple_bind _ _ _ (λ _, holds key a)).
  { apply triple_fail_if. intros uc H. case_match; [exact (holds_ok key a uc H)|done]. }
  intros []. intros uc Hh.
  pose proof (closeAndPersist_ok key a (add64 (WindowStartTs c) (durationOf uc1 (key_Timeframe key))) uc Hh) as Hcp.
  revert Hcp. unfold mbind, Meth_bind.
  destruct (onCandles (callAt a _) uc) as [uc2 [p|[]]]; [done|].
  destruct (onCandles (load a) uc2) as [uc3 [p|c']]; [done|].
  destruct (persistClosedCandle c' uc3) as [uc4 [p|evt]]; [done|]. intros Hok4.
  pose proof (delete_ok key uc4 Hok4) as Hd. by destruct (onCandles (cellDelete clk key) uc4) as [uc5 [p|[]]].
Qed.

Lemma observeWindow_ok key ts dur :
  Q (key_Venue key) →
  triple ucOk (observeWindow clk key ts dur) (λ r uc, ucOk uc ∧ (disjoint → r.2 = None)) ucOk.
Proof.
  intros HQ uc Huc. unfold observeWindow. rewrite (bind_run _ _ uc uc uc) by done.
  destruct (windows uc) as [w|] eqn:Hw; [|done]. destruct Huc as [Hst Hwok]. rewrite Hw in Hwok.
  destruct Hwok as [Hwf HWk]. destruct (Observe (windowKey key) ts dur w) as [w' [p|d]] eqn:Hobs.
  - pose proof (Observe_step (windowKey key) ts dur w Hwf) as Hstep. rewrite Hobs in Hstep.
    destruct Hstep as [-> _]. split; [done|]. done.
  - destruct (Observe_keys _ _ _ _ _ _ Hwf Hobs) as (Hwf' & Hkeys & Hforced).
    assert (ucOk (uc <| windows := Some w' |>)) as Hok'.
    { split; [done|]. split; [done|]. intros k [Hk| ->]%Hkeys; [by apply HWk|]. by apply W_window. }
    rewrite (bind_run _ _ uc (uc <| windows := Some w' |>) tt) by done.
    rewrite (bind_run _ _ _ (uc <| windows := Some w' |>) d) by done.
    destruct (ForcedClose d) as [f|]; [|done].
    pose proof (forceCloseWindow_ok f (HWk _ (Hforced f eq_refl)) _ Hok') as Hf.
    unfold mbind, Meth_bind. by destruct (forceCloseWindow clk f _) as [uc2 [p|r]].
Qed.

(** Rolling the window, then applying a method to the candle of the window. *)
Lemma rollAndApply_ok key ws (m : CandleM unit) :
  Q (key_Venue key) → keeps identity m →
  triple ucOk (candle ← getOrCreateCandle clk key ws; onCandles (callAt candle m) ;; onCandles (cellPut clk key candle))
    (λ _, ucOk) ucOk.
Proof.
  intros HQ Hm. eapply triple_bind; [by apply getOrCreateCandle_ok|]. intros a.
  eapply triple_bind; [by apply (call_ok key a)|]. intros []. apply put_ok.
Qed.

(** A block of statements followed by the rest of the body. *)
Lemma triple_block {A B C D} Pre (m1 : UCM A) (m2 : A → UCM B) (m3 : A → B → UCM C) (k : UCM D) Post :
  triple Pre (x ← m1; y ← m2 x; m3 x y) (λ _, ucOk) ucOk → triple ucOk k Post ucOk →
  triple Pre (x ← m1; y ← m2 x; z ← m3 x y; k) Post ucOk.
Proof.
  intros Hb Hk uc Huc. specialize (Hb uc Huc). revert Hb. unfold mbind, Meth_bind.
  destruct (m1 uc) as [uc1 [p|x]]; [done|]. destruct (m2 x uc1) as [uc2 [p|y]]; [done|].
  destruct (m3 x y uc2) as [uc3 [p|z]]; [done|]. intros Hok. by apply Hk.
Qed.

Lemma cascadeLoop_ok base tfs : ∀ closed,
  Q (Venue base) → triple ucOk (cascadeLoop clk base tfs closed) (λ _, ucOk) ucOk.
Proof.
  induction tfs as [|tf tfs IH]; intros closed HQ; cbn [cascadeLoop]; [by apply triple_ret|].
  destruct (str_eqb tf candleTimeframeBase); [by apply IH|].
  eapply (triple_bind _ _ _ (λ _, ucOk)); [by apply triple_recv|]. intros uc0.
  set (key := MkCandleKey (Venue base) (Instrument base) tf).
  eapply triple_bind; [by apply (observeWindow_ok key)|]. intros [d f].
  apply (triple_conseq _ ucOk _ _ (λ _, ucOk) _ ucOk); [|by intros ? []|done|done].
  destruct (IsLate d); [by apply IH|].
  eapply (triple_bind _ _ _ (λ _, ucOk)); [by apply triple_recv|]. intros uc1.
  eapply (triple_bind _ _ _ (λ _, ucOk)).
  { eapply triple_conseq; [apply (closeIfWindowChanged_ok key)|done|by intros ? ? []|done]. }
  intros rolled. apply triple_block; [|by apply IH].
  by apply rollAndApply_ok; [|apply ApplyClosedCandle_keeps].
Qed.

Lemma respond_ok closed : triple ucOk (respond closed) (λ _, ucOk) ucOk.
Proof. by intros uc Huc. Qed.

Lemma Execute_ok req :
  Q (CanonicalVenue (req_Venue req)) → triple ucOk (Execute clk req) (λ _, ucOk) ucOk.
Proof.
  intros HQ. unfold Execute. eapply (triple_bind _ _ _ (λ _, ucOk)); [by apply triple_check; intros; case_match|].
  intros []. eapply (triple_bind _ _ _ (λ _, ucOk)); [by apply triple_recv|]. intros uc0.
  set (key := MkCandleKey _ _ _). eapply triple_bind; [by apply (observeWindow_ok key)|]. intros [d f].
  apply (triple_conseq _ ucOk _ _ (λ _, ucOk) _ ucOk); [|by intros ? []|done|done].
  destruct (IsLate d); [apply respond_ok|].
  eapply (triple_bind _ _ _ (λ _, ucOk)); [by apply triple_recv|]. intros uc1.
  eapply triple_bind; [apply (closeIfWindowChanged_ok key)|]. intros [evt base].
  intros uc [Hok Hbase]. revert uc Hok.
  apply triple_block; [by apply rollAndApply_ok; [|apply ApplyTrade_keeps]|].
  destruct base as [base|]; [|apply respond_ok]. destruct Hbase as [Hv _].
  eapply (triple_bind _ _ _ (λ _, ucOk)); [|intros; apply respond_ok].
  unfold cascadeFromClosedBase. eapply (triple_bind _ _ _ (λ _, ucOk)); [by apply triple_recv|].
  intros uc2. apply cascadeLoop_ok. rewrite Hv. by apply Q_trim.
Qed.

Lemma New_ok pub store cfg : ucOk (NewBuildCandleFromEvents clk pub store cfg).
Proof.
  split.
  - exists []. pose proof (newCells_stores clk candleOk (if MaxCandles cfg <=? 0 then 50000 else MaxCandles cfg)
      (if CandleTTL cfg <=? 0 then Hour else CandleTTL cfg)) as [Hr Hnd Ha Hc].
    split; [|done|done|done]. destruct Hr. by split.
  - cbn. destruct (NewWatermarkWindowManager _) as [p|w] eqn:Hnew.
    + split; [apply (New_wf (MkWatermarkConfig 96 30000)); done|].
      intros k. cbn. rewrite lookup_empty. by intros [].
    + split; [by eapply New_wf|]. revert Hnew. unfold NewWatermarkWindowManager.
      destruct (_ <=? _); [done|]. destruct (_ <? _); [done|]. intros [= <-] k. cbn.
      rewrite lookup_empty. by intros [].
Qed.
End store.

(** ** Histories *)

Section histories.
Context {GR : GoRuntime} {ports : CandlePorts} (clk : nat → Z).

(** The states reached by a sequence of requests, successful or not. *)
Definition runRequests (reqs : list BuildCandleRequest) (uc : BuildCandleFromEvents) : BuildCandleFromEvents :=
  foldl (λ uc req, (Execute clk req uc).1) uc reqs.

Lemma runRequests_ok Q W reqs : ∀ uc,
  (∀ v, Q v → Q (TrimSpace v)) → (∀ v, Q v → W (ToLower (TrimSpace v))) →
  Forall (λ req, Q (CanonicalVenue (req_Venue req))) reqs → ucOk Q W uc → ucOk Q W (runRequests reqs uc).
Proof.
  induction reqs as [|req reqs IH]; intros uc HQ HW Hreqs Huc; cbn; [done|].
  apply Forall_cons in Hreqs as [Hreq Hreqs]. apply IH; [done..|].
  pose proof (Execute_ok clk Q W HQ HW req Hreq uc Huc) as H. by destruct (Execute clk req uc) as [uc' [p|r]].
Qed.
End histories.

(** ** Emission *)

Section emission.
Context {GR : GoRuntime} {ports : CandlePorts} (clk : nat → Z).

(** The successful port calls for a list of events. *)
Definition emitted (st pb : bool) (evts : list CandleClosed) : list PortCall :=
  evts ≫= λ e, (if st then [CallSaveCandle e None] else []) ++ (if pb then [CallPublishCandleClosed e None] else []).

Lemma emitted_snoc st pb es e : emitted st pb (es ++ [e]) = emitted st pb es ++ emitted st pb [e].
Proof. unfold emitted. by rewrite bind_app. Qed.

(** The calls since [h] are those of the events [es], all of closed candles. *)
Definition logged (st pb : bool) (h : list PortCall) (es : list CandleClosed) (uc : BuildCandleFromEvents) : Prop :=
  portCalls uc = h ++ emitted st pb es ∧ hasStore uc = st ∧ hasPublisher uc = pb ∧
  Forall (λ e, sealed (closed_candle e)) es.

Variables (st pb : bool) (h : list PortCall).
Abbreviation log := (logged st pb h).
Abbreviation any := (λ _ : BuildCandleFromEvents, True).

Lemma onCandles_log {A} (m : Meth (Cells CandleKey CandleV1) Problem A) es :
  triple (log es) (onCandles m) (λ _, log es) any.
Proof. intros uc Huc. unfold onCandles. by destruct (m (candles uc)) as [c [p|x]]. Qed.

Lemma persist_log c es :
  sealed c → triple (log es) (persistClosedCandle c) (λ evt, log (es ++ [evt])) any.
Proof.
  intros Hc uc (Hcalls & Hst & Hpb & Hall). set (evt := NewCandleClosed c).
  assert (∀ uc', hasStore uc' = st → hasPublisher uc' = pb → portCalls uc' = portCalls uc ++ emitted st pb [evt] →
    log (es ++ [evt]) uc') as Hdone.
  { intros uc' H1 H2 H3. unfold logged. rewrite emitted_snoc, H3, Hcalls, <- app_assoc.
    split_and!; try done. apply Forall_app. by rewrite Forall_singleton. }
  unfold persistClosedCandle. unfold_meth. unfold callPort. fold evt. rewrite Hst, Hpb.
  destruct st, pb; cbn.
  - destruct (SaveCandle (portCalls uc) evt) as [p|]; [done|]. cbn.
    destruct (PublishCandleClosed _ evt) as [p|]; [done|]. apply Hdone; [done..|]. cbn. by rewrite <- app_assoc.
  - destruct (SaveCandle (portCalls uc) evt) as [p|]; [done|]. by apply Hdone.
  - destruct (PublishCandleClosed (portCalls uc) evt) as [p|]; [done|]. by apply Hdone.
  - apply Hdone; [done..|]. cbn. by rewrite app_nil_r.
Qed.

Lemma closePersist_log a we es :
  triple (log es)
    (onCandles (callAt a (Close we)) ;; closedNow ← onCandles (load a); persistClosedCandle closedNow)
    (λ evt, log (es ++ [evt])) any.
Proof.
  eapply (triple_bind _ _ _ (λ _ uc, log es uc ∧ ∃ v, heap (candles uc) !! a = Some v ∧ sealed v)).
  { intros uc Huc. unfold onCandles, callAt. destruct (heap (candles uc) !! a) as [v|]; [|done].
    destruct (Close we v) as [v' [p|[]]] eqn:Hc; [done|]. split; [done|]. exists v'.
    split; [apply lookup_insert_eq|]. by apply Close_seals in Hc as (? & _ & _). }
  intros []. eapply (triple_bind _ _ _ (λ v uc, log es uc ∧ sealed v)).
  { intros uc (Huc & v & Hv & Hs). unfold onCandles, load. by rewrite Hv. }
  intros v uc [Huc Hv]. by apply persist_log.
Qed.

Lemma closeIfWindowChanged_log k ws dur es :
  triple (log es) (closeIfWindowChanged clk k ws dur)
    (λ r uc, log (es ++ optList r.1) uc ∧ r.2 = closed_candle <$> r.1) any.
Proof.
  unfold closeIfWindowChanged. eapply triple_bind; [apply onCandles_log|]. intros [a|].
  2: { apply triple_ret. intros uc Huc. cbn. by rewrite app_nil_r. }
  eapply triple_bind; [apply onCandles_log|]. intros c. destruct (_ =? _).
  { apply triple_ret. intros uc Huc. cbn. by rewrite app_nil_r. }
  intros uc Huc. pose proof (closePersist_log a (add64 (WindowStartTs c) dur) es uc Huc) as Hcp.
  revert Hcp. unfold mbind, Meth_bind.
  destruct (onCandles (callAt a _) uc) as [uc2 [p|[]]]; [done|].
  destruct (onCandles (load a) uc2) as [uc3 [p|c']]; [done|].
  destruct (persistClosedCandle c' uc3) as [uc4 [p|evt]]; [done|]. intros Hok4.
  pose proof (onCandles_log (cellDelete clk k) _ uc4 Hok4) as Hd.
  by destruct (onCandles (cellDelete clk k) uc4) as [uc5 [p|[]]].
Qed.

Lemma forceCloseWindow_log forced es :
  triple (log es) (forceCloseWindow clk forced) (λ r, log (es ++ optList r)) any.
Proof.
  unfold forceCloseWindow. set (key := MkCandleKey _ _ _).
  eapply triple_bind; [apply onCandles_log|]. intros [a|].
  2: { apply triple_ret. intros uc Huc. by rewrite app_nil_r. }
  eapply triple_bind; [apply onCandles_log|]. intros c. destruct (negb _).
  { apply triple_ret. intros uc Huc. by rewrite app_nil_r. }
  eapply (triple_bind _ _ _ (λ _, log es)); [by apply triple_recv|]. intros uc1.
  eapply (triple_bind _ _ _ (λ _, log es)); [by apply triple_fail_if; intros; case_match|]. intros [].
  intros uc Huc.
  pose proof (closePersist_log a (add64 (WindowStartTs c) (durationOf uc1 (key_Timeframe key))) es uc Huc) as Hcp.
  revert Hcp. unfold mbind, Meth_bind.
  destruct (onCandles (callAt a _) uc) as [uc2 [p|[]]]; [done|].
  destruct (onCandles (load a) uc2) as [uc3 [p|c']]; [done|].
  destruct (persistClosedCandle c' uc3) as [uc4 [p|evt]]; [done|]. intros Hok4.
  pose proof (onCandles_log (cellDelete clk key) _ uc4 Hok4) as Hd.
  by destruct (onCandles (cellDelete clk key) uc4) as [uc5 [p|[]]].
Qed.

Lemma observeWindow_log key ts dur es :
  triple (log es) (observeWindow clk key ts dur) (λ r, log (es ++ optList r.2)) any.
Proof.
  intros uc Huc. unfold observeWindow. rewrite (bind_run _ _ uc uc uc) by done.
  destruct (windows uc) as [w|]; [|cbn; by rewrite app_nil_r].
  destruct (Observe (windowKey key) ts dur w) as [w' [p|d]]; [done|].
  set (uc1 := uc <| windows := Some w' |>). assert (log es uc1) as Huc1 by done.
  rewrite (bind_run _ _ uc uc1 tt) by done. rewrite (bind_run _ _ _ uc1 d) by done. clearbody uc1.
  destruct (ForcedClose d) as [f|]; [|cbn; by rewrite app_nil_r].
  pose proof (forceCloseWindow_log f es uc1 Huc1) as Hf.
  unfold mbind, Meth_bind. by destruct (forceCloseWindow clk f _) as [uc2 [p|r]].
Qed.

Lemma getOrCreateCandle_log k ws es : triple (log es) (getOrCreateCandle clk k ws) (λ _, log es) any.
Proof.
  unfold getOrCreateCandle. eapply triple_bind; [apply onCandles_log|]. intros [a|].
  - eapply triple_bind; [apply onCandles_log|]. intros c.
    eapply (triple_bind _ _ _ (λ _, log es)); [by apply triple_fail_if; intros; case_match|].
    intros []. by apply triple_ret.
  - eapply (triple_bind _ _ _ (λ _, log es)); [by apply triple_try; intros; case_match|]. intros c.
    eapply triple_bind; [apply onCandles_log|]. intros a.
    eapply triple_bind; [apply onCandles_log|]. intros []. by apply triple_ret.
Qed.

Lemma cascadeLoop_log base tfs : ∀ es0 closed,
  triple (log (es0 ++ closed)) (cascadeLoop clk base tfs closed) (λ closed', log (es0 ++ closed')) any.
Proof.
  induction tfs as [|tf tfs IH]; intros es0 closed; cbn [cascadeLoop]; [by apply triple_ret|].
  destruct (str_eqb tf candleTimeframeBase); [by apply IH|].
  eapply (triple_bind _ _ _ (λ _, log (es0 ++ closed))); [by apply triple_recv|]. intros uc0.
  set (key := MkCandleKey (Venue base) (Instrument base) tf).
  eapply triple_bind; [apply (observeWindow_log key)|]. intros [d f]. cbn [snd]. rewrite <- app_assoc.
  destruct (IsLate d); [by apply IH|].
  eapply (triple_bind _ _ _ (λ _, log (es0 ++ closed ++ optList f))); [by apply triple_recv|]. intros uc1.
  eapply triple_bind; [apply (closeIfWindowChanged_log key)|]. intros [evt b]. cbn [fst snd].
  rewrite <- !app_assoc. intros uc [Huc _]. revert uc Huc.
  eapply triple_bind; [apply getOrCreateCandle_log|]. intros a.
  eapply triple_bind; [apply onCandles_log|]. intros [].
  eapply triple_bind; [apply onCandles_log|]. intros []. rewrite (app_assoc closed). apply IH.
Qed.

Lemma respond_log closed es : triple (log es) (respond closed) (λ r uc, log es uc ∧ resp_Closed r = closed) any.
Proof. by intros uc Huc. Qed.

Lemma Execute_log req :
  triple (log []) (Execute clk req) (λ r, log (resp_Closed r)) any.
Proof.
  unfold Execute. eapply (triple_bind _ _ _ (λ _, log [])); [by apply triple_check; intros; case_match|].
  intros []. eapply (triple_bind _ _ _ (λ _, log [])); [by apply triple_recv|]. intros uc0.
  set (key := MkCandleKey _ _ _). eapply triple_bind; [apply (observeWindow_log key)|]. intros [d f]. cbn [snd app].
  assert (∀ closed, triple (log closed) (respond closed) (λ r, log (resp_Closed r)) any) as Hresp
    by (by intros closed uc Huc).
  destruct (IsLate d); [apply Hresp|].
  eapply (triple_bind _ _ _ (λ _, log (optList f))); [by apply triple_recv|]. intros uc1.
  eapply triple_bind; [apply (closeIfWindowChanged_log key)|]. intros [evt base]. cbn [fst snd].
  intros uc [Huc _]. revert uc Huc.
  eapply triple_bind; [apply getOrCreateCandle_log|]. intros a.
  eapply triple_bind; [apply onCandles_log|]. intros [].
  eapply triple_bind; [apply onCandles_log|]. intros [].
  destruct base as [base|]; [|apply Hresp].
  eapply triple_bind; [|intros cascadeClosed; apply Hresp].
  unfold cascadeFromClosedBase. eapply (triple_bind _ _ _ (λ _, log (optList f ++ optList evt))); [by apply triple_recv|].
  intros uc2. pose proof (cascadeLoop_log base (timeframes uc2) (optList f ++ optList evt) []) as Hloop.
  by rewrite app_nil_r in Hloop.
Qed.
End emission.

(** ** Venues in upper and lower case *)

Definition not_lower (c : Ascii.ascii) : bool := let n := Ascii.N_of_ascii c in negb ((97 <=? n) && (n <=? 122))%N.
Definition not_upper (c : Ascii.ascii) : bool := let n := Ascii.N_of_ascii c in negb ((65 <=? n) && (n <=? 90))%N.
Definition not_letter (c : Ascii.ascii) : bool := not_lower c && not_upper c.

(** An ASCII venue with at least one letter, as every exchange name is. *)
Definition lettered (v : string) : Prop := is_ascii v = true ∧ str_forallb not_letter v = false.
(** ASCII, no lower-case letter and at least one upper-case letter. *)
Definition shouting (v : string) : Prop :=
  is_ascii v = true ∧ str_forallb not_lower v = true ∧ str_forallb not_upper v = false.
(** At least one lower-case letter. *)
Definition quiet (v : string) : Prop := str_forallb not_lower v = false.

Lemma forallb_map p f s : str_forallb p (str_map f s) = str_forallb (λ c, p (f c)) s.
Proof. induction s as [|c s IH]; [done|]. cbn. by rewrite IH. Qed.
Lemma forallb_ext p q s : (∀ c, p c = q c) → str_forallb p s = str_forallb q s.
Proof. intros H. induction s as [|c s IH]; [done|]. cbn. by rewrite H, IH. Qed.
Lemma forallb_trim p s :
  (∀ c, is_space c = true → p c = true) → str_forallb p (trim_ascii s) = str_forallb p s.
Proof.
  intros Hp. unfold trim_ascii. assert (∀ t, str_forallb p (trim_right t) = str_forallb p t) as ->.
  { intros t. induction t as [|c t IH]; [done|]. cbn. rewrite <- IH. destruct (trim_right t); [|done].
    cbn. destruct (is_space c) eqn:Hc; cbn; [by rewrite (Hp c Hc)|done]. }
  induction s as [|c s IH]; [done|]. cbn. destruct (is_space c) eqn:Hc; [by rewrite IH, (Hp c Hc)|done].
Qed.

Lemma char_case c :
  (is_space c = true → not_lower c = true ∧ not_upper c = true) ∧
  not_lower (upper_ascii c) = true ∧ not_upper (upper_ascii c) = not_letter c ∧
  not_lower (lower_ascii c) = not_letter c ∧ ascii_lt128 (upper_ascii c) = ascii_lt128 c.
Proof. by destruct c as [[] [] [] [] [] [] [] []]; vm_compute. Qed.

Lemma forallb_true p s : (∀ c, p c = true) → str_forallb p s = true.
Proof. intros H. induction s as [|c s IH]; [done|]. cbn. by rewrite H. Qed.

Section venues.
Context {GR : GoRuntime}.

Lemma shouting_trim v : shouting v → shouting (TrimSpace v).
Proof.
  intros (Ha & Hl & Hu). unfold TrimSpace. rewrite Ha. split_and!; [by apply is_ascii_trim| |].
  - rewrite forallb_trim; [done|]. intros c. apply char_case.
  - rewrite forallb_trim; [done|]. intros c. apply char_case.
Qed.
Lemma shouting_quiet v : shouting v → quiet (ToLower (TrimSpace v)).
Proof.
  intros Hv. pose proof (shouting_trim v Hv) as (Ha & Hl & Hu). unfold quiet, ToLower. rewrite Ha, forallb_map.
  rewrite (forallb_ext _ not_letter) by apply char_case.
  destruct (str_forallb not_letter (TrimSpace v)) eqn:Hn; [|done].
  rewrite <- Hu. symmetry. clear -Hn. induction (TrimSpace v) as [|c s IH]; [done|]. cbn in *.
  unfold not_letter in Hn. reflect_bools. rewrite IH by done. by destruct (not_upper c).
Qed.
Lemma quiet_shouting v : quiet v → shouting v → False.
Proof. unfold quiet, shouting. intros Hq (_ & Hl & _). congruence. Qed.

Lemma CanonicalVenue_shouting v : lettered v → shouting (CanonicalVenue v).
Proof.
  intros [Ha Hl]. unfold CanonicalVenue, TrimSpace, ToUpper. rewrite Ha.
  pose proof (is_ascii_trim v Ha) as Ht. rewrite Ht. split_and!.
  - unfold is_ascii. rewrite forallb_map, (forallb_ext _ ascii_lt128) by apply char_case. done.
  - rewrite forallb_map. apply forallb_true. apply char_case.
  - rewrite forallb_map, (forallb_ext _ not_letter) by apply char_case.
    rewrite forallb_trim; [done|]. intros c Hc. unfold not_letter. by destruct (proj1 (char_case c) Hc) as [-> ->].
Qed.
End venues.

(** ** Theorems *)

Section claims.
Context {GR : GoRuntime} {ports : CandlePorts} (clk : nat → Z).

(** A forced close closes nothing. Whatever requests a use case has served,
    when the window manager reaches its bound and reports a window to close by
    force, no candle is closed or emitted for it, for any venue whose name has
    a letter: the manager's keys carry the venue in lower case and the candles'
    keys in upper case, so the candle is not found. *)
Theorem forced_close_closes_nothing pub store cfg reqs venue instrument timeframe ts dur uc' d closed :
  Forall (λ req, lettered (req_Venue req)) reqs → lettered venue →
  observeWindow clk (MkCandleKey (CanonicalVenue venue) instrument timeframe) ts dur
    (runRequests clk reqs (NewBuildCandleFromEvents clk pub store cfg)) = (uc', inr (d, closed)) →
  closed = None.
Proof.
  intros Hreqs Hv Hrun.
  assert (ucOk shouting quiet (runRequests clk reqs (NewBuildCandleFromEvents clk pub store cfg))) as Hok.
  { apply runRequests_ok; [exact shouting_trim|exact shouting_quiet| |apply New_ok].
    eapply Forall_impl; [exact Hreqs|]. intros req. apply CanonicalVenue_shouting. }
  pose proof (observeWindow_ok clk shouting quiet shouting_quiet (MkCandleKey (CanonicalVenue venue) instrument timeframe)
    ts dur (CanonicalVenue_shouting _ Hv) _ Hok) as Hobs.
  rewrite Hrun in Hobs. destruct Hobs as [_ Hnone]. apply Hnone. exact quiet_shouting.
Qed.

(** Every key owns its own candle. After any requests, successful or not,
    the map holds at most [MaxCandles] entries, every entry points to an
    allocated candle with the identity of its key, and two keys never point to
    the same candle. *)
Theorem each_key_owns_its_candle pub store cfg reqs :
  let uc := runRequests clk reqs (NewBuildCandleFromEvents clk pub store cfg) in
  let m := cmap (candles uc) in
  (∀ k e, items m !! k = Some e → ∃ c, heap (candles uc) !! value e = Some c ∧
     Venue c = TrimSpace (key_Venue k) ∧ Instrument c = TrimSpace (key_Instrument k) ∧
     Timeframe c = TrimSpace (key_Timeframe k)) ∧
  (∀ k1 e1 k2 e2, items m !! k1 = Some e1 → items m !! k2 = Some e2 → value e1 = value e2 → k1 = k2) ∧
  ActiveCandles uc ≤ maxSize m.
Proof.
  intros uc m.
  assert (ucOk (λ _, True) (λ _, True) uc) as [(l & Hl) _].
  { apply runRequests_ok; [done|done|by apply Forall_true|apply New_ok]. }
  pose proof Hl as [[_ Hi Hnd Hs _] _ _ Hc]. fold m in Hi, Hs.
  assert (∀ k e, items m !! k = Some e → (k, e) ∈ l) as Hin by (intros k e; rewrite Hi; by apply as_map_lookup).
  split_and!.
  - intros k e Hk%Hin. destruct (Hc k e Hk) as (c & ? & ? & ? & ? & _). by exists c.
  - intros k1 e1 k2 e2 H1%Hin H2%Hin. by eapply (stores_inj _ _ l).
  - unfold ActiveCandles, cellLen, Len. destruct Hl as [Hr _ _ _]. by rewrite (rep_map_size _ l Hr).
Qed.

(** A request returns exactly what it emitted. When a request succeeds, the
    port calls it made are, for each candle it returns and in that order, one
    successful save and one successful publication (as configured); every such
    candle is closed, has trades and a non-empty window. *)
Theorem Execute_emits_what_it_returns req uc uc' r :
  Execute clk req uc = (uc', inr r) →
  portCalls uc' = portCalls uc ++ emitted (hasStore uc) (hasPublisher uc) (resp_Closed r) ∧
  Forall (λ e, sealed (closed_candle e)) (resp_Closed r).
Proof.
  intros Hrun. pose proof (Execute_log clk (hasStore uc) (hasPublisher uc) (portCalls uc) req uc) as H.
  rewrite Hrun in H. destruct H as (Hcalls & _ & _ & Hall); [|done].
  unfold logged. cbn. by rewrite app_nil_r.
Qed.

(** The key's candle [c] is in the map, at the entry [e]. *)
Definition present (uc : BuildCandleFromEvents) (key : CandleKey) (e : boundedEntry Z) (c : CandleV1) : Prop :=
  (∃ l, rep (cmap (candles uc)) l ∧ as_map l !! key = Some e) ∧ heap (candles uc) !! value e = Some c.

(** The results of successive attempts to roll the window of [key]. *)
Fixpoint attempts (key : CandleKey) (dur : Z) (wss : list Z) (uc : BuildCandleFromEvents)
    : list (Problem + (option CandleClosed * option CandleV1)) :=
  match wss with
  | [] => []
  | ws :: wss' =>
      let '(uc', r) := closeIfWindowChanged clk key ws dur uc in r :: attempts key dur wss' uc'
  end.

(** Closing a present candle: the attempt gets as far as the candle's [Close]. *)
Lemma closeIf_present uc key e c ws dur :
  present uc key e c → WindowStartTs c ≠ ws → isExpiredAt (cmap (candles uc)) e (clk (reads (candles uc))) = false →
  ∃ uc0, present uc0 key e c ∧ reads (candles uc0) = S (reads (candles uc)) ∧
    config (cmap (candles uc0)) = config (cmap (candles uc)) ∧
    portCalls uc0 = portCalls uc ∧ hasStore uc0 = hasStore uc ∧
    closeIfWindowChanged clk key ws dur uc =
      (onCandles (callAt (value e) (Close (add64 (WindowStartTs c) dur))) ;;
       closedNow ← onCandles (load (value e));
       closedEvt ← persistClosedCandle closedNow;
       onCandles (cellDelete clk key) ;;
       mret (Some closedEvt, Some (closed_candle closedEvt))) uc0.
Proof.
  intros [(l & Hr & Hk) Hc] Hws Hexp.
  destruct (cellGet_present clk (candles uc) l key e Hr Hk Hexp) as (c' & l' & Hget & Hr' & Hk' & Hh & _ & Hrd & Hcfg).
  exists (uc <| candles := c' |>). split_and!; try done.
  { split; [by exists l'|]. cbn. by rewrite Hh. }
  unfold closeIfWindowChanged at 1. rewrite (bind_run _ _ uc (uc <| candles := c' |>) (Some (value e))).
  2: { unfold onCandles. by rewrite Hget. }
  rewrite (bind_run _ _ _ (uc <| candles := c' |>) c).
  2: { unfold onCandles, load. cbn. by rewrite Hh, Hc. }
  rewrite (proj2 (Z.eqb_neq _ _)) by done. done.
Qed.

(** The call of [Close] on the present candle. *)
Lemma closeCall uc key e c c' r we :
  present uc key e c → Close we c = (c', r) →
  ∃ uc', onCandles (callAt (value e) (Close we)) uc = (uc', r) ∧ present uc' key e c' ∧
    reads (candles uc') = reads (candles uc) ∧ config (cmap (candles uc')) = config (cmap (candles uc)) ∧
    portCalls uc' = portCalls uc ∧ hasStore uc' = hasStore uc.
Proof.
  intros [(l & Hr & Hk) Hc] Hclose. unfold onCandles, callAt. rewrite Hc, Hclose.
  eexists. split; [reflexivity|]. split_and!; try done. split; [by exists l|]. apply lookup_insert_eq.
Qed.

(** A candle that is closed already, or has no trades, cannot be closed. *)
Definition unclosable (c : CandleV1) : Prop := IsClosed c = true ∨ TradeCount c ≤ 0.
Definition closeError (c : CandleV1) : ProblemCode := if IsClosed c then Conflict else ValidationFailed.

Lemma unclosable_Close we c : unclosable c → ∃ p, Close we c = (c, inl p) ∧ Code p = closeError c.
Proof.
  intros Hc. unfold Close, mbind, Meth_bind, recv, fail_if, closeError.
  destruct (IsClosed c) eqn:Ho; [by eexists|]. destruct Hc as [Hc|Hc]; [congruence|].
  rewrite (proj2 (Z.leb_le _ _)) by done. by eexists.
Qed.

(** Every attempt on such a candle fails and leaves it so. *)
Lemma blocked_attempts key e c dur wss : ∀ uc,
  present uc key e c → unclosable c → Forall (λ ws, WindowStartTs c ≠ ws) wss →
  (∀ n, (reads (candles uc) ≤ n < reads (candles uc) + length wss)%nat →
     isExpiredAt (cmap (candles uc)) e (clk n) = false) →
  Forall (λ r, ∃ p, r = inl p ∧ Code p = closeError c) (attempts key dur wss uc).
Proof.
  induction wss as [|ws wss IH]; intros uc Hp Hclosed Hws Hexp; cbn [attempts]; [done|].
  apply Forall_cons in Hws as [Hw Hws].
  destruct (closeIf_present uc key e c ws dur Hp Hw) as (uc0 & Hp0 & Hrd & Hcfg & _ & _ & ->).
  { apply Hexp. cbn. lia. }
  destruct (unclosable_Close (add64 (WindowStartTs c) dur) c Hclosed) as (p & Hclose & Hcode).
  destruct (closeCall uc0 key e c c (inl p) _ Hp0 Hclose) as (uc1 & Hcall & Hp1 & Hrd1 & Hcfg1 & _).
  rewrite (bind_err _ _ uc0 uc1 p) by done. apply Forall_cons. split; [by exists p|].
  apply IH; [done|done|done|]. intros n Hn. rewrite (config_expired _ (cmap (candles uc))) by congruence.
  apply Hexp. cbn. lia.
Qed.

(** A failed save blocks its key. When the store refuses the candle that a
    window roll has just closed, the roll returns the store's error but leaves
    the closed candle in the map; every later attempt to roll the window of that
    key then fails with Conflict, as long as the entry has not expired: no
    further trade of a later window is accepted, and the candle is never emitted. *)
Theorem failed_save_blocks_key uc key e c c' ws dur p wss :
  present uc key e c → WindowStartTs c ≠ ws →
  Close (add64 (WindowStartTs c) dur) c = (c', inr tt) →
  hasStore uc = true → SaveCandle (portCalls uc) (NewCandleClosed c') = Some p →
  Forall (λ ws', WindowStartTs c ≠ ws') wss →
  (∀ n, (reads (candles uc) ≤ n ≤ reads (candles uc) + length wss)%nat →
     isExpiredAt (cmap (candles uc)) e (clk n) = false) →
  ∃ uc', closeIfWindowChanged clk key ws dur uc = (uc', inl p) ∧
    Forall (λ r, ∃ p', r = inl p' ∧ Code p' = Conflict) (attempts key dur wss uc').
Proof.
  intros Hp Hws Hclose Hst Hsave Hwss Hexp.
  destruct (closeIf_present uc key e c ws dur Hp Hws) as (uc0 & Hp0 & Hrd & Hcfg & Hcalls & Hst0 & ->).
  { apply Hexp. lia. }
  destruct (closeCall uc0 key e c c' (inr tt) _ Hp0 Hclose) as (uc1 & Hcall & Hp1 & Hrd1 & Hcfg1 & Hcalls1 & Hst1).
  rewrite (bind_run _ _ uc0 uc1 tt) by done.
  rewrite (bind_run _ _ uc1 uc1 c') by (unfold onCandles, load; destruct Hp1 as [_ Hc1]; by rewrite Hc1; destruct uc1).
  set (uc2 := uc1 <| portCalls ::= λ l, l ++ [CallSaveCandle (NewCandleClosed c') (Some p)] |>).
  assert (persistClosedCandle c' uc1 = (uc2, inl p)) as Hpersist.
  { unfold persistClosedCandle. unfold_meth. unfold callPort. rewrite Hst1, Hst0, Hst, Hcalls1, Hcalls, Hsave. done. }
  rewrite (bind_err _ _ uc1 uc2 p) by done. exists uc2. split; [done|].
  pose proof (Close_seals _ _ _ Hclose) as ((Hc' & _) & _).
  assert (WindowStartTs c' = WindowStartTs c) as Hstart.
  { pose proof (Close_keeps (add64 (WindowStartTs c) dur) c) as Hk. rewrite Hclose in Hk.
    unfold identity in Hk. cbn in Hk. congruence. }
  assert (closeError c' = Conflict) as <- by (unfold closeError; by rewrite Hc').
  apply (blocked_attempts key e c'); [done|by left|by rewrite Hstart|].
  change (reads (candles uc2)) with (reads (candles uc1)). change (cmap (candles uc2)) with (cmap (candles uc1)).
  intros n Hn. rewrite (config_expired _ (cmap (candles uc))) by congruence. apply Hexp. lia.
Qed.

Lemma onCandles_run {A} (m : Meth (Cells CandleKey CandleV1) Problem A) uc c1 c2 r :
  m c1 = (c2, r) → onCandles m (uc <| candles := c1 |>) = (uc <| candles := c2 |>, r).
Proof. intros Hm. unfold onCandles. change (candles (uc <| candles := c1 |>)) with c1. by rewrite Hm. Qed.

(** Looking up a key that is absent. *)
Lemma get_absent P uc l key :
  stores P (candles uc) l → as_map l !! key = None →
  ∃ c' l', onCandles (cellGet clk key) uc = (uc <| candles := c' |>, inr None) ∧ stores P c' l' ∧
    as_map l' !! key = None ∧ reads c' = S (reads (candles uc)) ∧ config (cmap c') = config (cmap (candles uc)).
Proof.
  intros Hl Hk. destruct (cellGet_stores clk P (candles uc) l key Hl) as (c' & r & l' & Hget & Hl' & Hf & _ & Hrd & Hcfg & Hr).
  assert (r = None) as ->.
  { destruct r as [a|]; [|done]. destruct Hr as (e & v & Hin & _). exfalso.
    eapply elem_of_submseteq in Hin; [|exact Hf]. apply as_map_lookup in Hin; [congruence|]. by destruct Hl as [[]]. }
  exists c', l'. split_and!; try done; [unfold onCandles; by rewrite Hget|].
  destruct (as_map l' !! key) as [e|] eqn:He; [|done]. exfalso.
  apply as_map_lookup in He; [by apply (Hr e)|]. by destruct Hl' as [[]].
Qed.

Definition sameConfig (uc uc' : BuildCandleFromEvents) : Prop :=
  config (cmap (candles uc')) = config (cmap (candles uc)).

(** Creating the candle of an absent key. *)
Lemma create_absent uc l key ws c :
  stores (candleOk (λ _, True)) (candles uc) l → as_map l !! key = None →
  NewCandleV1 (key_Venue key) (key_Instrument key) (key_Timeframe key) ws = inr c →
  let n := reads (candles uc) in
  ∃ uc' a, getOrCreateCandle clk key ws uc = (uc', inr a) ∧
    present uc' key (MkEntry a (nextExpiryAt (cmap (candles uc)) (clk (S n)))) c ∧
    reads (candles uc') = S (S n) ∧ sameConfig uc uc'.
Proof.
  intros Hl Hk Hnew n. destruct (get_absent _ uc l key Hl Hk) as (c1 & l1 & Hget & Hl1 & Hk1 & Hrd1 & Hcfg1).
  unfold getOrCreateCandle. rewrite (bind_run _ _ uc _ None Hget). rewrite Hnew.
  rewrite (bind_run _ _ _ (uc <| candles := c1 |>) c) by done.
  destruct (alloc_stores _ c1 l1 c Hl1) as (c2 & a & Halloc & Hl2 & Ha & Hm2 & Hrd2 & Hno & _).
  rewrite (bind_run _ _ _ (uc <| candles := c2 |>) a) by (by apply onCandles_run).
  destruct (cellPut_stores clk _ c2 l1 key a c Hl2 Ha) as (c3 & l3 & Hput & Hl3 & Hh3 & Hrd3 & Hcfg3 & Hin & _).
  { unfold NewCandleV1 in Hnew. destruct (Collect _); [done|]. by injection Hnew as <-. }
  { intros k' e' Hin' He'. by destruct (Hno k' e' Hin'). }
  rewrite (bind_run _ _ _ (uc <| candles := c3 |>) tt) by (by apply onCandles_run).
  exists (uc <| candles := c3 |>), a. split; [done|].
  assert (nextExpiryAt (cmap c2) (clk (reads c2)) = nextExpiryAt (cmap (candles uc)) (clk (S n))) as Hexp.
  { rewrite Hm2, Hrd2, Hrd1. unfold nextExpiryAt. unfold config in Hcfg1. by injection Hcfg1 as _ -> _ _ _ _. }
  rewrite Hexp in Hin. split_and!.
  - split; [|cbn; by rewrite Hh3]. exists l3. split; [by destruct Hl3|].
    apply as_map_lookup; [by destruct Hl3 as [[]]|done].
  - cbn. by rewrite Hrd3, Hrd2, Hrd1.
  - unfold sameConfig. cbn. by rewrite Hcfg3, Hm2.
Qed.

(** A dust trade blocks its key. A trade whose quantity is positive but
    rounds to zero at the fixed-point scale passes the request validation; when
    it is the first of its window, the request fails, but the empty candle it
    created stays in the map: unless another trade of the same window arrives,
    every attempt to roll to a later window then fails with ValidationFailed
    ("cannot close candle without trades") until the entry expires. *)
Theorem dust_trade_blocks_key req uc uc1 d forced l c dur wss :
  let key := MkCandleKey (CanonicalVenue (req_Venue req)) (CanonicalInstrument (req_Instrument req)) candleTimeframeBase in
  let n := reads (candles uc1) in
  let ttl := ttl (cmap (candles uc1)) in
  validateRequest req = None →
  observeWindow clk key (req_TsIngest req) (durationOf uc candleTimeframeBase) uc = (uc1, inr (d, forced)) →
  IsLate d = false →
  stores (candleOk (λ _, True)) (candles uc1) l → as_map l !! key = None →
  NewCandleV1 (key_Venue key) (key_Instrument key) candleTimeframeBase (WindowStart d) = inr c →
  fixed_trade (req_Price req) (req_Quantity req) (req_IsBuy req) (req_Seq req) = None →
  Forall (λ ws, WindowStart d ≠ ws) wss →
  (∀ i, (i < length wss)%nat → ttl ≤ 0 ∨ clk (n + 3 + i)%nat < clk (n + 2)%nat + ttl) →
  ∃ uc' p, Execute clk req uc = (uc', inl p) ∧
    Forall (λ r, ∃ p', r = inl p' ∧ Code p' = ValidationFailed) (attempts key dur wss uc').
Proof.
  intros key n t Hval Hobs Hlate Hl Hk Hnew Hdust Hwss Hclk.
  unfold Execute. rewrite (bind_run _ _ uc uc tt) by (unfold check; by rewrite Hval).
  rewrite (bind_run _ _ uc uc uc) by done. fold key. rewrite (bind_run _ _ uc uc1 (d, forced) Hobs).
  cbn match. rewrite Hlate. rewrite (bind_run _ _ uc1 uc1 uc1) by done.
  destruct (get_absent _ uc1 l key Hl Hk) as (c1 & l1 & Hget & Hl1 & Hk1 & Hrd1 & Hcfg1).
  set (uc2 := uc1 <| candles := c1 |>) in *.
  rewrite (bind_run _ _ uc1 uc2 (None, None)).
  2: { unfold closeIfWindowChanged. by rewrite (bind_run _ _ uc1 uc2 None Hget). }
  cbn match. destruct (create_absent uc2 l1 key (WindowStart d) c Hl1 Hk1 Hnew)
    as (uc3 & a & Hcreate & Hp3 & Hrd3 & Hcfg3).
  rewrite (bind_run _ _ uc2 uc3 a Hcreate).
  destruct (ApplyTrade_rejects c (req_Price req) (req_Quantity req) (req_IsBuy req) (req_Seq req)) as (p & Htrade & _);
    [auto|].
  set (uc4 := uc3 <| candles ::= λ cs, cs <| heap ::= <[a := c]> |> |>).
  assert (onCandles (callAt a (ApplyTrade (req_Price req) (req_Quantity req) (req_IsBuy req) (req_Seq req))) uc3 = (uc4, inl p))
    as Hcall.
  { unfold onCandles, callAt. destruct Hp3 as [_ Hc3]. cbn in Hc3. by rewrite Hc3, Htrade. }
  rewrite (bind_err _ _ uc3 uc4 p Hcall). exists uc4, p. split; [done|].
  set (e := MkEntry a (nextExpiryAt (cmap (candles uc2)) (clk (S (reads (candles uc2)))))) in *.
  assert (present uc4 key e c) as Hp4.
  { destruct Hp3 as [H1 _]. split; [exact H1|]. apply lookup_insert_eq. }
  assert (closeError c = ValidationFailed ∧ unclosable c ∧ WindowStartTs c = WindowStart d) as (<- & Hun & Hws).
  { unfold NewCandleV1 in Hnew. destruct (Collect _); [done|]. injection Hnew as <-. split_and!; [done|by right|done]. }
  assert (reads (candles uc4) = n + 3)%nat as Hrd4.
  { change (reads (candles uc4)) with (reads (candles uc3)). rewrite Hrd3. cbn. rewrite Hrd1. lia. }
  assert (config (cmap (candles uc4)) = config (cmap (candles uc2))) as Hcfg4 by exact Hcfg3.
  apply (blocked_attempts key e c); [done|done|by rewrite Hws|]. rewrite Hrd4. intros m Hm.
  rewrite (config_expired _ (cmap (candles uc2))) by done. apply not_expired_entry. cbn [candles].
  change (reads (candles uc2)) with (reads c1). rewrite Hrd1.
  assert (BoundedMap.ttl (cmap (candles uc2)) = t) as -> by (unfold config in Hcfg1; by injection Hcfg1).
  replace m with (n + 3 + (m - (n + 3)))%nat by lia. replace (S (S (reads (candles uc1)))) with (n + 2)%nat by (unfold n; lia).
  apply Hclk. lia.
Qed.
End claims.

(** ** Witnesses *)

Definition okPorts : CandlePorts := {| SaveCandle _ _ := None; PublishCandleClosed _ _ := None |}.
Definition downPorts : CandlePorts :=
  {| SaveCandle _ _ := Some (New Unavailable "store is down"); PublishCandleClosed _ _ := None |}.
Definition tick (n : nat) : Z := Z.of_nat n.
Definition w_req (instrument : string) (seq ts : Z) : BuildCandleRequest :=
  MkBuildCandleRequest "binance" instrument (f_of_Z 100) (f_of_Z 1) true seq ts.
Definition w_cfg (cap : Z) : BuildCandleConfig := MkBuildCandleConfig 16 cap 0 0 None.
Definition w_uc (P : CandlePorts) (cap : Z) : BuildCandleFromEvents :=
  runRequests (GR:=go_amd64) (ports:=P) tick [w_req "BTC-USDT" 1 1200] (NewBuildCandleFromEvents tick true true (w_cfg cap)).

Lemma w_lettered : lettered "binance".
Proof. split; reflexivity. Defined.

(** The cap is one open window: the second instrument forces the first one's window. *)
Lemma forced_close_closes_nothing_witness :
  ∃ uc' d closed,
    observeWindow (GR:=go_amd64) (ports:=okPorts) tick (MkCandleKey "BINANCE" "ETHUSDT" "1s") 1300 1000
      (w_uc okPorts 1) = (uc', inr (d, closed)) ∧ is_Some (ForcedClose d) ∧ closed = None.
Proof.
  destruct (observed_run (λ _ x, match ForcedClose x.1 with Some _ => true | None => false end)
    (observeWindow (GR:=go_amd64) (ports:=okPorts) tick (MkCandleKey "BINANCE" "ETHUSDT" "1s") 1300 1000
      (w_uc okPorts 1)) true) as (uc' & [d closed] & Hrun & Hobs); [vm_compute; reflexivity|].
  exists uc', d, closed. split; [exact Hrun|]. cbn [fst] in Hobs. split.
  - destruct (ForcedClose d); [eexists; reflexivity|discriminate Hobs].
  - apply (forced_close_closes_nothing (GR:=go_amd64) (ports:=okPorts) tick true true (w_cfg 1)
      [w_req "BTC-USDT" 1 1200] "binance" "ETHUSDT" "1s" 1300 1000 uc' d closed).
    + apply Forall_cons_2; [exact w_lettered|apply Forall_nil_2].
    + exact w_lettered.
    + exact Hrun.
Defined.

Lemma Execute_emits_what_it_returns_witness :
  ∃ uc' r, Execute (GR:=go_amd64) (ports:=okPorts) tick (w_req "BTC-USDT" 2 2500) (w_uc okPorts 96) = (uc', inr r) ∧
    length (resp_Closed r) = 1%nat ∧ length (portCalls uc') = 2%nat ∧
    portCalls uc' = portCalls (w_uc okPorts 96) ++ emitted true true (resp_Closed r).
Proof.
  destruct (observed_run (λ uc r, (length (resp_Closed r), length (portCalls uc)))
    (Execute (GR:=go_amd64) (ports:=okPorts) tick (w_req "BTC-USDT" 2 2500) (w_uc okPorts 96)) (1, 2)%nat)
    as (uc' & r & Hrun & Hobs); [vm_compute; reflexivity|].
  injection Hobs as Hlen Hcalls. exists uc', r. split; [exact Hrun|]. split; [exact Hlen|]. split; [exact Hcalls|].
  apply (Execute_emits_what_it_returns (GR:=go_amd64) (ports:=okPorts) tick _ _ _ _ Hrun).
Defined.

Lemma failed_save_blocks_key_witness :
  ∃ uc', closeIfWindowChanged (GR:=go_amd64) (ports:=downPorts) tick (MkCandleKey "BINANCE" "BTCUSDT" "1s") 2000 1000
      (w_uc downPorts 96) = (uc', inl (New Unavailable "store is down")) ∧
    Forall (λ r, ∃ p', r = inl p' ∧ Code p' = Conflict)
      (attempts (GR:=go_amd64) (ports:=downPorts) tick (MkCandleKey "BINANCE" "BTCUSDT" "1s") 1000 [3000; 4000] uc').
Proof.
  destruct (items (cmap (candles (w_uc downPorts 96))) !! MkCandleKey "BINANCE" "BTCUSDT" "1s") as [e|] eqn:He;
    [|vm_compute in He; discriminate He].
  destruct (heap (candles (w_uc downPorts 96)) !! 0) as [c|] eqn:Hc; [|vm_compute in Hc; discriminate Hc].
  assert (value e = 0 ∧ WindowStartTs c = 1000) as [Hv Hws].
  { vm_compute in He, Hc. injection He as <-. injection Hc as <-. split; reflexivity. }
  destruct (Close (GR:=go_amd64) 2000 c) as [c' [p|[]]] eqn:Hclose;
    [vm_compute in Hc; injection Hc as <-; vm_compute in Hclose; discriminate Hclose|].
  apply (failed_save_blocks_key (GR:=go_amd64) (ports:=downPorts) tick (w_uc downPorts 96)
    (MkCandleKey "BINANCE" "BTCUSDT" "1s") e c c' 2000 1000 (New Unavailable "store is down") [3000; 4000]).
  - assert (ucOk (GR:=go_amd64) (λ _, True) (λ _, True) (w_uc downPorts 96)) as [(l & [Hr _ _ _]) _].
    { apply runRequests_ok; [done|done|by apply Forall_true|apply New_ok]. }
    split; [exists l; split; [exact Hr|]|rewrite Hv; exact Hc]. destruct Hr as [_ Hi _ _ _]. rewrite <- Hi. exact He.
  - rewrite Hws. discriminate.
  - rewrite Hws. exact Hclose.
  - vm_compute. reflexivity.
  - reflexivity.
  - rewrite Hws. repeat apply Forall_cons_2; [discriminate..|apply Forall_nil_2].
  - assert (reads (candles (w_uc downPorts 96)) = 5%nat) as -> by (vm_compute; reflexivity).
    intros n Hn. cbn [length] in Hn. vm_compute in He. injection He as <-.
    assert (n = 5 ∨ n = 6 ∨ n = 7)%nat as [->|[->| ->]] by lia; vm_compute; reflexivity.
Defined.

(** 10^-9 units: half of it would be needed to round to one step of 10^-8. *)
Definition w_dust : BuildCandleRequest :=
  MkBuildCandleRequest "binance" "BTC-USDT" (f_of_Z 100) (flit 1 1000000000) true 1 1200.
Definition w_new : BuildCandleFromEvents := NewBuildCandleFromEvents tick true true (w_cfg 96).

Lemma dust_trade_blocks_key_witness :
  ∃ uc' p, Execute (GR:=go_amd64) (ports:=okPorts) tick w_dust w_new = (uc', inl p) ∧
    Forall (λ r, ∃ p', r = inl p' ∧ Code p' = ValidationFailed)
      (attempts (GR:=go_amd64) (ports:=okPorts) tick (MkCandleKey "BINANCE" "BTCUSDT" "1s") 1000 [2000; 3000] uc').
Proof.
  destruct (observed_run (λ uc x, (candles uc, IsLate x.1, WindowStart x.1))
    (observeWindow (GR:=go_amd64) (ports:=okPorts) tick (MkCandleKey "BINANCE" "BTCUSDT" "1s") 1200 1000 w_new)
    (candles w_new, false, 1000)) as (uc1 & [d f] & Hobs & Hx); [vm_compute; reflexivity|].
  pose proof (f_equal (λ x, x.1.1) Hx) as Hc. pose proof (f_equal (λ x, x.1.2) Hx) as Hlate.
  pose proof (f_equal snd Hx) as Hws. cbn [fst snd] in Hc, Hlate, Hws. clear Hx.
  destruct (NewCandleV1 (GR:=go_amd64) "BINANCE" "BTCUSDT" "1s" 1000) as [p|c] eqn:Hnew;
    [vm_compute in Hnew; discriminate Hnew|].
  apply (dust_trade_blocks_key (GR:=go_amd64) (ports:=okPorts) tick w_dust w_new uc1 d f [] c 1000 [2000; 3000]).
  - vm_compute. reflexivity.
  - exact Hobs.
  - exact Hlate.
  - rewrite Hc. pose proof (newCells_stores tick (candleOk (GR:=go_amd64) (λ _, True)) 16 Hour) as [Hr Hnd Ha Hcell].
    split; [destruct Hr; split; assumption|exact Hnd|exact Ha|exact Hcell].
  - reflexivity.
  - rewrite Hws. exact Hnew.
  - vm_compute. reflexivity.
  - rewrite Hws. repeat apply Forall_cons_2; [discriminate..|apply Forall_nil_2].
  - rewrite Hc. intros i Hi. right. cbn [length] in Hi.
    assert (i = 0 ∨ i = 1)%nat as [->| ->] by lia; vm_compute; reflexivity.
Defined.
