(* ===== verification/Tape.v ===== *)
(** * Tape: internal/core/aggregation/domain/tape.go

    The trade-flow window: counts, volumes, notionals, price extrema and the
    last price. Unlike the candle it accepts trades in any order; the theorem is
    that the window they produce does not depend on the order.

    The names of the fields are those of the Go struct; they shadow the candle's. *)

From S2P Require Import Prelude GoRuntime Shared Candle.

Local Open Scope string_scope.
Local Open Scope list_scope.
Local Open Scope Z_scope.

Definition tapeNotionalFixedScale : Z := candleFixedScale.
Definition AllowedTapeTimeframes : list string := ["250ms"; "1s"; "5s"].
Definition TapeWindowDurations : gmap string Z := list_to_map [("250ms", 250); ("1s", 1000); ("5s", 5000)].

Record TapeKey := MkTapeKey { tkey_Venue : string; tkey_Instrument : string; tkey_Timeframe : string }.

Record TapeWindowV1 := MkTapeWindow {
  Venue : string;
  Instrument : string;
  Timeframe : string;
  WindowStartTs : Z;
  WindowEndTs : Z;
  TradeCount : Z;
  BuyCount : Z;
  SellCount : Z;
  BuyVolume : float64;
  SellVolume : float64;
  TotalVolume : float64;
  BuyNotional : float64;
  SellNotional : float64;
  VwapPrice : float64;
  MaxPrice : float64;
  MinPrice : float64;
  LastPrice : float64;
  MaxTradeSize : float64;
  LastSeq : Z;
  RateTradesPerSec : float64;
  VolumeImbalance : float64;
  IsClosed : bool;
  buyVolumeFixed : Z;
  sellVolumeFixed : Z;
  totalVolumeFixed : Z;
  buyNotionalFixed : Z;
  sellNotionalFixed : Z;
  maxPriceFixed : Z;
  minPriceFixed : Z;
  lastPriceFixed : Z;
  maxTradeSizeFixed : Z;
  hasTrades : bool;
}.
#[export] Instance TapeWindowV1_eta : Eta TapeWindowV1 := λ r,
  MkTapeWindow (Venue r) (Instrument r) (Timeframe r) (WindowStartTs r) (WindowEndTs r)
    (TradeCount r) (BuyCount r) (SellCount r) (BuyVolume r) (SellVolume r) (TotalVolume r)
    (BuyNotional r) (SellNotional r) (VwapPrice r) (MaxPrice r) (MinPrice r) (LastPrice r)
    (MaxTradeSize r) (LastSeq r) (RateTradesPerSec r) (VolumeImbalance r) (IsClosed r)
    (buyVolumeFixed r) (sellVolumeFixed r) (totalVolumeFixed r) (buyNotionalFixed r)
    (sellNotionalFixed r) (maxPriceFixed r) (minPriceFixed r) (lastPriceFixed r)
    (maxTradeSizeFixed r) (hasTrades r).

Abbreviation TapeM := (Meth TapeWindowV1 Problem).

Record TapeClosed := NewTapeClosed { closed_window : TapeWindowV1; closed_burst : bool }.

(** ** Fixed-point bookkeeping *)

Definition applySide (isBuy : bool) (sizeFixed notionalFixed : Z) (w : TapeWindowV1) : TapeWindowV1 :=
  if isBuy then
    w <| BuyCount := add64 (BuyCount w) 1 |>
      <| buyVolumeFixed := add64 (buyVolumeFixed w) sizeFixed |>
      <| buyNotionalFixed := add64 (buyNotionalFixed w) notionalFixed |>
  else
    w <| SellCount := add64 (SellCount w) 1 |>
      <| sellVolumeFixed := add64 (sellVolumeFixed w) sizeFixed |>
      <| sellNotionalFixed := add64 (sellNotionalFixed w) notionalFixed |>.

(** The four conditional updates of [updateExtrema]. *)
Definition raiseMaxPrice (priceFixed : Z) (w : TapeWindowV1) : TapeWindowV1 :=
  if maxPriceFixed w <? priceFixed then w <| maxPriceFixed := priceFixed |> else w.
Definition lowerMinPrice (priceFixed : Z) (w : TapeWindowV1) : TapeWindowV1 :=
  if priceFixed <? minPriceFixed w then w <| minPriceFixed := priceFixed |> else w.
Definition raiseMaxSize (sizeFixed : Z) (w : TapeWindowV1) : TapeWindowV1 :=
  if maxTradeSizeFixed w <? sizeFixed then w <| maxTradeSizeFixed := sizeFixed |> else w.
Definition advanceLast (priceFixed seq : Z) (w : TapeWindowV1) : TapeWindowV1 :=
  if (LastSeq w <? seq) || ((seq =? LastSeq w) && (lastPriceFixed w <? priceFixed)) then
    w <| LastSeq := seq |> <| lastPriceFixed := priceFixed |>
  else w.

Definition updateExtrema (priceFixed sizeFixed seq : Z) (w : TapeWindowV1) : TapeWindowV1 :=
  if negb (hasTrades w) then
    w <| maxPriceFixed := priceFixed |> <| minPriceFixed := priceFixed |> <| lastPriceFixed := priceFixed |>
      <| maxTradeSizeFixed := sizeFixed |> <| LastSeq := seq |> <| hasTrades := true |>
  else
    let w := raiseMaxPrice priceFixed w in
    let w := lowerMinPrice priceFixed w in
    let w := raiseMaxSize sizeFixed w in
    advanceLast priceFixed seq w.

(** [float64(buyNotional + sellNotional) / float64(totalVolume)] *)
Definition vwap (w : TapeWindowV1) : float64 :=
  fdiv (f_of_Z (add64 (buyNotionalFixed w) (sellNotionalFixed w))) (f_of_Z (totalVolumeFixed w)).

Definition syncFromFixed (w : TapeWindowV1) : TapeWindowV1 :=
  let w := w
    <| BuyVolume := fromFixed (buyVolumeFixed w) candleFixedScale |>
    <| SellVolume := fromFixed (sellVolumeFixed w) candleFixedScale |>
    <| TotalVolume := fromFixed (totalVolumeFixed w) candleFixedScale |>
    <| BuyNotional := fromFixed (buyNotionalFixed w) tapeNotionalFixedScale |>
    <| SellNotional := fromFixed (sellNotionalFixed w) tapeNotionalFixedScale |>
    <| MaxPrice := fromFixed (maxPriceFixed w) candleFixedScale |>
    <| MinPrice := fromFixed (minPriceFixed w) candleFixedScale |>
    <| LastPrice := fromFixed (lastPriceFixed w) candleFixedScale |>
    <| MaxTradeSize := fromFixed (maxTradeSizeFixed w) candleFixedScale |> in
  if 0 <? totalVolumeFixed w then w <| VwapPrice := vwap w |> else w.

Section tape.
Context {GR : GoRuntime}.

Definition NewTapeWindowV1 (venue instrument timeframe : string) (windowStartTs : Z) : Problem + TapeWindowV1 :=
  match Collect [NonEmptyString "venue" venue; NonEmptyString "instrument" instrument;
                 OneOf "timeframe" timeframe AllowedTapeTimeframes;
                 NonNegativeInt "window_start_ts" windowStartTs] with
  | Some p => inl p
  | None => inr (MkTapeWindow (TrimSpace venue) (TrimSpace instrument) (TrimSpace timeframe)
                   windowStartTs 0 0 0 0 f0 f0 f0 f0 f0 f0 f0 f0 f0 f0 0 f0 f0 false
                   0 0 0 0 0 0 0 0 0 false)
  end.

(** ** Validation *)

Definition checkMutable : TapeM unit :=
  w ← recv; fail_if (IsClosed w) (New Conflict "cannot mutate closed tape window").

Definition validateStaticFields (w : TapeWindowV1) : option Problem :=
  Collect [NonEmptyString "venue" (Venue w); NonEmptyString "instrument" (Instrument w);
           OneOf "timeframe" (Timeframe w) AllowedTapeTimeframes;
           NonNegativeInt "window_start_ts" (WindowStartTs w);
           NonNegativeInt "trade_count" (TradeCount w)].

Definition validateWindowBounds (w : TapeWindowV1) : option Problem :=
  if IsClosed w && (WindowEndTs w <=? WindowStartTs w) then
    Some (New IntegrityViolation "closed tape window must have valid window bounds")
  else if negb (IsClosed w) && negb (WindowEndTs w =? 0) then
    Some (New IntegrityViolation "open tape window must not have window_end_ts set")
  else None.

Definition validateEmptyWindow (w : TapeWindowV1) : option Problem :=
  if negb (BuyCount w =? 0) || negb (SellCount w =? 0) then
    Some (New IntegrityViolation "empty tape window cannot have side counts")
  else None.

Definition validateNonEmptyWindow (w : TapeWindowV1) : option Problem :=
  if negb (add64 (BuyCount w) (SellCount w) =? TradeCount w) then
    Some (New IntegrityViolation "trade_count must equal buy_count + sell_count")
  else if (totalVolumeFixed w <=? 0) || (buyVolumeFixed w <? 0) || (sellVolumeFixed w <? 0) then
    Some (New IntegrityViolation "volume totals are invalid")
  else if negb (totalVolumeFixed w =? add64 (buyVolumeFixed w) (sellVolumeFixed w)) then
    Some (New IntegrityViolation "total_volume must equal buy_volume + sell_volume")
  else if (maxPriceFixed w <=? 0) || (minPriceFixed w <=? 0) || (lastPriceFixed w <=? 0) then
    Some (New IntegrityViolation "price extrema must be positive")
  else if maxPriceFixed w <? minPriceFixed w then
    Some (New IntegrityViolation "max_price must be >= min_price")
  else if maxTradeSizeFixed w <=? 0 then
    Some (New IntegrityViolation "max_trade_size must be positive")
  else if LastSeq w <=? 0 then
    Some (New IntegrityViolation "last_seq must be positive when trades exist")
  else if fltb (VolumeImbalance w) (f_of_Z (-1)) || fgtb (VolumeImbalance w) f1 then
    Some (New IntegrityViolation "imbalance must be in [-1,+1]")
  else None.

Definition Validate (w : TapeWindowV1) : option Problem :=
  match validateStaticFields w with
  | Some p => Some p
  | None =>
      match validateWindowBounds w with
      | Some p => Some p
      | None => if TradeCount w =? 0 then validateEmptyWindow w else validateNonEmptyWindow w
      end
  end.

(** ** Operations *)

Definition toTradeFixedValues (price size : float64) : Problem + (Z * Z * Z) :=
  match toPositiveFixed "price" price candleFixedScale with
  | inl p => inl p
  | inr priceFixed =>
  match toPositiveFixed "size" size candleFixedScale with
  | inl p => inl p
  | inr sizeFixed =>
  let notional := fmul price size in
  if isNaN notional || isInf notional || fleb notional f0 then
    inl (New ValidationFailed "notional must be a positive finite number")
  else
  let notionalFixed := i64_of_f (RoundToEven (fmul notional (f_of_Z tapeNotionalFixedScale))) in
  if notionalFixed <=? 0 then inl (New ValidationFailed "notional must be > 0")
  else inr (priceFixed, sizeFixed, notionalFixed)
  end end.

(** The assignments of [ApplyTrade]. *)
Definition tradeUpdate (priceFixed sizeFixed notionalFixed : Z) (isBuy : bool) (seq : Z) (w : TapeWindowV1)
    : TapeWindowV1 :=
  let w := w <| TradeCount := add64 (TradeCount w) 1 |> in
  let w := applySide isBuy sizeFixed notionalFixed w in
  let w := w <| totalVolumeFixed := add64 (buyVolumeFixed w) (sellVolumeFixed w) |> in
  let w := updateExtrema priceFixed sizeFixed seq w in
  syncFromFixed w.

Definition ApplyTrade (price size : float64) (isBuy : bool) (seq : Z) : TapeM unit :=
  checkMutable ;;
  check (PositiveInt "seq" seq) ;;
  fixed ← try_ (toTradeFixedValues price size);
  let '(priceFixed, sizeFixed, notionalFixed) := fixed in
  assign (tradeUpdate priceFixed sizeFixed notionalFixed isBuy seq) ;;
  w ← recv;
  check (Validate w).

(** The derived metrics [Close] computes. *)
Definition closeMetrics (w : TapeWindowV1) : TapeWindowV1 :=
  let w := if 0 <? totalVolumeFixed w then w <| VwapPrice := vwap w |> else w in
  let durationMs := default 0 (TapeWindowDurations !! Timeframe w) in
  let w := if 0 <? durationMs then
      w <| RateTradesPerSec := fdiv (f_of_Z (TradeCount w)) (fdiv (f_of_Z durationMs) (f_of_Z 1000)) |>
    else w in
  let w := if 0 <? totalVolumeFixed w then
      let w := w <| VolumeImbalance := fdiv (f_of_Z (sub64 (buyVolumeFixed w) (sellVolumeFixed w)))
                                         (f_of_Z (totalVolumeFixed w)) |> in
      let w := if fgtb (VolumeImbalance w) f1 then w <| VolumeImbalance := f1 |> else w in
      if fltb (VolumeImbalance w) (f_of_Z (-1)) then w <| VolumeImbalance := f_of_Z (-1) |> else w
    else w in
  syncFromFixed w.

Definition Close (windowEndTs : Z) : TapeM unit :=
  checkMutable ;;
  w ← recv;
  fail_if (windowEndTs <=? WindowStartTs w)
    (Newf ValidationFailed "window_end_ts must be > window_start_ts: start=%d end=%d"
       [AnyInt (WindowStartTs w); AnyInt windowEndTs]) ;;
  assign (λ w, w <| WindowEndTs := windowEndTs |> <| IsClosed := true |>) ;;
  assign closeMetrics ;;
  w ← recv;
  check (Validate w).

Definition Rate (w : TapeWindowV1) : float64 := RateTradesPerSec w.
Definition Imbalance (w : TapeWindowV1) : float64 := VolumeImbalance w.
Definition IsBurst (w : TapeWindowV1) (threshold : Z) : bool :=
  if threshold <? 0 then false else threshold <? TradeCount w.
End tape.
