(* ===== verification/TapeSpec.v ===== *)
(** * TapeSpec: what a tape window promises

    [view] describes the window of a list of trades by facts that do not mention
    their order (sums, extrema, the lexicographically greatest pair of sequence
    and price), so equal multisets of trades give equal windows. Notional sums
    may wrap around (the code does not check them) and are described modulo 2^64. *)

From S2P Require Import Prelude GoRuntime Shared Candle Tape.

Local Open Scope string_scope.
Local Open Scope list_scope.
Local Open Scope Z_scope.

Record trade := MkTrade { t_price : Z; t_size : Z; t_notional : Z; t_buy : bool; t_seq : Z }.

Definition sumOf (f : trade → Z) (ts : list trade) : Z := foldr (λ t n, f t + n) 0 ts.
Definition onSide (buy : bool) (f : trade → Z) (t : trade) : Z := if Bool.eqb (t_buy t) buy then f t else 0.

(** [v] is the greatest value of [f] on [ts]. *)
Definition greatest (f : trade → Z) (ts : list trade) (v : Z) : Prop :=
  (∃ t, t ∈ ts ∧ f t = v) ∧ ∀ t, t ∈ ts → f t ≤ v.
(** [(seq, price)] is the lexicographically greatest pair of [ts]. *)
Definition latest (ts : list trade) (seq price : Z) : Prop :=
  (∃ t, t ∈ ts ∧ t_seq t = seq ∧ t_price t = price) ∧
  ∀ t, t ∈ ts → t_seq t < seq ∨ (t_seq t = seq ∧ t_price t ≤ price).

Definition trade_ok (t : trade) : Prop :=
  0 < t_price t ≤ MaxInt64 ∧ 0 < t_size t ≤ MaxInt64 ∧ 0 < t_notional t ≤ MaxInt64 ∧ 0 < t_seq t ≤ MaxInt64.

(** Trades a window can absorb: the total size and the count stay in range. *)
Definition trades_ok (ts : list trade) : Prop :=
  Forall trade_ok ts ∧ sumOf t_size ts ≤ MaxInt64 ∧ Z.of_nat (length ts) ≤ MaxInt64.

Record view (w : TapeWindowV1) (ts : list trade) : Prop := {
  view_count : TradeCount w = Z.of_nat (length ts);
  view_buys : BuyCount w = sumOf (onSide true (λ _, 1)) ts;
  view_sells : SellCount w = sumOf (onSide false (λ _, 1)) ts;
  view_buyVolume : buyVolumeFixed w = sumOf (onSide true t_size) ts;
  view_sellVolume : sellVolumeFixed w = sumOf (onSide false t_size) ts;
  view_total : totalVolumeFixed w = sumOf t_size ts;
  view_buyNotional : buyNotionalFixed w = wrap64 (sumOf (onSide true t_notional) ts);
  view_sellNotional : sellNotionalFixed w = wrap64 (sumOf (onSide false t_notional) ts);
  view_has : hasTrades w = bool_decide (ts ≠ []);
  view_extrema : ts ≠ [] →
    greatest t_price ts (maxPriceFixed w) ∧ greatest (λ t, - t_price t) ts (- minPriceFixed w) ∧
    greatest t_size ts (maxTradeSizeFixed w) ∧ latest ts (LastSeq w) (lastPriceFixed w);
}.

Section spec.
Context {GR : GoRuntime}.

(** Identity fields valid, window open, derived metrics not yet computed. *)
Record openIdent (w : TapeWindowV1) : Prop := {
  oi_venue : TrimSpace (Venue w) ≠ "";
  oi_instrument : TrimSpace (Instrument w) ≠ "";
  oi_timeframe : Timeframe w ∈ AllowedTapeTimeframes;
  oi_start : 0 ≤ WindowStartTs w;
  oi_end : WindowEndTs w = 0;
  oi_open : IsClosed w = false;
  oi_rate : RateTradesPerSec w = f0;
  oi_imbalance : VolumeImbalance w = f0;
}.

Record inv (w : TapeWindowV1) (ts : list trade) : Prop := {
  inv_ident : openIdent w;
  inv_view : view w ts;
  inv_trades : trades_ok ts;
  inv_sync : ts ≠ [] → syncFromFixed w = w;
}.

(** A raw trade and the fixed-point trade it denotes. *)
Definition rawTrade : Type := float64 * float64 * bool * Z.
Definition fixedTrade (r : rawTrade) : option trade :=
  let '(price, size, buy, seq) := r in
  match toTradeFixedValues price size with
  | inr (p, s, n) => Some (MkTrade p s n buy seq)
  | inl _ => None
  end.
Definition applyRaw (r : rawTrade) : TapeM unit :=
  let '(price, size, buy, seq) := r in ApplyTrade price size buy seq.
End spec.

(** ** Sums and extrema *)

Lemma sumOf_app f ts us : sumOf f (ts ++ us) = sumOf f ts + sumOf f us.
Proof. unfold sumOf. induction ts as [|t ts IH]; cbn; [done|]. rewrite IH. lia. Qed.
Lemma sumOf_perm f ts us : ts ≡ₚ us → sumOf f ts = sumOf f us.
Proof. unfold sumOf. induction 1; cbn; lia. Qed.
Lemma sumOf_nonneg f ts : (∀ t, t ∈ ts → 0 ≤ f t) → 0 ≤ sumOf f ts.
Proof.
  unfold sumOf. induction ts as [|t ts IH]; cbn; intros H; [lia|].
  assert (0 ≤ f t) by (apply H; left). specialize (IH (λ t Ht, H t (list_elem_of_further _ _ _ Ht))). lia.
Qed.
Lemma sumOf_sides f ts : sumOf f ts = sumOf (onSide true f) ts + sumOf (onSide false f) ts.
Proof. unfold sumOf, onSide. induction ts as [|t ts IH]; cbn; [done|]. destruct (t_buy t); cbn; lia. Qed.
Lemma sumOf_count ts : Z.of_nat (length ts) = sumOf (λ _, 1) ts.
Proof. unfold sumOf. induction ts as [|t ts IH]; cbn [foldr length]; lia. Qed.

Lemma greatest_unique f ts v v' : greatest f ts v → greatest f ts v' → v = v'.
Proof. intros [(t & Ht & <-) Hv] [(t' & Ht' & <-) Hv']. specialize (Hv _ Ht'). specialize (Hv' _ Ht). lia. Qed.
Lemma greatest_perm f ts us v : ts ≡ₚ us → greatest f ts v → greatest f us v.
Proof.
  intros Hp [(t & Ht & Hv) Hall]. split; [exists t; by rewrite <- Hp|]. intros t'. rewrite <- Hp. apply Hall.
Qed.
Lemma greatest_snoc f ts t v :
  greatest f ts v → greatest f (ts ++ [t]) (Z.max v (f t)).
Proof.
  intros [(u & Hu & <-) Hall]. split.
  - destruct (Z.max_spec (f u) (f t)) as [[_ ->]|[_ ->]].
    + exists t. split; [|done]. apply elem_of_app. right. by left.
    + exists u. split; [|done]. apply elem_of_app. by left.
  - intros t' [Ht'| ->%list_elem_of_singleton]%elem_of_app; [specialize (Hall _ Ht')|]; lia.
Qed.
Lemma greatest_one f t : greatest f [t] (f t).
Proof. split; [exists t; split; [by left|done]|]. intros u ->%list_elem_of_singleton. lia. Qed.

Lemma latest_unique ts s p s' p' : latest ts s p → latest ts s' p' → s = s' ∧ p = p'.
Proof.
  intros [(t & Ht & <- & <-) Hv] [(t' & Ht' & <- & <-) Hv']. specialize (Hv _ Ht'). specialize (Hv' _ Ht). lia.
Qed.
Lemma latest_perm ts us s p : ts ≡ₚ us → latest ts s p → latest us s p.
Proof.
  intros Hp [(t & Ht & Hv) Hall]. split; [exists t; by rewrite <- Hp|]. intros t'. rewrite <- Hp. apply Hall.
Qed.
Lemma latest_snoc ts t s p :
  latest ts s p →
  let newer := (s <? t_seq t) || ((t_seq t =? s) && (p <? t_price t)) in
  latest (ts ++ [t]) (if newer then t_seq t else s) (if newer then t_price t else p).
Proof.
  intros [(u & Hu & <- & <-) Hall] newer.
  destruct newer eqn:Hn; unfold newer in Hn; reflect_bools; (split;
    [|intros t' [Ht'| ->%list_elem_of_singleton]%elem_of_app; [specialize (Hall _ Ht')|]]).
  - exists t. split; [|done]. apply elem_of_app. right. by left.
  - destruct Hn as [Hn|Hn]; reflect_bools; lia.
  - lia.
  - exists u. split; [|done]. apply elem_of_app. by left.
  - lia.
  - destruct H0 as [H0|H0]; reflect_bools; lia.
Qed.
Lemma latest_one t : latest [t] (t_seq t) (t_price t).
Proof. split; [exists t; split; [by left|done]|]. intros u ->%list_elem_of_singleton. lia. Qed.

Lemma trades_ok_perm ts us : ts ≡ₚ us → trades_ok ts → trades_ok us.
Proof.
  intros Hp (Hall & Hs & Hc). rewrite (sumOf_perm t_size ts us Hp) in Hs. rewrite (Permutation_length Hp) in Hc.
  split_and!; [|done|done]. rewrite Forall_forall in Hall |- *. intros t Ht. apply Hall. by rewrite Hp.
Qed.

(** ** One trade *)

Lemma side_sum_snoc buy f ts t : sumOf (onSide buy f) (ts ++ [t]) = sumOf (onSide buy f) ts + onSide buy f t.
Proof. rewrite sumOf_app. unfold sumOf at 2. cbn. lia. Qed.

(** The sums of a side are within those of all trades. *)
Lemma tape_side_bounds ts :
  trades_ok ts → ∀ buy, 0 ≤ sumOf (onSide buy t_size) ts ≤ MaxInt64 ∧ 0 ≤ sumOf (onSide buy (λ _, 1)) ts ≤ MaxInt64.
Proof.
  intros (Hall & Hs & Hc) buy. rewrite Forall_forall in Hall.
  assert (∀ b, 0 ≤ sumOf (onSide b t_size) ts) as H1.
  { intros b. apply sumOf_nonneg. intros t Ht. destruct (Hall t Ht) as (_ & ? & _). unfold onSide. case_match; lia. }
  assert (∀ b, 0 ≤ sumOf (onSide b (λ _, 1)) ts) as H2.
  { intros b. apply sumOf_nonneg. intros t Ht. unfold onSide. case_match; lia. }
  rewrite sumOf_sides in Hs. rewrite sumOf_count, sumOf_sides in Hc.
  pose proof (H1 true). pose proof (H1 false). pose proof (H2 true). pose proof (H2 false). destruct buy; lia.
Qed.

(** The fields of a window by group: the identity and lifecycle, the sums, the
    extrema. [syncFromFixed] changes none of them. *)
Definition static (w : TapeWindowV1) : string * string * string * Z * Z * bool * float64 * float64 :=
  (Venue w, Instrument w, Timeframe w, WindowStartTs w, WindowEndTs w, IsClosed w, RateTradesPerSec w, VolumeImbalance w).
Definition sums (w : TapeWindowV1) : Z * Z * Z * Z * Z * Z * Z * Z :=
  (TradeCount w, BuyCount w, SellCount w, buyVolumeFixed w, sellVolumeFixed w, totalVolumeFixed w,
   buyNotionalFixed w, sellNotionalFixed w).
Definition extrema (w : TapeWindowV1) : Z * Z * Z * Z * Z * bool :=
  (maxPriceFixed w, minPriceFixed w, maxTradeSizeFixed w, LastSeq w, lastPriceFixed w, hasTrades w).

Ltac eval_window :=
  lazy -[fromFixed fdiv f_of_Z add64 sub64 Z.ltb Z.leb Z.eqb candleFixedScale tapeNotionalFixedScale
    fltb f1 f0 TapeWindowDurations lookup gmap_lookup default].
Ltac run_window w := destruct w; eval_window.

Lemma tape_sync_groups w :
  static (syncFromFixed w) = static w ∧ sums (syncFromFixed w) = sums w ∧ extrema (syncFromFixed w) = extrema w.
Proof. run_window w. by destruct (0 <? _). Qed.
Lemma sync_idem w : syncFromFixed (syncFromFixed w) = syncFromFixed w.
Proof.
  run_window w. match goal with |- context [0 <? ?x] => is_var x; destruct (0 <? x) eqn:H end;
    eval_window; by rewrite H.
Qed.

Lemma tape_view_ext w w' ts : sums w' = sums w → extrema w' = extrema w → view w ts → view w' ts.
Proof.
  unfold sums, extrema. intros Hs He []. injection Hs as H1 H2 H3 H4 H5 H6 H7 H8.
  injection He as X1 X2 X3 X4 X5 X6. split; try congruence.
  rewrite X1, X2, X3, X4, X5. done.
Qed.
Lemma tape_sync_view w ts : view w ts → view (syncFromFixed w) ts.
Proof. apply tape_view_ext; apply tape_sync_groups. Qed.

(** The conditional updates, one by one. *)
Lemma raiseMaxPrice_spec p w :
  static (raiseMaxPrice p w) = static w ∧ sums (raiseMaxPrice p w) = sums w ∧
  extrema (raiseMaxPrice p w) =
    (Z.max (maxPriceFixed w) p, minPriceFixed w, maxTradeSizeFixed w, LastSeq w, lastPriceFixed w, hasTrades w).
Proof.
  unfold raiseMaxPrice. destruct (Z.ltb_spec (maxPriceFixed w) p); split_and!; try done.
  - unfold extrema. cbn. by rewrite Z.max_r by lia.
  - unfold extrema. by rewrite Z.max_l by lia.
Qed.
Lemma lowerMinPrice_spec p w :
  static (lowerMinPrice p w) = static w ∧ sums (lowerMinPrice p w) = sums w ∧
  extrema (lowerMinPrice p w) =
    (maxPriceFixed w, Z.min (minPriceFixed w) p, maxTradeSizeFixed w, LastSeq w, lastPriceFixed w, hasTrades w).
Proof.
  unfold lowerMinPrice. destruct (Z.ltb_spec p (minPriceFixed w)); split_and!; try done.
  - unfold extrema. cbn. by rewrite Z.min_r by lia.
  - unfold extrema. by rewrite Z.min_l by lia.
Qed.
Lemma raiseMaxSize_spec s w :
  static (raiseMaxSize s w) = static w ∧ sums (raiseMaxSize s w) = sums w ∧
  extrema (raiseMaxSize s w) =
    (maxPriceFixed w, minPriceFixed w, Z.max (maxTradeSizeFixed w) s, LastSeq w, lastPriceFixed w, hasTrades w).
Proof.
  unfold raiseMaxSize. destruct (Z.ltb_spec (maxTradeSizeFixed w) s); split_and!; try done.
  - unfold extrema. cbn. by rewrite Z.max_r by lia.
  - unfold extrema. by rewrite Z.max_l by lia.
Qed.
Lemma advanceLast_spec p q w :
  let newer := (LastSeq w <? q) || ((q =? LastSeq w) && (lastPriceFixed w <? p)) in
  static (advanceLast p q w) = static w ∧ sums (advanceLast p q w) = sums w ∧
  extrema (advanceLast p q w) =
    (maxPriceFixed w, minPriceFixed w, maxTradeSizeFixed w, if newer then q else LastSeq w,
     if newer then p else lastPriceFixed w, hasTrades w).
Proof. unfold advanceLast. cbn zeta. by destruct (_ || _). Qed.

Lemma updateExtrema_groups p s q w :
  static (updateExtrema p s q w) = static w ∧ sums (updateExtrema p s q w) = sums w.
Proof.
  unfold updateExtrema. destruct (negb (hasTrades w)); [done|]. cbn zeta.
  destruct (raiseMaxPrice_spec p w) as (<- & <- & _). set (w1 := raiseMaxPrice p w).
  destruct (lowerMinPrice_spec p w1) as (<- & <- & _). set (w2 := lowerMinPrice p w1).
  destruct (raiseMaxSize_spec s w2) as (<- & <- & _). set (w3 := raiseMaxSize s w2).
  by destruct (advanceLast_spec p q w3) as (<- & <- & _).
Qed.
Lemma applySide_static b s n w : static (applySide b s n w) = static w.
Proof. by destruct b. Qed.
Lemma tradeUpdate_static p s n b q w : static (tradeUpdate p s n b q w) = static w.
Proof.
  unfold tradeUpdate. rewrite (proj1 (tape_sync_groups _)), (proj1 (updateExtrema_groups _ _ _ _)).
  by destruct b.
Qed.

(** What one trade does to the extrema. *)
Lemma updateExtrema_extrema p s q w :
  extrema (updateExtrema p s q w) =
  if hasTrades w then
    let newer := (LastSeq w <? q) || ((q =? LastSeq w) && (lastPriceFixed w <? p)) in
    (Z.max (maxPriceFixed w) p, Z.min (minPriceFixed w) p, Z.max (maxTradeSizeFixed w) s,
     if newer then q else LastSeq w, if newer then p else lastPriceFixed w, true)
  else (p, p, s, q, p, true).
Proof.
  unfold updateExtrema. destruct (hasTrades w) eqn:Hh; [|done]. cbn [negb]. cbn zeta.
  pose proof (raiseMaxPrice_spec p w) as (_ & _ & E1). set (w1 := raiseMaxPrice p w) in *.
  pose proof (lowerMinPrice_spec p w1) as (_ & _ & E2). set (w2 := lowerMinPrice p w1) in *.
  pose proof (raiseMaxSize_spec s w2) as (_ & _ & E3). set (w3 := raiseMaxSize s w2) in *.
  pose proof (advanceLast_spec p q w3) as (_ & _ & ->). clearbody w1 w2 w3. unfold extrema in *.
  injection E3 as -> -> -> -> -> ->. injection E2 as -> -> -> -> -> ->. injection E1 as -> -> -> -> -> ->.
  by rewrite Hh.
Qed.

Lemma extrema_view ts t w :
  (hasTrades w = bool_decide (ts ≠ [])) →
  (ts ≠ [] → greatest t_price ts (maxPriceFixed w) ∧ greatest (λ t, - t_price t) ts (- minPriceFixed w) ∧
    greatest t_size ts (maxTradeSizeFixed w) ∧ latest ts (LastSeq w) (lastPriceFixed w)) →
  let w' := updateExtrema (t_price t) (t_size t) (t_seq t) w in
  greatest t_price (ts ++ [t]) (maxPriceFixed w') ∧ greatest (λ t, - t_price t) (ts ++ [t]) (- minPriceFixed w') ∧
  greatest t_size (ts ++ [t]) (maxTradeSizeFixed w') ∧ latest (ts ++ [t]) (LastSeq w') (lastPriceFixed w') ∧
  hasTrades w' = true.
Proof.
  intros Hh Hext w'. pose proof (updateExtrema_extrema (t_price t) (t_size t) (t_seq t) w) as He. fold w' in He.
  rewrite Hh in He. unfold extrema in He. case_bool_decide as Hts.
  - injection He as -> -> -> -> -> ->. destruct (Hext Hts) as (H1 & H2 & H3 & H4).
    split_and!; [by apply greatest_snoc| |by apply greatest_snoc|by apply latest_snoc|done].
    replace (- Z.min (minPriceFixed w) (t_price t)) with (Z.max (- minPriceFixed w) (- t_price t)) by lia.
    by apply (greatest_snoc (λ t, - t_price t)).
  - subst ts. injection He as -> -> -> -> -> ->. cbn [app].
    split_and!; [apply greatest_one|apply (greatest_one (λ t, - t_price t))|apply greatest_one|apply latest_one|done].
Qed.

Lemma tape_tradeUpdate_view w ts t :
  view w ts → trades_ok (ts ++ [t]) →
  view (tradeUpdate (t_price t) (t_size t) (t_notional t) (t_buy t) (t_seq t) w) (ts ++ [t]).
Proof.
  intros Hv Hok. pose proof (tape_side_bounds _ Hok) as Hb. pose proof Hok as (_ & Hs & Hc).
  rewrite length_app in Hc. cbn in Hc. apply tape_sync_view.
  set (w1 := applySide (t_buy t) (t_size t) (t_notional t) (w <| TradeCount := add64 (TradeCount w) 1 |>)).
  set (w2 := w1 <| totalVolumeFixed := add64 (buyVolumeFixed w1) (sellVolumeFixed w1) |>).
  change (view (updateExtrema (t_price t) (t_size t) (t_seq t) w2) (ts ++ [t])).
  pose proof Hv as [Hn Hbc Hsc Hbv Hsv Ht Hbn Hsn Hh He].
  assert (hasTrades w2 = hasTrades w ∧ maxPriceFixed w2 = maxPriceFixed w ∧ minPriceFixed w2 = minPriceFixed w ∧
    maxTradeSizeFixed w2 = maxTradeSizeFixed w ∧ LastSeq w2 = LastSeq w ∧ lastPriceFixed w2 = lastPriceFixed w)
    as (E1 & E2 & E3 & E4 & E5 & E6) by (unfold w2, w1, applySide; by destruct (t_buy t)).
  destruct (extrema_view ts t w2) as (X1 & X2 & X3 & X4 & X5); [by rewrite E1|by rewrite E2, E3, E4, E5, E6|].
  pose proof (proj2 (updateExtrema_groups (t_price t) (t_size t) (t_seq t) w2)) as Hsums.
  set (w' := updateExtrema (t_price t) (t_size t) (t_seq t) w2) in *. unfold sums in Hsums.
  pose proof (Hb true) as [B1 B2]. pose proof (Hb false) as [S1 S2].
  rewrite !side_sum_snoc in B1, B2, S1, S2. rewrite sumOf_sides, !side_sum_snoc in Hs.
  injection Hsums as N1 N2 N3 N4 N5 N6 N7 N8. clearbody w'.
  assert (sums w2 = (Z.of_nat (length (ts ++ [t])), sumOf (onSide true (λ _, 1)) (ts ++ [t]),
    sumOf (onSide false (λ _, 1)) (ts ++ [t]), sumOf (onSide true t_size) (ts ++ [t]),
    sumOf (onSide false t_size) (ts ++ [t]), sumOf t_size (ts ++ [t]),
    wrap64 (sumOf (onSide true t_notional) (ts ++ [t])), wrap64 (sumOf (onSide false t_notional) (ts ++ [t])))) as Hw2.
  { rewrite (sumOf_sides t_size (ts ++ [t])), !side_sum_snoc, length_app. unfold sums, w2, w1, applySide, onSide in *.
    clear -Hn Hbc Hsc Hbv Hsv Hbn Hsn Hc Hs B1 B2 S1 S2.
    destruct (t_buy t); cbn in *; rewrite Hn, Hbc, Hsc, Hbv, Hsv, Hbn, Hsn, wrap64_add_l, ?Z.add_0_r;
      rewrite !add64_id by (unfold in_i64, MinInt64; lia); repeat f_equal; lia. }
  unfold sums in Hw2. injection Hw2 as M1 M2 M3 M4 M5 M6 M7 M8.
  split; [congruence..| |done]. rewrite X5. symmetry. apply bool_decide_eq_true. by destruct ts.
Qed.

(** ** The operations on a valid window *)

Section operations.
Context {GR : GoRuntime}.

Lemma fixedTrade_ok r t : fixedTrade r = Some t → 0 < t_seq t ≤ MaxInt64 → trade_ok t.
Proof.
  destruct r as [[[price size] buy] seq]. unfold fixedTrade, toTradeFixedValues.
  destruct (toPositiveFixed "price" price candleFixedScale) as [|p] eqn:Hp; [done|].
  destruct (toPositiveFixed "size" size candleFixedScale) as [|s] eqn:Hs; [done|].
  destruct (_ || _); [done|]. set (n := i64_of_f _). destruct (Z.leb_spec n 0); [done|].
  intros [= <-] Hseq. cbn [t_seq] in Hseq. assert (in_i64 n) as Hn by apply i64_of_f_range. unfold in_i64 in Hn.
  assert (∀ f v z, toPositiveFixed f v candleFixedScale = inr z → 0 < z ≤ MaxInt64) as Hr.
  { intros f v z. unfold toPositiveFixed, toNonNegativeFixed. repeat case_match; intros; simplify_eq.
    reflect_bools. pose proof (i64_of_f_range (RoundToEven (fmul v (f_of_Z candleFixedScale)))) as Hi.
    unfold in_i64 in Hi. lia. }
  pose proof (Hr _ _ _ Hp). pose proof (Hr _ _ _ Hs). unfold trade_ok. cbn [t_price t_size t_notional t_seq]. lia.
Qed.

Lemma total_pos ts : ts ≠ [] → Forall trade_ok ts → 0 < sumOf t_size ts.
Proof.
  intros Hne Hall. destruct Hall as [|t ts (_ & ? & _) Hall]; [done|]. rewrite Forall_forall in Hall.
  assert (0 ≤ sumOf t_size ts); [|unfold sumOf in *; cbn; lia].
  apply sumOf_nonneg. intros u Hu. destruct (Hall u Hu) as (_ & ? & _). lia.
Qed.

(** The numbers of a window with trades pass every check. *)
Lemma view_valid w ts :
  ts ≠ [] → view w ts → trades_ok ts →
  fltb (VolumeImbalance w) (f_of_Z (-1)) || fgtb (VolumeImbalance w) f1 = false → validateNonEmptyWindow w = None.
Proof.
  intros Hne [Hn Hbc Hsc Hbv Hsv Ht Hbn Hsn Hh He] Hok Himb.
  pose proof (tape_side_bounds ts Hok true) as [B1 B2]. pose proof (tape_side_bounds ts Hok false) as [S1 S2].
  destruct Hok as (Hall & Hs & Hc). rewrite Forall_forall in Hall.
  destruct (He Hne) as ([(t1 & Ht1 & E1) M1] & [(t2 & Ht2 & E2) M2] & [(t3 & Ht3 & E3) M3] & [(t4 & Ht4 & E4 & E5) M4]).
  destruct (Hall t1 Ht1) as (? & _). destruct (Hall t2 Ht2) as (? & _). destruct (Hall t3 Ht3) as (_ & ? & _).
  destruct (Hall t4 Ht4) as (? & ? & _ & ?). specialize (M1 t2 Ht2).
  assert (0 < sumOf t_size ts) as Hpos by (apply total_pos; [done|by apply Forall_forall]).
  pose proof (sumOf_sides t_size ts). rewrite sumOf_count, sumOf_sides in Hn, Hc.
  unfold validateNonEmptyWindow. rewrite Hbc, Hsc, Hbv, Hsv, Ht, Hn, Himb.
  rewrite !add64_id by (unfold in_i64, MinInt64; lia).
  repeat match goal with |- (if ?b then _ else _) = None => destruct b eqn:?; [exfalso|] end; try done.
  all: reflect_bools; try lia.
  all: repeat match goal with H : _ ∨ _ |- _ => destruct H as [H|H]; reflect_bools end; try lia; done.
Qed.

Lemma tape_inv_Validate w ts : ts ≠ [] → inv w ts → Validate w = None.
Proof.
  intros Hne [Hid Hv Hok _]. unfold Validate.
  assert (validateStaticFields w = None) as ->.
  { destruct Hid. unfold validateStaticFields. rewrite (proj2 (Collect_none _)); [done|].
    rewrite !Forall_cons, Forall_nil, !NonEmptyString_none, !NonNegativeInt_none, OneOf_none.
    destruct Hv as [-> _ _ _ _ _ _ _ _ _]. split_and!; try done. lia. }
  assert (validateWindowBounds w = None) as ->.
  { unfold validateWindowBounds. destruct Hid as [_ _ _ _ He Ho _ _]. by rewrite He, Ho. }
  destruct (Z.eqb_spec (TradeCount w) 0) as [Hz|_].
  { destruct Hv as [Hn _ _ _ _ _ _ _ _ _]. destruct ts; [done|]. cbn in Hn. lia. }
  apply (view_valid w ts); [done..|]. by destruct Hid as [_ _ _ _ _ _ _ ->].
Qed.

Lemma openIdent_static w w' : static w' = static w → openIdent w → openIdent w'.
Proof.
  unfold static. intros H []. injection H as H1 H2 H3 H4 H5 H6 H7 H8. split; congruence.
Qed.

Lemma tape_ApplyTrade_accepts w ts r t :
  inv w ts → fixedTrade r = Some t → trades_ok (ts ++ [t]) →
  ∃ w', applyRaw r w = (w', inr tt) ∧ inv w' (ts ++ [t]) ∧ static w' = static w.
Proof.
  intros Hinv Hr Hok. destruct r as [[[price size] buy] seq]. unfold fixedTrade in Hr.
  destruct (toTradeFixedValues price size) as [|[[p s] n]] eqn:Hfix; [done|]. injection Hr as <-.
  pose proof Hinv as [Hid Hv _ _]. set (t := MkTrade p s n buy seq) in *.
  set (w' := tradeUpdate p s n buy seq w).
  assert (static w' = static w) as Hst by apply tradeUpdate_static.
  assert (inv w' (ts ++ [t])) as Hinv'.
  { split; [by eapply openIdent_static|by apply (tape_tradeUpdate_view w ts t)|done|].
    intros _. apply sync_idem. }
  exists w'. split; [|done]. unfold applyRaw, ApplyTrade, checkMutable. unfold_meth.
  destruct Hid as [_ _ _ _ _ Ho _ _]. rewrite Ho.
  destruct Hok as (Hall & _). apply Forall_app in Hall as [_ Ht]. apply Forall_singleton in Ht as (_ & _ & _ & Hseq).
  cbn in Hseq. rewrite (proj2 (PositiveInt_none "seq" seq)) by lia. rewrite Hfix.
  fold w'. rewrite (tape_inv_Validate w' (ts ++ [t])); [done| |done]. by destruct ts.
Qed.

Lemma NewTapeWindow_inv venue instrument tf ws w : NewTapeWindowV1 venue instrument tf ws = inr w → inv w [].
Proof.
  unfold NewTapeWindowV1. destruct (Collect _) eqn:Hc; [done|]. intros [= <-]. collect_facts.
  assert (∀ tf, tf ∈ AllowedTapeTimeframes → TrimSpace tf = tf) as Htf.
  { intros tf'. unfold AllowedTapeTimeframes. rewrite !elem_of_cons, elem_of_nil.
    intros [->|[->|[->|[]]]]; reflexivity. }
  split; [|by split|split; [apply Forall_nil_2|done]|done].
  split; cbn [Venue Instrument Timeframe WindowStartTs WindowEndTs IsClosed RateTradesPerSec VolumeImbalance];
    rewrite ?TrimSpace_idem; try done. by rewrite Htf.
Qed.

Lemma applyRaws_inv raws ts : ∀ w us,
  inv w us → Forall2 (λ r t, fixedTrade r = Some t) raws ts → trades_ok (us ++ ts) →
  ∃ w', for_each raws applyRaw w = (w', inr tt) ∧ inv w' (us ++ ts) ∧ static w' = static w.
Proof.
  revert ts. induction raws as [|r raws IH]; intros ts w us Hinv Hall Hok.
  { inversion Hall; subst. rewrite app_nil_r in *. eauto. }
  inversion Hall as [|? t ? ts' Hr Hrest]; subst. cbn [for_each].
  assert (us ++ t :: ts' = (us ++ [t]) ++ ts') as Heq by (by rewrite <- app_assoc). rewrite Heq in *.
  assert (trades_ok (us ++ [t])) as Hok1.
  { destruct Hok as (H1 & H2 & H3). rewrite sumOf_app, length_app in *. apply Forall_app in H1 as [H1 H1'].
    rewrite Forall_forall in H1'. assert (0 ≤ sumOf t_size ts').
    { apply sumOf_nonneg. intros u Hu. destruct (H1' u Hu) as (_ & ? & _). lia. }
    split_and!; [done|lia|lia]. }
  destruct (tape_ApplyTrade_accepts w us r t Hinv Hr Hok1) as (w1 & Hrun & Hinv1 & Hst1).
  rewrite (bind_run _ _ w w1 tt) by done.
  destruct (IH ts' w1 (us ++ [t]) Hinv1 Hrest Hok) as (w2 & ? & ? & ?). exists w2. split_and!; [done|done|congruence].
Qed.

(** With a positive volume the floats are determined by the other fields. *)
Lemma sync_determined w w' :
  static w = static w' → sums w = sums w' → extrema w = extrema w' → 0 < totalVolumeFixed w →
  syncFromFixed w = syncFromFixed w'.
Proof.
  unfold static, sums, extrema. destruct w, w'. cbn. intros Hst Hsum Hext Hpos.
  injection Hst as -> -> -> -> -> -> -> ->. injection Hsum as -> -> -> -> -> -> -> ->.
  injection Hext as -> -> -> -> -> ->. apply Z.ltb_lt in Hpos. eval_window. by rewrite Hpos.
Qed.

(** Windows of the same trades, in any order, are the same window. *)
Lemma tape_inv_unique w w' ts us : ts ≠ [] → ts ≡ₚ us → inv w ts → inv w' us → static w = static w' → w = w'.
Proof.
  intros Hne Hp [_ Hv [Hall _] Hs] [_ Hv' _ Hs'] Hst.
  assert (us ≠ []) as Hne' by (intros ->; by apply Permutation_nil_r in Hp).
  specialize (Hs Hne). specialize (Hs' Hne').
  destruct Hv as [A1 A2 A3 A4 A5 A6 A7 A8 A9 A10], Hv' as [B1 B2 B3 B4 B5 B6 B7 B8 B9 B10].
  destruct (A10 Hne) as (X1 & X2 & X3 & X4). destruct (B10 Hne') as (Y1 & Y2 & Y3 & Y4).
  apply (greatest_perm _ _ us) in X1, X2, X3; [|done..]. apply (latest_perm _ us) in X4; [|done].
  pose proof (greatest_unique _ _ _ _ X1 Y1) as E1. pose proof (greatest_unique _ _ _ _ X2 Y2) as E2.
  pose proof (greatest_unique _ _ _ _ X3 Y3) as E3. pose proof (latest_unique _ _ _ _ _ X4 Y4) as [E4 E5].
  assert (minPriceFixed w = minPriceFixed w') as E2' by lia.
  assert (sums w = sums w') as Hsums.
  { unfold sums. rewrite A1, A2, A3, A4, A5, A6, A7, A8, B1, B2, B3, B4, B5, B6, B7, B8.
    rewrite !(sumOf_perm _ _ us Hp). by rewrite (Permutation_length Hp). }
  assert (extrema w = extrema w') as Hext.
  { unfold extrema. rewrite E1, E2', E3, E4, E5, A9, B9. by rewrite !bool_decide_true. }
  rewrite <- Hs, <- Hs'. apply sync_determined; [done|done|done|]. rewrite A6. by apply total_pos.
Qed.

(** Closing computes the derived metrics and keeps the sums. *)
Lemma closeMetrics_groups w :
  sums (closeMetrics w) = sums w ∧ extrema (closeMetrics w) = extrema w ∧
  (Venue (closeMetrics w), Instrument (closeMetrics w), Timeframe (closeMetrics w), WindowStartTs (closeMetrics w),
   WindowEndTs (closeMetrics w), IsClosed (closeMetrics w)) =
  (Venue w, Instrument w, Timeframe w, WindowStartTs w, WindowEndTs w, IsClosed w).
Proof.
  unfold closeMetrics. set (w1 := if 0 <? totalVolumeFixed w then _ else w).
  assert (sums w1 = sums w ∧ extrema w1 = extrema w ∧ static w1 = static w) as (S1 & E1 & T1)
    by (unfold w1; by destruct (0 <? totalVolumeFixed w)).
  clearbody w1. set (d := default 0 _). clearbody d. cbn zeta.
  set (w2 := if 0 <? d then _ else w1).
  assert (sums w2 = sums w1 ∧ extrema w2 = extrema w1 ∧
    (Venue w2, Instrument w2, Timeframe w2, WindowStartTs w2, WindowEndTs w2, IsClosed w2) =
    (Venue w1, Instrument w1, Timeframe w1, WindowStartTs w1, WindowEndTs w1, IsClosed w1)) as (S2 & E2 & T2)
    by (unfold w2; by destruct (0 <? d)).
  clearbody w2. match goal with |- context [syncFromFixed ?x] => set (w3 := x) end.
  assert (sums w3 = sums w2 ∧ extrema w3 = extrema w2 ∧
    (Venue w3, Instrument w3, Timeframe w3, WindowStartTs w3, WindowEndTs w3, IsClosed w3) =
    (Venue w2, Instrument w2, Timeframe w2, WindowStartTs w2, WindowEndTs w2, IsClosed w2)) as (S3 & E3 & T3).
  { unfold w3. destruct (0 <? totalVolumeFixed w2); [|done].
    match goal with |- context [if fgtb ?a f1 then _ else _] => destruct (fgtb a f1) end;
    match goal with |- context [if fltb ?a _ then _ else _] => destruct (fltb a (f_of_Z (-1))) end; done. }
  clearbody w3. destruct (tape_sync_groups w3) as (T4 & S4 & E4). rewrite S4, E4, S3, E3, S2, E2, S1, E1.
  split_and!; [done|done|]. unfold static in T4, T1. congruence.
Qed.

Lemma closeMetrics_imbalance w :
  VolumeImbalance w = f0 →
  fltb (VolumeImbalance (closeMetrics w)) (f_of_Z (-1)) || fgtb (VolumeImbalance (closeMetrics w)) f1 = false.
Proof.
  intros H0. unfold closeMetrics. set (w1 := if 0 <? totalVolumeFixed w then _ else w).
  assert (VolumeImbalance w1 = f0) as H1 by (unfold w1; by destruct (0 <? totalVolumeFixed w)). clearbody w1.
  set (d := default 0 _). clearbody d. cbn zeta. set (w2 := if 0 <? d then _ else w1).
  assert (VolumeImbalance w2 = f0) as H2 by (unfold w2; by destruct (0 <? d)). clearbody w2.
  assert (∀ x, VolumeImbalance (syncFromFixed x) = VolumeImbalance x) as Hs.
  { intros x. destruct (tape_sync_groups x) as (Hx & _). unfold static in Hx. congruence. }
  rewrite !Hs. destruct (0 <? totalVolumeFixed w2); [|by rewrite H2].
  set (imb := fdiv _ _). clearbody imb. cbn [VolumeImbalance upd].
  destruct (fgtb imb f1) eqn:Hgt; [done|].
  change (VolumeImbalance (w2 <| VolumeImbalance := imb |>)) with imb.
  destruct (fltb imb (f_of_Z (-1))) eqn:Hlt; [done|].
  change (VolumeImbalance (w2 <| VolumeImbalance := imb |>)) with imb. by rewrite Hlt, Hgt.
Qed.

(** ** Theorems *)

(** C6: a tape window does not depend on the order of its trades. For trades
    whose total size and count fit in 64 bits, any two orders of the same trades
    are accepted by a new window and leave it in exactly the same state; that
    state has the number of trades, the volume of each side, the greatest and
    least price, the largest size, and as last price the price of the greatest
    sequence (the greatest price among equal sequences). *)
Theorem tape_window_is_order_independent venue instrument tf ws w0 raws1 raws2 ts :
  NewTapeWindowV1 venue instrument tf ws = inr w0 →
  Forall2 (λ r t, fixedTrade r = Some t) raws1 ts → raws1 ≡ₚ raws2 → trades_ok ts → ts ≠ [] →
  ∃ w, for_each raws1 applyRaw w0 = (w, inr tt) ∧ for_each raws2 applyRaw w0 = (w, inr tt) ∧ view w ts.
Proof.
  intros Hnew%NewTapeWindow_inv Hall Hp Hok Hne.
  assert (∃ us, ts ≡ₚ us ∧ Forall2 (λ r t, fixedTrade r = Some t) raws2 us) as (us & Hpu & Hall2).
  { exact (Permutation_Forall2 Hp Hall). }
  destruct (applyRaws_inv raws1 ts w0 [] Hnew Hall Hok) as (w1 & Hrun1 & Hinv1 & Hst1).
  destruct (applyRaws_inv raws2 us w0 [] Hnew Hall2 (trades_ok_perm _ _ Hpu Hok)) as (w2 & Hrun2 & Hinv2 & Hst2).
  assert (w1 = w2) as <- by (eapply (tape_inv_unique w1 w2 ts us); [done..|congruence]).
  exists w1. split_and!; [done|done|by destruct Hinv1].
Qed.

(** An open tape window always closes, and stays closed. Closing after its
    start succeeds whatever trades it absorbed, keeps its counts, sums and
    extrema, and the imbalance is within [-1, 1]; a further trade or close is
    refused with Conflict and changes nothing. *)
Theorem tape_window_always_closes w ts we :
  inv w ts → WindowStartTs w < we →
  ∃ w', Close we w = (w', inr tt) ∧ IsClosed w' = true ∧ WindowEndTs w' = we ∧ view w' ts ∧
    fltb (VolumeImbalance w') (f_of_Z (-1)) || fgtb (VolumeImbalance w') f1 = false ∧
    (∀ price size buy seq, ∃ p, ApplyTrade price size buy seq w' = (w', inl p) ∧ Code p = Conflict) ∧
    (∀ we', ∃ p, Close we' w' = (w', inl p) ∧ Code p = Conflict).
Proof.
  intros [Hid Hv Hok _] Hwe. set (w1 := w <| WindowEndTs := we |> <| IsClosed := true |>).
  set (w' := closeMetrics w1).
  destruct (closeMetrics_groups w1) as (Hs & He & Ht). fold w' in Hs, He, Ht. injection Ht as T1 T2 T3 T4 T5 T6.
  change (IsClosed w1) with true in T6. change (WindowEndTs w1) with we in T5. cbn in T1, T2, T3, T4.
  assert (view w' ts) as Hv' by (apply (tape_view_ext w); [by rewrite Hs|by rewrite He|done]).
  assert (fltb (VolumeImbalance w') (f_of_Z (-1)) || fgtb (VolumeImbalance w') f1 = false) as Himb
    by (apply closeMetrics_imbalance; by destruct Hid).
  destruct Hid as [H1 H2 H3 H4 H5 H6 H7 H8].
  assert (Validate w' = None) as Hval.
  { unfold Validate. assert (validateStaticFields w' = None) as ->.
    { unfold validateStaticFields. apply Collect_none.
      rewrite !Forall_cons, Forall_nil, !NonEmptyString_none, !NonNegativeInt_none, OneOf_none, T1, T2, T3, T4.
      destruct Hv' as [-> _ _ _ _ _ _ _ _ _]. split_and!; try done. lia. }
    assert (validateWindowBounds w' = None) as ->.
    { unfold validateWindowBounds. rewrite T4, T5, T6. cbn. by rewrite (proj2 (Z.leb_gt _ _)). }
    destruct (Z.eqb_spec (TradeCount w') 0) as [Hz|Hz].
    - destruct Hv' as [Hn Hb Hsl _ _ _ _ _ _ _]. destruct ts; [|cbn in Hn; lia].
      unfold validateEmptyWindow. by rewrite Hb, Hsl.
    - apply (view_valid w' ts); [|done..]. intros ->. destruct Hv' as [Hn _ _ _ _ _ _ _ _ _]. done. }
  exists w'. split_and!; try done.
  - unfold Close, checkMutable. unfold_meth. rewrite H6. rewrite (proj2 (Z.leb_gt _ _)) by done.
    fold w1. fold w'. by rewrite Hval.
  - intros. unfold ApplyTrade, checkMutable. unfold_meth. rewrite T6. by eexists.
  - intros. unfold Close, checkMutable. unfold_meth. rewrite T6. by eexists.
Qed.
End operations.

(** ** Witnesses: a buy and a sell with the same sequence *)

Definition w_r1 : rawTrade := (f_of_Z 100, flit 1 2, true, 7).
Definition w_r2 : rawTrade := (f_of_Z 99, flit 1 4, false, 7).
Definition w_t1 : trade := MkTrade 10000000000 50000000 5000000000 true 7.
Definition w_t2 : trade := MkTrade 9900000000 25000000 2475000000 false 7.
Definition w_window : TapeWindowV1 :=
  MkTapeWindow "BINANCE" "BTCUSDT" "1s" 1000 0 0 0 0 f0 f0 f0 f0 f0 f0 f0 f0 f0 f0 0 f0 f0 false
    0 0 0 0 0 0 0 0 0 false.

Lemma w_trades_ok : trades_ok [w_t1; w_t2].
Proof.
  split; [repeat apply Forall_cons_2; [..|apply Forall_nil_2]|]; vm_compute; intuition discriminate.
Qed.

Lemma tape_window_is_order_independent_witness :
  ∃ w, for_each [w_r1; w_r2] (applyRaw (GR:=go_amd64)) w_window = (w, inr tt) ∧
    for_each [w_r2; w_r1] (applyRaw (GR:=go_amd64)) w_window = (w, inr tt) ∧ lastPriceFixed w = 10000000000.
Proof.
  destruct (tape_window_is_order_independent (GR:=go_amd64) "BINANCE" "BTCUSDT" "1s" 1000 w_window
    [w_r1; w_r2] [w_r2; w_r1] [w_t1; w_t2]) as (w & H1 & H2 & _).
  - vm_compute. reflexivity.
  - repeat apply Forall2_cons_2; [vm_compute; reflexivity..|apply Forall2_nil_2].
  - apply perm_swap.
  - exact w_trades_ok.
  - discriminate.
  - exists w. split; [exact H1|]. split; [exact H2|]. vm_compute in H1. injection H1 as <-. reflexivity.
Defined.

Lemma tape_window_always_closes_witness :
  ∃ w', Close (GR:=go_amd64) 2000 w_window = (w', inr tt) ∧ IsClosed w' = true.
Proof.
  destruct (tape_window_always_closes (GR:=go_amd64) w_window [] 2000) as (w' & H1 & H2 & _).
  - apply (NewTapeWindow_inv "BINANCE" "BTCUSDT" "1s" 1000). vm_compute. reflexivity.
  - reflexivity.
  - exists w'. split; [exact H1|exact H2].
Defined.
