(* ===== verification/Stats.v ===== *)
(** * Stats: internal/core/aggregation/domain/stats.go

    The derivatives window of one instrument and timeframe: liquidation volumes,
    the mark price open/high/low/close and the funding rate average. Every method
    is a [Meth StatsWindowV1 Problem] whose receiver keeps the assignments made
    before an error return. The names of the fields are those of the Go struct;
    they shadow the candle's. *)

From S2P Require Import Prelude GoRuntime Shared Candle.

Local Open Scope string_scope.
Local Open Scope list_scope.
Local Open Scope Z_scope.

Definition statsFundingFixedScale : Z := 1000000000.

Definition StatsQualityFlagMissingLiquidation : Z := 1.
Definition StatsQualityFlagMissingMarkPrice : Z := 2.
Definition StatsQualityFlagMissingFunding : Z := 4.
Definition StatsQualityFlagForcedClose : Z := 8.

Definition AllowedStatsTimeframes : list string :=
  ["1s"; "5s"; "1m"; "5m"; "15m"; "30m"; "1h"; "4h"; "1d"].

Record StatsKey := MkStatsKey { skey_Venue : string; skey_Instrument : string; skey_Timeframe : string }.

Record StatsWindowV1 := MkStatsWindow {
  Venue : string;
  Instrument : string;
  Timeframe : string;
  WindowStartTs : Z;
  WindowEndTs : Z;
  WindowMs : Z;
  TsIngestMs : Z;
  QualityFlags : Z;
  LiqBuyVolume : float64;
  LiqSellVolume : float64;
  LiqTotalVolume : float64;
  LiqCount : Z;
  MarkPriceOpen : float64;
  MarkPriceHigh : float64;
  MarkPriceLow : float64;
  MarkPriceClose : float64;
  FundingRateAvg : float64;
  FundingRateLast : float64;
  SeqFirst : Z;
  SeqLast : Z;
  IsClosed : bool;
  liqBuyVolumeFixed : Z;
  liqSellVolumeFixed : Z;
  liqTotalVolumeFixed : Z;
  markPriceOpenFixed : Z;
  markPriceHighFixed : Z;
  markPriceLowFixed : Z;
  markPriceCloseFixed : Z;
  markPriceSamples : Z;
  fundingRateSumFixed : Z;
  fundingRateAvgFixed : Z;
  fundingRateLastFixed : Z;
  fundingRateSamples : Z;
}.
#[export] Instance StatsWindowV1_eta : Eta StatsWindowV1 := λ r,
  MkStatsWindow (Venue r) (Instrument r) (Timeframe r) (WindowStartTs r) (WindowEndTs r) (WindowMs r)
    (TsIngestMs r) (QualityFlags r) (LiqBuyVolume r) (LiqSellVolume r) (LiqTotalVolume r) (LiqCount r)
    (MarkPriceOpen r) (MarkPriceHigh r) (MarkPriceLow r) (MarkPriceClose r) (FundingRateAvg r)
    (FundingRateLast r) (SeqFirst r) (SeqLast r) (IsClosed r)
    (liqBuyVolumeFixed r) (liqSellVolumeFixed r) (liqTotalVolumeFixed r)
    (markPriceOpenFixed r) (markPriceHighFixed r) (markPriceLowFixed r) (markPriceCloseFixed r)
    (markPriceSamples r) (fundingRateSumFixed r) (fundingRateAvgFixed r) (fundingRateLastFixed r)
    (fundingRateSamples r).

Abbreviation StatsM := (Meth StatsWindowV1 Problem).

Record StatsWindowClosed := NewStatsWindowClosed { closed_stats : StatsWindowV1 }.

Definition statsKeyOf (w : StatsWindowV1) : StatsKey := MkStatsKey (Venue w) (Instrument w) (Timeframe w).

(** ** Bookkeeping *)

(** The three groups of assignments of [syncFromFixed]. *)
Definition syncLiquidation (w : StatsWindowV1) : StatsWindowV1 := w
  <| LiqBuyVolume := fromFixed (liqBuyVolumeFixed w) candleFixedScale |>
  <| LiqSellVolume := fromFixed (liqSellVolumeFixed w) candleFixedScale |>
  <| LiqTotalVolume := fromFixed (liqTotalVolumeFixed w) candleFixedScale |>.
Definition syncMarkPrice (w : StatsWindowV1) : StatsWindowV1 :=
  if 0 <? markPriceSamples w then w
    <| MarkPriceOpen := fromFixed (markPriceOpenFixed w) candleFixedScale |>
    <| MarkPriceHigh := fromFixed (markPriceHighFixed w) candleFixedScale |>
    <| MarkPriceLow := fromFixed (markPriceLowFixed w) candleFixedScale |>
    <| MarkPriceClose := fromFixed (markPriceCloseFixed w) candleFixedScale |>
  else w.
Definition syncFunding (w : StatsWindowV1) : StatsWindowV1 :=
  if 0 <? fundingRateSamples w then w
    <| FundingRateAvg := fromFixed (fundingRateAvgFixed w) statsFundingFixedScale |>
    <| FundingRateLast := fromFixed (fundingRateLastFixed w) statsFundingFixedScale |>
  else w.
Definition syncFromFixed (w : StatsWindowV1) : StatsWindowV1 :=
  let w := syncLiquidation w in
  let w := syncMarkPrice w in
  syncFunding w.

(** [flags |= flag] under a condition. *)
Definition flagIf (cond : bool) (flag flags : Z) : Z := if cond then Z.lor flags flag else flags.
Definition setQualityFlags (forcedClose : bool) (w : StatsWindowV1) : StatsWindowV1 :=
  let flags := 0 in
  let flags := flagIf (LiqCount w =? 0) StatsQualityFlagMissingLiquidation flags in
  let flags := flagIf (markPriceSamples w =? 0) StatsQualityFlagMissingMarkPrice flags in
  let flags := flagIf (fundingRateSamples w =? 0) StatsQualityFlagMissingFunding flags in
  let flags := flagIf forcedClose StatsQualityFlagForcedClose flags in
  w <| QualityFlags := flags |>.
Definition SetQualityFlags (forcedClose : bool) (w : StatsWindowV1) : StatsWindowV1 :=
  setQualityFlags forcedClose w.

Definition checkMutable : StatsM unit :=
  w ← recv; fail_if (IsClosed w) (New Conflict "cannot mutate closed stats window").

Section stats.
Context {GR : GoRuntime}.

Definition bumpSeq (seq : Z) : StatsM unit :=
  check (PositiveInt "seq" seq) ;;
  w ← recv;
  fail_if ((0 <? SeqLast w) && (seq <? SeqLast w))
    (Newf OutOfOrder "seq must be monotonic: got=%d last=%d" [AnyInt seq; AnyInt (SeqLast w)]) ;;
  assign (λ w, if SeqFirst w =? 0 then w <| SeqFirst := seq |> else w) ;;
  assign (λ w, w <| SeqLast := seq |>).

Definition NewStatsKey (venue instrument timeframe : string) : Problem + StatsKey :=
  match Collect [NonEmptyString "venue" venue; NonEmptyString "instrument" instrument;
                 OneOf "timeframe" timeframe AllowedStatsTimeframes] with
  | Some p => inl p
  | None => inr (MkStatsKey (TrimSpace venue) (TrimSpace instrument) (TrimSpace timeframe))
  end.

Definition NewStatsWindowV1 (venue instrument timeframe : string) (windowStartTs : Z) : Problem + StatsWindowV1 :=
  match Collect [NonEmptyString "venue" venue; NonEmptyString "instrument" instrument;
                 OneOf "timeframe" timeframe AllowedStatsTimeframes;
                 NonNegativeInt "window_start_ts" windowStartTs] with
  | Some p => inl p
  | None => inr (MkStatsWindow (TrimSpace venue) (TrimSpace instrument) (TrimSpace timeframe)
                   windowStartTs 0 0 0 0 f0 f0 f0 0 f0 f0 f0 f0 f0 f0 0 0 false
                   0 0 0 0 0 0 0 0 0 0 0 0)
  end.

(** ** Validation *)

Definition validateIdentity (w : StatsWindowV1) : option Problem :=
  Collect [NonEmptyString "venue" (Venue w); NonEmptyString "instrument" (Instrument w);
           OneOf "timeframe" (Timeframe w) AllowedStatsTimeframes;
           NonNegativeInt "window_start_ts" (WindowStartTs w);
           NonNegativeInt "liq_count" (LiqCount w)].

(** The mark price block at the end of [Validate]. *)
Definition validateMarkPrice (w : StatsWindowV1) : option Problem :=
  if 0 <? markPriceSamples w then
    if (markPriceOpenFixed w <=? 0) || (markPriceHighFixed w <=? 0) || (markPriceLowFixed w <=? 0)
       || (markPriceCloseFixed w <=? 0) then
      Some (New IntegrityViolation "mark price values must be positive when markprice input exists")
    else if markPriceHighFixed w <? markPriceLowFixed w then
      Some (New IntegrityViolation "mark_price_high must be >= mark_price_low")
    else if (markPriceHighFixed w <? markPriceOpenFixed w) || (markPriceHighFixed w <? markPriceCloseFixed w) then
      Some (New IntegrityViolation "mark_price_high must be >= open and close")
    else if (markPriceOpenFixed w <? markPriceLowFixed w) || (markPriceCloseFixed w <? markPriceLowFixed w) then
      Some (New IntegrityViolation "mark_price_low must be <= open and close")
    else None
  else None.

Definition Validate (w : StatsWindowV1) : option Problem :=
  match validateIdentity w with
  | Some p => Some p
  | None =>
      if IsClosed w && (WindowEndTs w <=? WindowStartTs w) then
        Some (New IntegrityViolation "closed stats window must have valid window bounds")
      else if IsClosed w && (WindowMs w <=? 0) then
        Some (New IntegrityViolation "closed stats window must have window_ms > 0")
      else if negb (IsClosed w) && negb (WindowEndTs w =? 0) then
        Some (New IntegrityViolation "open stats window must not have window_end_ts set")
      else if (liqBuyVolumeFixed w <? 0) || (liqSellVolumeFixed w <? 0) || (liqTotalVolumeFixed w <? 0) then
        Some (New IntegrityViolation "liquidation volumes must be non-negative")
      else if negb (liqTotalVolumeFixed w =? add64 (liqBuyVolumeFixed w) (liqSellVolumeFixed w)) then
        Some (New IntegrityViolation "liq_total_volume must equal liq_buy_volume + liq_sell_volume")
      else if (0 <? SeqFirst w) && (SeqLast w <? SeqFirst w) then
        Some (New IntegrityViolation "seq bounds are invalid")
      else validateMarkPrice w
  end.

(** ** Operations *)

(** [w.syncFromFixed(); return w.Validate()] *)
Definition finish : StatsM unit :=
  assign syncFromFixed ;;
  w ← recv;
  check (Validate w).

Definition ApplyLiquidation (side : string) (qty : float64) (seq : Z) : StatsM unit :=
  checkMutable ;;
  qtyFixed ← try_ (toPositiveFixed "liquidation_qty" qty candleFixedScale);
  bumpSeq seq ;;
  let side := ToLower (TrimSpace side) in
  (if str_eqb side "buy" then
     assign (λ w, w <| liqBuyVolumeFixed := add64 (liqBuyVolumeFixed w) qtyFixed |>)
   else if str_eqb side "sell" then
     assign (λ w, w <| liqSellVolumeFixed := add64 (liqSellVolumeFixed w) qtyFixed |>)
   else throw (Newf ValidationFailed "liquidation side must be buy|sell, got %q" [AnyStr side])) ;;
  assign (λ w, w <| liqTotalVolumeFixed := add64 (liqBuyVolumeFixed w) (liqSellVolumeFixed w) |>
                 <| LiqCount := add64 (LiqCount w) 1 |>) ;;
  finish.

(** The mark price assignments. *)
Definition markUpdate (priceFixed : Z) (w : StatsWindowV1) : StatsWindowV1 :=
  let w := if markPriceSamples w =? 0 then
      w <| markPriceOpenFixed := priceFixed |> <| markPriceHighFixed := priceFixed |>
        <| markPriceLowFixed := priceFixed |> <| markPriceCloseFixed := priceFixed |>
    else
      let w := if markPriceHighFixed w <? priceFixed then w <| markPriceHighFixed := priceFixed |> else w in
      let w := if priceFixed <? markPriceLowFixed w then w <| markPriceLowFixed := priceFixed |> else w in
      w <| markPriceCloseFixed := priceFixed |> in
  w <| markPriceSamples := add64 (markPriceSamples w) 1 |>.

Definition ApplyMarkPrice (markPrice : float64) (seq : Z) : StatsM unit :=
  checkMutable ;;
  priceFixed ← try_ (toPositiveFixed "mark_price" markPrice candleFixedScale);
  bumpSeq seq ;;
  assign (markUpdate priceFixed) ;;
  finish.

(** The funding assignments. *)
Definition fundingUpdate (rateFixed : Z) (w : StatsWindowV1) : StatsWindowV1 :=
  let samples := add64 (fundingRateSamples w) 1 in
  let sum := add64 (fundingRateSumFixed w) rateFixed in
  w <| fundingRateSamples := samples |> <| fundingRateSumFixed := sum |>
    <| fundingRateLastFixed := rateFixed |> <| fundingRateAvgFixed := quot64 sum samples |>.

(** [int64(math.RoundToEven(rate * float64(statsFundingFixedScale)))] *)
Definition fundingFixed (rate : float64) : Z := i64_of_f (RoundToEven (fmul rate (f_of_Z statsFundingFixedScale))).

Definition ApplyFundingRate (rate : float64) (seq : Z) : StatsM unit :=
  checkMutable ;;
  fail_if (isNaN rate || isInf rate) (New ValidationFailed "funding_rate must be finite") ;;
  let rateFixed := fundingFixed rate in
  bumpSeq seq ;;
  assign (fundingUpdate rateFixed) ;;
  finish.

Definition Close (windowEndTs : Z) : StatsM unit :=
  checkMutable ;;
  w ← recv;
  fail_if (SeqFirst w =? 0) (New ValidationFailed "cannot close stats window without any input") ;;
  fail_if (windowEndTs <=? WindowStartTs w)
    (Newf ValidationFailed "window_end_ts must be > window_start_ts: start=%d end=%d"
       [AnyInt (WindowStartTs w); AnyInt windowEndTs]) ;;
  assign (λ w, w <| WindowEndTs := windowEndTs |> <| WindowMs := sub64 windowEndTs (WindowStartTs w) |>
                 <| IsClosed := true |>) ;;
  assign (setQualityFlags false) ;;
  w ← recv;
  check (Validate w).
End stats.
