(* ===== verification/StatsSpec.v ===== *)
(** * StatsSpec: what a stats window promises

    The specification of a stats window is the summary of the list of
    fixed-point inputs it has absorbed: liquidation volumes per side, the open,
    high, low and close of the mark prices, the truncated mean of the funding
    rates, and the first and last sequence. Each group of fields is summarised
    by its own function, and each operation appends one input to the list. The
    funding sum is not checked for overflow and is described modulo 2^64. *)

From S2P Require Import Prelude GoRuntime Shared Candle CandleSpec Stats.

Local Open Scope string_scope.
Local Open Scope list_scope.
Local Open Scope Z_scope.

(** ** Inputs and their summaries *)

Inductive input :=
| InLiq (buy : bool) (qty seq : Z)
| InMark (price seq : Z)
| InFund (rate seq : Z).

Definition in_seq (i : input) : Z :=
  match i with InLiq _ _ seq => seq | InMark _ seq => seq | InFund _ seq => seq end.
Definition liq_of (i : input) : option (bool * Z) := match i with InLiq b q _ => Some (b, q) | _ => None end.
Definition mark_of (i : input) : option Z := match i with InMark p _ => Some p | _ => None end.
Definition fund_of (i : input) : option Z := match i with InFund r _ => Some r | _ => None end.

Definition liqs (ins : list input) : list (bool * Z) := omap liq_of ins.
Definition marks (ins : list input) : list Z := omap mark_of ins.
Definition funds (ins : list input) : list Z := omap fund_of ins.

Definition sideQty (buy : bool) (ls : list (bool * Z)) : Z :=
  sumZ ((λ x, if Bool.eqb x.1 buy then x.2 else 0) <$> ls).

Definition liqSummary (ls : list (bool * Z)) : Z * Z * Z * Z :=
  (sideQty true ls, sideQty false ls, sideQty true ls + sideQty false ls, Z.of_nat (length ls)).
Definition markSummary (ps : list Z) : Z * Z * Z * Z * Z :=
  match ps with
  | [] => (0, 0, 0, 0, 0)
  | p :: rest => (p, foldl Z.max p rest, foldl Z.min p rest, default 0 (last ps), Z.of_nat (length ps))
  end.
Definition fundSummary (rs : list Z) : Z * Z * Z * Z :=
  (wrap64 (sumZ rs), quot64 (wrap64 (sumZ rs)) (Z.of_nat (length rs)), default 0 (last rs), Z.of_nat (length rs)).
Definition seqSummary (ins : list input) : Z * Z :=
  (default 0 (in_seq <$> head ins), default 0 (in_seq <$> last ins)).

(** The groups of fields of a window. *)
Definition liqGroup (w : StatsWindowV1) : Z * Z * Z * Z :=
  (liqBuyVolumeFixed w, liqSellVolumeFixed w, liqTotalVolumeFixed w, LiqCount w).
Definition markGroup (w : StatsWindowV1) : Z * Z * Z * Z * Z :=
  (markPriceOpenFixed w, markPriceHighFixed w, markPriceLowFixed w, markPriceCloseFixed w, markPriceSamples w).
Definition fundGroup (w : StatsWindowV1) : Z * Z * Z * Z :=
  (fundingRateSumFixed w, fundingRateAvgFixed w, fundingRateLastFixed w, fundingRateSamples w).
Definition seqGroup (w : StatsWindowV1) : Z * Z := (SeqFirst w, SeqLast w).
Definition identGroup (w : StatsWindowV1) : string * string * string * Z * Z * bool :=
  (Venue w, Instrument w, Timeframe w, WindowStartTs w, WindowEndTs w, IsClosed w).

(** The window summarises the inputs [ins]. *)
Record view (w : StatsWindowV1) (ins : list input) : Prop := {
  view_liq : liqGroup w = liqSummary (liqs ins);
  view_mark : markGroup w = markSummary (marks ins);
  view_fund : fundGroup w = fundSummary (funds ins);
  view_seq : seqGroup w = seqSummary ins;
}.

(** The exported floats are the fixed-point fields divided by their scale. *)
Record mirror (w : StatsWindowV1) : Prop := {
  mirror_liq : LiqBuyVolume w = fromFixed (liqBuyVolumeFixed w) candleFixedScale ∧
    LiqSellVolume w = fromFixed (liqSellVolumeFixed w) candleFixedScale ∧
    LiqTotalVolume w = fromFixed (liqTotalVolumeFixed w) candleFixedScale;
  mirror_mark : 0 < markPriceSamples w →
    MarkPriceOpen w = fromFixed (markPriceOpenFixed w) candleFixedScale ∧
    MarkPriceHigh w = fromFixed (markPriceHighFixed w) candleFixedScale ∧
    MarkPriceLow w = fromFixed (markPriceLowFixed w) candleFixedScale ∧
    MarkPriceClose w = fromFixed (markPriceCloseFixed w) candleFixedScale;
  mirror_fund : 0 < fundingRateSamples w →
    FundingRateAvg w = fromFixed (fundingRateAvgFixed w) statsFundingFixedScale ∧
    FundingRateLast w = fromFixed (fundingRateLastFixed w) statsFundingFixedScale;
}.

Definition input_ok (i : input) : Prop :=
  0 < in_seq i ≤ MaxInt64 ∧
  match i with
  | InLiq _ q _ => 0 < q ≤ MaxInt64
  | InMark p _ => 0 < p ≤ MaxInt64
  | InFund r _ => in_i64 r
  end.

(** Inputs a window can absorb: positive, in sequence order, totals in range. *)
Record inputs_ok (ins : list input) : Prop := {
  iok_each : Forall input_ok ins;
  iok_seq : StronglySorted (λ a b, in_seq a ≤ in_seq b) ins;
  iok_liq : sideQty true (liqs ins) + sideQty false (liqs ins) ≤ MaxInt64;
  iok_count : Z.of_nat (length ins) ≤ MaxInt64;
}.

Section spec.
Context {GR : GoRuntime}.

(** Identity fields valid, window open. *)
Record openIdent (w : StatsWindowV1) : Prop := {
  oi_venue : TrimSpace (Venue w) ≠ "";
  oi_instrument : TrimSpace (Instrument w) ≠ "";
  oi_timeframe : Timeframe w ∈ AllowedStatsTimeframes;
  oi_start : 0 ≤ WindowStartTs w;
  oi_end : WindowEndTs w = 0;
  oi_open : IsClosed w = false;
}.

Record inv (w : StatsWindowV1) (ins : list input) : Prop := {
  inv_ident : openIdent w;
  inv_view : view w ins;
  inv_inputs : inputs_ok ins;
  inv_mirror : mirror w;
}.

(** A raw input, as the methods take it, and the fixed-point input it denotes. *)
Inductive rawInput :=
| RawLiq (side : string) (qty : float64) (seq : Z)
| RawMark (price : float64) (seq : Z)
| RawFund (rate : float64) (seq : Z).

Definition sideOf (side : string) : option bool :=
  let side := ToLower (TrimSpace side) in
  if str_eqb side "buy" then Some true else if str_eqb side "sell" then Some false else None.

Definition fixedInput (r : rawInput) : option input :=
  match r with
  | RawLiq side qty seq =>
      match sideOf side, toPositiveFixed "liquidation_qty" qty candleFixedScale with
      | Some b, inr q => Some (InLiq b q seq)
      | _, _ => None
      end
  | RawMark price seq =>
      match toPositiveFixed "mark_price" price candleFixedScale with
      | inr p => Some (InMark p seq)
      | inl _ => None
      end
  | RawFund rate seq =>
      if isNaN rate || isInf rate then None else Some (InFund (fundingFixed rate) seq)
  end.

Definition applyInput (r : rawInput) : StatsM unit :=
  match r with
  | RawLiq side qty seq => ApplyLiquidation side qty seq
  | RawMark price seq => ApplyMarkPrice price seq
  | RawFund rate seq => ApplyFundingRate rate seq
  end.
End spec.

(** ** Groups of fields *)

Lemma stats_sync_groups w :
  liqGroup (syncFromFixed w) = liqGroup w ∧ markGroup (syncFromFixed w) = markGroup w ∧
  fundGroup (syncFromFixed w) = fundGroup w ∧ seqGroup (syncFromFixed w) = seqGroup w ∧
  identGroup (syncFromFixed w) = identGroup w.
Proof.
  unfold syncFromFixed. set (w1 := syncLiquidation w).
  assert (liqGroup w1 = liqGroup w ∧ markGroup w1 = markGroup w ∧ fundGroup w1 = fundGroup w ∧
    seqGroup w1 = seqGroup w ∧ identGroup w1 = identGroup w) as (<- & <- & <- & <- & <-) by done. clearbody w1.
  cbn zeta. unfold syncMarkPrice. set (w2 := if 0 <? markPriceSamples w1 then _ else w1).
  assert (liqGroup w2 = liqGroup w1 ∧ markGroup w2 = markGroup w1 ∧ fundGroup w2 = fundGroup w1 ∧
    seqGroup w2 = seqGroup w1 ∧ identGroup w2 = identGroup w1) as (<- & <- & <- & <- & <-)
    by (unfold w2; by destruct (0 <? _)). clearbody w2.
  unfold syncFunding. by destruct (0 <? fundingRateSamples w2).
Qed.

Lemma stats_sync_mirror w : mirror (syncFromFixed w).
Proof.
  unfold syncFromFixed. set (w1 := syncLiquidation w).
  assert (LiqBuyVolume w1 = fromFixed (liqBuyVolumeFixed w1) candleFixedScale ∧
    LiqSellVolume w1 = fromFixed (liqSellVolumeFixed w1) candleFixedScale ∧
    LiqTotalVolume w1 = fromFixed (liqTotalVolumeFixed w1) candleFixedScale) as H1 by done. clearbody w1.
  cbn zeta. unfold syncMarkPrice. set (w2 := if 0 <? markPriceSamples w1 then _ else w1).
  assert (LiqBuyVolume w2 = fromFixed (liqBuyVolumeFixed w2) candleFixedScale ∧
    LiqSellVolume w2 = fromFixed (liqSellVolumeFixed w2) candleFixedScale ∧
    LiqTotalVolume w2 = fromFixed (liqTotalVolumeFixed w2) candleFixedScale) as H1'
    by (unfold w2; by destruct (0 <? _)).
  assert (0 < markPriceSamples w2 →
    MarkPriceOpen w2 = fromFixed (markPriceOpenFixed w2) candleFixedScale ∧
    MarkPriceHigh w2 = fromFixed (markPriceHighFixed w2) candleFixedScale ∧
    MarkPriceLow w2 = fromFixed (markPriceLowFixed w2) candleFixedScale ∧
    MarkPriceClose w2 = fromFixed (markPriceCloseFixed w2) candleFixedScale) as H2.
  { unfold w2. destruct (Z.ltb_spec 0 (markPriceSamples w1)); [done|]. intros; lia. }
  clearbody w2. unfold syncFunding. destruct (Z.ltb_spec 0 (fundingRateSamples w2)); split; done || (intros; lia).
Qed.

(** [bumpSeq], when the sequence does not go back. *)
Definition seqUpdate (seq : Z) (w : StatsWindowV1) : StatsWindowV1 :=
  (if SeqFirst w =? 0 then w <| SeqFirst := seq |> else w) <| SeqLast := seq |>.

Lemma bumpSeq_run seq w : 0 < seq → SeqLast w ≤ seq → bumpSeq seq w = (seqUpdate seq w, inr tt).
Proof.
  intros H1 H2. unfold bumpSeq. unfold_meth. rewrite (proj2 (PositiveInt_none "seq" seq)) by done.
  by rewrite (proj2 (Z.ltb_ge seq (SeqLast w))), andb_false_r by done.
Qed.
Lemma seqUpdate_groups seq w :
  liqGroup (seqUpdate seq w) = liqGroup w ∧ markGroup (seqUpdate seq w) = markGroup w ∧
  fundGroup (seqUpdate seq w) = fundGroup w ∧ identGroup (seqUpdate seq w) = identGroup w ∧
  seqGroup (seqUpdate seq w) = (if SeqFirst w =? 0 then seq else SeqFirst w, seq).
Proof. unfold seqUpdate. by destruct (SeqFirst w =? 0). Qed.

Definition liqUpdate (buy : bool) (q : Z) (w : StatsWindowV1) : StatsWindowV1 :=
  let w := if buy then w <| liqBuyVolumeFixed := add64 (liqBuyVolumeFixed w) q |>
           else w <| liqSellVolumeFixed := add64 (liqSellVolumeFixed w) q |> in
  w <| liqTotalVolumeFixed := add64 (liqBuyVolumeFixed w) (liqSellVolumeFixed w) |>
    <| LiqCount := add64 (LiqCount w) 1 |>.

(** The update of one input, after its guards, and which groups it leaves alone. *)
Definition inputUpdate (i : input) (w : StatsWindowV1) : StatsWindowV1 :=
  let w := seqUpdate (in_seq i) w in
  match i with
  | InLiq b q _ => liqUpdate b q w
  | InMark p _ => markUpdate p w
  | InFund r _ => fundingUpdate r w
  end.

Lemma liqUpdate_groups b q w :
  markGroup (liqUpdate b q w) = markGroup w ∧ fundGroup (liqUpdate b q w) = fundGroup w ∧
  seqGroup (liqUpdate b q w) = seqGroup w ∧ identGroup (liqUpdate b q w) = identGroup w.
Proof. by destruct b. Qed.
Lemma markUpdate_groups p w :
  liqGroup (markUpdate p w) = liqGroup w ∧ fundGroup (markUpdate p w) = fundGroup w ∧
  seqGroup (markUpdate p w) = seqGroup w ∧ identGroup (markUpdate p w) = identGroup w.
Proof.
  unfold markUpdate. destruct (markPriceSamples w =? 0); [done|]. cbn zeta.
  set (w1 := if markPriceHighFixed w <? p then _ else w).
  assert (liqGroup w1 = liqGroup w ∧ fundGroup w1 = fundGroup w ∧ seqGroup w1 = seqGroup w ∧
    identGroup w1 = identGroup w) as (<- & <- & <- & <-) by (unfold w1; by destruct (_ <? _)). clearbody w1.
  by destruct (p <? markPriceLowFixed w1).
Qed.
Lemma fundingUpdate_groups r w :
  liqGroup (fundingUpdate r w) = liqGroup w ∧ markGroup (fundingUpdate r w) = markGroup w ∧
  seqGroup (fundingUpdate r w) = seqGroup w ∧ identGroup (fundingUpdate r w) = identGroup w.
Proof. done. Qed.

Lemma markUpdate_mark p w :
  markGroup (markUpdate p w) =
  if markPriceSamples w =? 0 then (p, p, p, p, add64 (markPriceSamples w) 1)
  else (markPriceOpenFixed w, Z.max (markPriceHighFixed w) p, Z.min (markPriceLowFixed w) p, p,
        add64 (markPriceSamples w) 1).
Proof.
  unfold markUpdate. destruct (markPriceSamples w =? 0); [done|]. cbn zeta.
  set (w1 := if markPriceHighFixed w <? p then _ else w).
  assert (markGroup w1 = (markPriceOpenFixed w, Z.max (markPriceHighFixed w) p, markPriceLowFixed w,
    markPriceCloseFixed w, markPriceSamples w)) as H1.
  { unfold w1. destruct (Z.ltb_spec (markPriceHighFixed w) p); unfold markGroup; cbn; by rewrite ?Z.max_r, ?Z.max_l by lia. }
  clearbody w1. unfold markGroup in H1. injection H1 as H1 H2 H3 H4 H5.
  destruct (Z.ltb_spec p (markPriceLowFixed w1)); unfold markGroup; cbn; rewrite H1, H2, ?H3, H5, ?Z.min_r, ?Z.min_l by lia; done.
Qed.

(** ** Appending one input *)

Lemma sideQty_snoc b ls x : sideQty b (ls ++ [x]) = sideQty b ls + (if Bool.eqb x.1 b then x.2 else 0).
Proof. unfold sideQty. rewrite fmap_app, sumZ_app. cbn. lia. Qed.

Lemma liqs_ok ins : Forall input_ok ins → Forall (λ x, 0 < x.2) (liqs ins).
Proof.
  rewrite !Forall_forall. intros H x Hx. unfold liqs in Hx. apply list_elem_of_omap in Hx as ([b q s|p s|r s] & Hi & Hq); [|done..].
  cbn in Hq. injection Hq as <-. destruct (H _ Hi) as [_ ?]. cbn in *. lia.
Qed.
Lemma marks_ok ins : Forall input_ok ins → Forall (λ p, 0 < p) (marks ins).
Proof.
  rewrite !Forall_forall. intros H x Hx. unfold marks in Hx. apply list_elem_of_omap in Hx as ([b q s|p s|r s] & Hi & Hq); try done.
  cbn in Hq. injection Hq as <-. destruct (H _ Hi) as [_ ?]. cbn in *. lia.
Qed.
Lemma sideQty_nonneg b ls : Forall (λ x, 0 < x.2) ls → 0 ≤ sideQty b ls.
Proof.
  intros H. unfold sideQty. apply sumZ_nonneg, Forall_fmap. eapply Forall_impl; [exact H|].
  intros x Hx. cbn in *. case_match; lia.
Qed.
Lemma omap_length {A B} (f : A → option B) l : (length (omap f l) ≤ length l)%nat.
Proof. induction l as [|x l IH]; cbn; [lia|]. destruct (f x); cbn; lia. Qed.

Lemma liqSummary_snoc w ls b q :
  liqGroup w = liqSummary ls → Forall (λ x, 0 < x.2) (ls ++ [(b, q)]) →
  sideQty true (ls ++ [(b, q)]) + sideQty false (ls ++ [(b, q)]) ≤ MaxInt64 →
  Z.of_nat (length (ls ++ [(b, q)])) ≤ MaxInt64 →
  liqGroup (liqUpdate b q w) = liqSummary (ls ++ [(b, q)]).
Proof.
  intros Hw Hpos Hsum Hlen. pose proof (sideQty_nonneg true _ Hpos) as H1. pose proof (sideQty_nonneg false _ Hpos) as H2.
  unfold liqSummary in *. rewrite !sideQty_snoc in *. rewrite length_app in *. cbn [length fst snd] in *.
  unfold liqGroup in Hw. injection Hw as E1 E2 E3 E4.
  apply Forall_app in Hpos as [Hpos _]. pose proof (sideQty_nonneg true _ Hpos). pose proof (sideQty_nonneg false _ Hpos).
  destruct b; unfold liqGroup, liqUpdate; cbn in *; rewrite E1, E2, E4; rewrite !add64_id by (unfold in_i64, MinInt64; lia);
    repeat f_equal; lia.
Qed.

Lemma markSummary_snoc w ps p :
  markGroup w = markSummary ps → Z.of_nat (length (ps ++ [p])) ≤ MaxInt64 →
  markGroup (markUpdate p w) = markSummary (ps ++ [p]).
Proof.
  intros Hw Hlen. rewrite markUpdate_mark. rewrite length_app in Hlen. cbn in Hlen. unfold markGroup in Hw.
  destruct ps as [|p0 ps].
  - injection Hw as E1 E2 E3 E4 E5. by rewrite E5.
  - cbn [markSummary] in Hw. injection Hw as E1 E2 E3 E4 E5. cbn [length] in Hlen, E5.
    rewrite E1, E2, E3, E5. rewrite (proj2 (Z.eqb_neq _ 0)) by lia.
    rewrite add64_id by (unfold in_i64, MinInt64; lia). cbn [app markSummary].
    rewrite !foldl_app, app_comm_cons, last_snoc. cbn [foldl default]. repeat f_equal. cbn [length]. rewrite length_app. cbn. lia.
Qed.

Lemma fundSummary_snoc w rs r :
  fundGroup w = fundSummary rs → Z.of_nat (length (rs ++ [r])) ≤ MaxInt64 →
  fundGroup (fundingUpdate r w) = fundSummary (rs ++ [r]).
Proof.
  intros Hw Hlen. unfold fundSummary, fundGroup in *. injection Hw as E1 E2 E3 E4. rewrite length_app in *. cbn in Hlen.
  unfold fundingUpdate. cbn. rewrite E1, E4, wrap64_add_l, last_snoc, sumZ_app. cbn.
  rewrite add64_id by (unfold in_i64, MinInt64; lia). rewrite Z.add_0_r, Nat2Z.inj_add. done.
Qed.

Lemma omap_snoc {A B} (f : A → option B) l x :
  omap f (l ++ [x]) = omap f l ++ (match f x with Some y => [y] | None => [] end).
Proof. rewrite omap_app. cbn. by destruct (f x). Qed.

Lemma seqSummary_snoc w ins i :
  seqGroup w = seqSummary ins → Forall input_ok ins →
  (if SeqFirst w =? 0 then in_seq i else SeqFirst w, in_seq i) = seqSummary (ins ++ [i]).
Proof.
  intros Hw Hall. unfold seqGroup, seqSummary in *. injection Hw as E1 E2. rewrite last_snoc.
  destruct ins as [|j ins]; cbn in E1 |- *; rewrite E1; [done|].
  apply Forall_cons in Hall as [[Hj _] _]. by rewrite (proj2 (Z.eqb_neq _ 0)) by lia.
Qed.

Lemma inputUpdate_view w ins i :
  view w ins → inputs_ok (ins ++ [i]) →
  view (inputUpdate i w) (ins ++ [i]) ∧ identGroup (inputUpdate i w) = identGroup w.
Proof.
  intros [Hl Hm Hf Hs] [Hall Hsort Hliq Hcount].
  pose proof (liqs_ok _ Hall) as Hpos. pose proof Hall as [Hall' _]%Forall_app.
  pose proof (omap_length liq_of (ins ++ [i])) as L1. pose proof (omap_length mark_of (ins ++ [i])) as L2.
  pose proof (omap_length fund_of (ins ++ [i])) as L3.
  destruct (seqUpdate_groups (in_seq i) w) as (G1 & G2 & G3 & G4 & G5).
  rewrite (seqSummary_snoc w ins i Hs Hall') in G5.
  unfold inputUpdate. cbn zeta. set (w1 := seqUpdate (in_seq i) w) in *. clearbody w1.
  rewrite Hl in G1. rewrite Hm in G2. rewrite Hf in G3.
  unfold liqs, marks, funds in *. rewrite (omap_snoc liq_of) in L1, Hpos, Hliq.
  rewrite (omap_snoc mark_of) in L2. rewrite (omap_snoc fund_of) in L3.
  destruct i as [b q s|p s|r s]; cbn [liq_of mark_of fund_of] in *.
  - destruct (liqUpdate_groups b q w1) as (U1 & U2 & U3 & U4). rewrite <- G4. split; [|done].
    split; unfold liqs, marks, funds; rewrite ?omap_snoc; cbn [liq_of mark_of fund_of]; rewrite ?app_nil_r, ?U1, ?U2, ?U3; try done.
    apply liqSummary_snoc; [done|done|done|lia].
  - destruct (markUpdate_groups p w1) as (U1 & U2 & U3 & U4). rewrite <- G4. split; [|done].
    split; unfold liqs, marks, funds; rewrite ?omap_snoc; cbn [liq_of mark_of fund_of]; rewrite ?app_nil_r, ?U1, ?U2, ?U3; try done.
    apply markSummary_snoc; [done|lia].
  - destruct (fundingUpdate_groups r w1) as (U1 & U2 & U3 & U4). rewrite <- G4. split; [|done].
    split; unfold liqs, marks, funds; rewrite ?omap_snoc; cbn [liq_of mark_of fund_of]; rewrite ?app_nil_r, ?U1, ?U2, ?U3; try done.
    apply fundSummary_snoc; [done|lia].
Qed.

Lemma stats_view_ext w w' ins :
  liqGroup w' = liqGroup w → markGroup w' = markGroup w → fundGroup w' = fundGroup w → seqGroup w' = seqGroup w →
  view w ins → view w' ins.
Proof. intros H1 H2 H3 H4 []. split; congruence. Qed.

(** ** Validation of a summary *)

Lemma foldl_max_bounds p ps : p ≤ foldl Z.max p ps ∧ Forall (λ x, x ≤ foldl Z.max p ps) ps.
Proof.
  revert p. induction ps as [|x ps IH]; intros p; cbn; [split; [lia|apply Forall_nil_2]|].
  destruct (IH (Z.max p x)) as [H1 H2]. split; [lia|]. apply Forall_cons_2; [lia|done].
Qed.
Lemma foldl_min_bounds p ps :
  foldl Z.min p ps ≤ p ∧ Forall (λ x, foldl Z.min p ps ≤ x) ps ∧ (foldl Z.min p ps = p ∨ foldl Z.min p ps ∈ ps).
Proof.
  revert p. induction ps as [|x ps IH]; intros p; cbn; [split_and!; [lia|apply Forall_nil_2|by left]|].
  destruct (IH (Z.min p x)) as (H1 & H2 & H3). split_and!; [lia|apply Forall_cons_2; [lia|done]|].
  destruct H3 as [H3|H3]; [|right; by right]. rewrite H3. destruct (Z.min_spec p x) as [[_ ->]|[_ ->]]; [by left|right; by left].
Qed.

Section operations.
Context {GR : GoRuntime}.

Lemma markSummary_valid w ps :
  markGroup w = markSummary ps → Forall (λ p, 0 < p) ps → validateMarkPrice w = None.
Proof.
  intros Hw Hpos. unfold markGroup in Hw. unfold validateMarkPrice. destruct ps as [|p ps].
  { by injection Hw as _ _ _ _ ->. }
  cbn [markSummary] in Hw. apply Forall_cons in Hpos as [Hp Hps].
  assert (∃ l, last (p :: ps) = Some l ∧ l ∈ p :: ps) as (l & Hl & Hin).
  { destruct (last (p :: ps)) as [l|] eqn:Hl; [|by apply last_None in Hl]. exists l. split; [done|].
    by apply last_Some_elem_of. }
  rewrite Hl in Hw. injection Hw as -> -> -> -> ->. cbn [default].
  pose proof (foldl_max_bounds p ps) as [M1 M2]. pose proof (foldl_min_bounds p ps) as (m1 & m2 & m3).
  assert (0 < foldl Z.min p ps) as Hmin.
  { destruct m3 as [->|Hm]; [done|]. rewrite Forall_forall in Hps. by apply Hps. }
  assert (l ≤ foldl Z.max p ps ∧ foldl Z.min p ps ≤ l) as [??].
  { rewrite !Forall_forall in *. apply elem_of_cons in Hin as [->|Hin]; [done|]. split; [by apply M2|by apply m2]. }
  destruct (0 <? _); [|done].
  repeat match goal with |- (if ?b then _ else _) = None => destruct b eqn:?; [exfalso|] end; try done.
  all: reflect_bools; repeat match goal with H : _ ∨ _ |- _ => destruct H as [H|H]; reflect_bools end; lia.
Qed.

Lemma seqSummary_valid w ins :
  seqGroup w = seqSummary ins → inputs_ok ins → (0 <? SeqFirst w) && (SeqLast w <? SeqFirst w) = false.
Proof.
  intros Hw [Hall Hsort _ _]. unfold seqGroup, seqSummary in Hw. injection Hw as -> ->.
  destruct ins as [|i ins]; [done|]. cbn [head fmap option_fmap option_map default].
  destruct (last (i :: ins)) as [l|] eqn:Hl; [|by apply last_None in Hl].
  apply last_Some_elem_of in Hl. cbn. apply andb_false_iff. right. apply Z.ltb_ge.
  apply StronglySorted_inv in Hsort as [_ Hs]. rewrite Forall_forall in Hs.
  apply elem_of_cons in Hl as [->|Hl]; [lia|]. by apply Hs.
Qed.

(** What [Validate] needs besides the summary, for an open or a closed window. *)
Record identOk (w : StatsWindowV1) : Prop := {
  io_venue : TrimSpace (Venue w) ≠ "";
  io_instrument : TrimSpace (Instrument w) ≠ "";
  io_timeframe : Timeframe w ∈ AllowedStatsTimeframes;
  io_start : 0 ≤ WindowStartTs w;
  io_end : if IsClosed w then WindowStartTs w < WindowEndTs w ∧ 0 < WindowMs w else WindowEndTs w = 0;
}.

Lemma parts_Validate w ls ps :
  identOk w → liqGroup w = liqSummary ls → Forall (λ x, 0 < x.2) ls → sideQty true ls + sideQty false ls ≤ MaxInt64 →
  markGroup w = markSummary ps → Forall (λ p, 0 < p) ps →
  (0 <? SeqFirst w) && (SeqLast w <? SeqFirst w) = false → Validate w = None.
Proof.
  intros [] Hl Hpos Hsum Hm Hmark Hseq.
  pose proof (sideQty_nonneg true _ Hpos). pose proof (sideQty_nonneg false _ Hpos).
  unfold liqGroup, liqSummary in Hl. injection Hl as L1 L2 L3 L4.
  unfold Validate. assert (validateIdentity w = None) as ->.
  { apply Collect_none. rewrite !Forall_cons, Forall_nil, !NonEmptyString_none, OneOf_none, !NonNegativeInt_none.
    split_and!; try done. lia. }
  rewrite Hseq, (markSummary_valid w _ Hm Hmark), L1, L2, L3, add64_id by (unfold in_i64, MinInt64; lia).
  rewrite Z.eqb_refl. cbn [negb].
  repeat match goal with |- (if ?b then _ else _) = None => destruct b eqn:?; [exfalso|] end; try done.
  all: destruct (IsClosed w); cbn in *; reflect_bools;
    repeat match goal with H : _ ∨ _ |- _ => destruct H as [H|H]; reflect_bools end; lia || done.
Qed.
Lemma view_Validate w ins : identOk w → view w ins → inputs_ok ins → Validate w = None.
Proof.
  intros Hid [Hl Hm _ Hs] Hok. pose proof (seqSummary_valid w ins Hs Hok) as Hseq. destruct Hok as [Hall _ Hsum _].
  by eapply (parts_Validate w (liqs ins) (marks ins)); [..|apply liqs_ok| | |apply marks_ok|].
Qed.

Lemma fixedInput_ok r i : fixedInput r = Some i → 0 < in_seq i ≤ MaxInt64 → input_ok i.
Proof.
  intros Hr Hseq. split; [done|]. destruct r as [side qty seq|price seq|rate seq]; cbn in Hr.
  - destruct (sideOf side); [|done]. destruct (toPositiveFixed _ _ _) as [|q] eqn:Hq; [done|]. injection Hr as <-.
    by eapply toPositiveFixed_range.
  - destruct (toPositiveFixed _ _ _) as [|q] eqn:Hq; [done|]. injection Hr as <-. by eapply toPositiveFixed_range.
  - destruct (isNaN rate || isInf rate); [done|]. injection Hr as <-. apply i64_of_f_range.
Qed.

(** With the guards passed, a method is its update, the sync and the validation. *)
Lemma applyInput_run r i w :
  IsClosed w = false → fixedInput r = Some i → 0 < in_seq i → SeqLast w ≤ in_seq i →
  applyInput r w = finish (inputUpdate i w).
Proof.
  intros Ho Hr H1 H2. unfold inputUpdate.
  destruct r as [side qty seq|price seq|rate seq]; cbn in Hr; cbn [applyInput].
  - unfold sideOf in Hr. unfold ApplyLiquidation. set (sd := ToLower (TrimSpace side)) in *.
    rewrite (bind_run _ _ w w tt) by (unfold checkMutable; unfold_meth; by rewrite Ho).
    destruct (toPositiveFixed "liquidation_qty" qty candleFixedScale) as [p|q]; [by repeat case_match|].
    rewrite (bind_run _ _ w w q) by done.
    destruct (str_eqb sd "buy") eqn:Hb; [|destruct (str_eqb sd "sell") eqn:Hs; [|done]];
      injection Hr as <-; cbn [in_seq] in *; rewrite (bind_run _ _ w _ tt (bumpSeq_run seq w H1 H2)); cbn zeta;
      rewrite ?Hb, ?Hs; done.
  - unfold ApplyMarkPrice. rewrite (bind_run _ _ w w tt) by (unfold checkMutable; unfold_meth; by rewrite Ho).
    destruct (toPositiveFixed "mark_price" price candleFixedScale) as [p|q]; [done|]. injection Hr as <-.
    rewrite (bind_run _ _ w w q) by done. cbn [in_seq] in *. by rewrite (bind_run _ _ w _ tt (bumpSeq_run seq w H1 H2)).
  - unfold ApplyFundingRate. rewrite (bind_run _ _ w w tt) by (unfold checkMutable; unfold_meth; by rewrite Ho).
    destruct (isNaN rate || isInf rate); [done|]. injection Hr as <-.
    rewrite (bind_run _ _ w w tt) by done. cbn [in_seq] in *. by rewrite (bind_run _ _ w _ tt (bumpSeq_run seq w H1 H2)).
Qed.

Lemma openIdent_group w w' : identGroup w' = identGroup w → openIdent w → openIdent w'.
Proof. unfold identGroup. intros H []. injection H as H1 H2 H3 H4 H5 H6. split; congruence. Qed.
Lemma openIdent_ok w : openIdent w → identOk w.
Proof. intros []. split; try done. by rewrite oi_open0. Qed.

Lemma inputs_last w ins i : view w ins → inputs_ok (ins ++ [i]) → SeqLast w ≤ in_seq i.
Proof.
  intros [_ _ _ Hs] [Hall Hsort _ _]. unfold seqGroup, seqSummary in Hs. injection Hs as _ ->.
  apply Forall_app in Hall as [_ Hi]. apply Forall_singleton in Hi as [Hi _].
  destruct (last ins) as [l|] eqn:Hl; cbn; [|lia]. apply last_Some_elem_of in Hl.
  apply StronglySorted_app in Hsort as (H1 & _ & _). apply H1; [done|by left].
Qed.

Lemma applyInput_accepts r i w ins :
  inv w ins → fixedInput r = Some i → inputs_ok (ins ++ [i]) →
  ∃ w', applyInput r w = (w', inr tt) ∧ inv w' (ins ++ [i]) ∧ identGroup w' = identGroup w.
Proof.
  intros [Hid Hv _ _] Hr Hok. destruct (inputUpdate_view w ins i Hv Hok) as [Hv1 Hg1].
  destruct (stats_sync_groups (inputUpdate i w)) as (G1 & G2 & G3 & G4 & G5). set (w' := syncFromFixed (inputUpdate i w)) in *.
  assert (openIdent w') as Hid' by (eapply openIdent_group; [|exact Hid]; congruence).
  assert (view w' (ins ++ [i])) as Hv' by (eapply stats_view_ext; [done..|exact Hv1]).
  exists w'. split_and!; [| |congruence].
  - rewrite (applyInput_run r i w); [|by destruct Hid|done| |by eapply inputs_last].
    + unfold finish. unfold_meth. fold w'. by rewrite (view_Validate w' _ (openIdent_ok _ Hid') Hv' Hok).
    + destruct Hok as [Hall _ _ _]. apply Forall_app in Hall as [_ Hi]. apply Forall_singleton in Hi as [? _]. lia.
  - split; [done|done|done|apply stats_sync_mirror].
Qed.

Lemma sideQty_app b ls ks : sideQty b (ls ++ ks) = sideQty b ls + sideQty b ks.
Proof. unfold sideQty. by rewrite fmap_app, sumZ_app. Qed.

Lemma inputs_ok_prefix ins rest : inputs_ok (ins ++ rest) → inputs_ok ins.
Proof.
  intros [H1 H2 H3 H4]. apply Forall_app in H1 as [H1 H1']. apply StronglySorted_app in H2 as (_ & H2 & _).
  pose proof (liqs_ok _ H1') as Hp. unfold liqs in H3. rewrite omap_app in H3. fold (liqs ins) (liqs rest) in H3.
  rewrite !sideQty_app in H3. rewrite length_app in H4.
  pose proof (sideQty_nonneg true _ Hp). pose proof (sideQty_nonneg false _ Hp). split; [done|done|lia|lia].
Qed.

Lemma applyInputs_inv raws ins : ∀ w us,
  inv w us → Forall2 (λ r i, fixedInput r = Some i) raws ins → inputs_ok (us ++ ins) →
  ∃ w', for_each raws applyInput w = (w', inr tt) ∧ inv w' (us ++ ins) ∧ identGroup w' = identGroup w.
Proof.
  revert ins. induction raws as [|r raws IH]; intros ins w us Hinv Hall Hok.
  { inversion Hall; subst. rewrite app_nil_r in *. eauto. }
  inversion Hall as [|? i ? ins' Hr Hrest]; subst. cbn [for_each].
  assert (us ++ i :: ins' = (us ++ [i]) ++ ins') as Heq by (by rewrite <- app_assoc). rewrite Heq in *.
  destruct (applyInput_accepts r i w us Hinv Hr (inputs_ok_prefix _ _ Hok)) as (w1 & Hrun & Hinv1 & Hg1).
  rewrite (bind_run _ _ w w1 tt) by done.
  destruct (IH ins' w1 (us ++ [i]) Hinv1 Hrest Hok) as (w2 & ? & ? & ?). exists w2. split_and!; [done|done|congruence].
Qed.

Lemma NewStatsWindow_inv venue instrument tf ws w : NewStatsWindowV1 venue instrument tf ws = inr w → inv w [].
Proof.
  unfold NewStatsWindowV1. destruct (Collect _) eqn:Hc; [done|]. intros [= <-]. collect_facts.
  assert (∀ tf, tf ∈ AllowedStatsTimeframes → TrimSpace tf = tf) as Htf.
  { intros tf'. unfold AllowedStatsTimeframes. rewrite !elem_of_cons, elem_of_nil.
    intros Hin. destruct_or! Hin; subst; done. }
  split.
  - split; cbn [Venue Instrument Timeframe WindowStartTs WindowEndTs IsClosed]; rewrite ?TrimSpace_idem; try done.
    by rewrite Htf.
  - by split.
  - split; [apply Forall_nil_2|apply SSorted_nil|done|done].
  - split; [|done|done]. cbn. by vm_compute.
Qed.

(** The assignments of [Close], and what they leave alone. *)
Definition closeUpdate (we : Z) (w : StatsWindowV1) : StatsWindowV1 :=
  setQualityFlags false (w <| WindowEndTs := we |> <| WindowMs := sub64 we (WindowStartTs w) |> <| IsClosed := true |>).

Lemma Close_run we w :
  IsClosed w = false → SeqFirst w ≠ 0 → WindowStartTs w < we →
  Close we w = (closeUpdate we w, match Validate (closeUpdate we w) with Some p => inl p | None => inr tt end).
Proof.
  intros Ho Hs Hwe. unfold Close, checkMutable. unfold_meth. rewrite Ho.
  rewrite (proj2 (Z.eqb_neq _ 0)) by done. rewrite (proj2 (Z.leb_gt _ _)) by done.
  fold (closeUpdate we w). by destruct (Validate _).
Qed.

Lemma closeUpdate_groups we w :
  liqGroup (closeUpdate we w) = liqGroup w ∧ markGroup (closeUpdate we w) = markGroup w ∧
  fundGroup (closeUpdate we w) = fundGroup w ∧ seqGroup (closeUpdate we w) = seqGroup w ∧
  identGroup (closeUpdate we w) = (Venue w, Instrument w, Timeframe w, WindowStartTs w, we, true) ∧
  WindowMs (closeUpdate we w) = sub64 we (WindowStartTs w) ∧ (mirror w → mirror (closeUpdate we w)).
Proof. split_and!; try done. intros []. by split. Qed.

Lemma closeUpdate_ok we w :
  openIdent w → WindowStartTs w < we ≤ MaxInt64 → identOk (closeUpdate we w) ∧ WindowMs (closeUpdate we w) = we - WindowStartTs w.
Proof.
  intros [] Hwe. assert (WindowMs (closeUpdate we w) = we - WindowStartTs w) as Hms
    by (apply sub64_id; unfold in_i64, MinInt64; lia).
  split; [|done]. split; [exact oi_venue0|exact oi_instrument0|exact oi_timeframe0|exact oi_start0|].
  change (WindowStartTs w < we ∧ 0 < WindowMs (closeUpdate we w)). rewrite Hms. lia.
Qed.

(** The quality flags say exactly which inputs are missing. *)
Lemma flagIf_bits c1 c2 c3 :
  let f := flagIf false 8 (flagIf c3 4 (flagIf c2 2 (flagIf c1 1 0))) in
  Z.testbit f 0 = c1 ∧ Z.testbit f 1 = c2 ∧ Z.testbit f 2 = c3 ∧ Z.testbit f 3 = false.
Proof. by destruct c1, c2, c3. Qed.
Lemma length_zero {A} (l : list A) : (Z.of_nat (length l) =? 0) = bool_decide (l = []).
Proof. destruct l; [done|]. rewrite bool_decide_false by done. apply Z.eqb_neq. cbn. lia. Qed.
Lemma markSummary_count ps a b c d n : markSummary ps = (a, b, c, d, n) → n = Z.of_nat (length ps).
Proof. destruct ps; cbn; by intros [= _ _ _ _ <-]. Qed.

Lemma closeUpdate_flags we w ins :
  view w ins →
  let f := QualityFlags (closeUpdate we w) in
  Z.testbit f 0 = bool_decide (liqs ins = []) ∧ Z.testbit f 1 = bool_decide (marks ins = []) ∧
  Z.testbit f 2 = bool_decide (funds ins = []) ∧ Z.testbit f 3 = false.
Proof.
  intros [Hl Hm Hf _]. unfold liqGroup, liqSummary, markGroup, fundGroup, fundSummary in *.
  injection Hl as _ _ _ L. injection Hf as _ _ _ F. symmetry in Hm. apply markSummary_count in Hm.
  rewrite <- !length_zero, <- L, <- F, <- Hm. apply flagIf_bits.
Qed.

(** C35: a stats window summarises its inputs. For inputs in sequence order whose
    liquidation total and count fit in 64 bits, a new window accepts every one of
    them; it then holds the liquidation volume of each side, the first, greatest,
    least and last mark price, the truncated mean of the funding rates and the
    sequence bounds, and the exported floats mirror them. It closes at any later
    time, keeping all of that, and the quality flags of the closed window say
    exactly which kinds of input were missing. *)
Theorem stats_window_summarises_inputs venue instrument tf ws w0 raws ins we :
  NewStatsWindowV1 venue instrument tf ws = inr w0 →
  Forall2 (λ r i, fixedInput r = Some i) raws ins → inputs_ok ins → ins ≠ [] → WindowStartTs w0 < we ≤ MaxInt64 →
  ∃ w w', for_each raws applyInput w0 = (w, inr tt) ∧ view w ins ∧ mirror w ∧
    Close we w = (w', inr tt) ∧ view w' ins ∧ mirror w' ∧
    identGroup w' = (Venue w0, Instrument w0, Timeframe w0, WindowStartTs w0, we, true) ∧
    WindowMs w' = we - WindowStartTs w0 ∧
    Z.testbit (QualityFlags w') 0 = bool_decide (liqs ins = []) ∧
    Z.testbit (QualityFlags w') 1 = bool_decide (marks ins = []) ∧
    Z.testbit (QualityFlags w') 2 = bool_decide (funds ins = []) ∧ Z.testbit (QualityFlags w') 3 = false.
Proof.
  intros Hnew%NewStatsWindow_inv Hall Hok Hne Hwe.
  destruct (applyInputs_inv raws ins w0 [] Hnew Hall Hok) as (w & Hrun & [Hid Hv _ Hmir] & Hg).
  cbn [app] in Hv. pose proof Hg as Hg'. unfold identGroup in Hg'. injection Hg' as E1 E2 E3 E4 E5 E6. rewrite <- E4 in Hwe.
  destruct (closeUpdate_ok we w Hid Hwe) as [Hok' Hms]. destruct (closeUpdate_groups we w) as (G1 & G2 & G3 & G4 & G5 & _ & G7).
  pose proof (closeUpdate_flags we w ins Hv) as Hflags.
  assert (view (closeUpdate we w) ins) as Hv' by (by eapply stats_view_ext).
  exists w, (closeUpdate we w). split_and!; try done; try apply Hflags; [|by apply G7|by rewrite G5, E1, E2, E3, E4|by rewrite Hms, E4].
  rewrite Close_run; [by rewrite (view_Validate _ ins Hok' Hv' Hok)|by destruct Hid| |lia].
  destruct Hv as [_ _ _ Hs]. unfold seqGroup, seqSummary in Hs. injection Hs as -> _.
  destruct ins as [|i ins]; [done|]. cbn. destruct Hok as [Hi _ _ _]. apply Forall_cons in Hi as [[? _] _]. lia.
Qed.

(** A rejected liquidation still counts as input. A liquidation whose side is
    neither buy nor sell is refused, but only after the sequence bounds have been
    advanced: a window that has seen nothing else can then be closed, and the
    closed window carries that sequence with every input flagged as missing. *)
Theorem rejected_side_advances_window venue instrument tf ws w0 side qty q seq we :
  NewStatsWindowV1 venue instrument tf ws = inr w0 → sideOf side = None →
  toPositiveFixed "liquidation_qty" qty candleFixedScale = inr q → 0 < seq → WindowStartTs w0 < we ≤ MaxInt64 →
  ∃ w1 p w2, ApplyLiquidation side qty seq w0 = (w1, inl p) ∧ Code p = ValidationFailed ∧
    Close we w0 = (w0, inl (New ValidationFailed "cannot close stats window without any input")) ∧
    Close we w1 = (w2, inr tt) ∧ seqGroup w2 = (seq, seq) ∧ LiqCount w2 = 0 ∧ QualityFlags w2 = 7.
Proof.
  intros Hnew Hside Hq Hseq Hwe. pose proof (NewStatsWindow_inv _ _ _ _ _ Hnew) as [Hid [Hl Hm Hf Hs] _ _].
  unfold seqGroup, seqSummary in Hs. cbn in Hs. injection Hs as S1 S2.
  assert (bumpSeq seq w0 = (seqUpdate seq w0, inr tt)) as Hb by (apply bumpSeq_run; [done|lia]).
  destruct (seqUpdate_groups seq w0) as (G1 & G2 & G3 & G4 & G5). rewrite S1 in G5. cbn in G5.
  set (w1 := seqUpdate seq w0) in *. clearbody w1.
  assert (openIdent w1) as Hid1 by (by eapply openIdent_group).
  unfold seqGroup in G5. injection G5 as F1 F2.
  assert (WindowStartTs w1 = WindowStartTs w0) as Hws by (unfold identGroup in G4; congruence). rewrite <- Hws in Hwe.
  destruct (closeUpdate_ok we w1 Hid1 Hwe) as [Hok _]. destruct (closeUpdate_groups we w1) as (C1 & C2 & C3 & C4 & _).
  assert (∃ p, ApplyLiquidation side qty seq w0 = (w1, inl p) ∧ Code p = ValidationFailed) as (p & Hp & Hc).
  { eexists. unfold ApplyLiquidation. rewrite (bind_run _ _ w0 w0 tt)
      by (unfold checkMutable; unfold_meth; by destruct Hid as [_ _ _ _ _ ->]).
    rewrite Hq, (bind_run _ _ w0 w0 q), (bind_run _ _ w0 w1 tt) by done. unfold sideOf in Hside. cbn zeta in *.
    destruct (str_eqb _ "buy"); [done|]. destruct (str_eqb _ "sell"); [done|]. done. }
  assert (LiqCount w1 = 0 ∧ markPriceSamples w1 = 0 ∧ fundingRateSamples w1 = 0) as (Z1 & Z2 & Z3).
  { rewrite Hl in G1. rewrite Hm in G2. rewrite Hf in G3. 
    apply (f_equal snd) in G1, G2, G3. split_and!; [exact G1|exact G2|exact G3]. }
  exists w1, p, (closeUpdate we w1). split_and!; try done.
  - unfold Close, checkMutable. unfold_meth. destruct Hid as [_ _ _ _ _ ->]. by rewrite S1.
  - rewrite Close_run; [|by destruct Hid1|by rewrite F1; lia|lia].
    rewrite (parts_Validate _ [] []); try done; [by rewrite C1, G1, Hl|by rewrite C2, G2, Hm|]. 
    change ((0 <? SeqFirst w1) && (SeqLast w1 <? SeqFirst w1) = false). by rewrite F1, F2, Z.ltb_irrefl, andb_false_r.
  - change (seqGroup w1 = (seq, seq)). unfold seqGroup. by rewrite F1, F2.
  - unfold closeUpdate, setQualityFlags. cbn [QualityFlags LiqCount markPriceSamples fundingRateSamples upd].
    cbn. by rewrite Z1, Z2, Z3.
Qed.
End operations.

(** ** Witnesses *)

Definition w_window : StatsWindowV1 :=
  MkStatsWindow "BINANCE" "BTCUSDT" "1s" 1000 0 0 0 0 f0 f0 f0 0 f0 f0 f0 f0 f0 f0 0 0 false 0 0 0 0 0 0 0 0 0 0 0 0.
Definition w_raws : list rawInput :=
  [RawMark (f_of_Z 100) 3; RawLiq " SELL" (flit 1 2) 4; RawMark (f_of_Z 99) 4].
Definition w_ins : list input := [InMark 10000000000 3; InLiq false 50000000 4; InMark 9900000000 4].

Lemma stats_window_summarises_inputs_witness :
  ∃ w w', for_each w_raws (applyInput (GR:=go_amd64)) w_window = (w, inr tt) ∧
    Close (GR:=go_amd64) 2000 w = (w', inr tt) ∧ liqSellVolumeFixed w' = 50000000 ∧ markPriceLowFixed w' = 9900000000 ∧
    QualityFlags w' = 4.
Proof.
  destruct (stats_window_summarises_inputs (GR:=go_amd64) "BINANCE" "BTCUSDT" "1s" 1000 w_window w_raws w_ins 2000)
    as (w & w' & H1 & _ & _ & H2 & _).
  - vm_compute. reflexivity.
  - repeat apply Forall2_cons_2; [vm_compute; reflexivity..|apply Forall2_nil_2].
  - split.
    + repeat apply Forall_cons_2; [..|apply Forall_nil_2]; vm_compute; intuition discriminate.
    + repeat apply SSorted_cons; [apply SSorted_nil|..]; repeat apply Forall_cons_2;
        (apply Forall_nil_2 || (vm_compute; discriminate)).
    + vm_compute. discriminate.
    + vm_compute. discriminate.
  - discriminate.
  - split; [reflexivity|vm_compute; discriminate].
  - exists w, w'. split; [exact H1|]. split; [exact H2|]. vm_compute in H1. injection H1 as <-.
    vm_compute in H2. injection H2 as <-. split_and!; reflexivity.
Defined.

Lemma rejected_side_advances_window_witness :
  ∃ w1 p w2, ApplyLiquidation (GR:=go_amd64) "long" (f_of_Z 1) 5 w_window = (w1, inl p) ∧
    Close (GR:=go_amd64) 2000 w1 = (w2, inr tt) ∧ QualityFlags w2 = 7.
Proof.
  destruct (rejected_side_advances_window (GR:=go_amd64) "BINANCE" "BTCUSDT" "1s" 1000 w_window "long" (f_of_Z 1)
    100000000 5 2000) as (w1 & p & w2 & H1 & _ & _ & H2 & _ & _ & H3).
  - vm_compute. reflexivity.
  - vm_compute. reflexivity.
  - vm_compute. reflexivity.
  - reflexivity.
  - split; [reflexivity|vm_compute; discriminate].
  - exists w1, p, w2. split; [exact H1|]. split; [exact H2|exact H3].
Defined.
