(* ===== verification/BuildStats.v ===== *)
(** * BuildStats: internal/core/aggregation/app/build_stats.go

    The use case that folds liquidations, mark prices and funding rates into the
    stats windows of all nine timeframes. As in BuildCandle, the store and the
    publisher are ports ([StatsPorts]) that answer each call from the history of
    calls, the state keeps that history, and metrics are not modelled. *)

From S2P Require Import Prelude GoRuntime Shared BoundedMap Cells Candle Watermark BuildCandle Stats.

Local Open Scope string_scope.
Local Open Scope list_scope.
Local Open Scope Z_scope.

#[export] Instance StatsKey_eq_dec : EqDecision StatsKey.
Proof. solve_decision. Defined.
#[export] Instance StatsKey_countable : Countable StatsKey :=
  inj_countable' (λ k, (skey_Venue k, skey_Instrument k, skey_Timeframe k))
    (λ t, MkStatsKey t.1.1 t.1.2 t.2) (λ k, match k with MkStatsKey _ _ _ => eq_refl end).

(** [StatsInputKind] is a string type; [StatsInputOther] is any other string. *)
Inductive StatsInputKind :=
| StatsInputLiquidation
| StatsInputMarkPrice
| StatsInputFundingRate
| StatsInputOther (kind : string).

Record BuildStatsConfig := MkBuildStatsConfig {
  MaxWindows : Z;
  StatsWindowCap : Z;
  WindowTTL : Z;
  StatsLateTolerance : Z;
  StatsWindowDuration : option (gmap string Z);
}.

Record BuildStatsRequest := MkBuildStatsRequest {
  req_Venue : string;
  req_Instrument : string;
  req_Kind : StatsInputKind;
  req_Seq : Z;
  req_TsIngest : Z;
  req_LiquidationSide : string;
  req_LiquidationQty : float64;
  req_MarkPrice : float64;
  req_FundingRate : float64;
}.

Record BuildStatsResponse := MkBuildStatsResponse { resp_Closed : list StatsWindowClosed; resp_ActiveWindows : Z }.

Inductive StatsPortCall :=
| CallSaveStats (evt : StatsWindowClosed) (answer : option Problem)
| CallPublishStatsClosed (evt : StatsWindowClosed) (answer : option Problem).

Class StatsPorts := {
  SaveStats : list StatsPortCall → StatsWindowClosed → option Problem;
  PublishStatsClosed : list StatsPortCall → StatsWindowClosed → option Problem;
}.

Record BuildStatsFromEvents := MkBuildStats {
  publisher : bool;
  store : bool;
  windows : Cells StatsKey StatsWindowV1;
  lifecycle : option WatermarkWindowManager;
  windowMs : gmap string Z;
  timeframes : list string;
  portCalls : list StatsPortCall;
}.
#[export] Instance BuildStats_eta : Eta BuildStatsFromEvents := λ r,
  MkBuildStats (publisher r) (store r) (windows r) (lifecycle r) (windowMs r) (timeframes r) (portCalls r).

Abbreviation StatsUC := (Meth BuildStatsFromEvents Problem).

Definition statsClosedBufferCap : Z := 18.

(** [if closedCount < len(closedBuf) { closedBuf[closedCount] = evt; closedCount++ }] *)
Definition pushClosed (closed : list StatsWindowClosed) (evt : option StatsWindowClosed) : list StatsWindowClosed :=
  match evt with
  | Some evt => if Z.of_nat (length closed) <? statsClosedBufferCap then closed ++ [evt] else closed
  | None => closed
  end.

Section build_stats.
Context {GR : GoRuntime} {ports : StatsPorts} (clk : nat → Z).

Definition NewBuildStatsFromEvents (pub store : bool) (cfg : BuildStatsConfig) : BuildStatsFromEvents :=
  let maxWindows := if MaxWindows cfg <=? 0 then 50000 else MaxWindows cfg in
  let windowTTL := if WindowTTL cfg <=? 0 then Hour else WindowTTL cfg in
  let windowCap := if StatsWindowCap cfg <=? 0 then 96 else StatsWindowCap cfg in
  let lateTolerance := if StatsLateTolerance cfg <=? 0 then 30 * Second else StatsLateTolerance cfg in
  let windowMs := match resolveWindowDurations (StatsWindowDuration cfg) AllowedStatsTimeframes with
    | inr ms => ms
    | inl _ => default ∅ (ok_of (resolveWindowDurations None AllowedStatsTimeframes))
    end in
  let windows := newCells clk maxWindows windowTTL in
  let windows := windows <| cmap ::= SetSweepEveryOps 1024 |> <| cmap ::= SetSweepMinInterval Second |> in
  let lifecycle := match NewWatermarkWindowManager (MkWatermarkConfig windowCap (Milliseconds lateTolerance)) with
    | inr w => Some w
    | inl _ => ok_of (NewWatermarkWindowManager (MkWatermarkConfig 96 30000))
    end in
  MkBuildStats pub store windows lifecycle windowMs
    ["1s"; "5s"; "1m"; "5m"; "15m"; "30m"; "1h"; "4h"; "1d"] [].

Definition onWindows {A} (m : Meth (Cells StatsKey StatsWindowV1) Problem A) : StatsUC A := λ uc,
  let '(c, r) := m (windows uc) in (uc <| windows := c |>, r).

(** [uc.windowMs[timeframe]] *)
Definition durationOf (uc : BuildStatsFromEvents) (timeframe : string) : Z :=
  default 0 (windowMs uc !! timeframe).

Definition callPort (answer : list StatsPortCall → option Problem) (call : option Problem → StatsPortCall)
    : StatsUC unit := λ uc,
  let r := answer (portCalls uc) in
  (uc <| portCalls ::= λ l, l ++ [call r] |>, match r with Some p => inl p | None => inr tt end).

Definition persistClosedStats (stats : StatsWindowV1) : StatsUC StatsWindowClosed :=
  let evt := NewStatsWindowClosed stats in
  uc ← recv;
  (if store uc then callPort (λ h, SaveStats h evt) (CallSaveStats evt) else mret tt) ;;
  (if publisher uc then callPort (λ h, PublishStatsClosed h evt) (CallPublishStatsClosed evt) else mret tt) ;;
  mret evt.

Definition validateRequest (req : BuildStatsRequest) : option Problem :=
  match Collect [NonEmptyString "venue" (req_Venue req); NonEmptyString "instrument" (req_Instrument req);
                 PositiveInt "seq" (req_Seq req); PositiveInt "ts_ingest" (req_TsIngest req)] with
  | Some p => Some p
  | None =>
      match req_Kind req with
      | StatsInputLiquidation =>
          if isNaN (req_LiquidationQty req) || isInf (req_LiquidationQty req) || fleb (req_LiquidationQty req) f0 then
            Some (New ValidationFailed "liquidation_qty must be a positive finite number")
          else NonEmptyString "liquidation_side" (req_LiquidationSide req)
      | StatsInputMarkPrice =>
          if isNaN (req_MarkPrice req) || isInf (req_MarkPrice req) || fleb (req_MarkPrice req) f0 then
            Some (New ValidationFailed "mark_price must be a positive finite number")
          else None
      | StatsInputFundingRate =>
          if isNaN (req_FundingRate req) || isInf (req_FundingRate req) then
            Some (New ValidationFailed "funding_rate must be a finite number")
          else None
      | StatsInputOther kind => Some (Newf ValidationFailed "unknown stats input kind %q" [AnyStr kind])
      end
  end.

(** The assignments to the window between [Close] and [persistClosedStats]. *)
Definition stampClosed (windowDurationMs : Z) (forced : bool) (w : StatsWindowV1) : StatsWindowV1 :=
  let w := w <| WindowMs := windowDurationMs |> in
  let w := if TsIngestMs w <=? 0 then w <| TsIngestMs := WindowEndTs w |> else w in
  SetQualityFlags forced w.

Definition closeIfWindowChanged (key : StatsKey) (windowStart windowDurationMs : Z)
    : StatsUC (option StatsWindowClosed) :=
  found ← onWindows (cellGet clk key);
  match found with
  | None => mret None
  | Some existing =>
      w ← onWindows (load existing);
      if WindowStartTs w =? windowStart then mret None else
      onWindows (callAt existing (Close (add64 (WindowStartTs w) windowDurationMs))) ;;
      onWindows (callAt existing (assign (stampClosed windowDurationMs false))) ;;
      closedNow ← onWindows (load existing);
      evt ← persistClosedStats closedNow;
      onWindows (cellDelete clk key) ;;
      mret (Some evt)
  end.

Definition getOrCreateWindow (key : StatsKey) (windowStart windowDurationMs : Z) : StatsUC Z :=
  found ← onWindows (cellGet clk key);
  match found with
  | Some a =>
      w ← onWindows (load a);
      fail_if (negb (WindowStartTs w =? windowStart))
        (New IntegrityViolation "stats window mismatch after window roll") ;;
      (if WindowMs w <=? 0 then onWindows (callAt a (assign (λ w, w <| WindowMs := windowDurationMs |>))) else mret tt) ;;
      mret a
  | None =>
      w ← try_ (NewStatsWindowV1 (skey_Venue key) (skey_Instrument key) (skey_Timeframe key) windowStart);
      a ← onWindows (alloc (w <| WindowMs := windowDurationMs |>));
      onWindows (cellPut clk key a) ;;
      mret a
  end.

Definition applyStatsUpdate (req : BuildStatsRequest) : StatsM unit :=
  match req_Kind req with
  | StatsInputLiquidation => ApplyLiquidation (req_LiquidationSide req) (req_LiquidationQty req) (req_Seq req)
  | StatsInputMarkPrice => ApplyMarkPrice (req_MarkPrice req) (req_Seq req)
  | StatsInputFundingRate => ApplyFundingRate (req_FundingRate req) (req_Seq req)
  | StatsInputOther kind => throw (Newf ValidationFailed "unknown stats input kind %q" [AnyStr kind])
  end.

Definition forceCloseWindow (forced : ForcedWindowClose) : StatsUC (option StatsWindowClosed) :=
  let fk := forced_Key forced in
  let key := MkStatsKey (wk_Venue fk) (wk_Instrument fk) (wk_Timeframe fk) in
  found ← onWindows (cellGet clk key);
  match found with
  | None => mret None
  | Some existing =>
      w ← onWindows (load existing);
      if negb (WindowStartTs w =? forced_WindowStart forced) then mret None else
      uc ← recv;
      let windowDurationMs := durationOf uc (skey_Timeframe key) in
      fail_if (windowDurationMs <=? 0)
        (Newf ValidationFailed "window duration must be > 0 for timeframe=%s" [AnyStr (skey_Timeframe key)]) ;;
      onWindows (callAt existing (Close (add64 (WindowStartTs w) windowDurationMs))) ;;
      onWindows (callAt existing (assign (stampClosed windowDurationMs true))) ;;
      closedNow ← onWindows (load existing);
      evt ← persistClosedStats closedNow;
      onWindows (cellDelete clk key) ;;
      mret (Some evt)
  end.

(** [domain.WindowKey(key)] *)
Definition windowKey (key : StatsKey) : WindowKey :=
  MkWindowKey (skey_Venue key) (skey_Instrument key) (skey_Timeframe key).

Definition observeWindow (key : StatsKey) (eventTsMs windowDurationMs : Z)
    : StatsUC (WindowDecision * option StatsWindowClosed) :=
  uc ← recv;
  match lifecycle uc with
  | None => mret (MkDecision (bucketStart eventTsMs windowDurationMs) false 0 false None, None)
  | Some w =>
      let '(w', r) := Observe (windowKey key) eventTsMs windowDurationMs w in
      assign (λ uc, uc <| lifecycle := Some w' |>) ;;
      decision ← try_ r;
      match ForcedClose decision with
      | None => mret (decision, None)
      | Some forced =>
          forcedClosed ← forceCloseWindow forced;
          mret (decision, forcedClosed)
      end
  end.

(** The body of the loop of [Execute]: one timeframe. *)
Definition executeTimeframe (req : BuildStatsRequest) (timeframe : string) (closed : list StatsWindowClosed)
    : StatsUC (list StatsWindowClosed) :=
  let key := MkStatsKey (CanonicalVenue (req_Venue req)) (CanonicalInstrument (req_Instrument req)) timeframe in
  uc ← recv;
  let windowDurationMs := durationOf uc timeframe in
  observed ← observeWindow key (req_TsIngest req) windowDurationMs;
  let '(decision, forcedClosed) := observed in
  let closed := pushClosed closed forcedClosed in
  if IsLate decision then mret closed else
  let windowStart := WindowStart decision in
  closedEvt ← closeIfWindowChanged key windowStart windowDurationMs;
  let closed := pushClosed closed closedEvt in
  win ← getOrCreateWindow key windowStart windowDurationMs;
  onWindows (callAt win (assign (λ w,
    if TsIngestMs w <? req_TsIngest req then w <| TsIngestMs := req_TsIngest req |> else w))) ;;
  onWindows (callAt win (applyStatsUpdate req)) ;;
  onWindows (cellPut clk key win) ;;
  mret closed.

Fixpoint executeLoop (req : BuildStatsRequest) (tfs : list string) (closed : list StatsWindowClosed)
    : StatsUC (list StatsWindowClosed) :=
  match tfs with
  | [] => mret closed
  | timeframe :: rest => closed ← executeTimeframe req timeframe closed; executeLoop req rest closed
  end.

Definition Execute (req : BuildStatsRequest) : StatsUC BuildStatsResponse :=
  check (validateRequest req) ;;
  uc ← recv;
  closed ← executeLoop req (timeframes uc) [];
  uc ← recv;
  mret (MkBuildStatsResponse closed (cellLen (windows uc))).

Definition ActiveWindows (uc : BuildStatsFromEvents) : Z := cellLen (windows uc).
End build_stats.
