(* ===== verification/BuildStatsSpec.v ===== *)
(** * BuildStatsSpec: what BuildStatsFromEvents promises

    The calls the ports have seen are exactly the windows a successful request
    returns, in order, and the fixed buffer that collects them never drops one;
    a request that fails halfway stays applied to the timeframes it had passed. *)

From S2P Require Import Prelude GoRuntime Shared BoundedMap Cells Candle Watermark BuildCandle CandleSpec Stats StatsSpec BuildStats.

Local Open Scope string_scope.
Local Open Scope list_scope.
Local Open Scope Z_scope.

Section claims.
Context {GR : GoRuntime} {ports : StatsPorts} (clk : nat → Z).

(** A window that was closed: it has input and a valid window. *)
Definition sealed (w : StatsWindowV1) : Prop :=
  IsClosed w = true ∧ SeqFirst w ≠ 0 ∧ WindowStartTs w < WindowEndTs w.

Lemma stats_Close_seals we w w' : Close we w = (w', inr tt) → sealed w'.
Proof.
  unfold Close, checkMutable. intros H. inv_ok H. reflect_bools. unfold setQualityFlags, sealed. cbn. split_and!; [done|done|lia].
Qed.
Lemma stampClosed_seals dur forced w : sealed w → sealed (stampClosed dur forced w).
Proof. unfold stampClosed. cbn zeta. unfold sealed. by destruct (_ <=? 0). Qed.

(** The successful port calls for a list of events. *)
Definition emitted (st pb : bool) (evts : list StatsWindowClosed) : list StatsPortCall :=
  evts ≫= λ e, (if st then [CallSaveStats e None] else []) ++ (if pb then [CallPublishStatsClosed e None] else []).

Lemma stats_emitted_snoc st pb es e : emitted st pb (es ++ [e]) = emitted st pb es ++ emitted st pb [e].
Proof. unfold emitted. by rewrite bind_app. Qed.

(** The calls since [h] are those of the events [es], all of closed windows. *)
Definition logged (st pb : bool) (h : list StatsPortCall) (es : list StatsWindowClosed) (uc : BuildStatsFromEvents) : Prop :=
  portCalls uc = h ++ emitted st pb es ∧ store uc = st ∧ publisher uc = pb ∧
  Forall (λ e, sealed (closed_stats e)) es.

Section emission.
Variables (st pb : bool) (h : list StatsPortCall).
Abbreviation log := (logged st pb h).
Abbreviation any := (λ _ : BuildStatsFromEvents, True).

Lemma stats_onWindows_log {A} (m : Meth (Cells StatsKey StatsWindowV1) Problem A) es :
  triple (log es) (onWindows m) (λ _, log es) any.
Proof. intros uc Huc. unfold onWindows. by destruct (m (windows uc)) as [c [p|x]]. Qed.

Lemma stats_persist_log w es :
  sealed w → triple (log es) (persistClosedStats w) (λ evt, log (es ++ [evt])) any.
Proof.
  intros Hw uc (Hcalls & Hst & Hpb & Hall). set (evt := NewStatsWindowClosed w).
  assert (∀ uc', store uc' = st → publisher uc' = pb → portCalls uc' = portCalls uc ++ emitted st pb [evt] →
    log (es ++ [evt]) uc') as Hdone.
  { intros uc' H1 H2 H3. unfold logged. rewrite stats_emitted_snoc, H3, Hcalls, <- app_assoc.
    split_and!; try done. apply Forall_app. by rewrite Forall_singleton. }
  unfold persistClosedStats. unfold_meth. unfold callPort. fold evt. rewrite Hst, Hpb.
  destruct st, pb; cbn.
  - destruct (SaveStats (portCalls uc) evt) as [p|]; [done|]. cbn.
    destruct (PublishStatsClosed _ evt) as [p|]; [done|]. apply Hdone; [done..|]. cbn. by rewrite <- app_assoc.
  - destruct (SaveStats (portCalls uc) evt) as [p|]; [done|]. by apply Hdone.
  - destruct (PublishStatsClosed (portCalls uc) evt) as [p|]; [done|]. by apply Hdone.
  - apply Hdone; [done..|]. cbn. by rewrite app_nil_r.
Qed.

(** The tail shared by a window roll and a forced close. *)
Lemma stats_closeTail_log key a we dur forced es :
  triple (log es)
    (onWindows (callAt a (Close we)) ;; onWindows (callAt a (assign (stampClosed dur forced))) ;;
     closedNow ← onWindows (load a); evt ← persistClosedStats closedNow; onWindows (cellDelete clk key) ;; mret (Some evt))
    (λ r, log (es ++ optList r)) any.
Proof.
  eapply (triple_bind _ _ _ (λ _ uc, log es uc ∧ ∃ v, heap (windows uc) !! a = Some v ∧ sealed v)).
  { intros uc Huc. unfold onWindows, callAt. destruct (heap (windows uc) !! a) as [v|]; [|done].
    destruct (Close we v) as [v' [p|[]]] eqn:Hc; [done|]. split; [done|]. exists v'.
    split; [apply lookup_insert_eq|]. by eapply stats_Close_seals. }
  intros []. eapply (triple_bind _ _ _ (λ _ uc, log es uc ∧ ∃ v, heap (windows uc) !! a = Some v ∧ sealed v)).
  { intros uc (Huc & v & Hv & Hs). unfold onWindows, callAt. rewrite Hv. cbn. split; [done|]. eexists.
    split; [apply lookup_insert_eq|]. by apply stampClosed_seals. }
  intros []. eapply (triple_bind _ _ _ (λ v uc, log es uc ∧ sealed v)).
  { intros uc (Huc & v & Hv & Hs). unfold onWindows, load. by rewrite Hv. }
  intros v. eapply (triple_bind _ _ _ (λ evt, log (es ++ [evt]))); [intros uc [Huc Hv]; by apply stats_persist_log|].
  intros evt. eapply triple_bind; [apply stats_onWindows_log|]. intros []. by apply triple_ret.
Qed.

Lemma stats_closeIfWindowChanged_log k ws dur es :
  triple (log es) (closeIfWindowChanged clk k ws dur) (λ r, log (es ++ optList r)) any.
Proof.
  unfold closeIfWindowChanged. eapply triple_bind; [apply stats_onWindows_log|]. intros [a|].
  2: { apply triple_ret. intros uc Huc. by rewrite app_nil_r. }
  eapply triple_bind; [apply stats_onWindows_log|]. intros c. destruct (_ =? _).
  { apply triple_ret. intros uc Huc. by rewrite app_nil_r. }
  apply stats_closeTail_log.
Qed.

Lemma stats_forceCloseWindow_log forced es :
  triple (log es) (forceCloseWindow clk forced) (λ r, log (es ++ optList r)) any.
Proof.
  unfold forceCloseWindow. eapply triple_bind; [apply stats_onWindows_log|]. intros [a|].
  2: { apply triple_ret. intros uc Huc. by rewrite app_nil_r. }
  eapply triple_bind; [apply stats_onWindows_log|]. intros c. destruct (negb _).
  { apply triple_ret. intros uc Huc. by rewrite app_nil_r. }
  eapply (triple_bind _ _ _ (λ _, log es)); [by apply triple_recv|]. intros uc1. cbn zeta.
  eapply (triple_bind _ _ _ (λ _, log es)); [by apply triple_fail_if; intros; case_match|]. intros [].
  apply stats_closeTail_log.
Qed.

Lemma stats_observeWindow_log key ts dur es :
  triple (log es) (observeWindow clk key ts dur) (λ r, log (es ++ optList r.2)) any.
Proof.
  intros uc Huc. unfold observeWindow. rewrite (bind_run _ _ uc uc uc) by done.
  destruct (lifecycle uc) as [w|]; [|cbn; by rewrite app_nil_r].
  destruct (Observe (windowKey key) ts dur w) as [w' [p|d]]; [done|].
  set (uc1 := uc <| lifecycle := Some w' |>). assert (log es uc1) as Huc1 by done.
  rewrite (bind_run _ _ uc uc1 tt) by done. rewrite (bind_run _ _ _ uc1 d) by done. clearbody uc1.
  destruct (ForcedClose d) as [f|]; [|cbn; by rewrite app_nil_r].
  pose proof (stats_forceCloseWindow_log f es uc1 Huc1) as Hf.
  unfold mbind, Meth_bind. by destruct (forceCloseWindow clk f _) as [uc2 [p|r]].
Qed.

Lemma stats_getOrCreateWindow_log k ws dur es : triple (log es) (getOrCreateWindow clk k ws dur) (λ _, log es) any.
Proof.
  unfold getOrCreateWindow. eapply triple_bind; [apply stats_onWindows_log|]. intros [a|].
  - eapply triple_bind; [apply stats_onWindows_log|]. intros c.
    eapply (triple_bind _ _ _ (λ _, log es)); [by apply triple_fail_if; intros; case_match|].
    intros []. eapply (triple_bind _ _ _ (λ _, log es)); [|intros []; by apply triple_ret].
    destruct (_ <=? 0); [apply stats_onWindows_log|by apply triple_ret].
  - eapply (triple_bind _ _ _ (λ _, log es)); [by apply triple_try; intros; case_match|]. intros c.
    eapply triple_bind; [apply stats_onWindows_log|]. intros a.
    eapply triple_bind; [apply stats_onWindows_log|]. intros []. by apply triple_ret.
Qed.

Lemma pushClosed_fits es e : Z.of_nat (length es) < 18 → pushClosed es e = es ++ optList e.
Proof.
  intros H. destruct e as [e|]; cbn; [|by rewrite app_nil_r].
  unfold statsClosedBufferCap. by rewrite (proj2 (Z.ltb_lt _ _)).
Qed.

(** One timeframe adds at most two events. *)
Lemma stats_executeTimeframe_log req tf es :
  Z.of_nat (length es) ≤ 16 →
  triple (log es) (executeTimeframe clk req tf es)
    (λ es' uc, log es' uc ∧ Z.of_nat (length es') ≤ Z.of_nat (length es) + 2) any.
Proof.
  intros Hlen. unfold executeTimeframe. set (key := MkStatsKey _ _ _).
  eapply (triple_bind _ _ _ (λ _, log es)); [by apply triple_recv|]. intros uc0. cbn zeta.
  eapply triple_bind; [apply stats_observeWindow_log|]. intros [d f]. cbn [snd].
  rewrite (pushClosed_fits es f) by lia.
  assert (Z.of_nat (length (es ++ optList f)) ≤ Z.of_nat (length es) + 1) as Hlen1
    by (rewrite length_app; destruct f; cbn; lia).
  destruct (IsLate d); [apply triple_ret; intros uc Huc; split; [done|lia]|].
  eapply triple_bind; [apply stats_closeIfWindowChanged_log|]. intros evt. rewrite (pushClosed_fits _ evt) by lia.
  eapply triple_bind; [apply stats_getOrCreateWindow_log|]. intros a.
  eapply triple_bind; [apply stats_onWindows_log|]. intros [].
  eapply triple_bind; [apply stats_onWindows_log|]. intros [].
  eapply triple_bind; [apply stats_onWindows_log|]. intros []. apply triple_ret. intros uc Huc. split; [done|].
  rewrite (length_app (es ++ optList f)). destruct evt; cbn; lia.
Qed.

Lemma stats_executeLoop_log req tfs : ∀ es,
  Z.of_nat (length es) + 2 * Z.of_nat (length tfs) ≤ 18 →
  triple (log es) (executeLoop clk req tfs es) (λ es', log es') any.
Proof.
  induction tfs as [|tf tfs IH]; intros es Hlen; cbn [executeLoop]; [by apply triple_ret|]. cbn [length] in Hlen.
  eapply triple_bind; [apply stats_executeTimeframe_log; lia|]. intros es' uc [Huc Hl]. revert uc Huc. apply IH. lia.
Qed.

Lemma stats_Execute_log req uc uc' r :
  (length (timeframes uc) ≤ 9)%nat → log [] uc → Execute clk req uc = (uc', inr r) → log (resp_Closed r) uc'.
Proof.
  intros Htf Huc. unfold Execute. intros H. inv_ok H.
  match goal with Hl : executeLoop _ _ _ _ _ = _ |- _ =>
    eapply (triple_run (log [])) in Hl; [exact Hl|apply stats_executeLoop_log; cbn [length]; lia|done] end.
Qed.
End emission.

(** ** The list of timeframes never changes *)

Lemma onWindows_tfs {A} (m : Meth (Cells StatsKey StatsWindowV1) Problem A) : keeps timeframes (onWindows m).
Proof. intros uc. unfold onWindows. by destruct (m (windows uc)). Qed.
Lemma callPort_tfs answer call : keeps timeframes (callPort answer call).
Proof. done. Qed.

Ltac keeps_tfs := repeat first [apply onWindows_tfs | apply callPort_tfs | progress solve_keeps | progress cbn zeta].

Lemma persist_tfs w : keeps timeframes (persistClosedStats w).
Proof. unfold persistClosedStats. keeps_tfs. Qed.
Lemma closeIf_tfs k ws dur : keeps timeframes (closeIfWindowChanged clk k ws dur).
Proof. pose proof persist_tfs. unfold closeIfWindowChanged. keeps_tfs; auto. Qed.
Lemma forceClose_tfs f : keeps timeframes (forceCloseWindow clk f).
Proof. pose proof persist_tfs. unfold forceCloseWindow. keeps_tfs; auto. Qed.
Lemma getOrCreate_tfs k ws dur : keeps timeframes (getOrCreateWindow clk k ws dur).
Proof. unfold getOrCreateWindow. keeps_tfs. Qed.
Lemma observe_tfs k ts dur : keeps timeframes (observeWindow clk k ts dur).
Proof. pose proof forceClose_tfs. unfold observeWindow. keeps_tfs; auto. Qed.
Lemma executeTimeframe_tfs req tf es : keeps timeframes (executeTimeframe clk req tf es).
Proof.
  pose proof observe_tfs. pose proof closeIf_tfs. pose proof getOrCreate_tfs. unfold executeTimeframe. keeps_tfs; auto.
Qed.
Lemma Execute_tfs req : keeps timeframes (Execute clk req).
Proof.
  assert (∀ tfs es, keeps timeframes (executeLoop clk req tfs es)) as Hloop.
  { induction tfs as [|tf tfs IH]; intros es; cbn [executeLoop]; [apply keeps_ret|].
    apply keeps_bind; [apply executeTimeframe_tfs|done]. }
  unfold Execute. keeps_tfs; auto.
Qed.

(** The states reached by a sequence of requests, successful or not. *)
Definition runRequests (reqs : list BuildStatsRequest) (uc : BuildStatsFromEvents) : BuildStatsFromEvents :=
  foldl (λ uc req, (Execute clk req uc).1) uc reqs.
Lemma runRequests_tfs reqs : ∀ uc, timeframes (runRequests reqs uc) = timeframes uc.
Proof. unfold runRequests. induction reqs as [|req reqs IH]; intros uc; cbn; [done|]. rewrite IH. apply Execute_tfs. Qed.

(** A stats request returns exactly what it emitted. Whatever requests came
    before, the port calls of a successful request are, for each window it
    returns and in that order, one successful save and one successful publication
    (as configured): the buffer of eighteen entries never drops an emitted
    window, and every returned window is closed and has had input. *)
Theorem stats_Execute_emits_what_it_returns pub st cfg reqs req uc' r :
  let uc := runRequests reqs (NewBuildStatsFromEvents clk pub st cfg) in
  Execute clk req uc = (uc', inr r) →
  portCalls uc' = portCalls uc ++ emitted (store uc) (publisher uc) (resp_Closed r) ∧
  Forall (λ e, sealed (closed_stats e)) (resp_Closed r).
Proof.
  intros uc Hrun. destruct (stats_Execute_log (store uc) (publisher uc) (portCalls uc) req uc uc' r) as (Hcalls & _ & _ & Hall).
  - unfold uc. by rewrite runRequests_tfs.
  - unfold logged. cbn. by rewrite app_nil_r.
  - done.
  - done.
Qed.
End claims.

(** ** Witnesses *)

Definition okPorts : StatsPorts := {| SaveStats _ _ := None; PublishStatsClosed _ _ := None |}.
Definition tick (n : nat) : Z := Z.of_nat n.
Definition w_cfg : BuildStatsConfig := MkBuildStatsConfig 64 0 0 0 None.
Definition w_mark (seq ts : Z) : BuildStatsRequest :=
  MkBuildStatsRequest "binance" "BTC-USDT" StatsInputMarkPrice seq ts "" f0 (f_of_Z 100) f0.
Definition w_new : BuildStatsFromEvents := NewBuildStatsFromEvents tick true true w_cfg.

Lemma stats_Execute_emits_what_it_returns_witness :
  ∃ uc' r, Execute (GR:=go_amd64) (ports:=okPorts) tick (w_mark 2 6200)
      (runRequests (GR:=go_amd64) (ports:=okPorts) tick [w_mark 1 1200] w_new) = (uc', inr r) ∧
    length (resp_Closed r) = 2%nat ∧ portCalls uc' = emitted true true (resp_Closed r).
Proof.
  destruct (observed_run (λ _ r, length (resp_Closed r)) (Execute (GR:=go_amd64) (ports:=okPorts) tick (w_mark 2 6200)
    (runRequests (GR:=go_amd64) (ports:=okPorts) tick [w_mark 1 1200] w_new)) 2%nat) as (uc' & r & Hrun & Hlen);
    [vm_compute; reflexivity|].
  exists uc', r. split; [exact Hrun|]. split; [exact Hlen|].
  apply (stats_Execute_emits_what_it_returns (GR:=go_amd64) (ports:=okPorts) tick true true w_cfg
    [w_mark 1 1200] _ _ _ Hrun).
Defined.

(** ** A failed request stays half applied *)

(** The window of a timeframe of BTC-USDT, if it is in the map. *)
Definition windowOf (timeframe : string) (uc : BuildStatsFromEvents) : option StatsWindowV1 :=
  e ← items (cmap (windows uc)) !! MkStatsKey "BINANCE" "BTCUSDT" timeframe;
  heap (windows uc) !! value e.

(** A stats request is not atomic. The sequence is checked by each window in
    turn: after a mark price with sequence 5 in one second, a mark price with
    sequence 4 in the next second fails with OutOfOrder, but only at the 5s
    window; the 1s window that had just been rolled has already absorbed it. *)
Theorem stats_request_is_not_atomic :
  let uc := runRequests (GR:=go_amd64) (ports:=okPorts) tick [w_mark 5 1200] w_new in
  ∃ uc' p w1 w5, Execute (GR:=go_amd64) (ports:=okPorts) tick (w_mark 4 2200) uc = (uc', inl p) ∧ Code p = OutOfOrder ∧
    windowOf "1s" uc' = Some w1 ∧ WindowStartTs w1 = 2000 ∧ markPriceSamples w1 = 1 ∧ seqGroup w1 = (4, 4) ∧
    windowOf "5s" uc' = Some w5 ∧ markPriceSamples w5 = 1 ∧ seqGroup w5 = (5, 5).
Proof.
  cbn zeta. destruct (observed_err_run (λ uc p, (Code p,
    (λ w, (WindowStartTs w, markPriceSamples w, seqGroup w)) <$> windowOf "1s" uc,
    (λ w, (markPriceSamples w, seqGroup w)) <$> windowOf "5s" uc))
    (Execute (GR:=go_amd64) (ports:=okPorts) tick (w_mark 4 2200)
      (runRequests (GR:=go_amd64) (ports:=okPorts) tick [w_mark 5 1200] w_new))
    (OutOfOrder, Some (2000, 1, (4, 4)), Some (1, (5, 5)))) as (uc' & p & Hrun & Hobs);
    [vm_compute; reflexivity|].
  destruct (windowOf "1s" uc') as [w1|] eqn:H1, (windowOf "5s" uc') as [w5|] eqn:H5; try discriminate Hobs.
  injection Hobs as Hc ? ? ? ? ? ?. exists uc', p, w1, w5. unfold seqGroup. split_and!; congruence.
Qed.
