(* ===== verification/BuildTape.v ===== *)
(** * BuildTape: internal/core/aggregation/app/build_tape.go and the tape
      projections of domain/analytics_primitives.go

    The use case that folds trades into tape windows of 250ms, 1s and 5s, and
    derives delta volume, cumulative volume delta (CVD) and bar statistics from
    each closed window. The windows live behind pointers ([Cells]); the CVD state
    is a second bounded map of floats on the same clock. Stores and publisher are
    one family of ports ([TapePorts]) answering from the history of calls. *)

From S2P Require Import Prelude GoRuntime Shared BoundedMap Cells Candle Watermark BuildCandle Tape.

Local Open Scope string_scope.
Local Open Scope list_scope.
Local Open Scope Z_scope.

#[export] Instance TapeKey_eq_dec : EqDecision TapeKey.
Proof. solve_decision. Defined.
#[export] Instance TapeKey_countable : Countable TapeKey :=
  inj_countable' (λ k, (tkey_Venue k, tkey_Instrument k, tkey_Timeframe k))
    (λ t, MkTapeKey t.1.1 t.1.2 t.2) (λ k, match k with MkTapeKey _ _ _ => eq_refl end).

(** ** analytics_primitives.go *)

Record DeltaVolumeWindowV1 := MkDeltaVolumeWindow {
  dv_Venue : string; dv_Instrument : string; dv_Timeframe : string;
  dv_WindowStartTs : Z; dv_WindowEndTs : Z;
  dv_BuyVolume : float64; dv_SellVolume : float64; DeltaVolume : float64;
  dv_Seq : Z; dv_TsIngestMs : Z;
}.

Record CVDWindowV1 := MkCVDWindow {
  cvd_Venue : string; cvd_Instrument : string; cvd_Timeframe : string;
  cvd_WindowStartTs : Z; cvd_WindowEndTs : Z;
  cvd_DeltaVolume : float64; CVD : float64;
  cvd_Seq : Z; cvd_TsIngestMs : Z;
}.

Record BarStatsWindowV1 := MkBarStatsWindow {
  bs_Venue : string; bs_Instrument : string; bs_Timeframe : string;
  bs_WindowStartTs : Z; bs_WindowEndTs : Z;
  bs_TradeCount : Z; bs_BuyCount : Z; bs_SellCount : Z;
  bs_TotalVolume : float64; bs_BuyVolume : float64; bs_SellVolume : float64;
  bs_VwapPrice : float64; bs_LastPrice : float64; bs_MaxPrice : float64; bs_MinPrice : float64;
  bs_Imbalance : float64; bs_IsBurst : bool;
  bs_Seq : Z; bs_TsIngestMs : Z;
}.

Definition NewDeltaVolumeWindowV1 (win : TapeWindowV1) : DeltaVolumeWindowV1 :=
  MkDeltaVolumeWindow (Venue win) (Instrument win) (Timeframe win) (WindowStartTs win) (WindowEndTs win)
    (BuyVolume win) (SellVolume win) (fsub (BuyVolume win) (SellVolume win)) (LastSeq win) (WindowEndTs win).

Definition NewCVDWindowV1 (delta : DeltaVolumeWindowV1) (cvd : float64) : CVDWindowV1 :=
  MkCVDWindow (dv_Venue delta) (dv_Instrument delta) (dv_Timeframe delta) (dv_WindowStartTs delta)
    (dv_WindowEndTs delta) (DeltaVolume delta) cvd (dv_Seq delta) (dv_TsIngestMs delta).

Definition NewBarStatsWindowV1 (win : TapeWindowV1) (isBurst : bool) : BarStatsWindowV1 :=
  MkBarStatsWindow (Venue win) (Instrument win) (Timeframe win) (WindowStartTs win) (WindowEndTs win)
    (TradeCount win) (BuyCount win) (SellCount win) (TotalVolume win) (BuyVolume win) (SellVolume win)
    (VwapPrice win) (LastPrice win) (MaxPrice win) (MinPrice win) (Imbalance win) isBurst
    (LastSeq win) (WindowEndTs win).

(** ** build_tape.go *)

Definition defaultTapeBurstThresholds : gmap string Z := list_to_map [("250ms", 25); ("1s", 80); ("5s", 300)].

Record BuildTapeConfig := MkBuildTapeConfig {
  MaxTapeWindows : Z;
  TapeWindowCap : Z;
  TapeWindowTTL : Z;
  TapeLateTolerance : Z;
  TapeWindowDuration : option (gmap string Z);
  BurstThreshold : gmap string Z;
}.

Record BuildTapeRequest := MkBuildTapeRequest {
  req_Venue : string;
  req_Instrument : string;
  req_Price : float64;
  req_Quantity : float64;
  req_IsBuy : bool;
  req_Seq : Z;
  req_TsIngest : Z;
}.

Record TapeCloseEvent := MkTapeCloseEvent { evt_Window : TapeWindowV1; evt_IsBurst : bool }.
Record BuildTapeResponse := MkBuildTapeResponse { ClosedWindows : list TapeCloseEvent; resp_ActiveWindows : Z }.

Inductive TapeCall :=
| SaveTape (evt : TapeClosed)
| PublishTapeClosed (evt : TapeClosed)
| SaveDeltaVolume (w : DeltaVolumeWindowV1)
| PublishDeltaVolume (w : DeltaVolumeWindowV1)
| SaveCVD (w : CVDWindowV1)
| PublishCVD (w : CVDWindowV1)
| SaveBarStats (w : BarStatsWindowV1)
| PublishBarStats (w : BarStatsWindowV1).

(** A call with its answer. *)
Abbreviation TapeLog := (list (TapeCall * option Problem)).
Class TapePorts := { tapeAnswer : TapeLog → TapeCall → option Problem }.

Record BuildTapeFromTrades := MkBuildTape {
  publisher : bool;
  store : bool;
  deltaVolumeStore : bool;
  cvdStore : bool;
  barStatsStore : bool;
  windows : Cells TapeKey TapeWindowV1;
  cvdState : BoundedMap TapeKey float64;
  lifecycle : option WatermarkWindowManager;
  windowMs : gmap string Z;
  burst : gmap string Z;
  timeframes : list string;
  portCalls : TapeLog;
}.
#[export] Instance BuildTape_eta : Eta BuildTapeFromTrades := λ r,
  MkBuildTape (publisher r) (store r) (deltaVolumeStore r) (cvdStore r) (barStatsStore r) (windows r) (cvdState r)
    (lifecycle r) (windowMs r) (burst r) (timeframes r) (portCalls r).

Abbreviation TapeUC := (Meth BuildTapeFromTrades Problem).

Definition tapeDefaultDurations : gmap string Z :=
  list_to_map [("250ms", 250000000); ("1s", Second); ("5s", 5 * Second)].

Fixpoint resolveTapeLoop (config : option (gmap string Z)) (allowed : list string) (out : gmap string Z)
    : Problem + gmap string Z :=
  match allowed with
  | [] => inr out
  | timeframe :: rest =>
      let dur := default 0 (tapeDefaultDurations !! timeframe) in
      let dur := match config with
                 | Some config => default dur (config !! timeframe)
                 | None => dur
                 end in
      if dur <=? 0 then
        inl (Newf ValidationFailed "window duration must be > 0 for timeframe=%s" [AnyStr timeframe])
      else resolveTapeLoop config rest (<[timeframe := Milliseconds dur]> out)
  end.
Definition resolveTapeWindowDurations (config : option (gmap string Z)) : Problem + gmap string Z :=
  resolveTapeLoop config AllowedTapeTimeframes ∅.

Section build_tape.
Context {GR : GoRuntime} {ports : TapePorts} (clk : nat → Z).

Definition NewBuildTapeFromTrades (pub store dvStore cvdStore bsStore : bool) (cfg : BuildTapeConfig)
    : BuildTapeFromTrades :=
  let maxWindows := if MaxTapeWindows cfg <=? 0 then 50000 else MaxTapeWindows cfg in
  let windowTTL := if TapeWindowTTL cfg <=? 0 then Hour else TapeWindowTTL cfg in
  let windowCap := if TapeWindowCap cfg <=? 0 then 96 else TapeWindowCap cfg in
  let lateTolerance := if TapeLateTolerance cfg <=? 0 then 30 * Second else TapeLateTolerance cfg in
  let windowMs := match resolveTapeWindowDurations (TapeWindowDuration cfg) with
    | inr ms => ms
    | inl _ => default ∅ (ok_of (resolveTapeWindowDurations None))
    end in
  let windows := newCells clk maxWindows windowTTL in
  let windows := windows <| cmap ::= SetSweepEveryOps 1024 |> <| cmap ::= SetSweepMinInterval Second |> in
  let cvdState := NewBoundedMap maxWindows windowTTL (clk (reads windows)) in
  let windows := windows <| reads ::= S |> in
  let cvdState := SetSweepMinInterval Second (SetSweepEveryOps 1024 cvdState) in
  let lifecycle := match NewWatermarkWindowManager (MkWatermarkConfig windowCap (Milliseconds lateTolerance)) with
    | inr w => Some w
    | inl _ => ok_of (NewWatermarkWindowManager (MkWatermarkConfig 96 30000))
    end in
  let burst := filter (λ kv, 0 ≤ kv.2) (BurstThreshold cfg) ∪ defaultTapeBurstThresholds in
  MkBuildTape pub store dvStore cvdStore bsStore windows cvdState lifecycle windowMs burst ["250ms"; "1s"; "5s"] [].

Definition onWindows {A} (m : Meth (Cells TapeKey TapeWindowV1) Problem A) : TapeUC A := λ uc,
  let '(c, r) := m (windows uc) in (uc <| windows := c |>, r).

(** [uc.windowMs[timeframe]] *)
Definition durationOf (uc : BuildTapeFromTrades) (timeframe : string) : Z := default 0 (windowMs uc !! timeframe).

Definition callPort (call : TapeCall) : TapeUC unit := λ uc,
  let r := tapeAnswer (portCalls uc) call in
  (uc <| portCalls ::= λ l, l ++ [(call, r)] |>, match r with Some p => inl p | None => inr tt end).
(** [if s != nil { if p := s.Call(...); p != nil { return p } }] *)
Definition callIf (present : bool) (call : TapeCall) : TapeUC unit := if present then callPort call else mret tt.

Definition cvdGet (key : TapeKey) : TapeUC (option float64) := λ uc,
  let '(m, r, _) := Get key (clk (reads (windows uc))) (cvdState uc) in
  (uc <| cvdState := m |> <| windows ::= λ c, c <| reads ::= S |> |>, inr r).
Definition cvdPut (key : TapeKey) (v : float64) : TapeUC unit := λ uc,
  let '(m, _) := Put key v (clk (reads (windows uc))) (cvdState uc) in
  (uc <| cvdState := m |> <| windows ::= λ c, c <| reads ::= S |> |>, inr tt).

Definition publishDerivedAnalytics (evt : TapeClosed) : TapeUC unit :=
  uc ← recv;
  if negb (publisher uc) then mret tt else
  let win := closed_window evt in
  let delta := NewDeltaVolumeWindowV1 win in
  callIf (deltaVolumeStore uc) (SaveDeltaVolume delta) ;;
  callPort (PublishDeltaVolume delta) ;;
  let key := MkTapeKey (Venue win) (Instrument win) (Timeframe win) in
  prev ← cvdGet key;
  let nextCVD := match prev with Some prev => fadd (DeltaVolume delta) prev | None => DeltaVolume delta end in
  cvdPut key nextCVD ;;
  let cvd := NewCVDWindowV1 delta nextCVD in
  callIf (cvdStore uc) (SaveCVD cvd) ;;
  callPort (PublishCVD cvd) ;;
  let barStats := NewBarStatsWindowV1 win (closed_burst evt) in
  callIf (barStatsStore uc) (SaveBarStats barStats) ;;
  callPort (PublishBarStats barStats).

Definition persistClosedWindow (win : TapeWindowV1) : TapeUC TapeCloseEvent :=
  uc ← recv;
  let threshold := default 0 (burst uc !! Timeframe win) in
  let evt := NewTapeClosed win (IsBurst win threshold) in
  callIf (store uc) (SaveTape evt) ;;
  (if publisher uc then callPort (PublishTapeClosed evt) ;; publishDerivedAnalytics evt else mret tt) ;;
  mret (MkTapeCloseEvent (closed_window evt) (closed_burst evt)).

Definition validateRequest (req : BuildTapeRequest) : option Problem :=
  match Collect [NonEmptyString "venue" (req_Venue req); NonEmptyString "instrument" (req_Instrument req);
                 PositiveInt "seq" (req_Seq req); PositiveInt "ts_ingest" (req_TsIngest req)] with
  | Some p => Some p
  | None =>
      if isNaN (req_Price req) || isInf (req_Price req) || fleb (req_Price req) f0 then
        Some (New ValidationFailed "price must be a positive finite number")
      else if isNaN (req_Quantity req) || isInf (req_Quantity req) || fleb (req_Quantity req) f0 then
        Some (New ValidationFailed "quantity must be a positive finite number")
      else None
  end.

Definition closeIfWindowChanged (key : TapeKey) (windowStart windowDurationMs : Z) : TapeUC (option TapeCloseEvent) :=
  found ← onWindows (cellGet clk key);
  match found with
  | None => mret None
  | Some existing =>
      w ← onWindows (load existing);
      if WindowStartTs w =? windowStart then mret None else
      onWindows (callAt existing (Close (add64 (WindowStartTs w) windowDurationMs))) ;;
      closedNow ← onWindows (load existing);
      closed ← persistClosedWindow closedNow;
      onWindows (cellDelete clk key) ;;
      mret (Some closed)
  end.

Definition getOrCreateWindow (key : TapeKey) (windowStart : Z) : TapeUC Z :=
  found ← onWindows (cellGet clk key);
  match found with
  | Some a =>
      w ← onWindows (load a);
      fail_if (negb (WindowStartTs w =? windowStart))
        (New IntegrityViolation "tape window mismatch after window roll") ;;
      mret a
  | None =>
      w ← try_ (NewTapeWindowV1 (tkey_Venue key) (tkey_Instrument key) (tkey_Timeframe key) windowStart);
      a ← onWindows (alloc w);
      onWindows (cellPut clk key a) ;;
      mret a
  end.

Definition forceCloseWindow (forced : ForcedWindowClose) : TapeUC (option TapeCloseEvent) :=
  let fk := forced_Key forced in
  let key := MkTapeKey (wk_Venue fk) (wk_Instrument fk) (wk_Timeframe fk) in
  found ← onWindows (cellGet clk key);
  match found with
  | None => mret None
  | Some existing =>
      w ← onWindows (load existing);
      if negb (WindowStartTs w =? forced_WindowStart forced) then mret None else
      uc ← recv;
      let windowDurationMs := durationOf uc (tkey_Timeframe key) in
      fail_if (windowDurationMs <=? 0)
        (Newf ValidationFailed "window duration must be > 0 for timeframe=%s" [AnyStr (tkey_Timeframe key)]) ;;
      onWindows (callAt existing (Close (add64 (WindowStartTs w) windowDurationMs))) ;;
      closedNow ← onWindows (load existing);
      evt ← persistClosedWindow closedNow;
      onWindows (cellDelete clk key) ;;
      mret (Some evt)
  end.

(** [domain.WindowKey(key)] *)
Definition windowKey (key : TapeKey) : WindowKey :=
  MkWindowKey (tkey_Venue key) (tkey_Instrument key) (tkey_Timeframe key).

Definition observeWindow (key : TapeKey) (eventTsMs windowDurationMs : Z)
    : TapeUC (WindowDecision * option TapeCloseEvent) :=
  uc ← recv;
  match lifecycle uc with
  | None => mret (MkDecision (bucketStart eventTsMs windowDurationMs) false 0 false None, None)
  | Some w =>
      let '(w', r) := Observe (windowKey key) eventTsMs windowDurationMs w in
      assign (λ uc, uc <| lifecycle := Some w' |>) ;;
      decision ← try_ r;
      match ForcedClose decision with
      | None => mret (decision, None)
      | Some forced =>
          forcedClosed ← forceCloseWindow forced;
          mret (decision, forcedClosed)
      end
  end.

(** The body of the loop of [Execute]: one timeframe. *)
Definition executeTimeframe (req : BuildTapeRequest) (timeframe : string) (closed : list TapeCloseEvent)
    : TapeUC (list TapeCloseEvent) :=
  let key := MkTapeKey (CanonicalVenue (req_Venue req)) (CanonicalInstrument (req_Instrument req)) timeframe in
  uc ← recv;
  let windowDurationMs := durationOf uc timeframe in
  observed ← observeWindow key (req_TsIngest req) windowDurationMs;
  let '(decision, forcedClosed) := observed in
  let closed := closed ++ optList forcedClosed in
  if IsLate decision then mret closed else
  let windowStart := WindowStart decision in
  closedEvt ← closeIfWindowChanged key windowStart windowDurationMs;
  let closed := closed ++ optList closedEvt in
  win ← getOrCreateWindow key windowStart;
  onWindows (callAt win (ApplyTrade (req_Price req) (req_Quantity req) (req_IsBuy req) (req_Seq req))) ;;
  onWindows (cellPut clk key win) ;;
  mret closed.

Fixpoint executeLoop (req : BuildTapeRequest) (tfs : list string) (closed : list TapeCloseEvent)
    : TapeUC (list TapeCloseEvent) :=
  match tfs with
  | [] => mret closed
  | timeframe :: rest => closed ← executeTimeframe req timeframe closed; executeLoop req rest closed
  end.

Definition Execute (req : BuildTapeRequest) : TapeUC BuildTapeResponse :=
  check (validateRequest req) ;;
  uc ← recv;
  closed ← executeLoop req (timeframes uc) [];
  uc ← recv;
  mret (MkBuildTapeResponse closed (cellLen (windows uc))).

Definition ActiveWindows (uc : BuildTapeFromTrades) : Z := cellLen (windows uc).
End build_tape.
