(* ===== verification/BuildTapeSpec.v ===== *)
(** * BuildTapeSpec: what BuildTapeFromTrades promises

    A successful request has made, for each window it returns and in order, the
    tape call and then the derived delta-volume, CVD and bar-statistics calls;
    and over any history the CVD values that reach the ports accumulate the
    deltas of their instrument and timeframe. *)

From S2P Require Import Prelude GoRuntime Shared BoundedMap Cells Candle Watermark BuildCandle Tape TapeSpec BuildTape.

Local Open Scope string_scope.
Local Open Scope list_scope.
Local Open Scope Z_scope.

(** The destinations a use case is wired to. *)
Record wiring := MkWiring { w_pub : bool; w_store : bool; w_dv : bool; w_cvd : bool; w_bs : bool }.
Definition wiringOf (uc : BuildTapeFromTrades) : wiring :=
  MkWiring (publisher uc) (store uc) (deltaVolumeStore uc) (cvdStore uc) (barStatsStore uc).

Definition tapeKeyOf (w : TapeWindowV1) : TapeKey := MkTapeKey (Venue w) (Instrument w) (Timeframe w).

Definition call1 (present : bool) (c : TapeCall) : TapeLog := if present then [(c, None)] else [].

(** The calls for one closed window whose CVD is [cvd]. *)
Definition tapeCalls (W : wiring) (x : TapeCloseEvent * float64) : TapeLog :=
  let evt := NewTapeClosed (evt_Window x.1) (evt_IsBurst x.1) in
  let delta := NewDeltaVolumeWindowV1 (evt_Window x.1) in
  let cvd := NewCVDWindowV1 delta x.2 in
  let bar := NewBarStatsWindowV1 (evt_Window x.1) (evt_IsBurst x.1) in
  call1 (w_store W) (SaveTape evt) ++
  (if w_pub W then
     [(PublishTapeClosed evt, None)] ++
     call1 (w_dv W) (SaveDeltaVolume delta) ++ [(PublishDeltaVolume delta, None)] ++
     call1 (w_cvd W) (SaveCVD cvd) ++ [(PublishCVD cvd, None)] ++
     call1 (w_bs W) (SaveBarStats bar) ++ [(PublishBarStats bar, None)]
   else []).

(** The CVD window a call carries, and the last CVD of a key in a log. *)
Definition cvdOf (c : TapeCall) : option CVDWindowV1 :=
  match c with SaveCVD w | PublishCVD w => Some w | _ => None end.
Definition cvdKey (w : CVDWindowV1) : TapeKey := MkTapeKey (cvd_Venue w) (cvd_Instrument w) (cvd_Timeframe w).
Definition lastCVDStep (k : TapeKey) (acc : option float64) (x : TapeCall * option Problem) : option float64 :=
  match cvdOf x.1 with
  | Some w => if decide (cvdKey w = k) then Some (CVD w) else acc
  | None => acc
  end.
Definition lastCVD (k : TapeKey) (log : TapeLog) : option float64 := foldl (lastCVDStep k) None log.

(** After the calls [pre], the window [w] starts a CVD or adds its delta to the
    last one of its key. *)
Definition accumulates (pre : TapeLog) (w : CVDWindowV1) : Prop :=
  CVD w = cvd_DeltaVolume w ∨ ∃ v, lastCVD (cvdKey w) pre = Some v ∧ CVD w = fadd (cvd_DeltaVolume w) v.
(** A publication right after the save of the same window repeats its value. *)
Definition callChained (pre : TapeLog) (c : TapeCall) : Prop :=
  match c with
  | SaveCVD w => accumulates pre w
  | PublishCVD w => accumulates pre w ∨ ∃ pre', pre = pre' ++ [(SaveCVD w, None)] ∧ accumulates pre' w
  | _ => True
  end.
Definition chained (log : TapeLog) : Prop :=
  ∀ pre c ans post, log = pre ++ (c, ans) :: post → callChained pre c.

Lemma lastCVD_snoc k log x : lastCVD k (log ++ [x]) = lastCVDStep k (lastCVD k log) x.
Proof. unfold lastCVD. by rewrite foldl_app. Qed.
Lemma chained_nil : chained [].
Proof. intros [|] c ans post; discriminate. Qed.
Lemma chained_snoc log c r : chained log → callChained log c → chained (log ++ [(c, r)]).
Proof.
  intros Hl Hc pre c' ans post. destruct post as [|x post] using rev_ind.
  - intros [<- [= <- <-]]%app_inj_tail. done.
  - rewrite app_comm_cons, app_assoc. intros [-> _]%app_inj_tail. by eapply Hl.
Qed.

Section claims.
Context {GR : GoRuntime} {ports : TapePorts} (clk : nat → Z).

(** A window that was closed. *)
Definition sealed (w : TapeWindowV1) : Prop := IsClosed w = true ∧ WindowStartTs w < WindowEndTs w.

Lemma tape_Close_seals we w w' : Close we w = (w', inr tt) → sealed w'.
Proof.
  unfold Close, checkMutable. intros H. inv_ok H. reflect_bools.
  match goal with |- sealed (closeMetrics ?x) => destruct (closeMetrics_groups x) as (_ & _ & Hg) end.
  injection Hg as _ _ _ Hs He Hc. unfold sealed. rewrite Hs, He, Hc. cbn. split; [done|lia].
Qed.

(** The log since [h] is that of the events [es], all of closed windows. *)
Definition logged (W : wiring) (h : TapeLog) (es : list TapeCloseEvent) (uc : BuildTapeFromTrades) : Prop :=
  wiringOf uc = W ∧ Forall (λ e, sealed (evt_Window e)) es ∧
  ∃ cvds, length cvds = length es ∧ portCalls uc = h ++ (zip es cvds ≫= tapeCalls W).

Section emission.
Variables (W : wiring) (h : TapeLog).
Abbreviation log := (logged W h).
Abbreviation any := (λ _ : BuildTapeFromTrades, True).

Lemma tape_onWindows_log {A} (m : Meth (Cells TapeKey TapeWindowV1) Problem A) es :
  triple (log es) (onWindows m) (λ _, log es) any.
Proof. intros uc Huc. unfold onWindows. by destruct (m (windows uc)) as [c [p|x]]. Qed.

(** The log is exactly [g] and the wiring is [W]. *)
Definition exactly (g : TapeLog) (uc : BuildTapeFromTrades) : Prop := portCalls uc = g ∧ wiringOf uc = W.

Lemma wired uc :
  wiringOf uc = W → publisher uc = w_pub W ∧ store uc = w_store W ∧ deltaVolumeStore uc = w_dv W ∧
  cvdStore uc = w_cvd W ∧ barStatsStore uc = w_bs W.
Proof. by intros <-. Qed.

Lemma callPort_exact g c : triple (exactly g) (callPort c) (λ _, exactly (g ++ [(c, None)])) any.
Proof.
  intros uc [Hc HW]. unfold callPort. destruct (tapeAnswer (portCalls uc) c) eqn:Ha; [done|].
  split; [cbn; by rewrite Hc|done].
Qed.
Lemma callIf_exact g b c : triple (exactly g) (callIf b c) (λ _, exactly (g ++ call1 b c)) any.
Proof.
  destruct b; [apply callPort_exact|]. apply triple_ret. intros uc Huc. cbn. by rewrite app_nil_r.
Qed.
Lemma cvdGet_exact g k : triple (exactly g) (cvdGet clk k) (λ _, exactly g) any.
Proof. intros uc Huc. unfold cvdGet. by destruct (Get k _ (cvdState uc)) as [[m r] evs]. Qed.
Lemma cvdPut_exact g k v : triple (exactly g) (cvdPut clk k v) (λ _, exactly g) any.
Proof. intros uc Huc. unfold cvdPut. by destruct (Put k v _ (cvdState uc)) as [m evs]. Qed.

Lemma persist_exact g win :
  triple (exactly g) (persistClosedWindow clk win)
    (λ e uc, evt_Window e = win ∧ ∃ cvd, exactly (g ++ tapeCalls W (e, cvd)) uc) any.
Proof.
  unfold persistClosedWindow. eapply (triple_bind _ _ _ (λ uc0 uc, exactly g uc ∧ wiringOf uc0 = W));
    [by apply triple_recv; intros uc [? ?]|]. intros uc0. cbn zeta. set (evt := NewTapeClosed win _).
  intros uc [Huc HW0]. revert uc Huc. destruct (wired uc0 HW0) as (HW1 & HW2 & _). rewrite HW2, HW1.
  eapply triple_bind; [apply callIf_exact|]. intros []. destruct (w_pub W) eqn:Hpub.
  - eapply (triple_bind _ _ _ (λ _ uc, ∃ cvd, exactly (g ++ tapeCalls W (MkTapeCloseEvent win (closed_burst evt), cvd)) uc)).
    2: { intros []. apply triple_ret. intros uc Huc. done. }
    eapply triple_bind; [apply callPort_exact|]. intros []. unfold publishDerivedAnalytics.
    eapply (triple_bind _ _ _ (λ uc1 uc, exactly _ uc ∧ wiringOf uc1 = W)); [by apply triple_recv; intros uc [? ?]|].
    intros uc1 uc [Huc HW1']. revert uc Huc. destruct (wired uc1 HW1') as (HV1 & _ & HV3 & HV4 & HV5). rewrite HV1, HV3, HV4, HV5, Hpub. cbn zeta.
    eapply triple_bind; [apply callIf_exact|]. intros []. eapply triple_bind; [apply callPort_exact|]. intros [].
    eapply triple_bind; [apply cvdGet_exact|]. intros prev. set (next := match prev with Some _ => _ | None => _ end).
    eapply triple_bind; [apply cvdPut_exact|]. intros []. eapply triple_bind; [apply callIf_exact|]. intros [].
    eapply triple_bind; [apply callPort_exact|]. intros []. eapply triple_bind; [apply callIf_exact|]. intros [].
    eapply triple_conseq; [apply callPort_exact|done| |done]. intros [] uc Huc. exists next.
    unfold tapeCalls. rewrite Hpub. cbn [fst snd evt_Window evt_IsBurst]. by rewrite <- !app_assoc in Huc.
  - eapply (triple_bind _ _ _ (λ _, exactly _)); [by apply triple_ret|]. intros []. apply triple_ret. intros uc Huc.
    split; [done|]. exists f0. unfold tapeCalls. by rewrite Hpub, app_nil_r.
Qed.

Lemma tape_persist_log win es :
  sealed win → triple (log es) (persistClosedWindow clk win) (λ e, log (es ++ [e])) any.
Proof.
  intros Hs uc (HW & Hall & cvds & Hlen & Hlog).
  pose proof (persist_exact (portCalls uc) win uc (conj eq_refl HW)) as H.
  destruct (persistClosedWindow clk win uc) as [uc' [p|e]]; [done|]. destruct H as (Hwin & cvd & Hlog' & HW').
  split; [done|]. split; [apply Forall_app; split; [done|]; apply Forall_singleton; by rewrite Hwin|].
  exists (cvds ++ [cvd]). rewrite !length_app, Hlen. split; [done|].
  rewrite Hlog', Hlog, zip_with_app by done. rewrite bind_app, <- app_assoc. cbn. by rewrite app_nil_r.
Qed.

(** The tail shared by a window roll and a forced close. *)
Lemma tape_closeTail_log key a we es :
  triple (log es)
    (onWindows (callAt a (Close we)) ;; closedNow ← onWindows (load a); e ← persistClosedWindow clk closedNow;
     onWindows (cellDelete clk key) ;; mret (Some e))
    (λ r, log (es ++ optList r)) any.
Proof.
  eapply (triple_bind _ _ _ (λ _ uc, log es uc ∧ ∃ v, heap (windows uc) !! a = Some v ∧ sealed v)).
  { intros uc Huc. unfold onWindows, callAt. destruct (heap (windows uc) !! a) as [v|]; [|done].
    destruct (Close we v) as [v' [p|[]]] eqn:Hc; [done|]. split; [done|]. exists v'.
    split; [apply lookup_insert_eq|]. by eapply tape_Close_seals. }
  intros []. eapply (triple_bind _ _ _ (λ v uc, log es uc ∧ sealed v)).
  { intros uc (Huc & v & Hv & Hs). unfold onWindows, load. by rewrite Hv. }
  intros v. eapply (triple_bind _ _ _ (λ e, log (es ++ [e]))); [intros uc [Huc Hv]; by apply tape_persist_log|].
  intros e. eapply triple_bind; [apply tape_onWindows_log|]. intros []. by apply triple_ret.
Qed.

Lemma tape_closeIfWindowChanged_log k ws dur es :
  triple (log es) (closeIfWindowChanged clk k ws dur) (λ r, log (es ++ optList r)) any.
Proof.
  unfold closeIfWindowChanged. eapply triple_bind; [apply tape_onWindows_log|]. intros [a|].
  2: { apply triple_ret. intros uc Huc. by rewrite app_nil_r. }
  eapply triple_bind; [apply tape_onWindows_log|]. intros c. destruct (_ =? _).
  { apply triple_ret. intros uc Huc. by rewrite app_nil_r. }
  apply tape_closeTail_log.
Qed.
Lemma tape_forceCloseWindow_log forced es :
  triple (log es) (forceCloseWindow clk forced) (λ r, log (es ++ optList r)) any.
Proof.
  unfold forceCloseWindow. eapply triple_bind; [apply tape_onWindows_log|]. intros [a|].
  2: { apply triple_ret. intros uc Huc. by rewrite app_nil_r. }
  eapply triple_bind; [apply tape_onWindows_log|]. intros c. destruct (negb _).
  { apply triple_ret. intros uc Huc. by rewrite app_nil_r. }
  eapply (triple_bind _ _ _ (λ _, log es)); [by apply triple_recv|]. intros uc1. cbn zeta.
  eapply (triple_bind _ _ _ (λ _, log es)); [by apply triple_fail_if; intros; case_match|]. intros [].
  apply tape_closeTail_log.
Qed.
Lemma tape_observeWindow_log key ts dur es :
  triple (log es) (observeWindow clk key ts dur) (λ r, log (es ++ optList r.2)) any.
Proof.
  intros uc Huc. unfold observeWindow. rewrite (bind_run _ _ uc uc uc) by done.
  destruct (lifecycle uc) as [w|]; [|cbn; by rewrite app_nil_r].
  destruct (Observe (windowKey key) ts dur w) as [w' [p|d]]; [done|].
  set (uc1 := uc <| lifecycle := Some w' |>). assert (log es uc1) as Huc1 by done.
  rewrite (bind_run _ _ uc uc1 tt) by done. rewrite (bind_run _ _ _ uc1 d) by done. clearbody uc1.
  destruct (ForcedClose d) as [f|]; [|cbn; by rewrite app_nil_r].
  pose proof (tape_forceCloseWindow_log f es uc1 Huc1) as Hf.
  unfold mbind, Meth_bind. by destruct (forceCloseWindow clk f _) as [uc2 [p|r]].
Qed.
Lemma tape_getOrCreateWindow_log k ws es : triple (log es) (getOrCreateWindow clk k ws) (λ _, log es) any.
Proof.
  unfold getOrCreateWindow. eapply triple_bind; [apply tape_onWindows_log|]. intros [a|].
  - eapply triple_bind; [apply tape_onWindows_log|]. intros c.
    eapply (triple_bind _ _ _ (λ _, log es)); [by apply triple_fail_if; intros; case_match|].
    intros []. by apply triple_ret.
  - eapply (triple_bind _ _ _ (λ _, log es)); [by apply triple_try; intros; case_match|]. intros c.
    eapply triple_bind; [apply tape_onWindows_log|]. intros a.
    eapply triple_bind; [apply tape_onWindows_log|]. intros []. by apply triple_ret.
Qed.

Lemma tape_executeTimeframe_log req tf es : triple (log es) (executeTimeframe clk req tf es) (λ es', log es') any.
Proof.
  unfold executeTimeframe. set (key := MkTapeKey _ _ _).
  eapply (triple_bind _ _ _ (λ _, log es)); [by apply triple_recv|]. intros uc0. cbn zeta.
  eapply triple_bind; [apply tape_observeWindow_log|]. intros [d f]. cbn [snd].
  destruct (IsLate d); [by apply triple_ret|].
  eapply triple_bind; [apply tape_closeIfWindowChanged_log|]. intros evt.
  eapply triple_bind; [apply tape_getOrCreateWindow_log|]. intros a.
  eapply triple_bind; [apply tape_onWindows_log|]. intros [].
  eapply triple_bind; [apply tape_onWindows_log|]. intros []. by apply triple_ret.
Qed.
Lemma tape_executeLoop_log req tfs : ∀ es, triple (log es) (executeLoop clk req tfs es) (λ es', log es') any.
Proof.
  induction tfs as [|tf tfs IH]; intros es; cbn [executeLoop]; [by apply triple_ret|].
  eapply triple_bind; [apply tape_executeTimeframe_log|]. intros es'. apply IH.
Qed.
End emission.

(** A tape request emits, in order, exactly what it returns. When a request
    succeeds, the port calls it made are, for each window it returns and in that
    order: the tape window itself, its delta volume, its CVD and its bar
    statistics, each saved before it is published, all answered without error;
    every returned window is closed and non-empty in time. *)
Theorem tape_Execute_emits_what_it_returns req uc uc' r :
  Execute clk req uc = (uc', inr r) →
  Forall (λ e, sealed (evt_Window e)) (ClosedWindows r) ∧
  ∃ cvds, length cvds = length (ClosedWindows r) ∧
    portCalls uc' = portCalls uc ++ (zip (ClosedWindows r) cvds ≫= tapeCalls (wiringOf uc)).
Proof.
  unfold Execute. intros H. inv_ok H.
  assert (logged (wiringOf uc) (portCalls uc) [] uc) as Hstart.
  { split; [done|]. split; [apply Forall_nil_2|]. exists []. split; [done|]. cbn. by rewrite app_nil_r. }
  match goal with Hl : executeLoop _ _ _ _ _ = _ |- _ =>
    destruct (triple_run _ _ _ _ _ _ _ (tape_executeLoop_log _ _ _ _ _) Hstart Hl) as (_ & Hall & Hcvds) end. done.
Qed.
(** ** Cumulative volume delta *)

(** The CVD state is a well-formed map, and holds for each key the last CVD that
    reached a port. *)
Definition cvdInv (uc : BuildTapeFromTrades) : Prop :=
  (∃ l, rep (cvdState uc) l) ∧ chained (portCalls uc) ∧
  ∀ k e, items (cvdState uc) !! k = Some e → lastCVD k (portCalls uc) = Some (value e).

(** The state already holds the CVD of [w], which no port has seen yet, or only
    its save. *)
Definition pending (w : CVDWindowV1) (uc : BuildTapeFromTrades) : Prop :=
  (∃ l, rep (cvdState uc) l) ∧ chained (portCalls uc) ∧ callChained (portCalls uc) (PublishCVD w) ∧
  ∀ k e, items (cvdState uc) !! k = Some e →
    if decide (cvdKey w = k) then value e = CVD w else lastCVD k (portCalls uc) = Some (value e).

Lemma lastCVD_call k uc c r :
  lastCVD k (portCalls (uc <| portCalls ::= λ l, l ++ [(c, r)] |>)) =
  match cvdOf c with
  | Some w => if decide (cvdKey w = k) then Some (CVD w) else lastCVD k (portCalls uc)
  | None => lastCVD k (portCalls uc)
  end.
Proof. exact (lastCVD_snoc k (portCalls uc) (c, r)). Qed.

Lemma call_keeps c : cvdOf c = None → triple cvdInv (callPort c) (λ _, cvdInv) cvdInv.
Proof.
  intros Hc uc (Hr & Hch & Hl). unfold callPort.
  assert (cvdInv (uc <| portCalls ::= λ l, l ++ [(c, tapeAnswer (portCalls uc) c)] |>)) as Hinv.
  { split_and!; [done| |].
    - apply chained_snoc; [done|]. by destruct c.
    - intros k e Hk. rewrite lastCVD_call, Hc. by apply Hl. }
  by destruct (tapeAnswer (portCalls uc) c).
Qed.
Lemma callIf_keeps b c : cvdOf c = None → triple cvdInv (callIf b c) (λ _, cvdInv) cvdInv.
Proof. intros Hc. destruct b; [by apply call_keeps|by apply triple_ret]. Qed.

(** Logging a call that carries the pending CVD settles it. *)
Lemma pending_logged w c uc r :
  cvdOf c = Some w → callChained (portCalls uc) c → pending w uc → cvdInv (uc <| portCalls ::= λ l, l ++ [(c, r)] |>).
Proof.
  intros Hc Hcc (Hr & Hch & _ & Hl). split_and!; [done|by apply chained_snoc|].
  intros k e Hk. rewrite lastCVD_call, Hc. specialize (Hl k e Hk).
  case_decide; [by rewrite Hl|done].
Qed.

Lemma publishCVD_settles w : triple (pending w) (callPort (PublishCVD w)) (λ _, cvdInv) cvdInv.
Proof.
  intros uc Hp. unfold callPort. pose proof Hp as (_ & _ & Hcc & _).
  pose proof (pending_logged w (PublishCVD w) uc (tapeAnswer (portCalls uc) (PublishCVD w)) eq_refl Hcc Hp).
  by destruct (tapeAnswer (portCalls uc) (PublishCVD w)).
Qed.

Lemma saveCVD_pending b w :
  triple (λ uc, pending w uc ∧ accumulates (portCalls uc) w) (callIf b (SaveCVD w)) (λ _, pending w) cvdInv.
Proof.
  destruct b; [|by apply triple_ret; intros uc [? _]]. intros uc [Hp Hacc]. unfold callIf, callPort.
  pose proof (pending_logged w (SaveCVD w) uc (tapeAnswer (portCalls uc) (SaveCVD w)) eq_refl Hacc Hp) as Hinv.
  destruct (tapeAnswer (portCalls uc) (SaveCVD w)) as [p|] eqn:Hans; [done|].
  destruct Hinv as (Hr & Hch & Hl). split_and!; [done|done| |].
  - right. by exists (portCalls uc).
  - intros k e Hk. specialize (Hl k e Hk). case_decide as Hkey; [|done].
    rewrite lastCVD_call in Hl. cbn [cvdOf] in Hl. rewrite decide_True in Hl by done. by injection Hl.
Qed.

Lemma entries_sub (m m' : BoundedMap TapeKey float64) l l' k e :
  rep m l → rep m' l' → fewer l' l → items m' !! k = Some e → items m !! k = Some e.
Proof.
  intros [_ Hi Hnd _ _] [_ Hi' Hnd' _ _] Hf. rewrite Hi, Hi', !as_map_lookup by done. intros Hin. by eapply elem_of_submseteq.
Qed.

Lemma cvdGet_keeps k :
  triple cvdInv (cvdGet clk k)
    (λ r uc, cvdInv uc ∧ ∀ v, r = Some v → lastCVD k (portCalls uc) = Some v) cvdInv.
Proof.
  intros uc ([l Hl] & Hch & Hlast). unfold cvdGet.
  destruct (Get_entries (cvdState uc) l k (clk (reads (windows uc))) Hl) as (m' & r & evs & l' & -> & Hl' & Hf & Hr).
  split.
  - split_and!; [by exists l'|done|]. intros k' e Hk'. apply Hlast. by eapply entries_sub.
  - intros v (e & He & <-)%Hr. apply Hlast. by destruct Hl as [_ -> _ _ _].
Qed.

Lemma cvdPut_pending w v :
  CVD w = v →
  triple (λ uc, cvdInv uc ∧ accumulates (portCalls uc) w) (cvdPut clk (cvdKey w) v)
    (λ _ uc, pending w uc ∧ accumulates (portCalls uc) w) cvdInv.
Proof.
  intros Hv uc [([l Hl] & Hch & Hlast) Hacc]. unfold cvdPut.
  pose proof (Put_moves (cvdKey w) v (clk (reads (windows uc))) (cvdState uc) l Hl) as Hmv.
  destruct (spec_Put_entries (cvdState uc) l (cvdKey w) v (clk (reads (windows uc))) Hl) as [Hin Hf]. cbn zeta in *.
  destruct (Put (cvdKey w) v (clk (reads (windows uc))) (cvdState uc)) as [m' evs]. destruct Hmv as [Hr' _ _].
  set (l' := spec_Put (cvdState uc) (cvdKey w) v (clk (reads (windows uc))) l) in *. clearbody l'.
  split; [|done]. pose proof Hl as [_ Hi Hnd _ _]. pose proof Hr' as [_ Hi' Hnd' _ _].
  split_and!; [by exists l'|done|by left|]. intros k e Hk. change (items m' !! k = Some e) in Hk.
  rewrite Hi' in Hk. case_decide as Hkey.
  - subst k. apply as_map_lookup in Hin; [|done]. rewrite Hin in Hk. injection Hk as <-. done.
  - apply as_map_lookup in Hk; [|done]. eapply elem_of_submseteq in Hk; [|exact Hf].
    apply elem_of_cons in Hk as [[= -> _]|Hk]; [done|]. apply Hlast. rewrite Hi. apply as_map_lookup; [done|].
    unfold drop_key in Hk. by apply list_elem_of_filter in Hk as [_ ?].
Qed.

Lemma publishDerived_keeps evt : triple cvdInv (publishDerivedAnalytics clk evt) (λ _, cvdInv) cvdInv.
Proof.
  unfold publishDerivedAnalytics. eapply (triple_bind _ _ _ (λ _, cvdInv)); [by apply triple_recv|]. intros uc0.
  destruct (negb _); [by apply triple_ret|]. cbn zeta. set (win := closed_window evt). set (delta := NewDeltaVolumeWindowV1 win).
  eapply triple_bind; [by apply callIf_keeps|]. intros []. eapply triple_bind; [by apply call_keeps|]. intros [].
  eapply triple_bind; [apply cvdGet_keeps|]. intros prev.
  set (next := match prev with Some _ => _ | None => _ end). set (w := NewCVDWindowV1 delta next).
  eapply (triple_bind _ _ _ (λ _ uc, pending w uc ∧ accumulates (portCalls uc) w)).
  { eapply triple_conseq; [by apply (cvdPut_pending w next)| |done|done]. intros uc [Huc Hprev]. split; [done|].
    unfold accumulates, w, next. destruct prev as [v|]; [|by left]. right. exists v. split; [by apply Hprev|done]. }
  intros []. eapply triple_bind; [apply saveCVD_pending|]. intros [].
  eapply triple_bind; [apply publishCVD_settles|]. intros [].
  eapply triple_bind; [by apply callIf_keeps|]. intros []. by apply call_keeps.
Qed.

(** The statements that leave the CVD state and its calls alone. *)
Lemma onWindows_cvd {A} (m : Meth (Cells TapeKey TapeWindowV1) Problem A) : triple cvdInv (onWindows m) (λ _, cvdInv) cvdInv.
Proof. intros uc Huc. unfold onWindows. by destruct (m (windows uc)) as [c [p|x]]. Qed.

Lemma persist_cvd win : triple cvdInv (persistClosedWindow clk win) (λ _, cvdInv) cvdInv.
Proof.
  unfold persistClosedWindow. eapply (triple_bind _ _ _ (λ _, cvdInv)); [by apply triple_recv|]. intros uc0. cbn zeta.
  eapply triple_bind; [by apply callIf_keeps|]. intros []. eapply (triple_bind _ _ _ (λ _, cvdInv)); [|intros []; by apply triple_ret].
  destruct (publisher uc0); [|by apply triple_ret]. eapply triple_bind; [by apply call_keeps|]. intros [].
  apply publishDerived_keeps.
Qed.

Ltac cvd_walk :=
  repeat first
    [ apply onWindows_cvd | apply persist_cvd | (by apply triple_ret) | (by apply triple_recv)
    | (by apply triple_fail_if; intros; case_match) | (by apply triple_try; intros; case_match)
    | (by apply triple_check; intros; case_match) | (by apply triple_assign)
    | (eapply (triple_bind _ _ _ (λ _, cvdInv)); [|intros ?]) | progress cbn zeta | case_match ].

Lemma closeIf_cvd k ws dur : triple cvdInv (closeIfWindowChanged clk k ws dur) (λ _, cvdInv) cvdInv.
Proof. unfold closeIfWindowChanged. cvd_walk. Qed.
Lemma forceClose_cvd f : triple cvdInv (forceCloseWindow clk f) (λ _, cvdInv) cvdInv.
Proof. unfold forceCloseWindow. cvd_walk. Qed.
Lemma getOrCreate_cvd k ws : triple cvdInv (getOrCreateWindow clk k ws) (λ _, cvdInv) cvdInv.
Proof. unfold getOrCreateWindow. cvd_walk. Qed.
Lemma observe_cvd k ts dur : triple cvdInv (observeWindow clk k ts dur) (λ _, cvdInv) cvdInv.
Proof. pose proof forceClose_cvd. unfold observeWindow. cvd_walk. Qed.
Lemma executeTimeframe_cvd req tf es : triple cvdInv (executeTimeframe clk req tf es) (λ _, cvdInv) cvdInv.
Proof.
  unfold executeTimeframe. eapply (triple_bind _ _ _ (λ _, cvdInv)); [by apply triple_recv|]. intros uc0. cbn zeta.
  eapply triple_bind; [apply observe_cvd|]. intros [d f]. destruct (IsLate d); [by apply triple_ret|].
  eapply triple_bind; [apply closeIf_cvd|]. intros evt. eapply triple_bind; [apply getOrCreate_cvd|]. intros a. cvd_walk.
Qed.
Lemma Execute_cvd req uc : cvdInv uc → cvdInv (Execute clk req uc).1.
Proof.
  assert (∀ tfs es, triple cvdInv (executeLoop clk req tfs es) (λ _, cvdInv) cvdInv) as Hloop.
  { induction tfs as [|tf tfs IH]; intros es; cbn [executeLoop]; [by apply triple_ret|].
    eapply triple_bind; [apply executeTimeframe_cvd|]. intros es'. apply IH. }
  assert (triple cvdInv (Execute clk req) (λ _, cvdInv) cvdInv) as Hex.
  { unfold Execute. eapply (triple_bind _ _ _ (λ _, cvdInv)); [by apply triple_check; intros; case_match|]. intros [].
    eapply (triple_bind _ _ _ (λ _, cvdInv)); [by apply triple_recv|]. intros uc0. eapply triple_bind; [apply Hloop|]. intros es.
    eapply (triple_bind _ _ _ (λ _, cvdInv)); [by apply triple_recv|]. intros uc1. by apply triple_ret. }
  intros Huc. specialize (Hex uc Huc). by destruct (Execute clk req uc) as [uc' [p|r]].
Qed.

(** The states reached by a sequence of requests, successful or not. *)
Definition runRequests (reqs : list BuildTapeRequest) (uc : BuildTapeFromTrades) : BuildTapeFromTrades :=
  foldl (λ uc req, (Execute clk req uc).1) uc reqs.

(** The CVD accumulates. Whatever trades have arrived and however the ports
    answered, every CVD value that was handed to the CVD store or published is
    either the window's own delta (the key had no CVD, or it had expired), or that
    delta added to the last CVD handed out before it for the same venue,
    instrument and timeframe; what is published right after a save is the saved
    value. *)
Theorem published_cvd_accumulates pub st dv cv bs cfg reqs pre c ans post :
  portCalls (runRequests reqs (NewBuildTapeFromTrades clk pub st dv cv bs cfg)) = pre ++ (c, ans) :: post →
  callChained pre c.
Proof.
  assert (∀ uc, cvdInv uc → cvdInv (runRequests reqs uc)) as Hrun.
  { unfold runRequests. induction reqs as [|req reqs' IH]; intros uc Huc; cbn; [done|]. apply IH. by apply Execute_cvd. }
  destruct (Hrun (NewBuildTapeFromTrades clk pub st dv cv bs cfg)) as (_ & Hch & _); [|intros Hlog; by eapply Hch].
  split_and!; [|apply chained_nil|done]. exists [].
  match goal with |- rep (cvdState (NewBuildTapeFromTrades _ _ _ _ _ _ _)) _ =>
    pose proof (rep_new (K:=TapeKey) (V:=float64) (if MaxTapeWindows cfg <=? 0 then 50000 else MaxTapeWindows cfg)
      (if TapeWindowTTL cfg <=? 0 then Hour else TapeWindowTTL cfg) (clk 1)) as [] end. by split.
Qed.
End claims.

(** ** Witnesses *)

Definition okPorts : TapePorts := {| tapeAnswer _ _ := None |}.
Definition tick (n : nat) : Z := Z.of_nat n.
Definition w_cfg : BuildTapeConfig := MkBuildTapeConfig 64 0 0 0 None ∅.
Definition w_trade (seq ts : Z) : BuildTapeRequest :=
  MkBuildTapeRequest "binance" "BTC-USDT" (f_of_Z 100) (f_of_Z 1) true seq ts.
Definition w_new : BuildTapeFromTrades := NewBuildTapeFromTrades tick true true true true true w_cfg.

Lemma tape_Execute_emits_what_it_returns_witness :
  let uc := (Execute (GR:=go_amd64) (ports:=okPorts) tick (w_trade 1 1200) w_new).1 in
  ∃ uc' r, Execute (GR:=go_amd64) (ports:=okPorts) tick (w_trade 2 1300) uc = (uc', inr r) ∧
    length (ClosedWindows r) = 1%nat ∧ length (portCalls uc') = 8%nat ∧ Forall (λ e, sealed (evt_Window e)) (ClosedWindows r).
Proof.
  intros uc. destruct (observed_run (λ uc r, (length (ClosedWindows r), length (portCalls uc)))
    (Execute (GR:=go_amd64) (ports:=okPorts) tick (w_trade 2 1300) uc) (1, 8)%nat) as (uc' & r & Hrun & Hobs);
    [vm_compute; reflexivity|].
  injection Hobs as Hlen Hcalls. exists uc', r. split; [exact Hrun|]. split; [exact Hlen|]. split; [exact Hcalls|].
  apply (tape_Execute_emits_what_it_returns (GR:=go_amd64) (ports:=okPorts) tick _ _ _ _ Hrun).
Defined.

(** Two windows of one second: the second CVD adds its delta to the first. *)
Lemma published_cvd_accumulates_witness :
  let log := portCalls (runRequests (GR:=go_amd64) (ports:=okPorts) tick
    [w_trade 1 1200; w_trade 2 1300; w_trade 3 1600] w_new) in
  ∃ pre w ans, log = pre ++ [(PublishCVD w, ans)] ++ drop (S (length pre)) log ∧ callChained pre (PublishCVD w) ∧
    CVD w = f_of_Z 2.
Proof.
  cbn zeta. set (log := portCalls _).
  assert (∃ pre w ans, log = pre ++ (PublishCVD w, ans) :: drop (S (length pre)) log ∧ CVD w = f_of_Z 2)
    as (pre & w & ans & Hlog & Hcvd).
  { exists (take 13 log). vm_compute. do 2 eexists. split; reflexivity. }
  exists pre, w, ans. split; [exact Hlog|]. split; [|exact Hcvd].
  apply (published_cvd_accumulates (GR:=go_amd64) (ports:=okPorts) tick true true true true true w_cfg
    [w_trade 1 1200; w_trade 2 1300; w_trade 3 1600] pre (PublishCVD w) ans (drop (S (length pre)) log)). exact Hlog.
Defined.
