(* ===== verification/UpdateOrderBook.v ===== *)
(** * UpdateOrderBook: internal/core/aggregation/app/update_orderbook.go

    The use case that applies deltas and snapshots to the order books and stores
    and publishes what results. The books live behind pointers in a bounded map
    ([Cells]); the clock is shared by the map and the use case, so every reading
    advances the same counter. The hot store and the publisher are ports
    ([BookPorts]) answering from the history of calls, which the state keeps.
    Metrics are not modelled; the readings the deferred metrics make are. *)

From S2P Require Import Prelude GoRuntime Shared BoundedMap Cells OrderBook.

Local Open Scope string_scope.
Local Open Scope list_scope.
Local Open Scope Z_scope.

Record UpdateRequest := MkUpdateRequest {
  req_Venue : string;
  req_Instrument : string;
  req_Seq : Z;
  req_Bids : list Level;
  req_Asks : list Level;
  req_IsSnapshot : bool;
}.

Record UpdateResponse := MkUpdateResponse {
  resp_Seq : Z;
  resp_Spread : float64;
  resp_SpreadBPS : float64;
  resp_BidLevels : Z;
  resp_AskLevels : Z;
  resp_PrunedLevels : Z;
  resp_Checksum : Z;
  resp_BestBidPrice : float64;
  resp_BestAskPrice : float64;
}.

Record UpdateConfig := MkUpdateConfig {
  MaxBooks : Z;
  BookTTL : Z;
  MaxLevels : Z;
  PublishDepthCap : Z;
  SnapshotPublishMinInterval : Z;
}.

Inductive BookPortCall :=
| CallSave (snap : SnapshotProduced) (answer : option Problem)
| CallPublishSnapshot (snap : SnapshotProduced) (answer : option Problem)
| CallPublishInconsistent (evt : OrderBookInconsistentDetected) (answer : option Problem).

Class BookPorts := {
  Save : list BookPortCall → SnapshotProduced → option Problem;
  PublishSnapshot : list BookPortCall → SnapshotProduced → option Problem;
  PublishInconsistent : list BookPortCall → OrderBookInconsistentDetected → option Problem;
}.

Section update_orderbook.
Context {GR : GoRuntime} {BT : BTreeLib} {ports : BookPorts} (clk : nat → Z).

Record UpdateOrderBookFromEvents := MkUpdateOrderBook {
  books : Cells BookID OrderBook;
  maxLevels : Z;
  publishDepthCap : Z;
  snapshotPublishMinInterval : Z;
  lastSnapshotPublishedAt : gmap BookID Z;
  portCalls : list BookPortCall;
}.
#[export] Instance UpdateOrderBook_eta : Eta UpdateOrderBookFromEvents := λ r,
  MkUpdateOrderBook (books r) (maxLevels r) (publishDepthCap r) (snapshotPublishMinInterval r)
    (lastSnapshotPublishedAt r) (portCalls r).

Abbreviation BookUC := (Meth UpdateOrderBookFromEvents Problem).

Definition NewUpdateOrderBookFromEventsWithConfig (cfg : UpdateConfig) : UpdateOrderBookFromEvents :=
  let maxBooks := if MaxBooks cfg <=? 0 then 10000 else MaxBooks cfg in
  let bookTTL := if BookTTL cfg <=? 0 then 3600000000000 else BookTTL cfg in
  let maxLevels := if MaxLevels cfg <=? 0 then 1000 else MaxLevels cfg in
  let publishDepthCap := if PublishDepthCap cfg <=? 0 then 50 else PublishDepthCap cfg in
  let books := newCells clk maxBooks bookTTL in
  let books := books <| cmap ::= SetSweepEveryOps 1024 |> <| cmap ::= SetSweepMinInterval 1000000000 |>
    <| cmap ::= SetOnEvict true |> in
  MkUpdateOrderBook books maxLevels publishDepthCap (SnapshotPublishMinInterval cfg) ∅ [].

Definition NewUpdateOrderBookFromEvents : UpdateOrderBookFromEvents :=
  NewUpdateOrderBookFromEventsWithConfig (MkUpdateConfig 10000 3600000000000 1000 50 0).

Definition onBooks {A} (m : Meth (Cells BookID OrderBook) Problem A) : BookUC A := λ uc,
  let '(c, r) := m (books uc) in (uc <| books := c |>, r).

(** [uc.clock.Now()] *)
Definition tickClock (uc : UpdateOrderBookFromEvents) : UpdateOrderBookFromEvents :=
  uc <| books ::= λ c, c <| reads ::= S |> |>.
Definition now : BookUC Z := λ uc, (tickClock uc, inr (clk (reads (books uc)))).

Definition callPort (answer : list BookPortCall → option Problem) (call : option Problem → BookPortCall)
    : BookUC unit := λ uc,
  let r := answer (portCalls uc) in
  (uc <| portCalls ::= λ l, l ++ [call r] |>, match r with Some p => inl p | None => inr tt end).

Definition getOrCreateBook (venue instrument : string) : BookUC Z :=
  let bid := MkBookID venue instrument in
  found ← onBooks (cellGet clk bid);
  match found with
  | Some b => mret b
  | None =>
      uc ← recv;
      b ← try_ (NewOrderBookWithMaxLevels venue instrument (maxLevels uc));
      a ← onBooks (alloc b);
      onBooks (cellPut clk bid a) ;;
      mret a
  end.

Definition ActiveBooks (uc : UpdateOrderBookFromEvents) : Z := cellLen (books uc).

Definition shouldPublishSnapshot (bid : BookID) : BookUC bool :=
  uc ← recv;
  if snapshotPublishMinInterval uc <=? 0 then mret true else
  match lastSnapshotPublishedAt uc !! bid with
  | None => mret true
  | Some last =>
      if last =? zeroTime then mret true else
      t ← now;
      mret (snapshotPublishMinInterval uc <=? time_sub t last)
  end.

Definition recordSnapshotPublished (bid : BookID) : BookUC unit :=
  uc ← recv;
  if snapshotPublishMinInterval uc <=? 0 then mret tt else
  t ← now;
  assign (λ uc, uc <| lastSnapshotPublishedAt ::= <[bid := t]> |>).

Definition updateResponseFromSnapshot (book : OrderBook) (snap : SnapshotProduced) : UpdateResponse :=
  MkUpdateResponse (LastSeq book) (Spread book) (SpreadBPS snap) (Z.of_nat (length (Bids book)))
    (Z.of_nat (length (Asks book))) (LastPrunedLevels book) (snap_Checksum snap) (BestBidPrice snap) (BestAskPrice snap).

(** The loop over the pulled events: only the inconsistencies are published. *)
Fixpoint publishInconsistencies (evts : list DomainEvent) : BookUC unit :=
  match evts with
  | [] => mret tt
  | EvInconsistent inconsistent :: rest =>
      callPort (λ h, PublishInconsistent h inconsistent) (CallPublishInconsistent inconsistent) ;;
      publishInconsistencies rest
  | _ :: rest => publishInconsistencies rest
  end.

(** [applyFn(req.Seq, req.Bids, req.Asks)], keeping its problem as a value. *)
Definition applyRequest (a : Z) (req : UpdateRequest) : BookUC (option Problem) := λ uc,
  let apply := if req_IsSnapshot req then ApplySnapshot (req_Seq req) (req_Bids req) (req_Asks req)
               else ApplyDelta (req_Seq req) (req_Bids req) (req_Asks req) in
  let '(uc', r) := onBooks (callAt a apply) uc in (uc', inr (err_of r)).

Definition pullDomainEvents (a : Z) : BookUC (list DomainEvent) :=
  onBooks (callAt a (λ b, let '(b', evts) := PullDomainEvents b in (b', inr evts))).

(** Steps 4 and 5 of [Execute]. *)
Definition storeAndPublish (a : Z) : BookUC UpdateResponse :=
  book ← onBooks (load a);
  let snap := NewSnapshotProduced book in
  callPort (λ h, Save h snap) (CallSave snap) ;;
  publish ← shouldPublishSnapshot (ID book);
  if negb publish then mret (updateResponseFromSnapshot book snap) else
  t ← now;
  uc ← recv;
  let publishSnap := Capped snap (publishDepthCap uc) (UnixMilli t) in
  callPort (λ h, PublishSnapshot h publishSnap) (CallPublishSnapshot publishSnap) ;;
  recordSnapshotPublished (ID book) ;;
  mret (updateResponseFromSnapshot book snap).

Definition executeBody (req : UpdateRequest) : BookUC UpdateResponse :=
  check (Collect [NonEmptyString "venue" (req_Venue req); NonEmptyString "instrument" (req_Instrument req);
                  PositiveInt "seq" (req_Seq req)]) ;;
  a ← getOrCreateBook (req_Venue req) (req_Instrument req);
  applied ← applyRequest a req;
  match applied with
  | Some p =>
      if bool_decide (Code p = IntegrityViolation) then
        evts ← pullDomainEvents a;
        publishInconsistencies evts ;;
        throw p
      else throw p
  | None => storeAndPublish a
  end.

(** [startedAt := uc.clock.Now(); defer func() { ... uc.clock.Now() ... }()] *)
Definition Execute (req : UpdateRequest) : BookUC UpdateResponse := λ uc,
  let '(uc', r) := (now ;; executeBody req) uc in (tickClock uc', r).

Definition Snapshot (venue instrument : string) : BookUC SnapshotProduced :=
  check (Collect [NonEmptyString "venue" venue; NonEmptyString "instrument" instrument]) ;;
  found ← onBooks (cellGet clk (MkBookID venue instrument));
  match found with
  | None => throw (Newf NotFound "orderbook snapshot not found for %s/%s" [AnyStr venue; AnyStr instrument])
  | Some a => book ← onBooks (load a); mret (NewSnapshotProduced book)
  end.

(** Used for the metrics of the deferred function. *)
Definition spreadBPS (book : OrderBook) : float64 :=
  match BestBid book, BestAsk book with
  | Some bid, Some ask =>
      let mid := fdiv (fadd (Price bid) (Price ask)) (f_of_Z 2) in
      if fleb mid f0 then f0 else
      let spread := fsub (Price ask) (Price bid) in
      if fltb spread f0 then f0 else fmul (fdiv spread mid) (f_of_Z 10000)
  | _, _ => f0
  end.

Definition badLevelReasonFromProblem (p : option Problem) : string :=
  match p with
  | None => ""
  | Some p => match Details p !! "reason" with Some (AnyStr reason) => reason | _ => "" end
  end.
End update_orderbook.
