(* ===== verification/UpdateOrderBookSpec.v ===== *)
(** * UpdateOrderBookSpec: what UpdateOrderBookFromEvents promises

    Whatever requests arrive and however the ports answer, only consistent,
    uncrossed and bounded books reach the store and the bus. A book's lifetime is
    counted from its creation: no update extends it, and once it is over the next
    delta builds on an empty book. *)

From S2P Require Import Prelude GoRuntime Shared BoundedMap Cells OrderBook OrderBookSpec UpdateOrderBook.

Local Open Scope string_scope.
Local Open Scope list_scope.
Local Open Scope Z_scope.

(** ** Entries are never renewed *)

Section aging.
Context {GR : GoRuntime} {K V : Type} `{Countable K} (clk : nat → Z).
Implicit Types c : Cells K V.

(** Every entry of [c] is an entry of [c0], or points to an address that [c0]
    had not allocated. *)
Definition aged (c0 c : Cells K V) : Prop :=
  (∀ k e, BoundedMap.items (cmap c) !! k = Some e →
     BoundedMap.items (cmap c0) !! k = Some e ∨ nextAddr c0 ≤ value e) ∧ nextAddr c0 ≤ nextAddr c.

Lemma aged_refl c : aged c c.
Proof. split; [by left|lia]. Qed.

Lemma aged_entries P c0 c c' l l' :
  stores P c l → stores P c' l' → nextAddr c' = nextAddr c → aged c0 c →
  (∀ k e, (k, e) ∈ l' → (k, e) ∈ l ∨ nextAddr c0 ≤ value e) → aged c0 c'.
Proof.
  intros [Hr _ _ _] [Hr' _ _ _] Hn [Ha Hle] Hsub. pose proof Hr as [_ Hi Hnd _ _]. pose proof Hr' as [_ Hi' Hnd' _ _].
  split; [|lia]. intros k e. rewrite Hi', as_map_lookup by done. intros Hin.
  destruct (Hsub k e Hin) as [Hl|]; [|by right]. apply Ha. rewrite Hi. by apply as_map_lookup.
Qed.

Lemma cellGet_nextAddr k c : nextAddr (cellGet clk k c).1 = nextAddr c.
Proof. unfold cellGet. by destruct (Get k (clk (reads c)) (cmap c)) as [[m r] evs]. Qed.
Lemma cellPut_nextAddr k a c : nextAddr (cellPut clk k a c).1 = nextAddr c.
Proof. unfold cellPut. by destruct (Put k a (clk (reads c)) (cmap c)) as [m evs]. Qed.

Lemma cellGet_aged P c0 c k : inStore P c → aged c0 c → aged c0 (cellGet clk k c).1.
Proof.
  intros [l Hl] Ha. pose proof (cellGet_nextAddr k c) as Hn.
  destruct (cellGet_stores clk P c l k Hl) as (c' & r & l' & Hrun & Hl' & Hf & _). rewrite Hrun in *.
  eapply (aged_entries P c0 c c' l l'); try done. intros k' e Hin. left. by eapply elem_of_submseteq.
Qed.
Lemma cellPut_aged P c0 c k a : owns P k a c → nextAddr c0 ≤ a → aged c0 c → aged c0 (cellPut clk k a c).1.
Proof.
  intros (l & v & Hl & Hv & HP & Ho) Hfresh Ha. pose proof (cellPut_nextAddr k a c) as Hn.
  destruct (cellPut_stores clk P c l k a v Hl Hv HP Ho) as (c' & l' & Hrun & Hl' & _ & _ & _ & Hin & Hold).
  rewrite Hrun in *. eapply (aged_entries P c0 c c' l l'); try done. intros k' e Hin'.
  destruct (decide (k' = k)) as [->|Hne]; [|left; by apply Hold]. right.
  pose proof Hl' as [[_ _ Hnd _ _] _ _ _].
  apply as_map_lookup in Hin, Hin'; [|done..]. rewrite Hin in Hin'. injection Hin' as <-. done.
Qed.
Lemma alloc_aged c0 c v : aged c0 c → aged c0 (alloc v c).1.
Proof. intros [Ha Hle]. split; [done|]. cbn. lia. Qed.
Lemma callAt_aged {A} c0 c a (m : Meth V Problem A) : aged c0 c → aged c0 (callAt a m c).1.
Proof. intros Ha. unfold callAt. destruct (heap c !! a) as [v|]; [|done]. by destruct (m v). Qed.
Lemma load_aged c0 c a : aged c0 c → aged c0 (load a c).1.
Proof. intros Ha. unfold load. by destruct (heap c !! a). Qed.
End aging.

Section claims.
Context {GR : GoRuntime} {BT : BTreeLib} {ports : BookPorts} (clk : nat → Z).

(** ** What leaves the use case *)

Definition bookAt (ml : Z) (k : BookID) (b : OrderBook) : Prop := book_ok b ∧ id b = k ∧ limits b = MkLimits ml.

(** A consistent side pair with at most [n] levels a side. *)
Definition levelsOk (n : Z) (bs as_ : list Level) : Prop :=
  ascending bidLess bs ∧ ascending askLess as_ ∧ Forall stored (bs ++ as_) ∧ uncrossed bs as_ ∧
  Z.of_nat (length bs) ≤ n ∧ Z.of_nat (length as_) ≤ n.

Definition callOk (ml cap : Z) (call : BookPortCall) : Prop :=
  match call with
  | CallSave s _ => levelsOk ml (snap_Bids s) (snap_Asks s)
  | CallPublishSnapshot s _ => levelsOk (Z.min ml cap) (snap_Bids s) (snap_Asks s)
  | CallPublishInconsistent _ _ => True
  end.

Lemma bookAt_levels ml k b : 0 < ml → bookAt ml k b → levelsOk ml (Bids b) (Asks b).
Proof.
  intros Hml ([[_ Hb Hbs] [_ Ha Has] Hun HkB HkA Hseq] & _ & Hlim). rewrite Hlim in *.
  pose proof (keepBest_length _ _ HkB Hml). pose proof (keepBest_length _ _ HkA Hml).
  unfold Bids, Asks in *. rewrite !levelsFromTree_items in *. split_and!; try done. by apply Forall_app.
Qed.

Lemma capped_levels ml cap b ts :
  0 < cap → levelsOk ml (Bids b) (Asks b) →
  levelsOk (Z.min ml cap) (snap_Bids (Capped (NewSnapshotProduced b) cap ts)) (snap_Asks (Capped (NewSnapshotProduced b) cap ts)).
Proof.
  intros Hcap (H1 & H2 & H3 & H4 & H5 & H6). rewrite Capped_counted by done. cbn [snap_Bids snap_Asks].
  rewrite !capped_take, (proj2 (Z.ltb_lt _ _)) by done. change (snap_Bids (NewSnapshotProduced b)) with (Bids b).
  change (snap_Asks (NewSnapshotProduced b)) with (Asks b). apply Forall_app in H3 as [H3 H3'].
  split_and!; [by apply ascending_take|by apply ascending_take|apply Forall_app; split; by apply Forall_take| | |].
  - intros x y Hx Hy. apply H4; [by eapply elem_of_take in Hx as (? & ? & _); eapply list_elem_of_lookup_2
      |by eapply elem_of_take in Hy as (? & ? & _); eapply list_elem_of_lookup_2].
  - rewrite length_take. lia.
  - rewrite length_take. lia.
Qed.
(** ** The invariant of the use case *)

Section invariant.
Variables (c0 : Cells BookID OrderBook) (ml cap : Z).
Hypotheses (Hml : 0 < ml) (Hcap : 0 < cap).

Definition restOk (uc : UpdateOrderBookFromEvents) : Prop :=
  aged c0 (books uc) ∧ maxLevels uc = ml ∧ publishDepthCap uc = cap ∧ Forall (callOk ml cap) (portCalls uc).
Definition ucOk (uc : UpdateOrderBookFromEvents) : Prop := inStore (bookAt ml) (books uc) ∧ restOk uc.
Definition holds (k : BookID) (a : Z) (uc : UpdateOrderBookFromEvents) : Prop := owns (bookAt ml) k a (books uc) ∧ restOk uc.

Lemma book_holds_ok k a uc : holds k a uc → ucOk uc.
Proof. intros [H Hr]. split; [by eapply owns_inStore|done]. Qed.

Lemma onBooks_triple {A} (m : Meth (Cells BookID OrderBook) Problem A) Pre Post Err :
  triple Pre m Post Err → (∀ c, Pre c → aged c0 c → aged c0 (m c).1) →
  triple (λ uc, Pre (books uc) ∧ restOk uc) (onBooks m)
    (λ x uc, Post x (books uc) ∧ restOk uc) (λ uc, Err (books uc) ∧ restOk uc).
Proof.
  intros Hm Hage uc [Hp (Ha & Hrest)]. specialize (Hm _ Hp). specialize (Hage _ Hp Ha).
  unfold onBooks. destruct (m (books uc)) as [c [p|x]]; done.
Qed.

Lemma tick_ok uc : ucOk uc → ucOk (tickClock uc).
Proof. intros [H (Ha & Hrest)]. split; [by apply tick_store|done]. Qed.
Lemma tick_holds k a uc : holds k a uc → holds k a (tickClock uc).
Proof. intros [H (Ha & Hrest)]. split; [by apply tick_owns|done]. Qed.

Lemma callPort_ok k a answer call :
  (∀ r, callOk ml cap (call r)) → triple (holds k a) (callPort answer call) (λ _, holds k a) ucOk.
Proof.
  intros Hcall uc [H (Ha & H1 & H2 & Hlog)]. unfold callPort.
  assert (holds k a (uc <| portCalls ::= λ l, l ++ [call (answer (portCalls uc))] |>)) as Hh.
  { split; [done|]. split_and!; try done. cbn. apply Forall_app. split; [done|]. by apply Forall_singleton. }
  destruct (answer (portCalls uc)) eqn:Hans; [by eapply book_holds_ok|done].
Qed.

Lemma getOrCreateBook_ok venue instrument :
  triple ucOk (getOrCreateBook clk venue instrument) (λ a, holds (MkBookID venue instrument) a) ucOk.
Proof.
  unfold getOrCreateBook. set (k := MkBookID venue instrument).
  eapply (triple_bind _ _ _ (λ r uc, match r with Some a => holds k a uc | None => ucOk uc end)).
  { eapply triple_conseq; [apply (onBooks_triple _ _ _ _ (cellGet_triple clk (bookAt ml) k)); by intros; eapply cellGet_aged|done| |].
    - by intros [a|] uc.
    - by intros uc [[] _]. }
  intros [a|]; [by apply triple_ret|].
  eapply (triple_bind _ _ _ (λ uc0 uc, ucOk uc ∧ maxLevels uc0 = ml)); [apply triple_recv; intros uc Huc; split; [done|by destruct Huc as (_ & _ & ? & _)]|].
  intros uc0. eapply (triple_bind _ _ _ (λ b uc, ucOk uc ∧ bookAt ml k b)).
  { apply triple_try. intros uc [Huc ->]. destruct (NewOrderBookWithMaxLevels venue instrument ml) as [p|b] eqn:Hnew; [done|].
    split; [done|]. destruct (New_book_ok _ _ _ _ Hnew) as (? & ? & _). split_and!; [done| |done].
    unfold NewOrderBookWithMaxLevels, NewBTreeOrderBook in Hnew. repeat case_match; by simplify_eq. }
  intros b. eapply (triple_bind _ _ _ (λ a uc, holds k a uc ∧ nextAddr c0 ≤ a)).
  { intros uc [[Hst (Ha & Hrest)] Hb]. pose proof (alloc_triple (bookAt ml) k b Hb (books uc) Hst) as Hal.
    pose proof (alloc_aged c0 (books uc) b Ha) as Hag. unfold onBooks.
    destruct (alloc b (books uc)) as [c' [p|a]] eqn:Hrun; [done|]. split; [split; [done|split; [done|done]]|].
    unfold alloc in Hrun. injection Hrun as _ <-. by destruct Ha. }
  intros a. eapply (triple_bind _ _ _ (λ _, holds k a)); [|intros []; by apply triple_ret].
  intros uc [[Hst (Ha & Hrest)] Hfresh]. pose proof (cellPut_triple clk (bookAt ml) k a (books uc) Hst) as Hput.
  pose proof (cellPut_aged clk (bookAt ml) c0 (books uc) k a Hst Hfresh Ha) as Hag. unfold onBooks.
  by destruct (cellPut clk k a (books uc)) as [c' [p|[]]].
Qed.

Lemma callBook_ok {A} k a (m : Meth OrderBook Problem A) :
  (∀ b, bookAt ml k b → bookAt ml k (m b).1) →
  triple (holds k a) (onBooks (callAt a m)) (λ _, holds k a) (holds k a).
Proof.
  intros Hm. eapply triple_conseq; [apply (onBooks_triple _ _ _ _ (callAt_triple (bookAt ml) k a m Hm)); intros; by apply callAt_aged|done..].
Qed.

Lemma applyDelta_bookAt k seq bu au snap b : bookAt ml k b → bookAt ml k (applyDelta seq bu au snap b).1.
Proof.
  intros (Hok & Hid & Hlim). destruct (applyDelta_ok b seq bu au snap Hok) as [Hok' Hlim'].
  split_and!; [done| |congruence]. destruct (decide (acceptable b seq bu au snap)) as [Hacc|Hno].
  - destruct (applyDelta_outcome b seq bu au snap Hok Hacc) as (? & ? & b' & r & _ & _ & -> & _ & _ & _ & ? & _). cbn. congruence.
  - by destruct (applyDelta_refused b seq bu au snap Hno) as (p & -> & _).
Qed.

Lemma applyRequest_ok k a req : triple (holds k a) (applyRequest a req) (λ _, holds k a) ucOk.
Proof.
  intros uc Huc. unfold applyRequest.
  set (m := if req_IsSnapshot req then _ else _).
  pose proof (callBook_ok k a m) as Hc. discharge Hc.
  { intros b Hb. unfold m. destruct (req_IsSnapshot req); by apply applyDelta_bookAt. }
  specialize (Hc uc Huc). by destruct (onBooks (callAt a m) uc) as [uc' [p|[]]].
Qed.

Lemma publishInconsistencies_ok k a evts : triple (holds k a) (publishInconsistencies evts) (λ _, holds k a) ucOk.
Proof.
  induction evts as [|[e|e|e] evts IH]; cbn [publishInconsistencies]; [by apply triple_ret|done| |done].
  eapply triple_bind; [by apply callPort_ok|]. by intros [].
Qed.

Lemma now_holds k a : triple (holds k a) (now clk) (λ _, holds k a) ucOk.
Proof. intros uc Huc. by apply tick_holds. Qed.

Lemma shouldPublish_ok k a bid : triple (holds k a) (shouldPublishSnapshot clk bid) (λ _, holds k a) ucOk.
Proof.
  unfold shouldPublishSnapshot. eapply (triple_bind _ _ _ (λ _, holds k a)); [by apply triple_recv|]. intros uc0.
  destruct (_ <=? 0); [by apply triple_ret|]. destruct (lastSnapshotPublishedAt uc0 !! bid); [|by apply triple_ret].
  destruct (_ =? zeroTime); [by apply triple_ret|]. eapply triple_bind; [apply now_holds|]. intros t. by apply triple_ret.
Qed.
Lemma recordPublished_ok k a bid : triple (holds k a) (recordSnapshotPublished clk bid) (λ _, holds k a) ucOk.
Proof.
  unfold recordSnapshotPublished. eapply (triple_bind _ _ _ (λ _, holds k a)); [by apply triple_recv|]. intros uc0.
  destruct (_ <=? 0); [by apply triple_ret|]. eapply triple_bind; [apply now_holds|]. intros t. by apply triple_assign.
Qed.

Lemma storeAndPublish_ok k a : triple (holds k a) (storeAndPublish clk a) (λ _, holds k a) ucOk.
Proof.
  unfold storeAndPublish. eapply (triple_bind _ _ _ (λ b uc, holds k a uc ∧ bookAt ml k b)).
  { eapply triple_conseq; [apply (onBooks_triple _ _ _ _ (load_triple (bookAt ml) k a)); intros; by apply load_aged|done| |].
    - intros b uc [(? & _ & ?) ?]. done.
    - by intros uc [[] _]. }
  intros b uc [Huc Hb]. revert uc Huc. pose proof (bookAt_levels ml k b Hml Hb) as Hlv. cbn zeta.
  eapply triple_bind; [by apply callPort_ok|]. intros [].
  eapply triple_bind; [apply shouldPublish_ok|]. intros pubd. destruct (negb pubd); [by apply triple_ret|].
  eapply triple_bind; [apply now_holds|]. intros t.
  eapply (triple_bind _ _ _ (λ uc0 uc, holds k a uc ∧ publishDepthCap uc0 = cap)).
  { apply triple_recv. intros uc Huc. split; [done|]. by destruct Huc as (_ & _ & _ & ? & _). }
  intros uc0 uc [Huc ->]. revert uc Huc. eapply triple_bind; [apply callPort_ok; intros r; by apply capped_levels|]. intros [].
  eapply triple_bind; [apply recordPublished_ok|]. intros []. by apply triple_ret.
Qed.

Lemma executeBody_ok req : triple ucOk (executeBody clk req) (λ _, ucOk) ucOk.
Proof.
  unfold executeBody. eapply (triple_bind _ _ _ (λ _, ucOk)); [by apply triple_check; intros; case_match|]. intros [].
  set (k := MkBookID (req_Venue req) (req_Instrument req)).
  eapply triple_bind; [apply getOrCreateBook_ok|]. intros a. fold k.
  eapply triple_bind; [apply applyRequest_ok|]. intros [p|].
  2: { eapply triple_conseq; [apply storeAndPublish_ok|done| |done]. intros r uc. apply book_holds_ok. }
  destruct (bool_decide _); [|intros uc Huc; by eapply book_holds_ok].
  eapply (triple_bind _ _ _ (λ _, holds k a)).
  { eapply triple_conseq; [apply (callBook_ok k a)|done|done|intros uc; apply book_holds_ok].
    intros b (Hok & Hid & Hlim). split_and!; [|done|done]. destruct Hok. by split. }
  intros evts. eapply triple_bind; [apply publishInconsistencies_ok|]. intros [] uc Huc. by eapply book_holds_ok.
Qed.

Lemma book_Execute_ok req uc : ucOk uc → ucOk (Execute clk req uc).1.
Proof.
  intros Huc. unfold Execute. rewrite (bind_run _ _ uc (tickClock uc) (clk (reads (books uc)))) by done.
  pose proof (executeBody_ok req (tickClock uc) (tick_ok uc Huc)) as H.
  destruct (executeBody clk req (tickClock uc)) as [uc' [p|r]]; by apply tick_ok.
Qed.
End invariant.

(** The states reached by a sequence of requests, successful or not. *)
Definition runRequests (reqs : list UpdateRequest) (uc : UpdateOrderBookFromEvents) : UpdateOrderBookFromEvents :=
  foldl (λ uc req, (Execute clk req uc).1) uc reqs.

Lemma book_runRequests_ok c0 ml cap reqs : ∀ uc, 0 < ml → 0 < cap → ucOk c0 ml cap uc → ucOk c0 ml cap (runRequests reqs uc).
Proof.
  unfold runRequests. induction reqs as [|req reqs IH]; intros uc H1 H2 Huc; cbn; [done|]. apply IH; [done..|]. by apply book_Execute_ok.
Qed.

Lemma book_New_ok cfg :
  let uc := NewUpdateOrderBookFromEventsWithConfig clk cfg in
  0 < maxLevels uc ∧ 0 < publishDepthCap uc ∧ ucOk (books uc) (maxLevels uc) (publishDepthCap uc) uc.
Proof.
  intros uc. unfold uc, NewUpdateOrderBookFromEventsWithConfig.
  cbn [books maxLevels publishDepthCap snapshotPublishMinInterval lastSnapshotPublishedAt portCalls].
  split; [destruct (Z.leb_spec (MaxLevels cfg) 0); lia|]. split; [destruct (Z.leb_spec (PublishDepthCap cfg) 0); lia|].
  split; [|by split; [apply aged_refl|]]. exists [].
  match goal with |- stores ?P _ _ => pose proof (newCells_stores clk P (if MaxBooks cfg <=? 0 then 10000 else MaxBooks cfg)
    (if BookTTL cfg <=? 0 then 3600000000000 else BookTTL cfg)) as [[] Hnd Ha Hc] end.
  split; [by split|done|done|done].
Qed.

(** From any reachable state the invariant starts afresh. *)
Lemma reached_ok cfg reqs :
  let uc := runRequests reqs (NewUpdateOrderBookFromEventsWithConfig clk cfg) in
  0 < maxLevels uc ∧ 0 < publishDepthCap uc ∧ ucOk (books uc) (maxLevels uc) (publishDepthCap uc) uc.
Proof.
  intros uc. destruct (book_New_ok cfg) as (H1 & H2 & Huc0).
  destruct (book_runRequests_ok _ _ _ reqs _ H1 H2 Huc0) as (Hst & Ha & Hm & Hc & Hlog). fold uc in Hst, Ha, Hm, Hc, Hlog.
  rewrite Hm, Hc. split_and!; try done. split; [done|]. split_and!; try done. apply aged_refl.
Qed.

(** ** Theorems *)

(** C2: only consistent books leave the use case. Whatever requests it has served
    and however the store and the bus answered, every snapshot it saved or
    published has its bids strictly descending and its asks strictly ascending,
    only positive finite prices and quantities, no bid at or above an ask, and at
    most the configured number of levels a side, in a publication also at most
    the publication depth. *)
Theorem only_consistent_books_leave cfg reqs :
  let uc := runRequests reqs (NewUpdateOrderBookFromEventsWithConfig clk cfg) in
  Forall (callOk (maxLevels uc) (publishDepthCap uc)) (portCalls uc).
Proof. intros uc. by destruct (reached_ok cfg reqs) as (_ & _ & _ & _ & _ & _ & ?). Qed.

(** No update extends the life of a book. However many requests address it, a
    book keeps the expiry it was created with: if after a request the key still
    maps to the same book, its entry, expiry included, is the same. *)
Theorem updates_never_renew_a_book cfg reqs reqs' k e e' :
  let uc := runRequests reqs (NewUpdateOrderBookFromEventsWithConfig clk cfg) in
  let uc' := runRequests reqs' uc in
  BoundedMap.items (cmap (books uc)) !! k = Some e → BoundedMap.items (cmap (books uc')) !! k = Some e' →
  value e' = value e → e' = e.
Proof.
  intros uc uc' He He' Hval. destruct (reached_ok cfg reqs) as (H1 & H2 & Huc). fold uc in H1, H2, Huc.
  destruct (book_runRequests_ok _ _ _ reqs' uc H1 H2 Huc) as (_ & [Ha _] & _). fold uc' in Ha.
  destruct (Ha k e' He') as [Hold|Hnew]; [congruence|]. exfalso.
  destruct Huc as [(l & [[_ Hi Hnd _ _] _ Halloc Hc]) _]. rewrite Hi in He. apply as_map_lookup in He; [|done].
  destruct (Hc k e He) as (b & Hb & _). rewrite Halloc in Hb; [done|lia].
Qed.

(** The levels of a side built from nothing are among the updates. *)
Lemma setQtys_in us p q : Forall validLevel us → setQtys (λ _, None) us p = Some q → MkLevel p q ∈ us.
Proof.
  unfold setQtys. induction us as [|u us IH] using rev_ind; [done|]. rewrite foldl_app, Forall_app. cbn. unfold setQty at 1.
  intros [Hus Hu]. rewrite Forall_singleton in Hu. destruct (feqb (Price u) p) eqn:Hp.
  - apply validPrice_eqb in Hp as <-; [|apply Hu]. destruct (feqb (Quantity u) f0); [done|]. intros [= <-].
    apply elem_of_app. right. destruct u. by left.
  - intros H%IH; [|done]. apply elem_of_app. by left.
Qed.
Lemma sideAfter_in less `{!PriceOrder less} us full lim :
  Forall validLevel us → sideAfter less (λ _, None) us full → Forall (λ x, x ∈ us) (keepBest lim full).
Proof.
  intros Hus [Ha Hs Hq]. assert (Forall (λ x, x ∈ us) full) as Hf.
  { apply Forall_forall. intros x Hx. assert (MkLevel (Price x) (Quantity x) ∈ us) as Hin; [|by destruct x].
    apply setQtys_in; [done|]. rewrite <- Hq. apply (qtyAt_Some less); [done|by apply stored_valid|]. by destruct x. }
  unfold keepBest. destruct (IsBounded lim); [by apply Forall_take|done].
Qed.

(** ** A book that has expired *)

Lemma cellGet_expired c l k e :
  rep (cmap c) l → as_map l !! k = Some e → isExpiredAt (cmap c) e (clk (reads c)) = true →
  ∃ c' : Cells BookID OrderBook, cellGet clk k c = (c', inr None).
Proof.
  intros Hr Hk Hexp. pose proof (Get_moves k (clk (reads c)) (cmap c) l Hr) as Hmv.
  unfold cellGet. destruct (Get k (clk (reads c)) (cmap c)) as [[m r] evs]. destruct Hmv as [_ ->].
  unfold spec_Get. rewrite Hk. assert (isExpiredAt (bumpOps (cmap c)) e (clk (reads c)) = true) as -> by done. by eexists.
Qed.

(** Creating the book of a key the map does not return. *)
Lemma getOrCreate_fresh c0 ml cap uc c1 venue instrument b :
  ucOk c0 ml cap uc → cellGet clk (MkBookID venue instrument) (books uc) = (c1, inr None) →
  NewOrderBookWithMaxLevels venue instrument ml = inr b →
  ∃ uc' a, getOrCreateBook clk venue instrument uc = (uc', inr a) ∧ heap (books uc') !! a = Some b ∧
    portCalls uc' = portCalls uc.
Proof.
  intros (Hst & _ & Hm & _) Hget Hnew. set (k := MkBookID venue instrument) in *.
  pose proof (cellGet_triple clk (bookAt ml) k (books uc) Hst) as Hst1. rewrite Hget in Hst1. destruct Hst1 as [l1 Hl1].
  destruct (alloc_stores _ c1 l1 b Hl1) as (c2 & a & Halloc & Hl2 & Ha & _ & _ & Hno & _).
  assert (bookAt ml k b) as Hb.
  { destruct (New_book_ok _ _ _ _ Hnew) as (? & ? & _). split_and!; [done| |done].
    unfold NewOrderBookWithMaxLevels, NewBTreeOrderBook in Hnew. repeat case_match; by simplify_eq. }
  destruct (cellPut_stores clk _ c2 l1 k a b Hl2 Ha Hb) as (c3 & l3 & Hput & _ & Hh3 & _).
  { intros k' e' Hin' He'. by destruct (Hno k' e' Hin'). }
  exists (uc <| books := c3 |>), a. split; [|split; [cbn; by rewrite Hh3|done]].
  unfold getOrCreateBook. fold k. rewrite (bind_run _ _ uc (uc <| books := c1 |>) None) by (unfold onBooks; by rewrite Hget).
  rewrite (bind_run _ _ _ (uc <| books := c1 |>) (uc <| books := c1 |>)) by done.
  change (maxLevels (uc <| books := c1 |>)) with (maxLevels uc). rewrite Hm, Hnew.
  rewrite (bind_run _ _ _ (uc <| books := c1 |>) b) by done.
  rewrite (bind_run _ _ _ (uc <| books := c2 |>) a)
    by (unfold onBooks; change (books (uc <| books := c1 |>)) with c1; by rewrite Halloc).
  rewrite (bind_run _ _ _ (uc <| books := c3 |>) tt)
    by (unfold onBooks; change (books (uc <| books := c2 |>)) with c2; by rewrite Hput).
  done.
Qed.

(** The log of port calls only grows. *)
Definition began (h : list BookPortCall) (uc : UpdateOrderBookFromEvents) : Prop := h `prefix_of` portCalls uc.

Lemma storeAndPublish_saves a uc b :
  heap (books uc) !! a = Some b →
  began (portCalls uc ++ [CallSave (NewSnapshotProduced b) (Save (portCalls uc) (NewSnapshotProduced b))])
    (storeAndPublish clk a uc).1.
Proof.
  intros Hb. unfold storeAndPublish. rewrite (bind_run _ _ uc uc b) by (unfold onBooks, load; rewrite Hb; by destruct uc).
  cbn zeta. set (h := portCalls uc ++ _). set (snap := NewSnapshotProduced b). set (bid := ID b).
  assert (∀ A (m : Meth UpdateOrderBookFromEvents Problem A), triple (began h) m (λ _, began h) (began h) → ∀ uc, began h uc → began h (m uc).1) as Hrun.
  { intros A m Hm uc' Huc'. specialize (Hm uc' Huc'). by destruct (m uc') as [uc'' [p|x]]. }
  assert (∀ t c, triple (began h) (callPort t c) (λ _, began h) (began h)) as Hcall.
  { intros t c uc' Huc'. unfold callPort. assert (began h (uc' <| portCalls ::= λ l, l ++ [c (t (portCalls uc'))] |>)) as Hg
      by (by apply prefix_app_r). by destruct (t (portCalls uc')). }
  assert (triple (began h) (now clk) (λ _, began h) (began h)) as Hnow by (by intros uc' Huc').
  unfold mbind at 1, Meth_bind at 1. unfold callPort at 1.
  set (uc1 := uc <| portCalls ::= _ |>). assert (began h uc1) as Huc1 by (by exists []; rewrite app_nil_r).
  destruct (Save (portCalls uc) snap) as [p|]; [exact Huc1|]. apply Hrun; [|exact Huc1].
  eapply (triple_bind _ _ _ (λ _, began h)).
  { unfold shouldPublishSnapshot. eapply (triple_bind _ _ _ (λ _, began h)); [by apply triple_recv|]. intros uc0.
    repeat (case_match; try (by apply triple_ret)). eapply triple_bind; [apply Hnow|]. intros t. by apply triple_ret. }
  intros pubd. destruct (negb pubd); [by apply triple_ret|].
  eapply triple_bind; [apply Hnow|]. intros t. eapply (triple_bind _ _ _ (λ _, began h)); [by apply triple_recv|]. intros uc0.
  eapply triple_bind; [apply Hcall|]. intros []. eapply (triple_bind _ _ _ (λ _, began h)); [|intros []; by apply triple_ret].
  unfold recordSnapshotPublished. eapply (triple_bind _ _ _ (λ _, began h)); [by apply triple_recv|]. intros uc2.
  case_match; [by apply triple_ret|]. eapply triple_bind; [apply Hnow|]. intros t'. by apply triple_assign.
Qed.

(** After its time is over a live book restarts from nothing. When a delta
    arrives for a book whose entry has expired, however recently it was updated,
    the delta is applied to a new empty book, whatever its sequence: the snapshot
    that is saved is marked as current and holds only levels of that one delta. *)
Theorem expired_book_restarts_empty cfg reqs req e :
  let uc := runRequests reqs (NewUpdateOrderBookFromEventsWithConfig clk cfg) in
  BoundedMap.items (cmap (books uc)) !! MkBookID (req_Venue req) (req_Instrument req) = Some e →
  isExpiredAt (cmap (books uc)) e (clk (S (reads (books uc)))) = true →
  TrimSpace (req_Venue req) ≠ "" → TrimSpace (req_Instrument req) ≠ "" → 0 < req_Seq req → req_IsSnapshot req = false →
  Forall validLevel (req_Bids req) → Forall validLevel (req_Asks req) → uncrossed (req_Bids req) (req_Asks req) →
  ∃ snap ans, snap_Seq snap = req_Seq req ∧
    Forall (λ x, x ∈ req_Bids req) (snap_Bids snap) ∧ Forall (λ x, x ∈ req_Asks req) (snap_Asks snap) ∧
    (portCalls uc ++ [CallSave snap ans]) `prefix_of` portCalls (Execute clk req uc).1.
Proof.
  intros uc He Hexp Hv Hi Hseq Hsnap Hbv Hav Hun. destruct (reached_ok cfg reqs) as (Hml & Hcap & Huc). fold uc in Hml, Hcap, Huc.
  pose proof (tick_ok _ _ _ _ Huc) as Huc1. set (uc1 := tickClock uc) in *.
  pose proof Huc as [(l & [Hr _ _ _]) _]. pose proof Hr as [_ Hitems _ _ _]. rewrite Hitems in He.
  destruct (cellGet_expired (books uc1) l _ e Hr He Hexp) as (c1 & Hget).
  assert (∃ b0, NewOrderBookWithMaxLevels (req_Venue req) (req_Instrument req) (maxLevels uc) = inr b0 ∧ Bids b0 = [] ∧
    Asks b0 = [] ∧ lastSeq b0 = 0) as (b0 & Hnew & HB0 & HA0 & Hs0).
  { unfold NewOrderBookWithMaxLevels, NewBTreeOrderBook, NewOrderBookLimitsPolicy.
    rewrite (proj2 (Collect_none _)) by (rewrite !Forall_cons, Forall_nil, !NonEmptyString_none; done).
    rewrite (proj2 (Z.ltb_ge _ _)) by lia. eexists. split; [done|]. unfold Bids, Asks. rewrite !levelsFromTree_items. cbn.
    unfold newBidTree, newAskTree. by rewrite !items_new. }
  destruct (New_book_ok _ _ _ _ Hnew) as (Hok0 & _).
  destruct (getOrCreate_fresh _ _ _ uc1 c1 _ _ b0 Huc1 Hget Hnew) as (uc2 & a & Hcreate & Ha & Hlog2).
  destruct (applyDelta_outcome b0 (req_Seq req) (req_Bids req) (req_Asks req) false Hok0)
    as (fullB & fullA & b1 & r & HB & HA & Hrun & _ & Hs1 & _ & _ & _ & Hr1); [split_and!; [done|lia|done|done]|].
  cbn [startQty] in HB, HA. rewrite HB0 in HB. rewrite HA0 in HA.
  pose proof (sideAfter_in bidLess _ _ (limits b0) Hbv HB) as Hin1. pose proof (sideAfter_in askLess _ _ (limits b0) Hav HA) as Hin2.
  rewrite Forall_forall in Hin1, Hin2.
  destruct r as [p|[]].
  { destruct Hr1 as ((x & y & Hx & Hy & Hxy) & _). specialize (Hun x y (Hin1 x Hx) (Hin2 y Hy)). congruence. }
  destruct Hr1 as (_ & HB1 & HA1 & _ & _).
  set (uc3 := uc2 <| books ::= λ c, c <| heap ::= <[a := b1]> |> |>).
  exists (NewSnapshotProduced b1), (Save (portCalls uc3) (NewSnapshotProduced b1)).
  split; [exact Hs1|]. change (snap_Bids (NewSnapshotProduced b1)) with (Bids b1).
  change (snap_Asks (NewSnapshotProduced b1)) with (Asks b1). rewrite HB1, HA1.
  split; [by apply Forall_forall|]. split; [by apply Forall_forall|].
  unfold Execute. rewrite (bind_run _ _ uc uc1 (clk (reads (books uc)))) by done. unfold executeBody.
  rewrite (bind_run _ _ uc1 uc1 tt). 2: { unfold check. rewrite (proj2 (Collect_none _)); [done|].
    by rewrite !Forall_cons, Forall_nil, !NonEmptyString_none, PositiveInt_none. }
  rewrite (bind_run _ _ uc1 uc2 a Hcreate). rewrite (bind_run _ _ uc2 uc3 None).
  2: { unfold applyRequest, onBooks, callAt. rewrite Hsnap, Ha. unfold ApplyDelta. by rewrite Hrun. }
  pose proof (storeAndPublish_saves a uc3 b1) as Hsave. discharge Hsave; [apply lookup_insert_eq|].
  change (portCalls uc3) with (portCalls uc2) in Hsave |- *. rewrite Hlog2 in Hsave |- *. 
  by destruct (storeAndPublish clk a uc3) as [uc4 r].
Qed.
End claims.

(** ** Witnesses: a book created by one delta and addressed by a second *)

Definition okPorts : BookPorts := {| Save _ _ := None; PublishSnapshot _ _ := None; PublishInconsistent _ _ := None |}.
Definition tick (n : nat) : Z := Z.of_nat n.
Definition w_cfg (ttl : Z) : UpdateConfig := MkUpdateConfig 16 ttl 8 4 0.
Definition w_req (seq : Z) (bs as_ : list Level) : UpdateRequest := MkUpdateRequest "BINANCE" "BTCUSDT" seq bs as_ false.
Definition w_first : UpdateRequest := w_req 7 [lv 99 1; lv 98 2] [lv 101 1].
Definition w_key : BookID := MkBookID "BINANCE" "BTCUSDT".

Definition w_run (ttl : Z) (reqs : list UpdateRequest) : UpdateOrderBookFromEvents (BT:=sortedBTree) :=
  runRequests (GR:=go_amd64) (BT:=sortedBTree) (ports:=okPorts) tick reqs
    (NewUpdateOrderBookFromEventsWithConfig (BT:=sortedBTree) tick (w_cfg ttl)).

Lemma updates_never_renew_a_book_witness :
  ∃ e, BoundedMap.items (cmap (books (w_run 100 [w_first]))) !! w_key = Some e ∧
    BoundedMap.items (cmap (books (runRequests (GR:=go_amd64) (BT:=sortedBTree) (ports:=okPorts) tick
      [w_req 8 [lv 97 3] []] (w_run 100 [w_first])))) !! w_key = Some e.
Proof.
  destruct (BoundedMap.items (cmap (books (w_run 100 [w_first]))) !! w_key) as [e|] eqn:He;
    [|vm_compute in He; discriminate He].
  destruct (BoundedMap.items (cmap (books (runRequests (GR:=go_amd64) (BT:=sortedBTree) (ports:=okPorts) tick
    [w_req 8 [lv 97 3] []] (w_run 100 [w_first])))) !! w_key) as [e'|] eqn:He'; [|vm_compute in He'; discriminate He'].
  exists e. split; [reflexivity|]. f_equal.
  apply (updates_never_renew_a_book (GR:=go_amd64) (BT:=sortedBTree) (ports:=okPorts) tick (w_cfg 100) [w_first]
    [w_req 8 [lv 97 3] []] w_key e e').
  - exact He.
  - exact He'.
  - vm_compute in He, He'. injection He as <-. injection He' as <-. reflexivity.
Defined.

Lemma expired_book_restarts_empty_witness :
  ∃ snap ans, snap_Seq snap = 3 ∧
    (portCalls (w_run 3 [w_first]) ++ [CallSave snap ans]) `prefix_of`
      portCalls (Execute (GR:=go_amd64) (BT:=sortedBTree) (ports:=okPorts) tick (w_req 3 [lv 50 1] []) (w_run 3 [w_first])).1.
Proof.
  destruct (BoundedMap.items (cmap (books (w_run 3 [w_first]))) !! w_key) as [e|] eqn:He;
    [|vm_compute in He; discriminate He].
  destruct (expired_book_restarts_empty (GR:=go_amd64) (BT:=sortedBTree) (ports:=okPorts) tick (w_cfg 3) [w_first]
    (w_req 3 [lv 50 1] []) e) as (snap & ans & H1 & _ & _ & H2).
  - exact He.
  - vm_compute in He. injection He as <-. vm_compute. reflexivity.
  - vm_compute. discriminate.
  - vm_compute. discriminate.
  - reflexivity.
  - reflexivity.
  - solve_levels.
  - apply Forall_nil_2.
  - intros x y _ Hy. apply elem_of_nil in Hy. destruct Hy.
  - exists snap, ans. split; [exact H1|exact H2].
Defined.
