(* ===== verification/GapDetector.v ===== *)
(** * GapDetector: internal/core/aggregation/app/gap_detector.go

    The search for missing candles in a range of window starts. The candle store
    is the port [CandleReader]. *)

From S2P Require Import Prelude GoRuntime Shared.

Local Open Scope string_scope.
Local Open Scope list_scope.
Local Open Scope Z_scope.

Record GapReport := MkGapReport {
  gap_Venue : string;
  gap_Instrument : string;
  gap_Timeframe : string;
  GapStartMs : Z;
  GapEndMs : Z;
  Missing : Z;
}.

Record GapDetectorConfig := MkGapDetectorConfig {
  cfg_Venue : string;
  cfg_Instrument : string;
  cfg_Timeframe : string;
  FromMs : Z;
  ToMs : Z;
  ExpectedStepMs : Z;
}.

(** The port: the start of the first and the last candle (or none), and the starts
    of the candles in a range. *)
Record CandleReader := MkCandleReader {
  GetFirstCandle : string → string → string → Problem + option Z;
  GetLastCandle : string → string → string → Problem + option Z;
  GetCandleTimestamps : string → string → string → Z → Z → Problem + list Z;
}.

Definition buildGap (cfg : GapDetectorConfig) (startMs endMs stepMs : Z) : GapReport :=
  let missing := if startMs <=? endMs then add64 (quot64 (sub64 endMs startMs) stepMs) 1 else 0 in
  MkGapReport (cfg_Venue cfg) (cfg_Instrument cfg) (cfg_Timeframe cfg) startMs endMs missing.

(** The loop that drops repeated values. It writes into the array it reads, but
    never past the element being read. *)
Fixpoint uniqueAfter (prev : Z) (sorted : list Z) : list Z :=
  match sorted with
  | [] => []
  | v :: rest => if negb (v =? prev) then v :: uniqueAfter v rest else uniqueAfter v rest
  end.
Definition uniqueOf (sorted : list Z) : list Z :=
  match sorted with
  | [] => []
  | v :: rest => v :: uniqueAfter v rest
  end.

(** The loop over neighbours. *)
Fixpoint innerGaps (cfg : GapDetectorConfig) (prev : Z) (unique : list Z) : list GapReport :=
  match unique with
  | [] => []
  | v :: rest =>
      let delta := sub64 v prev in
      if delta <=? ExpectedStepMs cfg then innerGaps cfg v rest
      else
        let gapStart := add64 prev (ExpectedStepMs cfg) in
        let gapEnd := sub64 v (ExpectedStepMs cfg) in
        buildGap cfg gapStart gapEnd (ExpectedStepMs cfg) :: innerGaps cfg v rest
  end.

(** [if *bound == 0 { x, p := get(); ... }]: the bound of the range, or none when
    there is no candle at all. *)
Definition resolveBound (bound : Z) (get : Problem + option Z) : Problem + option Z :=
  if bound =? 0 then get else inr (Some bound).

Section detector.
Context {GR : GoRuntime}.

(** The reports for the timestamps of a range. *)
Definition reportGaps (cfg : GapDetectorConfig) (fromMs toMs : Z) (ts : list Z) : list GapReport :=
  let step := ExpectedStepMs cfg in
  match ts with
  | [] =>
      let missing := add64 (quot64 (sub64 toMs fromMs) step) 1 in
      if missing <=? 0 then [] else
      [MkGapReport (cfg_Venue cfg) (cfg_Instrument cfg) (cfg_Timeframe cfg) fromMs toMs missing]
  | _ =>
      let sorted := sort_slice Z.ltb ts in
      match uniqueOf sorted with
      | [] => []
      | first :: rest =>
          let last := List.last (first :: rest) first in
          (if fromMs <? first then [buildGap cfg fromMs (sub64 first step) step] else []) ++
          innerGaps cfg first rest ++
          (if last <? toMs then [buildGap cfg (add64 last step) toMs step] else [])
      end
  end.

Definition DetectCandleGaps (reader : option CandleReader) (cfg : GapDetectorConfig) : Problem + list GapReport :=
  match reader with
  | None => inl (New ValidationFailed "candle reader must not be nil")
  | Some reader =>
      if ExpectedStepMs cfg <=? 0 then inl (New ValidationFailed "expected_step_ms must be > 0") else
      match resolveBound (FromMs cfg) (GetFirstCandle reader (cfg_Venue cfg) (cfg_Instrument cfg) (cfg_Timeframe cfg)) with
      | inl p => inl p
      | inr None => inr []
      | inr (Some fromMs) =>
          match resolveBound (ToMs cfg) (GetLastCandle reader (cfg_Venue cfg) (cfg_Instrument cfg) (cfg_Timeframe cfg)) with
          | inl p => inl p
          | inr None => inr []
          | inr (Some toMs) =>
              if toMs <? fromMs then
                inl (Newf ValidationFailed "invalid range: from_ms=%d to_ms=%d" [AnyInt fromMs; AnyInt toMs])
              else
                match GetCandleTimestamps reader (cfg_Venue cfg) (cfg_Instrument cfg) (cfg_Timeframe cfg) fromMs toMs with
                | inl p => inl p
                | inr ts => inr (reportGaps cfg fromMs toMs ts)
                end
          end
      end
  end.
End detector.

(** ** The expected window starts *)

Lemma last_default (x d d' : Z) l : List.last (x :: l) d = List.last (x :: l) d'.
Proof. revert x. induction l as [|y l IH]; intros x; [done|]. apply (IH y). Qed.

Section grid.
Context (from step : Z) (Hstep : 0 < step).

Definition onGrid (t : Z) : Prop := ∃ k, t = from + k * step.
Definition covers (r : GapReport) (t : Z) : Prop := GapStartMs r ≤ t ≤ GapEndMs r.
(** The windows a list of reports says are missing. *)
Definition totalMissing (rs : list GapReport) : Z := foldr Z.add 0 (Missing <$> rs).

(** A report of a run of missing windows within [lo..hi], counted exactly. *)
Record exactGap (lo hi : Z) (r : GapReport) : Prop := {
  gap_start : onGrid (GapStartMs r) ∧ lo ≤ GapStartMs r;
  gap_end : onGrid (GapEndMs r) ∧ GapEndMs r ≤ hi;
  gap_order : GapStartMs r ≤ GapEndMs r;
  gap_count : (Missing r - 1) * step = GapEndMs r - GapStartMs r;
}.

Lemma grid_apart a b : onGrid a → onGrid b → a < b → a + step ≤ b.
Proof. intros [i ->] [j ->] Hlt. assert (i < j) by nia. nia. Qed.

Lemma onGrid_shift a : onGrid a → onGrid (a + step) ∧ onGrid (a - step).
Proof. intros [k ->]. split; [exists (k + 1)|exists (k - 1)]; lia. Qed.

Context (lo hi : Z) (Hlo : MinInt64 ≤ lo) (Hhi : hi ≤ MaxInt64) (Hspan : hi - lo < MaxInt64).

Lemma buildGap_exact cfg a b :
  ExpectedStepMs cfg = step → onGrid a → onGrid b → lo ≤ a ≤ b → b ≤ hi →
  exactGap a b (buildGap cfg a b step) ∧ GapStartMs (buildGap cfg a b step) = a ∧ GapEndMs (buildGap cfg a b step) = b.
Proof.
  intros Hs [i Ha] [j Hb] Hab Hbh. unfold buildGap. rewrite (proj2 (Z.leb_le a b)) by lia. cbn. split; [|done].
  assert (sub64 b a = (j - i) * step) as ->.
  { unfold sub64. rewrite wrap64_id; [lia|unfold in_i64, MinInt64, MaxInt64 in *; lia]. }
  assert (0 ≤ j - i) as Hji by nia. assert (j - i ≤ (j - i) * step) as Hle by nia.
  assert ((j - i) * step < MaxInt64) as Hmax by lia.
  unfold quot64. rewrite Z.quot_mul by lia.
  assert (wrap64 (j - i) = j - i) as -> by (apply wrap64_id; unfold in_i64, MinInt64, MaxInt64 in *; lia).
  unfold add64.
  rewrite wrap64_id by (unfold in_i64, MinInt64, MaxInt64 in *; lia).
  split; cbn; [by split; [exists i|lia]|by split; [exists j|lia]|lia|lia].
Qed.

(** The report of the windows from [a] up to but not including [b], if there are any. *)
Lemma runGap_spec cfg a b :
  ExpectedStepMs cfg = step → onGrid a → onGrid b → lo ≤ a ≤ b → b - step ≤ hi →
  let rs := if a <? b then [buildGap cfg a (b - step) step] else [] in
  Forall (exactGap a (b - step)) rs ∧ totalMissing rs * step = b - a ∧
  ∀ t, onGrid t → Exists (λ r, covers r t) rs ↔ a ≤ t < b.
Proof.
  intros Hs Ha Hb Hab Hbh. destruct (Z.ltb_spec a b) as [Hlt|Hge].
  2: { split; [done|]. split; [cbn; lia|]. intros t _. rewrite Exists_nil. lia. }
  pose proof (grid_apart a b Ha Hb Hlt).
  destruct (buildGap_exact cfg a (b - step) Hs Ha) as (Hg & Hst & Hen); [by apply onGrid_shift|lia..|].
  split; [by apply Forall_singleton|]. split.
  { destruct Hg as [_ _ _ Hc]; rewrite Hst, Hen in Hc; unfold totalMissing; rewrite fmap_cons, fmap_nil; cbn [foldr]; lia. }
  intros t Hgt. rewrite Exists_cons, Exists_nil. unfold covers. rewrite Hst, Hen. split; [intros [?|[]]; lia|].
  intros [? Hlt']. left. pose proof (grid_apart t b Hgt Hb Hlt'). lia.
Qed.

(** What the reports between the neighbours of an increasing list say. *)
Lemma innerGaps_spec cfg l prev :
  ExpectedStepMs cfg = step → StronglySorted Z.lt (prev :: l) → Forall (λ t, onGrid t ∧ lo ≤ t ≤ hi) (prev :: l) →
  let last := List.last (prev :: l) prev in
  let rs := innerGaps cfg prev l in
  prev ≤ last ∧ last ∈ prev :: l ∧
  Forall (exactGap (prev + step) (last - step)) rs ∧
  (∀ t, onGrid t → prev ≤ t ≤ last → t ∈ prev :: l ↔ ¬ Exists (λ r, covers r t) rs) ∧
  (totalMissing rs + Z.of_nat (length l)) * step = last - prev.
Proof.
  intros Hs. revert prev. induction l as [|v l IH]; intros prev Hsort Hall.
  { cbn. split_and!; [lia|by left|done| |lia]. intros t _ Ht. split; [intros _ He; inversion He|]. intros _. assert (t = prev) as -> by lia. by left. }
  apply Forall_cons in Hall as [[Hgp Hbp] Hall]. inversion Hsort as [|? ? Hsort' Hlt]; subst.
  pose proof Hall as [[Hgv Hbv] _]%Forall_cons. apply Forall_cons in Hlt as [Hpv _].
  destruct (IH v Hsort' Hall) as (Hle & Hin & Hex & Hcov & Htot). clear IH.
  assert (List.last (prev :: v :: l) prev = List.last (v :: l) v) as Hlast.
  { change (List.last (v :: l) prev = List.last (v :: l) v). apply last_default. }
  cbn zeta. rewrite Hlast. set (last := List.last (v :: l) v) in *.
  pose proof (grid_apart prev v Hgp Hgv Hpv) as Hap.
  assert (sub64 v prev = v - prev) as Hsub by (unfold sub64; apply wrap64_id; unfold in_i64, MinInt64, MaxInt64 in *; lia).
  cbn [innerGaps]. rewrite Hsub, Hs. set (inner := innerGaps cfg v l) in *.
  assert (Forall (exactGap (prev + step) (last - step)) inner) as Hex'.
  { eapply Forall_impl; [exact Hex|]. intros r [[? ?] [? ?] ? ?]. split; [split; [done|lia]|done..]. }
  assert (∀ t, t < v → ¬ Exists (λ r, covers r t) inner) as Hbelow.
  { intros t Ht He. apply Exists_exists in He as (r & Hr & Hc). rewrite Forall_forall in Hex.
    destruct (Hex r Hr) as [[_ ?] _ _ _]. unfold covers in Hc. lia. }
  assert (∀ t, t ∈ v :: l → v ≤ t) as Habove.
  { intros t [->|Ht]%elem_of_cons; [lia|]. inversion Hsort' as [|? ? _ Hf]; subst. rewrite Forall_forall in Hf.
    specialize (Hf t Ht). lia. }
  assert (∀ t, onGrid t → prev ≤ t ≤ last → t = prev ∨ prev + step ≤ t < v ∨ v ≤ t) as Hcase.
  { intros t Hg Ht. destruct (Z.eq_dec t prev) as [|Hne]; [by left|right].
    pose proof (grid_apart prev t Hgp Hg ltac:(lia)). lia. }
  split; [lia|]. split; [by right|]. destruct (Z.leb_spec (v - prev) step) as [Hnogap|Hgap].
  - split; [done|]. split; [|rewrite length_cons; lia]. intros t Hg Ht. rewrite elem_of_cons.
    destruct (Hcase t Hg Ht) as [->|[Hmid|Hv]]; [|lia|].
    + split; [intros _; apply Hbelow; lia|by left].
    + rewrite <- Hcov by (done || lia). split; [intros [->|?]; [lia|done]|by right].
  - destruct (buildGap_exact cfg (prev + step) (v - step) Hs) as (Hg & Hst & Hen);
      [by apply onGrid_shift|by apply onGrid_shift| |lia|].
    { pose proof (grid_apart (prev + step) v) as Hap2. discharge Hap2; [by apply onGrid_shift|done|lia|lia]. }
    assert (add64 prev step = prev + step) as -> by (unfold add64; apply wrap64_id; unfold in_i64, MinInt64, MaxInt64 in *; lia).
    assert (sub64 v step = v - step) as -> by (unfold sub64; apply wrap64_id; unfold in_i64, MinInt64, MaxInt64 in *; lia).
    set (g := buildGap cfg (prev + step) (v - step) step) in *. split_and!.
    + apply Forall_cons. split; [|done]. destruct Hg as [[? ?] [? ?] ? ?]. split; [split; [done|lia]|split; [done|lia]|done..].
    + intros t Hgt Ht. rewrite elem_of_cons, Exists_cons. unfold covers at 1. rewrite Hst, Hen.
      destruct (Hcase t Hgt Ht) as [->|[Hmid|Hv]].
      * split; [intros _ [?|He]; [lia|apply Hbelow in He; [done|lia]]|by left].
      * assert (t ≤ v - step) by (pose proof (grid_apart t v Hgt Hgv ltac:(lia)); lia).
        split; [intros [->|Hin']; [lia|apply Habove in Hin'; lia]|intros Hno; destruct Hno; left; lia].
      * specialize (Hcov t Hgt ltac:(lia)). split; [intros [->|Hin']; [lia|]|].
        -- intros [?|He]; [lia|]. by apply (proj1 Hcov Hin').
        -- intros Hno. right. apply Hcov. intros He. apply Hno. by right.
    + unfold totalMissing in *. rewrite fmap_cons, length_cons. cbn [foldr]. destruct Hg as [_ _ _ Hcount]. rewrite Hst, Hen in Hcount. lia.
Qed.
End grid.

(** ** Sorting and repeated values *)

Section unique.
Context {GR : GoRuntime}.

Lemma uniqueAfter_spec l prev :
  Sorted (λ a b, (b <? a) = false) (prev :: l) →
  StronglySorted Z.lt (prev :: uniqueAfter prev l) ∧ ∀ t, t ∈ prev :: uniqueAfter prev l ↔ t ∈ prev :: l.
Proof.
  revert prev. induction l as [|v l IH]; intros prev Hs; [by split; [repeat constructor|]|].
  inversion Hs as [|? ? Hs' Hhd]; subst. inversion Hhd as [|? ? Hle]; subst. apply Z.ltb_ge in Hle.
  destruct (IH v Hs') as [Hss Hin]. cbn [uniqueAfter]. destruct (Z.eqb_spec v prev) as [->|Hne]; cbn [negb].
  - split; [done|]. intros t. rewrite Hin, !elem_of_cons. tauto.
  - split.
    + apply SSorted_cons; [done|]. apply Forall_cons. split; [lia|]. inversion Hss as [|? ? _ Hf]; subst.
      eapply Forall_impl; [exact Hf|]. cbn. lia.
    + intros t. rewrite elem_of_cons, Hin, (elem_of_cons (v :: l)). done.
Qed.

Lemma sorted_slice ts : Sorted (λ a b, (b <? a) = false) (sort_slice Z.ltb ts) ∧ sort_slice Z.ltb ts ≡ₚ ts.
Proof.
  split; [|apply sort_slice_perm]. apply sort_slice_sorted. split.
  - intros x y _ _ H%Z.ltb_lt. apply Z.ltb_ge. lia.
  - intros x y z _ _ _ H%Z.ltb_lt. rewrite !Z.ltb_lt. lia.
Qed.
End unique.

Lemma last_greatest l d x : StronglySorted Z.lt (d :: l) → x ∈ d :: l → x ≤ List.last (d :: l) d.
Proof.
  revert d x. induction l as [|v l IH]; intros d x Hs Hx.
  { by apply list_elem_of_singleton in Hx as ->. }
  inversion Hs as [|? ? Hs' Hf]; subst. apply Forall_cons in Hf as [Hdv _].
  change (x ≤ List.last (v :: l) d). rewrite (last_default v d v).
  apply elem_of_cons in Hx as [->|Hx]; [|by apply IH].
  transitivity v; [lia|]. apply IH; [done|by left].
Qed.

Lemma StronglySorted_lt_NoDup l : StronglySorted Z.lt l → NoDup l.
Proof.
  induction 1 as [|x l _ IH Hf]; [apply NoDup_nil_2|]. apply NoDup_cons. split; [|done].
  intros Hin. rewrite Forall_forall in Hf. specialize (Hf x Hin). lia.
Qed.

Lemma foldr_add_app l l' : foldr Z.add 0 (l ++ l') = foldr Z.add 0 l + foldr Z.add 0 l'.
Proof. induction l; cbn; lia. Qed.

(** ** Claims *)

Section claims.
Context {GR : GoRuntime}.

(** The reports say exactly which expected window starts between [from] and [to]
    are not in [ts], each counted once. *)
Definition exactly_missing (from to step : Z) (ts : list Z) (reports : list GapReport) : Prop :=
  (∀ t, onGrid from step t → from ≤ t ≤ to → t ∈ ts ↔ ¬ Exists (λ r, covers r t) reports) ∧
  Forall (exactGap from step from to) reports ∧
  (totalMissing reports + Z.of_nat (length (remove_dups ts))) * step = to - from + step.

Lemma reportGaps_exact cfg from to ts :
  let step := ExpectedStepMs cfg in
  0 < step → MinInt64 ≤ from ≤ to → to ≤ MaxInt64 → to - from < MaxInt64 → onGrid from step to →
  Forall (λ t, onGrid from step t ∧ from ≤ t ≤ to) ts →
  exactly_missing from to step ts (reportGaps cfg from to ts).
Proof.
  intros step Hstep Hfrom Hto Hspan Hgto Hts. assert (onGrid from step from) as Hgfrom by (exists 0; lia).
  pose proof (buildGap_exact from step Hstep from to Hspan cfg) as Hbuild.
  unfold reportGaps. fold step. destruct ts as [|t0 ts0] eqn:Ets.
  { destruct (Hbuild from to eq_refl Hgfrom Hgto ltac:(lia) ltac:(lia)) as (Hg & Hst & Hen).
    unfold buildGap in Hg, Hst, Hen. rewrite (proj2 (Z.leb_le from to)) in Hg, Hst, Hen by lia.
    set (m := add64 _ 1) in *. destruct Hg as [H1 H2 H3 Hc]. cbn in Hc.
    assert (0 < m) by nia. rewrite (proj2 (Z.leb_gt m 0)) by lia. split_and!.
    - intros t _ Ht. rewrite elem_of_nil, Exists_cons, Exists_nil. unfold covers. cbn. split; [done|]. intros Hno. apply Hno. by left.
    - apply Forall_singleton. by split.
    - cbn. lia. }
  assert (ts ≠ []) as Hne by (by rewrite Ets). rewrite <- Ets in *. clear Ets t0 ts0.
  destruct (sorted_slice ts) as [Hsorted Hperm]. destruct (sort_slice Z.ltb ts) as [|first rest0].
  { by apply Permutation_nil_l in Hperm. }
  destruct (uniqueAfter_spec rest0 first Hsorted) as [Hss Hin]. cbn [uniqueOf].
  set (l := uniqueAfter first rest0) in *.
  assert (∀ t, t ∈ first :: l ↔ t ∈ ts) as Hmem by (intros t; rewrite Hin; by rewrite Hperm).
  assert (Forall (λ t, onGrid from step t ∧ from ≤ t ≤ to) (first :: l)) as Hall.
  { apply Forall_forall. intros t Ht. rewrite Forall_forall in Hts. by apply Hts, Hmem. }
  assert (length (remove_dups ts) = length (first :: l)) as Hlen.
  { apply Permutation_length, NoDup_Permutation; [apply NoDup_remove_dups| |intros t; by rewrite elem_of_remove_dups, Hmem].
    eapply StronglySorted_lt_NoDup; exact Hss. }
  destruct (innerGaps_spec from step Hstep from to ltac:(lia) Hto Hspan cfg l first eq_refl Hss Hall)
    as (Hle & Hlast & Hex & Hcov & Htot).
  set (last := List.last (first :: l) first) in *. set (inner := innerGaps cfg first l) in *.
  pose proof Hall as [[Hgf Hbf] _]%Forall_cons. rewrite Forall_forall in Hall. destruct (Hall last Hlast) as [Hgl Hbl].
  assert (∀ t, t ∈ ts → first ≤ t ≤ last) as Hbounds.
  { intros t Ht. apply Hmem in Ht. split.
    - apply elem_of_cons in Ht as [->|Ht]; [lia|]. inversion Hss as [|? ? _ Hf]; subst. rewrite Forall_forall in Hf.
      specialize (Hf t Ht). lia.
    - by apply last_greatest. }
  clearbody last inner.
  assert (from < first → sub64 first step = first - step) as Hsub.
  { intros Hlt. pose proof (grid_apart from step Hstep from first Hgfrom Hgf Hlt). unfold sub64. apply wrap64_id.
    unfold in_i64, MinInt64, MaxInt64 in *. lia. }
  assert (last < to → add64 last step = last + step) as Hadd.
  { intros Hlt. pose proof (grid_apart from step Hstep last to Hgl Hgto Hlt). unfold add64. apply wrap64_id.
    unfold in_i64, MinInt64, MaxInt64 in *. lia. }
  destruct (runGap_spec from step Hstep from to Hspan cfg from first eq_refl Hgfrom Hgf) as (Hhex & Hhtot & Hhcov); [lia..|].
  destruct (runGap_spec from step Hstep from to Hspan cfg (last + step) (to + step) eq_refl) as (Htex & Httot & Htcov);
    [by apply onGrid_shift|by apply onGrid_shift|lia..|].
  assert ((if from <? first then [buildGap cfg from (sub64 first step) step] else []) =
    if from <? first then [buildGap cfg from (first - step) step] else []) as ->.
  { destruct (Z.ltb_spec from first); [by rewrite Hsub|done]. }
  assert ((if last <? to then [buildGap cfg (add64 last step) to step] else []) =
    if last + step <? to + step then [buildGap cfg (last + step) (to + step - step) step] else []) as ->.
  { destruct (Z.ltb_spec last to), (Z.ltb_spec (last + step) (to + step)); try lia; [|done].
    rewrite Hadd by done. by replace (to + step - step) with to by lia. }
  set (head := if from <? first then _ else _) in *. set (tail := if last + step <? to + step then _ else _) in *. clearbody head tail.
  assert (∀ rs lo hi, Forall (exactGap from step lo hi) rs → from ≤ lo → hi ≤ to → Forall (exactGap from step from to) rs) as Hwiden.
  { intros rs a b Hrs ? ?. eapply Forall_impl; [exact Hrs|]. intros r [[? ?] [? ?] ? ?]. split; [split; [done|lia]|split; [done|lia]|done..]. }
  split_and!.
  - intros t Hgt Ht. rewrite !Exists_app, (Hhcov t Hgt), (Htcov t Hgt). rewrite <- Hmem.
    destruct (decide (first ≤ t ≤ last)) as [Hmid|Hout].
    + rewrite (Hcov t Hgt Hmid). split; [intros Hno [?|[?|?]]; [lia|done|lia]|tauto].
    + split; [intros Hin'%Hmem; specialize (Hbounds t Hin'); lia|]. intros Hno. exfalso. apply Hno.
      destruct (Z.lt_ge_cases t first); [left; lia|]. right. right.
      pose proof (grid_apart from step Hstep last t Hgl Hgt ltac:(lia)). lia.
  - rewrite !Forall_app. split_and!; [by eapply Hwiden; [exact Hhex|lia..]|by eapply Hwiden; [exact Hex|lia..]|by eapply Hwiden; [exact Htex|lia..]].
  - rewrite Hlen, length_cons. unfold totalMissing in *. rewrite !fmap_app, !foldr_add_app. lia.
Qed.

Lemma DetectCandleGaps_exact reader cfg ts :
  let from := FromMs cfg in let to := ToMs cfg in let step := ExpectedStepMs cfg in
  GetCandleTimestamps reader (cfg_Venue cfg) (cfg_Instrument cfg) (cfg_Timeframe cfg) from to = inr ts →
  from ≠ 0 → to ≠ 0 → 0 < step → MinInt64 ≤ from ≤ to → to ≤ MaxInt64 → to - from < MaxInt64 → onGrid from step to →
  Forall (λ t, onGrid from step t ∧ from ≤ t ≤ to) ts →
  ∃ reports, DetectCandleGaps (Some reader) cfg = inr reports ∧ exactly_missing from to step ts reports.
Proof.
  intros from to step Hread Hf0 Ht0 Hstep Hfrom Hto Hspan Hgto Hts. exists (reportGaps cfg from to ts).
  split; [|by apply reportGaps_exact]. unfold DetectCandleGaps, resolveBound. fold from to step.
  rewrite (proj2 (Z.leb_gt step 0)), (proj2 (Z.eqb_neq from 0)), (proj2 (Z.eqb_neq to 0)), (proj2 (Z.ltb_ge to from)) by (done || lia).
  by rewrite Hread.
Qed.

(** The gap report is exact. For a range and candles aligned to the expected
    step, a window start of the range is covered by a reported gap exactly when
    the store has no candle for it; every gap is a run of whole windows within the
    range, and the counts of missing windows and of distinct candles add up to the
    number of windows of the range. *)
Theorem gaps_are_exactly_the_missing_windows reader cfg ts :
  let from := FromMs cfg in let to := ToMs cfg in let step := ExpectedStepMs cfg in
  GetCandleTimestamps reader (cfg_Venue cfg) (cfg_Instrument cfg) (cfg_Timeframe cfg) from to = inr ts →
  from ≠ 0 → to ≠ 0 → 0 < step → MinInt64 ≤ from ≤ to → to ≤ MaxInt64 → to - from < MaxInt64 → onGrid from step to →
  Forall (λ t, onGrid from step t ∧ from ≤ t ≤ to) ts →
  ∃ reports, DetectCandleGaps (Some reader) cfg = inr reports ∧ exactly_missing from to step ts reports.
Proof. apply DetectCandleGaps_exact. Qed.
End claims.

Definition w_gapCfg : GapDetectorConfig := MkGapDetectorConfig "BINANCE" "BTCUSDT" "1m" 60000 600000 60000.
Definition w_reader : CandleReader :=
  MkCandleReader (λ _ _ _, inr None) (λ _ _ _, inr None) (λ _ _ _ _ _, inr [120000; 300000; 120000; 180000]).

Lemma gaps_are_exactly_the_missing_windows_witness :
  DetectCandleGaps (GR:=go_amd64) (Some w_reader) w_gapCfg =
    inr [MkGapReport "BINANCE" "BTCUSDT" "1m" 60000 60000 1; MkGapReport "BINANCE" "BTCUSDT" "1m" 240000 240000 1;
         MkGapReport "BINANCE" "BTCUSDT" "1m" 360000 600000 5] ∧
  ∃ reports, DetectCandleGaps (GR:=go_amd64) (Some w_reader) w_gapCfg = inr reports ∧
    exactly_missing 60000 600000 60000 [120000; 300000; 120000; 180000] reports.
Proof.
  split; [vm_compute; reflexivity|].
  apply (gaps_are_exactly_the_missing_windows (GR:=go_amd64) w_reader w_gapCfg [120000; 300000; 120000; 180000]).
  - reflexivity.
  - discriminate.
  - discriminate.
  - reflexivity.
  - cbn. unfold MinInt64. lia.
  - cbn. unfold MaxInt64. lia.
  - cbn. unfold MaxInt64. lia.
  - exists 9. reflexivity.
  - repeat apply Forall_cons_2; [split; [exists 1; reflexivity|cbn; lia]|split; [exists 4; reflexivity|cbn; lia]
      |split; [exists 1; reflexivity|cbn; lia]|split; [exists 2; reflexivity|cbn; lia]|apply Forall_nil_2].
Defined.
