(* ===== verification/Hash.v ===== *)
(** * Hash: internal/shared/hash

    The FNV-1a-64 digests used for idempotency keys, and the incremental
    [FieldHasher]. SHA-256 ([HashBytes], [HashFields]) is not modelled: the
    modelled components only use the fast digests. *)

From S2P Require Import Prelude GoRuntime.
From Stdlib Require Import Ascii.

Local Open Scope string_scope.
Local Open Scope list_scope.
Local Open Scope Z_scope.

Definition fnv64aOffset : Z := 14695981039346656037.
Definition fnv64aPrime : Z := 1099511628211.

(** [h ^= b; h *= fnv64aPrime] on uint64. *)
Definition fnvByte (h b : Z) : Z := wrapu64 (Z.lxor h b * fnv64aPrime).

(** [for j := 0; j < len(f); j++ { h ^= uint64(f[j]); h *= fnv64aPrime }] *)
Fixpoint fnvString (h : Z) (f : string) : Z :=
  match f with
  | EmptyString => h
  | String c f' => fnvString (fnvByte h (Z.of_N (N_of_ascii c))) f'
  end.

(** The eight steps on the bytes of [u], big-endian. *)
Definition fnvUint64 (h u : Z) : Z :=
  foldl (λ h shift, fnvByte h (Z.land (Z.shiftr u shift) 255)) h [56; 48; 40; 32; 24; 16; 8; 0].

(** The loop over the fields after the first. *)
Fixpoint sumFields (h : Z) (fields : list string) : Z :=
  match fields with
  | [] => h
  | f :: rest => sumFields (fnvString (fnvByte h 0) f) rest
  end.

Definition SumFieldsFast64 (fields : list string) : Z :=
  match fields with
  | [] => fnv64aOffset
  | f :: rest => sumFields (fnvString fnv64aOffset f) rest
  end.

(** ** [strconv.FormatUint(h, 16)] *)

Definition hexDigit (d : Z) : ascii := ascii_of_N (Z.to_N (if d <? 10 then 48 + d else 87 + d)).
(** A uint64 has at most sixteen hexadecimal digits. *)
Fixpoint hexDigits (fuel : nat) (u : Z) (acc : string) : string :=
  match fuel with
  | O => acc
  | S fuel' =>
      let acc := String (hexDigit (Z.land u 15)) acc in
      if u <? 16 then acc else hexDigits fuel' (Z.shiftr u 4) acc
  end.
Definition FormatUint16 (u : Z) : string := hexDigits 16 u "".

Definition HashFieldsFast (fields : list string) : string := FormatUint16 (SumFieldsFast64 fields).

Section floats.
Context {GR : GoRuntime}.
(** The loop over the values after the first. *)
Definition hashFloats (h : Z) (values : list float64) : Z :=
  foldl (λ h v, fnvUint64 (fnvByte h 0) (Float64bits v)) h values.
Definition HashFloat64Sequence (values : list float64) : string :=
  FormatUint16 (match values with
                | [] => fnv64aOffset
                | v :: rest => hashFloats (fnvUint64 fnv64aOffset (Float64bits v)) rest
                end).
End floats.

Definition SumIdempotencyKeyFast64 (venue instrument eventType : string) (seq : Z) : Z :=
  let h := fnvString fnv64aOffset venue in
  let h := fnvString (fnvByte h 0) instrument in
  let h := fnvString (fnvByte h 0) eventType in
  let h := fnvByte h 0 in
  fnvUint64 h (wrapu64 seq).

Definition IdempotencyKeyFast (venue instrument eventType : string) (seq : Z) : string :=
  FormatUint16 (SumIdempotencyKeyFast64 venue instrument eventType seq).

(** ** internal/shared/hash/field_hasher.go *)

Record FieldHasher := MkFieldHasher { fh_h : Z; fh_count : Z }.
#[export] Instance FieldHasher_eta : Eta FieldHasher := λ r, MkFieldHasher (fh_h r) (fh_count r).

Definition NewFieldHasher : FieldHasher := MkFieldHasher fnv64aOffset 0.
Definition separator (f : FieldHasher) : FieldHasher :=
  let f := if 0 <? fh_count f then f <| fh_h ::= λ h, fnvByte h 0 |> else f in
  f <| fh_count := add64 (fh_count f) 1 |>.
Definition HashString (s : string) (f : FieldHasher) : FieldHasher :=
  let f := separator f in f <| fh_h ::= λ h, fnvString h s |>.
Definition HashInt64 (v : Z) (f : FieldHasher) : FieldHasher :=
  let f := separator f in f <| fh_h ::= λ h, fnvUint64 h (wrapu64 v) |>.
Definition HashFloat64 {GR : GoRuntime} (v : float64) (f : FieldHasher) : FieldHasher :=
  let f := separator f in f <| fh_h ::= λ h, fnvUint64 h (Float64bits v) |>.
Definition HashInt (v : Z) (f : FieldHasher) : FieldHasher := HashInt64 v f.
Definition Sum64 (f : FieldHasher) : Z := fh_h f.
Definition Hex (f : FieldHasher) : string := FormatUint16 (fh_h f).

(** ** One step of FNV-1a is a permutation of the digests *)

Definition u64 (z : Z) : Prop := 0 ≤ z < 18446744073709551616.
Definition byte8 (b : Z) : Prop := 0 ≤ b < 256.

Lemma wrapu64_range z : u64 (wrapu64 z).
Proof. unfold u64, wrapu64. apply Z.mod_pos_bound. lia. Qed.

Lemma wrapu64_mul_l a b : wrapu64 (wrapu64 a * b) = wrapu64 (a * b).
Proof. apply Zmult_mod_idemp_l. Qed.

(** The inverse of the (odd) prime modulo 2^64. *)
Definition fnvPrimeInverse : Z := 14886173955864302971.

Lemma fnv_unmul x : u64 x → wrapu64 (wrapu64 (x * fnv64aPrime) * fnvPrimeInverse) = x.
Proof.
  intros Hx. rewrite wrapu64_mul_l, <- Z.mul_assoc. unfold wrapu64.
  rewrite Z.mul_mod by lia. change ((fnv64aPrime * fnvPrimeInverse) mod _) with 1.
  rewrite Z.mul_1_r, Z.mod_mod, Z.mod_small by (unfold u64 in Hx; lia). done.
Qed.

Lemma lxor_range n a b : 0 ≤ n → 0 ≤ a < 2 ^ n → 0 ≤ b < 2 ^ n → 0 ≤ Z.lxor a b < 2 ^ n.
Proof.
  intros Hn [Ha0 Ha] [Hb0 Hb]. split; [apply Z.lxor_nonneg; lia|].
  destruct (Z.eq_dec (Z.lxor a b) 0) as [->|Hne]; [lia|].
  apply Z.log2_lt_pow2; [pose proof (proj2 (Z.lxor_nonneg a b)); lia|].
  eapply Z.le_lt_trans; [apply Z.log2_lxor; lia|].
  assert (0 < n) by (destruct (Z.eq_dec n 0) as [->|]; [|lia]; assert (a = 0 ∧ b = 0) as [-> ->] by lia; done).
  apply Z.max_lub_lt;
    match goal with |- Z.log2 ?x < _ => destruct (Z.eq_dec x 0) as [->|]; [done|apply Z.log2_lt_pow2; lia] end.
Qed.

Lemma fnvByte_inj h h' b b' :
  u64 h → u64 h' → byte8 b → byte8 b' → fnvByte h b = fnvByte h' b' → Z.lxor h b = Z.lxor h' b'.
Proof.
  intros Hh Hh' Hb Hb' Heq. unfold u64, byte8 in *.
  rewrite <- (fnv_unmul (Z.lxor h b)), <- (fnv_unmul (Z.lxor h' b')).
  - unfold fnvByte in Heq. by rewrite Heq.
  - apply (lxor_range 64); lia.
  - apply (lxor_range 64); lia.
Qed.

Lemma lxor_cancel_r a b c : Z.lxor a c = Z.lxor b c → a = b.
Proof.
  intros H. apply (f_equal (λ z, Z.lxor z c)) in H.
  by rewrite !Z.lxor_assoc, Z.lxor_nilpotent, !Z.lxor_0_r in H.
Qed.

Lemma fnvByte_range h b : u64 (fnvByte h b).
Proof. apply wrapu64_range. Qed.

(** The digest of a sequence of bytes from [h]. *)
Definition fnv1a (h : Z) (bytes : list Z) : Z := foldl fnvByte h bytes.

Lemma fnv1a_range h bytes : u64 h → u64 (fnv1a h bytes).
Proof.
  revert h. induction bytes as [|b bytes IH]; intros h Hh; [done|]. apply IH, fnvByte_range.
Qed.

Lemma fnv1a_inj_start bytes h h' :
  u64 h → u64 h' → Forall byte8 bytes → fnv1a h bytes = fnv1a h' bytes → h = h'.
Proof.
  revert h h'. induction bytes as [|b bytes IH]; intros h h' Hh Hh' Hb Heq; [done|].
  apply Forall_cons in Hb as [Hb Hbs]. apply IH in Heq; [|apply fnvByte_range..|done].
  apply fnvByte_inj in Heq; [|done..]. by eapply lxor_cancel_r.
Qed.

(** ** The fields as one sequence of bytes *)

Fixpoint bytesOf (s : string) : list Z :=
  match s with
  | EmptyString => []
  | String c s' => Z.of_N (N_of_ascii c) :: bytesOf s'
  end.
Definition bytesBE (u : Z) : list Z :=
  (λ shift, Z.land (Z.shiftr u shift) 255) <$> [56; 48; 40; 32; 24; 16; 8; 0].
(** The encodings of the fields, each but the first after a NUL byte. *)
Fixpoint joined (fields : list (list Z)) : list Z :=
  match fields with
  | [] => []
  | [f] => f
  | f :: rest => f ++ 0 :: joined rest
  end.

Lemma fnvString_bytes h s : fnvString h s = fnv1a h (bytesOf s).
Proof. revert h. induction s as [|c s IH]; intros h; [done|]. apply IH. Qed.
Lemma fnvUint64_bytes h u : fnvUint64 h u = fnv1a h (bytesBE u).
Proof. done. Qed.
Lemma fnv1a_app h l l' : fnv1a h (l ++ l') = fnv1a (fnv1a h l) l'.
Proof. apply foldl_app. Qed.

Lemma fnv1a_cons h b l : fnv1a h (b :: l) = fnv1a (fnvByte h b) l.
Proof. done. Qed.

(** Every byte counts: messages that differ in one byte have different digests. *)
Lemma fnv1a_one_byte h pre b b' post :
  u64 h → byte8 b → byte8 b' → Forall byte8 post →
  fnv1a h (pre ++ b :: post) = fnv1a h (pre ++ b' :: post) → b = b'.
Proof.
  intros Hh Hb Hb' Hpost. rewrite !fnv1a_app, !fnv1a_cons. intros Heq.
  apply fnv1a_inj_start in Heq; [|apply fnvByte_range..|done].
  apply fnvByte_inj in Heq; [|by apply fnv1a_range|by apply fnv1a_range|done..].
  rewrite !(Z.lxor_comm (fnv1a h pre)) in Heq. by eapply lxor_cancel_r.
Qed.

Lemma joined_cons f g rest : joined (f :: g :: rest) = f ++ 0 :: joined (g :: rest).
Proof. done. Qed.

Lemma sumFields_joined h f rest :
  sumFields (fnvString h f) rest = fnv1a h (joined (bytesOf <$> (f :: rest))).
Proof.
  revert h f. induction rest as [|g rest IH]; intros h f; [apply fnvString_bytes|].
  cbn [sumFields]. rewrite IH. rewrite !fmap_cons, joined_cons, fnv1a_app, <- fnvString_bytes. done.
Qed.

Lemma SumFieldsFast64_joined fields : SumFieldsFast64 fields = fnv1a fnv64aOffset (joined (bytesOf <$> fields)).
Proof. destruct fields as [|f rest]; [done|]. apply sumFields_joined. Qed.

(** ** The incremental hasher *)

(** The fields given to a [FieldHasher]. *)
Inductive field := FString (s : string) | FInt64 (v : Z) | FFloat64 (v : float64).

Section field_hasher.
Context {GR : GoRuntime}.

Definition addField (f : FieldHasher) (x : field) : FieldHasher :=
  match x with
  | FString s => HashString s f
  | FInt64 v => HashInt64 v f
  | FFloat64 v => HashFloat64 v f
  end.
Definition fieldBytes (x : field) : list Z :=
  match x with
  | FString s => bytesOf s
  | FInt64 v => bytesBE (wrapu64 v)
  | FFloat64 v => bytesBE (Float64bits v)
  end.

Lemma addField_first x : fh_h (addField NewFieldHasher x) = fnv1a fnv64aOffset (fieldBytes x).
Proof. destruct x; cbn; [apply fnvString_bytes|done|done]. Qed.

Lemma addField_next f x :
  0 < fh_count f → fh_h (addField f x) = fnv1a (fh_h f) (0 :: fieldBytes x).
Proof.
  intros Hc. apply Z.ltb_lt in Hc. destruct f as [h n]; cbn in Hc.
  destruct x; cbn [addField]; unfold HashString, HashInt64, HashFloat64, separator;
    cbn [fh_count]; rewrite Hc; cbn; [apply fnvString_bytes|done|done].
Qed.

Lemma addField_count f x : 0 ≤ fh_count f < MaxInt64 → fh_count (addField f x) = fh_count f + 1.
Proof.
  intros Hc. destruct f as [h n]; cbn in Hc.
  assert (add64 n 1 = n + 1) as Hadd by (apply wrap64_id; unfold in_i64, MinInt64, MaxInt64 in *; lia).
  destruct x; cbn; unfold separator; cbn; destruct (0 <? n); cbn; exact Hadd.
Qed.

Lemma addFields_next xs f :
  0 < fh_count f → fh_count f + Z.of_nat (length xs) ≤ MaxInt64 →
  fh_h (foldl addField f xs) = fnv1a (fh_h f) (xs ≫= λ x, 0 :: fieldBytes x).
Proof.
  revert f. induction xs as [|x xs IH]; intros f Hc Hn; [done|].
  rewrite length_cons in Hn. cbn [foldl]. rewrite IH by (rewrite addField_count by lia; lia).
  rewrite addField_next by done. by rewrite bind_cons, fnv1a_app.
Qed.

Lemma joined_bind x xs :
  joined (fieldBytes <$> (x :: xs)) = fieldBytes x ++ (xs ≫= λ y, 0 :: fieldBytes y).
Proof.
  revert x. induction xs as [|y xs IH]; intros x; [cbn; by rewrite app_nil_r|].
  rewrite !fmap_cons, joined_cons, <- fmap_cons, IH. by rewrite bind_cons.
Qed.

Lemma addFields_joined xs :
  Z.of_nat (length xs) ≤ MaxInt64 →
  Sum64 (foldl addField NewFieldHasher xs) = fnv1a fnv64aOffset (joined (fieldBytes <$> xs)).
Proof.
  unfold Sum64. destruct xs as [|x xs]; [done|]. rewrite length_cons. intros Hn.
  cbn [foldl]. assert (fh_count (addField NewFieldHasher x) = 1) as Hc by by destruct x.
  rewrite addFields_next by (rewrite Hc; lia).
  by rewrite addField_first, joined_bind, fnv1a_app.
Qed.
End field_hasher.

(** ** Claims *)

(** The four ways of hashing agree. Whatever the fields, a [FieldHasher] fed
    with them one by one holds the FNV-1a digest of their encodings joined by NUL
    bytes; [SumFieldsFast64] is that digest of its strings and
    [SumIdempotencyKeyFast64] that of its three strings and the sequence, so all
    of them give interchangeable keys. And every byte counts: messages of one
    length that differ in exactly one byte have different digests. *)
Theorem hashers_agree {GR : GoRuntime} (xs : list field) (ss : list string) venue instrument eventType seq pre b b' post :
  Z.of_nat (length xs) ≤ MaxInt64 → byte8 b → byte8 b' → Forall byte8 post → b ≠ b' →
  Sum64 (foldl addField NewFieldHasher xs) = fnv1a fnv64aOffset (joined (fieldBytes <$> xs)) ∧
  SumFieldsFast64 ss = fnv1a fnv64aOffset (joined (bytesOf <$> ss)) ∧
  SumIdempotencyKeyFast64 venue instrument eventType seq =
    Sum64 (HashInt64 seq (HashString eventType (HashString instrument (HashString venue NewFieldHasher)))) ∧
  fnv1a fnv64aOffset (pre ++ b :: post) ≠ fnv1a fnv64aOffset (pre ++ b' :: post).
Proof.
  intros Hn Hb Hb' Hpost Hne. split_and!; [by apply addFields_joined|apply SumFieldsFast64_joined| |].
  2: { intros Heq. apply Hne. by apply fnv1a_one_byte in Heq. }
  pose proof (addFields_joined [FString venue; FString instrument; FString eventType; FInt64 seq]) as H.
  cbn [foldl addField] in H. rewrite H by done. unfold SumIdempotencyKeyFast64.
  rewrite !fnvString_bytes, fnvUint64_bytes. cbn [joined fmap list_fmap fieldBytes].
  by repeat (rewrite fnv1a_app || rewrite fnv1a_cons).
Qed.

Lemma hashers_agree_witness :
  SumFieldsFast64 ["BINANCE"; "BTCUSDT"] =
    Sum64 (HashString "BTCUSDT" (HashString "BINANCE" NewFieldHasher)) ∧
  fnv1a fnv64aOffset [97; 0; 98] ≠ fnv1a fnv64aOffset [97; 0; 99].
Proof.
  pose proof (hashers_agree (GR:=go_amd64) [FString "BINANCE"; FString "BTCUSDT"] ["BINANCE"; "BTCUSDT"]
    "BINANCE" "BTCUSDT" "marketdata.trade" 7 [97; 0] 98 99 []) as H.
  destruct H as (H1 & H2 & _ & H4); [discriminate|unfold byte8; lia|unfold byte8; lia|apply Forall_nil_2|discriminate|].
  split; [rewrite H2; symmetry; exact H1|exact H4].
Defined.
