(* ===== verification/Envelope.v ===== *)
(** * Envelope: internal/shared/envelope/envelope.go, subject.go

    The wrapper of every event on the bus: its validation, its routing keys and
    its content types. Payloads are byte lists. *)

From stdpp Require Import pretty.
From S2P Require Import Prelude GoRuntime Shared.

Local Open Scope string_scope.
Local Open Scope list_scope.
Local Open Scope Z_scope.

Definition ContentTypeJSON : string := "application/json".
Definition ContentTypeProto : string := "application/protobuf".

Record Envelope := MkEnvelope {
  Type_ : string;
  Version : Z;
  Venue : string;
  Instrument : string;
  TsExchange : Z;
  TsIngest : Z;
  Seq : Z;
  IdempotencyKey : string;
  ContentType : string;
  Meta : gmap string string;
  Payload : list Z;
  topicKey : string;
}.
#[export] Instance Envelope_eta : Eta Envelope := λ r,
  MkEnvelope (Type_ r) (Version r) (Venue r) (Instrument r) (TsExchange r) (TsIngest r) (Seq r) (IdempotencyKey r)
    (ContentType r) (Meta r) (Payload r) (topicKey r).

(** [strconv.Itoa] *)
Definition Itoa (z : Z) : string := pretty z.

Section envelope.
Context {GR : GoRuntime}.

Definition NormalizeContentType (contentType : string) : Problem + string :=
  let c := ToLower (TrimSpace contentType) in
  if str_eqb c "" then inr ContentTypeJSON
  else if str_eqb c ContentTypeJSON then inr ContentTypeJSON
  else if str_eqb c ContentTypeProto then inr ContentTypeProto
  else inl (with_detail (with_detail (Newf ValidationFailed "unsupported envelope content_type %q" [AnyStr contentType])
         "field" (AnyStr "content_type")) "value" (AnyStr contentType)).

(** A problem about a field, without and with its value. *)
Definition badField (msg field : string) : Problem :=
  with_detail (New ValidationFailed msg) "field" (AnyStr field).
Definition badValue (format field : string) (value : Z) : Problem :=
  with_detail (with_detail (Newf ValidationFailed format [AnyInt value]) "field" (AnyStr field)) "value" (AnyInt value).

Definition Validate : Meth Envelope Problem unit :=
  e ← recv;
  fail_if (str_eqb (TrimSpace (Type_ e)) "") (badField "envelope type must not be empty" "type") ;;
  fail_if (Version e <? 1) (badValue "envelope version must be >= 1, got %d" "version" (Version e)) ;;
  fail_if (str_eqb (TrimSpace (Venue e)) "") (badField "envelope venue must not be empty" "venue") ;;
  fail_if (str_eqb (TrimSpace (Instrument e)) "") (badField "envelope instrument must not be empty" "instrument") ;;
  fail_if (TsIngest e <=? 0) (badValue "envelope ts_ingest must be positive, got %d" "ts_ingest" (TsIngest e)) ;;
  fail_if (Seq e <? 0) (badValue "envelope seq must be non-negative, got %d" "seq" (Seq e)) ;;
  fail_if (str_eqb (TrimSpace (IdempotencyKey e)) "")
    (badField "envelope idempotency_key must not be empty" "idempotency_key") ;;
  contentType ← try_ (NormalizeContentType (ContentType e));
  assign (λ e, e <| ContentType := contentType |>) ;;
  fail_if (Z.of_nat (length (Payload e)) =? 0) (badField "envelope payload must not be empty" "payload").

(** The key is computed once and cached in the envelope. *)
Definition TopicKey (e : Envelope) : Envelope * string :=
  if negb (str_eqb (topicKey e) "") then (e, topicKey e) else
  let venue := ToLower (TrimSpace (Venue e)) in
  let instrument := ToLower (TrimSpace (Instrument e)) in
  let eventType := ToLower (TrimSpace (Type_ e)) in
  let key := (eventType ++ "." ++ venue ++ "." ++ instrument)%string in
  (e <| topicKey := key |>, key).

(** The map is copied: the original is not changed. *)
Definition WithMeta (key value : string) (e : Envelope) : Envelope :=
  e <| Meta := <[key := value]> (Meta e) |>.

(** ** subject.go *)

Definition isUpperAlphaNumeric (s : string) : bool :=
  str_forallb (λ ch, let n := Ascii.N_of_ascii ch in
    ((65 <=? n) && (n <=? 90) || (48 <=? n) && (n <=? 57))%N) s.

Definition normalizeSubjectInstrument (instrument : string) : string :=
  let raw := ToUpper (TrimSpace instrument) in
  if str_eqb raw "" then "UNKNOWN"
  else if isUpperAlphaNumeric raw then raw
  else
    let b := if is_ascii raw then str_filter is_alnum raw else alnum_unicode raw in
    if str_eqb b "" then "UNKNOWN" else b.

Definition SubjectFromEnvelope (env : Envelope) : string :=
  let eventType := ToLower (TrimSpace (Type_ env)) in
  let eventType := if str_eqb eventType "" then "unknown" else eventType in
  let version := if Version env <=? 0 then 1 else Version env in
  let venue := ToLower (TrimSpace (Venue env)) in
  let venue := if str_eqb venue "" then "unknown" else venue in
  let instrument := normalizeSubjectInstrument (Instrument env) in
  (eventType ++ ".v" ++ Itoa version ++ "." ++ venue ++ "." ++ instrument)%string.

(** ** What validation establishes *)

Record validEnvelope (e : Envelope) : Prop := {
  valid_type : TrimSpace (Type_ e) ≠ "";
  valid_version : 1 ≤ Version e;
  valid_venue : TrimSpace (Venue e) ≠ "";
  valid_instrument : TrimSpace (Instrument e) ≠ "";
  valid_ts : 0 < TsIngest e;
  valid_seq : 0 ≤ Seq e;
  valid_key : TrimSpace (IdempotencyKey e) ≠ "";
  valid_content : ContentType e = ContentTypeJSON ∨ ContentType e = ContentTypeProto;
  valid_payload : Payload e ≠ [];
}.

Lemma NormalizeContentType_ok c t :
  NormalizeContentType c = inr t → t = ContentTypeJSON ∨ t = ContentTypeProto.
Proof. unfold NormalizeContentType. repeat case_match; intros; simplify_eq; auto. Qed.

Lemma NormalizeContentType_idem c t : NormalizeContentType c = inr t → NormalizeContentType t = inr t.
Proof. intros [-> | ->]%NormalizeContentType_ok; reflexivity. Qed.

Lemma str_eqb_false a b : str_eqb a b = false → a ≠ b.
Proof. apply String.eqb_neq. Qed.

(** A valid envelope is only changed in the spelling of its content type. *)
Lemma envelope_Validate_ok e e' :
  Validate e = (e', inr tt) → validEnvelope e' ∧ ∃ c, e' = e <| ContentType := c |>.
Proof.
  unfold Validate. intros H. inv_ok H. reflect_bools.
  repeat match goal with H : str_eqb _ _ = false |- _ => apply str_eqb_false in H end.
  match goal with H : NormalizeContentType _ = inr _ |- _ => apply NormalizeContentType_ok in H end.
  match goal with H : Z.of_nat (length (Payload e)) ≠ 0 |- _ => rename H into Hp end.
  split; [|by eexists]. split; cbn; try done; try lia. intros Hnil. by rewrite Hnil in Hp.
Qed.

Lemma NormalizeContentType_fails c p : NormalizeContentType c = inl p → Code p = ValidationFailed.
Proof. unfold NormalizeContentType. repeat case_match; intros; by simplify_eq. Qed.

Lemma envelope_Validate_fails : fails_with (λ p, Code p = ValidationFailed) Validate.
Proof. unfold Validate. solve_fails; try done. apply NormalizeContentType_fails. Qed.
End envelope.
