(* ===== verification/Sequencer.v ===== *)
(** * Sequencer: the sequence numbers of a stream

    [Sequencer] is the port of core/marketdata/ports (an object with state whose
    [Next] gives the next number for a venue and instrument key) and
    [seq_contract] what it promises its callers: every number is greater than
    all earlier ones for the same pair. The ingest use case is proved against
    the contract; [inMemSequencer] of cmd/consumer/bootstrap.go discharges it
    here and [ReplaySequencer] in Replay. *)

From S2P Require Import Prelude GoRuntime Shared.

Local Open Scope string_scope.
Local Open Scope list_scope.
Local Open Scope Z_scope.

Class Sequencer := {
  SeqState : Type;
  Next : string → string → Meth SeqState Problem Z;
}.

Section contract.
Context {SQ : Sequencer}.

(** The answers to a sequence of calls. *)
Fixpoint answers (calls : list (string * string)) (s : SeqState) : list (Problem + Z) :=
  match calls with
  | [] => []
  | (v, k) :: rest => let '(s', r) := Next v k s in r :: answers rest s'
  end.

(** For at most [n] calls, the numbers given for one pair strictly increase. *)
Definition seq_contract (n : nat) (s : SeqState) : Prop :=
  ∀ calls i j pair a b, (length calls ≤ n)%nat → (i < j)%nat →
    calls !! i = Some pair → calls !! j = Some pair →
    answers calls s !! i = Some (inr a) → answers calls s !! j = Some (inr b) → a < b.

Lemma seq_contract_le n m s : (m ≤ n)%nat → seq_contract n s → seq_contract m s.
Proof. intros Hle Hc calls i j pair a b Hlen. apply Hc. lia. Qed.

(** The contract from a lower bound on the next number of each pair that every
    call respects; [inv n] is a state good for [n] more calls. *)
Section bound.
Context (inv : nat → SeqState → Prop) (floor : SeqState → string → string → Z).
Hypothesis step : ∀ n s v k s' r, inv (S n) s → Next v k s = (s', r) →
  inv n s' ∧ (∀ v' k', floor s v' k' ≤ floor s' v' k') ∧
  (∀ a, r = inr a → floor s v k < a ≤ floor s' v k).

Lemma answers_above n calls s j v k b :
  (length calls ≤ n)%nat → inv n s → calls !! j = Some (v, k) → answers calls s !! j = Some (inr b) → floor s v k < b.
Proof.
  revert n s j. induction calls as [|[v0 k0] calls IH]; intros n s j Hlen Hinv Hj Hb; [done|].
  destruct n as [|n]; [cbn in Hlen; lia|]. cbn [answers] in Hb.
  destruct (Next v0 k0 s) as [s' r] eqn:Hrun. destruct (step n s v0 k0 s' r Hinv Hrun) as (Hinv' & Hmono & Hr).
  destruct j as [|j]; cbn in Hj, Hb.
  - simplify_eq. by apply Hr.
  - eapply Z.le_lt_trans; [apply Hmono|]. eapply (IH n); [cbn in Hlen; lia|done..].
Qed.

Lemma floor_contract n s : inv n s → seq_contract n s.
Proof.
  intros Hinv calls. revert n s Hinv. induction calls as [|[v0 k0] calls IH]; intros n s Hinv i j [v k] a b Hlen Hij Hi Hj Ha Hb;
    [done|]. destruct n as [|n]; [cbn in Hlen; lia|]. cbn [answers] in Ha, Hb.
  destruct (Next v0 k0 s) as [s' r] eqn:Hrun. destruct (step n s v0 k0 s' r Hinv Hrun) as (Hinv' & Hmono & Hr).
  destruct j as [|j]; [lia|]. cbn in Hj, Hb, Hlen. destruct i as [|i]; cbn in Hi, Ha.
  - simplify_eq. eapply Z.le_lt_trans; [by apply Hr|]. apply (answers_above n calls s' j v k b); [lia|done..].
  - apply (IH n s' Hinv' i j (v, k) a b); [lia|lia|done..].
Qed.
End bound.
End contract.

(** ** cmd/consumer/bootstrap.go: inMemSequencer *)

(** [nowUnix] is the method value [time.Now().UnixMilli]: its receiver is bound
    when the sequencer is built, so every call returns the construction time. *)
Record inMemSequencer := MkInMemSequencer { seqs : gmap string Z; nowUnix : Z }.
#[export] Instance inMemSequencer_eta : Eta inMemSequencer := λ r, MkInMemSequencer (seqs r) (nowUnix r).

Definition newInMemSequencer (now : Z) : inMemSequencer := MkInMemSequencer ∅ now.

Definition inMemNext (venue instrument : string) : Meth inMemSequencer Problem Z := λ s,
  let key := (venue ++ ":" ++ instrument)%string in
  let s := match seqs s !! key with
           | Some _ => s
           | None => s <| seqs ::= <[key := mul64 (nowUnix s) 1000]> |>
           end in
  let n := add64 (default 0 (seqs s !! key)) 1 in
  (s <| seqs ::= <[key := n]> |>, inr n).

Definition inMem : Sequencer := {| SeqState := inMemSequencer; Next := inMemNext |}.

(** The last number of a pair, or the seed of a pair that has none yet. *)
Definition inMemLast (s : inMemSequencer) (v k : string) : Z :=
  default (mul64 (nowUnix s) 1000) (seqs s !! (v ++ ":" ++ k)%string).

(** No pair runs out of numbers within [n] calls. *)
Definition inMemOk (n : nat) (s : inMemSequencer) : Prop :=
  ∀ v k, 0 ≤ inMemLast s v k ∧ inMemLast s v k + Z.of_nat n ≤ MaxInt64.

Lemma inMemNext_run v k s :
  0 ≤ inMemLast s v k < MaxInt64 →
  inMemNext v k s = (s <| seqs ::= <[(v ++ ":" ++ k)%string := inMemLast s v k + 1]> |>, inr (inMemLast s v k + 1)).
Proof.
  intros Hr. unfold inMemNext. set (key := (v ++ ":" ++ k)%string).
  assert (add64 (inMemLast s v k) 1 = inMemLast s v k + 1) as Hadd
    by (apply wrap64_id; unfold in_i64, MinInt64, MaxInt64 in *; lia).
  unfold inMemLast in *. fold key in Hadd, Hr |- *. destruct (seqs s !! key) as [x|] eqn:Hx; cbn [from_option] in *; unfold id in *.
  - rewrite Hx. cbn. by rewrite Hadd.
  - destruct s as [m t]. cbn in *. rewrite lookup_insert_eq. cbn. rewrite Hadd. unfold upd; cbn. by rewrite insert_insert_eq.
Qed.

Lemma inMem_step n s v k s' r :
  inMemOk (S n) s → inMemNext v k s = (s', r) →
  inMemOk n s' ∧ (∀ v' k', inMemLast s v' k' ≤ inMemLast s' v' k') ∧
  (∀ a, r = inr a → inMemLast s v k < a ≤ inMemLast s' v k).
Proof.
  intros Hok. pose proof (Hok v k) as [H0 H1]. rewrite inMemNext_run by lia. intros [= <- <-].
  set (s' := s <| seqs ::= _ |>).
  assert (∀ v' k', inMemLast s' v' k' = inMemLast s v' k' ∨ inMemLast s' v' k' = inMemLast s v k + 1 ∧
    inMemLast s v' k' = inMemLast s v k) as Hl.
  { intros v' k'. unfold inMemLast at 1 3. cbn [s' seqs nowUnix upd].
    destruct (decide ((v' ++ ":" ++ k')%string = (v ++ ":" ++ k)%string)) as [Heq|Hne].
    - right. unfold inMemLast. rewrite Heq. cbn. by rewrite lookup_insert_eq.
    - left. unfold inMemLast. cbn. by rewrite lookup_insert_ne. }
  assert (inMemLast s' v k = inMemLast s v k + 1) as Hself.
  { unfold inMemLast at 1. cbn. by rewrite lookup_insert_eq. }
  split_and!.
  - intros v' k'. destruct (Hok v' k'), (Hl v' k') as [->|[-> _]]; lia.
  - intros v' k'. destruct (Hl v' k') as [->|[-> ->]]; lia.
  - intros a [= <-]. lia.
Qed.

(** The sequencer keeps its contract until the counters are exhausted. *)
Lemma inMem_contract now n :
  0 ≤ now → now * 1000 + Z.of_nat n ≤ MaxInt64 → seq_contract (SQ:=inMem) n (newInMemSequencer now).
Proof.
  intros H0 Hn. apply (floor_contract (SQ:=inMem) inMemOk inMemLast); [intros *; apply inMem_step|].
  intros v k. unfold inMemLast. cbn. rewrite lookup_empty. cbn.
  unfold mul64. rewrite wrap64_id by (unfold in_i64, MinInt64, MaxInt64 in *; lia). lia.
Qed.

(** ** Restarts *)

(** All numbers of [n] calls lie within [n] of the seed. *)
Lemma inMem_answers n calls s j b lo hi :
  (length calls ≤ n)%nat → inMemOk n s → (∀ v k, lo ≤ inMemLast s v k ≤ hi) →
  answers (SQ:=inMem) calls s !! j = Some (inr b) → lo < b ≤ hi + Z.of_nat (length calls).
Proof.
  revert n s j lo hi. induction calls as [|[v k] calls IH]; intros n s j lo hi Hlen Hok Hb Hj; [done|].
  destruct n as [|n]; [cbn in Hlen; lia|]. cbn [answers Next inMem] in Hj.
  destruct (inMemNext v k s) as [s' r] eqn:Hrun. destruct (inMem_step n s v k s' r Hok Hrun) as (Hok' & Hmono & Hr).
  pose proof (Hok v k) as [H0 H1]. rewrite inMemNext_run in Hrun by lia. injection Hrun as <- <-.
  destruct j as [|j]; cbn in Hj.
  - simplify_eq. pose proof (Hb v k). cbn. lia.
  - apply (IH n _ j lo (hi + 1)) in Hj; [cbn; lia|cbn in Hlen; lia|done|].
    intros v' k'. pose proof (Hmono v' k'). pose proof (Hb v' k'). split; [lia|].
    unfold inMemLast at 1. cbn [seqs nowUnix upd].
    destruct (decide ((v' ++ ":" ++ k')%string = (v ++ ":" ++ k)%string)) as [Heq|Hne].
    + rewrite Heq, lookup_insert_eq. cbn. pose proof (Hb v k). lia.
    + rewrite lookup_insert_ne by done. change (inMemLast s v' k' ≤ hi + 1). lia.
Qed.

(** ** Claims *)

(** The in-memory sequencer never repeats or goes back, even across a restart.
    Within a process the numbers of a pair strictly increase; and a process
    started at [t2] gives only numbers greater than all those of one started at
    [t1] that gave at most a thousand per millisecond in between. *)
Theorem sequence_numbers_never_go_back t1 t2 calls1 calls2 :
  0 ≤ t1 ≤ t2 → Z.of_nat (length calls1) ≤ 1000 * (t2 - t1) →
  1000 * t2 + Z.of_nat (length calls2) ≤ MaxInt64 →
  seq_contract (SQ:=inMem) (length calls2) (newInMemSequencer t2) ∧
  ∀ i j a b, answers (SQ:=inMem) calls1 (newInMemSequencer t1) !! i = Some (inr a) →
    answers (SQ:=inMem) calls2 (newInMemSequencer t2) !! j = Some (inr b) → a < b.
Proof.
  intros Ht Hrate Hmax. split; [apply inMem_contract; lia|]. intros i j a b Ha Hb.
  assert (∀ t v k, 0 ≤ t → 1000 * t ≤ MaxInt64 → inMemLast (newInMemSequencer t) v k = 1000 * t) as Hseed.
  { intros t v k H0 H1. unfold inMemLast. cbn. rewrite lookup_empty. cbn. unfold mul64.
    rewrite wrap64_id by (unfold in_i64, MinInt64, MaxInt64 in *; lia). lia. }
  apply (inMem_answers (length calls1) _ _ _ _ (1000 * t1) (1000 * t1)) in Ha;
    [|lia|intros v k; rewrite Hseed by lia; lia..].
  apply (inMem_answers (length calls2) _ _ _ _ (1000 * t2) (1000 * t2)) in Hb;
    [|lia|intros v k; rewrite Hseed by lia; lia..].
  lia.
Qed.

Lemma sequence_numbers_never_go_back_witness :
  answers (SQ:=inMem) [("BINANCE", "BTCUSDT:SPOT"); ("BINANCE", "BTCUSDT:SPOT")] (newInMemSequencer 1700000000000)
    = [inr 1700000000000001; inr 1700000000000002] ∧
  1700000000000002 < 1700000000001001.
Proof.
  split; [vm_compute; reflexivity|].
  apply (sequence_numbers_never_go_back 1700000000000 1700000000001
    [("BINANCE", "BTCUSDT:SPOT"); ("BINANCE", "BTCUSDT:SPOT")] [("BINANCE", "BTCUSDT:SPOT")]) with (i := 1%nat) (j := 0%nat).
  - lia.
  - cbn. lia.
  - unfold MaxInt64. cbn. lia.
  - vm_compute. reflexivity.
  - vm_compute. reflexivity.
Defined.
