(* ===== verification/Replay.v ===== *)
(** * Replay: internal/shared/replay/sequencer.go, player.go, validation.go

    The sequencer that hands recorded sequence numbers back during a replay, the
    player's loop and the validation hooks. The fixture reader is the list of
    what [Reader.Next] returns, the payload decoder and SHA-256 are parameters,
    and the handler is a method on a state of its own. *)

From S2P Require Import Prelude GoRuntime Shared Envelope Sequencer.

Local Open Scope string_scope.
Local Open Scope list_scope.
Local Open Scope Z_scope.

Definition replayDefaultMarketType : string := "SPOT".

Record ReplaySequencer := MkReplaySequencer {
  queued : gmap string (list Z);
  lastQueued : gmap string Z;
}.
#[export] Instance ReplaySequencer_eta : Eta ReplaySequencer := λ r, MkReplaySequencer (queued r) (lastQueued r).

Definition NewReplaySequencer : ReplaySequencer := MkReplaySequencer ∅ ∅.

Section sequencer.
Context {GR : GoRuntime}.

Definition replayMarketTypeFromMeta (meta : gmap string string) : string :=
  if Z.of_nat (size meta) =? 0 then replayDefaultMarketType else
  let raw := ToUpper (TrimSpace (default "" (meta !! "instrument_market_type"))) in
  if str_eqb raw "" then replayDefaultMarketType else raw.

Definition replaySequencerKey (venue instrumentKey : string) : string :=
  (CanonicalVenue venue ++ "|" ++ ToUpper (TrimSpace instrumentKey))%string.

Definition replaySequencerKeyFromEnvelope (env : Envelope) : string :=
  let marketType := replayMarketTypeFromMeta (Meta env) in
  let instrumentKey := (CanonicalInstrument (Instrument env) ++ ":" ++ marketType)%string in
  replaySequencerKey (Venue env) instrumentKey.

Definition Enqueue (env : Envelope) : Meth ReplaySequencer Problem unit :=
  let key := replaySequencerKeyFromEnvelope env in
  let seq := Seq env in
  s ← recv;
  match lastQueued s !! key with
  | Some prev =>
      fail_if (seq <=? prev)
        (with_detail (Newf ValidationFailed "non-monotonic fixture sequence for stream=%q: prev=%d current=%d"
           [AnyStr key; AnyInt prev; AnyInt seq]) "stream" (AnyStr key))
  | None => mret tt
  end ;;
  assign (λ s, s <| lastQueued ::= <[key := seq]> |>) ;;
  assign (λ s, s <| queued ::= <[key := default [] (queued s !! key) ++ [seq]]> |>).

Definition replayNext (venue instrumentKey : string) : Meth ReplaySequencer Problem Z :=
  let key := replaySequencerKey venue instrumentKey in
  s ← recv;
  match default [] (queued s !! key) with
  | [] => throw (with_detail (Newf ValidationFailed "replay sequence not queued for stream=%q" [AnyStr key])
            "stream" (AnyStr key))
  | [next] => assign (λ s, s <| queued ::= delete key |>) ;; mret next
  | next :: rest => assign (λ s, s <| queued ::= <[key := rest]> |>) ;; mret next
  end.

Definition replay : Sequencer := {| SeqState := ReplaySequencer; Next := replayNext |}.

(** ** player.go *)

Record FixtureRecord := MkFixtureRecord { rec_Envelope : Envelope; rec_SHA256 : string }.
Record ReplaySummary := MkReplaySummary { InputCount : Z; InputSHA : string }.

Definition annotateReplayIndex (p : Problem) (index : Z) : Problem := with_detail p "index" (AnyInt index).

Definition replayStreamKey (env : Envelope) : string := replaySequencerKeyFromEnvelope env.

Definition validateMonotonicSeq (env : Envelope) : Meth (gmap string Z) Problem unit :=
  let stream := replayStreamKey env in
  lastSeqByStream ← recv;
  match lastSeqByStream !! stream with
  | Some prev =>
      fail_if (Seq env <=? prev)
        (with_detail (Newf ValidationFailed "non-monotonic sequence for stream=%q: prev=%d current=%d"
           [AnyStr stream; AnyInt prev; AnyInt (Seq env)]) "stream" (AnyStr stream))
  | None => mret tt
  end ;;
  assign (λ m, <[stream := Seq env]> m).

Section player.
Context {H : Type} (decode : Envelope → option Problem) (handler : Envelope → Meth (ReplaySequencer * H) Problem unit)
  (sha : list string → string).

(** The state of a replay: the fake clock, the injected sequencer with the state
    of the handler (which may call it), and the sequences seen. *)
Record playerState := MkPlayer {
  pl_clock : option Z;
  pl_hasSequencer : bool;
  pl_inner : ReplaySequencer * H;
  pl_lastSeq : gmap string Z;
  pl_shas : list string;
}.
#[export] Instance playerState_eta : Eta playerState := λ r,
  MkPlayer (pl_clock r) (pl_hasSequencer r) (pl_inner r) (pl_lastSeq r) (pl_shas r).

(** A method on a part of the player's state, its error tagged with the index. *)
Definition onPart {S A} (get : playerState → S) (set : S → playerState → playerState) (count : Z)
    (m : Meth S Problem A) : Meth playerState Problem A := λ p,
  let '(s', r) := m (get p) in
  (set s' p, match r with inl e => inl (annotateReplayIndex e count) | inr x => inr x end).

Definition onSequencer {A} (count : Z) (m : Meth ReplaySequencer Problem A) : Meth playerState Problem A :=
  onPart (λ p, (pl_inner p).1) (λ s p, p <| pl_inner ::= λ i, (s, i.2) |>) count m.

(** One iteration of the loop of [Replay]. *)
Definition replayRecord (count : Z) (rec : FixtureRecord) : Meth playerState Problem unit :=
  let env := rec_Envelope rec in
  p ← recv;
  assign (λ p, match pl_clock p with
               | Some _ => p <| pl_clock := Some (TsIngest env) |>
               | None => p
               end) ;;
  (if pl_hasSequencer p then onSequencer count (Enqueue env) else mret tt) ;;
  onPart pl_lastSeq (λ m p, p <| pl_lastSeq := m |>) count (validateMonotonicSeq env) ;;
  onPart (λ _, tt) (λ _ p, p) count (check (decode env)) ;;
  onPart pl_inner (λ i p, p <| pl_inner := i |>) count (handler env) ;;
  assign (λ p, p <| pl_shas ::= λ l, l ++ [ToLower (TrimSpace (rec_SHA256 rec))] |>).

(** The loop over what the reader returns. *)
Fixpoint replayLoop (count : Z) (records : list (Problem + FixtureRecord)) : Meth playerState Problem Z :=
  match records with
  | [] => mret count
  | inl pp :: _ => throw (annotateReplayIndex pp count)
  | inr rec :: rest => replayRecord count rec ;; replayLoop (add64 count 1) rest
  end.

Definition Replay (bootstrap : option Problem) (reader : Problem + list (Problem + FixtureRecord))
    : Meth playerState Problem ReplaySummary :=
  check bootstrap ;;
  records ← try_ reader;
  assign (λ p, p <| pl_lastSeq := ∅ |> <| pl_shas := [] |>) ;;
  count ← replayLoop 0 records;
  p ← recv;
  mret (MkReplaySummary count (sha (pl_shas p))).
End player.
End sequencer.
