(* ===== verification/ReplaySpec.v ===== *)
(** * ReplaySpec: a replay hands the recorded sequence numbers back

    The replay sequencer is a queue per stream: whatever the interleaving of
    [Enqueue] and [Next], the numbers served for a stream followed by those
    still waiting are the numbers accepted for it, in increasing order. *)

From S2P Require Import Prelude GoRuntime Shared Envelope Sequencer Replay.

Local Open Scope string_scope.
Local Open Scope list_scope.
Local Open Scope Z_scope.

Section fifo.
Context {GR : GoRuntime}.

Inductive replay_op := OpEnqueue (env : Envelope) | OpNext (venue instrumentKey : string).

(** The numbers an operation accepted or served, with their stream. *)
Record trace := MkTrace { accepted : list (string * Z); served : list (string * Z) }.

Definition replay_step (s : ReplaySequencer) (t : trace) (op : replay_op) : ReplaySequencer * trace :=
  match op with
  | OpEnqueue env =>
      match Enqueue env s with
      | (s', inr _) => (s', MkTrace (accepted t ++ [(replaySequencerKeyFromEnvelope env, Seq env)]) (served t))
      | (s', inl _) => (s', t)
      end
  | OpNext v k =>
      match replayNext v k s with
      | (s', inr n) => (s', MkTrace (accepted t) (served t ++ [(replaySequencerKey v k, n)]))
      | (s', inl _) => (s', t)
      end
  end.
Definition replay_run (ops : list replay_op) (s : ReplaySequencer) : ReplaySequencer * trace :=
  foldl (λ x op, replay_step x.1 x.2 op) (s, MkTrace [] []) ops.

(** The numbers of one stream in a trace. *)
Definition of_stream (key : string) (l : list (string * Z)) : list Z := (filter (λ x, x.1 = key) l).*2.
Definition waiting (s : ReplaySequencer) (key : string) : list Z := default [] (queued s !! key).

Record fifo (s : ReplaySequencer) (t : trace) : Prop := {
  fifo_balance : ∀ key, of_stream key (served t) ++ waiting s key = of_stream key (accepted t);
  fifo_sorted : ∀ key, StronglySorted Z.lt (of_stream key (accepted t));
  fifo_last : ∀ key, last (of_stream key (accepted t)) = lastQueued s !! key;
}.

Lemma of_stream_snoc key l k n :
  of_stream key (l ++ [(k, n)]) = of_stream key l ++ (if decide (k = key) then [n] else []).
Proof. unfold of_stream. rewrite filter_app, fmap_app. f_equal.
  destruct (decide (k = key)); [by rewrite filter_cons_True|by rewrite filter_cons_False]. Qed.

Lemma StronglySorted_lt_snoc l n :
  StronglySorted Z.lt l → (∀ m, last l = Some m → m < n) → StronglySorted Z.lt (l ++ [n]).
Proof.
  intros Hs Hlast. apply StronglySorted_app; split_and!; [|done|repeat constructor].
  intros x y Hx ->%list_elem_of_singleton. destruct (last l) as [m|] eqn:Hm; [|by apply last_None in Hm as ->; apply elem_of_nil in Hx].
  specialize (Hlast m eq_refl). apply last_Some in Hm as [l' ->].
  apply StronglySorted_app in Hs as (Hall & _ & _). apply elem_of_app in Hx as [Hx|Hx%list_elem_of_singleton]; [|lia].
  specialize (Hall x m Hx). rewrite list_elem_of_singleton in Hall. specialize (Hall eq_refl). lia.
Qed.

Lemma Enqueue_spec env s :
  let key := replaySequencerKeyFromEnvelope env in
  (∃ p prev, Enqueue env s = (s, inl p) ∧ lastQueued s !! key = Some prev ∧ Seq env ≤ prev) ∨
  (Enqueue env s = (s <| lastQueued ::= <[key := Seq env]> |> <| queued ::= <[key := waiting s key ++ [Seq env]]> |>, inr tt) ∧
    ∀ prev, lastQueued s !! key = Some prev → prev < Seq env).
Proof.
  intros key. unfold Enqueue. fold key. unfold_meth. destruct (lastQueued s !! key) as [prev|] eqn:Hl; cbn.
  - destruct (Z.leb_spec (Seq env) prev) as [Hle|Hgt]; [left; eauto|right]. split; [done|]. by intros ? [= <-].
  - right. split; [done|]. by intros ? ?.
Qed.

Lemma replayNext_spec v k s :
  let key := replaySequencerKey v k in
  match waiting s key with
  | [] => ∃ p, replayNext v k s = (s, inl p) ∧ Code p = ValidationFailed
  | n :: rest => ∃ s', replayNext v k s = (s', inr n) ∧ lastQueued s' = lastQueued s ∧
      ∀ key', waiting s' key' = if decide (key = key') then rest else waiting s key'
  end.
Proof.
  intros key. unfold replayNext. fold key. unfold_meth. fold (waiting s key).
  destruct (waiting s key) as [|n [|m rest]] eqn:Hw; [by eexists| |]; eexists; (split; [reflexivity|]);
    (split; [done|]); intros key'; unfold waiting; cbn; case_decide as Hk.
  - subst key'. by rewrite lookup_delete_eq.
  - by rewrite lookup_delete_ne.
  - subst key'. by rewrite lookup_insert_eq.
  - by rewrite lookup_insert_ne.
Qed.

Lemma replay_step_fifo s t op : fifo s t → fifo (replay_step s t op).1 (replay_step s t op).2.
Proof.
  intros [Hb Hs Hl]. destruct op as [env|v k]; cbn [replay_step].
  - destruct (Enqueue_spec env s) as [(p & prev & -> & _)|[-> Hgt]]; [by split|].
    set (key := replaySequencerKeyFromEnvelope env) in *. split; cbn [fst snd accepted served]; intros key'; rewrite of_stream_snoc.
    + unfold waiting at 1. cbn. case_decide as Hk.
      * subst key'. rewrite lookup_insert_eq. cbn. by rewrite app_assoc, Hb.
      * rewrite lookup_insert_ne by done. by rewrite app_nil_r, <- Hb.
    + case_decide as Hk; [|by rewrite app_nil_r]. subst key'. apply StronglySorted_lt_snoc; [done|].
      intros m Hm. rewrite Hl in Hm. by apply Hgt.
    + cbn. case_decide as Hk.
      * subst key'. by rewrite last_snoc, lookup_insert_eq.
      * rewrite app_nil_r, lookup_insert_ne by done. apply Hl.
  - pose proof (replayNext_spec v k s) as Hn. cbn zeta in Hn. set (key := replaySequencerKey v k) in *.
    destruct (waiting s key) as [|n rest] eqn:Hw.
    { destruct Hn as (p & -> & _). by split. }
    destruct Hn as (s' & -> & Hlq & Hw'). split; cbn [fst snd accepted served]; intros key'; [|done|by rewrite Hlq].
    rewrite of_stream_snoc, Hw', <- app_assoc, <- Hb. f_equal. case_decide as Hk; [|done]. by subst key'; rewrite Hw.
Qed.

Lemma replay_run_fifo ops : fifo (replay_run ops NewReplaySequencer).1 (replay_run ops NewReplaySequencer).2.
Proof.
  unfold replay_run. induction ops as [|op ops IH] using rev_ind.
  - split; [done|intros; apply SSorted_nil|done].
  - rewrite foldl_app. cbn [foldl]. by apply replay_step_fifo.
Qed.

(** The key under which the ingest use case asks for the number of an envelope's
    stream is the one it was recorded under. *)
Definition streamKey (env : Envelope) : string :=
  (Instrument env ++ ":" ++ replayMarketTypeFromMeta (Meta env))%string.

(** C39: a replay restores the recorded sequence numbers. Whatever the interleaving
    of [Enqueue] and [Next], the numbers served for a stream followed by those
    still waiting are exactly the numbers accepted for it, strictly increasing:
    none is lost, repeated or given to another stream. And an envelope in
    canonical form that is accepted while its stream has nothing waiting gets its
    own number back from the next request of its stream. *)
Theorem replay_restores_sequences ops env :
  CanonicalInstrument (Instrument env) = Instrument env →
  let '(s, t) := replay_run ops NewReplaySequencer in
  (∀ key, of_stream key (served t) ++ waiting s key = of_stream key (accepted t) ∧
    StronglySorted Z.lt (of_stream key (accepted t))) ∧
  ∀ s', waiting s (replaySequencerKeyFromEnvelope env) = [] → Enqueue env s = (s', inr tt) →
    (replayNext (Venue env) (streamKey env) s').2 = inr (Seq env).
Proof.
  intros Hcanon. pose proof (replay_run_fifo ops) as [Hb Hs _].
  destruct (replay_run ops NewReplaySequencer) as [s t]; cbn [fst snd] in *. split; [by split|].
  intros s' Hw Henq. assert (replaySequencerKey (Venue env) (streamKey env) = replaySequencerKeyFromEnvelope env) as Hkey.
  { unfold replaySequencerKeyFromEnvelope, streamKey. by rewrite Hcanon. }
  pose proof (replayNext_spec (Venue env) (streamKey env) s') as Hn. cbn zeta in Hn. rewrite Hkey in Hn.
  destruct (Enqueue_spec env s) as [(p & prev & Hrun & _)|[Hrun _]]; rewrite Hrun in Henq; [done|].
  injection Henq as Hs'.
  assert (waiting s' (replaySequencerKeyFromEnvelope env) = [Seq env]) as Hw'.
  { rewrite <- Hs', Hw. unfold waiting. cbn. by rewrite lookup_insert_eq. }
  rewrite Hw' in Hn. by destruct Hn as (s2 & -> & _).
Qed.
End fifo.

Definition w_env (seq : Z) : Envelope :=
  MkEnvelope "marketdata.trade" 1 "BINANCE" "BTCUSDT" 0 1000 seq "k" "application/json"
    {[ "instrument_market_type" := "USD_M_FUTURES" ]} [123] "".

Lemma replay_restores_sequences_witness :
  let s := (replay_run (GR:=go_amd64) [OpEnqueue (w_env 7); OpNext "binance" "BTCUSDT:usd_m_futures"] NewReplaySequencer).1 in
  (replayNext (GR:=go_amd64) "BINANCE" (streamKey (GR:=go_amd64) (w_env 9)) (Enqueue (GR:=go_amd64) (w_env 9) s).1).2 = inr 9.
Proof.
  cbn zeta.
  pose proof (replay_restores_sequences (GR:=go_amd64) [OpEnqueue (w_env 7); OpNext "binance" "BTCUSDT:usd_m_futures"]
    (w_env 9) eq_refl) as H.
  destruct (replay_run (GR:=go_amd64) _ _) as [s t] eqn:Hrun. destruct H as [_ H]. cbn [fst].
  pose proof (f_equal fst Hrun) as Hs. cbn [fst] in Hs.
  apply (H (Enqueue (GR:=go_amd64) (w_env 9) s).1).
  - rewrite <- Hs. vm_compute. reflexivity.
  - rewrite <- Hs. vm_compute. reflexivity.
Defined.
