(* ===== verification/InstrumentStream.v ===== *)
(** * InstrumentStream: internal/core/marketdata/domain

    Value objects (value_objects.go, market_type.go, update_sequence.go) and the
    stream aggregate (instrument_stream.go), which turns an event into an
    envelope if its sequence number is new and its idempotency key was not seen
    within the deduplication window. *)

From S2P Require Import Prelude GoRuntime Shared Hash Envelope.

Local Open Scope string_scope.
Local Open Scope list_scope.
Local Open Scope Z_scope.

(** ** Value objects *)

Abbreviation VenueID := string (only parsing).
Abbreviation InstrumentID := string (only parsing).
Abbreviation EventType := string (only parsing).
Abbreviation SchemaVersion := Z (only parsing).
Abbreviation Sequence := Z (only parsing).
Abbreviation Timestamp := Z (only parsing).
Abbreviation DedupWindow := Z (only parsing).
Abbreviation MarketType := string (only parsing).

Definition MarketTypeSpot : MarketType := "SPOT".
Definition MarketTypeUSDMFutures : MarketType := "USD_M_FUTURES".
Definition MarketTypeCOINMFutures : MarketType := "COIN_M_FUTURES".

(** [if p := v; p != nil { return zero, p }; return x, nil] *)
Definition guarded {A} (p : option Problem) (x : A) : Problem + A :=
  match p with Some p => inl p | None => inr x end.

Section value_objects.
Context {GR : GoRuntime}.

Definition NewVenueID (raw : string) : Problem + VenueID :=
  guarded (NonEmptyString "venue_id" raw) (CanonicalVenue raw).
Definition NewInstrumentID (raw : string) : Problem + InstrumentID :=
  guarded (NonEmptyString "instrument_id" raw) (CanonicalInstrument raw).
Definition NewEventType (raw : string) : Problem + EventType :=
  guarded (NonEmptyString "event_type" raw) (NormalizeEventType raw).
Definition NewSchemaVersion (v : Z) : Problem + SchemaVersion :=
  if v <? 1 then inl (with_detail (Newf ValidationFailed "schema_version must be >= 1, got %d" [AnyInt v])
                        "field" (AnyStr "schema_version"))
  else inr v.
Definition NewSequence (s : Z) : Problem + Sequence := guarded (NonNegativeInt "seq" s) s.
Definition NewTimestamp (ms : Z) : Problem + Timestamp := guarded (PositiveInt "timestamp" ms) ms.
Definition NewIdempotencyKey (key : string) : Problem + string := guarded (NonEmptyString "idempotency_key" key) key.
Definition NewDedupWindow (size : Z) : Problem + DedupWindow :=
  if size <=? 0 then inl (with_detail (Newf ValidationFailed "dedup_window must be > 0, got %d" [AnyInt size])
                            "field" (AnyStr "dedup_window"))
  else inr size.

Definition NewMarketType (raw : string) : Problem + MarketType :=
  let v := ToUpper (TrimSpace raw) in
  if str_eqb v MarketTypeSpot || str_eqb v MarketTypeUSDMFutures || str_eqb v MarketTypeCOINMFutures then inr v
  else inl (with_detail
         (Newf ValidationFailed "market_type must be SPOT|USD_M_FUTURES|COIN_M_FUTURES, got %q" [AnyStr raw])
         "field" (AnyStr "market_type")).
End value_objects.

Record UpdateSequence := MkUpdateSequence { us_First : Z; us_Final : Z }.
Definition NewUpdateSequence (first final : Z) : Problem + UpdateSequence :=
  if first <=? 0 then inl (with_detail (New ValidationFailed "update_sequence.first must be > 0")
                             "field" (AnyStr "update_sequence.first"))
  else if final <=? 0 then inl (with_detail (New ValidationFailed "update_sequence.final must be > 0")
                                  "field" (AnyStr "update_sequence.final"))
  else if final <? first then
    inl (with_detail (Newf ValidationFailed "update_sequence.final must be >= first (first=%d final=%d)"
                        [AnyInt first; AnyInt final]) "field" (AnyStr "update_sequence"))
  else inr (MkUpdateSequence first final).

(** ** The stream *)

Inductive StreamState := StreamHealthy | StreamNeedsAttention.

Record StreamHealth := MkStreamHealth {
  sh_LastSeq : Sequence;
  sh_OutOfOrderCount : Z;
  sh_DuplicateCount : Z;
  sh_IsHealthy : bool;
  sh_State : StreamState;
}.

Record StreamID := MkStreamID {
  sid_Venue : VenueID;
  sid_Instrument : InstrumentID;
  sid_MarketType : MarketType;
}.
#[export] Instance StreamID_eq_dec : EqDecision StreamID.
Proof. solve_decision. Defined.
#[export] Instance StreamID_countable : Countable StreamID.
Proof.
  refine (inj_countable' (λ s, (sid_Venue s, sid_Instrument s, sid_MarketType s))
    (λ '(v, i, m), MkStreamID v i m) _). by intros [].
Defined.

Definition SequencerInstrumentKey (s : StreamID) : string := (sid_Instrument s ++ ":" ++ sid_MarketType s)%string.

Record InstrumentStream := MkInstrumentStream {
  is_id : StreamID;
  dedupWindow : DedupWindow;
  lastSeq : Sequence;
  seen : gset Z;
  seenOrd : list Z;
  outOfOrderCount : Z;
  duplicateCount : Z;
}.
#[export] Instance InstrumentStream_eta : Eta InstrumentStream := λ r,
  MkInstrumentStream (is_id r) (dedupWindow r) (lastSeq r) (seen r) (seenOrd r) (outOfOrderCount r) (duplicateCount r).

Abbreviation StreamM := (Meth InstrumentStream Problem).

Definition Health (s : InstrumentStream) : StreamHealth :=
  let state := if (0 <? outOfOrderCount s) || (0 <? duplicateCount s) then StreamNeedsAttention else StreamHealthy in
  MkStreamHealth (lastSeq s) (outOfOrderCount s) (duplicateCount s)
    (match state with StreamHealthy => true | StreamNeedsAttention => false end) state.

(** The panic of [s.seenOrd[0]] on an empty slice. *)
Definition seenPanic : Problem := New Internal "runtime error: index out of range [0] with length 0".

(** The compaction of the backing array does not change the slice. *)
Definition recordSeen (ikeyHash : Z) : StreamM unit :=
  s ← recv;
  (if dedupWindow s <=? Z.of_nat (length (seenOrd s)) then
     match seenOrd s with
     | [] => throw seenPanic
     | oldest :: rest =>
         assign (λ s, s <| seenOrd := rest |>) ;;
         assign (λ s, s <| seen ::= λ m, m ∖ {[oldest]} |>)
     end
   else mret tt) ;;
  assign (λ s, s <| seen ::= λ m, {[ikeyHash]} ∪ m |>) ;;
  assign (λ s, s <| seenOrd ::= λ l, l ++ [ikeyHash] |>).

Definition buildIdempotencyKey (venue : VenueID) (instrument : InstrumentID) (eventType : EventType) (seq : Sequence)
    : string := IdempotencyKeyFast venue instrument eventType seq.

(** The inputs of [BuildEnvelope]. *)
Record BuildInput := MkBuildInput {
  bi_EventType : EventType;
  bi_Version : SchemaVersion;
  bi_TsExchange : Timestamp;
  bi_TsIngest : Timestamp;
  bi_Seq : Sequence;
  bi_ContentType : string;
  bi_Payload : list Z;
  bi_Source : string;
}.

(** The idempotency key of an input and its digest. *)
Definition inputKey (id : StreamID) (x : BuildInput) : string * Z :=
  if negb (str_eqb (bi_Source x) "") then (bi_Source x, SumFieldsFast64 [bi_Source x])
  else (buildIdempotencyKey (sid_Venue id) (sid_Instrument id) (bi_EventType x) (bi_Seq x),
        SumIdempotencyKeyFast64 (sid_Venue id) (sid_Instrument id) (bi_EventType x) (bi_Seq x)).

Definition outOfOrderProblem (id : StreamID) (seq last : Sequence) : Problem :=
  with_detail (with_detail (Newf OutOfOrder "seq %d is not greater than last seq %d for %s/%s"
    [AnyInt seq; AnyInt last; AnyStr (sid_Venue id); AnyStr (sid_Instrument id)])
    "seq" (AnyInt seq)) "last_seq" (AnyInt last).
Definition duplicateProblem (ikey : string) : Problem :=
  with_detail (Newf Duplicate "duplicate event for key %s" [AnyStr ikey]) "idempotency_key" (AnyStr ikey).

Section stream.
Context {GR : GoRuntime}.

Definition NewInstrumentStreamWithMarketType (rawVenue rawInstrument rawMarketType : string) (window : DedupWindow)
    : Problem + InstrumentStream :=
  match NewVenueID rawVenue with inl p => inl p | inr venue =>
  match NewInstrumentID rawInstrument with inl p => inl p | inr instrument =>
  let rawMarketType := if str_eqb rawMarketType "" then MarketTypeSpot else rawMarketType in
  match NewMarketType rawMarketType with inl p => inl p | inr marketType =>
  if window <=? 0 then inl (New ValidationFailed "dedup_window must be > 0") else
  inr (MkInstrumentStream (MkStreamID venue instrument marketType) window 0 ∅ [] 0 0)
  end end end.

Definition NewInstrumentStream (rawVenue rawInstrument : string) (window : DedupWindow) : Problem + InstrumentStream :=
  NewInstrumentStreamWithMarketType rawVenue rawInstrument MarketTypeSpot window.

Definition BuildEnvelope (x : BuildInput) : StreamM Envelope :=
  s ← recv;
  let id := is_id s in
  if (bi_Seq x <=? lastSeq s) && (0 <? lastSeq s) then
    assign (λ s, s <| outOfOrderCount := add64 (outOfOrderCount s) 1 |>) ;;
    throw (outOfOrderProblem id (bi_Seq x) (lastSeq s))
  else
  let '(ikey, ikeyHash) := inputKey id x in
  if bool_decide (ikeyHash ∈ seen s) then
    assign (λ s, s <| duplicateCount := add64 (duplicateCount s) 1 |>) ;;
    throw (duplicateProblem ikey)
  else
  let env := MkEnvelope (bi_EventType x) (bi_Version x) (sid_Venue id) (sid_Instrument id) (bi_TsExchange x)
    (bi_TsIngest x) (bi_Seq x) ikey (bi_ContentType x) ∅ (bi_Payload x) "" in
  validated ← on_local env Validate;
  assign (λ s, s <| lastSeq := bi_Seq x |>) ;;
  recordSeen ikeyHash ;;
  mret validated.1.
End stream.
