(* ===== verification/InstrumentStreamSpec.v ===== *)
(** * InstrumentStreamSpec: a stream accepts events in order and once per window

    The stream refines a log of accepted events: its last sequence is that of
    the log, and its cache holds the digests of the last [dedupWindow] of them.
    The decision on every event is read off the log. *)

From S2P Require Import Prelude GoRuntime Shared Hash Envelope InstrumentStream.

Local Open Scope string_scope.
Local Open Scope list_scope.
Local Open Scope Z_scope.

Section stream_spec.
Context {GR : GoRuntime}.

Abbreviation log := (list (BuildInput * Envelope)).

Definition inputHash (id : StreamID) (x : BuildInput) : Z := (inputKey id x).2.
Definition hashes (id : StreamID) (l : log) : list Z := (λ y, inputHash id y.1) <$> l.
Definition lastAccepted (l : log) : Z := default 0 ((λ y, bi_Seq y.1) <$> last l).
Definition window (s : InstrumentStream) : nat := Z.to_nat (dedupWindow s).

(** Sequence numbers grow; only the initial number 0 may repeat. *)
Definition later (a b : Z) : Prop := a < b ∨ (a = 0 ∧ b = 0).

Record stream_inv (s : InstrumentStream) (l : log) : Prop := {
  si_window : 0 < dedupWindow s;
  si_ord : seenOrd s = lastN (window s) (hashes (is_id s) l);
  si_nodup : NoDup (seenOrd s);
  si_seen : seen s = list_to_set (seenOrd s);
  si_last : lastSeq s = lastAccepted l;
  si_sorted : StronglySorted later ((λ y, bi_Seq y.1) <$> l);
  si_distinct : ∀ i j yi yj, l !! i = Some yi → l !! j = Some yj → (i < j ≤ i + window s)%nat →
    inputHash (is_id s) yi.1 ≠ inputHash (is_id s) yj.1;
  si_nonneg : Forall (λ y, 0 ≤ bi_Seq y.1 ∧ Seq y.2 = bi_Seq y.1 ∧ validEnvelope y.2) l;
}.

(** The decision on an event, given the log. *)
Definition tooOld (l : log) (x : BuildInput) : bool := (bi_Seq x <=? lastAccepted l) && (0 <? lastAccepted l).
Definition repeated (s : InstrumentStream) (l : log) (x : BuildInput) : bool :=
  bool_decide (inputHash (is_id s) x ∈ lastN (window s) (hashes (is_id s) l)).

Lemma recordSeen_run s h :
  0 < dedupWindow s →
  recordSeen h s = (s <| seen := {[h]} ∪ (if dedupWindow s <=? Z.of_nat (length (seenOrd s))
                                          then (match seenOrd s with o :: _ => seen s ∖ {[o]} | [] => seen s end) else seen s) |>
                      <| seenOrd := (if dedupWindow s <=? Z.of_nat (length (seenOrd s))
                                     then tail (seenOrd s) else seenOrd s) ++ [h] |>, inr tt).
Proof.
  intros Hw. unfold recordSeen. unfold_meth.
  destruct (Z.leb_spec (dedupWindow s) (Z.of_nat (length (seenOrd s)))) as [Hle|Hgt]; [|by destruct s].
  destruct s as [sid w lq se [|o rest] oo du]; cbn in *; [lia|done].
Qed.

Lemma window_full s l :
  stream_inv s l → (dedupWindow s <=? Z.of_nat (length (seenOrd s))) = true → (window s ≤ length (hashes (is_id s) l))%nat.
Proof.
  intros [Hw Ho _ _ _ _ _ _] Hle%Z.leb_le. rewrite Ho, lastN_length in Hle. unfold window in *. lia.
Qed.

Lemma StronglySorted_snoc_later l n :
  StronglySorted later l → Forall (λ x, 0 ≤ x) l → 0 ≤ n →
  (∀ m, last l = Some m → m < n ∨ m ≤ 0) → StronglySorted later (l ++ [n]).
Proof.
  intros Hs Hnn Hn Hlast. apply StronglySorted_app; split_and!; [|done|repeat constructor].
  intros x y Hx ->%list_elem_of_singleton.
  destruct (last l) as [m|] eqn:Hm; [|by apply last_None in Hm as ->; apply elem_of_nil in Hx].
  specialize (Hlast m eq_refl). rewrite Forall_forall in Hnn. pose proof (Hnn x Hx).
  apply last_Some in Hm as [l' ->]. apply StronglySorted_app in Hs as (Hall & _ & _).
  pose proof (Hnn m ltac:(apply elem_of_app; right; by apply list_elem_of_singleton)) as Hm0.
  assert (x = m ∨ later x m) as Hxm.
  { apply elem_of_app in Hx as [Hx|Hx%list_elem_of_singleton]; [right|by left].
    apply (Hall x m Hx). by apply list_elem_of_singleton. }
  unfold later in *. lia.
Qed.

(** Accepting an event keeps the cache in step with the log. *)
Lemma accept_inv s l x e s' :
  stream_inv s l → tooOld l x = false → repeated s l x = false →
  Seq e = bi_Seq x → validEnvelope e →
  recordSeen (inputHash (is_id s) x) (s <| lastSeq := bi_Seq x |>) = (s', inr tt) →
  stream_inv s' (l ++ [(x, e)]) ∧ is_id s' = is_id s ∧ dedupWindow s' = dedupWindow s.
Proof.
  intros Hinv Hold Hrep HSeq Hval Hrun. pose proof Hinv as [Hw Ho Hnd Hse Hl Hsort Hdist Hnn].
  unfold tooOld, repeated in *. rewrite <- Ho in Hrep. apply bool_decide_eq_false in Hrep.
  rewrite recordSeen_run in Hrun by done. cbn [dedupWindow seenOrd seen upd] in Hrun.
  pose proof (window_full s l Hinv) as Hfull.
  assert (hashes (is_id s) (l ++ [(x, e)]) = hashes (is_id s) l ++ [inputHash (is_id s) x]) as Hh
    by (unfold hashes; by rewrite fmap_app).
  destruct s as [sid w lq se ord oo du]; unfold upd in Hrun; cbn in *.
  set (full := w <=? Z.of_nat (length ord)) in *.
  set (kept := if full then tail ord else ord).
  assert (s' = MkInstrumentStream sid w (bi_Seq x) ({[inputHash sid x]} ∪ list_to_set kept) (kept ++ [inputHash sid x]) oo du) as ->.
  { injection Hrun as <-. subst kept. destruct full; [|by rewrite Hse]. f_equal. f_equal. rewrite Hse.
    destruct ord as [|o rest]; cbn; [set_solver|]. apply NoDup_cons in Hnd as [Hno _]. set_solver. }
  split; [|done]. split; cbn [is_id dedupWindow lastSeq seen seenOrd].
  - done.
  - rewrite Hh. unfold window in *; cbn in *. subst kept full. destruct (Z.leb_spec w (Z.of_nat (length ord))) as [Hle|Hgt].
    + rewrite lastN_full; [|by apply Hfull|lia]. by rewrite Ho.
    + rewrite lastN_short; [by rewrite Ho|]. rewrite Ho, lastN_length in Hgt. lia.
  - apply NoDup_app. split_and!.
    + subst kept. destruct full; [|done]. destruct ord; cbn; [done|]. by apply NoDup_cons in Hnd as [_ ?].
    + intros y Hy ->%list_elem_of_singleton. apply Hrep. subst kept. destruct full; [|done].
      destruct ord; cbn in Hy; [by apply elem_of_nil in Hy|]. by right.
    + apply NoDup_singleton.
  - rewrite list_to_set_app_L. cbn. rewrite union_empty_r_L. by rewrite union_comm_L.
  - unfold lastAccepted. by rewrite last_snoc.
  - rewrite fmap_app. cbn. apply StronglySorted_snoc_later; [done| | |].
    + rewrite Forall_fmap. eapply Forall_impl; [exact Hnn|]. by intros y (? & _ & _).
    + destruct Hval as [_ _ _ _ _ Hs0 _ _ _]. lia.
    + intros m Hm. rewrite fmap_last in Hm. unfold lastAccepted in Hold. rewrite Hm in Hold. cbn in Hold.
      apply andb_false_iff in Hold as [Hold|Hold]; [apply Z.leb_gt in Hold|apply Z.ltb_ge in Hold]; unfold id in Hold; lia.
  - intros i j yi yj Hi Hj Hij. apply lookup_lt_Some in Hj as Hlen. rewrite length_app in Hlen. cbn in Hlen.
    rewrite lookup_app_l in Hi by lia. destruct (decide (j < length l)%nat).
    + rewrite lookup_app_l in Hj by done. by eapply (Hdist i j).
    + assert (j = length l) as -> by lia. rewrite list_lookup_middle in Hj by done. injection Hj as <-. cbn [fst].
      intros Heq. apply Hrep. rewrite <- Heq, Ho. unfold window in *; cbn in *.
      apply (lastN_lookup _ _ i); unfold hashes; [by rewrite list_lookup_fmap, Hi|rewrite length_fmap; lia].
  - apply Forall_app. split; [done|]. apply Forall_singleton. cbn. split_and!; [|done|done].
    destruct Hval as [_ _ _ _ _ Hs0 _ _ _]. lia.
Qed.

(** Every outcome of [BuildEnvelope]. *)
Lemma BuildEnvelope_outcome s l x :
  stream_inv s l →
  match BuildEnvelope x s with
  | (s', inl p) =>
      stream_inv s' l ∧ is_id s' = is_id s ∧ dedupWindow s' = dedupWindow s ∧
      if tooOld l x then Code p = OutOfOrder ∧ s' = (s <| outOfOrderCount := add64 (outOfOrderCount s) 1 |>)
      else if repeated s l x then Code p = Duplicate ∧ s' = (s <| duplicateCount := add64 (duplicateCount s) 1 |>)
      else Code p = ValidationFailed ∧ s' = s
  | (s', inr e) =>
      tooOld l x = false ∧ repeated s l x = false ∧
      stream_inv s' (l ++ [(x, e)]) ∧ is_id s' = is_id s ∧ dedupWindow s' = dedupWindow s ∧
      Type_ e = bi_EventType x ∧ Venue e = sid_Venue (is_id s) ∧ Instrument e = sid_Instrument (is_id s) ∧
      Seq e = bi_Seq x ∧ IdempotencyKey e = (inputKey (is_id s) x).1 ∧ Payload e = bi_Payload x
  end.
Proof.
  intros Hinv. pose proof Hinv as [Hw Ho Hnd Hse Hl Hsort Hdist Hnn].
  assert (bool_decide (inputHash (is_id s) x ∈ seen s) = repeated s l x) as Hrep.
  { unfold repeated. apply bool_decide_ext. rewrite Hse, elem_of_list_to_set, Ho. done. }
  assert (∀ s1, is_id s1 = is_id s → dedupWindow s1 = dedupWindow s → lastSeq s1 = lastSeq s → seen s1 = seen s →
    seenOrd s1 = seenOrd s → stream_inv s1 l) as Hsame.
  { intros s1 H1 H2 H3 H4 H5. split; unfold window; rewrite ?H1, ?H2, ?H3, ?H4, ?H5; done. }
  unfold BuildEnvelope. unfold recv, mbind, Meth_bind at 1.
  rewrite Hl. fold (tooOld l x). destruct (tooOld l x) eqn:Hold.
  { unfold_meth. split_and!; [by apply Hsame|done..]. }
  destruct (inputKey (is_id s) x) as [ikey h] eqn:Hkey.
  assert (inputHash (is_id s) x = h) as Hh by (unfold inputHash; by rewrite Hkey).
  rewrite Hh in Hrep. rewrite Hrep. destruct (repeated s l x) eqn:Hr.
  { unfold_meth. split_and!; [by apply Hsame|done..]. }
  unfold mbind, Meth_bind, on_local. destruct (Validate _) as [e [p|[]]] eqn:Hval.
  { split_and!; [done..| |done]. by eapply envelope_Validate_fails. }
  apply envelope_Validate_ok in Hval as (Hval & c & He). unfold assign. cbn beta iota.
  destruct (recordSeen h (s <| lastSeq := bi_Seq x |>)) as [s' [p|[]]] eqn:Hrec.
  { rewrite recordSeen_run in Hrec by done. discriminate Hrec. }
  rewrite <- Hh in Hrec. eapply (accept_inv s l x e s') in Hrec; [|done..| |done]; [|by rewrite He].
  destruct Hrec as (Hinv' & Hid & Hwin). unfold mret, Meth_ret. cbn [fst].
  split_and!; try done; rewrite He; reflexivity.
Qed.

Fixpoint buildAll (xs : list BuildInput) (l : log) (s : InstrumentStream) : InstrumentStream * log :=
  match xs with
  | [] => (s, l)
  | x :: xs' =>
      match BuildEnvelope x s with
      | (s', inr e) => buildAll xs' (l ++ [(x, e)]) s'
      | (s', inl _) => buildAll xs' l s'
      end
  end.

Lemma buildAll_inv xs l s :
  stream_inv s l →
  let '(s', l') := buildAll xs l s in stream_inv s' l' ∧ is_id s' = is_id s ∧ dedupWindow s' = dedupWindow s.
Proof.
  revert l s. induction xs as [|x xs IH]; intros l s Hinv; cbn [buildAll]; [done|].
  pose proof (BuildEnvelope_outcome s l x Hinv) as H. destruct (BuildEnvelope x s) as [s' [p|e]].
  - destruct H as (Hinv' & Hid & Hw & _). specialize (IH l s' Hinv').
    destruct (buildAll xs l s') as [s2 l2]. destruct IH as (? & ? & ?). split_and!; congruence || done.
  - destruct H as (_ & _ & Hinv' & Hid & Hw & _). specialize (IH _ s' Hinv').
    destruct (buildAll xs _ s') as [s2 l2]. destruct IH as (? & ? & ?). split_and!; congruence || done.
Qed.

Lemma new_stream_inv v i m w s :
  NewInstrumentStreamWithMarketType v i m w = inr s → stream_inv s [] ∧ dedupWindow s = w.
Proof.
  unfold NewInstrumentStreamWithMarketType.
  destruct (NewVenueID v), (NewInstrumentID i); [done..|]. cbv zeta. destruct (NewMarketType _); [done|].
  destruct (Z.leb_spec w 0); [done|]. intros [= <-]. split; [|done].
  split; cbn; try done; [apply NoDup_nil_2|apply SSorted_nil].
Qed.

(** What is accepted was put in. *)
Lemma buildAll_inputs (P : BuildInput → Prop) xs l s :
  Forall P xs → Forall (λ y, P y.1) l → Forall (λ y, P y.1) (buildAll xs l s).2.
Proof.
  intros Hxs. revert l s. induction Hxs as [|x xs Hx _ IH]; intros l s Hl; cbn [buildAll]; [done|].
  destruct (BuildEnvelope x s) as [s' [p|e]]; apply IH; [done|]. apply Forall_app. split; [done|by constructor].
Qed.
Lemma lastAccepted_positive l : Forall (λ y, 0 < bi_Seq y.1) l → l = [] ∧ lastAccepted l = 0 ∨ 0 < lastAccepted l.
Proof.
  intros Hl. unfold lastAccepted. destruct (last l) as [y|] eqn:Hy; [right|by apply last_None in Hy as ->; left].
  rewrite Forall_forall in Hl. apply Hl. by apply last_Some_elem_of.
Qed.

(** C38: a stream fed with positive sequence numbers accepts events in order and at
    most once per window, and nothing else stops a valid event. After any inputs,
    the envelopes accepted so far are valid and their sequence numbers strictly
    increase; no two of them within the deduplication window have keys with the
    same digest. The next input is refused with OutOfOrder exactly when its
    number is not greater than the last one accepted, else with Duplicate exactly
    when its digest is among the last [window] accepted, and either refusal only
    counts; else it is accepted, or fails validation and changes nothing. *)
Theorem stream_orders_and_deduplicates v i m w s0 xs x :
  NewInstrumentStreamWithMarketType v i m w = inr s0 → Forall (λ y, 0 < bi_Seq y) xs → 0 < bi_Seq x →
  let '(s, l) := buildAll xs [] s0 in
  Forall (λ y, validEnvelope y.2) l ∧
  (∀ a b ya yb, l !! a = Some ya → l !! b = Some yb → (a < b)%nat →
    Seq ya.2 < Seq yb.2 ∧
    (Z.of_nat (b - a) ≤ w → inputHash (is_id s0) ya.1 ≠ inputHash (is_id s0) yb.1)) ∧
  match BuildEnvelope x s with
  | (s', inl p) =>
      if bi_Seq x <=? lastAccepted l then Code p = OutOfOrder ∧ s' = (s <| outOfOrderCount := add64 (outOfOrderCount s) 1 |>)
      else if bool_decide (inputHash (is_id s0) x ∈ lastN (Z.to_nat w) (hashes (is_id s0) l))
      then Code p = Duplicate ∧ s' = (s <| duplicateCount := add64 (duplicateCount s) 1 |>)
      else Code p = ValidationFailed ∧ s' = s
  | (s', inr e) =>
      lastAccepted l < bi_Seq x ∧ (inputHash (is_id s0) x ∉ lastN (Z.to_nat w) (hashes (is_id s0) l)) ∧
      validEnvelope e ∧ Seq e = bi_Seq x ∧ IdempotencyKey e = (inputKey (is_id s0) x).1 ∧ Payload e = bi_Payload x
  end.
Proof.
  intros Hnew Hxs Hx. pose proof (buildAll_inputs _ xs [] s0 Hxs (Forall_nil_2 _)) as Hpos.
  destruct (new_stream_inv _ _ _ _ _ Hnew) as [Hinv0 Hw0]. pose proof (buildAll_inv xs [] s0 Hinv0) as Hall.
  destruct (buildAll xs [] s0) as [s l]. destruct Hall as (Hinv & Hid & Hwin). cbn [snd] in Hpos.
  assert (tooOld l x = (bi_Seq x <=? lastAccepted l)) as Hold.
  { unfold tooOld. destruct (lastAccepted_positive l Hpos) as [[_ ->]|Hl]; [|by rewrite (proj2 (Z.ltb_lt _ _) Hl), andb_true_r].
    rewrite (proj2 (Z.leb_gt _ _) Hx). done. }
  pose proof (BuildEnvelope_outcome s l x Hinv) as Hout. pose proof Hinv as [_ _ _ _ _ Hsort Hdist Hnn].
  assert (window s = Z.to_nat w) as Hws by (unfold window; by rewrite Hwin, Hw0).
  unfold repeated in Hout. rewrite Hold in Hout. rewrite Hws, Hid in *. rewrite Forall_forall in Hnn. split_and!.
  - apply Forall_forall. intros y Hy. by apply Hnn.
  - intros a b ya yb Ha Hb Hab. split; [|intros Hle; apply (Hdist a b); [done..|lia]].
    destruct (Hnn ya) as (_ & -> & _); [by apply list_elem_of_lookup_2 in Ha|].
    destruct (Hnn yb) as (_ & -> & _); [by apply list_elem_of_lookup_2 in Hb|].
    assert (later (bi_Seq ya.1) (bi_Seq yb.1)) as Hlater.
    { eapply (StronglySorted_lookup_lt later _ a b); [exact Hsort| | |done]; rewrite list_lookup_fmap; [by rewrite Ha|by rewrite Hb]. }
    rewrite Forall_forall in Hpos. pose proof (Hpos yb ltac:(by apply list_elem_of_lookup_2 in Hb)) as Hyb.
    unfold later in Hlater. lia.
  - destruct (BuildEnvelope x s) as [s' [p|e]]; [by destruct Hout as (_ & _ & _ & ?)|].
    destruct Hout as (Hgt%Z.leb_gt & Hrep & Hinv' & _ & _ & _ & _ & _ & HSeq & Hkey & Hpay).
    apply bool_decide_eq_false in Hrep. split_and!; [done..| |done|done|done].
    destruct Hinv' as [_ _ _ _ _ _ _ Hnn']. apply Forall_app in Hnn' as [_ Hlast]. rewrite Forall_singleton in Hlast. by apply Hlast.
Qed.
End stream_spec.

Definition w_input (seq : Z) (key : string) : BuildInput :=
  MkBuildInput "marketdata.trade" 1 900 1000 seq "application/json" [123] key.

Lemma stream_orders_and_deduplicates_witness :
  ∃ s0, NewInstrumentStreamWithMarketType (GR:=go_amd64) "binance" "BTC-USDT" "" 2 = inr s0 ∧
  let '(s, l) := buildAll (GR:=go_amd64) [w_input 5 "a"; w_input 4 "b"; w_input 6 "a"; w_input 7 "b"; w_input 8 "c"] [] s0 in
  length l = 3%nat ∧ Health s = MkStreamHealth 8 1 1 false StreamNeedsAttention ∧ Forall (λ y, validEnvelope (GR:=go_amd64) y.2) l.
Proof.
  eexists. split; [reflexivity|].
  match goal with |- let '(s, l) := buildAll _ _ ?s0 in _ =>
    pose proof (stream_orders_and_deduplicates (GR:=go_amd64) "binance" "BTC-USDT" "" 2 s0
      [w_input 5 "a"; w_input 4 "b"; w_input 6 "a"; w_input 7 "b"; w_input 8 "c"] (w_input 9 "a") eq_refl ltac:(by repeat constructor) ltac:(done)) as H;
    assert ((λ '(s, l), (length l, Health s)) (buildAll (GR:=go_amd64)
      [w_input 5 "a"; w_input 4 "b"; w_input 6 "a"; w_input 7 "b"; w_input 8 "c"] [] s0)
      = (3%nat, MkStreamHealth 8 1 1 false StreamNeedsAttention)) as Hobs by (vm_compute; reflexivity)
  end.
  destruct (buildAll _ _ _) as [s l]. destruct H as (Hall & _). injection Hobs as Hlen Hh.
  split; [exact Hlen|]. split; [unfold Health; congruence|exact Hall].
Defined.
