(* ===== verification/Ingest.v ===== *)
(** * Ingest: internal/core/marketdata/app/ingest.go, service.go

    The use case that turns one raw market event into a published envelope. The
    streams live behind pointers in a bounded map ([Cells]), whose clock is the
    use case's; the sequencer is any [Sequencer], with its state in the use
    case; the payload codec and the publisher are ports ([IngestPorts]). The
    publisher answers from the history of calls, which the state keeps.
    Metrics are not modelled. *)

From S2P Require Import Prelude GoRuntime Shared BoundedMap Cells Envelope Sequencer InstrumentStream.

Local Open Scope string_scope.
Local Open Scope list_scope.
Local Open Scope Z_scope.

Definition defaultDedupWindowSize : Z := 1024.

Record IngestConfig := MkIngestConfig {
  DedupWindowSize : Z;
  MaxStreams : Z;
  StreamTTL : Z;
  PublishContentType : string;
}.

Record PublishedEvent := MkPublishedEvent { Topic : string; pe_Envelope : Envelope }.
Record IngestResponse := MkIngestResponse { Published : PublishedEvent; resp_Seq : Z }.

(** What the use case calls: the codec registry and the publisher. [Payload] is
    the dynamic type of payloads; a nil payload is [None]. *)
Class IngestPorts := {
  PayloadT : Type;
  EncodePayload : string → Z → string → PayloadT → Problem + list Z;
  Publish : list (Envelope * option Problem) → Envelope → option Problem;
}.

Record IngestRequest {ports : IngestPorts} := MkIngestRequest {
  req_Venue : string;
  req_Instrument : string;
  req_MarketType : string;
  req_EventType : string;
  req_Version : Z;
  req_TsExchange : Z;
  req_IdempotencyKey : string;
  req_Payload : option PayloadT;
  req_Metadata : gmap string string;
}.

Section ingest.
Context {GR : GoRuntime} {SQ : Sequencer} {ports : IngestPorts} (clk : nat → Z).

Record IngestMarketData := MkIngest {
  sequencer : SeqState;
  published : list (Envelope * option Problem);
  streams : Cells StreamID InstrumentStream;
  uc_dedupWindow : DedupWindow;
  publishContentType : string;
  payloadCodecErr : option Problem;
}.
#[export] Instance IngestMarketData_eta : Eta IngestMarketData := λ r,
  MkIngest (sequencer r) (published r) (streams r) (uc_dedupWindow r) (publishContentType r) (payloadCodecErr r).

Abbreviation IngestM := (Meth IngestMarketData Problem).

Fixpoint combinePayloadBootstrapErrors (errs : list (option Problem)) : option Problem :=
  match errs with
  | [] => None
  | Some p :: _ => Some p
  | None :: rest => combinePayloadBootstrapErrors rest
  end.

(** [bootstrap] is the result of contracts.BootstrapPayloadCodecRegistry. *)
Definition NewIngestMarketDataWithConfig (seq : SeqState) (bootstrap : option Problem) (cfg : IngestConfig)
    : IngestMarketData :=
  let window := match NewDedupWindow (DedupWindowSize cfg) with
                | inr w => w
                | inl _ => default 0 (ok_of (NewDedupWindow defaultDedupWindowSize))
                end in
  let maxStreams := if MaxStreams cfg <=? 0 then 10000 else MaxStreams cfg in
  let streamTTL := if StreamTTL cfg <=? 0 then 3600000000000 else StreamTTL cfg in
  let contentType := if str_eqb (PublishContentType cfg) "" then ContentTypeJSON else PublishContentType cfg in
  let normalized := NormalizeContentType contentType in
  let streams := newCells clk maxStreams streamTTL in
  let streams := streams <| cmap ::= SetSweepEveryOps 1024 |> <| cmap ::= SetSweepMinInterval 1000000000 |>
    <| cmap ::= SetOnEvict true |> in
  MkIngest seq [] streams window (default "" (ok_of normalized))
    (combinePayloadBootstrapErrors [err_of normalized; bootstrap]).

Definition NewIngestMarketData (seq : SeqState) (bootstrap : option Problem) : IngestMarketData :=
  NewIngestMarketDataWithConfig seq bootstrap
    (MkIngestConfig defaultDedupWindowSize 10000 3600000000000 ContentTypeJSON).

Definition onStreams {A} (m : Meth (Cells StreamID InstrumentStream) Problem A) : IngestM A := λ uc,
  let '(c, r) := m (streams uc) in (uc <| streams := c |>, r).
Definition onSequencer {A} (m : Meth SeqState Problem A) : IngestM A := λ uc,
  let '(s, r) := m (sequencer uc) in (uc <| sequencer := s |>, r).
Definition nowUnixMilli : IngestM Z := λ uc,
  (uc <| streams ::= λ c, c <| reads ::= S |> |>, inr (UnixMilli (clk (reads (streams uc))))).
Definition callPublish (env : Envelope) : IngestM unit := λ uc,
  let r := Publish (published uc) env in
  (uc <| published ::= λ l, l ++ [(env, r)] |>, match r with Some p => inl p | None => inr tt end).

Definition prepareRequest (req : IngestRequest) : IngestM (EventType * SchemaVersion * list Z) :=
  uc ← recv;
  check (payloadCodecErr uc) ;;
  check (Collect [NonEmptyString "venue" (req_Venue req); NonEmptyString "instrument" (req_Instrument req);
                  NonEmptyString "event_type" (req_EventType req); PositiveInt "version" (req_Version req)]) ;;
  match req_Payload req with
  | None => throw (New ValidationFailed "payload must not be nil")
  | Some payload =>
      eventType ← try_ (NewEventType (req_EventType req));
      version ← try_ (NewSchemaVersion (req_Version req));
      payloadBytes ← try_ (EncodePayload eventType version (publishContentType uc) payload);
      mret (eventType, version, payloadBytes)
  end.

(** The stream built to obtain the canonical identity is the one stored when
    there is none yet. *)
Definition getOrCreateStream (rawVenue rawInstrument rawMarketType : string) : IngestM Z :=
  uc ← recv;
  tmpStream ← try_ (NewInstrumentStreamWithMarketType rawVenue rawInstrument rawMarketType (uc_dedupWindow uc));
  let id := is_id tmpStream in
  found ← onStreams (cellGet clk id);
  match found with
  | Some existing => mret existing
  | None =>
      a ← onStreams (alloc tmpStream);
      onStreams (cellPut clk id a) ;;
      mret a
  end.

Definition ActiveStreams (uc : IngestMarketData) : Z := cellLen (streams uc).

Definition Execute (req : IngestRequest) : IngestM IngestResponse :=
  prepared ← prepareRequest req;
  let '(eventType, version, payloadBytes) := prepared in
  a ← getOrCreateStream (req_Venue req) (req_Instrument req) (req_MarketType req);
  ms ← nowUnixMilli;
  tsIngest ← try_ (NewTimestamp ms);
  let tsExchange := if req_TsExchange req <=? 0 then tsIngest else req_TsExchange req in
  stream ← onStreams (load a);
  seqNum ← onSequencer (Next (sid_Venue (is_id stream)) (SequencerInstrumentKey (is_id stream)));
  seq ← try_ (NewSequence seqNum);
  uc ← recv;
  env ← onStreams (callAt a (BuildEnvelope
    (MkBuildInput eventType version tsExchange tsIngest seq (publishContentType uc) payloadBytes (req_IdempotencyKey req))));
  let env := if Z.of_nat (size (req_Metadata req)) =? 0 then env else env <| Meta := req_Metadata req |> in
  callPublish env ;;
  let '(env, topic) := TopicKey env in
  mret (MkIngestResponse (MkPublishedEvent topic env) (Seq env)).

(** A history of requests. *)
Definition runRequests (reqs : list IngestRequest) (uc : IngestMarketData) : IngestMarketData :=
  foldl (λ uc req, (Execute req uc).1) uc reqs.
End ingest.
