(* ===== verification/IngestSpec.v ===== *)
(** * IngestSpec: what the ingest use case publishes

    The envelopes handed to the publisher for one stream carry increasing sequence
    numbers, over any history and whatever the publisher answers: as long as the
    stream stays in the map, whatever the sequencer answers too, and against the
    contract of the sequencer also when the stream was evicted in between. And two ways events get lost: an envelope
    the publisher refused cannot be submitted again, and two market types of one
    instrument derive the same idempotency keys. *)

From S2P Require Import Prelude GoRuntime Shared BoundedMap Cells Envelope Sequencer InstrumentStream InstrumentStreamSpec Ingest.

Local Open Scope string_scope.
Local Open Scope list_scope.
Local Open Scope Z_scope.

(** ** What a sequencer still owes *)

Section owed.
Context {SQ : Sequencer}.

(** Every number the sequencer gives for the pair within [n] calls exceeds [a]. *)
Definition above (n : nat) (s : SeqState) (pair : string * string) (a : Z) : Prop :=
  ∀ calls j b, (length calls ≤ n)%nat → calls !! j = Some pair → answers calls s !! j = Some (inr b) → a < b.

Lemma contract_next n s v k s' r : seq_contract (S n) s → Next v k s = (s', r) → seq_contract n s'.
Proof.
  intros Hc Hrun calls i j pair a b Hlen Hij Hi Hj Ha Hb.
  apply (Hc ((v, k) :: calls) (S i) (S j) pair a b); [cbn; lia|lia|done|done|..]; cbn; rewrite Hrun; done.
Qed.

Lemma contract_above n s v k s' a : seq_contract (S n) s → Next v k s = (s', inr a) → above n s' (v, k) a.
Proof.
  intros Hc Hrun calls j b Hlen Hj Hb.
  apply (Hc ((v, k) :: calls) 0%nat (S j) (v, k) a b); [cbn; lia|lia|done|done|..]; cbn; rewrite Hrun; done.
Qed.

Lemma above_next n s v k s' r pair a : above (S n) s pair a → Next v k s = (s', r) → above n s' pair a.
Proof.
  intros Hab Hrun calls j b Hlen Hj Hb. apply (Hab ((v, k) :: calls) (S j) b); [cbn; lia|done|]. cbn. by rewrite Hrun.
Qed.

Lemma above_now n s v k s' a b : above (S n) s (v, k) a → Next v k s = (s', inr b) → a < b.
Proof. intros Hab Hrun. apply (Hab [(v, k)] 0%nat b); [cbn; lia|done|]. cbn. by rewrite Hrun. Qed.

Lemma above_le n m s pair a : (m ≤ n)%nat → above n s pair a → above m s pair a.
Proof. intros Hle Hab calls j b Hlen. apply Hab. lia. Qed.
End owed.

Section ingest_spec.
Context {GR : GoRuntime} {SQ : Sequencer} {ports : IngestPorts} (clk : nat → Z).

(** ** The store of streams *)

Definition streamAt (k : StreamID) (s : InstrumentStream) : Prop := is_id s = k ∧ 0 < dedupWindow s.

Lemma recordSeen_keeps h : keeps (λ s, (is_id s, dedupWindow s)) (recordSeen h).
Proof. unfold recordSeen. solve_keeps. Qed.
Lemma BuildEnvelope_keeps x : keeps (λ s, (is_id s, dedupWindow s)) (BuildEnvelope x).
Proof. unfold BuildEnvelope. pose proof (recordSeen_keeps) as Hk. solve_keeps; apply Hk. Qed.
Lemma BuildEnvelope_streamAt x k s : streamAt k s → streamAt k (BuildEnvelope x s).1.
Proof. intros [Hid Hw]. pose proof (BuildEnvelope_keeps x s) as Hk. injection Hk as H1 H2. by rewrite <- H1, <- H2 in *. Qed.

(** Whatever the state of the stream, an accepted envelope is valid and of the stream. *)
Lemma BuildEnvelope_envelope x s s' e :
  BuildEnvelope x s = (s', inr e) →
  validEnvelope e ∧ Seq e = bi_Seq x ∧ Venue e = sid_Venue (is_id s) ∧ Instrument e = sid_Instrument (is_id s).
Proof.
  unfold BuildEnvelope. unfold recv, mbind, Meth_bind at 1. destruct (_ && _); [done|].
  destruct (inputKey (is_id s) x) as [ikey h]. destruct (bool_decide _); [done|].
  unfold mbind, Meth_bind, on_local. destruct (Validate _) as [e1 [p|[]]] eqn:Hval; [done|]. unfold assign. cbn beta iota.
  destruct (recordSeen h _) as [s2 [p|[]]]; [done|]. intros [= _ <-].
  apply envelope_Validate_ok in Hval as (Hval & c & He). split; [done|]. by rewrite He.
Qed.

(** The part of the use case the operations on streams do not touch. *)
Definition rest (uc : IngestMarketData) : SeqState * list (Envelope * option Problem) * Z * string * option Problem :=
  (sequencer uc, published uc, uc_dedupWindow uc, publishContentType uc, payloadCodecErr uc).

Lemma onStreams_triple {A} (m : Meth (Cells StreamID InstrumentStream) Problem A) Pre Post Err R :
  triple Pre m Post Err →
  triple (λ uc, Pre (streams uc) ∧ rest uc = R) (onStreams m)
    (λ x uc, Post x (streams uc) ∧ rest uc = R) (λ uc, Err (streams uc) ∧ rest uc = R).
Proof. intros Hm uc [Hp HR]. specialize (Hm _ Hp). unfold onStreams. by destruct (m (streams uc)) as [c [p|x]]. Qed.

(** The stream a request is for. *)
Definition streamOf (w : Z) (req : IngestRequest) : option StreamID :=
  is_id <$> ok_of (NewInstrumentStreamWithMarketType (req_Venue req) (req_Instrument req) (req_MarketType req) w).

(** The stream of [k] is in the map and has not expired. *)
Definition live (k : StreamID) (c : Cells StreamID InstrumentStream) : Prop :=
  ∃ e, items (cmap c) !! k = Some e ∧ isExpiredAt (cmap c) e (clk (reads c)) = false.

(** Acceptable streams, of which that of [kw] has come as far as [lo], if given. *)
Definition watched (kw : StreamID) (lo : option Z) (k : StreamID) (s : InstrumentStream) : Prop :=
  streamAt k s ∧ (k = kw → ∀ a, lo = Some a → a ≤ lastSeq s).

Lemma stores_mono (P Q : StreamID → InstrumentStream → Prop) c l : (∀ k s, P k s → Q k s) → stores P c l → stores Q c l.
Proof. intros HPQ [Hr Hnd Ha Hc]. split; [done..|]. intros k e Hin. destruct (Hc k e Hin) as (v & Hv & HP). eauto. Qed.
Lemma inStore_mono (P Q : StreamID → InstrumentStream → Prop) c : (∀ k s, P k s → Q k s) → inStore P c → inStore Q c.
Proof.
  intros HPQ [l Hl]. exists l. by eapply stores_mono.
Qed.
Lemma watched_none kw c : inStore streamAt c → inStore (watched kw None) c.
Proof. apply inStore_mono. by intros k s Hs. Qed.
Lemma watched_stream kw lo c : inStore (watched kw lo) c → inStore streamAt c.
Proof. apply inStore_mono. by intros k s [Hs _]. Qed.

(** A stream only moves forward: an accepted envelope has a greater number. *)
Lemma BuildEnvelope_forward x s s' r :
  0 < dedupWindow s → BuildEnvelope x s = (s', r) →
  match r with
  | inr _ => lastSeq s' = bi_Seq x ∧ (0 < lastSeq s → lastSeq s < bi_Seq x)
  | inl _ => lastSeq s' = lastSeq s
  end.
Proof.
  intros Hw. unfold BuildEnvelope. unfold recv, mbind, Meth_bind at 1.
  destruct ((bi_Seq x <=? lastSeq s) && (0 <? lastSeq s)) eqn:Hold; [by intros [= <- <-]|].
  destruct (inputKey (is_id s) x) as [ikey h]. destruct (bool_decide _); [by intros [= <- <-]|].
  unfold mbind, Meth_bind, on_local. destruct (Validate _) as [e1 [p|[]]]; [by intros [= <- <-]|]. unfold assign. cbn beta iota.
  rewrite recordSeen_run by done. intros [= <- <-]. split; [done|]. intros Hpos.
  apply andb_false_iff in Hold as [Hold%Z.leb_gt|Hold%Z.ltb_ge]; lia.
Qed.

Section watching.
Context (kw : StreamID) (lo : option Z) (Hlo : ∀ a, lo = Some a → 0 < a).

Lemma BuildEnvelope_watched x k s s' r :
  watched kw lo k s → BuildEnvelope x s = (s', r) →
  watched kw lo k s' ∧ (∀ e, r = inr e → k = kw → ∀ a, lo = Some a → a < bi_Seq x).
Proof.
  intros [Hat Hle] Hb. pose proof (BuildEnvelope_streamAt x k s Hat) as Hat'. rewrite Hb in Hat'. cbn [fst] in Hat'.
  pose proof (BuildEnvelope_forward _ _ _ _ (proj2 Hat) Hb) as Hf. split.
  - split; [done|]. intros Hk a Ha. specialize (Hle Hk a Ha). specialize (Hlo a Ha).
    destruct r as [p|e]; [lia|]. destruct Hf as [-> Hf]. specialize (Hf ltac:(lia)). lia.
  - intros e -> Hk a Ha. specialize (Hle Hk a Ha). specialize (Hlo a Ha). destruct Hf as [_ Hf]. specialize (Hf ltac:(lia)). lia.
Qed.

Definition stored R (uc : IngestMarketData) : Prop := inStore (watched kw lo) (streams uc) ∧ rest uc = R.
Definition holds k a R (uc : IngestMarketData) : Prop := linked (watched kw lo) k a (streams uc) ∧ rest uc = R.
(** The stream of [kw] is still there when the request is for it. *)
Definition ready (req : IngestRequest) (uc : IngestMarketData) : Prop :=
  streamOf (uc_dedupWindow uc) req = Some kw → is_Some lo → live kw (streams uc).

Lemma holds_stored k a R uc : holds k a R uc → stored R uc.
Proof. intros [H HR]. split; [by eapply owns_inStore, linked_owns|done]. Qed.

(** Looking the stream up finds it if it is live. *)
Lemma cellGet_live k R uc :
  stored R uc → (k = kw → is_Some lo → live kw (streams uc)) →
  let '(uc', r) := onStreams (cellGet clk k) uc in
  match r with
  | inl _ => False
  | inr (Some a) => holds k a R uc'
  | inr None => stored R uc' ∧ (k = kw → lo = None)
  end.
Proof.
  intros Huc Hlive. pose proof (onStreams_triple _ _ _ _ R (cellGet_linked clk (watched kw lo) k) uc Huc) as Hget.
  destruct (onStreams (cellGet clk k) uc) as [uc' r] eqn:Hrun. destruct r as [p|[a|]]; [by destruct Hget|done|]. split; [done|].
  intros ->. destruct lo as [b|] eqn:Hb; [|done]. exfalso. destruct Hlive as (e & He & Hexp); [done|done|].
  destruct Huc as [[l [Hr _ _ _]] _]. pose proof Hr as [_ Hitems _ _ _]. rewrite Hitems in He.
  destruct (cellGet_present clk (streams uc) l kw e Hr He Hexp) as (c' & l' & Hc & _). unfold onStreams in Hrun. by rewrite Hc in Hrun.
Qed.

Lemma getOrCreateStream_ok req sq pub w ct err :
  let R := (sq, pub, w, ct, err) in
  triple (λ uc, stored R uc ∧ ready req uc) (getOrCreateStream clk (req_Venue req) (req_Instrument req) (req_MarketType req))
    (λ a uc, ∃ k, streamOf w req = Some k ∧ holds k a R uc) (stored R).
Proof.
  intros R uc [Huc Hrdy]. pose proof (proj2 Huc) as HR. injection HR as _ _ Hw _ _. unfold ready in Hrdy. rewrite Hw in Hrdy.
  unfold getOrCreateStream, streamOf in *. rewrite recv_run, Hw.
  destruct (NewInstrumentStreamWithMarketType _ _ _ w) as [p|t] eqn:Hnew; [done|].
  unfold mbind, Meth_bind, try_. cbn [ok_of fmap option_fmap option_map] in *. set (k := is_id t) in *.
  pose proof (cellGet_live k R uc Huc) as Hget. destruct (onStreams (cellGet clk k) uc) as [uc1 [p|[a|]]].
  - destruct Hget. intros ->. by apply Hrdy.
  - exists k. split; [done|]. apply Hget. intros ->. by apply Hrdy.
  - destruct Hget as [Huc1 Hnone]; [intros ->; by apply Hrdy|].
    assert (watched kw lo k t) as Ht.
    { split; [split; [done|]; destruct (new_stream_inv _ _ _ _ _ Hnew) as [[] _]; done|].
      intros Hk a Ha. rewrite Hnone in Ha by done. done. }
    assert (triple (stored R) (a ← onStreams (alloc t); onStreams (cellPut clk k a) ;; mret a) (λ a, holds k a R) (λ _, False)) as Htr.
    { eapply (triple_bind _ _ _ (λ a uc, owns (watched kw lo) k a (streams uc) ∧ rest uc = R)).
      { eapply triple_conseq; [apply (onStreams_triple _ _ _ _ R (alloc_triple (watched kw lo) k t Ht))|done|done|by intros ? [[] _]]. }
      intros a. eapply (triple_bind _ _ _ (λ _, holds k a R)); [|intros []; by apply triple_ret].
      eapply triple_conseq; [apply (onStreams_triple _ _ _ _ R (cellPut_linked clk (watched kw lo) k a))|done|done|by intros ? [[] _]]. }
    specialize (Htr uc1 Huc1). unfold mbind, Meth_bind in Htr. cbn beta in Htr |- *.
    match goal with |- context [onStreams (alloc t) uc1] => idtac end.
    destruct (onStreams (alloc t) uc1) as [uc2 [p|a]]; [done|].
    destruct (onStreams (cellPut clk k a) uc2) as [uc3 [p|[]]]; [done|]. by exists k.
Qed.

(** ** A refused event *)

(** The stream of [k] is in the map and has seen the digest [h]. *)
Definition seenIn (k : StreamID) (h : Z) (c : Cells StreamID InstrumentStream) : Prop :=
  ∃ l e st, stores streamAt c l ∧ (k, e) ∈ l ∧ heap c !! value e = Some st ∧ is_id st = k ∧ h ∈ seen st.

Lemma accepted_is_seen x s s' e :
  0 < dedupWindow s → BuildEnvelope x s = (s', inr e) → inputHash (is_id s) x ∈ seen s'.
Proof.
  intros Hw. unfold inputHash, BuildEnvelope. unfold recv, mbind, Meth_bind. destruct (_ && _); [done|].
  destruct (inputKey (is_id s) x) as [ikey h]. destruct (bool_decide _); [done|].
  unfold on_local. destruct (Validate _) as [e1 [p|[]]]; [done|]. unfold assign. cbn beta iota.
  rewrite recordSeen_run by done. intros [= <- _]. cbn. set_solver.
Qed.

Lemma seen_is_refused x s : inputHash (is_id s) x ∈ seen s → ∃ s' p, BuildEnvelope x s = (s', inl p).
Proof.
  unfold inputHash, BuildEnvelope. unfold recv, mbind, Meth_bind. destruct (_ && _); [by do 2 eexists|].
  destruct (inputKey (is_id s) x) as [ikey h]. intros Hin. rewrite bool_decide_true by done. by do 2 eexists.
Qed.

Definition sourceHash (req : IngestRequest) : Z := Hash.SumFieldsFast64 [req_IdempotencyKey req].

Lemma source_inputHash id x : bi_Source x ≠ "" → inputHash id x = Hash.SumFieldsFast64 [bi_Source x].
Proof. intros Hne. unfold inputHash, inputKey. unfold str_eqb. by destruct (String.eqb_spec (bi_Source x) ""). Qed.

(** ** One request *)

(** What one request does outside the store: nothing, or one call of the
    sequencer for its stream and then at most one call of the publisher, with a
    valid envelope of the stream that carries the number. *)
Definition effect (req : IngestRequest) (uc0 uc : IngestMarketData) : Prop :=
  inStore (watched kw lo) (streams uc) ∧
  (rest uc = rest uc0 ∨
   ∃ k sq r pub, streamOf (uc_dedupWindow uc0) req = Some k ∧
     Next (sid_Venue k) (SequencerInstrumentKey k) (sequencer uc0) = (sq, r) ∧
     rest uc = (sq, published uc0 ++ pub, uc_dedupWindow uc0, publishContentType uc0, payloadCodecErr uc0) ∧
     (pub = [] ∨ ∃ env ans, pub = [(env, ans)] ∧ r = inr (Seq env) ∧ validEnvelope env ∧
        Venue env = sid_Venue k ∧ Instrument env = sid_Instrument k ∧
        (req_IdempotencyKey req ≠ "" → seenIn k (sourceHash req) (streams uc)) ∧
        (k = kw → (∀ a, lo = Some a → a < Seq env) ∧ inStore (watched kw (Some (Seq env))) (streams uc)))).

(** Nothing changes while a request is prepared. *)
Lemma prepareRequest_keeps req : keeps (λ uc, uc) (prepareRequest req).
Proof. unfold prepareRequest. solve_keeps. Qed.
Lemma prepareRequest_ok req (Q : IngestMarketData → Prop) : triple Q (prepareRequest req) (λ _, Q) Q.
Proof.
  intros uc HQ. pose proof (prepareRequest_keeps req uc) as Hk. by destruct (prepareRequest req uc) as [uc' [p|x]]; cbn in Hk; subst uc'.
Qed.

(** The stream of [k] at the number it accepted. *)
Lemma reached_watched k c l en st n :
  stores (watched kw lo) c l → (k, en) ∈ l → heap c !! value en = Some st → lastSeq st = n → k = kw →
  inStore (watched kw (Some n)) c.
Proof.
  intros [Hr Hnd Ha Hc] Hin Hst Hn ->. exists l. split; [done..|]. intros k' e Hin'. destruct (Hc k' e Hin') as (v & Hv & Hat & _).
  exists v. split; [done|]. split; [done|]. intros -> a [= <-]. pose proof Hr as [_ _ Hkeys _ _].
  assert (e = en) as ->; [|assert (v = st) as -> by congruence; lia].
  apply as_map_lookup in Hin, Hin'; [congruence|done..].
Qed.

Lemma Execute_watched req uc0 : inStore (watched kw lo) (streams uc0) → ready req uc0 → effect req uc0 (Execute clk req uc0).1.
Proof.
  intros H0 Hrdy. set (R0 := rest uc0). assert (triple (λ uc, stored R0 uc ∧ ready req uc) (Execute clk req) (λ _, effect req uc0) (effect req uc0)) as Htr.
  2: { specialize (Htr uc0 (conj (conj H0 eq_refl) Hrdy)). by destruct (Execute clk req uc0) as [uc [p|r]]. }
  assert (∀ uc, stored R0 uc → effect req uc0 uc) as Hnone by (intros uc [Hst HR]; split; [done|by left]).
  unfold Execute. eapply (triple_bind _ _ _ (λ _ uc, stored R0 uc ∧ ready req uc));
    [eapply triple_conseq; [apply (prepareRequest_ok req (λ uc, stored R0 uc ∧ ready req uc))|done|done|by intros uc [? _]; apply Hnone]|]. intros [[eventType version] payloadBytes].
  eapply (triple_bind _ _ _ (λ a uc, ∃ k, streamOf (uc_dedupWindow uc0) req = Some k ∧ holds k a R0 uc)).
  { eapply triple_conseq; [apply (getOrCreateStream_ok req (sequencer uc0) (published uc0) (uc_dedupWindow uc0) (publishContentType uc0)
      (payloadCodecErr uc0))|done|done|by intros uc; apply Hnone]. }
  intros a uc (k & Hk & Huc). revert uc Huc.
  eapply (triple_bind _ _ _ (λ _, holds k a R0)); [intros uc [Ho HR]; split; [by apply tick_linked|done]|]. intros ms.
  eapply (triple_bind _ _ _ (λ _, holds k a R0)).
  { apply triple_try. intros uc Huc. case_match; [by eapply Hnone, holds_stored|done]. }
  intros tsIngest. cbn zeta. eapply (triple_bind _ _ _ (λ st uc, holds k a R0 uc ∧ is_id st = k)).
  { intros uc [Hlk HR]. pose proof Hlk as (l & e & v & _ & _ & _ & Hv & [Hid _] & _). unfold onStreams, load. by rewrite Hv. }
  intros st uc [Huc ->]. revert uc Huc.
  destruct (Next (sid_Venue k) (SequencerInstrumentKey k) (sequencer uc0)) as [sq r] eqn:Hnext.
  set (R1 := (sq, published uc0, uc_dedupWindow uc0, publishContentType uc0, payloadCodecErr uc0)).
  assert (∀ uc, stored R1 uc → effect req uc0 uc) as Hcalled.
  { intros uc [Hst HR]. split; [done|]. right. exists k, sq, r, []. rewrite app_nil_r. split_and!; [done..|by left]. }
  eapply (triple_bind _ _ _ (λ n uc, holds k a R1 uc ∧ r = inr n)).
  { intros uc [Ho HR]. unfold onSequencer. unfold rest in HR. injection HR as -> Hpub Hw Hct Herr. rewrite Hnext.
    assert (holds k a R1 (uc <| sequencer := sq |>)) as Hh by (split; [done|]; subst R1; unfold rest; cbn; congruence).
    destruct r as [p|n]; [by eapply Hcalled, holds_stored|done]. }
  intros n uc [Huc ->]. revert uc Huc.
  eapply (triple_bind _ _ _ (λ m uc, holds k a R1 uc ∧ m = n)).
  { apply triple_try. intros uc Huc. unfold NewSequence, guarded.
    destruct (NonNegativeInt "seq" n); [by eapply Hcalled, holds_stored|done]. }
  intros m uc [Huc ->]. revert uc Huc.
  eapply (triple_bind _ _ _ (λ _, holds k a R1)); [by apply triple_recv|]. intros uc1.
  set (x := MkBuildInput _ _ _ _ _ _ _ _).
  eapply (triple_bind _ _ _ (λ e uc, stored R1 uc ∧ validEnvelope e ∧ Seq e = n ∧ Venue e = sid_Venue k ∧ Instrument e = sid_Instrument k ∧
    (req_IdempotencyKey req ≠ "" → seenIn k (sourceHash req) (streams uc)) ∧
    (k = kw → (∀ a, lo = Some a → a < n) ∧ inStore (watched kw (Some n)) (streams uc)))).
  { intros uc [(l & en & st1 & Hl & Hin & Ha & Hst1 & Hat) HR].
    destruct (BuildEnvelope x st1) as [st2 r] eqn:Hb. destruct (BuildEnvelope_watched _ _ _ _ _ Hat Hb) as [Hat' Hgt].
    pose proof (BuildEnvelope_forward _ _ _ _ (proj2 (proj1 Hat)) Hb) as Hfwd.
    destruct (callAt_stores (watched kw lo) (streams uc) l a (BuildEnvelope x) st1 st2 r Hl Hst1 Hb) as (c' & Hc & Hl' & Hh & _ & _).
    { intros k' e' Hin' Ha'. assert (k' = k) as ->; [|done]. eapply (stores_inj (watched kw lo) _ l); [done..|congruence]. }
    unfold onStreams. rewrite Hc. destruct r as [p|e]; [apply Hcalled; split; [by exists l|done]|].
    destruct (BuildEnvelope_envelope _ _ _ _ Hb) as (? & ? & ? & ?). destruct Hat as [[<- Hw] _].
    assert (heap c' !! value en = Some st2) as Hst2 by (by rewrite Hh, Ha, lookup_insert_eq).
    split; [split; [by exists l|done]|]. split_and!; try done.
    2: { intros Hk'. split; [by apply (Hgt e)|]. cbn [streams upd]. eapply (reached_watched _ _ l en st2); [done..|apply Hfwd|done]. }
    intros Hne. exists l, en, st2. cbn [streams upd]. destruct Hat' as [[Hid' _] _].
    split_and!; try done; [by apply (stores_mono (watched kw lo)); [intros ? ? [? _]|]|]. assert (sourceHash req = inputHash (is_id st1) x) as -> by (symmetry; by apply source_inputHash).
    by eapply accepted_is_seen. }
  intros e. set (env := if _ =? 0 then e else _).
  intros uc [[Hst HR] (Hval & Hseq & Hven & Hins & Hseen & Hreach)].
  assert (validEnvelope env ∧ Seq env = n ∧ Venue env = sid_Venue k ∧ Instrument env = sid_Instrument k) as Henv.
  { subst env. destruct (_ =? 0); [done|]. split_and!; [|done..]. destruct Hval. by split. }
  assert (∀ ans, effect req uc0 (uc <| published ::= λ l, l ++ [(env, ans)] |>)) as Hpubd.
  { intros ans. split; [done|]. right. exists k, sq, (inr n), [(env, ans)].
    unfold rest in HR. injection HR as Hs Hp Hw Hct Herr. split_and!; [done|done| |].
    - unfold rest. cbn. congruence.
    - right. exists env, ans. destruct Henv as (? & -> & ? & ?). by split_and!. }
  unfold callPublish, mbind, Meth_bind. destruct (Publish (published uc) env) eqn:Hans; [apply Hpubd|].
  destruct (TopicKey env) as [env' topic]. apply Hpubd.
Qed.
End watching.

Lemma Execute_effect req uc0 :
  inStore streamAt (streams uc0) → let uc := (Execute clk req uc0).1 in ∀ kw, effect kw None req uc0 uc.
Proof. intros Hst uc kw. apply Execute_watched; [done|by apply watched_none|]. by intros _ [? ?]. Qed.

(** ** Histories *)

(** The stream and the envelope a request handed to the publisher, if any. *)
Definition handed (req : IngestRequest) (uc : IngestMarketData) : option (StreamID * Envelope) :=
  match drop (length (published uc)) (published (Execute clk req uc).1), streamOf (uc_dedupWindow uc) req with
  | (env, _) :: _, Some k => Some (k, env)
  | _, _ => None
  end.
Fixpoint handedBy (reqs : list IngestRequest) (uc : IngestMarketData) : list (option (StreamID * Envelope)) :=
  match reqs with
  | [] => []
  | req :: rest => handed req uc :: handedBy rest (Execute clk req uc).1
  end.

Definition pairOf (k : StreamID) : string * string := (sid_Venue k, SequencerInstrumentKey k).

(** One request against what the sequencer still owes. *)
Lemma Execute_owed req uc n :
  inStore streamAt (streams uc) → seq_contract (S n) (sequencer uc) →
  let uc' := (Execute clk req uc).1 in
  inStore streamAt (streams uc') ∧ seq_contract n (sequencer uc') ∧
  (∀ pair a, above (S n) (sequencer uc) pair a → above n (sequencer uc') pair a) ∧
  (∀ k env, handed req uc = Some (k, env) →
     above n (sequencer uc') (pairOf k) (Seq env) ∧ validEnvelope env ∧
     Venue env = sid_Venue k ∧ Instrument env = sid_Instrument k ∧
     ∀ a, above (S n) (sequencer uc) (pairOf k) a → a < Seq env).
Proof.
  intros Hst Hc uc'. destruct (Execute_effect req uc Hst (MkStreamID "" "" "")) as [Hst' Heff]. fold uc' in Hst', Heff.
  split; [by eapply watched_stream|]. unfold handed. fold uc'. destruct Heff as [Hsame|(k & sq & r & pub & Hk & Hnext & Hrest & Hpub)].
  { unfold rest in Hsame. injection Hsame as Hs Hp _ _ _. rewrite Hs, Hp, drop_all. split_and!.
    - apply (seq_contract_le (S n)); [lia|done].
    - intros pair a. apply above_le. lia.
    - by intros k env. }
  unfold rest in Hrest. injection Hrest as Hs Hp _ _ _. rewrite Hs, Hp, drop_app_length, Hk. split_and!.
  - by eapply contract_next.
  - intros pair a Hab. by eapply above_next.
  - intros k' env He. destruct Hpub as [->|(env' & ans & -> & -> & Hval & Hven & Hins & _)]; [done|].
    injection He as <- <-. split_and!; [by eapply contract_above|done..|]. intros a Hab. by eapply above_now.
Qed.

Lemma handedBy_above reqs uc n pair a j k env :
  inStore streamAt (streams uc) → seq_contract n (sequencer uc) → (length reqs ≤ n)%nat →
  above n (sequencer uc) pair a → handedBy reqs uc !! j = Some (Some (k, env)) → pairOf k = pair → a < Seq env.
Proof.
  revert uc n j. induction reqs as [|req reqs IH]; intros uc n j Hst Hc Hlen Hab Hj Hk; [done|].
  destruct n as [|n]; [cbn in Hlen; lia|].
  destruct (Execute_owed req uc n Hst Hc) as (Hst' & Hc' & Hmono & Hhand).
  destruct j as [|j]; cbn in Hj.
  - injection Hj as Hj. destruct (Hhand k env Hj) as (_ & _ & _ & _ & Hlt). apply Hlt. by rewrite Hk.
  - eapply (IH _ n j Hst' Hc'); [cbn in Hlen; lia|by apply Hmono|done|done].
Qed.

(** The stream of [k] is in the map, not expired, whenever a request for it comes. *)
Fixpoint staysFor (k : StreamID) (reqs : list IngestRequest) (uc : IngestMarketData) : Prop :=
  match reqs with
  | [] => True
  | req :: rest =>
      (streamOf (uc_dedupWindow uc) req = Some k → live k (streams uc)) ∧ staysFor k rest (Execute clk req uc).1
  end.

(** What was handed over, in terms of the watched stream. *)
Lemma handed_watched kw lo req uc k env :
  effect kw lo req uc (Execute clk req uc).1 → handed req uc = Some (k, env) →
  validEnvelope env ∧ Venue env = sid_Venue k ∧ Instrument env = sid_Instrument k ∧
  (k = kw → (∀ a, lo = Some a → a < Seq env) ∧ inStore (watched kw (Some (Seq env))) (streams (Execute clk req uc).1)).
Proof.
  intros [_ Heff]. unfold handed. destruct Heff as [Hsame|(k' & sq & r & pub & Hk & _ & Hrest & Hpub)].
  { unfold rest in Hsame. injection Hsame as _ Hp _ _ _. by rewrite Hp, drop_all. }
  unfold rest in Hrest. injection Hrest as _ Hp _ _ _. rewrite Hp, drop_app_length, Hk.
  destruct Hpub as [->|(env' & ans & -> & _ & Hval & Hven & Hins & _ & Hw)]; [done|]. intros [= <- <-]. by split_and!.
Qed.

Lemma handedBy_watched k a reqs uc j env :
  0 < a → inStore (watched k (Some a)) (streams uc) → staysFor k (take (S j) reqs) uc →
  handedBy reqs uc !! j = Some (Some (k, env)) → a < Seq env.
Proof.
  intros Ha. revert uc j. induction reqs as [|req reqs IH]; intros uc j Hst Hstay Hj; [done|]. cbn [take staysFor] in Hstay.
  destruct Hstay as [Hlive Hstay].
  assert (effect k (Some a) req uc (Execute clk req uc).1) as Heff.
  { apply Execute_watched; [by intros ? [= <-]|done|]. intros Hk _. by apply Hlive. }
  destruct j as [|j]; cbn in Hj; [|by eapply (IH _ j); [apply Heff|..]].
  injection Hj as Hj. destruct (handed_watched _ _ _ _ _ _ Heff Hj) as (_ & _ & _ & H). by apply H.
Qed.

Lemma new_ingest_streams seq bootstrap cfg : inStore streamAt (streams (NewIngestMarketDataWithConfig clk seq bootstrap cfg)).
Proof.
  exists []. pose proof (newCells_stores clk streamAt (if MaxStreams cfg <=? 0 then 10000 else MaxStreams cfg)
    (if StreamTTL cfg <=? 0 then 3600000000000 else StreamTTL cfg)) as [[] Hnd Ha Hcell]. split; [by split|done|done|done].
Qed.

(** The two reasons for the order, from any state of the use case. *)
Lemma handed_in_order reqs uc i j k e1 e2 :
  inStore streamAt (streams uc) → (i < j)%nat →
  handedBy reqs uc !! i = Some (Some (k, e1)) → handedBy reqs uc !! j = Some (Some (k, e2)) →
  validEnvelope e1 ∧ Venue e1 = sid_Venue k ∧ Instrument e1 = sid_Instrument k ∧
  (0 < Seq e1 → staysFor k (take (j - i) (drop (S i) reqs)) (runRequests clk (take (S i) reqs) uc) → Seq e1 < Seq e2) ∧
  (seq_contract (length reqs) (sequencer uc) → Seq e1 < Seq e2).
Proof.
  intros Hst. revert uc i j Hst. induction reqs as [|req reqs IH]; intros uc i j Hst Hij Hi Hj; [done|].
  destruct (Execute_effect req uc Hst k) as [Hst' Heff']. pose proof (conj Hst' Heff' : effect k None req uc _) as Heff.
  destruct j as [|j]; [lia|]. cbn in Hj. destruct i as [|i]; cbn in Hi.
  - injection Hi as Hi. destruct (handed_watched _ _ _ _ _ _ Heff Hi) as (Hval & Hven & Hins & H). destruct (H eq_refl) as [_ Hw].
    split_and!; [done..| |].
    + intros Hpos Hstay. rewrite Nat.sub_0_r in Hstay. by eapply (handedBy_watched k (Seq e1) reqs _ j).
    + intros Hc. destruct (Execute_owed req uc (length reqs) Hst Hc) as (Hst'' & Hc' & _ & Hhand).
      destruct (Hhand k e1 Hi) as (Hab & _). by eapply (handedBy_above reqs _ (length reqs) (pairOf k) _ j).
  - destruct (IH _ i j (watched_stream _ _ _ Hst') ltac:(lia) Hi Hj) as (? & ? & ? & Hstays & Hcontract).
    split_and!; [done..|exact Hstays|]. intros Hc. apply Hcontract. by apply (Execute_owed req uc (length reqs)).
Qed.

(** C37: the events of a stream are handed to the publisher in order. Whatever the
    requests and the answers of the publisher, every envelope handed over is valid and
    carries the canonical names of its request's stream. Of two envelopes of one
    stream the later has the greater sequence number: whatever the sequencer
    answers, if the first has a positive number and the stream is in the map, not
    expired, whenever a request for it comes in between; and also when the stream
    was evicted or had expired, if the sequencer keeps its contract for as many
    calls as there are requests. *)
Theorem published_sequences_increase seq bootstrap cfg reqs i j k e1 e2 :
  let uc0 := NewIngestMarketDataWithConfig clk seq bootstrap cfg in
  let hs := handedBy reqs uc0 in
  (i < j)%nat → hs !! i = Some (Some (k, e1)) → hs !! j = Some (Some (k, e2)) →
  validEnvelope e1 ∧ Venue e1 = sid_Venue k ∧ Instrument e1 = sid_Instrument k ∧
  (0 < Seq e1 → staysFor k (take (j - i) (drop (S i) reqs)) (runRequests clk (take (S i) reqs) uc0) → Seq e1 < Seq e2) ∧
  (seq_contract (length reqs) seq → Seq e1 < Seq e2).
Proof. intros uc0 hs Hij Hi Hj. by apply (handed_in_order reqs uc0 i j k e1 e2 (new_ingest_streams _ _ _)). Qed.

(** An event the publisher refused cannot be submitted again. The stream
    records the idempotency key before the publisher is called and keeps it when
    the publisher fails: if a request with a source key was handed to the
    publisher, then submitting it again, while its stream is still in the map,
    fails and hands nothing to the publisher, whatever the ports answer. *)
Theorem refused_event_cannot_be_resubmitted req uc uc1 r env ans k :
  inStore streamAt (streams uc) → req_IdempotencyKey req ≠ "" →
  Execute clk req uc = (uc1, r) → published uc1 = published uc ++ [(env, ans)] →
  streamOf (uc_dedupWindow uc) req = Some k →
  (∀ e, items (cmap (streams uc1)) !! k = Some e →
    isExpiredAt (cmap (streams uc1)) e (clk (reads (streams uc1))) = false) →
  ∃ uc2 p, Execute clk req uc1 = (uc2, inl p) ∧ published uc2 = published uc1.
Proof.
  intros Hst Hne Hrun Hpub Hk Hlive. destruct (Execute_effect req uc Hst k) as [_ Heff]. rewrite Hrun in Heff. cbn [fst] in Heff.
  assert (seenIn k (sourceHash req) (streams uc1) ∧ uc_dedupWindow uc1 = uc_dedupWindow uc) as [Hseen Hw].
  { unfold rest in Heff. destruct Heff as [Hsame|(k' & sq & r' & pub & Hk' & _ & Hrest & Hp)].
    - injection Hsame as _ Hp _ _ _. rewrite Hp in Hpub. apply (f_equal length) in Hpub. rewrite length_app in Hpub. cbn in Hpub. lia.
    - injection Hrest as _ Hp' Hw _ _. rewrite Hp' in Hpub. apply app_inv_head in Hpub as ->.
      destruct Hp as [Hp|(env' & ans' & [= -> ->] & _ & _ & _ & _ & Hs & _)]; [done|]. assert (k' = k) as -> by congruence. auto. }
  destruct Hseen as (l & en & st & [Hr Hnd Ha Hcell] & Hin & Hheap & Hid & Hh).
  pose proof Hr as [_ Hitems Hkeys _ _]. apply as_map_lookup in Hin as Hl; [|done].
  destruct (cellGet_present clk (streams uc1) l k en Hr Hl) as (c2 & l2 & Hget & _ & _ & Hh2 & _).
  { apply Hlive. by rewrite Hitems. }
  assert (triple (λ s, s = uc1) (Execute clk req) (λ _ _, False) (λ s, published s = published uc1)) as Htr.
  2: { specialize (Htr uc1 eq_refl). destruct (Execute clk req uc1) as [uc2 [p|x]]; [eauto|done]. }
  unfold Execute. eapply (triple_bind _ _ _ (λ _ s, s = uc1)).
  { intros s ->. pose proof (prepareRequest_keeps req uc1) as Hkeep.
    by destruct (prepareRequest req uc1) as [s' [p|x]]; cbn in Hkeep; subst s'. }
  intros [[eventType version] payloadBytes].
  set (Held := λ s, published s = published uc1 ∧ heap (streams s) !! value en = Some st).
  eapply (triple_bind _ _ _ (λ a s, Held s ∧ a = value en)).
  { intros s ->. unfold getOrCreateStream. unfold streamOf in Hk. rewrite <- Hw in Hk. unfold_meth.
    destruct (NewInstrumentStreamWithMarketType _ _ _ (uc_dedupWindow uc1)) as [p|t]; [done|]. injection Hk as ->.
    unfold onStreams. rewrite Hget. subst Held. cbn. by rewrite Hh2. }
  intros a s [Hs ->]. revert s Hs. eapply (triple_bind _ _ _ (λ _, Held)); [by intros s Hs|]. intros ms.
  eapply (triple_bind _ _ _ (λ _, Held)); [apply triple_try; intros s []; by case_match|]. intros tsIngest. cbn zeta.
  eapply (triple_bind _ _ _ (λ st' s, Held s ∧ st' = st)).
  { intros s [Hp Hv]. unfold onStreams, load. by rewrite Hv. }
  intros st' s [Hs ->]. revert s Hs. eapply (triple_bind _ _ _ (λ _, Held)).
  { intros s [Hp Hv]. unfold onSequencer. by destruct (Next _ _ (sequencer s)) as [sq [p|n]]. }
  intros n. eapply (triple_bind _ _ _ (λ _, Held)); [apply triple_try; intros s []; by case_match|]. intros m.
  eapply (triple_bind _ _ _ (λ _, Held)); [by apply triple_recv|]. intros uc0.
  eapply (triple_bind _ _ _ (λ _ _, False)); [|by intros ? ? []].
  intros s [Hp Hv]. unfold onStreams, callAt. rewrite Hv.
  match goal with |- context [BuildEnvelope ?x st] => destruct (seen_is_refused x st) as (st2 & p & ->) end; [|done].
  rewrite source_inputHash by done. exact Hh.
Qed.
End ingest_spec.

(** ** Witnesses *)

Definition okIngest : IngestPorts :=
  {| PayloadT := unit; EncodePayload _ _ _ _ := inr [123]; Publish _ _ := None |}.
(** A bus that is down for the first event. *)
Definition flakyIngest : IngestPorts :=
  {| PayloadT := unit; EncodePayload _ _ _ _ := inr [123];
     Publish h _ := match h with [] => Some (New Unavailable "bus is down") | _ => None end |}.

Definition w_clock (n : nat) : Z := 1700000000000000000 + Z.of_nat n.
Definition w_cfg : IngestConfig := MkIngestConfig 8 16 0 "".
Definition w_ingest (p : IngestPorts) : IngestMarketData (SQ:=inMem) :=
  NewIngestMarketDataWithConfig (GR:=go_amd64) (SQ:=inMem) w_clock (newInMemSequencer 1700000000000) None w_cfg.
Definition w_req (p : IngestPorts) (payload : PayloadT (IngestPorts:=p)) (marketType key : string) : IngestRequest (ports:=p) :=
  MkIngestRequest p "binance" "BTC-USDT" marketType "marketdata.trade" 1 0 key (Some payload) ∅.

Definition w_reqs : list (IngestRequest (ports:=okIngest)) :=
  [w_req okIngest tt "" "a"; w_req okIngest tt "" "a"; w_req okIngest tt "" "b"].
Definition w_stream : StreamID := MkStreamID "BINANCE" "BTCUSDT" "SPOT".

(** The stream is live before a request. *)
Definition liveb {ports : IngestPorts} (clk : nat → Z) (k : StreamID) (uc : IngestMarketData (SQ:=inMem)) : bool :=
  match items (cmap (streams uc)) !! k with
  | Some e => negb (isExpiredAt (cmap (streams uc)) e (clk (reads (streams uc))))
  | None => false
  end.
Lemma liveb_live {ports : IngestPorts} clk k (uc : IngestMarketData (SQ:=inMem)) : liveb clk k uc = true → live clk k (streams uc).
Proof.
  unfold liveb, live. destruct (items (cmap (streams uc)) !! k) as [e|]; [|discriminate]. intros H%negb_true_iff. by exists e.
Qed.

Fixpoint staysForb {ports : IngestPorts} (clk : nat → Z) (k : StreamID) (reqs : list IngestRequest)
    (uc : IngestMarketData (SQ:=inMem)) : bool :=
  match reqs with
  | [] => true
  | req :: rest =>
      (negb (bool_decide (streamOf (GR:=go_amd64) (uc_dedupWindow uc) req = Some k)) || liveb clk k uc) &&
      staysForb clk k rest (Execute (GR:=go_amd64) clk req uc).1
  end.
Lemma staysForb_stays {ports : IngestPorts} clk k reqs uc :
  staysForb clk k reqs uc = true → staysFor (GR:=go_amd64) (SQ:=inMem) clk k reqs uc.
Proof.
  revert uc. induction reqs as [|req reqs IH]; intros uc; [done|]. cbn [staysFor staysForb].
  intros [Hl Hr]%andb_prop. split; [|by apply IH]. intros Hk. apply liveb_live. by rewrite bool_decide_true in Hl.
Qed.

Lemma published_sequences_increase_witness :
  ∃ e1 e2, handedBy (GR:=go_amd64) (SQ:=inMem) (ports:=okIngest) w_clock w_reqs (w_ingest okIngest) =
    [Some (w_stream, e1); None; Some (w_stream, e2)] ∧ Seq e1 < Seq e2.
Proof.
  match goal with |- ∃ e1 e2, ?l = _ ∧ _ =>
    destruct l as [|[[k e1]|] [|[[]|] [|[[k' e2]|] [|]]]] eqn:Hl; try (vm_compute in Hl; discriminate Hl) end.
  pose proof (f_equal (λ l, match l with [Some (k, e); _; Some (k', _)] => Some (k, k', Seq e) | _ => None end) Hl) as Hobs.
  cbn match in Hobs. assert (Some (w_stream, w_stream, 1700000000000001) = Some (k, k', Seq e1)) as Hobs' by (rewrite <- Hobs; vm_compute; reflexivity).
  clear Hobs. injection Hobs' as <- <- Hs1.
  exists e1, e2. split; [reflexivity|].
  destruct (published_sequences_increase (GR:=go_amd64) (SQ:=inMem) (ports:=okIngest) w_clock (newInMemSequencer 1700000000000)
    None w_cfg w_reqs 0 2 w_stream e1 e2) as (_ & _ & _ & Hinc & _); [..|apply Hinc].
  - lia.
  - exact (f_equal (λ l, l !! 0%nat) Hl).
  - exact (f_equal (λ l, l !! 2%nat) Hl).
  - rewrite <- Hs1. reflexivity.
  - apply (staysForb_stays (ports:=okIngest)). vm_compute. reflexivity.
Defined.

Lemma refused_event_cannot_be_resubmitted_witness :
  let uc1 := (Execute (GR:=go_amd64) (SQ:=inMem) (ports:=flakyIngest) w_clock (w_req flakyIngest tt "" "a") (w_ingest flakyIngest)).1 in
  length (published uc1) = 1%nat ∧
  ∃ uc2 p, Execute (GR:=go_amd64) (SQ:=inMem) (ports:=flakyIngest) w_clock (w_req flakyIngest tt "" "a") uc1 = (uc2, inl p) ∧
    Code p = Duplicate ∧ published uc2 = published uc1.
Proof.
  cbn zeta. set (req := w_req flakyIngest tt "" "a").
  destruct (Execute (GR:=go_amd64) (SQ:=inMem) (ports:=flakyIngest) w_clock req (w_ingest flakyIngest)) as [uc1 r] eqn:Hrun.
  cbn [fst]. pose proof (f_equal fst Hrun) as Huc. cbn [fst] in Huc.
  assert (length (published uc1) = 1%nat) as Hlen by (rewrite <- Huc; vm_compute; reflexivity). split; [exact Hlen|].
  destruct (published uc1) as [|[env ans] [|]] eqn:Hpub; try discriminate Hlen.
  destruct (refused_event_cannot_be_resubmitted (GR:=go_amd64) (SQ:=inMem) (ports:=flakyIngest) w_clock req
    (w_ingest flakyIngest) uc1 r env ans (MkStreamID "BINANCE" "BTCUSDT" "SPOT")) as (uc2 & p & Hrun2 & Hsame).
  - exists []. pose proof (newCells_stores w_clock streamAt 16 3600000000000) as [[] Hnd Ha Hc]. split; [by split|done|done|done].
  - discriminate.
  - exact Hrun.
  - rewrite Hpub. reflexivity.
  - vm_compute. reflexivity.
  - assert ((λ e, isExpiredAt (cmap (streams uc1)) e (w_clock (reads (streams uc1)))) <$>
      items (cmap (streams uc1)) !! MkStreamID "BINANCE" "BTCUSDT" "SPOT" = Some false) as Hlive
      by (rewrite <- Huc; vm_compute; reflexivity).
    intros e He. rewrite He in Hlive. injection Hlive as Hlive. exact Hlive.
  - exists uc2, p. split; [exact Hrun2|]. split; [|rewrite <- Hpub; exact Hsame].
    assert (observed_err (λ _ p, Code p) (Execute (GR:=go_amd64) (SQ:=inMem) (ports:=flakyIngest) w_clock req uc1) = Some Duplicate)
      as Hobs by (rewrite <- Huc; vm_compute; reflexivity).
    rewrite Hrun2 in Hobs. injection Hobs as Hobs. exact Hobs.
Defined.

(** ** Market types of one instrument *)

(** Two market types of one instrument are different streams with sequences of
    their own, but their envelopes have the same topic and, without a source key,
    the same derived idempotency key: a bus that deduplicates by that key drops
    the second event. *)
Theorem market_types_share_derived_keys :
  ∃ k1 e1 k2 e2, handedBy (GR:=go_amd64) (SQ:=inMem) (ports:=okIngest) w_clock
      [w_req okIngest tt "SPOT" ""; w_req okIngest tt "USD_M_FUTURES" ""] (w_ingest okIngest) =
    [Some (k1, e1); Some (k2, e2)] ∧ k1 ≠ k2 ∧ Seq e1 = Seq e2 ∧ IdempotencyKey e1 = IdempotencyKey e2 ∧
    (TopicKey (GR:=go_amd64) e1).2 = (TopicKey (GR:=go_amd64) e2).2.
Proof.
  match goal with |- ∃ k1 e1 k2 e2, ?hs = _ ∧ _ => assert (
    (λ l, match l with
     | [Some (k1, e1); Some (k2, e2)] => bool_decide (k1 ≠ k2) && bool_decide (Seq e1 = Seq e2) &&
         bool_decide (IdempotencyKey e1 = IdempotencyKey e2) &&
         bool_decide ((TopicKey (GR:=go_amd64) e1).2 = (TopicKey (GR:=go_amd64) e2).2)
     | _ => false end) hs = true) as H by (vm_compute; reflexivity); revert H; generalize hs end.
  intros [|[[k1 e1]|] [|[[k2 e2]|] [|]]] H; try discriminate H. reflect_bools. eauto 10.
Qed.
