(* ===== verification/Ownership.v ===== *)
(** * Ownership: internal/shared/ownership

    The decision whether an event continues its stream (monotonic.go) and the
    assignment of streams to replicas (contract.go). *)

From S2P Require Import Prelude GoRuntime Shared Hash.

Local Open Scope string_scope.
Local Open Scope list_scope.
Local Open Scope Z_scope.

(** ** monotonic.go *)

Inductive MonotonicAction := ActionAccept | ActionDrop | ActionConvertToResync.
#[export] Instance MonotonicAction_eq_dec : EqDecision MonotonicAction.
Proof. solve_decision. Defined.

Definition ReasonUnknown : string := "unknown".
Definition ReasonSeqInvalid : string := "seq_invalid".
Definition ReasonReplayDuplicate : string := "replay_duplicate".
Definition ReasonOwnerChange : string := "owner_change".
Definition ReasonResyncOverlap : string := "resync_overlap".
Definition ReasonStaleEvent : string := "stale_event".
Definition ReasonOutOfOrderInput : string := "out_of_order_input".
Definition ReasonSeqNonMonotonic : string := "seq_non_monotonic".

Record MonotonicInput := MkMonotonicInput {
  in_StreamKey : string;
  IsSnapshot : bool;
  CandidateSeq : Z;
  CandidateWatermark : Z;
  LastSeq : Z;
  LastWatermark : Z;
  CandidateOwner : string;
  LastOwner : string;
  HandoffWatermarkSeq : Z;
  PendingResyncWatermark : Z;
  StaleGapWindow : Z;
}.

Record MonotonicDecision := MkMonotonicDecision {
  Action : MonotonicAction;
  RejectReason : string;
  ViolationType : string;
  CoherenceReason : string;
  ResyncWatermark : Z;
  dec_Duplicate : bool;
  dec_OutOfOrder : bool;
}.

Definition dropDecision (reason : string) (duplicate outOfOrder : bool) : MonotonicDecision :=
  MkMonotonicDecision ActionDrop reason "" reason 0 duplicate outOfOrder.
Definition invalidDecision : MonotonicDecision :=
  MkMonotonicDecision ActionDrop ReasonSeqInvalid ReasonSeqInvalid ReasonUnknown 0 false false.

Definition pendingResyncOverlap (m : MonotonicInput) : bool :=
  (0 <? PendingResyncWatermark m) && negb (IsSnapshot m) && (CandidateSeq m <=? PendingResyncWatermark m).
Definition replayDuplicate (m : MonotonicInput) : bool := (0 <? LastSeq m) && (CandidateSeq m =? LastSeq m).

Definition ownerChangeDecision (m : MonotonicInput) : option MonotonicDecision :=
  if str_eqb (CandidateOwner m) "" || str_eqb (LastOwner m) "" || str_eqb (CandidateOwner m) (LastOwner m) then None else
  let watermark := if HandoffWatermarkSeq m <? LastSeq m then LastSeq m else HandoffWatermarkSeq m in
  if watermark <? CandidateSeq m then None else
  Some (MkMonotonicDecision ActionConvertToResync ReasonOwnerChange "" ReasonOwnerChange watermark false true).

Definition snapshotOverlapDecision (m : MonotonicInput) : option MonotonicDecision :=
  if negb (IsSnapshot m) || (HandoffWatermarkSeq m <=? 0) || (HandoffWatermarkSeq m <? CandidateSeq m) then None else
  Some (MkMonotonicDecision ActionConvertToResync ReasonResyncOverlap "" ReasonResyncOverlap (HandoffWatermarkSeq m) false true).

Definition watermarkRegressed (m : MonotonicInput) : bool :=
  (0 <? LastWatermark m) && (0 <? CandidateWatermark m) && (CandidateWatermark m <? LastWatermark m).
Definition staleGap (m : MonotonicInput) : bool :=
  let gap := sub64 (LastSeq m) (CandidateSeq m) in (0 <? gap) && (gap <=? StaleGapWindow m).

Section ownership.
Context {GR : GoRuntime}.

Definition isInvalid (m : MonotonicInput) : bool :=
  str_eqb (TrimSpace (in_StreamKey m)) "" || (CandidateSeq m <=? 0).

Definition DecideMonotonic (m : MonotonicInput) : MonotonicDecision :=
  if isInvalid m then invalidDecision
  else if pendingResyncOverlap m then dropDecision ReasonResyncOverlap false true
  else if replayDuplicate m then dropDecision ReasonReplayDuplicate true false
  else match ownerChangeDecision m with
  | Some decision => decision
  | None =>
      match snapshotOverlapDecision m with
      | Some decision => decision
      | None =>
          if (LastSeq m <=? 0) || (LastSeq m <? CandidateSeq m) then MkMonotonicDecision ActionAccept "" "" "" 0 false false
          else if watermarkRegressed m then dropDecision ReasonStaleEvent false true
          else if staleGap m then dropDecision ReasonStaleEvent false true
          else MkMonotonicDecision ActionDrop ReasonSeqNonMonotonic ReasonSeqNonMonotonic ReasonOutOfOrderInput 0 false true
      end
  end.

(** ** contract.go *)

Record StreamKey := MkStreamKey { sk_Venue : string; sk_Instrument : string; sk_Channel : string; sk_Timeframe : string }.

Definition SubsystemDelivery : string := "delivery".
Definition canonicalLower (v : string) : string := ToLower (TrimSpace v).
Definition canonicalUpper (v : string) : string := ToUpper (TrimSpace v).
Definition canonicalSubsystem (v : string) : string :=
  let s := canonicalLower v in if str_eqb s "" then "unknown" else s.

Definition CanonicalLabel (key : StreamKey) : string :=
  (canonicalLower (sk_Venue key) ++ "|" ++ canonicalUpper (sk_Instrument key) ++ "|" ++
   canonicalLower (sk_Channel key) ++ "|" ++ canonicalLower (sk_Timeframe key))%string.

Definition ShardKey (subsystem : string) (key : StreamKey) : Z :=
  SumFieldsFast64 [canonicalSubsystem subsystem; canonicalLower (sk_Venue key); canonicalUpper (sk_Instrument key);
                   canonicalLower (sk_Channel key); canonicalLower (sk_Timeframe key)].

(** The remainder is printed and parsed again; both are exact. *)
Definition OwnerReplica (subsystem : string) (key : StreamKey) (replicaCount : Z) : Z :=
  if replicaCount <=? 1 then 0 else
  let owner := ShardKey subsystem key mod replicaCount in
  if (owner <? 0) || (replicaCount <=? owner) then 0 else owner.

(** ** What is accepted *)

(** An event is accepted only if it is later than the last one of its stream, and
    not below a watermark it has to stay above. *)
Lemma accept_is_later m :
  Action (DecideMonotonic m) = ActionAccept →
  0 < CandidateSeq m ∧ (0 < LastSeq m → LastSeq m < CandidateSeq m) ∧
  (0 < PendingResyncWatermark m → IsSnapshot m = false → PendingResyncWatermark m < CandidateSeq m).
Proof.
  unfold DecideMonotonic. destruct (isInvalid m) eqn:Hinv; [done|]. unfold isInvalid in Hinv.
  destruct (pendingResyncOverlap m) eqn:Hpend; [done|]. destruct (replayDuplicate m); [done|].
  destruct (ownerChangeDecision m) eqn:Ho; [unfold ownerChangeDecision in Ho; repeat case_match; simplify_eq; done|].
  destruct (snapshotOverlapDecision m) eqn:Hs; [unfold snapshotOverlapDecision in Hs; repeat case_match; simplify_eq; done|].
  destruct ((LastSeq m <=? 0) || (LastSeq m <? CandidateSeq m)) eqn:Hl; [|repeat case_match; done].
  intros _. unfold pendingResyncOverlap in Hpend. apply orb_false_iff in Hinv as [_ Hinv].
  apply Z.leb_gt in Hinv. apply orb_true_iff in Hl. rewrite Z.leb_le, Z.ltb_lt in Hl. split_and!; [lia|lia|].
  intros Hp Hsnap. rewrite Hsnap, (proj2 (Z.ltb_lt _ _) Hp) in Hpend. by apply Z.leb_gt in Hpend.
Qed.
End ownership.
