(* ===== verification/Delivery.v ===== *)
(** * Delivery: internal/core/delivery/domain

    Subjects (the routing keys of the WebSocket delivery), sessions with their
    subscriptions, the envelopes that may be delivered, and the backpressure
    policies. *)

From S2P Require Import Prelude GoRuntime Shared Envelope.
From Stdlib Require Import Ascii.

Local Open Scope string_scope.
Local Open Scope list_scope.
Local Open Scope Z_scope.

(** ** subject.go *)

Definition DefaultTimeframe : string := "raw".
Definition signalStreamType : string := "signal".
Definition signalCompositeEventType : string := "signal.composite".
Definition signalEventType : string := "signal.event".
Definition unknownSignalSubjectKind : string := "unknown".

Record Subject := MkSubject {
  StreamType : string;
  Kind : string;
  sub_Venue : string;
  Symbol : string;
  Timeframe : string;
}.
#[export] Instance Subject_eq_dec : EqDecision Subject.
Proof. solve_decision. Defined.
#[export] Instance Subject_countable : Countable Subject.
Proof.
  refine (inj_countable' (λ s, (StreamType s, Kind s, sub_Venue s, Symbol s, Timeframe s))
    (λ '(t, k, v, y, f), MkSubject t k v y f) _). by intros [].
Defined.

Section subject.
Context {GR : GoRuntime}.

Definition NormalizeSymbol (raw : string) : string := CanonicalInstrument raw.
Definition IsInstrumentSymbolEquivalent (symbol instrument : string) : bool :=
  str_eqb (NormalizeSymbol symbol) (NormalizeSymbol instrument).

(** The checks and the default shared by both constructors, after normalisation. *)
Definition mkSubject (streamType kind venue symbol timeframe : string) : Problem + Subject :=
  if str_eqb venue "" then inl (New ValidationFailed "subject venue must not be empty")
  else if str_eqb symbol "" then inl (New ValidationFailed "subject symbol must not be empty")
  else
    let timeframe := if str_eqb timeframe "" then DefaultTimeframe else timeframe in
    inr (MkSubject streamType kind venue symbol timeframe).

Definition NewSubject (streamType venue symbol timeframe : string) : Problem + Subject :=
  let streamType := ToLower (TrimSpace streamType) in
  let venue := ToLower (TrimSpace venue) in
  let symbol := NormalizeSymbol symbol in
  let timeframe := ToLower (TrimSpace timeframe) in
  if str_eqb streamType "" then inl (New ValidationFailed "subject stream_type must not be empty")
  else mkSubject streamType "" venue symbol timeframe.

Definition NewSignalSubject (kind venue symbol timeframe : string) : Problem + Subject :=
  let kind := ToLower (TrimSpace kind) in
  if str_eqb kind "" then inl (New ValidationFailed "subject signal kind must not be empty") else
  let venue := ToLower (TrimSpace venue) in
  let symbol := NormalizeSymbol symbol in
  let timeframe := ToLower (TrimSpace timeframe) in
  mkSubject signalStreamType kind venue symbol timeframe.

Definition ParseSubject (raw : string) : Problem + Subject :=
  match Split "/"%char (TrimSpace raw) with
  | [p0; p1; p2; p3] => NewSubject p0 p1 p2 p3
  | parts =>
      let wrong := inl (Newf ValidationFailed
        "subject must have 4 segments <stream_type>/<venue>/<symbol>/<timeframe> or 5 segments signal/<kind>/<venue>/<symbol>/<timeframe>, got %q"
        [AnyStr raw]) in
      match parts with
      | [p0; p1; p2; p3; p4] => if EqualFold (TrimSpace p0) signalStreamType then NewSignalSubject p1 p2 p3 p4 else wrong
      | _ => wrong
      end
  end.

Definition SubjectFromEnvelope (env : Envelope) (timeframe : string) : Problem + Subject :=
  let eventType := ToLower (TrimSpace (Type_ env)) in
  if str_eqb eventType signalCompositeEventType || str_eqb eventType signalEventType then
    let rawKind := ToLower (TrimSpace (default "" (Meta env !! "kind"))) in
    let kind := if Z.of_nat (size (Meta env)) =? 0 then unknownSignalSubjectKind
                else if str_eqb rawKind "" then unknownSignalSubjectKind else rawKind in
    NewSignalSubject kind (Venue env) (Instrument env) timeframe
  else NewSubject (Type_ env) (Venue env) (Instrument env) timeframe.

Definition TimeframeFromEnvelopeMeta (env : Envelope) (fallback : string) : string :=
  if Z.of_nat (size (Meta env)) =? 0 then fallback else
  let tf := TrimSpace (default "" (Meta env !! "timeframe")) in
  if str_eqb tf "" then fallback else tf.

Definition IsSignal (s : Subject) : bool := EqualFold (TrimSpace (StreamType s)) signalStreamType.

(** [Subject.String] *)
Definition SubjectString (s : Subject) : string :=
  if IsSignal s then
    let kind := ToLower (TrimSpace (Kind s)) in
    let kind := if str_eqb kind "" then unknownSignalSubjectKind else kind in
    (signalStreamType ++ "/" ++ kind ++ "/" ++ sub_Venue s ++ "/" ++ Symbol s ++ "/" ++ Timeframe s)%string
  else (StreamType s ++ "/" ++ sub_Venue s ++ "/" ++ Symbol s ++ "/" ++ Timeframe s)%string.

(** snapshot_subject.go *)
Definition SnapshotSubject (venue instrument timeframe : string) : Problem + Subject :=
  NewSubject "aggregation.snapshot" venue instrument timeframe.

(** ** session.go *)

Record Filter := MkFilter { MinSpread : float64 }.
Record Subscription := MkSubscription { subscr_Subject : Subject; subscr_Filter : Filter }.

(** The identifier is a fresh UUID, given by the caller. *)
Record Session := MkSession { session_id : string; subscriptions : gmap Subject Subscription }.
#[export] Instance Session_eta : Eta Session := λ r, MkSession (session_id r) (subscriptions r).

Definition NewSession (uuid : string) : Session := MkSession uuid ∅.
Definition Subscribe (subject : Subject) (filter : Filter) : Meth Session Problem unit :=
  assign (λ s, s <| subscriptions ::= <[subject := MkSubscription subject filter]> |>).
Definition Unsubscribe (subject : Subject) : Meth Session Problem unit :=
  s ← recv;
  match subscriptions s !! subject with
  | None => throw (Newf NotFound "not subscribed to subject %q" [AnyStr (SubjectString subject)])
  | Some _ => assign (λ s, s <| subscriptions ::= delete subject |>)
  end.
Definition Subscriptions (s : Session) : list Subscription := (map_range (subscriptions s)).*2.
Definition IsSubscribed (s : Session) (subject : Subject) : bool := bool_decide (is_Some (subscriptions s !! subject)).
Definition SignalSubscriptionCount (s : Session) : Z :=
  foldl (λ count sub, if IsSignal (subscr_Subject sub) then add64 count 1 else count) 0 (map_range (subscriptions s)).*2.

(** ** backpressure_policy.go *)

Inductive BackpressurePolicy := BackpressureDropNewest | BackpressureDropOldest | BackpressurePriorityDrop.
#[export] Instance BackpressurePolicy_eq_dec : EqDecision BackpressurePolicy.
Proof. solve_decision. Defined.

(** Every other spelling means the default policy. *)
Definition NormalizeBackpressurePolicy (raw : string) : BackpressurePolicy :=
  let p := ToLower (TrimSpace raw) in
  if str_eqb p "drop_newest" then BackpressureDropNewest
  else if str_eqb p "drop_oldest" then BackpressureDropOldest
  else if str_eqb p "priority_drop" then BackpressurePriorityDrop
  else BackpressureDropNewest.

Definition ShouldDropOnBackpressure (policy : string) (queueLen queueCap : Z) : bool :=
  if queueCap <=? 0 then false
  else if queueLen <? queueCap then false
  else match NormalizeBackpressurePolicy policy with
       | BackpressureDropNewest => true
       | BackpressureDropOldest => false
       | BackpressurePriorityDrop => false
       end.
End subject.

Definition DefaultBackpressurePriorities : gmap string Z := list_to_map
  [("marketdata.trade", 100); ("aggregation.candle", 90); ("aggregation.stats", 80); ("aggregation.bar_stats",
    78); ("aggregation.delta_volume", 76); ("aggregation.cvd", 76); ("aggregation.oi", 72);
    ("marketdata.bookdelta", 20); ("insights.heatmap_snapshot", 55); ("marketdata.markprice", 50);
    ("marketdata.open_interest", 48); ("marketdata.liquidation", 40); ("insights.crossvenue.trade_snapshot", 30);
    ("insights.crossvenue.spread_signal", 20); ("evidence.microstructure_evidence", 25);
    ("insights.microstructure_evidence", 25); ("liquidity.evidence", 25); ("signal.event", 70);
    ("signal.composite", 65); ("strategy.intent", 68); ("execution.event", 66); ("portfolio.state", 64);
    ("insights.volume_profile_snapshot", 20); ("insights.volume_profile_delta", 20); ("insights.heatmap_delta",
    55); ("insights.session_volume_profile", 18); ("insights.tpo_profile", 18);
    ("insights.fused_volume_profile_snapshot", 15); ("insights.fused_heatmap_snapshot", 15)].

(** ** envelope_policy.go *)

Record deliveryContract := MkContract {
  contract_version : Z;
  ownerBC : string;
  producerBC : string;
  schemaAuthority : string;
}.

Definition deliveryContracts : gmap string deliveryContract := list_to_map
  [("marketdata.trade", MkContract 1 "marketdata" "marketdata" "marketdata");
    ("marketdata.bookdelta", MkContract 1 "marketdata" "marketdata" "marketdata");
    ("marketdata.markprice", MkContract 1 "marketdata" "marketdata" "marketdata");
    ("marketdata.open_interest", MkContract 1 "marketdata" "marketdata" "marketdata");
    ("marketdata.liquidation", MkContract 1 "marketdata" "marketdata" "marketdata");
    ("insights.crossvenue.trade_snapshot", MkContract 1 "insights" "aggregation" "aggregation");
    ("insights.crossvenue.spread_signal", MkContract 1 "insights" "aggregation" "aggregation");
    ("evidence.microstructure_evidence", MkContract 1 "evidence" "evidence" "evidence");
    ("liquidity.evidence", MkContract 1 "evidence" "evidence" "evidence");
    ("evidence.regime_evidence", MkContract 1 "evidence" "evidence" "evidence");
    ("insights.microstructure_evidence", MkContract 1 "evidence" "evidence" "evidence");
    ("insights.regime_evidence", MkContract 1 "evidence" "evidence" "evidence");
    ("signal.composite", MkContract 1 "signal" "signal" "signal");
    ("signal.event", MkContract 1 "signal" "signal" "signal");
    ("strategy.intent", MkContract 1 "strategy" "strategy" "strategy");
    ("execution.event", MkContract 1 "execution" "execution" "execution");
    ("portfolio.state", MkContract 1 "portfolio" "portfolio" "portfolio");
    ("aggregation.snapshot", MkContract 1 "aggregation" "aggregation" "aggregation");
    ("aggregation.orderbook_inconsistency", MkContract 1 "aggregation" "aggregation" "aggregation");
    ("aggregation.candle", MkContract 1 "aggregation" "aggregation" "aggregation");
    ("aggregation.stats", MkContract 1 "aggregation" "aggregation" "aggregation");
    ("aggregation.tape", MkContract 1 "aggregation" "aggregation" "aggregation");
    ("aggregation.oi", MkContract 1 "aggregation" "aggregation" "aggregation");
    ("aggregation.delta_volume", MkContract 1 "aggregation" "aggregation" "aggregation");
    ("aggregation.cvd", MkContract 1 "aggregation" "aggregation" "aggregation");
    ("aggregation.bar_stats", MkContract 1 "aggregation" "aggregation" "aggregation");
    ("insights.heatmap_snapshot", MkContract 1 "insights" "aggregation" "aggregation");
    ("insights.heatmap_delta", MkContract 1 "insights" "aggregation" "aggregation");
    ("insights.volume_profile_snapshot", MkContract 1 "insights" "aggregation" "aggregation");
    ("insights.volume_profile_delta", MkContract 1 "insights" "aggregation" "aggregation");
    ("insights.session_volume_profile", MkContract 1 "insights" "aggregation" "aggregation");
    ("insights.tpo_profile", MkContract 1 "insights" "aggregation" "aggregation");
    ("insights.fused_volume_profile_snapshot", MkContract 1 "insights" "aggregation" "aggregation");
    ("insights.fused_heatmap_snapshot", MkContract 1 "insights" "aggregation" "aggregation")].

Definition ValidateEnvelopeForDelivery {GR : GoRuntime} (env : Envelope) : option Problem :=
  let eventType := ToLower (TrimSpace (Type_ env)) in
  match deliveryContracts !! eventType with
  | None => Some (Newf ValidationFailed "delivery stream type %q is not allowed" [AnyStr (Type_ env)])
  | Some contract =>
      if negb (Version env =? contract_version contract) then
        Some (Newf ValidationFailed "delivery stream version mismatch for %q: got v%d want v%d"
          [AnyStr eventType; AnyInt (Version env); AnyInt (contract_version contract)])
      else if negb (str_eqb (ownerBC contract) (producerBC contract)) then
        if str_eqb (TrimSpace (schemaAuthority contract)) "" then
          Some (Newf ValidationFailed "delivery governance missing schema authority for %q" [AnyStr eventType])
        else if negb (str_eqb (schemaAuthority contract) (ownerBC contract)) &&
                negb (str_eqb (schemaAuthority contract) (producerBC contract)) then
          Some (Newf ValidationFailed "delivery governance invalid schema authority for %q" [AnyStr eventType])
        else None
      else None
  end.
