(* ===== verification/DeliveryRing.v ===== *)
(** * DeliveryRing: internal/actors/delivery/runtime/delivery_ring.go

    The bounded queue of a delivery session: a preallocated ring buffer. An
    access outside the buffer panics, which is an error of the method here; the
    refinement below shows that no operation panics and that the ring is a queue
    of at most [cap] events.

    Index arithmetic is on unbounded integers: the sum of two indices of one
    slice is far below 2^63. *)

From S2P Require Import Prelude GoRuntime Shared Envelope Delivery.

Local Open Scope string_scope.
Local Open Scope list_scope.
Local Open Scope Z_scope.

(** protocol.go *)
Record DeliveryEvent := MkDeliveryEvent { ev_Subject : Subject; ev_Env : Envelope }.
#[export] Instance DeliveryEvent_eta : Eta DeliveryEvent := λ r, MkDeliveryEvent (ev_Subject r) (ev_Env r).

(** [DeliveryEvent{}] *)
Definition zeroEvent : DeliveryEvent :=
  MkDeliveryEvent (MkSubject "" "" "" "" "") (MkEnvelope "" 0 "" "" 0 0 0 "" "" ∅ [] "").

Record deliveryRing := MkDeliveryRing {
  buf : list DeliveryEvent;
  head : Z;
  count : Z;
  cap : Z;
}.
#[export] Instance deliveryRing_eta : Eta deliveryRing := λ r, MkDeliveryRing (buf r) (head r) (count r) (cap r).

Abbreviation RingM := (Meth deliveryRing Problem).

Definition ringPanic : Problem := New Internal "runtime error: index out of range".

Definition newDeliveryRing (capacity : Z) : deliveryRing :=
  let capacity := if capacity <=? 0 then 256 else capacity in
  MkDeliveryRing (replicate (Z.to_nat capacity) zeroEvent) 0 0 capacity.

Definition Len (r : deliveryRing) : Z := count r.
Definition Cap (r : deliveryRing) : Z := cap r.
Definition IsFull (r : deliveryRing) : bool := cap r <=? count r.

(** [r.buf[i]] and [r.buf[i] = evt] *)
Definition getSlot (i : Z) : RingM DeliveryEvent := λ r,
  (r, if i <? 0 then inl ringPanic else match buf r !! Z.to_nat i with Some e => inr e | None => inl ringPanic end).
Definition setSlot (i : Z) (evt : DeliveryEvent) : RingM unit :=
  r ← recv;
  fail_if ((i <? 0) || (Z.of_nat (length (buf r)) <=? i)) ringPanic ;;
  assign (λ r, r <| buf ::= <[Z.to_nat i := evt]> |>).
(** [(r.head + k) % r.cap]; a zero capacity divides by zero. *)
Definition slotOf (k : Z) : RingM Z :=
  r ← recv;
  fail_if (cap r =? 0) (New Internal "runtime error: integer divide by zero") ;;
  mret (Z.rem (head r + k) (cap r)).

Definition PushBack (evt : DeliveryEvent) : RingM unit :=
  r ← recv;
  idx ← slotOf (count r);
  setSlot idx evt ;;
  assign (λ r, r <| count := count r + 1 |>).

Definition PopFront : RingM (option DeliveryEvent) :=
  r ← recv;
  if count r =? 0 then mret None else
  evt ← getSlot (head r);
  setSlot (head r) zeroEvent ;;
  next ← slotOf 1;
  assign (λ r, r <| head := next |>) ;;
  assign (λ r, r <| count := count r - 1 |>) ;;
  mret (Some evt).

Definition DropFront : RingM unit :=
  r ← recv;
  if count r =? 0 then mret tt else
  setSlot (head r) zeroEvent ;;
  next ← slotOf 1;
  assign (λ r, r <| head := next |>) ;;
  assign (λ r, r <| count := count r - 1 |>).

Definition At (i : Z) : RingM DeliveryEvent :=
  idx ← slotOf i;
  getSlot idx.

(** The loop of [RemoveAt] for [j], [j+1], ..., [n] times. *)
Fixpoint shiftLoop (n : nat) (j : Z) : RingM unit :=
  match n with
  | O => mret tt
  | S n =>
      src ← slotOf (j + 1);
      dst ← slotOf j;
      evt ← getSlot src;
      setSlot dst evt ;;
      shiftLoop n (j + 1)
  end.

Definition RemoveAt (i : Z) : RingM unit :=
  if i =? 0 then DropFront else
  r ← recv;
  shiftLoop (Z.to_nat (count r - 1 - i)) i ;;
  tail ← slotOf (count r - 1);
  setSlot tail zeroEvent ;;
  assign (λ r, r <| count := count r - 1 |>).

(** ** The ring is a bounded queue *)

(** The physical index of logical position [k]. *)
Definition pos (r : deliveryRing) (k : Z) : Z := (head r + k) mod cap r.

(** [r] holds the queue [l]: position [k] holds element [k], and every position
    past the end holds the zero event, so that nothing keeps a dropped payload. *)
Record holds (r : deliveryRing) (l : list DeliveryEvent) : Prop := {
  holds_cap : 0 < cap r;
  holds_buf : Z.of_nat (length (buf r)) = cap r;
  holds_head : 0 ≤ head r < cap r;
  holds_count : count r = Z.of_nat (length l);
  holds_bound : count r ≤ cap r;
  holds_slots : ∀ k : nat, Z.of_nat k < cap r → buf r !! Z.to_nat (pos r (Z.of_nat k)) = Some (default zeroEvent (l !! k));
}.

Lemma pos_range r k : 0 < cap r → 0 ≤ pos r k < cap r.
Proof. intros. by apply Z.mod_pos_bound. Qed.

Lemma pos_inj r j k : 0 < cap r → 0 ≤ j < cap r → 0 ≤ k < cap r → pos r j = pos r k → j = k.
Proof.
  unfold pos. intros Hc Hj Hk Heq. apply (f_equal (λ x, (x - head r) mod cap r)) in Heq. revert Heq.
  rewrite !Zminus_mod_idemp_l. replace (head r + j - head r) with j by lia.
  replace (head r + k - head r) with k by lia. rewrite !Z.mod_small by lia. done.
Qed.

Lemma slotOf_run r l k : holds r l → 0 ≤ k → slotOf k r = (r, inr (pos r k)).
Proof.
  intros [Hc _ Hh _ _ _] Hk. unfold slotOf, pos. unfold_meth. rewrite (proj2 (Z.eqb_neq _ _)) by lia.
  by rewrite Z.rem_mod_nonneg by lia.
Qed.

Lemma getSlot_run r l (k : nat) :
  holds r l → Z.of_nat k < cap r → getSlot (pos r (Z.of_nat k)) r = (r, inr (default zeroEvent (l !! k))).
Proof.
  intros [Hc _ _ _ _ Hs] Hk. unfold getSlot. pose proof (pos_range r (Z.of_nat k) Hc).
  rewrite (proj2 (Z.ltb_ge _ _)) by lia. by rewrite Hs.
Qed.

Lemma setSlot_run r l i evt :
  holds r l → setSlot (pos r i) evt r = (r <| buf ::= <[Z.to_nat (pos r i) := evt]> |>, inr tt).
Proof.
  intros [Hc Hb _ _ _ _]. pose proof (pos_range r i Hc). unfold setSlot. unfold_meth.
  rewrite (proj2 (Z.ltb_ge _ _)), (proj2 (Z.leb_gt _ _)) by lia. done.
Qed.

(** Writing position [i] changes that position only. *)
Lemma slots_write r l (i k : nat) evt :
  holds r l → Z.of_nat i < cap r → Z.of_nat k < cap r →
  <[Z.to_nat (pos r (Z.of_nat i)) := evt]> (buf r) !! Z.to_nat (pos r (Z.of_nat k))
  = Some (if decide (k = i) then evt else default zeroEvent (l !! k)).
Proof.
  intros [Hc Hb _ _ _ Hs] Hi Hk. pose proof (pos_range r (Z.of_nat i) Hc). pose proof (pos_range r (Z.of_nat k) Hc).
  case_decide as Heq.
  - subst k. rewrite list_lookup_insert_eq; [done|lia].
  - rewrite list_lookup_insert_ne; [by apply Hs|]. intros Hp. apply Heq.
    enough (Z.of_nat i = Z.of_nat k) by lia. apply (pos_inj r); lia.
Qed.

Lemma holds_new capacity : holds (newDeliveryRing capacity) [].
Proof.
  unfold newDeliveryRing. destruct (Z.leb_spec capacity 0).
  all: split; cbn -[replicate]; try lia; [rewrite length_replicate; lia|].
  all: intros k Hk; apply lookup_replicate_2; unfold pos; cbn -[Z.to_nat Z.modulo]; rewrite Z.mod_small by (cbn in Hk; lia); cbn in Hk; lia.
Qed.

(** A write inside the queue. *)
Lemma holds_set r l (i : nat) evt :
  holds r l → (i < length l)%nat → holds (r <| buf ::= <[Z.to_nat (pos r (Z.of_nat i)) := evt]> |>) (<[i := evt]> l).
Proof.
  intros Hr Hi. pose proof Hr as [Hc Hb Hh Hn Hle Hs].
  split; cbn; [done|by rewrite length_insert|done|by rewrite length_insert|done|].
  intros k Hk. change (pos _ (Z.of_nat k)) with (pos r (Z.of_nat k)). rewrite (slots_write r l) by (done || lia).
  case_decide as Heq; [subst k; by rewrite list_lookup_insert_eq|by rewrite list_lookup_insert_ne].
Qed.

Lemma PushBack_run r l evt :
  holds r l → count r < cap r → ∃ r', PushBack evt r = (r', inr tt) ∧ cap r' = cap r ∧ holds r' (l ++ [evt]).
Proof.
  intros Hr Hlt. pose proof Hr as [Hc Hb Hh Hn Hle Hs]. unfold PushBack.
  rewrite recv_run, (bind_run _ _ _ _ _ (slotOf_run r l (count r) Hr ltac:(lia))).
  rewrite (bind_run _ _ _ _ _ (setSlot_run r l (count r) evt Hr)). eexists. split; [done|]. split; [done|].
  split; cbn; [done|by rewrite length_insert|done|rewrite length_app; cbn; lia|lia|].
  intros k Hk. change (pos _ (Z.of_nat k)) with (pos r (Z.of_nat k)). rewrite Hn.
  rewrite (slots_write r l) by (done || lia). case_decide as Heq.
  - subst k. by rewrite lookup_app_r, Nat.sub_diag.
  - destruct (decide (k < length l)%nat) as [Hk'|Hk']; [by rewrite lookup_app_l|].
    rewrite lookup_app_r by lia. destruct (k - length l)%nat as [|n] eqn:Hd; [lia|]. cbn.
    by rewrite (lookup_ge_None_2 l k) by lia.
Qed.

(** The position after the head, once the head is released. *)
Lemma holds_advance r x l :
  holds r (x :: l) →
  holds (r <| buf ::= <[Z.to_nat (head r) := zeroEvent]> |> <| head := pos r 1 |> <| count := count r - 1 |>) l.
Proof.
  intros Hr. pose proof Hr as [Hc Hb Hh Hn Hle Hs]. cbn in Hn.
  assert (pos r (Z.of_nat 0) = head r) as H0 by (unfold pos; rewrite Z.add_0_r, Z.mod_small; lia).
  split; cbn; [done|by rewrite length_insert|by apply pos_range|lia|lia|].
  intros k Hk.
  replace (<[Z.to_nat (head r) := zeroEvent]> (buf r)) with (<[Z.to_nat (pos r (Z.of_nat 0)) := zeroEvent]> (buf r))
    by (by rewrite H0).
  match goal with |- _ !! Z.to_nat (pos ?r' _) = _ =>
    replace (pos r' (Z.of_nat k)) with ((head r + 1 + Z.of_nat k) mod cap r)
      by (unfold pos; cbn; unfold pos; by rewrite Zplus_mod_idemp_l)
  end.
  destruct (decide (Z.of_nat k = cap r - 1)) as [Hlast|Hlast].
  - replace ((head r + 1 + Z.of_nat k) mod cap r) with (pos r (Z.of_nat 0)).
    + rewrite (slots_write r (x :: l)) by (done || lia). rewrite decide_True by done.
      by rewrite (lookup_ge_None_2 l k) by lia.
    + unfold pos. rewrite Hlast. replace (head r + 1 + (cap r - 1)) with (head r + 1 * cap r) by lia.
      by rewrite Z.mod_add, Z.add_0_r by lia.
  - replace ((head r + 1 + Z.of_nat k) mod cap r) with (pos r (Z.of_nat (S k))) by (unfold pos; f_equal; lia).
    rewrite (slots_write r (x :: l)) by (done || lia). by rewrite decide_False.
Qed.

Lemma head_pos r l : holds r l → head r = pos r (Z.of_nat 0).
Proof. intros [Hc _ Hh _ _ _]. unfold pos. rewrite Z.add_0_r, Z.mod_small; lia. Qed.

Lemma DropFront_run r x l :
  holds r (x :: l) → ∃ r', DropFront r = (r', inr tt) ∧ cap r' = cap r ∧ holds r' l.
Proof.
  intros Hr. pose proof (holds_count _ _ Hr) as Hn. cbn in Hn. unfold DropFront.
  rewrite recv_run, (proj2 (Z.eqb_neq _ _)) by lia.
  pose proof (setSlot_run r _ (Z.of_nat 0) zeroEvent Hr) as Hset. rewrite <- (head_pos r _ Hr) in Hset.
  rewrite (bind_run _ _ _ _ _ Hset). set (r1 := r <| buf ::= _ |>).
  assert (slotOf 1 r1 = (r1, inr (pos r 1))) as Hslot.
  { pose proof (slotOf_run r _ 1 Hr ltac:(lia)) as H1. unfold slotOf in *. revert H1. unfold_meth. cbn.
    destruct (cap r =? 0); [done|]. by intros [= ->]. }
  rewrite (bind_run _ _ _ _ _ Hslot). eexists. split; [done|]. split; [done|]. by apply (holds_advance r x l).
Qed.

Lemma PopFront_run r x l :
  holds r (x :: l) → ∃ r', PopFront r = (r', inr (Some x)) ∧ cap r' = cap r ∧ holds r' l.
Proof.
  intros Hr. pose proof (holds_count _ _ Hr) as Hn. cbn in Hn. pose proof (holds_bound _ _ Hr).
  destruct (DropFront_run r x l Hr) as (r' & Hdrop & Hcap & Hh). exists r'. split; [|done].
  unfold DropFront in Hdrop. unfold PopFront. revert Hdrop.
  rewrite !recv_run, (proj2 (Z.eqb_neq _ _)) by lia.
  pose proof (getSlot_run r _ 0 Hr ltac:(lia)) as Hget. rewrite <- (head_pos r _ Hr) in Hget.
  rewrite (bind_run _ _ _ _ _ Hget). cbn [lookup list_lookup default]. unfold_meth.
  destruct (setSlot (head r) zeroEvent r) as [r1 [p|[]]]; [done|]. destruct (slotOf 1 r1) as [r2 [p|n]]; [done|].
  cbn. by intros [= <-].
Qed.

Lemma PopFront_empty r : holds r [] → PopFront r = (r, inr None) ∧ DropFront r = (r, inr tt).
Proof. intros Hr. pose proof (holds_count _ _ Hr) as Hn. cbn in Hn. unfold PopFront, DropFront. unfold_meth. by rewrite Hn. Qed.

Lemma At_run r l (i : nat) x : holds r l → l !! i = Some x → At (Z.of_nat i) r = (r, inr x).
Proof.
  intros Hr Hx. pose proof (holds_bound _ _ Hr). pose proof (holds_count _ _ Hr). pose proof (lookup_lt_Some _ _ _ Hx).
  unfold At. rewrite (bind_run _ _ _ _ _ (slotOf_run r l (Z.of_nat i) Hr ltac:(lia))), (getSlot_run r l) by (done || lia). by rewrite Hx.
Qed.

(** The shifting loop on the queue itself. *)
Fixpoint shiftList (n j : nat) (l : list DeliveryEvent) : list DeliveryEvent :=
  match n with
  | O => l
  | S n => shiftList n (S j) (<[j := default zeroEvent (l !! S j)]> l)
  end.

Lemma shiftList_lookup n : ∀ j l k, (j + n < length l)%nat →
  shiftList n j l !! k = if decide (j ≤ k < j + n)%nat then l !! S k else l !! k.
Proof.
  induction n as [|n IH]; intros j l k Hlen; cbn.
  { rewrite decide_False by lia. done. }
  rewrite IH by (rewrite length_insert; lia).
  assert (is_Some (l !! S j)) as [y Hy] by (apply lookup_lt_is_Some_2; lia). rewrite Hy. cbn [default].
  destruct (decide (k = j)) as [->|Hne].
  - rewrite decide_False, decide_True by lia. by rewrite list_lookup_insert_eq by lia.
  - destruct (decide (S j ≤ k < S j + n)%nat); [rewrite decide_True by lia|rewrite decide_False by lia].
    all: rewrite list_lookup_insert_ne by lia; done.
Qed.

Lemma length_shiftList n : ∀ j l, length (shiftList n j l) = length l.
Proof. induction n as [|n IH]; intros; cbn; [done|]. by rewrite IH, length_insert. Qed.

Lemma shiftLoop_run n : ∀ r l (j : nat), holds r l → (j + n < length l)%nat →
  ∃ r', shiftLoop n (Z.of_nat j) r = (r', inr tt) ∧ cap r' = cap r ∧ holds r' (shiftList n j l).
Proof.
  induction n as [|n IH]; intros r l j Hr Hj; cbn [shiftLoop shiftList].
  { by exists r. }
  pose proof (holds_bound _ _ Hr). pose proof (holds_count _ _ Hr).
  rewrite (bind_run _ _ _ _ _ (slotOf_run r l (Z.of_nat j + 1) Hr ltac:(lia))).
  rewrite (bind_run _ _ _ _ _ (slotOf_run r l (Z.of_nat j) Hr ltac:(lia))).
  replace (Z.of_nat j + 1) with (Z.of_nat (S j)) by lia.
  rewrite (bind_run _ _ _ _ _ (getSlot_run r l (S j) Hr ltac:(lia))).
  rewrite (bind_run _ _ _ _ _ (setSlot_run r l _ _ Hr)).
  destruct (IH _ _ (S j) (holds_set r l j (default zeroEvent (l !! S j)) Hr ltac:(lia))) as (r' & Hrun & Hcap & Hh).
  { rewrite length_insert. lia. }
  by exists r'.
Qed.

(** Clearing the last position shortens the queue. *)
Lemma holds_pop_back r l x :
  holds r (l ++ [x]) →
  holds (r <| buf ::= <[Z.to_nat (pos r (count r - 1)) := zeroEvent]> |> <| count := count r - 1 |>) l.
Proof.
  intros Hr. pose proof Hr as [Hc Hb Hh Hn Hle Hs]. rewrite length_app in Hn. cbn in Hn.
  split; cbn; [done|by rewrite length_insert|done|lia|lia|].
  intros k Hk. change (pos _ (Z.of_nat k)) with (pos r (Z.of_nat k)). replace (count r - 1) with (Z.of_nat (length l)) by lia.
  rewrite (slots_write r (l ++ [x])) by (done || lia). f_equal. case_decide as Heq.
  - subst k. by rewrite lookup_ge_None_2 by lia.
  - destruct (decide (k < length l)%nat); [by rewrite lookup_app_l|].
    rewrite !lookup_ge_None_2; [done|lia|rewrite length_app; cbn; lia].
Qed.

Lemma shiftList_delete i l :
  (i < length l)%nat → ∃ x, shiftList (length l - 1 - i) i l = delete i l ++ [x].
Proof.
  intros Hi. destruct (last l) as [x|] eqn:Hlast; [|apply last_None in Hlast; subst; cbn in Hi; lia]. exists x.
  rewrite last_lookup in Hlast. pose proof (length_delete l i (lookup_lt_is_Some_2 _ _ Hi)) as Hd.
  apply list_eq. intros k. rewrite shiftList_lookup by lia.
  destruct (decide (k < length l - 1)%nat) as [Hk|Hk].
  - rewrite lookup_app_l by lia. case_decide.
    + by rewrite list_lookup_delete_ge by lia.
    + by rewrite list_lookup_delete_lt by lia.
  - rewrite decide_False, lookup_app_r by lia. destruct (decide (k = length l - 1)%nat) as [->|].
    + rewrite Hd, Nat.sub_diag. by replace (length l - 1)%nat with (pred (length l)) by lia.
    + rewrite !lookup_ge_None_2; [done|cbn; lia|lia].
Qed.

Lemma RemoveAt_run r l (i : nat) :
  holds r l → (i < length l)%nat → ∃ r', RemoveAt (Z.of_nat i) r = (r', inr tt) ∧ cap r' = cap r ∧ holds r' (delete i l).
Proof.
  intros Hr Hi. unfold RemoveAt. destruct i as [|i]; [|].
  { destruct l as [|x l]; [cbn in Hi; lia|]. by apply (DropFront_run r x l). }
  rewrite (proj2 (Z.eqb_neq _ _)) by lia. rewrite recv_run.
  pose proof (holds_count _ _ Hr) as Hn. replace (Z.to_nat (count r - 1 - Z.of_nat (S i))) with (length l - 1 - S i)%nat by lia.
  destruct (shiftLoop_run (length l - 1 - S i) r l (S i) Hr ltac:(lia)) as (r1 & Hrun & Hcap & Hh).
  rewrite (bind_run _ _ _ _ _ Hrun).
  destruct (shiftList_delete (S i) l Hi) as [x Hx]. rewrite Hx in Hh.
  assert (count r1 = count r) as Hc1.
  { rewrite (holds_count _ _ Hh), <- Hx, length_shiftList. lia. }
  rewrite (bind_run _ _ _ _ _ (slotOf_run r1 _ (count r - 1) Hh ltac:(lia))), (bind_run _ _ _ _ _ (setSlot_run r1 _ _ _ Hh)).
  eexists. split; [done|]. split; [done|]. cbn. rewrite <- Hc1. by apply (holds_pop_back r1 _ x).
Qed.

(** ** Refinement

    The operations, and what they do to a queue of at most [c] events. A call
    the code forbids (pushing to a full ring, an index past the end) has no
    meaning in the specification. *)

Inductive ringOp := OpPush (evt : DeliveryEvent) | OpPop | OpDrop | OpAt (i : nat) | OpRemove (i : nat).

Definition ring_step (op : ringOp) : RingM (option DeliveryEvent) :=
  match op with
  | OpPush evt => PushBack evt ;; mret None
  | OpPop => PopFront
  | OpDrop => DropFront ;; mret None
  | OpAt i => evt ← At (Z.of_nat i); mret (Some evt)
  | OpRemove i => RemoveAt (Z.of_nat i) ;; mret None
  end.

Definition queue_step (c : nat) (op : ringOp) (l : list DeliveryEvent) : option (list DeliveryEvent * option DeliveryEvent) :=
  match op with
  | OpPush evt => if decide (length l < c)%nat then Some (l ++ [evt], None) else None
  | OpPop => Some (tail l, list.head l)
  | OpDrop => Some (tail l, None)
  | OpAt i => evt ← l !! i; Some (l, Some evt)
  | OpRemove i => if decide (i < length l)%nat then Some (delete i l, None) else None
  end.

Fixpoint ring_run (ops : list ringOp) : RingM (list (option DeliveryEvent)) :=
  match ops with
  | [] => mret []
  | op :: ops => out ← ring_step op; outs ← ring_run ops; mret (out :: outs)
  end.
Fixpoint queue_run (c : nat) (ops : list ringOp) (l : list DeliveryEvent)
    : option (list DeliveryEvent * list (option DeliveryEvent)) :=
  match ops with
  | [] => Some (l, [])
  | op :: ops => '(l, out) ← queue_step c op l; '(l, outs) ← queue_run c ops l; Some (l, out :: outs)
  end.

(** A method that runs, followed by its result. *)
Lemma then_ret {A} (m : RingM A) (x : option DeliveryEvent) r r' a :
  m r = (r', inr a) → (m ;; mret x) r = (r', inr x).
Proof. intros H. by rewrite (bind_run _ _ _ _ _ H). Qed.

Lemma ring_step_refines c op r l l' out :
  holds r l → cap r = Z.of_nat c → queue_step c op l = Some (l', out) →
  ∃ r', ring_step op r = (r', inr out) ∧ cap r' = Z.of_nat c ∧ holds r' l'.
Proof.
  intros Hr Hc Hstep. pose proof (holds_count _ _ Hr) as Hn. destruct op as [evt| | |i|i]; cbn in *.
  - case_decide; [|done]. injection Hstep as <- <-.
    destruct (PushBack_run r l evt Hr ltac:(lia)) as (r' & Hrun & Hcap & Hh). exists r'.
    rewrite (then_ret _ _ _ _ _ Hrun). split_and!; [done|lia|done].
  - injection Hstep as <- <-. destruct l as [|x l]; cbn.
    + exists r. by rewrite (proj1 (PopFront_empty r Hr)).
    + destruct (PopFront_run r x l Hr) as (r' & -> & Hcap & Hh). exists r'. by rewrite Hcap.
  - injection Hstep as <- <-. destruct l as [|x l]; cbn.
    + exists r. by rewrite (then_ret _ _ _ _ _ (proj2 (PopFront_empty r Hr))).
    + destruct (DropFront_run r x l Hr) as (r' & Hrun & Hcap & Hh). exists r'.
      by rewrite (then_ret _ _ _ _ _ Hrun), Hcap.
  - destruct (l !! i) as [x|] eqn:Hx; [|done]. cbn in Hstep. injection Hstep as <- <-. exists r.
    by rewrite (bind_run _ _ _ _ _ (At_run r l i x Hr Hx)).
  - case_decide; [|done]. injection Hstep as <- <-.
    destruct (RemoveAt_run r l i Hr ltac:(done)) as (r' & Hrun & Hcap & Hh). exists r'.
    by rewrite (then_ret _ _ _ _ _ Hrun), Hcap.
Qed.

(** C33: the delivery ring is a bounded queue. Whatever its capacity and whatever
    sequence of operations respects the queue's contract, the ring never indexes
    outside its buffer, returns what the queue returns, and ends holding the
    queue's events in order, with every free slot cleared. *)
Theorem ring_refines_bounded_queue capacity ops l outs :
  let c := Z.to_nat (if capacity <=? 0 then 256 else capacity) in
  queue_run c ops [] = Some (l, outs) →
  ∃ r, ring_run ops (newDeliveryRing capacity) = (r, inr outs) ∧ holds r l.
Proof.
  intros c. assert (cap (newDeliveryRing capacity) = Z.of_nat c) as Hc.
  { unfold newDeliveryRing, c. cbn. destruct (Z.leb_spec capacity 0); lia. }
  generalize (holds_new capacity). revert Hc. generalize (newDeliveryRing capacity). generalize (@nil DeliveryEvent) as l0.
  revert l outs. induction ops as [|op ops IH]; intros l outs l0 r Hc Hr; cbn [queue_run ring_run].
  { intros [= <- <-]. by exists r. }
  destruct (queue_step c op l0) as [[l1 out]|] eqn:Hq; [|done]. cbn.
  destruct (queue_run c ops l1) as [[l2 outs2]|] eqn:Hqs; [|done]. cbn. intros [= <- <-].
  destruct (ring_step_refines c op r l0 l1 out Hr Hc Hq) as (r1 & Hrun & Hc1 & Hr1).
  rewrite (bind_run _ _ _ _ _ Hrun). destruct (IH _ _ _ _ Hc1 Hr1 Hqs) as (r2 & Hrun2 & Hr2). exists r2.
  by rewrite (bind_run _ _ _ _ _ Hrun2).
Qed.

(** An event with a sequence number, for concrete runs. *)
Definition w_event (seq : Z) : DeliveryEvent := zeroEvent <| ev_Env ::= λ e, e <| Seq := seq |> |>.

Lemma ring_refines_bounded_queue_witness :
  ∃ r, ring_run [OpPush (w_event 1); OpPush (w_event 2); OpPop; OpPush (w_event 3); OpPush (w_event 4); OpRemove 1; OpAt 1]
         (newDeliveryRing 3)
       = (r, inr [None; None; Some (w_event 1); None; None; None; Some (w_event 4)]) ∧
  holds r [w_event 2; w_event 4].
Proof. apply (ring_refines_bounded_queue 3). reflexivity. Defined.
