(* ===== verification/SeqPolicy.v ===== *)
(** * SeqPolicy: internal/actors/delivery/runtime/seq_policy.go, seq_policy_contract.go

    The policy by which the delivery router accepts the events of a stream: a
    view of [DecideMonotonic], with its inputs read from the envelope. *)

From S2P Require Import Prelude GoRuntime Shared Hash Envelope Ownership.

Local Open Scope string_scope.
Local Open Scope list_scope.
Local Open Scope Z_scope.

Definition defaultSeqPolicyStaleGapWindow : Z := 2048.
Definition metaKeyHandoffWatermarkSeq : string := "handoff_watermark_seq".
Definition metaKeySnapshotWatermarkSeq : string := "watermark_seq".

Inductive seqPolicyAction := seqPolicyActionAccept | seqPolicyActionDrop | seqPolicyActionConvertToResync.
#[export] Instance seqPolicyAction_eq_dec : EqDecision seqPolicyAction.
Proof. solve_decision. Defined.

Record seqPolicyInput := MkSeqPolicyInput {
  streamKey : string;
  eventType : string;
  candidateSeq : Z;
  candidateTsIngest : Z;
  lastSeq : Z;
  lastTsIngest : Z;
  candidateProcessorID : string;
  lastProcessorID : string;
  handoffWatermarkSeq : Z;
  pendingResync : Z;
}.

Record seqPolicyDecision := MkSeqPolicyDecision {
  action : seqPolicyAction;
  rejectReason : string;
  violationType : string;
  coherenceReason : string;
  resyncWatermark : Z;
  duplicate : bool;
  outOfOrder : bool;
}.

Section seq_policy.
Context {GR : GoRuntime}.

Definition isSnapshotEventType (eventType : string) : bool :=
  let et := ToLower (TrimSpace eventType) in Contains et "snapshot".

(** [defaultSeqPolicy.Decide] with the default stale window. *)
Definition Decide (x : seqPolicyInput) : seqPolicyDecision :=
  let decision := DecideMonotonic (MkMonotonicInput (streamKey x) (isSnapshotEventType (eventType x)) (candidateSeq x)
    (candidateTsIngest x) (lastSeq x) (lastTsIngest x) (candidateProcessorID x) (lastProcessorID x)
    (handoffWatermarkSeq x) (pendingResync x) defaultSeqPolicyStaleGapWindow) in
  match Action decision with
  | ActionAccept => MkSeqPolicyDecision seqPolicyActionAccept "" "" "" 0 false false
  | ActionConvertToResync =>
      MkSeqPolicyDecision seqPolicyActionConvertToResync (RejectReason decision) "" (CoherenceReason decision)
        (ResyncWatermark decision) (dec_Duplicate decision) (dec_OutOfOrder decision)
  | ActionDrop =>
      MkSeqPolicyDecision seqPolicyActionDrop (RejectReason decision) (ViolationType decision) (CoherenceReason decision)
        0 (dec_Duplicate decision) (dec_OutOfOrder decision)
  end.

Definition parseInt64Meta (meta : gmap string string) (key : string) : Z :=
  if Z.of_nat (size meta) =? 0 then 0 else
  let raw := TrimSpace (default "" (meta !! key)) in
  if str_eqb raw "" then 0 else
  match ParseInt64 raw with
  | None => 0
  | Some v => v
  end.

Definition handoffWatermarkFromMeta (meta : gmap string string) : Z :=
  let w := parseInt64Meta meta metaKeyHandoffWatermarkSeq in
  if 0 <? w then w else parseInt64Meta meta metaKeySnapshotWatermarkSeq.

(** ** seq_policy_contract.go *)

Record SeqPolicyContractDecision := MkContractDecision {
  con_Action : MonotonicAction;
  con_RejectReason : string;
  con_ViolationType : string;
  con_CoherenceReason : string;
  con_ResyncWatermark : Z;
  con_Duplicate : bool;
  con_OutOfOrder : bool;
}.

Definition DecideSeqPolicyContract (x : seqPolicyInput) : SeqPolicyContractDecision :=
  let decision := Decide x in
  MkContractDecision
    match action decision with
    | seqPolicyActionAccept => ActionAccept
    | seqPolicyActionConvertToResync => ActionConvertToResync
    | seqPolicyActionDrop => ActionDrop
    end
    (rejectReason decision) (violationType decision) (coherenceReason decision) (resyncWatermark decision)
    (duplicate decision) (outOfOrder decision).

(** ** What the policy accepts *)

Lemma Decide_accept x :
  action (Decide x) = seqPolicyActionAccept →
  0 < candidateSeq x ∧ (0 < lastSeq x → lastSeq x < candidateSeq x).
Proof.
  unfold Decide. match goal with |- context [DecideMonotonic ?m] => pose proof (accept_is_later m) as H end.
  destruct (Action _); [|done..]. intros _. by destruct (H eq_refl) as (? & ? & _).
Qed.
End seq_policy.
