(* ===== verification/Router.v ===== *)
(** * Router: internal/actors/delivery/runtime/router.go, router_coherence_sampling.go

    The actor that routes events to the sessions subscribed to their subject and
    numbers the deliveries of each stream. Every message is handled to the end
    before the next one, so the actor is a state machine: [Receive] is its step.

    A process identifier is its printed form; the tables never hold a nil one,
    because [register] refuses it. Metrics and spans are left out. What the actor
    does to the outside is its [history], newest first: events handed to the
    envelope store and to sessions, the origin sequence numbers it accepted, the
    delivery numbers it gave out, the stream states it forgot, and its sampled
    warnings. *)

From S2P Require Import Prelude GoRuntime Shared Hash Envelope Ownership SeqPolicy Delivery DeliveryRing.
From Stdlib Require Import Ascii.

Local Open Scope string_scope.
Local Open Scope list_scope.
Local Open Scope Z_scope.

Abbreviation PID := string (only parsing).

Record RouterConfig := MkRouterConfig {
  cfg_Timeframe : string;
  cfg_hasStore : bool;
  cfg_StreamCoherenceMode : string;
  cfg_StreamStateTTL : Z;
  cfg_MaxActiveSessions : Z;
  cfg_MaxStreamStateEntries : Z;
}.

Record streamState := MkStreamState {
  lastOriginSeq : Z;
  lastOriginTsIngest : Z;
  lastProcessorInstanceID : string;
  pendingResyncWatermark : Z;
  lastDeliverySeq : Z;
  lastSeenAt : Z;
}.
#[export] Instance streamState_eta : Eta streamState := λ r,
  MkStreamState (lastOriginSeq r) (lastOriginTsIngest r) (lastProcessorInstanceID r) (pendingResyncWatermark r)
    (lastDeliverySeq r) (lastSeenAt r).
(** [&streamState{}] *)
Definition zeroState : streamState := MkStreamState 0 0 "" 0 0 zeroTime.

Record coherenceSampleKey := MkSampleKey {
  sample_streamKey : string;
  sample_lastSeq : Z;
  sample_candidateSeq : Z;
  sample_reason : string;
  sample_owner : string;
  sample_instance : string;
  sample_origin : string;
}.
#[export] Instance coherenceSampleKey_eq_dec : EqDecision coherenceSampleKey.
Proof. solve_decision. Defined.
#[export] Instance coherenceSampleKey_countable : Countable coherenceSampleKey.
Proof.
  refine (inj_countable' (λ k, (sample_streamKey k, sample_lastSeq k, sample_candidateSeq k, sample_reason k, sample_owner k,
      sample_instance k, sample_origin k))
    (λ '(a, b, c, d, e, f, g), MkSampleKey a b c d e f g) _). by intros [].
Defined.

(** What the actor does to the outside. *)
Inductive routerEvent :=
  | Stored (env : Envelope)
  | Sent (pid : PID) (evt : DeliveryEvent)
  | Accepted (stream : string) (seq : Z)
  | Numbered (stream : string) (seq : Z)
  | Forgot (stream : string)
  | Sampled (key : coherenceSampleKey) (count unique dropped : Z).

Record RouterActor := MkRouter {
  cfg : RouterConfig;
  sessions : gmap string PID;
  sessionByPID : gmap string string;
  sessionSubjects : gmap string (gmap Subject unit);
  subjectSessions : gmap Subject (gmap string PID);
  subjectPIDs : gmap Subject (list PID);
  streamStates : gmap string streamState;
  streamStateTTL : Z;
  maxStreamStateEntries : Z;
  coherenceMode : string;
  coherenceSamples : gmap coherenceSampleKey Z;
  coherenceSampleDrops : Z;
  coherenceSampleWindow : Z;
  selfPID : PID;
  stopped : bool;
  clockReads : nat;
  history : list routerEvent;
}.
#[export] Instance RouterActor_eta : Eta RouterActor := λ r,
  MkRouter (cfg r) (sessions r) (sessionByPID r) (sessionSubjects r) (subjectSessions r) (subjectPIDs r) (streamStates r)
    (streamStateTTL r) (maxStreamStateEntries r) (coherenceMode r) (coherenceSamples r) (coherenceSampleDrops r)
    (coherenceSampleWindow r) (selfPID r) (stopped r) (clockReads r) (history r).

Definition streamCoherenceModeStickySession : string := "sticky_session".
Definition streamCoherenceModeUpstreamSequencer : string := "upstream_sequencer".
Definition defaultRouterStreamStateTTL : Z := 1800000000000.
Definition defaultMaxStreamStateEntries : Z := 50000.
Definition routerInstrumentMarketTypeMetaKey : string := "instrument_market_type".
Definition routerProcessorInstanceIDMetaKey : string := "processor_instance_id".
Definition routerOriginMetaKey : string := "origin".
Definition routerServerInstanceIDMetaKey : string := "server_instance_id".
Definition coherenceSampleTopN : nat := 2.
Definition coherenceSampleMaxUnique : Z := 64.
Definition coherenceSampleFlushEvery : Z := 500.

Definition emit (e : routerEvent) (r : RouterActor) : RouterActor := r <| history ::= cons e |>.
(** [len(m)] *)
Definition mapLen {K V} `{Countable K} (m : gmap K V) : Z := Z.of_nat (size m).

Section router.
Context {GR : GoRuntime} (clk : nat → Z).

(** ** Reading the envelope *)

Definition processorInstanceIDFromMeta (meta : gmap string string) : string :=
  if mapLen meta =? 0 then "" else TrimSpace (default "" (meta !! routerProcessorInstanceIDMetaKey)).
Definition processorInstanceIDForLog (meta : gmap string string) : string :=
  let id := processorInstanceIDFromMeta meta in if str_eqb id "" then "unknown" else id.
Definition instanceIDForLog (meta : gmap string string) : string :=
  if mapLen meta =? 0 then "unknown" else
  let inst := TrimSpace (default "" (meta !! routerServerInstanceIDMetaKey)) in
  if negb (str_eqb inst "") then inst else processorInstanceIDForLog meta.
Definition originFromMeta (meta : gmap string string) : string :=
  if mapLen meta =? 0 then "router" else
  let origin := ToLower (TrimSpace (default "" (meta !! routerOriginMetaKey))) in
  if str_eqb origin "router" || str_eqb origin "session" || str_eqb origin "gateway" then origin else "router".

Definition allowEnvelopeTimeframeOverride (eventType : string) : bool :=
  let et := ToLower (TrimSpace eventType) in
  HasPrefix et "insights." || HasPrefix et "evidence." ||
  bool_decide (et ∈ ["aggregation.candle"; "aggregation.stats"; "aggregation.tape"; "aggregation.oi";
                     "aggregation.delta_volume"; "aggregation.cvd"; "aggregation.bar_stats"]) ||
  str_eqb et "signal.composite" || str_eqb et "signal.event".

Definition routingTimeframeForEnvelope (defaultTimeframe : string) (env : Envelope) : string :=
  let timeframe := TrimSpace defaultTimeframe in
  let timeframe := if str_eqb timeframe "" then DefaultTimeframe else timeframe in
  if negb (allowEnvelopeTimeframeOverride (Type_ env)) then timeframe
  else if mapLen (Meta env) =? 0 then timeframe
  else
    let tf := TrimSpace (default "" (Meta env !! "timeframe")) in
    if negb (str_eqb tf "") then ToLower tf else timeframe.

Definition routingMarketTypeAliasSubject (primary : Subject) (env : Envelope) : option Subject :=
  if mapLen (Meta env) =? 0 then None else
  let marketType := ToUpper (TrimSpace (default "" (Meta env !! routerInstrumentMarketTypeMetaKey))) in
  if str_eqb marketType "" then None else
  let symbol := TrimSpace (Instrument env) in
  if str_eqb symbol "" then None else
  let symbol := if negb (Contains symbol ":") then (symbol ++ ":" ++ marketType)%string else symbol in
  match NewSubject (StreamType primary) (sub_Venue primary) symbol (Timeframe primary) with
  | inl _ => None
  | inr alias => if bool_decide (alias = primary) then None else Some alias
  end.

Definition normalizeStreamCoherenceMode (raw : string) : string :=
  let mode := ToLower (TrimSpace raw) in
  if str_eqb mode "" || str_eqb mode streamCoherenceModeStickySession then streamCoherenceModeStickySession
  else if str_eqb mode streamCoherenceModeUpstreamSequencer then streamCoherenceModeUpstreamSequencer
  else "unknown".

Definition deliveryOwnershipToken (streamID : string) : string :=
  match SplitN "/"%char 4 (TrimSpace streamID) with
  | [p0; p1; p2; p3] => Itoa (ShardKey SubsystemDelivery (MkStreamKey p1 p2 p0 p3))
  | _ => ""
  end.

(** ** Construction and the clock *)

(** The state after [ensureDefaults] on the first message. *)
Definition newRouterActor (c : RouterConfig) (self : PID) : RouterActor :=
  let ttl := if cfg_StreamStateTTL c <=? 0 then defaultRouterStreamStateTTL else cfg_StreamStateTTL c in
  let max := if cfg_MaxStreamStateEntries c <=? 0 then defaultMaxStreamStateEntries else cfg_MaxStreamStateEntries c in
  MkRouter c ∅ ∅ ∅ ∅ ∅ ∅ ttl max (normalizeStreamCoherenceMode (cfg_StreamCoherenceMode c)) ∅ 0 0 self false 0 [].

(** [r.now()] *)
Definition now (r : RouterActor) : RouterActor * Z := (r <| clockReads ::= S |>, clk (clockReads r)).

(** ** Coherence samples *)

(** The order of [flushCoherenceSamples]: larger counts first. *)
Definition sampleLess (a b : coherenceSampleKey * Z) : bool :=
  let ka := fst a in let kb := fst b in
  if negb (snd a =? snd b) then snd b <? snd a
  else if negb (str_eqb (sample_streamKey ka) (sample_streamKey kb)) then
    str_ltb (sample_streamKey ka) (sample_streamKey kb)
  else if negb (str_eqb (sample_reason ka) (sample_reason kb)) then str_ltb (sample_reason ka) (sample_reason kb)
  else if negb (str_eqb (sample_owner ka) (sample_owner kb)) then str_ltb (sample_owner ka) (sample_owner kb)
  else if negb (str_eqb (sample_instance ka) (sample_instance kb)) then
    str_ltb (sample_instance ka) (sample_instance kb)
  else if negb (sample_lastSeq ka =? sample_lastSeq kb) then sample_lastSeq ka <? sample_lastSeq kb
  else sample_candidateSeq ka <? sample_candidateSeq kb.

Definition flushCoherenceSamples (r : RouterActor) : RouterActor :=
  if mapLen (coherenceSamples r) =? 0 then r <| coherenceSampleWindow := 0 |> else
  let entries := sort_slice sampleLess (map_range (coherenceSamples r)) in
  let unique := Z.of_nat (length entries) in
  let r := foldl (λ r e, emit (Sampled (fst e) (snd e) unique (coherenceSampleDrops r)) r) r
             (take coherenceSampleTopN entries) in
  r <| coherenceSamples := ∅ |> <| coherenceSampleDrops := 0 |> <| coherenceSampleWindow := 0 |>.

Definition recordCoherenceSample (sample : coherenceSampleKey) (r : RouterActor) : RouterActor :=
  let r := match coherenceSamples r !! sample with
           | Some n => r <| coherenceSamples ::= <[sample := n + 1]> |>
           | None =>
               if mapLen (coherenceSamples r) <? coherenceSampleMaxUnique
               then r <| coherenceSamples ::= <[sample := 1]> |>
               else r <| coherenceSampleDrops := coherenceSampleDrops r + 1 |>
           end in
  let r := r <| coherenceSampleWindow := coherenceSampleWindow r + 1 |> in
  if coherenceSampleFlushEvery <=? coherenceSampleWindow r then flushCoherenceSamples r else r.

(** ** Stream states *)

(** [delete(r.streamState, id)] *)
Definition forget (id : string) (r : RouterActor) : RouterActor :=
  match streamStates r !! id with
  | None => r
  | Some _ => emit (Forgot id) (r <| streamStates ::= delete id |>)
  end.

Definition sweepStreamState (r : RouterActor) : RouterActor :=
  if mapLen (streamStates r) =? 0 then r else
  let '(r, t) := now r in
  foldl (λ r e,
    let state := snd e in
    if (lastSeenAt state =? zeroTime) || (streamStateTTL r <? time_sub t (lastSeenAt state)) then forget (fst e) r else r)
    r (map_range (streamStates r)).

(** The scan for the entry seen longest ago. *)
Definition oldestEntry (entries : list (string * streamState)) : string * Z :=
  foldl (λ best e,
    if str_eqb (fst best) "" || (lastSeenAt (snd e) <? snd best) then (fst e, lastSeenAt (snd e)) else best)
    ("", zeroTime) entries.

Definition evictOldestStreamState (r : RouterActor) : RouterActor :=
  let oldestID := fst (oldestEntry (map_range (streamStates r))) in
  if negb (str_eqb oldestID "") then forget oldestID r else r.

(** The state of a stream for [acceptStreamSeq], created when there is none. *)
Definition getOrCreateState (streamID : string) (r : RouterActor) : RouterActor * streamState :=
  match streamStates r !! streamID with
  | Some state => (r, state)
  | None =>
      let r := if maxStreamStateEntries r <=? mapLen (streamStates r) then
                 let r := sweepStreamState r in
                 if maxStreamStateEntries r <=? mapLen (streamStates r) then evictOldestStreamState r else r
               else r in
      (r <| streamStates ::= <[streamID := zeroState]> |>, zeroState)
  end.
Definition putState (streamID : string) (state : streamState) (r : RouterActor) : RouterActor :=
  r <| streamStates ::= <[streamID := state]> |>.

(** The decision on an event of a stream, and the state it leaves. *)
Definition acceptedState (state : streamState) (seq tsIngest : Z) (owner : string) : streamState :=
  let state := state <| lastOriginSeq := seq |> in
  let state := if 0 <? tsIngest then state <| lastOriginTsIngest := tsIngest |> else state in
  let state := if negb (str_eqb owner "") then state <| lastProcessorInstanceID := owner |> else state in
  if (0 <? pendingResyncWatermark state) && (pendingResyncWatermark state <? seq)
  then state <| pendingResyncWatermark := 0 |> else state.

Definition acceptStreamSeq (streamID : string) (env : Envelope) (r : RouterActor) : RouterActor * (bool * string) :=
  let streamID := TrimSpace streamID in
  if str_eqb streamID "" then (r, (false, "seq_invalid")) else
  let seq := Seq env in
  if seq <=? 0 then (r, (false, "seq_invalid")) else
  let '(r, t) := now r in
  let '(r, state) := getOrCreateState streamID r in
  let state := state <| lastSeenAt := t |> in
  let candidateOwner := processorInstanceIDFromMeta (Meta env) in
  let candidateOwner := if str_eqb candidateOwner "" then deliveryOwnershipToken streamID else candidateOwner in
  let decision := Decide (MkSeqPolicyInput streamID (Type_ env) seq (TsIngest env) (lastOriginSeq state)
    (lastOriginTsIngest state) candidateOwner (lastProcessorInstanceID state) (handoffWatermarkFromMeta (Meta env))
    (pendingResyncWatermark state)) in
  if bool_decide (action decision = seqPolicyActionAccept) then
    (emit (Accepted streamID seq) (putState streamID (acceptedState state seq (TsIngest env) candidateOwner) r), (true, ""))
  else
    let state := if bool_decide (action decision = seqPolicyActionConvertToResync) &&
                    (pendingResyncWatermark state <? resyncWatermark decision)
                 then state <| pendingResyncWatermark := resyncWatermark decision |> else state in
    let sampleReason := if str_eqb (coherenceReason decision) "" then "unknown" else coherenceReason decision in
    let r := recordCoherenceSample (MkSampleKey streamID (lastOriginSeq state) seq sampleReason candidateOwner
               (instanceIDForLog (Meta env)) (originFromMeta (Meta env))) (putState streamID state r) in
    let reason := TrimSpace (rejectReason decision) in
    (r, (false, if str_eqb reason "" then "seq_non_monotonic" else reason)).

Definition nextDeliverySeq (streamID : string) (r : RouterActor) : RouterActor * Z :=
  let streamID := TrimSpace streamID in
  if str_eqb streamID "" then (r, 0) else
  let '(r, t) := now r in
  let state := default zeroState (streamStates r !! streamID) in
  let next := add64 (lastDeliverySeq state) 1 in
  let next := if next <=? 0 then 1 else next in
  (emit (Numbered streamID next) (putState streamID (state <| lastDeliverySeq := next |> <| lastSeenAt := t |>) r), next).

(** ** Sessions and subscriptions *)

Definition rebuildSubjectPIDs (subject : Subject) (r : RouterActor) : RouterActor :=
  match subjectSessions r !! subject with
  | None => r <| subjectPIDs ::= delete subject |>
  | Some inner =>
      if mapLen inner =? 0 then r <| subjectPIDs ::= delete subject |>
      else r <| subjectPIDs ::= <[subject := (map_range inner).*2]> |>
  end.

(** The two halves of [removeSessionFromSubject]. *)
Definition dropFromSession (sessionID : string) (subject : Subject) (r : RouterActor) : RouterActor :=
  match sessionSubjects r !! sessionID with
  | None => r
  | Some subs =>
      let subs := delete subject subs in
      if mapLen subs =? 0 then r <| sessionSubjects ::= delete sessionID |>
      else r <| sessionSubjects ::= <[sessionID := subs]> |>
  end.
Definition dropFromSubject (sessionID : string) (subject : Subject) (r : RouterActor) : RouterActor :=
  match subjectSessions r !! subject with
  | None => r
  | Some pids =>
      let pids := delete sessionID pids in
      if mapLen pids =? 0 then
        forget (SubjectString subject) (r <| subjectSessions ::= delete subject |> <| subjectPIDs ::= delete subject |>)
      else rebuildSubjectPIDs subject (r <| subjectSessions ::= <[subject := pids]> |>)
  end.
Definition removeSessionFromSubject (sessionID : string) (subject : Subject) (r : RouterActor) : RouterActor :=
  dropFromSubject sessionID subject (dropFromSession sessionID subject r).

Definition register (id : string) (pid : option PID) (r : RouterActor) : RouterActor :=
  match pid with
  | None => r
  | Some pid =>
      if str_eqb id "" then r else
      let previous := sessions r !! id in
      if bool_decide (previous = None) && (0 <? cfg_MaxActiveSessions (cfg r)) &&
         (cfg_MaxActiveSessions (cfg r) <=? mapLen (sessions r)) then r else
      let r := match previous with
               | Some previousPID => r <| sessionByPID ::= delete previousPID |>
               | None => r
               end in
      let r := r <| sessions ::= <[id := pid]> |> <| sessionByPID ::= <[pid := id]> |> in
      match sessionSubjects r !! id with
      | Some _ => r
      | None => r <| sessionSubjects ::= <[id := ∅]> |>
      end
  end.

(** The loop deletes from the map it ranges over, which visits every entry. *)
Definition unregister (sessionID : string) (r : RouterActor) : RouterActor :=
  let r := match sessionSubjects r !! sessionID with
           | Some subs => foldl (λ r e, removeSessionFromSubject sessionID (fst e) r) r (map_range subs)
           | None => r
           end in
  let r := r <| sessionSubjects ::= delete sessionID |> in
  let r := match sessions r !! sessionID with
           | Some pid => r <| sessionByPID ::= delete pid |>
           | None => r
           end in
  r <| sessions ::= delete sessionID |>.

Definition subscribe (sessionID : string) (subject : Subject) (r : RouterActor) : RouterActor :=
  match sessions r !! sessionID with
  | None => r
  | Some pid =>
      let subs := default ∅ (sessionSubjects r !! sessionID) in
      if bool_decide (is_Some (subs !! subject)) then r else
      let r := r <| sessionSubjects ::= <[sessionID := <[subject := tt]> subs]> |> in
      let inner := default ∅ (subjectSessions r !! subject) in
      rebuildSubjectPIDs subject (r <| subjectSessions ::= <[subject := <[sessionID := pid]> inner]> |>)
  end.

Definition unsubscribe (sessionID : string) (subject : Subject) (r : RouterActor) : RouterActor :=
  removeSessionFromSubject sessionID subject r.

(** ** Routing *)

(** The wildcard subject of a signal. *)
Definition wildcardSubject (subject : Subject) : option Subject :=
  if IsSignal subject then
    match NewSignalSubject "*" (sub_Venue subject) (Symbol subject) (Timeframe subject) with
    | inr wild => if bool_decide (wild = subject) then None else Some wild
    | inl _ => None
    end
  else None.

Definition targetsOf (subject : Subject) (r : RouterActor) : list PID := default [] (subjectPIDs r !! subject).
(** [m[wild]] for a subject that may not have been computed. *)
Definition targetsOfOpt (subject : option Subject) (r : RouterActor) : list PID :=
  match subject with Some s => targetsOf s r | None => [] end.

(** [if len(targets) > 0 { if ok, _ := acceptStreamSeq(...); !ok { return } }] *)
Definition acceptFor (targets : list PID) (subject : option Subject) (env : Envelope) (r : RouterActor)
    : RouterActor * bool :=
  match targets, subject with
  | _ :: _, Some s => let '(r, ok) := acceptStreamSeq (SubjectString s) env r in (r, fst ok)
  | _, _ => (r, true)
  end.

(** The loop over the primary targets. *)
Definition sendPrimary (subject : Subject) (env : Envelope) (targets : list PID) (r : RouterActor) : RouterActor :=
  foldl (λ r pid, emit (Sent pid (MkDeliveryEvent subject env)) r) r targets.

(** A loop over secondary targets: [sent] is the set of processes already
    served ([None] when there is a single target), and the delivery number is
    taken at the first send. *)
Record fanout := MkFanout { fo_router : RouterActor; fo_sent : option (gset PID); fo_seq : option Z }.

Definition sendOne (subject : Subject) (env : Envelope) (f : fanout) (pid : PID) : fanout :=
  let already := match fo_sent f with Some sent => bool_decide (pid ∈ sent) | None => false end in
  if already then f else
  let sent := (λ sent : gset PID, {[pid]} ∪ sent) <$> fo_sent f in
  let '(r, seq) := match fo_seq f with
                   | Some seq => (fo_router f, seq)
                   | None => nextDeliverySeq (SubjectString subject) (fo_router f)
                   end in
  MkFanout (emit (Sent pid (MkDeliveryEvent subject (env <| Seq := seq |>))) r) sent (Some seq).

Definition sendSecondary (subject : option Subject) (env : Envelope) (targets : list PID)
    (f : RouterActor * option (gset PID)) : RouterActor * option (gset PID) :=
  match subject with
  | None => f
  | Some s =>
      let f' := foldl (sendOne s env) (MkFanout (fst f) (snd f) None) targets in
      (fo_router f', fo_sent f')
  end.

Definition handleEnvelope (env : Envelope) (r : RouterActor) : RouterActor :=
  if stopped r then r else
  match ValidateEnvelopeForDelivery env with
  | Some _ => r
  | None =>
      let r := if cfg_hasStore (cfg r) then emit (Stored env) r else r in
      let timeframe := routingTimeframeForEnvelope (cfg_Timeframe (cfg r)) env in
      match Delivery.SubjectFromEnvelope env timeframe with
      | inl _ => r
      | inr subject =>
          let aliasSubject := routingMarketTypeAliasSubject subject env in
          let wildSubject := wildcardSubject subject in
          let targets := targetsOf subject r in
          let aliasTargets := targetsOfOpt aliasSubject r in
          let wildcardTargets := targetsOfOpt wildSubject r in
          let total := (length targets + length aliasTargets + length wildcardTargets)%nat in
          if (total =? 0)%nat then r else
          let '(r, ok) := acceptFor targets (Some subject) env r in
          if negb ok then r else
          let '(r, ok) := acceptFor aliasTargets aliasSubject env r in
          if negb ok then r else
          let '(r, ok) := acceptFor wildcardTargets wildSubject env r in
          if negb ok then r else
          let '(r, seq) := nextDeliverySeq (SubjectString subject) r in
          let r := sendPrimary subject (env <| Seq := seq |>) targets r in
          let sent := if (1 <? total)%nat then Some (list_to_set targets : gset PID) else None in
          let f := sendSecondary aliasSubject env aliasTargets (r, sent) in
          fst (sendSecondary wildSubject env wildcardTargets f)
      end
  end.

(** ** Messages *)

Inductive routerMsg :=
  | Started
  | Stopped
  | ActorStoppedEvent (pid : option PID)
  | RegisterSession (id : string) (pid : option PID)
  | UnregisterSession (id : string)
  | SubscribeSession (id : string) (subject : Subject)
  | UnsubscribeSession (id : string) (subject : Subject)
  | DeliverEnvelope (env : Envelope)
  | SweepStreamState.

Definition onActorStopped (pid : option PID) (r : RouterActor) : RouterActor :=
  match pid with
  | None => r
  | Some pid =>
      if str_eqb pid (selfPID r) then r else
      match sessionByPID r !! pid with
      | None => r
      | Some sessionID => unregister sessionID r
      end
  end.

Definition onStopped (r : RouterActor) : RouterActor := flushCoherenceSamples (r <| stopped := true |>).

Definition Receive (msg : routerMsg) (r : RouterActor) : RouterActor :=
  match msg with
  | Started => sweepStreamState r
  | Stopped => onStopped r
  | ActorStoppedEvent pid => onActorStopped pid r
  | RegisterSession id pid => register id pid r
  | UnregisterSession id => unregister id r
  | SubscribeSession id subject => subscribe id subject r
  | UnsubscribeSession id subject => unsubscribe id subject r
  | DeliverEnvelope env => handleEnvelope env r
  | SweepStreamState => sweepStreamState r
  end.

Definition receiveAll (msgs : list routerMsg) (r : RouterActor) : RouterActor := foldl (λ r m, Receive m r) r msgs.
End router.
