(* ===== verification/RouterSpec.v ===== *)
(** * RouterSpec: what the delivery router guarantees

    - its five tables implement one relation, who is subscribed to what under
      which process ([router_implements_subscriptions]);
    - every subscriber gets an accepted event once ([subscribers_get_event_once]);
    - the numbers of a stream only go up while its state is kept
      ([stream_numbers_increase]);
    - and where the routing falls short ([refused_primary_silences_alias],
      [reregistered_session_keeps_old_process], [stream_states_exceed_bound]). *)

From S2P Require Import Prelude GoRuntime Shared Hash Envelope Ownership SeqPolicy Delivery DeliveryRing Router.

Local Open Scope string_scope.
Local Open Scope list_scope.
Local Open Scope Z_scope.

Section router_spec.
Context {GR : GoRuntime} (clk : nat → Z).

(** ** The subscription relation *)

(** Who is registered, the session of a process, and the process that a session
    had when it subscribed to a subject. *)
Record registry := MkRegistry {
  reg_sessions : gmap string PID;
  reg_byPID : gmap string string;
  reg_subs : gmap (string * Subject) PID;
}.
#[local] Instance registry_eta : Eta registry := λ a, MkRegistry (reg_sessions a) (reg_byPID a) (reg_subs a).

Definition spec_register (max : Z) (id : string) (pid : option PID) (a : registry) : registry :=
  match pid with
  | None => a
  | Some pid =>
      if str_eqb id "" then a
      else if bool_decide (reg_sessions a !! id = None) && (0 <? max) && (max <=? mapLen (reg_sessions a)) then a
      else
        let byPID := match reg_sessions a !! id with Some p => delete p (reg_byPID a) | None => reg_byPID a end in
        a <| reg_sessions ::= <[id := pid]> |> <| reg_byPID := <[pid := id]> byPID |>
  end.
Definition spec_unregister (id : string) (a : registry) : registry :=
  MkRegistry (delete id (reg_sessions a))
    match reg_sessions a !! id with Some p => delete p (reg_byPID a) | None => reg_byPID a end
    (filter (λ kv, kv.1.1 ≠ id) (reg_subs a)).
Definition spec_subscribe (id : string) (subject : Subject) (a : registry) : registry :=
  match reg_sessions a !! id, reg_subs a !! (id, subject) with
  | Some pid, None => a <| reg_subs ::= <[(id, subject) := pid]> |>
  | _, _ => a
  end.
Definition spec_unsubscribe (id : string) (subject : Subject) (a : registry) : registry :=
  a <| reg_subs ::= delete (id, subject) |>.

Definition spec_receive (max : Z) (self : PID) (msg : routerMsg) (a : registry) : registry :=
  match msg with
  | ActorStoppedEvent (Some pid) =>
      if str_eqb pid self then a else match reg_byPID a !! pid with Some id => spec_unregister id a | None => a end
  | RegisterSession id pid => spec_register max id pid a
  | UnregisterSession id => spec_unregister id a
  | SubscribeSession id subject => spec_subscribe id subject a
  | UnsubscribeSession id subject => spec_unsubscribe id subject a
  | _ => a
  end.

(** The processes subscribed to a subject. *)
Definition subscribers (subject : Subject) (a : registry) : list PID :=
  (filter (λ kv, kv.1.2 = subject) (map_to_list (reg_subs a))).*2.

(** The tables of the router implement the relation. *)
Record implements (r : RouterActor) (a : registry) : Prop := {
  im_sessions : sessions r = reg_sessions a;
  im_byPID : sessionByPID r = reg_byPID a;
  im_bySession : ∀ id subject,
    default ∅ (sessionSubjects r !! id) !! subject = (λ _, tt) <$> reg_subs a !! (id, subject);
  im_bySubject : ∀ id subject, default ∅ (subjectSessions r !! subject) !! id = reg_subs a !! (id, subject);
  im_pids : ∀ subject,
    match subjectSessions r !! subject with
    | None => subjectPIDs r !! subject = None
    | Some inner => inner ≠ ∅ ∧ subjectPIDs r !! subject = Some (map_range inner).*2
    end;
}.

(** Only these fields matter. *)
Definition tables (r : RouterActor) :=
  (sessions r, sessionByPID r, sessionSubjects r, subjectSessions r, subjectPIDs r).

Lemma implements_ext r r' a : implements r a → tables r' = tables r → implements r' a.
Proof. intros [] [= E1 E2 E3 E4 E5]. split; rewrite ?E1, ?E2, ?E3, ?E4, ?E5; done. Qed.

(** ** What leaves the tables alone *)

Lemma foldl_keeps {A B C} (f : A → C) (step : A → B → A) l : ∀ a, (∀ a b, f (step a b) = f a) → f (foldl step a l) = f a.
Proof. induction l as [|b l IH]; intros a H; cbn; [done|]. by rewrite IH, H. Qed.

Definition isSent (e : routerEvent) : bool := match e with Sent _ _ => true | _ => false end.

(** A projection that does not look at the stream states, the samples, the clock,
    and of the history only at what is sent. *)
Section ignores.
Context {X : Type} (view : RouterActor → X).
Context (f_states : ∀ r g, view (r <| streamStates ::= g |>) = view r).
Context (f_samples : ∀ r g, view (r <| coherenceSamples ::= g |>) = view r).
Context (f_drops : ∀ r g, view (r <| coherenceSampleDrops ::= g |>) = view r).
Context (f_window : ∀ r g, view (r <| coherenceSampleWindow ::= g |>) = view r).
Context (f_reads : ∀ r g, view (r <| clockReads ::= g |>) = view r).
Context (f_emit : ∀ r e, isSent e = false → view (emit e r) = view r).

Ltac solve_ignores := unfold putState; rewrite ?f_emit, ?f_states, ?f_samples, ?f_drops, ?f_window, ?f_reads by done; done.

Lemma ignores_forget id r : view (forget id r) = view r.
Proof. unfold forget. destruct (streamStates r !! id); solve_ignores. Qed.

Lemma ignores_sweep r : view (sweepStreamState clk r) = view r.
Proof.
  unfold sweepStreamState. destruct (_ =? 0); [done|]. cbn [now]. rewrite foldl_keeps; [solve_ignores|].
  intros r' e. destruct (_ || _); [apply ignores_forget|done].
Qed.

Lemma ignores_flush r : view (flushCoherenceSamples r) = view r.
Proof.
  unfold flushCoherenceSamples. destruct (_ =? 0); [solve_ignores|]. rewrite f_window, f_drops, f_samples.
  rewrite foldl_keeps; [done|]. intros. solve_ignores.
Qed.

Lemma ignores_sample s r : view (recordCoherenceSample s r) = view r.
Proof.
  unfold recordCoherenceSample. repeat case_match; rewrite ?ignores_flush; solve_ignores.
Qed.

Lemma ignores_getOrCreate id r : view (getOrCreateState clk id r).1 = view r.
Proof.
  unfold getOrCreateState. destruct (streamStates r !! id); [done|]. cbn [fst].
  rewrite f_states.
  destruct (_ <=? _); [|done]. unfold evictOldestStreamState.
  destruct (_ <=? _); [|apply ignores_sweep]. destruct (negb _); rewrite ?ignores_forget; apply ignores_sweep.
Qed.

Lemma ignores_accept id env r : view (acceptStreamSeq clk id env r).1 = view r.
Proof.
  unfold acceptStreamSeq. destruct (str_eqb _ _); [done|]. destruct (_ <=? _); [done|]. cbn [now].
  pose proof (ignores_getOrCreate (TrimSpace id) (r <| clockReads ::= S |>)) as Hg.
  destruct (getOrCreateState _ _ _) as [r1 st]. cbn [fst] in Hg.
  rewrite f_reads in Hg.
  case_bool_decide; cbn [fst]; [unfold putState; by rewrite f_emit, f_states by done|].
  rewrite ignores_sample. unfold putState. by rewrite f_states.
Qed.

Lemma ignores_number id r : view (nextDeliverySeq clk id r).1 = view r.
Proof. unfold nextDeliverySeq. destruct (str_eqb _ _); [done|]. cbn [now fst]. solve_ignores. Qed.

Lemma ignores_acceptFor ts s env r : view (acceptFor clk ts s env r).1 = view r.
Proof.
  unfold acceptFor. destruct ts, s as [s|]; try done. pose proof (ignores_accept (SubjectString s) env r).
  by destruct (acceptStreamSeq _ _ _ _).
Qed.

Context (f_sent : ∀ r pid evt, view (emit (Sent pid evt) r) = view r).

Lemma ignores_sendOne s env fo pid : view (fo_router (sendOne clk s env fo pid)) = view (fo_router fo).
Proof.
  unfold sendOne. destruct fo as [r sent seq]. cbn [fo_router fo_sent fo_seq]. destruct (match sent with Some l => bool_decide (pid ∈ l) | None => false end); [done|].
  destruct seq as [n|]; cbn [fo_router]; [(rewrite ?f_sent; done)|]. pose proof (ignores_number (SubjectString s) r) as Hn.
  destruct (nextDeliverySeq _ _ _). cbn [fo_router fst] in *. rewrite <- Hn. (rewrite ?f_sent; done).
Qed.

Lemma ignores_sendSecondary s env ts fo : view (sendSecondary clk s env ts fo).1 = view fo.1.
Proof.
  unfold sendSecondary. destruct s as [s|]; [|done]. cbn [fst].
  rewrite (foldl_keeps (λ fo, view (fo_router fo))); [done|]. intros. apply ignores_sendOne.
Qed.

Lemma ignores_sendPrimary s env ts r : view (sendPrimary s env ts r) = view r.
Proof. unfold sendPrimary. rewrite foldl_keeps; [done|]. intros. (rewrite ?f_sent; done). Qed.

Lemma ignores_handleEnvelope env r : view (handleEnvelope clk env r) = view r.
Proof.
  unfold handleEnvelope. destruct (stopped r); [done|]. destruct (ValidateEnvelopeForDelivery env); [done|].
  set (r0 := if cfg_hasStore (cfg r) then _ else r). assert (view r0 = view r) as H0 by (subst r0; case_match; [by rewrite f_emit|done]).
  clearbody r0. destruct (Delivery.SubjectFromEnvelope _ _) as [|s]; [done|]. destruct (_ =? 0)%nat; [done|].
  repeat match goal with |- context [acceptFor clk ?ts ?s ?e ?r'] =>
    pose proof (ignores_acceptFor ts s e r'); destruct (acceptFor clk ts s e r') as [? ok]; cbn [fst] in *;
    destruct ok; cbn [negb]; [|congruence]
  end.
  match goal with |- context [nextDeliverySeq clk ?i ?r'] =>
    pose proof (ignores_number i r'); destruct (nextDeliverySeq clk i r') as [? ?]; cbn [fst] in *
  end.
  rewrite !ignores_sendSecondary. cbn [fst]. rewrite ignores_sendPrimary. congruence.
Qed.

End ignores.

(** ** The tables implement the relation *)

Lemma targets_subscribers r a subject : implements r a → targetsOf subject r ≡ₚ subscribers subject a.
Proof.
  intros [_ _ _ Hsub Hpids]. set (inner := default ∅ (subjectSessions r !! subject)).
  assert (targetsOf subject r ≡ₚ (map_to_list inner).*2) as ->.
  { unfold targetsOf, inner. specialize (Hpids subject). destruct (subjectSessions r !! subject) as [m|].
    - destruct Hpids as [_ ->]. cbn. by rewrite map_range_perm.
    - rewrite Hpids. cbn. by rewrite map_to_list_empty. }
  unfold subscribers. set (own := filter (λ kv, kv.1.2 = subject) (map_to_list (reg_subs a))).
  assert (map_to_list inner ≡ₚ (λ kv, (kv.1.1, kv.2)) <$> own) as ->.
  2:{ by rewrite <- list_fmap_compose. }
  apply NoDup_Permutation.
  - apply NoDup_map_to_list.
  - apply NoDup_fmap_2_strong; [|apply NoDup_filter, NoDup_map_to_list].
    intros [[i1 s1] p1] [[i2 s2] p2] H1 H2. unfold own in H1, H2. rewrite list_elem_of_filter in H1, H2. cbn in *. naive_solver.
  - intros [id pid]. rewrite elem_of_map_to_list. unfold inner. rewrite (Hsub id subject), list_elem_of_fmap. unfold own. split.
    + intros Hin. exists ((id, subject), pid). by rewrite list_elem_of_filter, elem_of_map_to_list.
    + intros ([[i s] p] & [= -> ->] & Hin). rewrite list_elem_of_filter, elem_of_map_to_list in Hin. cbn in Hin. naive_solver.
Qed.

Lemma implements_new c self : implements (newRouterActor c self) (MkRegistry ∅ ∅ ∅).
Proof. split; intros; cbn; by rewrite ?lookup_empty. Qed.

Lemma mapLen_zero {K V} `{Countable K} (m : gmap K V) : (mapLen m =? 0) = bool_decide (m = ∅).
Proof.
  unfold mapLen. apply eq_true_iff_eq. rewrite Z.eqb_eq, bool_decide_eq_true. rewrite <- map_size_empty_iff. lia.
Qed.

(** A subject's two tables after its inner map becomes [inner]. *)
Lemma rebuild_lookup subject r :
  subjectPIDs (rebuildSubjectPIDs subject r) =
    match subjectSessions r !! subject with
    | Some inner => if bool_decide (inner = ∅) then delete subject (subjectPIDs r)
                    else <[subject := (map_range inner).*2]> (subjectPIDs r)
    | None => delete subject (subjectPIDs r)
    end
  ∧ (sessions (rebuildSubjectPIDs subject r), sessionByPID (rebuildSubjectPIDs subject r),
     sessionSubjects (rebuildSubjectPIDs subject r), subjectSessions (rebuildSubjectPIDs subject r))
    = (sessions r, sessionByPID r, sessionSubjects r, subjectSessions r).
Proof.
  unfold rebuildSubjectPIDs. destruct (subjectSessions r !! subject) as [m|]; [|done].
  rewrite mapLen_zero. case_bool_decide; cbn; [split; [|done]|split; [|done]]; by case_bool_decide.
Qed.

Lemma implements_subscribe id subject r a :
  implements r a → implements (subscribe id subject r) (spec_subscribe id subject a).
Proof.
  intros Him. pose proof Him as [Hs Hp Hses Hsub Hpids]. unfold subscribe, spec_subscribe. rewrite Hs.
  destruct (reg_sessions a !! id) as [pid|]; [|done]. rewrite Hses.
  destruct (reg_subs a !! (id, subject)) as [p|] eqn:Ha; cbn [fmap option_fmap option_map].
  { by rewrite bool_decide_eq_true_2 by done. }
  rewrite bool_decide_eq_false_2 by (by intros [? [=]]).
  match goal with |- implements (rebuildSubjectPIDs _ ?r1) _ => set (r' := r1) end.
  destruct (rebuild_lookup subject r') as [Hpid [= E1 E2 E3 E4]].
  assert (subjectSessions r' = <[subject := <[id := pid]> (default ∅ (subjectSessions r !! subject))]> (subjectSessions r))
    as Hss by done.
  split; rewrite ?E1, ?E2, ?E3, ?E4; cbn; [done..| | |].
  - intros id' subject'. destruct (decide (id' = id)) as [->|Hne].
    + rewrite lookup_insert_eq. cbn. destruct (decide (subject' = subject)) as [->|Hs'].
      * by rewrite !lookup_insert_eq.
      * rewrite !lookup_insert_ne by congruence. apply Hses.
    + rewrite !lookup_insert_ne by congruence. apply Hses.
  - intros id' subject'. destruct (decide (subject' = subject)) as [->|Hne].
    + rewrite lookup_insert_eq. cbn. destruct (decide (id' = id)) as [->|Hs'].
      * by rewrite !lookup_insert_eq.
      * rewrite !lookup_insert_ne by congruence. apply Hsub.
    + rewrite !lookup_insert_ne by congruence. apply Hsub.
  - intros subject'. rewrite Hpid, Hss. rewrite lookup_insert_eq.
    rewrite bool_decide_eq_false_2 by apply insert_non_empty.
    destruct (decide (subject' = subject)) as [->|Hne].
    + rewrite !lookup_insert_eq. split; [apply insert_non_empty|done].
    + rewrite !lookup_insert_ne by done. apply Hpids.
Qed.

(** The two halves of a removal. *)
Lemma dropFromSession_spec id subject r :
  let r' := dropFromSession id subject r in
  (sessions r', sessionByPID r', subjectSessions r', subjectPIDs r')
    = (sessions r, sessionByPID r, subjectSessions r, subjectPIDs r) ∧
  ∀ id' subject', default ∅ (sessionSubjects r' !! id') !! subject'
    = if decide ((id', subject') = (id, subject)) then None else default ∅ (sessionSubjects r !! id') !! subject'.
Proof.
  unfold dropFromSession. destruct (sessionSubjects r !! id) as [subs|] eqn:Hsubs; cbn zeta.
  2:{ split; [done|]. intros id' s'. case_decide as Heq; [|done]. injection Heq as -> ->. by rewrite Hsubs. }
  rewrite mapLen_zero. case_bool_decide as Hemp; (split; [done|]); intros id' s'; cbn.
  - destruct (decide (id' = id)) as [->|Hne].
    + rewrite lookup_delete_eq, Hsubs. cbn. case_decide as Heq; [done|].
      rewrite <- (lookup_delete_ne subs subject s') by congruence. by rewrite Hemp.
    + rewrite lookup_delete_ne by done. by rewrite decide_False by congruence.
  - destruct (decide (id' = id)) as [->|Hne].
    + rewrite lookup_insert_eq, Hsubs. cbn. case_decide as Heq.
      * injection Heq as ->. by rewrite lookup_delete_eq.
      * by rewrite lookup_delete_ne by congruence.
    + rewrite lookup_insert_ne by done. by rewrite decide_False by congruence.
Qed.

Definition pidsOk (r : RouterActor) : Prop := ∀ subject,
  match subjectSessions r !! subject with
  | None => subjectPIDs r !! subject = None
  | Some inner => inner ≠ ∅ ∧ subjectPIDs r !! subject = Some (map_range inner).*2
  end.

Lemma dropFromSubject_spec id subject r :
  pidsOk r →
  let r' := dropFromSubject id subject r in
  (sessions r', sessionByPID r', sessionSubjects r') = (sessions r, sessionByPID r, sessionSubjects r) ∧
  (∀ id' subject', default ∅ (subjectSessions r' !! subject') !! id'
    = if decide ((id', subject') = (id, subject)) then None else default ∅ (subjectSessions r !! subject') !! id') ∧
  pidsOk r'.
Proof.
  intros Hok. unfold dropFromSubject. destruct (subjectSessions r !! subject) as [pids|] eqn:Hp; cbn zeta.
  2:{ split; [done|]. split; [|done]. intros id' s'. case_decide as Heq; [|done]. injection Heq as -> ->. by rewrite Hp. }
  rewrite mapLen_zero. case_bool_decide as Hemp.
  - match goal with |- context [forget _ ?x] => pose proof (ignores_forget tables ltac:(done) ltac:(done) (SubjectString subject) x) as [= -> -> -> E1 E2] end.
    split; [done|]. split; [|unfold pidsOk]; rewrite E1, ?E2; cbn.
    + intros id' s'. destruct (decide (s' = subject)) as [->|Hne].
      * rewrite lookup_delete_eq, Hp. cbn. case_decide as Heq; [done|].
        rewrite <- (lookup_delete_ne pids id id') by congruence. by rewrite Hemp.
      * rewrite lookup_delete_ne by done. by rewrite decide_False by congruence.
    + intros s'. destruct (decide (s' = subject)) as [->|Hne].
      * by rewrite !lookup_delete_eq.
      * rewrite !lookup_delete_ne by done. apply Hok.
  - match goal with |- context [rebuildSubjectPIDs _ ?x] => destruct (rebuild_lookup subject x) as [Hpid [= E1 E2 E3 E4]] end.
    cbn in Hpid. rewrite lookup_insert_eq, bool_decide_eq_false_2 in Hpid by done.
    rewrite E1, E2, E3. split; [done|]. split; [|unfold pidsOk]; rewrite E4, ?Hpid; cbn.
    + intros id' s'. destruct (decide (s' = subject)) as [->|Hne].
      * rewrite lookup_insert_eq, Hp. cbn. case_decide as Heq.
        -- injection Heq as ->. by rewrite lookup_delete_eq.
        -- by rewrite lookup_delete_ne by congruence.
      * rewrite lookup_insert_ne by done. by rewrite decide_False by congruence.
    + intros s'. destruct (decide (s' = subject)) as [->|Hne].
      * by rewrite !lookup_insert_eq.
      * rewrite !lookup_insert_ne by done. apply Hok.
Qed.

Lemma implements_unsubscribe id subject r a :
  implements r a → implements (unsubscribe id subject r) (spec_unsubscribe id subject a).
Proof.
  intros [Hs Hp Hses Hsub Hpids]. unfold unsubscribe, removeSessionFromSubject, spec_unsubscribe.
  destruct (dropFromSession_spec id subject r) as [[= E1 E2 E3 E4] H1].
  destruct (dropFromSubject_spec id subject (dropFromSession id subject r)) as ([= F1 F2 F3] & H2 & Hok).
  { unfold pidsOk. rewrite E3, E4. done. }
  assert (∀ x, reg_subs (a <| reg_subs ::= delete (id, subject) |>) !! x
    = if decide (x = (id, subject)) then None else reg_subs a !! x) as Ha.
  { intros x. cbn. case_decide as Hx; [subst; apply lookup_delete_eq|by rewrite lookup_delete_ne]. }
  split; [by rewrite F1, E1|by rewrite F2, E2| | |exact Hok].
  - intros id' s'. rewrite F3, H1, Ha. case_decide; [done|]. apply Hses.
  - intros id' s'. rewrite H2, Ha, E3. case_decide; [done|]. apply Hsub.
Qed.

(** Removing a list of subscriptions of one session. *)
Lemma implements_unsubscribeAll id l : ∀ r a,
  implements r a →
  implements (foldl (λ r e, removeSessionFromSubject id (fst e) r) r l)
    (foldl (λ a (e : Subject * unit), spec_unsubscribe id (fst e) a) a l).
Proof.
  induction l as [|[s u] l IH]; intros r a Him; cbn; [done|]. by apply IH, implements_unsubscribe.
Qed.

Lemma unsubscribeAll_lookup id (l : list (Subject * unit)) : ∀ a,
  let a' := foldl (λ a e, spec_unsubscribe id (fst e) a) a l in
  reg_sessions a' = reg_sessions a ∧ reg_byPID a' = reg_byPID a ∧
  ∀ x, reg_subs a' !! x = if decide (x.1 = id ∧ x.2 ∈ l.*1) then None else reg_subs a !! x.
Proof.
  induction l as [|[s u] l IH]; intros a; cbn.
  { split_and!; [done..|]. intros x. rewrite decide_False; [done|]. intros [_ H]. by apply elem_of_nil in H. }
  destruct (IH (spec_unsubscribe id s a)) as (H1 & H2 & H3). split_and!; [done..|].
  intros x. rewrite H3. cbn. destruct (decide (x.1 = id ∧ x.2 ∈ l.*1)) as [[? ?]|Hn].
  - rewrite decide_True; [done|]. split; [done|]. by right.
  - destruct (decide (x = (id, s))) as [->|Hx].
    + rewrite lookup_delete_eq, decide_True; [done|]. split; [done|]. by left.
    + rewrite lookup_delete_ne by done. rewrite decide_False; [done|].
      intros [Hid Hin]. apply list_elem_of_In in Hin. destruct x as [i s']. cbn in *. subst i.
      destruct Hin as [->|Hin]; [done|]. apply Hn. split; [done|]. by apply list_elem_of_In.
Qed.

Lemma implements_unregister id r a : implements r a → implements (unregister id r) (spec_unregister id a).
Proof.
  intros Him. unfold unregister.
  set (l := match sessionSubjects r !! id with Some subs => map_range subs | None => [] end).
  set (r1 := match sessionSubjects r !! id with Some subs => _ | None => r end).
  assert (r1 = foldl (λ r e, removeSessionFromSubject id (fst e) r) r l) as Hr1.
  { subst r1 l. by destruct (sessionSubjects r !! id). }
  pose proof (implements_unsubscribeAll id l r a Him) as Him1. rewrite <- Hr1 in Him1. clearbody r1.
  destruct (unsubscribeAll_lookup id l a) as (Ha1 & Ha2 & Ha3). set (a1 := foldl _ a l) in *. clearbody a1.
  assert (∀ x, reg_subs (spec_unregister id a) !! x = reg_subs a1 !! x ∧ (x.1 = id → reg_subs a1 !! x = None)) as Hsubs.
  { intros [i s]. rewrite Ha3. cbn -[filter]. destruct (decide (i = id)) as [->|Hne].
    - assert (s ∉ l.*1 → reg_subs a !! (id, s) = None) as Habs.
      { intros Hnin. pose proof (im_bySession _ _ Him id s) as Hlk.
        destruct (reg_subs a !! (id, s)) as [p|]; [|done]. exfalso. apply Hnin. subst l.
        destruct (sessionSubjects r !! id) as [subs|]; simpl in Hlk; [|by rewrite lookup_empty in Hlk].
        apply list_elem_of_fmap. exists (s, tt). split; [done|]. by rewrite map_range_perm, elem_of_map_to_list. }
      destruct (decide (s ∈ l.*1)) as [Hin|Hin].
      + rewrite decide_True by done. split; [|done]. apply map_lookup_filter_None_2. right. intros x _. cbn. naive_solver.
      + rewrite decide_False by naive_solver. rewrite (Habs Hin). split; [|done].
        apply map_lookup_filter_None_2. left. by apply Habs.
    - rewrite decide_False by naive_solver. split; [|naive_solver].
      destruct (reg_subs a !! (i, s)) as [p|] eqn:Hp.
      + by apply map_lookup_filter_Some_2.
      + apply map_lookup_filter_None_2. by left. }
  destruct Him1 as [Hs Hp Hses Hsub Hpids].
  set (r2 := r1 <| sessionSubjects ::= delete id |>).
  set (r3 := match sessions r2 !! id with Some pid => _ | None => r2 end).
  assert ((sessions r3, sessionSubjects r3, subjectSessions r3, subjectPIDs r3)
    = (sessions r1, delete id (sessionSubjects r1), subjectSessions r1, subjectPIDs r1)) as [= E1 E2 E3 E4].
  { subst r3. by destruct (sessions r2 !! id). }
  assert (sessionByPID r3 = match reg_sessions a !! id with Some p => delete p (reg_byPID a) | None => reg_byPID a end) as E5.
  { subst r3. cbn. rewrite Hs, Ha1. destruct (reg_sessions a !! id); cbn; by rewrite Hp, Ha2. }
  clearbody r3. split; cbn -[filter].
  - by rewrite E1, Hs, Ha1.
  - by rewrite E5.
  - intros i s. change (filter (λ kv : string * Subject * string, kv.1.1 ≠ id) (reg_subs a)) with (reg_subs (spec_unregister id a)).
    destruct (Hsubs (i, s)) as [-> Hnone]. rewrite E2. destruct (decide (i = id)) as [->|Hne].
    + by rewrite lookup_delete_eq, (Hnone eq_refl).
    + rewrite lookup_delete_ne by done. apply Hses.
  - intros i s. change (filter (λ kv : string * Subject * string, kv.1.1 ≠ id) (reg_subs a)) with (reg_subs (spec_unregister id a)).
    destruct (Hsubs (i, s)) as [-> _]. rewrite E3. apply Hsub.
  - intros s. rewrite E3, E4. apply Hpids.
Qed.

Lemma implements_register id pid r a :
  implements r a → implements (register id pid r) (spec_register (cfg_MaxActiveSessions (cfg r)) id pid a).
Proof.
  intros Him. pose proof Him as [Hs Hp Hses Hsub Hpids]. unfold register, spec_register.
  destruct pid as [pid|]; [|done]. destruct (str_eqb id ""); [done|]. rewrite Hs. destruct (_ && _); [done|].
  set (r1 := match reg_sessions a !! id with Some p => _ | None => r end).
  assert (tables r1 = (sessions r, match reg_sessions a !! id with Some p => delete p (reg_byPID a) | None => reg_byPID a end,
     sessionSubjects r, subjectSessions r, subjectPIDs r)) as [= E1 E2 E3 E4 E5].
  { subst r1. destruct (reg_sessions a !! id); unfold tables; cbn; by rewrite Hp. }
  clearbody r1. set (r2 := r1 <| sessions ::= _ |> <| sessionByPID ::= _ |>).
  assert (implements (r2 <| sessionSubjects := sessionSubjects r |>)
    (a <| reg_sessions ::= <[id := pid]> |>
       <| reg_byPID := <[pid := id]> match reg_sessions a !! id with Some p => delete p (reg_byPID a) | None => reg_byPID a end |>)) as H2.
  { split; cbn; rewrite ?E1, ?E2, ?E4, ?E5, ?Hs; try done. }
  cbn in H2 |- *. rewrite E3. destruct (sessionSubjects r !! id) as [subs|] eqn:Hsubs.
  - eapply implements_ext; [exact H2|]. unfold tables. cbn. by rewrite E3.
  - destruct H2 as [G1 G2 G3 G4 G5]. split; cbn in *; try done.
    intros i s. rewrite E3. destruct (decide (i = id)) as [->|Hne]; [|rewrite lookup_insert_ne by done; apply Hses].
    rewrite lookup_insert_eq. rewrite <- Hses, Hsubs. done.
Qed.

(** The settings of the router. *)
Definition settings (r : RouterActor) := (cfg r, selfPID r).

Lemma settings_remove id subject r : settings (removeSessionFromSubject id subject r) = settings r.
Proof.
  unfold removeSessionFromSubject, dropFromSubject, dropFromSession, rebuildSubjectPIDs.
  repeat (case_match; rewrite ?(ignores_forget settings) by done); done.
Qed.

Lemma settings_unregister id r : settings (unregister id r) = settings r.
Proof.
  unfold unregister. set (r1 := match sessionSubjects r !! id with Some subs => _ | None => r end).
  assert (settings r1 = settings r) as <-; [|by case_match].
  subst r1. destruct (sessionSubjects r !! id); [|done]. rewrite foldl_keeps; [done|]. intros. apply settings_remove.
Qed.

Lemma settings_receive msg r : settings (Receive clk msg r) = settings r.
Proof.
  destruct msg as [| |pid|id pid|id|id s|id s|env|]; cbn [Receive].
  - by apply ignores_sweep.
  - unfold onStopped. by rewrite ignores_flush.
  - unfold onActorStopped. repeat case_match; [done|apply settings_unregister|done..].
  - unfold register. by repeat case_match.
  - apply settings_unregister.
  - unfold subscribe, rebuildSubjectPIDs. by repeat case_match.
  - apply settings_remove.
  - by apply ignores_handleEnvelope.
  - by apply ignores_sweep.
Qed.

Lemma implements_receive msg r a :
  implements r a → implements (Receive clk msg r) (spec_receive (cfg_MaxActiveSessions (cfg r)) (selfPID r) msg a).
Proof.
  intros Him. destruct msg as [| |pid|id pid|id|id s|id s|env|]; cbn [Receive spec_receive].
  - eapply implements_ext; [done|by apply ignores_sweep].
  - eapply implements_ext; [done|]. unfold onStopped. by rewrite ignores_flush.
  - unfold onActorStopped. destruct pid as [pid|]; [|done]. destruct (str_eqb _ _); [done|].
    rewrite (im_byPID _ _ Him). destruct (reg_byPID a !! pid); [|done]. by apply implements_unregister.
  - by apply implements_register.
  - by apply implements_unregister.
  - by apply implements_subscribe.
  - by apply implements_unsubscribe.
  - eapply implements_ext; [done|by apply ignores_handleEnvelope].
  - eapply implements_ext; [done|by apply ignores_sweep].
Qed.

(** The relation after a list of messages. *)
Definition registryAfter (c : RouterConfig) (self : PID) (msgs : list routerMsg) : registry :=
  foldl (λ a m, spec_receive (cfg_MaxActiveSessions c) self m a) (MkRegistry ∅ ∅ ∅) msgs.

Lemma implements_after c self msgs :
  implements (receiveAll clk msgs (newRouterActor c self)) (registryAfter c self msgs).
Proof.
  enough (implements (receiveAll clk msgs (newRouterActor c self)) (registryAfter c self msgs) ∧
    settings (receiveAll clk msgs (newRouterActor c self)) = (c, self)) by tauto.
  unfold receiveAll, registryAfter. induction msgs as [|m msgs [IH Hset]] using rev_ind; [by split; [apply implements_new|]|].
  rewrite !foldl_app. cbn. split; [|by rewrite settings_receive].
  pose proof (implements_receive m _ _ IH) as H. unfold settings in Hset. injection Hset as Hc Hs. by rewrite Hc, Hs in H.
Qed.

Lemma spec_receive_bound max self m a :
  0 < max → mapLen (reg_sessions a) ≤ max → mapLen (reg_sessions (spec_receive max self m a)) ≤ max.
Proof.
  intros Hmax Hle. assert (∀ id, mapLen (delete id (reg_sessions a)) ≤ max) as Hdel.
  { intros id. unfold mapLen in *. rewrite map_size_delete. destruct (reg_sessions a !! id); cbn; lia. }
  destruct m as [| |[pid|]|id [pid|]|id|id s|id s|env|]; cbn; try done.
  - destruct (str_eqb _ _); [done|]. destruct (reg_byPID a !! pid); [apply Hdel|done].
  - destruct (str_eqb id ""); [done|]. rewrite (proj2 (Z.ltb_lt _ _) Hmax).
    destruct (_ && _) eqn:Hfull; [done|]. cbn. unfold mapLen in *. rewrite map_size_insert.
    destruct (reg_sessions a !! id) eqn:Hid; [done|]. rewrite bool_decide_eq_true_2 in Hfull by done. cbn in Hfull |- *.
    apply Z.leb_gt in Hfull. lia.
  - unfold spec_subscribe. by repeat case_match.
Qed.

(** C9: the router's tables implement the subscription relation. After any
    messages, the registered sessions are those the relation has, at most
    [MaxActiveSessions] of them when that is set, and the processes the router
    sends an event of a subject to are exactly the processes subscribed to it,
    as often: the five maps and the cached slices never disagree. *)
Theorem router_implements_subscriptions c self msgs subject :
  let r := receiveAll clk msgs (newRouterActor c self) in
  let a := registryAfter c self msgs in
  sessions r = reg_sessions a ∧ targetsOf subject r ≡ₚ subscribers subject a ∧
  if 0 <? cfg_MaxActiveSessions c then mapLen (sessions r) ≤ cfg_MaxActiveSessions c else True.
Proof.
  cbn zeta. pose proof (implements_after c self msgs) as Him. split_and!.
  - apply Him.
  - by apply targets_subscribers.
  - destruct (Z.ltb_spec 0 (cfg_MaxActiveSessions c)) as [Hmax|]; [|done]. rewrite (im_sessions _ _ Him). unfold registryAfter.
    induction msgs as [|m msgs IH] using rev_ind; [cbn; unfold mapLen; rewrite map_size_empty; lia|].
    rewrite foldl_app. cbn. apply spec_receive_bound; [done|]. apply IH, implements_after.
Qed.

(** ** Fan-out *)

(** What was sent, newest first. *)
Definition deliveries (r : RouterActor) : list (PID * DeliveryEvent) :=
  omap (λ e, match e with Sent p v => Some (p, v) | _ => None end) (history r).

Lemma deliveries_emit r e : isSent e = false → deliveries (emit e r) = deliveries r.
Proof. by destruct e. Qed.

(** The subjects an event of subject [s] is sent under, in the order of sending. *)
Definition subjectsOf (env : Envelope) (s : Subject) : list Subject :=
  s :: option_list (routingMarketTypeAliasSubject s env) ++ option_list (wildcardSubject s).

(** The subject of an event, unless the router ignores it. *)
Definition routed (env : Envelope) (r : RouterActor) : option Subject :=
  if stopped r then None else
  match ValidateEnvelopeForDelivery env with
  | Some _ => None
  | None => ok_of (Delivery.SubjectFromEnvelope env (routingTimeframeForEnvelope (cfg_Timeframe (cfg r)) env))
  end.

(** The stored event, and the tests of all streams concerned. *)
Definition afterStore (env : Envelope) (r : RouterActor) : RouterActor :=
  if cfg_hasStore (cfg r) then emit (Stored env) r else r.
Definition acceptAll (env : Envelope) (s : Subject) (r : RouterActor) : RouterActor * bool :=
  let '(r1, ok1) := acceptFor clk (targetsOf s r) (Some s) env r in
  if negb ok1 then (r1, false) else
  let '(r2, ok2) := acceptFor clk (targetsOfOpt (routingMarketTypeAliasSubject s env) r) (routingMarketTypeAliasSubject s env) env r1 in
  if negb ok2 then (r2, false) else
  acceptFor clk (targetsOfOpt (wildcardSubject s) r) (wildcardSubject s) env r2.

Definition targetCount (env : Envelope) (s : Subject) (r : RouterActor) : nat :=
  length (targetsOf s r) + length (targetsOfOpt (routingMarketTypeAliasSubject s env) r)
  + length (targetsOfOpt (wildcardSubject s) r).

Definition sendAll (env : Envelope) (s : Subject) (r0 r : RouterActor) : RouterActor :=
  let '(r, seq) := nextDeliverySeq clk (SubjectString s) r in
  let r := sendPrimary s (env <| Seq := seq |>) (targetsOf s r0) r in
  let sent := if (1 <? targetCount env s r0)%nat then Some (list_to_set (targetsOf s r0) : gset PID) else None in
  let f := sendSecondary clk (routingMarketTypeAliasSubject s env) env
    (targetsOfOpt (routingMarketTypeAliasSubject s env) r0) (r, sent) in
  fst (sendSecondary clk (wildcardSubject s) env (targetsOfOpt (wildcardSubject s) r0) f).

(** Handling an event, step by step. *)
Lemma handleEnvelope_steps env r :
  handleEnvelope clk env r =
  match routed env r with
  | None => if stopped r || bool_decide (is_Some (ValidateEnvelopeForDelivery env)) then r else afterStore env r
  | Some s =>
      let r0 := afterStore env r in
      if (targetCount env s r0 =? 0)%nat then r0 else
      let '(r1, ok) := acceptAll env s r0 in
      if ok then sendAll env s r0 r1 else r1
  end.
Proof.
  unfold handleEnvelope, routed. destruct (stopped r); [done|]. cbn [orb].
  destruct (ValidateEnvelopeForDelivery env) as [p|].
  { by rewrite bool_decide_eq_true_2 by (by eexists). }
  fold (afterStore env r). assert (cfg (afterStore env r) = cfg r) as -> by (unfold afterStore; by case_match).
  destruct (Delivery.SubjectFromEnvelope _ _) as [p|s]; cbn [ok_of].
  { by rewrite bool_decide_eq_false_2 by (by intros [? [=]]). }
  set (r0 := afterStore env r). clearbody r0. fold (targetCount env s r0). cbn zeta. destruct (_ =? 0)%nat; [done|].
  unfold acceptAll, sendAll. destruct (acceptFor clk (targetsOf s r0) (Some s) env r0) as [r1 []]; [|done]. cbn [negb].
  destruct (acceptFor clk (targetsOfOpt (routingMarketTypeAliasSubject s env) r0) _ env r1) as [r2 []]; [|done]. cbn [negb].
  by destruct (acceptFor clk (targetsOfOpt (wildcardSubject s) r0) _ env r2) as [r3 []].
Qed.

(** [r'] sent [new] beyond what [r] had sent, each to a process of [ts], with
    the event of [env] under the subject [s]. *)
Definition sentTo (s : Subject) (env : Envelope) (new : list (PID * DeliveryEvent)) (r r' : RouterActor) : Prop :=
  deliveries r' = new ++ deliveries r ∧ ∀ p v, (p, v) ∈ new → ∃ n, v = MkDeliveryEvent s (env <| Seq := n |>).

Lemma sentTo_nothing s env r r' : deliveries r' = deliveries r → sentTo s env [] r r'.
Proof. intros Hd. split; [by rewrite Hd|]. by intros p v H%elem_of_nil. Qed.

Lemma sentTo_one s env n p r r' :
  deliveries r' = deliveries r →
  sentTo s env [(p, MkDeliveryEvent s (env <| Seq := n |>))] r (emit (Sent p (MkDeliveryEvent s (env <| Seq := n |>))) r').
Proof.
  intros H. split; [cbn; by rewrite <- H|]. intros q v Hin. apply list_elem_of_singleton in Hin. injection Hin as -> ->. by exists n.
Qed.

Lemma sentTo_trans s env new1 new2 r1 r2 r3 :
  sentTo s env new1 r1 r2 → sentTo s env new2 r2 r3 → sentTo s env (new2 ++ new1) r1 r3.
Proof.
  intros [H1 V1] [H2 V2]. split; [by rewrite H2, H1, app_assoc|]. intros p v [Hin|Hin]%elem_of_app; eauto.
Qed.

Lemma deliveries_number id r : deliveries (nextDeliverySeq clk id r).1 = deliveries r.
Proof. apply ignores_number; intros; by rewrite ?deliveries_emit. Qed.
Lemma deliveries_acceptFor ts s env r : deliveries (acceptFor clk ts s env r).1 = deliveries r.
Proof. apply ignores_acceptFor; intros; by rewrite ?deliveries_emit. Qed.

Lemma sendPrimary_sends s env n ts : ∀ r, ∃ new,
  sentTo s env new r (sendPrimary s (env <| Seq := n |>) ts r) ∧ new.*1 = reverse ts.
Proof.
  induction ts as [|p ts IH]; intros r; [exists []; split; [by apply sentTo_nothing|done]|].
  destruct (IH (emit (Sent p (MkDeliveryEvent s (env <| Seq := n |>))) r)) as (new & Hnew & Hp).
  eexists. split; [eapply sentTo_trans; [by apply sentTo_one|exact Hnew]|].
  by rewrite fmap_app, Hp, reverse_cons.
Qed.

Lemma sendOne_sends s env f p :
  ∃ new, sentTo s env new (fo_router f) (fo_router (sendOne clk s env f p)) ∧
  match fo_sent f with
  | Some G => new.*1 = (if decide (p ∈ G) then [] else [p]) ∧ fo_sent (sendOne clk s env f p) = Some ({[p]} ∪ G)
  | None => new.*1 = [p] ∧ fo_sent (sendOne clk s env f p) = None
  end.
Proof.
  unfold sendOne. destruct f as [r sent seq]. cbn [fo_router fo_sent fo_seq].
  assert (∀ sent', let f' := let '(r', n) := match seq with Some n => (r, n) | None => nextDeliverySeq clk (SubjectString s) r end in
    MkFanout (emit (Sent p (MkDeliveryEvent s (env <| Seq := n |>))) r') sent' (Some n) in
    (∃ new, sentTo s env new r (fo_router f') ∧ new.*1 = [p]) ∧ fo_sent f' = sent') as Hsend.
  { intros sent'. destruct seq as [n|]; cbn zeta.
    - split; [|done]. eexists. split; [by apply sentTo_one|done].
    - pose proof (deliveries_number (SubjectString s) r) as Hn. destruct (nextDeliverySeq _ _ _) as [r' n]. cbn [fst] in Hn.
      split; [|done]. eexists. split; [by apply sentTo_one|done]. }
  destruct sent as [G|].
  - case_bool_decide as Hin.
    + exists []. rewrite decide_True by done. split; [by apply sentTo_nothing|]. split; [done|]. cbn. f_equal. set_solver.
    + rewrite decide_False by done. destruct (Hsend (Some ({[p]} ∪ G))) as [(new & Hnew & Hp) Hs]. by exists new.
  - destruct (Hsend None) as [(new & Hnew & Hp) Hs]. by exists new.
Qed.

(** A secondary loop serves, once, the targets not served before. *)
Lemma sendLoop_sends s env ts : ∀ f G, NoDup ts → fo_sent f = Some G →
  let f' := foldl (sendOne clk s env) f ts in
  ∃ new, sentTo s env new (fo_router f) (fo_router f') ∧ new.*1 ≡ₚ filter (.∉ G) ts ∧ fo_sent f' = Some (list_to_set ts ∪ G).
Proof.
  induction ts as [|p ts IH]; intros f G Hnd HS; cbn [foldl].
  { exists []. split_and!; [by apply sentTo_nothing|done|]. rewrite HS. f_equal. set_solver. }
  apply NoDup_cons in Hnd as [Hp Hnd]. destruct (sendOne_sends s env f p) as (n1 & Hs1 & Hm). rewrite HS in Hm.
  destruct Hm as [Hn1 HS1]. destruct (IH (sendOne clk s env f p) ({[p]} ∪ G) Hnd HS1) as (n2 & Hs2 & Hn2 & HS2).
  exists (n2 ++ n1). split_and!; [by eapply sentTo_trans| |rewrite HS2; f_equal; cbn; set_solver].
  rewrite fmap_app, Hn1, Hn2, Permutation_app_comm, filter_cons.
  assert (filter (.∉ {[p]} ∪ G) ts = filter (.∉ G) ts) as ->.
  { apply filter_ext_in. intros q Hq. assert (q ≠ p) by (by intros ->). set_solver. }
  destruct (decide (p ∈ G)); [rewrite decide_False by tauto|rewrite decide_True by done]; done.
Qed.

(** A secondary loop, for a subject that may be absent. *)
Lemma sendSecondary_sends os env ts r sent :
  NoDup ts → (os = None → ts = []) → (sent = None → (length ts ≤ 1)%nat) →
  let f' := sendSecondary clk os env ts (r, sent) in
  ∃ new, deliveries f'.1 = new ++ deliveries r ∧
    (∀ p v, (p, v) ∈ new → ∃ s n, os = Some s ∧ v = MkDeliveryEvent s (env <| Seq := n |>)) ∧
    match sent with
    | Some G => new.*1 ≡ₚ filter (.∉ G) ts ∧ f'.2 = Some (list_to_set ts ∪ G)
    | None => new.*1 = ts ∧ f'.2 = None
    end.
Proof.
  intros Hnd Hnone Hlen. destruct os as [s|]; cbn [sendSecondary].
  2:{ rewrite (Hnone eq_refl). exists []. split_and!; [done|by intros p v H%elem_of_nil|].
      destruct sent as [G|]; [|done]. split; [done|]. cbn. f_equal. set_solver. }
  destruct sent as [G|]; cbn [fst snd].
  - destruct (sendLoop_sends s env ts (MkFanout r (Some G) None) G Hnd eq_refl) as (new & [Hd Hv] & Hp & HG). exists new.
    split_and!; [done| |done|done]. intros p v Hin. destruct (Hv p v Hin) as [n ->]. by exists s, n.
  - specialize (Hlen eq_refl). destruct ts as [|p [|q ts]]; [| |cbn in Hlen; lia]; cbn [foldl].
    { exists []. split_and!; [done|by intros p v H%elem_of_nil|done|done]. }
    destruct (sendOne_sends s env (MkFanout r None None) p) as (new & [Hd Hv] & Hp & HG). exists new.
    split_and!; [done| |done|done]. intros q v Hin. destruct (Hv q v Hin) as [n ->]. by exists s, n.
Qed.

Lemma NoDup_once (T A W pA pW : list PID) :
  NoDup T → NoDup A → NoDup W →
  pA ≡ₚ filter (.∉ (list_to_set T : gset PID)) A →
  pW ≡ₚ filter (.∉ (list_to_set A ∪ list_to_set T : gset PID)) W →
  NoDup (pW ++ pA ++ reverse T) ∧ ∀ p, p ∈ pW ++ pA ++ reverse T ↔ p ∈ T ∨ p ∈ A ∨ p ∈ W.
Proof.
  intros HT HA HW EA EW. assert (∀ p, p ∈ pA ↔ (p ∉ T) ∧ p ∈ A) as MA.
  { intros p. rewrite EA, list_elem_of_filter, elem_of_list_to_set. done. }
  assert (∀ p, p ∈ pW ↔ (p ∉ A) ∧ (p ∉ T) ∧ p ∈ W) as MW.
  { intros p. rewrite EW, list_elem_of_filter, elem_of_union, !elem_of_list_to_set. tauto. }
  split.
  - rewrite !NoDup_app. setoid_rewrite elem_of_app. setoid_rewrite MA. setoid_rewrite MW. setoid_rewrite elem_of_reverse.
    split_and!; [rewrite EW; by apply NoDup_filter|tauto|rewrite EA; by apply NoDup_filter|tauto|by rewrite reverse_Permutation].
  - intros p. rewrite !elem_of_app, MA, MW, elem_of_reverse. destruct (decide (p ∈ T)), (decide (p ∈ A)); tauto.
Qed.

Lemma targetsOfOpt_none os r : os = None → targetsOfOpt os r = [].
Proof. by intros ->. Qed.

Lemma sendAll_sends env s r0 r1 :
  (∀ s', NoDup (targetsOf s' r0)) → targetCount env s r0 ≠ 0%nat →
  ∃ new, deliveries (sendAll env s r0 r1) = new ++ deliveries r1 ∧ NoDup new.*1 ∧
    (∀ p, p ∈ new.*1 ↔ ∃ s', s' ∈ subjectsOf env s ∧ p ∈ targetsOf s' r0) ∧
    ∀ p v, (p, v) ∈ new → ev_Subject v ∈ subjectsOf env s ∧ ∃ n, ev_Env v = env <| Seq := n |>.
Proof.
  intros Hnd Hcount. unfold sendAll. pose proof (deliveries_number (SubjectString s) r1) as Hnum.
  destruct (nextDeliverySeq _ _ _) as [r2 n]. cbn [fst] in Hnum.
  destruct (sendPrimary_sends s env n (targetsOf s r0) r2) as (nT & [HdT HvT] & HpT). set (r3 := sendPrimary _ _ _ r2) in *.
  remember (routingMarketTypeAliasSubject s env) as aS eqn:HaS. remember (wildcardSubject s) as wS eqn:HwS.
  assert (∀ p, (∃ s', s' ∈ subjectsOf env s ∧ p ∈ targetsOf s' r0) ↔
    p ∈ targetsOf s r0 ∨ p ∈ targetsOfOpt aS r0 ∨ p ∈ targetsOfOpt wS r0) as Hmem.
  { intros p. unfold subjectsOf. rewrite <- HaS, <- HwS. destruct aS as [a|], wS as [w|]; cbn; set_solver. }
  assert (∀ os, NoDup (targetsOfOpt os r0)) as HndO by (intros [x|]; [apply Hnd|apply NoDup_nil_2]).
  set (sent := if (1 <? targetCount env s r0)%nat then _ else _).
  assert (sent = None → (length (targetsOf s r0) + length (targetsOfOpt aS r0) + length (targetsOfOpt wS r0) = 1)%nat) as Hone.
  { subst sent. unfold targetCount in *. rewrite <- HaS, <- HwS in *. destruct (Nat.ltb_spec 1 (length (targetsOf s r0) +
      length (targetsOfOpt aS r0) + length (targetsOfOpt wS r0))); [done|]. lia. }
  assert (∀ G, sent = Some G → G = list_to_set (targetsOf s r0)) as HG by (subst sent; intros G; case_match; congruence).
  clearbody sent.
  destruct (sendSecondary_sends aS env (targetsOfOpt aS r0) r3 sent (HndO aS) (targetsOfOpt_none aS r0)) as (nA & HdA & HvA & HpA).
  { intros ->. specialize (Hone eq_refl). lia. }
  destruct (sendSecondary clk aS env _ (r3, sent)) as [r4 sent4]. cbn [fst snd] in HdA, HpA.
  destruct (sendSecondary_sends wS env (targetsOfOpt wS r0) r4 sent4 (HndO wS) (targetsOfOpt_none wS r0)) as (nW & HdW & HvW & HpW).
  { destruct sent; [destruct HpA as [_ ->]; done|]. intros _. specialize (Hone eq_refl). lia. }
  exists (nW ++ nA ++ nT). split; [by rewrite HdW, HdA, HdT, Hnum, !app_assoc|]. rewrite !fmap_app, HpT. setoid_rewrite Hmem.
  assert (NoDup (nW.*1 ++ nA.*1 ++ reverse (targetsOf s r0)) ∧ ∀ p, p ∈ nW.*1 ++ nA.*1 ++ reverse (targetsOf s r0) ↔
    p ∈ targetsOf s r0 ∨ p ∈ targetsOfOpt aS r0 ∨ p ∈ targetsOfOpt wS r0) as [H1 H2].
  { destruct sent as [G|]; destruct HpA as [HpA ->]; destruct HpW as [HpW _].
    - rewrite (HG G eq_refl) in *. by apply NoDup_once.
    - rewrite HpW, HpA. specialize (Hone eq_refl). split; [|intros p; rewrite !elem_of_app, elem_of_reverse; tauto].
      apply NoDup_alt. intros i j x Hi Hj. apply lookup_lt_Some in Hi, Hj. rewrite !length_app, length_reverse in Hi, Hj. lia. }
  split_and!; [exact H1|exact H2|]. intros p v [Hin|[Hin|Hin]%elem_of_app]%elem_of_app.
  - destruct (HvW p v Hin) as (x & k & Hx & ->). cbn. split; [|by exists k]. unfold subjectsOf. rewrite <- HaS, <- HwS, Hx. set_solver.
  - destruct (HvA p v Hin) as (x & k & Hx & ->). cbn. split; [|by exists k]. unfold subjectsOf. rewrite <- HaS, <- HwS, Hx. set_solver.
  - destruct (HvT p v Hin) as [k ->]. cbn. split; [|by exists k]. by left.
Qed.

(** Sessions have processes of their own. *)
Definition ownProcesses (a : registry) : Prop :=
  ∀ k1 k2 p, reg_subs a !! k1 = Some p → reg_subs a !! k2 = Some p → k1.1 = k2.1.

Lemma subscribers_NoDup s a : ownProcesses a → NoDup (subscribers s a).
Proof.
  intros Hown. unfold subscribers. apply NoDup_fmap_2_strong; [|apply NoDup_filter, NoDup_map_to_list].
  intros [[i1 s1] p1] [[i2 s2] p2] H1 H2 Hp. rewrite list_elem_of_filter, elem_of_map_to_list in H1, H2. cbn in *.
  destruct H1 as [-> H1], H2 as [-> H2]. subst p2. pose proof (Hown _ _ _ H1 H2) as Hi. cbn in Hi. by subst i2.
Qed.

(** The same, decided on the entries. *)
Lemma ownProcesses_check a :
  let l := map_to_list (reg_subs a) in
  forallb (λ x, forallb (λ y, negb (str_eqb x.2 y.2) || str_eqb x.1.1 y.1.1) l) l = true → ownProcesses a.
Proof.
  cbn zeta. intros H k1 k2 p H1 H2. rewrite forallb_forall in H.
  specialize (H (k1, p) (proj1 (list_elem_of_In _ _) (proj2 (elem_of_map_to_list _ _ _) H1))). rewrite forallb_forall in H.
  specialize (H (k2, p) (proj1 (list_elem_of_In _ _) (proj2 (elem_of_map_to_list _ _ _) H2))). cbn in H.
  apply orb_true_iff in H as [H|H]; [|by apply String.eqb_eq in H].
  apply negb_true_iff, String.eqb_neq in H. done.
Qed.

(** C10: every subscriber gets an accepted event once. After any messages, if no
    two sessions share a process, an event that the router does not ignore and
    that every stream concerned accepts is sent once to each process subscribed
    to its subject, to the alias of its market type or to the wildcard of its
    signal, and to no other; each gets the envelope unchanged but for the
    delivery number, under a subject it is routed by. In every other case
    nothing is sent. *)
Theorem subscribers_get_event_once c self msgs env :
  let r := receiveAll clk msgs (newRouterActor c self) in
  let a := registryAfter c self msgs in
  ownProcesses a →
  ∃ new, deliveries (handleEnvelope clk env r) = new ++ deliveries r ∧
  match routed env r with
  | Some s =>
      if snd (acceptAll env s (afterStore env r)) then
        NoDup new.*1 ∧
        (∀ p, p ∈ new.*1 ↔ ∃ s', s' ∈ subjectsOf env s ∧ p ∈ subscribers s' a) ∧
        ∀ p v, (p, v) ∈ new → ev_Subject v ∈ subjectsOf env s ∧ ∃ n, ev_Env v = env <| Seq := n |>
      else new = []
  | None => new = []
  end.
Proof.
  intros r a Hown. pose proof (implements_after c self msgs) as Him. fold r a in Him. clearbody r a.
  rewrite handleEnvelope_steps. assert (deliveries (afterStore env r) = deliveries r) as Hstore.
  { unfold afterStore. by case_match. }
  destruct (routed env r) as [s|]; [|exists []; split; [case_match; done|done]].
  assert (implements (afterStore env r) a) as Him0.
  { eapply implements_ext; [exact Him|]. unfold afterStore. by case_match. }
  set (r0 := afterStore env r) in *. clearbody r0. cbn zeta.
  assert (∀ s', targetsOf s' r0 ≡ₚ subscribers s' a) as Ht by (intros; by apply targets_subscribers).
  assert (∀ s', NoDup (targetsOf s' r0)) as Hnd by (intros; rewrite Ht; by apply subscribers_NoDup).
  destruct (Nat.eqb_spec (targetCount env s r0) 0) as [H0|H0].
  { exists []. split; [done|]. destruct (acceptAll env s r0).2; [|done]. split_and!; [apply NoDup_nil_2| |by intros ?? H%elem_of_nil].
    intros p. split; [by intros H%elem_of_nil|]. intros (s' & Hs' & Hp). exfalso. rewrite <- Ht in Hp. unfold targetCount in H0.
    unfold subjectsOf in Hs'. assert (length (targetsOf s' r0) = 0%nat) as Hl.
    { destruct (routingMarketTypeAliasSubject s env), (wildcardSubject s); cbn in *; set_unfold in Hs'; destruct_or?; subst; try lia; done. }
    apply length_zero_iff_nil in Hl. rewrite Hl in Hp. by apply elem_of_nil in Hp. }
  assert (deliveries (acceptAll env s r0).1 = deliveries r0) as Hacc.
  { unfold acceptAll. repeat match goal with |- context [acceptFor clk ?ts ?os env ?x] =>
      pose proof (deliveries_acceptFor ts os env x); destruct (acceptFor clk ts os env x) as [? []]; cbn [fst negb] in *; try congruence end. }
  destruct (acceptAll env s r0) as [r1 []]; cbn [fst snd] in *; [|exists []; split; [exact (eq_trans Hacc Hstore)|done]].
  destruct (sendAll_sends env s r0 r1 Hnd H0) as (new & Hd & H1 & H2 & H3). exists new. split; [by rewrite Hd, Hacc, Hstore|].
  split_and!; [done| |done]. intros p. rewrite H2. by setoid_rewrite Ht.
Qed.

(** ** The numbers of a stream *)

(** The last origin number accepted, and the last delivery number given out, for
    a stream since its state was last forgotten. *)
Fixpoint lastAccepted (k : string) (h : list routerEvent) : Z :=
  match h with
  | [] => 0
  | Accepted k' n :: h => if decide (k' = k) then n else lastAccepted k h
  | Forgot k' :: h => if decide (k' = k) then 0 else lastAccepted k h
  | _ :: h => lastAccepted k h
  end.
Fixpoint lastNumbered (k : string) (h : list routerEvent) : Z :=
  match h with
  | [] => 0
  | Numbered k' n :: h => if decide (k' = k) then n else lastNumbered k h
  | Forgot k' :: h => if decide (k' = k) then 0 else lastNumbered k h
  | _ :: h => lastNumbered k h
  end.

Definition nextNumber (n : Z) : Z := let next := add64 n 1 in if next <=? 0 then 1 else next.
Definition streamOf (v : DeliveryEvent) : string := TrimSpace (SubjectString (ev_Subject v)).

(** Every event of the history is in order with those before it. *)
Fixpoint ordered (h : list routerEvent) : Prop :=
  match h with
  | [] => True
  | e :: h =>
      match e with
      | Accepted k n => 0 < n ∧ lastAccepted k h < n
      | Numbered k n => n = nextNumber (lastNumbered k h)
      | Sent _ v => Seq (ev_Env v) = lastNumbered (streamOf v) h
      | _ => True
      end ∧ ordered h
  end.

(** The stream states are what the history says. *)
Definition stateAgrees (h : list routerEvent) (k : string) (st : streamState) : Prop :=
  lastOriginSeq st = lastAccepted k h ∧ lastDeliverySeq st = lastNumbered k h.
Record tracked (r : RouterActor) : Prop := {
  tr_states : ∀ k, stateAgrees (history r) k (default zeroState (streamStates r !! k));
  tr_empty : streamStates r !! "" = None;
  tr_ordered : ordered (history r);
}.

(** A change of neither the states nor the history. *)
Lemma tracked_ext r r' : tracked r → streamStates r' = streamStates r → history r' = history r → tracked r'.
Proof. intros [H1 H2 H3] E1 E2. split; [intros k; rewrite E1, E2; apply H1|by rewrite E1|by rewrite E2]. Qed.

(** Events that say nothing about numbers. *)
Definition neutral (e : routerEvent) : bool := match e with Stored _ | Sampled _ _ _ _ => true | _ => false end.
Lemma tracked_neutral r e : neutral e = true → tracked r → tracked (emit e r).
Proof. intros He [H1 H2 H3]. by destruct e. Qed.

Lemma tracked_forget id r : tracked r → tracked (forget id r).
Proof.
  intros Hr. unfold forget. destruct (streamStates r !! id) as [st|] eqn:Hid; [|done]. destruct Hr as [H1 H2 H3]. split.
  - intros k. specialize (H1 k). unfold stateAgrees in *. cbn. destruct (decide (id = k)) as [->|Hne].
    + by rewrite lookup_delete_eq.
    + rewrite lookup_delete_ne by done. done.
  - cbn. destruct (decide (id = "")) as [->|Hne]; [by rewrite H2 in Hid|]. by rewrite lookup_delete_ne.
  - done.
Qed.

Lemma tracked_sweep r : tracked r → tracked (sweepStreamState clk r).
Proof.
  intros Hr. unfold sweepStreamState. destruct (_ =? 0); [done|]. cbn [now].
  assert (tracked (r <| clockReads ::= S |>)) as Hr' by (by eapply tracked_ext).
  generalize (map_range (streamStates (r <| clockReads ::= S |>))) as l. intros l. revert Hr'.
  generalize (r <| clockReads ::= S |>). induction l as [|e l IH]; intros r1 Hr1; cbn; [done|]. apply IH.
  case_match; [by apply tracked_forget|done].
Qed.

Lemma tracked_flush r : tracked r → tracked (flushCoherenceSamples r).
Proof.
  intros Hr. unfold flushCoherenceSamples. destruct (_ =? 0); [by eapply tracked_ext|].
  generalize (Z.of_nat (length (sort_slice sampleLess (map_range (coherenceSamples r))))). intros unique.
  match goal with |- tracked ((((foldl ?g ?x ?l) <| _ := _ |>) <| _ := _ |>) <| _ := _ |>) =>
    enough (tracked (foldl g x l)) by (by eapply tracked_ext); generalize l; intros l' end.
  revert r Hr. induction l' as [|e l' IH]; intros r Hr; cbn; [done|]. apply IH. by apply tracked_neutral.
Qed.

Lemma tracked_sample s r : tracked r → tracked (recordCoherenceSample s r).
Proof.
  intros Hr. unfold recordCoherenceSample. set (r1 := match coherenceSamples r !! s with Some _ => _ | None => _ end).
  assert (tracked r1) as Hr1 by (subst r1; repeat case_match; by eapply tracked_ext). clearbody r1.
  case_match; [apply tracked_flush|]; by eapply tracked_ext.
Qed.

(** Storing a state that agrees with the history. *)
Lemma tracked_put id st r : id ≠ "" → tracked r → stateAgrees (history r) id st → tracked (putState id st r).
Proof.
  intros Hid [H1 H2 H3] Hst. split; cbn; [|by rewrite lookup_insert_ne|done].
  intros k. destruct (decide (k = id)) as [->|Hne]; [by rewrite lookup_insert_eq|by rewrite lookup_insert_ne].
Qed.

Lemma tracked_getOrCreate id r :
  id ≠ "" → tracked r →
  tracked (getOrCreateState clk id r).1 ∧
  stateAgrees (history (getOrCreateState clk id r).1) id (getOrCreateState clk id r).2.
Proof.
  intros Hid Hr. unfold getOrCreateState. destruct (streamStates r !! id) as [st|] eqn:Hst; cbn [fst snd].
  { split; [done|]. pose proof (tr_states _ Hr id) as H. by rewrite Hst in H. }
  set (r1 := if _ <=? _ then _ else r).
  assert (tracked r1 ∧ streamStates r1 !! id = None) as [Hr1 Hn].
  { subst r1. assert (∀ i r', streamStates r' !! id = None → streamStates (forget i r') !! id = None) as Hforget.
    { intros i r' H. unfold forget. destruct (streamStates r' !! i); [|done]. cbn.
      destruct (decide (i = id)) as [->|]; [by rewrite lookup_delete_eq|by rewrite lookup_delete_ne]. }
    assert (streamStates (sweepStreamState clk r) !! id = None) as Hsw.
    { unfold sweepStreamState. destruct (_ =? 0); [done|]. cbn [now].
      generalize (map_range (streamStates (r <| clockReads ::= S |>))) as l. intros l.
      assert (streamStates (r <| clockReads ::= S |>) !! id = None) as H by done. revert H.
      generalize (r <| clockReads ::= S |>). induction l as [|e l IH]; intros r1 H; cbn; [done|].
      apply IH. case_match; [by apply Hforget|done]. }
    pose proof (tracked_sweep r Hr). destruct (_ <=? _); [|done]. unfold evictOldestStreamState.
    destruct (_ <=? _); [|done]. case_match; [|done]. split; [by apply tracked_forget|by apply Hforget]. }
  clearbody r1. pose proof (tr_states _ Hr1 id) as Ha. rewrite Hn in Ha. split; [|exact Ha].
  by apply (tracked_put id zeroState).
Qed.

Lemma lastAccepted_nonneg k h : ordered h → 0 ≤ lastAccepted k h.
Proof. induction h as [|e h IH]; cbn; [done|]. intros [He Hh]. specialize (IH Hh). destruct e; try done; case_decide; lia. Qed.

Lemma tracked_accept id env r : tracked r → tracked (acceptStreamSeq clk id env r).1.
Proof.
  intros Hr. unfold acceptStreamSeq. destruct (str_eqb (TrimSpace id) "") eqn:Hid; [done|]. apply str_eqb_false in Hid.
  destruct (Z.leb_spec (Seq env) 0) as [|Hpos]; [done|]. cbn [now].
  destruct (tracked_getOrCreate (TrimSpace id) (r <| clockReads ::= S |>) Hid) as [Hr1 Hst]; [by eapply tracked_ext|].
  destruct (getOrCreateState _ _ _) as [r1 st]. cbn [fst snd] in *.
  case_bool_decide as Hdec; cbn [fst].
  - apply Decide_accept in Hdec. cbn in Hdec. destruct Hst as [Hs1 Hs2].
    destruct Hr1 as [H1 H2 H3]. pose proof (lastAccepted_nonneg (TrimSpace id) _ H3).
    assert (∀ ts o, lastOriginSeq (acceptedState (st <| lastSeenAt := clk (clockReads r) |>) (Seq env) ts o) = Seq env ∧
      lastDeliverySeq (acceptedState (st <| lastSeenAt := clk (clockReads r) |>) (Seq env) ts o) = lastDeliverySeq st) as Hacc.
    { intros ts o. unfold acceptedState. repeat case_match; done. }
    split; cbn -[acceptedState]; [|by rewrite lookup_insert_ne|split; [|done]; lia].
    intros k. unfold stateAgrees. cbn -[acceptedState]. destruct (decide (TrimSpace id = k)) as [<-|Hne].
    + rewrite lookup_insert_eq. cbn -[acceptedState].
      match goal with |- context [acceptedState _ _ ?ts ?o] => destruct (Hacc ts o) as [-> ->] end. done.
    + rewrite lookup_insert_ne by done. apply H1.
  - apply tracked_sample, tracked_put; [done|done|]. destruct (bool_decide _ && _); exact Hst.
Qed.

Lemma tracked_number id r :
  tracked r → tracked (nextDeliverySeq clk id r).1 ∧
  lastNumbered (TrimSpace id) (history (nextDeliverySeq clk id r).1) = (nextDeliverySeq clk id r).2.
Proof.
  intros Hr. unfold nextDeliverySeq. destruct (str_eqb (TrimSpace id) "") eqn:Hid; cbn [fst snd].
  { apply String.eqb_eq in Hid. rewrite Hid. split; [done|]. pose proof (tr_states _ Hr "") as [_ H].
    by rewrite (tr_empty _ Hr) in H. }
  apply str_eqb_false in Hid. cbn [now fst snd]. destruct Hr as [H1 H2 H3]. pose proof (H1 (TrimSpace id)) as [Ha Hb].
  split; [|cbn; by rewrite decide_True]. split; cbn; [|by rewrite lookup_insert_ne|].
  - intros k. unfold stateAgrees. cbn. destruct (decide (TrimSpace id = k)) as [<-|Hne].
    + by rewrite lookup_insert_eq.
    + rewrite lookup_insert_ne by done. apply H1.
  - split; [|done]. unfold nextNumber. cbn zeta. by rewrite <- Hb.
Qed.

(** A send that carries the last number of its stream. *)
Lemma tracked_sent p v r : tracked r → Seq (ev_Env v) = lastNumbered (streamOf v) (history r) → tracked (emit (Sent p v) r).
Proof. by intros [H1 H2 H3] Hv. Qed.

Lemma tracked_acceptFor ts s env r : tracked r → tracked (acceptFor clk ts s env r).1.
Proof.
  intros Hr. unfold acceptFor. destruct ts, s as [s|]; try done. pose proof (tracked_accept (SubjectString s) env r Hr).
  by destruct (acceptStreamSeq _ _ _ _).
Qed.

Lemma tracked_sendPrimary s env ts : ∀ r,
  tracked r → Seq env = lastNumbered (TrimSpace (SubjectString s)) (history r) → tracked (sendPrimary s env ts r).
Proof.
  induction ts as [|p ts IH]; intros r Hr Hseq; [done|]. unfold sendPrimary in *. cbn [foldl]. apply IH; [|done].
  by apply tracked_sent.
Qed.

Lemma tracked_sendOne s env f p :
  tracked (fo_router f) ∧ (∀ n, fo_seq f = Some n → n = lastNumbered (TrimSpace (SubjectString s)) (history (fo_router f))) →
  tracked (fo_router (sendOne clk s env f p)) ∧
  (∀ n, fo_seq (sendOne clk s env f p) = Some n →
    n = lastNumbered (TrimSpace (SubjectString s)) (history (fo_router (sendOne clk s env f p)))).
Proof.
  intros [Hr Hn]. unfold sendOne. destruct f as [r sent seq]. cbn [fo_router fo_sent fo_seq] in *.
  destruct (match sent with Some l => bool_decide (p ∈ l) | None => false end); [done|].
  destruct seq as [n|]; cbn [fo_router fo_seq].
  - split; [by apply tracked_sent; [|apply Hn]|]. intros m [= <-]. by apply Hn.
  - destruct (tracked_number (SubjectString s) r Hr) as [Hr1 Hn1]. destruct (nextDeliverySeq _ _ _) as [r1 n]. cbn [fst snd] in *.
    cbn [fo_router fo_seq]. split; [by apply tracked_sent|]. by intros m [= <-].
Qed.

Lemma tracked_sendSecondary os env ts f : tracked f.1 → tracked (sendSecondary clk os env ts f).1.
Proof.
  intros Hr. unfold sendSecondary. destruct os as [s|]; [|done]. cbn [fst].
  enough (∀ l f, (tracked (fo_router f) ∧ ∀ n, fo_seq f = Some n → n = lastNumbered (TrimSpace (SubjectString s)) (history (fo_router f))) →
    tracked (fo_router (foldl (sendOne clk s env) f l))) as H by (by apply H).
  induction l as [|p l IH]; intros f' Hf; cbn [foldl]; [tauto|]. by apply IH, tracked_sendOne.
Qed.

Lemma tracked_handleEnvelope env r : tracked r → tracked (handleEnvelope clk env r).
Proof.
  intros Hr. rewrite handleEnvelope_steps. assert (tracked (afterStore env r)) as Hr0.
  { unfold afterStore. case_match; [by apply tracked_neutral|done]. }
  destruct (routed env r) as [s|]; [|case_match; done]. cbn zeta. destruct (_ =? 0)%nat; [done|].
  assert (tracked (acceptAll env s (afterStore env r)).1) as Hr1.
  { unfold acceptAll. repeat match goal with |- context [acceptFor clk ?ts ?os env ?x] =>
      pose proof (tracked_acceptFor ts os env x ltac:(assumption)); destruct (acceptFor clk ts os env x) as [? []]; cbn [fst negb] in *;
      try assumption end. }
  destruct (acceptAll _ _ _) as [r1 []]; [|done]. cbn [fst] in Hr1. unfold sendAll.
  destruct (tracked_number (SubjectString s) r1 Hr1) as [Hr2 Hn]. destruct (nextDeliverySeq _ _ _) as [r2 n]. cbn [fst snd] in *.
  by apply tracked_sendSecondary, tracked_sendSecondary, tracked_sendPrimary.
Qed.

Lemma tracked_unsubscribe id subject r : tracked r → tracked (removeSessionFromSubject id subject r).
Proof.
  intros Hr. unfold removeSessionFromSubject. assert (tracked (dropFromSession id subject r)) as Hr1.
  { unfold dropFromSession. repeat case_match; by eapply tracked_ext. }
  unfold dropFromSubject, rebuildSubjectPIDs. repeat case_match; try apply tracked_forget; by eapply tracked_ext.
Qed.

Lemma tracked_unregister id r : tracked r → tracked (unregister id r).
Proof.
  intros Hr. unfold unregister. set (r1 := match sessionSubjects r !! id with Some subs => _ | None => r end).
  assert (tracked r1) as Hr1.
  { subst r1. destruct (sessionSubjects r !! id) as [subs|]; [|done]. generalize (map_range subs). intros l. revert r Hr.
    induction l as [|e l IH]; intros r Hr; cbn; [done|]. by apply IH, tracked_unsubscribe. }
  clearbody r1. case_match; by eapply tracked_ext.
Qed.

Lemma tracked_receive msg r : tracked r → tracked (Receive clk msg r).
Proof.
  intros Hr. destruct msg as [| |pid|id pid|id|id s|id s|env|]; cbn [Receive].
  - by apply tracked_sweep.
  - unfold onStopped. apply tracked_flush. by eapply tracked_ext.
  - unfold onActorStopped. repeat case_match; try done. by apply tracked_unregister.
  - unfold register. repeat case_match; by eapply tracked_ext.
  - by apply tracked_unregister.
  - unfold subscribe, rebuildSubjectPIDs. repeat case_match; by eapply tracked_ext.
  - by apply tracked_unsubscribe.
  - by apply tracked_handleEnvelope.
  - by apply tracked_sweep.
Qed.

Lemma tracked_after c self msgs : tracked (receiveAll clk msgs (newRouterActor c self)).
Proof.
  unfold receiveAll. induction msgs as [|m msgs IH] using rev_ind; [|rewrite foldl_app; by apply tracked_receive].
  by split.
Qed.

Lemma ordered_app h1 h2 : ordered (h1 ++ h2) → ordered h2.
Proof. induction h1 as [|e h1 IH]; cbn; [done|]. intros [_ H]. by apply IH. Qed.

Lemma lastAccepted_since k n h2 h3 :
  ordered (h2 ++ Accepted k n :: h3) → (Forgot k ∉ h2) → n ≤ lastAccepted k (h2 ++ Accepted k n :: h3).
Proof.
  induction h2 as [|e h2 IH]; cbn [app]; intros Hord Hnf; [cbn; by rewrite decide_True|].
  destruct Hord as [He Hord]. apply not_elem_of_cons in Hnf as [Hne Hnf]. specialize (IH Hord Hnf).
  destruct e; cbn in *; try done; case_decide; subst; try done; lia.
Qed.

Lemma lastNumbered_since k n h2 h3 :
  (Forgot k ∉ h2) → (∀ m, Numbered k m ∉ h2) → lastNumbered k (h2 ++ Numbered k n :: h3) = n.
Proof.
  induction h2 as [|e h2 IH]; cbn [app]; intros Hnf Hnn; [cbn; by rewrite decide_True|].
  apply not_elem_of_cons in Hnf as [Hne Hnf]. specialize (IH Hnf (λ m Hm, Hnn m (list_elem_of_further _ _ _ Hm))).
  destruct e as [| | |k' m|k'|]; cbn; try done; case_decide; subst; try done. exfalso. apply (Hnn m). by left.
Qed.

Lemma nextNumber_succ n : 0 ≤ n ≤ MaxInt64 → nextNumber n = if n <? MaxInt64 then n + 1 else 1.
Proof.
  intros Hn. unfold nextNumber. destruct (Z.ltb_spec n MaxInt64) as [Hlt|Hge].
  - rewrite add64_id by (unfold in_i64, MinInt64; lia). cbn zeta. destruct (Z.leb_spec (n + 1) 0); lia.
  - assert (n = MaxInt64) as -> by lia. reflexivity.
Qed.

Lemma ordered_numbers k n h : ordered (Numbered k n :: h) → 1 ≤ n ≤ MaxInt64.
Proof.
  cbn. intros [-> _]. unfold nextNumber. cbn zeta. pose proof (add64_range (lastNumbered k h) 1). unfold in_i64, MaxInt64 in *.
  destruct (Z.leb_spec (add64 (lastNumbered k h) 1) 0); lia.
Qed.

(** C11: the numbers of a stream only go up. In the history of any run, newest
    first: of two origin numbers accepted for one stream whose state was not
    forgotten in between, the later is the greater; delivery numbers of a stream
    count up by one (starting over after 2^63 - 1); and every event sent carries
    the delivery number last given out for its stream. *)
Theorem stream_numbers_increase c self msgs k h1 h2 h3 :
  let h := history (receiveAll clk msgs (newRouterActor c self)) in
  (Forgot k ∉ h2) →
  (∀ n1 n2, h = h1 ++ Accepted k n2 :: h2 ++ Accepted k n1 :: h3 → 0 < n1 < n2) ∧
  (∀ n1 n2, h = h1 ++ Numbered k n2 :: h2 ++ Numbered k n1 :: h3 → (∀ n, Numbered k n ∉ h2) →
    n2 = if n1 <? MaxInt64 then n1 + 1 else 1) ∧
  (∀ p v, h = h1 ++ Sent p v :: h3 → Seq (ev_Env v) = lastNumbered (streamOf v) h3).
Proof.
  intros h Hnf. pose proof (tr_ordered _ (tracked_after c self msgs)) as Hord. fold h in Hord. clearbody h. split_and!.
  - intros n1 n2 ->. apply ordered_app in Hord. destruct Hord as [[Hpos Hlt] Hord].
    pose proof (lastAccepted_since k n1 h2 h3 Hord Hnf). apply ordered_app in Hord. destruct Hord as [[? _] _]. lia.
  - intros n1 n2 -> Hnn. apply ordered_app in Hord. destruct Hord as [-> Hord].
    rewrite lastNumbered_since by done. apply ordered_app, ordered_numbers in Hord. apply nextNumber_succ. lia.
  - intros p v ->. apply ordered_app in Hord. by destruct Hord as [? _].
Qed.

(** ** Where routing falls short *)

Lemma acceptStreamSeq_old id env r st :
  streamStates r !! TrimSpace id = Some st → Seq env ≤ lastOriginSeq st →
  (acceptStreamSeq clk id env r).2.1 = false.
Proof.
  intros Hst Hold. unfold acceptStreamSeq. destruct (str_eqb _ _); [done|].
  destruct (Z.leb_spec (Seq env) 0) as [|Hpos]; [done|]. cbn [now]. unfold getOrCreateState.
  change (streamStates (r <| clockReads ::= S |>)) with (streamStates r). rewrite Hst.
  case_bool_decide as Hdec; [|done]. apply Decide_accept in Hdec. cbn in Hdec. lia.
Qed.

(** A refused subject silences its alias. The subject without a market type
    carries the events of all market types, whose sequence numbers are counted
    separately. When it has a subscriber and has seen a greater number, an event
    is not sent at all: the subscribers of its own market type do not get it,
    although nothing is wrong with it in their stream. *)
Theorem refused_primary_silences_alias env r s st :
  routed env r = Some s → targetsOf s r ≠ [] → streamStates r !! TrimSpace (SubjectString s) = Some st →
  Seq env ≤ lastOriginSeq st →
  deliveries (handleEnvelope clk env r) = deliveries r.
Proof.
  intros Hrt Htg Hst Hold. rewrite handleEnvelope_steps, Hrt. cbn zeta.
  assert (deliveries (afterStore env r) = deliveries r ∧ targetsOf s (afterStore env r) = targetsOf s r ∧
    streamStates (afterStore env r) = streamStates r) as (Hd & Ht & Hs) by (unfold afterStore; by case_match).
  destruct (_ =? 0)%nat; [done|]. unfold acceptAll. rewrite Ht. unfold acceptFor at 1.
  destruct (targetsOf s r) as [|p ts]; [done|]. set (r0 := afterStore env r) in *. clearbody r0.
  pose proof (acceptStreamSeq_old (SubjectString s) env r0 st ltac:(by rewrite Hs) Hold) as Hrej.
  pose proof (ignores_accept deliveries ltac:(done) ltac:(done) ltac:(done) ltac:(done) ltac:(done) ltac:(intros; by apply deliveries_emit)
    (SubjectString s) env r0) as Hdel.
  destruct (acceptStreamSeq clk (SubjectString s) env r0) as [r1 [ok reason]]. cbn [fst snd] in *. subst ok. cbn. congruence.
Qed.

(** A session that registers again with another process stays subscribed under
    the old one, and subscribing again does not help. *)
Theorem reregistered_session_keeps_old_process c self msgs id s q :
  let r := receiveAll clk msgs (newRouterActor c self) in
  is_Some (reg_subs (registryAfter c self msgs) !! (id, s)) →
  targetsOf s (receiveAll clk [RegisterSession id (Some q); SubscribeSession id s] r) ≡ₚ targetsOf s r.
Proof.
  intros r [p Hp]. pose proof (implements_after c self msgs) as Him. fold r in Him.
  assert (receiveAll clk [RegisterSession id (Some q); SubscribeSession id s] r
    = receiveAll clk (msgs ++ [RegisterSession id (Some q); SubscribeSession id s]) (newRouterActor c self)) as ->.
  { unfold r, receiveAll. by rewrite foldl_app. }
  rewrite (targets_subscribers _ _ s (implements_after c self _)), (targets_subscribers _ _ s Him).
  unfold registryAfter. rewrite foldl_app. cbn [foldl spec_receive]. fold (registryAfter c self msgs).
  set (a := registryAfter c self msgs) in *. clearbody a. unfold subscribers.
  assert (reg_subs (spec_register (cfg_MaxActiveSessions c) id (Some q) a) = reg_subs a) as Hreg.
  { cbn. repeat case_match; done. }
  unfold spec_subscribe. rewrite Hreg, Hp. destruct (reg_sessions _ !! id); by rewrite Hreg.
Qed.
End router_spec.

(** ** Concrete runs *)

Definition w_routerCfg (maxStates : Z) : RouterConfig := MkRouterConfig "raw" true "" 0 2 maxStates.
Definition w_clk (n : nat) : Z := 1000000000 * Z.of_nat n.
Definition w_trade (instrument marketType : string) (seq : Z) : Envelope :=
  MkEnvelope "marketdata.trade" 1 "binance" instrument 900 1000 seq "key" "application/json"
    {[ "instrument_market_type" := marketType ]} [123] "".
Definition w_subject (symbol : string) : Subject := MkSubject "marketdata.trade" "" "binance" symbol "raw".

(** Two sessions, one for every market type and one for the spot market only. *)
Definition w_sessions : list routerMsg :=
  [Started; RegisterSession "a" (Some "pid/a"); RegisterSession "b" (Some "pid/b"); RegisterSession "c" (Some "pid/c");
   SubscribeSession "a" (w_subject "BTCUSDT"); SubscribeSession "b" (w_subject "BTCUSDT:SPOT")].
Definition w_router (msgs : list routerMsg) : RouterActor :=
  receiveAll (GR:=go_amd64) w_clk (w_sessions ++ msgs) (newRouterActor (GR:=go_amd64) (w_routerCfg 0) "pid/router").

(** What a witness observes of a router. *)
Definition w_sent (r : RouterActor) : list (string * string * Z) :=
  (λ x, (x.1, SubjectString (GR:=go_amd64) (ev_Subject x.2), Seq (ev_Env x.2))) <$> deliveries r.

Lemma subscribers_get_event_once_witness :
  let msgs := w_sessions ++ [DeliverEnvelope (w_trade "BTCUSDT" "SPOT" 7)] in
  let r := receiveAll (GR:=go_amd64) w_clk msgs (newRouterActor (GR:=go_amd64) (w_routerCfg 0) "pid/router") in
  let env := w_trade "BTCUSDT" "SPOT" 8 in
  (acceptAll (GR:=go_amd64) w_clk env (w_subject "BTCUSDT") (afterStore env r)).2 = true ∧
  (∃ new, deliveries (handleEnvelope (GR:=go_amd64) w_clk env r) = new ++ deliveries r ∧ NoDup new.*1) ∧
  w_sent (handleEnvelope (GR:=go_amd64) w_clk env r) =
    [("pid/b", "marketdata.trade/binance/BTCUSDT:SPOT/raw", 2); ("pid/a", "marketdata.trade/binance/BTCUSDT/raw", 2);
     ("pid/b", "marketdata.trade/binance/BTCUSDT:SPOT/raw", 1); ("pid/a", "marketdata.trade/binance/BTCUSDT/raw", 1)].
Proof.
  cbn zeta. split; [vm_compute; reflexivity|]. split; [|vm_compute; reflexivity].
  destruct (subscribers_get_event_once (GR:=go_amd64) w_clk (w_routerCfg 0) "pid/router"
    (w_sessions ++ [DeliverEnvelope (w_trade "BTCUSDT" "SPOT" 7)]) (w_trade "BTCUSDT" "SPOT" 8)) as (new & Hd & Hm).
  - apply ownProcesses_check. vm_compute. reflexivity.
  - exists new. split; [exact Hd|]. revert Hm.
    set (o := routed (GR:=go_amd64) _ _). assert (o = Some (w_subject "BTCUSDT")) as -> by (vm_compute; reflexivity).
    set (b := (acceptAll (GR:=go_amd64) _ _ _ _).2). assert (b = true) as -> by (vm_compute; reflexivity).
    intros (Hnd & _). exact Hnd.
Defined.

(** Decided on a concrete history. *)
Lemma notForgot_check k h :
  forallb (λ e, match e with Forgot k' => negb (str_eqb k' k) | _ => true end) h = true → Forgot k ∉ h.
Proof.
  rewrite forallb_forall. intros H Hin%list_elem_of_In. specialize (H _ Hin). cbn in H.
  apply negb_true_iff, String.eqb_neq in H. done.
Qed.

Definition w_twoTrades : list routerMsg :=
  w_sessions ++ [DeliverEnvelope (w_trade "BTCUSDT" "SPOT" 7); DeliverEnvelope (w_trade "BTCUSDT" "SPOT" 9)].
Definition w_history : list routerEvent :=
  history (receiveAll (GR:=go_amd64) w_clk w_twoTrades (newRouterActor (GR:=go_amd64) (w_routerCfg 0) "pid/router")).

Lemma stream_numbers_increase_witness :
  w_history = take 4 w_history ++ Accepted "marketdata.trade/binance/BTCUSDT:SPOT/raw" 9 ::
    take 6 (drop 5 w_history) ++ Accepted "marketdata.trade/binance/BTCUSDT:SPOT/raw" 7 :: drop 12 w_history ∧ 0 < 7 < 9.
Proof.
  assert (w_history = take 4 w_history ++ Accepted "marketdata.trade/binance/BTCUSDT:SPOT/raw" 9 ::
    take 6 (drop 5 w_history) ++ Accepted "marketdata.trade/binance/BTCUSDT:SPOT/raw" 7 :: drop 12 w_history) as Heq
    by (vm_compute; reflexivity).
  split; [exact Heq|].
  pose proof (stream_numbers_increase (GR:=go_amd64) w_clk (w_routerCfg 0) "pid/router" w_twoTrades
    "marketdata.trade/binance/BTCUSDT:SPOT/raw" (take 4 w_history) (take 6 (drop 5 w_history)) (drop 12 w_history)) as H.
  assert (history (receiveAll (GR:=go_amd64) w_clk w_twoTrades (newRouterActor (GR:=go_amd64) (w_routerCfg 0) "pid/router"))
    = w_history) as Hd by (unfold w_history; reflexivity).
  cbv zeta in H. rewrite Hd in H. apply H; [|exact Heq]. apply notForgot_check. vm_compute. reflexivity.
Defined.

(** A futures event with a high number, then a spot event: its own stream would
    accept it. *)
Lemma refused_primary_silences_alias_witness :
  let r := w_router [DeliverEnvelope (w_trade "BTCUSDT" "USD_M_FUTURES" 2000)] in
  let env := w_trade "BTCUSDT" "SPOT" 7 in
  (acceptStreamSeq (GR:=go_amd64) w_clk "marketdata.trade/binance/BTCUSDT:SPOT/raw" env r).2 = (true, "") ∧
  deliveries (handleEnvelope (GR:=go_amd64) w_clk env r) = deliveries r.
Proof.
  cbn zeta. split; [vm_compute; reflexivity|].
  eapply (refused_primary_silences_alias (GR:=go_amd64) w_clk _ _ (w_subject "BTCUSDT")).
  - vm_compute. reflexivity.
  - vm_compute. discriminate.
  - vm_compute. reflexivity.
  - vm_compute. discriminate.
Defined.

(** An event that only has subscribers under its market type also creates a
    state for the subject without one, outside the bound: with room for one
    stream, three instruments leave four states. *)
Theorem stream_states_exceed_bound :
  let c := w_routerCfg 1 in
  let r := receiveAll (GR:=go_amd64) w_clk
    [RegisterSession "a" (Some "pid/a"); SubscribeSession "a" (w_subject "BTCUSDT:SPOT");
     SubscribeSession "a" (w_subject "ETHUSDT:SPOT"); SubscribeSession "a" (w_subject "SOLUSDT:SPOT");
     DeliverEnvelope (w_trade "BTCUSDT" "SPOT" 1); DeliverEnvelope (w_trade "ETHUSDT" "SPOT" 1);
     DeliverEnvelope (w_trade "SOLUSDT" "SPOT" 1)] (newRouterActor (GR:=go_amd64) c "pid/router") in
  maxStreamStateEntries r = 1 ∧ mapLen (streamStates r) = 4.
Proof. vm_compute. split; reflexivity. Qed.
