(* ===== verification/SessionQueue.v ===== *)
(** * SessionQueue: session_drop_policy.go, backpressure_strategy.go of internal/actors/delivery/runtime

    How a delivery session queues events under backpressure: [enqueueDelivery]
    with the three drop policies, the report of drops to the client and the
    disconnection of slow clients, and what of session.go and session_protocol.go
    these use. The flushing of the queue to the wire is not modelled.

    Indexing panics of the ring are the errors of the methods here. What the
    actor does to the outside is its [trace], newest first; the connection
    decides by it whether a write succeeds. Metrics are left out. *)

From S2P Require Import Prelude GoRuntime Shared Envelope Delivery DeliveryRing.

Local Open Scope string_scope.
Local Open Scope list_scope.
Local Open Scope Z_scope.

(** ** Drop reasons and action hints *)

Inductive ActionHint :=
  ACTION_HINT_UNSPECIFIED | ACTION_HINT_NONE | ACTION_HINT_RETRY | ACTION_HINT_RECONNECT | ACTION_HINT_RESUBSCRIBE |
  ACTION_HINT_RESYNC.
Definition hintName (h : ActionHint) : string :=
  match h with
  | ACTION_HINT_UNSPECIFIED => "ACTION_HINT_UNSPECIFIED"
  | ACTION_HINT_NONE => "ACTION_HINT_NONE"
  | ACTION_HINT_RETRY => "ACTION_HINT_RETRY"
  | ACTION_HINT_RECONNECT => "ACTION_HINT_RECONNECT"
  | ACTION_HINT_RESUBSCRIBE => "ACTION_HINT_RESUBSCRIBE"
  | ACTION_HINT_RESYNC => "ACTION_HINT_RESYNC"
  end.

Definition backpressureDropReasonQueueFull : string := "queue_full".
Definition backpressureDropReasonDropOldest : string := "drop_oldest".
Definition backpressureDropReasonPriorityDrop : string := "priority_drop".
Definition backpressureDropReasonPriorityDropSelf : string := "priority_drop_self".
Definition backpressureDropReasonFrameTooLarge : string := "frame_too_large".
Definition backpressureDropReasonSlowClientDisconnect : string := "slow_client_disconnect".

Definition wsLimitTypeMaxFrameBytes : string := "max_frame_bytes".
Definition wsLimitTypeOutboundQueue : string := "outbound_queue_size".

Record backpressureStrategy := MkStrategy {
  elevatedRatio : float64;
  highRatio : float64;
  criticalRatio : float64;
  sampleTopN : Z;
  sampleMaxUnique : Z;
  sampleFlushEvery : Z;
}.
Definition defaultBackpressureStrategy : backpressureStrategy :=
  MkStrategy (flit 50 100) (flit 75 100) (flit 95 100) 5 64 64.

Section strategy.
Context {GR : GoRuntime}.

Definition normalizeDropReason (reason : string) : string :=
  let r := ToLower (TrimSpace reason) in
  if bool_decide (r ∈ [backpressureDropReasonQueueFull; backpressureDropReasonDropOldest;
       backpressureDropReasonPriorityDrop; backpressureDropReasonPriorityDropSelf;
       backpressureDropReasonFrameTooLarge; backpressureDropReasonSlowClientDisconnect])
  then r else backpressureDropReasonQueueFull.

Definition actionHintForDrop (reason : string) : ActionHint :=
  let r := normalizeDropReason reason in
  if bool_decide (r ∈ [backpressureDropReasonQueueFull; backpressureDropReasonPriorityDropSelf;
       backpressureDropReasonSlowClientDisconnect]) then ACTION_HINT_RECONNECT
  else ACTION_HINT_NONE.

Definition queueLevel (s : backpressureStrategy) (queueLen queueCap : Z) : Z * string :=
  if queueCap <=? 0 then (0, "none") else
  let ratio := fdiv (f_of_Z (Z.max queueLen 0)) (f_of_Z queueCap) in
  if fgeb ratio (criticalRatio s) then (3, "reconnect")
  else if fgeb ratio (highRatio s) then (2, "reduce_subscriptions")
  else if fgeb ratio (elevatedRatio s) then (1, "none")
  else (0, "none").

(** ** Channels (session_protocol.go) *)

Inductive Channel :=
  CHANNEL_UNSPECIFIED | CHANNEL_TRADE | CHANNEL_BOOK_DELTA | CHANNEL_BOOK_SNAPSHOT | CHANNEL_TICKER | CHANNEL_FUNDING |
  CHANNEL_OPEN_INTEREST | CHANNEL_LIQUIDATION | CHANNEL_STATS | CHANNEL_CANDLE | CHANNEL_HEATMAP_SNAPSHOT |
  CHANNEL_VOLUME_PROFILE_SNAPSHOT | CHANNEL_EVIDENCE.

Definition channelEnumFromStreamType (streamType : string) : Channel :=
  let t := ToLower (TrimSpace streamType) in
  if str_eqb t "marketdata.trade" then CHANNEL_TRADE
  else if str_eqb t "marketdata.bookdelta" then CHANNEL_BOOK_DELTA
  else if str_eqb t "aggregation.snapshot" then CHANNEL_BOOK_SNAPSHOT
  else if str_eqb t "marketdata.markprice" then CHANNEL_TICKER
  else if str_eqb t "marketdata.open_interest" || str_eqb t "aggregation.oi" then CHANNEL_OPEN_INTEREST
  else if str_eqb t "aggregation.stats" then CHANNEL_STATS
  else if str_eqb t "aggregation.bar_stats" then CHANNEL_STATS
  else if str_eqb t "aggregation.candle" then CHANNEL_CANDLE
  else if str_eqb t "aggregation.tape" then CHANNEL_UNSPECIFIED
  else if str_eqb t "marketdata.liquidation" then CHANNEL_LIQUIDATION
  else if str_eqb t "insights.heatmap_snapshot" then CHANNEL_HEATMAP_SNAPSHOT
  else if str_eqb t "insights.volume_profile_snapshot" then CHANNEL_VOLUME_PROFILE_SNAPSHOT
  else if bool_decide (t ∈ ["liquidity.evidence"; "evidence.microstructure_evidence"; "evidence.regime_evidence";
                            "insights.microstructure_evidence"; "insights.regime_evidence"]) then CHANNEL_EVIDENCE
  else CHANNEL_UNSPECIFIED.

Definition channelName (ch : Channel) (fallback : string) : string :=
  match ch with
  | CHANNEL_TRADE => "trade"
  | CHANNEL_BOOK_DELTA => "book_delta"
  | CHANNEL_BOOK_SNAPSHOT => "book_snapshot"
  | CHANNEL_TICKER => "ticker"
  | CHANNEL_FUNDING => "funding"
  | CHANNEL_OPEN_INTEREST => "open_interest"
  | CHANNEL_LIQUIDATION => "liquidation"
  | CHANNEL_STATS => "stats"
  | CHANNEL_CANDLE => "candle"
  | CHANNEL_HEATMAP_SNAPSHOT => "heatmap_snapshot"
  | CHANNEL_VOLUME_PROFILE_SNAPSHOT => "volume_profile_snapshot"
  | CHANNEL_EVIDENCE => "evidence"
  | CHANNEL_UNSPECIFIED =>
      let ft := ToLower (TrimSpace fallback) in
      if str_eqb ft "aggregation.tape" || str_eqb ft "tape" then "tape"
      else if str_eqb ft "aggregation.delta_volume" || str_eqb ft "delta_volume" then "delta_volume"
      else if str_eqb ft "aggregation.cvd" || str_eqb ft "cvd" then "cvd"
      else if str_eqb ft "aggregation.bar_stats" || str_eqb ft "bar_stats" then "bar_stats"
      else if str_eqb (TrimSpace fallback) "" then "unknown"
      else ToLower (TrimSpace fallback)
  end.
End strategy.

(** ** Problems on the wire (session_protocol.go) *)

Definition problemDetailString {GR : GoRuntime} (p : Problem) (key : string) : string :=
  match Details p !! key with
  | Some (AnyStr value) => TrimSpace value
  | _ => ""
  end.

Definition withWSLimitProblemDetails {GR : GoRuntime} (p : Problem) (limitType : string) (hint : ActionHint) : Problem :=
  with_detail (with_detail p "error_code" (AnyStr (TrimSpace limitType))) "action_hint" (AnyStr (hintName hint)).

Definition wsErrorMappingFromProblem {GR : GoRuntime} (p : Problem) : string * string :=
  let overrideErrorCode := TrimSpace (problemDetailString p "error_code") in
  let overrideActionHint := TrimSpace (problemDetailString p "action_hint") in
  if negb (str_eqb overrideErrorCode "") || negb (str_eqb overrideActionHint "") then
    (if str_eqb overrideErrorCode "" then "ERROR_CODE_UNSPECIFIED" else overrideErrorCode,
     if str_eqb overrideActionHint "" then "ACTION_HINT_NONE" else overrideActionHint)
  else match Code p with
  | ValidationFailed | InvalidArgument => ("ERROR_CODE_VALIDATION", "ACTION_HINT_NONE")
  | NotFound => ("ERROR_CODE_NOT_FOUND", if Retryable p then "ACTION_HINT_RETRY" else "ACTION_HINT_NONE")
  | Unavailable => ("ERROR_CODE_RATE_LIMITED", "ACTION_HINT_RETRY")
  | Conflict => ("ERROR_CODE_RESYNC_REQUIRED", "ACTION_HINT_RESYNC")
  | IntegrityViolation => ("ERROR_CODE_RESYNC_REQUIRED", "ACTION_HINT_RESUBSCRIBE")
  | Internal => ("ERROR_CODE_INTERNAL", "ACTION_HINT_RECONNECT")
  | _ => ("ERROR_CODE_INTERNAL", "ACTION_HINT_RECONNECT")
  end.

Record wsErrorFrame := MkErrorFrame {
  ef_Op : string;
  ef_RequestID : string;
  ef_Code : ProblemCode;
  ef_ErrorCode : string;
  ef_ActionHint : string;
  ef_Message : message;
}.

(** ** The session *)

Record backpressureDropSampleKey := MkDropSample { drop_reason : string; drop_channel : string; drop_priority : string }.
#[export] Instance backpressureDropSampleKey_eq_dec : EqDecision backpressureDropSampleKey.
Proof. solve_decision. Defined.
#[export] Instance backpressureDropSampleKey_countable : Countable backpressureDropSampleKey.
Proof.
  refine (inj_countable' (λ k, (drop_reason k, drop_channel k, drop_priority k)) (λ '(a, b, c), MkDropSample a b c) _).
  by intros [].
Defined.

(** What the actor does to the outside. *)
Inductive sessionEvent :=
  | ErrorFrame (f : wsErrorFrame)
  | FlushSelf
  | Unsubscribed (subject : Subject)
  | Unregistered
  | ConnClosed
  | DropSample (key : backpressureDropSampleKey) (count unique dropped : Z).

(** [Conn.WriteJSON] after what happened so far: whether it succeeds. *)
Class SessionConn := { WriteJSON : list sessionEvent → wsErrorFrame → bool }.

Record SessionConfig := MkSessionConfig {
  hasConn : bool;
  hasRouter : bool;
  SlowClientDropThreshold : Z;
  MaxFrameBytes : Z;
}.

Record SessionActor := MkSessionActor {
  s_cfg : SessionConfig;
  s_session : Session;
  s_started : bool;
  s_closed : bool;
  outbound : deliveryRing;
  flushing : bool;
  policy : BackpressurePolicy;
  priorities : gmap string Z;
  dropCount : Z;
  queueHighWatermark : Z;
  bpStrategy : backpressureStrategy;
  bpDropSamples : gmap backpressureDropSampleKey Z;
  bpDropSampleDrops : Z;
  bpDropSampleWindow : Z;
  trace : list sessionEvent;
}.
#[export] Instance SessionActor_eta : Eta SessionActor := λ s,
  MkSessionActor (s_cfg s) (s_session s) (s_started s) (s_closed s) (outbound s) (flushing s) (policy s) (priorities s)
    (dropCount s) (queueHighWatermark s) (bpStrategy s) (bpDropSamples s) (bpDropSampleDrops s) (bpDropSampleWindow s)
    (trace s).

Section session_queue.
Context {GR : GoRuntime} {conn : SessionConn}.

Abbreviation SessM := (Meth SessionActor Problem).

(** What [ensureDefaults] sets up of the queue: its size, the policy and the
    priorities, those of the configuration over the defaults. *)
Definition newSessionActor (c : SessionConfig) (uuid : string) (queueSize : Z) (rawPolicy : string)
    (overrides : gmap string Z) : SessionActor :=
  let prios := foldl (λ m e, <[ToLower (TrimSpace (fst e)) := snd e]> m) DefaultBackpressurePriorities (map_range overrides) in
  MkSessionActor c (NewSession uuid) false false (newDeliveryRing queueSize) false (NormalizeBackpressurePolicy rawPolicy)
    prios 0 0 defaultBackpressureStrategy ∅ 0 0 [].

Definition happens (e : sessionEvent) (s : SessionActor) : SessionActor := s <| trace ::= cons e |>.

(** A call on the queue. *)
Definition onRing {A} (m : RingM A) : SessM A := λ s,
  let '(r, x) := m (outbound s) in (s <| outbound := r |>, x).

(** *** Samples of drops *)

Definition dropSampleLess (a b : backpressureDropSampleKey * Z) : bool :=
  let ka := fst a in let kb := fst b in
  if negb (snd a =? snd b) then snd b <? snd a
  else if negb (str_eqb (drop_reason ka) (drop_reason kb)) then str_ltb (drop_reason ka) (drop_reason kb)
  else if negb (str_eqb (drop_channel ka) (drop_channel kb)) then str_ltb (drop_channel ka) (drop_channel kb)
  else str_ltb (drop_priority ka) (drop_priority kb).

Definition flushBackpressureDropSamples (force : bool) (s : SessionActor) : SessionActor :=
  if Z.of_nat (size (bpDropSamples s)) =? 0 then
    let s := s <| bpDropSampleWindow := 0 |> in
    if force then s <| bpDropSampleDrops := 0 |> else s
  else if negb force && (bpDropSampleWindow s <? sampleFlushEvery (bpStrategy s)) then s
  else
    let entries := sort_slice dropSampleLess (map_range (bpDropSamples s)) in
    let n := Z.of_nat (length entries) in
    let limit := sampleTopN (bpStrategy s) in
    let limit := if (limit <=? 0) || (n <? limit) then n else limit in
    let s := foldl (λ s e, happens (DropSample (fst e) (snd e) n (bpDropSampleDrops s)) s) s (take (Z.to_nat limit) entries) in
    s <| bpDropSamples := ∅ |> <| bpDropSampleDrops := 0 |> <| bpDropSampleWindow := 0 |>.

Definition recordBackpressureDropSample (reason channel priority : string) (s : SessionActor) : SessionActor :=
  let reason := normalizeDropReason reason in
  let channel := ToLower (TrimSpace channel) in
  let channel := if str_eqb channel "" then "unknown" else channel in
  let priority := ToLower (TrimSpace priority) in
  let priority := if str_eqb priority "" then "standard" else priority in
  let key := MkDropSample reason channel priority in
  let s := match bpDropSamples s !! key with
           | Some n => s <| bpDropSamples ::= <[key := n + 1]> |>
           | None =>
               if Z.of_nat (size (bpDropSamples s)) <? sampleMaxUnique (bpStrategy s)
               then s <| bpDropSamples ::= <[key := 1]> |>
               else s <| bpDropSampleDrops := bpDropSampleDrops s + 1 |>
           end in
  let s := s <| bpDropSampleWindow := bpDropSampleWindow s + 1 |> in
  if sampleFlushEvery (bpStrategy s) <=? bpDropSampleWindow s then flushBackpressureDropSamples false s else s.

(** *** Closing and reporting *)

Definition closeSession (s : SessionActor) : SessionActor :=
  if s_closed s then s else
  let s := flushBackpressureDropSamples true (s <| s_closed := true |>) in
  let s := if s_started s && hasRouter (s_cfg s) then
             let s := foldl (λ s sub, happens (Unsubscribed (subscr_Subject sub)) s) s (Subscriptions (s_session s)) in
             happens Unregistered s
           else s in
  if hasConn (s_cfg s) then happens ConnClosed s else s.

Definition writeJSON (f : wsErrorFrame) (s : SessionActor) : SessionActor :=
  if negb (hasConn (s_cfg s)) then s
  else if WriteJSON (trace s) f then happens (ErrorFrame f) s
  else closeSession s.

Definition writeProblem (op requestID : string) (p : Problem) (s : SessionActor) : SessionActor :=
  let '(errorCode, actionHint) := wsErrorMappingFromProblem p in
  writeJSON (MkErrorFrame op requestID (Code p) errorCode actionHint (Message p)) s.

(** *** Priorities *)

Definition isHighVolumeEventType (eventType : string) : bool := EqualFold (TrimSpace eventType) "marketdata.bookdelta".
Definition eventPriority (eventType : string) (s : SessionActor) : Z := default 0 (priorities s !! eventType).
Definition dropScore (eventType : string) (s : SessionActor) : Z :=
  let score := mul64 (eventPriority eventType s) 10 in
  if isHighVolumeEventType eventType then sub64 score 5 else score.
Definition dropPriorityLabel (evt : option DeliveryEvent) (s : SessionActor) : string :=
  match evt with
  | None => "control"
  | Some evt =>
      if isHighVolumeEventType (Type_ (ev_Env evt)) then "high_volume"
      else if 80 <=? eventPriority (Type_ (ev_Env evt)) s then "critical"
      else "standard"
  end.

(** *** Drops *)

(** The report to the client for the reasons that have one. *)
Definition reportDrop (reason : string) (s : SessionActor) : SessionActor :=
  if str_eqb reason backpressureDropReasonQueueFull || str_eqb reason backpressureDropReasonPriorityDropSelf then
    writeProblem "delivery" "" (withWSLimitProblemDetails (New Unavailable "outbound queue limit reached")
      wsLimitTypeOutboundQueue (actionHintForDrop reason)) s
  else if str_eqb reason backpressureDropReasonFrameTooLarge then
    writeProblem "delivery" "" (withWSLimitProblemDetails
      (Newf ValidationFailed "event exceeds max_frame_bytes (%d)" [AnyInt (MaxFrameBytes (s_cfg s))])
      wsLimitTypeMaxFrameBytes (actionHintForDrop reason)) s
  else s.

(** The result says whether the session was closed. *)
Definition onDrop (reason : string) (evt : option DeliveryEvent) (s : SessionActor) : SessionActor * bool :=
  let reason := normalizeDropReason reason in
  let s := reportDrop reason s in
  let priority := dropPriorityLabel evt s in
  let channel := match evt with
                 | Some e => channelName (channelEnumFromStreamType (StreamType (ev_Subject e))) (StreamType (ev_Subject e))
                 | None => "unknown"
                 end in
  let s := recordBackpressureDropSample reason channel priority s in
  let s := s <| dropCount := add64 (dropCount s) 1 |> in
  let threshold := SlowClientDropThreshold (s_cfg s) in
  if (threshold <=? 0) || (dropCount s <? threshold) then (s, false) else
  let disconnectReason := backpressureDropReasonSlowClientDisconnect in
  let s := recordBackpressureDropSample disconnectReason channel priority s in
  let s := writeProblem "delivery" "" (withWSLimitProblemDetails
             (New Unavailable "outbound queue limit reached; disconnecting slow client")
             wsLimitTypeOutboundQueue (actionHintForDrop disconnectReason)) s in
  (closeSession (flushBackpressureDropSamples true s), true).

Definition drop (reason : string) (evt : DeliveryEvent) : SessM bool := λ s,
  let '(s, closed) := onDrop reason (Some evt) s in (s, inr closed).

(** The scan of [priorityDrop] from position [i]: the first of the lowest scores
    below the incoming one. *)
Fixpoint lowestLoop (n : nat) (i lowestIdx lowestScore : Z) : SessM Z :=
  match n with
  | O => mret lowestIdx
  | S n =>
      evt ← onRing (At i);
      s ← recv;
      let score := dropScore (Type_ (ev_Env evt)) s in
      if score <? lowestScore then lowestLoop n (i + 1) i score else lowestLoop n (i + 1) lowestIdx lowestScore
  end.

Definition priorityDrop (evt : DeliveryEvent) : SessM bool :=
  s ← recv;
  if negb (IsFull (outbound s)) then onRing (PushBack evt) ;; mret true else
  let incomingScore := dropScore (Type_ (ev_Env evt)) s in
  lowestIdx ← lowestLoop (Z.to_nat (Len (outbound s))) 0 (-1) incomingScore;
  if lowestIdx <? 0 then mret false else
  onRing (RemoveAt lowestIdx) ;;
  onRing (PushBack evt) ;;
  mret true.

(** [if s.flushing { return }; s.flushing = true; s.engine.Send(s.self, sessionFlushOutbound{})] *)
Definition scheduleFlush : SessM unit :=
  s ← recv;
  if flushing s then mret tt else
  assign (λ s, happens FlushSelf (s <| flushing := true |>)).

Definition pushAndSchedule (evt : DeliveryEvent) : SessM unit :=
  onRing (PushBack evt) ;;
  assign (λ s, if queueHighWatermark s <? Len (outbound s) then s <| queueHighWatermark := Len (outbound s) |> else s) ;;
  scheduleFlush.

Definition enqueueDelivery (evt : DeliveryEvent) : SessM unit :=
  s ← recv;
  if IsFull (outbound s) then
    match policy s with
    | BackpressureDropNewest => drop backpressureDropReasonQueueFull evt ;; mret tt
    | BackpressureDropOldest =>
        onRing DropFront ;;
        closed ← drop backpressureDropReasonDropOldest evt;
        if (closed : bool) then mret tt else pushAndSchedule evt
    | BackpressurePriorityDrop =>
        kept ← priorityDrop evt;
        if negb kept then drop backpressureDropReasonPriorityDropSelf evt ;; mret tt
        else
          closed ← drop backpressureDropReasonPriorityDrop evt;
          if (closed : bool) then mret tt else scheduleFlush
    end
  else pushAndSchedule evt.

Definition enqueueAll (evts : list DeliveryEvent) : SessM unit := for_each evts enqueueDelivery.
End session_queue.
