(* ===== verification/SessionQueueSpec.v ===== *)
(** * SessionQueueSpec: which events a delivery session keeps under backpressure *)

From S2P Require Import Prelude GoRuntime Shared Envelope Delivery DeliveryRing SessionQueue.

Local Open Scope string_scope.
Local Open Scope list_scope.
Local Open Scope Z_scope.

Section queue_spec.
Context {GR : GoRuntime} {conn : SessionConn}.

(** ** What reporting a drop leaves alone *)

Definition core (s : SessionActor) := (s_cfg s, outbound s, flushing s, policy s, priorities s, dropCount s).

Lemma core_eq a b :
  core a = core b →
  s_cfg a = s_cfg b ∧ outbound a = outbound b ∧ flushing a = flushing b ∧ policy a = policy b ∧
  priorities a = priorities b ∧ dropCount a = dropCount b.
Proof. unfold core. by intros [= -> -> -> -> -> ->]. Qed.

Lemma core_foldl {B} (g : SessionActor → B → SessionActor) l : ∀ s, (∀ s b, core (g s b) = core s) → core (foldl g s l) = core s.
Proof. induction l as [|b l IH]; intros s H; cbn; [done|]. by rewrite IH, H. Qed.

Lemma core_flushSamples force s : core (flushBackpressureDropSamples force s) = core s.
Proof.
  unfold flushBackpressureDropSamples. destruct (_ =? 0); [by destruct force|]. destruct (_ && _); [done|].
  match goal with |- core (((foldl ?g ?x ?l) <| _ := _ |>) <| _ := _ |> <| _ := _ |>) = _ =>
    transitivity (core (foldl g x l)); [done|by apply core_foldl] end.
Qed.

Lemma core_sample reason channel priority s : core (recordBackpressureDropSample reason channel priority s) = core s.
Proof.
  unfold recordBackpressureDropSample. cbn zeta. match goal with |- context [bpDropSamples s !! ?k] => set (key := k) end.
  set (s1 := match bpDropSamples s !! key with Some _ => _ | None => _ end).
  assert (core s1 = core s) as <- by (subst s1; repeat case_match; done). case_match; [|done].
  by rewrite core_flushSamples.
Qed.

Lemma core_close s : core (closeSession s) = core s.
Proof.
  unfold closeSession. destruct (s_closed s); [done|]. cbn zeta.
  set (s1 := flushBackpressureDropSamples true (s <| s_closed := true |>)).
  assert (core s1 = core s) as H1 by (subst s1; by rewrite core_flushSamples). rewrite <- H1. clearbody s1.
  set (s2 := if s_started s1 && _ then _ else s1).
  assert (core s2 = core s1) as <-; [|by case_match].
  subst s2. case_match; [|done]. transitivity (core (foldl (λ s sub, happens (Unsubscribed (subscr_Subject sub)) s) s1 (Subscriptions (s_session s1)))); [done|].
  by apply core_foldl.
Qed.

Lemma core_writeProblem op id p s : core (writeProblem op id p s) = core s.
Proof.
  unfold writeProblem. destruct (wsErrorMappingFromProblem p). unfold writeJSON. repeat case_match; [done|done|apply core_close].
Qed.

Lemma core_reportDrop reason s : core (reportDrop reason s) = core s.
Proof. unfold reportDrop. repeat case_match; rewrite ?core_writeProblem; done. Qed.

(** A drop only counts; below the threshold the session goes on. *)
Lemma onDrop_core reason evt s :
  core (onDrop reason evt s).1 = core (s <| dropCount := add64 (dropCount s) 1 |>) ∧
  (SlowClientDropThreshold (s_cfg s) ≤ 0 ∨ add64 (dropCount s) 1 < SlowClientDropThreshold (s_cfg s) → (onDrop reason evt s).2 = false).
Proof.
  unfold onDrop. cbn zeta. set (reason' := normalizeDropReason reason).
  match goal with |- context [recordBackpressureDropSample reason' ?c ?p ?x] =>
    pose proof (core_sample reason' c p x) as H1; pose proof (core_reportDrop reason' s) as H2;
    set (s1 := recordBackpressureDropSample reason' c p x) in * end.
  rewrite H2 in H1. clearbody s1. unfold core in H1. injection H1 as E1 E2 E3 E4 E5 E6.
  set (s2 := s1 <| dropCount := add64 (dropCount s1) 1 |>).
  assert (core s2 = core (s <| dropCount := add64 (dropCount s) 1 |>)) as Hs2.
  { unfold core, s2. cbn. by rewrite E1, E2, E3, E4, E5, E6. }
  split.
  - match goal with |- core (if ?b then _ else _).1 = _ => destruct b end; cbn [fst]; [done|].
    by rewrite core_close, core_flushSamples, core_writeProblem, core_sample.
  - intros Hthr. unfold s2. cbn. rewrite E1, E6.
    destruct Hthr as [Hthr%Z.leb_le|Hthr%Z.ltb_lt]; rewrite Hthr; [done|by rewrite orb_true_r].
Qed.

(** ** The lowest score *)

Fixpoint lowest (score : DeliveryEvent → Z) (l : list DeliveryEvent) (i idx sc : Z) : Z :=
  match l with
  | [] => idx
  | e :: l => if score e <? sc then lowest score l (i + 1) i (score e) else lowest score l (i + 1) idx sc
  end.

Lemma lowest_spec score l : ∀ i idx sc,
  (lowest score l i idx sc = idx ∧ ∀ e, e ∈ l → sc ≤ score e) ∨
  ∃ k e, lowest score l i idx sc = i + Z.of_nat k ∧ l !! k = Some e ∧ score e < sc ∧ (∀ e', e' ∈ l → score e ≤ score e') ∧
    ∀ e', e' ∈ take k l → score e < score e'.
Proof.
  induction l as [|x l IH]; intros i idx sc; cbn [lowest].
  { left. split; [done|]. by intros e He%elem_of_nil. }
  destruct (Z.ltb_spec (score x) sc) as [Hlt|Hge].
  - right. destruct (IH (i + 1) i (score x)) as [[-> Hall]|(k & e & -> & Hk & Hs & Hall & Hfst)].
    + exists O, x. split_and!; [lia|done|done| |by intros e' He'%elem_of_nil]. intros e' [->|He']%elem_of_cons; [done|by apply Hall].
    + exists (S k), e. split_and!; [lia|done|lia| |]; intros e' [->|He']%elem_of_cons; [lia|by apply Hall|done|by apply Hfst].
  - destruct (IH (i + 1) idx sc) as [[-> Hall]|(k & e & -> & Hk & Hs & Hall & Hfst)].
    + left. split; [done|]. intros e' [->|He']%elem_of_cons; [lia|by apply Hall].
    + right. exists (S k), e. split_and!; [lia|done|lia| |]; intros e' [->|He']%elem_of_cons; [lia|by apply Hall|lia|by apply Hfst].
Qed.

Definition scoreIn (s : SessionActor) (e : DeliveryEvent) : Z := dropScore (Type_ (ev_Env e)) s.

Lemma outbound_eta (s : SessionActor) : s <| outbound := outbound s |> = s.
Proof. by destruct s. Qed.

Lemma onRing_run {A} (m : RingM A) s r x : m (outbound s) = (r, x) → onRing m s = (s <| outbound := r |>, x).
Proof. unfold onRing. by intros ->. Qed.

Lemma lowestLoop_run s l : holds (outbound s) l → ∀ n (i : nat) idx sc, (i + n = length l)%nat →
  lowestLoop n (Z.of_nat i) idx sc s = (s, inr (lowest (scoreIn s) (list.drop i l) (Z.of_nat i) idx sc)).
Proof.
  intros Hr. induction n as [|n IH]; intros i idx sc Hi; cbn [lowestLoop].
  { by rewrite drop_ge by lia. }
  destruct (lookup_lt_is_Some_2 l i ltac:(lia)) as [x Hx].
  rewrite (bind_run _ _ _ _ _ (onRing_run _ _ _ _ (At_run _ l i x Hr Hx))), outbound_eta, recv_run.
  rewrite (drop_S l x i Hx). cbn [lowest]. replace (Z.of_nat i + 1) with (Z.of_nat (S i)) by lia.
  change (dropScore (Type_ (ev_Env x)) s) with (scoreIn s x). destruct (_ <? _); apply IH; lia.
Qed.

(** ** What one event does to the queue *)

(** The queue after a priority drop, and whether the event was kept. *)
Definition afterPriority (score : DeliveryEvent → Z) (evt : DeliveryEvent) (l : list DeliveryEvent) : list DeliveryEvent * bool :=
  let i := lowest score l 0 (-1) (score evt) in
  if i <? 0 then (l, false) else (delete (Z.to_nat i) l ++ [evt], true).

Lemma priorityDrop_run s l evt :
  holds (outbound s) l → IsFull (outbound s) = true →
  ∃ r, priorityDrop evt s = (s <| outbound := r |>, inr (afterPriority (scoreIn s) evt l).2) ∧
    cap r = cap (outbound s) ∧ holds r (afterPriority (scoreIn s) evt l).1.
Proof.
  intros Hr Hfull. unfold priorityDrop. rewrite recv_run, Hfull. cbn [negb].
  pose proof (holds_count _ _ Hr) as Hn. pose proof (lowestLoop_run s l Hr (length l) 0 (-1) (scoreIn s evt) ltac:(lia)) as Hloop.
  rewrite drop_0 in Hloop. change (Z.of_nat 0) with 0 in Hloop. unfold Len. rewrite Hn, Nat2Z.id. rewrite (bind_run _ _ _ _ _ Hloop). unfold afterPriority.
  destruct (lowest_spec (scoreIn s) l 0 (-1) (scoreIn s evt)) as [[-> _]|(k & e & Hlow & Hk & _)].
  { exists (outbound s). rewrite outbound_eta. by split_and!. }
  rewrite Hlow, Z.add_0_l, (proj2 (Z.ltb_ge _ _)), Nat2Z.id by lia. cbn [fst snd].
  pose proof (lookup_lt_Some _ _ _ Hk). destruct (RemoveAt_run _ l k Hr ltac:(done)) as (r1 & Hrun1 & Hc1 & Hr1).
  rewrite (bind_run _ _ _ _ _ (onRing_run _ _ _ _ Hrun1)).
  destruct (PushBack_run r1 _ evt Hr1) as (r2 & Hrun2 & Hc2 & Hr2).
  { rewrite (holds_count _ _ Hr1), Hc1, length_delete by (by eexists). pose proof (holds_bound _ _ Hr). lia. }
  exists r2. split; [|split; [congruence|done]].
  assert (PushBack evt (outbound (s <| outbound := r1 |>)) = (r2, inr tt)) as Hrun3 by exact Hrun2.
  rewrite (bind_run _ _ _ _ _ (onRing_run _ _ _ _ Hrun3)). by destruct s.
Qed.

Lemma full_length r l : holds r l → IsFull r = bool_decide (length l = Z.to_nat (cap r)).
Proof.
  intros Hr. pose proof (holds_count _ _ Hr). pose proof (holds_bound _ _ Hr). pose proof (holds_cap _ _ Hr). unfold IsFull.
  apply eq_true_iff_eq. rewrite Z.leb_le, bool_decide_eq_true. lia.
Qed.

Lemma scheduleFlush_run s : ∃ s', scheduleFlush s = (s', inr tt) ∧ core s' = core (s <| flushing := true |>).
Proof.
  unfold scheduleFlush. rewrite recv_run. destruct (flushing s) eqn:Hf; eexists; (split; [done|]); [|done].
  unfold core. cbn. by rewrite Hf.
Qed.

Lemma pushAndSchedule_run s l evt :
  holds (outbound s) l → count (outbound s) < cap (outbound s) →
  ∃ s' r, pushAndSchedule evt s = (s', inr tt) ∧ core s' = core (s <| outbound := r |> <| flushing := true |>) ∧
    cap r = cap (outbound s) ∧ holds r (l ++ [evt]).
Proof.
  intros Hr Hlt. destruct (PushBack_run _ l evt Hr Hlt) as (r & Hrun & Hc & Hh). unfold pushAndSchedule.
  rewrite (bind_run _ _ _ _ _ (onRing_run _ _ _ _ Hrun)).
  rewrite assign_run. set (s1 := if _ <? _ then _ else _).
  assert (core s1 = core (s <| outbound := r |>)) as Hc1 by (subst s1; by case_match). clearbody s1.
  destruct (scheduleFlush_run s1) as (s2 & Hrun2 & Hc2). exists s2, r. split_and!; [done| |done|done].
  rewrite Hc2. unfold core in *. cbn in *. congruence.
Qed.

Lemma drop_run reason evt s : drop reason evt s = ((onDrop reason (Some evt) s).1, inr (onDrop reason (Some evt) s).2).
Proof. unfold drop. by destruct (onDrop reason (Some evt) s). Qed.

(** The queue after an event, by policy; [c] is the capacity. *)
Definition afterEvent (pol : BackpressurePolicy) (c : nat) (score : DeliveryEvent → Z) (evt : DeliveryEvent) (l : list DeliveryEvent)
    : list DeliveryEvent :=
  if decide (length l = c) then
    match pol with
    | BackpressureDropNewest => l
    | BackpressureDropOldest => tail l ++ [evt]
    | BackpressurePriorityDrop => (afterPriority score evt l).1
    end
  else l ++ [evt].

Lemma enqueueDelivery_run s l evt :
  holds (outbound s) l →
  (policy s = BackpressureDropOldest → length l = Z.to_nat (cap (outbound s)) →
   SlowClientDropThreshold (s_cfg s) ≤ 0 ∨ add64 (dropCount s) 1 < SlowClientDropThreshold (s_cfg s)) →
  let c := Z.to_nat (cap (outbound s)) in
  let l' := afterEvent (policy s) c (scoreIn s) evt l in
  ∃ s', enqueueDelivery evt s = (s', inr tt) ∧ holds (outbound s') l' ∧ cap (outbound s') = cap (outbound s) ∧
    (s_cfg s', policy s', priorities s') = (s_cfg s, policy s, priorities s) ∧
    dropCount s' = (if decide (length l = c) then add64 (dropCount s) 1 else dropCount s) ∧
    ((l ≠ [] → flushing s = true) → l' ≠ [] → flushing s' = true).
Proof.
  intros Hr Hthr c l'. pose proof (holds_cap _ _ Hr) as Hcap. unfold enqueueDelivery. rewrite recv_run, (full_length _ l Hr).
  fold c. subst l'. unfold afterEvent. destruct (decide (length l = c)) as [Hfull|Hfull].
  2:{ rewrite bool_decide_eq_false_2 by done. pose proof (holds_bound _ _ Hr). pose proof (holds_count _ _ Hr).
      destruct (pushAndSchedule_run s l evt Hr) as (s' & r & Hrun & Hc & Hcr & Hh); [unfold c in *; lia|].
      apply core_eq in Hc as (E1 & E2 & E3 & E4 & E5 & E6). cbn in E1, E2, E3, E4, E5, E6. exists s'.
      split_and!; [done|by rewrite E2|by rewrite E2|congruence|done|done]. }
  rewrite bool_decide_eq_true_2 by done. assert (l ≠ []) as Hne by (intros ->; cbn in Hfull; lia).
  destruct (policy s) eqn:Hpol.
  - rewrite (bind_run _ _ _ _ _ (drop_run _ _ _)). destruct (onDrop_core backpressureDropReasonQueueFull (Some evt) s) as [Hc _].
    apply core_eq in Hc as (E1 & E2 & E3 & E4 & E5 & E6). cbn in E1, E2, E3, E4, E5, E6. eexists. split; [done|].
    split_and!; [by rewrite E2|by rewrite E2|cbn in *; congruence|done|]. intros Hf _. rewrite E3. by apply Hf.
  - destruct l as [|x l]; [done|]. destruct (DropFront_run _ x l Hr) as (r & Hrun & Hcr & Hh).
    rewrite (bind_run _ _ _ _ _ (onRing_run _ _ _ _ Hrun)), (bind_run _ _ _ _ _ (drop_run _ _ _)).
    destruct (onDrop_core backpressureDropReasonDropOldest (Some evt) (s <| outbound := r |>)) as [Hc Hclosed].
    rewrite (Hclosed (Hthr eq_refl Hfull)). set (s1 := (onDrop _ _ _).1) in *. clearbody s1. apply core_eq in Hc as (E1 & E2 & E3 & E4 & E5 & E6). cbn in E1, E2, E3, E4, E5, E6.
    destruct (pushAndSchedule_run s1 l evt) as (s' & r2 & Hrun2 & Hc2 & Hcr2 & Hh2).
    { by rewrite E2. }
    { rewrite E2, (holds_count _ _ Hh), Hcr. cbn in Hfull. unfold c in Hfull. lia. }
    apply core_eq in Hc2 as (F1 & F2 & F3 & F4 & F5 & F6). cbn in F1, F2, F3, F4, F5, F6. exists s'.
    split_and!; [done|by rewrite F2|rewrite F2, Hcr2, E2; done|congruence|congruence|done].
  - destruct (priorityDrop_run s l evt Hr) as (r & Hrun & Hcr & Hh).
    { rewrite (full_length _ l Hr). by apply bool_decide_eq_true_2. }
    rewrite (bind_run _ _ _ _ _ Hrun). destruct (afterPriority (scoreIn s) evt l).2 eqn:Hkept; cbn [negb].
    + rewrite (bind_run _ _ _ _ _ (drop_run _ _ _)).
      destruct (onDrop_core backpressureDropReasonPriorityDrop (Some evt) (s <| outbound := r |>)) as [Hc _].
      set (s1 := (onDrop _ _ _).1) in *. set (closed := (onDrop _ _ _).2). clearbody s1 closed. apply core_eq in Hc as (E1 & E2 & E3 & E4 & E5 & E6). cbn in E1, E2, E3, E4, E5, E6. destruct closed.
      * exists s1. split_and!; [done|by rewrite E2|by rewrite E2|congruence|done|]. intros Hf _. rewrite E3. by apply Hf.
      * destruct (scheduleFlush_run s1) as (s2 & Hrun2 & Hc2). apply core_eq in Hc2 as (F1 & F2 & F3 & F4 & F5 & F6). cbn in F1, F2, F3, F4, F5, F6.
        exists s2. split_and!; [done|by rewrite F2, E2|by rewrite F2, E2|congruence|congruence|done].
    + rewrite (bind_run _ _ _ _ _ (drop_run _ _ _)).
      destruct (onDrop_core backpressureDropReasonPriorityDropSelf (Some evt) (s <| outbound := r |>)) as [Hc _].
      apply core_eq in Hc as (E1 & E2 & E3 & E4 & E5 & E6). cbn in E1, E2, E3, E4, E5, E6. eexists. split; [done|].
      split_and!; [by rewrite E2|by rewrite E2|congruence|done|]. intros Hf _. rewrite E3. by apply Hf.
Qed.

(** ** The queue after a history of events *)

(** The score of an event under given priorities. *)
Definition scoreOf (prios : gmap string Z) (e : DeliveryEvent) : Z :=
  let score := mul64 (default 0 (prios !! Type_ (ev_Env e))) 10 in
  if isHighVolumeEventType (Type_ (ev_Env e)) then sub64 score 5 else score.

(** [l] is what a queue of capacity [c] keeps of [evts]. *)
Definition keptBy (pol : BackpressurePolicy) (c : nat) (score : DeliveryEvent → Z) (evts l : list DeliveryEvent) : Prop :=
  match pol with
  | BackpressureDropNewest => l = take c evts
  | BackpressureDropOldest => l = list.drop (length evts - c) evts
  | BackpressurePriorityDrop =>
      ∃ dropped, evts ≡ₚ l ++ dropped ∧ ∀ d e, d ∈ dropped → e ∈ l → score d ≤ score e
  end.
(** What priority_drop makes of a queue of capacity [c] at one event: there is room;
    or no queued event scores below the new one, which is given up; or the first of
    those that score lowest, below the new one, is given up for it. *)
Inductive yields (c : nat) (score : DeliveryEvent → Z) (evt : DeliveryEvent) : list DeliveryEvent → list DeliveryEvent → Prop :=
  | yields_room l : (length l < c)%nat → yields c score evt l (l ++ [evt])
  | yields_self l : length l = c → (∀ e, e ∈ l → score evt ≤ score e) → yields c score evt l l
  | yields_victim l1 v l2 :
      length (l1 ++ v :: l2) = c → score v < score evt →
      (∀ e, e ∈ l1 → score v < score e) → (∀ e, e ∈ l2 → score v ≤ score e) →
      yields c score evt (l1 ++ v :: l2) (l1 ++ l2 ++ [evt]).
Inductive prioritised (c : nat) (score : DeliveryEvent → Z) (l0 : list DeliveryEvent) : list DeliveryEvent → list DeliveryEvent → Prop :=
  | prioritised_none : prioritised c score l0 [] l0
  | prioritised_event evts evt l l' :
      prioritised c score l0 evts l → yields c score evt l l' → prioritised c score l0 (evts ++ [evt]) l'.

Lemma afterEvent_yields c score evt l :
  (length l ≤ c)%nat → yields c score evt l (afterEvent BackpressurePriorityDrop c score evt l).
Proof.
  intros Hle. unfold afterEvent. destruct (decide (length l = c)) as [Hfull|]; [|apply yields_room; lia]. unfold afterPriority.
  destruct (lowest_spec score l 0 (-1) (score evt)) as [[-> Hmin]|(k & e & -> & Hk & Hlt & Hmin & Hfst)]; [by apply yields_self|].
  rewrite Z.add_0_l, (proj2 (Z.ltb_ge _ _)), Nat2Z.id by lia. cbn [fst].
  rewrite delete_take_drop, <- app_assoc. rewrite <- (take_drop_middle l k e Hk) at 1.
  apply yields_victim; [by rewrite (take_drop_middle l k e Hk)|done|done|].
  intros x Hx. apply Hmin. rewrite <- (take_drop_middle l k e Hk). set_solver.
Qed.

Record kept (pol : BackpressurePolicy) (c : nat) (score : DeliveryEvent → Z) (evts l : list DeliveryEvent) : Prop := {
  kept_length : length l = Nat.min c (length evts);
  kept_order : l `sublist_of` evts;
  kept_policy : keptBy pol c score evts l;
}.

Lemma afterPriority_kept c score evts evt l :
  length l = c → kept BackpressurePriorityDrop c score evts l →
  kept BackpressurePriorityDrop c score (evts ++ [evt]) (afterPriority score evt l).1.
Proof.
  intros Hfull [Hlen Hord (dropped & Hperm & Hle)]. unfold afterPriority.
  destruct (lowest_spec score l 0 (-1) (score evt)) as [[-> Hmin]|(k & e & -> & Hk & Hlt & Hmin & _)].
  - cbn. split; [rewrite length_app; cbn; lia|by apply sublist_inserts_r|]. exists (dropped ++ [evt]). split; [by rewrite Hperm, app_assoc|].
    intros d e [Hd|Hd]%elem_of_app He; [by apply Hle|]. apply list_elem_of_singleton in Hd as ->. by apply Hmin.
  - rewrite Z.add_0_l, (proj2 (Z.ltb_ge _ _)), Nat2Z.id by lia. cbn [fst].
    pose proof (delete_Permutation l k e Hk) as Hdel. pose proof (lookup_lt_Some _ _ _ Hk).
    assert (length (delete k l) = length l - 1)%nat as Hdl by (apply length_delete; by eexists).
    split; [rewrite !length_app; cbn; lia|apply sublist_app; [|done]; etrans; [apply sublist_delete|done]|].
    exists (dropped ++ [e]). split.
    { rewrite Hperm. revert Hdel. generalize (delete k l). intros d ->. cbn [app].
      rewrite <- !app_assoc, (Permutation_app_comm dropped [evt]), Permutation_cons_append. by rewrite <- !app_assoc. }
    assert (e ∈ l) as Hin by (by eapply list_elem_of_lookup_2).
    intros d x Hd Hx. assert (score e ≤ score x) as Hex.
    { apply elem_of_app in Hx as [Hx|Hx]; [|apply list_elem_of_singleton in Hx as ->; lia].
      apply Hmin. rewrite Hdel. by right. }
    apply elem_of_app in Hd as [Hd|Hd]; [|by apply list_elem_of_singleton in Hd as ->]. pose proof (Hle d e Hd Hin). lia.
Qed.

Lemma afterEvent_kept pol c score evts evt l :
  (0 < c)%nat → kept pol c score evts l → kept pol c score (evts ++ [evt]) (afterEvent pol c score evt l).
Proof.
  intros Hc Hk. pose proof Hk as [Hlen Hord Hpol]. unfold afterEvent. destruct (decide (length l = c)) as [Hfull|Hfull].
  - destruct pol; cbn in Hpol.
    + split; [rewrite length_app; lia|by apply sublist_inserts_r|]. cbn. by rewrite take_app_le by lia.
    + assert (length l = S (length l - 1)) as Hsz by lia. destruct l as [|x l]; [cbn in *; lia|]. cbn [tail].
      split; [rewrite !length_app; cbn in *; lia|apply sublist_app; [|done]; etrans; [by apply sublist_cons|done]|]. cbn.
      rewrite length_app. cbn in *. rewrite drop_app_le by lia. f_equal.
      replace (length evts + 1 - c)%nat with (length evts - c + 1)%nat by lia. rewrite <- drop_drop, <- Hpol. done.
    + by apply afterPriority_kept.
  - assert (length l = length evts) as Hall by lia.
    split; [rewrite !length_app; cbn; lia|by apply sublist_app|]. destruct pol; cbn in *.
    + rewrite take_ge in Hpol by lia. subst l. rewrite take_ge; [done|rewrite length_app; cbn; lia].
    + rewrite length_app. cbn. replace (length evts - c)%nat with O in Hpol by lia. rewrite drop_0 in Hpol. subst l.
      replace (length evts + 1 - c)%nat with O by lia. done.
    + destruct Hpol as (dropped & Hperm & _). assert (dropped = []) as ->.
      { apply Permutation_length in Hperm. rewrite length_app in Hperm. apply length_zero_iff_nil. lia. }
      exists []. rewrite !app_nil_r in *. split; [by rewrite Hperm|]. by intros d e Hd%elem_of_nil.
Qed.

(** The state of a session whose queue was [l0], after [evts]. *)
Record queued (s0 : SessionActor) (l0 evts : list DeliveryEvent) (s : SessionActor) (l : list DeliveryEvent) : Prop := {
  q_holds : holds (outbound s) l;
  q_cap : cap (outbound s) = cap (outbound s0);
  q_config : (s_cfg s, policy s, priorities s) = (s_cfg s0, policy s0, priorities s0);
  q_kept : kept (policy s0) (Z.to_nat (cap (outbound s0))) (scoreOf (priorities s0)) (l0 ++ evts) l;
  q_prio : policy s0 = BackpressurePriorityDrop → prioritised (Z.to_nat (cap (outbound s0))) (scoreOf (priorities s0)) l0 evts l;
  q_drops : dropCount s = wrap64 (dropCount s0 + Z.of_nat (length (l0 ++ evts) - length l));
  q_flush : l ≠ [] → flushing s = true;
}.

(** The slow client is not disconnected on the way: under drop_oldest the number of
    drops stays below a threshold that is set. *)
Definition staysConnected (s0 : SessionActor) (n : nat) : Prop :=
  policy s0 = BackpressureDropOldest →
  SlowClientDropThreshold (s_cfg s0) ≤ 0 ∨
  dropCount s0 + Z.of_nat (n - Z.to_nat (cap (outbound s0))) < SlowClientDropThreshold (s_cfg s0).

Lemma wrap64_below x thr : MinInt64 ≤ x → x < thr → wrap64 x < thr.
Proof.
  intros Hlo Hlt. destruct (Z.le_gt_cases x MaxInt64) as [Hhi|Hhi]; [by rewrite wrap64_id|].
  pose proof (wrap64_range x) as Hr. unfold in_i64 in Hr. lia.
Qed.

Lemma enqueueDelivery_queued s0 l0 evts s l evt :
  MinInt64 ≤ dropCount s0 → staysConnected s0 (length (l0 ++ evts ++ [evt])) → queued s0 l0 evts s l →
  ∃ s' l', enqueueDelivery evt s = (s', inr tt) ∧ queued s0 l0 (evts ++ [evt]) s' l'.
Proof.
  intros Hlo Hthr [Hr Hcap [= Hcfg Hpol Hpri] Hk Hp Hd Hf]. pose proof (holds_cap _ _ Hr).
  pose proof (kept_length _ _ _ _ _ Hk) as Hlen. pose proof (holds_bound _ _ Hr) as Hb. pose proof (holds_count _ _ Hr) as Hn.
  destruct (enqueueDelivery_run s l evt Hr) as (s' & Hrun & Hr' & Hcap' & Hcfg' & Hd' & Hf').
  { rewrite Hpol, Hcfg, Hcap, Hd. intros Ho Hfull. destruct (Hthr Ho) as [|Hlt]; [by left|right].
    rewrite wrap64_add_l. rewrite !length_app in *. cbn [length] in Hlt. apply wrap64_below; lia. }
  change (scoreIn s) with (scoreOf (priorities s)) in *. rewrite Hcap, Hpol, Hpri in *.
  exists s', (afterEvent (policy s0) (Z.to_nat (cap (outbound s0))) (scoreOf (priorities s0)) evt l). split; [done|].
  pose proof (afterEvent_kept _ (Z.to_nat (cap (outbound s0))) _ (l0 ++ evts) evt l ltac:(lia) Hk) as Hk'. rewrite <- app_assoc in Hk'.
  split; [done|congruence|congruence|done| | |by apply Hf'].
  - intros Ho. eapply prioritised_event; [by apply Hp|]. rewrite Ho. apply afterEvent_yields. lia.
  - rewrite Hd'. rewrite (kept_length _ _ _ _ _ Hk'), Hlen in *. rewrite !length_app in *. cbn [length].
    rewrite Hd. case_decide as Hfull; [rewrite wrap64_add_l|]; f_equal; lia.
Qed.

Lemma staysConnected_mono s0 n n' : (n ≤ n')%nat → staysConnected s0 n' → staysConnected s0 n.
Proof. intros Hn Hs Ho. destruct (Hs Ho); [by left|right; lia]. Qed.

Lemma enqueueAll_queued s0 l0 evts : ∀ evts0 s l,
  MinInt64 ≤ dropCount s0 → staysConnected s0 (length (l0 ++ evts0 ++ evts)) → queued s0 l0 evts0 s l →
  ∃ s' l', enqueueAll evts s = (s', inr tt) ∧ queued s0 l0 (evts0 ++ evts) s' l'.
Proof.
  induction evts as [|evt evts IH]; intros evts0 s l Hlo Hthr Hq; [exists s, l; by rewrite app_nil_r|].
  destruct (enqueueDelivery_queued s0 l0 evts0 s l evt Hlo) as (s1 & l1 & Hrun & Hq1); [|done|].
  { eapply staysConnected_mono; [|exact Hthr]. rewrite !length_app. cbn. lia. }
  unfold enqueueAll. cbn [for_each]. rewrite (bind_run _ _ _ _ _ Hrun).
  rewrite (app_assoc evts0 [evt] evts : evts0 ++ evt :: evts = (evts0 ++ [evt]) ++ evts) in *. by apply (IH _ s1 l1).
Qed.

(** A new session, and what its queue holds. *)
Lemma new_session_queue cfg uuid size raw overrides :
  let s0 := newSessionActor cfg uuid size raw overrides in
  holds (outbound s0) [] ∧ cap (outbound s0) = (if size <=? 0 then 256 else size) ∧ dropCount s0 = 0.
Proof. intros s0. split_and!; [apply holds_new|done|done]. Qed.

(** C34: under backpressure a session keeps what its policy says, and nothing
    panics. From any state of a session, whose queue of capacity [c] holds [l0], the
    events that arrive until the next flush leave in the queue as many of [l0] and
    of them as fit, in the order they came: the first ones under drop_newest; the
    last ones under drop_oldest, as long as the client is not disconnected as slow
    (the drops stay below the threshold, or none is set); and under priority_drop what
    is left when, at each event that finds the queue full, the first of the queued
    events of lowest score is given up for it if it scores below it, and otherwise
    the event itself: so no event given up scores higher than one kept. Every event
    given up is counted, and a non-empty queue has a flush under way. *)
Theorem queue_keeps_by_policy s0 l0 evts :
  let c := Z.to_nat (cap (outbound s0)) in
  let score := scoreOf (priorities s0) in
  holds (outbound s0) l0 → (l0 ≠ [] → flushing s0 = true) → in_i64 (dropCount s0) →
  staysConnected s0 (length (l0 ++ evts)) →
  ∃ s l, enqueueAll evts s0 = (s, inr tt) ∧ holds (outbound s) l ∧
    kept (policy s0) c score (l0 ++ evts) l ∧ (policy s0 = BackpressurePriorityDrop → prioritised c score l0 evts l) ∧
    dropCount s = wrap64 (dropCount s0 + Z.of_nat (length (l0 ++ evts) - length l)) ∧ (l ≠ [] → flushing s = true).
Proof.
  intros c score Hr Hf Hd Hthr. assert (queued s0 l0 [] s0 l0) as Hq.
  { assert (length l0 ≤ c)%nat as Hle.
    { pose proof (holds_bound _ _ Hr). pose proof (holds_count _ _ Hr). unfold c. lia. }
    split; [done|done|done| |constructor| |done]; rewrite app_nil_r; [|by rewrite Nat.sub_diag, Z.add_0_r, wrap64_id].
    split; [lia|done|]. unfold keptBy. destruct (policy s0); [by rewrite take_ge|by replace (length l0 - _)%nat with O by (fold c; lia)|].
    exists []. rewrite app_nil_r. split; [done|]. by intros d e Hdr%elem_of_nil. }
  destruct (enqueueAll_queued s0 l0 evts [] s0 l0 (proj1 Hd) Hthr Hq) as (s & l & Hrun & [H1 _ _ H4 H5 H6 H7]). exists s, l.
  split_and!; [done|done|exact H4|exact H5|done|done].
Qed.
End queue_spec.

(** A connection that always accepts. *)
Definition goodConn : SessionConn := {| WriteJSON := λ _ _, true |}.
Definition w_typed (type : string) (seq : Z) : DeliveryEvent :=
  zeroEvent <| ev_Env ::= λ e, e <| Type_ := type |> <| Seq := seq |> |>.

Definition w_session : SessionActor :=
  newSessionActor (GR:=go_amd64) (MkSessionConfig true true 1000 65536) "u" 2 "priority_drop" ∅.
Definition w_arrivals : list DeliveryEvent :=
  [w_typed "marketdata.bookdelta" 1; w_typed "marketdata.trade" 2; w_typed "insights.tpo_profile" 3; w_typed "marketdata.trade" 4].

Lemma queue_keeps_by_policy_witness :
  observed (λ s _, (λ e, Seq (ev_Env e)) <$> buf (outbound s)) (enqueueAll (GR:=go_amd64) (conn:=goodConn) w_arrivals w_session)
    = Some [4; 2] ∧
  ∃ s l, enqueueAll (GR:=go_amd64) (conn:=goodConn) w_arrivals w_session = (s, inr tt) ∧ holds (outbound s) l ∧
    prioritised 2 (scoreOf (GR:=go_amd64) (priorities w_session)) [] w_arrivals l ∧ dropCount s = 2.
Proof.
  split; [vm_compute; reflexivity|].
  destruct (queue_keeps_by_policy (GR:=go_amd64) (conn:=goodConn) w_session [] w_arrivals) as (s & l & Hrun & Hh & Hk & Hp & Hd & _).
  - apply (new_session_queue (GR:=go_amd64)).
  - done.
  - unfold in_i64, MinInt64, MaxInt64. cbn. lia.
  - discriminate.
  - exists s, l. split; [exact Hrun|]. split; [exact Hh|]. split; [exact (Hp eq_refl)|].
    rewrite Hd, (kept_length _ _ _ _ _ Hk). reflexivity.
Defined.
