(* ===== verification/PolicyKit.v ===== *)
(** * PolicyKit: internal/shared/policykit

    The overload policy: the category of an event (category_resolver.go), the
    overload level with hysteresis (threshold_engine.go) and what is dropped,
    thinned out or compressed at each level (guard.go, applier.go).

    A level is an [int]; the mutex of the applier makes each count atomic. *)

From S2P Require Import Prelude GoRuntime Shared Envelope.
From Stdlib Require Import Ascii.

Local Open Scope string_scope.
Local Open Scope list_scope.
Local Open Scope Z_scope.

(** ** types.go *)

Definition L0 : Z := 0.
Definition L1 : Z := 1.
Definition L2 : Z := 2.
Definition L3 : Z := 3.

Record Signals := MkSignals {
  QueueDepth : Z;
  QueueCapacity : Z;
  Backlog : Z;
  BacklogCap : Z;
  Occupancy : Z;
  Limit : Z;
  ProcessingLatencyMs : float64;
}.

Inductive ActionType := ActionDropDelta | ActionDegradeStride | ActionCompressSnapshot.
#[export] Instance ActionType_eq_dec : EqDecision ActionType.
Proof. solve_decision. Defined.
Record Action := MkAction { act_Type : ActionType; act_Stride : Z }.
Record Decision := MkDecision { dec_Level : Z; dec_Actions : list Action }.

Fixpoint hasAction (kind : ActionType) (actions : list Action) : bool :=
  match actions with
  | [] => false
  | a :: rest => if bool_decide (act_Type a = kind) then true else hasAction kind rest
  end.
Definition HasAction (d : Decision) (kind : ActionType) : bool := hasAction kind (dec_Actions d).

Definition DegradeStride (d : Decision) : Z :=
  foldl (λ stride a,
    if negb (bool_decide (act_Type a = ActionDegradeStride)) then stride
    else if stride <? act_Stride a then act_Stride a else stride) 1 (dec_Actions d).

(** ** category_resolver.go *)

Inductive Category := CategoryUnknown | CategoryDelta | CategorySnapshot | CategoryCloseFinal | CategoryTelemetry.
#[export] Instance Category_eq_dec : EqDecision Category.
Proof. solve_decision. Defined.

Record CategoryResolver := MkResolver { bySubject : gmap string Category; byEventType : gmap string Category }.

Definition NewCategoryResolver : CategoryResolver := MkResolver ∅ (list_to_map
  [("marketdata.bookdelta", CategoryDelta); ("insights.heatmap_delta", CategoryDelta);
   ("insights.volume_profile_delta", CategoryDelta); ("insights.heatmap_snapshot", CategorySnapshot);
   ("insights.volume_profile_snapshot", CategorySnapshot); ("insights.crossvenue.trade_snapshot", CategorySnapshot);
   ("aggregation.snapshot", CategorySnapshot); ("marketdata.telemetry", CategoryTelemetry);
   ("runtime.telemetry", CategoryTelemetry); ("insights.volume_profile_window_close", CategoryCloseFinal);
   ("insights.volume_profile_final", CategoryCloseFinal)]).

(** [versionTokenPattern]: ^v[0-9]+$ *)
Definition isVersionToken (s : string) : bool :=
  match s with
  | String "v"%char (String d s') =>
      str_forallb (λ c, let n := N_of_ascii c in (48 <=? n)%N && (n <=? 57)%N) (String d s')
  | _ => false
  end.

(** The parts before the first version token, if there is one. *)
Fixpoint beforeVersion (parts : list string) : option (list string) :=
  match parts with
  | [] => None
  | p :: rest => if isVersionToken p then Some [] else cons p <$> beforeVersion rest
  end.

Definition eventTypeFromSubject (subject : string) : string :=
  let head := default "" (head (Split "/"%char subject)) in
  match beforeVersion (Split "."%char head) with
  | Some parts => Join parts "."
  | None => head
  end.

Definition inferCategory (eventType : string) : Category :=
  if Contains eventType ".close" || Contains eventType ".final" || HasSuffix eventType "_close" ||
     HasSuffix eventType "_final" || Contains eventType "window_close" then CategoryCloseFinal
  else if Contains eventType "telemetry" then CategoryTelemetry
  else if Contains eventType ".snapshot" || HasSuffix eventType "_snapshot" then CategorySnapshot
  else if Contains eventType ".delta" || HasSuffix eventType "_delta" || HasSuffix eventType "bookdelta" then CategoryDelta
  else CategoryUnknown.

Section policykit.
Context {GR : GoRuntime}.

(** The copies share nothing with the original. *)
Definition WithSubject (subject : string) (category : Category) (r : CategoryResolver) : CategoryResolver :=
  MkResolver (<[ToLower (TrimSpace subject) := category]> (bySubject r)) (byEventType r).
Definition WithEventType (eventType : string) (category : Category) (r : CategoryResolver) : CategoryResolver :=
  MkResolver (bySubject r) (<[ToLower (TrimSpace eventType) := category]> (byEventType r)).

Definition ResolveSubject (subject : string) (r : CategoryResolver) : Category :=
  let normalized := ToLower (TrimSpace subject) in
  if str_eqb normalized "" then CategoryUnknown else
  match bySubject r !! normalized with
  | Some cat => cat
  | None =>
      let eventType := eventTypeFromSubject normalized in
      match byEventType r !! eventType with
      | Some cat => cat
      | None => inferCategory eventType
      end
  end.

(** ** threshold_engine.go *)

Record Threshold := MkThreshold {
  QueueRatio : float64;
  BacklogRatio : float64;
  MapRatio : float64;
  LatencyMs : float64;
}.

Record ThresholdConfig := MkThresholdConfig {
  EnterL1 : Threshold;
  EnterL2 : Threshold;
  EnterL3 : Threshold;
  RecoverL1 : Threshold;
  RecoverL2 : Threshold;
  RecoverL3 : Threshold;
  L2Stride : Z;
  L3Stride : Z;
}.

Definition DefaultThresholdConfig : ThresholdConfig := MkThresholdConfig
  (MkThreshold (flit 60 100) (flit 60 100) (flit 70 100) (f_of_Z 20))
  (MkThreshold (flit 80 100) (flit 80 100) (flit 85 100) (f_of_Z 40))
  (MkThreshold (flit 92 100) (flit 92 100) (flit 95 100) (f_of_Z 80))
  (MkThreshold (flit 50 100) (flit 50 100) (flit 60 100) (f_of_Z 15))
  (MkThreshold (flit 70 100) (flit 70 100) (flit 80 100) (f_of_Z 30))
  (MkThreshold (flit 85 100) (flit 85 100) (flit 90 100) (f_of_Z 60))
  2 4.

Definition NewThresholdEngine (cfg : ThresholdConfig) : ThresholdConfig :=
  MkThresholdConfig (EnterL1 cfg) (EnterL2 cfg) (EnterL3 cfg) (RecoverL1 cfg) (RecoverL2 cfg) (RecoverL3 cfg)
    (if L2Stride cfg <=? 1 then 2 else L2Stride cfg) (if L3Stride cfg <=? 1 then 4 else L3Stride cfg).

Definition ratio (current capacity : Z) : float64 :=
  if (capacity <=? 0) || (current <=? 0) then f0 else fdiv (f_of_Z current) (f_of_Z capacity).

Definition meetsEnter (s : Signals) (t : Threshold) : bool :=
  fgeb (ratio (QueueDepth s) (QueueCapacity s)) (QueueRatio t) || fgeb (ratio (Backlog s) (BacklogCap s)) (BacklogRatio t) ||
  fgeb (ratio (Occupancy s) (Limit s)) (MapRatio t) || fgeb (ProcessingLatencyMs s) (LatencyMs t).
Definition meetsRecover (s : Signals) (t : Threshold) : bool :=
  fltb (ratio (QueueDepth s) (QueueCapacity s)) (QueueRatio t) && fltb (ratio (Backlog s) (BacklogCap s)) (BacklogRatio t) &&
  fltb (ratio (Occupancy s) (Limit s)) (MapRatio t) && fltb (ProcessingLatencyMs s) (LatencyMs t).

Definition classify (cfg : ThresholdConfig) (s : Signals) : Z :=
  if meetsEnter s (EnterL3 cfg) then L3
  else if meetsEnter s (EnterL2 cfg) then L2
  else if meetsEnter s (EnterL1 cfg) then L1
  else L0.

Definition nextLevel (cfg : ThresholdConfig) (prev : Z) (s : Signals) : Z :=
  let severity := classify cfg s in
  if prev =? L0 then severity
  else if prev =? L1 then
    if L2 <=? severity then severity
    else if meetsRecover s (RecoverL1 cfg) then L0 else L1
  else if prev =? L2 then
    if severity =? L3 then L3
    else if meetsRecover s (RecoverL2 cfg) then L1 else L2
  else if meetsRecover s (RecoverL3 cfg) then L2 else L3.

Definition actionsFor (cfg : ThresholdConfig) (level : Z) : list Action :=
  if level =? L1 then [MkAction ActionCompressSnapshot 0]
  else if level =? L2 then [MkAction ActionCompressSnapshot 0; MkAction ActionDegradeStride (L2Stride cfg)]
  else if level =? L3 then
    [MkAction ActionCompressSnapshot 0; MkAction ActionDegradeStride (L3Stride cfg); MkAction ActionDropDelta 0]
  else [].

Definition Decide (cfg : ThresholdConfig) (prev : Z) (s : Signals) : Decision :=
  let level := nextLevel cfg prev s in MkDecision level (actionsFor cfg level).

(** ** guard.go and applier.go *)

Definition DropAllowed (category : Category) (d : Decision) : bool :=
  if negb (HasAction d ActionDropDelta) then false
  else if bool_decide (category = CategoryCloseFinal) then false
  else bool_decide (category = CategoryDelta).
Definition shouldDrop (d : Decision) (category : Category) : bool := DropAllowed category d.

(** The hooks: a nil function is [None]. *)
Record ApplyHooks := MkHooks {
  hook_Resolver : CategoryResolver;
  hook_PartitionKey : option (Envelope → string);
  hook_CompressSnapshot : option (Envelope → Envelope * bool);
}.

Record Applier := MkApplier { counters : gmap string Z; app_resolver : CategoryResolver }.
#[export] Instance Applier_eta : Eta Applier := λ a, MkApplier (counters a) (app_resolver a).
Definition NewApplier (resolver : CategoryResolver) : Applier := MkApplier ∅ resolver.

Definition defaultPartitionKey (env : Envelope) : string :=
  (Type_ env ++ "|" ++ Venue env ++ "|" ++ Instrument env)%string.
Definition resolvePartitionKey (hooks : ApplyHooks) : Envelope → string :=
  match hook_PartitionKey hooks with Some f => f | None => defaultPartitionKey end.

(** The stride, if events are thinned out. *)
Definition resolveStride (d : Decision) : option Z :=
  let stride := DegradeStride d in if stride <=? 1 then None else Some stride.

Definition nonEmpty (r : CategoryResolver) : bool :=
  negb (Z.of_nat (size (bySubject r)) =? 0) || negb (Z.of_nat (size (byEventType r)) =? 0).
Definition resolveResolver (hooks : ApplyHooks) (a : Applier) : CategoryResolver :=
  if nonEmpty (hook_Resolver hooks) then hook_Resolver hooks
  else if nonEmpty (app_resolver a) then app_resolver a
  else NewCategoryResolver.

Definition nextCount (partition : string) (a : Applier) : Applier * Z :=
  let n := wrapu64 (default 0 (counters a !! partition) + 1) in
  (a <| counters ::= <[partition := n]> |>, n).

Definition compressed (d : Decision) (category : Category) (hooks : ApplyHooks) (env : Envelope) : Envelope :=
  if HasAction d ActionCompressSnapshot && bool_decide (category = CategorySnapshot) then
    match hook_CompressSnapshot hooks with
    | Some f => let '(c, ok) := f env in if (ok : bool) then c else env
    | None => env
    end
  else env.

Definition applySingleResolved (d : Decision) (env : Envelope) (hooks : ApplyHooks) (resolver : CategoryResolver)
    (partitionFn : Envelope → string) (stride : option Z) (a : Applier) : Applier * (Envelope * bool) :=
  let category := ResolveSubject (Envelope.SubjectFromEnvelope env) resolver in
  if shouldDrop d category then (a, (env, false)) else
  match stride with
  | Some stride =>
      if negb (bool_decide (category = CategoryCloseFinal)) then
        let '(a, count) := nextCount (partitionFn env) a in
        if negb (count mod stride =? 0) then (a, (env, false)) else (a, (compressed d category hooks env, true))
      else (a, (compressed d category hooks env, true))
  | None => (a, (compressed d category hooks env, true))
  end.

Definition ApplySingle (d : Decision) (env : Envelope) (hooks : ApplyHooks) (a : Applier) : Applier * (Envelope * bool) :=
  applySingleResolved d env hooks (resolveResolver hooks a) (resolvePartitionKey hooks) (resolveStride d) a.

(** The loop of [Apply]; a single envelope takes the same step. *)
Fixpoint applyLoop (d : Decision) (envs : list Envelope) (hooks : ApplyHooks) (resolver : CategoryResolver)
    (partitionFn : Envelope → string) (stride : option Z) (a : Applier) : Applier * list Envelope :=
  match envs with
  | [] => (a, [])
  | env :: rest =>
      let '(a, (out, keep)) := applySingleResolved d env hooks resolver partitionFn stride a in
      let '(a, outs) := applyLoop d rest hooks resolver partitionFn stride a in
      (a, if (keep : bool) then out :: outs else outs)
  end.
Definition Apply (d : Decision) (envs : list Envelope) (hooks : ApplyHooks) (a : Applier) : Applier * list Envelope :=
  applyLoop d envs hooks (resolveResolver hooks a) (resolvePartitionKey hooks) (resolveStride d) a.

(** ** The level settles *)

(** Recovery thresholds strictly below entry thresholds. *)
Definition below (r e : Threshold) : bool :=
  fltb (QueueRatio r) (QueueRatio e) && fltb (BacklogRatio r) (BacklogRatio e) && fltb (MapRatio r) (MapRatio e) &&
  fltb (LatencyMs r) (LatencyMs e).
Definition hysteresis (cfg : ThresholdConfig) : bool :=
  below (RecoverL1 cfg) (EnterL1 cfg) && below (RecoverL1 cfg) (EnterL2 cfg) && below (RecoverL1 cfg) (EnterL3 cfg) &&
  below (RecoverL2 cfg) (EnterL2 cfg) && below (RecoverL2 cfg) (EnterL3 cfg) && below (RecoverL3 cfg) (EnterL3 cfg).

Lemma fltb_not_ge a b c : fltb a b = true → fltb b c = true → fgeb a c = false.
Proof.
  intros Hab Hbc. pose proof (fltb_trans a b c Hab Hbc) as Hac. apply fltb_not_nan in Hac as Hn. destruct Hn as [Ha Hc].
  rewrite (fleb_ltb c a Hc Ha). by rewrite Hac.
Qed.

Lemma recover_not_enter s r e : below r e = true → meetsRecover s r = true → meetsEnter s e = false.
Proof.
  unfold below, meetsRecover, meetsEnter. rewrite !andb_true_iff. intros (((Q & B) & M) & L) (((q & b) & m) & l).
  by rewrite (fltb_not_ge _ _ _ q Q), (fltb_not_ge _ _ _ b B), (fltb_not_ge _ _ _ m M), (fltb_not_ge _ _ _ l L).
Qed.

(** What hysteresis says about one reading of the signals. *)
Lemma hysteresis_facts cfg s :
  hysteresis cfg = true →
  (meetsRecover s (RecoverL1 cfg) = true → meetsEnter s (EnterL1 cfg) = false ∧ meetsEnter s (EnterL2 cfg) = false ∧
    meetsEnter s (EnterL3 cfg) = false) ∧
  (meetsRecover s (RecoverL2 cfg) = true → meetsEnter s (EnterL2 cfg) = false ∧ meetsEnter s (EnterL3 cfg) = false) ∧
  (meetsRecover s (RecoverL3 cfg) = true → meetsEnter s (EnterL3 cfg) = false).
Proof.
  unfold hysteresis. rewrite !andb_true_iff. intros (((((B11 & B12) & B13) & B22) & B23) & B33).
  split_and!; intros Hr; split_and?; eapply recover_not_enter; try exact Hr; done.
Qed.

(** C40: the overload level settles and never lags behind the pressure. If every
    recovery threshold is below the entry thresholds it could clash with (as in
    the default configuration), then from any level and under unchanged signals:
    three steps reach a level that stays, level 0 when the signals meet every
    recovery threshold; each step goes at least to the level the signals call
    for and down by at most one. *)
Theorem overload_level_settles cfg prev s :
  hysteresis cfg = true → L0 ≤ prev ≤ L3 →
  let step l := nextLevel cfg l s in
  let settled := step (step (step prev)) in
  step settled = settled ∧
  (meetsRecover s (RecoverL1 cfg) = true → meetsRecover s (RecoverL2 cfg) = true → meetsRecover s (RecoverL3 cfg) = true →
    settled = L0) ∧
  Z.max (classify cfg s) (prev - 1) ≤ step prev.
Proof.
  intros Hh Hp. destruct (hysteresis_facts cfg s Hh) as (H1 & H2 & H3). cbn zeta. unfold nextLevel, classify.
  assert (prev = 0 ∨ prev = 1 ∨ prev = 2 ∨ prev = 3) as Hcases by (unfold L0, L3 in Hp; lia).
  destruct (meetsRecover s (RecoverL1 cfg)); [destruct (H1 eq_refl) as (-> & -> & ->)|];
  (destruct (meetsRecover s (RecoverL2 cfg)); [destruct (H2 eq_refl) as [E2 E3]; rewrite ?E2, ?E3|]);
  (destruct (meetsRecover s (RecoverL3 cfg)); [rewrite ?(H3 eq_refl)|]);
  destruct (meetsEnter s (EnterL3 cfg)), (meetsEnter s (EnterL2 cfg)), (meetsEnter s (EnterL1 cfg));
  destruct Hcases as [-> | [-> | [-> | ->]]]; cbn; split_and!; first [done | lia | discriminate].
Qed.

(** ** What is kept *)

(** The category an applier sees. *)
Definition categoryOf (hooks : ApplyHooks) (a : Applier) (env : Envelope) : Category :=
  ResolveSubject (Envelope.SubjectFromEnvelope env) (resolveResolver hooks a).

Lemma stride_count c k : 0 < k → (c + 1) / k - c / k = if (c + 1) mod k =? 0 then 1 else 0.
Proof.
  intros Hk. pose proof (Z.div_mod (c + 1) k ltac:(lia)) as H1. pose proof (Z.div_mod c k ltac:(lia)) as H2.
  pose proof (Z.mod_pos_bound (c + 1) k Hk). pose proof (Z.mod_pos_bound c k Hk).
  destruct (Z.eqb_spec ((c + 1) mod k) 0); nia.
Qed.

Lemma compressed_final d hooks env : compressed d CategoryCloseFinal hooks env = env.
Proof. unfold compressed. by rewrite bool_decide_eq_false_2, andb_false_r by done. Qed.

Lemma shouldDrop_final d : shouldDrop d CategoryCloseFinal = false.
Proof. unfold shouldDrop, DropAllowed. by destruct (negb _). Qed.

Lemma applyLoop_final d hooks r key stride envs : ∀ a,
  filter (λ e, ResolveSubject (Envelope.SubjectFromEnvelope e) r = CategoryCloseFinal) envs
  `sublist_of` (applyLoop d envs hooks r key stride a).2.
Proof.
  induction envs as [|e envs IH]; intros a; cbn [applyLoop]; [done|]. rewrite filter_cons.
  destruct (applySingleResolved d e hooks r key stride a) as [a1 [out keep]] eqn:Hs.
  specialize (IH a1). destruct (applyLoop d envs hooks r key stride a1) as [a2 outs]. cbn [snd] in *.
  case_decide as Hfin; [|destruct keep; [by apply sublist_cons|done]].
  unfold applySingleResolved in Hs. rewrite Hfin, shouldDrop_final, compressed_final in Hs. cbn in Hs.
  assert (out = e ∧ keep = true) as [-> ->] by (destruct stride; by injection Hs). by apply sublist_skip.
Qed.

Lemma applyLoop_stride d hooks r key k p envs : ∀ a,
  0 < k → 0 ≤ default 0 (counters a !! p) → default 0 (counters a !! p) + Z.of_nat (length envs) < 18446744073709551616 →
  Forall (λ e, let cat := ResolveSubject (Envelope.SubjectFromEnvelope e) r in
    cat ≠ CategoryCloseFinal ∧ shouldDrop d cat = false ∧ key e = p) envs →
  Z.of_nat (length (applyLoop d envs hooks r key (Some k) a).2) =
    (default 0 (counters a !! p) + Z.of_nat (length envs)) / k - default 0 (counters a !! p) / k.
Proof.
  induction envs as [|e envs IH]; intros a Hk H0 Hmax Hall; cbn [applyLoop length snd]; [change (Z.of_nat 0) with 0; rewrite Z.add_0_r; lia|].
  apply Forall_cons in Hall as [(Hfin & Hdrop & Hkey) Hall]. unfold applySingleResolved at 1. rewrite Hdrop.
  rewrite bool_decide_eq_false_2 by done. cbn [negb nextCount]. rewrite Hkey.
  set (c := default 0 (counters a !! p)) in *. cbn [length] in Hmax.
  assert (wrapu64 (c + 1) = c + 1) as Hw by (unfold wrapu64; apply Z.mod_small; lia).
  set (a1 := a <| counters ::= <[p := wrapu64 (c + 1)]> |>).
  assert (default 0 (counters a1 !! p) = c + 1) as Hc1 by (cbn; by rewrite lookup_insert_eq).
  specialize (IH a1 Hk). rewrite Hc1 in IH. specialize (IH ltac:(lia) ltac:(lia) Hall).
  pose proof (stride_count c k Hk) as Hst. rewrite Hw. destruct ((c + 1) mod k =? 0); cbn [negb];
    destruct (applyLoop d envs hooks r key (Some k) a1) as [a2 outs]; cbn [snd length] in *;
    replace (c + Z.of_nat (S (length envs))) with (c + 1 + Z.of_nat (length envs)) by lia; lia.
Qed.

Lemma applyLoop_all d hooks r key envs : ∀ a,
  HasAction d ActionDropDelta = false → length (applyLoop d envs hooks r key None a).2 = length envs.
Proof.
  induction envs as [|e envs IH]; intros a Hd; cbn [applyLoop]; [done|]. unfold applySingleResolved at 1.
  unfold shouldDrop, DropAllowed. rewrite Hd. cbn [negb]. specialize (IH a Hd). by destruct (applyLoop _ _ _ _ _ _ a) as [? ?]; cbn in *; rewrite IH.
Qed.

(** Overload never costs a closing event and thins the rest evenly. Whatever
    the decision, the close/final events of a batch all come out, unchanged and
    in order. A batch of one partition that is only thinned out, with stride
    [k], keeps exactly every [k]-th event counted from the start of the
    partition. Without thinning and dropping nothing is lost. *)
Theorem overload_keeps_final_and_every_kth d envs hooks a p :
  let c := default 0 (counters a !! p) in
  let out := (Apply d envs hooks a).2 in
  (filter (λ e, categoryOf hooks a e = CategoryCloseFinal) envs `sublist_of` out) ∧
  (∀ k, resolveStride d = Some k → 0 ≤ c → c + Z.of_nat (length envs) < 18446744073709551616 →
    Forall (λ e, categoryOf hooks a e ≠ CategoryCloseFinal ∧ shouldDrop d (categoryOf hooks a e) = false ∧
                 resolvePartitionKey hooks e = p) envs →
    Z.of_nat (length out) = (c + Z.of_nat (length envs)) / k - c / k) ∧
  (resolveStride d = None → HasAction d ActionDropDelta = false → length out = length envs).
Proof.
  cbn zeta. unfold Apply. split_and!.
  - apply applyLoop_final.
  - intros k Hk Hc Hmax Hall. rewrite Hk. apply applyLoop_stride; try done.
    unfold resolveStride in Hk. destruct (Z.leb_spec (DegradeStride d) 1); [done|]. injection Hk as <-. lia.
  - intros ->. apply applyLoop_all.
Qed.
End policykit.

Definition w_signals (depth : Z) : Signals := MkSignals depth 100 0 0 0 0 f0.

Lemma overload_level_settles_witness :
  let cfg := NewThresholdEngine DefaultThresholdConfig in
  hysteresis cfg = true ∧ nextLevel cfg L0 (w_signals 93) = L3 ∧
  nextLevel cfg (nextLevel cfg (nextLevel cfg L3 (w_signals 10)) (w_signals 10)) (w_signals 10) = L0.
Proof.
  cbn zeta. split; [vm_compute; reflexivity|]. split; [vm_compute; reflexivity|].
  apply (overload_level_settles (NewThresholdEngine DefaultThresholdConfig) L3 (w_signals 10)); vm_compute; done.
Defined.

Definition w_bookdelta (seq : Z) : Envelope :=
  MkEnvelope "marketdata.bookdelta" 1 "binance" "BTCUSDT" 0 1 seq "k" "application/json" ∅ [1] "".

(** Level 2 keeps every second book delta. *)
Lemma overload_keeps_final_and_every_kth_witness :
  let d := MkDecision L2 (actionsFor DefaultThresholdConfig L2) in
  let hooks := MkHooks (MkResolver ∅ ∅) None None in
  let out := (Apply (GR:=go_amd64) d (w_bookdelta <$> [1; 2; 3; 4; 5]) hooks (NewApplier (MkResolver ∅ ∅))).2 in
  Z.of_nat (length out) = 2 ∧ Seq <$> out = [2; 4].
Proof.
  cbn zeta. split; [|vm_compute; reflexivity].
  rewrite (proj1 (proj2 (overload_keeps_final_and_every_kth (GR:=go_amd64) (MkDecision L2 (actionsFor DefaultThresholdConfig L2))
    (w_bookdelta <$> [1; 2; 3; 4; 5]) (MkHooks (MkResolver ∅ ∅) None None) (NewApplier (MkResolver ∅ ∅))
    "marketdata.bookdelta|binance|BTCUSDT")) 2); [reflexivity|reflexivity|vm_compute; done|vm_compute; done|].
  repeat constructor; vm_compute; done.
Defined.
