(* ===== verification/ShardRegistry.v ===== *)
(** * ShardRegistry: internal/shared/shardregistry/registry.go

    Leases on shards, kept in a key-value store that several processes share.
    A method is a tree of the calls it makes to its environment ([prog]): the
    store, the clock and the context; every loop of the file is bounded, so the
    tree is finite. The processes of [system] run their trees one call at a
    time, in any interleaving.

    The store is NATS JetStream, which is not part of the repository: [kvStore]
    states what its documentation promises (revisions, compare-and-set), and
    [memKV] is one implementation. [OwnerCodec] is encoding/json on the owner
    record, with the rendering of a time. Metrics and logs are left out. *)

From S2P Require Import Prelude GoRuntime.
From Stdlib Require Import Ascii.
From stdpp Require Import pretty.

Local Open Scope string_scope.
Local Open Scope list_scope.
Local Open Scope Z_scope.

(** ** Errors *)

Inductive sentinel := errKeyNotFound | errKeyExists | errWrongVersion | DeadlineExceeded | Canceled.
#[export] Instance sentinel_eq_dec : EqDecision sentinel.
Proof. solve_decision. Defined.

Record ownerRecord := MkOwner {
  InstanceID : string; Hostname : string; PID : Z; StartedAt : string; LastHeartbeatUnix : Z }.

Inductive goError :=
| Sentinel (s : sentinel)
| Errorf (format : string)
| Wrapf (format : string) (wrapped : goError)
| External (msg : string)
| DualOwnerError (shardIndex : Z) (current : ownerRecord).

(** [errors.Is] *)
Fixpoint errors_Is (s : sentinel) (e : goError) : bool :=
  match e with
  | Sentinel s' => bool_decide (s = s')
  | Wrapf _ e' => errors_Is s e'
  | _ => false
  end.

(** ** Environment *)

Class OwnerCodec := {
  Raw : Type;
  raw_len : Raw → Z;
  Marshal : ownerRecord → goError + Raw;
  Unmarshal : Raw → goError + ownerRecord;
  FormatRFC3339Nano : Z → string;
  (** Text is kept by the round trip if it is ASCII (other bytes may be
      replaced), and so are the numbers. *)
  Marshal_Unmarshal : ∀ rec raw, is_ascii (InstanceID rec) = true → Marshal rec = inr raw →
    raw_len raw ≠ 0 ∧ ∃ rec', Unmarshal raw = inr rec' ∧
      InstanceID rec' = InstanceID rec ∧ LastHeartbeatUnix rec' = LastHeartbeatUnix rec;
}.

(** The contents of a bucket are the current value and revision of each key.
    Revisions only grow; a write names the revision it replaces, or that there
    is none. A call that fails for an external reason may have taken effect. *)
Record bucket (V : Type) := MkBucket { contents : gmap string (V * Z); lastRev : Z }.
Arguments MkBucket {V}.
Arguments contents {V}.
Arguments lastRev {V}.

Definition wrote {V} (key : string) (v : V) (rev : Z) (b b' : bucket V) : Prop :=
  lastRev b < rev ∧ contents b' = <[key := (v, rev)]> (contents b) ∧ lastRev b' = rev.
Definition removed {V} (key : string) (b b' : bucket V) : Prop :=
  lastRev b ≤ lastRev b' ∧ contents b' = delete key (contents b).

Class kvStore {codec : OwnerCodec} := {
  KV : Type;
  kvGet : string → KV → KV * (goError + (Raw * Z));
  kvCreate : string → Raw → KV → KV * (goError + Z);
  kvUpdate : string → Raw → Z → KV → KV * (goError + Z);
  kvDelete : string → KV → KV * option goError;
  kvKeys : KV → KV * (goError + list string);
  view : KV → bucket Raw;
  kvGet_law : ∀ key s s' r, kvGet key s = (s', r) → view s' = view s ∧
    match r with
    | inr e => contents (view s) !! key = Some e
    | inl e => errors_Is errKeyNotFound e = true → contents (view s) !! key = None
    end;
  kvCreate_law : ∀ key v s s' r, kvCreate key v s = (s', r) →
    match r with
    | inr rev => contents (view s) !! key = None ∧ wrote key v rev (view s) (view s')
    | inl e => view s' = view s ∨
        errors_Is errKeyExists e = false ∧ contents (view s) !! key = None ∧ ∃ rev, wrote key v rev (view s) (view s')
    end;
  kvUpdate_law : ∀ key v rev0 s s' r, kvUpdate key v rev0 s = (s', r) →
    match r with
    | inr rev => (∃ v0, contents (view s) !! key = Some (v0, rev0)) ∧ wrote key v rev (view s) (view s')
    | inl e => view s' = view s ∨ errors_Is errWrongVersion e = false ∧ errors_Is errKeyNotFound e = false ∧
        (∃ v0, contents (view s) !! key = Some (v0, rev0)) ∧ ∃ rev, wrote key v rev (view s) (view s')
    end;
  kvDelete_law : ∀ key s s' r, kvDelete key s = (s', r) →
    match r with
    | None => removed key (view s) (view s')
    | Some _ => view s' = view s ∨ removed key (view s) (view s')
    end;
  kvKeys_law : ∀ s s' r, kvKeys s = (s', r) → view s' = view s ∧
    match r with
    | inr keys => ∀ key, key ∈ keys ↔ is_Some (contents (view s) !! key)
    | inl _ => True
    end;
}.

(** ** Calls to the environment *)

Inductive prog {codec : OwnerCodec} (A : Type) :=
| Done (a : A)
| DoGet (key : string) (k : goError + (Raw * Z) → prog A)
| DoCreate (key : string) (value : Raw) (k : goError + Z → prog A)
| DoUpdate (key : string) (value : Raw) (revision : Z) (k : goError + Z → prog A)
| DoDelete (key : string) (k : option goError → prog A)
| DoKeys (k : goError + list string → prog A)
| DoNow (k : Z → prog A)
| DoCtxErr (k : option goError → prog A).
Arguments Done {codec A}.
Arguments DoGet {codec A}.
Arguments DoCreate {codec A}.
Arguments DoUpdate {codec A}.
Arguments DoDelete {codec A}.
Arguments DoKeys {codec A}.
Arguments DoNow {codec A}.
Arguments DoCtxErr {codec A}.

Fixpoint prog_bind {codec : OwnerCodec} {A B} (f : A → prog B) (p : prog A) : prog B :=
  match p with
  | Done a => f a
  | DoGet key k => DoGet key (λ r, prog_bind f (k r))
  | DoCreate key v k => DoCreate key v (λ r, prog_bind f (k r))
  | DoUpdate key v rev k => DoUpdate key v rev (λ r, prog_bind f (k r))
  | DoDelete key k => DoDelete key (λ r, prog_bind f (k r))
  | DoKeys k => DoKeys (λ r, prog_bind f (k r))
  | DoNow k => DoNow (λ r, prog_bind f (k r))
  | DoCtxErr k => DoCtxErr (λ r, prog_bind f (k r))
  end.

#[export] Instance prog_ret {codec : OwnerCodec} : MRet prog := λ A a, Done a.
#[export] Instance prog_mbind {codec : OwnerCodec} : MBind prog := λ A B f p, prog_bind f p.

Definition getKey {codec : OwnerCodec} key := DoGet key Done.
Definition createKey {codec : OwnerCodec} key v := DoCreate key v Done.
Definition updateKey {codec : OwnerCodec} key v rev := DoUpdate key v rev Done.
Definition deleteKey {codec : OwnerCodec} key := DoDelete key Done.
Definition listKeys {codec : OwnerCodec} := DoKeys Done.
Definition timeNow {codec : OwnerCodec} := DoNow Done.
Definition ctxErr {codec : OwnerCodec} := DoCtxErr Done.

(** ** The registry *)

Definition DefaultLeaseTTL : Z := 30000000000.
Definition DefaultHeartbeatInterval : Z := 10000000000.

Record Config := MkConfig { cfg_LeaseTTL : Z; cfg_HeartbeatInterval : Z }.
Record Registry := MkRegistry { leaseTTL : Z; heartbeatInterval : Z }.

Record lease := MkLease {
  lease_registry : Registry; lease_key : string; lease_instanceID : string; lease_startedAt : string;
  lease_hostname : string; lease_pid : Z; lease_shardIndex : Z; lease_rev : Z; lease_lastHeartbeatUnix : Z }.
#[export] Instance lease_Eta : Eta lease :=
  λ l, MkLease (lease_registry l) (lease_key l) (lease_instanceID l) (lease_startedAt l) (lease_hostname l)
         (lease_pid l) (lease_shardIndex l) (lease_rev l) (lease_lastHeartbeatUnix l).

Definition NewWithKV (cfg : Config) : Registry :=
  MkRegistry
    (if cfg_LeaseTTL cfg <=? 0 then DefaultLeaseTTL else cfg_LeaseTTL cfg)
    (if cfg_HeartbeatInterval cfg <=? 0 then DefaultHeartbeatInterval else cfg_HeartbeatInterval cfg).

Definition shardKey (shardIndex : Z) : string := ("shard/" ++ pretty shardIndex)%string.

(** [t.Unix()], whole seconds *)
Definition Unix (t : Z) : Z := t / 1000000000.

(** [d.Seconds()]: whole seconds and the rest are converted separately. *)
Definition Seconds (d : Z) : float64 :=
  fadd (f_of_Z (Z.quot d 1000000000)) (fdiv (f_of_Z (Z.rem d 1000000000)) (f_of_Z 1000000000)).

Section registry.
Context {GR : GoRuntime} {codec : OwnerCodec}.

(** [strconv.Atoi] is [ParseInt64] up to its error. *)
Definition parseShardIndexFromKey (key : string) : option Z :=
  let key := TrimSpace key in
  if HasPrefix key "shard/" then ParseInt64 (String.substring 6 (String.length key) key) else None.

Definition decodeOwner (raw : Raw) : goError + ownerRecord :=
  if raw_len raw =? 0 then inl (Errorf "empty owner record") else
  match Unmarshal raw with
  | inl e => inl e
  | inr rec =>
      let rec := MkOwner (TrimSpace (InstanceID rec)) (TrimSpace (Hostname rec)) (PID rec)
                   (TrimSpace (StartedAt rec)) (LastHeartbeatUnix rec) in
      if str_eqb (InstanceID rec) "" then inl (Errorf "owner record missing instance_id") else inr rec
  end.

(** [nowUnix - rec.LastHeartbeatUnix > int64(r.leaseTTL.Seconds())] *)
Definition leaseExpired (r : Registry) (nowUnix : Z) (rec : ownerRecord) : bool :=
  i64_of_f (Seconds (leaseTTL r)) <? sub64 nowUnix (LastHeartbeatUnix rec).

(** The host of a process: [os.Hostname] and [os.Getpid]. *)
Record hostInfo := MkHost { os_hostname : string; os_pid : Z }.

(** One turn of the loop of [Acquire]; [None] is [continue]. *)
Definition acquireTurn (r : Registry) (shardIndex : Z) (instanceID : string) (h : hostInfo)
    (startedAt : string) : prog (option (goError + lease)) :=
  let key := shardKey shardIndex in
  let owner hb := MkOwner instanceID (os_hostname h) (os_pid h) startedAt hb in
  let acquired rev hb := MkLease r key instanceID startedAt (os_hostname h) (os_pid h) shardIndex rev hb in
  done ← ctxErr;
  match done with
  | Some e => mret (Some (inl e))
  | None =>
  got ← getKey key;
  match got with
  | inl e =>
      if errors_Is errKeyNotFound e then
        now ← timeNow;
        match Marshal (owner (Unix now)) with
        | inl e => mret (Some (inl e))
        | inr payload =>
            created ← createKey key payload;
            match created with
            | inl e => if errors_Is errKeyExists e then mret None else mret (Some (inl e))
            | inr rev => mret (Some (inr (acquired rev (Unix now))))
            end
        end
      else mret (Some (inl e))
  | inr (value, revision) =>
      match decodeOwner value with
      | inl e => mret (Some (inl (Wrapf "shardregistry: decode existing owner for %s: %w" e)))
      | inr current =>
          now ← timeNow;
          let nowUnix := Unix now in
          if negb (str_eqb (InstanceID current) instanceID) && negb (leaseExpired r nowUnix current) then
            mret (Some (inl (DualOwnerError shardIndex current)))
          else
            match Marshal (owner nowUnix) with
            | inl e => mret (Some (inl e))
            | inr payload =>
                updated ← updateKey key payload revision;
                match updated with
                | inl e =>
                    if errors_Is errWrongVersion e || errors_Is errKeyNotFound e then mret None
                    else mret (Some (inl e))
                | inr rev => mret (Some (inr (acquired rev nowUnix)))
                end
            end
      end
  end
  end.

Fixpoint acquireLoop (turns : nat) (r : Registry) (shardIndex : Z) (instanceID : string) (h : hostInfo)
    (startedAt : string) : prog (goError + lease) :=
  match turns with
  | O => mret (inl (Errorf "shardregistry: acquire retry limit reached for shard %d"))
  | S turns =>
      turn ← acquireTurn r shardIndex instanceID h startedAt;
      match turn with
      | Some res => mret res
      | None => acquireLoop turns r shardIndex instanceID h startedAt
      end
  end.

Definition Acquire (r : option Registry) (h : hostInfo) (shardIndex shardCount : Z) (instanceID : string)
    : prog (goError + lease) :=
  match r with
  | None => mret (inl (Errorf "shardregistry: nil registry"))
  | Some r =>
      if shardCount <? 1 then mret (inl (Errorf "shardregistry: shard_count must be >= 1, got %d"))
      else if (shardIndex <? 0) || (shardCount <=? shardIndex) then
        mret (inl (Errorf "shardregistry: shard_index must be in [0,%d), got %d"))
      else
        let instanceID := TrimSpace instanceID in
        if str_eqb instanceID "" then mret (inl (Errorf "shardregistry: instance_id must not be empty")) else
        started ← timeNow;
        acquireLoop 32 r shardIndex instanceID h (FormatRFC3339Nano started)
  end.

(** The loop of [TopologyComplete] over the keys; [seen] is the set of live shards. *)
Fixpoint topologyLoop (r : Registry) (shardCount nowUnix : Z) (keys : list string) (seen : gset Z)
    : prog (goError + gset Z) :=
  match keys with
  | [] => mret (inr seen)
  | key :: keys =>
      done ← ctxErr;
      match done with
      | Some e => mret (inl e)
      | None =>
          match parseShardIndexFromKey key with
          | None => topologyLoop r shardCount nowUnix keys seen
          | Some idx =>
              if (idx <? 0) || (shardCount <=? idx) then topologyLoop r shardCount nowUnix keys seen else
              got ← getKey key;
              match got with
              | inl e =>
                  if errors_Is errKeyNotFound e then topologyLoop r shardCount nowUnix keys seen
                  else mret (inl e)
              | inr (value, _) =>
                  match decodeOwner value with
                  | inl _ => topologyLoop r shardCount nowUnix keys seen
                  | inr rec =>
                      if leaseExpired r nowUnix rec then topologyLoop r shardCount nowUnix keys seen
                      else topologyLoop r shardCount nowUnix keys ({[idx]} ∪ seen)
                  end
              end
          end
      end
  end.

Definition TopologyComplete (r : Registry) (shardCount : Z) : prog (goError + bool) :=
  if shardCount <? 1 then mret (inl (Errorf "shardregistry: shard_count must be >= 1, got %d")) else
  listed ← listKeys;
  match listed with
  | inl e => mret (inl e)
  | inr keys =>
      now ← timeNow;
      res ← topologyLoop r shardCount (Unix now) keys ∅;
      match res with
      | inl e => mret (inl e)
      | inr seen => mret (inr (Z.of_nat (size seen) =? shardCount))
      end
  end.

(** [polls] is the number of ticks that arrive before the deadline. *)
Fixpoint WaitForTopology (polls : nat) (r : Registry) (shardCount : Z) : prog (goError + bool) :=
  complete ← TopologyComplete r shardCount;
  match complete with
  | inl e =>
      if errors_Is DeadlineExceeded e || errors_Is Canceled e then mret (inr false) else mret (inl e)
  | inr true => mret (inr true)
  | inr false =>
      match polls with
      | O => mret (inr false)
      | S polls => WaitForTopology polls r shardCount
      end
  end.

(** ** Leases *)

Definition Heartbeat (l : lease) : prog (lease * option goError) :=
  done ← ctxErr;
  match done with
  | Some e => mret (l, Some e)
  | None =>
  got ← getKey (lease_key l);
  match got with
  | inl e =>
      if errors_Is errKeyNotFound e then mret (l, Some (Errorf "lease lost for %s: key missing"))
      else mret (l, Some e)
  | inr (value, revision) =>
      match decodeOwner value with
      | inl e => mret (l, Some e)
      | inr current =>
          if negb (str_eqb (InstanceID current) (lease_instanceID l)) then
            mret (l, Some (Errorf "lease lost for %s: owner changed to %s"))
          else
            now ← timeNow;
            match Marshal (MkOwner (lease_instanceID l) (lease_hostname l) (lease_pid l) (lease_startedAt l) (Unix now)) with
            | inl e => mret (l, Some e)
            | inr payload =>
                updated ← updateKey (lease_key l) payload revision;
                match updated with
                | inl e =>
                    if errors_Is errWrongVersion e || errors_Is errKeyNotFound e
                    then mret (l, Some (Wrapf "lease lost for %s: %w" e))
                    else mret (l, Some e)
                | inr rev => mret (l <| lease_rev := rev |> <| lease_lastHeartbeatUnix := Unix now |>, None)
                end
            end
      end
  end
  end.

Definition Release (l : lease) : prog (option goError) :=
  got ← getKey (lease_key l);
  match got with
  | inl e => if errors_Is errKeyNotFound e then mret None else mret (Some e)
  | inr (value, _) =>
      match decodeOwner value with
      | inl _ => mret None
      | inr current =>
          if negb (str_eqb (InstanceID current) (lease_instanceID l)) then mret None else
          done ← ctxErr;
          match done with
          | Some e => mret (Some e)
          | None => deleteKey (lease_key l)
          end
      end
  end.

End registry.

(** ** Processes

    A process acquires a lease, renews it at every tick ([StartHeartbeat]: the
    first failed heartbeat ends the renewal and reports the loss) and releases it
    when it stops. Processes share the store and interleave between any two
    calls; a process may also die at any time. *)

Section system.
Context {GR : GoRuntime} {codec : OwnerCodec} {kv : kvStore}.

Inductive process :=
| Acquiring (p : prog (goError + lease))
| Holding (l : lease)
| Beating (l : lease) (p : prog (lease * option goError))
| Lost (l : lease) (e : goError)
| Releasing (l : lease) (p : prog (option goError))
| Exited (e : option goError).

(** The first call of a tree: [now] is what the clock shows, [ctx] the state of the context. *)
Definition call {A} (now : Z) (ctx : option goError) (p : prog A) (s : KV) : KV * prog A :=
  match p with
  | Done a => (s, p)
  | DoGet key k => let '(s, r) := kvGet key s in (s, k r)
  | DoCreate key v k => let '(s, r) := kvCreate key v s in (s, k r)
  | DoUpdate key v rev k => let '(s, r) := kvUpdate key v rev s in (s, k r)
  | DoDelete key k => let '(s, r) := kvDelete key s in (s, k r)
  | DoKeys k => let '(s, r) := kvKeys s in (s, k r)
  | DoNow k => (s, k now)
  | DoCtxErr k => (s, k ctx)
  end.

(** What a process does when its current method has returned. *)
Definition settle (p : process) : process :=
  match p with
  | Acquiring (Done (inr l)) => Holding l
  | Acquiring (Done (inl e)) => Exited (Some e)
  | Beating _ (Done (l, None)) => Holding l
  | Beating _ (Done (l, Some e)) => Lost l e
  | Releasing _ (Done e) => Exited e
  | _ => p
  end.

Definition advance (now : Z) (ctx : option goError) (p : process) (s : KV) : KV * process :=
  match p with
  | Acquiring q => let '(s, q) := call now ctx q s in (s, settle (Acquiring q))
  | Beating l q => let '(s, q) := call now ctx q s in (s, settle (Beating l q))
  | Releasing l q => let '(s, q) := call now ctx q s in (s, settle (Releasing l q))
  | _ => (s, p)
  end.

Record system := MkSystem { store : KV; procs : gmap nat process }.

Inductive label :=
| Start (id : nat) (h : hostInfo) (shardIndex shardCount : Z) (instanceID : string)
| Call (id : nat) (now : Z) (ctx : option goError)
| Tick (id : nat)
| Stop (id : nat)
| Crash (id : nat)
| Purge (key : string).

Definition act (r : Registry) (l : label) (σ : system) : system :=
  match l with
  | Start id h shardIndex shardCount instanceID =>
      match procs σ !! id with
      | Some _ => σ
      | None => MkSystem (store σ) (<[id := settle (Acquiring (Acquire (Some r) h shardIndex shardCount instanceID))]> (procs σ))
      end
  | Call id now ctx =>
      match procs σ !! id with
      | Some p => let '(s, p) := advance now ctx p (store σ) in MkSystem s (<[id := p]> (procs σ))
      | None => σ
      end
  | Tick id =>
      match procs σ !! id with
      | Some (Holding l) => MkSystem (store σ) (<[id := Beating l (Heartbeat l)]> (procs σ))
      | _ => σ
      end
  | Stop id =>
      match procs σ !! id with
      | Some (Holding l) | Some (Lost l _) => MkSystem (store σ) (<[id := Releasing l (Release l)]> (procs σ))
      | _ => σ
      end
  | Crash id => MkSystem (store σ) (delete id (procs σ))
  | Purge key => MkSystem (fst (kvDelete key (store σ))) (procs σ)
  end.

Definition run (r : Registry) (ls : list label) (σ : system) : system := foldl (λ σ l, act r l σ) σ ls.

(** A method alone with the store and a clock that stands still. *)
Fixpoint exec {A} (now : Z) (p : prog A) (s : KV) : KV * A :=
  match p with
  | Done a => (s, a)
  | DoGet key k => let '(s, r) := kvGet key s in exec now (k r) s
  | DoCreate key v k => let '(s, r) := kvCreate key v s in exec now (k r) s
  | DoUpdate key v rev k => let '(s, r) := kvUpdate key v rev s in exec now (k r) s
  | DoDelete key k => let '(s, r) := kvDelete key s in exec now (k r) s
  | DoKeys k => let '(s, r) := kvKeys s in exec now (k r) s
  | DoNow k => exec now (k now) s
  | DoCtxErr k => exec now (k None) s
  end.

End system.

(** ** One store

    The documented store without failures, and owner records kept as they are. *)

Definition plainCodec : OwnerCodec.
Proof.
  refine {| Raw := ownerRecord; raw_len _ := 1; Marshal rec := inr rec; Unmarshal rec := inr rec;
            FormatRFC3339Nano t := pretty t |}.
  intros rec raw _ [= ->]. split; [done|]. eauto.
Defined.

Definition memPut (key : string) (v : ownerRecord) (b : bucket ownerRecord) : bucket ownerRecord :=
  MkBucket (<[key := (v, Z.succ (lastRev b))]> (contents b)) (Z.succ (lastRev b)).

#[local] Existing Instance plainCodec.

Definition memKV : kvStore (codec:=plainCodec).
Proof.
  refine {|
    KV := bucket ownerRecord : Type;
    kvGet key b := (b, match contents b !! key with Some e => inr e | None => inl (Sentinel errKeyNotFound) end);
    kvCreate key v b :=
      match contents b !! key with
      | Some _ => (b, inl (Sentinel errKeyExists))
      | None => (memPut key v b, inr (Z.succ (lastRev b)))
      end;
    kvUpdate key v rev b :=
      match contents b !! key with
      | Some (_, rev') => if rev' =? rev then (memPut key v b, inr (Z.succ (lastRev b)))
                          else (b, inl (Sentinel errWrongVersion))
      | None => (b, inl (Sentinel errKeyNotFound))
      end;
    kvDelete key b := (MkBucket (delete key (contents b)) (Z.succ (lastRev b)), None);
    kvKeys b := (b, inr (map_to_list (contents b)).*1);
    view b := b |}; cbn.
  - intros key s s' r [= <- <-]. by destruct (contents s !! key) eqn:E.
  - intros key v s s' r H. destruct (contents s !! key) eqn:E; injection H as <- <-; [by left|].
    split; [done|]. split; [cbn; lia|]. done.
  - intros key v rev0 s s' r H. destruct (contents s !! key) as [[v0 rev]|] eqn:E; [|injection H as <- <-; by left].
    destruct (Z.eqb_spec rev rev0) as [->|]; injection H as <- <-; [|by left].
    split; [by eexists|]. split; [cbn; lia|]. done.
  - intros key s s' r [= <- <-]. split; [cbn; lia|done].
  - intros s s' r [= <- <-]. split; [done|]. intros key. rewrite list_elem_of_fmap. split.
    + intros ([k e] & -> & He%elem_of_map_to_list). by exists e.
    + intros [e He]. exists (key, e). split; [done|]. by apply elem_of_map_to_list.
Defined.

Definition emptyMem : @KV plainCodec memKV := (MkBucket ∅ 0 : bucket ownerRecord).
