(* ===== verification/ShardRegistrySpec.v ===== *)
(** * ShardRegistrySpec: who owns a shard, under any interleaving

    The store compares revisions, so a process only replaces the record it has
    read: ownership of a shard passes to another instance only after the owner's
    last heartbeat has expired, as long as the record is not removed. [Release]
    removes without comparing, which is where the guarantee ends. *)

From S2P Require Import Prelude GoRuntime ShardRegistry.
From Stdlib Require Import Ascii.
From stdpp Require Import pretty.

Local Open Scope string_scope.
Local Open Scope list_scope.
Local Open Scope Z_scope.

Section ownership.
Context {GR : GoRuntime} {codec : OwnerCodec} {kv : kvStore} (r : Registry).

(** A record may replace another if the instance is the same or the old lease has
    expired at the time the new record carries. *)
Definition mayFollow (rec1 rec2 : ownerRecord) : Prop :=
  InstanceID rec2 = InstanceID rec1 ∨ leaseExpired r (LastHeartbeatUnix rec2) rec1 = true.
Definition mayReplace (v0 v : Raw) : Prop :=
  ∀ rec1, decodeOwner v0 = inr rec1 → ∃ rec2, decodeOwner v = inr rec2 ∧ mayFollow rec1 rec2.

(** What a process has read: values with their revisions. *)
Definition known (seen : list (string * Raw * Z)) (b : bucket Raw) : Prop :=
  ∀ key v rev, (key, v, rev) ∈ seen →
    rev ≤ lastRev b ∧ ∀ v', contents b !! key = Some (v', rev) → v' = v.
Definition wf_bucket (b : bucket Raw) : Prop :=
  ∀ key v rev, contents b !! key = Some (v, rev) → rev ≤ lastRev b.

(** One call changes a bucket in one of these ways; [del] are the keys it may
    remove. *)
Inductive evolves (del : string → Prop) (b b' : bucket Raw) : Prop :=
| evolves_same : b' = b → evolves del b b'
| evolves_new key v rev : contents b !! key = None → wrote key v rev b b' → evolves del b b'
| evolves_next key v0 rev0 v rev :
    contents b !! key = Some (v0, rev0) → mayReplace v0 v → wrote key v rev b b' → evolves del b b'
| evolves_gone key : del key → removed key b b' → evolves del b b'.

Lemma evolves_mono (del del' : string → Prop) b b' : (∀ key, del key → del' key) → evolves del b b' → evolves del' b b'.
Proof.
  intros Hdel [?|??? ? ?|?????? ? ?|key ? ?]; [by apply evolves_same|by eapply evolves_new|by eapply evolves_next|].
  eapply evolves_gone; eauto.
Qed.

Lemma wrote_known key v rev b b' seen : wrote key v rev b b' → known seen b → known seen b'.
Proof.
  intros (Hrev & Hc & Hl) Hk key' v' rev' Hin. destruct (Hk _ _ _ Hin) as [Hle Hv].
  split; [lia|]. intros v''. rewrite Hc. destruct (decide (key' = key)) as [->|].
  - rewrite lookup_insert_eq. intros [= _ ->]. lia.
  - rewrite lookup_insert_ne by done. apply Hv.
Qed.

Lemma removed_known key b b' seen : removed key b b' → known seen b → known seen b'.
Proof.
  intros (Hl & Hc) Hk key' v' rev' Hin. destruct (Hk _ _ _ Hin) as [Hle Hv].
  split; [lia|]. intros v''. rewrite Hc, lookup_delete_Some. intros [_ ?]. by apply Hv.
Qed.

Lemma evolves_known del b b' seen : evolves del b b' → known seen b → known seen b'.
Proof. intros []; [by subst|eauto using wrote_known, removed_known..]. Qed.

Lemma evolves_wf del b b' : evolves del b b' → wf_bucket b → wf_bucket b'.
Proof.
  intros Hev Hwf.
  assert (∀ key v rev, wrote key v rev b b' → wf_bucket b') as Hw.
  { intros key v rev (Hrev & Hc & Hl) key' v' rev'. rewrite Hc, Hl.
    destruct (decide (key' = key)) as [->|]; [rewrite lookup_insert_eq; intros [= _ ->]; lia|].
    rewrite lookup_insert_ne by done. intros ?%Hwf. lia. }
  destruct Hev as [->| | |key _ [Hl Hc]]; [done|eauto..|].
  intros key' v' rev'. rewrite Hc, lookup_delete_Some. intros [_ ?%Hwf]. lia.
Qed.

Lemma mayReplace_refl v : mayReplace v v.
Proof. intros rec1 H1. exists rec1. split; [done|by left]. Qed.

(** A record that is present is removed, or replaced by one that may follow it. *)
Lemma evolves_owner del b b' key v1 rev1 :
  evolves del b b' → contents b !! key = Some (v1, rev1) →
  contents b' !! key = None ∧ del key ∨ ∃ v2 rev2, contents b' !! key = Some (v2, rev2) ∧ mayReplace v1 v2.
Proof.
  intros [->|k v rev Hn (_ & Hc & _)|k v0 rev0 v rev Hk Hmay (_ & Hc & _)|k Hdel [_ Hc]] H1; [|rewrite Hc..].
  - right. eauto using mayReplace_refl.
  - rewrite lookup_insert_ne by congruence. right. eauto using mayReplace_refl.
  - right. destruct (decide (key = k)) as [->|].
    + rewrite lookup_insert_eq. rewrite H1 in Hk. injection Hk as -> ->. eauto.
    + rewrite lookup_insert_ne by done. eauto using mayReplace_refl.
  - destruct (decide (key = k)) as [->|]; [left; by rewrite lookup_delete_eq|].
    rewrite lookup_delete_ne by done. right. eauto using mayReplace_refl.
Qed.

(** ** What a method may do

    [does del Q seen p]: having read [seen], the tree [p] only updates revisions it
    has read, with values that may replace what it read there, only deletes keys of
    [del], and returns a result in [Q]. *)
Fixpoint does (del : string → Prop) {A} (Q : A → Prop) (seen : list (string * Raw * Z)) (p : prog A) : Prop :=
  match p with
  | Done a => Q a
  | DoGet key k => (∀ v rev, does del Q ((key, v, rev) :: seen) (k (inr (v, rev)))) ∧ ∀ e, does del Q seen (k (inl e))
  | DoUpdate key v rev k => (∃ v0, (key, v0, rev) ∈ seen ∧ mayReplace v0 v) ∧ ∀ res, does del Q seen (k res)
  | DoCreate _ _ k => ∀ res, does del Q seen (k res)
  | DoDelete key k => del key ∧ ∀ res, does del Q seen (k res)
  | DoKeys k => ∀ res, does del Q seen (k res)
  | DoNow k => ∀ now, does del Q seen (k now)
  | DoCtxErr k => ∀ e, does del Q seen (k e)
  end.

Lemma does_bind del {A B} (Q : B → Prop) (Q' : A → Prop) (f : A → prog B) (p : prog A) seen :
  does del Q' seen p → (∀ a seen', Q' a → does del Q seen' (f a)) → does del Q seen (prog_bind f p).
Proof.
  intros Hp Hf. revert seen Hp. induction p as [a|key k IH|key v k IH|key v rev k IH|key k IH|k IH|k IH|k IH];
    cbn; intros seen Hp; [by apply Hf| |eauto| | |eauto..].
  all: destruct Hp; split; eauto.
Qed.

Lemma call_does del {A} (Q : A → Prop) now ctx (p : prog A) s s' p' seen :
  call now ctx p s = (s', p') → does del Q seen p → known seen (view s) → wf_bucket (view s) →
  evolves del (view s) (view s') ∧ ∃ seen', does del Q seen' p' ∧ known seen' (view s').
Proof.
  intros Hcall Hp Hk Hwf.
  assert (∀ b', evolves del (view s) b' → known seen b') as Hkeep by eauto using evolves_known.
  destruct p as [a|key k|key v k|key v rev k|key k|k|k|k]; cbn in Hcall, Hp.
  - injection Hcall as <- <-. split; [by constructor|]. by exists seen.
  - destruct (kvGet key s) as [s1 res] eqn:E. injection Hcall as <- <-.
    apply kvGet_law in E as [Heq E]. rewrite Heq. split; [by constructor|]. destruct Hp as [Hok Herr].
    destruct res as [e|[v rev]]; [exists seen; eauto|]. exists ((key, v, rev) :: seen). split; [apply Hok|].
    intros key' v' rev' [[= -> -> ->]|Hin]%elem_of_cons; [|by apply Hk].
    split; [by eapply Hwf|]. intros v'' ?. congruence.
  - destruct (kvCreate key v s) as [s1 res] eqn:E. injection Hcall as <- <-.
    apply kvCreate_law in E.
    assert (evolves del (view s) (view s1)) as Hev.
    { destruct res as [e|rev]; [destruct E as [->|(_ & Hn & rev & Hw)]|destruct E as [Hn Hw]].
      - by constructor.
      - by eapply evolves_new.
      - by eapply evolves_new. }
    split; [done|]. exists seen. eauto.
  - destruct (kvUpdate key v rev s) as [s1 res] eqn:E. injection Hcall as <- <-.
    destruct Hp as [(v0 & Hin & Hmay) Hp]. apply kvUpdate_law in E.
    assert (∀ rev', (∃ v1, contents (view s) !! key = Some (v1, rev)) → wrote key v rev' (view s) (view s1) →
                    evolves del (view s) (view s1)) as Hset.
    { intros rev' [v1 Hv1] Hw. destruct (Hk _ _ _ Hin) as [_ Hsame].
      rewrite (Hsame _ Hv1) in Hv1. by eapply evolves_next. }
    assert (evolves del (view s) (view s1)) as Hev.
    { destruct res as [e|rev']; [destruct E as [->|(_ & _ & Hcur & rev' & Hw)]|destruct E as [Hcur Hw]]; eauto.
      by constructor. }
    split; [done|]. exists seen. eauto.
  - destruct (kvDelete key s) as [s1 res] eqn:E. injection Hcall as <- <-. apply kvDelete_law in E. destruct Hp as [Hdel Hp].
    assert (evolves del (view s) (view s1)) as Hev.
    { destruct res; [destruct E as [->|E]; [by constructor|]|]; by eapply evolves_gone. }
    split; [done|]. exists seen. eauto.
  - destruct (kvKeys s) as [s1 res] eqn:E. injection Hcall as <- <-. apply kvKeys_law in E as [Heq _].
    rewrite Heq. split; [by constructor|]. exists seen. eauto.
  - injection Hcall as <- <-. split; [by constructor|]. exists seen. eauto.
  - injection Hcall as <- <-. split; [by constructor|]. exists seen. eauto.
Qed.

(** ** The methods *)

(** Instance names are ASCII (their JSON is exact), trimmed and not empty. *)
Definition cleanName (id : string) : Prop := is_ascii id = true ∧ TrimSpace id = id ∧ id ≠ "".
Definition cleanLease (l : lease) : Prop := cleanName (lease_instanceID l).

Lemma cleanName_trim id : is_ascii id = true → TrimSpace id ≠ "" → cleanName (TrimSpace id).
Proof.
  intros H Hne. split; [|split; [apply TrimSpace_idem|done]]. unfold TrimSpace. rewrite H. by apply is_ascii_trim.
Qed.

Lemma decode_marshal rec raw :
  Marshal rec = inr raw → cleanName (InstanceID rec) →
  ∃ rec2, decodeOwner raw = inr rec2 ∧ InstanceID rec2 = InstanceID rec ∧ LastHeartbeatUnix rec2 = LastHeartbeatUnix rec.
Proof.
  intros Hm (Ha & Ht & Hne). destruct (Marshal_Unmarshal _ _ Ha Hm) as (Hlen & rec' & Hu & Hid & Hhb).
  unfold decodeOwner. destruct (Z.eqb_spec (raw_len raw) 0); [done|]. rewrite Hu. cbn.
  rewrite Hid, Ht, Hhb. apply String.eqb_neq in Hne. unfold str_eqb. rewrite Hne. by eexists.
Qed.

Lemma acquireTurn_does shardIndex id h startedAt seen :
  cleanName id →
  does (λ _, False) (λ res, ∀ l, res = Some (inr l) → cleanLease l) seen (acquireTurn r shardIndex id h startedAt).
Proof.
  intros Hid. unfold acquireTurn. cbn. intros [e|]; [done|]. cbn. split.
  - intros v rev. destruct (decodeOwner v) as [e|current] eqn:Hdec; [done|]. cbn. intros now.
    destruct (negb _ && negb _) eqn:Hown; [done|]. destruct (Marshal _) as [e|payload] eqn:Hm; [done|].
    cbn. split; [|intros [e|rev']; cbn; [by destruct (_ || _)|by intros l [= <-]]].
    exists v. split; [by left|]. intros rec1 H1. rewrite Hdec in H1. injection H1 as ->.
    destruct (decode_marshal _ _ Hm Hid) as (rec2 & H2 & Heq & Hhb). cbn in Heq, Hhb. exists rec2. split; [done|].
    apply andb_false_iff in Hown as [Hown%negb_false_iff|Hown%negb_false_iff].
    + left. apply String.eqb_eq in Hown. congruence.
    + right. by rewrite Hhb.
  - intros e. destruct errors_Is; [|done]. cbn. intros now.
    destruct (Marshal _) as [e'|payload]; [done|]. cbn. intros [e'|rev]; cbn; [by destruct errors_Is|].
    by intros l [= <-].
Qed.

Lemma acquireLoop_does n shardIndex id h startedAt seen :
  cleanName id →
  does (λ _, False) (λ res, ∀ l, res = inr l → cleanLease l) seen (acquireLoop n r shardIndex id h startedAt).
Proof.
  intros Hid. revert seen. induction n as [|n IH]; intros seen; [by cbn|]. cbn [acquireLoop].
  eapply does_bind; [by apply acquireTurn_does|]. intros [res|] seen' Hres; [|by apply IH].
  cbn. intros l ->. by apply Hres.
Qed.

Lemma Acquire_does h shardIndex shardCount id seen :
  is_ascii id = true →
  does (λ _, False) (λ res, ∀ l, res = inr l → cleanLease l) seen (Acquire (Some r) h shardIndex shardCount id).
Proof.
  intros Hid. unfold Acquire. destruct (_ <? 1); [done|]. destruct (_ || _); [done|].
  destruct (str_eqb _ _) eqn:Hne; [done|]. apply String.eqb_neq in Hne. cbn -[acquireLoop]. intros now.
  apply acquireLoop_does. by apply cleanName_trim.
Qed.

Lemma Heartbeat_does l seen : cleanLease l → does (λ _, False) (λ res, cleanLease res.1) seen (Heartbeat l).
Proof.
  intros Hl. unfold Heartbeat. cbn. intros [e|]; [done|]. cbn. split.
  - intros v rev. destruct (decodeOwner v) as [e|current] eqn:Hdec; [done|].
    destruct (negb _) eqn:Hown; [done|]. cbn. intros now. destruct (Marshal _) as [e|payload] eqn:Hm; [done|].
    cbn. split; [|intros [e|rev']; cbn; [by destruct (_ || _)|done]].
    exists v. split; [by left|]. intros rec1 H1. rewrite Hdec in H1. injection H1 as ->.
    destruct (decode_marshal _ _ Hm Hl) as (rec2 & H2 & Heq & _). cbn in Heq. exists rec2. split; [done|].
    left. apply negb_false_iff, String.eqb_eq in Hown. congruence.
  - intros e. by destruct errors_Is.
Qed.

Lemma Release_does l seen : does (λ key, lease_key l = key) (λ _, True) seen (Release l).
Proof.
  unfold Release. cbn. split; [|intros e; by destruct errors_Is].
  intros v rev. destruct decodeOwner; [done|]. destruct (negb _); [done|]. cbn. by intros [e|].
Qed.

(** ** The system *)

Definition processOk (b : bucket Raw) (p : process) : Prop :=
  match p with
  | Acquiring q => ∃ seen, does (λ _, False) (λ res, ∀ l, res = inr l → cleanLease l) seen q ∧ known seen b
  | Holding l | Lost l _ => cleanLease l
  | Beating _ q => ∃ seen, does (λ _, False) (λ res, cleanLease res.1) seen q ∧ known seen b
  | Releasing l q => ∃ seen, does (λ key, lease_key l = key) (λ _, True) seen q ∧ known seen b
  | Exited _ => True
  end.
Definition systemOk (σ : system) : Prop :=
  wf_bucket (view (store σ)) ∧ map_Forall (λ _ p, processOk (view (store σ)) p) (procs σ).

Lemma known_nil b : known [] b.
Proof. intros key v rev []%elem_of_nil. Qed.

Lemma processOk_evolves del b b' p : evolves del b b' → processOk b p → processOk b' p.
Proof. intros Hev. destruct p; cbn; [|done| |done| |done]; intros (seen & ? & ?); eauto using evolves_known. Qed.

Lemma processOk_settle b p : processOk b p → processOk b (settle p).
Proof.
  destruct p as [[[e|l]| | | | | | |]| |l [[l' [e|]]| | | | | | |]| |l []|]; cbn; try done.
  all: intros (seen & Hq & Hk); eauto.
Qed.

(** The record a process may remove: that of the lease it releases. *)
Definition mayRemove (p : process) (key : string) : Prop :=
  match p with Releasing l _ => lease_key l = key | _ => False end.

Lemma advance_ok now ctx p s s' p' :
  advance now ctx p s = (s', p') → wf_bucket (view s) → processOk (view s) p →
  evolves (mayRemove p) (view s) (view s') ∧ processOk (view s') p'.
Proof.
  intros Hadv Hwf Hp. destruct p as [q|l|l q|l e|l q|e]; cbn -[settle] in Hadv;
    try (injection Hadv as <- <-; split; [by constructor|done]).
  all: destruct (call now ctx q s) as [s1 q1] eqn:E; apply pair_eq in Hadv as [<- <-]; destruct Hp as (seen & Hq & Hk);
    destruct (call_does _ _ _ _ _ _ _ _ _ E Hq Hk Hwf) as (Hev & seen' & Hq' & Hk'); split; [done|];
    apply processOk_settle; by exists seen'.
Qed.

(** Every process of the system has an ASCII name. *)
Definition asciiName (l : label) : Prop :=
  match l with Start _ _ _ _ id => is_ascii id = true | _ => True end.

Lemma systemOk_insert σ id p :
  systemOk σ → processOk (view (store σ)) p → systemOk (MkSystem (store σ) (<[id := p]> (procs σ))).
Proof. intros [Hwf Hps] Hp. split; [done|]. by apply map_Forall_insert_2. Qed.

(** A step that may remove the record of [key]: a process releases the lease of
    the shard, or the store loses the key. *)
Definition removal (l : label) (σ : system) (key : string) : Prop :=
  match l with
  | Purge key' => key' = key
  | Call id _ _ => ∃ p, procs σ !! id = Some p ∧ mayRemove p key
  | _ => False
  end.

Lemma act_ok l σ :
  asciiName l → systemOk σ → systemOk (act r l σ) ∧ evolves (removal l σ) (view (store σ)) (view (store (act r l σ))).
Proof.
  intros Hname Hok. assert (systemOk σ ∧ evolves (removal l σ) (view (store σ)) (view (store σ))) as Hsame by (split; [done|by constructor]).
  destruct l as [id h i n name|id now ctx|id|id|id|key]; cbn -[view settle Acquire Heartbeat Release].
  - destruct (procs σ !! id); [done|]. split; [|by constructor]. apply systemOk_insert; [done|].
    apply processOk_settle. exists []. split; [by apply Acquire_does|apply known_nil].
  - destruct (procs σ !! id) as [p|] eqn:E; [|done]. destruct (advance now ctx p (store σ)) as [s' p'] eqn:Hadv.
    destruct Hok as [Hwf Hps]. destruct (advance_ok _ _ _ _ _ _ Hadv Hwf (Hps _ _ E)) as [Hev Hp'].
    split; [|by eapply evolves_mono; [|exact Hev]; intros key ?; exists p].
    split; [by eapply evolves_wf|]. cbn -[view]. apply map_Forall_insert_2; [done|].
    intros id' p'' Hp''. eapply processOk_evolves; [done|]. by apply (Hps id').
  - destruct (procs σ !! id) as [p|] eqn:E; [|done]. destruct p as [| l| | | |]; try done.
    split; [|by constructor]. apply systemOk_insert; [done|]. exists []. split; [|apply known_nil].
    apply Heartbeat_does. by apply (proj2 Hok _ _ E).
  - destruct (procs σ !! id) as [p|] eqn:E; [|done]. destruct p as [| l| |l e| |]; try done.
    all: split; [|by constructor]; apply systemOk_insert; [done|]; exists [];
      split; [apply Release_does|apply known_nil].
  - destruct Hok as [Hwf Hps]. split; [|by constructor]. split; [done|]. by apply map_Forall_delete.
  - destruct (kvDelete key (store σ)) as [s' res] eqn:E. cbn -[view]. apply kvDelete_law in E.
    assert (evolves (λ key', key = key') (view (store σ)) (view s')) as Hev.
    { destruct res; [destruct E as [->|E]; [by constructor|]|]; by eapply evolves_gone. }
    destruct Hok as [Hwf Hps]. split; [|done]. split; [by eapply evolves_wf|].
    intros id p Hp. eapply processOk_evolves; [done|]. by apply (Hps id).
Qed.

Lemma run_ok ls σ : Forall asciiName ls → systemOk σ → systemOk (run r ls σ).
Proof.
  intros Hls. revert σ. induction Hls as [|l ls Hl Hls IH]; intros σ Hok; [done|].
  cbn. apply IH. by apply act_ok.
Qed.

Lemma start_ok s : wf_bucket (view s) → systemOk (MkSystem s ∅).
Proof. intros. split; [done|apply map_Forall_empty]. Qed.

(** The owner of a shard in the store, and the states of a run. *)
Definition ownerOf (key : string) (σ : system) : option ownerRecord :=
  match contents (view (store σ)) !! key with
  | Some (v, _) => match decodeOwner v with inr rec => Some rec | inl _ => None end
  | None => None
  end.

(** The step [l] of [σ] hands the shard over: the record it replaces had expired when
    the new owner wrote its own. *)
Definition handsOver (key : string) (l : label) (σ : system) : Prop :=
  ∃ rec1 rec2, ownerOf key σ = Some rec1 ∧ ownerOf key (act r l σ) = Some rec2 ∧
    InstanceID rec2 ≠ InstanceID rec1 ∧ leaseExpired r (LastHeartbeatUnix rec2) rec1 = true.
(** The step [l] of [σ] takes the record of the shard away. *)
Definition takesAway (key : string) (l : label) (σ : system) : Prop :=
  is_Some (ownerOf key σ) ∧ ownerOf key (act r l σ) = None ∧ removal l σ key.

Lemma step_owner key l σ rec1 :
  asciiName l → systemOk σ → ownerOf key σ = Some rec1 →
  takesAway key l σ ∨ ∃ rec2, ownerOf key (act r l σ) = Some rec2 ∧ (InstanceID rec2 = InstanceID rec1 ∨ handsOver key l σ).
Proof.
  intros Hl Hok H1. destruct (act_ok l σ Hl Hok) as [_ Hev]. pose proof H1 as H1'. unfold ownerOf in H1'.
  destruct (contents (view (store σ)) !! key) as [[v1 rev1]|] eqn:Hc; [|done].
  destruct (decodeOwner v1) as [|rec] eqn:Hd; [done|]. injection H1' as ->.
  destruct (evolves_owner _ _ _ _ _ _ Hev Hc) as [[Hnone Hrem]|(v2 & rev2 & Hc2 & Hmay)].
  - left. split; [by rewrite H1|]. split; [|done]. unfold ownerOf. by rewrite Hnone.
  - right. destruct (Hmay rec1 Hd) as (rec2 & Hd2 & Hf).
    assert (H2 : ownerOf key (act r l σ) = Some rec2) by (unfold ownerOf; by rewrite Hc2, Hd2).
    exists rec2. split; [done|]. destruct (decide (InstanceID rec2 = InstanceID rec1)) as [|Hne]; [by left|].
    right. destruct Hf as [|Hexp]; [done|]. by exists rec1, rec2.
Qed.

Lemma run_owner key ls σ rec1 rec2 :
  Forall asciiName ls → systemOk σ → ownerOf key σ = Some rec1 → ownerOf key (run r ls σ) = Some rec2 →
  InstanceID rec2 = InstanceID rec1 ∨
  ∃ ls' l rest rec, ls = ls' ++ l :: rest ∧ ownerOf key (run r ls' σ) = Some rec ∧ InstanceID rec = InstanceID rec1 ∧
    (handsOver key l (run r ls' σ) ∨ takesAway key l (run r ls' σ)).
Proof.
  intros Hls. revert σ rec1. induction Hls as [|l ls Hl Hls IH]; intros σ rec1 Hok H1 H2.
  { left. cbn in H2. rewrite H1 in H2. by injection H2 as ->. }
  destruct (step_owner key l σ rec1 Hl Hok H1) as [Haway|(rec & H & [Hid|Hover])].
  - right. exists [], l, ls, rec1. auto.
  - destruct (IH (act r l σ) rec) as [Hsame|(ls' & l' & rest & rec' & -> & Ho & Hid' & Hstep)];
      [by apply act_ok|done|done|left; congruence|].
    right. exists (l :: ls'), l', rest, rec'. split_and!; [done|done|congruence|done].
  - right. exists [], l, ls, rec1. auto.
Qed.

(** C30: Between two instants of a run at which a shard is owned by different
    instances, the first owner lost it in one of two ways, whatever processes
    start, stop, crash and however their calls interleave: a step replaced its record,
    after its lease had expired (its last heartbeat is more than the lease time
    before the heartbeat of the record that replaced it); or a step removed its
    record: a process was releasing a lease of that shard, or the store lost the
    key. A release may remove the record of a successor: after a removal nothing
    is said of the lease. *)
Theorem ownership_passes_after_expiry s0 ls1 ls2 key rec1 rec2 :
  let σ := run r ls1 (MkSystem s0 ∅) in
  wf_bucket (view s0) → Forall asciiName (ls1 ++ ls2) →
  ownerOf key σ = Some rec1 → ownerOf key (run r ls2 σ) = Some rec2 → InstanceID rec2 ≠ InstanceID rec1 →
  ∃ ls l rest rec, ls2 = ls ++ l :: rest ∧
    ownerOf key (run r ls σ) = Some rec ∧ InstanceID rec = InstanceID rec1 ∧
    (handsOver key l (run r ls σ) ∨ takesAway key l (run r ls σ)).
Proof.
  intros σ Hwf [Hls1 Hls2]%Forall_app H1 H2 Hne. assert (systemOk σ) as Hok by (apply run_ok; [done|by apply start_ok]).
  by destruct (run_owner key ls2 σ rec1 rec2 Hls2 Hok H1 H2).
Qed.

End ownership.

(** ** Keys *)

Definition digit (c : ascii) : bool := let d := Z.of_N (N_of_ascii c) - 48 in (0 <=? d) && (d <=? 9).
Definition printable (c : ascii) : bool := ascii_lt128 c && negb (is_space c).

Lemma pretty_N_char_digit d : (d < 10)%N →
  digit (pretty_N_char d) = true ∧ Z.of_N (N_of_ascii (pretty_N_char d)) - 48 = Z.of_N d ∧
  printable (pretty_N_char d) = true.
Proof.
  intros Hd. assert (∃ n : nat, (n < 10)%nat ∧ d = N.of_nat n) as (n & Hn & ->) by (exists (N.to_nat d); lia).
  do 10 (destruct n as [|n]; [by vm_compute|]). lia.
Qed.

(** Parsing and printing of numbers are inverse; the printed text has no spaces. *)
Lemma pretty_N_go_parse n : ∃ k, ∀ s,
  (∀ acc, parse_digits acc (pretty_N_go n s) = parse_digits (acc * k + Z.of_N n) s) ∧
  (str_forallb printable s = true → str_forallb printable (pretty_N_go n s) = true) ∧
  ((0 < n)%N → ∃ c t, digit c = true ∧ pretty_N_go n s = String c t).
Proof.
  induction n as [n IH] using (well_founded_induction N.lt_wf_0).
  destruct (decide (n = 0%N)) as [->|Hn].
  { exists 1. intros s. rewrite pretty_N_go_0. split_and!; [|done|lia]. intros acc. f_equal. lia. }
  destruct (IH (n / 10)%N) as [k Hk]; [apply N.div_lt; lia|].
  destruct (pretty_N_char_digit (n mod 10)%N) as (Hdig & Hval & Hpr); [by apply N.mod_lt|].
  exists (k * 10). intros s. rewrite pretty_N_go_step by lia.
  destruct (Hk (String (pretty_N_char (n mod 10)) s)) as (Hparse & Hprint & Hfirst). split_and!.
  - intros acc. rewrite Hparse. cbn. unfold digit in Hdig. rewrite Hval in *. rewrite Hdig. f_equal.
    pose proof (N.div_mod n 10). lia.
  - intros Hs. apply Hprint. cbn. by rewrite Hpr.
  - intros _. destruct (decide (n / 10 = 0)%N) as [E|E]; [|apply Hfirst; by apply N.neq_0_lt_0].
    rewrite E, pretty_N_go_0. eauto.
Qed.

Lemma pretty_digits i : 0 ≤ i →
  parse_digits 0 (pretty i) = Some i ∧ str_forallb printable (pretty i) = true ∧
  ∃ c t, digit c = true ∧ pretty i = String c t.
Proof.
  intros Hi. destruct i as [|i|i]; [|change (pretty (Z.pos i)) with (pretty_N_go (N.pos i) "")|lia].
  { split_and!; [done|by vm_compute|]. by exists "0"%char, "". }
  destruct (pretty_N_go_parse (N.pos i)) as [k Hk]. destruct (Hk "") as (Hparse & Hprint & Hfirst).
  split_and!; [|by apply Hprint|by apply Hfirst]. rewrite Hparse. done.
Qed.

Lemma ParseInt64_pretty i : 0 ≤ i ≤ MaxInt64 → ParseInt64 (pretty i) = Some i.
Proof.
  intros Hi. destruct (pretty_digits i) as (Hparse & _ & c & t & Hc & E); [lia|].
  assert (c ≠ "-"%char ∧ c ≠ "+"%char) as [Hm Hp] by (split; intros ->; vm_compute in Hc; done).
  assert (ParseInt64 (String c t) = match parse_digits 0 (String c t) with
    | Some u => if (MinInt64 <=? u) && (u <=? MaxInt64) then Some u else None | None => None end) as Hs.
  { unfold ParseInt64. destruct c as [[] [] [] [] [] [] [] []]; try done. }
  rewrite E in *. rewrite Hs, Hparse. unfold MinInt64, MaxInt64 in *.
  destruct (Z.leb_spec (-9223372036854775808) i); [|lia]. destruct (Z.leb_spec i 9223372036854775807); [done|lia].
Qed.

Lemma printable_trim s : str_forallb printable s = true → is_ascii s = true ∧ trim_ascii s = s.
Proof.
  intros Hs. assert (trim_right s = s ∧ is_ascii s = true) as [Hr Ha].
  { induction s as [|c s IH]; [done|]. cbn in Hs. apply andb_true_iff in Hs as [Hc Hs].
    apply andb_true_iff in Hc as [Ha Hsp%negb_true_iff]. destruct (IH Hs) as [Hr Has].
    unfold is_ascii in *. cbn. rewrite Hr, Ha, Has, Hsp. split; [by destruct s|done]. }
  split; [done|]. unfold trim_ascii. destruct s as [|c s]; [done|]. cbn in Hs.
  apply andb_true_iff in Hs as [[_ Hsp%negb_true_iff]%andb_true_iff _]. cbn [trim_left]. rewrite Hsp. done.
Qed.

Lemma substring_all t m : (String.length t ≤ m)%nat → String.substring 0 m t = t.
Proof.
  revert m. induction t as [|c t IH]; intros [|m] Hm; cbn in *; [done..|lia|]. f_equal. apply IH. lia.
Qed.

Lemma parse_shardKey {GR : GoRuntime} i : 0 ≤ i ≤ MaxInt64 → parseShardIndexFromKey (shardKey i) = Some i.
Proof.
  intros Hi. destruct (pretty_digits i) as (_ & Hprint & _); [lia|].
  pose proof (ParseInt64_pretty i Hi) as Hnum. unfold shardKey. revert Hprint Hnum. generalize (pretty i).
  intros t Hprint Hnum.
  assert (str_forallb printable ("shard/" ++ t) = true) as Hp by exact Hprint.
  apply printable_trim in Hp as [Ha Ht]. unfold parseShardIndexFromKey, TrimSpace. rewrite Ha, Ht.
  replace (HasPrefix ("shard/" ++ t) "shard/") with true by by destruct t.
  change (String.substring 6 (String.length ("shard/" ++ t)) ("shard/" ++ t))
    with (String.substring 0 (6 + String.length t) t).
  by rewrite substring_all by lia.
Qed.


(** ** Topology *)

Section topology.
Context {GR : GoRuntime} {codec : OwnerCodec} {kv : kvStore} (r : Registry).

(** The store answers reads: a missing key is the only error. *)
Definition readable : Prop :=
  (∀ key s, match (kvGet key s).2 with inl e => errors_Is errKeyNotFound e = true | inr _ => True end) ∧
  ∀ s, is_Some (ok_of (kvKeys s).2).

(** Under [key] there is a record of shard [i] whose lease has not expired. *)
Definition aliveAt (nowUnix : Z) (b : bucket Raw) (key : string) (i : Z) : Prop :=
  parseShardIndexFromKey key = Some i ∧
  ∃ v rev rec, contents b !! key = Some (v, rev) ∧ decodeOwner v = inr rec ∧ leaseExpired r nowUnix rec = false.

Lemma exec_bind {A B} now (f : A → prog B) (p : prog A) s :
  exec now (prog_bind f p) s = let '(s, a) := exec now p s in exec now (f a) s.
Proof.
  revert s. induction p as [a|key k IH|key v k IH|key v rev k IH|key k IH|k IH|k IH|k IH]; cbn; intros s;
    [done| | | | | |apply IH..].
  all: by match goal with |- context [let '(_, _) := ?x in _] => destruct x end.
Qed.

Lemma topologyLoop_exec (Hread : readable) now nowUnix n keys seen s :
  ∃ s' seen', exec now (topologyLoop r n nowUnix keys seen) s = (s', inr seen') ∧ view s' = view s ∧
    ∀ i, i ∈ seen' ↔ i ∈ seen ∨ (0 ≤ i < n ∧ ∃ key, key ∈ keys ∧ aliveAt nowUnix (view s) key i).
Proof.
  revert seen s. induction keys as [|key keys IH]; intros seen s.
  { exists s, seen. split_and!; [done..|]. intros i. split; [by left|]. intros [?|(_ & key & []%elem_of_nil & _)]; done. }
  assert (∀ s1, view s1 = view s → (∀ i, 0 ≤ i < n → aliveAt nowUnix (view s) key i → i ∈ seen) →
    ∃ s' seen', exec now (topologyLoop r n nowUnix keys seen) s1 = (s', inr seen') ∧ view s' = view s ∧
    ∀ i, i ∈ seen' ↔ i ∈ seen ∨ (0 ≤ i < n ∧ ∃ k, k ∈ key :: keys ∧ aliveAt nowUnix (view s) k i)) as Hskip.
  { intros s1 Hs1 Hno. destruct (IH seen s1) as (s' & seen' & He & Hv & Hi). exists s', seen'.
    split_and!; [done|congruence|]. intros i. rewrite Hi, Hs1. setoid_rewrite elem_of_cons.
    split; [naive_solver|]. intros [?|(Hr & k & [->|Hk] & Ha)]; eauto. }
  cbn [topologyLoop]. cbn.
  destruct (parseShardIndexFromKey key) as [idx|] eqn:Hidx;
    [|apply Hskip; [done|]; intros i _ [? _]; congruence].
  destruct ((idx <? 0) || (n <=? idx)) eqn:Hbound.
  { apply Hskip; [done|]. intros i Hr [Hi _]. replace i with idx in Hr by congruence.
    apply orb_true_iff in Hbound as [?%Z.ltb_lt|?%Z.leb_le]; lia. }
  apply orb_false_iff in Hbound as [Hlo%Z.ltb_ge Hhi%Z.leb_gt].
  cbn. pose proof (proj1 Hread key s) as Hget. destruct (kvGet key s) as [s1 res] eqn:E.
  apply kvGet_law in E as [Hv1 E]. cbn in Hget. destruct res as [e|[v rev]].
  { rewrite Hget. apply Hskip; [done|]. intros i _ [_ (v & rev & rec & Hc & _)]. rewrite (E Hget) in Hc. done. }
  destruct (decodeOwner v) as [e|rec] eqn:Hdec.
  { apply Hskip; [done|]. intros i _ [_ (v' & rev' & rec & Hc & Hd & _)]. congruence. }
  destruct (leaseExpired r nowUnix rec) eqn:Hexp.
  { apply Hskip; [done|]. intros i _ [_ (v' & rev' & rec' & Hc & Hd & Hl)]. congruence. }
  destruct (IH ({[idx]} ∪ seen) s1) as (s' & seen' & He & Hv & Hi). exists s', seen'.
  split_and!; [done|congruence|]. intros i. rewrite Hi, Hv1, elem_of_union, elem_of_singleton. setoid_rewrite elem_of_cons.
  assert (aliveAt nowUnix (view s) key idx) as Halive by (split; [done|]; by exists v, rev, rec).
  split.
  - intros [[->|?]|(Hr & k & Hk & Ha)]; [|by left|right; eauto]. right. split; [lia|]. exists key. eauto.
  - intros [?|(Hr & k & [->|Hk] & Ha)]; [by left; right| |eauto].
    left; left. destruct Ha as [Ha _]. congruence.
Qed.

(** On a store that answers, the topology is reported complete exactly when
    every shard of [0 .. shardCount) has a record with an unexpired lease under
    one of its keys; the keys written by [Acquire] are read back as their shard. *)
Theorem topology_complete_iff_all_alive (Hread : readable) now s n :
  1 ≤ n ≤ MaxInt64 →
  ∃ s' b, exec now (TopologyComplete r n) s = (s', inr b) ∧ view s' = view s ∧
    (b = true ↔ ∀ i, 0 ≤ i < n → ∃ key, aliveAt (Unix now) (view s) key i) ∧
    ∀ i, 0 ≤ i < n → parseShardIndexFromKey (shardKey i) = Some i.
Proof.
  intros Hn. unfold TopologyComplete, mbind, prog_mbind. destruct (Z.ltb_spec n 1); [lia|].
  rewrite exec_bind. cbn [exec listKeys].
  destruct (proj2 Hread s) as [keys Hkeys]. destruct (kvKeys s) as [s1 res] eqn:E.
  apply kvKeys_law in E as [Hv1 E]. cbn in Hkeys. destruct res as [e|keys']; [done|]. injection Hkeys as ->.
  rewrite exec_bind. cbn [exec timeNow]. rewrite exec_bind. destruct (topologyLoop_exec Hread now (Unix now) n keys ∅ s1) as (s' & seen & He & Hv & Hi).
  rewrite He. cbn. exists s', (Z.of_nat (size seen) =? n). split_and!; [done|congruence| |].
  2:{ intros i Hr. apply parse_shardKey. lia. }
  set (all := list_to_set (seqZ 0 n) : gset Z).
  assert (Z.of_nat (size all) = n) as Hsize.
  { unfold all. rewrite size_list_to_set by apply NoDup_seqZ. rewrite length_seqZ. lia. }
  assert (∀ i, i ∈ seen ↔ 0 ≤ i < n ∧ ∃ key, aliveAt (Unix now) (view s) key i) as Hseen.
  { intros i. rewrite Hi, Hv1. split; [intros [[]%elem_of_empty|(? & k & _ & ?)]; eauto|].
    intros (Hr & key & Ha). right. split; [done|]. exists key. split; [|done].
    apply E. destruct Ha as (_ & v & rev & rec & Hc & _). by rewrite Hc. }
  assert (seen ⊆ all) as Hsub.
  { intros i Hin. apply elem_of_list_to_set, elem_of_seqZ. apply Hseen in Hin. lia. }
  rewrite Z.eqb_eq. split.
  - intros Hsz i Hr. assert (seen = all) as -> by (apply set_subseteq_size_eq; [done|lia]).
    apply Hseen. apply elem_of_list_to_set, elem_of_seqZ. lia.
  - intros Hall. replace seen with all; [done|]. apply set_eq. intros i. split; [|apply Hsub].
    intros Hin%elem_of_list_to_set%elem_of_seqZ. apply Hseen. split; [lia|]. apply Hall. lia.
Qed.

End topology.

(** ** Examples

    A lease time of 30 seconds; times are in seconds. *)

#[local] Existing Instances go_amd64 plainCodec memKV.

Definition w_registry : Registry := NewWithKV (MkConfig 0 0).
Definition w_host : hostInfo := MkHost "node" 7.
Definition w_start (id : nat) (name : string) : label := Start id w_host 0 1 name.
(** [n] calls of a process at one time *)
Definition w_calls (id n : nat) (sec : Z) : list label := replicate n (Call id (sec * 1000000000) None).
Definition w_empty : system := MkSystem emptyMem ∅.

Definition w_owner (σ : system) : option ownerRecord := fst <$> contents (view (store σ)) !! "shard/0".

Lemma emptyMem_wf : wf_bucket (view emptyMem).
Proof. intros key v rev H. change (contents (view emptyMem)) with (∅ : gmap string (Raw * Z)) in H. by rewrite lookup_empty in H. Qed.

(** A takes the shard at second 0, B at second 40. *)
Definition w_taken : list label := w_start 1 "A" :: w_calls 1 5 0.
Definition w_takes : list label := w_start 2 "B" :: w_calls 2 5 40.

Lemma ownership_passes_after_expiry_witness :
  let σ := run w_registry w_taken w_empty in
  ∃ ls l rest rec, w_takes = ls ++ l :: rest ∧
    ownerOf "shard/0" (run w_registry ls σ) = Some rec ∧ InstanceID rec = "A" ∧
    (handsOver w_registry "shard/0" l (run w_registry ls σ) ∨ takesAway w_registry "shard/0" l (run w_registry ls σ)).
Proof.
  apply (ownership_passes_after_expiry w_registry emptyMem w_taken w_takes "shard/0"
           (MkOwner "A" "node" 7 "0" 0) (MkOwner "B" "node" 7 "40000000000" 40)).
  - apply emptyMem_wf.
  - repeat constructor.
  - vm_compute. reflexivity.
  - vm_compute. reflexivity.
  - discriminate.
Defined.

(** A starts to release its expired lease and has read its own record; B takes the
    shard over; A removes the record, which is B's by now; C takes the shard. *)
Definition w_race : list label :=
  w_start 1 "A" :: w_calls 1 5 0 ++ Stop 1 :: w_calls 1 2 40 ++
  w_start 2 "B" :: w_calls 2 5 40 ++ w_calls 1 1 41 ++ w_start 3 "C" :: w_calls 3 5 41.

(** A release can remove the record of a successor: there is an interleaving,
    without crashes or failures of the store, after which two instances hold the
    lease of one shard although the first heartbeat has not expired when the second
    is granted. *)
Theorem release_race_gives_two_owners :
  ∃ ls l1 l2, let σ := run w_registry ls w_empty in
    procs σ !! 2%nat = Some (Holding l1) ∧ procs σ !! 3%nat = Some (Holding l2) ∧
    lease_key l1 = lease_key l2 ∧ lease_instanceID l1 = "B" ∧ lease_instanceID l2 = "C" ∧
    lease_lastHeartbeatUnix l1 ≤ lease_lastHeartbeatUnix l2 ∧
    leaseExpired w_registry (lease_lastHeartbeatUnix l2)
      (MkOwner (lease_instanceID l1) (lease_hostname l1) (lease_pid l1) (lease_startedAt l1) (lease_lastHeartbeatUnix l1)) = false.
Proof.
  exists w_race, (MkLease w_registry "shard/0" "B" "40000000000" "node" 7 0 2 40),
    (MkLease w_registry "shard/0" "C" "41000000000" "node" 7 0 4 41).
  vm_compute. by split_and!.
Qed.

Lemma memKV_readable : readable (kv:=memKV).
Proof. split; [|by intros s; eexists]. intros key s. cbn. by destruct (contents s !! key). Qed.

Lemma topology_complete_iff_all_alive_witness :
  ∃ s' b, exec 5000000000 (TopologyComplete w_registry 1) (store (run w_registry w_race w_empty)) = (s', inr b) ∧ b = true.
Proof.
  destruct (topology_complete_iff_all_alive w_registry memKV_readable 5000000000
              (store (run w_registry w_race w_empty)) 1) as (s' & b & He & _ & Hb & _); [unfold MaxInt64; lia|].
  exists s', b. split; [exact He|]. apply Hb. intros i Hi. exists "shard/0". replace i with 0 by lia.
  split; [vm_compute; reflexivity|].
  exists (MkOwner "C" "node" 7 "41000000000" 41), 4, (MkOwner "C" "node" 7 "41000000000" 41).
  by split_and!; vm_compute.
Defined.
