(* ===== verification/Supervisor.v ===== *)
(** * Supervisor: internal/actors/runtime/supervisor.go

    The restart policy of the runtime: it remembers the recent failures of each
    subsystem and decides whether to restart it, after which delay, or to leave it
    down for a cooldown. The jitter source is the sequence [rng] of its draws;
    times are nanoseconds. *)

From S2P Require Import Prelude GoRuntime Shared.
From Stdlib Require Import Ascii SpecFloat.

Local Open Scope string_scope.
Local Open Scope list_scope.
Local Open Scope Z_scope.

Definition Subsystem : Type := string.

Record SupervisorConfig := MkSupervisorConfig {
  BaseBackoff : Z; MaxBackoff : Z; Jitter : float64; RestartWindow : Z; RestartLimit : Z; Cooldown : Z }.
#[export] Instance SupervisorConfig_Eta : Eta SupervisorConfig :=
  λ c, MkSupervisorConfig (BaseBackoff c) (MaxBackoff c) (Jitter c) (RestartWindow c) (RestartLimit c) (Cooldown c).

Record SupervisorDecision := MkSupervisorDecision {
  Restart : bool; Delay : Z; EnterDegraded : bool; DegradedUntil : Z; Reason : string }.

Record PolicyStatus := MkPolicyStatus { ps_Degraded : bool; ps_RestartCount : Z; ps_CooldownUntil : Z }.

Record restartState := MkRestartState { failures : list Z; degradedUntil : Z; restartCount : Z }.
#[export] Instance restartState_Eta : Eta restartState :=
  λ s, MkRestartState (failures s) (degradedUntil s) (restartCount s).

(** [draws] counts the calls of the random source. *)
Record SupervisorPolicy := MkSupervisorPolicy {
  sup_cfg : SupervisorConfig; states : gmap Subsystem restartState; draws : nat }.
#[export] Instance SupervisorPolicy_Eta : Eta SupervisorPolicy :=
  λ p, MkSupervisorPolicy (sup_cfg p) (states p) (draws p).

Definition zeroRestartState : restartState := MkRestartState [] zeroTime 0.

(** Duration fields that are zero or negative take their default. *)
Definition orDefault (v d : Z) : Z := if v <=? 0 then d else v.

Definition NewSupervisorPolicy (cfg : SupervisorConfig) : Problem + SupervisorPolicy :=
  let cfg := cfg <| BaseBackoff ::= λ v, orDefault v 250000000 |> <| MaxBackoff ::= λ v, orDefault v 5000000000 |> in
  if MaxBackoff cfg <? BaseBackoff cfg then inl (New InvalidArgument "max backoff must be >= base backoff") else
  let cfg := cfg <| RestartWindow ::= λ v, orDefault v 30000000000 |> <| RestartLimit ::= λ v, orDefault v 5 |>
                 <| Cooldown ::= λ v, orDefault v 30000000000 |> in
  if fltb (Jitter cfg) f0 || fltb f1 (Jitter cfg) then inl (New InvalidArgument "jitter must be in [0,1]") else
  inr (MkSupervisorPolicy cfg ∅ 0).

Definition pruneFailures (events : list Z) (now window : Z) : list Z :=
  let fix skip (l : list Z) := match l with
    | [] => []
    | e :: l' => if e <? now - window then skip l' else l
    end in
  skip events.

(** [math.Pow(2, float64(n))] *)
Definition Pow2 (n : Z) : float64 := if n <? 1024 then f_of_Z (2 ^ n) else S754_infinity false.

Section supervisor.
Context {GR : GoRuntime} (rng : nat → float64).

Definition cappedExponentialBackoff (base capDelay attempt : Z) : Z :=
  let attempt := if attempt <? 0 then 0 else attempt in
  let mult := Pow2 attempt in
  if isInf mult then capDelay else
  let rawFloat := fmul (f_of_Z base) mult in
  if isInf rawFloat || fleb rawFloat f0 || fltb (f_of_Z capDelay) rawFloat then capDelay
  else i64_of_f rawFloat.

(** Returns the number of draws too. *)
Definition applyJitter (delay : Z) (jitter : float64) (drawn : nat) : nat * Z :=
  if (delay <=? 0) || feqb jitter f0 then (drawn, delay) else
  let scale := fadd f1 (fmul (fsub (fmul (rng drawn) (f_of_Z 2)) f1) jitter) in
  let scale := if fltb scale f0 then f0 else scale in
  (S drawn, i64_of_f (fmul (f_of_Z delay) scale)).

(** [state]: the entry of the subsystem, created when there is none. *)
Definition getState (subsystem : Subsystem) (p : SupervisorPolicy) : restartState :=
  default zeroRestartState (states p !! subsystem).
Definition setState (subsystem : Subsystem) (st : restartState) (p : SupervisorPolicy) : SupervisorPolicy :=
  p <| states ::= <[subsystem := st]> |>.

Definition OnFailure (subsystem : Subsystem) (now : Z) (p : SupervisorPolicy) : SupervisorPolicy * SupervisorDecision :=
  let st := getState subsystem p in
  if now <? degradedUntil st then
    (setState subsystem st p, MkSupervisorDecision false 0 false (degradedUntil st) "subsystem in cooldown")
  else
    let st := st <| failures := pruneFailures (failures st) now (RestartWindow (sup_cfg p)) ++ [now] |> in
    if RestartLimit (sup_cfg p) <? Z.of_nat (length (failures st)) then
      let st := st <| degradedUntil := now + Cooldown (sup_cfg p) |> in
      (setState subsystem st p, MkSupervisorDecision false 0 true (degradedUntil st) "restart limit exceeded")
    else
      let attempt := Z.of_nat (length (failures st)) - 1 in
      let delay := cappedExponentialBackoff (BaseBackoff (sup_cfg p)) (MaxBackoff (sup_cfg p)) attempt in
      let '(drawn, delay) := applyJitter delay (Jitter (sup_cfg p)) (draws p) in
      let st := st <| restartCount ::= λ n, add64 n 1 |> in
      ((setState subsystem st p) <| draws := drawn |>, MkSupervisorDecision true delay false (degradedUntil st) "").

Definition MarkRecovered (subsystem : Subsystem) (p : SupervisorPolicy) : SupervisorPolicy :=
  setState subsystem ((getState subsystem p) <| failures := [] |> <| degradedUntil := zeroTime |>) p.

(** [now] is the reading of the policy's clock. *)
Definition Status (subsystem : Subsystem) (now : Z) (p : SupervisorPolicy) : SupervisorPolicy * PolicyStatus :=
  let st := getState subsystem p in
  (setState subsystem st p, MkPolicyStatus (now <? degradedUntil st) (restartCount st) (degradedUntil st)).

End supervisor.

(** ** The restart budget

    Failures and recoveries of subsystems in the order of time. *)

Inductive supOp := Failed (subsystem : Subsystem) | RecoveredOp (subsystem : Subsystem).

Section budget.
Context {GR : GoRuntime} (rng : nat → float64).

Definition supLog : Type := list (Z * Subsystem * SupervisorDecision).

Definition supStep (run : SupervisorPolicy * supLog) (op : Z * supOp) : SupervisorPolicy * supLog :=
  match op with
  | (now, Failed sub) => let '(p, d) := OnFailure rng sub now run.1 in (p, run.2 ++ [(now, sub, d)])
  | (_, RecoveredOp sub) => (MarkRecovered sub run.1, run.2)
  end.
Definition supRun (ops : list (Z * supOp)) (p : SupervisorPolicy) : SupervisorPolicy * supLog :=
  foldl supStep (p, []) ops.

(** The times at which restarts of [sub] were granted, and at which it was degraded. *)
Definition granted (sub : Subsystem) (ds : supLog) : list Z :=
  omap (λ '(t, s, d), if str_eqb s sub && Restart d then Some t else None) ds.
Definition degradedAt (sub : Subsystem) (ds : supLog) : list Z :=
  omap (λ '(t, s, d), if str_eqb s sub && EnterDegraded d then Some t else None) ds.

Definition within (a b : Z) (l : list Z) : list Z := filter (λ t, a ≤ t ≤ b) l.

(** Every restart finds at most [limit] restarts in the window that ends with it. *)
Definition paced (window limit : Z) (l : list Z) : Prop :=
  ∀ l1 t l2, l = l1 ++ t :: l2 → Z.of_nat (length (within (t - window) t (l1 ++ [t]))) ≤ limit.

Lemma length_filter_mono {A} (P Q : A → Prop) `{∀ x, Decision (P x), ∀ x, Decision (Q x)} (l : list A) :
  (∀ x, x ∈ l → P x → Q x) → (length (filter P l) ≤ length (filter Q l))%nat.
Proof.
  intros HPQ. induction l as [|x l IH]; [done|]. rewrite !filter_cons.
  assert (∀ y, y ∈ l → P y → Q y) as HPQ' by (intros y ?; apply HPQ; by right). specialize (IH HPQ').
  destruct (decide (P x)) as [HP|]; destruct (decide (Q x)) as [|HQ]; cbn; try lia.
  exfalso. apply HQ, HPQ; [left|done].
Qed.

(** A paced list has at most [limit] elements in any interval of one window. *)
Lemma paced_interval window limit l a :
  0 ≤ limit → StronglySorted Z.le l → paced window limit l →
  Z.of_nat (length (within a (a + window) l)) ≤ limit.
Proof.
  intros Hlim. induction l as [|x l IH] using rev_ind; intros Hs Hp; [cbn; lia|].
  assert (paced window limit l) as Hpl.
  { intros l1 t l2 ->. apply (Hp l1 t (l2 ++ [x])). by rewrite <-app_assoc. }
  apply StronglySorted_app in Hs as (Hle & Hsl & _). specialize (IH Hsl Hpl).
  destruct (decide (a ≤ x ≤ a + window)) as [Hx|Hx].
  - specialize (Hp l x [] eq_refl). etrans; [|exact Hp]. apply inj_le, length_filter_mono.
    intros t [Ht|Ht%list_elem_of_singleton]%elem_of_app ?; [|lia].
    specialize (Hle t x Ht ltac:(by left)). lia.
  - unfold within in *. rewrite filter_app, (filter_cons_False _ x) by done. rewrite filter_nil, app_nil_r. done.
Qed.

Lemma pruneFailures_filter l now window :
  StronglySorted Z.le l → pruneFailures l now window = filter (λ t, now - window ≤ t) l.
Proof.
  unfold pruneFailures. induction 1 as [|x l Hs IH Hx]; [done|]. rewrite filter_cons.
  destruct (Z.ltb_spec x (now - window)); destruct (decide (now - window ≤ x)); try lia; [done|].
  f_equal. symmetry. apply filter_id. intros y Hy. rewrite Forall_forall in Hx. specialize (Hx y Hy). lia.
Qed.

(** Recorded failures are in order and in the past. *)
Definition orderly (p : SupervisorPolicy) (tl : Z) : Prop :=
  ∀ sub, let st := getState sub p in StronglySorted Z.le (failures st) ∧ Forall (λ t, t ≤ tl) (failures st).

Lemma getState_set sub sub' st p :
  getState sub (setState sub' st p) = if decide (sub = sub') then st else getState sub p.
Proof.
  unfold getState, setState. cbn. destruct (decide (sub = sub')) as [->|].
  - by rewrite lookup_insert_eq.
  - by rewrite lookup_insert_ne.
Qed.

Lemma getState_draws sub k p : getState sub (p <| draws := k |>) = getState sub p.
Proof. done. Qed.

Lemma sorted_snoc l t : StronglySorted Z.le l → Forall (λ x, x ≤ t) l → StronglySorted Z.le (l ++ [t]).
Proof.
  intros Hs Hle. apply StronglySorted_app. split_and!; [|done|repeat constructor].
  intros x y Hx Hy%list_elem_of_singleton. subst y. rewrite Forall_forall in Hle. by apply Hle.
Qed.

Lemma sorted_filter (P : Z → Prop) `{∀ x, Decision (P x)} l : StronglySorted Z.le l → StronglySorted Z.le (filter P l).
Proof.
  induction 1 as [|x l Hs IH Hx]; [constructor|]. rewrite filter_cons. destruct (decide (P x)); [|done].
  constructor; [done|]. apply Forall_forall. intros y [_ Hy]%list_elem_of_filter. rewrite Forall_forall in Hx. by apply Hx.
Qed.

(** One failure: refused in cooldown, or recorded and then restarted or degraded. *)
Lemma OnFailure_cases sub now p p' d (st := getState sub p) :
  OnFailure rng sub now p = (p', d) → StronglySorted Z.le (failures st) →
  sup_cfg p' = sup_cfg p ∧ (∀ sub', sub' ≠ sub → getState sub' p' = getState sub' p) ∧
  let fs := filter (λ t, now - RestartWindow (sup_cfg p) ≤ t) (failures st) ++ [now] in
  (now < degradedUntil st ∧ getState sub p' = st ∧ Restart d = false ∧ EnterDegraded d = false) ∨
  (degradedUntil st ≤ now ∧ failures (getState sub p') = fs ∧ Restart d = false ∧ EnterDegraded d = true ∧
     degradedUntil (getState sub p') = now + Cooldown (sup_cfg p)) ∨
  (degradedUntil st ≤ now ∧ failures (getState sub p') = fs ∧ Restart d = true ∧ EnterDegraded d = false ∧
     degradedUntil (getState sub p') = degradedUntil st ∧ Z.of_nat (length fs) ≤ RestartLimit (sup_cfg p)).
Proof.
  intros Hrun Hs. unfold OnFailure in Hrun. fold st in Hrun. destruct (Z.ltb_spec now (degradedUntil st)).
  { injection Hrun as <- <-. split; [done|]. split; [intros sub' ?; rewrite getState_set; by case_decide|].
    left. rewrite getState_set, decide_True by done. done. }
  rewrite (pruneFailures_filter _ _ _ Hs) in Hrun. cbn in Hrun.
  match type of Hrun with context [?a <? ?b] => destruct (Z.ltb_spec a b) as [Hlim|Hlim] end.
  { injection Hrun as <- <-. split; [done|]. split; [intros sub' ?; rewrite getState_set; by case_decide|].
    right; left. rewrite getState_set, decide_True by done. done. }
  destruct applyJitter as [drawn delay]. injection Hrun as <- <-. split; [done|].
  split; [intros sub' ?; rewrite getState_draws, getState_set; by case_decide|].
  right; right. rewrite getState_draws, getState_set, decide_True by done. split_and!; [done..|exact Hlim].
Qed.

(** The state of the budget of [sub] since the log [ds] began. *)
Record budget (cfg : SupervisorConfig) (sub : Subsystem) (tl : Z) (run : SupervisorPolicy * supLog) : Prop := {
  b_cfg : sup_cfg run.1 = cfg;
  b_orderly : orderly run.1 tl;
  b_sorted : StronglySorted Z.le (granted sub run.2);
  b_past : Forall (λ t, t ≤ tl) (granted sub run.2);
  b_recorded : filter (λ t, tl - RestartWindow cfg ≤ t) (granted sub run.2) `sublist_of` failures (getState sub run.1);
  b_paced : paced (RestartWindow cfg) (RestartLimit cfg) (granted sub run.2);
  b_cooldown : Forall (λ t, t + Cooldown cfg ≤ degradedUntil (getState sub run.1)) (degradedAt sub run.2);
  b_cooled : ∀ ds1 ds2, run.2 = ds1 ++ ds2 →
    ∀ t t', t ∈ degradedAt sub ds1 → t' ∈ granted sub ds2 → t + Cooldown cfg ≤ t';
}.

Lemma granted_app sub ds1 ds2 : granted sub (ds1 ++ ds2) = granted sub ds1 ++ granted sub ds2.
Proof. apply omap_app. Qed.
Lemma degradedAt_app sub ds1 ds2 : degradedAt sub (ds1 ++ ds2) = degradedAt sub ds1 ++ degradedAt sub ds2.
Proof. apply omap_app. Qed.

Lemma sublist_filter_mono (P : Z → Prop) `{∀ x, Decision (P x)} l1 l2 :
  l1 `sublist_of` l2 → filter P l1 `sublist_of` filter P l2.
Proof.
  induction 1 as [|x l1 l2 Hl IH|x l1 l2 Hl IH]; [constructor|..]; rewrite ?filter_cons; destruct (decide (P x)); by try constructor.
Qed.

Lemma filter_later (a b : Z) (l : list Z) : a ≤ b → filter (λ t, b ≤ t) (filter (λ t, a ≤ t) l) = filter (λ t, b ≤ t) l.
Proof.
  intros Hab. induction l as [|x l IH]; [done|]. rewrite !filter_cons.
  destruct (decide (a ≤ x)); destruct (decide (b ≤ x)); rewrite ?filter_cons, ?decide_True, ?decide_False by done;
    [by f_equal|done|lia|done].
Qed.

Lemma sublist_recorded tl now window (l fs : list Z) :
  tl ≤ now → filter (λ t, tl - window ≤ t) l `sublist_of` fs →
  filter (λ t, now - window ≤ t) l `sublist_of` filter (λ t, now - window ≤ t) fs.
Proof. intros Hle H. rewrite <-(filter_later (tl - window) (now - window) l) by lia. by apply sublist_filter_mono. Qed.

Lemma sublist_past tl now window (l fs : list Z) :
  tl ≤ now → filter (λ t, tl - window ≤ t) l `sublist_of` fs → filter (λ t, now - window ≤ t) l `sublist_of` fs.
Proof. intros Hle H. etrans; [by apply (sublist_recorded tl)|]. apply sublist_filter. Qed.

Lemma Forall_le_mono (l : list Z) a b : a ≤ b → Forall (λ t, t ≤ a) l → Forall (λ t, t ≤ b) l.
Proof. intros Hab H. eapply Forall_impl; [exact H|]. cbn. lia. Qed.

(** A decision that grants and degrades nothing for [sub]. *)
Lemma budget_quiet cfg sub tl now run p' sub' d :
  budget cfg sub tl run → tl ≤ now → sup_cfg p' = cfg → orderly p' now → getState sub p' = getState sub run.1 →
  granted sub [(now, sub', d)] = [] → degradedAt sub [(now, sub', d)] = [] →
  budget cfg sub now (p', run.2 ++ [(now, sub', d)]).
Proof.
  intros [Hcfg Hord Hsort Hpast Hrec Hpaced Hcd Hcool] Hle Hcfg' Hord' Hst Hg Hd.
  split; cbn [fst snd]; rewrite ?granted_app, ?degradedAt_app, ?Hg, ?Hd, ?app_nil_r, ?Hst;
    [done|done|done|by apply (Forall_le_mono _ tl)|by apply (sublist_past tl)|done|done|].
  intros ds1 ds2 Heq t t' Ht Ht'. destruct ds2 as [|e ds2 _] using rev_ind; [by apply elem_of_nil in Ht'|].
  rewrite app_assoc in Heq. apply app_inj_tail in Heq as [Heq <-].
  rewrite granted_app, Hg, app_nil_r in Ht'. by eapply Hcool.
Qed.

Lemma orderly_failed sub tl now p p' d :
  orderly p tl → tl ≤ now → OnFailure rng sub now p = (p', d) → orderly p' now.
Proof.
  intros Hord Hle E s. destruct (OnFailure_cases _ _ _ _ _ E (proj1 (Hord sub))) as (_ & Hother & Hcases).
  cbn zeta in *. destruct (decide (s = sub)) as [->|Hs]; [|rewrite Hother by done; destruct (Hord s); eauto using Forall_le_mono].
  destruct (Hord sub) as [Hfs Hfl].
  destruct Hcases as [(_ & -> & _)|[(_ & -> & _)|(_ & -> & _)]]; [eauto using Forall_le_mono|..].
  all: assert (Forall (λ t, t ≤ now) (filter (λ t, now - RestartWindow (sup_cfg p) ≤ t) (failures (getState sub p))))
    by (apply Forall_forall; intros t [_ Ht]%list_elem_of_filter; rewrite Forall_forall in Hfl; specialize (Hfl t Ht); lia).
  all: split; [apply sorted_snoc; [by apply sorted_filter|done]|apply Forall_app; split; [done|by constructor]].
Qed.

(** A failure of a subsystem, [sub] or another. *)
Lemma budget_failed cfg sub sub' tl now run :
  0 ≤ RestartWindow cfg → 0 ≤ Cooldown cfg →
  budget cfg sub tl run → tl ≤ now → budget cfg sub now (supStep run (now, Failed sub')).
Proof.
  intros Hw Hc.
  intros [Hcfg Hord Hsort Hpast Hrec Hpaced Hcd Hcool] Hle. cbn. destruct (OnFailure rng sub' now run.1) as [p' d] eqn:E.
  destruct (OnFailure_cases _ _ _ _ _ E (proj1 (Hord sub'))) as (Hcfg' & Hother & Hcases). cbn zeta in Hcases.
  assert (orderly p' now) as Hord' by by apply (orderly_failed sub' tl now run.1 p' d).
  destruct (decide (sub' = sub)) as [->|Hne].
  2:{ apply (budget_quiet cfg sub tl now run p' sub' d); [done|done|congruence|done|by apply Hother|..];
        cbn -[str_eqb]; replace (str_eqb sub' sub) with false by (symmetry; by apply String.eqb_neq); done. }
  assert (str_eqb sub sub = true) as Hself by by apply String.eqb_eq.
  destruct Hcases as [(_ & Hst & Hr & Hd)|[(Hdu & Hfs & Hr & Hd & Hdu')|(Hdu & Hfs & Hr & Hd & Hdu' & Hlim)]].
  - apply (budget_quiet cfg sub tl now run p' sub d); [done|done|congruence|done|done|..]; cbn -[str_eqb]; by rewrite Hself, ?Hr, ?Hd.
  - assert (granted sub [(now, sub, d)] = [] ∧ degradedAt sub [(now, sub, d)] = [now]) as [Hg Hdg]
      by (cbn -[str_eqb]; by rewrite Hself, Hr, Hd).
    split; cbn [fst snd]; rewrite ?granted_app, ?degradedAt_app, ?Hg, ?Hdg, ?app_nil_r, ?Hfs, ?Hdu';
      [congruence|done|done|by apply (Forall_le_mono _ tl)| |done| |].
    + rewrite Hcfg. apply sublist_inserts_r. by apply (sublist_recorded tl).
    + rewrite Hcfg. apply Forall_app. split; [|by constructor]. eapply Forall_impl; [exact Hcd|]. cbn. lia.
    + intros ds1 ds2 Heq t t' Ht Ht'. destruct ds2 as [|e ds2 _] using rev_ind; [by apply elem_of_nil in Ht'|].
      rewrite app_assoc in Heq. apply app_inj_tail in Heq as [Heq <-].
      rewrite granted_app, Hg, app_nil_r in Ht'. by eapply Hcool.
  - assert (granted sub [(now, sub, d)] = [now] ∧ degradedAt sub [(now, sub, d)] = []) as [Hg Hdg]
      by (cbn -[str_eqb]; by rewrite Hself, Hr, Hd).
    assert (filter (λ t, now - RestartWindow cfg ≤ t) (granted sub run.2 ++ [now]) `sublist_of` failures (getState sub p')) as Hrec'.
    { rewrite Hfs, Hcfg, filter_app, (filter_cons_True _ now) by lia. rewrite filter_nil.
      apply sublist_app; [by apply (sublist_recorded tl)|done]. }
    split; cbn [fst snd]; rewrite ?granted_app, ?degradedAt_app, ?Hg, ?Hdg, ?app_nil_r, ?Hdu';
      [congruence|done| | |done| |done|].
    + apply sorted_snoc; [done|by apply (Forall_le_mono _ tl)].
    + apply Forall_app. split; [by apply (Forall_le_mono _ tl)|by constructor].
    + intros l1 t l2 Heq. destruct l2 as [|x l2 _] using rev_ind.
      * apply app_inj_tail in Heq as [<- <-]. rewrite <-Hfs, Hcfg in Hlim. etrans; [|exact Hlim]. apply inj_le.
        etrans; [|by apply sublist_length]. apply length_filter_mono. lia.
      * change (t :: l2 ++ [x]) with ((t :: l2) ++ [x]) in Heq. rewrite app_assoc in Heq.
        apply app_inj_tail in Heq as [Heq _]. by eapply Hpaced.
    + intros ds1 ds2 Heq t t' Ht Ht'. destruct ds2 as [|e ds2 _] using rev_ind; [by apply elem_of_nil in Ht'|].
      rewrite app_assoc in Heq. apply app_inj_tail in Heq as [Heq <-]. rewrite granted_app, Hg in Ht'.
      apply elem_of_app in Ht' as [Ht'|Ht'%list_elem_of_singleton]; [by eapply Hcool|]. subst t'.
      rewrite Forall_forall in Hcd. specialize (Hcd t). rewrite Heq, degradedAt_app in Hcd.
      etrans; [apply Hcd, elem_of_app; by left|done].
Qed.

(** A recovery of another subsystem. *)
Lemma orderly_recovered p tl now sub : orderly p tl → tl ≤ now → orderly (MarkRecovered sub p) now.
Proof.
  intros Hord Hle s. unfold MarkRecovered. cbn zeta. rewrite getState_set. destruct (Hord s).
  case_decide; [by repeat constructor|]. eauto using Forall_le_mono.
Qed.

Lemma budget_recovered cfg sub sub' tl now run :
  sub' ≠ sub → budget cfg sub tl run → tl ≤ now → budget cfg sub now (supStep run (now, RecoveredOp sub')).
Proof.
  intros Hne [Hcfg Hord Hsort Hpast Hrec Hpaced Hcd Hcool] Hle. cbn.
  assert (getState sub (MarkRecovered sub' run.1) = getState sub run.1) as Hst.
  { unfold MarkRecovered. rewrite getState_set. by case_decide. }
  split; cbn [fst snd]; rewrite ?Hst; [done|by eapply orderly_recovered|done|by apply (Forall_le_mono _ tl)|by apply (sublist_past tl)|done..].
Qed.

Definition notRecovered (sub : Subsystem) (op : Z * supOp) : Prop :=
  match op.2 with RecoveredOp s => s ≠ sub | Failed _ => True end.

Lemma budget_run cfg sub (Hw : 0 ≤ RestartWindow cfg) (Hc : 0 ≤ Cooldown cfg) ops tl run :
  budget cfg sub tl run → StronglySorted Z.le (tl :: ops.*1) → Forall (notRecovered sub) ops →
  ∃ tl', budget cfg sub tl' (foldl supStep run ops).
Proof.
  revert tl run. induction ops as [|[now op] ops IH]; intros tl run Hb Hs Hnr; [by exists tl|].
  cbn in Hs. apply StronglySorted_inv in Hs as [Hs Hle]. apply Forall_cons in Hle as [Hle _].
  apply Forall_cons in Hnr as [Hop Hnr]. cbn [foldl]. apply (IH now); [|done..].
  destruct op as [s|s]; [by eapply budget_failed|by eapply budget_recovered].
Qed.

Lemma orderly_run ops tl run :
  orderly run.1 tl → StronglySorted Z.le (tl :: ops.*1) →
  orderly (foldl supStep run ops).1 (default tl (last ops.*1)) ∧ sup_cfg (foldl supStep run ops).1 = sup_cfg run.1.
Proof.
  revert tl run. induction ops as [|[now op] ops IH]; intros tl run Ho Hs; [done|].
  cbn in Hs. apply StronglySorted_inv in Hs as [Hs Hle]. apply Forall_cons in Hle as [Hle _]. cbn [foldl].
  assert (orderly (supStep run (now, op)).1 now ∧ sup_cfg (supStep run (now, op)).1 = sup_cfg run.1) as [Ho' Hcfg'].
  { destruct op as [s|s]; [|split; [by eapply orderly_recovered|done]]. cbn.
    destruct (OnFailure rng s now run.1) as [p' d] eqn:E. cbn. split; [by eapply orderly_failed|].
    by apply (OnFailure_cases _ _ _ _ _ E (proj1 (Ho s))). }
  destruct (IH now (supStep run (now, op)) Ho' Hs) as [Ho'' Hcfg'']. split; [|congruence].
  cbn [fmap list_fmap fst]. rewrite last_cons. by destruct (last ops.*1).
Qed.

Lemma NewSupervisorPolicy_ok cfg p :
  NewSupervisorPolicy cfg = inr p →
  0 ≤ RestartWindow (sup_cfg p) ∧ 0 ≤ Cooldown (sup_cfg p) ∧ 0 ≤ RestartLimit (sup_cfg p) ∧ ∀ tl, orderly p tl.
Proof.
  unfold NewSupervisorPolicy. intros H. repeat case_match; simplify_eq.
  cbn. unfold orDefault. split_and!; [case_match; lia..|].
  intros tl sub. unfold getState. cbn. rewrite lookup_empty. by repeat constructor.
Qed.

(** C32: As time goes on, and as long as a subsystem is not marked recovered, the
    policy grants at most [RestartLimit] restarts of it within any interval of one
    [RestartWindow]; and once it has degraded the subsystem no restart is granted
    before the [Cooldown] is over. *)
Theorem restarts_stay_in_budget cfg p ops1 ops2 sub a :
  NewSupervisorPolicy cfg = inr p → StronglySorted Z.le (ops1 ++ ops2).*1 → Forall (notRecovered sub) ops2 →
  let ds := (supRun ops2 (supRun ops1 p).1).2 in
  Z.of_nat (length (within a (a + RestartWindow (sup_cfg p)) (granted sub ds))) ≤ RestartLimit (sup_cfg p) ∧
  ∀ ds1 ds2 t t', ds = ds1 ++ ds2 → t ∈ degradedAt sub ds1 → t' ∈ granted sub ds2 → t + Cooldown (sup_cfg p) ≤ t'.
Proof.
  intros Hnew Hs Hnr ds. apply NewSupervisorPolicy_ok in Hnew as (Hw & Hc & Hl & Hord).
  set (tl := default 0 (head (ops1 ++ ops2).*1)).
  assert (StronglySorted Z.le (tl :: (ops1 ++ ops2).*1)) as Hs'.
  { subst tl. destruct (ops1 ++ ops2).*1 as [|x l]; [by repeat constructor|]. constructor; [done|].
    apply StronglySorted_inv in Hs as [_ Hx]. constructor; [done|exact Hx]. }
  rewrite fmap_app, app_comm_cons in Hs'. apply StronglySorted_app in Hs' as (Hle & Hs1 & Hs2).
  destruct (orderly_run ops1 tl (p, []) (Hord tl) Hs1) as [Ho Hcfg]. fold (supRun ops1 p) in Ho, Hcfg. cbn in Hcfg.
  destruct (budget_run (sup_cfg p) sub Hw Hc ops2 (default tl (last ops1.*1)) ((supRun ops1 p).1, [])) as [tl' Hb].
  - split; cbn; [done|done|constructor|constructor|apply sublist_nil_l| |constructor|].
    { intros l1 t l2 Heq. symmetry in Heq. by apply app_nil in Heq as [_ ?]. }
    intros ds1 ds2 Heq t t' Ht. symmetry in Heq. apply app_nil in Heq as [-> ->]. by apply elem_of_nil in Ht.
  - constructor; [done|]. apply Forall_forall. intros t Ht. apply Hle; [|done].
    destruct (last ops1.*1) eqn:E; [right; by apply last_Some_elem_of|by left].
  - done.
  - destruct Hb as [_ _ Hsort _ _ Hpaced _ Hcool]. split; [by apply paced_interval|]. intros ds1 ds2 t t' Hds. by apply Hcool.
Qed.

End budget.

(** ** Example: a limit of two restarts in ten seconds *)

#[local] Existing Instance go_amd64.

Definition w_supervisor : SupervisorConfig := MkSupervisorConfig 0 0 f0 10 2 7.
Definition w_failures : list (Z * supOp) := (λ t, (t, Failed "md")) <$> [100; 103; 105; 106; 120].

Lemma restarts_stay_in_budget_witness :
  ∃ p, NewSupervisorPolicy w_supervisor = inr p ∧
    let ds := (supRun (λ _, f0) w_failures (supRun (λ _, f0) [] p).1).2 in
    granted "md" ds = [100; 103; 120] ∧ degradedAt "md" ds = [105] ∧
    Z.of_nat (length (within 100 110 (granted "md" ds))) ≤ 2.
Proof.
  eexists. split; [reflexivity|]. split; [vm_compute; reflexivity|]. split; [vm_compute; reflexivity|].
  refine (proj1 (restarts_stay_in_budget (λ _, f0) w_supervisor _ [] w_failures "md" 100 eq_refl _ _)).
  - cbn. repeat (apply SSorted_cons || apply SSorted_nil || apply Forall_cons_2 || apply Forall_nil_2 || lia).
  - repeat constructor.
Defined.
