(* ===== verification/Guardian.v ===== *)
(** * Guardian: internal/actors/runtime/guardian.go, protocol.go

    The actor that starts the subsystems, restarts them under the supervisor
    policy when they fail, and answers health queries. Each message is handled
    to the end before the next, so the actor is a state machine: [Receive] is its
    step.

    The fields that the code replaces in tests are parameters: [spawnFn] (from the
    history of the guardian; a failure is the text of its problem) and the clock,
    which the guardian and its policy share. What the guardian does to the outside
    is its [history], newest first. A nil child is an absent one; metrics and logs
    are left out. *)

From S2P Require Import Prelude GoRuntime Shared Supervisor.
From Stdlib Require Import Ascii.

Local Open Scope string_scope.
Local Open Scope list_scope.
Local Open Scope Z_scope.

Definition PID : Type := string.

(** ** protocol.go *)

Definition SubsystemMarketData : Subsystem := "marketdata".
Definition SubsystemAggregation : Subsystem := "aggregation".
Definition SubsystemDelivery : Subsystem := "delivery".
Definition SubsystemInsights : Subsystem := "insights".
Definition SubsystemEvidence : Subsystem := "evidence".
Definition SubsystemSignals : Subsystem := "signals".
Definition SubsystemStrategy : Subsystem := "strategy".
Definition SubsystemExecution : Subsystem := "execution".
Definition SubsystemPortfolio : Subsystem := "portfolio".
Definition SubsystemStorage : Subsystem := "storage".

Definition orderedSubsystems : list Subsystem :=
  [SubsystemMarketData; SubsystemAggregation; SubsystemDelivery; SubsystemInsights; SubsystemEvidence;
   SubsystemSignals; SubsystemStrategy; SubsystemExecution; SubsystemPortfolio; SubsystemStorage].

Record SubsystemState := MkSubsystemState {
  ss_Running : bool; ss_Degraded : bool; ss_Connected : bool; ss_HasChild : bool; ss_ChildPID : string;
  ss_LastError : string; ss_LastFailureAt : Z; ss_LastTransitionAt : Z; ss_LastMessageAt : Z; ss_LastPublishAt : Z;
  ss_RestartCount : Z; ss_CooldownUntil : Z }.
Record SnapshotState := MkSnapshotState { snap_At : Z; snap_Subsystems : gmap Subsystem SubsystemState }.

Inductive guardianMsg :=
| Initialized | ActorStarted | ActorStopped | Start | ReloadConfig | Stop
| Ping (replyTo : option PID)
| Snapshot (replyTo sender : option PID)
| ReadyQuery (replyTo sender : option PID)
| ChildFailed (subsystem : Subsystem) (kind : string) (err : option string)
| SubsystemHeartbeat (subsystem : Subsystem) (isConnected : bool) (lastMessage lastPublish : Z)
| RetrySubsystem (subsystem : Subsystem) (generation : Z)
| UnknownMessage.

Inductive reply :=
| Pong (at_ : Z)
| SnapshotReply (s : SnapshotState)
| ReadyResponse (ready : bool) (pending : list Subsystem).

Inductive guardianEvent :=
| Spawned (subsystem : Subsystem) (pid : PID)
| Poisoned (subsystem : Subsystem) (pid : PID)
| Scheduled (subsystem : Subsystem) (generation delay : Z)
| Cancelled (subsystem : Subsystem) (generation : Z)
| EmittedDegraded (subsystem : Subsystem) (reason : string)
| EmittedRecovered (subsystem : Subsystem)
| Replied (pid : PID) (r : reply).

(** ** guardian.go *)

(** [Factories] tells which factories are not nil; a nil [ExpectedSubsystems] is [None]. *)
Record GuardianConfig := MkGuardianConfig {
  Factories : gmap Subsystem bool; ExpectedSubsystems : option (list Subsystem) }.

Record Guardian := MkGuardian {
  g_cfg : GuardianConfig;
  policy : SupervisorPolicy;
  children : gmap Subsystem PID;
  running : gmap Subsystem bool;
  lastError : gmap Subsystem string;
  lastFailureAt : gmap Subsystem Z;
  lastTransition : gmap Subsystem Z;
  connected : gmap Subsystem bool;
  lastMessageAt : gmap Subsystem Z;
  lastPublishAt : gmap Subsystem Z;
  scheduledRetry : gmap Subsystem Z;
  retryGen : gmap Subsystem Z;
  readySystems : gset Subsystem;
  expectedSubsystems : option (list Subsystem);
  shuttingDown : bool;
  cachedSnapshot : option SnapshotState;
  started : bool;
  globalRestartWindow : Z;
  globalRestartLimit : Z;
  globalRestartHistory : list Z;
  reads : nat;
  history : list guardianEvent;
}.
#[export] Instance Guardian_Eta : Eta Guardian := λ g,
  MkGuardian (g_cfg g) (policy g) (children g) (running g) (lastError g) (lastFailureAt g) (lastTransition g)
    (connected g) (lastMessageAt g) (lastPublishAt g) (scheduledRetry g) (retryGen g) (readySystems g)
    (expectedSubsystems g) (shuttingDown g) (cachedSnapshot g) (started g) (globalRestartWindow g)
    (globalRestartLimit g) (globalRestartHistory g) (reads g) (history g).

(** [ensureDefaults] of a new guardian with the policy of its configuration. *)
Definition newGuardian (cfg : GuardianConfig) (p : SupervisorPolicy) : Guardian :=
  MkGuardian cfg p ∅ ∅ ∅ ∅ ∅ ∅ ∅ ∅ ∅ ∅ ∅ None false None false 60000000000 5 [] 0 [].

Class GuardianEnv := { spawnFn : list guardianEvent → Subsystem → string + PID }.

Definition emit (e : guardianEvent) (g : Guardian) : Guardian := g <| history ::= cons e |>.

Definition invalidateSnapshot (g : Guardian) : Guardian := g <| cachedSnapshot := None |>.

Definition generationOf (subsystem : Subsystem) (g : Guardian) : Z := default 0 (retryGen g !! subsystem).

Definition bumpRetryGeneration (subsystem : Subsystem) (g : Guardian) : Guardian :=
  g <| retryGen ::= <[subsystem := wrapu64 (generationOf subsystem g + 1)]> |>.

(** [g.scheduleFn] with the retry message, and [replaceScheduledRetry]. *)
Definition scheduleRetry (subsystem : Subsystem) (gen delay : Z) (g : Guardian) : Guardian :=
  let g := emit (Scheduled subsystem gen delay) g in
  let g := match scheduledRetry g !! subsystem with
           | Some prev => emit (Cancelled subsystem prev) g
           | None => g
           end in
  g <| scheduledRetry ::= <[subsystem := gen]> |>.

Definition pruneGlobalRestarts (now : Z) (g : Guardian) : list Z :=
  pruneFailures (globalRestartHistory g) now (globalRestartWindow g).

Definition allowGlobalRestart (now : Z) (g : Guardian) : Guardian * bool :=
  if (globalRestartLimit g <=? 0) || (globalRestartWindow g <=? 0) then (g, true) else
  let g := g <| globalRestartHistory := pruneGlobalRestarts now g |> in
  if globalRestartLimit g <=? Z.of_nat (length (globalRestartHistory g)) then (g, false)
  else (g <| globalRestartHistory ::= λ h, h ++ [now] |>, true).

Definition nextGlobalRetryDelay (now : Z) (g : Guardian) : Guardian * Z :=
  if (globalRestartLimit g <=? 0) || (globalRestartWindow g <=? 0) then (g, 0) else
  let g := g <| globalRestartHistory := pruneGlobalRestarts now g |> in
  if Z.of_nat (length (globalRestartHistory g)) <? globalRestartLimit g then (g, 0) else
  match globalRestartHistory g with
  | [] => (g, globalRestartWindow g)
  | oldest :: _ =>
      let delay := time_sub (oldest + globalRestartWindow g) now in
      (g, if delay <? 0 then 0 else delay)
  end.

Section guardian.
Context {GR : GoRuntime} {env : GuardianEnv} (clk : nat → Z) (rng : nat → float64).

(** [g.clock.Now()] *)
Definition withNow (f : Z → Guardian → Guardian) (g : Guardian) : Guardian :=
  f (clk (reads g)) (g <| reads ::= S |>).

Definition policyStatus (subsystem : Subsystem) (f : PolicyStatus → Guardian → Guardian) : Guardian → Guardian :=
  withNow (λ now g,
    let '(p, st) := Status subsystem now (policy g) in f st (g <| policy := p |>)).

Definition isDynamicMarketData (sub : Subsystem) : bool := HasPrefix sub (SubsystemMarketData ++ ":")%string.

(** The entries of [candidates] that are not in [seen], once each. *)
Definition addExtras (candidates : list Subsystem) (acc : list Subsystem * gset Subsystem) : list Subsystem * gset Subsystem :=
  foldl (λ '(extras, seen) sub, if bool_decide (sub ∈ seen) then (extras, seen) else (extras ++ [sub], {[sub]} ∪ seen))
    acc candidates.

Definition managedSubsystems (g : Guardian) : list Subsystem :=
  let factories := (map_range (Factories (g_cfg g))).*1 in
  let expected := default [] (ExpectedSubsystems (g_cfg g)) in
  let hasDynamicMarketData := existsb isDynamicMarketData factories || existsb isDynamicMarketData expected in
  let managed := filter (λ sub, hasDynamicMarketData && str_eqb sub SubsystemMarketData = false) orderedSubsystems in
  let '(extras, _) := addExtras expected (addExtras factories ([], list_to_set managed)) in
  managed ++ sort_slice str_ltb extras.

(** The set of expected subsystems is fixed at its first use. *)
Definition ensureExpected (g : Guardian) : Guardian * list Subsystem :=
  match expectedSubsystems g with
  | Some expected => (g, expected)
  | None =>
      let expected := match ExpectedSubsystems (g_cfg g) with
        | Some expected => expected
        | None => sort_slice str_ltb (filter (λ e, snd e = true) (map_range (Factories (g_cfg g)))).*1
        end in
      (g <| expectedSubsystems := Some expected |>, expected)
  end.

Definition computeReady (g : Guardian) : Guardian * (bool * list Subsystem) :=
  let '(g, expected) := ensureExpected g in
  let pending := filter (λ sub, sub ∉ readySystems g) expected in
  (g, (bool_decide (pending = []), pending)).

Definition startSubsystem (subsystem : Subsystem) (g : Guardian) : Guardian :=
  match spawnFn (history g) subsystem with
  | inl problem =>
      invalidateSnapshot (g <| lastError ::= <[subsystem := problem]> |> <| running ::= <[subsystem := false]> |>)
  | inr pid =>
      let g := emit (Spawned subsystem pid) g in
      let g := g <| children ::= <[subsystem := pid]> |> <| running ::= <[subsystem := true]> |>
                 <| lastError ::= <[subsystem := ""]> |> in
      let g := withNow (λ now g, g <| lastTransition ::= <[subsystem := now]> |>) g in
      let g := invalidateSnapshot (g <| readySystems ::= union {[subsystem]} |>) in
      policyStatus subsystem (λ status g,
        if ps_Degraded status then
          let g := emit (EmittedRecovered subsystem) (g <| policy ::= MarkRecovered subsystem |>) in
          withNow (λ now g, g <| lastTransition ::= <[subsystem := now]> |>) g
        else g) g
  end.

Definition startAll (g : Guardian) : Guardian :=
  if started g then g
  else let g := g <| started := true |> in foldl (λ g sub, startSubsystem sub g) g (managedSubsystems g).

Definition cancelRetry (subsystem : Subsystem) (gen : Z) (g : Guardian) : Guardian :=
  bumpRetryGeneration subsystem (emit (Cancelled subsystem gen) g <| scheduledRetry ::= delete subsystem |>).

(** The body of the loop of [stopAll] over the managed subsystems. *)
Definition stopSubsystem (subsystem : Subsystem) (g : Guardian) : Guardian :=
  let g := match children g !! subsystem with
           | None => g
           | Some pid => (emit (Poisoned subsystem pid) g) <| children ::= delete subsystem |>
           end in
  let g := g <| running ::= <[subsystem := false]> |> <| connected ::= <[subsystem := false]> |> in
  withNow (λ now g, g <| lastTransition ::= <[subsystem := now]> |>) g.

Definition stopAll (g : Guardian) : Guardian :=
  let g := foldl (λ g e, cancelRetry (fst e) (snd e) g) g (map_range (scheduledRetry g)) in
  let g := foldl (λ g sub, stopSubsystem sub g) g (rev (managedSubsystems g)) in
  invalidateSnapshot (g <| started := false |>).

Definition retrySubsystem (subsystem : Subsystem) (generation : Z) (g : Guardian) : Guardian :=
  if shuttingDown g then g
  else if negb (generationOf subsystem g =? generation) then g
  else
    let g := g <| scheduledRetry ::= delete subsystem |> in
    policyStatus subsystem (λ status, withNow (λ now g,
      if ps_Degraded status && (now <? ps_CooldownUntil status) then g else startSubsystem subsystem g)) g.

(** What [handleChildFailed] does with the decision of the policy. *)
Definition onDecision (subsystem : Subsystem) (now : Z) (decision : SupervisorDecision) (g : Guardian) : Guardian :=
  let g := bumpRetryGeneration subsystem g in
  let gen := generationOf subsystem g in
  if EnterDegraded decision then
    let g := emit (EmittedDegraded subsystem (Reason decision)) g in
    let g := withNow (λ now g, g <| lastTransition ::= <[subsystem := now]> |>) g in
    let delay := time_sub (DegradedUntil decision) now in
    scheduleRetry subsystem gen (if delay <? 0 then 0 else delay) g
  else if negb (Restart decision) then g
  else
    let '(g, allowed) := allowGlobalRestart now g in
    if negb allowed then
      let '(g, delay) := nextGlobalRetryDelay now g in
      scheduleRetry subsystem gen (if delay <=? 0 then 1000000000 else delay) g
    else scheduleRetry subsystem gen (Delay decision) g.

Definition handleChildFailed (subsystem : Subsystem) (kind : string) (err : option string) (g : Guardian) : Guardian :=
  if str_eqb subsystem "" then g else
  let g := invalidateSnapshot g in
  if shuttingDown g then g else
  let g := g <| lastError ::= <[subsystem := default kind err]> |> in
  let g := withNow (λ now g, g <| lastFailureAt ::= <[subsystem := now]> |>) g in
  let g := g <| running ::= <[subsystem := false]> |> <| connected ::= <[subsystem := false]> |> in
  let g := match children g !! subsystem with
           | None => g
           | Some pid => (emit (Poisoned subsystem pid) g) <| children ::= delete subsystem |>
           end in
  let g := withNow (λ now g, g <| lastTransition ::= <[subsystem := now]> |>) g in
  withNow (λ now g,
    let '(p, decision) := OnFailure rng subsystem now (policy g) in
    onDecision subsystem now decision (g <| policy := p |>)) g.

Definition handleHeartbeat (subsystem : Subsystem) (isConnected : bool) (lastMessage lastPublish : Z) (g : Guardian) : Guardian :=
  if str_eqb subsystem "" then g else
  let g := g <| connected ::= <[subsystem := isConnected]> |> in
  let g := if lastMessage =? zeroTime then g else g <| lastMessageAt ::= <[subsystem := lastMessage]> |> in
  let g := if lastPublish =? zeroTime then g else g <| lastPublishAt ::= <[subsystem := lastPublish]> |> in
  invalidateSnapshot g.

(** The body of the loop of [buildSnapshot], with the states collected so far. *)
Definition snapshotStep (acc : Guardian * gmap Subsystem SubsystemState) (subsystem : Subsystem)
    : Guardian * gmap Subsystem SubsystemState :=
  let '(g, subsystems) := acc in
  let now := clk (reads g) in
  let '(p, policyState) := Status subsystem now (policy g) in
  let g := g <| reads ::= S |> <| policy := p |> in
  (g, <[subsystem := MkSubsystemState
     (default false (running g !! subsystem)) (ps_Degraded policyState) (default false (connected g !! subsystem))
     (bool_decide (is_Some (children g !! subsystem))) (default "" (children g !! subsystem))
     (default "" (lastError g !! subsystem)) (default zeroTime (lastFailureAt g !! subsystem))
     (default zeroTime (lastTransition g !! subsystem)) (default zeroTime (lastMessageAt g !! subsystem))
     (default zeroTime (lastPublishAt g !! subsystem)) (ps_RestartCount policyState) (ps_CooldownUntil policyState)]> subsystems).

Definition buildSnapshot (g : Guardian) : Guardian * SnapshotState :=
  match cachedSnapshot g with
  | Some state => (g, state)
  | None =>
      let managed := managedSubsystems g in
      let at_ := clk (reads g) in
      let '(g, subsystems) := foldl snapshotStep (g <| reads ::= S |>, ∅) managed in
      let state := MkSnapshotState at_ subsystems in
      (g <| cachedSnapshot := Some state |>, state)
  end.

Definition orSender (replyTo sender : option PID) : option PID :=
  match replyTo with Some _ => replyTo | None => sender end.

Definition Receive (msg : guardianMsg) (g : Guardian) : Guardian :=
  match msg with
  | Initialized | UnknownMessage => g
  | ActorStarted | Start => startAll g
  | ActorStopped => stopAll g
  | ReloadConfig => startAll (stopAll g)
  | Ping replyTo =>
      match replyTo with
      | Some pid => withNow (λ now, emit (Replied pid (Pong now))) g
      | None => g
      end
  | Snapshot replyTo sender =>
      match orSender replyTo sender with
      | Some pid => let '(g, state) := buildSnapshot g in emit (Replied pid (SnapshotReply state)) g
      | None => g
      end
  | ReadyQuery replyTo sender =>
      match orSender replyTo sender with
      | Some pid => let '(g, (ready, pending)) := computeReady g in emit (Replied pid (ReadyResponse ready pending)) g
      | None => g
      end
  | Stop => stopAll (g <| shuttingDown := true |>)
  | ChildFailed subsystem kind err => handleChildFailed subsystem kind err g
  | SubsystemHeartbeat subsystem isConnected lastMessage lastPublish =>
      handleHeartbeat subsystem isConnected lastMessage lastPublish g
  | RetrySubsystem subsystem generation => retrySubsystem subsystem generation g
  end.

Definition receiveAll (msgs : list guardianMsg) (g : Guardian) : Guardian := foldl (λ g m, Receive m g) g msgs.

End guardian.
