(* ===== verification/GuardianSpec.v ===== *)
(** * GuardianSpec: what the guardian guarantees

    - a subsystem never has two children ([one_child_per_subsystem]): stale retry
      timers are told apart by their generation;
    - where recovery fails: a failure reported during the cooldown makes the
      scheduled retry stale and schedules no other, so the subsystem stays down
      ([failure_in_cooldown_strands_subsystem]); and a restart after the cooldown
      never reports the recovery ([retry_never_reports_recovery]). *)

From S2P Require Import Prelude GoRuntime Shared Supervisor Guardian.
From Stdlib Require Import Ascii.

Local Open Scope string_scope.
Local Open Scope list_scope.
Local Open Scope Z_scope.

Section guardian_spec.
Context {GR : GoRuntime} {env : GuardianEnv} (clk : nat → Z) (rng : nat → float64).

(** The child of [sub] by the history, newest event first. *)
Fixpoint alive (sub : Subsystem) (h : list guardianEvent) : option PID :=
  match h with
  | [] => None
  | Spawned s pid :: h => if str_eqb s sub then Some pid else alive sub h
  | Poisoned s _ :: h => if str_eqb s sub then None else alive sub h
  | _ :: h => alive sub h
  end.

(** Every child is spawned when its subsystem has none. *)
Definition singleChildren (h : list guardianEvent) : Prop :=
  ∀ h1 sub pid h2, h = h1 ++ Spawned sub pid :: h2 → alive sub h2 = None.

Definition scheduled (sub : Subsystem) (gen : Z) (h : list guardianEvent) : Prop :=
  ∃ delay, Scheduled sub gen delay ∈ h.

(** Retries come from timers, each of which fires at most once; the guardian's
    actor is not stopped. [delivered] are the retries received so far. *)
Definition deliveredBy (m : guardianMsg) (delivered : list (Subsystem * Z)) : list (Subsystem * Z) :=
  match m with RetrySubsystem sub gen => (sub, gen) :: delivered | _ => delivered end.
Definition timely (delivered : list (Subsystem * Z)) (m : guardianMsg) (g : Guardian) : Prop :=
  match m with
  | RetrySubsystem sub gen => scheduled sub gen (history g) ∧ ((sub, gen) ∉ delivered)
  | ActorStopped => False
  | _ => True
  end.
Fixpoint timersFire (delivered : list (Subsystem * Z)) (msgs : list guardianMsg) (g : Guardian) : Prop :=
  match msgs with
  | [] => True
  | m :: msgs => timely delivered m g ∧ timersFire (deliveredBy m delivered) msgs (Receive clk rng m g)
  end.

(** What the guardian keeps track of for each subsystem. *)
Record tracking (delivered : list (Subsystem * Z)) (g : Guardian) : Prop := {
  t_alive : ∀ sub, alive sub (history g) = children g !! sub;
  t_single : singleChildren (history g);
  t_stopped : started g = false → ∀ sub, sub ∈ managedSubsystems g → children g !! sub = None;
  t_past : ∀ sub gen, scheduled sub gen (history g) → gen ≤ generationOf sub g;
  t_pending : ∀ sub gen, scheduled sub gen (history g) → ((sub, gen) ∉ delivered) → gen = generationOf sub g →
    children g !! sub = None ∧ scheduledRetry g !! sub = Some gen ∧ started g = true;
}.

(** The fields of the guardian that matter for [tracking]. *)
Definition core (g : Guardian) :=
  (history g, children g, retryGen g, scheduledRetry g, started g, g_cfg g).

Lemma tracking_core delivered g g' : core g' = core g → tracking delivered g → tracking delivered g'.
Proof.
  intros [= Hh Hc Hr Hs Hst Hcfg] [Ha H1 Hb Hp Hq].
  assert (∀ sub, generationOf sub g' = generationOf sub g) as Hg by (intros sub; unfold generationOf; by rewrite Hr).
  split.
  - intros sub. rewrite Hh, Hc. apply Ha.
  - by rewrite Hh.
  - intros Hoff sub. unfold managedSubsystems. rewrite Hcfg, Hc. apply Hb. congruence.
  - intros sub gen. rewrite Hh, Hg. apply Hp.
  - intros sub gen. rewrite Hh, Hg, Hc, Hs, Hst. apply Hq.
Qed.

(** An event that is no spawn, poison or schedule. *)
Definition quiet (e : guardianEvent) : bool :=
  match e with Spawned _ _ | Poisoned _ _ | Scheduled _ _ _ => false | _ => true end.

Lemma scheduled_cons sub gen e h : (∀ d, e ≠ Scheduled sub gen d) → scheduled sub gen (e :: h) ↔ scheduled sub gen h.
Proof.
  intros He. unfold scheduled. setoid_rewrite elem_of_cons. split; [|naive_solver].
  intros (d & [Hd|Hd]); [by destruct (He d)|by exists d].
Qed.

Lemma single_cons e h : (∀ sub pid, e = Spawned sub pid → alive sub h = None) → singleChildren h → singleChildren (e :: h).
Proof.
  intros He Hh [|e' h1] sub pid h2 Heq; injection Heq as -> ->; [by eapply He|]. by eapply Hh.
Qed.

Lemma tracking_emit delivered g e :
  quiet e = true → tracking delivered g → tracking delivered (emit e g).
Proof.
  intros He [Ha H1 Hb Hp Hq]. assert (∀ sub gen, scheduled sub gen (e :: history g) ↔ scheduled sub gen (history g)) as Hs.
  { intros sub gen. apply scheduled_cons. by intros d ->. }
  split; cbn -[str_eqb].
  - intros sub. rewrite <-(Ha sub). by destruct e.
  - apply single_cons; [by intros sub pid ->|done].
  - done.
  - intros sub gen Hin%Hs. by apply Hp.
  - intros sub gen Hin%Hs. by apply Hq.
Qed.

Lemma tracking_spawn delivered g sub pid :
  tracking delivered g → children g !! sub = None → started g = true →
  (∀ gen, scheduled sub gen (history g) → ((sub, gen) ∉ delivered) → gen ≠ generationOf sub g) →
  tracking delivered ((emit (Spawned sub pid) g) <| children ::= <[sub := pid]> |>).
Proof.
  intros [Ha H1 Hb Hp Hq] Hnone Hon Hno.
  assert (∀ s gen, scheduled s gen (Spawned sub pid :: history g) ↔ scheduled s gen (history g)) as Hs
    by (intros; by apply scheduled_cons).
  split; cbn -[str_eqb].
  - intros s. destruct (str_eqb sub s) eqn:E.
    + apply String.eqb_eq in E as ->. by rewrite lookup_insert_eq.
    + apply String.eqb_neq in E. rewrite lookup_insert_ne by done. apply Ha.
  - apply single_cons; [|done]. intros s p [= <- <-]. by rewrite Ha.
  - congruence.
  - intros s gen Hin%Hs. by apply Hp.
  - intros s gen Hin%Hs Hd Hg. destruct (decide (s = sub)) as [->|Hne]; [by destruct (Hno gen)|].
    cbn. rewrite lookup_insert_ne by done. by apply Hq.
Qed.

Lemma tracking_poison delivered g sub pid :
  tracking delivered g → tracking delivered ((emit (Poisoned sub pid) g) <| children ::= delete sub |>).
Proof.
  intros [Ha H1 Hb Hp Hq].
  assert (∀ s gen, scheduled s gen (Poisoned sub pid :: history g) ↔ scheduled s gen (history g)) as Hs
    by (intros; by apply scheduled_cons).
  split; cbn -[str_eqb].
  - intros s. destruct (str_eqb sub s) eqn:E.
    + apply String.eqb_eq in E as ->. by rewrite lookup_delete_eq.
    + apply String.eqb_neq in E. rewrite lookup_delete_ne by done. apply Ha.
  - by apply single_cons.
  - intros Hoff s Hin. apply lookup_delete_None. right. by apply Hb.
  - intros s gen Hin%Hs. by apply Hp.
  - intros s gen Hin%Hs Hd Hg. destruct (Hq s gen Hin Hd Hg) as (Hc & Hr & Hst).
    cbn. rewrite lookup_delete_None. auto.
Qed.

(** After a bump no retry of the subsystem is current. *)
Lemma tracking_bump delivered g sub :
  tracking delivered g → 0 ≤ generationOf sub g < 18446744073709551615 →
  let g' := bumpRetryGeneration sub g in
  tracking delivered g' ∧ generationOf sub g' = generationOf sub g + 1 ∧
  (∀ s, s ≠ sub → generationOf s g' = generationOf s g) ∧
  ∀ gen, scheduled sub gen (history g) → gen < generationOf sub g'.
Proof.
  intros [Ha H1 Hb Hp Hq] Hn g'.
  assert (generationOf sub g' = generationOf sub g + 1) as Hsub.
  { unfold g', generationOf at 1, bumpRetryGeneration. cbn. rewrite lookup_insert_eq. cbn. unfold wrapu64.
    apply Z.mod_small. lia. }
  assert (∀ s, s ≠ sub → generationOf s g' = generationOf s g) as Hother.
  { intros s Hs. unfold g', generationOf, bumpRetryGeneration. cbn. by rewrite lookup_insert_ne. }
  split_and!; [|done|done|intros gen ?%Hp; lia]. split; [exact Ha|exact H1|exact Hb|..].
  - intros s gen Hin. destruct (decide (s = sub)) as [->|Hs]; [apply Hp in Hin; lia|]. rewrite Hother by done. by apply Hp.
  - intros s gen Hin Hd Hg. destruct (decide (s = sub)) as [->|Hs]; [apply Hp in Hin; lia|].
    rewrite Hother in Hg by done. by apply (Hq s gen).
Qed.

Lemma tracking_delivered delivered delivered' g :
  (∀ x, x ∈ delivered → x ∈ delivered') → tracking delivered g → tracking delivered' g.
Proof. intros Hsub [Ha H1 Hb Hp Hq]. split; try done. intros s gen Hin Hd. apply Hq; [done|]. intros ?. by apply Hd, Hsub. Qed.

(** An entry of [scheduledRetry] only matters for a current retry. *)
Lemma tracking_unschedule delivered g sub :
  tracking delivered g →
  (∀ gen, scheduled sub gen (history g) → ((sub, gen) ∉ delivered) → gen ≠ generationOf sub g) →
  tracking delivered (g <| scheduledRetry ::= delete sub |>).
Proof.
  intros [Ha H1 Hb Hp Hq] Hno. split; [exact Ha|exact H1|exact Hb|exact Hp|].
  intros s gen Hin Hd Hg. destruct (Hq s gen Hin Hd Hg) as (Hc & Hs & Hst). split; [done|]. split; [|done].
  cbn. rewrite lookup_delete_ne; [done|]. intros ->. by destruct (Hno gen).
Qed.

Lemma tracking_schedule delivered g sub delay (gen := generationOf sub g) :
  tracking delivered g → children g !! sub = None → started g = true →
  (∀ gen', scheduled sub gen' (history g) → gen' < gen) →
  tracking delivered (scheduleRetry sub gen delay g).
Proof.
  intros [Ha H1 Hb Hp Hq] Hc Hst Hnew.
  set (g1 := (emit (Scheduled sub gen delay) g) <| scheduledRetry ::= <[sub := gen]> |>).
  assert (tracking delivered g1) as Hg1.
  { split; cbn -[str_eqb].
    - done.
    - by apply single_cons.
    - done.
    - intros s gen' [d [[= -> -> ->]|Hin]%elem_of_cons]; [unfold generationOf, g1 in *; cbn; lia|].
      apply (Hp s gen'). by exists d.
    - intros s gen' [d [[= -> -> ->]|Hin]%elem_of_cons] Hd Hg; [by rewrite lookup_insert_eq|].
      assert (scheduled s gen' (history g)) as Hin' by by exists d.
      destruct (decide (s = sub)) as [->|Hne]; [rewrite lookup_insert_eq; apply Hnew in Hin'; unfold generationOf in *; cbn in *; lia|].
      rewrite lookup_insert_ne by done. by apply Hq. }
  unfold scheduleRetry. cbn. destruct (scheduledRetry g !! sub) as [prev|]; [|exact Hg1].
  exact (tracking_emit _ _ (Cancelled sub prev) eq_refl Hg1).
Qed.

(** ** The operations *)

(** No retry of [sub] that may still arrive is current. *)
Definition noCurrent (delivered : list (Subsystem * Z)) (sub : Subsystem) (g : Guardian) : Prop :=
  ∀ gen, scheduled sub gen (history g) → ((sub, gen) ∉ delivered) → gen ≠ generationOf sub g.

(** What starting [sub] leaves alone. *)
Record startFrame (sub : Subsystem) (g g' : Guardian) : Prop := {
  sf_children : ∀ s, s ≠ sub → children g' !! s = children g !! s;
  sf_gen : retryGen g' = retryGen g;
  sf_started : started g' = started g;
  sf_scheduled : ∀ s gen, scheduled s gen (history g') ↔ scheduled s gen (history g);
  sf_shutting : shuttingDown g' = shuttingDown g;
}.

Lemma startSubsystem_tracking delivered sub g :
  tracking delivered g → children g !! sub = None → started g = true → noCurrent delivered sub g →
  tracking delivered (startSubsystem clk sub g) ∧ startFrame sub g (startSubsystem clk sub g).
Proof.
  intros Ht Hnone Hon Hno. unfold startSubsystem. destruct (spawnFn (history g) sub) as [problem|pid].
  { split; [by apply (tracking_core _ g)|]. by split. }
  pose proof (tracking_spawn _ _ sub pid Ht Hnone Hon Hno) as Hs.
  unfold policyStatus, withNow, Status. cbn.
  match goal with |- context [if ?b then _ else _] => destruct b end.
  - split; [eapply tracking_core; [|exact (tracking_emit _ _ (EmittedRecovered sub) eq_refl Hs)]; reflexivity|].
    split; cbn; [intros s Hne; by rewrite lookup_insert_ne|done|done| |done].
    intros s gen. rewrite !scheduled_cons by done. done.
  - split; [eapply tracking_core; [|exact Hs]; reflexivity|].
    split; cbn; [intros s Hne; by rewrite lookup_insert_ne|done|done| |done].
    intros s gen. by apply scheduled_cons.
Qed.

Lemma addExtras_spec candidates acc :
  NoDup acc.1 → (∀ s, s ∈ acc.1 → s ∈ acc.2) →
  let acc' := addExtras candidates acc in
  NoDup acc'.1 ∧ (∀ s, s ∈ acc'.1 → s ∈ acc'.2) ∧ (∀ s, s ∈ acc'.1 → s ∈ acc.1 ∨ s ∉ acc.2) ∧ acc.2 ⊆ acc'.2.
Proof.
  revert acc. induction candidates as [|c l IH]; intros [extras seen] Hnd Hin; cbn; [naive_solver|].
  unfold addExtras in IH. cbn in *. case_bool_decide as Hc; [by apply (IH (extras, seen))|].
  destruct (IH (extras ++ [c], {[c]} ∪ seen)) as (H1 & H2 & H3 & H4); cbn in *.
  - apply NoDup_app. split_and!; [done| |apply NoDup_singleton]. intros s Hs Hs'%list_elem_of_singleton. subst s. by apply Hc, Hin.
  - intros s [Hs|Hs%list_elem_of_singleton]%elem_of_app; set_solver.
  - split_and!; [done|done| |set_solver].
    intros s [[Hs|Hs%list_elem_of_singleton]%elem_of_app|Hs]%H3; set_solver.
Qed.

Lemma managed_NoDup g : NoDup (managedSubsystems g).
Proof.
  unfold managedSubsystems. set (managed := filter _ orderedSubsystems).
  assert (NoDup managed) as Hnd.
  { apply NoDup_filter. by apply (bool_decide_unpack (NoDup orderedSubsystems)). }
  generalize dependent managed. intros managed Hnd. set (fs := (map_range _).*1). set (ex := default [] _). clearbody fs ex.
  destruct (addExtras_spec fs ([], list_to_set managed)) as (A1 & A2 & A3 & A4); [constructor|set_solver|].
  destruct (addExtras fs ([], list_to_set managed)) as [e1 s1] eqn:E1. cbn in *.
  destruct (addExtras_spec ex (e1, s1) A1 A2) as (B1 & _ & B3 & _). cbn in *.
  destruct (addExtras ex (e1, s1)) as [e2 s2] eqn:E2. cbn in *.
  apply NoDup_app. split_and!.
  - done.
  - intros s Hs. rewrite sort_slice_perm. intros [Hin|Hout]%B3.
    + destruct (A3 s Hin) as [[]%elem_of_nil|Hout]. apply Hout. by apply elem_of_list_to_set.
    + apply Hout, A4. by apply elem_of_list_to_set.
  - by rewrite sort_slice_perm.
Qed.

Lemma startLoop_tracking delivered l g :
  NoDup l → tracking delivered g → started g = true → (∀ s, s ∈ l → children g !! s = None ∧ noCurrent delivered s g) →
  let g' := foldl (λ g sub, startSubsystem clk sub g) g l in
  tracking delivered g' ∧ started g' = true ∧ retryGen g' = retryGen g ∧ shuttingDown g' = shuttingDown g.
Proof.
  revert g. induction l as [|sub l IH]; intros g Hnd Ht Hon Hl; [done|]. apply NoDup_cons in Hnd as [Hnot Hnd]. cbn [foldl].
  destruct (Hl sub) as [Hc Hn]; [by left|].
  destruct (startSubsystem_tracking delivered sub g Ht Hc Hon Hn) as [Ht' [Hch Hgen Hst Hsch Hsd]].
  destruct (IH (startSubsystem clk sub g) Hnd Ht') as (H1 & H2 & H3 & H4); [congruence| |].
  - intros s Hs. destruct (Hl s) as [Hcs Hns]; [by right|]. rewrite Hch by (intros ->; done). split; [done|].
    intros gen Hin%Hsch Hd. unfold generationOf. rewrite Hgen. by apply Hns.
  - split_and!; [done|done|congruence|congruence].
Qed.

Lemma startAll_tracking delivered g :
  tracking delivered g →
  let g' := startAll clk g in
  tracking delivered g' ∧ started g' = true ∧ retryGen g' = retryGen g ∧ shuttingDown g' = shuttingDown g.
Proof.
  intros Ht. unfold startAll. destruct (started g) eqn:Hst; [done|].
  assert (∀ s, noCurrent delivered s g) as Hno.
  { intros s gen Hin Hd Hg. destruct (t_pending _ _ Ht s gen Hin Hd Hg) as (_ & _ & ?). congruence. }
  destruct (startLoop_tracking delivered (managedSubsystems (g <| started := true |>)) (g <| started := true |>)) as (? & ? & ? & ?);
    [| | | |by split_and!].
  - apply managed_NoDup.
  - destruct Ht as [Ha H1 Hb Hp Hq]. split; [exact Ha|exact H1|done|exact Hp|].
    intros s gen Hin Hd Hg. by destruct (Hno s gen).
  - done.
  - intros s Hs. split; [by apply (t_stopped _ _ Ht)|apply Hno].
Qed.

Definition M : Z := 18446744073709551615.

Lemma cancelRetry_tracking delivered sub gen g :
  tracking delivered g → 0 ≤ generationOf sub g < M →
  let g' := cancelRetry sub gen g in
  tracking delivered g' ∧ scheduledRetry g' = delete sub (scheduledRetry g) ∧ children g' = children g ∧
  started g' = started g ∧ shuttingDown g' = shuttingDown g ∧
  generationOf sub g' = generationOf sub g + 1 ∧ (∀ s, s ≠ sub → generationOf s g' = generationOf s g).
Proof.
  intros Ht Hb. destruct (tracking_bump delivered (emit (Cancelled sub gen) g) sub) as (Ht' & Hg & Ho & Hn); [by apply tracking_emit|exact Hb|].
  split_and!; try done.
  eapply tracking_core; [|apply (tracking_unschedule delivered (bumpRetryGeneration sub (emit (Cancelled sub gen) g)) sub Ht')];
    [reflexivity|].
  intros gen' Hin Hd. specialize (Hn gen' Hin). lia.
Qed.

(** Generations grow by at most one. *)
Definition genStep (g g' : Guardian) : Prop :=
  ∀ s, generationOf s g ≤ generationOf s g' ≤ generationOf s g + 1.

Lemma cancelLoop_tracking delivered l g :
  tracking delivered g → NoDup l.*1 → (∀ s, s ∈ l.*1 → 0 ≤ generationOf s g < M) →
  let g' := foldl (λ g e, cancelRetry (fst e) (snd e) g) g l in
  tracking delivered g' ∧ (∀ s, s ∈ l.*1 ∨ scheduledRetry g !! s = None → scheduledRetry g' !! s = None) ∧
  shuttingDown g' = shuttingDown g ∧ genStep g g'.
Proof.
  revert g. induction l as [|[sub gen] l IH]; intros g Ht Hnd Hb; cbn.
  { split_and!; [done| |done|intros s; lia]. intros s [[]%elem_of_nil|?]; done. }
  cbn in Hnd, Hb. apply NoDup_cons in Hnd as [Hnot Hnd].
  destruct (cancelRetry_tracking delivered sub gen g Ht) as (Ht1 & Hs1 & _ & _ & Hsd1 & Hg1 & Ho1); [apply Hb; by left|].
  destruct (IH (cancelRetry sub gen g) Ht1 Hnd) as (Ht2 & Hs2 & Hsd2 & Hg2).
  { intros s Hs. rewrite Ho1 by (intros ->; done). apply Hb. by right. }
  split_and!; [done| |congruence|].
  - intros s Hs. apply Hs2. rewrite Hs1, lookup_delete_None. destruct Hs as [[->|?]%elem_of_cons|?]; auto.
  - intros s. specialize (Hg2 s). destruct (decide (s = sub)) as [->|Hne]; [|by rewrite <-(Ho1 s Hne)].
    assert (∀ l' g', sub ∉ l'.*1 → generationOf sub (foldl (λ g e, cancelRetry (fst e) (snd e) g) g' l') = generationOf sub g') as Hkeep.
    { clear. induction l' as [|[s n] l' IH]; intros g' Hn; [done|]. cbn in *. apply not_elem_of_cons in Hn as [Hne Hn].
      rewrite IH by done. unfold generationOf, cancelRetry, bumpRetryGeneration. cbn. by rewrite lookup_insert_ne. }
    rewrite Hkeep in * by done. rewrite Hg1. lia.
Qed.

Lemma stopLoop_tracking delivered l g :
  tracking delivered g →
  let g' := foldl (λ g sub, stopSubsystem clk sub g) g l in
  tracking delivered g' ∧ (∀ s, s ∈ l ∨ children g !! s = None → children g' !! s = None) ∧
  shuttingDown g' = shuttingDown g ∧ retryGen g' = retryGen g ∧ scheduledRetry g' = scheduledRetry g ∧ g_cfg g' = g_cfg g.
Proof.
  revert g. induction l as [|sub l IH]; intros g Ht; cbn [foldl].
  { split_and!; try done. intros s [[]%elem_of_nil|?]; done. }
  assert (tracking delivered (stopSubsystem clk sub g) ∧ children (stopSubsystem clk sub g) = delete sub (children g) ∧
    retryGen (stopSubsystem clk sub g) = retryGen g ∧ scheduledRetry (stopSubsystem clk sub g) = scheduledRetry g ∧
    g_cfg (stopSubsystem clk sub g) = g_cfg g ∧ shuttingDown (stopSubsystem clk sub g) = shuttingDown g)
    as (Ht1 & Hc1 & Hr1 & Hs1 & Hcfg1 & Hsd1).
  { unfold stopSubsystem. destruct (children g !! sub) as [pid|] eqn:E.
    - split_and!; [|done..]. by apply (tracking_core _ ((emit (Poisoned sub pid) g) <| children ::= delete sub |>)), tracking_poison.
    - split_and!; [by apply (tracking_core _ g)| |done..]. by rewrite delete_id. }
  destruct (IH _ Ht1) as (Ht2 & Hc2 & Hsd2 & Hr2 & Hs2 & Hcfg2). split_and!; [done| |congruence..].
  intros s Hs. apply Hc2. rewrite Hc1, lookup_delete_None. destruct Hs as [[->|?]%elem_of_cons|?]; auto.
Qed.

Lemma stopAll_tracking delivered g :
  tracking delivered g → (∀ s, 0 ≤ generationOf s g < M) →
  let g' := stopAll clk g in tracking delivered g' ∧ shuttingDown g' = shuttingDown g ∧ genStep g g'.
Proof.
  intros Ht Hb. unfold stopAll.
  destruct (cancelLoop_tracking delivered (map_range (scheduledRetry g)) g Ht) as (Ht1 & Hs1 & Hsd1 & Hg1).
  { rewrite map_range_perm. apply NoDup_fst_map_to_list. }
  { done. }
  set (g1 := foldl _ g (map_range _)) in *.
  destruct (stopLoop_tracking delivered (rev (managedSubsystems g1)) g1 Ht1) as (Ht2 & Hc2 & Hsd2 & Hr2 & Hs2 & Hcfg2).
  set (g2 := foldl _ g1 _) in *.
  assert (∀ s, scheduledRetry g1 !! s = None) as Hnone.
  { intros s. apply Hs1. destruct (scheduledRetry g !! s) as [gen|] eqn:E; [|by right]. left.
    rewrite map_range_perm. apply list_elem_of_fmap. exists (s, gen). split; [done|]. by apply elem_of_map_to_list. }
  split_and!; [|cbn; congruence|].
  - destruct Ht2 as [Ha H1 Hst Hp Hq]. split; [exact Ha|exact H1| |exact Hp|].
    + intros _ s Hs. apply Hc2. left. rewrite list_elem_of_In, <-in_rev, <-list_elem_of_In.
      unfold managedSubsystems in *. cbn in Hs. by rewrite Hcfg2 in Hs.
    + intros s gen Hin Hd Hg. destruct (Hq s gen Hin Hd Hg) as (_ & Hr & _). rewrite Hs2, Hnone in Hr. done.
  - intros s. unfold generationOf. cbn. rewrite Hr2. apply Hg1.
Qed.

Lemma retrySubsystem_tracking delivered sub gen g :
  tracking delivered g → scheduled sub gen (history g) → ((sub, gen) ∉ delivered) →
  let g' := retrySubsystem clk sub gen g in
  tracking ((sub, gen) :: delivered) g' ∧ retryGen g' = retryGen g ∧ shuttingDown g' = shuttingDown g ∧ started g' = started g.
Proof.
  intros Ht Hsch Hnd. unfold retrySubsystem.
  assert (tracking ((sub, gen) :: delivered) g) as Ht'.
  { eapply tracking_delivered; [|exact Ht]. intros x Hx. by right. }
  destruct (shuttingDown g) eqn:Hsd; [by rewrite Hsd|]. destruct (Z.eqb_spec (generationOf sub g) gen) as [Hgen|]; cbn; [|by rewrite Hsd].
  destruct (t_pending _ _ Ht sub gen Hsch Hnd (eq_sym Hgen)) as (Hc & _ & Hst).
  assert (noCurrent ((sub, gen) :: delivered) sub g) as Hno.
  { intros gen' _ Hd Hg. apply Hd. rewrite Hg, Hgen. by left. }
  pose proof (tracking_unschedule _ g sub Ht' Hno) as Ht1.
  unfold policyStatus, withNow, Status. cbn. case_match.
  - split_and!; [|done..]. eapply tracking_core; [|exact Ht1]. reflexivity.
  - set (g1 := _ <| reads ::= S |>). destruct (startSubsystem_tracking ((sub, gen) :: delivered) sub g1) as [H1 [_ H2 H3 _ H4]].
    + eapply tracking_core; [|exact Ht1]. reflexivity.
    + done.
    + done.
    + exact Hno.
    + split_and!; [exact H1|rewrite H2; done|rewrite H4; done|rewrite H3; done].
Qed.

(** The tables are as they were before the decision, but for the child. *)
Lemma onDecision_tracking delivered sub now d g :
  tracking delivered g → children g !! sub = None → started g = true → 0 ≤ generationOf sub g < M →
  let g' := onDecision clk sub now d g in
  tracking delivered g' ∧ genStep g g' ∧ shuttingDown g' = shuttingDown g ∧ started g' = true.
Proof.
  intros Ht Hc Hst Hb. destruct (tracking_bump delivered g sub Ht Hb) as (Ht1 & Hg1 & Ho1 & Hn1).
  set (g1 := bumpRetryGeneration sub g) in *.
  assert (∀ g2 delay, core g2 = core g1 ∨ (∃ r, core g2 = core (emit (EmittedDegraded sub r) g1)) → shuttingDown g2 = shuttingDown g →
    let g' := scheduleRetry sub (generationOf sub g1) delay g2 in
    tracking delivered g' ∧ genStep g g' ∧ shuttingDown g' = shuttingDown g ∧ started g' = true) as Hsched.
  { intros g2 delay Hcore Hsd.
    assert (tracking delivered g2 ∧ retryGen g2 = retryGen g1 ∧ children g2 = children g ∧ started g2 = true ∧
      ∀ gen, scheduled sub gen (history g2) → scheduled sub gen (history g)) as (Ht2 & Hr2 & Hc2 & Hst2 & Hs2).
    { destruct Hcore as [E|[r E]].
      - split; [by apply (tracking_core _ g1)|]. injection E as Eh Ec Er _ Es _. rewrite Eh, Ec, Er, Es. done.
      - split; [apply (tracking_core _ _ _ E); by apply tracking_emit|].
        injection E as Eh Ec Er _ Es _. rewrite Eh, Ec, Er, Es. split_and!; [done..|]. intros gen Hin.
        by apply scheduled_cons in Hin. }
    assert (generationOf sub g2 = generationOf sub g1) as Hgen by (unfold generationOf; by rewrite Hr2).
    rewrite <-Hgen. split_and!.
    - apply tracking_schedule; [done|by rewrite Hc2|done|]. intros gen' Hin. rewrite Hgen. by apply Hn1, Hs2.
    - intros s. assert (generationOf s (scheduleRetry sub (generationOf sub g2) delay g2) = generationOf s g1) as ->.
      { unfold scheduleRetry, generationOf. cbn. destruct (scheduledRetry g2 !! sub); cbn; by rewrite Hr2. }
      destruct (decide (s = sub)) as [->|Hne]; [lia|]. rewrite Ho1 by done. lia.
    - unfold scheduleRetry. cbn. by destruct (scheduledRetry g2 !! sub).
    - unfold scheduleRetry. cbn. by destruct (scheduledRetry g2 !! sub). }
  unfold onDecision. fold g1. destruct (EnterDegraded d).
  { apply Hsched; [|done]. right. by eexists. }
  destruct (Restart d); cbn [negb].
  2:{ split_and!; [done| |done|done]. intros s. destruct (decide (s = sub)) as [->|Hne]; [lia|]. rewrite Ho1 by done. lia. }
  assert (core (allowGlobalRestart now g1).1 = core g1 ∧ shuttingDown (allowGlobalRestart now g1).1 = shuttingDown g) as [Hca Hsa].
  { unfold allowGlobalRestart. by repeat case_match. }
  destruct (allowGlobalRestart now g1) as [g2 []]; cbn in *; [apply Hsched; [by left|done]|].
  assert (core (nextGlobalRetryDelay now g2).1 = core g2 ∧ shuttingDown (nextGlobalRetryDelay now g2).1 = shuttingDown g2) as [Hcn Hsn].
  { unfold nextGlobalRetryDelay. by repeat case_match. }
  destruct (nextGlobalRetryDelay now g2) as [g3 delay]. cbn in *. apply Hsched; [left|]; congruence.
Qed.

(** A failure that is handled poisons the child and asks the policy. *)
Lemma handleChildFailed_run delivered sub kind err g :
  tracking delivered g → sub ≠ "" → shuttingDown g = false → started g = true →
  ∃ g2 now d, handleChildFailed clk rng sub kind err g = onDecision clk sub now d g2 ∧
    now = clk (S (S (reads g))) ∧ d = (OnFailure rng sub now (policy g)).2 ∧
    tracking delivered g2 ∧ children g2 !! sub = None ∧ started g2 = true ∧ retryGen g2 = retryGen g ∧
    shuttingDown g2 = false ∧ scheduledRetry g2 = scheduledRetry g ∧
    (∀ s gen, scheduled s gen (history g2) ↔ scheduled s gen (history g)) ∧ g_cfg g2 = g_cfg g.
Proof.
  intros Ht Hne Hsd Hon. unfold handleChildFailed. apply String.eqb_neq in Hne. unfold str_eqb. rewrite Hne. cbn. rewrite Hsd.
  unfold withNow. cbn -[lookup].
  repeat match goal with |- context [match ?x with Some _ => _ | None => _ end] =>
    change x with (children g !! sub); destruct (children g !! sub) as [pid|] eqn:Hch end;
    (match goal with |- context [OnFailure ?r ?x ?t ?p] => destruct (OnFailure r x t p) as [p' d] eqn:E end).
  - eexists _, _, d. split; [reflexivity|]. split; [reflexivity|]. split; [symmetry; exact (f_equal snd E)|].
    split_and!; [|cbn; by rewrite lookup_delete_eq|done..| |done].
    + by apply (tracking_core _ ((emit (Poisoned sub pid) g) <| children ::= delete sub |>)), tracking_poison.
    + intros s gen. by apply scheduled_cons.
  - eexists _, _, d. split; [reflexivity|]. split; [reflexivity|]. split; [symmetry; exact (f_equal snd E)|].
    split_and!; [by apply (tracking_core _ g)|done..].
Qed.

Lemma handleChildFailed_tracking delivered sub kind err g :
  tracking delivered g → (started g = true ∨ shuttingDown g = true) → 0 ≤ generationOf sub g < M →
  let g' := handleChildFailed clk rng sub kind err g in
  tracking delivered g' ∧ genStep g g' ∧ shuttingDown g' = shuttingDown g ∧ started g' = started g.
Proof.
  intros Ht Hup Hb g'. destruct (decide (sub = "")) as [->|Hne]; [by split_and!; [done|intros s; cbn; lia|..]|].
  destruct (shuttingDown g) eqn:Hsd.
  { subst g'. unfold handleChildFailed, str_eqb. rewrite (proj2 (String.eqb_neq sub "") Hne). cbn. rewrite Hsd.
    split_and!; [by apply (tracking_core _ g)|intros s; unfold generationOf; cbn; lia|done|done]. }
  destruct Hup as [Hon|]; [|congruence].
  destruct (handleChildFailed_run delivered sub kind err g Ht Hne Hsd Hon)
    as (g2 & now & d & Hrun & _ & _ & Ht2 & Hc2 & Hst2 & Hr2 & Hsd2 & _). subst g'. rewrite Hrun.
  destruct (onDecision_tracking delivered sub now d g2 Ht2 Hc2 Hst2) as (H1 & H2 & H3 & H4).
  { unfold generationOf in *. by rewrite Hr2. }
  split_and!; [done| |congruence|congruence]. intros s. specialize (H2 s). unfold generationOf in *. by rewrite Hr2 in H2.
Qed.

(** ** Histories *)

(** A message whose handling leaves the tables alone. *)
Lemma core_quiet delivered g g' :
  core g' = core g → shuttingDown g' = shuttingDown g → tracking delivered g →
  tracking delivered g' ∧ genStep g g' ∧ (started g = true ∨ shuttingDown g = true → started g' = true ∨ shuttingDown g' = true).
Proof.
  intros Hc Hsd Ht. split_and!; [by apply (tracking_core _ g)| |].
  - injection Hc as _ _ Hr _ _ _. intros s. unfold generationOf. rewrite Hr. lia.
  - injection Hc as _ _ _ _ Hs _. rewrite Hs, Hsd. done.
Qed.

Lemma snapshotLoop_core l acc :
  core (foldl (snapshotStep clk) acc l).1 = core acc.1 ∧ shuttingDown (foldl (snapshotStep clk) acc l).1 = shuttingDown acc.1.
Proof.
  revert acc. induction l as [|s l IH]; intros acc; [done|]. cbn [foldl]. destruct (IH (snapshotStep clk acc s)) as [-> ->].
  by destruct acc.
Qed.

Lemma buildSnapshot_core g : core (buildSnapshot clk g).1 = core g ∧ shuttingDown (buildSnapshot clk g).1 = shuttingDown g.
Proof.
  unfold buildSnapshot. destruct (cachedSnapshot g); [done|].
  destruct (snapshotLoop_core (managedSubsystems g) (g <| reads ::= S |>, ∅)) as [Hc Hs].
  destruct (foldl _ _ _) as [g' subs]. done.
Qed.

Lemma Receive_tracking delivered m g :
  tracking delivered g → (started g = true ∨ shuttingDown g = true) → (∀ s, 0 ≤ generationOf s g < M) →
  timely delivered m g →
  let g' := Receive clk rng m g in
  tracking (deliveredBy m delivered) g' ∧ genStep g g' ∧ (started g' = true ∨ shuttingDown g' = true).
Proof.
  intros Ht Hup Hb Hm.
  assert (∀ g', core g' = core g → shuttingDown g' = shuttingDown g →
    tracking delivered g' ∧ genStep g g' ∧ (started g' = true ∨ shuttingDown g' = true)) as Hq.
  { intros g' Hc Hs. destruct (core_quiet delivered g g' Hc Hs Ht) as (? & ? & H). auto. }
  assert (∀ g' e, quiet e = true → core g' = core g → shuttingDown g' = shuttingDown g →
    tracking delivered (emit e g') ∧ genStep g (emit e g') ∧ (started (emit e g') = true ∨ shuttingDown (emit e g') = true)) as Hqe.
  { intros g' e He Hc Hs. destruct (Hq g' Hc Hs) as (H1 & H2 & H3). split_and!; [by apply tracking_emit|done|done]. }
  assert (∀ g', tracking delivered g' → (∀ s, 0 ≤ generationOf s g' < M) →
    let g'' := startAll clk g' in tracking delivered g'' ∧ retryGen g'' = retryGen g' ∧ (started g'' = true ∨ shuttingDown g'' = true)) as Hstart.
  { intros g' Ht' _. destruct (startAll_tracking delivered g' Ht') as (? & ? & ? & ?). auto. }
  destruct m as [| | | | | |replyTo|replyTo sender|replyTo sender|sub kind err|sub conn lm lp|sub gen|]; cbn [Receive deliveredBy].
  - by apply Hq.
  - destruct (Hstart g Ht Hb) as (H1 & H2 & H3). split_and!; [done| |done]. intros s. unfold generationOf. rewrite H2. lia.
  - done.
  - destruct (Hstart g Ht Hb) as (H1 & H2 & H3). split_and!; [done| |done]. intros s. unfold generationOf. rewrite H2. lia.
  - destruct (stopAll_tracking delivered g Ht Hb) as (H1 & H2 & H3).
    destruct (startAll_tracking delivered _ H1) as (H4 & H5 & H6 & H7). split_and!; [done| |by left].
    intros s. unfold generationOf. rewrite H6. apply H3.
  - destruct (stopAll_tracking delivered (g <| shuttingDown := true |>)) as (H1 & H2 & H3).
    + by apply (tracking_core _ g).
    + exact Hb.
    + split_and!; [done|exact H3|right; by rewrite H2].
  - destruct replyTo as [pid|]; [|by apply Hq]. by apply Hqe.
  - destruct (orSender replyTo sender) as [pid|]; [|by apply Hq].
    destruct (buildSnapshot_core g) as [Hc Hs]. destruct (buildSnapshot clk g) as [g' st]. by apply Hqe.
  - destruct (orSender replyTo sender) as [pid|]; [|by apply Hq].
    unfold computeReady, ensureExpected. destruct (expectedSubsystems g); by apply Hqe.
  - destruct (handleChildFailed_tracking delivered sub kind err g Ht Hup (Hb sub)) as (H1 & H2 & H3 & H4).
    split_and!; [done|done|]. by rewrite H3, H4.
  - unfold handleHeartbeat. destruct (str_eqb sub ""); [by apply Hq|]. apply Hq; by repeat case_match.
  - destruct Hm as [Hs Hd]. destruct (retrySubsystem_tracking delivered sub gen g Ht Hs Hd) as (H1 & H2 & H3 & H4).
    split_and!; [done| |by rewrite H3, H4]. intros s. unfold generationOf. rewrite H2. lia.
  - by apply Hq.
Qed.

Lemma run_tracking msgs delivered n g :
  tracking delivered g → (started g = true ∨ shuttingDown g = true) → (∀ s, 0 ≤ generationOf s g ≤ n) →
  n + Z.of_nat (length msgs) < M → timersFire delivered msgs g →
  tracking (foldl (λ d m, deliveredBy m d) delivered msgs) (receiveAll clk rng msgs g) ∧
  (started (receiveAll clk rng msgs g) = true ∨ shuttingDown (receiveAll clk rng msgs g) = true) ∧
  ∀ s, 0 ≤ generationOf s (receiveAll clk rng msgs g) ≤ n + Z.of_nat (length msgs).
Proof.
  revert delivered n g. induction msgs as [|m msgs IH]; intros delivered n g Ht Hup Hb Hn Hf.
  { split_and!; [done|done|]. intros s. cbn. specialize (Hb s). lia. }
  cbn [length] in Hn. cbn [receiveAll foldl length].
  destruct Hf as [Hm Hf'].
  destruct (Receive_tracking delivered m g Ht Hup) as (H1 & H2 & H3); [intros s; specialize (Hb s); lia|done|].
  destruct (IH (deliveredBy m delivered) (n + 1) (Receive clk rng m g) H1 H3) as (H4 & H5 & H6);
    [intros s; specialize (H2 s); specialize (Hb s); lia|lia|done|].
  split_and!; [done|done|]. intros s. specialize (H6 s). unfold receiveAll in *. lia.
Qed.

(** The guardian after its start. *)
Definition fresh (cfg : GuardianConfig) (p : SupervisorPolicy) : Guardian := Receive clk rng ActorStarted (newGuardian cfg p).

Lemma fresh_tracking cfg p :
  tracking [] (fresh cfg p) ∧ started (fresh cfg p) = true ∧ ∀ s, generationOf s (fresh cfg p) = 0.
Proof.
  destruct (startAll_tracking [] (newGuardian cfg p)) as (H1 & H2 & H3 & _).
  - split; cbn; [done|by intros [] |done|..]; intros s gen [d []%elem_of_nil].
  - split_and!; [done|done|]. intros s. unfold generationOf.
    change (retryGen (fresh cfg p)) with (retryGen (startAll clk (newGuardian cfg p))). by rewrite H3.
Qed.

(** C31: From its start on, whatever messages the guardian receives (the retries being
    those of its timers), it spawns a child only when the subsystem has none: the
    previous one has been poisoned. What it keeps as the child is the one alive. *)
Theorem one_child_per_subsystem cfg p msgs :
  let g := receiveAll clk rng msgs (fresh cfg p) in
  timersFire [] msgs (fresh cfg p) → Z.of_nat (length msgs) < M →
  singleChildren (history g) ∧ ∀ sub, alive sub (history g) = children g !! sub.
Proof.
  intros g Hf Hn. destruct (fresh_tracking cfg p) as (Ht & Hst & Hg).
  destruct (run_tracking msgs [] 0 (fresh cfg p) Ht) as ([Ha H1 _ _ _] & _ & _);
    [by left|intros s; rewrite Hg; lia|lia|done|]. by split.
Qed.

(** ** Failed recoveries *)

(** [sub] is down and no retry can bring it back. *)
Definition stranded (sub : Subsystem) (g : Guardian) : Prop :=
  children g !! sub = None ∧ started g = true ∧ ∀ gen, scheduled sub gen (history g) → gen ≠ generationOf sub g.

(** Messages other than a failure of [sub], a reload or a stop. *)
Definition leavesAlone (sub : Subsystem) (m : guardianMsg) : Prop :=
  match m with ChildFailed s _ _ => s ≠ sub | ReloadConfig | Stop | ActorStopped => False | _ => True end.

(** What matters for [sub], read off a guardian. *)
Definition sameFor (sub : Subsystem) (g g' : Guardian) : Prop :=
  children g' !! sub = children g !! sub ∧ started g' = started g ∧ generationOf sub g' = generationOf sub g ∧
  ∀ gen, scheduled sub gen (history g') ↔ scheduled sub gen (history g).

Lemma sameFor_trans sub g1 g2 g3 : sameFor sub g1 g2 → sameFor sub g2 g3 → sameFor sub g1 g3.
Proof.
  intros (A1 & A2 & A3 & A4) (B1 & B2 & B3 & B4). split_and!; [congruence..|]. intros gen. by rewrite B4, A4.
Qed.

Lemma sameFor_stranded sub g g' : sameFor sub g g' → stranded sub g → stranded sub g'.
Proof. intros (H1 & H2 & H3 & H4) (S1 & S2 & S3). split_and!; [congruence..|]. intros gen Hin%H4. rewrite H3. by apply S3. Qed.

Lemma sameFor_core sub g g' : core g' = core g → sameFor sub g g'.
Proof. intros [= Hh Hc Hr _ Hs _]. unfold sameFor, generationOf. by rewrite Hh, Hc, Hr, Hs. Qed.

Lemma sameFor_emit sub g e : (∀ gen d, e ≠ Scheduled sub gen d) → sameFor sub g (emit e g).
Proof. intros He. split_and!; [done..|]. intros gen. by apply scheduled_cons. Qed.

Lemma sameFor_schedule sub s gen delay g : s ≠ sub → sameFor sub g (scheduleRetry s gen delay g).
Proof.
  intros Hne. unfold scheduleRetry. cbn. eapply (sameFor_trans _ _ (emit (Scheduled s gen delay) g)).
  { apply sameFor_emit. intros gen' d [= -> _ _]. done. }
  destruct (scheduledRetry g !! s) as [prev|]; [|by split_and!].
  eapply (sameFor_trans _ _ (emit (Cancelled s prev) (emit (Scheduled s gen delay) g))); [by apply sameFor_emit|by split_and!].
Qed.

Lemma onDecision_sameFor sub s now d g : s ≠ sub → sameFor sub g (onDecision clk s now d g).
Proof.
  intros Hne. unfold onDecision. assert (sameFor sub g (bumpRetryGeneration s g)) as Hb.
  { split_and!; [done|done| |done]. unfold generationOf, bumpRetryGeneration. cbn. by rewrite lookup_insert_ne. }
  set (g1 := bumpRetryGeneration s g) in *. eapply sameFor_trans; [exact Hb|]. clearbody g1. clear Hb g.
  destruct (EnterDegraded d).
  { eapply sameFor_trans; [|by apply sameFor_schedule]. eapply sameFor_trans; [by apply (sameFor_emit _ _ (EmittedDegraded s (Reason d)))|].
    by apply sameFor_core. }
  destruct (Restart d); cbn; [|by apply sameFor_core].
  assert (core (allowGlobalRestart now g1).1 = core g1) as Hca by (unfold allowGlobalRestart; by repeat case_match).
  destruct (allowGlobalRestart now g1) as [g2 []]; cbn in *.
  { eapply sameFor_trans; [by apply sameFor_core|by apply sameFor_schedule]. }
  assert (core (nextGlobalRetryDelay now g2).1 = core g2) as Hcn by (unfold nextGlobalRetryDelay; by repeat case_match).
  destruct (nextGlobalRetryDelay now g2) as [g3 delay]. cbn in *.
  eapply sameFor_trans; [apply sameFor_core; etrans; [exact Hcn|exact Hca]|by apply sameFor_schedule].
Qed.

Lemma handleChildFailed_sameFor sub s kind err g : s ≠ sub → sameFor sub g (handleChildFailed clk rng s kind err g).
Proof.
  intros Hne. unfold handleChildFailed. destruct (str_eqb s ""); [done|]. cbn. destruct (shuttingDown g); [by apply sameFor_core|].
  set (g1 := match children _ !! s with Some _ => _ | None => _ end).
  assert (sameFor sub g g1) as Hg1.
  { subst g1. unfold withNow. cbn. destruct (children g !! s) as [pid|].
    - split_and!; [cbn; by rewrite lookup_delete_ne|done|done|]. intros gen. by apply scheduled_cons.
    - by apply sameFor_core. }
  clearbody g1. unfold withNow. cbn. destruct OnFailure as [p' d].
  eapply sameFor_trans; [exact Hg1|]. eapply sameFor_trans; [|by apply onDecision_sameFor]. by apply sameFor_core.
Qed.

Lemma startSubsystem_sameFor sub s g : s ≠ sub → sameFor sub g (startSubsystem clk s g).
Proof.
  intros Hne. unfold startSubsystem. destruct (spawnFn (history g) s) as [problem|pid]; [by apply sameFor_core|].
  unfold policyStatus, withNow, Status. cbn. case_match.
  all: split_and!; [cbn; by rewrite lookup_insert_ne|done|done|]; intros gen; cbn; by rewrite !scheduled_cons by done.
Qed.

Lemma stranded_step sub m delivered g :
  stranded sub g → leavesAlone sub m → timely delivered m g → stranded sub (Receive clk rng m g).
Proof.
  intros Hs Hm Hr. eapply sameFor_stranded; [|exact Hs]. destruct Hs as (Hc & Hst & Hgen).
  destruct m as [| | | | | |replyTo|replyTo sender|replyTo sender|s kind err|s conn lm lp|s gen|]; cbn [Receive].
  - done.
  - unfold startAll. by rewrite Hst.
  - done.
  - unfold startAll. by rewrite Hst.
  - done.
  - done.
  - destruct replyTo; [|done]. unfold withNow. eapply sameFor_trans; [|by apply sameFor_emit]. by apply sameFor_core.
  - destruct (orSender replyTo sender) as [pid|]; [|done]. destruct (buildSnapshot_core g) as [Hb _].
    destruct (buildSnapshot clk g) as [g' st]. eapply sameFor_trans; [|by apply sameFor_emit]. by apply sameFor_core.
  - destruct (orSender replyTo sender) as [pid|]; [|done]. unfold computeReady, ensureExpected.
    destruct (expectedSubsystems g); (eapply sameFor_trans; [|by apply sameFor_emit]); by apply sameFor_core.
  - by apply handleChildFailed_sameFor.
  - unfold handleHeartbeat. destruct (str_eqb s ""); [done|]. apply sameFor_core. by repeat case_match.
  - unfold retrySubsystem. destruct (shuttingDown g); [done|]. destruct (Z.eqb_spec (generationOf s g) gen) as [E|]; [|done].
    assert (s ≠ sub) as Hne by (intros ->; by apply (Hgen gen (proj1 Hr))). cbn. unfold policyStatus, withNow, Status. cbn.
    case_match; [by split_and!|]. eapply sameFor_trans; [|by apply startSubsystem_sameFor]. by split_and!.
  - done.
Qed.

Lemma stranded_run sub msgs delivered g :
  stranded sub g → Forall (leavesAlone sub) msgs → timersFire delivered msgs g → stranded sub (receiveAll clk rng msgs g).
Proof.
  revert delivered g. induction msgs as [|m msgs IH]; intros delivered g Hs Hl Hf; [done|].
  apply Forall_cons in Hl as [Hm Hl]. cbn [receiveAll foldl].
  destruct Hf as [Hr Hf'].
  by apply (IH _ _ (stranded_step sub m delivered g Hs Hm Hr) Hl Hf').
Qed.

Lemma receiveAll_failed sub kind err later g :
  receiveAll clk rng (ChildFailed sub kind err :: later) g = receiveAll clk rng later (handleChildFailed clk rng sub kind err g).
Proof. done. Qed.

Lemma timersFire_app delivered msgs1 msgs2 g :
  timersFire delivered (msgs1 ++ msgs2) g →
  timersFire delivered msgs1 g ∧ timersFire (foldl (λ d m, deliveredBy m d) delivered msgs1) msgs2 (receiveAll clk rng msgs1 g).
Proof.
  revert delivered g. induction msgs1 as [|m msgs1 IH]; intros delivered g Hf; [done|].
  destruct Hf as [Hm Hf]. destruct (IH _ _ Hf) as [H1 H2]. split; [by split|exact H2].
Qed.

(** A failure that is reported while its subsystem is in its cooldown makes the
    retry scheduled for the end of the cooldown stale, and no other is scheduled:
    the subsystem has no child from then on, whatever timers fire, until it is
    reported as failed again (without a child to fail) or the guardian is
    reloaded or stopped. *)
Theorem failure_in_cooldown_strands_subsystem cfg p msgs sub kind err later :
  let g := receiveAll clk rng msgs (fresh cfg p) in
  sub ≠ "" → shuttingDown g = false →
  clk (S (S (reads g))) < degradedUntil (getState sub (policy g)) →
  Forall (leavesAlone sub) later → timersFire [] (msgs ++ ChildFailed sub kind err :: later) (fresh cfg p) →
  Z.of_nat (length msgs) + 1 < M →
  children (receiveAll clk rng (ChildFailed sub kind err :: later) g) !! sub = None.
Proof.
  intros g Hne Hsd Hcool Hl Hf Hn. apply timersFire_app in Hf as [Hf Hf']. fold g in Hf'. destruct Hf' as [_ Hf'].
  destruct (fresh_tracking cfg p) as (Ht0 & Hst0 & Hg0).
  destruct (run_tracking msgs [] 0 (fresh cfg p) Ht0) as (Ht & Hup & Hb);
    [by left|intros s; rewrite Hg0; lia|lia|done|]. fold g in Ht, Hup, Hb.
  destruct Hup as [Hon|]; [|congruence].
  destruct (handleChildFailed_run _ sub kind err g Ht Hne Hsd Hon)
    as (g2 & now & d & Hrun & Hnow & Hd & Ht2 & Hc2 & Hst2 & Hr2 & _ & _ & Hs2 & _).
  assert (EnterDegraded d = false ∧ Restart d = false) as [Hd1 Hd2].
  { subst d. unfold OnFailure. rewrite <-Hnow in Hcool. by rewrite (proj2 (Z.ltb_lt _ _) Hcool). }
  rewrite receiveAll_failed. eapply (stranded_run sub later); [|done|exact Hf']. rewrite Hrun. unfold onDecision. rewrite Hd1, Hd2. cbn [negb].
  destruct (tracking_bump _ g2 sub Ht2) as (_ & _ & _ & Hlt).
  { specialize (Hb sub). unfold generationOf in *. rewrite Hr2. unfold M in *. lia. }
  split_and!; [done|done|]. intros gen Hin. specialize (Hlt gen Hin). lia.
Qed.

Definition isRecovered (e : guardianEvent) : bool := match e with EmittedRecovered _ => true | _ => false end.

Lemma getState_self sub p : getState sub (setState sub (getState sub p) p) = getState sub p.
Proof. rewrite getState_set. by case_decide. Qed.

(** A start when the cooldown is over reports nothing. *)
Lemma startSubsystem_calm sub g :
  degradedUntil (getState sub (policy g)) ≤ clk (S (reads g)) →
  let g' := startSubsystem clk sub g in
  filter (λ e, isRecovered e = true) (history g') = filter (λ e, isRecovered e = true) (history g) ∧
  getState sub (policy g') = getState sub (policy g).
Proof.
  intros Hover. unfold startSubsystem. destruct (spawnFn _ sub) as [problem|pid]; [done|].
  unfold policyStatus, withNow, Status. cbn. rewrite (proj2 (Z.ltb_ge _ _) Hover). cbn. split; [done|]. apply getState_self.
Qed.

(** What a retry that is let through finds. *)
Lemma retrySubsystem_run sub gen g (until := degradedUntil (getState sub (policy g))) :
  ∃ g1, history g1 = history g ∧ getState sub (policy g1) = getState sub (policy g) ∧
    (retrySubsystem clk sub gen g = g1 ∨
     retrySubsystem clk sub gen g = startSubsystem clk sub g1 ∧ reads g1 = S (S (reads g)) ∧
     (until ≤ clk (reads g) ∨ until ≤ clk (S (reads g)))).
Proof.
  unfold retrySubsystem. destruct (shuttingDown g); [by exists g; eauto|]. destruct (negb _); [by exists g; eauto|].
  unfold policyStatus, withNow, Status. cbn. destruct (_ && _) eqn:Hc.
  - eexists. split; [|split; [|by left]]; [done|]. apply getState_self.
  - eexists. split; [|split; [|right; split; [reflexivity|]]]; [done|apply getState_self|]. split; [done|].
    apply andb_false_iff in Hc as [Hc%Z.ltb_ge|Hc%Z.ltb_ge]; [by left|by right].
Qed.

(** With a clock that does not go back, a restart by a retry never reports the
    recovery of the subsystem and keeps its record of failures: by the time the
    retry is let through, the cooldown is over and the subsystem no longer counts
    as degraded. *)
Theorem retry_never_reports_recovery sub gen g :
  (∀ n, clk n ≤ clk (S n)) →
  let g' := retrySubsystem clk sub gen g in
  filter (λ e, isRecovered e = true) (history g') = filter (λ e, isRecovered e = true) (history g) ∧
  failures (getState sub (policy g')) = failures (getState sub (policy g)).
Proof.
  intros Hclk g'. destruct (retrySubsystem_run sub gen g) as (g1 & Hh & Hp & Hrun). subst g'.
  destruct Hrun as [->|(-> & Hr & Hover)]; [by rewrite Hh, Hp|].
  destruct (startSubsystem_calm sub g1) as [-> ->]; [|by rewrite Hh, Hp]. rewrite Hp, Hr.
  pose proof (Hclk (reads g)). pose proof (Hclk (S (reads g))). pose proof (Hclk (S (S (reads g)))). destruct Hover; lia.
Qed.

End guardian_spec.

(** ** Example: a limit of one restart *)

#[local] Existing Instance go_amd64.
#[local] Instance w_env : GuardianEnv := {| spawnFn _ sub := inr (("pid-" ++ sub)%string) |}.

Definition w_clock (n : nat) : Z := Z.of_nat n.
Definition w_policy : SupervisorPolicy := MkSupervisorPolicy (MkSupervisorConfig 1 10 f0 1000 1 1000) ∅ 0.
Definition w_config : GuardianConfig := MkGuardianConfig ∅ None.
(** The second failure degrades the subsystem; the third arrives in its cooldown. *)
Definition w_msgs : list guardianMsg :=
  [ChildFailed "delivery" "panic" None; RetrySubsystem "delivery" 1; ChildFailed "delivery" "panic" None].

(** [timersFire], decided. *)
Definition scheduledb (sub : Subsystem) (gen : Z) (h : list guardianEvent) : bool :=
  existsb (λ e, match e with Scheduled s n _ => str_eqb s sub && (n =? gen) | _ => false end) h.
Fixpoint timersFireb (clk : nat → Z) (rng : nat → float64) (delivered : list (Subsystem * Z)) (msgs : list guardianMsg) (g : Guardian) : bool :=
  match msgs with
  | [] => true
  | m :: msgs =>
      match m with
      | RetrySubsystem sub gen => scheduledb sub gen (history g) && bool_decide ((sub, gen) ∉ delivered)
      | ActorStopped => false
      | _ => true
      end && timersFireb clk rng (deliveredBy m delivered) msgs (Receive clk rng m g)
  end.

Lemma timersFireb_sound clk rng delivered msgs g : timersFireb clk rng delivered msgs g = true → timersFire clk rng delivered msgs g.
Proof.
  revert delivered g. induction msgs as [|m msgs IH]; intros delivered g Hb; [done|]. cbn [timersFireb] in Hb.
  apply andb_true_iff in Hb as [Hm Hb]. split; [|by apply IH]. clear Hb IH. destruct m; try done. cbn.
  apply andb_true_iff in Hm as [Hs Hd%bool_decide_eq_true]. split; [|done].
  unfold scheduledb in Hs. apply existsb_exists in Hs as (e & Hin%list_elem_of_In & He). destruct e; try done.
  apply andb_true_iff in He as [->%String.eqb_eq ->%Z.eqb_eq]. by eexists.
Qed.

Lemma one_child_per_subsystem_witness :
  singleChildren (history (receiveAll w_clock (λ _, f0) w_msgs (fresh w_clock (λ _, f0) w_config w_policy))).
Proof.
  refine (proj1 (one_child_per_subsystem w_clock (λ _, f0) w_config w_policy w_msgs _ _)).
  - apply timersFireb_sound. vm_compute. reflexivity.
  - vm_compute. reflexivity.
Defined.

Lemma failure_in_cooldown_strands_subsystem_witness :
  children (receiveAll w_clock (λ _, f0) (ChildFailed "delivery" "panic" None :: [RetrySubsystem "delivery" 2])
    (receiveAll w_clock (λ _, f0) w_msgs (fresh w_clock (λ _, f0) w_config w_policy))) !! "delivery" = None.
Proof.
  apply (failure_in_cooldown_strands_subsystem w_clock (λ _, f0) w_config w_policy w_msgs "delivery" "panic" None [RetrySubsystem "delivery" 2]).
  - done.
  - vm_compute. reflexivity.
  - vm_compute. reflexivity.
  - by repeat constructor.
  - apply timersFireb_sound. vm_compute. reflexivity.
  - vm_compute. reflexivity.
Defined.

Lemma retry_never_reports_recovery_witness :
  let g := receiveAll w_clock (λ _, f0) w_msgs (fresh w_clock (λ _, f0) w_config w_policy) in
  failures (getState "delivery" (policy (retrySubsystem w_clock "delivery" 2 g))) = failures (getState "delivery" (policy g)).
Proof. apply (retry_never_reports_recovery w_clock "delivery" 2). intros n. unfold w_clock. lia. Defined.
