(* ===== verification/Loops.v ===== *)
(** * Loops: Go's [for condition { body }] with indices and early exits

    A loop that is not a walk over one list is run with fuel. Its body is one
    pass, [None] when the condition is false. The rule [loop_variant] is the one
    for total correctness: an invariant and a natural number that each pass
    decreases; enough fuel is one more than that number. [loop_spec] says that
    the fuel is no part of the meaning: what the loop returns is the end of its
    passes. *)

From S2P Require Import Prelude.

Fixpoint loop {S : Type} (body : S → option S) (fuel : nat) (s : S) : option S :=
  match fuel with
  | O => None
  | Datatypes.S n => match body s with None => Some s | Some s' => loop body n s' end
  end.

Section rules.
Context {S : Type} (body : S → option S).

(** One pass, as a relation; the loop is over in a state that has none. *)
Definition pass (s s' : S) : Prop := body s = Some s'.

Lemma pass_det s s1 s2 : pass s s1 → pass s s2 → s1 = s2.
Proof. unfold pass. congruence. Qed.

Lemma loop_sound fuel s r : loop body fuel s = Some r → rtc pass s r ∧ body r = None.
Proof.
  revert s. induction fuel as [|n IH]; intros s; cbn; [done|].
  destruct (body s) as [s'|] eqn:E; [|intros [= <-]; by split; [apply rtc_refl|]].
  intros [Hr Hn]%IH. split; [by eapply rtc_l|done].
Qed.

Lemma loop_complete s r : rtc pass s r → body r = None → ∃ n, ∀ fuel, n ≤ fuel → loop body fuel s = Some r.
Proof.
  intros Hr Hn. induction Hr as [s|s s' r Hs _ IH].
  - exists 1. intros [|k] Hk; [lia|]. cbn. by rewrite Hn.
  - destruct (IH Hn) as [n Hl]. exists (Datatypes.S n). intros [|k] Hk; [lia|]. cbn. rewrite Hs. apply Hl. lia.
Qed.

(** The result does not depend on the fuel. *)
Lemma loop_spec s r : (∃ fuel, loop body fuel s = Some r) ↔ rtc pass s r ∧ body r = None.
Proof.
  split; [intros [n Hn]; by eapply loop_sound|]. intros [Hr Hn]. destruct (loop_complete s r Hr Hn) as [n Hl].
  exists n. by apply Hl.
Qed.

Lemma loop_more fuel fuel' s r : loop body fuel s = Some r → fuel ≤ fuel' → loop body fuel' s = Some r.
Proof.
  revert fuel' s. induction fuel as [|n IH]; intros [|m] s; cbn; try done; [lia|].
  destruct (body s); [|done]. intros H Hle. apply IH; [done|lia].
Qed.

Lemma loop_variant (I : S → Prop) (μ : S → nat) :
  (∀ s s', I s → body s = Some s' → I s' ∧ μ s' < μ s) →
  ∀ fuel s, I s → μ s < fuel → ∃ r, loop body fuel s = Some r ∧ I r ∧ body r = None.
Proof.
  intros Hstep fuel. induction fuel as [|n IH]; intros s Hs Hfuel; [lia|]. cbn.
  destruct (body s) as [s'|] eqn:E; [|by exists s]. destruct (Hstep s s' Hs E) as [Hs' Hlt].
  apply IH; [done|lia].
Qed.
End rules.

(** ** sort.Search

    The binary search of the standard library: the least index in [0..n] at which
    the predicate holds, when it does not go back to false. *)
Definition searchBody (f : nat → bool) (ij : nat * nat) : option (nat * nat) :=
  let (i, j) := ij in
  if decide (i < j) then
    let h := Nat.div2 (i + j) in
    if negb (f h) then Some (Datatypes.S h, j) else Some (i, h)
  else None.

Definition sort_Search (n : nat) (f : nat → bool) : nat :=
  match loop (searchBody f) (Datatypes.S n) (0, n) with Some (i, _) => i | None => n end.

Section search.
Context (f : nat → bool) (n : nat).

Definition searchInv (ij : nat * nat) : Prop :=
  ij.1 ≤ ij.2 ≤ n ∧ (∀ k, k < ij.1 → f k = false) ∧ (ij.2 < n → f ij.2 = true).

Lemma div2_between i j : i < j → i ≤ Nat.div2 (i + j) < j.
Proof. intros. rewrite Nat.div2_div. split; [apply Nat.div_le_lower_bound; lia|apply Nat.Div0.div_lt_upper_bound; lia]. Qed.

Context (Hmono : ∀ a b, a ≤ b → b < n → f a = true → f b = true).

Lemma searchBody_step ij ij' :
  searchInv ij → searchBody f ij = Some ij' → searchInv ij' ∧ ij'.2 - ij'.1 < ij.2 - ij.1.
Proof.
  destruct ij as [i j]. intros ([Hij Hjn] & Hlo & Hhi). cbn in *. destruct (decide (i < j)) as [Hlt|]; [|done].
  destruct (div2_between i j Hlt) as [Hh1 Hh2]. set (h := Nat.div2 (i + j)) in *. clearbody h.
  destruct (f h) eqn:Efh; cbn [negb]; intros [= <-]; (split; [|cbn; lia]); unfold searchInv; cbn; (split; [lia|]); (split; [|try done]); try done; try lia.
  intros k Hk. destruct (f k) eqn:Efk; [|done]. rewrite (Hmono k h) in Efh; [done|lia|lia|done].
Qed.

(** The search ends, and finds the boundary of the predicate. *)
Lemma sort_Search_spec :
  sort_Search n f ≤ n ∧ (∀ k, k < sort_Search n f → f k = false) ∧ (sort_Search n f < n → f (sort_Search n f) = true).
Proof.
  destruct (loop_variant (searchBody f) searchInv (λ ij, ij.2 - ij.1) searchBody_step (Datatypes.S n) (0, n))
    as ([i j] & Hl & ([Hij Hjn] & Hlo & Hhi) & Hend).
  { unfold searchInv. cbn. split_and!; try lia. }
  { cbn. lia. }
  unfold sort_Search. rewrite Hl. cbn in *. destruct (decide (i < j)); [by destruct (f (Nat.div2 (i + j)))|].
  assert (i = j) as -> by lia. done.
Qed.
End search.
