(* ===== verification/OpenInterest.v ===== *)
(** * OpenInterest: open interest and funding (internal/core/aggregation)

    app/build_open_interest.go with the open-interest part of
    domain/analytics_primitives.go, and app/build_funding.go. The use case keeps a
    cell per instrument: the last sequence number and value, and a ring of the
    last ten arrival times from which it derives a cadence. The store and the
    publisher are ports ([OIPorts]); the state keeps the calls made to them with
    their answers. *)

From S2P Require Import Prelude GoRuntime Shared BoundedMap Cells BuildCandle BuildStats.

Local Open Scope string_scope.
Local Open Scope list_scope.
Local Open Scope Z_scope.

(** ** analytics_primitives.go *)

Record OpenInterestWindowV1 := MkOIWindow {
  oi_Venue : string; oi_Instrument : string; oi_Timeframe : string;
  oi_WindowStartTs : Z; oi_WindowEndTs : Z;
  oi_OpenInterest : float64; oi_Delta : float64; oi_DeltaPct : float64;
  oi_Seq : Z; oi_TsIngestMs : Z; oi_CadenceHintMs : Z; oi_Confidence : string;
}.

Definition BuildOpenInterestWindowV1 (venue instrument : string) (seq tsIngest timestamp : Z)
    (openInterest prevOpenInterest : float64) (hasPrev : bool) (cadenceHintMs : Z) (confidence : string)
    : OpenInterestWindowV1 :=
  let delta := if hasPrev then fsub openInterest prevOpenInterest else f0 in
  let deltaPct := if hasPrev && fltb f0 prevOpenInterest then fdiv delta prevOpenInterest else f0 in
  let windowTs := timestamp in
  let windowTs := if windowTs <=? 0 then tsIngest else windowTs in
  let windowTs := if windowTs <=? 0 then 0 else windowTs in
  let deltaPct := if isNaN deltaPct || isInf deltaPct then f0 else deltaPct in
  MkOIWindow venue instrument "raw" windowTs windowTs openInterest delta deltaPct seq tsIngest cadenceHintMs confidence.

(** ** build_open_interest.go *)

Definition oiCadenceWindowSize : nat := 10.
Definition oiConfidenceHighMs : Z := 5000.
Definition oiConfidenceMediumMs : Z := 30000.

Record openInterestKey := MkOIKey { oikey_Venue : string; oikey_Instrument : string }.
#[export] Instance openInterestKey_eq_dec : EqDecision openInterestKey.
Proof. solve_decision. Defined.
#[export] Instance openInterestKey_countable : Countable openInterestKey :=
  inj_countable' (λ k, (oikey_Venue k, oikey_Instrument k)) (λ t, MkOIKey t.1 t.2)
    (λ k, match k with MkOIKey _ _ => eq_refl end).

Record openInterestState := MkOIState {
  LastSeq : Z;
  LastOpenInterest : float64;
  HasLast : bool;
  ArrivalTimes : list Z;
  ArrivalCount : nat;
  ArrivalIdx : nat;
}.
#[export] Instance openInterestState_eta : Eta openInterestState := λ r,
  MkOIState (LastSeq r) (LastOpenInterest r) (HasLast r) (ArrivalTimes r) (ArrivalCount r) (ArrivalIdx r).

(** [&openInterestState{}] *)
Definition zeroOIState : openInterestState := MkOIState 0 f0 false (replicate oiCadenceWindowSize 0) 0 0.

Record BuildOpenInterestConfig := MkOIConfig { MaxStreams : Z; StreamTTL : Z }.

Record BuildOpenInterestRequest := MkOIRequest {
  req_Venue : string;
  req_Instrument : string;
  req_OpenInterest : float64;
  req_Seq : Z;
  req_TsIngest : Z;
  req_Timestamp : Z;
}.

Record BuildOpenInterestResponse := MkOIResponse {
  Emitted : OpenInterestWindowV1;
  HasEmission : bool;
  resp_ActiveStreams : Z;
}.

Inductive OICall := SaveOI (evt : OpenInterestWindowV1) | PublishOpenInterest (evt : OpenInterestWindowV1).
Abbreviation OILog := (list (OICall * option Problem)).
Class OIPorts := { oiAnswer : OILog → OICall → option Problem }.

Record BuildOpenInterestFromEvents := MkBuildOI {
  publisher : bool;
  store : bool;
  state : Cells openInterestKey openInterestState;
  portCalls : OILog;
}.
#[export] Instance BuildOI_eta : Eta BuildOpenInterestFromEvents := λ r,
  MkBuildOI (publisher r) (store r) (state r) (portCalls r).

Abbreviation OIUC := (Meth BuildOpenInterestFromEvents Problem).

Definition validateOpenInterestRequest {GR : GoRuntime} (req : BuildOpenInterestRequest) : option Problem :=
  match Collect [NonEmptyString "venue" (req_Venue req); NonEmptyString "instrument" (req_Instrument req);
                 PositiveInt "seq" (req_Seq req); PositiveInt "ts_ingest" (req_TsIngest req)] with
  | Some p => Some p
  | None =>
      if isNaN (req_OpenInterest req) || isInf (req_OpenInterest req) || fltb (req_OpenInterest req) f0 then
        Some (New ValidationFailed "open_interest must be a finite number >= 0")
      else if req_Timestamp req <? 0 then Some (New ValidationFailed "timestamp must be >= 0")
      else None
  end.

(** [d := sorted[i] - sorted[i-1]; if d > 0 { deltas = append(deltas, d) }] *)
Fixpoint positiveDeltas (prev : Z) (sorted : list Z) : list Z :=
  match sorted with
  | [] => []
  | t :: rest =>
      let d := sub64 t prev in
      (if 0 <? d then [d] else []) ++ positiveDeltas t rest
  end.

Section build_oi.
Context {GR : GoRuntime} {ports : OIPorts} (clk : nat → Z).

Definition computeMedianCadence (times : list Z) (count : nat) : Z :=
  if (count <? 2)%nat then 0 else
  let sorted := sort_slice Z.ltb (take count times) in
  let deltas := match sorted with [] => [] | first :: rest => positiveDeltas first rest end in
  match deltas with
  | [] => 0
  | _ =>
      let deltas := sort_slice Z.ltb deltas in
      let mid := Nat.div2 (length deltas) in
      let at_ i := default 0 (deltas !! i) in
      if Nat.even (length deltas) then quot64 (add64 (at_ (mid - 1)%nat) (at_ mid)) 2 else at_ mid
  end.

Definition deriveConfidence (cadenceMs : Z) : string :=
  if cadenceMs <=? 0 then ""
  else if cadenceMs <? oiConfidenceHighMs then "high"
  else if cadenceMs <? oiConfidenceMediumMs then "medium"
  else "low".

Definition NewBuildOpenInterestFromEvents (pub store : bool) (cfg : BuildOpenInterestConfig) : BuildOpenInterestFromEvents :=
  let maxStreams := if MaxStreams cfg <=? 0 then 50000 else MaxStreams cfg in
  let streamTTL := if StreamTTL cfg <=? 0 then Hour else StreamTTL cfg in
  let state := newCells clk maxStreams streamTTL in
  let state := state <| cmap ::= SetSweepEveryOps 1024 |> <| cmap ::= SetSweepMinInterval Second |> in
  MkBuildOI pub store state [].

Definition onState {A} (m : Meth (Cells openInterestKey openInterestState) Problem A) : OIUC A := λ uc,
  let '(c, r) := m (state uc) in (uc <| state := c |>, r).

Definition nowUnixMilli : OIUC Z := λ uc,
  (uc <| state ::= λ c, c <| reads ::= S |> |>, inr (UnixMilli (clk (reads (state uc))))).

Definition callPort (present : bool) (call : OICall) : OIUC unit := λ uc,
  if present then
    let r := oiAnswer (portCalls uc) call in
    (uc <| portCalls ::= λ l, l ++ [(call, r)] |>, match r with Some p => inl p | None => inr tt end)
  else (uc, inr tt).

Definition arrayPanic : Problem := New Internal "runtime error: index out of range".

(** [state.ArrivalTimes[state.ArrivalIdx] = nowMs] and the two index updates. *)
Definition recordArrival (nowMs : Z) : Meth openInterestState Problem unit := λ st,
  if (oiCadenceWindowSize <=? ArrivalIdx st)%nat then (st, inl arrayPanic) else
  let st := st <| ArrivalTimes ::= <[ArrivalIdx st := nowMs]> |> in
  let st := st <| ArrivalIdx := ((ArrivalIdx st + 1) mod oiCadenceWindowSize)%nat |> in
  (if (ArrivalCount st <? oiCadenceWindowSize)%nat then st <| ArrivalCount ::= S |> else st, inr tt).

(** The state of the key, or a new one the map does not hold yet. *)
Definition stateOf (key : openInterestKey) : OIUC Z :=
  found ← onState (cellGet clk key);
  match found with
  | Some a => mret a
  | None => onState (alloc zeroOIState)
  end.

Definition Execute (req : BuildOpenInterestRequest) : OIUC BuildOpenInterestResponse :=
  check (validateOpenInterestRequest req) ;;
  let key := MkOIKey (CanonicalVenue (req_Venue req)) (CanonicalInstrument (req_Instrument req)) in
  a ← stateOf key;
  st ← onState (load a);
  fail_if ((0 <? LastSeq st) && (req_Seq req <=? LastSeq st))
    (Newf OutOfOrder "open_interest seq must be monotonic: got=%d last=%d" [AnyInt (req_Seq req); AnyInt (LastSeq st)]) ;;
  nowMs ← nowUnixMilli;
  onState (callAt a (recordArrival nowMs)) ;;
  st ← onState (load a);
  let cadenceMs := computeMedianCadence (ArrivalTimes st) (ArrivalCount st) in
  let confidence := deriveConfidence cadenceMs in
  let window := BuildOpenInterestWindowV1 (oikey_Venue key) (oikey_Instrument key) (req_Seq req) (req_TsIngest req)
                  (req_Timestamp req) (req_OpenInterest req) (LastOpenInterest st) (HasLast st) cadenceMs confidence in
  uc ← recv;
  callPort (store uc) (SaveOI window) ;;
  callPort (publisher uc) (PublishOpenInterest window) ;;
  onState (callAt a (assign (λ st,
    st <| LastSeq := req_Seq req |> <| LastOpenInterest := req_OpenInterest req |> <| HasLast := true |>))) ;;
  onState (cellPut clk key a) ;;
  uc ← recv;
  mret (MkOIResponse window true (cellLen (state uc))).

Definition ActiveStreams (uc : BuildOpenInterestFromEvents) : Z := cellLen (state uc).
End build_oi.

(** ** build_funding.go *)

(** The fields of [MarkPriceTickV1] that the adapter reads. *)
Record MarkPriceTickV1 := MkMarkPriceTick { tick_MarkPrice : float64; tick_FundingRate : float64 }.

(** [uc == nil || uc.statsUC == nil] is [None]. *)
Definition fundingExecute `{GR : GoRuntime} `{ports : BuildStats.StatsPorts} (clk : nat → Z)
    (statsUC : option BuildStats.BuildStatsFromEvents) (venue instrument : string) (seq tsIngest : Z)
    (payload : MarkPriceTickV1) : option BuildStats.BuildStatsFromEvents * (Problem + BuildStats.BuildStatsResponse) :=
  match statsUC with
  | None => (None, inl (New Internal "build funding: stats use-case not configured"))
  | Some uc =>
      let req := BuildStats.MkBuildStatsRequest venue instrument BuildStats.StatsInputFundingRate seq tsIngest
                   "" f0 (tick_MarkPrice payload) (tick_FundingRate payload) in
      let '(uc, r) := BuildStats.Execute clk req uc in (Some uc, r)
  end.
