(* ===== verification/OpenInterestSpec.v ===== *)
(** * OpenInterestSpec: what the open-interest use case promises

    The arrival ring holds the last ten arrivals, so the cadence is the median gap
    between them; and over any history the change that a window reports is measured
    against an earlier window of its stream. *)

From S2P Require Import Prelude GoRuntime Shared BoundedMap Cells BuildCandle GapDetector OpenInterest.

Local Open Scope string_scope.
Local Open Scope list_scope.
Local Open Scope Z_scope.

(** ** The arrival ring *)

(** Slot [i mod 10] holds arrival [i], for the last ten arrivals. *)
Record ringOf (hist : list Z) (st : openInterestState) : Prop := {
  ring_length : length (ArrivalTimes st) = oiCadenceWindowSize;
  ring_idx : ArrivalIdx st = (length hist mod oiCadenceWindowSize)%nat;
  ring_count : ArrivalCount st = Nat.min oiCadenceWindowSize (length hist);
  ring_slot : ∀ i, (length hist - oiCadenceWindowSize ≤ i < length hist)%nat →
    ArrivalTimes st !! (i mod oiCadenceWindowSize)%nat = hist !! i;
}.

Lemma mod_apart n i : (n - 9 ≤ i < n)%nat → (i mod 10 ≠ n mod 10)%nat.
Proof.
  intros Hi Heq. pose proof (Nat.div_mod_eq n 10). pose proof (Nat.div_mod_eq i 10).
  assert (n - i = 10 * (n / 10 - i / 10))%nat by lia. lia.
Qed.

(** Recording never leaves the ring, and never panics. *)
Lemma recordArrival_ring hist st now :
  ringOf hist st →
  ∃ st', recordArrival now st = (st', inr tt) ∧ ringOf (hist ++ [now]) st' ∧
    LastSeq st' = LastSeq st ∧ LastOpenInterest st' = LastOpenInterest st ∧ HasLast st' = HasLast st.
Proof.
  intros [Hlen Hidx Hcnt Hslot]. unfold recordArrival, oiCadenceWindowSize in *.
  pose proof (Nat.mod_upper_bound (length hist) 10 ltac:(lia)) as Hub.
  rewrite (proj2 (Nat.leb_gt 10 (ArrivalIdx st))) by lia.
  match goal with |- ∃ st', (?x, _) = _ ∧ _ => set (st' := x); exists st' end. split; [reflexivity|].
  assert (ArrivalTimes st' = <[ArrivalIdx st := now]> (ArrivalTimes st) ∧
    ArrivalIdx st' = ((ArrivalIdx st + 1) mod 10)%nat ∧
    ArrivalCount st' = (if ArrivalCount st <? 10 then S (ArrivalCount st) else ArrivalCount st)%nat ∧
    LastSeq st' = LastSeq st ∧ LastOpenInterest st' = LastOpenInterest st ∧ HasLast st' = HasLast st)
    as (H1 & H2 & H3 & H4).
  { unfold st'. change (ArrivalCount (?a <| ArrivalIdx := ?b |>)) with (ArrivalCount st). by destruct (ArrivalCount st <? 10)%nat. }
  clearbody st'. split; [|done]. split; unfold oiCadenceWindowSize.
  - by rewrite H1, length_insert.
  - rewrite H2, Hidx, length_app. cbn [length]. by rewrite Nat.Div0.add_mod_idemp_l.
  - rewrite H3, length_app. cbn [length]. destruct (Nat.ltb_spec (ArrivalCount st) 10); lia.
  - rewrite length_app, H1, Hidx. cbn [length]. intros i Hi. destruct (decide (i = length hist)) as [->|Hne].
    + rewrite list_lookup_insert_eq by lia. rewrite lookup_app_r by lia. by rewrite Nat.sub_diag.
    + rewrite list_lookup_insert_ne by (apply not_eq_sym, mod_apart; lia). rewrite lookup_app_l by lia. apply Hslot. lia.
Qed.

Lemma zeroOIState_ring : ringOf [] zeroOIState.
Proof. split; [done..|]. intros i. cbn. lia. Qed.

(** The used part of the ring is the last ten arrivals, in some order. *)
Lemma ring_perm hist st : ringOf hist st → take (ArrivalCount st) (ArrivalTimes st) ≡ₚ lastN oiCadenceWindowSize hist.
Proof.
  intros [Hlen Hidx Hcnt Hslot]. unfold oiCadenceWindowSize in *. rewrite Hcnt. set (n := length hist) in *.
  destruct (decide (n < 10)%nat) as [Hlt|Hge].
  - rewrite Nat.min_r, lastN_all by lia. enough (take n (ArrivalTimes st) = hist) as -> by done. apply (list_eq_same_length _ _ n); [done|rewrite length_take; lia|].
    intros i x y Hi Hx Hy. rewrite lookup_take_lt in Hx by done. rewrite <- (Hslot i) in Hy by lia.
    rewrite Nat.mod_small in Hy by lia. congruence.
  - rewrite Nat.min_l, take_ge by lia. set (r := (n mod 10)%nat) in *.
    pose proof (Nat.mod_upper_bound n 10 ltac:(lia)) as Hr. pose proof (Nat.div_mod_eq n 10) as Hdm. fold r in Hr, Hdm.
    rewrite <- (take_drop (10 - r) (lastN 10 hist)), Permutation_app_comm.
    enough (ArrivalTimes st = drop (10 - r) (lastN 10 hist) ++ take (10 - r) (lastN 10 hist)) as <- by done.
    pose proof (lastN_length 10 hist) as HlN. fold n in HlN. rewrite Nat.min_l in HlN by lia.
    apply (list_eq_same_length _ _ 10); [rewrite length_app, length_drop, length_take; lia|done|].
    intros j x y Hj Hx Hy. destruct (decide (j < r)%nat) as [Hjr|Hjr].
    + rewrite lookup_app_l, lookup_drop, lookup_lastN in Hy by (rewrite length_drop; lia). fold n in Hy.
      rewrite <- Hslot in Hy by lia. replace (n - 10 + (10 - r + j))%nat with (j + n / 10 * 10)%nat in Hy by lia.
      rewrite Nat.Div0.mod_add, Nat.mod_small in Hy by lia. congruence.
    + rewrite lookup_app_r, length_drop, lookup_take_lt, lookup_lastN in Hy by (rewrite ?length_drop; lia). fold n in Hy. rewrite HlN in Hy.
      rewrite <- Hslot in Hy by lia. replace (n - 10 + (j - (10 - (10 - r))))%nat with (j + (n / 10 - 1) * 10)%nat in Hy by lia.
      rewrite Nat.Div0.mod_add, Nat.mod_small in Hy by lia. congruence.
Qed.

(** ** The cadence *)

(** The gaps between neighbours, without the empty ones. *)
Definition gaps (l : list Z) : list Z := filter (λ d, 0 < d) (zip_with Z.sub (tail l) l).
(** The median of a list, rounded down; 0 for the empty list. *)
Definition median (l : list Z) : Z :=
  let s := merge_sort Z.le l in
  let mid := Nat.div2 (length s) in
  if decide (length s = 0%nat) then 0
  else if Nat.even (length s) then (s !!! (mid - 1)%nat + s !!! mid) / 2 else s !!! mid.

Section cadence.
Context {GR : GoRuntime}.

Lemma sort_Z_unique l k : l ≡ₚ k → Sorted Z.le k → sort_slice Z.ltb l = k.
Proof.
  intros Hp Hk. destruct (sorted_slice l) as [Hs Hpl]. apply (Sorted_unique Z.le); [|done|by rewrite Hpl].
  eapply Sorted_impl; [|exact Hs]. intros a b. apply Z.ltb_ge.
Qed.

Lemma sort_Z l : sort_slice Z.ltb l = merge_sort Z.le l.
Proof. apply sort_Z_unique; [by rewrite merge_sort_Permutation|]. apply Sorted_merge_sort, _. Qed.

Lemma positiveDeltas_gaps prev l :
  Forall (λ t, 0 ≤ t < 2 ^ 62) (prev :: l) → positiveDeltas prev l = gaps (prev :: l).
Proof.
  unfold gaps. revert prev. induction l as [|t l IH]; intros prev Hall; [done|]. apply Forall_cons in Hall as [Hp Hall].
  pose proof Hall as [Ht _]%Forall_cons. cbn [positiveDeltas]. rewrite (IH t Hall). cbn [tail zip_with].
  assert (sub64 t prev = t - prev) as -> by (unfold sub64; apply wrap64_id; unfold in_i64, MinInt64, MaxInt64; lia).
  rewrite filter_cons. destruct (Z.ltb_spec 0 (t - prev)).
  - by rewrite decide_True by done.
  - by rewrite decide_False by lia.
Qed.

Lemma gaps_bound l d : Forall (λ t, 0 ≤ t < 2 ^ 62) l → d ∈ gaps l → 0 < d < 2 ^ 62.
Proof.
  intros Hall [Hd Hin]%list_elem_of_filter. split; [done|]. apply elem_of_lookup_zip_with in Hin as (i & x & y & -> & Hx & Hy).
  rewrite lookup_tail in Hx. rewrite Forall_lookup in Hall. pose proof (Hall _ _ Hx). pose proof (Hall _ _ Hy). lia.
Qed.

Lemma computeMedianCadence_median times count l :
  take count times ≡ₚ l → length l = count → Sorted Z.le l → Forall (λ t, 0 ≤ t < 2 ^ 62) l →
  computeMedianCadence times count = median (gaps l).
Proof.
  intros Hp Hlen Hs Hall. unfold computeMedianCadence. rewrite (sort_Z_unique _ _ Hp Hs).
  destruct (Nat.ltb_spec count 2) as [Hlt|Hge].
  { destruct l as [|x [|y l]]; [done|done|]. cbn in Hlen. lia. }
  destruct l as [|x l]; [cbn in Hlen; lia|]. rewrite (positiveDeltas_gaps x l Hall).
  pose proof (gaps_bound (x :: l)) as Hb. set (g := gaps (x :: l)) in *. clearbody g. rewrite sort_Z. unfold median.
  pose proof (merge_sort_Permutation Z.le g) as Hperm. destruct g as [|d g]; [done|].
  set (s := merge_sort Z.le (d :: g)) in *. assert (length s = S (length g)) as Hls by (by rewrite Hperm).
  rewrite decide_False by lia. assert (0 < Nat.div2 (length s) → Nat.div2 (length s) < length s)%nat as Hmid.
  { intros _. rewrite Nat.div2_div. apply Nat.div_lt; lia. }
  assert (∀ i, (i < length s)%nat → default 0 (s !! i) = s !!! i ∧ 0 < s !!! i < 2 ^ 62) as Hat.
  { intros i Hi. destruct (lookup_lt_is_Some_2 s i Hi) as [v Hv]. rewrite Hv, (list_lookup_total_correct _ _ _ Hv). split; [done|].
    apply Hb; [done|]. rewrite <- Hperm. by eapply list_elem_of_lookup_2. }
  assert (Nat.div2 (length s) < length s)%nat as Hm by (rewrite Nat.div2_div; apply Nat.div_lt; lia).
  destruct (Hat _ Hm) as [-> Hv2]. destruct (Nat.even (length s)) eqn:He; [|done].
  destruct (Hat (Nat.div2 (length s) - 1)%nat ltac:(lia)) as [-> Hv1].
  unfold add64, quot64. rewrite (wrap64_id (_ + _)) by (unfold in_i64, MinInt64, MaxInt64; lia).
  rewrite Z.quot_div_nonneg by lia. apply wrap64_id. unfold in_i64, MinInt64, MaxInt64.
  pose proof (Z.div_le_upper_bound (s !!! (Nat.div2 (length s) - 1)%nat + s !!! Nat.div2 (length s)) 2 (2 ^ 62)).
  pose proof (Z.div_pos (s !!! (Nat.div2 (length s) - 1)%nat + s !!! Nat.div2 (length s)) 2). lia.
Qed.

(** Recording the arrivals [ts] one after the other. *)
Fixpoint recordAll (ts : list Z) (st : openInterestState) : openInterestState * (Problem + unit) :=
  match ts with
  | [] => (st, inr tt)
  | t :: ts => match recordArrival t st with (st, inr _) => recordAll ts st | r => r end
  end.

Lemma recordAll_ring ts hist st :
  ringOf hist st → ∃ st', recordAll ts st = (st', inr tt) ∧ ringOf (hist ++ ts) st'.
Proof.
  revert hist st. induction ts as [|t ts IH]; intros hist st Hst; cbn [recordAll]; [exists st; by rewrite app_nil_r|].
  destruct (recordArrival_ring hist st t Hst) as (st1 & -> & Hst1 & _). destruct (IH _ _ Hst1) as (st' & Hr & Hst').
  exists st'. by rewrite <- app_assoc in Hst'.
Qed.

(** The cadence of an open-interest stream is the median gap between its last ten
    arrivals. However many arrivals a stream has had, recording them never leaves
    the ring, and the cadence computed from the ring is the median of the positive
    gaps between the last ten of them: overwriting the oldest slot in place is as
    good as keeping the list. *)
Theorem cadence_is_median_of_last_ten ts :
  Sorted Z.le ts → Forall (λ t, 0 ≤ t < 2 ^ 62) ts →
  ∃ st, recordAll ts zeroOIState = (st, inr tt) ∧
    computeMedianCadence (ArrivalTimes st) (ArrivalCount st) = median (gaps (lastN oiCadenceWindowSize ts)).
Proof.
  intros Hs Hall. destruct (recordAll_ring ts [] zeroOIState zeroOIState_ring) as (st & Hr & Hst). exists st. split; [done|].
  cbn [app] in Hst. apply computeMedianCadence_median.
  - by apply ring_perm.
  - rewrite lastN_length. by destruct Hst as [_ _ -> _].
  - unfold lastN. apply Sorted_StronglySorted in Hs; [|intros ???; lia]. apply StronglySorted_Sorted.
    rewrite <- (take_drop (length ts - oiCadenceWindowSize) ts) in Hs. by apply StronglySorted_app_1_r in Hs.
  - unfold lastN. by apply Forall_drop.
Qed.
End cadence.

Definition w_arrivals : list Z := [1000; 2000; 3500; 3500; 9000; 10000; 11000; 12500; 13000; 14000; 15000; 18000].

Lemma cadence_is_median_of_last_ten_witness :
  lastN oiCadenceWindowSize w_arrivals = [3500; 3500; 9000; 10000; 11000; 12500; 13000; 14000; 15000; 18000] ∧
  ∃ st, recordAll w_arrivals zeroOIState = (st, inr tt) ∧
    computeMedianCadence (GR:=go_amd64) (ArrivalTimes st) (ArrivalCount st) = 1000.
Proof.
  split; [reflexivity|].
  apply (cadence_is_median_of_last_ten (GR:=go_amd64) w_arrivals).
  - repeat constructor; lia.
  - repeat apply Forall_cons_2; try apply Forall_nil_2; lia.
Defined.

(** ** What a window is measured against *)

Definition windowOf (c : OICall) : OpenInterestWindowV1 := match c with SaveOI w | PublishOpenInterest w => w end.
Definition keyOf (w : OpenInterestWindowV1) : openInterestKey := MkOIKey (oi_Venue w) (oi_Instrument w).

(** A window of the stream [k] that a port has accepted. *)
Definition accepted (log : OILog) (k : openInterestKey) (w : OpenInterestWindowV1) : Prop :=
  ∃ c, (c, None) ∈ log ∧ windowOf c = w ∧ keyOf w = k.

(** The window reports no change, or the change since an accepted window of its
    stream with a smaller sequence number. *)
Definition anchored (log : OILog) (w : OpenInterestWindowV1) : Prop :=
  (oi_Delta w = f0 ∧ oi_DeltaPct w = f0) ∨
  ∃ w', accepted log (keyOf w) w' ∧ oi_Seq w' < oi_Seq w ∧ oi_Delta w = fsub (oi_OpenInterest w) (oi_OpenInterest w').

Definition logAnchored (log : OILog) : Prop :=
  ∀ pre c ans post, log = pre ++ (c, ans) :: post → anchored pre (windowOf c).

(** The cell of a stream remembers a window a port has accepted. *)
Definition cellOK (log : OILog) (k : openInterestKey) (st : openInterestState) : Prop :=
  (∃ hist, ringOf hist st) ∧
  (HasLast st = true → 0 < LastSeq st ∧ ∃ w, accepted log k w ∧ oi_Seq w = LastSeq st ∧ oi_OpenInterest w = LastOpenInterest st).

Lemma accepted_app log log' k w : accepted log k w → accepted (log ++ log') k w.
Proof. intros (c & Hc & ?). exists c. split; [apply elem_of_app; by left|done]. Qed.
Lemma cellOK_app log log' k st : cellOK log k st → cellOK (log ++ log') k st.
Proof.
  intros [Hr Hl]. split; [done|]. intros H. destruct (Hl H) as (? & w & ? & ?). split; [done|]. exists w. split; [by apply accepted_app|done].
Qed.
Lemma anchored_app log log' w : anchored log w → anchored (log ++ log') w.
Proof. intros [?|(w' & ? & ?)]; [by left|right]. exists w'. split; [by apply accepted_app|done]. Qed.
Lemma logAnchored_snoc log c ans : logAnchored log → anchored log (windowOf c) → logAnchored (log ++ [(c, ans)]).
Proof.
  intros Hl Hc pre c' ans' post. destruct post as [|x post _] using rev_ind.
  - intros [<- [= <- <-]]%app_inj_tail. done.
  - rewrite app_comm_cons, app_assoc. intros [-> _]%app_inj_tail. by eapply Hl.
Qed.

Lemma stores_impl {K V} `{Countable K} (P Q : K → V → Prop) c l : (∀ k v, P k v → Q k v) → stores P c l → stores Q c l.
Proof.
  intros HPQ [Hr Hn Ha Hc]. split; [done..|]. intros k e Hin. destruct (Hc k e Hin) as (v & Hv & HP). exists v. auto.
Qed.
Lemma owns_impl {K V} `{Countable K} (P Q : K → V → Prop) k a c : (∀ k v, P k v → Q k v) → owns P k a c → owns Q k a c.
Proof. intros HPQ (l & v & Hl & Hv & HP & Ho). exists l, v. split_and!; [by eapply stores_impl|done|by apply HPQ|done]. Qed.

(** [owns], with the value of the cell. *)
Definition holds {K V} `{Countable K} (P : K → V → Prop) (k : K) (a : Z) (v : V) (c : Cells K V) : Prop :=
  ∃ l, stores P c l ∧ heap c !! a = Some v ∧ P k v ∧ ∀ k' e, (k', e) ∈ l → value e = a → k' = k.

Lemma holds_owns {K V} `{Countable K} (P : K → V → Prop) k a v c : holds P k a v c → owns P k a c.
Proof. intros (l & ? & ? & ? & ?). by exists l, v. Qed.
Lemma holds_impl {K V} `{Countable K} (P Q : K → V → Prop) k a v c : (∀ k v, P k v → Q k v) → holds P k a v c → holds Q k a v c.
Proof. intros HPQ (l & Hl & Hv & HP & Ho). exists l. split_and!; [by eapply stores_impl|done|by apply HPQ|done]. Qed.

Lemma callAt_holds {K V A} `{Countable K} (P : K → V → Prop) k a v v' (m : Meth V Problem A) x :
  m v = (v', inr x) → P k v' → triple (holds P k a v) (callAt a m) (λ _, holds P k a v') (λ _, False).
Proof.
  intros Hm HP' c (l & Hl & Hv & HP & Ho). destruct (callAt_stores P c l a m v v' (inr x) Hl Hv Hm) as (c' & -> & Hl' & Hh & _).
  { intros k' e Hin He. by rewrite (Ho k' e Hin He). }
  exists l. split_and!; [done| |done..]. by rewrite Hh, lookup_insert_eq.
Qed.

Lemma load_holds {K V} `{Countable K} (P : K → V → Prop) k a :
  triple (owns P k a) (load a) (λ v, holds P k a v) (λ _, False).
Proof. intros c (l & v & Hl & Hv & HP & Ho). unfold load. rewrite Hv. by exists l. Qed.
Lemma reload_holds {K V} `{Countable K} (P : K → V → Prop) k a v :
  triple (holds P k a v) (load a) (λ v' c, v' = v ∧ holds P k a v c) (λ _, False).
Proof. intros c Hc. pose proof Hc as (l & Hl & Hv & HP & Ho). unfold load. by rewrite Hv. Qed.

Section history.
Context {GR : GoRuntime} {ports : OIPorts} (clk : nat → Z).

Definition wired (uc : BuildOpenInterestFromEvents) : Prop := publisher uc || store uc = true.

(** The use case between two requests. *)
Definition sound (uc : BuildOpenInterestFromEvents) : Prop :=
  wired uc ∧ logAnchored (portCalls uc) ∧ inStore (cellOK (portCalls uc)) (state uc).

(** The use case inside a request: the calls so far, and what holds of its cells. *)
Definition inside (pb sb : bool) (log : OILog) (Q : Cells openInterestKey openInterestState → Prop)
    (uc : BuildOpenInterestFromEvents) : Prop :=
  publisher uc = pb ∧ store uc = sb ∧ portCalls uc = log ∧ Q (state uc).

Lemma onState_inside {A} pb sb log (m : Meth (Cells openInterestKey openInterestState) Problem A) Q Post Err :
  triple Q m Post Err → triple (inside pb sb log Q) (onState m) (λ x, inside pb sb log (Post x)) (inside pb sb log Err).
Proof.
  intros Hm uc (H1 & H2 & H3 & HQ). specialize (Hm _ HQ). unfold onState. destruct (m (state uc)) as [c [e|x]]; by split_and!.
Qed.

Lemma stateOf_inside pb sb log key :
  triple (inside pb sb log (inStore (cellOK log))) (stateOf clk key) (λ a, inside pb sb log (owns (cellOK log) key a)) (λ _, False).
Proof.
  unfold stateOf. eapply triple_bind.
  - eapply triple_conseq; [apply onState_inside, (cellGet_triple clk (cellOK log) key)|done|done|by intros ? (_ & _ & _ & [])].
  - intros [a|]; [by apply triple_ret|].
    eapply triple_conseq; [apply onState_inside, (alloc_triple (cellOK log) key zeroOIState)|done|done|by intros ? (_ & _ & _ & [])].
    split; [exists []; apply zeroOIState_ring|done].
Qed.

Lemma inside_sound pb sb log uc :
  pb || sb = true → logAnchored log → inside pb sb log (inStore (cellOK log)) uc → sound uc.
Proof. intros Hw Hl (H1 & H2 & H3 & HQ). unfold sound, wired. by rewrite H1, H2, H3. Qed.

Lemma callPort_inside pb sb log Q (present : bool) c :
  triple (inside pb sb log Q) (callPort present c)
    (λ _, inside pb sb (log ++ if present then [(c, None)] else []) Q)
    (λ uc, ∃ p, inside pb sb (log ++ [(c, Some p)]) Q uc).
Proof.
  intros uc (H1 & H2 & H3 & HQ). unfold callPort. destruct present; [|split_and!; try done; by rewrite app_nil_r].
  destruct (oiAnswer (portCalls uc) c) as [p|]; [exists p|]; split_and!; try done; cbn; by rewrite H3.
Qed.

(** The window built for a request is anchored in the calls so far. *)
Lemma window_anchored log key st req cadence conf :
  cellOK log key st → (0 <? LastSeq st) && (req_Seq req <=? LastSeq st) = false →
  anchored log (BuildOpenInterestWindowV1 (oikey_Venue key) (oikey_Instrument key) (req_Seq req) (req_TsIngest req)
    (req_Timestamp req) (req_OpenInterest req) (LastOpenInterest st) (HasLast st) cadence conf).
Proof.
  intros [_ Hl] Hseq. unfold BuildOpenInterestWindowV1. destruct (HasLast st) eqn:Hh; [|by left].
  destruct (Hl eq_refl) as (Hpos & w & Hacc & Hs & Ho). right. exists w. cbn. destruct key. split_and!; [done| |by rewrite Ho].
  rewrite (proj2 (Z.ltb_lt 0 (LastSeq st))) in Hseq by done. apply Z.leb_gt in Hseq. lia.
Qed.

(** The end of [Execute]: the calls, and what is remembered when they succeed. *)
Definition emitAndCommit (req : BuildOpenInterestRequest) (key : openInterestKey) (a : Z) (w : OpenInterestWindowV1)
    : OIUC BuildOpenInterestResponse :=
  uc ← recv;
  callPort (store uc) (SaveOI w) ;;
  callPort (publisher uc) (PublishOpenInterest w) ;;
  onState (callAt a (assign (λ st,
    st <| LastSeq := req_Seq req |> <| LastOpenInterest := req_OpenInterest req |> <| HasLast := true |>))) ;;
  onState (cellPut clk key a) ;;
  uc ← recv;
  mret (MkOIResponse w true (cellLen (state uc))).

Lemma inside_grown pb sb log log' key a v uc :
  pb || sb = true → logAnchored (log ++ log') → inside pb sb (log ++ log') (holds (cellOK log) key a v) uc → sound uc.
Proof.
  intros Hw Hl (H1 & H2 & H3 & HQ). apply (inside_sound pb sb (log ++ log')); [done..|]. split_and!; [done..|].
  eapply owns_inStore, holds_owns, holds_impl; [|exact HQ]. intros k' v'. apply cellOK_app.
Qed.

Lemma emitAndCommit_sound req pb sb log key a st w :
  pb || sb = true → logAnchored log → anchored log w → keyOf w = key → oi_Seq w = req_Seq req →
  oi_OpenInterest w = req_OpenInterest req → 0 < req_Seq req →
  triple (inside pb sb log (holds (cellOK log) key a st)) (emitAndCommit req key a w) (λ _, sound) sound.
Proof.
  intros Hw Hlog Hanch Hk Hs Ho Hpos. unfold emitAndCommit.
  assert (∀ ans, logAnchored (log ++ [(SaveOI w, ans)])) as Hl1 by (intros ans; by apply logAnchored_snoc).
  set (log1 := if sb then [(SaveOI w, None : option Problem)] else []).
  assert (logAnchored (log ++ log1)) as Hl1' by (unfold log1; destruct sb; [done|by rewrite app_nil_r]).
  assert (∀ ans, logAnchored ((log ++ log1) ++ [(PublishOpenInterest w, ans)])) as Hl2.
  { intros ans. apply logAnchored_snoc; [done|by apply anchored_app]. }
  eapply (triple_bind _ _ _ (λ uc0 uc, inside pb sb log (holds (cellOK log) key a st) uc ∧ store uc0 = sb ∧ publisher uc0 = pb)).
  { apply triple_recv. intros uc Huc. pose proof Huc as (? & ? & _). done. }
  intros uc0 uc (Huc & -> & ->). revert uc Huc.
  eapply triple_bind.
  { eapply triple_conseq; [apply callPort_inside|done|done|]. intros uc [p Huc]. eapply (inside_grown pb sb log _ key a st uc Hw (Hl1 _) Huc). }
  intros []. fold log1. eapply triple_bind.
  { eapply triple_conseq; [apply callPort_inside|done|done|]. intros uc [p Huc]. rewrite <- app_assoc in Huc.
    eapply (inside_grown pb sb log); [done| |exact Huc]. rewrite app_assoc. apply Hl2. }
  intros []. rewrite <- app_assoc. set (log2 := log1 ++ _).
  assert (logAnchored (log ++ log2)) as Hl2' by (unfold log2; destruct pb; [rewrite app_assoc; apply Hl2|by rewrite app_nil_r]).
  assert (accepted (log ++ log2) key w) as Hacc.
  { unfold log2, log1, accepted. destruct sb; [exists (SaveOI w); set_solver|]. destruct pb; [|done]. exists (PublishOpenInterest w). set_solver. }
  clearbody log2. intros uc (H1 & H2 & H3 & HQ).
  assert (inside pb sb (log ++ log2) (holds (cellOK (log ++ log2)) key a st) uc) as Huc.
  { split_and!; [done..|]. eapply holds_impl; [|exact HQ]. intros k' v'. apply cellOK_app. }
  pose proof HQ as (_ & _ & _ & [[hist [R1 R2 R3 R4]] _] & _). clear H1 H2 H3 HQ. revert uc Huc.
  eapply triple_bind.
  { eapply triple_conseq; [eapply onState_inside, callAt_holds; [reflexivity|]|done|done|by intros ? (_ & _ & _ & [])].
    split; [exists hist; by split|]. intros _. split; [done|]. by exists w. }
  intros []. eapply (triple_bind _ _ _ (λ _, inside pb sb (log ++ log2) (inStore (cellOK (log ++ log2))))).
  { eapply triple_conseq;
      [apply onState_inside, (cellPut_triple clk (cellOK (log ++ log2)) key a)|..].
    - intros uc (? & ? & ? & Hh). split_and!; [done..|]. by eapply holds_owns.
    - intros [] uc (? & ? & ? & Hh). split_and!; [done..|]. by eapply owns_inStore.
    - by intros ? (_ & _ & _ & []). }
  intros []. eapply triple_bind; [by apply (triple_recv _ (λ _, inside pb sb (log ++ log2) (inStore (cellOK (log ++ log2)))))|].
  intros uc1. apply triple_ret. intros uc Huc. by eapply inside_sound.
Qed.

Lemma valid_request_seq req : validateOpenInterestRequest req = None → 0 < req_Seq req.
Proof.
  unfold validateOpenInterestRequest. destruct (Collect _) eqn:Hc; [done|]. intros _.
  rewrite Collect_none, !Forall_cons in Hc. destruct Hc as (_ & _ & Hs & _). by apply PositiveInt_none in Hs.
Qed.

Lemma Execute_sound req pb sb log :
  pb || sb = true → logAnchored log →
  triple (inside pb sb log (inStore (cellOK log))) (Execute clk req) (λ _, sound) sound.
Proof.
  intros Hw Hlog. assert (∀ uc, inside pb sb log (inStore (cellOK log)) uc → sound uc) as Hs0 by (intros uc; by apply inside_sound).
  set (key := MkOIKey (CanonicalVenue (req_Venue req)) (CanonicalInstrument (req_Instrument req))).
  assert (∀ a v uc, inside pb sb log (holds (cellOK log) key a v) uc → sound uc) as Hs1.
  { intros a v uc (H1 & H2 & H3 & HQ). apply Hs0. split_and!; [done..|]. by eapply owns_inStore, holds_owns. }
  unfold Execute. fold key. eapply triple_bind.
  { apply (triple_check _ _ (λ _ uc, inside pb sb log (inStore (cellOK log)) uc ∧ 0 < req_Seq req)). intros uc Huc.
    destruct (validateOpenInterestRequest req) eqn:Hv; [auto|]. split; [done|by apply valid_request_seq]. }
  intros [] uc0 [Huc0 Hpos]. revert uc0 Huc0. cbn zeta. eapply triple_bind; [eapply triple_conseq; [apply stateOf_inside|done|done|done]|]. intros a.
  eapply triple_bind.
  { eapply triple_conseq; [apply onState_inside, load_holds|done|done|by intros ? (_ & _ & _ & [])]. }
  intros st. eapply triple_bind.
  { apply (triple_fail_if _ _ _ (λ _ uc, inside pb sb log (holds (cellOK log) key a st) uc ∧
      (0 <? LastSeq st) && (req_Seq req <=? LastSeq st) = false)). intros uc Huc.
    destruct ((0 <? LastSeq st) && (req_Seq req <=? LastSeq st)) eqn:E; [by eapply Hs1|done]. }
  intros [] uc0 [Huc0 Hseq]. revert uc0 Huc0. eapply triple_bind.
  { intros uc (H1 & H2 & H3 & (l & [] & ?)). unfold nowUnixMilli. cbn. instantiate (1 := λ _, inside pb sb log (holds (cellOK log) key a st)).
    split_and!; try done. by exists l. }
  intros now uc1 Huc1. assert (cellOK log key st) as Hst by (by destruct Huc1 as (_ & _ & _ & l & _ & _ & ? & _)).
  destruct Hst as [[hist Hring] Hlast]. destruct (recordArrival_ring hist st now Hring) as (st2 & Hrec & Hring2 & E1 & E2 & E3).
  assert (cellOK log key st2) as Hst2 by (split; [by eexists|by rewrite E1, E2, E3]).
  revert uc1 Huc1. eapply triple_bind.
  { eapply triple_conseq; [apply onState_inside, (callAt_holds _ _ _ _ _ _ _ Hrec Hst2)|done|done|by intros ? (_ & _ & _ & [])]. }
  intros []. eapply triple_bind.
  { eapply triple_conseq; [apply onState_inside, reload_holds|done|done|by intros ? (_ & _ & _ & [])]. }
  intros st2' uc2 (H1 & H2 & H3 & -> & HQ). rewrite <- E1 in Hseq.
  pose proof (window_anchored log key st2 req (computeMedianCadence (ArrivalTimes st2) (ArrivalCount st2))
    (deriveConfidence (computeMedianCadence (ArrivalTimes st2) (ArrivalCount st2))) Hst2 Hseq) as Hanch.
  set (w := BuildOpenInterestWindowV1 _ _ _ _ _ _ _ _ _ _) in *.
  assert (keyOf w = key ∧ oi_Seq w = req_Seq req ∧ oi_OpenInterest w = req_OpenInterest req) as (Hwk & Hws & Hwo) by done. clearbody w.
  assert (inside pb sb log (holds (cellOK log) key a st2) uc2) as Huc2 by done. clear H1 H2 H3 HQ. revert uc2 Huc2.
  by apply emitAndCommit_sound.
Qed.

(** Requests one after the other, whatever they return. *)
Fixpoint runRequests (reqs : list BuildOpenInterestRequest) (uc : BuildOpenInterestFromEvents) : BuildOpenInterestFromEvents :=
  match reqs with
  | [] => uc
  | req :: reqs => runRequests reqs (Execute clk req uc).1
  end.

Lemma runRequests_sound reqs uc : sound uc → sound (runRequests reqs uc).
Proof.
  revert uc. induction reqs as [|req reqs IH]; intros uc Huc; [done|]. cbn [runRequests]. apply IH.
  destruct Huc as (Hw & Hl & Hs). pose proof (Execute_sound req (publisher uc) (store uc) (portCalls uc) Hw Hl uc) as H.
  discharge H; [by split_and!|]. by destruct (Execute clk req uc) as [uc' [p|x]].
Qed.

(** The change an open-interest window reports is real. Over any sequence of
    requests, whatever the ports answer and whatever the bounded map evicts, a
    window handed to the store or the publisher reports either no change or the
    difference to the value of an earlier window of the same venue and instrument
    that a port accepted and whose sequence number is smaller. *)
Theorem oi_change_is_since_an_accepted_window pub st cfg reqs pre c ans post :
  pub || st = true →
  portCalls (runRequests reqs (NewBuildOpenInterestFromEvents clk pub st cfg)) = pre ++ (c, ans) :: post →
  anchored pre (windowOf c).
Proof.
  intros Hw Hlog. destruct (runRequests_sound reqs (NewBuildOpenInterestFromEvents clk pub st cfg)) as (_ & Hl & _).
  - split_and!; [done|by intros [|] ???; discriminate|]. exists [].
    pose proof (newCells_stores clk (cellOK []) (if MaxStreams cfg <=? 0 then 50000 else MaxStreams cfg)
      (if StreamTTL cfg <=? 0 then Hour else StreamTTL cfg)) as [[] Hnd Ha Hc]. by split.
  - by eapply Hl.
Qed.
End history.

(** A publisher that refuses its second window: the third is measured against the first. *)
Definition w_oiPorts : OIPorts :=
  {| oiAnswer log _ := match log with [_] => Some (New Unavailable "bus down") | _ => None end |}.
Definition w_oiReq (oi : Z) (seq : Z) : BuildOpenInterestRequest :=
  MkOIRequest "binance" "btcusdt" (f_of_Z oi) seq (1000 * seq) (1000 * seq).
Definition w_oiClock (n : nat) : Z := Z.of_nat n * 1000000000.
Definition w_oiWindow (oi delta seq : Z) (pct : float64) (cadence : Z) (conf : string) : OpenInterestWindowV1 :=
  MkOIWindow "BINANCE" "BTCUSDT" "raw" (1000 * seq) (1000 * seq) (f_of_Z oi) (f_of_Z delta) pct seq (1000 * seq) cadence conf.

Lemma oi_change_is_since_an_accepted_window_witness :
  let log := portCalls (runRequests (GR:=go_amd64) (ports:=w_oiPorts) w_oiClock [w_oiReq 100 1; w_oiReq 150 2; w_oiReq 200 3]
    (NewBuildOpenInterestFromEvents w_oiClock true false (MkOIConfig 0 0))) in
  ∃ pre c, log = pre ++ [(c, None)] ∧ oi_Delta (windowOf c) = f_of_Z 100 ∧ anchored pre (windowOf c).
Proof.
  intros log.
  exists [(PublishOpenInterest (w_oiWindow 100 0 1 f0 0 ""), None);
          (PublishOpenInterest (w_oiWindow 150 50 2 (flit 1 2) 3000 "high"), Some (New Unavailable "bus down"))],
    (PublishOpenInterest (w_oiWindow 200 100 3 f1 2500 "high")).
  assert (log = [(PublishOpenInterest (w_oiWindow 100 0 1 f0 0 ""), None);
          (PublishOpenInterest (w_oiWindow 150 50 2 (flit 1 2) 3000 "high"), Some (New Unavailable "bus down"))] ++
          [(PublishOpenInterest (w_oiWindow 200 100 3 f1 2500 "high"), None)]) as Hlog by (vm_compute; reflexivity).
  split; [exact Hlog|]. split; [vm_compute; reflexivity|].
  apply (oi_change_is_since_an_accepted_window (GR:=go_amd64) (ports:=w_oiPorts) w_oiClock true false (MkOIConfig 0 0)
    [w_oiReq 100 1; w_oiReq 150 2; w_oiReq 200 3] _ _ None []); [reflexivity|exact Hlog].
Defined.
