(* ===== verification/Federation.v ===== *)
(** * Federation: internal/adapters/storage/federation

    Readers of stored windows over two tiers, a hot one (recent rows) and a cold
    one. A query before the hot window goes to the cold tier, one inside it to the
    hot tier, any other to both, and the answers are merged by window start: of two
    rows with one start the hot one is kept. A tier is a port: the answers it gives
    in the state it is in; every method calls a tier at most once. [nowMs] is the
    reading of the clock that the method takes. *)

From S2P Require Import Prelude GoRuntime Shared Loops Candle Tape Stats BuildTape OpenInterest.

Local Open Scope string_scope.
Local Open Scope list_scope.
Local Open Scope Z_scope.

(** ** merge.go *)

Record Config := MkConfig { HotWindowMs : Z }.

Definition DefaultConfig : Config := MkConfig (24 * 60 * 60 * 1000).

Inductive routing := routeColdOnly | routeHotOnly | routeBoth.

Definition route (fromMs toMs hotWindowMs nowMs : Z) : routing :=
  let hotBoundary := sub64 nowMs hotWindowMs in
  let hotBoundary := if hotBoundary <? 0 then 0 else hotBoundary in
  if toMs <=? hotBoundary then routeColdOnly
  else if hotBoundary <=? fromMs then routeHotOnly
  else routeBoth.

Section merge.
Context {T : Type} (wsFn : T → Z).

(** The variables of the merge. *)
Record mergeState := MkMerge { hi : nat; ci : nat; seen : gset Z; out : list T }.

(** [if _, ok := seen[ws]; !ok { seen[ws] = struct{}{}; out = append(out, item) }] *)
Definition emit (item : T) (s : mergeState) : mergeState :=
  if decide (wsFn item ∈ seen s) then s
  else MkMerge (hi s) (ci s) ({[wsFn item]} ∪ seen s) (out s ++ [item]).

(** One pass of the loop over both slices. *)
Definition mergeBody (hot cold : list T) (s : mergeState) : option mergeState :=
  match hot !! hi s, cold !! ci s with
  | Some h, Some c =>
      if wsFn h <=? wsFn c then
        let s := emit h s in
        let s := MkMerge (S (hi s)) (ci s) (seen s) (out s) in
        Some (if wsFn h =? wsFn c then MkMerge (hi s) (S (ci s)) (seen s) (out s) else s)
      else
        let s := emit c s in
        Some (MkMerge (hi s) (S (ci s)) (seen s) (out s))
  | _, _ => None
  end.

(** The two loops over what is left of one slice. *)
Definition mergeRest (l : list T) (s : mergeState) : mergeState := foldl (λ s item, emit item s) s l.

Definition mergeByWindowStart (hot cold : list T) : list T :=
  match hot, cold with
  | [], _ => cold
  | _, [] => hot
  | _, _ =>
      match loop (mergeBody hot cold) (S (length hot + length cold)) (MkMerge 0 0 ∅ []) with
      | Some s =>
          let s := mergeRest (drop (hi s) hot) s in
          out (mergeRest (drop (ci s) cold) s)
      | None => []
      end
  end.

Definition capSlice (s : list T) (limit : Z) : list T :=
  if (0 <? limit) && (limit <? Z.of_nat (length s)) then take (Z.to_nat limit) s else s.
End merge.
Arguments mergeState : clear implicits.

(** The state of [mergeTimestamps]: the two indices and the output. *)
Definition mergeTimestampsBody (hot cold : list Z) (s : nat * nat * list Z) : option (nat * nat * list Z) :=
  let '(hi, ci, out) := s in
  match hot !! hi, cold !! ci with
  | Some h, Some c =>
      Some (if h <? c then (S hi, ci, out ++ [h])
            else if c <? h then (hi, S ci, out ++ [c])
            else (S hi, S ci, out ++ [h]))
  | _, _ => None
  end.

Definition mergeTimestamps (hot cold : list Z) : list Z :=
  match hot, cold with
  | [], _ => cold
  | _, [] => hot
  | _, _ =>
      match loop (mergeTimestampsBody hot cold) (S (length hot + length cold)) (0%nat, 0%nat, []) with
      | Some (hi, ci, out) => out ++ drop hi hot ++ drop ci cold
      | None => []
      end
  end.

(** ** range_helpers.go *)

(** What a range query of one reader answers. *)
Definition rangeQueryFn (R T : Type) : Type := R → string → string → string → Z → Z → Z → Problem + list T.

Section range.
Context {R T : Type}.

Definition queryOrFallback (primary fallback : option R) (venue instrument timeframe : string)
    (fromMs toMs limit : Z) (qFn : rangeQueryFn R T) : Problem + list T :=
  match primary with
  | Some rd => qFn rd venue instrument timeframe fromMs toMs limit
  | None =>
      match fallback with
      | Some rd => qFn rd venue instrument timeframe fromMs toMs limit
      | None => inl (New Unavailable "no reader available")
      end
  end.

(** [if rd != nil { res, p := rd.query(); if p != nil { return nil, p }; out = res }] *)
Definition queryTier {A : Type} (empty : A) (rd : option R) (q : R → Problem + A) : Problem + A :=
  match rd with Some rd => q rd | None => inr empty end.

Definition mergeRange (hot cold : option R) (venue instrument timeframe : string)
    (fromMs toMs limit : Z) (qFn : rangeQueryFn R T) (wsFn : T → Z) : Problem + list T :=
  match queryTier [] hot (λ rd, qFn rd venue instrument timeframe fromMs toMs limit) with
  | inl p => inl p
  | inr hotRes =>
      match queryTier [] cold (λ rd, qFn rd venue instrument timeframe fromMs toMs limit) with
      | inl p => inl p
      | inr coldRes => inr (capSlice (mergeByWindowStart wsFn hotRes coldRes) limit)
      end
  end.
End range.

(** ** The readers (aggregation/ports/readers.go) *)

(** CandleReader and StatsReader: ranges, timestamps, first and last window. *)
Record StoreReader (T : Type) := MkStoreReader {
  GetRange : string → string → string → Z → Z → Z → Problem + list T;
  GetTimestamps : string → string → string → Z → Z → Problem + list Z;
  GetFirst : string → string → string → Problem + option T;
  GetLast : string → string → string → Problem + option T;
}.
Arguments MkStoreReader {T}.
Arguments GetRange {T}.
Arguments GetTimestamps {T}.
Arguments GetFirst {T}.
Arguments GetLast {T}.

(** TapeReader, OIReader, DeltaVolumeReader, CVDReader and BarStatsReader: ranges only. *)
Record RangeReader (T : Type) := MkRangeReader { GetWindowRange : string → string → string → Z → Z → Z → Problem + list T }.
Arguments MkRangeReader {T}.
Arguments GetWindowRange {T}.

(** The composite readers all have these fields. *)
Record Federated (R : Type) := MkFederated { hot : option R; cold : option R; cfg : Config }.
Arguments MkFederated {R}.
Arguments hot {R}.
Arguments cold {R}.
Arguments cfg {R}.

(** ** candle_reader.go *)

Definition NewFederatedCandleReader (hot cold : option (StoreReader CandleV1)) (cfg : Config) : Federated (StoreReader CandleV1) :=
  MkFederated hot cold cfg.

Definition queryBothRanges (r : Federated (StoreReader CandleV1)) (venue instrument timeframe : string)
    (fromMs toMs limit : Z) : Problem + (list CandleV1 * list CandleV1) :=
  match queryTier [] (hot r) (λ rd, GetRange rd venue instrument timeframe fromMs toMs limit) with
  | inl p => inl p
  | inr hotRes =>
      match queryTier [] (cold r) (λ rd, GetRange rd venue instrument timeframe fromMs toMs limit) with
      | inl p => inl p
      | inr coldRes => inr (hotRes, coldRes)
      end
  end.

Definition GetCandleRange (r : Federated (StoreReader CandleV1)) (nowMs : Z) (venue instrument timeframe : string)
    (fromMs toMs limit : Z) : Problem + list CandleV1 :=
  match route fromMs toMs (HotWindowMs (cfg r)) nowMs with
  | routeColdOnly =>
      match cold r with
      | Some rd => GetRange rd venue instrument timeframe fromMs toMs limit
      | None =>
          match hot r with
          | Some rd => GetRange rd venue instrument timeframe fromMs toMs limit
          | None => inl (New Unavailable "no candle reader available")
          end
      end
  | routeHotOnly =>
      match hot r with
      | Some rd => GetRange rd venue instrument timeframe fromMs toMs limit
      | None =>
          match cold r with
          | Some rd => GetRange rd venue instrument timeframe fromMs toMs limit
          | None => inl (New Unavailable "no candle reader available")
          end
      end
  | routeBoth =>
      match queryBothRanges r venue instrument timeframe fromMs toMs limit with
      | inl p => inl p
      | inr (hotRes, coldRes) => inr (capSlice (mergeByWindowStart Candle.WindowStartTs hotRes coldRes) limit)
      end
  end.

Definition GetCandleTimestamps (r : Federated (StoreReader CandleV1)) (nowMs : Z) (venue instrument timeframe : string)
    (fromMs toMs : Z) : Problem + list Z :=
  match route fromMs toMs (HotWindowMs (cfg r)) nowMs with
  | routeColdOnly =>
      match cold r with
      | Some rd => GetTimestamps rd venue instrument timeframe fromMs toMs
      | None =>
          match hot r with
          | Some rd => GetTimestamps rd venue instrument timeframe fromMs toMs
          | None => inr []
          end
      end
  | routeHotOnly =>
      match hot r with
      | Some rd => GetTimestamps rd venue instrument timeframe fromMs toMs
      | None =>
          match cold r with
          | Some rd => GetTimestamps rd venue instrument timeframe fromMs toMs
          | None => inr []
          end
      end
  | routeBoth =>
      match queryTier [] (hot r) (λ rd, GetTimestamps rd venue instrument timeframe fromMs toMs) with
      | inl p => inl p
      | inr hotTs =>
          match queryTier [] (cold r) (λ rd, GetTimestamps rd venue instrument timeframe fromMs toMs) with
          | inl p => inl p
          | inr coldTs => inr (mergeTimestamps hotTs coldTs)
          end
      end
  end.

Definition pickEarlier (a b : option CandleV1) : option CandleV1 :=
  match a with
  | None => b
  | Some x =>
      match b with
      | None => a
      | Some y => if Candle.WindowStartTs x <=? Candle.WindowStartTs y then a else b
      end
  end.

Definition pickLater (a b : option CandleV1) : option CandleV1 :=
  match a with
  | None => b
  | Some x =>
      match b with
      | None => a
      | Some y => if Candle.WindowStartTs y <=? Candle.WindowStartTs x then a else b
      end
  end.

Definition GetFirstCandle (r : Federated (StoreReader CandleV1)) (venue instrument timeframe : string) : Problem + option CandleV1 :=
  match queryTier None (cold r) (λ rd, GetFirst rd venue instrument timeframe) with
  | inl p => inl p
  | inr coldFirst =>
      match queryTier None (hot r) (λ rd, GetFirst rd venue instrument timeframe) with
      | inl p => inl p
      | inr hotFirst => inr (pickEarlier hotFirst coldFirst)
      end
  end.

Definition GetLastCandle (r : Federated (StoreReader CandleV1)) (venue instrument timeframe : string) : Problem + option CandleV1 :=
  match queryTier None (hot r) (λ rd, GetLast rd venue instrument timeframe) with
  | inl p => inl p
  | inr hotLast =>
      match queryTier None (cold r) (λ rd, GetLast rd venue instrument timeframe) with
      | inl p => inl p
      | inr coldLast => inr (pickLater hotLast coldLast)
      end
  end.

(** ** stats_reader.go *)

Definition NewFederatedStatsReader (hot cold : option (StoreReader StatsWindowV1)) (cfg : Config) : Federated (StoreReader StatsWindowV1) :=
  MkFederated hot cold cfg.

Definition GetStatsRange (r : Federated (StoreReader StatsWindowV1)) (nowMs : Z) (venue instrument timeframe : string)
    (fromMs toMs limit : Z) : Problem + list StatsWindowV1 :=
  match route fromMs toMs (HotWindowMs (cfg r)) nowMs with
  | routeColdOnly =>
      match cold r with
      | Some rd => GetRange rd venue instrument timeframe fromMs toMs limit
      | None =>
          match hot r with
          | Some rd => GetRange rd venue instrument timeframe fromMs toMs limit
          | None => inl (New Unavailable "no stats reader available")
          end
      end
  | routeHotOnly =>
      match hot r with
      | Some rd => GetRange rd venue instrument timeframe fromMs toMs limit
      | None =>
          match cold r with
          | Some rd => GetRange rd venue instrument timeframe fromMs toMs limit
          | None => inl (New Unavailable "no stats reader available")
          end
      end
  | routeBoth =>
      match queryTier [] (hot r) (λ rd, GetRange rd venue instrument timeframe fromMs toMs limit) with
      | inl p => inl p
      | inr hotRes =>
          match queryTier [] (cold r) (λ rd, GetRange rd venue instrument timeframe fromMs toMs limit) with
          | inl p => inl p
          | inr coldRes => inr (capSlice (mergeByWindowStart Stats.WindowStartTs hotRes coldRes) limit)
          end
      end
  end.

(** [rd := primary; if rd == nil { rd = fallback }] *)
Definition orElse (primary fallback : option (StoreReader StatsWindowV1)) : option (StoreReader StatsWindowV1) :=
  match primary with Some rd => Some rd | None => fallback end.

Definition GetStatsTimestamps (r : Federated (StoreReader StatsWindowV1)) (nowMs : Z) (venue instrument timeframe : string)
    (fromMs toMs : Z) : Problem + list Z :=
  match route fromMs toMs (HotWindowMs (cfg r)) nowMs with
  | routeColdOnly =>
      match orElse (cold r) (hot r) with
      | None => inr []
      | Some rd => GetTimestamps rd venue instrument timeframe fromMs toMs
      end
  | routeHotOnly =>
      match orElse (hot r) (cold r) with
      | None => inr []
      | Some rd => GetTimestamps rd venue instrument timeframe fromMs toMs
      end
  | routeBoth =>
      match queryTier [] (hot r) (λ rd, GetTimestamps rd venue instrument timeframe fromMs toMs) with
      | inl p => inl p
      | inr hotTs =>
          match queryTier [] (cold r) (λ rd, GetTimestamps rd venue instrument timeframe fromMs toMs) with
          | inl p => inl p
          | inr coldTs => inr (mergeTimestamps hotTs coldTs)
          end
      end
  end.

Definition pickStatsEarlier (a b : option StatsWindowV1) : option StatsWindowV1 :=
  match a with
  | None => b
  | Some x =>
      match b with
      | None => a
      | Some y => if Stats.WindowStartTs x <=? Stats.WindowStartTs y then a else b
      end
  end.

Definition pickStatsLater (a b : option StatsWindowV1) : option StatsWindowV1 :=
  match a with
  | None => b
  | Some x =>
      match b with
      | None => a
      | Some y => if Stats.WindowStartTs y <=? Stats.WindowStartTs x then a else b
      end
  end.

Definition GetFirstStats (r : Federated (StoreReader StatsWindowV1)) (venue instrument timeframe : string) : Problem + option StatsWindowV1 :=
  match queryTier None (cold r) (λ rd, GetFirst rd venue instrument timeframe) with
  | inl p => inl p
  | inr coldFirst =>
      match queryTier None (hot r) (λ rd, GetFirst rd venue instrument timeframe) with
      | inl p => inl p
      | inr hotFirst => inr (pickStatsEarlier hotFirst coldFirst)
      end
  end.

Definition GetLastStats (r : Federated (StoreReader StatsWindowV1)) (venue instrument timeframe : string) : Problem + option StatsWindowV1 :=
  match queryTier None (hot r) (λ rd, GetLast rd venue instrument timeframe) with
  | inl p => inl p
  | inr hotLast =>
      match queryTier None (cold r) (λ rd, GetLast rd venue instrument timeframe) with
      | inl p => inl p
      | inr coldLast => inr (pickStatsLater hotLast coldLast)
      end
  end.

(** ** tape_reader.go, oi_reader.go, delta_volume_reader.go, cvd_reader.go, bar_stats_reader.go *)

(** [rd.GetTapeRange(...)] and its siblings. *)
Definition rangeQuery {T} : rangeQueryFn (RangeReader T) T := GetWindowRange.

Definition GetTapeRange (r : Federated (RangeReader TapeWindowV1)) (nowMs : Z) (venue instrument timeframe : string)
    (fromMs toMs limit : Z) : Problem + list TapeWindowV1 :=
  match route fromMs toMs (HotWindowMs (cfg r)) nowMs with
  | routeColdOnly => queryOrFallback (cold r) (hot r) venue instrument timeframe fromMs toMs limit rangeQuery
  | routeHotOnly => queryOrFallback (hot r) (cold r) venue instrument timeframe fromMs toMs limit rangeQuery
  | routeBoth => mergeRange (hot r) (cold r) venue instrument timeframe fromMs toMs limit rangeQuery Tape.WindowStartTs
  end.

Definition GetOIRange (r : Federated (RangeReader OpenInterestWindowV1)) (nowMs : Z) (venue instrument timeframe : string)
    (fromMs toMs limit : Z) : Problem + list OpenInterestWindowV1 :=
  match route fromMs toMs (HotWindowMs (cfg r)) nowMs with
  | routeColdOnly => queryOrFallback (cold r) (hot r) venue instrument timeframe fromMs toMs limit rangeQuery
  | routeHotOnly => queryOrFallback (hot r) (cold r) venue instrument timeframe fromMs toMs limit rangeQuery
  | routeBoth => mergeRange (hot r) (cold r) venue instrument timeframe fromMs toMs limit rangeQuery oi_WindowStartTs
  end.

Definition GetDeltaVolumeRange (r : Federated (RangeReader DeltaVolumeWindowV1)) (nowMs : Z) (venue instrument timeframe : string)
    (fromMs toMs limit : Z) : Problem + list DeltaVolumeWindowV1 :=
  match route fromMs toMs (HotWindowMs (cfg r)) nowMs with
  | routeColdOnly => queryOrFallback (cold r) (hot r) venue instrument timeframe fromMs toMs limit rangeQuery
  | routeHotOnly => queryOrFallback (hot r) (cold r) venue instrument timeframe fromMs toMs limit rangeQuery
  | routeBoth => mergeRange (hot r) (cold r) venue instrument timeframe fromMs toMs limit rangeQuery dv_WindowStartTs
  end.

Definition GetCVDRange (r : Federated (RangeReader CVDWindowV1)) (nowMs : Z) (venue instrument timeframe : string)
    (fromMs toMs limit : Z) : Problem + list CVDWindowV1 :=
  match route fromMs toMs (HotWindowMs (cfg r)) nowMs with
  | routeColdOnly => queryOrFallback (cold r) (hot r) venue instrument timeframe fromMs toMs limit rangeQuery
  | routeHotOnly => queryOrFallback (hot r) (cold r) venue instrument timeframe fromMs toMs limit rangeQuery
  | routeBoth => mergeRange (hot r) (cold r) venue instrument timeframe fromMs toMs limit rangeQuery cvd_WindowStartTs
  end.

Definition GetBarStatsRange (r : Federated (RangeReader BarStatsWindowV1)) (nowMs : Z) (venue instrument timeframe : string)
    (fromMs toMs limit : Z) : Problem + list BarStatsWindowV1 :=
  match route fromMs toMs (HotWindowMs (cfg r)) nowMs with
  | routeColdOnly => queryOrFallback (cold r) (hot r) venue instrument timeframe fromMs toMs limit rangeQuery
  | routeHotOnly => queryOrFallback (hot r) (cold r) venue instrument timeframe fromMs toMs limit rangeQuery
  | routeBoth => mergeRange (hot r) (cold r) venue instrument timeframe fromMs toMs limit rangeQuery bs_WindowStartTs
  end.

(** ** consistency.go *)

Record ConsistencyReport := MkReport {
  rep_Artifact : string;
  rep_Venue : string;
  rep_Instrument : string;
  rep_Timeframe : string;
  HotCount : Z;
  ColdCount : Z;
  OverlapCount : Z;
  MissingInCold : Z;
  MissingInHot : Z;
  HotMinTs : Z;
  HotMaxTs : Z;
  ColdMinTs : Z;
  ColdMaxTs : Z;
}.
#[export] Instance ConsistencyReport_eta : Eta ConsistencyReport := λ r,
  MkReport (rep_Artifact r) (rep_Venue r) (rep_Instrument r) (rep_Timeframe r) (HotCount r) (ColdCount r) (OverlapCount r)
    (MissingInCold r) (MissingInHot r) (HotMinTs r) (HotMaxTs r) (ColdMinTs r) (ColdMaxTs r).

(** [for ts := range hotSet]: the order is that of [elements], and does not matter. *)
Definition countHot (coldSet : gset Z) (r : ConsistencyReport) (ts : Z) : ConsistencyReport :=
  if decide (ts ∈ coldSet) then r <| OverlapCount ::= λ n, add64 n 1 |> else r <| MissingInCold ::= λ n, add64 n 1 |>.
Definition countCold (hotSet : gset Z) (r : ConsistencyReport) (ts : Z) : ConsistencyReport :=
  if decide (ts ∈ hotSet) then r else r <| MissingInHot ::= λ n, add64 n 1 |>.

Definition buildReport (artifact venue instrument timeframe : string) (hotTs coldTs : list Z) : ConsistencyReport :=
  let r := MkReport artifact venue instrument timeframe (Z.of_nat (length hotTs)) (Z.of_nat (length coldTs)) 0 0 0 0 0 0 0 in
  let r := match hotTs with [] => r | x :: _ => r <| HotMinTs := x |> <| HotMaxTs := List.last hotTs x |> end in
  let r := match coldTs with [] => r | x :: _ => r <| ColdMinTs := x |> <| ColdMaxTs := List.last coldTs x |> end in
  let hotSet : gset Z := list_to_set hotTs in
  let coldSet : gset Z := list_to_set coldTs in
  let r := foldl (countHot coldSet) r (elements hotSet) in
  foldl (countCold hotSet) r (elements coldSet).

Record ConsistencyChecker := MkChecker {
  hotCandles : option (StoreReader CandleV1);
  hotStats : option (StoreReader StatsWindowV1);
  coldCandles : option (StoreReader CandleV1);
  coldStats : option (StoreReader StatsWindowV1);
}.

Definition NewConsistencyChecker (hotCandles coldCandles : option (StoreReader CandleV1))
    (hotStats coldStats : option (StoreReader StatsWindowV1)) : ConsistencyChecker :=
  MkChecker hotCandles hotStats coldCandles coldStats.

Definition CheckCandles (c : ConsistencyChecker) (venue instrument timeframe : string) (fromMs toMs : Z)
    : Problem + ConsistencyReport :=
  match queryTier [] (hotCandles c) (λ rd, GetTimestamps rd venue instrument timeframe fromMs toMs) with
  | inl p => inl p
  | inr hotTs =>
      match queryTier [] (coldCandles c) (λ rd, GetTimestamps rd venue instrument timeframe fromMs toMs) with
      | inl p => inl p
      | inr coldTs => inr (buildReport "candle" venue instrument timeframe hotTs coldTs)
      end
  end.

Definition CheckStats (c : ConsistencyChecker) (venue instrument timeframe : string) (fromMs toMs : Z)
    : Problem + ConsistencyReport :=
  match queryTier [] (hotStats c) (λ rd, GetTimestamps rd venue instrument timeframe fromMs toMs) with
  | inl p => inl p
  | inr hotTs =>
      match queryTier [] (coldStats c) (λ rd, GetTimestamps rd venue instrument timeframe fromMs toMs) with
      | inl p => inl p
      | inr coldTs => inr (buildReport "stats" venue instrument timeframe hotTs coldTs)
      end
  end.
