(* ===== verification/FederationSpec.v ===== *)
(** * FederationSpec: what the composite readers promise

    A tier serves a table: for each instrument and timeframe a map from window
    starts to rows ([Serves], the contract of the reader ports). The merge of two
    answers is the sorted union of the tables with the hot row preferred, the limit
    passed down to the tiers loses nothing, and over two tiers that share the
    history properly ([tiered]) the composite reader serves the union: it fulfils
    the contract it relies on. *)

From S2P Require Import Prelude GoRuntime Shared Loops Candle Tape Stats BuildTape OpenInterest GapDetector Federation.

Local Open Scope string_scope.
Local Open Scope list_scope.
Local Open Scope Z_scope.

(** ** The reference merge *)

Section reference.
Context {T : Type} (ws : T → Z).

Fixpoint zipMerge (hot : list T) : list T → list T :=
  match hot with
  | [] => λ cold, cold
  | h :: hs =>
      fix inner (cold : list T) : list T :=
        match cold with
        | [] => h :: hs
        | c :: cs =>
            if ws h <? ws c then h :: zipMerge hs (c :: cs)
            else if ws c <? ws h then c :: inner cs
            else h :: zipMerge hs cs
        end
  end.

Lemma zipMerge_nil_r l : zipMerge l [] = l.
Proof. by destruct l. Qed.
Lemma zipMerge_cons h hs c cs :
  zipMerge (h :: hs) (c :: cs) =
    if ws h <? ws c then h :: zipMerge hs (c :: cs)
    else if ws c <? ws h then c :: zipMerge (h :: hs) cs else h :: zipMerge hs cs.
Proof. done. Qed.

Abbreviation ordered l := (StronglySorted Z.lt (ws <$> l)).

Lemma ordered_cons x l : ordered (x :: l) ↔ ordered l ∧ ∀ y, y ∈ l → ws x < ws y.
Proof.
  rewrite fmap_cons. split.
  - intros H. inversion H as [|? ? Hl Hf]; subst. split; [done|]. intros y Hy. rewrite Forall_fmap, Forall_forall in Hf. by apply Hf.
  - intros [Hl Hf]. constructor; [done|]. by apply Forall_fmap, Forall_forall.
Qed.

(** A row of the merge is a hot row, or a cold row no hot row stands for. *)
Lemma elem_of_zipMerge hot cold x :
  ordered hot → ordered cold →
  x ∈ zipMerge hot cold ↔ x ∈ hot ∨ (x ∈ cold ∧ ∀ h, h ∈ hot → ws h ≠ ws x).
Proof.
  revert cold. induction hot as [|h hs IH]; intros cold Hh Hc; [cbn; set_solver|].
  pose proof Hh as [Hhs Hlt]%ordered_cons. induction cold as [|c cs IHc].
  { rewrite zipMerge_nil_r. set_solver. }
  pose proof Hc as [Hcs Hct]%ordered_cons. rewrite zipMerge_cons.
  destruct (Z.ltb_spec (ws h) (ws c)) as [Hl|Hl]; [|destruct (Z.ltb_spec (ws c) (ws h)) as [Hl'|Hl']].
  - rewrite elem_of_cons, (IH _ Hhs Hc), !elem_of_cons. split; [|intros [[->|?]|[[->|?] Hne]]; auto].
    + intros [->|[?|[Hin Hne]]]; [auto..|]. right. split; [done|]. intros h' [->|?]%elem_of_cons; [|auto].
      destruct Hin as [->|Hin]; [lia|]. specialize (Hct x Hin). lia.
    + right. right. split; [auto|]. intros h' ?. apply Hne. by right.
    + right. right. split; [auto|]. intros h' ?. apply Hne. by right.
  - rewrite elem_of_cons, (IHc Hcs), !elem_of_cons. split; [|intros [?|[[->|?] Hne]]; auto].
    intros [->|[?|[? ?]]]; [|auto..]. right. split; [auto|]. intros h' [->|Hin]%elem_of_cons; [lia|]. specialize (Hlt h' Hin). lia.
  - assert (ws h = ws c) as Heq by lia. rewrite elem_of_cons, (IH _ Hhs Hcs), !elem_of_cons. split.
    + intros [->|[?|[Hin Hne]]]; [auto..|]. right. split; [auto|]. intros h' [->|?]%elem_of_cons; [|auto]. specialize (Hct x Hin). lia.
    + intros [[->|?]|[[->|?] Hne]]; [auto..| |].
      * destruct (Hne h); [by left|done].
      * right. right. split; [done|]. intros h' ?. apply Hne. by right.
Qed.

Lemma zipMerge_ordered hot cold : ordered hot → ordered cold → ordered (zipMerge hot cold).
Proof.
  revert cold. induction hot as [|h hs IH]; intros cold Hh Hc; [done|].
  pose proof Hh as [Hhs Hlt]%ordered_cons. induction cold as [|c cs IHc]; [by rewrite zipMerge_nil_r|].
  pose proof Hc as [Hcs Hct]%ordered_cons. rewrite zipMerge_cons.
  destruct (Z.ltb_spec (ws h) (ws c)) as [Hl|Hl]; [|destruct (Z.ltb_spec (ws c) (ws h)) as [Hl'|Hl']]; apply ordered_cons.
  - split; [by apply IH|]. intros y [?|[[->|Hin]%elem_of_cons _]]%elem_of_zipMerge; [auto|done| |done..].
    specialize (Hct y Hin). lia.
  - split; [by apply IHc|]. intros y [[->|Hin]%elem_of_cons|[? _]]%elem_of_zipMerge; [done| |auto|done..].
    specialize (Hlt y Hin). lia.
  - split; [by apply IH|]. intros y [?|[Hin _]]%elem_of_zipMerge; [auto| |done..]. specialize (Hct y Hin). lia.
Qed.

(** The limit may be applied to the tiers first. *)
Lemma zipMerge_take n a b hot cold :
  (n ≤ a)%nat → (n ≤ b)%nat → take n (zipMerge (take a hot) (take b cold)) = take n (zipMerge hot cold).
Proof.
  revert a b hot cold. induction n as [|n IH]; intros [|a] [|b] hot cold Ha Hb; [done..|lia|lia|lia|].
  destruct hot as [|h hs].
  { change (take (S n) (take (S b) cold) = take (S n) cold). rewrite take_take. by f_equal; lia. }
  destruct cold as [|c cs].
  { rewrite take_nil, !zipMerge_nil_r, take_take. by f_equal; lia. }
  cbn [take]. rewrite !zipMerge_cons.
  destruct (ws h <? ws c); [|destruct (ws c <? ws h)]; cbn [take]; f_equal.
  - apply (IH a (S b) hs (c :: cs)); lia.
  - apply (IH (S a) b (h :: hs) cs); lia.
  - apply (IH a b hs cs); lia.
Qed.
End reference.

Lemma zipMerge_fmap {T} (ws : T → Z) hot cold : zipMerge id (ws <$> hot) (ws <$> cold) = ws <$> zipMerge ws hot cold.
Proof.
  revert cold. induction hot as [|h hs IH]; intros cold; [done|]. induction cold as [|c cs IHc]; [done|].
  rewrite !fmap_cons, !zipMerge_cons. change (id ?x) with x. specialize (IH (c :: cs)) as IH1.
  rewrite fmap_cons in IH1, IHc. rewrite IH, IH1, IHc. by destruct (ws h <? ws c), (ws c <? ws h).
Qed.

Abbreviation ordered ws l := (StronglySorted Z.lt (ws <$> l)).

Lemma ordered_NoDup {T} (ws : T → Z) (l : list T) : ordered ws l → NoDup (ws <$> l).
Proof. apply StronglySorted_lt_NoDup. Qed.

(** ** mergeTimestamps is the reference merge *)

Lemma mergeTimestamps_ref hot cold : mergeTimestamps hot cold = zipMerge id hot cold.
Proof.
  unfold mergeTimestamps. destruct hot as [|h0 hs0] eqn:Eh; [done|]. destruct cold as [|c0 cs0] eqn:Ec; [done|].
  rewrite <- Eh, <- Ec. clear h0 hs0 c0 cs0 Eh Ec.
  set (I := λ s : nat * nat * list Z, s.2 ++ zipMerge id (drop s.1.1 hot) (drop s.1.2 cold) = zipMerge id hot cold ∧
              (s.1.1 ≤ length hot)%nat ∧ (s.1.2 ≤ length cold)%nat).
  set (μ := λ s : nat * nat * list Z, (length hot - s.1.1 + (length cold - s.1.2))%nat).
  destruct (loop_variant (mergeTimestampsBody hot cold) I μ) with (fuel := S (length hot + length cold)) (s := (0%nat, 0%nat, @nil Z))
    as ([[i j] o] & Hl & (Ho & Hi & Hj) & Hend).
  - intros [[i j] o] s' (Ho & Hi & Hj). unfold mergeTimestampsBody. cbn in Ho, Hi, Hj.
    destruct (hot !! i) as [h|] eqn:Hh; [|done]. destruct (cold !! j) as [c|] eqn:Hc; [|done].
    apply lookup_lt_Some in Hh as Hi'. apply lookup_lt_Some in Hc as Hj'.
    intros [= <-]. unfold I, μ. rewrite (drop_S _ _ _ Hh), (drop_S _ _ _ Hc), zipMerge_cons in Ho.
    destruct (h <? c) eqn:E1; [|destruct (c <? h) eqn:E2]; cbn [fst snd] in *; rewrite ?(drop_S _ _ _ Hh), ?(drop_S _ _ _ Hc);
      change (id h) with h in *; change (id c) with c in *; rewrite ?E1, ?E2 in Ho; rewrite <- app_assoc; split; (done || lia).
  - split; [done|cbn; lia].
  - unfold μ. cbn. lia.
  - rewrite Hl. cbn in Ho. rewrite <- Ho. f_equal. unfold mergeTimestampsBody in Hend.
    destruct (hot !! i) eqn:Hh; [destruct (cold !! j) eqn:Hc; [done|]|].
    + apply lookup_ge_None in Hc. by rewrite (drop_ge cold j Hc), app_nil_r, zipMerge_nil_r.
    + apply lookup_ge_None in Hh. by rewrite (drop_ge hot i Hh).
Qed.

(** ** mergeByWindowStart *)

Section merge.
Context {T : Type} (ws : T → Z).
Implicit Types (s : mergeState T) (l hot cold : list T).

(** [seen] holds the window starts of the output, each of one row. *)
Definition tracked s : Prop := seen s = list_to_set (ws <$> out s) ∧ NoDup (ws <$> out s).

Lemma emit_tracked x s :
  tracked s →
  let s' := emit ws x s in
  tracked s' ∧ hi s' = hi s ∧ ci s' = ci s ∧ ∀ t, t ∈ ws <$> out s' ↔ t ∈ ws <$> out s ∨ t = ws x.
Proof.
  intros [Hs Hnd]. unfold emit. destruct (decide _) as [Hin|Hnin]; cbn.
  - rewrite Hs, elem_of_list_to_set in Hin. split_and!; [done..|]. intros t. split; [auto|by intros [?| ->]].
  - rewrite Hs, elem_of_list_to_set in Hnin. unfold tracked. cbn. rewrite fmap_app, list_to_set_app_L, Hs. split; [|split; [done|split; [done|]]].
    + split; [cbn; set_solver|]. apply NoDup_app. split_and!; [done| |apply NoDup_singleton].
      intros t Ht ->%list_elem_of_singleton. done.
    + intros t. change (ws <$> [x]) with [ws x]. by rewrite elem_of_app, list_elem_of_singleton.
Qed.

Lemma mergeRest_tracked l s :
  tracked s →
  let s' := mergeRest ws l s in
  tracked s' ∧ hi s' = hi s ∧ ci s' = ci s ∧ ∀ t, t ∈ ws <$> out s' ↔ t ∈ ws <$> out s ∨ t ∈ ws <$> l.
Proof.
  revert s. induction l as [|x l IH]; intros s Hs; cbn; [split_and!; [done..|]; intros t; rewrite elem_of_nil; tauto|].
  destruct (emit_tracked x s Hs) as (Hs1 & Hh1 & Hc1 & Ht1). destruct (IH _ Hs1) as (Hs2 & Hh2 & Hc2 & Ht2).
  split; [done|]. split; [by transitivity (hi (emit ws x s))|]. split; [by transitivity (ci (emit ws x s))|].
  intros t. change (ws <$> x :: l) with (ws x :: (ws <$> l)). rewrite elem_of_cons.
  specialize (Ht1 t). specialize (Ht2 t). unfold mergeRest in Ht2. tauto.
Qed.

(** The state of the merge after some passes: the window starts of the rows read. *)
Definition readSoFar hot cold s : Prop :=
  tracked s ∧ (hi s ≤ length hot)%nat ∧ (ci s ≤ length cold)%nat ∧
  ∀ t, t ∈ ws <$> out s ↔ t ∈ ws <$> take (hi s) hot ∨ t ∈ ws <$> take (ci s) cold.
Definition toRead hot cold s : nat := length hot - hi s + (length cold - ci s).

Lemma elem_of_take_S l i x t : l !! i = Some x → t ∈ ws <$> take (S i) l ↔ t ∈ ws <$> take i l ∨ t = ws x.
Proof. intros Hx. rewrite (take_S_r _ _ _ Hx), fmap_app, elem_of_app. change (ws <$> [x]) with [ws x]. by rewrite list_elem_of_singleton. Qed.

Lemma mergeBody_reads hot cold s s' :
  readSoFar hot cold s → mergeBody ws hot cold s = Some s' →
  readSoFar hot cold s' ∧ (toRead hot cold s' < toRead hot cold s)%nat.
Proof.
  intros (Hs & Hi & Hj & Hread). unfold mergeBody.
  destruct (hot !! hi s) as [h|] eqn:Hh; [|done]. destruct (cold !! ci s) as [c|] eqn:Hc; [|done].
  apply lookup_lt_Some in Hh as Hi'. apply lookup_lt_Some in Hc as Hj'. unfold toRead.
  destruct (ws h <=? ws c).
  - destruct (emit_tracked h s Hs) as (Hs1 & Hh1 & Hc1 & Ht1). destruct (emit ws h s) as [i j sn o]. cbn in *. subst i j.
    destruct (Z.eqb_spec (ws h) (ws c)) as [Heq|_]; intros [= <-]; unfold readSoFar; cbn; (split; [split_and!; [done|lia..|]|lia]);
      intros t; rewrite Ht1, Hread, (elem_of_take_S _ _ _ _ Hh); [rewrite (elem_of_take_S _ _ _ _ Hc), <- Heq|]; tauto.
  - destruct (emit_tracked c s Hs) as (Hs1 & Hh1 & Hc1 & Ht1). destruct (emit ws c s) as [i j sn o]. cbn in *. subst i j.
    intros [= <-]. unfold readSoFar. cbn. split; [split_and!; [done|lia..|]|lia].
    intros t. rewrite Ht1, Hread, (elem_of_take_S _ _ _ _ Hc). tauto.
Qed.

Definition mergeStart : mergeState T := MkMerge 0 0 ∅ [].

(** The loop over both slices ends within as many passes as there are rows, with
    one of the slices read. *)
Lemma merge_loop_ends hot cold fuel :
  (length hot + length cold < fuel)%nat →
  ∃ s, loop (mergeBody ws hot cold) fuel mergeStart = Some s ∧ readSoFar hot cold s ∧
    (hi s = length hot ∨ ci s = length cold).
Proof.
  intros Hfuel. destruct (loop_variant (mergeBody ws hot cold) (readSoFar hot cold) (toRead hot cold)
    (mergeBody_reads hot cold) fuel mergeStart) as (s & Hl & Hs & Hend).
  - split; [split; [done|apply NoDup_nil_2]|]. cbn. split_and!; [lia..|]. intros t. rewrite !take_0. cbn. rewrite elem_of_nil. tauto.
  - unfold toRead. cbn. lia.
  - exists s. split_and!; [done..|]. destruct Hs as (_ & Hi & Hj & _). unfold mergeBody in Hend.
    destruct (hot !! hi s) eqn:Hh; [destruct (cold !! ci s) eqn:Hc|].
    + by repeat case_match.
    + apply lookup_ge_None in Hc. right. lia.
    + apply lookup_ge_None in Hh. left. lia.
Qed.

Lemma merge_unfold hot cold :
  hot ≠ [] → cold ≠ [] →
  ∃ s, loop (mergeBody ws hot cold) (S (length hot + length cold)) mergeStart = Some s ∧ readSoFar hot cold s ∧
    (hi s = length hot ∨ ci s = length cold) ∧
    mergeByWindowStart ws hot cold = out (mergeRest ws (drop (ci s) cold) (mergeRest ws (drop (hi s) hot) s)).
Proof.
  intros Hh Hc. destruct (merge_loop_ends hot cold (S (length hot + length cold))) as (s & Hl & Hs & Hend); [lia|].
  exists s. split_and!; [done..|]. unfold mergeByWindowStart. fold mergeStart. rewrite Hl.
  destruct hot as [|h hs]; [done|]. destruct cold as [|c cs]; [done|].
  destruct Hs as (Htr & _). destruct (mergeRest_tracked (drop (hi s) (h :: hs)) s Htr) as (_ & _ & Hci & _).
  cbn zeta. by rewrite Hci.
Qed.

(** On rows in order nothing is ever seen twice, and the merge is the reference. *)
Lemma emit_fresh x l s : tracked s → NoDup (ws <$> out s ++ x :: l) → emit ws x s = MkMerge (hi s) (ci s) ({[ws x]} ∪ seen s) (out s ++ [x]).
Proof.
  intros [Hs _] Hnd. unfold emit. rewrite decide_False; [done|]. rewrite Hs, elem_of_list_to_set. intros Hin.
  rewrite fmap_app in Hnd. apply NoDup_app in Hnd as (_ & Hdis & _). apply (Hdis _ Hin). left.
Qed.

Lemma mergeRest_fresh l s : tracked s → NoDup (ws <$> out s ++ l) → out (mergeRest ws l s) = out s ++ l.
Proof.
  revert s. induction l as [|x l IH]; intros s Hs Hnd; [by rewrite app_nil_r|]. cbn.
  pose proof (emit_tracked x s Hs) as (Hs1 & _). rewrite (emit_fresh x l s Hs Hnd) in *.
  change (foldl (λ s item, emit ws item s) ?z l) with (mergeRest ws l z). rewrite IH; cbn; [by rewrite <- app_assoc|done|by rewrite <- app_assoc].
Qed.

Definition onReference hot cold s : Prop :=
  out s ++ zipMerge ws (drop (hi s) hot) (drop (ci s) cold) = zipMerge ws hot cold.

Lemma mergeBody_reference hot cold s s' :
  ordered ws hot → ordered ws cold → tracked s → onReference hot cold s → mergeBody ws hot cold s = Some s' → onReference hot cold s'.
Proof.
  intros Hoh Hoc Hs Href. unfold mergeBody. pose proof (ordered_NoDup ws _ (zipMerge_ordered ws hot cold Hoh Hoc)) as Hnd.
  rewrite <- Href in Hnd. unfold onReference in *. rewrite <- Href. clear Href.
  destruct (hot !! hi s) as [h|] eqn:Hh; [|done]. destruct (cold !! ci s) as [c|] eqn:Hc; [|done].
  rewrite (drop_S _ _ _ Hh), (drop_S _ _ _ Hc), zipMerge_cons in *.
  destruct (Z.leb_spec (ws h) (ws c)) as [Hle|Hgt].
  - destruct (Z.eqb_spec (ws h) (ws c)) as [Heq|Hne].
    + rewrite (proj2 (Z.ltb_ge _ _)), (proj2 (Z.ltb_ge (ws c) _)) in * by lia. rewrite (emit_fresh h _ s Hs Hnd). cbn.
      intros [= <-]. cbn. by rewrite <- app_assoc.
    + rewrite (proj2 (Z.ltb_lt _ _)) in * by lia. rewrite (emit_fresh h _ s Hs Hnd). cbn.
      intros [= <-]. cbn. by rewrite <- app_assoc, (drop_S _ _ _ Hc).
  - rewrite (proj2 (Z.ltb_ge _ _)), (proj2 (Z.ltb_lt (ws c) _)) in * by lia. rewrite (emit_fresh c _ s Hs Hnd). cbn.
    intros [= <-]. cbn. by rewrite <- app_assoc, (drop_S _ _ _ Hh).
Qed.

Lemma mergeByWindowStart_ref hot cold :
  ordered ws hot → ordered ws cold → mergeByWindowStart ws hot cold = zipMerge ws hot cold.
Proof.
  intros Hoh Hoc. destruct (decide (hot = [])) as [->|Hh]; [done|].
  destruct (decide (cold = [])) as [->|Hc]; [by rewrite zipMerge_nil_r; destruct hot|].
  destruct (merge_unfold hot cold Hh Hc) as (s & Hl & (Hs & _) & Hend & ->).
  assert (onReference hot cold s) as Href.
  { apply loop_sound in Hl as [Hr _]. assert (tracked mergeStart ∧ onReference hot cold mergeStart ∧ readSoFar hot cold mergeStart) as H0.
    { split_and!; [split; [done|apply NoDup_nil_2]|done|]. split; [split; [done|apply NoDup_nil_2]|]. cbn. split_and!; [lia..|].
      intros t. rewrite !take_0. cbn. rewrite elem_of_nil. tauto. }
    clear Hs Hend. induction Hr as [s|s s1 s2 Hp _ IH]; [by destruct H0 as (_ & ? & _)|]. apply IH.
    destruct H0 as (Ht & Hr0 & Hrd). destruct (mergeBody_reads _ _ _ _ Hrd Hp) as [Hrd' _]. split_and!; [by destruct Hrd'| |done].
    by eapply mergeBody_reference. }
  pose proof (ordered_NoDup ws _ (zipMerge_ordered ws hot cold Hoh Hoc)) as Hnd. rewrite <- Href in Hnd. rewrite <- Href.
  destruct Hend as [Hend|Hend].
  - rewrite Hend, drop_all in *. cbn [zipMerge mergeRest foldl] in *. by apply mergeRest_fresh.
  - rewrite Hend, drop_all, zipMerge_nil_r in *. cbn [mergeRest foldl]. by apply mergeRest_fresh.
Qed.

Lemma capSlice_take l limit : 0 < limit → capSlice l limit = take (Z.to_nat limit) l.
Proof.
  intros Hl. unfold capSlice. rewrite (proj2 (Z.ltb_lt 0 limit)) by done. cbn. destruct (Z.ltb_spec limit (Z.of_nat (length l))); [done|].
  rewrite take_ge; [done|lia].
Qed.

(** The merge of two answers ends on any input. The loop over both slices takes
    at most as many passes as there are rows, whatever their order, and gives the
    same result for any larger bound; the merged slice has exactly one row for
    every window start that occurs in either answer. *)
Theorem merge_ends_with_one_row_per_window hot cold fuel :
  (length hot + length cold < fuel)%nat → hot ≠ [] → cold ≠ [] →
  (∃ s, loop (mergeBody ws hot cold) fuel mergeStart = Some s ∧ (hi s = length hot ∨ ci s = length cold) ∧
     mergeByWindowStart ws hot cold = out (mergeRest ws (drop (ci s) cold) (mergeRest ws (drop (hi s) hot) s))) ∧
  NoDup (ws <$> mergeByWindowStart ws hot cold) ∧
  ∀ t, t ∈ ws <$> mergeByWindowStart ws hot cold ↔ t ∈ ws <$> hot ∨ t ∈ ws <$> cold.
Proof.
  intros Hfuel Hh Hc. destruct (merge_unfold hot cold Hh Hc) as (s & Hl & (Hs & Hi & Hj & Hread) & Hend & Heq). split.
  { exists s. split; [|done]. eapply loop_more; [exact Hl|lia]. }
  rewrite Heq. destruct (mergeRest_tracked (drop (hi s) hot) s Hs) as (Hs1 & _ & _ & Ht1).
  destruct (mergeRest_tracked (drop (ci s) cold) _ Hs1) as (Hs2 & _ & _ & Ht2). split; [apply Hs2|].
  intros t. rewrite Ht2, Ht1, Hread. rewrite <- (take_drop (hi s) hot) at 3. rewrite <- (take_drop (ci s) cold) at 3.
  rewrite !fmap_app, !elem_of_app. tauto.
Qed.
End merge.

(** ** The contract of a reader *)

Section contract.
Context {T : Type} (ws : T → Z).
Implicit Types (m mh mc : gmap Z T) (rd h c : StoreReader T).

(** [l] is the rows of the table [m] from [a] to [b], in the order of their starts. *)
Definition rows m (a b : Z) (l : list T) : Prop :=
  ordered ws l ∧ ∀ x, x ∈ l ↔ m !! ws x = Some x ∧ a ≤ ws x ≤ b.

(** [o] is the first (in the order [le]) row of [m], or there is none. *)
Definition extreme (le : Z → Z → Prop) m (o : option T) : Prop :=
  match o with
  | None => m = ∅
  | Some x => m !! ws x = Some x ∧ ∀ t, is_Some (m !! t) → le (ws x) t
  end.

(** The tables of a store: one for each venue, instrument and timeframe. *)
Definition tables : Type := string → string → string → gmap Z T.

Class Serves (rd : StoreReader T) (tbl : tables) : Prop := {
  serves_keyed : ∀ v i f t x, tbl v i f !! t = Some x → ws x = t;
  serves_range : ∀ v i f a b limit, 0 < limit →
    ∃ l, rows (tbl v i f) a b l ∧ GetRange rd v i f a b limit = inr (take (Z.to_nat limit) l);
  serves_timestamps : ∀ v i f a b, ∃ l, rows (tbl v i f) a b l ∧ GetTimestamps rd v i f a b = inr (ws <$> l);
  serves_first : ∀ v i f, ∃ o, extreme Z.le (tbl v i f) o ∧ GetFirst rd v i f = inr o;
  serves_last : ∀ v i f, ∃ o, extreme Z.ge (tbl v i f) o ∧ GetLast rd v i f = inr o;
}.

(** Rows up to the boundary have reached the cold tier, and rows since it are
    still in the hot one. *)
Definition tiered (boundary : Z) mh mc : Prop :=
  (∀ t x, t ≤ boundary → mh !! t = Some x → mc !! t = Some x) ∧
  (∀ t, boundary ≤ t → is_Some (mc !! t) → is_Some (mh !! t)).

Lemma rows_ordered m a b l : rows m a b l → ordered ws l.
Proof. by intros []. Qed.

Lemma rows_union mh mc a b lh lc :
  (∀ t x, mh !! t = Some x → ws x = t) → rows mh a b lh → rows mc a b lc → rows (mh ∪ mc) a b (zipMerge ws lh lc).
Proof.
  intros Hk [Hoh Hh] [Hoc Hc]. split; [by apply zipMerge_ordered|]. intros x.
  rewrite (elem_of_zipMerge ws lh lc x Hoh Hoc), Hh, Hc, lookup_union_Some_raw. split.
  - intros [[? ?]|[[Hx Hr] Hno]]; [by split; [left|]|]. split; [right|done]. split; [|done].
    destruct (mh !! ws x) as [y|] eqn:Hy; [|done]. pose proof (Hk _ _ Hy) as Hyx. destruct (Hno y); [|done].
    apply Hh. by rewrite Hyx.
  - intros [[Hx|[Hn Hx]] Hr]; [by left|right]. split; [done|]. intros y [Hy _]%Hh Heq. congruence.
Qed.

Lemma rows_cold B mh mc a b l : tiered B mh mc → b ≤ B → rows mc a b l → rows (mh ∪ mc) a b l.
Proof.
  intros [Hold _] Hb [Ho Hl]. split; [done|]. intros x. rewrite Hl, lookup_union_Some_raw. split.
  - intros [Hx Hr]. split; [|done]. destruct (mh !! ws x) as [y|] eqn:Hy; [|by right].
    left. rewrite (Hold (ws x) y) in Hx; [congruence|lia|done].
  - intros [[Hx|[_ Hx]] Hr]; (split; [|done]); [|done]. apply Hold; [lia|done].
Qed.

Lemma rows_hot B mh mc a b l : tiered B mh mc → B ≤ a → rows mh a b l → rows (mh ∪ mc) a b l.
Proof.
  intros [_ Hnew] Ha [Ho Hl]. split; [done|]. intros x. rewrite Hl, lookup_union_Some_raw. split.
  - intros [Hx Hr]. by split; [left|].
  - intros [[Hx|[Hn Hx]] Hr]; [done|]. destruct (Hnew (ws x)); [lia|by exists x|congruence].
Qed.

(** The extreme row of the union is the better of the two, the hot one if they tie. *)
Definition pick (better : Z → Z → bool) (x y : option T) : option T :=
  match x with
  | None => y
  | Some a => match y with None => x | Some b => if better (ws a) (ws b) then x else y end
  end.

Lemma extreme_union (le : Z → Z → Prop) (better : Z → Z → bool) mh mc oh oc :
  (∀ s t, better s t = true ↔ le s t) → (∀ s t, ¬ le s t → le t s) → (∀ s t u, le s t → le t u → le s u) →
  (∀ s t, le s t → le t s → s = t) →
  extreme le mh oh → extreme le mc oc → extreme le (mh ∪ mc) (pick better oh oc).
Proof.
  intros Hb Htot Htr Has Hh Hc. destruct oh as [x|]; cbn in Hh; [|subst mh; by rewrite (left_id_L ∅ (∪))].
  destruct oc as [y|]; cbn in Hc; [|subst mc; by rewrite (right_id_L ∅ (∪))].
  destruct Hh as [Hx Hxm], Hc as [Hy Hym]. cbn. destruct (better (ws x) (ws y)) eqn:E; cbn; rewrite lookup_union_Some_raw.
  - apply Hb in E. split; [by left|]. intros t [z Hz]. apply lookup_union_Some_raw in Hz as [Hz|[_ Hz]]; [apply Hxm; by exists z|].
    eapply Htr; [exact E|]. apply Hym. by exists z.
  - assert (¬ le (ws x) (ws y)) as Hn by (rewrite <- Hb, E; done). pose proof (Htot _ _ Hn) as Hle. split.
    + right. split; [|done]. destruct (mh !! ws y) eqn:Hz; [|done]. destruct Hn. apply Hxm. by eexists.
    + intros t [z Hz]. apply lookup_union_Some_raw in Hz as [Hz|[_ Hz]]; [|apply Hym; by exists z].
      eapply Htr; [exact Hle|]. apply Hxm. by exists z.
Qed.

(** What every composite reader computes, when it has both tiers. *)
Definition compositeRange (rt : routing) h c (v i f : string) (a b limit : Z) : Problem + list T :=
  match rt with
  | routeColdOnly => GetRange c v i f a b limit
  | routeHotOnly => GetRange h v i f a b limit
  | routeBoth =>
      match GetRange h v i f a b limit with
      | inl p => inl p
      | inr lh =>
          match GetRange c v i f a b limit with
          | inl p => inl p
          | inr lc => inr (capSlice (mergeByWindowStart ws lh lc) limit)
          end
      end
  end.
Definition compositeTimestamps (rt : routing) h c (v i f : string) (a b : Z) : Problem + list Z :=
  match rt with
  | routeColdOnly => GetTimestamps c v i f a b
  | routeHotOnly => GetTimestamps h v i f a b
  | routeBoth =>
      match GetTimestamps h v i f a b with
      | inl p => inl p
      | inr lh =>
          match GetTimestamps c v i f a b with
          | inl p => inl p
          | inr lc => inr (mergeTimestamps lh lc)
          end
      end
  end.

(** The boundary between the tiers. *)
Definition hotBoundary (cfg : Config) (nowMs : Z) : Z :=
  let b := sub64 nowMs (HotWindowMs cfg) in if b <? 0 then 0 else b.

Lemma route_boundary cfg nowMs a b :
  match route a b (HotWindowMs cfg) nowMs with
  | routeColdOnly => b ≤ hotBoundary cfg nowMs
  | routeHotOnly => hotBoundary cfg nowMs ≤ a
  | routeBoth => True
  end.
Proof. unfold route, hotBoundary. cbn zeta. set (B := if _ <? _ then _ else _). destruct (Z.leb_spec b B); [done|]. by destruct (Z.leb_spec B a). Qed.

Section over_tiers.
Context h c (th tc : tables) `{!Serves h th} `{!Serves c tc}.
Context (cfg : Config) (nowMs : Z).
Context (v i f : string) (Htier : tiered (hotBoundary cfg nowMs) (th v i f) (tc v i f)).

Lemma composite_range a b limit :
  0 < limit →
  ∃ l, rows (th v i f ∪ tc v i f) a b l ∧
    compositeRange (route a b (HotWindowMs cfg) nowMs) h c v i f a b limit = inr (take (Z.to_nat limit) l).
Proof.
  intros Hl. destruct (serves_range (rd := h) v i f a b limit Hl) as (lh & Hh & Eh).
  destruct (serves_range (rd := c) v i f a b limit Hl) as (lc & Hc & Ec). pose proof (route_boundary cfg nowMs a b) as Hrt.
  destruct (route a b _ nowMs); cbn; rewrite ?Eh, ?Ec.
  - exists lc. split; [by eapply rows_cold|done].
  - exists lh. split; [by eapply rows_hot|done].
  - exists (zipMerge ws lh lc). split; [apply rows_union; [apply serves_keyed|done..]|].
    assert (∀ n l, ordered ws l → ordered ws (take n l)) as Htake.
    { intros n l Ho. rewrite fmap_take. rewrite <- (take_drop n (ws <$> l)) in Ho. by apply StronglySorted_app_1_l in Ho. }
    rewrite capSlice_take by done. rewrite mergeByWindowStart_ref by (eapply Htake, rows_ordered; done).
    f_equal. by apply zipMerge_take.
Qed.

Lemma composite_timestamps a b :
  ∃ l, rows (th v i f ∪ tc v i f) a b l ∧
    compositeTimestamps (route a b (HotWindowMs cfg) nowMs) h c v i f a b = inr (ws <$> l).
Proof.
  destruct (serves_timestamps (rd := h) v i f a b) as (lh & Hh & Eh).
  destruct (serves_timestamps (rd := c) v i f a b) as (lc & Hc & Ec). pose proof (route_boundary cfg nowMs a b) as Hrt.
  destruct (route a b _ nowMs); cbn; rewrite ?Eh, ?Ec.
  - exists lc. split; [by eapply rows_cold|done].
  - exists lh. split; [by eapply rows_hot|done].
  - exists (zipMerge ws lh lc). split; [apply rows_union; [apply serves_keyed|done..]|].
    by rewrite mergeTimestamps_ref, zipMerge_fmap.
Qed.

Lemma composite_first oh oc :
  GetFirst h v i f = inr oh → GetFirst c v i f = inr oc → extreme Z.le (th v i f ∪ tc v i f) (pick Z.leb oh oc).
Proof.
  intros Eh Ec. destruct (serves_first (rd := h) v i f) as (oh' & Hh & Eh'). destruct (serves_first (rd := c) v i f) as (oc' & Hc & Ec').
  assert (oh' = oh) as -> by congruence. assert (oc' = oc) as -> by congruence. apply extreme_union; [apply Z.leb_le|lia..|done|done].
Qed.
Lemma composite_last oh oc :
  GetLast h v i f = inr oh → GetLast c v i f = inr oc → extreme Z.ge (th v i f ∪ tc v i f) (pick (λ x y, y <=? x) oh oc).
Proof.
  intros Eh Ec. destruct (serves_last (rd := h) v i f) as (oh' & Hh & Eh'). destruct (serves_last (rd := c) v i f) as (oc' & Hc & Ec').
  assert (oh' = oh) as -> by congruence. assert (oc' = oc) as -> by congruence. apply extreme_union; [|lia..|done|done]. intros s t. rewrite Z.leb_le. lia.
Qed.
End over_tiers.

(** A reader that computes the composite of two tiers serves the union. *)
Record isComposite (rd h c : StoreReader T) (cfg : Config) (nowMs : Z) : Prop := {
  comp_range : ∀ v i f a b limit, GetRange rd v i f a b limit = compositeRange (route a b (HotWindowMs cfg) nowMs) h c v i f a b limit;
  comp_timestamps : ∀ v i f a b, GetTimestamps rd v i f a b = compositeTimestamps (route a b (HotWindowMs cfg) nowMs) h c v i f a b;
  comp_first : ∀ v i f oh oc, GetFirst h v i f = inr oh → GetFirst c v i f = inr oc → GetFirst rd v i f = inr (pick Z.leb oh oc);
  comp_last : ∀ v i f oh oc, GetLast h v i f = inr oh → GetLast c v i f = inr oc →
    GetLast rd v i f = inr (pick (λ x y, y <=? x) oh oc);
}.

Lemma composite_serves rd h c (th tc : tables) cfg nowMs :
  Serves h th → Serves c tc → (∀ v i f, tiered (hotBoundary cfg nowMs) (th v i f) (tc v i f)) →
  isComposite rd h c cfg nowMs → Serves rd (λ v i f, th v i f ∪ tc v i f).
Proof.
  intros Hh Hc Ht [Hr Hts Hf Hl]. split.
  - intros v i f t x [Hx|[_ Hx]]%lookup_union_Some_raw; [by apply (serves_keyed (rd := h)) in Hx|by apply (serves_keyed (rd := c)) in Hx].
  - intros v i f a b limit Hlim. rewrite Hr. by apply composite_range.
  - intros v i f a b. rewrite Hts. by apply composite_timestamps.
  - intros v i f. destruct (serves_first (rd := h) v i f) as (oh & _ & Eh). destruct (serves_first (rd := c) v i f) as (oc & _ & Ec).
    eexists. split; [by apply (composite_first h c th tc)|by apply Hf].
  - intros v i f. destruct (serves_last (rd := h) v i f) as (oh & _ & Eh). destruct (serves_last (rd := c) v i f) as (oc & _ & Ec).
    eexists. split; [by apply (composite_last h c th tc)|by apply Hl].
Qed.
End contract.

(** ** Claims *)

(** The composite readers as readers, at a reading of the clock. *)
Definition candleReader (r : Federated (StoreReader CandleV1)) (nowMs : Z) : StoreReader CandleV1 :=
  MkStoreReader (GetCandleRange r nowMs) (GetCandleTimestamps r nowMs)
    (GetFirstCandle r) (GetLastCandle r).
Definition statsReader (r : Federated (StoreReader StatsWindowV1)) (nowMs : Z) : StoreReader StatsWindowV1 :=
  MkStoreReader (GetStatsRange r nowMs) (GetStatsTimestamps r nowMs)
    (GetFirstStats r) (GetLastStats r).

Lemma candleReader_composite h c cfg nowMs :
  isComposite Candle.WindowStartTs
    (candleReader (NewFederatedCandleReader (Some h) (Some c) cfg) nowMs) h c cfg nowMs.
Proof.
  split; intros v i f; cbn.
  - intros a b limit. unfold GetCandleRange, queryBothRanges. cbn.
    destruct (route a b _ nowMs); [done..|]. unfold compositeRange. by destruct (GetRange h v i f a b limit), (GetRange c v i f a b limit).
  - intros a b. unfold GetCandleTimestamps. cbn.
    destruct (route a b _ nowMs); [done..|]. unfold compositeTimestamps. by destruct (GetTimestamps h v i f a b), (GetTimestamps c v i f a b).
  - intros oh oc Hh Hc. unfold GetFirstCandle. cbn. by rewrite Hh, Hc.
  - intros oh oc Hh Hc. unfold GetLastCandle. cbn. by rewrite Hh, Hc.
Qed.

Lemma statsReader_composite h c cfg nowMs :
  isComposite Stats.WindowStartTs
    (statsReader (NewFederatedStatsReader (Some h) (Some c) cfg) nowMs) h c cfg nowMs.
Proof.
  split; intros v i f; cbn.
  - intros a b limit. unfold GetStatsRange. cbn.
    destruct (route a b _ nowMs); [done..|]. unfold compositeRange. by destruct (GetRange h v i f a b limit), (GetRange c v i f a b limit).
  - intros a b. unfold GetStatsTimestamps. cbn.
    destruct (route a b _ nowMs); [done..|]. unfold compositeTimestamps. by destruct (GetTimestamps h v i f a b), (GetTimestamps c v i f a b).
  - intros oh oc Hh Hc. unfold GetFirstStats. cbn. by rewrite Hh, Hc.
  - intros oh oc Hh Hc. unfold GetLastStats. cbn. by rewrite Hh, Hc.
Qed.

Abbreviation candleFederation h c cfg := (NewFederatedCandleReader (Some h) (Some c) cfg).
Abbreviation statsFederation h c cfg := (NewFederatedStatsReader (Some h) (Some c) cfg).

(** C16: The composite readers fulfil the contract of the readers they are made of.
    Over a hot and a cold tier that each serve a table of rows by window start, the
    cold one holding what is older than the hot window and the hot one what is
    newer, the composite candle and stats readers serve the union of the tables,
    with the hot row where both have one: for every range, on either side of or
    across the boundary, the first [limit] rows in order, the timestamps, and the
    first and last row. *)
Theorem federated_reader_serves_union cfg nowMs :
  (∀ h c th tc, Serves Candle.WindowStartTs h th → Serves Candle.WindowStartTs c tc →
     (∀ v i f, tiered (hotBoundary cfg nowMs) (th v i f) (tc v i f)) →
     Serves Candle.WindowStartTs (candleReader (candleFederation h c cfg) nowMs) (λ v i f, th v i f ∪ tc v i f)) ∧
  (∀ h c th tc, Serves Stats.WindowStartTs h th → Serves Stats.WindowStartTs c tc →
     (∀ v i f, tiered (hotBoundary cfg nowMs) (th v i f) (tc v i f)) →
     Serves Stats.WindowStartTs (statsReader (statsFederation h c cfg) nowMs) (λ v i f, th v i f ∪ tc v i f)).
Proof.
  split; intros h c th tc Hh Hc Ht.
  - eapply composite_serves; [exact Hh|exact Hc|exact Ht|apply candleReader_composite].
  - eapply composite_serves; [exact Hh|exact Hc|exact Ht|apply statsReader_composite].
Qed.

(** The gap detector's port, as a reader provides it. *)
Definition gapReader (rd : StoreReader CandleV1) : CandleReader :=
  let start r := match r with inl p => inl p | inr o => inr (Candle.WindowStartTs <$> o) end in
  MkCandleReader (λ v i f, start (GetFirst rd v i f)) (λ v i f, start (GetLast rd v i f)) (GetTimestamps rd).

(** Gap detection over the composite reader: for a range and rows aligned to the
    expected step, a window start of the range is covered by a reported gap exactly
    when neither tier has a candle for it. *)
Theorem federated_gaps_are_missing_from_both_tiers `{GR : GoRuntime} h c th tc cfg nowMs gcfg :
  let from := FromMs gcfg in let to := ToMs gcfg in let step := ExpectedStepMs gcfg in
  let hotRows := th (cfg_Venue gcfg) (cfg_Instrument gcfg) (cfg_Timeframe gcfg) in
  let coldRows := tc (cfg_Venue gcfg) (cfg_Instrument gcfg) (cfg_Timeframe gcfg) in
  Serves Candle.WindowStartTs h th → Serves Candle.WindowStartTs c tc →
  (∀ v i f, tiered (hotBoundary cfg nowMs) (th v i f) (tc v i f)) →
  from ≠ 0 → to ≠ 0 → 0 < step → MinInt64 ≤ from ≤ to → to ≤ MaxInt64 → to - from < MaxInt64 → onGrid from step to →
  (∀ t, is_Some (hotRows !! t) ∨ is_Some (coldRows !! t) → from ≤ t ≤ to → onGrid from step t) →
  ∃ reports, DetectCandleGaps (Some (gapReader (candleReader (candleFederation h c cfg) nowMs))) gcfg = inr reports ∧
    ∀ t, onGrid from step t → from ≤ t ≤ to →
      Exists (λ r, covers r t) reports ↔ hotRows !! t = None ∧ coldRows !! t = None.
Proof.
  intros from to step hotRows coldRows Hh Hc Ht Hf0 Ht0 Hstep Hfrom Hto Hspan Hgto Hgrid.
  assert (Serves Candle.WindowStartTs (candleReader (candleFederation h c cfg) nowMs) (λ v i f, th v i f ∪ tc v i f)) as Hs.
  { eapply composite_serves; [exact Hh|exact Hc|exact Ht|apply candleReader_composite]. }
  destruct (serves_timestamps _ (Serves := Hs) (cfg_Venue gcfg) (cfg_Instrument gcfg) (cfg_Timeframe gcfg) from to) as (l & [Ho Hl] & Hts).
  cbn beta in Hl. fold hotRows coldRows in Hl.
  assert (∀ t, t ∈ Candle.WindowStartTs <$> l ↔ is_Some ((hotRows ∪ coldRows) !! t) ∧ from ≤ t ≤ to) as Hmem.
  { intros t. rewrite list_elem_of_fmap. split.
    - intros (x & -> & [Hx Hr]%Hl). split; [by exists x|done].
    - intros [[x Hx] Hr]. exists x. assert (Candle.WindowStartTs x = t) as <-.
      { apply (serves_keyed _ (Serves := Hs)) in Hx. done. }
      split; [done|]. by apply Hl. }
  destruct (DetectCandleGaps_exact (gapReader (candleReader (candleFederation h c cfg) nowMs)) gcfg (Candle.WindowStartTs <$> l))
    as (reports & Hd & Hex & _); [exact Hts|done..| |].
  { apply Forall_forall. intros t [[x Hx] Hr]%Hmem. split; [|done]. apply Hgrid; [|done].
    apply lookup_union_Some_raw in Hx as [?|[_ ?]]; [left|right]; by exists x. }
  exists reports. split; [done|]. intros t Hg Hr. specialize (Hex t Hg Hr). rewrite Hmem in Hex.
  rewrite <- (lookup_union_None hotRows coldRows t). destruct ((hotRows ∪ coldRows) !! t) as [x|] eqn:Hx.
  - split; [|done]. intros He. destruct (proj1 Hex); [by split; [exists x|]|done].
  - split; [done|]. intros _. assert (∀ r, Decision (covers r t)) by (intros r; unfold covers; apply _).
    destruct (decide (Exists (λ r, covers r t) reports)) as [He|Hn]; [done|].
    apply Hex in Hn as [[? [=]] _].
Qed.

(** ** The consistency report *)

Section report.
Context (hotTs coldTs : list Z).
Abbreviation hotSet := (list_to_set hotTs : gset Z).
Abbreviation coldSet := (list_to_set coldTs : gset Z).

Lemma foldl_countHot l r :
  0 ≤ OverlapCount r → 0 ≤ MissingInCold r → OverlapCount r + MissingInCold r + Z.of_nat (length l) ≤ MaxInt64 →
  let r' := foldl (countHot coldSet) r l in
  OverlapCount r' = OverlapCount r + Z.of_nat (length (filter (.∈ coldSet) l)) ∧
  MissingInCold r' = MissingInCold r + Z.of_nat (length (filter (.∉ coldSet) l)) ∧
  MissingInHot r' = MissingInHot r ∧ HotCount r' = HotCount r ∧ ColdCount r' = ColdCount r.
Proof.
  revert r. induction l as [|t l IH]; intros r Ho Hm Hb; [cbn; lia|]. cbn zeta. cbn [foldl]. cbn [length] in Hb.
  assert (∀ n, 0 ≤ n < MaxInt64 → add64 n 1 = n + 1) as Hadd.
  { intros n Hn. unfold add64. apply wrap64_id. unfold in_i64, MinInt64, MaxInt64 in *. lia. }
  specialize (IH (countHot coldSet r t)). cbn zeta in IH. rewrite !filter_cons. revert IH.
  generalize (foldl (countHot coldSet) (countHot coldSet r t) l). intros r'. unfold countHot.
  destruct (decide (t ∈ coldSet)) as [Hin|Hnin].
  - rewrite (decide_False (P := t ∉ coldSet)) by tauto. cbn. intros IH. rewrite Hadd in IH by lia. destruct IH as (H1 & H2 & H3 & H4 & H5); [lia..|].
    split_and!; [lia|lia|done..].
  - rewrite (decide_True (P := t ∉ coldSet)) by tauto. cbn. intros IH. rewrite Hadd in IH by lia. destruct IH as (H1 & H2 & H3 & H4 & H5); [lia..|].
    split_and!; [lia|lia|done..].
Qed.

Lemma foldl_countCold l r :
  0 ≤ MissingInHot r → MissingInHot r + Z.of_nat (length l) ≤ MaxInt64 →
  let r' := foldl (countCold hotSet) r l in
  MissingInHot r' = MissingInHot r + Z.of_nat (length (filter (.∉ hotSet) l)) ∧
  OverlapCount r' = OverlapCount r ∧ MissingInCold r' = MissingInCold r ∧ HotCount r' = HotCount r ∧ ColdCount r' = ColdCount r.
Proof.
  revert r. induction l as [|t l IH]; intros r Hm Hb; [cbn; lia|]. cbn zeta. cbn [foldl]. cbn [length] in Hb.
  assert (∀ n, 0 ≤ n < MaxInt64 → add64 n 1 = n + 1) as Hadd.
  { intros n Hn. unfold add64. apply wrap64_id. unfold in_i64, MinInt64, MaxInt64 in *. lia. }
  specialize (IH (countCold hotSet r t)). cbn zeta in IH. rewrite !filter_cons. revert IH.
  generalize (foldl (countCold hotSet) (countCold hotSet r t) l). intros r'. unfold countCold.
  destruct (decide (t ∈ hotSet)) as [Hin|Hnin].
  - rewrite (decide_False (P := t ∉ hotSet)) by tauto. cbn. intros IH. apply IH; lia.
  - rewrite (decide_True (P := t ∉ hotSet)) by tauto. cbn. intros IH. rewrite Hadd in IH by lia. destruct IH as (H1 & H2 & H3 & H4 & H5); [lia..|].
    split_and!; [lia|done..].
Qed.

Lemma length_filter_elements (P : Z → Prop) `{∀ x, Decision (P x)} (X : gset Z) :
  length (filter P (elements X)) = size (filter P X).
Proof.
  unfold size, set_size. cbn. apply Permutation_length, NoDup_Permutation;
    [apply NoDup_filter, NoDup_elements|apply NoDup_elements|].
  intros x. rewrite list_elem_of_filter, !elem_of_elements, elem_of_filter. done.
Qed.

(** The report counts distinct timestamps: those in both tiers and those in one only. *)
Theorem report_counts_distinct_timestamps artifact venue instrument timeframe :
  Z.of_nat (length hotTs) ≤ MaxInt64 → Z.of_nat (length coldTs) ≤ MaxInt64 →
  let r := buildReport artifact venue instrument timeframe hotTs coldTs in
  HotCount r = Z.of_nat (length hotTs) ∧ ColdCount r = Z.of_nat (length coldTs) ∧
  OverlapCount r = Z.of_nat (size (hotSet ∩ coldSet)) ∧ MissingInCold r = Z.of_nat (size (hotSet ∖ coldSet)) ∧
  MissingInHot r = Z.of_nat (size (coldSet ∖ hotSet)).
Proof.
  intros Hh Hc r. unfold r, buildReport. cbn zeta.
  match goal with |- context [foldl (countHot _) ?x _] => set (r0 := x) end.
  assert (OverlapCount r0 = 0 ∧ MissingInCold r0 = 0 ∧ MissingInHot r0 = 0 ∧ HotCount r0 = Z.of_nat (length hotTs) ∧
    ColdCount r0 = Z.of_nat (length coldTs)) as (H1 & H2 & H3 & H4 & H5) by (unfold r0; by destruct hotTs, coldTs).
  clearbody r0.
  assert (∀ l : list Z, (length (elements (list_to_set l : gset Z)) ≤ length l)%nat) as Hle.
  { intros l. change (size (list_to_set l : gset Z) ≤ length l)%nat. induction l as [|x l IH]; [done|]. cbn [list_to_set length].
    rewrite size_union_alt, size_singleton. pose proof (subseteq_size (list_to_set l ∖ {[x]}) (list_to_set l : gset Z)). set_solver by lia. }
  pose proof (Hle hotTs) as Hlh. pose proof (Hle coldTs) as Hlc.
  destruct (foldl_countHot (elements hotSet) r0) as (A1 & A2 & A3 & A4 & A5); [lia..|].
  set (r1 := foldl (countHot coldSet) r0 (elements hotSet)) in *. clearbody r1.
  destruct (foldl_countCold (elements coldSet) r1) as (B1 & B2 & B3 & B4 & B5); [lia..|].
  set (r2 := foldl (countCold hotSet) r1 (elements coldSet)) in *. clearbody r2.
  rewrite length_filter_elements in A1, A2, B1.
  split_and!; [lia|lia|rewrite B2, A1, H1|rewrite B3, A2, H2|rewrite B1, A3, H3];
    rewrite Z.add_0_l; do 2 f_equal; apply set_eq; intros x; rewrite elem_of_filter; set_solver.
Qed.
End report.

(** ** A store, as an instance of the contract *)

Section list_store.
Context {T : Type} (ws : T → Z).

Definition tableOf (l : list T) : gmap Z T := list_to_map ((λ x, (ws x, x)) <$> l).

(** A reader over a list of rows in order. *)
Definition listReader (l : list T) : StoreReader T :=
  MkStoreReader
    (λ _ _ _ a b limit,
       if limit <=? 0 then inl (New ValidationFailed "limit must be > 0")
       else inr (take (Z.to_nat limit) (filter (λ x, a ≤ ws x ≤ b) l)))
    (λ _ _ _ a b, inr (ws <$> filter (λ x, a ≤ ws x ≤ b) l))
    (λ _ _ _, inr (head l))
    (λ _ _ _, inr (last l)).

Lemma tableOf_lookup l t x : ordered ws l → tableOf l !! t = Some x ↔ x ∈ l ∧ ws x = t.
Proof.
  intros Ho%ordered_NoDup. unfold tableOf. rewrite <- elem_of_list_to_map.
  - rewrite list_elem_of_fmap. split; [intros (y & [= -> ->] & ?); done|]. intros [? <-]. by exists x.
  - by rewrite <- list_fmap_compose.
Qed.

Lemma filter_ordered (P : T → Prop) `{∀ x, Decision (P x)} l : ordered ws l → ordered ws (filter P l).
Proof.
  induction l as [|x l IH]; intros Ho; [done|]. apply ordered_cons in Ho as [Hl Hlt]. rewrite filter_cons.
  destruct (decide (P x)); [|by apply IH]. apply ordered_cons. split; [by apply IH|]. intros y [_ Hy]%list_elem_of_filter. by apply Hlt.
Qed.

Lemma filter_rows l a b : ordered ws l → rows ws (tableOf l) a b (filter (λ x, a ≤ ws x ≤ b) l).
Proof.
  intros Ho. split; [by apply filter_ordered|]. intros x. rewrite list_elem_of_filter, tableOf_lookup by done. tauto.
Qed.

Lemma ordered_extremes l x :
  ordered ws l → x ∈ l → (∀ y, head l = Some y → ws y ≤ ws x) ∧ (∀ y, last l = Some y → ws x ≤ ws y).
Proof.
  induction l as [|z l IH]; intros Ho Hx; [by apply elem_of_nil in Hx|]. apply ordered_cons in Ho as [Hl Hlt]. split.
  - intros y [= <-]. apply elem_of_cons in Hx as [->|Hx]; [done|]. specialize (Hlt x Hx). lia.
  - intros y Hy. destruct l as [|z' l]; [injection Hy as <-; by apply list_elem_of_singleton in Hx as ->|].
    rewrite last_cons_cons in Hy. apply elem_of_cons in Hx as [->|Hx]; [|by apply IH].
    assert (y ∈ z' :: l) as Hin by (by apply last_Some_elem_of). specialize (Hlt y Hin). lia.
Qed.

Lemma listReader_serves l : ordered ws l → Serves ws (listReader l) (λ _ _ _, tableOf l).
Proof.
  intros Ho. split; intros v i f; cbn beta.
  - intros t x [_ H]%tableOf_lookup; done.
  - intros a b limit Hl. exists (filter (λ x, a ≤ ws x ≤ b) l). split; [by apply filter_rows|]. cbn.
    by rewrite (proj2 (Z.leb_gt limit 0)).
  - intros a b. eexists. split; [by apply filter_rows|done].
  - exists (head l). split; [|done]. destruct l as [|x l']; [done|]. cbn [head extreme].
    rewrite tableOf_lookup by done. split; [by split; [left|]|]. intros t [y [Hy <-]%tableOf_lookup]; [|done].
    exact (proj1 (ordered_extremes (x :: l') y Ho Hy) x eq_refl).
  - exists (last l). split; [|done]. destruct (last l) as [x|] eqn:Hx; cbn [extreme].
    + rewrite tableOf_lookup by done. split; [split; [by apply last_Some_elem_of|done]|].
      intros t [y [Hy <-]%tableOf_lookup]; [|done]. apply Z.le_ge. exact (proj2 (ordered_extremes l y Ho Hy) x Hx).
    + apply last_None in Hx as ->. done.
Qed.

Lemma tiered_lists B hot cold :
  ordered ws hot → ordered ws cold →
  Forall (λ x, ws x ≤ B → x ∈ cold) hot → Forall (λ x, B ≤ ws x → ∃ y, y ∈ hot ∧ ws y = ws x) cold →
  tiered B (tableOf hot) (tableOf cold).
Proof.
  intros Hh Hc Hold Hnew. rewrite Forall_forall in Hold, Hnew. split.
  - intros t x Ht. rewrite !tableOf_lookup by done. intros [Hx <-]. split; [by apply Hold|done].
  - intros t Ht [x [Hx <-]%tableOf_lookup]; [|done]. destruct (Hnew x Hx Ht) as (y & Hy & Heq). exists y.
    by rewrite tableOf_lookup.
Qed.
End list_store.

(** Two tiers at the clock reading 172800000 (the hot window is a day): the cold one
    has the first four minutes of the second day, the hot one minutes 4 and 6. *)
Definition w_row (minute : Z) (close : float64) : CandleV1 :=
  MkCandleV1 "BINANCE" "BTCUSDT" "1m" (86400000 + minute * 60000) (86460000 + minute * 60000) close close close close
    f1 f1 f0 1 1 1 true 0 0 0 0 0 0 0.
Definition w_now : Z := 86400000 + 86400000 + 240000.
Definition w_cold : list CandleV1 := [w_row 1 f1; w_row 2 f1; w_row 4 f1].
Definition w_hot : list CandleV1 := [w_row 4 f1; w_row 6 f0].
Definition w_statsRow (start : Z) : StatsWindowV1 :=
  MkStatsWindow "BINANCE" "BTCUSDT" "1m" start (start + 60000) 60000 start 0 f1 f0 f1 1 f1 f1 f1 f1 f0 f0 1 1 true 0 0 0 0 0 0 0 0 0 0 0 0.
Definition w_statsCold : list StatsWindowV1 := [w_statsRow 60000; w_statsRow 120000].
Definition w_statsHot : list StatsWindowV1 := [w_statsRow (w_now - 60000)].

Lemma w_cold_ordered : ordered Candle.WindowStartTs w_cold.
Proof. repeat constructor. Qed.
Lemma w_hot_ordered : ordered Candle.WindowStartTs w_hot.
Proof. repeat constructor. Qed.
Lemma w_stats_ordered : ordered Stats.WindowStartTs w_statsHot ∧ ordered Stats.WindowStartTs w_statsCold.
Proof. split; repeat constructor. Qed.
Lemma w_tiered : tiered (hotBoundary DefaultConfig w_now) (tableOf Candle.WindowStartTs w_hot) (tableOf Candle.WindowStartTs w_cold).
Proof.
  apply tiered_lists; [apply w_hot_ordered|apply w_cold_ordered|..]; repeat apply Forall_cons_2; try apply Forall_nil_2;
    change (hotBoundary DefaultConfig w_now) with 86640000; cbn.
  - intros _. do 2 right. left.
  - lia.
  - lia.
  - lia.
  - intros _. exists (w_row 4 f1). split; [left|done].
Qed.

Abbreviation w_candles := (candleReader (candleFederation (listReader Candle.WindowStartTs w_hot) (listReader Candle.WindowStartTs w_cold) DefaultConfig) w_now).

Lemma federated_reader_serves_union_witness :
  GetRange w_candles "BINANCE" "BTCUSDT" "1m" 86400000 87000000 3 = inr [w_row 1 f1; w_row 2 f1; w_row 4 f1] ∧
  Serves Candle.WindowStartTs w_candles
    (λ _ _ _, tableOf Candle.WindowStartTs w_hot ∪ tableOf Candle.WindowStartTs w_cold) ∧
  Serves Stats.WindowStartTs
    (statsReader (statsFederation (listReader Stats.WindowStartTs w_statsHot) (listReader Stats.WindowStartTs w_statsCold) DefaultConfig) w_now)
    (λ _ _ _, tableOf Stats.WindowStartTs w_statsHot ∪ tableOf Stats.WindowStartTs w_statsCold).
Proof.
  split; [vm_compute; reflexivity|]. split.
  - apply (proj1 (federated_reader_serves_union DefaultConfig w_now) _ _ (λ _ _ _, _) (λ _ _ _, _));
      [apply listReader_serves, w_hot_ordered|apply listReader_serves, w_cold_ordered|intros _ _ _; apply w_tiered].
  - apply (proj2 (federated_reader_serves_union DefaultConfig w_now) _ _ (λ _ _ _, _) (λ _ _ _, _));
      [apply listReader_serves, w_stats_ordered|apply listReader_serves, w_stats_ordered|].
    intros _ _ _. change (hotBoundary DefaultConfig w_now) with 86640000.
    apply tiered_lists; [apply w_stats_ordered|apply w_stats_ordered|apply Forall_cons_2; [cbn; unfold w_now; lia|apply Forall_nil_2]|].
    apply Forall_cons_2; [cbn; lia|]. apply Forall_cons_2; [cbn; lia|apply Forall_nil_2].
Defined.

Definition w_fedGapCfg : GapDetectorConfig := MkGapDetectorConfig "BINANCE" "BTCUSDT" "1m" 86460000 86760000 60000.

Lemma federated_gaps_are_missing_from_both_tiers_witness :
  DetectCandleGaps (GR:=go_amd64) (Some (gapReader w_candles)) w_fedGapCfg =
    inr [MkGapReport "BINANCE" "BTCUSDT" "1m" 86580000 86580000 1; MkGapReport "BINANCE" "BTCUSDT" "1m" 86700000 86700000 1] ∧
  ∃ reports, DetectCandleGaps (GR:=go_amd64) (Some (gapReader w_candles)) w_fedGapCfg = inr reports ∧
    ∀ t, onGrid 86460000 60000 t → 86460000 ≤ t ≤ 86760000 →
      Exists (λ r, covers r t) reports ↔
      tableOf Candle.WindowStartTs w_hot !! t = None ∧ tableOf Candle.WindowStartTs w_cold !! t = None.
Proof.
  split; [vm_compute; reflexivity|].
  apply (federated_gaps_are_missing_from_both_tiers (GR:=go_amd64) (listReader Candle.WindowStartTs w_hot)
    (listReader Candle.WindowStartTs w_cold) (λ _ _ _, tableOf Candle.WindowStartTs w_hot)
    (λ _ _ _, tableOf Candle.WindowStartTs w_cold) DefaultConfig w_now w_fedGapCfg);
    [apply listReader_serves, w_hot_ordered|apply listReader_serves, w_cold_ordered|intros _ _ _; apply w_tiered|done|done|done
    |unfold MinInt64; cbn; lia|unfold MaxInt64; cbn; lia|unfold MaxInt64; cbn; lia|exists 5; done|].
  intros t Ht _. assert (∃ n, t = 86400000 + n * 60000) as [n ->].
  { assert (∀ l, ordered Candle.WindowStartTs l → is_Some (tableOf Candle.WindowStartTs l !! t) → ∃ x, x ∈ l ∧ Candle.WindowStartTs x = t) as Hin.
    { intros l Hl [x [Hx <-]%tableOf_lookup]; [by exists x|done]. }
    destruct Ht as [H|H]; apply Hin in H; try apply w_hot_ordered; try apply w_cold_ordered; destruct H as (x & Hx & <-);
      repeat (apply elem_of_cons in Hx as [->|Hx]; [eexists; reflexivity|]); by apply elem_of_nil in Hx. }
  exists (n - 1). cbn. lia.
Defined.

Lemma merge_ends_with_one_row_per_window_witness :
  Candle.WindowStartTs <$> mergeByWindowStart Candle.WindowStartTs [w_row 6 f1; w_row 4 f0; w_row 6 f0] [w_row 4 f1; w_row 1 f1] =
    [86640000; 86460000; 86760000] ∧
  NoDup (Candle.WindowStartTs <$> mergeByWindowStart Candle.WindowStartTs [w_row 6 f1; w_row 4 f0; w_row 6 f0] [w_row 4 f1; w_row 1 f1]).
Proof.
  split; [vm_compute; reflexivity|].
  apply (merge_ends_with_one_row_per_window Candle.WindowStartTs [w_row 6 f1; w_row 4 f0; w_row 6 f0] [w_row 4 f1; w_row 1 f1] 6);
    [cbn; lia|done|done].
Defined.
