(* ===== verification/MarketModel.v ===== *)
(** * MarketModel: internal/core/marketmodel

    The canonical market model: validated names, prices and sizes (types.go),
    trades, book snapshots and deltas and signal events with their validation
    (events.go), per-exchange precision (adapter.go, precision.go,
    canonicalizer.go), a book kept as two sorted slices (reconstruction.go) and the
    bounded store of books by stream (state.go).

    Slices are lists: the book's operations write into the arrays of the book they
    are called on, and every snapshot that leaves it is a copy. [sort.SliceStable]
    is the parameter [StableSort]; time stamps are nanoseconds, [now] is the reading
    of the clock a method takes. *)

From S2P Require Import Prelude GoRuntime Shared Loops.

Local Open Scope string_scope.
Local Open Scope list_scope.
Local Open Scope Z_scope.

(** ** types.go *)

Definition ChannelTrade : string := "trade".
Definition ChannelBookSnapshot : string := "book_snapshot".
Definition ChannelBookDelta : string := "book_delta".
Definition ChannelCandle : string := "candle".
Definition ChannelStats : string := "stats".
Definition ChannelEvidence : string := "evidence".
Definition ChannelSignal : string := "signal".
Definition ChannelMarkPrice : string := "mark_price".
Definition ChannelLiquidation : string := "liquidation".
Definition SideBuy : string := "buy".
Definition SideSell : string := "sell".

Record StreamKey := MkStreamKey { key_Venue : string; key_Symbol : string; key_Channel : string }.

(** [problem.WithDetail(problem.Newf(ValidationFailed, ...), "field", name)] *)
Definition fieldProblem (field format : string) (args : list any) : Problem :=
  with_detail (Newf ValidationFailed format args) "field" (AnyStr field).

Section types.
Context {GR : GoRuntime}.

Definition NewVenue (raw : string) : Problem + string :=
  let v := CanonicalVenue raw in
  if str_eqb (TrimSpace v) "" then inl (fieldProblem "venue" "venue must not be empty" []) else inr v.

Definition NewSymbol (raw : string) : Problem + string :=
  let s := CanonicalInstrument raw in
  if str_eqb (TrimSpace s) "" then inl (fieldProblem "symbol" "symbol must not be empty" []) else inr s.

Definition NewChannel (raw : string) : Problem + string :=
  let c := ToLower (TrimSpace raw) in
  if one_of c [ChannelTrade; ChannelBookSnapshot; ChannelBookDelta; ChannelCandle; ChannelStats; ChannelEvidence;
               ChannelSignal; ChannelMarkPrice; ChannelLiquidation]
  then inr c
  else inl (fieldProblem "channel" "unsupported channel %q" [AnyStr raw]).

Definition NewStreamKey (venue symbol channel : string) : Problem + StreamKey :=
  match NewVenue venue with
  | inl p => inl p
  | inr v =>
      match NewSymbol symbol with
      | inl p => inl p
      | inr s =>
          match NewChannel channel with
          | inl p => inl p
          | inr _ => inr (MkStreamKey v s channel)
          end
      end
  end.

Definition NewSide (raw : string) : Problem + string :=
  let s := ToLower (TrimSpace raw) in
  if one_of s [SideBuy; SideSell] then inr s else inl (fieldProblem "side" "unsupported side %q" [AnyStr raw]).
End types.

Definition NewSeq (v : Z) : Problem + Z :=
  if v <=? 0 then inl (fieldProblem "seq" "seq must be > 0, got %d" [AnyInt v]) else inr v.

Definition NewServerTS (ms : Z) : Problem + Z :=
  if ms <=? 0 then inl (fieldProblem "server_ts" "server_ts must be > 0, got %d" [AnyInt ms]) else inr ms.

Definition NewPrice (v : float64) : Problem + float64 :=
  if isNaN v || isInf v || fleb v f0 then inl (fieldProblem "price" "price must be finite and > 0, got %v" [AnyFloat v])
  else inr v.

Definition NewSize (v : float64) (allowZero : bool) : Problem + float64 :=
  if isNaN v || isInf v then inl (fieldProblem "size" "size must be finite, got %v" [AnyFloat v])
  else if allowZero then
    if fltb v f0 then inl (fieldProblem "size" "size must be >= 0, got %v" [AnyFloat v]) else inr v
  else if fleb v f0 then inl (fieldProblem "size" "size must be > 0, got %v" [AnyFloat v])
  else inr v.

(** [fmt.Sprintf("%s/%s/%s", k.Venue, k.Symbol, k.Channel)] *)
Definition keyString (k : StreamKey) : string := key_Venue k +:+ "/" +:+ key_Symbol k +:+ "/" +:+ key_Channel k.

(** ** events.go: trades and books *)

Record Level := MkLevel { lvl_Price : float64; lvl_Size : float64 }.

Record Trade := MkTrade {
  tr_Price : float64;
  tr_Size : float64;
  tr_Side : string;
  tr_TradeID : string;
  tr_Timestamp : Z;
}.

Record BookSnapshot := MkSnapshot { snap_Bids : list Level; snap_Asks : list Level; snap_Timestamp : Z }.

Record BookDelta := MkDelta {
  delta_Bids : list Level;
  delta_Asks : list Level;
  FirstID : Z;
  FinalID : Z;
  PrevFinal : Z;
  delta_Timestamp : Z;
  IsSnapshot : bool;
}.
#[export] Instance BookDelta_eta : Eta BookDelta := λ r,
  MkDelta (delta_Bids r) (delta_Asks r) (FirstID r) (FinalID r) (PrevFinal r) (delta_Timestamp r) (IsSnapshot r).

(** [if _, p := ...; p != nil { return p }]: the first problem. *)
Definition firstProblem (checks : list (option Problem)) : option Problem := Collect checks.

Definition validateTrade {GR : GoRuntime} (t : Trade) : option Problem :=
  firstProblem [err_of (NewPrice (tr_Price t)); err_of (NewSize (tr_Size t) false); err_of (NewSide (tr_Side t));
    if str_eqb (TrimSpace (tr_TradeID t)) "" then Some (fieldProblem "trade_id" "trade_id must not be empty" []) else None;
    err_of (NewServerTS (tr_Timestamp t))].

Fixpoint validateLevels (levels : list Level) (strictPositiveSize : bool) : option Problem :=
  match levels with
  | [] => None
  | lvl :: rest =>
      match NewPrice (lvl_Price lvl) with
      | inl p => Some p
      | inr _ =>
          match NewSize (lvl_Size lvl) (negb strictPositiveSize) with
          | inl p => Some p
          | inr _ => validateLevels rest strictPositiveSize
          end
      end
  end.

(** [for i := 1; ...]: each price against the one before it. *)
Fixpoint sortedFrom (prev : float64) (levels : list Level) (desc : bool) : bool :=
  match levels with
  | [] => true
  | lvl :: rest =>
      let cur := lvl_Price lvl in
      if desc then if fltb prev cur then false else sortedFrom cur rest desc
      else if fgtb prev cur then false else sortedFrom cur rest desc
  end.
Definition isSorted (levels : list Level) (desc : bool) : bool :=
  match levels with [] => true | lvl :: rest => sortedFrom (lvl_Price lvl) rest desc end.

Definition validateSnapshot (s : BookSnapshot) : option Problem :=
  firstProblem [err_of (NewServerTS (snap_Timestamp s)); validateLevels (snap_Bids s) true; validateLevels (snap_Asks s) true;
    if negb (isSorted (snap_Bids s) true) then Some (New ValidationFailed "snapshot bids must be sorted by price desc") else None;
    if negb (isSorted (snap_Asks s) false) then Some (New ValidationFailed "snapshot asks must be sorted by price asc") else None].

Definition validateDelta (d : BookDelta) : option Problem :=
  firstProblem [err_of (NewServerTS (delta_Timestamp d)); validateLevels (delta_Bids d) false; validateLevels (delta_Asks d) false;
    if negb (IsSnapshot d) then
      if (FirstID d <=? 0) || (FinalID d <=? 0) then Some (New ValidationFailed "book delta update ids must be > 0")
      else if FinalID d <? FirstID d then Some (New ValidationFailed "book delta final_id must be >= first_id")
      else None
    else None;
    if negb (isSorted (delta_Bids d) true) then Some (New ValidationFailed "delta bids must be sorted by price desc") else None;
    if negb (isSorted (delta_Asks d) false) then Some (New ValidationFailed "delta asks must be sorted by price asc") else None].

(** The comparison of [sortLevels]. *)
Definition levelLess (desc : bool) (a b : Level) : bool :=
  if feqb (lvl_Price a) (lvl_Price b) then fgtb (lvl_Size a) (lvl_Size b)
  else if desc then fgtb (lvl_Price a) (lvl_Price b) else fltb (lvl_Price a) (lvl_Price b).

(** The loop of [collapseByPrice]; [prev] is the last level kept. *)
Fixpoint collapseAfter (prev : Level) (levels : list Level) : list Level :=
  match levels with
  | [] => []
  | lvl :: rest =>
      if feqb (lvl_Price prev) (lvl_Price lvl) then collapseAfter prev rest else lvl :: collapseAfter lvl rest
  end.
Definition collapseByPrice (levels : list Level) : list Level :=
  match levels with [] => [] | lvl :: rest => lvl :: collapseAfter lvl rest end.

Section ordering.
Context {SS : StableSort}.

Definition sortLevels (levels : list Level) (desc : bool) : list Level := SliceStable (levelLess desc) levels.

Definition NormalizeBookOrdering (bids asks : list Level) (delta : bool) : Problem + (list Level * list Level) :=
  let nb := collapseByPrice (sortLevels bids true) in
  let na := collapseByPrice (sortLevels asks false) in
  match validateLevels nb (negb delta) with
  | Some p => inl p
  | None =>
      match validateLevels na (negb delta) with
      | Some p => inl p
      | None => inr (nb, na)
      end
  end.
End ordering.

(** ** precision.go *)

Record PrecisionRule := MkRule { PriceDecimals : Z; SizeDecimals : Z }.

(** [math.Pow10(n)] for [n >= 0]: the product of two table entries. *)
Definition Pow10 (n : Z) : float64 :=
  if 308 <? n then S754_infinity false else fmul (f_of_Z (10 ^ (32 * (n / 32)))) (f_of_Z (10 ^ (n mod 32))).

Definition roundToDecimals (v : float64) (decimals : Z) : float64 :=
  if decimals <? 0 then v else
  let pow := Pow10 decimals in
  fdiv (Round (fmul v pow)) pow.

Definition NormalizePrice (r : PrecisionRule) (v : float64) : float64 := roundToDecimals v (PriceDecimals r).
Definition NormalizeSize (r : PrecisionRule) (v : float64) : float64 := roundToDecimals v (SizeDecimals r).

(** ** adapter.go *)

(** The interface [ExchangeAdapter]. *)
Record ExchangeAdapter := MkAdapter {
  adapterVenue : string;
  Precision : string → PrecisionRule;
  NormalizeTimestamp : Z → Z → Z;
  NormalizeAdapterSide : string → Problem + string;
}.

Record StaticExchangeAdapter := MkStatic {
  static_venue : string;
  static_defaultRule : PrecisionRule;
  static_rules : gmap string PrecisionRule;
}.

Section adapter.
Context {GR : GoRuntime}.

(** The loop over the rules. *)
Fixpoint addRules (rules : list (string * PrecisionRule)) (out : gmap string PrecisionRule) : Problem + gmap string PrecisionRule :=
  match rules with
  | [] => inr out
  | (k, rule) :: rest =>
      match NewSymbol k with
      | inl p => inl p
      | inr s => addRules rest (<[s := rule]> out)
      end
  end.

Definition NewStaticExchangeAdapter (venue : string) (defaultRule : PrecisionRule) (rules : gmap string PrecisionRule)
    : Problem + StaticExchangeAdapter :=
  match NewVenue venue with
  | inl p => inl p
  | inr v =>
      match addRules (map_range rules) ∅ with
      | inl p => inl p
      | inr out => inr (MkStatic v defaultRule out)
      end
  end.

Definition staticPrecision (a : StaticExchangeAdapter) (symbol : string) : PrecisionRule :=
  match static_rules a !! symbol with
  | Some r => r
  | None => static_defaultRule a
  end.

Definition staticNormalizeTimestamp (raw fallback : Z) : Z :=
  if 0 <? raw then raw else if 0 <? fallback then fallback else 1.

Definition staticNormalizeSide (a : StaticExchangeAdapter) (raw : string) : Problem + string :=
  let s := ToLower (TrimSpace raw) in
  if one_of s ["buy"; "bid"; "b"] then inr SideBuy
  else if one_of s ["sell"; "ask"; "a"; "s"] then inr SideSell
  else inl (Newf ValidationFailed "unsupported side %q for venue %s" [AnyStr raw; AnyStr (static_venue a)]).

(** A [*StaticExchangeAdapter] as an [ExchangeAdapter]. *)
Definition staticAdapter (a : StaticExchangeAdapter) : ExchangeAdapter :=
  MkAdapter (static_venue a) (staticPrecision a) staticNormalizeTimestamp (staticNormalizeSide a).

(** The constructor cannot fail here: the zero adapter is never returned. *)
Definition defaultAdapter : ExchangeAdapter :=
  staticAdapter (default (MkStatic "" (MkRule 8 8) ∅) (ok_of (NewStaticExchangeAdapter "unknown" (MkRule 8 8) ∅))).

Definition defaultAdapterForVenue (venue : string) : ExchangeAdapter :=
  let rules := list_to_map [("BTC-USDT", MkRule 2 6); ("ETH-USDT", MkRule 2 6); ("SOL-USDT", MkRule 3 4)] in
  match NewStaticExchangeAdapter venue (MkRule 8 8) rules with
  | inl _ => defaultAdapter
  | inr a => staticAdapter a
  end.

(** [AdapterRegistry]; a nil adapter is [None]. *)
Definition NewAdapterRegistry (adapters : list (option ExchangeAdapter)) : gmap string ExchangeAdapter :=
  foldl (λ out adapter, match adapter with None => out | Some a => <[adapterVenue a := a]> out end) ∅ adapters.

Definition Resolve (r : option (gmap string ExchangeAdapter)) (venue : string) : ExchangeAdapter :=
  match NewVenue venue with
  | inl _ => defaultAdapter
  | inr v =>
      match r with
      | Some adapters => match adapters !! v with Some a => a | None => defaultAdapterForVenue v end
      | None => defaultAdapterForVenue v
      end
  end.

(** ** canonicalizer.go *)

(** [if adapter == nil { adapter = defaultAdapterForVenue("UNKNOWN") }] *)
Definition adapterOr (adapter : option ExchangeAdapter) : ExchangeAdapter := default (defaultAdapterForVenue "UNKNOWN") adapter.

Definition NormalizeTrade (adapter : option ExchangeAdapter) (symbol : string) (t : Trade) (fallbackTS : Z) : Problem + Trade :=
  let adapter := adapterOr adapter in
  let rule := Precision adapter symbol in
  match NormalizeAdapterSide adapter (tr_Side t) with
  | inl p => inl p
  | inr side =>
      let out := MkTrade (NormalizePrice rule (tr_Price t)) (NormalizeSize rule (tr_Size t)) side (TrimSpace (tr_TradeID t))
                   (NormalizeTimestamp adapter (tr_Timestamp t) fallbackTS) in
      match validateTrade out with
      | Some p => inl p
      | None => inr out
      end
  end.

Definition normalizeLevelsWithRule (levels : list Level) (rule : PrecisionRule) : list Level :=
  (λ lvl, MkLevel (NormalizePrice rule (lvl_Price lvl)) (NormalizeSize rule (lvl_Size lvl))) <$> levels.

Section normalize.
Context {SS : StableSort}.

(** The ids of a snapshot delta stand in for each other. *)
Definition fillSnapshotIDs (d : BookDelta) : BookDelta :=
  if IsSnapshot d then
    let d := if FirstID d =? 0 then d <| FirstID := FinalID d |> else d in
    if FinalID d =? 0 then d <| FinalID := FirstID d |> else d
  else d.

Definition NormalizeBookDelta (adapter : option ExchangeAdapter) (symbol : string) (d : BookDelta) (fallbackTS : Z) : Problem + BookDelta :=
  let adapter := adapterOr adapter in
  let rule := Precision adapter symbol in
  match NormalizeBookOrdering (normalizeLevelsWithRule (delta_Bids d) rule) (normalizeLevelsWithRule (delta_Asks d) rule) true with
  | inl p => inl p
  | inr (nb, na) =>
      let out := fillSnapshotIDs (MkDelta nb na (FirstID d) (FinalID d) (PrevFinal d)
                   (NormalizeTimestamp adapter (delta_Timestamp d) fallbackTS) (IsSnapshot d)) in
      match validateDelta out with
      | Some p => inl p
      | None => inr out
      end
  end.

Definition NormalizeSnapshot (adapter : option ExchangeAdapter) (symbol : string) (s : BookSnapshot) (fallbackTS : Z) : Problem + BookSnapshot :=
  let adapter := adapterOr adapter in
  let rule := Precision adapter symbol in
  match NormalizeBookOrdering (normalizeLevelsWithRule (snap_Bids s) rule) (normalizeLevelsWithRule (snap_Asks s) rule) false with
  | inl p => inl p
  | inr (nb, na) =>
      let out := MkSnapshot nb na (NormalizeTimestamp adapter (snap_Timestamp s) fallbackTS) in
      match validateSnapshot out with
      | Some p => inl p
      | None => inr out
      end
  end.
End normalize.

Definition ChannelFromEventType (eventType : string) : string :=
  let t := ToLower (TrimSpace eventType) in
  if str_eqb t "marketdata.trade" then ChannelTrade
  else if str_eqb t "marketdata.bookdelta" then ChannelBookDelta
  else if str_eqb t "marketdata.booksnapshot" then ChannelBookSnapshot
  else if str_eqb t "marketdata.markprice" then ChannelMarkPrice
  else if str_eqb t "marketdata.liquidation" then ChannelLiquidation
  else if str_eqb t "aggregation.candle" then ChannelCandle
  else if str_eqb t "aggregation.stats" then ChannelStats
  else if one_of t ["evidence.microstructure_evidence"; "evidence.regime_evidence"; "liquidity.evidence";
                    "insights.microstructure_evidence"; "insights.regime_evidence"] then ChannelEvidence
  else if one_of t ["signal.event"; "signal.composite"] then ChannelSignal
  else "".
End adapter.

(** ** reconstruction.go *)

Record Book := MkBook { bids : list Level; asks : list Level }.

Definition NewBook : Book := MkBook [] [].

(** One pass of the search: [lo], [hi], and the index found. *)
Definition findBody (levels : list Level) (target : float64) (desc : bool) (s : nat * nat * option nat)
    : option (nat * nat * option nat) :=
  let '(lo, hi, res) := s in
  match res with
  | Some _ => None
  | None =>
      if decide (lo < hi)%nat then
        let mid := Nat.div2 (lo + hi) in
        let cur := default f0 (lvl_Price <$> levels !! mid) in
        if feqb cur target then Some (lo, hi, Some mid)
        else if desc then if fltb cur target then Some (lo, mid, None) else Some (S mid, hi, None)
        else if fgtb cur target then Some (lo, mid, None) else Some (S mid, hi, None)
      else None
  end.

(** The index of the level with this price, or the one it would be inserted at. *)
Definition findLevel (levels : list Level) (price : float64) (desc : bool) : nat * bool :=
  match loop (findBody levels price desc) (S (S (length levels))) (0%nat, length levels, None) with
  | Some (_, _, Some mid) => (mid, true)
  | Some (lo, _, None) => (lo, false)
  | None => (0%nat, false)
  end.

Definition applyLevel (levels : list Level) (update : Level) (desc : bool) : list Level :=
  match levels with
  | [] => if feqb (lvl_Size update) f0 then [] else [update]
  | _ =>
      let '(idx, found) := findLevel levels (lvl_Price update) desc in
      if feqb (lvl_Size update) f0 then
        if negb found then levels else take idx levels ++ drop (S idx) levels
      else if found then <[idx := update]> levels
      else take idx levels ++ update :: drop idx levels
  end.

Section book.
Context {SS : StableSort}.

Definition ApplySnapshot (snapshot : BookSnapshot) : Meth Book Problem unit := λ b,
  match NormalizeBookOrdering (snap_Bids snapshot) (snap_Asks snapshot) false with
  | inl p => (b, inl p)
  | inr (nb, na) => (MkBook nb na, inr tt)
  end.

Definition BookApplyDelta (delta : BookDelta) : Meth Book Problem unit := λ b,
  match NormalizeBookOrdering (delta_Bids delta) (delta_Asks delta) true with
  | inl p => (b, inl p)
  | inr (nb, na) =>
      (MkBook (foldl (λ l bid, applyLevel l bid true) (bids b) nb) (foldl (λ l ask, applyLevel l ask false) (asks b) na), inr tt)
  end.
End book.

Definition Snapshot (b : Book) (ts : Z) : BookSnapshot := MkSnapshot (bids b) (asks b) ts.

(** ** state.go *)

Record StreamState := MkStreamState { st_Book : Book; st_LastSeq : Z }.

Record stateEntry := MkStateEntry { ent_key : StreamKey; ent_value : StreamState; lastSeen : Z }.

Record StateStore := MkStateStore {
  maxEntries : Z;
  ttl : Z;
  entries : gmap string stateEntry;
  order : list string;
}.
#[export] Instance StateStore_eta : Eta StateStore := λ r, MkStateStore (maxEntries r) (ttl r) (entries r) (order r).

Record StateStoreConfig := MkStateStoreConfig { cfg_MaxEntries : Z; cfg_TTL : Z }.

Definition NewStateStore (cfg : StateStoreConfig) : StateStore :=
  MkStateStore (if cfg_MaxEntries cfg <=? 0 then 10000 else cfg_MaxEntries cfg)
    (if cfg_TTL cfg <=? 0 then 60 * 60 * 1000000000 else cfg_TTL cfg) ∅ [].



(** The loop of [evictExpiredLocked] over [order]. *)
Fixpoint dropExpired (ttl now : Z) (entries : gmap string stateEntry) (order : list string)
    : gmap string stateEntry * list string :=
  match order with
  | [] => (entries, [])
  | k :: rest =>
      match entries !! k with
      | None => dropExpired ttl now entries rest
      | Some entry =>
          if time_sub now (lastSeen entry) <=? ttl then (entries, order)
          else dropExpired ttl now (delete k entries) rest
      end
  end.
Definition evictExpiredLocked (now : Z) (s : StateStore) : StateStore :=
  if (size (entries s) =? 0)%nat then s else
  let '(es, ord) := dropExpired (ttl s) now (entries s) (order s) in
  s <| entries := es |> <| order := ord |>.

Fixpoint dropOverflow (maxEntries : Z) (entries : gmap string stateEntry) (order : list string)
    : gmap string stateEntry * list string :=
  if Z.of_nat (size entries) <=? maxEntries then (entries, order)
  else
    match order with
    | [] => (entries, [])
    | k :: rest => dropOverflow maxEntries (delete k entries) rest
    end.
Definition evictCapacityLocked (s : StateStore) : StateStore :=
  let '(es, ord) := dropOverflow (maxEntries s) (entries s) (order s) in
  s <| entries := es |> <| order := ord |>.

Definition putLocked (key : StreamKey) (entry : stateEntry) (s : StateStore) : StateStore :=
  let k := keyString key in
  let s := match entries s !! k with None => s <| order ::= λ o, o ++ [k] |> | Some _ => s end in
  evictCapacityLocked (s <| entries ::= <[k := entry]> |>).

Definition Entries (now : Z) (s : StateStore) : StateStore * Z :=
  let s := evictExpiredLocked now s in (s, Z.of_nat (size (entries s))).

Definition outOfOrder (key : StreamKey) (seq last : Z) : Problem :=
  Newf OutOfOrder "seq %d must be > last seq %d for stream %s" [AnyInt seq; AnyInt last; AnyStr (keyString key)].

Section store.
Context {SS : StableSort}.

Definition UpsertSnapshot (key : StreamKey) (seq : Z) (snapshot : BookSnapshot) (now : Z) : Meth StateStore Problem unit := λ s,
  let s := evictExpiredLocked now s in
  let stale := match entries s !! keyString key with
               | Some entry => if seq <=? st_LastSeq (ent_value entry) then Some (outOfOrder key seq (st_LastSeq (ent_value entry))) else None
               | None => None
               end in
  match stale with
  | Some p => (s, inl p)
  | None =>
      match ApplySnapshot snapshot NewBook with
      | (_, inl p) => (s, inl p)
      | (book, inr _) => (putLocked key (MkStateEntry key (MkStreamState book seq) now) s, inr tt)
      end
  end.

Definition StoreApplyDelta (key : StreamKey) (seq : Z) (delta : BookDelta) (snapshotTS now : Z) : Meth StateStore Problem BookSnapshot := λ s,
  let s := evictExpiredLocked now s in
  match entries s !! keyString key with
  | None => (s, inl (Newf NotFound "missing stream state for %s" [AnyStr (keyString key)]))
  | Some entry =>
      if seq <=? st_LastSeq (ent_value entry) then (s, inl (outOfOrder key seq (st_LastSeq (ent_value entry))))
      else
        match BookApplyDelta delta (st_Book (ent_value entry)) with
        | (_, inl p) => (s, inl p)
        | (book, inr _) =>
            (s <| entries ::= <[keyString key := MkStateEntry (ent_key entry) (MkStreamState book seq) now]> |>,
             inr (Snapshot book snapshotTS))
        end
  end.
End store.

(** ** events.go: signal events *)

Definition SignalScopeStream : string := "stream".
Definition SignalScopeMarket : string := "market".
Definition SignalExplainMaxFragments : nat := 4.
Definition SignalExplainMaxLength : nat := 120.
Definition SignalCorrelationIDsMax : nat := 8.
Definition SignalCorrelationIDMaxSize : nat := 64.

Record SignalFeature := MkFeature { feat_Key : string; feat_Value : float64 }.
Record SignalInputSeqRange := MkSeqRange { rng_Venue : string; rng_Symbol : string; SeqStart : Z; SeqEnd : Z }.

Record SignalEvent := MkSignal {
  sig_Type : string;
  sig_TsServer : Z;
  sig_Scope : string;
  sig_Venue : string;
  sig_Symbol : string;
  sig_Severity : string;
  sig_Confidence : float64;
  sig_Features : list SignalFeature;
  sig_Explanation : string;
  sig_Explain : list string;
  SignalID : string;
  RuleID : string;
  RuleVersion : string;
  sig_InputWatermark : list SignalInputSeqRange;
  CorrelationID : string;
  CorrelationIDs : list string;
}.

Definition SignalScopeFromProtoValue (v : Z) : string :=
  if v =? 1 then SignalScopeStream else if v =? 2 then SignalScopeMarket else "".
Definition ProtoValue (s : string) : Z :=
  if str_eqb s SignalScopeStream then 1 else if str_eqb s SignalScopeMarket then 2 else 0.

Section signal.
Context {GR : GoRuntime}.

Definition compactNonEmptyStrings (l : list string) : list string :=
  filter (λ v, v ≠ "") (TrimSpace <$> l).

Definition normalizeBoundedStrings (l : list string) (maxItems maxLen : nat) : list string :=
  if (maxItems =? 0)%nat || (maxLen =? 0)%nat then [] else
  (λ v, if (maxLen <? String.length v)%nat then TrimSpace (String.substring 0 maxLen v) else v)
    <$> take maxItems (compactNonEmptyStrings l).

Definition NormalizeSignalExplainFragments (l : list string) : list string :=
  normalizeBoundedStrings l SignalExplainMaxFragments SignalExplainMaxLength.
Definition NormalizeSignalCorrelationIDs (l : list string) : list string :=
  normalizeBoundedStrings l SignalCorrelationIDsMax SignalCorrelationIDMaxSize.

Definition isSignalSeverity (severity : string) : bool :=
  one_of (ToLower (TrimSpace severity)) ["low"; "medium"; "high"; "critical"].

Fixpoint duplicateIn (seen : gset string) (l : list string) : bool :=
  match l with
  | [] => false
  | x :: rest => if decide (x ∈ seen) then true else duplicateIn ({[x]} ∪ seen) rest
  end.
Definition hasDuplicateStrings (l : list string) : bool := if (length l <=? 1)%nat then false else duplicateIn ∅ l.

Definition blank (s : string) : bool := str_eqb (TrimSpace s) "".
Definition invalid (msg : string) : option Problem := Some (New ValidationFailed msg).

(** The loop over the features; [prev] is the key before. *)
Fixpoint checkFeatures (prev : option string) (l : list SignalFeature) : option Problem :=
  match l with
  | [] => None
  | f :: rest =>
      if blank (feat_Key f) then invalid "signal feature key must not be empty"
      else if negb (isFinite (feat_Value f)) then invalid "signal feature values must be finite"
      else if match prev with Some k => negb (str_ltb k (feat_Key f)) | None => false end
      then invalid "signal features must be sorted and unique by key"
      else checkFeatures (Some (feat_Key f)) rest
  end.

Fixpoint checkWatermarks (prev : option string) (l : list SignalInputSeqRange) : option Problem :=
  match l with
  | [] => None
  | w :: rest =>
      let k := rng_Venue w +:+ "|" +:+ rng_Symbol w in
      if blank (rng_Venue w) || blank (rng_Symbol w) then invalid "signal input_watermark venue/symbol must not be empty"
      else if (SeqStart w <=? 0) || (SeqEnd w <=? 0) || (SeqEnd w <? SeqStart w) then invalid "signal input_watermark seq range is invalid"
      else if match prev with Some p => negb (str_ltb p k) | None => false end
      then invalid "signal input_watermark must be sorted and unique by venue/symbol"
      else checkWatermarks (Some k) rest
  end.

Definition checkScope (s : SignalEvent) : option Problem :=
  if str_eqb (sig_Scope s) SignalScopeStream then
    if blank (sig_Venue s) then invalid "signal venue must not be empty for stream scope"
    else if blank (sig_Symbol s) then invalid "signal symbol must not be empty for stream scope"
    else None
  else if str_eqb (sig_Scope s) SignalScopeMarket then
    if negb (blank (sig_Venue s)) || negb (blank (sig_Symbol s)) then invalid "market scope signal must not set venue/symbol"
    else None
  else invalid "signal scope must be stream or market".

Definition tooLong (max : nat) (s : string) : bool := (max <? String.length s)%nat.

Definition validateSignal (s : SignalEvent) : option Problem :=
  let explain := NormalizeSignalExplainFragments (sig_Explain s) in
  let correlationIDs := NormalizeSignalCorrelationIDs (CorrelationIDs s) in
  firstProblem [
    if blank (sig_Type s) then invalid "signal type must not be empty" else None;
    err_of (NewServerTS (sig_TsServer s));
    checkScope s;
    if negb (isSignalSeverity (sig_Severity s)) then invalid "signal severity must be one of low|medium|high|critical" else None;
    if negb (isFinite (sig_Confidence s)) || fltb (sig_Confidence s) f0 || fgtb (sig_Confidence s) f1
    then invalid "signal confidence must be in [0,1]" else None;
    if (length (sig_Features s) =? 0)%nat then invalid "signal features must not be empty" else None;
    checkFeatures None (sig_Features s);
    if (length explain =? 0)%nat && blank (sig_Explanation s) then invalid "signal explanation must not be empty" else None;
    if (SignalExplainMaxFragments <? length explain)%nat then invalid "signal explain must be bounded to max fragments" else None;
    if existsb (tooLong SignalExplainMaxLength) explain then invalid "signal explain fragment length exceeds limit" else None;
    if blank (SignalID s) then invalid "signal signal_id must not be empty" else None;
    if blank (RuleID s) then invalid "signal rule_id must not be empty" else None;
    if blank (RuleVersion s) then invalid "signal rule_version must not be empty" else None;
    if (length (sig_InputWatermark s) =? 0)%nat then invalid "signal input_watermark must not be empty" else None;
    checkWatermarks None (sig_InputWatermark s);
    if blank (CorrelationID s) && (length correlationIDs =? 0)%nat then invalid "signal correlation_id must not be empty" else None;
    if tooLong SignalCorrelationIDMaxSize (TrimSpace (CorrelationID s)) then invalid "signal correlation_id exceeds max length" else None;
    if (SignalCorrelationIDsMax <? length correlationIDs)%nat then invalid "signal correlation_ids must be bounded" else None;
    if existsb (tooLong SignalCorrelationIDMaxSize) correlationIDs then invalid "signal correlation_ids item exceeds max length" else None;
    if hasDuplicateStrings correlationIDs then invalid "signal correlation_ids must be unique" else None].
End signal.
