(* ===== verification/MarketModelSpec.v ===== *)
(** * MarketModelSpec: what the market model promises

    The binary search ends and finds the place of a price, so that a side of a book
    kept as a sorted slice is the map from prices to sizes that the tree-based book
    of the aggregation context also implements; the store of books keeps at most its
    capacity of well-formed books with increasing sequence numbers; and the places
    where the package falls short of its purpose. *)

From S2P Require Import Prelude GoRuntime Shared Loops OrderBook OrderBookSpec MarketModel.

Local Open Scope string_scope.
Local Open Scope list_scope.
Local Open Scope Z_scope.

(** ** Prices and sizes *)

Lemma NewPrice_ok p : (∃ q, NewPrice p = inr q) ↔ validPrice p = true.
Proof. unfold NewPrice, validPrice. destruct p as [[]|[]| |[] ??]; cbn; naive_solver. Qed.

(** What a delta may name, and what a book may hold. *)
Definition updateLevel (l : Level) : Prop := validPrice (lvl_Price l) = true ∧ validQty (lvl_Size l) = true.
Definition bookLevel (l : Level) : Prop := updateLevel l ∧ feqb (lvl_Size l) f0 = false.

Lemma NewSize_ok s strict :
  (∃ q, NewSize s (negb strict) = inr q) ↔ validQty s = true ∧ (strict = true → feqb s f0 = false).
Proof. unfold NewSize, validQty. destruct strict, s as [[]|[]| |[] ??]; cbn; naive_solver. Qed.

Lemma levels_validate ls strict :
  MarketModel.validateLevels ls strict = None ↔ Forall (λ l, updateLevel l ∧ (strict = true → feqb (lvl_Size l) f0 = false)) ls.
Proof.
  induction ls as [|l ls IH]; cbn; [done|]. rewrite Forall_cons, <- IH. unfold updateLevel.
  pose proof (NewPrice_ok (lvl_Price l)) as HP. pose proof (NewSize_ok (lvl_Size l) strict) as HS.
  destruct (NewPrice (lvl_Price l)) as [p|q]; [|destruct (NewSize (lvl_Size l) (negb strict)) as [p|q']].
  - split; [done|]. intros [[[Hp _] _] _]. apply HP in Hp as [? [=]].
  - split; [done|]. intros [[[_ Hs] Hz] _]. destruct (proj2 HS) as [? [=]]. done.
  - split; [|by intros [_ ?]]. intros ->. split; [|done]. destruct (proj1 HS) as [? ?]; [by eexists|].
    split; [split; [apply HP; by eexists|done]|done].
Qed.

(** ** The order of a side *)

Section side.
Context (desc : bool).

(** [p] comes before [q]: bids descend, asks ascend. *)
Definition before (p q : float64) : bool := if desc then fltb q p else fltb p q.

Lemma before_price_trans p q r : before p q = true → before q r = true → before p r = true.
Proof. unfold before. destruct desc; eauto using fltb_trans. Qed.
Lemma before_irrefl p : before p p = false.
Proof. unfold before. destruct desc; apply fltb_irrefl. Qed.
Lemma before_price_total p q : validPrice p = true → validPrice q = true → before p q = true ∨ p = q ∨ before q p = true.
Proof. intros Hp Hq. unfold before. destruct (validPrice_total p q Hp Hq) as [?|[?|?]], desc; auto. Qed.
Lemma before_not_eq p q : validPrice p = true → before p q = true → feqb p q = false.
Proof.
  intros Hp Hb. apply not_true_iff_false. rewrite (validPrice_eqb p q Hp). intros <-. by rewrite before_irrefl in Hb.
Qed.
Lemma before_not_eq' p q : validPrice q = true → before p q = true → feqb p q = false.
Proof.
  intros Hq Hb. apply not_true_iff_false. intros He. assert (feqb q p = true) as Heq.
  { destruct (isNaN p) eqn:Hn; [by destruct p|]. rewrite feqb_key in He |- * by auto using validPrice_not_nan. done. }
  apply (validPrice_eqb q p Hq) in Heq as <-. by rewrite before_irrefl in Hb.
Qed.

Abbreviation precedes := (λ a b : Level, before (lvl_Price a) (lvl_Price b) = true).
Definition inOrder (l : list Level) : Prop := StronglySorted precedes l.

(** A side of a book: levels it may hold, in strict order. *)
Definition goodSide (l : list Level) : Prop := Forall bookLevel l ∧ inOrder l.

(** The size at a price. *)
Fixpoint sizeAt (l : list Level) (p : float64) : option float64 :=
  match l with
  | [] => None
  | x :: l' => if feqb (lvl_Price x) p then Some (lvl_Size x) else sizeAt l' p
  end.

Lemma inOrder_app l k : inOrder (l ++ k) ↔ inOrder l ∧ inOrder k ∧ ∀ x y, x ∈ l → y ∈ k → precedes x y.
Proof.
  unfold inOrder. induction l as [|a l IH]; cbn.
  { split; [|tauto]. intros Hk. split_and!; [constructor|done|]. by intros x y ?%elem_of_nil. }
  split.
  - intros H. inversion H as [|? ? Hl Hf]; subst. apply IH in Hl as (Hl & Hk & Hlk). rewrite Forall_app in Hf. destruct Hf as [Hf1 Hf2].
    split_and!; [by constructor|done|]. intros x y [->|Hx]%elem_of_cons Hy; [|by apply Hlk]. rewrite Forall_forall in Hf2. by apply Hf2.
  - intros (Hl & Hk & Hlk). inversion Hl as [|? ? Hl' Hf]; subst. constructor.
    + apply IH. split_and!; [done..|]. intros x y Hx Hy. apply Hlk; [by right|done].
    + apply Forall_app. split; [done|]. apply Forall_forall. intros y Hy. apply Hlk; [by left|done].
Qed.

(** ** findLevel *)

Section find.
Context (l : list Level) (Hl : Forall (λ x, validPrice (lvl_Price x) = true) l) (Hs : inOrder l).
Context (target : float64) (Ht : validPrice target = true).

Definition findInv (s : nat * nat * option nat) : Prop :=
  (s.1.1 ≤ s.1.2 ≤ length l)%nat ∧
  (∀ i x, l !! i = Some x → (i < s.1.1)%nat → before (lvl_Price x) target = true) ∧
  (∀ i x, l !! i = Some x → (s.1.2 ≤ i)%nat → before target (lvl_Price x) = true) ∧
  (∀ m, s.2 = Some m → ∃ x, l !! m = Some x ∧ lvl_Price x = target).
Definition findMeasure (s : nat * nat * option nat) : nat := s.1.2 - s.1.1 + match s.2 with None => 1 | Some _ => 0 end.

Lemma inOrder_lookup i j x y : l !! i = Some x → l !! j = Some y → (i < j)%nat → precedes x y.
Proof. exact (StronglySorted_lookup_lt (λ a b, precedes a b) l i j x y Hs). Qed.

Lemma findBody_step s s' : findInv s → findBody l target desc s = Some s' → findInv s' ∧ (findMeasure s' < findMeasure s)%nat.
Proof.
  destruct s as [[lo hi] [m|]]; [done|]. intros ([Hlh Hhi] & Hlo & Hup & _). cbn in Hlh, Hhi, Hlo, Hup. unfold findBody.
  destruct (decide (lo < hi)%nat) as [Hlt|]; [|done]. destruct (div2_between lo hi Hlt) as [Hm1 Hm2].
  set (mid := Nat.div2 (lo + hi)) in *. clearbody mid. destruct (lookup_lt_is_Some_2 l mid ltac:(lia)) as [x Hx].
  rewrite Hx. change (default f0 (lvl_Price <$> Some x)) with (lvl_Price x). rewrite Forall_lookup in Hl. pose proof (Hl mid x Hx) as Hvx. cbn in Hvx.
  destruct (feqb (lvl_Price x) target) eqn:Heq.
  { intros [= <-]. unfold findInv, findMeasure. cbn. split; [|lia]. split_and!; [lia..|done|done|].
    intros m [= <-]. exists x. split; [done|]. by apply validPrice_eqb. }
  assert (before target (lvl_Price x) = true ∨ before (lvl_Price x) target = true) as Hcase.
  { destruct (before_price_total (lvl_Price x) target Hvx Ht) as [?|[He|?]]; [by right| |by left]. by rewrite He, validPrice_refl in Heq. }
  assert (∀ s'', (if desc then if fltb (lvl_Price x) target then Some (lo, mid, None) else Some (S mid, hi, None)
    else if fgtb (lvl_Price x) target then Some (lo, mid, None) else Some (S mid, hi, None)) = Some s'' →
    s'' = (lo, mid, None) ∧ before target (lvl_Price x) = true ∨ s'' = (S mid, hi, @None nat) ∧ before (lvl_Price x) target = true) as Hdir.
  { intros s''. unfold before in *. destruct desc.
    - destruct (fltb (lvl_Price x) target) eqn:E; intros [= <-]; [by left|right]. split; [done|]. by destruct Hcase.
    - destruct (fltb target (lvl_Price x)) eqn:E; intros [= <-]; [by left|right]. split; [done|]. by destruct Hcase. }
  intros [[-> Hb]|[-> Hb]]%Hdir; unfold findInv, findMeasure; cbn; (split; [|lia]).
  - split_and!; [lia|lia|done| |done]. intros i y Hy Hi. destruct (decide (i = mid)) as [->|Hne]; [by simplify_eq|].
    eapply before_price_trans; [exact Hb|]. apply (inOrder_lookup mid i); [done..|lia].
  - split_and!; [lia|lia| |done|done]. intros i y Hy Hi. destruct (decide (i = mid)) as [->|Hne]; [by simplify_eq|].
    eapply before_price_trans; [|exact Hb]. apply (inOrder_lookup i mid); [done..|lia].
Qed.

(** The search ends within [length l + 1] passes; the slice splits at the index. *)
Lemma findLevel_spec :
  ∃ pre mid post, l = pre ++ mid ++ post ∧
    (∀ x, x ∈ pre → before (lvl_Price x) target = true) ∧ (∀ x, x ∈ post → before target (lvl_Price x) = true) ∧
    (findLevel l target desc = (length pre, true) ∧ (∃ x, mid = [x] ∧ lvl_Price x = target) ∨
     findLevel l target desc = (length pre, false) ∧ mid = []).
Proof.
  destruct (loop_variant (findBody l target desc) findInv findMeasure findBody_step (S (S (length l))) (0%nat, length l, None))
    as ([[lo hi] res] & Hloop & ([Hlh Hhi] & Hlo & Hup & Hres) & Hend).
  { unfold findInv. cbn. split_and!; [lia|lia|lia| |done]. intros i x Hx Hi. apply lookup_lt_Some in Hx. lia. }
  { unfold findMeasure. cbn. lia. }
  cbn in Hlh, Hhi, Hlo, Hup, Hres. unfold findLevel. rewrite Hloop. destruct res as [m|].
  - destruct (Hres m eq_refl) as (x & Hx & Hxt). apply lookup_lt_Some in Hx as Hm.
    exists (take m l), [x], (drop (S m) l). split; [by rewrite <- (take_drop_middle l m x Hx) at 1|]. split; [|split].
    + intros y [i [Hy Hi]%lookup_take_Some]%list_elem_of_lookup. rewrite <- Hxt. by apply (inOrder_lookup i m).
    + intros y [i Hy]%list_elem_of_lookup. rewrite lookup_drop in Hy. rewrite <- Hxt. apply (inOrder_lookup m (S m + i)); [done..|lia].
    + left. rewrite length_take, Nat.min_l by lia. split; [done|by exists x].
  - cbn in Hend. destruct (decide (lo < hi)%nat) as [Hlt|Hge].
    { exfalso. by repeat case_match. }
    assert (lo = hi) as <- by lia. exists (take lo l), [], (drop lo l). cbn. rewrite take_drop. split; [done|]. split; [|split].
    + intros y [i [Hy Hi]%lookup_take_Some]%list_elem_of_lookup. by apply (Hlo i).
    + intros y [i Hy]%list_elem_of_lookup. rewrite lookup_drop in Hy. apply (Hup (lo + i)%nat); [done|lia].
    + right. by rewrite length_take, Nat.min_l by lia.
Qed.
End find.

(** ** applyLevel *)

Definition zeroSize (u : Level) : bool := feqb (lvl_Size u) f0.
Definition kept (u : Level) : list Level := if zeroSize u then [] else [u].

Lemma applyLevel_splits l u :
  Forall (λ x, validPrice (lvl_Price x) = true) l → inOrder l → validPrice (lvl_Price u) = true →
  ∃ pre mid post, l = pre ++ mid ++ post ∧ applyLevel l u desc = pre ++ kept u ++ post ∧
    (∀ x, x ∈ pre → precedes x u) ∧ (∀ x, x ∈ post → precedes u x) ∧ (∀ x, x ∈ mid → lvl_Price x = lvl_Price u).
Proof.
  intros Hl Hs Hu. destruct (findLevel_spec l Hl Hs (lvl_Price u) Hu) as (pre & mid & post & Hsplit & Hpre & Hpost & Hfind).
  exists pre, mid, post. split; [done|]. split; [|split_and!; [done|done|]].
  2: { intros x Hx. destruct Hfind as [[_ (y & -> & Hy)]|[_ ->]]; [|by apply elem_of_nil in Hx]. by apply list_elem_of_singleton in Hx as ->. }
  unfold applyLevel, kept, zeroSize. destruct l as [|x0 l0] eqn:El.
  { symmetry in Hsplit. apply app_nil in Hsplit as [-> [-> ->]%app_nil]. by destruct (feqb (lvl_Size u) f0). }
  rewrite <- El in *. clear El x0 l0. destruct Hfind as [[-> (y & -> & Hy)]|[-> ->]]; cbn [negb]; rewrite Hsplit; cbn [app].
  - destruct (feqb (lvl_Size u) f0).
    + by rewrite take_app_length, drop_app_ge, Nat.sub_succ_l, Nat.sub_diag by lia.
    + rewrite insert_app_r_alt, Nat.sub_diag by lia. done.
  - destruct (feqb (lvl_Size u) f0); [done|]. by rewrite take_app_length, drop_app_length.
Qed.

Lemma sizeAt_app l k p : sizeAt (l ++ k) p = match sizeAt l p with Some s => Some s | None => sizeAt k p end.
Proof. induction l as [|x l IH]; cbn; [done|]. by destruct (feqb (lvl_Price x) p). Qed.
Lemma sizeAt_none l p : (∀ x, x ∈ l → feqb (lvl_Price x) p = false) → sizeAt l p = None.
Proof. induction l as [|x l IH]; intros H; cbn; [done|]. rewrite (H x) by left. apply IH. intros y Hy. apply H. by right. Qed.

(** One level: the price is set, or removed by the size zero; all others stay. *)
Lemma applyLevel_side l u :
  goodSide l → updateLevel u →
  goodSide (applyLevel l u desc) ∧
  ∀ p, sizeAt (applyLevel l u desc) p =
    if feqb (lvl_Price u) p then (if zeroSize u then None else Some (lvl_Size u)) else sizeAt l p.
Proof.
  intros [Hl Hs] [Hu Hq]. assert (Forall (λ x, validPrice (lvl_Price x) = true) l) as Hv.
  { eapply Forall_impl; [exact Hl|]. by intros x [[? _] _]. }
  destruct (applyLevel_splits l u Hv Hs Hu) as (pre & mid & post & Hsplit & -> & Hpre & Hpost & Hmid).
  rewrite Hsplit in Hl, Hs, Hv. rewrite !Forall_app in Hl, Hv. destruct Hl as (Hl1 & _ & Hl3), Hv as (Hv1 & _ & Hv3).
  apply inOrder_app in Hs as (Hs1 & (_ & Hs3 & _)%inOrder_app & Hs4). rewrite Forall_forall in Hv1, Hv3. split.
  - split.
    + rewrite !Forall_app. split_and!; [done| |done]. unfold kept. destruct (zeroSize u) eqn:Hz; [done|]. apply Forall_singleton. done.
    + apply inOrder_app. split_and!; [done| |].
      * apply inOrder_app. split_and!; [|done|].
        -- unfold kept. destruct (zeroSize u); repeat constructor.
        -- intros x y Hx Hy. unfold kept in Hx. destruct (zeroSize u); [by apply elem_of_nil in Hx|].
           apply list_elem_of_singleton in Hx as ->. by apply Hpost.
      * intros x y Hx [Hy|Hy]%elem_of_app.
        -- unfold kept in Hy. destruct (zeroSize u); [by apply elem_of_nil in Hy|]. apply list_elem_of_singleton in Hy as ->. by apply Hpre.
        -- apply Hs4; [done|]. apply elem_of_app. by right.
  - intros p. rewrite Hsplit, !sizeAt_app. destruct (feqb (lvl_Price u) p) eqn:Heq.
    + apply (validPrice_eqb _ _ Hu) in Heq as <-.
      rewrite (sizeAt_none pre) by (intros x Hx; apply before_not_eq; [by apply Hv1|by apply Hpre]).
      rewrite (sizeAt_none post); [|intros x Hx; apply not_true_iff_false; intros He].
      * unfold kept. destruct (zeroSize u); cbn; [done|]. by rewrite validPrice_refl.
      * apply (validPrice_eqb _ _ (Hv3 x Hx)) in He. specialize (Hpost x Hx). cbn in Hpost. by rewrite He, before_irrefl in Hpost.
    + assert (sizeAt (kept u) p = None) as -> by (unfold kept; destruct (zeroSize u); cbn; [done|by rewrite Heq]).
      rewrite (sizeAt_none mid) by (intros x Hx; by rewrite (Hmid x Hx)). done.
Qed.

(** The levels of a delta, none of them named twice. *)
Lemma applyLevels_side us l :
  goodSide l → Forall updateLevel us → inOrder us →
  let l' := foldl (λ l u, applyLevel l u desc) l us in
  goodSide l' ∧ ∀ p, sizeAt l' p = match sizeAt us p with
                                    | Some s => if feqb s f0 then None else Some s
                                    | None => sizeAt l p
                                    end.
Proof.
  revert l. induction us as [|u us IH]; intros l Hl Hus Ho; cbn; [done|].
  apply Forall_cons in Hus as [Hu Hus]. inversion Ho as [|? ? Ho' Hf]; subst.
  destruct (applyLevel_side l u Hl Hu) as [Hl1 Hat1]. destruct (IH _ Hl1 Hus Ho') as [Hl2 Hat2]. split; [done|].
  intros p. rewrite Hat2, Hat1. destruct (feqb (lvl_Price u) p) eqn:Heq; [|done]. destruct Hu as [Hu _].
  apply (validPrice_eqb _ _ Hu) in Heq as <-. rewrite sizeAt_none; [done|]. intros x Hx. rewrite Forall_forall in Hf, Hus.
  apply not_true_iff_false. intros He. apply (validPrice_eqb _ _ (proj1 (Hus x Hx))) in He.
  specialize (Hf x Hx). cbn in Hf. by rewrite He, before_irrefl in Hf.
Qed.
End side.

(** ** NormalizeBookOrdering *)

Section normal.
Context {SS : StableSort}.

(** In price order, and by falling size within a price. *)
Definition ranked (desc : bool) (a b : Level) : Prop :=
  before desc (lvl_Price a) (lvl_Price b) = true ∨ (lvl_Price a = lvl_Price b ∧ fleb (lvl_Size b) (lvl_Size a) = true).

Lemma fleb_trans a b c : fleb a b = true → fleb b c = true → fleb a c = true.
Proof.
  intros H1 H2. assert (isNaN a = false ∧ isNaN b = false ∧ isNaN c = false) as (Ha & Hb & Hc) by (destruct a, b, c; done).
  rewrite fleb_key in * by done. destruct (fkey a) as [[??]?], (fkey b) as [[??]?], (fkey c) as [[??]?]. cbn in *. lia.
Qed.

#[local] Instance ranked_trans desc : Transitive (ranked desc).
Proof.
  intros a b c [H1|[H1 H1']] [H2|[H2 H2']]; unfold ranked.
  - left. by eapply before_price_trans.
  - left. by rewrite <- H2.
  - left. by rewrite H1.
  - right. split; [congruence|by eapply fleb_trans].
Qed.

Lemma validQty_not_nan q : validQty q = true → isNaN q = false.
Proof. by destruct q. Qed.

(** The comparison of the sort, on levels with numbers in them. *)
Lemma levelLess_spec desc a b :
  updateLevel a → updateLevel b →
  levelLess desc a b = true ↔ before desc (lvl_Price a) (lvl_Price b) = true ∨
    (lvl_Price a = lvl_Price b ∧ fltb (lvl_Size b) (lvl_Size a) = true).
Proof.
  intros [Ha _] [Hb _]. unfold levelLess. destruct (feqb (lvl_Price a) (lvl_Price b)) eqn:Heq.
  - apply (validPrice_eqb _ _ Ha) in Heq as ->. rewrite before_irrefl. split; [by right|]. by intros [|[_ ?]].
  - assert (lvl_Price a ≠ lvl_Price b) as Hne by (intros He; by rewrite He, validPrice_refl in Heq).
    unfold before. destruct desc; (split; [by left|]); by intros [?|[? _]].
Qed.

Lemma levelLess_ranked desc a b : updateLevel a → updateLevel b → levelLess desc b a = false → ranked desc a b.
Proof.
  intros Ha Hb Hless. rewrite <- not_true_iff_false, levelLess_spec in Hless by done.
  destruct (before_price_total desc (lvl_Price a) (lvl_Price b)) as [?|[Heq|?]]; [apply Ha|apply Hb|by left| |].
  - right. split; [done|]. rewrite fleb_ltb by (apply validQty_not_nan; first [apply Ha|apply Hb]). apply negb_true_iff, not_true_iff_false.
    intros Hlt. apply Hless. by right.
  - destruct Hless. by left.
Qed.

Lemma levelLess_weak_order desc l : Forall updateLevel l → weak_order_on (levelLess desc) l.
Proof.
  intros Hl. rewrite Forall_forall in Hl. split.
  - intros x y Hx%Hl Hy%Hl. rewrite levelLess_spec by done. intros H. apply not_true_iff_false. rewrite levelLess_spec by done.
    intros H'. destruct H as [H|[H1 H2]], H' as [H'|[H1' H2']].
    + pose proof (before_price_trans _ _ _ _ H H') as Hc. by rewrite before_irrefl in Hc.
    + by rewrite H1', before_irrefl in H.
    + by rewrite H1, before_irrefl in H'.
    + by rewrite (fltb_asym _ _ H2) in H2'.
  - intros x y z Hx%Hl Hy%Hl Hz%Hl. rewrite !levelLess_spec by done. intros [H|[H1 H2]].
    + destruct (before_price_total desc (lvl_Price x) (lvl_Price z)) as [?|[Heq|Hzx]]; [apply Hx|apply Hz|by left; left| |].
      * right. left. by rewrite <- Heq.
      * right. left. by eapply before_price_trans.
    + destruct (before_price_total desc (lvl_Price x) (lvl_Price z)) as [?|[Heq|Hzx]]; [apply Hx|apply Hz|by left; left| |].
      * destruct (fltb_ntrans _ _ (lvl_Size z) (validQty_not_nan _ (proj2 Hz)) H2) as [?|?]; [right|left]; right; (split; [congruence|done]).
      * right. left. by rewrite <- H1.
Qed.

Lemma sortLevels_ranked desc l : Forall updateLevel l → StronglySorted (ranked desc) (sortLevels l desc).
Proof.
  intros Hl. apply Sorted_StronglySorted; [apply _|]. unfold sortLevels.
  pose proof (SliceStable_sorted (levelLess desc) l (levelLess_weak_order desc l Hl)) as Hs.
  assert (Forall updateLevel (SliceStable (levelLess desc) l)) as Hk by (by rewrite SliceStable_perm).
  induction Hs as [|a k Hs IH Hd]; constructor; apply Forall_cons in Hk as [Ha Hk]; [by apply IH|].
  destruct Hd as [|b k Hd]; constructor. apply levelLess_ranked; [done|by apply Forall_cons in Hk as [? _]|done].
Qed.

(** Collapsing keeps the first level of each price. *)
Lemma collapseAfter_spec desc prev l :
  Forall updateLevel (prev :: l) → StronglySorted (ranked desc) (prev :: l) →
  inOrder desc (prev :: collapseAfter prev l) ∧ (∀ x, x ∈ collapseAfter prev l → x ∈ l) ∧
  ∀ p, sizeAt (prev :: collapseAfter prev l) p = sizeAt (prev :: l) p.
Proof.
  revert prev. induction l as [|y l IH]; intros prev Hv Hs; cbn [collapseAfter].
  { split_and!; [repeat constructor|done|done]. }
  apply Forall_cons in Hv as [Hp Hv]. pose proof Hv as [Hy Hvl]%Forall_cons.
  inversion Hs as [|? ? Hs' Hf]; subst. inversion Hs' as [|? ? Hs'' Hf']; subst. apply Forall_cons in Hf as [Hpy Hf].
  destruct (feqb (lvl_Price prev) (lvl_Price y)) eqn:Heq.
  - apply (validPrice_eqb _ _ (proj1 Hp)) in Heq.
    destruct (IH prev) as (Ho & Hsub & Hat); [by apply Forall_cons|by constructor|]. split_and!; [done| |].
    + intros x Hx. right. by apply Hsub.
    + intros p. rewrite Hat. cbn. rewrite Heq. by destruct (feqb (lvl_Price y) p).
  - destruct Hpy as [Hb|[He _]]; [|by rewrite He, validPrice_refl in Heq by apply Hy].
    destruct (IH y Hv Hs') as (Ho & Hsub & Hat). split_and!.
    + constructor; [done|]. apply Forall_cons. split; [done|]. apply Forall_forall. intros x Hx. inversion Ho as [|? ? _ Hfo]; subst.
      rewrite Forall_forall in Hfo. eapply before_price_trans; [exact Hb|]. by apply Hfo.
    + intros x [->|Hx]%elem_of_cons; [by left|right]. by apply Hsub.
    + intros p. cbn in Hat |- *. by destruct (feqb (lvl_Price prev) p).
Qed.

Lemma sizeAt_elem l p s : sizeAt l p = Some s → ∃ x, x ∈ l ∧ feqb (lvl_Price x) p = true ∧ lvl_Size x = s.
Proof.
  induction l as [|y l IH]; cbn; [done|]. destruct (feqb (lvl_Price y) p) eqn:Heq.
  - intros [= <-]. exists y. split; [left|done].
  - intros (x & Hx & ?)%IH. exists x. split; [by right|done].
Qed.

(** The size a list of updates names for a price: the largest, if there is one. *)
Definition namedSize (us : list Level) (p : float64) (o : option float64) : Prop :=
  match o with
  | None => ∀ x, x ∈ us → lvl_Price x ≠ p
  | Some s => (∃ x, x ∈ us ∧ lvl_Price x = p ∧ lvl_Size x = s) ∧
              ∀ x, x ∈ us → lvl_Price x = p → fleb (lvl_Size x) s = true
  end.

Lemma sizeAt_named desc l p :
  Forall updateLevel l → StronglySorted (ranked desc) l → validPrice p = true → namedSize l p (sizeAt l p).
Proof.
  intros Hv Hs Hp. induction Hs as [|y l Hs IH Hf]; cbn; [by intros x ?%elem_of_nil|].
  apply Forall_cons in Hv as [Hy Hv]. specialize (IH Hv). destruct (feqb (lvl_Price y) p) eqn:Heq.
  - apply (validPrice_eqb _ _ (proj1 Hy)) in Heq as <-. cbn. split; [exists y; by split; [left|]|].
    intros x [->|Hx]%elem_of_cons He; [rewrite fleb_ltb, fltb_irrefl by (apply validQty_not_nan, Hy); done|].
    rewrite Forall_forall in Hf. destruct (Hf x Hx) as [Hb|[_ ?]]; [|done]. by rewrite He, before_irrefl in Hb.
  - assert (lvl_Price y ≠ p) as Hne by (intros <-; by rewrite validPrice_refl in Heq by apply Hy).
    destruct (sizeAt l p) as [s|]; cbn in IH |- *.
    + destruct IH as [(x & Hx & ?) Hmax]. split; [exists x; by split; [right|]|]. intros z [->|Hz]%elem_of_cons ?; [done|by apply Hmax].
    + intros x [->|Hx]%elem_of_cons; [done|by apply IH].
Qed.

Lemma normal_side desc us :
  Forall updateLevel us →
  let n := collapseByPrice (sortLevels us desc) in
  Forall updateLevel n ∧ inOrder desc n ∧ ∀ p, validPrice p = true → namedSize us p (sizeAt n p).
Proof.
  intros Hus. pose proof (sortLevels_ranked desc us Hus) as Hs. assert (sortLevels us desc ≡ₚ us) as Hperm by apply SliceStable_perm.
  assert (Forall updateLevel (sortLevels us desc)) as Hv by (by rewrite Hperm).
  assert (∀ p, validPrice p = true → namedSize us p (sizeAt (sortLevels us desc) p)) as Hnamed.
  { intros p Hp. pose proof (sizeAt_named desc _ p Hv Hs Hp) as Hn. destruct (sizeAt (sortLevels us desc) p) as [s|]; cbn in *.
    - destruct Hn as [(x & Hx & ?) Hmax]. rewrite Hperm in Hx. split; [by exists x|]. intros y Hy. apply Hmax. by rewrite Hperm.
    - intros x Hx. apply Hn. by rewrite Hperm. }
  unfold collapseByPrice. destruct (sortLevels us desc) as [|x l]; [by split_and!; [|constructor|]|].
  destruct (collapseAfter_spec desc x l Hv Hs) as (Ho & Hsub & Hat). split_and!; [|done|].
  - rewrite Forall_forall in Hv |- *. intros y [->|Hy]%elem_of_cons; [by apply Hv; left|]. apply Hv. right. by apply Hsub.
  - intros p Hp. rewrite Hat. by apply Hnamed.
Qed.
End normal.

(** ** Books *)

Definition goodBook (b : Book) : Prop := goodSide true (MarketModel.bids b) ∧ goodSide false (MarketModel.asks b).

(** What updates do to the size at a price. *)
Definition updatedTo (us : list Level) (p : float64) (old new : option float64) : Prop :=
  ∃ o, namedSize us p o ∧ new = match o with Some s => if feqb s f0 then None else Some s | None => old end.

Section book_claims.
Context {SS : StableSort}.

Lemma NormalizeBookOrdering_ok nb na delta :
  Forall updateLevel nb → Forall updateLevel na →
  (delta = false → Forall bookLevel nb ∧ Forall bookLevel na) →
  NormalizeBookOrdering nb na delta = inr (collapseByPrice (sortLevels nb true), collapseByPrice (sortLevels na false)).
Proof.
  intros Hb Ha Hd. unfold NormalizeBookOrdering.
  assert (∀ desc l, Forall updateLevel l → (delta = false → Forall bookLevel l) →
    MarketModel.validateLevels (collapseByPrice (sortLevels l desc)) (negb delta) = None) as Hval.
  { intros desc l Hl Hlb. apply levels_validate. apply Forall_forall. intros x Hx.
    destruct (normal_side desc l Hl) as (Hv & Ho & Hn). rewrite Forall_forall in Hv. split; [by apply Hv|].
    destruct delta; [done|]. intros _. specialize (Hlb eq_refl). rewrite Forall_forall in Hlb. apply Hlb.
    assert (∀ k, (∀ x, x ∈ collapseByPrice k → x ∈ k)) as Hsub.
    { intros k y. unfold collapseByPrice. destruct k as [|z k]; [done|]. intros [->|Hy]%elem_of_cons; [by left|right].
      revert z Hy. induction k as [|w k IH]; intros z; cbn; [done|]. destruct (feqb _ _); [intros; right; by eapply IH|].
      intros [->|Hy]%elem_of_cons; [by left|right; by eapply IH]. }
    apply Hsub in Hx. unfold sortLevels in Hx. by rewrite SliceStable_perm in Hx. }
  by rewrite (Hval true nb Hb (λ E, proj1 (Hd E))), (Hval false na Ha (λ E, proj2 (Hd E))).
Qed.

(** C22: A book kept as two sorted slices is two maps from prices to sizes. From a
    well-formed book, a delta of finite prices and sizes is accepted and leaves a
    well-formed book (strictly ordered sides, positive sizes); every price it names
    gets the largest size it names for it, or is removed if that size is zero, and
    every other price keeps its size. Binary search, insertion and removal in the
    slice are exactly the updates of the map. *)
Theorem book_delta_updates_price_map b d :
  goodBook b → Forall updateLevel (MarketModel.delta_Bids d) → Forall updateLevel (MarketModel.delta_Asks d) →
  ∃ b', BookApplyDelta d b = (b', inr tt) ∧ goodBook b' ∧
    ∀ p, validPrice p = true →
      updatedTo (MarketModel.delta_Bids d) p (sizeAt (MarketModel.bids b) p) (sizeAt (MarketModel.bids b') p) ∧
      updatedTo (MarketModel.delta_Asks d) p (sizeAt (MarketModel.asks b) p) (sizeAt (MarketModel.asks b') p).
Proof.
  intros [Hb Ha] Hdb Hda. unfold BookApplyDelta. rewrite NormalizeBookOrdering_ok by done.
  destruct (normal_side true _ Hdb) as (Hv1 & Ho1 & Hn1), (normal_side false _ Hda) as (Hv2 & Ho2 & Hn2).
  destruct (applyLevels_side true _ _ Hb Hv1 Ho1) as [Hg1 Hat1], (applyLevels_side false _ _ Ha Hv2 Ho2) as [Hg2 Hat2].
  eexists. split; [reflexivity|]. split; [by split|]. intros p Hp. split; eexists; (split; [by auto|]); [apply Hat1|apply Hat2].
Qed.

Lemma applyLevels_book b d :
  goodBook b → Forall updateLevel (MarketModel.delta_Bids d) → Forall updateLevel (MarketModel.delta_Asks d) →
  ∃ b', BookApplyDelta d b = (b', inr tt) ∧ goodBook b'.
Proof.
  intros [Hb Ha] Hdb Hda. unfold BookApplyDelta. rewrite NormalizeBookOrdering_ok by done.
  destruct (normal_side true _ Hdb) as (Hv1 & Ho1 & _), (normal_side false _ Hda) as (Hv2 & Ho2 & _).
  eexists. split; [reflexivity|]. split; by apply applyLevels_side.
Qed.

(** An accepted snapshot makes a well-formed book. *)
Lemma ApplySnapshot_good s b b' :
  Forall updateLevel (snap_Bids s) → Forall updateLevel (snap_Asks s) → ApplySnapshot s b = (b', inr tt) → goodBook b'.
Proof.
  intros Hb Ha. unfold ApplySnapshot, NormalizeBookOrdering.
  destruct (normal_side true _ Hb) as (_ & Ho1 & _), (normal_side false _ Ha) as (_ & Ho2 & _).
  destruct (MarketModel.validateLevels (collapseByPrice (sortLevels (snap_Bids s) true)) _) eqn:V1; [done|].
  destruct (MarketModel.validateLevels (collapseByPrice (sortLevels (snap_Asks s) false)) _) eqn:V2; [done|].
  intros [= <-]. apply levels_validate in V1, V2. split; (split; [|done]); (eapply Forall_impl; [eassumption|]);
    intros x [? Hz]; (split; [done|by apply Hz]).
Qed.
End book_claims.

Definition w_lvl (p s : Z) : Level := MkLevel (f_of_Z p) (f_of_Z s).
Definition w_book : Book := MkBook [w_lvl 101 1; w_lvl 100 2; w_lvl 98 3] [w_lvl 102 1].
Definition w_delta : BookDelta := MkDelta [w_lvl 100 5; w_lvl 99 1; w_lvl 100 0; w_lvl 101 0] [w_lvl 103 7] 1 2 0 1000 false.

(** The level at 100 is set and removed by one delta: it is set. *)
Lemma book_delta_updates_price_map_witness :
  BookApplyDelta (SS:=insertionSort) w_delta w_book =
    (MkBook [w_lvl 100 5; w_lvl 99 1; w_lvl 98 3] [w_lvl 102 1; w_lvl 103 7], inr tt) ∧
  ∃ b', BookApplyDelta (SS:=insertionSort) w_delta w_book = (b', inr tt) ∧ goodBook b'.
Proof.
  split; [vm_compute; reflexivity|].
  destruct (book_delta_updates_price_map (SS:=insertionSort) w_book w_delta) as (b' & H & Hg & _).
  - split; (split; [repeat apply Forall_cons_2; try apply Forall_nil_2; done|repeat constructor]).
  - repeat apply Forall_cons_2; try apply Forall_nil_2; done.
  - repeat apply Forall_cons_2; try apply Forall_nil_2; done.
  - by exists b'.
Defined.

(** ** The store of books *)

(** The eviction order lists the keys of the entries, each once. *)
Definition tracks (es : gmap string stateEntry) (ord : list string) : Prop :=
  NoDup ord ∧ ∀ k, k ∈ ord ↔ is_Some (es !! k).

Lemma tracks_tail es k ord : tracks es (k :: ord) → tracks (delete k es) ord ∧ is_Some (es !! k).
Proof.
  intros [[Hk Hnd]%NoDup_cons Hin]. split; [|apply Hin; left]. split; [done|]. intros k'. specialize (Hin k').
  rewrite elem_of_cons in Hin. destruct (decide (k' = k)) as [->|Hne].
  - rewrite lookup_delete_eq. split; [done|]. by intros [? [=]].
  - rewrite lookup_delete_ne by done. rewrite <- Hin. naive_solver.
Qed.

Lemma dropExpired_tracks t now es ord es' ord' :
  tracks es ord → dropExpired t now es ord = (es', ord') → tracks es' ord' ∧ es' ⊆ es.
Proof.
  revert es. induction ord as [|k ord IH]; intros es Htr; cbn; [intros [= <- <-]; done|].
  destruct (tracks_tail es k ord Htr) as [Htl [e He]]. rewrite He.
  destruct (_ <=? _); [intros [= <- <-]; done|]. intros Hd. destruct (IH _ Htl Hd) as [? Hsub]. split; [done|].
  etrans; [exact Hsub|apply delete_subseteq].
Qed.

Lemma tracks_size es ord : tracks es ord → size es = length ord.
Proof.
  intros [Hnd Hin]. rewrite <- size_dom. rewrite <- (size_list_to_set (C := gset string) ord Hnd). f_equal. apply set_eq. intros k.
  by rewrite elem_of_dom, elem_of_list_to_set, Hin.
Qed.

(** The newest key survives the eviction of the oldest ones. *)
Lemma dropOverflow_tracks max es ord es' ord' :
  0 ≤ max → tracks es ord → dropOverflow max es ord = (es', ord') →
  tracks es' ord' ∧ es' ⊆ es ∧ Z.of_nat (size es') ≤ max ∧
  ∀ k, 1 ≤ max → last ord = Some k → es' !! k = es !! k.
Proof.
  intros Hmax. revert es. induction ord as [|k ord IH]; intros es Htr; cbn [dropOverflow].
  - pose proof (tracks_size es [] Htr) as Hsz. cbn in Hsz.
    destruct (_ <=? _); intros [= <- <-]; split_and!; (done || lia).
  - destruct (Z.leb_spec (Z.of_nat (size es)) max) as [Hle|Hgt].
    { intros [= <- <-]. by split_and!. }
    intros Hd. destruct (tracks_tail es k ord Htr) as [Htl [e He]]. destruct (IH _ Htl Hd) as (? & Hsub & Hsz & Hlast).
    split_and!; [done|etrans; [exact Hsub|apply delete_subseteq]|done|].
    intros k' H1 Hk'. destruct ord as [|k2 ord].
    + pose proof (tracks_size es [k] Htr) as Hs1. cbn in Hs1. lia.
    + rewrite last_cons_cons in Hk'. rewrite (Hlast k' H1 Hk'). apply lookup_delete_ne. intros ->.
      destruct Htr as [[Hnin _]%NoDup_cons _]. apply Hnin. by apply last_Some_elem_of.
Qed.

(** The invariant of the store. *)
Record storeOK (s : StateStore) : Prop := {
  ok_capacity : 1 ≤ maxEntries s;
  ok_tracks : tracks (entries s) (order s);
  ok_size : Z.of_nat (size (entries s)) ≤ maxEntries s;
  ok_books : ∀ k e, entries s !! k = Some e → goodBook (st_Book (ent_value e));
}.

Lemma storeOK_shrink s es ord :
  storeOK s → tracks es ord → es ⊆ entries s → storeOK (s <| entries := es |> <| order := ord |>).
Proof.
  intros [Hc Ht Hs Hb] Htr Hsub. split; cbn; [done|done| |].
  - pose proof (subseteq_size (dom es) (dom (entries s)) (subseteq_dom _ _ Hsub)) as Hle. rewrite !size_dom in Hle. lia.
  - intros k e He. eapply Hb, lookup_weaken; done.
Qed.

Lemma evictExpired_ok now s : storeOK s → storeOK (evictExpiredLocked now s) ∧ entries (evictExpiredLocked now s) ⊆ entries s.
Proof.
  intros Hs. unfold evictExpiredLocked. destruct (_ =? _)%nat; [done|].
  destruct (dropExpired _ _ _ _) as [es ord] eqn:Hd. destruct (dropExpired_tracks _ _ _ _ _ _ (ok_tracks _ Hs) Hd) as [? ?].
  split; [by apply storeOK_shrink|done].
Qed.

Lemma putLocked_ok key entry s :
  storeOK s → goodBook (st_Book (ent_value entry)) →
  let s' := putLocked key entry s in
  storeOK s' ∧ entries s' !! keyString key = Some entry ∧
  ∀ k e, k ≠ keyString key → entries s' !! k = Some e → entries s !! k = Some e.
Proof.
  intros [Hc Ht Hs Hb] Hg. unfold putLocked, evictCapacityLocked. cbn zeta. set (k := keyString key).
  set (s1 := match entries s !! k with None => _ | Some _ => s end).
  assert (entries s1 = entries s ∧ maxEntries s1 = maxEntries s) as [He1 Hm1] by (unfold s1; by destruct (entries s !! k)).
  assert (tracks (<[k := entry]> (entries s)) (order s1)) as Ht1.
  { destruct Ht as [Hnd Hin]. unfold s1. destruct (entries s !! k) as [e|] eqn:Hk; cbn.
    - split; [done|]. intros k'. rewrite Hin. destruct (decide (k' = k)) as [->|]; [rewrite lookup_insert_eq, Hk|rewrite lookup_insert_ne by done]; naive_solver.
    - split; [apply NoDup_app; split_and!; [done| |apply NoDup_singleton]|].
      + intros k' Hk' ->%list_elem_of_singleton. apply Hin in Hk' as [? ?]. congruence.
      + intros k'. rewrite elem_of_app, list_elem_of_singleton, Hin. destruct (decide (k' = k)) as [->|Hne].
        * rewrite lookup_insert_eq. naive_solver.
        * rewrite lookup_insert_ne by done. naive_solver. }
  cbn. rewrite He1, Hm1. destruct (dropOverflow _ _ _) as [es ord] eqn:Hd.
  destruct (dropOverflow_tracks (maxEntries s) _ _ _ _ ltac:(lia) Ht1 Hd) as (Htr & Hsub & Hsz & Hlast). cbn.
  assert (es !! k = Some entry) as Hkeep.
  { destruct (entries s !! k) as [e|] eqn:Hk.
    - assert (size (<[k := entry]> (entries s)) = size (entries s)) as Hsame by (rewrite map_size_insert, Hk; done).
      unfold dropOverflow in Hd. destruct (order s1); rewrite Hsame, (proj2 (Z.leb_le _ _)) in Hd by done; injection Hd as <- <-; apply lookup_insert_eq.
    - rewrite (Hlast k Hc); [apply lookup_insert_eq|]. unfold s1. cbn. by rewrite last_snoc. }
  split; [|split; [done|]].
  - split; cbn; [lia|done|lia|]. intros k' e He. eapply lookup_weaken in He; [|exact Hsub].
    apply lookup_insert_Some in He as [[_ <-]|[_ He]]; [done|by eapply Hb].
  - intros k' e Hne He. eapply lookup_weaken in He; [|exact Hsub]. by rewrite lookup_insert_ne in He by done.
Qed.

Section store_claims.
Context {SS : StableSort}.

Inductive storeOp :=
| OpUpsert (key : StreamKey) (seq : Z) (snapshot : BookSnapshot) (now : Z)
| OpDelta (key : StreamKey) (seq : Z) (delta : BookDelta) (snapshotTS now : Z)
| OpEntries (now : Z).

(** The operations carry numbers, not NaN: what the normalisation lets through. *)
Definition finiteOp (op : storeOp) : Prop :=
  match op with
  | OpUpsert _ _ s _ => Forall updateLevel (snap_Bids s) ∧ Forall updateLevel (snap_Asks s)
  | OpDelta _ _ d _ _ => Forall updateLevel (MarketModel.delta_Bids d) ∧ Forall updateLevel (MarketModel.delta_Asks d)
  | OpEntries _ => True
  end.

(** The state after an operation, and the key and number it has stored. *)
Definition storeStep (op : storeOp) (s : StateStore) : StateStore * option (string * Z) :=
  match op with
  | OpUpsert key seq snap now =>
      match UpsertSnapshot key seq snap now s with (s', inr _) => (s', Some (keyString key, seq)) | (s', inl _) => (s', None) end
  | OpDelta key seq d ts now =>
      match StoreApplyDelta key seq d ts now s with (s', inr _) => (s', Some (keyString key, seq)) | (s', inl _) => (s', None) end
  | OpEntries now => ((Entries now s).1, None)
  end.

Definition opTime (op : storeOp) : Z := match op with OpUpsert _ _ _ now | OpDelta _ _ _ _ now | OpEntries now => now end.

(** What one step does to the entries: each is one that had not expired, or the one
    just stored, whose number is above that of the live entry it replaces. *)
Definition numbersRise (live s' : StateStore) (stored : option (string * Z)) : Prop :=
  (∀ k n, stored = Some (k, n) → ∃ e', entries s' !! k = Some e' ∧ st_LastSeq (ent_value e') = n) ∧
  ∀ k e', entries s' !! k = Some e' →
    entries live !! k = Some e' ∨
    (stored = Some (k, st_LastSeq (ent_value e')) ∧
     ∀ e, entries live !! k = Some e → st_LastSeq (ent_value e) < st_LastSeq (ent_value e')).

Lemma numbersRise_none s : numbersRise s s None.
Proof. split; [done|]. intros k e' He. by left. Qed.

Lemma storeStep_ok op s :
  storeOK s → finiteOp op →
  storeOK (storeStep op s).1 ∧ numbersRise (evictExpiredLocked (opTime op) s) (storeStep op s).1 (storeStep op s).2.
Proof.
  intros Hs Hop. destruct (evictExpired_ok (opTime op) s Hs) as [Hl _]. destruct op as [key seq snap now|key seq d ts now|now]; cbn in Hl, Hop.
  - unfold storeStep, UpsertSnapshot. cbn [opTime]. set (live := evictExpiredLocked now s) in *. clearbody live.
    match goal with |- context [match ?x with Some _ => (live, inl _) | None => _ end] => destruct x as [p|] eqn:Hstale end;
      [by split; [|apply numbersRise_none]|].
    destruct (ApplySnapshot snap NewBook) as [book [p|[]]] eqn:Hap; [by split; [|apply numbersRise_none]|].
    pose proof (ApplySnapshot_good _ _ _ (proj1 Hop) (proj2 Hop) Hap) as Hg.
    destruct (putLocked_ok key (MkStateEntry key (MkStreamState book seq) now) live Hl Hg) as (Hok & Hk & Hold). cbn [fst snd].
    split; [done|]. split; [intros k n [= <- <-]; by eexists|]. intros k e' He'. destruct (decide (k = keyString key)) as [->|Hne].
    + right. rewrite Hk in He'. injection He' as <-. split; [done|]. intros e He. cbn. rewrite He in Hstale.
      destruct (Z.leb_spec seq (st_LastSeq (ent_value e))); [done|lia].
    + left. by eapply Hold.
  - unfold storeStep, StoreApplyDelta. cbn [opTime]. set (live := evictExpiredLocked now s) in *. clearbody live.
    destruct (entries live !! keyString key) as [e|] eqn:He; [|by split; [|apply numbersRise_none]].
    destruct (Z.leb_spec seq (st_LastSeq (ent_value e))) as [|Hlt]; [by split; [|apply numbersRise_none]|].
    destruct (applyLevels_book (st_Book (ent_value e)) d (ok_books _ Hl _ _ He) (proj1 Hop) (proj2 Hop)) as (b' & -> & Hg).
    cbn [fst snd]. destruct Hl as [Hc [Hnd Hin] Hsz Hb]. split.
    + split; cbn; [done| |by rewrite map_size_insert, He|].
      * split; [done|]. intros k. rewrite Hin. destruct (decide (k = keyString key)) as [->|]; [rewrite lookup_insert_eq, He|rewrite lookup_insert_ne by done]; naive_solver.
      * intros k e' [[_ <-]|[_ He']]%lookup_insert_Some; [done|by eapply Hb].
    + split; cbn.
      * intros k n [= <- <-]. rewrite lookup_insert_eq. by eexists.
      * intros k e' [[<- <-]|[_ He']]%lookup_insert_Some; [right|by left]. split; [done|]. intros e0 He0. rewrite He in He0. by injection He0 as <-.
  - unfold storeStep, Entries. cbn [fst snd]. by split; [|apply numbersRise_none].
Qed.

Fixpoint runStore (ops : list storeOp) (s : StateStore) : StateStore :=
  match ops with [] => s | op :: ops => runStore ops (storeStep op s).1 end.

Lemma runStore_ok ops s : storeOK s → Forall finiteOp ops → storeOK (runStore ops s).
Proof.
  revert s. induction ops as [|op ops IH]; intros s Hs Hops; [done|]. apply Forall_cons in Hops as [Hop Hops]. cbn.
  apply IH; [|done]. by apply storeStep_ok.
Qed.

Lemma NewStateStore_ok cfg : storeOK (NewStateStore cfg).
Proof.
  split; cbn.
  - destruct (Z.leb_spec (cfg_MaxEntries cfg) 0); lia.
  - split; [apply NoDup_nil_2|]. intros k. rewrite elem_of_nil, lookup_empty. split; [done|]. by intros [? [=]].
  - rewrite map_size_empty. destruct (Z.leb_spec (cfg_MaxEntries cfg) 0); lia.
  - by intros k e.
Qed.

(** The store of books keeps its promises over any sequence of snapshots, deltas
    and reads. It never holds more books than its capacity, the eviction order
    lists exactly the streams it holds, every book is well formed; and at each
    further step an entry is either untouched or was replaced by one with a larger
    sequence number, the one just stored. *)
Theorem state_store_stays_consistent cfg ops op :
  Forall finiteOp ops → finiteOp op →
  let s := runStore ops (NewStateStore cfg) in
  storeOK s ∧ storeOK (storeStep op s).1 ∧
  numbersRise (evictExpiredLocked (opTime op) s) (storeStep op s).1 (storeStep op s).2.
Proof.
  intros Hops Hop s. assert (storeOK s) as Hs by (apply runStore_ok; [apply NewStateStore_ok|done]).
  split; [done|]. by apply storeStep_ok.
Qed.
End store_claims.

(** ** Expiry *)

Definition w_key1 : StreamKey := MkStreamKey "BINANCE" "BTCUSDT" "book_delta".
Definition w_key2 : StreamKey := MkStreamKey "BINANCE" "ETHUSDT" "book_delta".
Definition w_snap : BookSnapshot := MkSnapshot [w_lvl 100 1] [w_lvl 101 1] 1.
Definition w_update (p s : Z) : BookDelta := MkDelta [w_lvl p s] [] 1 1 0 1 false.
(** Two streams seen at time 0; the older one again at 90; the time to live is 100. *)
Definition w_storeOps : list storeOp :=
  [OpUpsert w_key1 1 w_snap 0; OpUpsert w_key2 1 w_snap 0; OpDelta w_key1 2 (w_update 99 4) 1 90].
Definition w_store : StateStore := runStore (SS:=insertionSort) w_storeOps (NewStateStore (MkStateStoreConfig 2 100)).

Section expiry.
Context {SS : StableSort}.

(** The eviction stops at the first stream that is still fresh. *)
Lemma evictExpired_fresh_head s k1 rest e1 now :
  order s = k1 :: rest → entries s !! k1 = Some e1 → time_sub now (lastSeen e1) ≤ ttl s → evictExpiredLocked now s = s.
Proof.
  intros Ho He Hf. unfold evictExpiredLocked. destruct (_ =? _)%nat; [done|]. rewrite Ho. cbn [dropExpired].
  rewrite He, (proj2 (Z.leb_le _ _) Hf). rewrite <- Ho. by destruct s.
Qed.

(** A stream outlives its time to live behind a fresh one. Expired entries are
    evicted in the order in which the streams were first stored, and the eviction
    stops at the first entry that is still fresh: behind it, a delta for a stream
    that has been silent for longer than the time to live is applied to the stale
    book and answered, where the code means to report that the stream has no state. *)
Theorem expired_stream_behind_fresh_head_is_served s k1 rest e1 key e2 seq d ts now :
  order s = k1 :: rest → entries s !! k1 = Some e1 → time_sub now (lastSeen e1) ≤ ttl s →
  entries s !! keyString key = Some e2 → ttl s < time_sub now (lastSeen e2) →
  goodBook (st_Book (ent_value e2)) → st_LastSeq (ent_value e2) < seq →
  Forall updateLevel (MarketModel.delta_Bids d) → Forall updateLevel (MarketModel.delta_Asks d) →
  ∃ s' snap, StoreApplyDelta key seq d ts now s = (s', inr snap) ∧
    ∀ p, validPrice p = true →
      updatedTo (MarketModel.delta_Bids d) p (sizeAt (MarketModel.bids (st_Book (ent_value e2))) p) (sizeAt (snap_Bids snap) p).
Proof.
  intros Ho He1 Hf He2 _ Hg Hseq Hdb Hda. unfold StoreApplyDelta. rewrite (evictExpired_fresh_head s k1 rest e1 now Ho He1 Hf), He2.
  rewrite (proj2 (Z.leb_gt _ _) Hseq). unfold BookApplyDelta. rewrite NormalizeBookOrdering_ok by done.
  eexists _, _. split; [reflexivity|]. intros p Hp.
  destruct (normal_side true _ Hdb) as (Hv1 & Ho1 & Hn1), (applyLevels_side true _ _ (proj1 Hg) Hv1 Ho1) as [_ Hat].
  eexists. split; [by apply Hn1|apply Hat].
Qed.
End expiry.

Lemma w_finite : Forall finiteOp w_storeOps.
Proof. repeat apply Forall_cons_2; try apply Forall_nil_2; (split; repeat apply Forall_cons_2; try apply Forall_nil_2; done). Qed.

Lemma w_update_finite : Forall updateLevel (MarketModel.delta_Bids (w_update 98 5)).
Proof. by apply Forall_singleton. Qed.

Lemma state_store_stays_consistent_witness :
  size (entries w_store) = 2%nat ∧ storeOK w_store.
Proof.
  split; [vm_compute; reflexivity|].
  destruct (state_store_stays_consistent (SS:=insertionSort) (MkStateStoreConfig 2 100) w_storeOps (OpEntries 0) w_finite I) as [H _].
  exact H.
Defined.

(** At time 120 the second stream has been silent for 120. *)
Lemma expired_stream_behind_fresh_head_is_served_witness :
  let r := StoreApplyDelta (SS:=insertionSort) w_key2 2 (w_update 98 5) 7 120 w_store in
  r.2 = inr (MkSnapshot [w_lvl 100 1; w_lvl 98 5] [w_lvl 101 1] 7) ∧ ∃ s' snap, r = (s', inr snap).
Proof.
  intros r. split; [vm_compute; reflexivity|].
  assert (storeOK w_store) as Hok by (apply runStore_ok; [apply NewStateStore_ok|apply w_finite]).
  assert (lastSeen <$> entries w_store !! keyString w_key1 = Some 90) as H1 by (vm_compute; reflexivity).
  assert (lastSeen <$> entries w_store !! keyString w_key2 = Some 0) as H2 by (vm_compute; reflexivity).
  assert ((λ e, st_LastSeq (ent_value e)) <$> entries w_store !! keyString w_key2 = Some 1) as H3 by (vm_compute; reflexivity).
  apply fmap_Some in H1 as (e1 & He1 & H1). apply fmap_Some in H2 as (e2 & He2 & H2). rewrite He2 in H3. injection H3 as H3.
  destruct (expired_stream_behind_fresh_head_is_served (SS:=insertionSort) w_store (keyString w_key1) [keyString w_key2] e1 w_key2 e2 2
    (w_update 98 5) 7 120) as (s' & snap & Hr & _).
  - vm_compute. reflexivity.
  - exact He1.
  - rewrite <- H1. vm_compute. discriminate.
  - exact He2.
  - rewrite <- H2. vm_compute. reflexivity.
  - exact (ok_books _ Hok _ _ He2).
  - rewrite H3. lia.
  - exact w_update_finite.
  - apply Forall_nil_2.
  - exists s', snap. exact Hr.
Defined.

(** ** Stream keys *)

Section keys.
Context {GR : GoRuntime}.

Lemma upper_upper c : upper_ascii (upper_ascii c) = upper_ascii c.
Proof. by destruct c as [[] [] [] [] [] [] [] []]. Qed.
Lemma upper_space c : is_space (upper_ascii c) = is_space c.
Proof. by destruct c as [[] [] [] [] [] [] [] []]. Qed.
Lemma upper_lt128 c : ascii_lt128 (upper_ascii c) = ascii_lt128 c.
Proof. by destruct c as [[] [] [] [] [] [] [] []]. Qed.

Lemma str_map_forallb f p s : (∀ c, p (f c) = p c) → str_forallb p (str_map f s) = str_forallb p s.
Proof. intros H. induction s as [|c s IH]; cbn; [done|]. by rewrite H, IH. Qed.
Lemma str_map_fixed f s : (∀ c, f (f c) = f c) → str_map f (str_map f s) = str_map f s.
Proof. intros H. induction s as [|c s IH]; cbn; [done|]. by rewrite H, IH. Qed.
Lemma trim_upper s : trim_ascii (str_map upper_ascii s) = str_map upper_ascii (trim_ascii s).
Proof.
  unfold trim_ascii. assert (∀ t, trim_left (str_map upper_ascii t) = str_map upper_ascii (trim_left t)) as Hl.
  { intros t. induction t as [|c t IH]; cbn; [done|]. rewrite upper_space. by destruct (is_space c). }
  assert (∀ t, trim_right (str_map upper_ascii t) = str_map upper_ascii (trim_right t)) as Hr.
  { intros t. induction t as [|c t IH]; cbn; [done|]. rewrite IH, upper_space. destruct (trim_right t); cbn; [|done]. by destruct (is_space c). }
  by rewrite Hl, Hr.
Qed.
Lemma trim_no_space s : str_forallb (λ c, negb (is_space c)) s = true → trim_ascii s = s.
Proof.
  intros H. unfold trim_ascii. assert (trim_left s = s) as ->.
  { destruct s as [|c s]; [done|]. cbn in *. by apply andb_true_iff in H as [->%negb_true_iff _]. }
  induction s as [|c s IH]; [done|]. cbn in *. apply andb_true_iff in H as [Hc%negb_true_iff Hs]. rewrite (IH Hs), Hc. by destruct s.
Qed.
Lemma str_filter_forallb q p s : str_forallb p s = true → str_forallb p (str_filter q s) = true.
Proof. induction s as [|c s IH]; cbn; [done|]. intros [Hc Hs]%andb_true_iff. destruct (q c); cbn; [by rewrite Hc, IH|by apply IH]. Qed.
Lemma str_filter_fixed q s : str_filter q (str_filter q s) = str_filter q s.
Proof. induction s as [|c s IH]; cbn; [done|]. destruct (q c) eqn:Hq; cbn; [by rewrite Hq, IH|done]. Qed.
Lemma str_map_filter_upper q s : str_map upper_ascii (str_filter q (str_map upper_ascii s)) = str_filter q (str_map upper_ascii s).
Proof. induction s as [|c s IH]; cbn; [done|]. destruct (q (upper_ascii c)); cbn; [by rewrite upper_upper, IH|done]. Qed.

Lemma CanonicalVenue_fixed v : is_ascii v = true → CanonicalVenue (CanonicalVenue v) = CanonicalVenue v.
Proof.
  intros Hv. unfold CanonicalVenue, ToUpper, TrimSpace. rewrite Hv, (is_ascii_trim v Hv).
  assert (is_ascii (str_map upper_ascii (trim_ascii v)) = true) as Ha.
  { unfold is_ascii. rewrite str_map_forallb by apply upper_lt128. by apply is_ascii_trim. }
  rewrite Ha, trim_upper, trim_ascii_idem, Ha. apply str_map_fixed, upper_upper.
Qed.

Lemma CanonicalInstrument_fixed s :
  is_ascii s = true → str_forallb (λ c, negb (is_space c)) (trim_ascii s) = true →
  CanonicalInstrument (CanonicalInstrument s) = CanonicalInstrument s.
Proof.
  intros Hs Hsp. unfold CanonicalInstrument, ToUpper, TrimSpace. rewrite Hs, (is_ascii_trim s Hs).
  set (q := λ c, negb (is_separator c)). set (t := str_filter q (str_map upper_ascii (trim_ascii s))).
  assert (is_ascii t = true) as Ha.
  { apply str_filter_forallb. rewrite str_map_forallb by apply upper_lt128. by apply is_ascii_trim. }
  assert (str_forallb (λ c, negb (is_space c)) t = true) as Ht.
  { apply str_filter_forallb. rewrite str_map_forallb; [done|]. intros c. by rewrite upper_space. }
  rewrite Ha, (trim_no_space t Ht), Ha. unfold t. rewrite str_map_filter_upper. apply str_filter_fixed.
Qed.

(** Stream keys are canonical. A key built from raw names (no blanks inside the
    symbol) is a fixed point of the constructor: building a key from its fields
    gives the same key, so that two spellings of a venue or a symbol share one
    stream. The channel of the key is one of the nine channels up to case and
    surrounding blanks, and is kept as it was spelled. *)
Theorem stream_key_is_canonical venue symbol channel k :
  is_ascii venue = true → is_ascii symbol = true → str_forallb (λ c, negb (is_space c)) (trim_ascii symbol) = true →
  NewStreamKey venue symbol channel = inr k →
  NewStreamKey (key_Venue k) (MarketModel.key_Symbol k) (key_Channel k) = inr k ∧
  key_Channel k = channel ∧ ∃ c, NewChannel channel = inr c ∧ c = ToLower (TrimSpace channel).
Proof.
  intros Hv Hs Hsp. unfold NewStreamKey, NewVenue, NewSymbol.
  destruct (str_eqb (TrimSpace (CanonicalVenue venue)) "") eqn:E1; [done|].
  destruct (str_eqb (TrimSpace (CanonicalInstrument symbol)) "") eqn:E2; [done|].
  destruct (NewChannel channel) as [p|c] eqn:E3; [done|]. intros [= <-]. cbn.
  rewrite CanonicalVenue_fixed, E1, CanonicalInstrument_fixed, E2, E3 by done. split_and!; [done..|].
  exists c. split; [done|]. unfold NewChannel in E3. destruct (one_of _ _); [|done]. by injection E3 as <-.
Qed.
End keys.

(** The two keys of this example differ, and name the same channel. *)
Lemma stream_key_is_canonical_witness :
  NewStreamKey (GR:=go_amd64) " binance " "btc-usdt" "Trade" = inr (MkStreamKey "BINANCE" "BTCUSDT" "Trade") ∧
  NewStreamKey (GR:=go_amd64) "BINANCE" "BTCUSDT" "trade" = inr (MkStreamKey "BINANCE" "BTCUSDT" "trade") ∧
  NewStreamKey (GR:=go_amd64) "BINANCE" "BTCUSDT" "Trade" = inr (MkStreamKey "BINANCE" "BTCUSDT" "Trade").
Proof.
  split; [vm_compute; reflexivity|]. split; [vm_compute; reflexivity|].
  apply (stream_key_is_canonical (GR:=go_amd64) " binance " "btc-usdt" "Trade" (MkStreamKey "BINANCE" "BTCUSDT" "Trade"));
    vm_compute; reflexivity.
Defined.

(** ** Signals *)

Section signals.
Context {GR : GoRuntime}.
(** [strings.TrimSpace] never lengthens a string. *)
Context (trim_shrinks : ∀ s, (String.length (trim_unicode s) ≤ String.length s)%nat).

Lemma trim_ascii_shrinks s : (String.length (trim_ascii s) ≤ String.length s)%nat.
Proof.
  unfold trim_ascii. transitivity (String.length (trim_left s)).
  - induction (trim_left s) as [|c t IH]; cbn; [lia|]. destruct (trim_right t); cbn in *; [destruct (is_space c); cbn; lia|lia].
  - induction s as [|c s IH]; cbn; [lia|]. destruct (is_space c); cbn; lia.
Qed.
Lemma TrimSpace_shrinks s : (String.length (TrimSpace s) ≤ String.length s)%nat.
Proof. unfold TrimSpace. destruct (is_ascii s); [apply trim_ascii_shrinks|apply trim_shrinks]. Qed.
Lemma length_substring n s : (String.length (String.substring 0 n s) ≤ n)%nat.
Proof. revert s. induction n as [|n IH]; intros [|c s]; cbn; try lia. specialize (IH s). lia. Qed.

Lemma normalizeBounded_bounds l maxItems maxLen :
  (length (normalizeBoundedStrings l maxItems maxLen) ≤ maxItems)%nat ∧
  existsb (tooLong maxLen) (normalizeBoundedStrings l maxItems maxLen) = false.
Proof.
  unfold normalizeBoundedStrings. destruct (_ || _); [cbn; split; [lia|done]|]. split.
  - rewrite length_fmap, length_take. lia.
  - apply not_true_iff_false. intros (x & Hx & Hlong)%existsb_exists. apply list_elem_of_In, list_elem_of_fmap in Hx as (v & -> & _).
    unfold tooLong in Hlong. apply Nat.ltb_lt in Hlong. destruct (Nat.ltb_spec maxLen (String.length v)) as [Hl|Hl]; [|lia].
    pose proof (TrimSpace_shrinks (String.substring 0 maxLen v)). pose proof (length_substring maxLen v). lia.
Qed.

Lemma normalizeBounded_prefix l extra maxItems maxLen :
  (maxItems ≤ length (compactNonEmptyStrings l))%nat →
  normalizeBoundedStrings (l ++ extra) maxItems maxLen = normalizeBoundedStrings l maxItems maxLen.
Proof.
  intros Hl. unfold normalizeBoundedStrings. destruct (_ || _); [done|]. f_equal.
  unfold compactNonEmptyStrings in *. rewrite fmap_app, filter_app. by apply take_app_le.
Qed.

(** The text of a signal is cut, never rejected. Whatever fragments and
    correlation ids a signal event carries, the bounds that [Validate] checks hold
    of what it checks them on, because it normalises first: those checks cannot
    fail, and once four fragments and eight ids are there, any number of further
    ones, of any length, makes no difference to the verdict. *)
Theorem signal_text_is_cut_not_rejected (s : SignalEvent) moreText moreIDs :
  let explain := NormalizeSignalExplainFragments (sig_Explain s) in
  let ids := NormalizeSignalCorrelationIDs (CorrelationIDs s) in
  ((length explain ≤ SignalExplainMaxFragments)%nat ∧ existsb (tooLong SignalExplainMaxLength) explain = false ∧
   (length ids ≤ SignalCorrelationIDsMax)%nat ∧ existsb (tooLong SignalCorrelationIDMaxSize) ids = false) ∧
  ((SignalExplainMaxFragments ≤ length (compactNonEmptyStrings (sig_Explain s)))%nat →
   (SignalCorrelationIDsMax ≤ length (compactNonEmptyStrings (CorrelationIDs s)))%nat →
   validateSignal (MkSignal (sig_Type s) (sig_TsServer s) (sig_Scope s) (sig_Venue s) (sig_Symbol s) (sig_Severity s)
     (sig_Confidence s) (sig_Features s) (sig_Explanation s) (sig_Explain s ++ moreText) (SignalID s) (RuleID s) (RuleVersion s)
     (sig_InputWatermark s) (CorrelationID s) (CorrelationIDs s ++ moreIDs)) = validateSignal s).
Proof.
  intros explain ids. split.
  - destruct (normalizeBounded_bounds (sig_Explain s) SignalExplainMaxFragments SignalExplainMaxLength).
    destruct (normalizeBounded_bounds (CorrelationIDs s) SignalCorrelationIDsMax SignalCorrelationIDMaxSize). done.
  - intros He Hi. unfold validateSignal, NormalizeSignalExplainFragments, NormalizeSignalCorrelationIDs. cbn [sig_Type sig_TsServer sig_Scope
      sig_Venue sig_Symbol sig_Severity sig_Confidence sig_Features sig_Explanation sig_Explain SignalID RuleID RuleVersion sig_InputWatermark
      CorrelationID CorrelationIDs]. by rewrite (normalizeBounded_prefix _ moreText), (normalizeBounded_prefix _ moreIDs).
Qed.
End signals.

Definition w_signal : SignalEvent :=
  MkSignal "signal" 1 "market" "" "" "high" f1 [MkFeature "a" f1] "" ["one"; "two"; "three"; "four"] "id" "rule" "v1"
    [MkSeqRange "BINANCE" "BTCUSDT" 1 2] "" ["1"; "2"; "3"; "4"; "5"; "6"; "7"; "8"].

Lemma signal_text_is_cut_not_rejected_witness :
  validateSignal (GR:=go_amd64) w_signal = None ∧
  validateSignal (GR:=go_amd64) (MkSignal "signal" 1 "market" "" "" "high" f1 [MkFeature "a" f1] ""
    (["one"; "two"; "three"; "four"] ++ ["five"]) "id" "rule" "v1" [MkSeqRange "BINANCE" "BTCUSDT" 1 2] ""
    (["1"; "2"; "3"; "4"; "5"; "6"; "7"; "8"] ++ ["9"])) = validateSignal (GR:=go_amd64) w_signal.
Proof.
  split; [vm_compute; reflexivity|].
  apply (signal_text_is_cut_not_rejected (GR:=go_amd64) trim_ascii_shrinks w_signal ["five"] ["9"]); vm_compute; lia.
Defined.
