(* ===== verification/BookProcessor.v ===== *)
(** * BookProcessor: internal/actors/aggregation/runtime/processor.go (book deltas),
      processor_crossvenue_strategy.go, processor_fusion_strategy.go

    The path of a book delta through the processor actor: the payload is decoded,
    the order book is updated ([UpdateOrderBook]), and the cross-venue top of book
    and the fused depth of the instrument ([Fusion]) are rebuilt and published.
    The actor handles one message at a time. Its tables are maps; the map of one
    instrument's venues is shared with the table and written through it. The
    payload codecs, the roll-out flags of the wire format and the publisher are
    ports ([ProcessorPorts]); the publisher answers from the history of calls,
    which the state keeps. Logs, metrics and the insights fed by the same delta,
    which have state of their own, are left out. *)

From S2P Require Import Prelude GoRuntime Shared MarketModel BoundedMap Cells Hash OrderBook UpdateOrderBook Fusion Envelope.

Local Open Scope string_scope.
Local Open Scope list_scope.
Local Open Scope Z_scope.

Definition typeXVenueBook : string := "aggregation.crossvenue_book".
Definition xVenueBookVersion : Z := 1.
Definition xVenueBookVenue : string := "crossvenue".
Definition typeFusedDepth : string := "aggregation.fused_depth".
Definition fusedDepthVenue : string := "GLOBAL".
Definition fusedDepthVersion : Z := 1.
Definition metaKeyMarketType : string := "instrument_market_type".
Definition reasonCodeDecodeFailed : string := "DECODE_FAILED".
Definition reasonCodeValidationFailed : string := "VALIDATION_FAILED".
Definition defaultXVenueStaleThreshold : Z := 30000000000.
Definition defaultXVenueMaxInstruments : Z := 2048.
Definition defaultXVenueMaxVenues : Z := 6.

(** [time.Duration.Milliseconds] *)
Definition Milliseconds (d : Z) : Z := Z.quot d 1000000.

(** The payload of a book delta is the market model's ([mddomain.BookDeltaV1]). *)
Abbreviation BookDeltaV1 := MarketModel.BookDelta.

Record ProcessorConfig := MkProcessorConfig {
  UpdateBookConfigured : bool;
  PublishConfigured : bool;
  CrossVenueEnabled : bool;
  StaleThreshold : Z;
  MaxInstruments : Z;
  MaxVenues : Z;
  FusionEnabled : bool;
  FusionStaleThreshold : Z;
  FusionCfgMode : FusionMode;
}.
#[export] Instance ProcessorConfig_eta : Eta ProcessorConfig := λ r,
  MkProcessorConfig (UpdateBookConfigured r) (PublishConfigured r) (CrossVenueEnabled r) (StaleThreshold r)
    (MaxInstruments r) (MaxVenues r) (FusionEnabled r) (FusionStaleThreshold r) (FusionCfgMode r).

(** The part of [ensureDefaults] about these fields. *)
Definition ensureDefaults (cfg : ProcessorConfig) : ProcessorConfig :=
  let cfg := if StaleThreshold cfg <=? 0 then cfg <| StaleThreshold := defaultXVenueStaleThreshold |> else cfg in
  let cfg := if MaxInstruments cfg <=? 0 then cfg <| MaxInstruments := defaultXVenueMaxInstruments |> else cfg in
  if MaxVenues cfg <=? 0 then cfg <| MaxVenues := defaultXVenueMaxVenues |> else cfg.

Abbreviation PublishCall := (Envelope * option Problem)%type.

Class ProcessorPorts := {
  (** [codec.DecodePayload]: a book delta, or the name of another type. *)
  DecodePayload : string → Z → string → list Z → Problem + (string + BookDeltaV1);
  EncodeCrossVenueBook : string → CrossVenueBookSnapshotV1 → Problem + list Z;
  EncodeFusedDepth : string → FusedDepthSnapshotV1 → Problem + list Z;
  ProtoRolloutEnabledForEventType : string → bool;
  PublishEnvelope : list PublishCall → Envelope → option Problem;
}.

Section processor.
Context {GR : GoRuntime} {BT : BTreeLib} {bookPorts : BookPorts} {ports : ProcessorPorts}.
Context (clk : nat → Z) (pclk : nat → Z) (cfg : ProcessorConfig).

(** [lastUpdateAt] is [lastOrderBookUpdateAt]; [preads] counts the readings of the
    actor's clock. *)
Record Processor := MkProcessor {
  updateBook : UpdateOrderBookFromEvents;
  activeOrderBooks : gset BookID;
  lastUpdateAt : gmap BookID Z;
  crossVenueBooks : gmap string (gmap string CrossVenueVenueBook);
  crossVenueInstrumentQ : list string;
  crossVenueSeq : gmap string Z;
  fusionSeq : gmap string Z;
  publishCalls : list PublishCall;
  preads : nat;
}.
#[export] Instance Processor_eta : Eta Processor := λ r,
  MkProcessor (updateBook r) (activeOrderBooks r) (lastUpdateAt r) (crossVenueBooks r) (crossVenueInstrumentQ r)
    (crossVenueSeq r) (fusionSeq r) (publishCalls r) (preads r).

Abbreviation Proc := (Meth Processor Problem).

Definition newProcessor (uc : UpdateOrderBookFromEvents) : Processor :=
  MkProcessor uc ∅ ∅ ∅ [] ∅ ∅ [] 0.

Definition onUpdateBook {A} (m : Meth UpdateOrderBookFromEvents Problem A) : Proc A := λ p,
  let '(uc, r) := m (updateBook p) in (p <| updateBook := uc |>, r).

(** [if prob := m(); prob != nil { log }] *)
Definition logged (m : Proc unit) : Proc unit := λ p, ((m p).1, inr tt).

Definition clockNow : Proc Z := λ p, (p <| preads ::= S |>, inr (pclk (preads p))).

Definition publish (env : Envelope) : Proc unit := λ p,
  let r := PublishEnvelope (publishCalls p) env in
  (p <| publishCalls ::= λ l, l ++ [(env, r)] |>, match r with Some prob => inl prob | None => inr tt end).

Definition resolveContentType (eventType : string) : string :=
  if ProtoRolloutEnabledForEventType eventType then ContentTypeProto else ContentTypeJSON.

Definition envelopeMarketType (env : Envelope) : string :=
  ToUpper (TrimSpace (default "" (Meta env !! metaKeyMarketType))).

Definition stateInstrumentKey (env : Envelope) : string :=
  let marketType := envelopeMarketType env in
  if str_eqb marketType "" then Instrument env else (Instrument env ++ ":" ++ marketType)%string.
Definition orderBookInstrumentKey : Envelope → string := stateInstrumentKey.

Definition orderBookSeq (env : Envelope) (delta : BookDeltaV1) : Z :=
  if 0 <? FinalID delta then FinalID delta else Seq env.

Definition toLevels (pls : list MarketModel.Level) : list Level := (λ pl, MkLevel (lvl_Price pl) (lvl_Size pl)) <$> pls.

Definition isBenignBookProblem (prob : Problem) : bool :=
  bool_decide (Code prob = OutOfOrder) || bool_decide (Code prob = IntegrityViolation).

(** ** processor_crossvenue_strategy.go *)

Definition deterministicCrossVenueEvictionCandidate (venues : gmap string CrossVenueVenueBook) : option string :=
  foldl (λ evict '(venue, _),
    match evict with
    | None => Some venue
    | Some e => if str_ltb e venue then Some venue else evict
    end) None (map_range venues).

Definition evictCrossVenueInstrumentIfNeeded (p : Processor) : Processor :=
  if MaxInstruments cfg <=? 0 then p
  else if Z.of_nat (size (crossVenueBooks p)) <? MaxInstruments cfg then p
  else match crossVenueInstrumentQ p with
       | [] => p
       | evicted :: rest =>
           p <| crossVenueInstrumentQ := rest |> <| crossVenueBooks ::= delete evicted |>
             <| crossVenueSeq ::= delete evicted |>
       end.

Definition upsertCrossVenueBook (instrumentKey : string) (book : CrossVenueVenueBook) (p : Processor) : Processor :=
  let p :=
    match crossVenueBooks p !! instrumentKey with
    | Some _ => p
    | None =>
        (evictCrossVenueInstrumentIfNeeded p) <| crossVenueBooks ::= <[instrumentKey := ∅]> |>
          <| crossVenueInstrumentQ ::= λ q, q ++ [instrumentKey] |>
    end in
  let venues := default ∅ (crossVenueBooks p !! instrumentKey) in
  let put venues := p <| crossVenueBooks ::= <[instrumentKey := <[vb_Venue book := book]> venues]> |> in
  if bool_decide (venues !! vb_Venue book = None) && (MaxVenues cfg <=? Z.of_nat (size venues)) then
    match deterministicCrossVenueEvictionCandidate venues with
    | Some evictKey => if str_ltb (vb_Venue book) evictKey then put (delete evictKey venues) else p
    | None => p
    end
  else put venues.

Definition collectCrossVenueBooks (instrumentKey : string) (p : Processor) : list CrossVenueVenueBook :=
  let venues := default ∅ (crossVenueBooks p !! instrumentKey) in
  let venueKeys := sort_slice str_ltb (map_range venues).*1 in
  omap (λ venue, venues !! venue) venueKeys.

(** The next number of a stream, one after an overflow. *)
Definition nextSeq (seqs : gmap string Z) (instrumentKey : string) : Z :=
  let next := add64 (default 0 (seqs !! instrumentKey)) 1 in
  if next <=? 0 then 1 else next.
Definition nextCrossVenueSeq (instrumentKey : string) : Proc Z := λ p,
  let next := nextSeq (crossVenueSeq p) instrumentKey in
  (p <| crossVenueSeq ::= <[instrumentKey := next]> |>, inr next).
Definition nextFusionSeq (instrumentKey : string) : Proc Z := λ p,
  let next := nextSeq (fusionSeq p) instrumentKey in
  (p <| fusionSeq ::= <[instrumentKey := next]> |>, inr next).

(** [if p := out.Validate(); p != nil { return p }; return out] *)
Definition validated (out : Envelope) : Problem + Envelope :=
  match Validate out with
  | (out', inr _) => inr out'
  | (_, inl prob) => inl prob
  end.

Definition marketTypeMeta (trigger : Envelope) (meta : gmap string string) : gmap string string :=
  let marketType := envelopeMarketType trigger in
  if str_eqb marketType "" then meta else <[metaKeyMarketType := marketType]> meta.

Definition buildCrossVenueBookEnvelope (trigger : Envelope) (instrumentKey : string) (seq : Z)
    (snapshot : CrossVenueBookSnapshotV1) : Problem + Envelope :=
  if seq <=? 0 then inl (New ValidationFailed "cross-venue seq must be > 0") else
  let ct := resolveContentType typeXVenueBook in
  match EncodeCrossVenueBook ct snapshot with
  | inl prob => inl prob
  | inr payload =>
      validated (MkEnvelope typeXVenueBook xVenueBookVersion xVenueBookVenue (StripMarketType instrumentKey)
        (TsExchange trigger) (cv_TsServerMs snapshot) seq
        (HashFieldsFast [typeXVenueBook; Itoa xVenueBookVersion; ToUpper (TrimSpace instrumentKey); Itoa seq;
                         TrimSpace (IdempotencyKey trigger)])
        ct (marketTypeMeta trigger ∅) payload "")
  end.

Definition bestOf (levels : list Level) : option Level := head levels.

Definition handleBookDeltaForCrossVenue (env : Envelope) (instrumentKey : string) : Proc unit :=
  if negb (CrossVenueEnabled cfg) || negb (PublishConfigured cfg) then mret tt else
  if negb (UpdateBookConfigured cfg) then mret tt else
  let nowMs := TsIngest env in
  fail_if (nowMs <=? 0) (New ValidationFailed "cross-venue merge requires ts_ingest > 0") ;;
  snapshot ← onUpdateBook (UpdateOrderBook.Snapshot clk (Venue env) instrumentKey);
  let venue := ToUpper (TrimSpace (Venue env)) in
  if str_eqb venue "" then mret tt else
  let venueBook := MkVenueBook venue nowMs (snap_Seq snapshot) (bestOf (snap_Bids snapshot)) (bestOf (snap_Asks snapshot)) in
  assign (upsertCrossVenueBook instrumentKey venueBook) ;;
  p ← recv;
  merged ← try_ (Merge (StripMarketType instrumentKey) nowMs (collectCrossVenueBooks instrumentKey p)
                   (Milliseconds (StaleThreshold cfg)));
  seq ← nextCrossVenueSeq instrumentKey;
  outEnv ← try_ (buildCrossVenueBookEnvelope env instrumentKey seq merged);
  publish outEnv.

(** ** processor_fusion_strategy.go *)

Definition fusionConfidenceStr (c : float64) : string :=
  if fleb (flit 9 10) c then "high" else if fleb (flit 1 2) c then "medium" else "low".

Definition buildFusedDepthEnvelope (trigger : Envelope) (instrumentKey : string) (seq : Z)
    (fused : FusedDepthSnapshotV1) : Problem + Envelope :=
  if seq <=? 0 then inl (New ValidationFailed "fused depth seq must be > 0") else
  let ct := resolveContentType typeFusedDepth in
  match EncodeFusedDepth ct fused with
  | inl prob => inl prob
  | inr payload =>
      let meta : gmap string string :=
        <["fusion_mode" := Mode fused]>
        (<["fusion_confidence" := fusionConfidenceStr (Confidence (fd_Meta fused))]>
        (<["source_venues" := Join (SourceVenues fused) ","]> ∅)) in
      validated (MkEnvelope typeFusedDepth fusedDepthVersion fusedDepthVenue (StripMarketType instrumentKey)
        (TsExchange trigger) (TsIngest trigger) seq
        (HashFieldsFast [typeFusedDepth; Itoa fusedDepthVersion; ToUpper (TrimSpace instrumentKey); Itoa seq;
                         TrimSpace (IdempotencyKey trigger)])
        ct (marketTypeMeta trigger meta) payload "")
  end.

(** The loop over the venues: a book that is not found is passed over. *)
Fixpoint collectInputs (instrumentKey : string) (vbs : list CrossVenueVenueBook) : Proc (list FusionDepthInput) :=
  match vbs with
  | [] => mret []
  | vb :: rest => λ p,
      match onUpdateBook (UpdateOrderBook.Snapshot clk (vb_Venue vb) instrumentKey) p with
      | (p, inl _) => collectInputs instrumentKey rest p
      | (p, inr snapshot) =>
          (inputs ← collectInputs instrumentKey rest;
           mret (MkFusionDepthInput (vb_Venue vb) (vb_TsIngest vb) (snap_Seq snapshot) (snap_Bids snapshot)
                   (snap_Asks snapshot) :: inputs)) p
      end
  end.

Definition handleBookDeltaForFusion (env : Envelope) (instrumentKey : string) : Proc unit :=
  if negb (FusionEnabled cfg) || negb (PublishConfigured cfg) then mret tt else
  if negb (UpdateBookConfigured cfg) then mret tt else
  let nowMs := TsIngest env in
  fail_if (nowMs <=? 0) (New ValidationFailed "fusion merge requires ts_ingest > 0") ;;
  p ← recv;
  let venueBooks := default ∅ (crossVenueBooks p !! instrumentKey) in
  if Z.of_nat (size venueBooks) <? 2 then mret tt else
  inputs ← collectInputs instrumentKey (map_range venueBooks).*2;
  if Z.of_nat (length inputs) <? 2 then mret tt else
  let mode := if str_eqb (FusionCfgMode cfg) "" then FusionMerge else FusionCfgMode cfg in
  let staleMs := Milliseconds (FusionStaleThreshold cfg) in
  let staleMs := if staleMs <=? 0 then Milliseconds defaultXVenueStaleThreshold else staleMs in
  fused ← try_ (FuseDepth (StripMarketType instrumentKey) nowMs inputs mode staleMs);
  if (Z.of_nat (length (fd_Bids fused)) =? 0) && (Z.of_nat (length (fd_Asks fused)) =? 0) then mret tt else
  seq ← nextFusionSeq instrumentKey;
  outEnv ← try_ (buildFusedDepthEnvelope env instrumentKey seq fused);
  publish outEnv.

(** ** processor.go, the route of a book delta *)

Definition markOrderBookActive (venue instrument : string) (p : Processor) : Processor :=
  p <| activeOrderBooks ::= λ s, {[MkBookID venue instrument]} ∪ s |>.

(** [res := p.cfg.Service.UpdateBook.Execute(...)], its problem as a value. *)
Definition executeUpdate (req : UpdateRequest) : Proc (option Problem) := λ p,
  let '(p, r) := onUpdateBook (Execute clk req) p in (p, inr (err_of r)).

Definition handleBookDelta (env : Envelope) : Proc unit :=
  fail_if (negb (UpdateBookConfigured cfg))
    (New ValidationFailed "aggregation UpdateBook use case is not configured") ;;
  match DecodePayload (Type_ env) (Version env) (ContentType env) (Payload env) with
  | inl prob => throw (with_detail prob "reason_code" (AnyStr reasonCodeDecodeFailed))
  | inr (inl typeName) =>
      throw (with_detail (with_detail
        (Newf ValidationFailed "decoded bookdelta payload type mismatch: got %T" [AnyStr typeName])
        "reason_code" (AnyStr reasonCodeValidationFailed)) "event_type" (AnyStr (Type_ env)))
  | inr (inr delta) =>
      let key := orderBookInstrumentKey env in
      failed ← executeUpdate (MkUpdateRequest (Venue env) key (orderBookSeq env delta) (toLevels (delta_Bids delta))
                                (toLevels (delta_Asks delta)) (IsSnapshot delta));
      match failed with
      | Some prob => if isBenignBookProblem prob then mret tt else throw prob
      | None =>
          assign (markOrderBookActive (Venue env) key) ;;
          t ← clockNow;
          assign (λ p, p <| lastUpdateAt ::= <[MkBookID (Venue env) key := t]> |>) ;;
          logged (handleBookDeltaForCrossVenue env key) ;;
          logged (handleBookDeltaForFusion env key)
      end
  end.

(** The messages the actor handles, one after the other. *)
Definition handleAll (envs : list Envelope) (p : Processor) : Processor :=
  foldl (λ p env, (handleBookDelta env p).1) p envs.
End processor.
