(* ===== verification/BookProcessorSpec.v ===== *)
(** * BookProcessorSpec: what a book delta does to the processor

    The effect of the two strategies on the actor's state, the bounds on its
    tables, the numbering of what it publishes, and where the numbering and the
    choice of venues fall short. *)

From S2P Require Import Prelude GoRuntime Shared MarketModel BoundedMap Cells Hash OrderBook UpdateOrderBook Fusion Envelope BookProcessor.

Local Open Scope string_scope.
Local Open Scope list_scope.
Local Open Scope Z_scope.

Section effects.
Context {GR : GoRuntime} {BT : BTreeLib} {bookPorts : BookPorts} {ports : ProcessorPorts}.
Context (clk : nat → Z) (pclk : nat → Z) (cfg : ProcessorConfig).

Abbreviation run_book uc p := (p <| updateBook := uc |>).

(** One envelope published, whatever the answer. *)
Definition sent (e : Envelope) (p : Processor) : Processor :=
  p <| publishCalls ::= λ l, l ++ [(e, PublishEnvelope (publishCalls p) e)] |>.
Definition numbered (key : string) (p : Processor) : Processor :=
  p <| crossVenueSeq ::= <[key := nextSeq (crossVenueSeq p) key]> |>.
Definition fusionNumbered (key : string) (p : Processor) : Processor :=
  p <| fusionSeq ::= <[key := nextSeq (fusionSeq p) key]> |>.

(** The ways the cross-venue strategy can end: before the table, after it, with a
    number taken and nothing published, or published. *)
Inductive crossVenueEnds (env : Envelope) (key : string) (p : Processor) : Processor → Prop :=
| cv_early uc : crossVenueEnds env key p (run_book uc p)
| cv_merge_failed uc book :
    crossVenueEnds env key p (upsertCrossVenueBook cfg key book (run_book uc p))
| cv_unpublished uc book :
    crossVenueEnds env key p (numbered key (upsertCrossVenueBook cfg key book (run_book uc p)))
| cv_published uc book snap e :
    let p1 := upsertCrossVenueBook cfg key book (run_book uc p) in
    buildCrossVenueBookEnvelope env key (nextSeq (crossVenueSeq p1) key) snap = inr e →
    crossVenueEnds env key p (sent e (numbered key p1)).

Lemma crossVenue_ends env key p p' r :
  handleBookDeltaForCrossVenue clk cfg env key p = (p', r) → crossVenueEnds env key p p'.
Proof.
  assert (H0 : crossVenueEnds env key p p) by (pose proof (cv_early env key p (updateBook p)) as H; by destruct p).
  unfold handleBookDeltaForCrossVenue. destruct (_ || _); [by intros [= <- _]|].
  destruct (negb _); [by intros [= <- _]|]. unfold_meth.
  destruct (TsIngest env <=? 0); [by intros [= <- _]|].
  unfold onUpdateBook. destruct (UpdateOrderBook.Snapshot clk (Venue env) key (updateBook p)) as [uc [prob|snapshot]];
    [intros [= <- _]; apply cv_early|].
  destruct (str_eqb _ _); [intros [= <- _]; apply cv_early|].
  match goal with |- context [upsertCrossVenueBook cfg key ?b ?q] => set (book := b) end.
  destruct (Merge _ _ _ _) as [prob|merged]; [intros [= <- _]; apply cv_merge_failed|].
  unfold nextCrossVenueSeq. cbv zeta.
  match goal with |- context [buildCrossVenueBookEnvelope env key ?n merged] =>
    destruct (buildCrossVenueBookEnvelope env key n merged) as [prob|e] eqn:Hb end.
  - intros [= <- _]. apply (cv_unpublished env key p uc book).
  - unfold publish. intros [= <- _]. by apply (cv_published env key p uc book merged e).
Qed.

Lemma run_book_id p : run_book (updateBook p) p = p.
Proof. by destruct p. Qed.

Inductive fusionEnds (env : Envelope) (key : string) (p : Processor) : Processor → Prop :=
| fd_early uc : fusionEnds env key p (run_book uc p)
| fd_unpublished uc : fusionEnds env key p (fusionNumbered key (run_book uc p))
| fd_published uc fused e :
    buildFusedDepthEnvelope env key (nextSeq (fusionSeq p) key) fused = inr e →
    fusionEnds env key p (sent e (fusionNumbered key (run_book uc p))).

Lemma collectInputs_run key vbs p :
  ∃ uc inputs, collectInputs clk key vbs p = (run_book uc p, inr inputs).
Proof.
  revert p. induction vbs as [|vb vbs IH]; intros p; cbn.
  - exists (updateBook p), []. by rewrite run_book_id.
  - unfold onUpdateBook. destruct (UpdateOrderBook.Snapshot clk (vb_Venue vb) key (updateBook p)) as [uc [prob|snap]].
    + destruct (IH (run_book uc p)) as (uc' & inputs & ->). by exists uc', inputs.
    + unfold_meth. destruct (IH (run_book uc p)) as (uc' & inputs & ->). by eexists uc', _.
Qed.

Lemma fusion_ends env key p p' r :
  handleBookDeltaForFusion clk cfg env key p = (p', r) → fusionEnds env key p p'.
Proof.
  assert (H0 : fusionEnds env key p p) by (pose proof (fd_early env key p (updateBook p)) as H; by rewrite run_book_id in H).
  unfold handleBookDeltaForFusion. destruct (_ || _); [by intros [= <- _]|].
  destruct (negb _); [by intros [= <- _]|]. unfold_meth.
  destruct (TsIngest env <=? 0); [by intros [= <- _]|]. destruct (_ <? 2); [by intros [= <- _]|].
  match goal with |- context [collectInputs clk key ?l p] =>
    destruct (collectInputs_run key l p) as (uc & inputs & ->) end.
  destruct (_ <? 2); [intros [= <- _]; apply fd_early|].
  destruct (FuseDepth _ _ _ _ _) as [prob|fused]; [intros [= <- _]; apply fd_early|].
  destruct (_ && _); [intros [= <- _]; apply fd_early|]. unfold nextFusionSeq. cbv zeta.
  match goal with |- context [buildFusedDepthEnvelope env key ?n fused] =>
    destruct (buildFusedDepthEnvelope env key n fused) as [prob|e] eqn:Hb end.
  - intros [= <- _]. apply (fd_unpublished env key p uc).
  - unfold publish. intros [= <- _]. by apply (fd_published env key p uc fused e).
Qed.

(** A delta that updates its book marks it and runs both strategies. *)
Definition marked (env : Envelope) (p : Processor) : Processor :=
  let key := orderBookInstrumentKey env in
  (markOrderBookActive (Venue env) key p) <| preads ::= S |>
    <| lastUpdateAt ::= <[MkBookID (Venue env) key := pclk (preads p)]> |>.

Inductive deltaEnds (env : Envelope) (p : Processor) : Processor → Prop :=
| delta_refused uc : deltaEnds env p (run_book uc p)
| delta_applied uc p1 p2 :
    crossVenueEnds env (orderBookInstrumentKey env) (marked env (run_book uc p)) p1 →
    fusionEnds env (orderBookInstrumentKey env) p1 p2 → deltaEnds env p p2.

Lemma delta_ends env p : deltaEnds env p (handleBookDelta clk pclk cfg env p).1.
Proof.
  assert (H0 : deltaEnds env p p) by (pose proof (delta_refused env p (updateBook p)) as H; by rewrite run_book_id in H).
  unfold handleBookDelta. unfold_meth. destruct (negb _); [done|].
  destruct (DecodePayload _ _ _ _) as [prob|[name|delta]]; [done..|].
  unfold executeUpdate, onUpdateBook.
  destruct (Execute clk _ (updateBook p)) as [uc [prob|resp]]; cbn.
  { destruct (isBenignBookProblem prob); cbn; apply delta_refused. }
  unfold clockNow, logged. cbn.
  destruct (handleBookDeltaForCrossVenue _ _ _ _ _) as [p1 r1] eqn:H1. cbn.
  destruct (handleBookDeltaForFusion _ _ _ _ p1) as [p2 r2] eqn:H2. cbn.
  apply (delta_applied env p uc p1 p2); [by eapply crossVenue_ends|by eapply fusion_ends].
Qed.
End effects.

(** ** The tables stay bounded *)

Section tables.
Context {GR : GoRuntime} {BT : BTreeLib} (cfg : ProcessorConfig).

Record tables_ok (p : Processor) : Prop := {
  tab_nodup : NoDup (crossVenueInstrumentQ p);
  tab_dom : ∀ k, k ∈ crossVenueInstrumentQ p ↔ is_Some (crossVenueBooks p !! k);
  tab_bound : Z.of_nat (size (crossVenueBooks p)) ≤ MaxInstruments cfg;
  tab_venues : ∀ k venues, crossVenueBooks p !! k = Some venues →
    Z.of_nat (size venues) ≤ MaxVenues cfg ∧ map_Forall (λ v b, vb_Venue b = v) venues;
  tab_seq : ∀ k, is_Some (crossVenueSeq p !! k) → k ∈ crossVenueInstrumentQ p;
}.

(** What the tables hold is all the invariant looks at. *)
Definition tables (p : Processor) := (crossVenueBooks p, crossVenueInstrumentQ p, crossVenueSeq p).
Lemma tables_ok_eq p p' : tables p = tables p' → tables_ok p → tables_ok p'.
Proof. intros [= H1 H2 H3] []. split; rewrite <- ?H1, <- ?H2, <- ?H3; auto. Qed.

(** The venue to give way is one of the venues, and no other has a larger name. *)
Lemma candidate_spec venues v :
  deterministicCrossVenueEvictionCandidate venues = Some v →
  is_Some (venues !! v) ∧ ∀ w, is_Some (venues !! w) → str_le w v.
Proof.
  unfold deterministicCrossVenueEvictionCandidate.
  assert (Hdom : ∀ w, is_Some (venues !! w) ↔ w ∈ (map_range venues).*1).
  { intros w. rewrite map_range_perm. split.
    - intros [b Hb]. apply list_elem_of_fmap. exists (w, b). by rewrite elem_of_map_to_list.
    - intros ([w' b] & -> & Hb)%list_elem_of_fmap. apply elem_of_map_to_list in Hb. by eexists. }
  setoid_rewrite Hdom. generalize (map_range venues). clear Hdom. intros l. revert v.
  induction l as [|[w b] l IH] using rev_ind; intros v; [done|].
  rewrite foldl_app, fmap_app. cbn. setoid_rewrite elem_of_app. setoid_rewrite list_elem_of_singleton.
  destruct (foldl _ None l) as [e|] eqn:He.
  - destruct (IH e eq_refl) as [Hin Hmax]. destruct (str_ltb e w) eqn:Hlt; intros [= <-].
    + split; [by right|]. intros x [Hx| ->]; [|apply str_le_alt, str_lt_irrefl].
      transitivity e; [by apply Hmax|]. apply str_le_alt. intros Hwe. apply str_ltb_lt in Hlt.
      exact (str_lt_irrefl _ (str_lt_trans _ _ _ Hlt Hwe)).
    + split; [by left|]. intros x [Hx| ->]; [by apply Hmax|done].
  - intros [= <-]. split; [by right|]. intros x [Hx| ->]; [|apply str_le_alt, str_lt_irrefl].
    destruct l as [|[x' b'] l] using rev_ind; [by apply not_elem_of_nil in Hx|].
    rewrite foldl_app in He. cbn in He. destruct (foldl _ None l); [case_match|]; done.
Qed.
Lemma candidate_exists venues : venues ≠ ∅ → ∃ v, deterministicCrossVenueEvictionCandidate venues = Some v.
Proof.
  intros Hne. destruct (deterministicCrossVenueEvictionCandidate venues) as [v|] eqn:He; [by eexists|].
  exfalso. apply Hne, map_to_list_empty_iff. apply Permutation_nil_r. rewrite <- map_range_perm.
  unfold deterministicCrossVenueEvictionCandidate in He. destruct (map_range venues) as [|[w b] l] using rev_ind; [done|].
  rewrite foldl_app in He. cbn in He. destruct (foldl _ None l); [case_match|]; done.
Qed.

(** The venues of one instrument after a book of one of them. *)
Definition putVenue (book : CrossVenueVenueBook) (venues : gmap string CrossVenueVenueBook)
    : gmap string CrossVenueVenueBook :=
  if bool_decide (venues !! vb_Venue book = None) && (MaxVenues cfg <=? Z.of_nat (size venues)) then
    match deterministicCrossVenueEvictionCandidate venues with
    | Some evictKey =>
        if str_ltb (vb_Venue book) evictKey then <[vb_Venue book := book]> (delete evictKey venues) else venues
    | None => venues
    end
  else <[vb_Venue book := book]> venues.

Definition room (key : string) (p : Processor) : Processor :=
  match crossVenueBooks p !! key with
  | Some _ => p
  | None => (evictCrossVenueInstrumentIfNeeded cfg p) <| crossVenueBooks ::= <[key := ∅]> |>
              <| crossVenueInstrumentQ ::= λ q, q ++ [key] |>
  end.

Lemma upsert_room key book p :
  upsertCrossVenueBook cfg key book p =
  (room key p) <| crossVenueBooks ::= λ t, <[key := putVenue book (default ∅ (t !! key))]> t |>.
Proof.
  unfold upsertCrossVenueBook. fold (room key p).
  assert (Hkey : ∃ venues, crossVenueBooks (room key p) !! key = Some venues).
  { unfold room. destruct (crossVenueBooks p !! key) as [v|] eqn:Hk; [by exists v|].
    exists ∅. cbn. apply lookup_insert_eq. }
  destruct Hkey as [venues Hv]. destruct (room key p) as [? ? ? t ? ? ? ? ?]. cbn in *.
  unfold upd. cbn. rewrite Hv. cbn. unfold putVenue. repeat case_match; try done; cbn; f_equal.
  all: symmetry; by apply insert_id.
Qed.

Lemma putVenue_ok book venues :
  0 < MaxVenues cfg → Z.of_nat (size venues) ≤ MaxVenues cfg ∧ map_Forall (λ v b, vb_Venue b = v) venues →
  Z.of_nat (size (putVenue book venues)) ≤ MaxVenues cfg ∧ map_Forall (λ v b, vb_Venue b = v) (putVenue book venues).
Proof.
  intros Hpos [Hs Hk]. unfold putVenue. destruct (_ && _) eqn:Hfull.
  - apply andb_prop in Hfull as [Hnone%bool_decide_eq_true _].
    destruct (deterministicCrossVenueEvictionCandidate venues) as [v|] eqn:Hv; [|done].
    apply candidate_spec in Hv as [[b Hb] _]. case_match; [|done]. split.
    + rewrite map_size_insert, map_size_delete, Hb, lookup_delete_ne; [|intros ->; congruence].
      rewrite Hnone. assert (size venues ≠ 0%nat) by (intros ->%map_size_empty_inv; done). lia.
    + apply map_Forall_insert_2; [done|]. by apply map_Forall_delete.
  - split; [|by apply map_Forall_insert_2]. rewrite map_size_insert.
    apply andb_false_iff in Hfull as [Hn%bool_decide_eq_false|Hlt%Z.leb_gt].
    + destruct (venues !! vb_Venue book); [done|by destruct Hn].
    + destruct (venues !! vb_Venue book); cbn; lia.
Qed.

Lemma queue_size p : tables_ok p → size (crossVenueBooks p) = length (crossVenueInstrumentQ p).
Proof.
  intros [Hnd Hd _ _ _]. rewrite <- (size_list_to_set (C:=gset string)) by done. rewrite <- size_dom. f_equal.
  apply set_eq. intros k. by rewrite elem_of_dom, elem_of_list_to_set, Hd.
Qed.

(** Making room drops the oldest instrument when the table is full, and enters
    the instrument without venues. *)
Lemma room_absent key p :
  0 < MaxInstruments cfg → tables_ok p → crossVenueBooks p !! key = None →
  ∃ q0 q, crossVenueInstrumentQ p = q0 ++ q ∧ (length q0 ≤ 1)%nat ∧
    crossVenueInstrumentQ (room key p) = q ++ [key] ∧
    crossVenueBooks (room key p) = <[key := ∅]> (foldr delete (crossVenueBooks p) q0) ∧
    crossVenueSeq (room key p) = foldr delete (crossVenueSeq p) q0 ∧
    (q0 = [] ∨ MaxInstruments cfg ≤ Z.of_nat (length (crossVenueInstrumentQ p))) ∧
    Z.of_nat (length q) < MaxInstruments cfg.
Proof.
  intros Hpos Hp Hk. pose proof (queue_size p Hp) as Hsz. pose proof (tab_bound p Hp) as Hb.
  unfold room. rewrite Hk. unfold evictCrossVenueInstrumentIfNeeded.
  destruct (Z.leb_spec (MaxInstruments cfg) 0); [lia|].
  destruct (Z.ltb_spec (Z.of_nat (size (crossVenueBooks p))) (MaxInstruments cfg)).
  - exists [], (crossVenueInstrumentQ p). cbn. split_and!; auto; lia.
  - destruct (crossVenueInstrumentQ p) as [|k q] eqn:Hq; [cbn in Hsz; lia|].
    exists [k], q. cbn. cbn in Hsz. split_and!; auto; try (right; cbn); lia.
Qed.

Lemma lookup_foldr_delete {V} (m : gmap string V) l k :
  foldr delete m l !! k = if decide (k ∈ l) then None else m !! k.
Proof.
  induction l as [|x l IH]; [done|]. cbn. destruct (decide (x = k)) as [->|Hne].
  - rewrite lookup_delete_eq, decide_True by left. done.
  - rewrite lookup_delete_ne, IH by done. repeat case_decide; set_solver.
Qed.

Lemma room_ok key p :
  0 < MaxInstruments cfg → 0 < MaxVenues cfg → tables_ok p → tables_ok (room key p) ∧ key ∈ crossVenueInstrumentQ (room key p).
Proof.
  intros HI HV Hp. destruct (crossVenueBooks p !! key) as [v|] eqn:Hk.
  { unfold room. rewrite Hk. split; [done|]. apply (tab_dom p Hp). by eexists. }
  destruct (room_absent key p HI Hp Hk) as (q0 & q & Hq & _ & HQ & HB & HS & _ & Hlen).
  destruct Hp as [Hnd Hd Hb Hv Hs]. rewrite Hq in Hnd. apply NoDup_app in Hnd as (_ & Hdisj & Hnd).
  assert ((key ∉ q0) ∧ (key ∉ q)) as [Hk0 Hkq].
  { rewrite <- not_elem_of_app, <- Hq, Hd, Hk. by intros [? ?]. }
  split; [|rewrite HQ; set_solver]. split.
  - rewrite HQ. by apply NoDup_snoc.
  - intros k. rewrite HQ, HB, lookup_insert_is_Some', lookup_foldr_delete, elem_of_app, list_elem_of_singleton.
    specialize (Hd k). rewrite Hq, elem_of_app in Hd. case_decide.
    + split; [|by intros [?|[? ?]]; auto]. intros [Hin|?]; [|auto]. exfalso. by eapply Hdisj.
    + rewrite <- Hd. naive_solver.
  - rewrite HB.
    assert (size (foldr delete (crossVenueBooks p) q0) ≤ length q)%nat as Hsz.
    { rewrite <- size_dom. transitivity (size (list_to_set q : gset string)).
      - apply subseteq_size. intros k. rewrite elem_of_dom, lookup_foldr_delete, elem_of_list_to_set.
        case_decide; [by intros [? ?]|]. rewrite <- Hd, Hq, elem_of_app. tauto.
      - by rewrite size_list_to_set. }
    rewrite map_size_insert. case_match; cbn; lia.
  - intros k venues. rewrite HB, lookup_insert. case_decide; [intros [= <-]|].
    + rewrite map_size_empty. split; [cbn; lia|]. apply map_Forall_empty.
    + rewrite lookup_foldr_delete. case_decide; [done|]. apply Hv.
  - intros k. rewrite HS, lookup_foldr_delete, HQ. case_decide; [by intros [? ?]|].
    intros Hin%Hs. rewrite Hq in Hin. set_solver.
Qed.

Lemma upsert_ok key book p :
  0 < MaxInstruments cfg → 0 < MaxVenues cfg → tables_ok p →
  tables_ok (upsertCrossVenueBook cfg key book p) ∧ key ∈ crossVenueInstrumentQ (upsertCrossVenueBook cfg key book p).
Proof.
  intros HI HV Hp. rewrite upsert_room. destruct (room_ok key p HI HV Hp) as [[Hnd Hd Hb Hv Hs] Hin].
  split; [|done]. assert (Hsome : is_Some (crossVenueBooks (room key p) !! key)) by by apply Hd.
  split; cbn.
  - done.
  - intros k. rewrite lookup_insert_is_Some', Hd. naive_solver.
  - rewrite map_size_insert. destruct Hsome as [v ->]. done.
  - intros k venues. rewrite lookup_insert. case_decide as Hk; [intros [= <-]|apply Hv].
    apply putVenue_ok; [done|]. destruct Hsome as [v Hv0]. rewrite Hv0. by apply (Hv key).
  - done.
Qed.

Lemma numbered_ok key p : key ∈ crossVenueInstrumentQ p → tables_ok p → tables_ok (numbered key p).
Proof.
  intros Hin [Hnd Hd Hb Hv Hs]. split; cbn; try done.
  intros k. rewrite lookup_insert_is_Some'. intros [<-|?]; [done|auto].
Qed.
End tables.

(** ** Numbering *)

Inductive view := CrossVenueView | FusedView.
Definition viewType (v : view) : string :=
  match v with CrossVenueView => typeXVenueBook | FusedView => typeFusedDepth end.

Section numbering.
Context {GR : GoRuntime} {BT : BTreeLib} {ports : ProcessorPorts}.

Definition seqOf (v : view) (p : Processor) : gmap string Z :=
  match v with CrossVenueView => crossVenueSeq p | FusedView => fusionSeq p end.
Definition counter (v : view) (p : Processor) (k : string) : Z := default 0 (seqOf v p !! k).

(** The numbers of one view of one instrument among published envelopes, each
    with the instrument's key. *)
Definition numbersOf (v : view) (k : string) (calls : list (string * Envelope)) : list Z :=
  (λ c, Seq c.2) <$> filter (λ c, c.1 = k ∧ Type_ c.2 = viewType v) calls.

Lemma numbersOf_app v k l1 l2 : numbersOf v k (l1 ++ l2) = numbersOf v k l1 ++ numbersOf v k l2.
Proof. unfold numbersOf. by rewrite filter_app, fmap_app. Qed.

Lemma nextSeq_succ m k : 0 ≤ default 0 (m !! k) < MaxInt64 → nextSeq m k = default 0 (m !! k) + 1.
Proof.
  intros Hr. unfold nextSeq. rewrite add64_id by (unfold in_i64, MinInt64, MaxInt64 in *; lia).
  destruct (Z.leb_spec (default 0 (m !! k) + 1) 0); lia.
Qed.

Lemma validated_fields out e :
  validated out = inr e → Type_ e = Type_ out ∧ Instrument e = Instrument out ∧ Seq e = Seq out.
Proof.
  unfold validated. destruct (Validate out) as [out' [prob|[]]] eqn:Hv; [done|]. intros [= <-].
  apply envelope_Validate_ok in Hv as (_ & c & ->). done.
Qed.
Lemma crossVenue_built env key n snap e :
  buildCrossVenueBookEnvelope env key n snap = inr e →
  Type_ e = viewType CrossVenueView ∧ Instrument e = StripMarketType key ∧ Seq e = n.
Proof. unfold buildCrossVenueBookEnvelope. repeat case_match; try done. apply validated_fields. Qed.
Lemma fused_built env key n fused e :
  buildFusedDepthEnvelope env key n fused = inr e →
  Type_ e = viewType FusedView ∧ Instrument e = StripMarketType key ∧ Seq e = n.
Proof. unfold buildFusedDepthEnvelope. repeat case_match; try done. apply validated_fields. Qed.

(** A step that publishes [calls]: the counter of a view moves by at most one, and
    a number that is published is the new value of the counter. *)
Definition advances (v : view) (k : string) (calls : list (string * Envelope)) (p p' : Processor) : Prop :=
  counter v p k ≤ counter v p' k ≤ counter v p k + 1 ∧
  (numbersOf v k calls = [] ∨ (numbersOf v k calls = [counter v p' k] ∧ counter v p' k = counter v p k + 1)).
Definition quiet (v : view) (k : string) (calls : list (string * Envelope)) (p p' : Processor) : Prop :=
  counter v p' k = counter v p k ∧ numbersOf v k calls = [].

Lemma quiet_advances v k calls p p' : quiet v k calls p p' → advances v k calls p p'.
Proof. intros [Hc Hn]. split; [lia|by left]. Qed.
Lemma advances_quiet v k l1 l2 p p1 p2 :
  advances v k l1 p p1 → quiet v k l2 p1 p2 → advances v k (l1 ++ l2) p p2.
Proof.
  intros [H1 H2] [Hc Hn]. unfold advances. rewrite numbersOf_app, Hn, app_nil_r, Hc. done.
Qed.
Lemma quiet_then_advances v k l1 l2 p p1 p2 :
  quiet v k l1 p p1 → advances v k l2 p1 p2 → advances v k (l1 ++ l2) p p2.
Proof.
  intros [Hc Hn] [H1 H2]. unfold advances. rewrite numbersOf_app, Hn, <- Hc. done.
Qed.

(** One envelope of view [v] for [key], numbered by the counter. *)
Lemma single_advances v key k e p p' :
  0 ≤ counter v p key < MaxInt64 → Type_ e = viewType v → Seq e = counter v p key + 1 →
  counter v p' key = counter v p key + 1 → (∀ k, k ≠ key → counter v p' k = counter v p k) →
  advances v k [(key, e)] p p'.
Proof.
  intros Hr Ht Hs Hc Ho. destruct (decide (k = key)) as [->|Hne].
  - split; [lia|]. right. split; [|done]. unfold numbersOf. rewrite filter_cons, decide_True by done. cbn.
    by rewrite Hs, Hc.
  - split; [rewrite Ho by done; lia|]. left. unfold numbersOf. rewrite filter_cons, decide_False; [done|].
    cbn. intros [-> _]. done.
Qed.
Lemma single_other v w key k e : Type_ e = viewType w → v ≠ w → numbersOf v k [(key, e)] = [].
Proof.
  intros Ht Hne. unfold numbersOf. rewrite filter_cons, decide_False; [done|]. cbn. rewrite Ht.
  intros [_ ?]. by destruct v, w.
Qed.
Lemma counter_bump v p p' key :
  0 ≤ counter v p key < MaxInt64 → seqOf v p' = <[key := nextSeq (seqOf v p) key]> (seqOf v p) →
  counter v p' key = counter v p key + 1 ∧ ∀ k, k ≠ key → counter v p' k = counter v p k.
Proof.
  intros Hr Heq. rewrite nextSeq_succ in Heq by done. unfold counter at 1 3. rewrite Heq, lookup_insert_eq.
  split; [done|]. intros k Hk. by rewrite lookup_insert_ne.
Qed.
Lemma bumped_advances v key k p p' :
  counter v p' key = counter v p key + 1 → (∀ k, k ≠ key → counter v p' k = counter v p k) → advances v k [] p p'.
Proof.
  intros Hc Ho. split; [|by left]. destruct (decide (k = key)) as [->|Hne]; [lia|]. rewrite Ho by done. lia.
Qed.

(** The step of one strategy: it publishes at most one envelope, of its own view. *)
Definition keyed (key : string) (calls : list PublishCall) : list (string * Envelope) := (λ c, (key, c.1)) <$> calls.
Definition stepOf (v : view) (key : string) (p p' : Processor) : Prop :=
  ∃ calls, publishCalls p' = publishCalls p ++ calls ∧
    ∀ k, advances v k (keyed key calls) p p' ∧ ∀ w, w ≠ v → quiet w k (keyed key calls) p p'.

Lemma step_still v key p p' :
  publishCalls p' = publishCalls p → (∀ w, seqOf w p' = seqOf w p) → stepOf v key p p'.
Proof.
  intros Hc Hs. exists []. rewrite app_nil_r. split; [done|].
  assert (Hq : ∀ w k, quiet w k [] p p') by (intros w k; split; [unfold counter; by rewrite Hs|done]).
  intros k. split; [by apply quiet_advances|done].
Qed.
Lemma step_taken v key p p' :
  0 ≤ counter v p key < MaxInt64 → publishCalls p' = publishCalls p →
  seqOf v p' = <[key := nextSeq (seqOf v p) key]> (seqOf v p) → (∀ w, w ≠ v → seqOf w p' = seqOf w p) →
  stepOf v key p p'.
Proof.
  intros Hr Hc Hv Hw. destruct (counter_bump v p p' key Hr Hv) as [H1 H2].
  exists []. rewrite app_nil_r. split; [done|]. intros k. split; [by apply (bumped_advances _ key)|].
  intros w Hne. split; [|done]. unfold counter. by rewrite Hw.
Qed.
Lemma step_issued v key p p' e a :
  0 ≤ counter v p key < MaxInt64 → publishCalls p' = publishCalls p ++ [(e, a)] →
  seqOf v p' = <[key := nextSeq (seqOf v p) key]> (seqOf v p) → (∀ w, w ≠ v → seqOf w p' = seqOf w p) →
  Type_ e = viewType v → Seq e = nextSeq (seqOf v p) key → stepOf v key p p'.
Proof.
  intros Hr Hc Hv Hw Ht Hs. destruct (counter_bump v p p' key Hr Hv) as [H1 H2].
  rewrite nextSeq_succ in Hs by done. exists [(e, a)]. split; [done|]. intros k. split; [by apply single_advances|].
  intros w Hne. split; [unfold counter; by rewrite Hw|]. by apply (single_other _ v).
Qed.
End numbering.

(** ** Runs *)

Section runs.
Context {GR : GoRuntime} {BT : BTreeLib} {bookPorts : BookPorts} {ports : ProcessorPorts}.
Context (clk : nat → Z) (pclk : nat → Z) (cfg0 : ProcessorConfig).
Let cfg := ensureDefaults cfg0.

Lemma defaults_positive : 0 < MaxInstruments cfg ∧ 0 < MaxVenues cfg.
Proof.
  unfold cfg, ensureDefaults. unfold defaultXVenueMaxInstruments, defaultXVenueMaxVenues.
  destruct (StaleThreshold cfg0 <=? 0); cbn.
  all: destruct (Z.leb_spec (MaxInstruments cfg0) 0); cbn; destruct (Z.leb_spec (MaxVenues cfg0) 0); cbn; lia.
Qed.

Lemma crossVenue_ok env key p p' : tables_ok cfg p → crossVenueEnds cfg env key p p' → tables_ok cfg p'.
Proof.
  destruct defaults_positive as [HI HV]. intros Hp [uc|uc book|uc book|uc book snap e p1 _].
  - by apply (tables_ok_eq cfg p).
  - apply upsert_ok; [done..|]. by apply (tables_ok_eq cfg p).
  - destruct (upsert_ok cfg key book (p <| updateBook := uc |>)) as [H1 H2]; [done..| |].
    + by apply (tables_ok_eq cfg p).
    + by apply numbered_ok.
  - destruct (upsert_ok cfg key book (p <| updateBook := uc |>)) as [H1 H2]; [done..| |].
    + by apply (tables_ok_eq cfg p).
    + eapply tables_ok_eq; [|apply numbered_ok; [exact H2|exact H1]]. done.
Qed.
Lemma fusion_tables env key p p' : fusionEnds env key p p' → tables p' = tables p.
Proof. by intros []. Qed.
Lemma delta_ok env p p' : tables_ok cfg p → deltaEnds pclk cfg env p p' → tables_ok cfg p'.
Proof.
  intros Hp [uc|uc p1 p2 H1 H2].
  - by apply (tables_ok_eq cfg p).
  - apply fusion_tables in H2. apply (tables_ok_eq cfg p1); [done|].
    eapply crossVenue_ok; [|exact H1]. by apply (tables_ok_eq cfg p).
Qed.

Lemma newProcessor_ok uc : tables_ok cfg (newProcessor uc).
Proof.
  destruct defaults_positive as [HI HV]. split; cbn.
  - constructor.
  - intros k. split; [by intros ?%not_elem_of_nil|by intros [? ?]].
  - rewrite map_size_empty. lia.
  - done.
  - by intros k [? ?].
Qed.

(** C21: Whatever deltas arrive, the processor keeps books of at most the configured
    number of instruments, each listed once in the order of eviction, of at most
    the configured number of venues each, every book under its own venue's name,
    and a counter only for the instruments it keeps. *)
Theorem cross_venue_tables_stay_bounded uc envs :
  let p := handleAll clk pclk cfg envs (newProcessor uc) in
  NoDup (crossVenueInstrumentQ p) ∧
  (∀ k, k ∈ crossVenueInstrumentQ p ↔ is_Some (crossVenueBooks p !! k)) ∧
  Z.of_nat (length (crossVenueInstrumentQ p)) ≤ MaxInstruments cfg ∧
  (∀ k venues, crossVenueBooks p !! k = Some venues →
     Z.of_nat (size venues) ≤ MaxVenues cfg ∧ map_Forall (λ v b, vb_Venue b = v) venues) ∧
  (∀ k, is_Some (crossVenueSeq p !! k) → k ∈ crossVenueInstrumentQ p).
Proof.
  intros p. assert (Hp : tables_ok cfg p).
  { unfold p, handleAll. pose proof (newProcessor_ok uc) as H0. revert H0. generalize (newProcessor uc).
    induction envs as [|env envs IH]; intros q Hq; [done|]. cbn. apply IH.
    eapply delta_ok; [exact Hq|apply delta_ends]. }
  pose proof (queue_size cfg p Hp) as Hsz. destruct Hp as [Hnd Hd Hb Hv Hs]. rewrite Hsz in Hb. done.
Qed.

(** *** Numbers increase while every instrument has its place *)

(** The instruments in play have their place in the table. *)
Definition placed (keys : gset string) (p : Processor) : Prop :=
  tables_ok cfg p ∧ (∀ k, k ∈ crossVenueInstrumentQ p → k ∈ keys) ∧ Z.of_nat (size keys) ≤ MaxInstruments cfg.

Lemma upsert_placed keys key book p :
  placed keys p → key ∈ keys →
  placed keys (upsertCrossVenueBook cfg key book p) ∧
  crossVenueSeq (upsertCrossVenueBook cfg key book p) = crossVenueSeq p ∧
  key ∈ crossVenueInstrumentQ (upsertCrossVenueBook cfg key book p).
Proof.
  destruct defaults_positive as [HI HV]. intros (Hp & Hsub & Hsz) Hkey.
  destruct (upsert_ok cfg key book p HI HV Hp) as [Hok Hin].
  rewrite upsert_room in *. destruct (crossVenueBooks p !! key) as [v|] eqn:Hk.
  - unfold room in *. rewrite Hk in *. done.
  - destruct (room_absent cfg key p HI Hp Hk) as (q0 & q & Hq & _ & HQ & HB & HS & Hfull & _).
    assert (q0 = []) as ->.
    { destruct Hfull as [->|Hfull]; [done|]. exfalso.
      assert (Hlt : (size (list_to_set (crossVenueInstrumentQ p) : gset string) < size keys)%nat).
      { apply subset_size. split; [intros k; rewrite elem_of_list_to_set; apply Hsub|].
        intros Hback. specialize (Hback key Hkey). rewrite elem_of_list_to_set, (tab_dom cfg p Hp), Hk in Hback.
        by destruct Hback. }
      rewrite size_list_to_set in Hlt by apply (tab_nodup cfg p Hp). lia. }
    cbn in Hq, HS. subst q. split_and!; [|done|done]. split; [done|]. split; [|done].
    intros k. cbn. rewrite HQ. set_solver.
Qed.

Lemma fusion_step env key p p' :
  0 ≤ counter FusedView p key < MaxInt64 → fusionEnds env key p p' → stepOf FusedView key p p'.
Proof.
  intros Hr [uc|uc|uc fused e He].
  - apply step_still; [done|]. by intros [].
  - apply step_taken; [done..|]. by intros [].
  - apply fused_built in He as (Ht & _ & Hs). eapply step_issued; [done|reflexivity|done| |done|done]. by intros [].
Qed.

(** The table is written, and nothing else but the book use case has moved. *)
Definition entered (keys : gset string) (key : string) (p p1 : Processor) : Prop :=
  placed keys p1 ∧ key ∈ crossVenueInstrumentQ p1 ∧ (∀ w, seqOf w p1 = seqOf w p) ∧ publishCalls p1 = publishCalls p.
Lemma upsert_entered keys key uc book p :
  placed keys p → key ∈ keys → entered keys key p (upsertCrossVenueBook cfg key book (p <| updateBook := uc |>)).
Proof.
  intros (H1 & H2 & H3) Hkey. assert (Hp0 : placed keys (p <| updateBook := uc |>)).
  { split; [by apply (tables_ok_eq cfg p)|done]. }
  destruct (upsert_placed keys key book _ Hp0 Hkey) as (H4 & H5 & H6). split_and!; [done|done| |].
  - intros []; [done|]. rewrite upsert_room. unfold room, evictCrossVenueInstrumentIfNeeded. by repeat case_match.
  - rewrite upsert_room. unfold room, evictCrossVenueInstrumentIfNeeded. by repeat case_match.
Qed.
Lemma numbered_placed keys key p : key ∈ crossVenueInstrumentQ p → placed keys p → placed keys (numbered key p).
Proof. intros Hin (H1 & H2 & H3). split; [by apply numbered_ok|done]. Qed.
Lemma placed_eq keys p p' : tables p = tables p' → placed keys p → placed keys p'.
Proof.
  intros Heq (H1 & H2 & H3). split; [by apply (tables_ok_eq cfg p)|]. split; [|done].
  injection Heq as _ Hq _. by rewrite <- Hq.
Qed.

Lemma crossVenue_step keys env key p p' :
  placed keys p → key ∈ keys → 0 ≤ counter CrossVenueView p key < MaxInt64 → crossVenueEnds cfg env key p p' →
  stepOf CrossVenueView key p p' ∧ placed keys p'.
Proof.
  intros Hp Hkey Hr [uc|uc book|uc book|uc book snap e p1 He].
  - split; [apply step_still; [done|by intros []]|by apply (placed_eq _ p)].
  - destruct (upsert_entered keys key uc book p Hp Hkey) as (H1 & _ & H3 & H4). split; [by apply step_still|done].
  - destruct (upsert_entered keys key uc book p Hp Hkey) as (H1 & H2 & H3 & H4). split; [|by apply numbered_placed].
    apply step_taken; [done|done| |].
    + specialize (H3 CrossVenueView). cbn in *. by rewrite H3.
    + intros [] ?; [done|]. apply (H3 FusedView).
  - destruct (upsert_entered keys key uc book p Hp Hkey) as (H1 & H2 & H3 & H4). fold p1 in H1, H2, H3, H4.
    split; [|by eapply placed_eq, numbered_placed].
    pose proof (H3 CrossVenueView) as Hseq. cbn in Hseq.
    apply crossVenue_built in He as (Ht & _ & Hs). rewrite Hseq in Hs.
    eapply step_issued; [done| | | |exact Ht|exact Hs]; cbn.
    + by rewrite H4.
    + by rewrite Hseq.
    + intros [] ?; [done|]. apply (H3 FusedView).
Qed.

Lemma delta_step keys env p p' :
  let key := orderBookInstrumentKey env in
  placed keys p → key ∈ keys → (∀ v, 0 ≤ counter v p key < MaxInt64) → deltaEnds pclk cfg env p p' →
  placed keys p' ∧ ∃ calls, publishCalls p' = publishCalls p ++ calls ∧ ∀ v k, advances v k (keyed key calls) p p'.
Proof.
  intros key Hp Hkey Hr [uc|uc p1 p2 H1 H2].
  - split; [by apply (placed_eq _ p)|]. exists []. rewrite app_nil_r. split; [done|].
    intros v k. apply quiet_advances. split; [by destruct v|done].
  - set (p0 := marked pclk env (p <| updateBook := uc |>)) in H1.
    assert (Hc0 : ∀ v k, counter v p0 k = counter v p k) by by intros [].
    destruct (crossVenue_step keys env key p0 p1) as [(calls1 & Hpub1 & Hadv1) Hp1]; [| |by rewrite Hc0|done|].
    { by apply (placed_eq _ p). } { done. }
    assert (Hf1 : counter FusedView p1 key = counter FusedView p0 key) by (by destruct (Hadv1 key) as [_ Hq]; apply Hq).
    destruct (fusion_step env key p1 p2) as (calls2 & Hpub2 & Hadv2); [by rewrite Hf1, Hc0|done|].
    split; [apply fusion_tables in H2; by apply (placed_eq _ p1)|].
    exists (calls1 ++ calls2). split; [by rewrite Hpub2, Hpub1, app_assoc|].
    intros v k. unfold keyed. rewrite fmap_app.
    assert (Hadv : advances v k (keyed key calls1 ++ keyed key calls2) p0 p2).
    { destruct (Hadv1 k) as [Ha1 Hq1], (Hadv2 k) as [Ha2 Hq2]. destruct v.
      - eapply advances_quiet; [done|by apply Hq2].
      - eapply quiet_then_advances; [by apply Hq1|done]. }
    unfold advances in *. by rewrite !Hc0 in Hadv.
Qed.

(** What a run publishes, each envelope with the key of its instrument. *)
Fixpoint emitted (envs : list Envelope) (p : Processor) : list (string * Envelope) :=
  match envs with
  | [] => []
  | env :: rest =>
      let p' := (handleBookDelta clk pclk cfg env p).1 in
      keyed (orderBookInstrumentKey env) (drop (length (publishCalls p)) (publishCalls p')) ++ emitted rest p'
  end.

Lemma emitted_increase keys envs p :
  placed keys p → Forall (λ env, orderBookInstrumentKey env ∈ keys) envs →
  (∀ v k, 0 ≤ counter v p k ∧ counter v p k + Z.of_nat (length envs) ≤ MaxInt64) →
  ∀ v k, StronglySorted Z.lt (numbersOf v k (emitted envs p)) ∧
    Forall (λ n, counter v p k < n) (numbersOf v k (emitted envs p)).
Proof.
  revert p. induction envs as [|env envs IH]; intros p Hp Hkeys Hc v k; [split; constructor|].
  apply Forall_cons in Hkeys as [Hkey Hkeys]. cbn [emitted].
  edestruct (delta_step keys env p) as (Hp' & calls & Hpub & Hadv); [done|done| |apply (delta_ends clk pclk cfg)|].
  { intros w. destruct (Hc w (orderBookInstrumentKey env)). cbn [length] in *. lia. }
  set (p' := (handleBookDelta clk pclk cfg env p).1) in *. rewrite Hpub, drop_app_length.
  assert (Hc' : ∀ v k, 0 ≤ counter v p' k ∧ counter v p' k + Z.of_nat (length envs) ≤ MaxInt64).
  { intros w j. destruct (Hadv w j) as [? _], (Hc w j). cbn [length] in *. lia. }
  destruct (IH p' Hp' Hkeys Hc' v k) as [Hs Hall]. destruct (Hadv v k) as [Hle Hnum].
  rewrite numbersOf_app. destruct Hnum as [->|[-> Hn]]; cbn.
  - split; [done|]. eapply Forall_impl; [exact Hall|]. intros n; cbn; lia.
  - split; constructor; [done|done|lia|]. eapply Forall_impl; [exact Hall|]. intros n; cbn; lia.
Qed.

(** C20: As long as the instruments in play fit in the table, the numbers under which
    a view of an instrument is published increase, whatever the deltas, the ports'
    answers and the failures on the way. *)
Theorem view_numbers_increase uc envs v k :
  Z.of_nat (length envs) ≤ MaxInt64 →
  Z.of_nat (size (list_to_set (orderBookInstrumentKey <$> envs) : gset string)) ≤ MaxInstruments cfg →
  StronglySorted Z.lt (numbersOf v k (emitted envs (newProcessor uc))).
Proof.
  intros Hlen Hsz. apply (emitted_increase (list_to_set (orderBookInstrumentKey <$> envs))).
  - split; [apply newProcessor_ok|]. split; [by intros j ?%not_elem_of_nil|done].
  - apply Forall_forall. intros env Henv. rewrite elem_of_list_to_set. by apply list_elem_of_fmap_2.
  - intros [] j; unfold counter; cbn; rewrite lookup_empty; cbn; lia.
Qed.
End runs.

(** ** Concrete runs *)

(** Ports that accept everything; a payload is a bid and an ask price. *)
#[local] Instance acceptBooks : BookPorts :=
  {| Save _ _ := None; PublishSnapshot _ _ := None; PublishInconsistent _ _ := None |}.
#[local] Instance acceptAll : ProcessorPorts := {|
  DecodePayload _ _ _ payload :=
    match payload with
    | [bid; ask] => inr (inr (MkDelta [MarketModel.MkLevel (f_of_Z bid) f1] [MarketModel.MkLevel (f_of_Z ask) f1] 0 0 0 0 true))
    | _ => inl (New ValidationFailed "not a delta")
    end;
  EncodeCrossVenueBook _ s := inr (vl_PriceFP <$> (BestBids s ++ BestAsks s));
  EncodeFusedDepth _ s := inr (PriceFP <$> (fd_Bids s ++ fd_Asks s));
  ProtoRolloutEnabledForEventType _ := false;
  PublishEnvelope _ _ := None;
|}.

Definition deltaOf (venue instrument marketType : string) (ts seq bid ask : Z) : Envelope :=
  MkEnvelope "marketdata.bookdelta" 1 venue instrument ts ts seq "id" ContentTypeJSON
    {[metaKeyMarketType := marketType]} [bid; ask] "".

Definition bothViews (maxInstruments : Z) : ProcessorConfig :=
  MkProcessorConfig true true true 0 maxInstruments 0 true 0 "".
Definition startOf : Processor (BT:=sortedBTree) :=
  newProcessor (NewUpdateOrderBookFromEvents (BT:=sortedBTree) (λ n, 1000 * Z.of_nat n)).
Definition publishedBy (maxInstruments : Z) (envs : list Envelope) : list (string * Envelope) :=
  emitted (GR:=go_amd64) (BT:=sortedBTree) (λ n, 1000 * Z.of_nat n) (λ n, Z.of_nat n) (bothViews maxInstruments) envs startOf.

(** Two venues of one instrument: the second delta also publishes the fused depth. *)
Definition twoVenueDeltas : list Envelope :=
  [deltaOf "BINANCE" "BTCUSDT" "SPOT" 1000 1 100 102; deltaOf "OKX" "BTCUSDT" "SPOT" 1001 1 101 103;
   deltaOf "BINANCE" "BTCUSDT" "SPOT" 1002 2 99 102].
Example two_venues_published :
  (λ c, (Type_ c.2, Seq c.2, Payload c.2)) <$> publishedBy 0 twoVenueDeltas =
  [(typeXVenueBook, 1, [10000000000; 10200000000]);
   (typeXVenueBook, 2, [10100000000; 10000000000; 10200000000; 10300000000]);
   (typeFusedDepth, 1, [10100000000; 10000000000; 10200000000; 10300000000]);
   (typeXVenueBook, 3, [10100000000; 9900000000; 10200000000; 10300000000]);
   (typeFusedDepth, 2, [10100000000; 9900000000; 10200000000; 10300000000])].
Proof. by vm_compute. Qed.

Lemma view_numbers_increase_witness :
  StronglySorted Z.lt (numbersOf CrossVenueView "BTCUSDT:SPOT" (publishedBy 0 twoVenueDeltas)).
Proof.
  unfold publishedBy, startOf. apply (view_numbers_increase (λ n, 1000 * Z.of_nat n) (λ n, Z.of_nat n) (bothViews 0)
    (NewUpdateOrderBookFromEvents (λ n, 1000 * Z.of_nat n)) twoVenueDeltas); by vm_compute.
Defined.

(** An instrument that leaves the table takes its counter with it: when it comes
    back, its cross-venue view starts again at one, below what was published. *)
Theorem evicted_instrument_restarts_numbering :
  let envs := [deltaOf "BINANCE" "BTCUSDT" "SPOT" 1000 1 100 102; deltaOf "BINANCE" "BTCUSDT" "SPOT" 1001 2 100 102;
               deltaOf "BINANCE" "ETHUSDT" "SPOT" 1002 1 10 12; deltaOf "BINANCE" "BTCUSDT" "SPOT" 1003 3 100 102] in
  numbersOf CrossVenueView "BTCUSDT:SPOT" (publishedBy 1 envs) = [1; 2; 1].
Proof. by vm_compute. Qed.

(** The books of two market types of an instrument are kept and numbered apart,
    but published under one subject: the subject carries two different books with
    the same number. *)
Theorem market_types_share_a_subject :
  let envs := [deltaOf "BINANCE" "BTCUSDT" "SPOT" 1000 1 100 102; deltaOf "BINANCE" "BTCUSDT" "USDMFUTURES" 1001 1 110 112] in
  (λ c, (SubjectFromEnvelope (GR:=go_amd64) c.2, Seq c.2, Payload c.2)) <$> publishedBy 0 envs =
  [("aggregation.crossvenue_book.v1.crossvenue.BTCUSDT", 1, [10000000000; 10200000000]);
   ("aggregation.crossvenue_book.v1.crossvenue.BTCUSDT", 1, [11000000000; 11200000000])].
Proof. by vm_compute. Qed.
