(* ===== verification/Evidence.v ===== *)
(** * Evidence: internal/core/evidence/domain

    evidence.go, rule.go, features.go, evidence_buffer.go, regime.go and
    regime_store.go: evidence events and their validation, the interface of a
    rule, the ring of events per kind and the store of candle and regime
    histories. A rule is an implementation of the Go interface [EvidenceRule]: a
    class over the type of its state. *)

From S2P Require Import Prelude GoRuntime Shared.

Local Open Scope string_scope.
Local Open Scope list_scope.
Local Open Scope Z_scope.

(** ** evidence.go *)

Definition RuleVersionV0 : string := "v0".

Definition EvidenceType : Type := string.
Definition SpreadExplosion : EvidenceType := "spread_explosion".
Definition LiquidityThinning : EvidenceType := "liquidity_thinning".
Definition PersistentImbalance : EvidenceType := "persistent_imbalance".
Definition Absorption : EvidenceType := "absorption".
Definition Sweep : EvidenceType := "sweep".
Definition validTypes : list EvidenceType :=
  [SpreadExplosion; LiquidityThinning; PersistentImbalance; Absorption; Sweep].

Definition Severity : Type := string.
Definition SeverityLow : Severity := "low".
Definition SeverityMedium : Severity := "medium".
Definition SeverityHigh : Severity := "high".
Definition SeverityCritical : Severity := "critical".
Definition validSeverities : list Severity := [SeverityLow; SeverityMedium; SeverityHigh; SeverityCritical].

Record EvidenceFeature := MkFeature { feature_Key : string; feature_Value : float64 }.
Record InputWatermark := MkWatermark { SeqStart : Z; SeqEnd : Z }.
#[export] Instance InputWatermark_eta : Eta InputWatermark := λ r, MkWatermark (SeqStart r) (SeqEnd r).

Record EvidenceEvent := MkEvidence {
  ev_Type : EvidenceType;
  ev_TsServer : Z;
  ev_Venue : string;
  ev_Symbol : string;
  ev_StreamID : string;
  ev_Seq : Z;
  ev_Severity : Severity;
  ev_Confidence : float64;
  ev_Features : list EvidenceFeature;
  ev_Explanation : string;
  ev_RuleVersion : string;
  ev_Watermark : InputWatermark;
}.
#[export] Instance EvidenceEvent_eta : Eta EvidenceEvent := λ r,
  MkEvidence (ev_Type r) (ev_TsServer r) (ev_Venue r) (ev_Symbol r) (ev_StreamID r) (ev_Seq r) (ev_Severity r)
    (ev_Confidence r) (ev_Features r) (ev_Explanation r) (ev_RuleVersion r) (ev_Watermark r).

Definition refused (msg : string) : option Problem := Some (New ValidationFailed msg).
(** [if p := a(); p != nil { return p }; b] *)
Definition orElse (p : option Problem) (q : option Problem) : option Problem :=
  match p with Some _ => p | None => q end.

Section validation.
Context {GR : GoRuntime}.

Definition blank (s : string) : bool := str_eqb (TrimSpace s) "".

Definition validateTypeAndSeverity (e : EvidenceEvent) : option Problem :=
  if negb (bool_decide (ev_Type e ∈ validTypes)) then refused "evidence type must be a recognized value"
  else if negb (bool_decide (ev_Severity e ∈ validSeverities)) then refused "evidence severity must be a recognized value"
  else None.

Definition validateIdentity (e : EvidenceEvent) : option Problem :=
  if ev_TsServer e <=? 0 then refused "evidence ts_server must be positive"
  else if blank (ev_Venue e) then refused "evidence venue must not be empty"
  else if blank (ev_Symbol e) then refused "evidence symbol must not be empty"
  else if blank (ev_StreamID e) then refused "evidence stream_id must not be empty"
  else if ev_Seq e <=? 0 then refused "evidence seq must be > 0"
  else None.

Definition validateConfidenceAndRuleVersion (e : EvidenceEvent) : option Problem :=
  if negb (isFinite (ev_Confidence e)) || fltb (ev_Confidence e) f0 || fltb f1 (ev_Confidence e)
  then refused "evidence confidence must be in [0,1]"
  else if blank (ev_RuleVersion e) then refused "evidence rule_version must not be empty"
  else None.

Definition validateInputWatermark (e : EvidenceEvent) : option Problem :=
  let w := ev_Watermark e in
  if (SeqStart w <=? 0) || (SeqEnd w <=? 0) then refused "evidence input_watermark seq range must be > 0"
  else if SeqEnd w <? SeqStart w then refused "evidence input_watermark seq_end must be >= seq_start"
  else None.

(** The loop over the features; [prev] is [features[i-1]]. *)
Fixpoint validateFeaturesFrom (prev : option EvidenceFeature) (features : list EvidenceFeature) : option Problem :=
  match features with
  | [] => None
  | f :: rest =>
      if blank (feature_Key f) then refused "evidence feature key must not be empty"
      else if negb (isFinite (feature_Value f)) then refused "evidence feature values must be finite"
      else if match prev with Some g => negb (str_ltb (feature_Key g) (feature_Key f)) | None => false end
      then refused "evidence features must be sorted and unique by key"
      else validateFeaturesFrom (Some f) rest
  end.
Definition validateEvidenceFeatures (features : list EvidenceFeature) : option Problem :=
  if Z.of_nat (length features) =? 0 then refused "evidence must have at least one feature"
  else validateFeaturesFrom None features.

Definition EvidenceEvent_Validate (e : EvidenceEvent) : option Problem :=
  orElse (validateTypeAndSeverity e)
    (orElse (validateIdentity e)
      (orElse (validateConfidenceAndRuleVersion e)
        (orElse (validateInputWatermark e)
          (orElse (validateEvidenceFeatures (ev_Features e))
            (if blank (ev_Explanation e) then refused "evidence explanation must not be empty" else None))))).
End validation.

(** ** features.go *)

(** [if i > 0 && out[i].Key == out[i-1].Key { continue }]: the loop reads [out],
    whose cells it overwrites from the front, never ahead of the one it reads. *)
Fixpoint dropRepeated (prev : option string) (l : list EvidenceFeature) : list EvidenceFeature :=
  match l with
  | [] => []
  | f :: rest =>
      if bool_decide (prev = Some (feature_Key f)) then dropRepeated (Some (feature_Key f)) rest
      else f :: dropRepeated (Some (feature_Key f)) rest
  end.
Definition SortedFeatures {SS : StableSort} (l : list EvidenceFeature) : list EvidenceFeature :=
  dropRepeated None (SliceStable (λ a b, str_ltb (feature_Key a) (feature_Key b)) l).

Definition FeaturesFromMap {GR : GoRuntime} (m : gmap string float64) : list EvidenceFeature :=
  omap (λ k, MkFeature k <$> m !! k) (sort_slice str_ltb (map_range m).*1).

(** ** rule.go *)

Inductive EventKind := EventKindTrade | EventKindBook | EventKindCandle.
#[export] Instance EventKind_eq_dec : EqDecision EventKind.
Proof. solve_decision. Defined.

(** The candle fields, which no rule reads, are left out. *)
Record RuleEvent := MkRuleEvent {
  re_Kind : EventKind;
  re_Venue : string;
  re_Symbol : string;
  re_StreamID : string;
  re_TsServer : Z;
  re_Seq : Z;
  TradePrice : float64;
  TradeSize : float64;
  TradeSide : string;
  BestBid : float64;
  BestAsk : float64;
  BidDepth : float64;
  AskDepth : float64;
  BidLevels : Z;
  AskLevels : Z;
}.

Definition StreamKey (e : RuleEvent) : string := (re_Venue e ++ "|" ++ re_Symbol e)%string.

(** The interface of a rule, over the type of its receiver. *)
Class EvidenceRule (R : Type) := {
  Name : R → string;
  OnEvent : RuleEvent → R → R * list EvidenceEvent;
  StreamCount : R → Z;
  Reset : R → R;
  EvictStream : string → R → R;
}.

(** ** evidence_buffer.go *)

Record EvidenceBufferPolicy := MkBufferPolicy { MaxPerKind : Z }.
Definition NewEvidenceBufferPolicy (maxPerKind : Z) : Problem + EvidenceBufferPolicy :=
  if maxPerKind <=? 0 then inl (New ValidationFailed "evidence buffer max_per_kind must be > 0")
  else inr (MkBufferPolicy maxPerKind).

Record EvidenceBuffer := MkBuffer {
  buf_policy : EvidenceBufferPolicy;
  rings : gmap EvidenceType (list EvidenceEvent);
  heads : gmap EvidenceType Z;
}.
#[export] Instance EvidenceBuffer_eta : Eta EvidenceBuffer := λ r, MkBuffer (buf_policy r) (rings r) (heads r).

Definition NewEvidenceBuffer (policy : EvidenceBufferPolicy) : EvidenceBuffer := MkBuffer policy ∅ ∅.

(** An index outside the slice is a panic. *)
Definition bufferPanic : Problem := New Internal "index out of range".

Definition Push {GR : GoRuntime} (ev : EvidenceEvent) : Meth EvidenceBuffer Problem bool :=
  check (EvidenceEvent_Validate ev) ;;
  b ← recv;
  let ring := default [] (rings b !! ev_Type ev) in
  let max := MaxPerKind (buf_policy b) in
  if Z.of_nat (length ring) <? max then
    assign (λ b, b <| rings ::= <[ev_Type ev := ring ++ [ev]]> |>) ;; mret false
  else if Z.of_nat (length ring) =? 0 then
    throw (New ValidationFailed "evidence buffer ring is empty under full state")
  else
    let idx := default 0 (heads b !! ev_Type ev) in
    if (idx <? 0) || (Z.of_nat (length ring) <=? idx) then throw bufferPanic else
    assign (λ b, b <| rings ::= <[ev_Type ev := <[Z.to_nat idx := ev]> ring]> |>
                   <| heads ::= <[ev_Type ev := Z.rem (idx + 1) max]> |>) ;;
    mret true.

Definition List (kind : EvidenceType) (b : EvidenceBuffer) : list EvidenceEvent :=
  let ring := default [] (rings b !! kind) in
  if Z.of_nat (length ring) <? MaxPerKind (buf_policy b) then ring
  else
    let start := default 0 (heads b !! kind) in
    omap (λ i, ring !! Z.to_nat (Z.rem (start + Z.of_nat i) (Z.of_nat (length ring)))) (seq 0 (length ring)).

Definition Size (kind : EvidenceType) (b : EvidenceBuffer) : Z := Z.of_nat (length (default [] (rings b !! kind))).
Definition Total {GR : GoRuntime} (b : EvidenceBuffer) : Z :=
  foldl (λ total '(_, ring), total + Z.of_nat (length (ring : list EvidenceEvent))) 0 (map_range (rings b)).

(** ** regime.go *)

Definition RegimeKind : Type := string.
Definition validRegimeKinds : list RegimeKind := ["trending"; "ranging"; "breakout"; "high_volatility"; "low_volatility"].

Record FeaturePair := MkFeaturePair { pair_Name : string; pair_Value : float64 }.
Record RegimeSignal := MkRegimeSignal {
  rs_Venue : string; rs_Instrument : string; rs_Timeframe : string; rs_Kind : RegimeKind;
  Strength : float64; rs_Confidence : float64; rs_WindowStart : Z; rs_WindowEnd : Z; rs_Features : list FeaturePair;
}.

Definition isRegimeUnitInterval (v : float64) : bool :=
  negb (isNaN v) && negb (isInf v) && fleb f0 v && fleb v f1.

Section regime.
Context {GR : GoRuntime}.

Fixpoint validatePairs (features : list FeaturePair) : option Problem :=
  match features with
  | [] => None
  | f :: rest =>
      if blank (pair_Name f) then refused "regime feature name must not be empty"
      else if isNaN (pair_Value f) || isInf (pair_Value f) then refused "regime feature values must be finite"
      else validatePairs rest
  end.

Definition RegimeSignal_Validate (r : RegimeSignal) : option Problem :=
  if negb (bool_decide (rs_Kind r ∈ validRegimeKinds)) then refused "regime kind must be a recognized value"
  else if blank (rs_Venue r) then refused "regime venue must not be empty"
  else if blank (rs_Instrument r) then refused "regime instrument must not be empty"
  else if blank (rs_Timeframe r) then refused "regime timeframe must not be empty"
  else if (rs_WindowStart r <=? 0) || (rs_WindowEnd r <=? 0) || (rs_WindowEnd r <=? rs_WindowStart r)
       then refused "regime window must satisfy 0 < start < end"
  else if negb (isRegimeUnitInterval (Strength r)) then refused "regime strength must be in [0,1]"
  else if negb (isRegimeUnitInterval (rs_Confidence r)) then refused "regime confidence must be in [0,1]"
  else if Z.of_nat (length (rs_Features r)) =? 0 then refused "regime features must not be empty"
  else validatePairs (rs_Features r).
End regime.

(** ** regime_store.go *)

Record RegimeStoreKey := MkRegimeKey { rk_Venue : string; rk_Instrument : string; rk_Timeframe : string }.
#[export] Instance RegimeStoreKey_eq_dec : EqDecision RegimeStoreKey.
Proof. solve_decision. Defined.
#[export] Instance RegimeStoreKey_countable : Countable RegimeStoreKey :=
  inj_countable' (λ k, (rk_Venue k, rk_Instrument k, rk_Timeframe k)) (λ t, MkRegimeKey t.1.1 t.1.2 t.2)
    (λ k, match k with MkRegimeKey _ _ _ => eq_refl end).

Record RegimeCandleSample := MkSample {
  rc_TsServer : Z; rc_WindowStart : Z; rc_WindowEnd : Z;
  rc_Open : float64; rc_High : float64; rc_Low : float64; rc_Close : float64; rc_Volume : float64;
}.

Record RegimeStorePolicy := MkRegimePolicy { MaxStreams : Z; HistoryCap : Z; CandleHistoryCap : Z }.
Definition NewRegimeStorePolicy (maxStreams historyCap : Z) : Problem + RegimeStorePolicy :=
  if maxStreams <=? 0 then inl (New ValidationFailed "regime store max_streams must be > 0")
  else if historyCap <=? 0 then inl (New ValidationFailed "regime store history_cap must be > 0")
  else inr (MkRegimePolicy maxStreams historyCap historyCap).

Record regimeStreamState := MkRegimeStream { candles : list RegimeCandleSample; regimes : list RegimeSignal }.
#[export] Instance regimeStreamState_eta : Eta regimeStreamState := λ r, MkRegimeStream (candles r) (regimes r).

(** A stream's state is reached only through the map: what the code writes through
    the pointer is the entry of the map. *)
Record RegimeStore := MkRegimeStore {
  regime_policy : RegimeStorePolicy;
  regime_order : list RegimeStoreKey;
  regime_state : gmap RegimeStoreKey regimeStreamState;
}.
#[export] Instance RegimeStore_eta : Eta RegimeStore := λ r,
  MkRegimeStore (regime_policy r) (regime_order r) (regime_state r).

Definition NewRegimeStore (policy : RegimeStorePolicy) : RegimeStore := MkRegimeStore policy [] ∅.

(** [appendBoundedCandle] and [appendBoundedRegime]: [copy(history, history[1:])]
    moves the elements one place to the front. *)
Definition appendBounded {A} (history : list A) (x : A) (cap : Z) : list A :=
  if cap <=? 0 then history
  else if Z.of_nat (length history) <? cap then history ++ [x]
  else tail history ++ [x].

Definition evictOldestStream (s : RegimeStore) : RegimeStore :=
  match regime_order s with
  | [] => s
  | evicted :: rest => s <| regime_order := rest |> <| regime_state ::= delete evicted |>
  end.

Definition getOrCreateState (key : RegimeStoreKey) (s : RegimeStore) : RegimeStore :=
  match regime_state s !! key with
  | Some _ => s
  | None =>
      let s := if MaxStreams (regime_policy s) <=? Z.of_nat (size (regime_state s)) then evictOldestStream s else s in
      s <| regime_state ::= <[key := MkRegimeStream [] []]> |> <| regime_order ::= λ o, o ++ [key] |>
  end.

Section store.
Context {GR : GoRuntime}.

Definition validateRegimeKey (key : RegimeStoreKey) : option Problem :=
  Collect [NonEmptyString "venue" (TrimSpace (rk_Venue key)); NonEmptyString "instrument" (TrimSpace (rk_Instrument key));
           NonEmptyString "timeframe" (TrimSpace (rk_Timeframe key))].

Definition validateCandleSample (sample : RegimeCandleSample) : option Problem :=
  if (rc_WindowStart sample <=? 0) || (rc_WindowEnd sample <=? rc_WindowStart sample)
  then refused "regime candle sample window must satisfy 0 < start < end"
  else if fleb (rc_Close sample) f0 || fleb (rc_High sample) f0 || fleb (rc_Low sample) f0
  then refused "regime candle sample prices must be > 0"
  else None.

Definition PutCandle (key : RegimeStoreKey) (sample : RegimeCandleSample) : Meth RegimeStore Problem unit :=
  check (validateRegimeKey key) ;;
  check (validateCandleSample sample) ;;
  assign (getOrCreateState key) ;;
  assign (λ s, s <| regime_state ::= alter (λ st, st <| candles ::= λ h,
                      appendBounded h sample (CandleHistoryCap (regime_policy s)) |>) key |>).

Definition PutRegime (key : RegimeStoreKey) (signal : RegimeSignal) : Meth RegimeStore Problem unit :=
  check (validateRegimeKey key) ;;
  check (RegimeSignal_Validate signal) ;;
  assign (getOrCreateState key) ;;
  assign (λ s, s <| regime_state ::= alter (λ st, st <| regimes ::= λ h,
                      appendBounded h signal (HistoryCap (regime_policy s)) |>) key |>).
End store.

Definition Candles (key : RegimeStoreKey) (s : RegimeStore) : list RegimeCandleSample :=
  match regime_state s !! key with Some st => candles st | None => [] end.
Definition LastRegime (key : RegimeStoreKey) (s : RegimeStore) : option RegimeSignal :=
  match regime_state s !! key with Some st => last (regimes st) | None => None end.
Definition RegimeHistory (key : RegimeStoreKey) (s : RegimeStore) : list RegimeSignal :=
  match regime_state s !! key with Some st => regimes st | None => [] end.
Definition RegimeStreamCount (s : RegimeStore) : Z := Z.of_nat (size (regime_state s)).
