(* ===== verification/EvidenceRules.v ===== *)
(** * EvidenceRules: internal/core/evidence/app, the rules

    stream_state.go, rule_config.go, stream_id.go, feature_extractor.go and the five
    rules rule_spread_explosion.go, rule_liquidity_thinning.go,
    rule_persistent_imbalance.go, rule_absorption.go and rule_sweep.go. Each rule
    keeps a state per stream in a bounded map; the states are reached only through
    the map, so a step of a stream is a function of its state that is written back.
    The five rules differ in that step only ([StreamRule]); each is an instance of
    the interface [EvidenceRule]. *)

From S2P Require Import Prelude GoRuntime Shared Evidence.

Local Open Scope string_scope.
Local Open Scope list_scope.
Local Open Scope Z_scope.

(** ** stream_state.go *)

Definition ringCap : nat := 64.

(** [RingFloat64] and [RingInt64]: an array, the next place to write and the number
    of values. *)
Record Ring (A : Type) := MkRing { ring_buf : list A; ring_head : nat; ring_count : nat }.
Arguments MkRing {A}.
Arguments ring_buf {A}.
Arguments ring_head {A}.
Arguments ring_count {A}.

Definition emptyRing {A} (zero : A) : Ring A := MkRing (replicate ringCap zero) 0 0.

Definition ringPush {A} (v : A) (r : Ring A) : Ring A :=
  MkRing (<[ring_head r := v]> (ring_buf r)) ((ring_head r + 1) mod ringCap)
    (if (ring_count r <? ringCap)%nat then S (ring_count r) else ring_count r).

Definition ringStart {A} (r : Ring A) : nat := (ring_head r + ringCap - ring_count r) mod ringCap.

(** The values the loops over a ring read, oldest first. *)
Definition ringValues {A} (r : Ring A) : list A :=
  omap (λ i, ring_buf r !! ((ringStart r + i) mod ringCap)%nat) (seq 0 (ring_count r)).

Definition Latest (r : Ring float64) : float64 :=
  if (ring_count r =? 0)%nat then f0
  else default f0 (ring_buf r !! ((ring_head r + ringCap - 1) mod ringCap)%nat).

Definition Mean (r : Ring float64) : float64 :=
  if (ring_count r =? 0)%nat then f0
  else fdiv (foldl fadd f0 (ringValues r)) (f_of_Z (Z.of_nat (ring_count r))).

(** [math.Sqrt] *)
Definition fsqrt : float64 → float64 := SFsqrt 53 1024.

Definition StdDev (r : Ring float64) : float64 :=
  if (ring_count r <? 2)%nat then f0 else
  let mean := Mean r in
  let sumSq := foldl (λ acc v, let d := fsub v mean in fadd acc (fmul d d)) f0 (ringValues r) in
  fsqrt (fdiv sumSq (f_of_Z (Z.of_nat (ring_count r)))).

Definition ringReset {A} (r : Ring A) : Ring A := MkRing (ring_buf r) 0 0.

Definition Oldest (r : Ring Z) : Z :=
  if (ring_count r =? 0)%nat then 0 else default 0 (ring_buf r !! ringStart r).

(** ** rule_config.go, stream_id.go *)

Record RuleConfig := MkRuleConfig { MaxStreams : Z; CooldownMs : Z }.
Definition DefaultRuleConfig : RuleConfig := MkRuleConfig 256 5000.

(** [streamEntry] *)
Record streamEntry := MkEntry { lastEmitTs : Z }.
Definition canEmit (s : streamEntry) (tsServer cooldownMs : Z) : bool :=
  cooldownMs <=? sub64 tsServer (lastEmitTs s).

Definition resolveStreamID (event : RuleEvent) : string :=
  if str_eqb (re_StreamID event) "" then StreamKey event else re_StreamID event.

(** ** feature_extractor.go *)

Definition SpreadBps (bestBid bestAsk : float64) : float64 :=
  let mid := fdiv (fadd bestBid bestAsk) (f_of_Z 2) in
  if fleb mid f0 then f0 else fmul (fdiv (fsub bestAsk bestBid) mid) (f_of_Z 10000).
Definition SpreadAbsolute (bestBid bestAsk : float64) : float64 := fsub bestAsk bestBid.
Definition MidPrice (bestBid bestAsk : float64) : float64 := fdiv (fadd bestBid bestAsk) (f_of_Z 2).
Definition DepthImbalance (bidDepth askDepth : float64) : float64 :=
  let total := fadd bidDepth askDepth in
  if fleb total f0 then f0 else fdiv (fsub bidDepth askDepth) total.
Definition AggressorDelta (buyVol sellVol : float64) : float64 := fsub buyVol sellVol.
Definition ZScore (value mean stddev : float64) : float64 :=
  if fleb stddev f0 || isNaN stddev || isInf stddev then f0 else fdiv (fsub value mean) stddev.

(** ** What the rules share *)

(** A rule: its configuration and the state of each of its streams. *)
Record Rule (T : Type) := MkRule { rule_cfg : RuleConfig; streams : gmap string T }.
Arguments MkRule {T}.
Arguments rule_cfg {T}.
Arguments streams {T}.
#[export] Instance Rule_eta T : Eta (Rule T) := λ r, MkRule (rule_cfg r) (streams r).

Section streams.
Context {GR : GoRuntime} {T : Type}.

(** [evictOldest]: the smallest key goes. *)
Definition evictVictim (m : gmap string T) : option string :=
  foldl (λ victim '(k, _),
    match victim with
    | None => Some k
    | Some v => if str_ltb k v then Some k else victim
    end) None (map_range m).
Definition evictOldest (m : gmap string T) : gmap string T :=
  match evictVictim m with Some victim => delete victim m | None => m end.

Definition getOrCreate (zero : T) (key : string) (r : Rule T) : Rule T * T :=
  match streams r !! key with
  | Some st => (r, st)
  | None =>
      let m := if MaxStreams (rule_cfg r) <=? Z.of_nat (size (streams r)) then evictOldest (streams r) else streams r in
      (r <| streams := <[key := zero]> m |>, zero)
  end.
End streams.

(** What a rule is made of: the events it looks at, the state of a new stream and
    the step of a stream. *)
Class StreamRule (T : Type) := {
  ruleName : string;
  zeroStream : T;
  relevant : RuleEvent → bool;
  streamStep : RuleConfig → RuleEvent → T → T * option EvidenceEvent;
}.

#[export] Instance streamRule_rule {GR : GoRuntime} {T} `{!StreamRule T} : EvidenceRule (Rule T) := {|
  Name _ := ruleName;
  OnEvent event r :=
    if negb (relevant event) then (r, []) else
    let key := StreamKey event in
    let '(r, st) := getOrCreate zeroStream key r in
    let '(st, out) := streamStep (rule_cfg r) event st in
    (r <| streams ::= <[key := st]> |>, match out with Some ev => [ev] | None => [] end);
  StreamCount r := Z.of_nat (size (streams r));
  Reset r := r <| streams := ∅ |>;
  EvictStream key r := r <| streams ::= delete key |>;
|}.

(** Three grades, each a severity with its confidence. *)
Definition graded {A} (top high : bool) (critical hi medium : A) : A :=
  if top then critical else if high then hi else medium.
Definition gradeSeverity (top high : bool) : Severity := graded top high SeverityCritical SeverityHigh SeverityMedium.
Definition gradeConfidence (top high : bool) : float64 := graded top high (flit 95 100) (flit 85 100) (flit 70 100).

(** ** rule_spread_explosion.go *)

Record SpreadExplosionThresholds := MkSpreadThresholds { se_MinSamples : Z; MinZScore : float64; MinSpreadBps : float64 }.
Definition defaultSpreadExplosionThresholds : SpreadExplosionThresholds :=
  MkSpreadThresholds 10 (flit 5 2) (f_of_Z 10).

Record spreadStreamState := MkSpread { se_ring : Ring float64; se_seqRing : Ring Z; se_cooldown : streamEntry }.
#[export] Instance spreadStreamState_eta : Eta spreadStreamState := λ r,
  MkSpread (se_ring r) (se_seqRing r) (se_cooldown r).

Definition severityFromZ (z : float64) : Severity := gradeSeverity (fleb (f_of_Z 5) z) (fleb (flit 7 2) z).
Definition confidenceFromZ (z : float64) : float64 := gradeConfidence (fleb (f_of_Z 5) z) (fleb (flit 7 2) z).

Section rules.
Context {GR : GoRuntime}.

Definition spreadRelevant (event : RuleEvent) : bool :=
  bool_decide (re_Kind event = EventKindBook) &&
  negb (fleb (BestBid event) f0 || fleb (BestAsk event) f0 || fleb (BestAsk event) (BestBid event)).

Definition spreadStep (cfg : RuleConfig) (event : RuleEvent) (st : spreadStreamState)
    : spreadStreamState * option EvidenceEvent :=
  let thresholds := defaultSpreadExplosionThresholds in
  let spreadBps := SpreadBps (BestBid event) (BestAsk event) in
  let st := st <| se_ring ::= ringPush spreadBps |> <| se_seqRing ::= ringPush (re_Seq event) |> in
  if Z.of_nat (ring_count (se_ring st)) <? se_MinSamples thresholds then (st, None) else
  let mean := Mean (se_ring st) in
  let stddev := StdDev (se_ring st) in
  let z := ZScore spreadBps mean stddev in
  if fleb z (MinZScore thresholds) || fleb spreadBps (MinSpreadBps thresholds) then (st, None) else
  if negb (canEmit (se_cooldown st) (re_TsServer event) (CooldownMs cfg)) then (st, None) else
  let st := st <| se_cooldown := MkEntry (re_TsServer event) |> in
  (st, Some (MkEvidence SpreadExplosion (re_TsServer event) (re_Venue event) (re_Symbol event) (resolveStreamID event)
         (re_Seq event) (severityFromZ z) (confidenceFromZ z)
         (FeaturesFromMap (<["mean_bps" := mean]> (<["spread_bps" := spreadBps]> (<["z_score" := z]> ∅))))
         "spread z-score exceeded threshold" RuleVersionV0 (MkWatermark (Oldest (se_seqRing st)) (re_Seq event)))).

#[export] Instance SpreadExplosionRule : StreamRule spreadStreamState := {|
  ruleName := SpreadExplosion;
  zeroStream := MkSpread (emptyRing f0) (emptyRing 0) (MkEntry 0);
  relevant := spreadRelevant;
  streamStep := spreadStep;
|}.

(** ** rule_liquidity_thinning.go *)

Record LiquidityThinningThresholds := MkLiqThresholds { lt_MinSamples : Z; MinDropPct : float64; MaxZScore : float64 }.
Definition defaultLiquidityThinningThresholds : LiquidityThinningThresholds :=
  MkLiqThresholds 10 (flit 30 100) (f_of_Z (-2)).

Record liqStreamState := MkLiq { lt_ring : Ring float64; lt_seqRing : Ring Z; lt_cooldown : streamEntry }.
#[export] Instance liqStreamState_eta : Eta liqStreamState := λ r, MkLiq (lt_ring r) (lt_seqRing r) (lt_cooldown r).

Definition liqSeverity (dropPct : float64) : Severity := gradeSeverity (fleb (flit 70 100) dropPct) (fleb (flit 50 100) dropPct).
Definition liqConfidence (dropPct : float64) : float64 := gradeConfidence (fleb (flit 70 100) dropPct) (fleb (flit 50 100) dropPct).

Definition liqRelevant (event : RuleEvent) : bool :=
  bool_decide (re_Kind event = EventKindBook) && negb (fltb (fadd (BidDepth event) (AskDepth event)) f0).

Definition liqStep (cfg : RuleConfig) (event : RuleEvent) (st : liqStreamState) : liqStreamState * option EvidenceEvent :=
  let thresholds := defaultLiquidityThinningThresholds in
  let totalDepth := fadd (BidDepth event) (AskDepth event) in
  let st := st <| lt_ring ::= ringPush totalDepth |> <| lt_seqRing ::= ringPush (re_Seq event) |> in
  if Z.of_nat (ring_count (lt_ring st)) <? lt_MinSamples thresholds then (st, None) else
  let mean := Mean (lt_ring st) in
  let stddev := StdDev (lt_ring st) in
  if fleb mean f0 then (st, None) else
  let dropPct := fdiv (fsub mean totalDepth) mean in
  let z := ZScore totalDepth mean stddev in
  if fltb (MaxZScore thresholds) z || fltb dropPct (MinDropPct thresholds) then (st, None) else
  if negb (canEmit (lt_cooldown st) (re_TsServer event) (CooldownMs cfg)) then (st, None) else
  let st := st <| lt_cooldown := MkEntry (re_TsServer event) |> in
  (st, Some (MkEvidence LiquidityThinning (re_TsServer event) (re_Venue event) (re_Symbol event) (resolveStreamID event)
         (re_Seq event) (liqSeverity dropPct) (liqConfidence dropPct)
         (FeaturesFromMap (<["depth_drop_pct" := fmul dropPct (f_of_Z 100)]>
            (<["mean_depth" := mean]> (<["total_depth" := totalDepth]> ∅))))
         "aggregate depth dropped significantly below rolling mean" RuleVersionV0
         (MkWatermark (Oldest (lt_seqRing st)) (re_Seq event)))).

#[export] Instance LiquidityThinningRule : StreamRule liqStreamState := {|
  ruleName := LiquidityThinning;
  zeroStream := MkLiq (emptyRing f0) (emptyRing 0) (MkEntry 0);
  relevant := liqRelevant;
  streamStep := liqStep;
|}.

(** ** rule_persistent_imbalance.go *)

Record imbStreamState := MkImb {
  consecutive : Z; lastSign : float64; streakStartSeq : Z; imb_cooldown : streamEntry;
}.
#[export] Instance imbStreamState_eta : Eta imbStreamState := λ r,
  MkImb (consecutive r) (lastSign r) (streakStartSeq r) (imb_cooldown r).

(** The fields [threshold] and [minConsecutive] the constructor sets. *)
Definition imbThreshold : float64 := flit 3 10.
Definition minConsecutive : Z := 10.

Definition imbSeverity (n : Z) : Severity := gradeSeverity (30 <=? n) (20 <=? n).
Definition imbConfidence (n : Z) : float64 := gradeConfidence (30 <=? n) (20 <=? n).

(** The streak after one observation of imbalance [imb]. *)
Definition imbTrack (event : RuleEvent) (imb sign : float64) (st : imbStreamState) : imbStreamState :=
  let st := if feqb sign (lastSign st) then st <| consecutive ::= λ n, add64 n 1 |>
            else st <| consecutive := 1 |> <| lastSign := sign |> <| streakStartSeq := re_Seq event |> in
  if streakStartSeq st <=? 0 then st <| streakStartSeq := re_Seq event |> else st.

Definition imbStep (cfg : RuleConfig) (event : RuleEvent) (st : imbStreamState) : imbStreamState * option EvidenceEvent :=
  let imb := DepthImbalance (BidDepth event) (AskDepth event) in
  if fltb (fabs imb) imbThreshold
  then (st <| consecutive := 0 |> <| lastSign := f0 |> <| streakStartSeq := 0 |>, None) else
  let sign := if fltb imb f0 then f_of_Z (-1) else f1 in
  let st := imbTrack event imb sign st in
  if consecutive st <? minConsecutive then (st, None) else
  if negb (canEmit (imb_cooldown st) (re_TsServer event) (CooldownMs cfg)) then (st, None) else
  let st := st <| imb_cooldown := MkEntry (re_TsServer event) |> in
  let side := if fltb sign f0 then "ask" else "bid" in
  (st, Some (MkEvidence PersistentImbalance (re_TsServer event) (re_Venue event) (re_Symbol event) (resolveStreamID event)
         (re_Seq event) (imbSeverity (consecutive st)) (imbConfidence (consecutive st))
         (FeaturesFromMap (<["consecutive" := f_of_Z (consecutive st)]>
            (<["dominant_side" := sign]> (<["imbalance" := imb]> ∅))))
         (side ++ "-heavy imbalance persisted over consecutive observations")%string RuleVersionV0
         (MkWatermark (streakStartSeq st) (re_Seq event)))).

#[export] Instance PersistentImbalanceRule : StreamRule imbStreamState := {|
  ruleName := PersistentImbalance;
  zeroStream := MkImb 0 f0 0 (MkEntry 0);
  relevant event := bool_decide (re_Kind event = EventKindBook);
  streamStep := imbStep;
|}.

(** ** rule_absorption.go *)

Record absStreamState := MkAbs {
  volumeRing : Ring float64; cumVol : float64; priceRef : float64; accumulationStartSeq : Z; abs_cooldown : streamEntry;
}.
#[export] Instance absStreamState_eta : Eta absStreamState := λ r,
  MkAbs (volumeRing r) (cumVol r) (priceRef r) (accumulationStartSeq r) (abs_cooldown r).

Record AbsorptionThresholds := MkAbsThresholds { abs_MinSamples : Z; MaxPriceMovePct : float64; MinVolumeRatio : float64 }.
Definition defaultAbsorptionThresholds : AbsorptionThresholds := MkAbsThresholds 10 (flit 1 10) (f_of_Z 2).

Definition absSeverity (ratio : float64) : Severity := gradeSeverity (fleb (f_of_Z 8) ratio) (fleb (f_of_Z 4) ratio).
Definition absConfidence (ratio : float64) : float64 := gradeConfidence (fleb (f_of_Z 8) ratio) (fleb (f_of_Z 4) ratio).

(** [st.priceRef = event.TradePrice; st.accumulationStartSeq = event.Seq] *)
Definition anchor (event : RuleEvent) (st : absStreamState) : absStreamState :=
  st <| priceRef := TradePrice event |> <| accumulationStartSeq := re_Seq event |>.

Definition absRelevant (event : RuleEvent) : bool :=
  bool_decide (re_Kind event = EventKindTrade) && negb (fleb (TradePrice event) f0 || fleb (TradeSize event) f0).

Definition absStep (cfg : RuleConfig) (event : RuleEvent) (st : absStreamState) : absStreamState * option EvidenceEvent :=
  let thresholds := defaultAbsorptionThresholds in
  let st := st <| volumeRing ::= ringPush (TradeSize event) |> in
  let len := Z.of_nat (ring_count (volumeRing st)) in
  if len <? abs_MinSamples thresholds then (anchor event st, None) else
  let meanVol := Mean (volumeRing st) in
  let st := if feqb (priceRef st) f0 then anchor event st else st in
  let st := st <| cumVol ::= λ v, fadd v (TradeSize event) |> in
  let priceMove := fdiv (fabs (fsub (TradePrice event) (priceRef st))) (priceRef st) in
  if fltb (MaxPriceMovePct thresholds) (fmul priceMove (f_of_Z 100)) then (anchor event (st <| cumVol := f0 |>), None) else
  let volRatio := fdiv (cumVol st) (fmul meanVol (f_of_Z len)) in
  if fltb volRatio (MinVolumeRatio thresholds) then (st, None) else
  if negb (canEmit (abs_cooldown st) (re_TsServer event) (CooldownMs cfg)) then (st, None) else
  let cumVolEmitted := cumVol st in
  let startSeq := if accumulationStartSeq st <=? 0 then re_Seq event else accumulationStartSeq st in
  let st := anchor event (st <| abs_cooldown := MkEntry (re_TsServer event) |> <| cumVol := f0 |>) in
  (st, Some (MkEvidence Absorption (re_TsServer event) (re_Venue event) (re_Symbol event) (resolveStreamID event)
         (re_Seq event) (absSeverity volRatio) (absConfidence volRatio)
         (FeaturesFromMap (<["cum_volume" := cumVolEmitted]>
            (<["price_move_pct" := fmul priceMove (f_of_Z 100)]> (<["volume_ratio" := volRatio]> ∅))))
         "large cumulative volume absorbed with minimal price movement" RuleVersionV0
         (MkWatermark startSeq (re_Seq event)))).

#[export] Instance AbsorptionRule : StreamRule absStreamState := {|
  ruleName := Absorption;
  zeroStream := MkAbs (emptyRing f0) f0 f0 0 (MkEntry 0);
  relevant := absRelevant;
  streamStep := absStep;
|}.

(** ** rule_sweep.go *)

Record sweepStreamState := MkSweep {
  lastBidLevels : Z; lastAskLevels : Z; lastBidDepth : float64; lastAskDepth : float64; sweep_cooldown : streamEntry;
}.
#[export] Instance sweepStreamState_eta : Eta sweepStreamState := λ r,
  MkSweep (lastBidLevels r) (lastAskLevels r) (lastBidDepth r) (lastAskDepth r) (sweep_cooldown r).

(** The fields [minLevelDrop] and [minDepthDropPc] the constructor sets. *)
Definition minLevelDrop : Z := 5.
Definition minDepthDropPc : float64 := flit 40 100.

Definition updateState (event : RuleEvent) (st : sweepStreamState) : sweepStreamState :=
  st <| lastBidLevels := BidLevels event |> <| lastAskLevels := AskLevels event |>
     <| lastBidDepth := BidDepth event |> <| lastAskDepth := AskDepth event |>.

Definition dropPct (prev current : float64) : float64 :=
  if fleb prev f0 || fleb prev current then f0 else fdiv (fsub prev current) prev.
Definition sideToNumeric (side : string) : float64 := if str_eqb side "ask" then f_of_Z (-1) else f1.
Definition sweepSeverity (levelDrop : Z) (depthDrop : float64) : Severity :=
  gradeSeverity ((12 <=? levelDrop) || fleb (flit 75 100) depthDrop) ((8 <=? levelDrop) || fleb (flit 60 100) depthDrop).
Definition sweepConfidence (levelDrop : Z) (depthDrop : float64) : float64 :=
  gradeConfidence ((12 <=? levelDrop) || fleb (flit 75 100) depthDrop) ((8 <=? levelDrop) || fleb (flit 60 100) depthDrop).

(** The side that is swept, with its drops; [side == ""] is [None]. *)
Definition sweptSide (event : RuleEvent) (st : sweepStreamState) : option (string * Z * float64) :=
  let bidLevelDrop := sub64 (lastBidLevels st) (BidLevels event) in
  let askLevelDrop := sub64 (lastAskLevels st) (AskLevels event) in
  let bidDepthDrop := dropPct (lastBidDepth st) (BidDepth event) in
  let askDepthDrop := dropPct (lastAskDepth st) (AskDepth event) in
  if (minLevelDrop <=? bidLevelDrop) && fleb minDepthDropPc bidDepthDrop && (askLevelDrop <=? bidLevelDrop)
  then Some ("bid", bidLevelDrop, bidDepthDrop)
  else if (minLevelDrop <=? askLevelDrop) && fleb minDepthDropPc askDepthDrop
  then Some ("ask", askLevelDrop, askDepthDrop)
  else None.

Definition sweepStep (cfg : RuleConfig) (event : RuleEvent) (st : sweepStreamState)
    : sweepStreamState * option EvidenceEvent :=
  if (lastBidLevels st =? 0) && (lastAskLevels st =? 0) then (updateState event st, None) else
  let swept := sweptSide event st in
  let st := updateState event st in
  match swept with
  | None => (st, None)
  | Some (side, levelDrop, depthDrop) =>
      if negb (canEmit (sweep_cooldown st) (re_TsServer event) (CooldownMs cfg)) then (st, None) else
      let st := st <| sweep_cooldown := MkEntry (re_TsServer event) |> in
      (st, Some (MkEvidence Sweep (re_TsServer event) (re_Venue event) (re_Symbol event) (resolveStreamID event)
             (re_Seq event) (sweepSeverity levelDrop depthDrop) (sweepConfidence levelDrop depthDrop)
             (FeaturesFromMap (<["depth_drop_pct" := fmul depthDrop (f_of_Z 100)]>
                (<["level_drop" := f_of_Z levelDrop]> (<["side" := sideToNumeric side]> ∅))))
             ("order book " ++ side ++ " side depleted across multiple levels")%string RuleVersionV0
             (MkWatermark (re_Seq event) (re_Seq event))))
  end.

#[export] Instance SweepRule : StreamRule sweepStreamState := {|
  ruleName := Sweep;
  zeroStream := MkSweep 0 0 f0 f0 (MkEntry 0);
  relevant event := bool_decide (re_Kind event = EventKindBook);
  streamStep := sweepStep;
|}.
End rules.
