(* ===== verification/EvidenceEngine.v ===== *)
(** * EvidenceEngine: internal/core/evidence/app/state_store.go, engine.go

    The store that admits events by stream, sequence number and time, and the
    engine that hands an admitted event to its rules and emits the evidence that
    is valid. The engine knows its rules by their interface only ([EvidenceRule]).
    The optional emitter is the log of what it was given. *)

From S2P Require Import Prelude GoRuntime Shared Evidence.

Local Open Scope string_scope.
Local Open Scope list_scope.
Local Open Scope Z_scope.

(** ** state_store.go *)

Record EvidenceStateStoreConfig := MkStoreConfig { cfg_MaxEntries : Z; cfg_TTLMillis : Z }.
Record StateEviction := MkEviction { evicted_StreamID : string; evicted_Reason : string }.
Record StateObserveResult := MkObserve { Accepted : bool; Reason : string; PrevTs : Z; Evictions : list StateEviction }.
Record streamState := MkStreamState { LastTs : Z; LastSeq : Z }.

Record EvidenceStateStore := MkStore { maxEntries : Z; ttlMillis : Z; entries : gmap string streamState }.
#[export] Instance EvidenceStateStore_eta : Eta EvidenceStateStore := λ r,
  MkStore (maxEntries r) (ttlMillis r) (entries r).

Definition NewEvidenceStateStore (cfg : EvidenceStateStoreConfig) : EvidenceStateStore :=
  let max := if cfg_MaxEntries cfg <=? 0 then 1024 else cfg_MaxEntries cfg in
  let ttl := if cfg_TTLMillis cfg <=? 0 then 10 * 60 * 1000 else cfg_TTLMillis cfg in
  MkStore max ttl ∅.

Definition Len (s : EvidenceStateStore) : Z := Z.of_nat (size (entries s)).

Section store.
Context {GR : GoRuntime}.

Definition sortedKeys (s : EvidenceStateStore) : list string := sort_slice str_ltb (map_range (entries s)).*1.

Definition evictTTL (currentTs : Z) (s : EvidenceStateStore) : EvidenceStateStore * list StateEviction :=
  if (Z.of_nat (size (entries s)) =? 0) || (ttlMillis s <=? 0) then (s, []) else
  foldl (λ '(s, evicted) k,
    match entries s !! k with
    | Some v => if sub64 currentTs (LastTs v) <=? ttlMillis s then (s, evicted)
                else (s <| entries ::= delete k |>, evicted ++ [MkEviction k "ttl"])
    | None => (s, evicted)
    end) (s, []) (sortedKeys s).

Definition oldestStream (s : EvidenceStateStore) : string :=
  match sortedKeys s with
  | [] => ""
  | k0 :: rest =>
      let ts k := match entries s !! k with Some v => LastTs v | None => 0 end in
      foldl (λ victim k, if ts k <? ts victim then k else victim) k0 rest
  end.

Definition Observe (streamID : string) (seq tsServer : Z) (s : EvidenceStateStore)
    : EvidenceStateStore * StateObserveResult :=
  let streamID := TrimSpace streamID in
  if str_eqb streamID "" then (s, MkObserve false "empty_stream_id" 0 [])
  else if seq <=? 0 then (s, MkObserve false "invalid_seq" 0 [])
  else if tsServer <=? 0 then (s, MkObserve false "invalid_ts_server" 0 [])
  else
    let '(s, evictions) := evictTTL tsServer s in
    let prevTs := match entries s !! streamID with Some prev => LastTs prev | None => 0 end in
    if match entries s !! streamID with Some prev => seq <=? LastSeq prev | None => false end
    then (s, MkObserve false "non_monotonic_seq" prevTs evictions)
    else
      let s := s <| entries ::= <[streamID := MkStreamState tsServer seq]> |> in
      if maxEntries s <? Z.of_nat (size (entries s)) then
        let victim := oldestStream s in
        if str_eqb victim "" then (s, MkObserve true "" prevTs evictions)
        else (s <| entries ::= delete victim |>, MkObserve true "" prevTs (evictions ++ [MkEviction victim "capacity"]))
      else (s, MkObserve true "" prevTs evictions).
End store.

(** ** engine.go *)

Record EngineConfig := MkEngineConfig { MaxStreamsPerRule : Z; MaxStreamsGlobal : Z; StreamTTLMillis : Z }.
Definition DefaultEngineConfig : EngineConfig := MkEngineConfig 256 1024 (10 * 60 * 1000).

(** A value of the interface type: a rule with its implementation. *)
Record anyRule := AnyRule { rule_type : Type; rule_impl : EvidenceRule rule_type; rule_value : rule_type }.
Definition onAny (event : RuleEvent) (r : anyRule) : anyRule * list EvidenceEvent :=
  let '(v, out) := OnEvent (EvidenceRule:=rule_impl r) event (rule_value r) in (AnyRule _ (rule_impl r) v, out).
Definition evictAny (key : string) (r : anyRule) : anyRule :=
  AnyRule _ (rule_impl r) (EvictStream (EvidenceRule:=rule_impl r) key (rule_value r)).
Definition nameAny (r : anyRule) : string := Name (EvidenceRule:=rule_impl r) (rule_value r).
Definition countAny (r : anyRule) : Z := StreamCount (EvidenceRule:=rule_impl r) (rule_value r).

(** [handed] is what the emitter was given, when there is one. *)
Record EvidenceEngine := MkEngine {
  engine_cfg : EngineConfig;
  rules : list anyRule;
  store : EvidenceStateStore;
  hasEmitter : bool;
  handed : list EvidenceEvent;
  totalEmitted : Z;
  totalEvicted : Z;
}.
#[export] Instance EvidenceEngine_eta : Eta EvidenceEngine := λ r,
  MkEngine (engine_cfg r) (rules r) (store r) (hasEmitter r) (handed r) (totalEmitted r) (totalEvicted r).

Definition NewEvidenceEngineWithEmitter (cfg : EngineConfig) (emitter : bool) (rules : list anyRule) : EvidenceEngine :=
  let global := if MaxStreamsGlobal cfg <=? 0 then 1024 else MaxStreamsGlobal cfg in
  let ttl := if StreamTTLMillis cfg <=? 0 then 10 * 60 * 1000 else StreamTTLMillis cfg in
  let perRule := if MaxStreamsPerRule cfg <=? 0 then 256 else MaxStreamsPerRule cfg in
  MkEngine (MkEngineConfig perRule global ttl) rules (NewEvidenceStateStore (MkStoreConfig global ttl)) emitter [] 0 0.
Definition NewEvidenceEngine (cfg : EngineConfig) (rules : list anyRule) : EvidenceEngine :=
  NewEvidenceEngineWithEmitter cfg false rules.

Section engine.
Context {GR : GoRuntime} {SS : StableSort}.

(** The evidence of a rule, completed by the engine. *)
Definition complete (event : RuleEvent) (ev : EvidenceEvent) : EvidenceEvent :=
  let ev := ev <| ev_StreamID := re_StreamID event |> in
  let ev := if ev_Seq ev <=? 0 then ev <| ev_Seq := re_Seq event |> else ev in
  let ev := if SeqStart (ev_Watermark ev) <=? 0 then ev <| ev_Watermark ::= λ w, w <| SeqStart := re_Seq event |> |> else ev in
  let ev := if SeqEnd (ev_Watermark ev) <=? 0 then ev <| ev_Watermark ::= λ w, w <| SeqEnd := re_Seq event |> |> else ev in
  ev <| ev_Features ::= SortedFeatures |>.

(** The loop over what one rule returned: the valid evidence goes out. *)
Definition emitOne (event : RuleEvent) (acc : EvidenceEngine * list EvidenceEvent) (ev : EvidenceEvent)
    : EvidenceEngine * list EvidenceEvent :=
  let '(e, out) := acc in
  let ev := complete event ev in
  match EvidenceEvent_Validate ev with
  | Some _ => (e, out)
  | None => (if hasEmitter e then e <| handed ::= λ l, l ++ [ev] |> else e, out ++ [ev])
  end.

(** The loop over the rules: [done] are those that have run. *)
Fixpoint runRules (event : RuleEvent) (done todo : list anyRule) (e : EvidenceEngine) (out : list EvidenceEvent)
    : EvidenceEngine * list EvidenceEvent :=
  match todo with
  | [] => (e <| rules := done |>, out)
  | r :: rest =>
      let '(r, ruleEvents) := onAny event r in
      let '(e, out) := foldl (emitOne event) (e, out) ruleEvents in
      runRules event (done ++ [r]) rest e out
  end.

Definition applyEviction (e : EvidenceEngine) (eviction : StateEviction) : EvidenceEngine :=
  e <| rules ::= fmap (evictAny (evicted_StreamID eviction)) |> <| totalEvicted ::= λ n, add64 n 1 |>.

Definition Engine_OnEvent (event : RuleEvent) (e : EvidenceEngine) : EvidenceEngine * list EvidenceEvent :=
  let '(s, obs) := Observe (re_StreamID event) (re_Seq event) (re_TsServer event) (store e) in
  let e := foldl applyEviction (e <| store := s |>) (Evictions obs) in
  if negb (Accepted obs) then (e, []) else
  let '(e, out) := runRules event [] (rules e) e [] in
  (e <| totalEmitted ::= λ n, add64 n (Z.of_nat (length out)) |>, out).

Record EngineStats := MkStats { TotalStreams : Z; TotalEmitted : Z; TotalEvicted : Z; RuleStreams : gmap string Z }.
Definition Stats (e : EvidenceEngine) : EngineStats :=
  MkStats (Len (store e)) (totalEmitted e) (totalEvicted e)
    (foldl (λ m r, <[nameAny r := countAny r]> m) ∅ (rules e)).
End engine.
