(* ===== verification/EvidenceSpec.v ===== *)
(** * EvidenceSpec: what the evidence context promises

    A rolling ring holds the last sixty-four values; what the engine emits is valid
    and carries the event's stream; every rule waits out its cooldown, shown once
    for all rules against the class [CooledRule]; an imbalance is reported for a
    streak of observations; the buffer keeps the last events of a kind. And where
    it falls short: the engine evicts streams from its rules under another key than
    the rules use. *)

From S2P Require Import Prelude GoRuntime Shared Evidence EvidenceRules EvidenceEngine.

Local Open Scope string_scope.
Local Open Scope list_scope.
Local Open Scope Z_scope.

(** ** Rings *)

(** Two numbers less than [cap] apart have different places in a ring. *)
Lemma mod_distinct cap n i : (n ≤ i + cap - 1)%nat → (i < n)%nat → (n mod cap ≠ i mod cap)%nat.
Proof.
  intros Hi Hlt Heq. pose proof (Nat.div_mod_eq n cap). pose proof (Nat.div_mod_eq i cap).
  assert (Hd : (n - i = cap * (n / cap - i / cap))%nat) by (rewrite Nat.mul_sub_distr_l; lia).
  destruct (n / cap - i / cap)%nat; nia.
Qed.

Section ring.
Context {A : Type}.

Lemma ringCap_pos : ringCap ≠ 0%nat.
Proof. done. Qed.

(** After the values [vs] value number [i] is at place [i mod 64], if it is one of
    the last sixty-four. *)
Record ringOf (vs : list A) (r : Ring A) : Prop := {
  ring_len : length (ring_buf r) = ringCap;
  ring_at : ring_head r = (length vs mod ringCap)%nat;
  ring_n : ring_count r = Nat.min ringCap (length vs);
  ring_slot : ∀ i, (length vs ≤ i + ringCap)%nat → (i < length vs)%nat → ring_buf r !! (i mod ringCap)%nat = vs !! i;
}.

Lemma emptyRing_of (zero : A) : ringOf [] (emptyRing zero).
Proof. split; [done..|]. cbn. lia. Qed.

Lemma ringPush_of vs r v : ringOf vs r → ringOf (vs ++ [v]) (ringPush v r).
Proof.
  intros [Hlen Hat Hn Hslot]. pose proof ringCap_pos. split; cbn [ringPush ring_buf ring_head ring_count].
  - by rewrite length_insert.
  - rewrite Hat, length_app. by rewrite Nat.Div0.add_mod_idemp_l.
  - rewrite length_app, Hn. cbn [length]. destruct (Nat.ltb_spec (Nat.min ringCap (length vs)) ringCap); lia.
  - intros i Hi Hlt. rewrite length_app in Hi, Hlt. cbn [length] in Hi, Hlt.
    destruct (decide (i = length vs)) as [->|Hne].
    + rewrite Hat, list_lookup_insert_eq by (rewrite Hlen; by apply Nat.mod_upper_bound).
      rewrite lookup_app_r by lia. by rewrite Nat.sub_diag.
    + rewrite list_lookup_insert_ne by (rewrite Hat; apply mod_distinct; lia).
      rewrite lookup_app_l by lia. apply Hslot; lia.
Qed.

Lemma ringPushes_of vs zero : ringOf vs (foldl (λ r v, ringPush v r) (emptyRing zero) vs).
Proof.
  induction vs as [|v vs IH] using rev_ind; [apply emptyRing_of|]. rewrite foldl_app. by apply ringPush_of.
Qed.

(** The place of value number [n - c + i] of the last [c] values. *)
Lemma ring_place vs r i :
  ringOf vs r → (i < ring_count r)%nat →
  ((ringStart r + i) mod ringCap = (length vs - ring_count r + i) mod ringCap)%nat.
Proof.
  intros [_ Hat Hn _] Hi. unfold ringStart. rewrite Nat.Div0.add_mod_idemp_l, Hat.
  set (n := length vs) in *. pose proof (Nat.div_mod_eq n ringCap) as Hd.
  pose proof (Nat.mod_upper_bound n ringCap ringCap_pos) as Hb.
  assert (ring_count r ≤ ringCap)%nat by lia. assert (ring_count r ≤ n)%nat by lia.
  rewrite <- (Nat.Div0.mod_add (n - ring_count r + i) 1 ringCap).
  rewrite <- (Nat.Div0.mod_add (n mod ringCap + ringCap - ring_count r + i) (n / ringCap) ringCap).
  f_equal. lia.
Qed.

Lemma ring_read vs r i :
  ringOf vs r → (i < ring_count r)%nat → ring_buf r !! ((ringStart r + i) mod ringCap)%nat = lastN ringCap vs !! i.
Proof.
  intros Hr Hi. rewrite (ring_place vs) by done. destruct Hr as [_ _ Hn Hslot].
  rewrite Hslot by lia. rewrite lookup_lastN. f_equal. lia.
Qed.

Lemma ringValues_of vs r : ringOf vs r → ringValues r = lastN ringCap vs.
Proof.
  intros Hr. unfold ringValues.
  assert (Hl : length (lastN ringCap vs) = ring_count r) by (rewrite lastN_length; destruct Hr; lia).
  enough (H : ∀ k, (k ≤ ring_count r)%nat →
    omap (λ i, ring_buf r !! ((ringStart r + i) mod ringCap)%nat) (seq 0 k) = take k (lastN ringCap vs)).
  { rewrite H by done. rewrite take_ge; [done|lia]. }
  intros k. induction k as [|k IH]; intros Hk; [done|].
  rewrite seq_S, omap_app, IH by lia. cbn [omap list_omap]. rewrite (ring_read vs) by (done || lia). cbn.
  destruct (lastN ringCap vs !! k) as [x|] eqn:Hx; [by rewrite (take_S_r _ _ x)|]. apply lookup_ge_None in Hx. lia.
Qed.
End ring.

Lemma ring_latest vs r : ringOf vs r → Latest r = default f0 (last vs).
Proof.
  intros [Hlen Hat Hn Hslot]. unfold Latest. destruct vs as [|v vs' _] using rev_ind; [by rewrite Hn|].
  rewrite length_app in *. cbn [length] in *. rewrite last_snoc, Hn, Hat.
  destruct (Nat.eqb_spec (Nat.min ringCap (length vs' + 1)) 0); [unfold ringCap in *; lia|].
  replace (((length vs' + 1) mod ringCap + ringCap - 1) mod ringCap)%nat with (length vs' mod ringCap)%nat.
  - rewrite Hslot by (unfold ringCap; lia). rewrite lookup_app_r, Nat.sub_diag by lia. done.
  - unfold ringCap. pose proof (Nat.div_mod_eq (length vs' + 1) 64) as Hd.
    rewrite <- (Nat.Div0.mod_add ((length vs' + 1) mod 64 + 64 - 1) ((length vs' + 1) / 64) 64).
    rewrite <- (Nat.Div0.mod_add (length vs') 1 64). f_equal. lia.
Qed.

Lemma ring_oldest vs r : ringOf vs r → Oldest r = default 0 (head (lastN ringCap vs)).
Proof.
  intros Hr. unfold Oldest. destruct (Nat.eqb_spec (ring_count r) 0) as [H0|H0].
  - rewrite <- (ringValues_of _ _ Hr). unfold ringValues. by rewrite H0.
  - pose proof (ring_read vs r 0 Hr ltac:(lia)) as Hread. rewrite Nat.add_0_r in Hread.
    unfold ringStart in *. rewrite Nat.Div0.mod_mod in Hread. rewrite Hread. by destruct (lastN ringCap vs).
Qed.

(** The statistics of a rule's ring are those of the last sixty-four values pushed,
    in the order they came, and its sequence ring names the oldest of them. *)
Theorem rolling_statistics_of_last_64 (vs : list float64) (seqs : list Z) :
  let r := foldl (λ r v, ringPush v r) (emptyRing f0) vs in
  let window := lastN ringCap vs in
  let n := f_of_Z (Z.of_nat (length window)) in
  let mean := fdiv (foldl fadd f0 window) n in
  ring_count r = length window ∧
  Mean r = (if decide (length window < 1)%nat then f0 else mean) ∧
  StdDev r = (if decide (length window < 2)%nat then f0
              else fsqrt (fdiv (foldl (λ acc v, let d := fsub v mean in fadd acc (fmul d d)) f0 window) n)) ∧
  Latest r = default f0 (last vs) ∧
  Oldest (foldl (λ r v, ringPush v r) (emptyRing 0) seqs) = default 0 (head (lastN ringCap seqs)).
Proof.
  intros r window n mean. pose proof (ringPushes_of vs f0) as Hr. fold r in Hr.
  pose proof (ringValues_of _ _ Hr) as Hv. fold window in Hv.
  assert (Hc : ring_count r = length window) by (unfold window; rewrite lastN_length; apply (ring_n _ _ Hr)).
  assert (Hm : Mean r = (if decide (length window < 1)%nat then f0 else mean)).
  { unfold Mean. rewrite Hv, Hc. destruct (Nat.eqb_spec (length window) 0); case_decide; try done; lia. }
  split_and!; [done|done| |by apply ring_latest|apply ring_oldest, ringPushes_of].
  unfold StdDev. rewrite Hv, Hc, Hm.
  destruct (Nat.ltb_spec (length window) 2); repeat case_decide; try done; lia.
Qed.

(** ** Cooldown

    What a rule promises about its emissions: it emits for a stream only when the
    stream's cooldown is over, which it then starts again, and the evidence
    names the rule, the time, the number and the instrument of the event. *)
Class CooledRule (T : Type) `{!StreamRule T} := {
  cooldownOf : T → streamEntry;
  cooled_zero : cooldownOf zeroStream = MkEntry 0;
  cooled_step : ∀ cfg event st st' out, streamStep cfg event st = (st', out) →
    match out with
    | None => cooldownOf st' = cooldownOf st
    | Some ev =>
        canEmit (cooldownOf st) (re_TsServer event) (CooldownMs cfg) = true ∧
        cooldownOf st' = MkEntry (re_TsServer event) ∧
        ev_Type ev = ruleName ∧ ev_TsServer ev = re_TsServer event ∧ ev_Seq ev = re_Seq event ∧
        ev_Venue ev = re_Venue event ∧ ev_Symbol ev = re_Symbol event
    end;
}.

Lemma imbTrack_cooldown event imb sign st : imb_cooldown (imbTrack event imb sign st) = imb_cooldown st.
Proof. unfold imbTrack. by repeat case_match. Qed.

(** A step that ends in one of its returns: all but the last leave the cooldown. *)
Ltac solve_cooled :=
  cbv zeta;
  repeat match goal with |- (if ?c then _ else _) = _ → _ => destruct c eqn:? end;
  (let H := fresh in intros H; apply pair_eq in H as [<- <-]);
  first
    [ match goal with H : negb (canEmit _ _ _) = false |- _ => apply negb_false_iff in H;
      split; [try rewrite imbTrack_cooldown in H; exact H|repeat split] end
    | reflexivity | rewrite imbTrack_cooldown; reflexivity ].

Section cooled.
Context {GR : GoRuntime}.

#[export] Instance spread_cooled : CooledRule spreadStreamState.
Proof.
  refine {| cooldownOf := se_cooldown |}; [done|]. intros cfg event st st' out. cbn. unfold spreadStep. solve_cooled.
Defined.
#[export] Instance liq_cooled : CooledRule liqStreamState.
Proof.
  refine {| cooldownOf := lt_cooldown |}; [done|]. intros cfg event st st' out. cbn. unfold liqStep. solve_cooled.
Defined.
#[export] Instance imb_cooled : CooledRule imbStreamState.
Proof.
  refine {| cooldownOf := imb_cooldown |}; [done|]. intros cfg event st st' out. cbn. unfold imbStep. solve_cooled.
Defined.
#[export] Instance abs_cooled : CooledRule absStreamState.
Proof.
  refine {| cooldownOf := abs_cooldown |}; [done|]. intros cfg event st st' out. cbn. unfold absStep. cbv zeta.
  match goal with |- context [feqb (priceRef ?s) f0] => destruct (feqb (priceRef s) f0) end; solve_cooled.
Defined.
#[export] Instance sweep_cooled : CooledRule sweepStreamState.
Proof.
  refine {| cooldownOf := sweep_cooldown |}; [done|]. intros cfg event st st' out. cbn. unfold sweepStep.
  destruct (_ && _); [by intros [= <- <-]|]. destruct (sweptSide event st) as [[[side ld] dd]|]; [|by intros [= <- <-]].
  solve_cooled.
Defined.
End cooled.

Section cooldown.
Context {GR : GoRuntime} {T : Type} `{HT : StreamRule T, !CooledRule T}.

(** What a rule emits over a run, each with the key of its stream. *)
Fixpoint emissions (events : list RuleEvent) (r : Rule T) : list (string * EvidenceEvent) :=
  match events with
  | [] => []
  | event :: rest =>
      let '(r', out) := OnEvent event r in ((StreamKey event,.) <$> out) ++ emissions rest r'
  end.
Definition timesOf (k : string) (l : list (string * EvidenceEvent)) : list Z :=
  (λ c, ev_TsServer c.2) <$> filter (λ c, c.1 = k) l.
Lemma timesOf_app k l1 l2 : timesOf k (l1 ++ l2) = timesOf k l1 ++ timesOf k l2.
Proof. unfold timesOf. by rewrite filter_app, fmap_app. Qed.

(** When stream [k] last emitted, as far as the rule knows. *)
Definition lastEmit (r : Rule T) (k : string) : Z :=
  match streams r !! k with Some st => lastEmitTs (cooldownOf st) | None => 0 end.

(** The streams in play have their place in the rule's table. *)
Definition fits (keys : gset string) (r : Rule T) : Prop :=
  (∀ k, is_Some (streams r !! k) → k ∈ keys) ∧ Z.of_nat (size keys) ≤ MaxStreams (rule_cfg r).

Lemma getOrCreate_fits keys key r :
  fits keys r → key ∈ keys →
  let '(r', st) := getOrCreate zeroStream key r in
  rule_cfg r' = rule_cfg r ∧ streams r' = <[key := st]> (streams r) ∧ lastEmitTs (cooldownOf st) = lastEmit r key.
Proof.
  intros [Hsub Hsz] Hkey. unfold getOrCreate, lastEmit. destruct (streams r !! key) as [st|] eqn:Hk.
  { by rewrite insert_id. }
  assert (Hlt : (size (streams r) < size keys)%nat).
  { rewrite <- size_dom. apply subset_size. split; [intros k; rewrite elem_of_dom; apply Hsub|].
    intros Hback. specialize (Hback key Hkey). rewrite elem_of_dom, Hk in Hback. by destruct Hback. }
  destruct (Z.leb_spec (MaxStreams (rule_cfg r)) (Z.of_nat (size (streams r)))); [lia|].
  cbn. by rewrite cooled_zero.
Qed.

(** One event: at most one emission, of its own stream, when the cooldown is over. *)
Lemma OnEvent_cooled keys event r r' out :
  fits keys r → StreamKey event ∈ keys → OnEvent event r = (r', out) →
  fits keys r' ∧ rule_cfg r' = rule_cfg r ∧ (∀ k, k ≠ StreamKey event → lastEmit r' k = lastEmit r k) ∧
  ((out = [] ∧ lastEmit r' (StreamKey event) = lastEmit r (StreamKey event)) ∨
   ∃ ev, out = [ev] ∧ ev_TsServer ev = re_TsServer event ∧ lastEmit r' (StreamKey event) = re_TsServer event ∧
     CooldownMs (rule_cfg r) ≤ sub64 (re_TsServer event) (lastEmit r (StreamKey event))).
Proof.
  intros Hfit Hkey. cbn. destruct (relevant event); cbn; [|by intros [= <- <-]; split_and!; [| | |left]].
  pose proof (getOrCreate_fits keys (StreamKey event) r Hfit Hkey) as Hg.
  destruct (getOrCreate zeroStream (StreamKey event) r) as [r1 st] eqn:Hgc. destruct Hg as (Hcfg & Hstr & Hlast).
  destruct (streamStep (rule_cfg r1) event st) as [st' o] eqn:Hstep. intros [= <- <-].
  pose proof (cooled_step _ _ _ _ _ Hstep) as Hlaw. destruct Hfit as [Hsub Hsz].
  assert (Hown : lastEmit (r1 <| streams ::= <[StreamKey event := st']> |>) (StreamKey event) = lastEmitTs (cooldownOf st')).
  { unfold lastEmit. cbn. by rewrite lookup_insert_eq. }
  split_and!.
  - split; cbn; [|by rewrite Hcfg]. rewrite Hstr, insert_insert_eq. intros k.
    rewrite lookup_insert_is_Some'. intros [<-|?]; auto.
  - done.
  - intros k Hk. unfold lastEmit. cbn. by rewrite Hstr, insert_insert_eq, lookup_insert_ne.
  - rewrite Hown. destruct o as [ev|].
    + destruct Hlaw as (Hcan & -> & _ & Hts & _). right. exists ev. split_and!; [done..|].
      apply Z.leb_le in Hcan. by rewrite <- Hlast, <- Hcfg.
    + left. split; [done|]. by rewrite Hlaw.
Qed.

Lemma emissions_cooled keys events r k :
  fits keys r → 0 ≤ CooldownMs (rule_cfg r) → 0 ≤ lastEmit r k ≤ MaxInt64 →
  Forall (λ e, StreamKey e ∈ keys ∧ 0 ≤ re_TsServer e ≤ MaxInt64) events →
  StronglySorted (λ a b, a + CooldownMs (rule_cfg r) ≤ b) (timesOf k (emissions events r)) ∧
  Forall (λ t, lastEmit r k + CooldownMs (rule_cfg r) ≤ t) (timesOf k (emissions events r)).
Proof.
  intros Hfit Hcd. revert r Hfit Hcd. induction events as [|event events IH]; intros r Hfit Hcd Hl Hall; [split; constructor|].
  apply Forall_cons in Hall as [[Hkey Hts] Hall]. cbn [emissions].
  destruct (OnEvent event r) as [r' out] eqn:Hon.
  destruct (OnEvent_cooled keys event r r' out Hfit Hkey Hon) as (Hfit' & Hcfg & Hother & Hcase).
  rewrite timesOf_app, <- Hcfg in *. destruct (decide (k = StreamKey event)) as [->|Hne].
  - destruct Hcase as [[-> Hle]|(ev & -> & Hev & Hle & Hcan)].
    + rewrite <- Hle in *. apply IH; auto.
    + destruct (IH r' Hfit' Hcd) as [Hs Hf]; [lia|done|].
      rewrite sub64_id in Hcan by (unfold in_i64, MinInt64, MaxInt64 in *; lia).
      unfold timesOf at 1 3. rewrite fmap_cons, filter_cons, decide_True by done. cbn. rewrite Hev.
      rewrite Hle in Hf. split; constructor; [done|done|lia|]. eapply Forall_impl; [exact Hf|]. intros t. cbn. lia.
  - assert (Hnil : timesOf k ((StreamKey event,.) <$> out) = []).
    { unfold timesOf. destruct Hcase as [[-> _]|(ev & -> & _)]; [done|].
      rewrite fmap_cons, filter_cons, decide_False; [done|]. cbn. congruence. }
    rewrite Hnil. rewrite <- (Hother k) by done. apply IH; [done|done|by rewrite Hother|done].
Qed.

(** C29: Any two emissions of a rule for one stream are at least the cooldown apart,
    for every rule that keeps the contract, as long as the streams in play fit in
    its table. *)
Theorem emissions_respect_cooldown cfg events k :
  0 ≤ CooldownMs cfg → Forall (λ e, 0 ≤ re_TsServer e ≤ MaxInt64) events →
  Z.of_nat (size (list_to_set (StreamKey <$> events) : gset string)) ≤ MaxStreams cfg →
  StronglySorted (λ a b, a + CooldownMs cfg ≤ b) (timesOf k (emissions events (MkRule cfg ∅))).
Proof.
  intros Hcd Hts Hsz.
  apply (emissions_cooled (list_to_set (StreamKey <$> events)) events (MkRule cfg ∅) k); [| |cbn|].
  - split; [by intros j [? ?]|done].
  - done.
  - unfold lastEmit. cbn. rewrite lookup_empty. unfold MaxInt64. lia.
  - apply Forall_forall. intros e He. rewrite Forall_forall in Hts. split; [|auto].
    rewrite elem_of_list_to_set. by apply list_elem_of_fmap_2.
Qed.
End cooldown.

(** ** The engine *)

Section engine.
Context {GR : GoRuntime} {SS : StableSort}.

Lemma complete_stream event ev : ev_StreamID (complete event ev) = re_StreamID event.
Proof. unfold complete. by repeat case_match. Qed.

(** What a stage of the engine adds to the evidence: valid, of the event's stream,
    and handed to the emitter when there is one. *)
Record emits (event : RuleEvent) (e : EvidenceEngine) (out : list EvidenceEvent) (e' : EvidenceEngine)
    (out' : list EvidenceEvent) : Prop := {
  emits_new : ∃ new, out' = out ++ new ∧
    Forall (λ ev, EvidenceEvent_Validate ev = None ∧ ev_StreamID ev = re_StreamID event) new ∧
    handed e' = handed e ++ (if hasEmitter e then new else []);
  emits_emitter : hasEmitter e' = hasEmitter e;
  emits_total : totalEmitted e' = totalEmitted e;
  emits_store : store e' = store e;
  emits_evicted : totalEvicted e' = totalEvicted e;
}.

Lemma emits_refl event e out : emits event e out e out.
Proof.
  split; [|done..]. exists []. rewrite app_nil_r. split_and!; [done|constructor|].
  destruct (hasEmitter e); by rewrite app_nil_r.
Qed.
Lemma emits_trans event e1 o1 e2 o2 e3 o3 : emits event e1 o1 e2 o2 → emits event e2 o2 e3 o3 → emits event e1 o1 e3 o3.
Proof.
  intros [(n1 & Ho1 & Hv1 & Hh1) Hm1 ? ? ?] [(n2 & Ho2 & Hv2 & Hh2) Hm2 ? ? ?].
  split; [|congruence..]. exists (n1 ++ n2). subst. rewrite Hm1 in Hh2. split_and!.
  - by rewrite app_assoc.
  - by apply Forall_app.
  - rewrite Hh2, Hh1. destruct (hasEmitter e1); by rewrite <- ?app_assoc, ?app_nil_r.
Qed.

Lemma emitOne_emits event acc ev : emits event acc.1 acc.2 (emitOne event acc ev).1 (emitOne event acc ev).2.
Proof.
  destruct acc as [e out]. unfold emitOne. destruct (EvidenceEvent_Validate (complete event ev)) eqn:Hv.
  - apply emits_refl.
  - cbn. split; [|by destruct (hasEmitter e) eqn:?..]. exists [complete event ev]. split_and!; [done| |].
    + repeat constructor; [done|apply complete_stream].
    + destruct (hasEmitter e); cbn; [done|by rewrite app_nil_r].
Qed.

Lemma runRules_emits event ran todo e out :
  emits event e out (runRules event ran todo e out).1 (runRules event ran todo e out).2.
Proof.
  revert ran e out. induction todo as [|r rest IH]; intros ran e out.
  { cbn. split; [|done..]. apply (emits_new _ _ _ _ _ (emits_refl event e out)). }
  cbn [runRules]. destruct (onAny event r) as [r' evs].
  assert (Hf : ∀ acc, emits event acc.1 acc.2 (foldl (emitOne event) acc evs).1 (foldl (emitOne event) acc evs).2).
  { induction evs as [|ev evs IHe]; intros acc; [apply emits_refl|].
    eapply emits_trans; [apply emitOne_emits|apply IHe]. }
  specialize (Hf (e, out)). destruct (foldl (emitOne event) (e, out) evs) as [e1 out1].
  exact (emits_trans _ _ _ _ _ _ _ Hf (IH _ _ _)).
Qed.

Lemma applyEvictions_keep evs e :
  let e' := foldl applyEviction e evs in
  hasEmitter e' = hasEmitter e ∧ handed e' = handed e ∧ totalEmitted e' = totalEmitted e ∧ store e' = store e.
Proof. revert e. induction evs as [|x evs IH]; intros e; [done|]. cbn. destruct (IH (applyEviction e x)) as (-> & -> & -> & ->). done. Qed.

(** Whatever its rules return, the engine lets out only valid evidence of the
    event's stream; the emitter is handed exactly that, in that order, and the
    counter grows by it; an event the store does not admit lets out nothing. *)
Theorem engine_emits_valid_evidence event e :
  let '(s, obs) := Observe (re_StreamID event) (re_Seq event) (re_TsServer event) (store e) in
  let '(e', out) := Engine_OnEvent event e in
  store e' = s ∧
  Forall (λ ev, EvidenceEvent_Validate ev = None ∧ ev_StreamID ev = re_StreamID event) out ∧
  handed e' = handed e ++ (if hasEmitter e then out else []) ∧
  totalEmitted e' = (if Accepted obs then add64 (totalEmitted e) (Z.of_nat (length out)) else totalEmitted e) ∧
  (Accepted obs = false → out = []).
Proof.
  unfold Engine_OnEvent. destruct (Observe _ _ _ _) as [s obs].
  destruct (applyEvictions_keep (Evictions obs) (e <| store := s |>)) as (Hm & Hh & Ht & Hs).
  set (e1 := foldl applyEviction _ _) in *. cbn in *. destruct (Accepted obs); cbn.
  - pose proof (runRules_emits event [] (rules e1) e1 []) as [(new & Ho & Hv & Hn) _ Htot Hst _].
    destruct (runRules _ _ _ _ _) as [e2 out]. cbn in *. subst out. rewrite Hn, Hst, Htot, Hm, Hh, Ht.
    split_and!; done.
  - rewrite Hh, Ht. split_and!; [done|constructor| |done|done]. by destruct (hasEmitter e); rewrite app_nil_r.
Qed.
End engine.

(** ** The streak behind an imbalance *)

Section streak.
Context {GR : GoRuntime}.

(** The side an observation is heavy on, if it is: [true] is the ask. *)
Definition heavy (event : RuleEvent) : option bool :=
  let imb := DepthImbalance (BidDepth event) (AskDepth event) in
  if fltb (fabs imb) imbThreshold then None else Some (fltb imb f0).
Definition signOf (ask : bool) : float64 := if ask then f_of_Z (-1) else f1.

(** The observations end in the run [s] of side [side], which starts where the side
    last changed; [s] is empty when the last one is on neither side. *)
Record streakOf (events s : list RuleEvent) (side : option bool) : Prop := {
  streak_run : Forall (λ e, side ≠ None ∧ heavy e = side) s;
  streak_suffix : ∃ before, events = before ++ s ∧ ((last before ≫= heavy) ≠ side ∨ side = None ∨ before = []);
  streak_side : side = last events ≫= heavy;
}.

Lemma streak_next events s side e :
  streakOf events s side →
  streakOf (events ++ [e]) (match heavy e with None => [] | Some _ => if decide (heavy e = side) then s ++ [e] else [e] end) (heavy e).
Proof.
  intros [Hrun (before & Hev & Hbef) Hside].
  assert (Hlast : heavy e = last (events ++ [e]) ≫= heavy) by by rewrite last_snoc.
  destruct (heavy e) as [b|] eqn:He; [case_decide as Hd|].
  - split; [|exists before|done]; rewrite <- ?Hd in *.
    + apply Forall_app. split; [done|]. repeat constructor; auto.
    + split; [by rewrite Hev, app_assoc|]. destruct Hbef as [?|[?|?]]; auto.
  - split; [|exists events|done].
    + repeat constructor; auto.
    + split; [done|]. left. congruence.
  - split; [constructor|exists (events ++ [e])|done]. rewrite app_nil_r. auto.
Qed.

(** What the rule remembers of a streak. *)
Record remembers (s : list RuleEvent) (side : option bool) (st : imbStreamState) : Prop := {
  rem_count : consecutive st = Z.of_nat (length s);
  rem_sign : lastSign st = match side with Some ask => signOf ask | None => f0 end;
  rem_start : streakStartSeq st = match s with e :: _ => re_Seq e | [] => 0 end;
}.

Lemma imbTrack_next s side st e ask :
  remembers s side st → (side = None → s = []) → (side ≠ None → s ≠ []) → 0 < re_Seq e → Forall (λ e, 0 < re_Seq e) s →
  Z.of_nat (length s) < MaxInt64 → heavy e = Some ask →
  let imb := DepthImbalance (BidDepth e) (AskDepth e) in
  remembers (if decide (heavy e = side) then s ++ [e] else [e]) (heavy e) (imbTrack e imb (signOf ask) st).
Proof.
  intros [Hc Hs Hstart] Hempty Hnonempty Hpos Hall Hmax He imb. rewrite He. destruct st as [n sg start cd]. unfold imbTrack. cbn in Hc, Hs, Hstart |- *. rewrite Hs.
  case_decide as Hd; subst.
  - replace (feqb (signOf ask) (signOf ask)) with true by by destruct ask.
    destruct s as [|e0 s]; [by destruct Hnonempty|]. apply Forall_cons in Hall as [H0 _]. cbn.
    destruct (Z.leb_spec (re_Seq e0) 0); [lia|].
    split; [|done|done]. change (add64 (Z.of_nat (length (e0 :: s))) 1 = Z.of_nat (length (e0 :: s ++ [e]))).
    rewrite add64_id by (unfold in_i64, MinInt64, MaxInt64 in *; lia). cbn [length]. rewrite length_app. cbn [length]. lia.
  - replace (feqb (signOf ask) _) with false; [|destruct side as [[]|], ask; done]. cbn.
    destruct (Z.leb_spec (re_Seq e) 0); [lia|]. by split.
Qed.

Definition imbRun (cfg : RuleConfig) (events : list RuleEvent) : imbStreamState :=
  foldl (λ st e, (imbStep cfg e st).1) zeroStream events.

(** Past the threshold the step tracks the streak, and then only the cooldown moves. *)
Lemma imbStep_streak cfg event st ask :
  heavy event = Some ask →
  let imb := DepthImbalance (BidDepth event) (AskDepth event) in
  let st1 := imbTrack event imb (signOf ask) st in
  let '(st', out) := imbStep cfg event st in
  (st' = st1 ∨ st' = st1 <| imb_cooldown := MkEntry (re_TsServer event) |>) ∧
  (is_Some out ↔ minConsecutive ≤ consecutive st1 ∧ canEmit (imb_cooldown st) (re_TsServer event) (CooldownMs cfg) = true) ∧
  ∀ ev, out = Some ev → ev_Severity ev = imbSeverity (consecutive st1) ∧
    ev_Watermark ev = MkWatermark (streakStartSeq st1) (re_Seq event).
Proof.
  unfold heavy, imbStep. cbv zeta. destruct (fltb (fabs _) imbThreshold); [done|]. intros [= <-]. fold (signOf (fltb (DepthImbalance (BidDepth event) (AskDepth event)) f0)).
  set (st1 := imbTrack _ _ _ _). replace (imb_cooldown st) with (imb_cooldown st1) by apply imbTrack_cooldown.
  destruct (Z.ltb_spec (consecutive st1) minConsecutive).
  { split_and!; [by left|split; [by intros []|lia]|done]. }
  destruct (canEmit _ _ _) eqn:Hcan; cbn [negb].
  - split_and!; [by right|split; eauto|]. intros ev [= <-]. done.
  - split_and!; [by left|split; [by intros []|by intros [? [=]]]|done].
Qed.

Lemma imbRun_streak cfg events :
  Forall (λ e, 0 < re_Seq e) events → Z.of_nat (length events) ≤ MaxInt64 →
  ∃ s, streakOf events s (last events ≫= heavy) ∧ remembers s (last events ≫= heavy) (imbRun cfg events) ∧
    (last events ≫= heavy = None → s = []) ∧ (last events ≫= heavy ≠ None → s ≠ []).
Proof.
  induction events as [|e events IH] using rev_ind; intros Hpos Hlen.
  { exists []. split_and!; [|by split|done|done]. split; [constructor|exists []; auto|done]. }
  apply Forall_app in Hpos as [Hpos [He _]%Forall_cons]. rewrite length_app in Hlen. cbn [length] in Hlen.
  destruct IH as (s & Hs & Hrem & Hnil & Hcons); [done|lia|].
  pose proof (streak_next _ _ _ e Hs) as Hnext. rewrite last_snoc. cbn [mbind option_bind].
  unfold imbRun. rewrite foldl_app. cbn [foldl]. fold (imbRun cfg events).
  eexists. split; [exact Hnext|]. destruct (heavy e) as [ask|] eqn:Hh; [|split_and!; [|done|done]].
  - pose proof (imbStep_streak cfg e (imbRun cfg events) ask Hh) as Hstep.
    assert (Hin : Forall (λ e, 0 < re_Seq e) s ∧ (length s ≤ length events)%nat).
    { destruct Hs as [_ (before & -> & _) _]. apply Forall_app in Hpos as [_ ?]. rewrite length_app. split; [done|lia]. }
    assert (Htr := imbTrack_next s _ _ e ask Hrem Hnil Hcons He (proj1 Hin) ltac:(lia) Hh). rewrite Hh in Htr.
    destruct (imbStep cfg e (imbRun cfg events)) as [st' out]. destruct Hstep as ([-> | ->] & _ & _); cbn [fst].
    all: split_and!; [|done|intros _; case_decide; [by destruct s|done]]. 1: exact Htr.
    destruct Htr. by split.
  - unfold imbStep. unfold heavy in Hh. cbv zeta in *. destruct (fltb (fabs _) imbThreshold); [by split|done].
Qed.

(** A persistent imbalance is reported at an observation exactly when it ends an
    uninterrupted run of at least ten observations heavy on its side and the
    cooldown is over; the report is graded by the length of that run and covers it
    from its first observation. *)
Theorem imbalance_reported_for_streak cfg events event :
  Forall (λ e, 0 < re_Seq e) (events ++ [event]) → Z.of_nat (length (events ++ [event])) ≤ MaxInt64 →
  let st := imbRun cfg events in
  let out := (imbStep cfg event st).2 in
  ∃ s, streakOf (events ++ [event]) s (heavy event) ∧
    (is_Some out ↔ (10 ≤ length s)%nat ∧ canEmit (imb_cooldown st) (re_TsServer event) (CooldownMs cfg) = true) ∧
    ∀ ev, out = Some ev → ev_Severity ev = imbSeverity (Z.of_nat (length s)) ∧
      SeqEnd (ev_Watermark ev) = re_Seq event ∧ Some (SeqStart (ev_Watermark ev)) = re_Seq <$> head s.
Proof.
  intros Hpos Hlen st out. apply Forall_app in Hpos as [Hpos [He _]%Forall_cons]. rewrite length_app in Hlen. cbn [length] in Hlen.
  destruct (imbRun_streak cfg events Hpos ltac:(lia)) as (s & Hs & Hrem & Hnil & Hcons).
  pose proof (streak_next _ _ _ event Hs) as Hnext. eexists. split; [exact Hnext|].
  destruct (heavy event) as [ask|] eqn:Hh.
  - pose proof (imbStep_streak cfg event st ask Hh) as Hstep. unfold out. clear out.
    assert (Hin : Forall (λ e, 0 < re_Seq e) s ∧ (length s ≤ length events)%nat).
    { destruct Hs as [_ (before & -> & _) _]. apply Forall_app in Hpos as [_ ?]. rewrite length_app. split; [done|lia]. }
    assert (Htr := imbTrack_next s _ _ event ask Hrem Hnil Hcons He (proj1 Hin) ltac:(lia) Hh). rewrite Hh in Htr.
    destruct Htr as [Hc _ Hst]. fold st in Hc, Hst. destruct (imbStep cfg event st) as [st' out].
    destruct Hstep as (_ & -> & Hev). rewrite Hc in *. split; [unfold minConsecutive; split; intros []; split; auto; lia|].
    intros ev Hout. destruct (Hev ev Hout) as [-> ->]. cbn. rewrite Hst. split_and!; [done|done|].
    case_decide; [by destruct s|done].
  - unfold out, imbStep. unfold heavy in Hh. cbv zeta in *. destruct (fltb (fabs _) imbThreshold); [|done]. cbn.
    split; [split; [by intros []|intros []; lia]|done].
Qed.
End streak.

(** ** The buffer *)

Section buffer.
Context {GR : GoRuntime}.

(** The ring of one kind after the events [vs] of that kind. *)
Record kindRing (max : nat) (vs ring : list EvidenceEvent) (hd : Z) : Prop := {
  kr_len : length ring = Nat.min max (length vs);
  kr_head : hd = if decide (length vs < max)%nat then 0 else Z.of_nat (length vs mod max)%nat;
  kr_slot : ∀ i, (length vs ≤ i + max)%nat → (i < length vs)%nat → ring !! (i mod max)%nat = vs !! i;
}.
Definition ofKind (kind : EvidenceType) (vs : list EvidenceEvent) : list EvidenceEvent := filter (λ ev, ev_Type ev = kind) vs.
Definition buffered (max : nat) (vs : list EvidenceEvent) (b : EvidenceBuffer) : Prop :=
  MaxPerKind (buf_policy b) = Z.of_nat max ∧
  ∀ kind, kindRing max (ofKind kind vs) (default [] (rings b !! kind)) (default 0 (heads b !! kind)).

Lemma kindRing_list max vs b kind : (0 < max)%nat → buffered max vs b → List kind b = lastN max (ofKind kind vs).
Proof.
  intros Hmax [Hp Hb]. destruct (Hb kind) as [Hlen Hhd Hslot]. unfold List. rewrite Hp.
  set (ring := default [] (rings b !! kind)) in *. set (ws := ofKind kind vs) in *.
  destruct (Z.ltb_spec (Z.of_nat (length ring)) (Z.of_nat max)) as [Hlt|Hge].
  - rewrite lastN_all by lia. apply (list_eq_same_length _ _ (length ws)); [done|lia|].
    intros i x y Hi Hx Hy. specialize (Hslot i ltac:(lia) Hi). rewrite Nat.mod_small in Hslot by lia. congruence.
  - assert (Hfull : length ring = max) by lia. rewrite Hfull. rewrite decide_False in Hhd by lia. rewrite Hhd.
    enough (Hk : ∀ k, (k ≤ max)%nat → omap (λ i, ring !! Z.to_nat (Z.rem (Z.of_nat (length ws mod max) + Z.of_nat i) (Z.of_nat max))) (seq 0 k)
      = take k (lastN max ws)).
    { rewrite Hk by done. rewrite take_ge; [done|rewrite lastN_length; lia]. }
    induction k as [|k IH]; intros Hk; [done|]. rewrite seq_S, omap_app, IH by lia. cbn [omap list_omap].
    rewrite Z.rem_mod_nonneg, <- Nat2Z.inj_add, <- Nat2Z.inj_mod, Nat2Z.id, Nat.Div0.add_mod_idemp_l by lia. cbn [plus].
    replace ((length ws + k) mod max)%nat with ((length ws - max + k) mod max)%nat
      by (rewrite <- (Nat.Div0.mod_add (length ws - max + k) 1 max); f_equal; lia).
    rewrite Hslot by lia. rewrite <- lookup_lastN.
    destruct (lastN max ws !! k) as [x|] eqn:Hx; [by rewrite (take_S_r _ _ x)|].
    apply lookup_ge_None in Hx. rewrite lastN_length in Hx. lia.
Qed.

Lemma kindRing_short max vs ring hd ev :
  kindRing max vs ring hd → (length vs < max)%nat → kindRing max (vs ++ [ev]) (ring ++ [ev]) hd.
Proof.
  intros [Hlen Hhd Hslot] Hlt. rewrite decide_True in Hhd by done. split; rewrite ?length_app; cbn [length].
  - lia.
  - case_decide; [done|]. subst. replace (length vs + 1)%nat with max by lia. rewrite Nat.Div0.mod_same. done.
  - intros i Hi Hn. rewrite Nat.mod_small by lia. destruct (decide (i < length vs)%nat) as [H|H].
    + rewrite !lookup_app_l by lia. rewrite <- Hslot by lia. by rewrite Nat.mod_small by lia.
    + replace i with (length vs) by lia. rewrite !lookup_app_r by lia. f_equal. lia.
Qed.

Lemma kindRing_full max vs ring hd ev :
  kindRing max vs ring hd → (0 < max ≤ length vs)%nat →
  kindRing max (vs ++ [ev]) (<[Z.to_nat hd := ev]> ring) (Z.rem (hd + 1) (Z.of_nat max)).
Proof.
  intros [Hlen Hhd Hslot] Hle. rewrite decide_False in Hhd by lia. subst hd. rewrite Nat2Z.id.
  split; rewrite ?length_app, ?length_insert; cbn [length].
  - lia.
  - rewrite decide_False by lia. rewrite Z.rem_mod_nonneg by lia. change 1 with (Z.of_nat 1).
    by rewrite <- Nat2Z.inj_add, <- Nat2Z.inj_mod, Nat.Div0.add_mod_idemp_l.
  - intros i Hi Hn. destruct (decide (i = length vs)) as [->|Hne].
    + rewrite list_lookup_insert_eq by (rewrite Hlen; pose proof (Nat.mod_upper_bound (length vs) max); lia).
      rewrite lookup_app_r by lia. by rewrite Nat.sub_diag.
    + rewrite list_lookup_insert_ne by (apply mod_distinct; lia). rewrite lookup_app_l by lia. apply Hslot; lia.
Qed.

Lemma ofKind_snoc kind vs ev : ofKind kind (vs ++ [ev]) = ofKind kind vs ++ (if decide (ev_Type ev = kind) then [ev] else []).
Proof. unfold ofKind. rewrite filter_app. by rewrite filter_cons. Qed.

Lemma Push_buffered max vs b ev :
  (0 < max)%nat → buffered max vs b → EvidenceEvent_Validate ev = None →
  ∃ b', Push ev b = (b', inr (bool_decide (max ≤ length (ofKind (ev_Type ev) vs))%nat)) ∧ buffered max (vs ++ [ev]) b'.
Proof.
  intros Hmax [Hp Hb] Hv. unfold Push. rewrite (bind_run _ _ _ b tt) by by rewrite Hv. rewrite recv_run. cbv zeta. rewrite Hp.
  pose proof (Hb (ev_Type ev)) as Hk. pose proof (kr_len _ _ _ _ Hk) as Hlen. pose proof (kr_head _ _ _ _ Hk) as Hhd.
  set (ws := ofKind (ev_Type ev) vs) in *. set (ring := default [] (rings b !! ev_Type ev)) in *.
  set (hd := default 0 (heads b !! ev_Type ev)) in *.
  destruct (Z.ltb_spec (Z.of_nat (length ring)) (Z.of_nat max)).
  - rewrite bool_decide_false by lia. eexists. split; [done|]. split; [done|]. intros kind. cbn. rewrite ofKind_snoc.
    destruct (decide (ev_Type ev = kind)) as [<-|Hne].
    + rewrite lookup_insert_eq. apply kindRing_short; [done|fold ws; lia].
    + rewrite lookup_insert_ne, app_nil_r by done. apply Hb.
  - assert (Hr : (0 < length ring)%nat) by lia. rewrite decide_False in Hhd by lia.
    pose proof (Nat.mod_upper_bound (length ws) max ltac:(lia)).
    destruct (Z.eqb_spec (Z.of_nat (length ring)) 0); [lia|]. rewrite bool_decide_true by lia.
    destruct (Z.ltb_spec hd 0); [lia|]. destruct (Z.leb_spec (Z.of_nat (length ring)) hd); [lia|]. cbn.
    eexists. split; [done|]. split; [done|]. intros kind. cbn. rewrite ofKind_snoc.
    destruct (decide (ev_Type ev = kind)) as [<-|Hne].
    + rewrite !lookup_insert_eq. apply kindRing_full; [done|fold ws; lia].
    + rewrite !lookup_insert_ne, app_nil_r by done. apply Hb.
Qed.

(** The events a buffer accepted over a run. *)
Fixpoint pushAll (evs : list EvidenceEvent) (b : EvidenceBuffer) : EvidenceBuffer :=
  match evs with [] => b | ev :: rest => pushAll rest (Push ev b).1 end.

Lemma pushAll_buffered max evs vs b :
  (0 < max)%nat → buffered max vs b →
  buffered max (vs ++ filter (λ ev, EvidenceEvent_Validate ev = None) evs) (pushAll evs b).
Proof.
  intros Hmax. revert vs b. induction evs as [|ev evs IH]; intros vs b Hb; [by rewrite app_nil_r|]. cbn [pushAll].
  rewrite filter_cons. case_decide as Hv.
  - destruct (Push_buffered max vs b ev Hmax Hb Hv) as (b' & -> & Hb').
    rewrite cons_middle, (app_assoc vs [ev]). by apply IH.
  - unfold Push. destruct (EvidenceEvent_Validate ev); [|done]. by apply IH.
Qed.

(** After any run of pushes a buffer lists, for each kind, the last [MaxPerKind]
    valid events of that kind, oldest first; the events it refused, and those of
    other kinds, have no effect. *)
Theorem buffer_lists_last_of_kind maxPerKind policy evs kind :
  NewEvidenceBufferPolicy maxPerKind = inr policy →
  List kind (pushAll evs (NewEvidenceBuffer policy)) =
  lastN (Z.to_nat maxPerKind) (filter (λ ev, ev_Type ev = kind) (filter (λ ev, EvidenceEvent_Validate ev = None) evs)).
Proof.
  unfold NewEvidenceBufferPolicy. destruct (Z.leb_spec maxPerKind 0); [done|]. intros [= <-].
  apply kindRing_list; [lia|]. apply (pushAll_buffered _ evs []); [lia|].
  split; cbn; [lia|]. intros k. rewrite !lookup_empty. split; cbn; [lia| |lia]. rewrite decide_True; [done|lia].
Qed.
End buffer.

(** ** Where the engine falls short *)

Section shortfall.
#[local] Existing Instance go_amd64.
#[local] Existing Instance insertionSort.

(** A book event of BTCUSDT on Binance, as the evidence actor builds it: the
    stream is named after the channel. *)
Definition bookAt (ts seq bidLevels : Z) (bidDepth : float64) : RuleEvent :=
  MkRuleEvent EventKindBook "BINANCE" "BTCUSDT" "BINANCE/BTCUSDT/book" ts seq f0 f0 "" (f_of_Z 100) (f_of_Z 101)
    bidDepth (f_of_Z 50) bidLevels 20.
Definition sweepEngine : EvidenceEngine :=
  NewEvidenceEngine DefaultEngineConfig [AnyRule _ (streamRule_rule (T:=sweepStreamState)) (MkRule DefaultRuleConfig ∅)].

(** The engine drops a stream that was silent for longer than its time to live, and
    tells its rules to, but under the name of the stream, where the rules keep
    their states under venue and symbol: the rules keep the state, and the first
    book after the silence is reported as a sweep of the one before it. *)
Theorem evicted_stream_keeps_its_rule_state :
  let e1 := (Engine_OnEvent (bookAt 1000 1 20 (f_of_Z 50)) sweepEngine).1 in
  let '(e2, out) := Engine_OnEvent (bookAt 700000 2 2 (f_of_Z 5)) e1 in
  (Len (store e1), totalEvicted e1) = (1, 0) ∧
  (Len (store e2), totalEvicted e2) = (1, 1) ∧
  (countAny <$> rules e2) = [1] ∧
  ((λ ev, (ev_Type ev, ev_Severity ev, ev_TsServer ev)) <$> out) = [(Sweep, SeverityCritical, 700000)].
Proof. vm_compute. done. Qed.

Lemma emissions_respect_cooldown_witness :
  let events := [bookAt 10000 1 20 (f_of_Z 50); bookAt 10001 2 2 (f_of_Z 5); bookAt 10002 3 20 (f_of_Z 50);
                 bookAt 10003 4 2 (f_of_Z 5); bookAt 16000 5 20 (f_of_Z 50); bookAt 16001 6 2 (f_of_Z 5)] in
  StronglySorted (λ a b, a + 5000 ≤ b)
    (timesOf "BINANCE|BTCUSDT" (emissions (T:=sweepStreamState) events (MkRule DefaultRuleConfig ∅))).
Proof.
  intros events. apply (emissions_respect_cooldown (T:=sweepStreamState) DefaultRuleConfig events "BINANCE|BTCUSDT").
  - done.
  - repeat constructor; vm_compute; discriminate.
  - vm_compute. discriminate.
Defined.

Lemma imbalance_reported_for_streak_witness :
  let events := (λ i, bookAt (10000 + Z.of_nat i) (Z.of_nat i + 1) 20 (f_of_Z 500)) <$> seq 0 9 in
  let event := bookAt 10009 10 20 (f_of_Z 500) in
  ∃ s, streakOf (events ++ [event]) s (heavy event) ∧
    (is_Some (imbStep DefaultRuleConfig event (imbRun DefaultRuleConfig events)).2 ↔
     (10 ≤ length s)%nat ∧ canEmit (imb_cooldown (imbRun DefaultRuleConfig events)) 10009 5000 = true) ∧
    ∀ ev, (imbStep DefaultRuleConfig event (imbRun DefaultRuleConfig events)).2 = Some ev →
      ev_Severity ev = imbSeverity (Z.of_nat (length s)) ∧
      SeqEnd (ev_Watermark ev) = 10 ∧ Some (SeqStart (ev_Watermark ev)) = re_Seq <$> head s.
Proof.
  intros events event. apply (imbalance_reported_for_streak DefaultRuleConfig events event).
  - repeat constructor.
  - vm_compute. discriminate.
Defined.

Lemma buffer_lists_last_of_kind_witness :
  let ev i := MkEvidence Sweep (Z.of_nat i + 1) "BINANCE" "BTCUSDT" "s" (Z.of_nat i + 1) SeverityHigh f1 [MkFeature "side" f1]
                "swept" RuleVersionV0 (MkWatermark 1 1) in
  List Sweep (pushAll (ev <$> seq 0 5) (NewEvidenceBuffer (MkBufferPolicy 2))) =
  lastN 2 (filter (λ ev, ev_Type ev = Sweep) (filter (λ ev, EvidenceEvent_Validate ev = None) (ev <$> seq 0 5))).
Proof. intros ev. by apply (buffer_lists_last_of_kind 2 (MkBufferPolicy 2) (ev <$> seq 0 5) Sweep). Defined.
End shortfall.
