(* ===== verification/Insights.v ===== *)
(** * Insights: internal/core/insights/domain

    binning.go, volume_profile.go, session.go and session_volume_profile.go: price
    buckets, the volume profile with its validation, session anchors and their
    bounds, point of control and value area. *)

From S2P Require Import Prelude GoRuntime Loops Shared.

Local Open Scope string_scope.
Local Open Scope list_scope.
Local Open Scope Z_scope.

Definition refuse (msg : string) : option Problem := Some (New ValidationFailed msg).

(** ** binning.go *)

Definition binRoundShift : float64 := f_of_Z 100000000.
Definition binFactorV : float64 := flit 5 1000.
Definition binFactorP : float64 := flit 25 1000.
Definition binMinSize : float64 := flit 1 100000000.
Definition binSteps : list float64 := [f1; flit 50 100; flit 25 100; flit 20 100; flit 10 100; flit 5 100].

(** [math.Pow10] for exponents from -31 on, the only ones used: the product or the
    quotient of two entries of its tables. *)
Definition Pow10 (n : Z) : float64 :=
  if 308 <? n then S754_infinity false
  else if 0 <=? n then fmul (f_of_Z (10 ^ (32 * (n / 32)))) (f_of_Z (10 ^ (n mod 32)))
  else fdiv f1 (f_of_Z (10 ^ (- n))).

Definition Trunc : float64 → float64 := round_with (λ _ _ _ _, false).
(** The fraction [math.Modf] returns. *)
Definition modfFrac (f : float64) : float64 :=
  if feqb f f0 then f
  else if fltb f f0 then fneg (let g := fneg f in if fltb g f1 then g else fsub g (Trunc g))
  else if fltb f f1 then f else fsub f (Trunc f).

Definition binRound (n : float64) : float64 := fdiv (Round (fmul n binRoundShift)) binRoundShift.
Definition binFraction (num : float64) : float64 := binRound (modfFrac num).

(** [for n > math.Pow10(exponent) { exponent++ }]: at 309 the power is infinite. *)
Definition exponentBody (n : float64) (exponent : Z) : option Z :=
  if fltb (Pow10 exponent) n then Some (exponent + 1) else None.
Definition findExponent (n : float64) : option Z := loop (exponentBody n) 320 (-8).

(** The loop over [binSteps]. *)
Fixpoint pickStep (n factor tickSize : float64) (steps : list float64) : option float64 :=
  match steps with
  | [] => None
  | step :: rest =>
      let candidate := fmul step factor in
      if fleb candidate n && negb (fltb f0 (binFraction (fdiv candidate tickSize))) then Some candidate
      else pickStep n factor tickSize rest
  end.

Definition CalculateBinSize (currentPrice tickSize grouping : float64) : option float64 :=
  let n := fdiv (fmul currentPrice grouping) (f_of_Z 100) in
  exponent ← findExponent n;
  let factor := Pow10 exponent in
  let n := match pickStep n factor tickSize binSteps with Some m => m | None => fmul (flit 5 100) factor end in
  Some (if fltb n tickSize then tickSize
        else if fltb n binMinSize then binMinSize
        else binRound n).

Definition CalculateVolumeBinSize (price tickSize : float64) : option float64 := CalculateBinSize price tickSize binFactorV.
Definition CalculateHeatmapBinSize (price tickSize : float64) : option float64 := CalculateBinSize price tickSize binFactorP.
Definition CalculateHeatmapBinSizeWithFactor (price tickSize factor : float64) : option float64 :=
  CalculateBinSize price tickSize factor.
Definition HeatmapBinFactorForTimeframe (tf : string) : float64 :=
  if bool_decide (tf ∈ ["1s"; "5s"; "10s"]) then flit 1 1000
  else if bool_decide (tf ∈ ["1m"; "5m"]) then flit 5 1000
  else binFactorP.

(** ** volume_profile.go *)

Definition VPVRCapBucketsPerWindow : Z := 400.
Definition VPVRCapLevelsPerPayload : Z := 400.
Definition VPVRCapOpenWindowsPerKey : Z := 96.
Definition VPVRTimeframes : list string := ["1m"; "5m"; "1h"; "4h"; "1d"].

Record VolumeProfileBucketV1 := MkBucket {
  PriceLow : float64; PriceHigh : float64;
  BuyVolume : float64; SellVolume : float64; TotalVolume : float64;
  SeqMin : Z; SeqMax : Z;
}.

Record VolumeProfileSnapshotV1 := MkProfile {
  vp_Venue : string; vp_Instrument : string; vp_Timeframe : string;
  vp_WindowStartTs : Z; vp_WindowEndTs : Z;
  Buckets : list VolumeProfileBucketV1;
  POCPrice : float64; ValueAreaLow : float64; ValueAreaHigh : float64;
}.
#[export] Instance VolumeProfileSnapshotV1_eta : Eta VolumeProfileSnapshotV1 := λ r,
  MkProfile (vp_Venue r) (vp_Instrument r) (vp_Timeframe r) (vp_WindowStartTs r) (vp_WindowEndTs r) (Buckets r)
    (POCPrice r) (ValueAreaLow r) (ValueAreaHigh r).

Definition compareVPVRBucketOrder (a b : VolumeProfileBucketV1) : Z :=
  if fltb (PriceLow a) (PriceLow b) then -1
  else if fltb (PriceLow b) (PriceLow a) then 1
  else if fltb (PriceHigh a) (PriceHigh b) then -1
  else if fltb (PriceHigh b) (PriceHigh a) then 1
  else 0.

(** [slices.IsSortedFunc]: no element is before the one it follows. *)
Fixpoint IsSortedFunc {A} (cmp : A → A → Z) (l : list A) : bool :=
  match l with
  | a :: (b :: _) as rest => negb (cmp b a <? 0) && IsSortedFunc cmp rest
  | _ => true
  end.
(** [slices.SortFunc] *)
Definition SortFunc {GR : GoRuntime} {A} (cmp : A → A → Z) (l : list A) : list A := sort_slice (λ a b, cmp a b <? 0) l.

Definition validateVPVRBucket (b : VolumeProfileBucketV1) : option Problem :=
  if negb (isFinite (PriceLow b)) || negb (isFinite (PriceHigh b)) then refuse "vpvr bucket prices must be finite"
  else if fleb (PriceHigh b) (PriceLow b) then refuse "vpvr bucket price bounds are invalid"
  else if fltb (BuyVolume b) f0 || fltb (SellVolume b) f0 || fltb (TotalVolume b) f0
  then refuse "vpvr bucket volumes must be non-negative"
  else if negb (feqb (TotalVolume b) (fadd (BuyVolume b) (SellVolume b)))
  then refuse "vpvr total_volume must equal buy_volume + sell_volume"
  else if (SeqMin b <=? 0) || (SeqMax b <? SeqMin b) then refuse "vpvr bucket seq bounds are invalid"
  else None.

(** The loop of [validateVPVRSnapshotBuckets]: [seen] holds the price ranges met,
    compared as floats. *)
Fixpoint bucketsLoop (buckets : list VolumeProfileBucketV1) (seen : list (float64 * float64)) (maxTotal expectedPOC : float64)
    : Problem + float64 :=
  match buckets with
  | [] => inr expectedPOC
  | b :: rest =>
      match validateVPVRBucket b with
      | Some p => inl p
      | None =>
          if existsb (λ k, feqb k.1 (PriceLow b) && feqb k.2 (PriceHigh b)) seen
          then inl (New ValidationFailed "vpvr buckets must be unique by price range")
          else
            let seen := (PriceLow b, PriceHigh b) :: seen in
            if fltb maxTotal (TotalVolume b) then bucketsLoop rest seen (TotalVolume b) (PriceLow b)
            else bucketsLoop rest seen maxTotal expectedPOC
      end
  end.
Definition validateVPVRSnapshotBuckets (buckets : list VolumeProfileBucketV1) : Problem + float64 :=
  if negb (IsSortedFunc compareVPVRBucketOrder buckets)
  then inl (New ValidationFailed "vpvr buckets must be sorted by price range")
  else bucketsLoop buckets [] (f_of_Z (-1)) f0.

Section domain.
Context {GR : GoRuntime}.

(** A result of [None] stands for a bin size that is never computed; there is none
    ([CalculateBinSize_total]). *)
Definition AssignVPVRBucket (price tickSize : float64) : Problem + float64 * float64 :=
  if negb (isFinite price) || negb (isFinite tickSize) || fleb tickSize f0
  then inl (New ValidationFailed "vpvr bucket assignment requires finite positive tick_size and price")
  else match CalculateVolumeBinSize price tickSize with
       | None => inl (New Internal "no bin size")
       | Some step =>
           let ticks := i64_of_f (Floor (fdiv price step)) in
           let low := fmul (f_of_Z ticks) step in
           inr (low, fadd low step)
       end.

Definition blank (s : string) : bool := str_eqb (TrimSpace s) "".

Definition validateVPVRSnapshotMetadata (s : VolumeProfileSnapshotV1) : option Problem :=
  if blank (vp_Venue s) || blank (vp_Instrument s) then refuse "vpvr venue/instrument must not be empty"
  else if negb (bool_decide (NormalizeTimeframe (vp_Timeframe s) ∈ VPVRTimeframes)) then refuse "vpvr timeframe is unsupported"
  else if (vp_WindowStartTs s <=? 0) || (vp_WindowEndTs s <=? vp_WindowStartTs s) then refuse "vpvr window bounds are invalid"
  else if Z.of_nat (length (Buckets s)) =? 0 then refuse "vpvr snapshot requires at least one bucket"
  else if VPVRCapBucketsPerWindow <? Z.of_nat (length (Buckets s)) then refuse "vpvr bucket cardinality cap exceeded"
  else None.

Definition validateVPVRSnapshotDerivedFields (s : VolumeProfileSnapshotV1) (expectedPOC : float64) : option Problem :=
  if negb (isFinite (POCPrice s)) || negb (feqb (POCPrice s) expectedPOC)
  then refuse "vpvr poc_price must match highest-volume bucket"
  else if negb (isFinite (ValueAreaLow s)) || negb (isFinite (ValueAreaHigh s)) || fltb (ValueAreaHigh s) (ValueAreaLow s)
  then refuse "vpvr value area bounds are invalid"
  else None.

Definition Profile_Validate (s : VolumeProfileSnapshotV1) : option Problem :=
  match validateVPVRSnapshotMetadata s with
  | Some p => Some p
  | None =>
      match validateVPVRSnapshotBuckets (Buckets s) with
      | inl p => Some p
      | inr expectedPOC => validateVPVRSnapshotDerivedFields s expectedPOC
      end
  end.
End domain.

(** ** session.go *)

Inductive SessionAnchorKind := SessionAnchorExchange | SessionAnchorUTC | SessionAnchorCustom | OtherAnchor (kind : string).
#[export] Instance SessionAnchorKind_eq_dec : EqDecision SessionAnchorKind.
Proof. solve_decision. Defined.

Record SessionAnchor := MkAnchor {
  anchor_Kind : SessionAnchorKind; Label : string; Timezone : string;
  OpenHour : Z; OpenMinute : Z; DurationMs : Z;
}.

(** The time zone database of the operating system: [time.LoadLocation], and for a
    zone the instant in milliseconds of hour and minute on the local day of an
    instant ([time.Date] of the day of [time.UnixMilli(ref).In(loc)]) and the
    instant a calendar day before another ([AddDate(0, 0, -1)]). *)
Class TimeZones := {
  Location : Type;
  LoadLocation : string → option Location;
  dateIn : Location → Z → Z → Z → Z;
  dayBeforeIn : Location → Z → Z;
}.

Definition dayMs : Z := 86400000.
(** The same in UTC, where every day has twenty-four hours. *)
Definition utcDate (ref hour minute : Z) : Z := ref / dayMs * dayMs + hour * 3600000 + minute * 60000.
Definition utcDayBefore (t : Z) : Z := t - dayMs.

Section sessions.
Context {GR : GoRuntime} {TZ : TimeZones}.

Definition Anchor_Validate (a : SessionAnchor) : option Problem :=
  if blank (Label a) then refuse "session anchor label must not be empty" else
  match anchor_Kind a with
  | SessionAnchorExchange =>
      if blank (Timezone a) then refuse "exchange session anchor requires timezone"
      else match LoadLocation (Timezone a) with
           | None => Some (Newf ValidationFailed "invalid timezone: %s" [AnyStr (Timezone a)])
           | Some _ => if DurationMs a <=? 0 then refuse "exchange session anchor requires positive duration_ms" else None
           end
  | SessionAnchorUTC => if DurationMs a <=? 0 then refuse "utc session anchor requires positive duration_ms" else None
  | SessionAnchorCustom => if DurationMs a <=? 0 then refuse "custom session anchor requires positive duration_ms" else None
  | OtherAnchor kind => Some (Newf ValidationFailed "unknown session anchor kind: %s" [AnyStr kind])
  end.

(** [resolveTimezoneSession]: [todayOpen] is the opening on the day of the instant. *)
Definition resolveTimezoneSession (anchor : SessionAnchor) (todayOpenMs : Z) (dayBefore : Z → Z) (refTimeMs : Z) : Z * Z :=
  let todayEndMs := add64 todayOpenMs (DurationMs anchor) in
  if (todayOpenMs <=? refTimeMs) && (refTimeMs <? todayEndMs) then (todayOpenMs, todayEndMs)
  else if refTimeMs <? todayOpenMs then
    let yMs := dayBefore todayOpenMs in (yMs, add64 yMs (DurationMs anchor))
  else (todayOpenMs, todayEndMs).

Definition ResolveSessionBounds (anchor : SessionAnchor) (refTimeMs : Z) : Problem + Z * Z :=
  if refTimeMs <=? 0 then inl (New ValidationFailed "refTimeMs must be positive") else
  match Anchor_Validate anchor with
  | Some p => inl p
  | None =>
      match anchor_Kind anchor with
      | SessionAnchorCustom =>
          let startMs := mul64 (quot64 refTimeMs (DurationMs anchor)) (DurationMs anchor) in
          inr (startMs, add64 startMs (DurationMs anchor))
      | SessionAnchorUTC =>
          inr (resolveTimezoneSession anchor (utcDate refTimeMs (OpenHour anchor) (OpenMinute anchor)) utcDayBefore refTimeMs)
      | SessionAnchorExchange =>
          match LoadLocation (Timezone anchor) with
          | None => inl (Newf ValidationFailed "invalid timezone: %s" [AnyStr (Timezone anchor)])
          | Some loc =>
              inr (resolveTimezoneSession anchor (dateIn loc refTimeMs (OpenHour anchor) (OpenMinute anchor)) (dayBeforeIn loc) refTimeMs)
          end
      | OtherAnchor _ => inl (New ValidationFailed "unreachable")
      end
  end.
End sessions.

Definition hours (h m : Z) : Z := h * 3600 * 1000 + m * 60 * 1000.
Definition SessionPresets : gmap string SessionAnchor :=
  <["CME_RTH" := MkAnchor SessionAnchorExchange "CME_RTH" "America/Chicago" 8 30 (hours 6 45)]>
  (<["CME_ETH" := MkAnchor SessionAnchorExchange "CME_ETH" "America/Chicago" 17 0 (hours 15 30)]>
  (<["ASIA" := MkAnchor SessionAnchorUTC "ASIA" "UTC" 0 0 (hours 8 0)]>
  (<["LONDON" := MkAnchor SessionAnchorUTC "LONDON" "UTC" 8 0 (hours 8 30)]>
  (<["NY" := MkAnchor SessionAnchorUTC "NY" "UTC" 13 30 (hours 6 30)]>
  (<["UTC_DAILY" := MkAnchor SessionAnchorUTC "UTC_DAILY" "UTC" 0 0 (hours 24 0)]>
  (<["CRYPTO_4H" := MkAnchor SessionAnchorCustom "CRYPTO_4H" "UTC" 0 0 (hours 4 0)]> ∅)))))).

(** ** session_volume_profile.go *)

Definition SVPCapBuckets : Z := 400.
Definition SVPValueAreaPct : float64 := flit 70 100.

Record SessionVolumeProfileV1 := MkSessionProfile {
  sp_Venue : string; sp_Instrument : string; sp_Anchor : SessionAnchor;
  sp_Buckets : list VolumeProfileBucketV1;
  sp_POCPrice : float64; sp_ValueAreaLow : float64; sp_ValueAreaHigh : float64;
  sp_TotalVolume : float64; sp_BuyVolume : float64; sp_SellVolume : float64;
  sp_TradeCount : Z; sp_WindowStartTs : Z; sp_WindowEndTs : Z; sp_SeqFirst : Z; sp_SeqLast : Z;
}.

Definition SessionProfile_Validate {GR : GoRuntime} {TZ : TimeZones} (s : SessionVolumeProfileV1) : option Problem :=
  if blank (sp_Venue s) || blank (sp_Instrument s) then refuse "session vp venue/instrument must not be empty" else
  match Anchor_Validate (sp_Anchor s) with
  | Some p => Some p
  | None =>
      if (sp_WindowStartTs s <=? 0) || (sp_WindowEndTs s <=? sp_WindowStartTs s) then refuse "session vp window bounds are invalid"
      else if Z.of_nat (length (sp_Buckets s)) =? 0 then refuse "session vp requires at least one bucket"
      else if SVPCapBuckets <? Z.of_nat (length (sp_Buckets s)) then refuse "session vp bucket cap exceeded"
      else if negb (IsSortedFunc compareVPVRBucketOrder (sp_Buckets s)) then refuse "session vp buckets must be sorted by price"
      else match validateVPVRSnapshotBuckets (sp_Buckets s) with
           | inl p => Some p
           | inr expectedPOC =>
               if negb (isFinite (sp_POCPrice s)) || negb (feqb (sp_POCPrice s) expectedPOC)
               then refuse "session vp poc_price must match highest-volume bucket"
               else if negb (isFinite (sp_ValueAreaLow s)) || negb (isFinite (sp_ValueAreaHigh s))
                       || fltb (sp_ValueAreaHigh s) (sp_ValueAreaLow s)
               then refuse "session vp value area bounds are invalid"
               else None
           end
  end.

(** The loop of [ComputePOC]: index, greatest volume so far and its index. *)
Fixpoint pocLoop (buckets : list VolumeProfileBucketV1) (i : nat) (maxVol : float64) (pocIdx : nat) : nat :=
  match buckets with
  | [] => pocIdx
  | b :: rest =>
      if fltb maxVol (TotalVolume b) then pocLoop rest (S i) (TotalVolume b) i else pocLoop rest (S i) maxVol pocIdx
  end.
Definition ComputePOC (buckets : list VolumeProfileBucketV1) : float64 * Z :=
  match buckets with
  | [] => (f0, -1)
  | _ :: _ =>
      let pocIdx := pocLoop buckets 0 (f_of_Z (-1)) 0 in
      (match buckets !! pocIdx with Some b => PriceLow b | None => f0 end, Z.of_nat pocIdx)
  end.

Definition volumeAt (buckets : list VolumeProfileBucketV1) (i : nat) : float64 :=
  match buckets !! i with Some b => TotalVolume b | None => f0 end.

(** One pass of the loop of [ComputeValueArea]. *)
Definition areaBody (buckets : list VolumeProfileBucketV1) (target : float64) (s : nat * nat * float64)
    : option (nat * nat * float64) :=
  let '(lo, hi, accum) := s in
  let more := (hi <? length buckets - 1)%nat in
  if fltb accum target && ((0 <? lo)%nat || more) then
    let volLo := if (0 <? lo)%nat then volumeAt buckets (lo - 1) else f0 in
    let volHi := if more then volumeAt buckets (hi + 1) else f0 in
    if fleb volHi volLo && (0 <? lo)%nat then Some (lo - 1, hi, fadd accum volLo)%nat
    else if more then Some (lo, hi + 1, fadd accum volHi)%nat
    else if (0 <? lo)%nat then Some (lo - 1, hi, fadd accum volLo)%nat
    else None
  else None.

Definition totalVolume (buckets : list VolumeProfileBucketV1) : float64 := foldl (λ acc b, fadd acc (TotalVolume b)) f0 buckets.

(** The results are [vah] and [val]. A negative or too large [pocIdx] is a panic,
    as is a loop that does not end; from a bucket of the list the loop ends. *)
Definition ComputeValueArea (buckets : list VolumeProfileBucketV1) (pocIdx : Z) (pct : float64) : option (float64 * float64) :=
  match buckets, last buckets with
  | first :: _, Some end_ =>
      let totalVol := totalVolume buckets in
      if fleb totalVol f0 then Some (PriceLow first, PriceHigh end_) else
      let target := fmul totalVol pct in
      if pocIdx <? 0 then None else
      let poc := Z.to_nat pocIdx in
      b ← buckets !! poc;
      '(lo, hi, _) ← loop (areaBody buckets target) (S (length buckets)) (poc, poc, TotalVolume b);
      top ← buckets !! hi;
      bottom ← buckets !! lo;
      Some (PriceHigh top, PriceLow bottom)
  | _, _ => Some (f0, f0)
  end.
