(* ===== verification/Grouping.v ===== *)
(** * Grouping: a bounded map that summarises a stream by key

    Several use cases keep, under each key met in a stream, a summary of the
    items with the key, and stop taking new keys when the map is full. [groups] is
    what such a map holds: an entry for each of the first [max] keys, the summary of
    all its items. *)

From S2P Require Import Prelude.

Lemma elem_of_taken {A} n (l : list A) x : x ∈ take n l → x ∈ l.
Proof. intros Hx. rewrite <- (take_drop n l). apply elem_of_app. by left. Qed.

Section grouping.
Context {T K B : Type} `{Countable K}.
Context (keyOf : T → option K).

(** The keys met, in the order of their first item. *)
Fixpoint keysFrom (seen : list K) (ts : list T) : list K :=
  match ts with
  | [] => seen
  | t :: rest =>
      match keyOf t with
      | Some k => keysFrom (if bool_decide (k ∈ seen) then seen else seen ++ [k]) rest
      | None => keysFrom seen rest
      end
  end.
Definition keysMet : list T → list K := keysFrom [].
Definition withKey (k : K) (ts : list T) : list T := filter (λ t, keyOf t = Some k) ts.

Lemma keysFrom_snoc seen ts t :
  keysFrom seen (ts ++ [t]) =
  match keyOf t with
  | Some k => if bool_decide (k ∈ keysFrom seen ts) then keysFrom seen ts else keysFrom seen ts ++ [k]
  | None => keysFrom seen ts
  end.
Proof.
  revert seen. induction ts as [|t0 ts IH]; intros seen; cbn; [by destruct (keyOf t)|]. destruct (keyOf t0); apply IH.
Qed.
Lemma keysMet_NoDup ts : NoDup (keysMet ts).
Proof.
  unfold keysMet. induction ts as [|t ts IH] using rev_ind; [constructor|]. rewrite keysFrom_snoc.
  destruct (keyOf t) as [k|]; [|done]. case_bool_decide; [done|]. by apply NoDup_snoc.
Qed.
Lemma withKey_snoc k ts t : withKey k (ts ++ [t]) = withKey k ts ++ (if decide (keyOf t = Some k) then [t] else []).
Proof. unfold withKey. by rewrite filter_app, filter_cons, filter_nil. Qed.
Lemma elem_of_keysMet k ts : k ∈ keysMet ts ↔ withKey k ts ≠ [].
Proof.
  unfold keysMet. induction ts as [|t ts IH] using rev_ind; [split; [by intros ?%elem_of_nil|done]|].
  rewrite keysFrom_snoc, withKey_snoc. destruct (keyOf t) as [k'|]; [|rewrite decide_False, app_nil_r by done; done].
  case_decide as Hk; [simplify_eq|].
  - split; [by intros _ []%app_nil|]. intros _. case_bool_decide; set_solver.
  - rewrite app_nil_r, <- IH. case_bool_decide; set_solver.
Qed.

(** The items with one of the first [max] keys. *)
Definition counted (max : nat) (ts : list T) : list T := filter (λ t, keyOf t ∈ Some <$> take max (keysMet ts)) ts.

Lemma taken_stable max ts t k :
  k ∈ keysMet ts → k ∈ take max (keysMet (ts ++ [t])) ↔ k ∈ take max (keysMet ts).
Proof.
  intros Hk. unfold keysMet. rewrite keysFrom_snoc. fold (keysMet ts). destruct (keyOf t) as [k'|]; [|done].
  case_bool_decide as Hk'; [done|]. rewrite take_app, elem_of_app. split; [|by left]. intros [?|Hin]; [done|].
  apply elem_of_taken, list_elem_of_singleton in Hin as ->. done.
Qed.
Lemma counted_snoc max ts t :
  counted max (ts ++ [t]) = counted max ts ++ (if decide (keyOf t ∈ Some <$> take max (keysMet (ts ++ [t]))) then [t] else []).
Proof.
  unfold counted. rewrite filter_app, filter_cons, filter_nil. f_equal. apply filter_ext_in. intros x Hx.
  rewrite !list_elem_of_fmap. split; intros (k & Hk & Hin); exists k; split; try done.
  - eapply taken_stable; [|exact Hin]. apply elem_of_keysMet. intros Hnil.
    assert (Hin' : x ∈ withKey k ts) by by apply list_elem_of_filter. rewrite Hnil in Hin'. by apply elem_of_nil in Hin'.
  - apply taken_stable; [by eapply elem_of_taken|done].
Qed.

(** The summary of a key and its items, and the step that keeps it up to date:
    [add] on an entry, [fresh] for a key that has none. *)
Context (summary : K → list T → option B) (add : T → B → B) (fresh : K → T → B).
Context (summary_some : ∀ k ts, is_Some (summary k ts) ↔ ts ≠ []).
Context (summary_snoc : ∀ k ts t, keyOf t = Some k → Some (add t (default (fresh k t) (summary k ts))) = summary k (ts ++ [t])).

Definition groups (max : nat) (ts : list T) (m : gmap K B) : Prop :=
  ∀ k, m !! k = if bool_decide (k ∈ take max (keysMet ts)) then summary k (withKey k ts) else None.

Definition groupStep (max : Z) (t : T) (m : gmap K B) : gmap K B :=
  match keyOf t with
  | None => m
  | Some k =>
      match m !! k with
      | Some b => <[k := add t b]> m
      | None => if (max <=? Z.of_nat (base.size m))%Z then m else <[k := add t (fresh k t)]> m
      end
  end.

Lemma groups_nil max : groups max [] ∅.
Proof. intros k. cbn. by rewrite take_nil, lookup_empty, bool_decide_false by by intros ?%elem_of_nil. Qed.

Lemma groups_size max ts m : groups max ts m → base.size m = length (take max (keysMet ts)).
Proof.
  intros Hg. rewrite <- size_dom, <- (size_list_to_set (C:=gset K)).
  - f_equal. apply set_eq. intros k. rewrite elem_of_dom, elem_of_list_to_set, Hg. case_bool_decide as Hk; [|split; [by intros []|done]].
    split; [done|]. intros _. by apply summary_some, elem_of_keysMet, elem_of_taken with max.
  - pose proof (keysMet_NoDup ts) as Hnd. rewrite <- (take_drop max) in Hnd. by apply NoDup_app in Hnd as [? _].
Qed.

Lemma groups_in max ts m k : groups max ts m → is_Some (m !! k) ↔ k ∈ take max (keysMet ts).
Proof.
  intros Hg. rewrite Hg. case_bool_decide as Hk; [|split; [by intros []|done]].
  split; [done|]. intros _. by apply summary_some, elem_of_keysMet, elem_of_taken with max.
Qed.

Lemma summary_absent k ts : k ∉ keysMet ts → summary k (withKey k ts) = None.
Proof.
  intros Hk. apply eq_None_not_Some. intros Hs%summary_some. by apply Hk, elem_of_keysMet.
Qed.

Lemma groupStep_groups max ts t m :
  (0 ≤ max)%Z → groups (Z.to_nat max) ts m → groups (Z.to_nat max) (ts ++ [t]) (groupStep max t m).
Proof.
  intros Hmax Hg k. pose proof (groups_size _ _ _ Hg) as Hsz. rewrite length_take in Hsz.
  unfold groupStep, keysMet. rewrite keysFrom_snoc, withKey_snoc. fold (keysMet ts).
  destruct (keyOf t) as [k0|] eqn:Hkey; [|rewrite decide_False, app_nil_r by done; apply Hg].
  pose proof (groups_in _ _ _ k0 Hg) as Hin. pose proof (Hg k0) as Hk0. destruct (m !! k0) as [b|] eqn:Hb.
  - assert (Ht : k0 ∈ take (Z.to_nat max) (keysMet ts)) by by apply Hin.
    rewrite (bool_decide_true (k0 ∈ keysMet ts)) by exact (elem_of_taken _ _ _ Ht).
    rewrite bool_decide_true in Hk0 by done. destruct (decide (Some k0 = Some k)) as [[= <-]|Hne].
    + rewrite lookup_insert_eq, bool_decide_true by done. by rewrite <- summary_snoc, <- Hk0.
    + rewrite lookup_insert_ne, app_nil_r by congruence. apply Hg.
  - assert (Hnin : k0 ∉ take (Z.to_nat max) (keysMet ts)) by (intros []%Hin; done).
    destruct (Z.leb_spec max (Z.of_nat (base.size m))) as [Hfull|Hroom].
    + assert (Ht : take (Z.to_nat max) (if bool_decide (k0 ∈ keysMet ts) then keysMet ts else keysMet ts ++ [k0])
                   = take (Z.to_nat max) (keysMet ts)) by (destruct (bool_decide (k0 ∈ keysMet ts)); [done|]; rewrite take_app_le; [done|lia]).
      rewrite Ht, Hg, !bool_decide_decide. destruct (decide (k ∈ take (Z.to_nat max) (keysMet ts))) as [Hk|]; [|done].
      rewrite decide_False; [by rewrite app_nil_r|]. intros [= <-]. done.
    + rewrite (take_ge (keysMet ts)) in Hnin by lia. rewrite (bool_decide_false (k0 ∈ keysMet ts)) by done.
      rewrite take_ge by (rewrite length_app; cbn; lia). destruct (decide (Some k0 = Some k)) as [[= <-]|Hne].
      * rewrite lookup_insert_eq, bool_decide_true by set_solver. by rewrite <- summary_snoc, summary_absent by done.
      * rewrite lookup_insert_ne, app_nil_r, Hg by congruence. rewrite (take_ge (keysMet ts)) by lia.
        apply (f_equal (λ b : bool, if b then _ else _)). apply bool_decide_ext. set_solver.
Qed.
End grouping.
