(* ===== verification/VolumeProfile.v ===== *)
(** * VolumeProfile: internal/core/insights/app/build_volume_profile.go

    The use case that builds volume profiles from trades, with the policy of
    vpvr_overload_policy.go and the alerts of vpvr_overload_alerts.go. Windows and
    buckets are reached only through their maps, so what the code writes through a
    pointer is the entry of the map. A bucket is kept under the text of its bounds,
    printed with the fewest digits that give the float back: different floats have
    different texts, so the pair of floats is the key. *)

From S2P Require Import Prelude GoRuntime Loops Shared Hash Insights.

Local Open Scope string_scope.
Local Open Scope list_scope.
Local Open Scope Z_scope.

(** ** Floats as keys of maps *)

#[export] Instance float64_eq_dec : EqDecision float64.
Proof. solve_decision. Defined.
Definition encodeFloat (f : float64) : bool + (bool + (unit + bool * positive * Z)) :=
  match f with
  | S754_zero s => inl s
  | S754_infinity s => inr (inl s)
  | S754_nan => inr (inr (inl tt))
  | S754_finite s m e => inr (inr (inr (s, m, e)))
  end.
Definition decodeFloat (t : bool + (bool + (unit + bool * positive * Z))) : float64 :=
  match t with
  | inl s => S754_zero s
  | inr (inl s) => S754_infinity s
  | inr (inr (inl _)) => S754_nan
  | inr (inr (inr (s, m, e))) => S754_finite s m e
  end.
#[export] Instance float64_countable : Countable float64 :=
  inj_countable' encodeFloat decodeFloat (λ f, match f with S754_zero _ | S754_infinity _ | S754_nan | S754_finite _ _ _ => eq_refl end).

(** ** Data *)

Definition vpvrTradeEventType : string := "marketdata.trade".

Record BuildVolumeProfileConfig := MkVPConfig { MaxBucketsPerWindow : Z; MaxLevelsPerPayload : Z; MaxOpenWindowsPerKey : Z }.

Record BuildVolumeProfileRequest := MkVPRequest {
  rq_EventType : string; rq_Venue : string; rq_Instrument : string; rq_Timeframe : string;
  rq_TickSize : float64; rq_Price : float64; rq_Size : float64; rq_Side : string; rq_TsIngest : Z; rq_Seq : Z;
}.

Record BuildVolumeProfileResponse := MkVPResponse {
  Emitted : bool; DropReason : string;
  Snapshot : option VolumeProfileSnapshotV1; Delta : option VolumeProfileSnapshotV1; IdempotencyKey : string;
}.

Record vpvrBucketState := MkBucketState {
  bk_low : float64; bk_high : float64; buy : float64; sell : float64; total : float64; seqMin : Z; seqMax : Z;
}.
#[export] Instance vpvrBucketState_eta : Eta vpvrBucketState := λ r,
  MkBucketState (bk_low r) (bk_high r) (buy r) (sell r) (total r) (seqMin r) (seqMax r).

Record vpvrWindowState := MkWindow { windowStartMs : Z; windowEndMs : Z; buckets : gmap (float64 * float64) vpvrBucketState }.
#[export] Instance vpvrWindowState_eta : Eta vpvrWindowState := λ r, MkWindow (windowStartMs r) (windowEndMs r) (buckets r).

Record vpvrPartitionState := MkPartition { windows : gmap Z vpvrWindowState; order : list Z }.
#[export] Instance vpvrPartitionState_eta : Eta vpvrPartitionState := λ r, MkPartition (windows r) (order r).

Record BuildVolumeProfile := MkVP { vp_cfg : BuildVolumeProfileConfig; states : gmap string vpvrPartitionState }.
#[export] Instance BuildVolumeProfile_eta : Eta BuildVolumeProfile := λ r, MkVP (vp_cfg r) (states r).

Record vpvrNormalizedTrade := MkTrade {
  venue : string; instrument : string; timeframe : string; price : float64; size : float64; side : string;
  tickSize : float64; tsIngest : Z; seq : Z;
}.

Definition orDefault (v d : Z) : Z := if v <=? 0 then d else v.
Definition NewBuildVolumeProfileWithConfig (cfg : BuildVolumeProfileConfig) : BuildVolumeProfile :=
  MkVP (MkVPConfig (orDefault (MaxBucketsPerWindow cfg) VPVRCapBucketsPerWindow)
          (orDefault (MaxLevelsPerPayload cfg) VPVRCapLevelsPerPayload)
          (orDefault (MaxOpenWindowsPerKey cfg) VPVRCapOpenWindowsPerKey)) ∅.
Definition NewBuildVolumeProfile : BuildVolumeProfile := NewBuildVolumeProfileWithConfig (MkVPConfig 0 0 0).

Definition minuteMs : Z := 60000.

Section usecase.
Context {GR : GoRuntime}.

Definition timeframeToVPVRWindowMs (tf : string) : Z :=
  let tf := NormalizeTimeframe tf in
  if str_eqb tf "1m" then minuteMs
  else if str_eqb tf "5m" then 5 * minuteMs
  else if str_eqb tf "1h" then 60 * minuteMs
  else if str_eqb tf "4h" then 4 * 60 * minuteMs
  else if str_eqb tf "1d" then 24 * 60 * minuteMs
  else 0.

Definition normalizeAndValidateVPVRRequest (req : BuildVolumeProfileRequest) : Problem + vpvrNormalizedTrade :=
  match Collect [NonEmptyString "event_type" (rq_EventType req); NonEmptyString "venue" (rq_Venue req);
                 NonEmptyString "instrument" (rq_Instrument req); NonEmptyString "timeframe" (rq_Timeframe req);
                 NonEmptyString "side" (rq_Side req); Positive "tick_size" (rq_TickSize req);
                 Positive "price" (rq_Price req); Positive "size" (rq_Size req);
                 PositiveInt "ts_ingest" (rq_TsIngest req); PositiveInt "seq" (rq_Seq req)] with
  | Some p => inl p
  | None =>
      let eventType := NormalizeEventType (rq_EventType req) in
      if negb (str_eqb eventType vpvrTradeEventType)
      then inl (Newf ValidationFailed "vpvr accepts only %s events, got %s" [AnyStr vpvrTradeEventType; AnyStr eventType]) else
      let tf := NormalizeTimeframe (rq_Timeframe req) in
      if negb (bool_decide (tf ∈ VPVRTimeframes)) then inl (New ValidationFailed "vpvr timeframe is unsupported") else
      let sd := NormalizeSide (rq_Side req) in
      if negb (str_eqb sd "buy") && negb (str_eqb sd "sell") then inl (New ValidationFailed "vpvr side must be buy or sell")
      else inr (MkTrade (CanonicalVenue (rq_Venue req)) (CanonicalInstrument (rq_Instrument req)) tf (rq_Price req)
                  (rq_Size req) sd (rq_TickSize req) (rq_TsIngest req) (rq_Seq req))
  end.

Definition partitionOf (req : vpvrNormalizedTrade) : string := (venue req ++ "|" ++ instrument req ++ "|" ++ timeframe req)%string.

(** [getWindow] on the partition of the key. *)
Definition openWindow (cfg : BuildVolumeProfileConfig) (start end_ : Z) (ps : vpvrPartitionState) : vpvrPartitionState :=
  match windows ps !! start with
  | Some _ => ps
  | None =>
      let ps := if MaxOpenWindowsPerKey cfg <=? Z.of_nat (length (order ps)) then
                  match order ps with
                  | oldest :: rest => ps <| windows ::= delete oldest |> <| order := rest |>
                  | [] => ps
                  end
                else ps in
      ps <| windows ::= <[start := MkWindow start end_ ∅]> |> <| order ::= λ o, o ++ [start] |>
  end.

(** The pointer it returns is the place of the window in the maps. *)
Definition getWindow (req : vpvrNormalizedTrade) : Meth BuildVolumeProfile Problem (string * Z) :=
  let windowMs := timeframeToVPVRWindowMs (timeframe req) in
  if windowMs <=? 0 then throw (New ValidationFailed "vpvr timeframe window is invalid") else
  let windowStart := mul64 (quot64 (tsIngest req) windowMs) windowMs in
  let windowEnd := add64 windowStart windowMs in
  let key := partitionOf req in
  assign (λ uc, uc <| states ::= partial_alter (λ ps,
            Some (openWindow (vp_cfg uc) windowStart windowEnd (default (MkPartition ∅ []) ps))) key |>) ;;
  mret (key, windowStart).

Definition nilWindow : Problem := New Internal "invalid memory address or nil pointer dereference".
Definition windowAt (at_ : string * Z) (uc : BuildVolumeProfile) : option vpvrWindowState :=
  ps ← states uc !! at_.1; windows ps !! at_.2.
Definition onWindow {A} (at_ : string * Z) (m : Meth vpvrWindowState Problem A) : Meth BuildVolumeProfile Problem A := λ uc,
  match windowAt at_ uc with
  | None => (uc, inl nilWindow)
  | Some ws => let '(ws, r) := m ws in (uc <| states ::= alter (λ ps, ps <| windows ::= <[at_.2 := ws]> |>) at_.1 |>, r)
  end.

(** The volume and the numbers of a trade added to its bucket. *)
Definition addTrade (req : vpvrNormalizedTrade) (b : vpvrBucketState) : vpvrBucketState :=
  let b := if str_eqb (side req) "buy" then b <| buy ::= λ v, fadd v (size req) |> else b <| sell ::= λ v, fadd v (size req) |> in
  let b := b <| total := fadd (buy b) (sell b) |> in
  let b := if seq req <? seqMin b then b <| seqMin := seq req |> else b in
  if seqMax b <? seq req then b <| seqMax := seq req |> else b.

(** [None] is the drop reason "bucket_cap". *)
Definition applyTrade (cfg : BuildVolumeProfileConfig) (req : vpvrNormalizedTrade) : Meth vpvrWindowState Problem (option vpvrBucketState) :=
  '(low, high) ← try_ (AssignVPVRBucket (price req) (tickSize req));
  ws ← recv;
  let put b := assign (λ ws, ws <| buckets ::= <[(low, high) := b]> |>) ;; mret (Some b) in
  match buckets ws !! (low, high) with
  | None =>
      if MaxBucketsPerWindow cfg <=? Z.of_nat (base.size (buckets ws)) then mret None
      else put (addTrade req (MkBucketState low high f0 f0 f0 (seq req) (seq req)))
  | Some b => put (addTrade req b)
  end.

Definition toBucket (b : vpvrBucketState) : VolumeProfileBucketV1 :=
  MkBucket (bk_low b) (bk_high b) (buy b) (sell b) (total b) (seqMin b) (seqMax b).

(** [compareVPVRBucketOrder] is the order of [sortVPVRBucketsByPrice] too. *)
Definition sortVPVRBucketsByPrice : list VolumeProfileBucketV1 → list VolumeProfileBucketV1 := SortFunc compareVPVRBucketOrder.
Definition compareVolume (a b : VolumeProfileBucketV1) : Z :=
  if fltb (TotalVolume b) (TotalVolume a) then -1
  else if fltb (TotalVolume a) (TotalVolume b) then 1
  else compareVPVRBucketOrder a b.
Definition capVPVRLevelsByVolume (l : list VolumeProfileBucketV1) (max : Z) : list VolumeProfileBucketV1 :=
  let out := sortVPVRBucketsByPrice l in
  if (max <=? 0) || (Z.of_nat (length out) <=? max) then out
  else sortVPVRBucketsByPrice (take (Z.to_nat max) (SortFunc compareVolume out)).

(** The loop for the point of control. *)
Definition highestVolume (poc maxTotal : float64) (l : list VolumeProfileBucketV1) : float64 :=
  (foldl (λ '(poc, maxTotal) b, if fltb maxTotal (TotalVolume b) then (PriceLow b, TotalVolume b) else (poc, maxTotal))
     (poc, maxTotal) l).1.

(** The profile over some buckets, point of control and value area included. *)
Definition profileOver (v i tf : string) (start end_ : Z) (l : list VolumeProfileBucketV1) (first end_b : VolumeProfileBucketV1)
    : VolumeProfileSnapshotV1 :=
  MkProfile v i tf start end_ l (highestVolume (PriceLow first) (TotalVolume first) l) (PriceLow first) (PriceHigh end_b).

Definition buildSnapshot (cfg : BuildVolumeProfileConfig) (req : vpvrNormalizedTrade) (ws : vpvrWindowState)
    : Problem + VolumeProfileSnapshotV1 :=
  let l := capVPVRLevelsByVolume (toBucket <$> (map_range (buckets ws)).*2) (MaxLevelsPerPayload cfg) in
  match l, last l with
  | first :: _, Some end_b =>
      let s := profileOver (venue req) (instrument req) (timeframe req) (windowStartMs ws) (windowEndMs ws) l first end_b in
      match Profile_Validate s with Some p => inl p | None => inr s end
  | _, _ => inl (New ValidationFailed "vpvr snapshot has no buckets")
  end.

Definition buildDeltaFromSnapshot (s : VolumeProfileSnapshotV1) (changed : vpvrBucketState) : Problem + VolumeProfileSnapshotV1 :=
  let delta := MkProfile (vp_Venue s) (vp_Instrument s) (vp_Timeframe s) (vp_WindowStartTs s) (vp_WindowEndTs s)
                 [toBucket changed] (bk_low changed) (bk_low changed) (bk_high changed) in
  match Profile_Validate delta with Some p => inl p | None => inr delta end.

Definition VolumeProfileIdempotencyKey (s : VolumeProfileSnapshotV1) (bucketLow bucketHigh : float64) (mx : Z) : string :=
  Hex (HashInt64 mx (HashInt 1 (HashFloat64 bucketHigh (HashFloat64 bucketLow (HashInt64 (vp_WindowEndTs s)
    (HashInt64 (vp_WindowStartTs s) (HashString (NormalizeTimeframe (vp_Timeframe s))
      (HashString (CanonicalInstrument (vp_Instrument s)) (HashString (CanonicalVenue (vp_Venue s)) NewFieldHasher))))))))).

Definition Execute (req : BuildVolumeProfileRequest) : Meth BuildVolumeProfile Problem BuildVolumeProfileResponse :=
  nreq ← try_ (normalizeAndValidateVPVRRequest req);
  at_ ← getWindow nreq;
  uc ← recv;
  bucket ← onWindow at_ (applyTrade (vp_cfg uc) nreq);
  match bucket with
  | None => mret (MkVPResponse false "bucket_cap" None None "")
  | Some b =>
      ws ← onWindow at_ recv;
      snapshot ← try_ (buildSnapshot (vp_cfg uc) nreq ws);
      delta ← try_ (buildDeltaFromSnapshot snapshot b);
      mret (MkVPResponse true "" (Some snapshot) (Some delta) (VolumeProfileIdempotencyKey snapshot (bk_low b) (bk_high b) (seqMax b)))
  end.

(** [Snapshot] *)
Definition latestSnapshot (v i tf : string) (uc : BuildVolumeProfile) : Problem + VolumeProfileSnapshotV1 :=
  match Collect [NonEmptyString "venue" v; NonEmptyString "instrument" i; NonEmptyString "timeframe" tf] with
  | Some p => inl p
  | None =>
      let nreq := MkTrade (CanonicalVenue v) (CanonicalInstrument i) (NormalizeTimeframe tf) f0 f0 "" f0 0 0 in
      if negb (bool_decide (timeframe nreq ∈ VPVRTimeframes)) then inl (New ValidationFailed "vpvr timeframe is unsupported") else
      let notFound msg := inl (Newf NotFound msg [AnyStr v; AnyStr i; AnyStr tf]) in
      match states uc !! partitionOf nreq with
      | None => notFound "vpvr snapshot not found for %s/%s/%s"
      | Some ps =>
          match last (order ps) with
          | None => notFound "vpvr snapshot not found for %s/%s/%s"
          | Some windowStart =>
              match windows ps !! windowStart with
              | None => notFound "vpvr snapshot window not found for %s/%s/%s"
              | Some ws => buildSnapshot (vp_cfg uc) nreq ws
              end
          end
      end
  end.
End usecase.

(** ** vpvr_overload_policy.go *)

Definition VPVROverloadLevel : Type := Z.
Definition VPVROverloadL0 : VPVROverloadLevel := 0.
Definition VPVROverloadL1 : VPVROverloadLevel := 1.
Definition VPVROverloadL2 : VPVROverloadLevel := 2.
Definition VPVROverloadL3 : VPVROverloadLevel := 3.

Record VPVROverloadSignals := MkSignals {
  QueueDepth : Z; QueueCapacity : Z; BoundedMapOccupancy : Z; BoundedMapLimit : Z; ProcessingLatencyMs : float64;
}.
Record VPVROverloadState := MkOverload { ov_Level : VPVROverloadLevel; EventCount : Z }.
#[export] Instance VPVROverloadState_eta : Eta VPVROverloadState := λ r, MkOverload (ov_Level r) (EventCount r).

(** What the caller's function decides: level, compression, stride, drop of deltas. *)
Record overloadDecision := MkDecision { nextLevel : VPVROverloadLevel; compressSnapshot : bool; degradeStride : Z; dropDelta : bool }.
Definition OverloadDecideFunc : Type := VPVROverloadLevel → VPVROverloadSignals → overloadDecision.

Record VPVROverloadInput := MkOverloadInput {
  in_Venue : string; in_Instrument : string; in_Timeframe : string; WindowClose : bool; Signals : VPVROverloadSignals;
  in_Snapshot : VolumeProfileSnapshotV1; in_Delta : VolumeProfileSnapshotV1; HasDelta : bool; PartitionState : VPVROverloadState;
}.
Record VPVROverloadOutput := MkOverloadOutput {
  NextState : VPVROverloadState; out_Level : VPVROverloadLevel;
  out_Snapshot : VolumeProfileSnapshotV1; EmitSnapshot : bool; out_Delta : VolumeProfileSnapshotV1; EmitDelta : bool;
  Compressed : bool; CompressRatio : float64; CadenceDropped : bool; DeltaDropped : bool; out_DropReason : string;
}.

(** [math.Ceil] *)
Definition Ceil (f : float64) : float64 := fneg (Floor (fneg f)).

Section overload.
Context {GR : GoRuntime}.

Definition compareCompressedBucketPrice (a b : VolumeProfileBucketV1) : Z :=
  if negb (feqb (PriceLow a) (PriceLow b)) then (if fltb (PriceLow a) (PriceLow b) then -1 else 1)
  else if fltb (PriceHigh a) (PriceHigh b) then -1
  else if fltb (PriceHigh b) (PriceHigh a) then 1
  else 0.
Definition compareCompressedVolume (a b : VolumeProfileBucketV1) : Z :=
  if negb (feqb (TotalVolume a) (TotalVolume b)) then (if fltb (TotalVolume b) (TotalVolume a) then -1 else 1)
  else compareCompressedBucketPrice a b.

Definition compressSnapshotByRatio (s : VolumeProfileSnapshotV1) (ratio : float64) : VolumeProfileSnapshotV1 * bool * float64 :=
  let n := Z.of_nat (length (Buckets s)) in
  if fleb f1 ratio || (n <=? 1) then (s, false, f1) else
  let target := i64_of_f (Ceil (fmul (f_of_Z n) ratio)) in
  let target := if target <? 1 then 1 else target in
  if n <=? target then (s, false, f1) else
  let l := SortFunc compareCompressedBucketPrice (take (Z.to_nat target) (SortFunc compareCompressedVolume (Buckets s))) in
  match l, last l with
  | first :: _, Some end_b =>
      (profileOver (vp_Venue s) (vp_Instrument s) (vp_Timeframe s) (vp_WindowStartTs s) (vp_WindowEndTs s) l first end_b,
       true, fdiv (f_of_Z (Z.of_nat (length l))) (f_of_Z n))
  | _, _ => (s, false, f1)
  end.

Definition compressSnapshotByLevel (s : VolumeProfileSnapshotV1) (level : VPVROverloadLevel) : VolumeProfileSnapshotV1 * bool * float64 :=
  if level =? VPVROverloadL1 then compressSnapshotByRatio s (flit 75 100)
  else if level =? VPVROverloadL2 then compressSnapshotByRatio s (flit 50 100)
  else if level =? VPVROverloadL3 then compressSnapshotByRatio s (flit 25 100)
  else (s, false, f1).

(** Unsigned remainder: [uint64(stride)] is positive here. *)
Definition shouldEmitSnapshotAtCadence (eventCount stride : Z) (windowClose : bool) : bool :=
  windowClose || (stride <=? 1) || (eventCount mod stride =? 0).
Definition shouldEmitDelta (eventCount : Z) (drop : bool) (stride : Z) (windowClose hasDelta : bool) : bool * string :=
  if negb hasDelta then (false, "")
  else if windowClose then (true, "")
  else if drop then (false, "delta_l3")
  else if stride =? 2 then (if eventCount mod 2 =? 1 then (false, "delta_l2") else (true, ""))
  else (true, "").

Definition EvaluateVPVROverload (input : VPVROverloadInput) (d : overloadDecision) : VPVROverloadOutput :=
  let next := MkOverload (nextLevel d) (wrapu64 (EventCount (PartitionState input) + 1)) in
  let '(snapshot, compressed, ratio) :=
    if negb (WindowClose input) && compressSnapshot d then compressSnapshotByLevel (in_Snapshot input) (ov_Level next)
    else (in_Snapshot input, false, f1) in
  let emitSnapshot := shouldEmitSnapshotAtCadence (EventCount next) (degradeStride d) (WindowClose input) in
  let '(emitDelta, dropReason) :=
    shouldEmitDelta (EventCount next) (dropDelta d) (degradeStride d) (WindowClose input) (HasDelta input) in
  MkOverloadOutput next (ov_Level next) snapshot emitSnapshot (in_Delta input) emitDelta compressed ratio (negb emitSnapshot)
    (HasDelta input && negb emitDelta) dropReason.

Definition overloadPartitionKey (v i tf : string) : string :=
  (CanonicalVenue v ++ "|" ++ CanonicalInstrument i ++ "|" ++ NormalizeTimeframe tf)%string.

(** The policy: its table of states and the decision it was built with. *)
Record VPVREmitPolicy := MkPolicy { pol_states : gmap string VPVROverloadState; decide_ : OverloadDecideFunc }.
Definition NewVPVREmitPolicy (d : OverloadDecideFunc) : VPVREmitPolicy := MkPolicy ∅ d.
Definition Apply (input : VPVROverloadInput) (p : VPVREmitPolicy) : VPVREmitPolicy * VPVROverloadOutput :=
  let key := overloadPartitionKey (in_Venue input) (in_Instrument input) (in_Timeframe input) in
  let state := default (MkOverload 0 0) (pol_states p !! key) in
  let input := MkOverloadInput (in_Venue input) (in_Instrument input) (in_Timeframe input) (WindowClose input) (Signals input)
                 (in_Snapshot input) (in_Delta input) (HasDelta input) state in
  let out := EvaluateVPVROverload input (decide_ p (ov_Level state) (Signals input)) in
  (MkPolicy (<[key := NextState out]> (pol_states p)) (decide_ p), out).
End overload.

(** ** vpvr_overload_alerts.go *)

Record VPVRAlertThresholds := MkThresholds {
  L3StuckWindows : Z; DropWithoutCloseWindows : Z; LatencyBudgetMs : float64; LatencyBudgetExceededWindows : Z;
}.
Record VPVRAlertSignals := MkAlertSignals {
  OverloadLevel : VPVROverloadLevel; DropTotal : Z; WindowCloseTotal : Z; al_ProcessingMs : float64;
}.
Record VPVRAlertState := MkAlertState {
  ConsecutiveL3 : Z; ConsecutiveDropNoClose : Z; ConsecutiveLatencyBudget : Z; LastDropTotal : Z; LastWindowCloseTotal : Z;
}.
Record VPVRAlertResult := MkAlertResult { al_NextState : VPVRAlertState; L3Stuck : bool; DropWithoutClose : bool; LatencyBudgetExceeded : bool }.

(** [if b { n++ } else { n = 0 }] on an unsigned counter. *)
Definition countIf (b : bool) (n : Z) : Z := if b then wrapu64 (n + 1) else 0.
Definition EvaluateVPVRAlertThresholds (prev : VPVRAlertState) (s : VPVRAlertSignals) (th : VPVRAlertThresholds) : VPVRAlertResult :=
  let dropIncreased := LastDropTotal prev <? DropTotal s in
  let closeIncreased := LastWindowCloseTotal prev <? WindowCloseTotal s in
  let state := MkAlertState (countIf (OverloadLevel s =? VPVROverloadL3) (ConsecutiveL3 prev))
                 (countIf (dropIncreased && negb closeIncreased) (ConsecutiveDropNoClose prev))
                 (countIf (fltb (LatencyBudgetMs th) (al_ProcessingMs s)) (ConsecutiveLatencyBudget prev))
                 (DropTotal s) (WindowCloseTotal s) in
  let reached limit n := (0 <? limit) && (limit <=? n) in
  MkAlertResult state (reached (L3StuckWindows th) (ConsecutiveL3 state))
    (reached (DropWithoutCloseWindows th) (ConsecutiveDropNoClose state))
    (reached (LatencyBudgetExceededWindows th) (ConsecutiveLatencyBudget state)).
