(* ===== verification/VolumeProfileSpec.v ===== *)
(** * VolumeProfileSpec: what the volume profile promises

    The bin size is always computed; the levels published are those of greatest
    volume; a profile that was compressed under load is valid and keeps its point
    of control; a published profile groups all the trades of its window. And where
    the code falls short: bin sizes that are no multiple of the tick, and a late
    trade that replaces the latest window. *)

From S2P Require Import Prelude GoRuntime Loops Shared Hash Insights Grouping VolumeProfile.

Local Open Scope string_scope.
Local Open Scope list_scope.
Local Open Scope Z_scope.

(** ** Bin sizes *)

Lemma findExponent_total n : ∃ e, findExponent n = Some e ∧ -8 ≤ e ≤ 309 ∧ fltb (Pow10 e) n = false.
Proof.
  destruct (loop_variant (exponentBody n) (λ e, -8 ≤ e ≤ 309) (λ e, Z.to_nat (309 - e))) with (fuel := 320%nat) (s := -8)
    as (e & He & Hr & Hend).
  - intros e e' [Hlo Hhi]. unfold exponentBody. destruct (fltb (Pow10 e) n) eqn:Hlt; [|done]. intros [= <-].
    destruct (decide (e = 309)) as [->|]; [|lia]. change (Pow10 309) with (S754_infinity false) in Hlt. by destruct n as [|[]| |].
  - lia.
  - lia.
  - exists e. split_and!; [done|lia|lia|]. unfold exponentBody in Hend. by destruct (fltb (Pow10 e) n).
Qed.

(** A bin size is computed for every input, NaN and infinities included. *)
Lemma CalculateBinSize_total price tick grouping : is_Some (CalculateBinSize price tick grouping).
Proof. unfold CalculateBinSize. destruct (findExponent_total (fdiv (fmul price grouping) (f_of_Z 100))) as (e & -> & _). cbn. eauto. Qed.

(** ** Sums of volumes

    Sums of values that are not negative are not negative, and never NaN. *)

Definition nonneg (f : float64) : Prop :=
  match f with S754_zero _ | S754_infinity false | S754_finite false _ _ => True | _ => False end.

Lemma shr_1_nonneg r : 0 ≤ shr_m r → 0 ≤ shr_m (shr_1 r).
Proof. destruct r as [[|[]|[]] ? ?]; cbn; lia. Qed.
Lemma iter_shr_nonneg n r : 0 ≤ shr_m r → 0 ≤ shr_m (iter_pos shr_1 n r).
Proof. revert r. induction n; intros r Hr; cbn [iter_pos]; auto using shr_1_nonneg. Qed.
Lemma shr_fexp_nonneg prec emax m e l : 0 ≤ m → 0 ≤ shr_m (shr_fexp prec emax m e l).1.
Proof.
  intros Hm. unfold shr_fexp, shr. assert (0 ≤ shr_m (shr_record_of_loc m l)) by (by destruct l as [|[]]).
  destruct (fexp _ _ _ - e); cbn [fst]; auto using iter_shr_nonneg.
Qed.
Lemma round_even_nonneg m l : 0 ≤ m → 0 ≤ round_nearest_even m l.
Proof. intros. unfold round_nearest_even. repeat case_match; lia. Qed.

Lemma binary_round_nonneg prec emax m e : nonneg (binary_round prec emax false m e).
Proof.
  unfold binary_round. destruct (shl_align _ _ _) as [mz ez]. unfold binary_round_aux.
  pose proof (shr_fexp_nonneg prec emax (Zpos mz) ez loc_Exact ltac:(lia)) as H1. destruct (shr_fexp _ _ _ _ _) as [r1 e1].
  pose proof (shr_fexp_nonneg prec emax (round_nearest_even (shr_m r1) (loc_of_shr_record r1)) e1 loc_Exact (round_even_nonneg _ _ H1)) as H2.
  destruct (shr_fexp _ _ _ _ _) as [r2 e2]. cbn in H2. destruct (shr_m r2); cbn; [done|by case_match|lia].
Qed.
Lemma fadd_nonneg x y : nonneg x → nonneg y → nonneg (fadd x y).
Proof.
  unfold fadd. destruct x as [[]|[]| |[] mx ex], y as [[]|[]| |[] my ey]; cbn -[binary_normalize]; try done.
  intros _ _. apply binary_round_nonneg.
Qed.
Lemma nonneg_facts f : nonneg f → isNaN f = false ∧ fltb f f0 = false.
Proof. by destruct f as [[]|[]| |[]]. Qed.

(** ** Orders on buckets *)

(** The lexicographic combination of two weak orders. *)
Definition lex {A} (l1 l2 : A → A → bool) (a b : A) : bool := l1 a b || (negb (l1 b a) && l2 a b).

Lemma lex_weak_order {A} (l1 l2 : A → A → bool) l : weak_order_on l1 l → weak_order_on l2 l → weak_order_on (lex l1 l2) l.
Proof.
  intros [As1 Nt1] [As2 Nt2]. unfold lex. split.
  - intros x y Hx Hy. destruct (l1 x y) eqn:Hxy; cbn; [by rewrite (As1 x y)|].
    destruct (l1 y x) eqn:Hyx; cbn; [done|]. by apply As2.
  - intros x y z Hx Hy Hz.
    pose proof (Nt1 x y z Hx Hy Hz). pose proof (Nt1 z x y Hz Hx Hy). pose proof (Nt1 y z x Hy Hz Hx).
    pose proof (As1 x y Hx Hy). pose proof (As1 z y Hz Hy). pose proof (As1 x z Hx Hz). pose proof (Nt2 x y z Hx Hy Hz).
    destruct (l1 x y), (l1 y x), (l1 x z), (l1 z x), (l1 z y), (l1 y z), (l2 x y); cbn; intuition (try discriminate; auto).
Qed.

Lemma fltb_weak_order {A} (f : A → float64) l : Forall (λ a, isNaN (f a) = false) l → weak_order_on (λ a b, fltb (f a) (f b)) l.
Proof. rewrite Forall_forall. intros Hn. split; intros x y; [by intros _ _ ?%fltb_asym|]. intros z _ _ Hz Hlt. apply fltb_ntrans; auto. Qed.
Lemma flip_weak_order {A} (less : A → A → bool) l : weak_order_on less l → weak_order_on (λ a b, less b a) l.
Proof. intros [As Nt]. split; [auto|]. intros x y z Hx Hy Hz Hlt. destruct (Nt y x z Hy Hx Hz Hlt); auto. Qed.
Lemma weak_order_ext_on {A} (less less' : A → A → bool) l :
  (∀ a b, a ∈ l → b ∈ l → less a b = less' a b) → weak_order_on less' l → weak_order_on less l.
Proof.
  intros He [As Nt]. split.
  - intros x y Hx Hy. rewrite !He by done. auto.
  - intros x y z Hx Hy Hz. rewrite !He by done. auto.
Qed.

Definition blt (a b : VolumeProfileBucketV1) : bool := compareVPVRBucketOrder a b <? 0.
Definition vlt (a b : VolumeProfileBucketV1) : bool := compareVolume a b <? 0.

Definition comparable (b : VolumeProfileBucketV1) : Prop :=
  isNaN (PriceLow b) = false ∧ isNaN (PriceHigh b) = false ∧ isNaN (TotalVolume b) = false.

Lemma blt_lex a b : blt a b = lex (λ a b, fltb (PriceLow a) (PriceLow b)) (λ a b, fltb (PriceHigh a) (PriceHigh b)) a b.
Proof. unfold blt, compareVPVRBucketOrder, lex. repeat case_match; done. Qed.
Lemma vlt_lex a b : vlt a b = lex (λ a b, fltb (TotalVolume b) (TotalVolume a)) blt a b.
Proof. unfold vlt, compareVolume, lex, blt. repeat case_match; done. Qed.

Lemma blt_weak_order l : Forall comparable l → weak_order_on blt l.
Proof.
  intros Hc. apply (weak_order_ext_on _ _ _ (λ a b _ _, blt_lex a b)).
  apply lex_weak_order; apply fltb_weak_order; eapply Forall_impl; try exact Hc; by intros ? (? & ? & ?).
Qed.
Lemma vlt_weak_order l : Forall comparable l → weak_order_on vlt l.
Proof.
  intros Hc. apply (weak_order_ext_on _ _ _ (λ a b _ _, vlt_lex a b)). apply lex_weak_order; [|by apply blt_weak_order].
  apply flip_weak_order, (fltb_weak_order TotalVolume). eapply Forall_impl; [exact Hc|]. by intros ? (? & ? & ?).
Qed.

(** The comparisons of the overload policy are the same on comparable buckets. *)
Lemma feqb_ltb x y : isNaN x = false → isNaN y = false → feqb x y = negb (fltb x y) && negb (fltb y x).
Proof.
  intros Hx Hy. apply eq_true_iff_eq. rewrite andb_true_iff, !negb_true_iff, <- !not_true_iff_false, feqb_key, !fltb_key by done.
  destruct (fkey x) as [[??]?], (fkey y) as [[??]?]; cbn. split; [intros [=]; lia|]. intros. f_equal; [f_equal|]; lia.
Qed.
Lemma compressed_price_same a b : comparable a → comparable b → compareCompressedBucketPrice a b = compareVPVRBucketOrder a b.
Proof.
  intros (Ha & _) (Hb & _). unfold compareCompressedBucketPrice, compareVPVRBucketOrder. rewrite feqb_ltb by done.
  destruct (fltb (PriceLow a) (PriceLow b)), (fltb (PriceLow b) (PriceLow a)); done.
Qed.
Lemma compressed_volume_same a b : comparable a → comparable b → compareCompressedVolume a b = compareVolume a b.
Proof.
  intros Hca Hcb. pose proof Hca as (_ & _ & Ha). pose proof Hcb as (_ & _ & Hb).
  unfold compareCompressedVolume, compareVolume. rewrite feqb_ltb, compressed_price_same by done.
  destruct (fltb (TotalVolume a) (TotalVolume b)) eqn:H1, (fltb (TotalVolume b) (TotalVolume a)) eqn:H2; done.
Qed.

(** ** Sorted lists of valid buckets *)

Definition validBucket (b : VolumeProfileBucketV1) : Prop := validateVPVRBucket b = None.

Lemma valid_facts b : validBucket b →
  comparable b ∧ isFinite (PriceLow b) = true ∧ isFinite (PriceHigh b) = true ∧
  fltb (PriceLow b) (PriceHigh b) = true ∧ fltb (TotalVolume b) f0 = false.
Proof.
  unfold validBucket, validateVPVRBucket. destruct (isFinite (PriceLow b)) eqn:Hl, (isFinite (PriceHigh b)) eqn:Hh; cbn; try done.
  destruct (fleb (PriceHigh b) (PriceLow b)) eqn:Hle; [done|].
  destruct (fltb (BuyVolume b) f0), (fltb (SellVolume b) f0), (fltb (TotalVolume b) f0) eqn:Ht; cbn; try done.
  destruct (feqb (TotalVolume b) _) eqn:He; cbn; [|done]. intros _.
  assert (isNaN (PriceLow b) = false ∧ isNaN (PriceHigh b) = false) as [Hnl Hnh].
  { unfold isFinite in Hl, Hh. destruct (isNaN (PriceLow b)), (isNaN (PriceHigh b)); done. }
  assert (isNaN (TotalVolume b) = false) by (destruct (TotalVolume b); done).
  split_and!; try done. by rewrite fleb_ltb, negb_false_iff in Hle.
Qed.
Lemma valid_comparable l : Forall validBucket l → Forall comparable l.
Proof. intros H. eapply Forall_impl; [exact H|]. by intros b [? _]%valid_facts. Qed.

(** Well-formed levels: valid buckets in strictly increasing order. *)
Record levelsOk (l : list VolumeProfileBucketV1) : Prop := {
  lv_valid : Forall validBucket l;
  lv_sorted : StronglySorted (λ a b, blt a b = true) l;
}.

Lemma blt_trans a b c : comparable a → comparable b → comparable c → blt a b = true → blt b c = true → blt a c = true.
Proof.
  intros Ha Hb Hc Hab Hbc. destruct (blt_weak_order [a; b; c]) as [As Nt]; [by rewrite !Forall_cons, Forall_nil|].
  destruct (Nt a b c) as [?|Hcb]; [set_solver..|done|done|]. by rewrite (As c b) in Hbc by set_solver.
Qed.
Lemma blt_irrefl a : blt a a = false.
Proof. rewrite blt_lex. unfold lex. by rewrite !fltb_irrefl. Qed.
Lemma blt_asym a b : comparable a → comparable b → blt a b = true → blt b a = false.
Proof. intros Ha Hb. destruct (blt_weak_order [a; b]) as [As _]; [by rewrite !Forall_cons, Forall_nil|]. apply As; set_solver. Qed.

Lemma IsSortedFunc_spec {A} (cmp : A → A → Z) l : IsSortedFunc cmp l = true ↔ Sorted (λ a b, (cmp b a <? 0) = false) l.
Proof.
  induction l as [|a [|b l] IH]; [by split; [constructor|]|by split; [repeat constructor|]|].
  cbn [IsSortedFunc]. rewrite andb_true_iff, negb_true_iff, IH. split.
  - intros [H1 H2]. constructor; [done|by constructor].
  - intros [H2 H1%HdRel_inv]%Sorted_inv. done.
Qed.

(** On valid buckets the two checks of a range by [==] and of the order are one: the
    order is strict. *)
Lemma same_range a b : comparable a → comparable b →
  feqb (PriceLow a) (PriceLow b) && feqb (PriceHigh a) (PriceHigh b) = negb (blt a b) && negb (blt b a).
Proof.
  intros (Ha & Ha' & _) (Hb & Hb' & _). rewrite !feqb_ltb, !blt_lex by done. unfold lex.
  destruct (fltb (PriceLow a) (PriceLow b)), (fltb (PriceLow b) (PriceLow a)), (fltb (PriceHigh a) (PriceHigh b)),
    (fltb (PriceHigh b) (PriceHigh a)); done.
Qed.

Lemma bucketsLoop_ok l seen m poc :
  Forall validBucket l → StronglySorted (λ a b, blt a b = true) l →
  (∀ k b, k ∈ seen → b ∈ l → feqb k.1 (PriceLow b) && feqb k.2 (PriceHigh b) = false) →
  bucketsLoop l seen m poc = inr (highestVolume poc m l).
Proof.
  revert seen m poc. induction l as [|b l IH]; intros seen m poc Hv Hs Hseen; [done|].
  apply Forall_cons in Hv as [Hb Hv]. apply StronglySorted_inv in Hs as [Hs Hlt]. cbn [bucketsLoop]. unfold validBucket in Hb. rewrite Hb.
  destruct (existsb _ seen) eqn:Hex.
  { apply existsb_exists in Hex as (k & Hk & Heq). rewrite (Hseen k b) in Heq; [done|by apply list_elem_of_In|left]. }
  assert (Hseen' : ∀ k c, k ∈ (PriceLow b, PriceHigh b) :: seen → c ∈ l → feqb k.1 (PriceLow c) && feqb k.2 (PriceHigh c) = false).
  { intros k c [->|Hk]%elem_of_cons Hc; [|apply Hseen; [done|by right]]. cbn.
    destruct (valid_facts b Hb) as [Hcb _]. destruct (valid_facts c) as [Hcc _]; [by rewrite Forall_forall in Hv; apply Hv|].
    rewrite same_range by done. rewrite Forall_forall in Hlt. by rewrite (Hlt c Hc). }
  unfold highestVolume. cbn [foldl]. destruct (fltb m (TotalVolume b)); by apply IH.
Qed.

Lemma sorted_strict l : levelsOk l → IsSortedFunc compareVPVRBucketOrder l = true.
Proof.
  intros [Hv Hs]. apply IsSortedFunc_spec. apply StronglySorted_Sorted. apply valid_comparable in Hv.
  induction Hs as [|a l Hs IH Hlt]; [constructor|]. apply Forall_cons in Hv as [Ha Hv]. constructor; [auto|].
  rewrite Forall_forall in Hlt, Hv |- *. intros b Hb. apply (blt_asym a b); auto.
Qed.

Lemma validate_levels l : levelsOk l → validateVPVRSnapshotBuckets l = inr (highestVolume f0 (f_of_Z (-1)) l).
Proof.
  intros Hl. unfold validateVPVRSnapshotBuckets. rewrite sorted_strict by done. destruct Hl as [Hv Hs].
  apply bucketsLoop_ok; [done|done|]. intros k b ?%elem_of_nil. done.
Qed.

Lemma weak_sorted {A} (less : A → A → bool) l :
  weak_order_on less l → Sorted (λ a b, less b a = false) l → StronglySorted (λ a b, less b a = false) l.
Proof.
  intros Hw Hs. induction Hs as [|a l Hs IH Hhd]; [constructor|].
  assert (Hsub : StronglySorted (λ a b, less b a = false) l).
  { apply IH. eapply weak_order_on_sub; [|exact Hw]. intros x Hx. by right. }
  constructor; [done|]. destruct l as [|b l]; [constructor|]. apply HdRel_inv in Hhd. apply Forall_cons. split; [done|].
  apply StronglySorted_inv in Hsub as [_ Hsub]. rewrite Forall_forall in Hsub |- *. intros c Hc.
  destruct (less c a) eqn:Hca; [|done]. destruct Hw as [_ Nt].
  destruct (Nt c a b) as [H|H]; [right; by right|left|right; left|done| |].
  - by rewrite Hsub in H.
  - by rewrite Hhd in H.
Qed.

Lemma Sorted_impl_in {A} (R R' : A → A → Prop) l : Sorted R l → (∀ a b, a ∈ l → b ∈ l → R a b → R' a b) → Sorted R' l.
Proof.
  intros Hs. induction Hs as [|a l Hs IH Hhd]; intros Himp; [constructor|]. constructor.
  - apply IH. intros b c Hb Hc. apply Himp; by right.
  - destruct Hhd; constructor. apply Himp; [left|right; left|done].
Qed.

Lemma bucketsLoop_inv l seen m poc r :
  bucketsLoop l seen m poc = inr r →
  Forall validBucket l ∧ (∀ k b, k ∈ seen → b ∈ l → feqb k.1 (PriceLow b) && feqb k.2 (PriceHigh b) = false) ∧
  StronglySorted (λ a b, feqb (PriceLow a) (PriceLow b) && feqb (PriceHigh a) (PriceHigh b) = false) l.
Proof.
  revert seen m poc. induction l as [|b l IH]; intros seen m poc; cbn [bucketsLoop].
  { intros _. split_and!; [constructor|by intros k c _ ?%elem_of_nil|constructor]. }
  destruct (validateVPVRBucket b) eqn:Hb; [done|]. destruct (existsb _ seen) eqn:Hex; [done|]. intros Hrun.
  assert (Forall validBucket l ∧
    (∀ k c, k ∈ (PriceLow b, PriceHigh b) :: seen → c ∈ l → feqb k.1 (PriceLow c) && feqb k.2 (PriceHigh c) = false) ∧
    StronglySorted (λ a b, feqb (PriceLow a) (PriceLow b) && feqb (PriceHigh a) (PriceHigh b) = false) l) as (Hv & Hseen & Hs).
  { destruct (fltb m (TotalVolume b)); by apply IH in Hrun. }
  split_and!.
  - by constructor.
  - intros k c Hk [->|Hc]%elem_of_cons; [|apply Hseen; [by right|done]].
    apply not_true_iff_false. intros Heq. apply not_true_iff_false in Hex. apply Hex. apply existsb_exists. exists k.
    split; [by apply list_elem_of_In|done].
  - constructor; [done|]. apply Forall_forall. intros c Hc. apply (Hseen (PriceLow b, PriceHigh b) c); [left|done].
Qed.

Lemma validate_levels_inv l r : validateVPVRSnapshotBuckets l = inr r → levelsOk l.
Proof.
  unfold validateVPVRSnapshotBuckets. destruct (IsSortedFunc _ l) eqn:Hs; [|done]. cbn. intros (Hv & _ & Hd)%bucketsLoop_inv.
  split; [done|]. pose proof (valid_comparable l Hv) as Hc. apply IsSortedFunc_spec, (weak_sorted blt) in Hs; [|by apply blt_weak_order].
  clear Hv. induction Hs as [|a l Hs IH Hle]; [constructor|]. apply StronglySorted_inv in Hd as [Hd Ha].
  apply Forall_cons in Hc as [Hca Hc]. constructor; [auto|]. rewrite Forall_forall in Hle, Ha, Hc |- *. intros b Hb.
  specialize (Ha b Hb). rewrite same_range in Ha by auto. rewrite (Hle b Hb) in Ha. by destruct (blt a b).
Qed.

(** ** The point of control *)

(** The bucket that comes first by volume, the lower price first among equals. *)
Definition leading (l : list VolumeProfileBucketV1) (b : VolumeProfileBucketV1) : Prop := b ∈ l ∧ ∀ c, c ∈ l → vlt c b = false.

Lemma vlt_step l b c : Forall comparable l → b ∈ l → c ∈ l → (∀ d, d ∈ l → vlt d c = true → vlt d b = true ∨ vlt b c = true).
Proof. intros Hc Hb Hcl d Hd Hlt. destruct (vlt_weak_order l Hc) as [_ Nt]. by apply (Nt d c b). Qed.

Lemma highestVolume_leading l1 l2 b :
  levelsOk (l1 ++ l2) → leading l1 b →
  ∃ b', leading (l1 ++ l2) b' ∧ highestVolume (PriceLow b) (TotalVolume b) l2 = PriceLow b'.
Proof.
  revert l1 b. induction l2 as [|c l2 IH]; intros l1 b Hok [Hin Hlead].
  { exists b. rewrite app_nil_r. by split. }
  pose proof (valid_comparable _ (lv_valid _ Hok)) as Hcmp. destruct (vlt_weak_order _ Hcmp) as [As Nt].
  unfold highestVolume. cbn [foldl]. rewrite cons_middle, app_assoc in Hok |- *.
  assert (Hb : b ∈ l1 ++ c :: l2) by set_solver. assert (Hc : c ∈ l1 ++ c :: l2) by set_solver.
  destruct (fltb (TotalVolume b) (TotalVolume c)) eqn:Hlt.
  - apply (IH (l1 ++ [c]) c Hok). split; [set_solver|]. intros d [Hd| ->%list_elem_of_singleton]%elem_of_app.
    + assert (Hcb : vlt c b = true) by (rewrite vlt_lex; unfold lex; by rewrite Hlt).
      destruct (vlt d c) eqn:Hdc; [|done]. destruct (Nt d c b) as [H|H]; [set_solver..|done| |].
      * by rewrite Hlead in H.
      * by rewrite (As c b) in H.
    + rewrite vlt_lex. unfold lex. by rewrite fltb_irrefl, blt_irrefl.
  - apply (IH (l1 ++ [c]) b Hok). split; [set_solver|]. intros d [Hd| ->%list_elem_of_singleton]%elem_of_app; [by apply Hlead|].
    rewrite vlt_lex. unfold lex. rewrite Hlt. cbn. rewrite andb_false_iff. right.
    rewrite Forall_forall in Hcmp. apply blt_asym; [auto..|].
    pose proof (lv_sorted _ Hok) as Hs. rewrite <- app_assoc in Hs.
    apply (StronglySorted_app_1_elem_of _ _ _ b c Hs); set_solver.
Qed.

(** The validation starts below every volume, the builder with the first bucket:
    both find the leading bucket. *)
Lemma poc_leading first rest :
  levelsOk (first :: rest) →
  ∃ b, leading (first :: rest) b ∧ highestVolume (PriceLow first) (TotalVolume first) (first :: rest) = PriceLow b ∧
    highestVolume f0 (f_of_Z (-1)) (first :: rest) = PriceLow b.
Proof.
  intros Hok. destruct (highestVolume_leading [first] rest first Hok) as (b & Hlead & Hb).
  { split; [set_solver|]. intros d ->%list_elem_of_singleton. rewrite vlt_lex. unfold lex. by rewrite fltb_irrefl, blt_irrefl. }
  exists b. split_and!; [done| |]; unfold highestVolume in *; cbn [foldl].
  - by rewrite fltb_irrefl.
  - assert (Hpos : fltb (f_of_Z (-1)) (TotalVolume first) = true); [|by rewrite Hpos].
    pose proof (Forall_inv (lv_valid _ Hok)) as ((_ & _ & Hnan) & _ & _ & _ & Hnn)%valid_facts.
    by destruct (TotalVolume first) as [|[]| |[]].
Qed.

(** ** The levels of greatest volume *)

Section top.
Context {GR : GoRuntime}.
Implicit Types l : list VolumeProfileBucketV1.

(** The [n] levels that come first by volume, in the order of price; [cmpV] and
    [cmpP] are the comparisons of the builder or those of the policy. *)
Lemma keep_top (cmpV cmpP : VolumeProfileBucketV1 → VolumeProfileBucketV1 → Z) l n :
  Forall comparable l →
  (∀ a b, comparable a → comparable b → cmpV a b = compareVolume a b) →
  (∀ a b, comparable a → comparable b → cmpP a b = compareVPVRBucketOrder a b) →
  let kept := SortFunc cmpP (take n (SortFunc cmpV l)) in
  ∃ rest, kept ++ rest ≡ₚ l ∧ length kept = Nat.min n (length l) ∧
    StronglySorted (λ a b, blt b a = false) kept ∧ ∀ a b, a ∈ kept → b ∈ rest → vlt b a = false.
Proof.
  intros Hc HV HP kept. set (byVol := SortFunc cmpV l).
  assert (Hp : byVol ≡ₚ l) by apply sort_slice_perm.
  assert (Hkp : kept ≡ₚ take n byVol) by apply sort_slice_perm.
  assert (Hcv : Forall comparable byVol) by (by rewrite Hp).
  assert (Hvs : StronglySorted (λ a b, vlt b a = false) byVol).
  { apply weak_sorted; [by apply vlt_weak_order|]. apply (Sorted_impl_in (λ a b, (cmpV b a <? 0) = false)).
    - apply sort_slice_sorted. apply (weak_order_ext_on _ vlt); [|by apply vlt_weak_order]. rewrite Forall_forall in Hc.
      intros a b Ha Hb. unfold vlt. by rewrite HV by auto.
    - rewrite Forall_forall in Hcv. intros a b Ha Hb. unfold vlt. by rewrite HV by auto. }
  assert (Hct : Forall comparable (take n byVol)) by by apply Forall_take.
  assert (Hck : Forall comparable kept) by by rewrite Hkp.
  exists (drop n byVol). split_and!.
  - by rewrite Hkp, take_drop.
  - rewrite Hkp, length_take. by rewrite Hp.
  - apply weak_sorted; [by apply blt_weak_order|]. apply (Sorted_impl_in (λ a b, (cmpP b a <? 0) = false)).
    + apply sort_slice_sorted. apply (weak_order_ext_on _ blt); [|by apply blt_weak_order].
      rewrite Forall_forall in Hct. intros a b Ha Hb. unfold blt. by rewrite HP by auto.
    + rewrite Forall_forall in Hck. intros a b Ha Hb. unfold blt. by rewrite HP by auto.
  - intros a b Ha Hb. rewrite Hkp in Ha. rewrite <- (take_drop n byVol) in Hvs.
    exact (StronglySorted_app_1_elem_of _ _ _ a b Hvs Ha Hb).
Qed.

(** What validation asks of a profile, given well-formed levels. *)
Lemma Profile_Validate_inv s : Profile_Validate s = None → validateVPVRSnapshotMetadata s = None ∧ levelsOk (Buckets s).
Proof.
  unfold Profile_Validate. destruct (validateVPVRSnapshotMetadata s); [done|].
  destruct (validateVPVRSnapshotBuckets (Buckets s)) eqn:Hb; [done|]. intros _. split; [done|]. by eapply validate_levels_inv.
Qed.

Lemma profileOver_valid v i tf start end_ l first end_b :
  head l = Some first → last l = Some end_b → levelsOk l →
  validateVPVRSnapshotMetadata (profileOver v i tf start end_ l first end_b) = None →
  Profile_Validate (profileOver v i tf start end_ l first end_b) = None ∧
  ∃ b, leading l b ∧ POCPrice (profileOver v i tf start end_ l first end_b) = PriceLow b.
Proof.
  intros Hf Hl Hok Hmeta. destruct l as [|f0' rest]; [done|]. injection Hf as ->.
  destruct (poc_leading first rest Hok) as (b & Hlead & Hpoc & Hexp).
  split; [|by exists b]. unfold Profile_Validate. rewrite Hmeta. cbn [profileOver Buckets]. rewrite validate_levels by done.
  unfold validateVPVRSnapshotDerivedFields. cbn [profileOver POCPrice ValueAreaLow ValueAreaHigh]. rewrite Hpoc, Hexp.
  pose proof (lv_valid _ Hok) as Hv. rewrite Forall_forall in Hv.
  destruct (valid_facts b (Hv b (proj1 Hlead))) as ((Hbn & _) & Hbl & _).
  destruct (valid_facts first (Hv first ltac:(left))) as ((Hfn & _) & Hfl & _).
  assert (Hend : end_b ∈ first :: rest) by by apply last_Some_elem_of.
  destruct (valid_facts end_b (Hv end_b Hend)) as ((Hen & Hehn & _) & _ & Heh & Hlt & _).
  rewrite Hbl, Hfl, Heh, feqb_ltb, !fltb_irrefl by done. cbn.
  assert (Hle : fltb (PriceLow end_b) (PriceLow first) = false).
  { destruct (fltb (PriceLow end_b) (PriceLow first)) eqn:H; [|done]. apply elem_of_cons in Hend as [->|Hin]; [by rewrite fltb_irrefl in H|].
    pose proof (StronglySorted_inv (lv_sorted _ Hok)) as [_ Hs]. rewrite Forall_forall in Hs. specialize (Hs end_b Hin).
    rewrite blt_lex in Hs. unfold lex in Hs. by rewrite (fltb_asym _ _ H), H in Hs. }
  destruct (fltb (PriceHigh end_b) (PriceLow first)) eqn:H; [|done].
  pose proof (fltb_trans _ _ _ Hlt H) as H'. by rewrite Hle in H'.
Qed.

Lemma levelsOk_sub l kept rest : levelsOk l → kept ++ rest ≡ₚ l → StronglySorted (λ a b, blt b a = false) kept → levelsOk kept.
Proof.
  intros [Hv Hs] Hp Hk. assert (Hvk : Forall validBucket (kept ++ rest)) by by rewrite Hp.
  apply Forall_app in Hvk as [Hvk _]. split; [done|].
  assert (Hnd : NoDup kept).
  { assert (H : NoDup (kept ++ rest)); [|by apply NoDup_app in H as [? _]]. rewrite Hp.
    clear -Hs. induction Hs as [|a l Hs IH Hlt]; constructor; [|done]. intros Hin. rewrite Forall_forall in Hlt.
    specialize (Hlt a Hin). by rewrite blt_irrefl in Hlt. }
  assert (Hsub : ∀ x, x ∈ kept → x ∈ l) by (intros x Hx; rewrite <- Hp; set_solver).
  clear Hp. induction Hk as [|a kept Hk IH Hle]; [constructor|]. apply NoDup_cons in Hnd as [Ha Hnd].
  apply Forall_cons in Hvk as [_ Hvk]. constructor; [apply IH; [done..|intros x Hx; apply Hsub; by right]|].
  rewrite Forall_forall in Hle |- *. intros b Hb. specialize (Hle b Hb).
  pose proof (Hsub a ltac:(left)) as Hal. pose proof (Hsub b ltac:(by right)) as Hbl.
  apply list_elem_of_lookup in Hal as [i Hi], Hbl as [j Hj]. destruct (Nat.lt_trichotomy i j) as [Hij|[->|Hij]].
  - exact (StronglySorted_lookup_lt _ _ _ _ _ _ Hs Hi Hj Hij).
  - congruence.
  - pose proof (StronglySorted_lookup_lt _ _ _ _ _ _ Hs Hj Hi Hij) as Hba. cbv beta in *. congruence.
Qed.

(** The leading bucket of well-formed levels is one. *)
Lemma leading_unique l b b' : levelsOk l → leading l b → leading l b' → b = b'.
Proof.
  intros [Hv Hs] [Hb Hlb] [Hb' Hlb']. specialize (Hlb _ Hb'). specialize (Hlb' _ Hb).
  rewrite vlt_lex in Hlb, Hlb'. unfold lex in *. apply orb_false_iff in Hlb as [H1 H2], Hlb' as [H3 H4].
  rewrite H1 in H4. rewrite H3 in H2. cbn in H2, H4.
  apply list_elem_of_lookup in Hb as [i Hi], Hb' as [j Hj]. destruct (Nat.lt_trichotomy i j) as [Hij|[->|Hij]]; [|congruence|].
  - pose proof (StronglySorted_lookup_lt _ _ _ _ _ _ Hs Hi Hj Hij) as H. cbv beta in H. congruence.
  - pose proof (StronglySorted_lookup_lt _ _ _ _ _ _ Hs Hj Hi Hij) as H. cbv beta in H. congruence.
Qed.

(** Keeping at least one of the levels of greatest volume keeps the leading one. *)
Lemma leading_kept l kept rest b :
  levelsOk l → kept ++ rest ≡ₚ l → kept ≠ [] → (∀ x y, x ∈ kept → y ∈ rest → vlt y x = false) → leading kept b → leading l b.
Proof.
  intros Hok Hp Hne Hdom [Hb Hlead]. split; [rewrite <- Hp; set_solver|]. intros c Hc. rewrite <- Hp in Hc.
  apply elem_of_app in Hc as [Hc|Hc]; auto.
Qed.

Lemma feqb_refl f : isNaN f = false → feqb f f = true.
Proof. intros. by rewrite feqb_ltb, fltb_irrefl. Qed.
Lemma finite_not_nan f : isFinite f = true → isNaN f = false.
Proof. unfold isFinite. by destruct (isNaN f). Qed.

(** What validation knows of the point of control. *)
Lemma valid_poc s : Profile_Validate s = None →
  isNaN (POCPrice s) = false ∧ ∃ b, leading (Buckets s) b ∧ feqb (POCPrice s) (PriceLow b) = true.
Proof.
  intros Hvalid. destruct (Profile_Validate_inv s Hvalid) as [Hmeta Hok].
  unfold Profile_Validate in Hvalid. rewrite Hmeta, validate_levels in Hvalid by done.
  unfold validateVPVRSnapshotDerivedFields in Hvalid. destruct (isFinite (POCPrice s)) eqn:Hfin; [|done]. cbn [negb orb] in Hvalid.
  destruct (feqb (POCPrice s) _) eqn:He; [|done]. split; [by apply finite_not_nan|].
  destruct (Buckets s) as [|first rest] eqn:Hb.
  { unfold validateVPVRSnapshotMetadata in Hmeta. rewrite Hb in Hmeta. cbn in Hmeta. by repeat case_match. }
  destruct (poc_leading first rest Hok) as (b & Hlead & _ & Hexp). rewrite Hexp in He. by exists b.
Qed.

(** [s'] is [s] with some of its levels, the point of control among them. *)
Record reduces (s s' : VolumeProfileSnapshotV1) : Prop := {
  rd_valid : Profile_Validate s' = None;
  rd_poc : feqb (POCPrice s') (POCPrice s) = true;
  rd_levels : ∃ rest, Buckets s' ++ rest ≡ₚ Buckets s ∧ ∀ a b, a ∈ Buckets s' → b ∈ rest → vlt b a = false;
}.

Lemma reduces_refl s : Profile_Validate s = None → reduces s s.
Proof.
  intros Hv. split; [done|by apply feqb_refl, valid_poc|]. exists []. rewrite app_nil_r. split; [done|by intros a b _ ?%elem_of_nil].
Qed.

(** The levels of a valid profile that are kept make a valid profile. *)
Lemma reduces_kept s kept rest first end_b :
  Profile_Validate s = None → kept ++ rest ≡ₚ Buckets s → StronglySorted (λ a b, blt b a = false) kept →
  (∀ a b, a ∈ kept → b ∈ rest → vlt b a = false) → head kept = Some first → last kept = Some end_b →
  reduces s (profileOver (vp_Venue s) (vp_Instrument s) (vp_Timeframe s) (vp_WindowStartTs s) (vp_WindowEndTs s) kept first end_b).
Proof.
  intros Hvalid Hp Hs Hdom Hf Hl. destruct (Profile_Validate_inv s Hvalid) as [Hmeta Hok].
  pose proof (levelsOk_sub _ _ _ Hok Hp Hs) as Hkok. assert (Hne : kept ≠ []) by by destruct kept.
  assert (Hlen : (0 < length kept ≤ length (Buckets s))%nat).
  { rewrite <- Hp, length_app. destruct kept; cbn; [done|lia]. }
  destruct (profileOver_valid (vp_Venue s) (vp_Instrument s) (vp_Timeframe s) (vp_WindowStartTs s) (vp_WindowEndTs s)
    kept first end_b) as [Hpv (b & Hlead & Hpoc)]; [done|done|done| |].
  { unfold validateVPVRSnapshotMetadata in *. cbn. repeat (case_match; try done).
    all: rewrite ?Z.eqb_eq, ?Z.ltb_lt in *; rewrite ?Z.ltb_ge, ?Z.eqb_neq in *; lia. }
  split; [done| |by exists rest]. destruct (valid_poc s Hvalid) as (Hnan & b' & Hlead' & He).
  rewrite (leading_unique _ _ _ Hok Hlead' (leading_kept _ _ _ _ Hok Hp Hne Hdom Hlead)) in He. rewrite Hpoc.
  pose proof (lv_valid _ Hkok) as Hv. rewrite Forall_forall in Hv. destruct (valid_facts b (Hv b (proj1 Hlead))) as ((Hbn & _) & _).
  rewrite feqb_key in He |- * by done. done.
Qed.

Lemma compressRatio_reduces s ratio : Profile_Validate s = None → reduces s (compressSnapshotByRatio s ratio).1.1.
Proof.
  intros Hvalid. destruct (Profile_Validate_inv s Hvalid) as [_ Hok]. pose proof (reduces_refl s Hvalid).
  unfold compressSnapshotByRatio. cbv zeta. destruct (_ || _); [done|].
  set (target := if _ <? 1 then 1 else _). assert (Htarget : 1 ≤ target) by (unfold target; case_match; lia).
  destruct (Z.leb_spec (Z.of_nat (length (Buckets s))) target) as [|Hlt]; [done|].
  destruct (keep_top compareCompressedVolume compareCompressedBucketPrice (Buckets s) (Z.to_nat target))
    as (rest & Hp & Hlen & Hs & Hdom); [apply valid_comparable, Hok|apply compressed_volume_same|apply compressed_price_same|].
  set (kept := SortFunc _ _) in *. destruct kept as [|first kept'] eqn:Hk; [done|]. rewrite <- Hk in *.
  destruct (last kept) as [end_b|] eqn:Hl; [|done]. cbn [fst]. apply (reduces_kept s kept rest); [done..|by rewrite Hk|done].
Qed.

(** C24: What compression under load makes of a valid profile is still a valid profile,
    with the same point of control, whose levels are levels of the original; none
    of those left out comes before one that is kept. *)
Theorem compressed_profile_is_valid s level :
  Profile_Validate s = None →
  let s' := (compressSnapshotByLevel s level).1.1 in
  Profile_Validate s' = None ∧ feqb (POCPrice s') (POCPrice s) = true ∧
  ∃ rest, Buckets s' ++ rest ≡ₚ Buckets s ∧ ∀ a b, a ∈ Buckets s' → b ∈ rest → vlt b a = false.
Proof.
  intros Hvalid s'. assert (reduces s s') as [? ? ?]; [|done]. unfold s', compressSnapshotByLevel.
  repeat case_match; by (apply compressRatio_reduces || apply reduces_refl).
Qed.
End top.

(** ** The buckets of a window *)

Section window.
Context {GR : GoRuntime}.

Definition bucketOf (t : vpvrNormalizedTrade) : option (float64 * float64) :=
  match AssignVPVRBucket (price t) (tickSize t) with inr k => Some k | inl _ => None end.

(** The summary of the trades of one bucket: the volumes of each side, added in the
    order of arrival, and the range of their numbers. *)
Definition sumSizes (ts : list vpvrNormalizedTrade) : float64 := foldl fadd f0 (size <$> ts).
Definition buys (ts : list vpvrNormalizedTrade) : list vpvrNormalizedTrade := filter (λ t, str_eqb (side t) "buy" = true) ts.
Definition sells (ts : list vpvrNormalizedTrade) : list vpvrNormalizedTrade := filter (λ t, str_eqb (side t) "buy" = false) ts.
Definition summary (k : float64 * float64) (ts : list vpvrNormalizedTrade) : option vpvrBucketState :=
  match ts with
  | [] => None
  | t :: _ => Some (MkBucketState k.1 k.2 (sumSizes (buys ts)) (sumSizes (sells ts)) (fadd (sumSizes (buys ts)) (sumSizes (sells ts)))
                      (foldl Z.min (seq t) (seq <$> ts)) (foldl Z.max (seq t) (seq <$> ts)))
  end.

Lemma sumSizes_snoc ts t : sumSizes (ts ++ [t]) = fadd (sumSizes ts) (size t).
Proof. unfold sumSizes. by rewrite fmap_app, foldl_app. Qed.

Lemma sideVolume_snoc ts t :
  sumSizes (buys (ts ++ [t])) = (if str_eqb (side t) "buy" then fadd (sumSizes (buys ts)) (size t) else sumSizes (buys ts)) ∧
  sumSizes (sells (ts ++ [t])) = (if str_eqb (side t) "buy" then sumSizes (sells ts) else fadd (sumSizes (sells ts)) (size t)).
Proof.
  unfold buys, sells. rewrite !filter_app, !filter_cons, !filter_nil.
  destruct (str_eqb (side t) "buy"); repeat case_decide; try done; by rewrite ?app_nil_r, ?sumSizes_snoc.
Qed.

Lemma addTrade_summary k ts t :
  Some (addTrade t (default (MkBucketState k.1 k.2 f0 f0 f0 (seq t) (seq t)) (summary k ts))) = summary k (ts ++ [t]).
Proof.
  destruct (sideVolume_snoc ts t) as [Hbuy Hsell]. destruct ts as [|t0 ts].
  - cbn [app] in *. unfold summary. rewrite Hbuy, Hsell. change (sumSizes (buys [])) with f0. change (sumSizes (sells [])) with f0.
    cbn [fmap list_fmap foldl default]. rewrite Z.min_id, Z.max_id. unfold addTrade.
    destruct (str_eqb (side t) "buy"); cbn -[fadd]; rewrite Z.ltb_irrefl; cbn -[fadd]; by rewrite Z.ltb_irrefl.
  - unfold summary. cbn [app] in *. rewrite app_comm_cons in *. rewrite Hbuy, Hsell, !fmap_app, !foldl_app. cbn [default].
    set (l := t0 :: ts). set (mn := foldl Z.min _ (seq <$> l)). set (mx := foldl Z.max _ (seq <$> l)).
    cbn [fmap list_fmap foldl]. unfold addTrade.
    destruct (str_eqb (side t) "buy"); cbn -[Z.min Z.max buys sells mn mx l fadd];
      destruct (Z.ltb_spec (seq t) mn); cbn -[Z.min Z.max buys sells mn mx l fadd];
      destruct (Z.ltb_spec mx (seq t)); cbn -[Z.min Z.max buys sells mn mx l fadd]; unfold upd; cbn [bk_low bk_high buy sell total seqMin seqMax]; repeat f_equal; lia.
Qed.

Lemma summary_some k ts : is_Some (summary k ts) ↔ ts ≠ [].
Proof. destruct ts; [split; [by intros []|done]|split; [done|by eexists]]. Qed.

(** A trade changes the buckets of its window as [groupStep] does. *)
Lemma applyTrade_step cfg t ws :
  buckets (applyTrade cfg t ws).1 =
  groupStep bucketOf addTrade (λ k t, MkBucketState k.1 k.2 f0 f0 f0 (seq t) (seq t)) (MaxBucketsPerWindow cfg) t (buckets ws).
Proof.
  unfold applyTrade, groupStep, bucketOf. destruct (AssignVPVRBucket (price t) (tickSize t)) as [p|[low high]].
  { by rewrite (bind_err _ _ _ ws p). }
  rewrite (bind_run _ _ _ ws (low, high)), recv_run by done. destruct (buckets ws !! (low, high)) as [b|].
  - by rewrite assign_run.
  - destruct (_ <=? _); [done|]. by rewrite assign_run.
Qed.

Lemma applyTrade_groups cfg ts t ws :
  let max := Z.to_nat (MaxBucketsPerWindow cfg) in
  0 ≤ MaxBucketsPerWindow cfg → groups bucketOf summary max ts (buckets ws) →
  groups bucketOf summary max (ts ++ [t]) (buckets (applyTrade cfg t ws).1).
Proof.
  intros max Hmax Hg. rewrite applyTrade_step. apply groupStep_groups; [exact summary_some| |done|done].
  intros k ts' t' _. apply addTrade_summary.
Qed.
End window.

(** ** A run of the use case *)

Section run.
Context {GR : GoRuntime}.

Definition normalized (req : BuildVolumeProfileRequest) : option vpvrNormalizedTrade :=
  match normalizeAndValidateVPVRRequest req with inr t => Some t | inl _ => None end.
Definition runRequests (reqs : list BuildVolumeProfileRequest) (uc : BuildVolumeProfile) : BuildVolumeProfile :=
  foldl (λ uc req, (Execute req uc).1) uc reqs.

Definition windowMs (t : vpvrNormalizedTrade) : Z := timeframeToVPVRWindowMs (timeframe t).
Definition startOf (t : vpvrNormalizedTrade) : Z := mul64 (quot64 (tsIngest t) (windowMs t)) (windowMs t).
Definition endOf (t : vpvrNormalizedTrade) : Z := add64 (startOf t) (windowMs t).
Definition windowOf (t : vpvrNormalizedTrade) : string * Z := (partitionOf t, startOf t).

Lemma normalized_window req t : normalized req = Some t → 0 < windowMs t.
Proof.
  unfold normalized, normalizeAndValidateVPVRRequest. destruct (Collect _); [done|]. cbv zeta.
  destruct (negb (str_eqb _ _)); [done|]. destruct (bool_decide (_ ∈ VPVRTimeframes)) eqn:Htf; [|done]. cbn [negb].
  destruct (_ && _); [done|]. intros [= <-]. unfold windowMs. cbn [timeframe]. apply bool_decide_eq_true in Htf.
  unfold VPVRTimeframes in Htf. rewrite !elem_of_cons, elem_of_nil in Htf.
  destruct Htf as [->|[->|[->|[->|[->|[]]]]]]; by vm_compute.
Qed.

Definition partitionAt (key : string) (uc : BuildVolumeProfile) : vpvrPartitionState := default (MkPartition ∅ []) (states uc !! key).

Lemma windowAt_partition key st uc : windowAt (key, st) uc = windows (partitionAt key uc) !! st.
Proof. unfold windowAt, partitionAt. cbn. by destruct (states uc !! key). Qed.

Lemma openWindow_opens cfg start end_ ps : is_Some (windows (openWindow cfg start end_ ps) !! start).
Proof. unfold openWindow. destruct (windows ps !! start) eqn:H; [by rewrite H|]. cbn. rewrite lookup_insert_eq. eauto. Qed.

Lemma partial_alter_default {A} (f : A → A) (d : A) (key : string) (m : gmap string A) :
  partial_alter (λ o, Some (f (default d o))) key m = <[key := f (default d (m !! key))]> m.
Proof.
  apply map_eq. intros k. destruct (decide (k = key)) as [->|]; [by rewrite lookup_partial_alter_eq, lookup_insert_eq|].
  by rewrite lookup_partial_alter_ne, lookup_insert_ne.
Qed.

Lemma onWindow_run {A} at_ (m : Meth vpvrWindowState Problem A) uc ws :
  windowAt at_ uc = Some ws →
  onWindow at_ m uc = (uc <| states ::= alter (λ ps, ps <| windows ::= <[at_.2 := (m ws).1]> |>) at_.1 |>, (m ws).2).
Proof. intros Hw. unfold onWindow. rewrite Hw. by destruct (m ws). Qed.
Lemma onWindow_recv at_ uc ws : windowAt at_ uc = Some ws → onWindow at_ recv uc = (uc, inr ws).
Proof.
  intros Hw. rewrite (onWindow_run _ _ _ ws) by done. cbn. f_equal. destruct uc as [cfg sts]. unfold upd. cbn. f_equal.
  apply map_eq. intros key. destruct (decide (key = at_.1)) as [->|]; [|by rewrite lookup_alter_ne].
  rewrite lookup_alter_eq. unfold windowAt in Hw. cbn in Hw. destruct (sts !! at_.1) as [[ws' o]|]; [|done]. cbn in *.
  by rewrite insert_id.
Qed.

(** What a request with a valid trade does: the trade goes to its window, which is
    opened if it is not open; what is emitted is built from that window. *)
Lemma Execute_spec req t uc :
  normalized req = Some t →
  let ps := openWindow (vp_cfg uc) (startOf t) (endOf t) (partitionAt (partitionOf t) uc) in
  ∃ ws0, windows ps !! startOf t = Some ws0 ∧
    let ws := (applyTrade (vp_cfg uc) t ws0).1 in
    (Execute req uc).1 = uc <| states ::= <[partitionOf t := ps <| windows ::= <[startOf t := ws]> |>]> |> ∧
    ∀ resp, (Execute req uc).2 = inr resp → Emitted resp = true →
      ∃ s, Snapshot resp = Some s ∧ buildSnapshot (vp_cfg uc) t ws = inr s.
Proof.
  intros Hn ps. pose proof (normalized_window _ _ Hn) as Hms. destruct (openWindow_opens (vp_cfg uc) (startOf t) (endOf t)
    (partitionAt (partitionOf t) uc)) as [ws0 Hws0]. fold ps in Hws0. exists ws0. split; [done|]. cbv zeta.
  unfold normalized in Hn. destruct (normalizeAndValidateVPVRRequest req) as [p|t'] eqn:Hnorm; [done|]. injection Hn as ->.
  unfold Execute. rewrite (bind_run _ _ _ uc t) by by rewrite Hnorm.
  set (uc1 := uc <| states ::= <[partitionOf t := ps]> |>).
  assert (Hget : getWindow t uc = (uc1, inr (windowOf t))).
  { unfold getWindow. fold (windowMs t). destruct (Z.leb_spec (windowMs t) 0); [lia|]. fold (startOf t). fold (endOf t).
    rewrite assign_run. unfold uc1, upd. by rewrite partial_alter_default. }
  rewrite (bind_run _ _ _ uc1 (windowOf t)) by done. rewrite recv_run. change (vp_cfg uc1) with (vp_cfg uc).
  assert (Hat : windowAt (windowOf t) uc1 = Some ws0) by (unfold windowAt; cbn; by rewrite lookup_insert_eq).
  set (ws := (applyTrade (vp_cfg uc) t ws0).1).
  set (uc2 := uc <| states ::= <[partitionOf t := ps <| windows ::= <[startOf t := ws]> |>]> |>).
  assert (Hon : onWindow (windowOf t) (applyTrade (vp_cfg uc) t) uc1 = (uc2, (applyTrade (vp_cfg uc) t ws0).2)).
  { rewrite (onWindow_run _ _ _ ws0) by done. unfold uc1, uc2, upd. cbn. by rewrite alter_insert_eq. }
  destruct (applyTrade (vp_cfg uc) t ws0).2 as [p|[b|]] eqn:Hr.
  - rewrite (bind_err _ _ _ uc2 p) by done. done.
  - rewrite (bind_run _ _ _ uc2 (Some b)) by done.
    assert (Hat2 : windowAt (windowOf t) uc2 = Some ws) by (unfold windowAt; cbn; rewrite lookup_insert_eq; cbn; by rewrite lookup_insert_eq).
    rewrite (bind_run _ _ _ uc2 ws) by by apply onWindow_recv.
    destruct (buildSnapshot (vp_cfg uc) t ws) as [p|s] eqn:Hs; [by rewrite (bind_err _ _ _ uc2 p)|].
    rewrite (bind_run _ _ _ uc2 s) by done. destruct (buildDeltaFromSnapshot s b) as [p|d]; [by rewrite (bind_err _ _ _ uc2 p)|].
    rewrite (bind_run _ _ _ uc2 d) by done. split; [done|]. intros resp [= <-] _. by exists s.
  - rewrite (bind_run _ _ _ uc2 None) by done. split; [done|]. by intros resp [= <-].
Qed.

(** The trades of a window among all trades of a run, and the window they make. *)
Definition ofWindow (at_ : string * Z) (ts : list vpvrNormalizedTrade) : list vpvrNormalizedTrade := filter (λ t, windowOf t = at_) ts.
Definition applied (cfg : BuildVolumeProfileConfig) (ts : list vpvrNormalizedTrade) (ws : vpvrWindowState) : vpvrWindowState :=
  foldl (λ ws t, (applyTrade cfg t ws).1) ws ts.
Definition contents (cfg : BuildVolumeProfileConfig) (at_ : string * Z) (ts : list vpvrNormalizedTrade) : option vpvrWindowState :=
  match ofWindow at_ ts with
  | [] => None
  | t :: _ => Some (applied cfg (ofWindow at_ ts) (MkWindow at_.2 (endOf t) ∅))
  end.
(** The windows of a partition. *)
Definition startsOf (key : string) (ts : list vpvrNormalizedTrade) : gset Z :=
  list_to_set (startOf <$> filter (λ t, partitionOf t = key) ts).

Lemma ofWindow_snoc at_ ts t : ofWindow at_ (ts ++ [t]) = ofWindow at_ ts ++ (if decide (windowOf t = at_) then [t] else []).
Proof. unfold ofWindow. by rewrite filter_app, filter_cons, filter_nil. Qed.
Lemma elem_of_startsOf key st ts : st ∈ startsOf key ts ↔ ofWindow (key, st) ts ≠ [].
Proof.
  unfold startsOf, ofWindow. rewrite elem_of_list_to_set, list_elem_of_fmap. split.
  - intros (t & -> & Ht%list_elem_of_filter) Hnil. destruct Ht as [Hk Ht].
    assert (Hin : t ∈ filter (λ t', windowOf t' = (key, startOf t)) ts).
    { apply list_elem_of_filter. split; [unfold windowOf; congruence|done]. }
    rewrite Hnil in Hin. by apply elem_of_nil in Hin.
  - intros Hne. destruct (filter _ ts) as [|t l] eqn:Hf; [done|].
    assert (Hin : t ∈ filter (λ t', windowOf t' = (key, st)) ts) by (rewrite Hf; left).
    apply list_elem_of_filter in Hin as [Hw Hin]. injection Hw as Hk Hs. exists t. split; [done|]. by apply list_elem_of_filter.
Qed.

Record runInv (cfg : BuildVolumeProfileConfig) (ts : list vpvrNormalizedTrade) (uc : BuildVolumeProfile) : Prop := {
  ri_cfg : vp_cfg uc = cfg;
  ri_windows : ∀ key st, windows (partitionAt key uc) !! st = contents cfg (key, st) ts;
  ri_nodup : ∀ key, NoDup (order (partitionAt key uc));
  ri_order : ∀ key, list_to_set (order (partitionAt key uc)) = startsOf key ts;
}.

Lemma startsOf_snoc key ts t :
  startsOf key (ts ++ [t]) = startsOf key ts ∪ (if decide (partitionOf t = key) then {[startOf t]} else ∅).
Proof.
  unfold startsOf. rewrite filter_app, filter_cons, filter_nil, fmap_app, list_to_set_app_L. f_equal. case_decide; [|done].
  cbn. set_solver.
Qed.

(** Opening a window when there is room evicts none. *)
Lemma openWindow_room cfg ts t uc :
  runInv cfg ts uc → Z.of_nat (base.size (startsOf (partitionOf t) (ts ++ [t]))) ≤ MaxOpenWindowsPerKey cfg →
  let ps := partitionAt (partitionOf t) uc in
  openWindow cfg (startOf t) (endOf t) ps =
  match windows ps !! startOf t with
  | Some _ => ps
  | None => ps <| windows ::= <[startOf t := MkWindow (startOf t) (endOf t) ∅]> |> <| order ::= λ o, o ++ [startOf t] |>
  end.
Proof.
  intros [_ Hw Hnd Hord] Hfit ps. unfold openWindow. destruct (windows ps !! startOf t) eqn:Hs; [done|].
  assert (Hlen : (length (order ps) < base.size (startsOf (partitionOf t) (ts ++ [t])))%nat).
  { rewrite <- (size_list_to_set (C:=gset Z)) by apply Hnd. unfold ps. rewrite Hord, startsOf_snoc, decide_True by done.
    apply subset_size. assert (startOf t ∉ startsOf (partitionOf t) ts); [|set_solver].
    rewrite elem_of_startsOf. intros Hne. unfold ps in Hs. rewrite Hw in Hs. unfold contents in Hs. by destruct (ofWindow _ _). }
  destruct (Z.leb_spec (MaxOpenWindowsPerKey cfg) (Z.of_nat (length (order ps)))); [lia|done].
Qed.

Lemma partitionAt_insert key' ps key uc :
  partitionAt key (uc <| states ::= <[key' := ps]> |>) = if decide (key = key') then ps else partitionAt key uc.
Proof. unfold partitionAt. cbn. case_decide as Hk; [subst; by rewrite lookup_insert_eq|by rewrite lookup_insert_ne]. Qed.

Lemma contents_own cfg ts t :
  contents cfg (windowOf t) (ts ++ [t]) =
  Some (applyTrade cfg t (default (MkWindow (startOf t) (endOf t) ∅) (contents cfg (windowOf t) ts))).1.
Proof.
  unfold contents. rewrite ofWindow_snoc, decide_True by done. destruct (ofWindow (windowOf t) ts) as [|t0 l]; [done|].
  cbn [app default]. unfold applied. change (t0 :: l ++ [t]) with ((t0 :: l) ++ [t]). by rewrite foldl_app.
Qed.
Lemma contents_other cfg ts t at_ : windowOf t ≠ at_ → contents cfg at_ (ts ++ [t]) = contents cfg at_ ts.
Proof. intros Hne. unfold contents. by rewrite ofWindow_snoc, decide_False, app_nil_r by done. Qed.

Lemma Execute_inv cfg ts req uc :
  runInv cfg ts uc →
  (∀ key, Z.of_nat (base.size (startsOf key (ts ++ option_list (normalized req)))) ≤ MaxOpenWindowsPerKey cfg) →
  runInv cfg (ts ++ option_list (normalized req)) (Execute req uc).1.
Proof.
  intros Hinv Hfit. destruct (normalized req) as [t|] eqn:Hn.
  2: { change (option_list None) with (@nil vpvrNormalizedTrade). rewrite app_nil_r. unfold normalized in Hn. destruct (normalizeAndValidateVPVRRequest req) as [p|] eqn:Hp; [|done].
       unfold Execute. rewrite (bind_err _ _ _ uc p) by by rewrite Hp. done. }
  change (option_list (Some t)) with [t] in *. destruct (Execute_spec req t uc Hn) as (ws0 & Hws0 & -> & _).
  pose proof (openWindow_room cfg ts t uc Hinv (Hfit _)) as Hopen. destruct Hinv as [Hcfg Hw Hnd Hord].
  rewrite Hcfg in *. cbv zeta in Hopen. rewrite Hopen in *. set (ps0 := partitionAt (partitionOf t) uc) in *.
  assert (Hown : windows ps0 !! startOf t = contents cfg (windowOf t) ts) by apply Hw.
  assert (Hws : ws0 = default (MkWindow (startOf t) (endOf t) ∅) (contents cfg (windowOf t) ts)).
  { rewrite <- Hown. destruct (windows ps0 !! startOf t) eqn:H; cbn in *; [congruence|]. rewrite lookup_insert_eq in Hws0. by injection Hws0. }
  split; [done| | |]; intros key; [intros st|..]; rewrite partitionAt_insert; case_decide as Hk; subst.
  - cbn. destruct (decide (st = startOf t)) as [->|Hne].
    + rewrite lookup_insert_eq. change (partitionOf t, startOf t) with (windowOf t). by rewrite contents_own.
    + rewrite lookup_insert_ne by done. rewrite contents_other by (unfold windowOf; congruence). rewrite <- Hw. fold ps0.
      destruct (windows ps0 !! startOf t); [done|]. cbn. by rewrite lookup_insert_ne.
  - rewrite contents_other by (unfold windowOf; congruence). apply Hw.
  - cbn. destruct (windows ps0 !! startOf t) eqn:Hst; [apply Hnd|]. cbn. apply NoDup_snoc; [|apply Hnd].
    intros Hin. rewrite <- (elem_of_list_to_set (C:=gset Z)) in Hin. unfold ps0 in Hin. rewrite Hord, elem_of_startsOf in Hin.
    unfold contents in Hown. change (partitionOf t, startOf t) with (windowOf t) in Hin. by destruct (ofWindow (windowOf t) ts).
  - apply Hnd.
  - rewrite startsOf_snoc, decide_True by done. rewrite <- (Hord (partitionOf t)). fold ps0. cbn.
    destruct (windows ps0 !! startOf t) eqn:Hst; cbn; [|rewrite list_to_set_app_L; set_solver].
    assert (startOf t ∈ startsOf (partitionOf t) ts); [|rewrite <- (Hord (partitionOf t)) in *; set_solver].
    apply elem_of_startsOf. unfold contents in Hown. change (partitionOf t, startOf t) with (windowOf t). by destruct (ofWindow (windowOf t) ts).
  - rewrite startsOf_snoc, decide_False by done. rewrite Hord. set_solver.
Qed.

Lemma orDefault_pos v d : 0 < d → 0 < orDefault v d.
Proof. unfold orDefault. destruct (Z.leb_spec v 0); lia. Qed.

Lemma run_inv cfg reqs :
  let uc0 := NewBuildVolumeProfileWithConfig cfg in
  (∀ key, Z.of_nat (base.size (startsOf key (omap normalized reqs))) ≤ MaxOpenWindowsPerKey (vp_cfg uc0)) →
  runInv (vp_cfg uc0) (omap normalized reqs) (runRequests reqs uc0).
Proof.
  intros uc0. induction reqs as [|req reqs IH] using rev_ind; intros Hfit.
  { split; [done| | |]; intros key; cbn; [done|constructor|done]. }
  rewrite omap_app in *. unfold runRequests. rewrite foldl_app. cbn [foldl].
  assert (Ho : omap normalized [req] = option_list (normalized req)) by (cbn; by destruct (normalized req)).
  rewrite Ho in *. apply Execute_inv; [|done]. apply IH. intros key. etrans; [|apply (Hfit key)]. apply Nat2Z.inj_le, subseteq_size.
  unfold startsOf. rewrite filter_app, fmap_app, list_to_set_app_L. set_solver.
Qed.

Lemma applied_groups cfg ts ws :
  0 ≤ MaxBucketsPerWindow cfg → buckets ws = ∅ → groups bucketOf summary (Z.to_nat (MaxBucketsPerWindow cfg)) ts (buckets (applied cfg ts ws)).
Proof.
  intros Hmax Hws. unfold applied. induction ts as [|t ts IH] using rev_ind.
  - cbn. rewrite Hws. apply groups_nil.
  - rewrite foldl_app. cbn [foldl]. by apply applyTrade_groups.
Qed.

Lemma applied_start cfg ts ws : windowStartMs (applied cfg ts ws) = windowStartMs ws.
Proof.
  unfold applied. induction ts as [|t ts IH] using rev_ind; [done|]. rewrite foldl_app. cbn [foldl]. rewrite <- IH.
  unfold applyTrade, mbind, Meth_bind, try_, recv, mret, Meth_ret, assign.
  destruct (AssignVPVRBucket _ _) as [p|[lo hi]]; [done|]. destruct (buckets _ !! _); [done|]. by destruct (_ <=? _).
Qed.

Lemma applied_end cfg ts ws : windowEndMs (applied cfg ts ws) = windowEndMs ws.
Proof.
  unfold applied. induction ts as [|t ts IH] using rev_ind; [done|]. rewrite foldl_app. cbn [foldl]. rewrite <- IH.
  unfold applyTrade, mbind, Meth_bind, try_, recv, mret, Meth_ret, assign.
  destruct (AssignVPVRBucket _ _) as [p|[lo hi]]; [done|]. destruct (buckets _ !! _); [done|]. by destruct (_ <=? _).
Qed.

(** Trades of one window have one end: the partition names the timeframe. *)
Lemma append_length (a x : string) : String.length (a ++ x)%string = (String.length a + String.length x)%nat.
Proof.
  induction a as [|c a IH]; [done|]. change (String c a ++ x)%string with (String c (a ++ x)%string). cbn [String.length].
  by rewrite IH.
Qed.
Lemma append_assoc (a b c : string) : (a ++ (b ++ c))%string = ((a ++ b) ++ c)%string.
Proof. induction a as [|d a IH]; [done|]. cbv [String.append] in *. by rewrite IH. Qed.
Lemma append_suffix (a b x y : string) :
  String.length x = String.length y → (a ++ x)%string = (b ++ y)%string → x = y.
Proof.
  revert b. induction a as [|c a IH]; intros [|d b] Hlen He.
  1: done.
  1, 2: exfalso; apply (f_equal String.length) in He; rewrite !append_length in He; cbn in He; lia.
  change (String c (a ++ x)%string = String d (b ++ y)%string) in He. injection He as _ He. by apply (IH b).
Qed.
Lemma normalized_timeframe req t : normalized req = Some t → timeframe t ∈ VPVRTimeframes.
Proof.
  unfold normalized, normalizeAndValidateVPVRRequest. destruct (Collect _); [done|]. cbv zeta.
  destruct (negb (str_eqb _ _)); [done|]. destruct (bool_decide (_ ∈ VPVRTimeframes)) eqn:Htf; [|done]. cbn [negb].
  destruct (_ && _); [done|]. intros [= <-]. by apply bool_decide_eq_true in Htf.
Qed.
Lemma timeframe_length tf : tf ∈ VPVRTimeframes → String.length tf = 2%nat.
Proof. unfold VPVRTimeframes. rewrite !elem_of_cons, elem_of_nil. by intros [->|[->|[->|[->|[->|[]]]]]]. Qed.
Lemma same_window_end t t' :
  timeframe t ∈ VPVRTimeframes → timeframe t' ∈ VPVRTimeframes → windowOf t = windowOf t' → endOf t = endOf t'.
Proof.
  intros Ht Ht' Hw. injection Hw as Hp Hs. unfold endOf. rewrite Hs. f_equal. unfold windowMs. f_equal.
  unfold partitionOf in Hp. rewrite !append_assoc in Hp. eapply append_suffix; [|exact Hp].
  by rewrite !timeframe_length.
Qed.

(** Capping keeps the levels of greatest volume. *)
Lemma cap_levels l0 all max :
  l0 ≡ₚ all → 0 < max →
  length (capVPVRLevelsByVolume l0 max) = Nat.min (Z.to_nat max) (length all) ∧
  (Z.of_nat (length all) ≤ max → capVPVRLevelsByVolume l0 max ≡ₚ all) ∧
  (Forall comparable all →
   ∃ rest, capVPVRLevelsByVolume l0 max ++ rest ≡ₚ all ∧ ∀ a b, a ∈ capVPVRLevelsByVolume l0 max → b ∈ rest → vlt b a = false).
Proof.
  intros Hall Hmax. unfold capVPVRLevelsByVolume. set (sorted := sortVPVRBucketsByPrice l0).
  assert (Hsort : sorted ≡ₚ all). { unfold sorted, sortVPVRBucketsByPrice, SortFunc. by rewrite sort_slice_perm. }
  assert (Hsn : length sorted = length all) by by rewrite Hsort.
  destruct (Z.leb_spec max 0); [lia|]. cbn [orb].
  destruct (Z.leb_spec (Z.of_nat (length sorted)) max) as [Hfit|Hover].
  - split; [lia|]. split; [done|]. intros _. exists []. rewrite app_nil_r. split; [done|]. by intros a b _ ?%elem_of_nil.
  - split.
    + unfold sortVPVRBucketsByPrice, SortFunc. rewrite sort_slice_perm, length_take, sort_slice_perm. lia.
    + split; [lia|]. intros Hcmp. destruct (keep_top compareVolume compareVPVRBucketOrder sorted (Z.to_nat max))
        as (rest & Hp & _ & _ & Hdom); [by rewrite Hsort|done|done|]. exists rest. rewrite <- Hsort. done.
Qed.

Lemma buildSnapshot_levels cfg t ws s :
  buildSnapshot cfg t ws = inr s → 0 < MaxLevelsPerPayload cfg →
  let all := toBucket <$> (map_to_list (buckets ws)).*2 in
  Profile_Validate s = None ∧
  (vp_Venue s, vp_Instrument s, vp_Timeframe s) = (venue t, instrument t, timeframe t) ∧
  vp_WindowStartTs s = windowStartMs ws ∧ vp_WindowEndTs s = windowEndMs ws ∧
  length (Buckets s) = Nat.min (Z.to_nat (MaxLevelsPerPayload cfg)) (base.size (buckets ws)) ∧
  (Z.of_nat (base.size (buckets ws)) ≤ MaxLevelsPerPayload cfg → Buckets s ≡ₚ all) ∧
  (Forall comparable all → ∃ rest, Buckets s ++ rest ≡ₚ all ∧ ∀ a b, a ∈ Buckets s → b ∈ rest → vlt b a = false).
Proof.
  intros Hs Hmax all. assert (Hall : toBucket <$> (map_range (buckets ws)).*2 ≡ₚ all) by (unfold all; by rewrite map_range_perm).
  assert (Hn : length all = base.size (buckets ws)) by (unfold all; by rewrite !length_fmap, length_map_to_list).
  destruct (cap_levels _ _ (MaxLevelsPerPayload cfg) Hall Hmax) as (Hlen & Hfew & Hlev). rewrite Hn in Hlen, Hfew.
  unfold buildSnapshot in Hs. destruct (capVPVRLevelsByVolume _ _) as [|first l']; [done|].
  destruct (last (first :: l')) as [end_b|]; [|done]. destruct (Profile_Validate _) eqn:Hv; [done|]. by injection Hs as <-.
Qed.

(** C23: What is emitted for a trade is the profile of all the trades of its window in
    the run, as long as the windows of each partition that the run touches fit in
    MaxOpenWindowsPerKey (a window that was evicted and opened again has lost its
    earlier trades). The profile is valid, names the trade's venue, instrument and
    timeframe, and spans exactly its window. The buckets of the window are one for
    each of the first MaxBucketsPerWindow price ranges, with the volumes and numbers
    of all its trades; the profile has all of them when MaxLevelsPerPayload allows,
    and otherwise as many as it allows: those of greatest volume, provided the
    bounds and volumes of all buckets are numbers. *)
Theorem profile_summarises_window_trades config reqs req resp :
  let uc0 := NewBuildVolumeProfileWithConfig config in
  let cfg := vp_cfg uc0 in
  let ts := omap normalized (reqs ++ [req]) in
  (∀ key, Z.of_nat (base.size (startsOf key ts)) ≤ MaxOpenWindowsPerKey cfg) →
  (Execute req (runRequests reqs uc0)).2 = inr resp → Emitted resp = true →
  ∃ t s m, normalized req = Some t ∧ Snapshot resp = Some s ∧
    groups bucketOf summary (Z.to_nat (MaxBucketsPerWindow cfg)) (ofWindow (windowOf t) ts) m ∧
    Profile_Validate s = None ∧
    (vp_Venue s, vp_Instrument s, vp_Timeframe s) = (venue t, instrument t, timeframe t) ∧
    vp_WindowStartTs s = startOf t ∧ vp_WindowEndTs s = endOf t ∧
    length (Buckets s) = Nat.min (Z.to_nat (MaxLevelsPerPayload cfg)) (base.size m) ∧
    let all := toBucket <$> (map_to_list m).*2 in
    (Z.of_nat (base.size m) ≤ MaxLevelsPerPayload cfg → Buckets s ≡ₚ all) ∧
    (Forall comparable all → ∃ rest, Buckets s ++ rest ≡ₚ all ∧ ∀ a b, a ∈ Buckets s → b ∈ rest → vlt b a = false).
Proof.
  intros uc0 cfg ts Hfit Hrun Hem.
  assert (Hpos : 0 ≤ MaxBucketsPerWindow cfg ∧ 0 < MaxLevelsPerPayload cfg).
  { unfold cfg, uc0. cbn. pose proof (orDefault_pos (MaxBucketsPerWindow config) VPVRCapBucketsPerWindow).
    pose proof (orDefault_pos (MaxLevelsPerPayload config) VPVRCapLevelsPerPayload). unfold VPVRCapBucketsPerWindow, VPVRCapLevelsPerPayload in *. lia. }
  assert (Hinv : runInv cfg ts (Execute req (runRequests reqs uc0)).1).
  { pose proof (run_inv config (reqs ++ [req]) Hfit) as H. unfold runRequests in H |- *. by rewrite foldl_app in H. }
  destruct (normalized req) as [t|] eqn:Hn.
  2: { unfold normalized in Hn. destruct (normalizeAndValidateVPVRRequest req) as [p|] eqn:Hp; [|done].
       unfold Execute in Hrun. rewrite (bind_err _ _ _ (runRequests reqs uc0) p) in Hrun by by rewrite Hp. done. }
  assert (Hcfg : vp_cfg (runRequests reqs uc0) = cfg).
  { destruct (Execute_spec req t (runRequests reqs uc0) Hn) as (ws0 & _ & Heq & _). rewrite Heq in Hinv. exact (ri_cfg _ _ _ Hinv). }
  destruct (Execute_spec req t (runRequests reqs uc0) Hn) as (ws0 & _ & Heq & Hout).
  destruct (Hout resp Hrun Hem) as (s & Hsnap & Hbuild). rewrite Hcfg in *. set (ws := (applyTrade cfg t ws0).1) in *.
  assert (Hws : contents cfg (windowOf t) ts = Some ws).
  { change (windowOf t) with (partitionOf t, startOf t). rewrite <- (ri_windows _ _ _ Hinv), Heq, partitionAt_insert, decide_True by done. cbn. by rewrite lookup_insert_eq. }
  destruct (buildSnapshot_levels _ _ _ _ Hbuild (proj2 Hpos)) as (Hv & Hid & Hst & Hen & Hlen & Hlev).
  unfold contents in Hws. destruct (ofWindow (windowOf t) ts) as [|t0 l] eqn:Hof; [done|]. apply (inj Some) in Hws.
  exists t, s, (buckets ws). split_and!; [done|done| |done|done| | |done|exact Hlev].
  - rewrite Hof, <- Hws. apply applied_groups; [apply Hpos|done].
  - by rewrite Hst, <- Hws, applied_start.
  - rewrite Hen, <- Hws, applied_end. cbn [windowEndMs].
    assert (Ht0 : t0 ∈ ofWindow (windowOf t) ts) by (rewrite Hof; left).
    apply list_elem_of_filter in Ht0 as [Hw0 Ht0]. apply list_elem_of_omap in Ht0 as (req0 & _ & Hn0).
    apply same_window_end; [exact (normalized_timeframe _ _ Hn0)|exact (normalized_timeframe _ _ Hn)|done].
Qed.
End run.

Lemma startsOf_small {GR : GoRuntime} key ts : (base.size (startsOf key ts) ≤ length ts)%nat.
Proof.
  induction ts as [|t ts IH] using rev_ind; [done|]. rewrite startsOf_snoc, length_app. cbn.
  pose proof (size_union_alt (startsOf key ts) (if decide (partitionOf t = key) then {[startOf t]} else ∅)) as ->.
  assert (base.size ((if decide (partitionOf t = key) then {[startOf t]} else ∅) ∖ startsOf key ts : gset Z) ≤ 1)%nat; [|lia].
  etrans; [apply subseteq_size, (subseteq_difference_l _ _ {[startOf t]}); case_decide; set_solver|]. by rewrite size_singleton.
Qed.

(** ** Where the code falls short, and the witnesses *)

Section examples.
#[local] Existing Instance go_amd64.

Definition tradeAt (p sz : float64) (sd : string) (ts sq : Z) : BuildVolumeProfileRequest :=
  MkVPRequest "marketdata.trade" "binance" "BTC-USDT" "1m" (flit 1 100) p sz sd ts sq.

(** A bin size that is no multiple of the tick: with a tick of 0.0003 and a price of
    100 it is 0.0005. *)
Theorem bin_size_not_multiple_of_tick :
  let bin := CalculateVolumeBinSize (f_of_Z 100) (flit 3 10000) in
  (feqb (flit 5 10000) <$> bin) = Some true ∧
  ((λ b, fltb f0 (binFraction (fdiv b (flit 3 10000)))) <$> bin) = Some true.
Proof. by vm_compute. Qed.

(** A trade of an earlier minute that comes late opens its window as the latest:
    [Snapshot] then answers with that window. *)
Theorem late_trade_becomes_latest_window :
  let uc := runRequests [tradeAt (f_of_Z 100) f1 "buy" 660000 1; tradeAt (f_of_Z 100) f1 "buy" 300000 2] NewBuildVolumeProfile in
  match latestSnapshot "binance" "BTC-USDT" "1m" uc with inr s => vp_WindowStartTs s | inl _ => 0 end = 300000.
Proof. by vm_compute. Qed.

(** A trade at a price near the largest float, which passes validation, gives a bucket
    whose bounds are not numbers; it stays in the window, and every later trade of
    the window is answered with an error. *)
Theorem absurd_price_blocks_window :
  let uc := runRequests [tradeAt (f_of_Z 100) f1 "buy" 660000 1; tradeAt (f_of_Z (10 ^ 306)) f1 "buy" 660001 2] NewBuildVolumeProfile in
  match (Execute (tradeAt (f_of_Z 100) f1 "buy" 660002 3) uc).2 with
  | inl p => Code p = ValidationFailed
  | inr _ => False
  end.
Proof. by vm_compute. Qed.

Lemma profile_summarises_window_trades_witness :
  let reqs := [tradeAt (f_of_Z 100) f1 "buy" 660000 1; tradeAt (f_of_Z 120) f1 "sell" 600000 2] in
  let req := tradeAt (f_of_Z 100) (f_of_Z 2) "sell" 660001 3 in
  let ts := omap normalized (reqs ++ [req]) in
  ∃ t s m, normalized req = Some t ∧ groups bucketOf summary 400 (ofWindow (windowOf t) ts) m ∧
    Profile_Validate s = None ∧ vp_WindowStartTs s = startOf t ∧ vp_WindowEndTs s = endOf t ∧
    length (Buckets s) = Nat.min 400 (base.size m).
Proof.
  intros reqs req ts.
  destruct (Execute req (runRequests reqs NewBuildVolumeProfile)).2 as [p|resp] eqn:Hrun.
  { exfalso. assert (Hok : match (Execute req (runRequests reqs NewBuildVolumeProfile)).2 with inl _ => 0 | inr _ => 1 end = 1) by by vm_compute.
    by rewrite Hrun in Hok. }
  assert (Hem : match (Execute req (runRequests reqs NewBuildVolumeProfile)).2 with inr r => Emitted r | inl _ => false end = true)
    by by vm_compute.
  rewrite Hrun in Hem.
  destruct (profile_summarises_window_trades (MkVPConfig 0 0 0) reqs req resp) as (t & s & m & Hn & _ & Hg & Hv & _ & Hst & Hen & Hlen & _).
  - intros key. etrans; [apply Nat2Z.inj_le, startsOf_small|]. by vm_compute.
  - exact Hrun.
  - exact Hem.
  - exists t, s, m. split_and!; [exact Hn|exact Hg|exact Hv|exact Hst|exact Hen|exact Hlen].
Defined.

Definition threeLevels : VolumeProfileSnapshotV1 :=
  let b lo v := MkBucket (f_of_Z lo) (f_of_Z (lo + 1)) (f_of_Z v) f0 (f_of_Z v) 1 1 in
  MkProfile "BINANCE" "BTCUSDT" "1m" 60000 120000 [b 100 5; b 101 9; b 102 2] (f_of_Z 101) (f_of_Z 100) (f_of_Z 103).
Lemma compressed_profile_is_valid_witness :
  let s' := (compressSnapshotByLevel threeLevels VPVROverloadL2).1.1 in
  Profile_Validate s' = None ∧ feqb (POCPrice s') (POCPrice threeLevels) = true ∧
  ∃ rest, Buckets s' ++ rest ≡ₚ Buckets threeLevels ∧ ∀ a b, a ∈ Buckets s' → b ∈ rest → vlt b a = false.
Proof. apply (compressed_profile_is_valid threeLevels VPVROverloadL2). by vm_compute. Defined.
End examples.
