(* ===== verification/SessionProfile.v ===== *)
(** * SessionProfile: internal/core/insights/app/build_session_volume_profile.go

    The use case that builds the volume profile of a trading session from closed
    candles, and the emission policy of session_emit_policy.go. The partition of a
    key is reached only through the map of the use case. A bucket is kept under its
    bounds, as in [VolumeProfile]. *)

From S2P Require Import Prelude GoRuntime Loops Shared Hash Insights VolumeProfile.

Local Open Scope string_scope.
Local Open Scope list_scope.
Local Open Scope Z_scope.

Definition svpDefaultEmitCadence : Z := 5.

Record BuildSessionVolumeProfileConfig := MkSVPConfig { MaxBuckets : Z; EmitCadence : Z }.

(** A closed candle. *)
Record BuildSessionVolumeProfileRequest := MkCandleRequest {
  cr_Venue : string; cr_Instrument : string; cr_Anchor : SessionAnchor; cr_TickSize : float64;
  cr_Open : float64; cr_High : float64; cr_Low : float64; cr_Close : float64;
  cr_BuyVolume : float64; cr_SellVolume : float64; cr_TradeCount : Z;
  cr_TsIngest : Z; cr_SeqFirst : Z; cr_SeqLast : Z;
}.

Record BuildSessionVolumeProfileResponse := MkSVPResponse {
  sr_Emitted : bool; sr_Snapshot : option SessionVolumeProfileV1; sr_IdempotencyKey : string;
}.

Record svpPartitionState := MkSession {
  svp_buckets : gmap (float64 * float64) vpvrBucketState;
  totalBuy : float64; totalSell : float64; tradeCount : Z; seqFirst : Z; seqLast : Z;
  windowStart : Z; windowEnd : Z; eventCount : Z; dirty : bool;
}.
#[export] Instance svpPartitionState_eta : Eta svpPartitionState := λ r,
  MkSession (svp_buckets r) (totalBuy r) (totalSell r) (tradeCount r) (seqFirst r) (seqLast r)
    (windowStart r) (windowEnd r) (eventCount r) (dirty r).

Record BuildSessionVolumeProfile := MkSVP { svp_cfg : BuildSessionVolumeProfileConfig; svp_states : gmap string svpPartitionState }.
#[export] Instance BuildSessionVolumeProfile_eta : Eta BuildSessionVolumeProfile := λ r, MkSVP (svp_cfg r) (svp_states r).

Definition NewBuildSessionVolumeProfileWithConfig (cfg : BuildSessionVolumeProfileConfig) : BuildSessionVolumeProfile :=
  MkSVP (MkSVPConfig (orDefault (MaxBuckets cfg) SVPCapBuckets) (orDefault (EmitCadence cfg) svpDefaultEmitCadence)) ∅.
Definition NewBuildSessionVolumeProfile : BuildSessionVolumeProfile := NewBuildSessionVolumeProfileWithConfig (MkSVPConfig 0 0).

Definition typicalPrice (req : BuildSessionVolumeProfileRequest) : float64 :=
  fdiv (fadd (fadd (fadd (cr_High req) (cr_Low req)) (cr_Close req)) (cr_Close req)) (f_of_Z 4).

(** The lowering of a first number: a first number that is not positive is ignored,
    and zero stands for none. *)
Definition lowerSeq (first cur : Z) : Z := if (0 <? first) && ((cur =? 0) || (first <? cur)) then first else cur.
Definition raiseSeq (last cur : Z) : Z := if cur <? last then last else cur.

Definition addCandle (req : BuildSessionVolumeProfileRequest) (b : vpvrBucketState) : vpvrBucketState :=
  let b := b <| buy ::= λ v, fadd v (cr_BuyVolume req) |> <| sell ::= λ v, fadd v (cr_SellVolume req) |> in
  let b := b <| total := fadd (buy b) (sell b) |> in
  b <| seqMin ::= lowerSeq (cr_SeqFirst req) |> <| seqMax ::= raiseSeq (cr_SeqLast req) |>.

Section session.
Context {GR : GoRuntime} {TZ : TimeZones}.

(** A candle that has no bucket, or a new one above the cap, is left out. *)
Definition applyCandleToBuckets (cfg : BuildSessionVolumeProfileConfig) (req : BuildSessionVolumeProfileRequest)
    (ps : svpPartitionState) : svpPartitionState :=
  match AssignVPVRBucket (typicalPrice req) (cr_TickSize req) with
  | inl _ => ps
  | inr (low, high) =>
      let count b :=
        ps <| svp_buckets ::= <[(low, high) := addCandle req b]> |>
           <| totalBuy ::= λ v, fadd v (cr_BuyVolume req) |> <| totalSell ::= λ v, fadd v (cr_SellVolume req) |>
           <| tradeCount ::= λ n, add64 n (cr_TradeCount req) |>
           <| seqFirst ::= lowerSeq (cr_SeqFirst req) |> <| seqLast ::= raiseSeq (cr_SeqLast req) |> in
      match svp_buckets ps !! (low, high) with
      | Some b => count b
      | None =>
          if MaxBuckets cfg <=? Z.of_nat (base.size (svp_buckets ps)) then ps
          else count (MkBucketState low high f0 f0 f0 (cr_SeqFirst req) (cr_SeqLast req))
      end
  end.

(** The order the snapshot is sorted in: the lower bound alone. *)
Definition comparePriceLow (a b : VolumeProfileBucketV1) : Z :=
  if fltb (PriceLow a) (PriceLow b) then -1 else if fltb (PriceLow b) (PriceLow a) then 1 else 0.

Definition indexPanic : Problem := New Internal "index out of range".

Definition buildSessionSnapshot (cfg : BuildSessionVolumeProfileConfig) (v i : string) (anchor : SessionAnchor) (ps : svpPartitionState)
    : Problem + SessionVolumeProfileV1 :=
  let l := capVPVRLevelsByVolume (toBucket <$> (map_range (svp_buckets ps)).*2) (MaxBuckets cfg) in
  if Z.of_nat (length l) =? 0 then inl (New ValidationFailed "session vp has no buckets") else
  let l := SortFunc comparePriceLow l in
  let '(pocPrice, pocIdx) := ComputePOC l in
  match ComputeValueArea l pocIdx SVPValueAreaPct with
  | None => inl indexPanic
  | Some (vah, val) =>
      let snap := MkSessionProfile v i anchor l pocPrice val vah (fadd (totalBuy ps) (totalSell ps)) (totalBuy ps) (totalSell ps)
                    (tradeCount ps) (windowStart ps) (windowEnd ps) (seqFirst ps) (seqLast ps) in
      match SessionProfile_Validate snap with Some p => inl p | None => inr snap end
  end.

Definition sessionKey (v i label : string) : string := (v ++ "|" ++ i ++ "|" ++ label)%string.

Definition SessionIdempotencyKey (v i label : string) (ps : svpPartitionState) : string :=
  Hex (HashInt 1 (HashInt64 (seqLast ps) (HashInt64 (windowStart ps) (HashString label (HashString i (HashString v NewFieldHasher)))))).

(** The partition for a candle of the session from [start] to [end_]. *)
Definition sessionFor (start end_ first : Z) (ps : option svpPartitionState) : svpPartitionState :=
  match ps with
  | Some ps => if start =? windowStart ps then ps else MkSession ∅ f0 f0 0 first 0 start end_ 0 false
  | None => MkSession ∅ f0 f0 0 first 0 start end_ 0 false
  end.

Definition validateCandleRequest (req : BuildSessionVolumeProfileRequest) : option Problem :=
  match Collect [NonEmptyString "venue" (cr_Venue req); NonEmptyString "instrument" (cr_Instrument req);
                 Positive "tick_size" (cr_TickSize req); Positive "high" (cr_High req);
                 PositiveInt "ts_ingest" (cr_TsIngest req); PositiveInt "seq_last" (cr_SeqLast req)] with
  | Some p => Some p
  | None => Anchor_Validate (cr_Anchor req)
  end.

Definition SessionExecute (req : BuildSessionVolumeProfileRequest)
    : Meth BuildSessionVolumeProfile Problem BuildSessionVolumeProfileResponse := λ uc,
  match validateCandleRequest req with
  | Some p => (uc, inl p)
  | None =>
      let v := CanonicalVenue (cr_Venue req) in
      let i := CanonicalInstrument (cr_Instrument req) in
      match ResolveSessionBounds (cr_Anchor req) (cr_TsIngest req) with
      | inl p => (uc, inl p)
      | inr (start, end_) =>
          let key := sessionKey v i (Label (cr_Anchor req)) in
          let ps := sessionFor start end_ (cr_SeqFirst req) (svp_states uc !! key) in
          let ps := applyCandleToBuckets (svp_cfg uc) req ps in
          let ps := ps <| eventCount ::= λ n, add64 n 1 |> <| dirty := true |> in
          let uc := uc <| svp_states ::= <[key := ps]> |> in
          if negb (Z.rem (eventCount ps) (EmitCadence (svp_cfg uc)) =? 0) then (uc, inr (MkSVPResponse false None "")) else
          match buildSessionSnapshot (svp_cfg uc) v i (cr_Anchor req) ps with
          | inl p => (uc, inl p)
          | inr snap =>
              (uc <| svp_states ::= <[key := ps <| dirty := false |>]> |>,
               inr (MkSVPResponse true (Some snap) (SessionIdempotencyKey v i (Label (cr_Anchor req)) ps)))
          end
      end
  end.

(** [Snapshot] *)
Definition currentSession (v i label : string) (uc : BuildSessionVolumeProfile) : Problem + SessionVolumeProfileV1 :=
  let cv := CanonicalVenue v in
  let ci := CanonicalInstrument i in
  let notFound := inl (Newf NotFound "session vp not found for %s/%s/%s" [AnyStr v; AnyStr i; AnyStr label]) in
  match svp_states uc !! sessionKey cv ci label with
  | None => notFound
  | Some ps =>
      if Z.of_nat (base.size (svp_buckets ps)) =? 0 then notFound else
      let anchor := default (MkAnchor SessionAnchorCustom label "UTC" 0 0 (sub64 (windowEnd ps) (windowStart ps)))
                      (SessionPresets !! label) in
      buildSessionSnapshot (svp_cfg uc) cv ci anchor ps
  end.
End session.

(** ** session_emit_policy.go *)

Definition SessionEmitLevel : Type := Z.
Definition SessionEmitL0 : SessionEmitLevel := 0.
Definition SessionEmitL1 : SessionEmitLevel := 1.
Definition SessionEmitL2 : SessionEmitLevel := 2.
Definition SessionEmitL3 : SessionEmitLevel := 3.

Record SessionEmitSignals := MkEmitSignals { es_QueueDepth : Z; es_QueueCapacity : Z; es_ProcessingLatencyMs : float64 }.
Definition SessionEmitDecideFunc : Type := SessionEmitLevel → SessionEmitSignals → SessionEmitLevel.

Record sessionEmitState := MkEmitState { emit_level : SessionEmitLevel; emit_count : Z }.
Record SessionEmitPolicy := MkEmitPolicy { decide_emit : SessionEmitDecideFunc; emit_states : gmap string sessionEmitState }.

Definition defaultSessionDecide (prev : SessionEmitLevel) (signals : SessionEmitSignals) : SessionEmitLevel :=
  if es_QueueCapacity signals <=? 0 then SessionEmitL0 else
  let occupancy := fdiv (f_of_Z (es_QueueDepth signals)) (f_of_Z (es_QueueCapacity signals)) in
  let above q ms := fltb q occupancy || fltb (f_of_Z ms) (es_ProcessingLatencyMs signals) in
  if above (flit 90 100) 50 then SessionEmitL3
  else if above (flit 75 100) 20 then SessionEmitL2
  else if above (flit 50 100) 10 then SessionEmitL1
  else SessionEmitL0.

Definition NewSessionEmitPolicy (d : option SessionEmitDecideFunc) : SessionEmitPolicy :=
  MkEmitPolicy (default defaultSessionDecide d) ∅.

Definition effectiveCadence (base : Z) (level : SessionEmitLevel) : Z :=
  let base := if base <=? 0 then 5 else base in
  if level =? SessionEmitL1 then mul64 base 2
  else if level =? SessionEmitL2 then mul64 base 4
  else if level =? SessionEmitL3 then mul64 base 1000000
  else base.

(** [None] is the panic of a remainder by zero, when the product wrapped to zero. *)
Definition ShouldEmit (partitionKey : string) (baseCadence : Z) (isSessionClose : bool) (signals : SessionEmitSignals)
    (p : SessionEmitPolicy) : SessionEmitPolicy * option bool :=
  let st := default (MkEmitState 0 0) (emit_states p !! partitionKey) in
  let st := MkEmitState (decide_emit p (emit_level st) signals) (wrapu64 (emit_count st + 1)) in
  let p := MkEmitPolicy (decide_emit p) (<[partitionKey := st]> (emit_states p)) in
  if isSessionClose then (p, Some true) else
  let cadence := wrapu64 (effectiveCadence baseCadence (emit_level st)) in
  if cadence =? 0 then (p, None) else (p, Some (emit_count st mod cadence =? 0)).
