(* ===== verification/SessionProfileSpec.v ===== *)
(** * SessionProfileSpec: what a session profile promises

    The value area of a profile, the candles a session profile covers, and the
    bounds of the sessions. *)

From S2P Require Import Prelude GoRuntime Loops Shared Hash Insights Grouping VolumeProfile VolumeProfileSpec SessionProfile.

Local Open Scope string_scope.
Local Open Scope list_scope.
Local Open Scope Z_scope.

(** ** The value area *)

Section area.
Context (l : list VolumeProfileBucketV1) (target : float64) (poc : nat).

(** The volume of some buckets, added in their order from the first. *)
Definition volumeOf (path : list nat) : float64 :=
  match path with [] => f0 | i :: rest => foldl (λ acc j, fadd acc (volumeAt l j)) (volumeAt l i) rest end.

(** A walk outwards from the point of control: it covers a range, every step was
    taken short of the target, to the neighbour of greater volume. *)
Definition beside (p : list nat) (j : nat) : Prop := (j < length l)%nat ∧ (j ∉ p) ∧ (∃ x, x ∈ p ∧ (j = S x ∨ x = S j)).
Record areaWalk (path : list nat) (lo hi : nat) : Prop := {
  aw_head : head path = Some poc;
  aw_range : path ≡ₚ List.seq lo (S hi - lo);
  aw_bounds : (lo ≤ poc ∧ poc ≤ hi ∧ hi < length l)%nat;
  aw_short : ∀ p q, path = p ++ q → p ≠ [] → q ≠ [] → fltb (volumeOf p) target = true;
  aw_greedy : ∀ p i q j, path = p ++ i :: q → p ≠ [] → beside p j → fltb (volumeAt l i) (volumeAt l j) = false;
}.

Lemma volumeOf_snoc path i : path ≠ [] → volumeOf (path ++ [i]) = fadd (volumeOf path) (volumeAt l i).
Proof. destruct path; [done|]. intros _. cbn. by rewrite foldl_app. Qed.

Lemma walk_in path lo hi j : areaWalk path lo hi → j ∈ path ↔ (lo ≤ j ≤ hi)%nat.
Proof. intros Hw. pose proof (aw_bounds _ _ _ Hw). rewrite (aw_range _ _ _ Hw), elem_of_seq. lia. Qed.
Lemma walk_nonempty path lo hi : areaWalk path lo hi → path ≠ [].
Proof. intros Hw ->. by pose proof (aw_head _ _ _ Hw). Qed.

(** A step of the walk. *)
Lemma walk_step path lo hi lo' hi' i :
  areaWalk path lo hi → fltb (volumeOf path) target = true →
  (S lo' = lo ∧ hi' = hi ∧ i = lo' ∨ lo' = lo ∧ hi' = S hi ∧ i = hi' ∧ hi' < length l)%nat →
  (∀ j, beside path j → fltb (volumeAt l i) (volumeAt l j) = false) → areaWalk (path ++ [i]) lo' hi'.
Proof.
  intros Hw Hshort Hi Hbest. pose proof (aw_bounds _ _ _ Hw) as Hb. pose proof (walk_nonempty _ _ _ Hw) as Hne. split.
  - destruct path; [done|]. exact (aw_head _ _ _ Hw).
  - rewrite (aw_range _ _ _ Hw). destruct Hi as [(<- & -> & ->)|(-> & -> & -> & ?)].
    + rewrite Permutation_app_comm. rewrite (Nat.sub_succ_l lo' hi) by lia. by rewrite Nat.sub_succ.
    + rewrite (Nat.sub_succ_l lo (S hi)), seq_S by lia. by replace (lo + (S hi - lo))%nat with (S hi) by lia.
  - lia.
  - intros p q Heq Hp Hq. destruct q as [|x q _] using rev_ind; [done|]. rewrite app_assoc in Heq. apply app_inj_tail in Heq as [-> ->].
    destruct q as [|y q]; [by rewrite app_nil_r in Hshort|]. by apply (aw_short _ _ _ Hw p (y :: q)).
  - intros p k q j Heq Hp Hj. destruct q as [|x q _] using rev_ind.
    + apply app_inj_tail in Heq as [-> ->]. by apply Hbest.
    + rewrite app_comm_cons, app_assoc in Heq. apply app_inj_tail in Heq as [-> ->]. by eapply (aw_greedy _ _ _ Hw).
Qed.

Lemma fle_not_lt x y : fleb x y = true → fltb y x = false.
Proof.
  intros Hle. destruct (isNaN x) eqn:Hx; [by apply fltb_nan_r|]. destruct (isNaN y) eqn:Hy; [by apply fltb_nan_l|].
  rewrite fleb_ltb in Hle by done. by apply negb_true_iff in Hle.
Qed.
Lemma not_fle_not_lt x y : fleb x y = false → fltb x y = false.
Proof. unfold fleb, fltb, SFleb, SFltb. by destruct (SFcompare x y) as [[]|]. Qed.

(** The neighbours of a walk are the two ends of its range. *)
Lemma walk_beside path lo hi j : areaWalk path lo hi → beside path j → (S j = lo ∨ j = S hi ∧ j < length l)%nat.
Proof.
  intros Hw (Hj & Hnin & x & Hx & Hor). rewrite (walk_in _ _ _ _ Hw) in Hnin. apply (walk_in _ _ _ _ Hw) in Hx. lia.
Qed.

(** Every pass of the loop is a step of the walk. *)
Lemma areaBody_walk path lo hi s' :
  areaWalk path lo hi → areaBody l target (lo, hi, volumeOf path) = Some s' →
  ∃ path' lo' hi', s' = (lo', hi', volumeOf path') ∧ areaWalk path' lo' hi' ∧ (hi' - lo' = S (hi - lo))%nat.
Proof.
  intros Hw. pose proof (aw_bounds _ _ _ Hw) as Hb. pose proof (walk_nonempty _ _ _ Hw) as Hne. unfold areaBody.
  destruct (fltb (volumeOf path) target) eqn:Hshort; [|done]. cbn [andb].
  assert (Hdown : (0 < lo)%nat → (hi < length l - 1)%nat ∧ fltb (volumeAt l (lo - 1)) (volumeAt l (hi + 1)) = false ∨ ¬ (hi < length l - 1)%nat →
    areaWalk (path ++ [lo - 1]%nat) (lo - 1) hi).
  { intros Hlo Hor. eapply walk_step; [done|done|left; lia|]. intros j Hj. pose proof (walk_beside _ _ _ _ Hw Hj) as [<-|[-> ?]].
    - rewrite Nat.sub_succ, Nat.sub_0_r. apply fltb_irrefl.
    - destruct Hor as [[_ Hv]|]; [|lia]. by replace (S hi) with (hi + 1)%nat by lia. }
  assert (Hup : (hi < length l - 1)%nat → (0 < lo)%nat ∧ fltb (volumeAt l (hi + 1)) (volumeAt l (lo - 1)) = false ∨ ¬ (0 < lo)%nat →
    areaWalk (path ++ [hi + 1]%nat) lo (hi + 1)).
  { intros Hhi Hor. eapply walk_step; [done|done|right; lia|]. intros j Hj. pose proof (walk_beside _ _ _ _ Hw Hj) as [<-|[-> ?]].
    - destruct Hor as [[_ Hv]|]; [|lia]. by rewrite Nat.sub_succ, Nat.sub_0_r in Hv.
    - replace (hi + 1)%nat with (S hi) by lia. apply fltb_irrefl. }
  destruct (Nat.ltb_spec 0 lo) as [Hlo|Hlo], (Nat.ltb_spec hi (length l - 1)) as [Hhi|Hhi]; cbn [orb andb]; rewrite ?andb_true_r, ?andb_false_r.
  - destruct (fleb _ _) eqn:Hle; intros [= <-].
    + exists (path ++ [lo - 1]%nat), (lo - 1)%nat, hi. split_and!; [by rewrite volumeOf_snoc| |lia]. apply Hdown; [done|]. left. split; [done|by apply fle_not_lt].
    + exists (path ++ [hi + 1]%nat), lo, (hi + 1)%nat. split_and!; [by rewrite volumeOf_snoc| |lia]. apply Hup; [done|]. left. split; [done|by apply not_fle_not_lt].
  - intros Hs. assert (s' = (lo - 1, hi, fadd (volumeOf path) (volumeAt l (lo - 1)))%nat) as -> by (destruct (fleb _ _); congruence).
    exists (path ++ [lo - 1]%nat), (lo - 1)%nat, hi. split_and!; [by rewrite volumeOf_snoc| |lia]. apply Hdown; [done|]. right. lia.
  - intros [= <-]. exists (path ++ [hi + 1]%nat), lo, (hi + 1)%nat. split_and!; [by rewrite volumeOf_snoc| |lia]. apply Hup; [done|]. right. lia.
  - done.
Qed.

Lemma area_loop b :
  l !! poc = Some b →
  ∃ path lo hi, loop (areaBody l target) (S (length l)) (poc, poc, TotalVolume b) = Some (lo, hi, volumeOf path) ∧
    areaWalk path lo hi ∧ (fltb (volumeOf path) target = false ∨ (lo = 0 ∧ S hi = length l)%nat).
Proof.
  intros Hb. pose proof (lookup_lt_Some _ _ _ Hb) as Hlt.
  set (Inv s := ∃ path lo hi, s = (lo, hi, volumeOf path) ∧ areaWalk path lo hi).
  destruct (loop_variant (areaBody l target) Inv (λ s, length l - (s.1.2 - s.1.1))%nat) with (S (length l)) (poc, poc, TotalVolume b)
    as (r & Hr & (path & lo & hi & -> & Hw) & Hend).
  - intros s s' (path & lo & hi & -> & Hw) Hs'. destruct (areaBody_walk _ _ _ _ Hw Hs') as (path' & lo' & hi' & -> & Hw' & Hn).
    split; [by exists path', lo', hi'|]. cbn. pose proof (aw_bounds _ _ _ Hw'). lia.
  - exists [poc], poc, poc. split; [cbn; unfold volumeAt; by rewrite Hb|]. split.
    + done.
    + by replace (S poc - poc)%nat with 1%nat by lia.
    + lia.
    + intros [|x [|y p]] q Heq Hp Hq; try done; by destruct q.
    + intros [|x [|y p]] i q j Heq Hp Hj; done.
  - cbn. lia.
  - exists path, lo, hi. split_and!; [done|done|]. pose proof (aw_bounds _ _ _ Hw). unfold areaBody in Hend.
    destruct (fltb (volumeOf path) target); [|by left]. right. cbn [andb] in Hend.
    destruct (Nat.ltb_spec 0 lo), (Nat.ltb_spec hi (length l - 1)); cbn [orb andb] in Hend; rewrite ?andb_true_r, ?andb_false_r in Hend; try lia; try done; by destruct (fleb _ _).
Qed.
End area.

(** C26: The value area of a profile that has volume: it runs from the low of one bucket
    to the high of another, with the point of control between them. Its buckets were
    added one by one outwards from the point of control, each time the neighbour
    of greater volume, while their volume was short of the wanted share; in the end
    it is not, or every bucket is in. *)
Theorem value_area_is_tight l poc pct :
  (poc < length l)%nat → fleb (totalVolume l) f0 = false →
  let target := fmul (totalVolume l) pct in
  ∃ path lo hi bottom top,
    ComputeValueArea l (Z.of_nat poc) pct = Some (PriceHigh top, PriceLow bottom) ∧
    l !! lo = Some bottom ∧ l !! hi = Some top ∧ areaWalk l target poc path lo hi ∧
    (fltb (volumeOf l path) target = false ∨ (lo = 0 ∧ S hi = length l)%nat).
Proof.
  intros [b Hb]%lookup_lt_is_Some Hvol target. destruct (area_loop l target poc b Hb) as (path & lo & hi & Hloop & Hw & Hend).
  pose proof (aw_bounds _ _ _ _ _ _ Hw) as Hbnd.
  destruct (lookup_lt_is_Some_2 l lo) as [bottom Hlo]; [lia|]. destruct (lookup_lt_is_Some_2 l hi) as [top Hhi]; [lia|].
  exists path, lo, hi, bottom, top. split_and!; [|done|done|done|done]. unfold ComputeValueArea.
  destruct l as [|first rest]; [done|]. destruct (last (first :: rest)) eqn:Hlast; [|by rewrite last_None in Hlast].
  rewrite Hvol. destruct (Z.ltb_spec (Z.of_nat poc) 0); [lia|]. rewrite Nat2Z.id, Hb. cbn [mbind option_bind].
  fold target. rewrite Hloop. cbn [mbind option_bind]. by rewrite Hhi, Hlo.
Qed.

(** ** The candles a session covers *)

Section run.
Context {GR : GoRuntime} {TZ : TimeZones}.

(** The partition and the session of a candle that is not refused. *)
Definition sessionOf (req : BuildSessionVolumeProfileRequest) : option (string * (Z * Z)) :=
  match validateCandleRequest req, ResolveSessionBounds (cr_Anchor req) (cr_TsIngest req) with
  | None, inr b => Some (sessionKey (CanonicalVenue (cr_Venue req)) (CanonicalInstrument (cr_Instrument req)) (Label (cr_Anchor req)), b)
  | _, _ => None
  end.
Definition startOfSession (req : BuildSessionVolumeProfileRequest) : Z := default 0 (fst ∘ snd <$> sessionOf req).
Definition endOfSession (req : BuildSessionVolumeProfileRequest) : Z := default 0 (snd ∘ snd <$> sessionOf req).
Definition candlesOf (key : string) (reqs : list BuildSessionVolumeProfileRequest) : list BuildSessionVolumeProfileRequest :=
  filter (λ r, fst <$> sessionOf r = Some key) reqs.

Definition candleRange (req : BuildSessionVolumeProfileRequest) : option (float64 * float64) :=
  match AssignVPVRBucket (typicalPrice req) (cr_TickSize req) with inr k => Some k | inl _ => None end.

Definition sumOf (f : BuildSessionVolumeProfileRequest → float64) (cs : list BuildSessionVolumeProfileRequest) : float64 :=
  foldl fadd f0 (f <$> cs).
Definition leastFirst (cur : Z) (cs : list BuildSessionVolumeProfileRequest) : Z := foldl (λ n c, lowerSeq (cr_SeqFirst c) n) cur cs.
Definition greatestLast (cur : Z) (cs : list BuildSessionVolumeProfileRequest) : Z := foldl (λ n c, raiseSeq (cr_SeqLast c) n) cur cs.

(** The summary of the candles of one bucket. *)
Definition candleSummary (k : float64 * float64) (cs : list BuildSessionVolumeProfileRequest) : option vpvrBucketState :=
  match cs with
  | [] => None
  | c :: _ => Some (MkBucketState k.1 k.2 (sumOf cr_BuyVolume cs) (sumOf cr_SellVolume cs) (fadd (sumOf cr_BuyVolume cs) (sumOf cr_SellVolume cs))
                      (leastFirst (cr_SeqFirst c) cs) (greatestLast (cr_SeqLast c) cs))
  end.

Lemma sumOf_snoc f cs c : sumOf f (cs ++ [c]) = fadd (sumOf f cs) (f c).
Proof. unfold sumOf. by rewrite fmap_app, foldl_app. Qed.
Lemma leastFirst_snoc n cs c : leastFirst n (cs ++ [c]) = lowerSeq (cr_SeqFirst c) (leastFirst n cs).
Proof. unfold leastFirst. by rewrite foldl_app. Qed.
Lemma greatestLast_snoc n cs c : greatestLast n (cs ++ [c]) = raiseSeq (cr_SeqLast c) (greatestLast n cs).
Proof. unfold greatestLast. by rewrite foldl_app. Qed.

Definition freshBucket (k : float64 * float64) (c : BuildSessionVolumeProfileRequest) : vpvrBucketState :=
  MkBucketState k.1 k.2 f0 f0 f0 (cr_SeqFirst c) (cr_SeqLast c).

Lemma candleSummary_some k cs : is_Some (candleSummary k cs) ↔ cs ≠ [].
Proof. destruct cs; [split; [by intros []|done]|split; [done|by eexists]]. Qed.
Lemma candleSummary_snoc k cs c : Some (addCandle c (default (freshBucket k c) (candleSummary k cs))) = candleSummary k (cs ++ [c]).
Proof.
  destruct cs as [|c0 cs]; [done|]. unfold candleSummary. cbn [app]. rewrite app_comm_cons.
  by rewrite !sumOf_snoc, leastFirst_snoc, greatestLast_snoc.
Qed.

(** What the partition holds after the candles [cs] of one session; a candle without
    a bucket among the first ones counts for nothing. *)
Record covers (cfg : BuildSessionVolumeProfileConfig) (c0 : BuildSessionVolumeProfileRequest) (cs : list BuildSessionVolumeProfileRequest)
    (ps : svpPartitionState) : Prop := {
  cv_buckets : groups candleRange candleSummary (Z.to_nat (MaxBuckets cfg)) cs (svp_buckets ps);
  cv_buy : totalBuy ps = sumOf cr_BuyVolume (counted candleRange (Z.to_nat (MaxBuckets cfg)) cs);
  cv_sell : totalSell ps = sumOf cr_SellVolume (counted candleRange (Z.to_nat (MaxBuckets cfg)) cs);
  cv_trades : tradeCount ps = foldl (λ n c, add64 n (cr_TradeCount c)) 0 (counted candleRange (Z.to_nat (MaxBuckets cfg)) cs);
  cv_first : seqFirst ps = leastFirst (cr_SeqFirst c0) (counted candleRange (Z.to_nat (MaxBuckets cfg)) cs);
  cv_last : seqLast ps = greatestLast 0 (counted candleRange (Z.to_nat (MaxBuckets cfg)) cs);
  cv_start : windowStart ps = startOfSession c0;
  cv_end : windowEnd ps = endOfSession c0;
  cv_count : eventCount ps = wrap64 (Z.of_nat (length cs));
}.
(** A candle changes the buckets of its session as [groupStep] does. *)
Lemma applyCandle_step cfg c ps :
  svp_buckets (applyCandleToBuckets cfg c ps) = groupStep candleRange addCandle freshBucket (MaxBuckets cfg) c (svp_buckets ps).
Proof.
  unfold applyCandleToBuckets, groupStep, candleRange. destruct (AssignVPVRBucket _ _) as [p|[low high]]; [done|].
  destruct (svp_buckets ps !! (low, high)); [done|]. by destruct (_ <=? _).
Qed.

(** The totals change exactly when the candle has a bucket afterwards. *)
Lemma applyCandle_totals cfg c ps :
  let ps' := applyCandleToBuckets cfg c ps in
  let on := match candleRange c with Some k => bool_decide (is_Some (svp_buckets ps' !! k)) | None => false end in
  totalBuy ps' = (if on then fadd (totalBuy ps) (cr_BuyVolume c) else totalBuy ps) ∧
  totalSell ps' = (if on then fadd (totalSell ps) (cr_SellVolume c) else totalSell ps) ∧
  tradeCount ps' = (if on then add64 (tradeCount ps) (cr_TradeCount c) else tradeCount ps) ∧
  seqFirst ps' = (if on then lowerSeq (cr_SeqFirst c) (seqFirst ps) else seqFirst ps) ∧
  seqLast ps' = (if on then raiseSeq (cr_SeqLast c) (seqLast ps) else seqLast ps) ∧
  windowStart ps' = windowStart ps ∧ windowEnd ps' = windowEnd ps ∧ eventCount ps' = eventCount ps.
Proof.
  cbn zeta. unfold applyCandleToBuckets, candleRange. destruct (AssignVPVRBucket _ _) as [p|[low high]]; [done|].
  destruct (svp_buckets ps !! (low, high)) as [b|] eqn:Hb; [|destruct (_ <=? _)].
  - rewrite bool_decide_true by (cbn; rewrite lookup_insert_eq; by eexists). done.
  - rewrite bool_decide_false by (rewrite Hb; by intros []). done.
  - rewrite bool_decide_true by (cbn; rewrite lookup_insert_eq; by eexists). done.
Qed.

Lemma counted_on (max : nat) (cs : list BuildSessionVolumeProfileRequest) (c : BuildSessionVolumeProfileRequest) (m : gmap (float64 * float64) vpvrBucketState) :
  groups candleRange candleSummary max (cs ++ [c]) m →
  counted candleRange max (cs ++ [c]) = counted candleRange max cs ++
    (if match candleRange c with Some k => bool_decide (is_Some (m !! k)) | None => false end then [c] else []).
Proof.
  intros Hg. rewrite counted_snoc. f_equal. destruct (candleRange c) as [k|] eqn:Hk.
  - pose proof (groups_in _ _ candleSummary_some _ _ _ k Hg) as Hin. case_bool_decide as Hon; case_decide as Hd; try done.
    + destruct Hd. apply list_elem_of_fmap. exists k. split; [done|]. by apply Hin.
    + destruct Hon. apply Hin. apply list_elem_of_fmap in Hd as (k' & [= <-] & ?). done.
  - rewrite decide_False; [done|]. by intros (k' & ? & ?)%list_elem_of_fmap.
Qed.

(** The state after one more candle of the session, whether or not it was emitted. *)
Definition stepped (cfg : BuildSessionVolumeProfileConfig) (c : BuildSessionVolumeProfileRequest) (d : bool) (ps : svpPartitionState) : svpPartitionState :=
  (applyCandleToBuckets cfg c ps) <| eventCount ::= λ n, add64 n 1 |> <| dirty := d |>.

Lemma covers_step cfg c0 cs c d ps : 0 ≤ MaxBuckets cfg → covers cfg c0 cs ps → covers cfg c0 (cs ++ [c]) (stepped cfg c d ps).
Proof.
  intros Hmax Hc. destruct (applyCandle_totals cfg c ps) as (Hb & Hs & Ht & Hf & Hl & Hws & Hwe & Hn).
  assert (Hg : groups candleRange candleSummary (Z.to_nat (MaxBuckets cfg)) (cs ++ [c]) (svp_buckets (applyCandleToBuckets cfg c ps))).
  { rewrite applyCandle_step. apply groupStep_groups; [exact candleSummary_some| |done|apply Hc]. intros k ts t _. apply candleSummary_snoc. }
  pose proof (counted_on _ _ _ _ Hg) as Hcnt. set (on := match candleRange c with Some k => _ | None => _ end) in *.
  split; unfold stepped; cbn; unfold upd; cbn [svp_buckets totalBuy totalSell tradeCount seqFirst seqLast windowStart windowEnd eventCount].
  - exact Hg.
  - rewrite Hcnt, Hb, (cv_buy _ _ _ _ Hc). destruct on; [by rewrite sumOf_snoc|by rewrite app_nil_r].
  - rewrite Hcnt, Hs, (cv_sell _ _ _ _ Hc). destruct on; [by rewrite sumOf_snoc|by rewrite app_nil_r].
  - rewrite Hcnt, Ht, (cv_trades _ _ _ _ Hc). destruct on; [by rewrite foldl_app|by rewrite app_nil_r].
  - rewrite Hcnt, Hf, (cv_first _ _ _ _ Hc). destruct on; [by rewrite leastFirst_snoc|by rewrite app_nil_r].
  - rewrite Hcnt, Hl, (cv_last _ _ _ _ Hc). destruct on; [by rewrite greatestLast_snoc|by rewrite app_nil_r].
  - by rewrite Hws, (cv_start _ _ _ _ Hc).
  - by rewrite Hwe, (cv_end _ _ _ _ Hc).
  - rewrite Hn, (cv_count _ _ _ _ Hc), length_app. by rewrite Nat2Z.inj_add, wrap64_add_l.
Qed.
Definition runCandles (reqs : list BuildSessionVolumeProfileRequest) (uc : BuildSessionVolumeProfile) : BuildSessionVolumeProfile :=
  foldl (λ uc r, (SessionExecute r uc).1) uc reqs.

(** The candles of a partition since the session last changed, [c0] the first. *)
Definition currentRun (key : string) (reqs : list BuildSessionVolumeProfileRequest) (c0 : BuildSessionVolumeProfileRequest)
    (cs : list BuildSessionVolumeProfileRequest) : Prop :=
  ∃ before, candlesOf key reqs = before ++ cs ∧ head cs = Some c0 ∧ Forall (λ c, startOfSession c = startOfSession c0) cs ∧
    ∀ c, last before = Some c → startOfSession c ≠ startOfSession c0.

Lemma SessionExecute_state req uc :
  match sessionOf req with
  | None => (SessionExecute req uc).1 = uc ∧ ∃ p, (SessionExecute req uc).2 = inl p
  | Some (key, (s, e)) => ∃ d, (SessionExecute req uc).1 =
      uc <| svp_states ::= <[key := stepped (svp_cfg uc) req d (sessionFor s e (cr_SeqFirst req) (svp_states uc !! key))]> |>
  end.
Proof.
  unfold sessionOf, SessionExecute. destruct (validateCandleRequest req) as [p|]; [by eauto|].
  destruct (ResolveSessionBounds _ _) as [p|[s e]]; [by eauto|]. set (key := sessionKey _ _ _). cbn zeta.
  destruct (negb _); [by exists true|]. destruct (buildSessionSnapshot _ _ _ _ _); [by exists true|].
  exists false. destruct uc as [cfg m]. cbn. unfold upd. cbn. by rewrite insert_insert_eq.
Qed.

Lemma candlesOf_snoc key reqs req : candlesOf key (reqs ++ [req]) =
  candlesOf key reqs ++ (if decide (fst <$> sessionOf req = Some key) then [req] else []).
Proof. unfold candlesOf. by rewrite filter_app, filter_cons, filter_nil. Qed.

Lemma covers_new cfg c s e : startOfSession c = s → endOfSession c = e → covers cfg c [] (MkSession ∅ f0 f0 0 (cr_SeqFirst c) 0 s e 0 false).
Proof. intros Hs He. split; try done. apply groups_nil. Qed.

(** What the use case holds after a run: of each partition, the current session. *)
Record sessionsInv (cfg : BuildSessionVolumeProfileConfig) (reqs : list BuildSessionVolumeProfileRequest) (uc : BuildSessionVolumeProfile) : Prop := {
  si_cfg : svp_cfg uc = cfg;
  si_states : ∀ key, match svp_states uc !! key with
    | None => candlesOf key reqs = []
    | Some ps => ∃ c0 cs, currentRun key reqs c0 cs ∧ covers cfg c0 cs ps
    end;
}.

(** A candle joins the current session, or starts it. *)
Lemma session_joined cfg reqs req d key s e ps0 :
  0 ≤ MaxBuckets cfg → sessionOf req = Some (key, (s, e)) →
  match ps0 with None => candlesOf key reqs = [] | Some ps => ∃ c0 cs, currentRun key reqs c0 cs ∧ covers cfg c0 cs ps end →
  ∃ c0 cs, currentRun key (reqs ++ [req]) c0 (cs ++ [req]) ∧ covers cfg c0 (cs ++ [req]) (stepped cfg req d (sessionFor s e (cr_SeqFirst req) ps0)).
Proof.
  intros Hmax Hreq Hps. assert (Hs : startOfSession req = s ∧ endOfSession req = e).
  { unfold startOfSession, endOfSession. by rewrite Hreq. }
  assert (Hcs : candlesOf key (reqs ++ [req]) = candlesOf key reqs ++ [req]).
  { rewrite candlesOf_snoc, decide_True; [done|]. by rewrite Hreq. }
  assert (Hnew : (∀ c, last (candlesOf key reqs) = Some c → startOfSession c ≠ s) →
    ∃ c0 cs, currentRun key (reqs ++ [req]) c0 (cs ++ [req]) ∧ covers cfg c0 (cs ++ [req]) (stepped cfg req d (MkSession ∅ f0 f0 0 (cr_SeqFirst req) 0 s e 0 false))).
  { intros Hlast. exists req, []. split; [|by apply (covers_step cfg req [] req); [|apply covers_new; apply Hs]]. exists (candlesOf key reqs). split_and!; [done|done|by repeat constructor|].
    destruct Hs as [-> _]. done. }
  destruct ps0 as [ps|]; [|apply Hnew; by rewrite Hps]. cbn [sessionFor].
  destruct Hps as (c0 & cs & (before & Heq & Hhd & Hall & Hbef) & Hc).
  pose proof (cv_start _ _ _ _ Hc) as Hst. destruct (Z.eqb_spec s (windowStart ps)) as [Hsame|Hdiff].
  - exists c0, cs. split; [|by apply covers_step]. exists before. split_and!; [by rewrite Hcs, Heq, app_assoc|by destruct cs| |done].
    apply Forall_app. split; [done|]. constructor; [|done]. destruct Hs. congruence.
  - apply Hnew. intros c Hlast. destruct cs as [|x cs _] using rev_ind; [done|]. rewrite Heq, app_assoc, last_snoc in Hlast.
    injection Hlast as <-. apply Forall_app in Hall as [_ Hx]. inversion_clear Hx. congruence.
Qed.

Lemma session_step cfg reqs req uc :
  0 ≤ MaxBuckets cfg → sessionsInv cfg reqs uc → sessionsInv cfg (reqs ++ [req]) (SessionExecute req uc).1.
Proof.
  intros Hmax [Hcfg Hst]. pose proof (SessionExecute_state req uc) as Hex. destruct (sessionOf req) as [[key [s e]]|] eqn:Hreq.
  - destruct Hex as [d ->]. rewrite Hcfg. split; [done|]. intros key'. cbn. unfold upd.
    destruct (decide (key = key')) as [<-|Hne].
    + rewrite lookup_insert_eq. destruct (session_joined cfg reqs req d key s e (svp_states uc !! key) Hmax Hreq (Hst key)) as (c0 & cs & ? & ?).
      eauto.
    + rewrite lookup_insert_ne by done. unfold currentRun. rewrite candlesOf_snoc, Hreq, decide_False, app_nil_r by (cbn; congruence). apply Hst.
  - destruct Hex as [-> _]. split; [done|]. intros key. unfold currentRun. rewrite candlesOf_snoc, Hreq, decide_False, app_nil_r by done. apply Hst.
Qed.

Lemma session_run config reqs :
  let uc0 := NewBuildSessionVolumeProfileWithConfig config in sessionsInv (svp_cfg uc0) reqs (runCandles reqs uc0).
Proof.
  intros uc0. unfold runCandles. induction reqs as [|req reqs IH] using rev_ind.
  - split; [done|]. intros key. cbn. by rewrite lookup_empty.
  - rewrite foldl_app. apply session_step; [|done]. cbn. pose proof (orDefault_pos (MaxBuckets config) SVPCapBuckets). unfold SVPCapBuckets in *. lia.
Qed.
(** What a built snapshot says of the partition. *)
Record reports (ps : svpPartitionState) (s : SessionVolumeProfileV1) : Prop := {
  rp_valid : SessionProfile_Validate s = None;
  rp_levels : sp_Buckets s ≡ₚ toBucket <$> (map_to_list (svp_buckets ps)).*2;
  rp_area : ComputeValueArea (sp_Buckets s) (ComputePOC (sp_Buckets s)).2 SVPValueAreaPct = Some (sp_ValueAreaHigh s, sp_ValueAreaLow s);
  rp_total : sp_TotalVolume s = fadd (totalBuy ps) (totalSell ps);
  rp_sides : sp_BuyVolume s = totalBuy ps ∧ sp_SellVolume s = totalSell ps ∧ sp_TradeCount s = tradeCount ps;
  rp_window : sp_WindowStartTs s = windowStart ps ∧ sp_WindowEndTs s = windowEnd ps;
  rp_seq : sp_SeqFirst s = seqFirst ps ∧ sp_SeqLast s = seqLast ps;
}.

Lemma cap_keeps_all l max : 0 < max → Z.of_nat (length l) ≤ max → capVPVRLevelsByVolume l max ≡ₚ l.
Proof.
  intros Hmax Hlen. unfold capVPVRLevelsByVolume. assert (Hp : sortVPVRBucketsByPrice l ≡ₚ l) by apply sort_slice_perm.
  rewrite Hp. destruct (Z.leb_spec max 0); [lia|]. destruct (Z.leb_spec (Z.of_nat (length l)) max); [|lia]. exact Hp.
Qed.

Lemma buildSession_reports cfg v i anchor ps s :
  0 < MaxBuckets cfg → Z.of_nat (base.size (svp_buckets ps)) ≤ MaxBuckets cfg →
  buildSessionSnapshot cfg v i anchor ps = inr s → reports ps s.
Proof.
  intros Hmax Hsize. unfold buildSessionSnapshot.
  set (all := toBucket <$> (map_to_list (svp_buckets ps)).*2).
  assert (Hl : SortFunc comparePriceLow (capVPVRLevelsByVolume (toBucket <$> (map_range (svp_buckets ps)).*2) (MaxBuckets cfg)) ≡ₚ all).
  { unfold SortFunc. rewrite sort_slice_perm, cap_keeps_all; [|done|]; [|by rewrite !length_fmap, map_range_perm, length_map_to_list].
    unfold all. by rewrite map_range_perm. }
  destruct (_ =? 0); [done|]. set (l := SortFunc _ _) in *. destruct (ComputePOC l) as [poc idx] eqn:Hpoc.
  destruct (ComputeValueArea l idx SVPValueAreaPct) as [[vah val]|] eqn:Harea; [|done].
  destruct (SessionProfile_Validate _) eqn:Hv; [done|]. intros [= <-]. split; try done. cbn. by rewrite Hpoc.
Qed.

Lemma covers_size cfg c0 cs ps : 0 ≤ MaxBuckets cfg → covers cfg c0 cs ps → Z.of_nat (base.size (svp_buckets ps)) ≤ MaxBuckets cfg.
Proof.
  intros Hmax Hc. rewrite (groups_size _ _ candleSummary_some _ _ _ (cv_buckets _ _ _ _ Hc)), length_take. lia.
Qed.

(** The answer to a candle that is taken, in terms of the state it leaves. *)
Lemma SessionExecute_answer req uc key b resp :
  sessionOf req = Some (key, b) → (SessionExecute req uc).2 = inr resp →
  ∃ ps, svp_states (SessionExecute req uc).1 !! key = Some ps ∧
    sr_Emitted resp = (Z.rem (eventCount ps) (EmitCadence (svp_cfg uc)) =? 0) ∧
    (sr_Emitted resp = true → ∃ s v i ps', sr_Snapshot resp = Some s ∧ buildSessionSnapshot (svp_cfg uc) v i (cr_Anchor req) ps' = inr s ∧
       ps = ps' <| dirty := false |>).
Proof.
  unfold sessionOf, SessionExecute. destruct (validateCandleRequest req) as [p|]; [done|].
  destruct (ResolveSessionBounds _ _) as [p|[s e]]; [done|]. intros [= <- <-]. cbn zeta. cbn [svp_cfg upd].
  set (ps := (applyCandleToBuckets _ _ _) <| eventCount ::= _ |> <| dirty := true |>).
  change (svp_cfg (uc <| svp_states ::= _ |>)) with (svp_cfg uc).
  destruct (Z.rem (eventCount ps) (EmitCadence (svp_cfg uc)) =? 0) eqn:Hrem; cbn [negb].
  - destruct (buildSessionSnapshot _ _ _ _ _) as [p|snap] eqn:Hb; [done|]. intros [= <-]. exists (ps <| dirty := false |>).
    split_and!; [by cbn; unfold upd; cbn; rewrite lookup_insert_eq|by rewrite <- Hrem|]. intros _. eauto 8.
  - intros [= <-]. exists ps. split_and!; [by cbn; unfold upd; cbn; rewrite lookup_insert_eq|by rewrite <- Hrem|done].
Qed.

(** A candle whose range is within one bin: its low, its high and its typical price
    are in the same one. *)
Definition narrow (c : BuildSessionVolumeProfileRequest) : Prop :=
  ∃ k, AssignVPVRBucket (cr_Low c) (cr_TickSize c) = inr k ∧ AssignVPVRBucket (cr_High c) (cr_TickSize c) = inr k ∧ candleRange c = Some k.

(** What the partition holds in total of candles none of which was left out. *)
Record tallies (c0 : BuildSessionVolumeProfileRequest) (cs : list BuildSessionVolumeProfileRequest) (ps : svpPartitionState) : Prop := {
  ta_buy : totalBuy ps = sumOf cr_BuyVolume cs;
  ta_sell : totalSell ps = sumOf cr_SellVolume cs;
  ta_trades : tradeCount ps = foldl (λ n c, add64 n (cr_TradeCount c)) 0 cs;
  ta_first : seqFirst ps = leastFirst (cr_SeqFirst c0) cs;
  ta_last : seqLast ps = greatestLast 0 cs;
}.
Lemma covers_tallies cfg c0 cs ps :
  covers cfg c0 cs ps → counted candleRange (Z.to_nat (MaxBuckets cfg)) cs = cs → tallies c0 cs ps.
Proof. intros [_ Hb Hs Ht Hf Hl _ _ _] Hall. rewrite Hall in *. by split. Qed.

(** C25: When a candle is taken (Execute succeeds), the session profile covers the
    current session: the candles of the partition since the session last changed. It
    has the bounds of that session and, when no candle was left out for want of a
    bucket, the totals, trade count and number range of all its candles. When every
    candle of the session lies within one bin, it has a bucket for each of the first
    price ranges with the volumes of all its candles. It is answered at each candle
    whose number in the session is a multiple of the cadence, and at no other that
    does not start a session; it is valid then, and says what the partition holds. *)
Theorem session_profile_covers_current_session config reqs req resp :
  let uc0 := NewBuildSessionVolumeProfileWithConfig config in
  let cfg := svp_cfg uc0 in
  (SessionExecute req (runCandles reqs uc0)).2 = inr resp →
  ∃ key c0 cs ps, fst <$> sessionOf req = Some key ∧
    svp_states (runCandles (reqs ++ [req]) uc0) !! key = Some ps ∧
    currentRun key (reqs ++ [req]) c0 cs ∧
    windowStart ps = startOfSession c0 ∧ windowEnd ps = endOfSession c0 ∧
    (counted candleRange (Z.to_nat (MaxBuckets cfg)) cs = cs → tallies c0 cs ps) ∧
    (Forall narrow cs → covers cfg c0 cs ps) ∧
    let onCadence := Z.rem (wrap64 (Z.of_nat (length cs))) (EmitCadence cfg) =? 0 in
    (onCadence = true → sr_Emitted resp = true) ∧ ((1 < length cs)%nat → sr_Emitted resp = onCadence) ∧
    (sr_Emitted resp = true → ∃ s, sr_Snapshot resp = Some s ∧ reports ps s).
Proof.
  intros uc0 cfg Hrun. pose proof (session_run config (reqs ++ [req])) as [Hcfg Hst]. fold uc0 cfg in Hcfg, Hst.
  assert (Hrun' : runCandles (reqs ++ [req]) uc0 = (SessionExecute req (runCandles reqs uc0)).1) by (unfold runCandles; by rewrite foldl_app).
  assert (Hmax : 0 < MaxBuckets cfg). { apply orDefault_pos. done. }
  pose proof (si_cfg _ _ _ (session_run config reqs)) as Hcfg0. fold uc0 cfg in Hcfg0.
  destruct (sessionOf req) as [[key b]|] eqn:Hreq.
  2: { pose proof (SessionExecute_state req (runCandles reqs uc0)) as Hex. rewrite Hreq in Hex. destruct Hex as [_ [p Hp]]. congruence. }
  destruct (SessionExecute_answer _ _ _ _ _ Hreq Hrun) as (ps & Hps & Hem & Hsnap). rewrite Hcfg0 in Hem, Hsnap.
  specialize (Hst key). rewrite Hrun', Hps in Hst. destruct Hst as (c0 & cs & Hcur & Hcov).
  exists key, c0, cs, ps. split_and!; [done|by rewrite Hrun'|done|apply Hcov|apply Hcov|by apply (covers_tallies cfg)|done|].
  intros onCadence. rewrite (cv_count _ _ _ _ Hcov) in Hem. fold onCadence in Hem. split_and!; [by rewrite Hem|by rewrite Hem|].
  intros He. destruct (Hsnap He) as (s & v & i & ps' & Hs & Hb & ->). exists s. split; [done|].
  assert (Hsz : Z.of_nat (base.size (svp_buckets ps')) ≤ MaxBuckets cfg) by exact (covers_size _ _ _ _ (Z.lt_le_incl _ _ Hmax) Hcov).
  destruct (buildSession_reports cfg v i (cr_Anchor req) ps' s Hmax Hsz Hb). by split.
Qed.
End run.

(** ** The bounds of sessions *)

Section bounds.
Context {GR : GoRuntime} {TZ : TimeZones}.

(** The opening: the greatest instant not after [t] that is an opening hour. *)
Lemma opening_spec o t : 0 ≤ o < dayMs →
  let open := t / dayMs * dayMs + o in
  let s := if t <? open then open - dayMs else open in
  s ≤ t < s + dayMs ∧ ∃ d, s = d * dayMs + o.
Proof.
  intros Ho open s. pose proof (Z.div_mod t dayMs ltac:(done)). pose proof (Z.mod_pos_bound t dayMs ltac:(done)).
  unfold s, open, dayMs in *. destruct (Z.ltb_spec t (t / 86400000 * 86400000 + o)); (split; [lia|]).
  - exists (t / 86400000 - 1). lia.
  - exists (t / 86400000). lia.
Qed.

Definition openOf (a : SessionAnchor) : Z := OpenHour a * 3600000 + OpenMinute a * 60000.

Lemma utc_session a t :
  0 ≤ openOf a < dayMs → 0 < DurationMs a ≤ dayMs → 0 < t < 2 ^ 62 + dayMs →
  ∃ s, resolveTimezoneSession a (utcDate t (OpenHour a) (OpenMinute a)) utcDayBefore t = (s, s + DurationMs a) ∧
    s ≤ t < s + dayMs ∧ ∃ d, s = d * dayMs + openOf a.
Proof.
  intros Ho Hd Ht. pose proof (opening_spec (openOf a) t Ho) as Hspec. cbn zeta in Hspec.
  assert (Hopen : utcDate t (OpenHour a) (OpenMinute a) = t / dayMs * dayMs + openOf a) by (unfold utcDate, openOf; lia).
  rewrite Hopen. set (open := t / dayMs * dayMs + openOf a) in *. destruct Hspec as [Hs Hmod]. unfold resolveTimezoneSession, utcDayBefore.
  assert (Hb : -(2 ^ 62) < open < 2 ^ 63 - 2 * dayMs) by (clearbody open; unfold dayMs in *; destruct (t <? open); lia).
  assert (Hsum : ∀ x, x ≤ open → open - dayMs ≤ x → add64 x (DurationMs a) = x + DurationMs a).
  { intros x Hx Hx'. unfold add64. apply wrap64_id. unfold in_i64, MinInt64, MaxInt64, dayMs in *. lia. }
  destruct (Z.ltb_spec t open) as [Hlt|Hge].
  - exists (open - dayMs). rewrite (proj2 (Z.leb_gt open t)) by lia. cbn [andb].
    rewrite Hsum; [|unfold dayMs; lia|unfold dayMs; lia]. done.
  - exists open. rewrite (Hsum open) by (unfold dayMs; lia). destruct (_ && _); done.
Qed.

Lemma custom_session a t :
  0 < DurationMs a ≤ dayMs → 0 < t < 2 ^ 62 + dayMs →
  let s := t / DurationMs a * DurationMs a in
  mul64 (quot64 t (DurationMs a)) (DurationMs a) = s ∧ add64 s (DurationMs a) = s + DurationMs a ∧ s ≤ t < s + DurationMs a.
Proof.
  intros Hd Ht s. pose proof (Z.div_mod t (DurationMs a) ltac:(lia)). pose proof (Z.mod_pos_bound t (DurationMs a) ltac:(lia)).
  assert (Hq : 0 ≤ t / DurationMs a ≤ t) by (split; [apply Z.div_pos|apply Z.div_le_upper_bound]; nia).
  assert (Hs : s ≤ t < s + DurationMs a) by (unfold s; lia). assert (0 ≤ s) by (unfold s; nia).
  assert (Hr : in_i64 (t / DurationMs a) ∧ in_i64 s ∧ in_i64 (s + DurationMs a)) by (unfold in_i64, MinInt64, MaxInt64, dayMs in *; lia).
  unfold mul64, add64, quot64. rewrite Z.quot_div_nonneg, (wrap64_id (t / _)) by (lia || apply Hr). fold s. by rewrite !wrap64_id by apply Hr.
Qed.

(** The sessions of an anchor in UTC and of a custom one of at most a day: the start
    is not after the instant, and every other instant of the session has the
    same bounds, so candles of one session meet in one profile. The instant is in
    its session, but for a UTC anchor it may come after the end of it. *)
Theorem session_bounds_agree a t s e t' :
  (anchor_Kind a = SessionAnchorUTC ∧ 0 ≤ openOf a < dayMs ∨ anchor_Kind a = SessionAnchorCustom) →
  DurationMs a ≤ dayMs → t < 2 ^ 62 → ResolveSessionBounds a t = inr (s, e) →
  s ≤ t ∧ e = s + DurationMs a ∧ (anchor_Kind a = SessionAnchorCustom → t < e) ∧ t < s + dayMs ∧
  (s ≤ t' → 0 < t' < e → ResolveSessionBounds a t' = inr (s, e)).
Proof.
  intros Hk Hd Ht. unfold ResolveSessionBounds. destruct (Z.leb_spec t 0) as [|Hpos]; [done|].
  destruct (Anchor_Validate a) eqn:Hval; [done|].
  assert (Hdur : 0 < DurationMs a).
  { unfold Anchor_Validate in Hval. destruct (blank (Label a)); [done|].
    destruct Hk as [[Hk _]|Hk]; rewrite Hk in Hval; destruct (Z.leb_spec (DurationMs a) 0); done. }
  destruct Hk as [[Hk Ho]|Hk]; rewrite Hk.
  - destruct (utc_session a t Ho (conj Hdur Hd)) as (s0 & -> & Hs & d & Hmod); [unfold dayMs; lia|]. intros [= <- <-].
    split_and!; try lia; [done|]. intros Hle Ht'. destruct (Z.leb_spec t' 0); [lia|].
    destruct (utc_session a t' Ho (conj Hdur Hd)) as (s1 & -> & Hs1 & d1 & Hmod1); [lia|].
    assert (d1 = d) by (unfold dayMs in *; lia). repeat f_equal; subst; lia.
  - destruct (custom_session a t (conj Hdur Hd)) as (-> & -> & Hs); [unfold dayMs; lia|]. intros [= <- <-].
    split_and!; try lia. intros Hle Ht'. destruct (Z.leb_spec t' 0); [lia|].
    destruct (custom_session a t' (conj Hdur Hd)) as (-> & -> & Hs'); [lia|].
    assert (Hq : t' / DurationMs a = t / DurationMs a) by nia. by rewrite Hq.
Qed.
End bounds.

(** ** Examples *)

(** No zone is known: enough for anchors in UTC and custom ones. *)
Definition noZones : TimeZones :=
  {| Location := Empty_set; LoadLocation := λ _, None; dateIn := λ _ _ _ _, 0; dayBeforeIn := λ _ t, t |}.

Section examples.
#[local] Existing Instance go_amd64.
#[local] Existing Instance noZones.

Definition fourHours : SessionAnchor := MkAnchor SessionAnchorCustom "CRYPTO_4H" "UTC" 0 0 14400000.
Definition asia : SessionAnchor := MkAnchor SessionAnchorUTC "ASIA" "UTC" 0 0 28800000.
Definition candleAt (p vol : Z) (ts n : Z) : BuildSessionVolumeProfileRequest :=
  MkCandleRequest "binance" "BTC-USDT" fourHours (flit 1 100) (f_of_Z p) (f_of_Z p) (f_of_Z p) (f_of_Z p) (f_of_Z vol) f0 1 ts n n.
Definition sessionStart (key : string) (uc : BuildSessionVolumeProfile) : option (Z * Z) :=
  (λ ps, (windowStart ps, eventCount ps)) <$> svp_states uc !! key.

(** At eight in the evening the bounds of the session from midnight to eight in the
    morning are given, though it ended twelve hours before. *)
Theorem closed_session_is_given : ResolveSessionBounds asia (86400000 + 72000000) = inr (86400000, 115200000).
Proof. by vm_compute. Qed.

(** Four candles of a session and one of the next: the profile of the first session
    is gone, and no answer had it. *)
Theorem rolled_session_is_never_emitted :
  let cs := [candleAt 100 1 14400000 1; candleAt 101 1 14460000 2; candleAt 102 1 14520000 3; candleAt 103 1 14580000 4] in
  let next := candleAt 104 1 28800000 5 in
  Forall (λ n, match (SessionExecute (nth n cs next) (runCandles (take n cs) NewBuildSessionVolumeProfile)).2 with
               | inr resp => sr_Emitted resp = false | inl _ => False end) [0; 1; 2; 3; 4]%nat ∧
  sessionStart "BINANCE|BTCUSDT|CRYPTO_4H" (runCandles (cs ++ [next]) NewBuildSessionVolumeProfile) = Some (28800000, 1).
Proof.
  intros cs next. split; [|by vm_compute]. repeat (apply Forall_cons; split; [by vm_compute|]). by apply Forall_nil.
Qed.

(** The volume of a candle that ranges from 100 to 200 is put in one bin. *)
Definition wideCandle : BuildSessionVolumeProfileRequest :=
  MkCandleRequest "binance" "BTC-USDT" fourHours (flit 1 100) (f_of_Z 100) (f_of_Z 200) (f_of_Z 100) (f_of_Z 200) (f_of_Z 7) f0 1 14400000 1 1.
Theorem wide_candle_has_one_bucket :
  match svp_states (runCandles [wideCandle] NewBuildSessionVolumeProfile) !! "BINANCE|BTCUSDT|CRYPTO_4H" with
  | Some ps => base.size (svp_buckets ps) = 1%nat ∧ feqb (totalBuy ps) (f_of_Z 7) = true
  | None => False
  end.
Proof. by vm_compute. Qed.

(** A late candle of the session before replaces the current session. *)
Theorem late_candle_discards_session :
  sessionStart "BINANCE|BTCUSDT|CRYPTO_4H"
    (runCandles [candleAt 100 1 28800000 1; candleAt 100 1 28860000 2; candleAt 100 1 14400000 3] NewBuildSessionVolumeProfile) = Some (14400000, 1).
Proof. by vm_compute. Qed.

(** Without volume the bounds of the value area are swapped, and the profile fails its
    own validation. *)
Theorem zero_volume_session_is_refused :
  match (SessionExecute (candleAt 100 0 14640000 5)
           (runCandles [candleAt 100 0 14400000 1; candleAt 100 0 14460000 2; candleAt 100 0 14520000 3; candleAt 100 0 14580000 4]
              NewBuildSessionVolumeProfile)).2 with
  | inl p => p = New ValidationFailed "session vp value area bounds are invalid"
  | inr _ => False
  end.
Proof. by vm_compute. Qed.

Definition threeAreas : list VolumeProfileBucketV1 :=
  let b lo v := MkBucket (f_of_Z lo) (f_of_Z (lo + 1)) (f_of_Z v) f0 (f_of_Z v) 1 1 in [b 100 1; b 101 9; b 102 4; b 103 2].
Lemma value_area_is_tight_witness :
  let target := fmul (totalVolume threeAreas) SVPValueAreaPct in
  ∃ path lo hi bottom top,
    ComputeValueArea threeAreas 1 SVPValueAreaPct = Some (PriceHigh top, PriceLow bottom) ∧
    threeAreas !! lo = Some bottom ∧ threeAreas !! hi = Some top ∧ areaWalk threeAreas target 1 path lo hi ∧
    (fltb (volumeOf threeAreas path) target = false ∨ (lo = 0 ∧ S hi = length threeAreas)%nat).
Proof. apply (value_area_is_tight threeAreas 1 SVPValueAreaPct); [cbn; lia|by vm_compute]. Defined.

Lemma session_bounds_agree_witness :
  86400000 ≤ 90000000 ∧ ResolveSessionBounds asia 100000000 = inr (86400000, 115200000).
Proof.
  destruct (session_bounds_agree asia 90000000 86400000 115200000 100000000) as (H1 & _ & _ & _ & H).
  - left. split; [done|]. unfold openOf, dayMs. cbn. lia.
  - unfold dayMs. cbn. lia.
  - lia.
  - by vm_compute.
  - split; [exact H1|]. apply H; lia.
Defined.

Lemma currentRun_narrow key reqs c0 cs : currentRun key reqs c0 cs → Forall narrow reqs → Forall narrow cs.
Proof.
  intros (before & Heq & _). rewrite !Forall_forall. intros Hall c Hc. apply Hall.
  assert (Hin : c ∈ candlesOf key reqs) by (rewrite Heq; set_solver). by apply list_elem_of_filter in Hin as [_ ?].
Qed.
Definition narrowb (c : BuildSessionVolumeProfileRequest) : bool :=
  match AssignVPVRBucket (cr_Low c) (cr_TickSize c), AssignVPVRBucket (cr_High c) (cr_TickSize c), candleRange c with
  | inr k, inr k', Some k'' => bool_decide (k = k') && bool_decide (k = k'')
  | _, _, _ => false
  end.
Lemma narrowb_narrow cs : forallb narrowb cs = true → Forall narrow cs.
Proof.
  rewrite forallb_forall, Forall_forall. intros Hall c Hc%list_elem_of_In. specialize (Hall c Hc). unfold narrowb in Hall. unfold narrow.
  destruct (AssignVPVRBucket (cr_Low c) _) as [|k]; [discriminate Hall|].
  destruct (AssignVPVRBucket (cr_High c) _) as [|k']; [discriminate Hall|]. destruct (candleRange c) as [k''|]; [|discriminate Hall].
  apply andb_prop in Hall as [->%bool_decide_eq_true H2%bool_decide_eq_true]. exists k'. by subst.
Qed.

Lemma session_profile_covers_current_session_witness :
  let reqs := [candleAt 99 1 14400000 1; candleAt 100 1 28800000 2; candleAt 101 1 28860000 3; candleAt 100 1 28920000 4; candleAt 103 1 28980000 5] in
  let req := candleAt 100 3 29040000 6 in
  ∃ key c0 cs ps, fst <$> sessionOf req = Some key ∧
    svp_states (runCandles (reqs ++ [req]) NewBuildSessionVolumeProfile) !! key = Some ps ∧
    currentRun key (reqs ++ [req]) c0 cs ∧ windowStart ps = startOfSession c0 ∧
    covers (svp_cfg NewBuildSessionVolumeProfile) c0 cs ps ∧ ∃ s, reports ps s.
Proof.
  intros reqs req.
  destruct (SessionExecute req (runCandles reqs NewBuildSessionVolumeProfile)).2 as [p|resp] eqn:Hrun.
  { exfalso. assert (Hok : match (SessionExecute req (runCandles reqs NewBuildSessionVolumeProfile)).2 with inl _ => 0 | inr _ => 1 end = 1) by by vm_compute.
    by rewrite Hrun in Hok. }
  assert (Hem : match (SessionExecute req (runCandles reqs NewBuildSessionVolumeProfile)).2 with inr r => sr_Emitted r | inl _ => false end = true)
    by by vm_compute.
  rewrite Hrun in Hem.
  destruct (session_profile_covers_current_session (MkSVPConfig 0 0) reqs req resp Hrun) as (key & c0 & cs & ps & Hk & Hps & Hcur & Hws & _ & _ & Hcov & _ & _ & Hs).
  destruct (Hs Hem) as (s & _ & Hrep). exists key, c0, cs, ps. split_and!; [exact Hk|exact Hps|exact Hcur|exact Hws| |exists s; exact Hrep].
  apply Hcov. apply (currentRun_narrow _ _ _ _ Hcur), narrowb_narrow. by vm_compute.
Defined.
End examples.
