(* ===== verification/CrossVenueTrades.v ===== *)
(** * CrossVenueTrades: internal/core/insights/app/join_crossvenue_trades.go

    The join of the latest trades of the venues of an instrument, with the snapshot
    of domain/crossvenue_trade_snapshot.go. The state of an instrument sits behind a
    pointer in a bounded map; [Execute] writes it only before it puts the pointer
    back under its key, so the map holds the states themselves. The clock is a
    parameter, [clk n] its [n]-th reading in nanoseconds: every operation of the map
    reads it once. *)

From S2P Require Import Prelude GoRuntime Shared BoundedMap Insights.

Local Open Scope string_scope.
Local Open Scope list_scope.
Local Open Scope Z_scope.

(** ** crossvenue_trade_snapshot.go *)

Record JoinKey := MkJoinKey { jk_Instrument : string; jk_MarketType : string }.
#[export] Instance JoinKey_eq_dec : EqDecision JoinKey.
Proof. solve_decision. Defined.
#[export] Instance JoinKey_countable : Countable JoinKey.
Proof. by apply (inj_countable' (λ k, (jk_Instrument k, jk_MarketType k)) (λ '(i, m), MkJoinKey i m)); intros []. Defined.

Record LastTrade := MkLastTrade {
  lt_Venue : string; lt_Price : float64; lt_Size : float64; lt_Side : string; lt_TradeID : string;
  lt_TsExchange : Z; lt_TsIngest : Z; lt_Seq : Z; lt_IdempotencyKey : string;
}.

Record SnapshotVenueTradeV1 := MkVenueRow {
  vr_Venue : string; vr_Price : float64; vr_Size : float64; vr_Side : string; vr_TradeID : string;
  vr_TsExchange : Z; vr_TsIngest : Z; vr_Seq : Z;
}.

Record CrossVenueTradeSnapshotV1 := MkTradeSnapshot {
  cv_Instrument : string; cv_MarketType : string; WatermarkTsIngest : Z; Venues : list SnapshotVenueTradeV1;
  MinPrice : float64; MinPriceVenue : string; MaxPrice : float64; MaxPriceVenue : string;
  SpreadAbs : float64; SpreadBps : float64; MidPrice : float64;
}.

Record CrossVenueSpreadSignalV1 := MkSpreadSignal {
  ss_Instrument : string; ss_MarketType : string; ss_WatermarkTsIngest : Z;
  ss_MinPrice : float64; ss_MinPriceVenue : string; ss_MaxPrice : float64; ss_MaxPriceVenue : string;
  ss_SpreadAbs : float64; ss_SpreadBps : float64;
}.

Definition HasMarketType (k : JoinKey) : bool := negb (str_eqb (jk_MarketType k) "").

Section snapshot.
Context {GR : GoRuntime}.

Definition NewJoinKey (instrument marketType : string) : Problem + JoinKey :=
  let inst := CanonicalInstrument instrument in
  if str_eqb inst "" then inl (New ValidationFailed "instrument must not be empty")
  else inr (MkJoinKey inst (CanonicalVenue marketType)).

Definition validateSnapshotDerivedFields (s : CrossVenueTradeSnapshotV1) : option Problem :=
  if blank (MinPriceVenue s) then refuse "snapshot min_price_venue must not be empty"
  else if blank (MaxPriceVenue s) then refuse "snapshot max_price_venue must not be empty"
  else if negb (isFinite (MinPrice s)) || negb (isFinite (MaxPrice s)) || negb (isFinite (SpreadAbs s))
          || negb (isFinite (SpreadBps s)) || negb (isFinite (MidPrice s))
  then refuse "snapshot derived price fields must be finite numbers"
  else if fltb (SpreadAbs s) f0 then refuse "snapshot spread_abs must be >= 0"
  else if fltb (MaxPrice s) (MinPrice s) then refuse "snapshot max_price must be >= min_price"
  else None.

(** The loop over the rows: [seen] has the venues before, in order. *)
Fixpoint rowsLoop (rows : list SnapshotVenueTradeV1) (seen : list string) : Problem + list string :=
  match rows with
  | [] => inr seen
  | row :: rest =>
      let v := CanonicalVenue (vr_Venue row) in
      if str_eqb v "" then inl (New ValidationFailed "snapshot venue must not be empty")
      else if bool_decide (v ∈ seen) then inl (Newf ValidationFailed "duplicate snapshot venue %q" [AnyStr v])
      else rowsLoop rest (seen ++ [v])
  end.
(** [slices.IsSorted] *)
Fixpoint isSorted (l : list string) : bool :=
  match l with
  | a :: ((b :: _) as rest) => negb (str_ltb b a) && isSorted rest
  | _ => true
  end.
Definition validateSnapshotVenueRows (rows : list SnapshotVenueTradeV1) : option Problem :=
  match rowsLoop rows [] with
  | inl p => Some p
  | inr venues => if negb (isSorted venues) then refuse "snapshot venues must be sorted lexicographically" else None
  end.

Definition TradeSnapshot_Validate (s : CrossVenueTradeSnapshotV1) : option Problem :=
  if blank (cv_Instrument s) then refuse "snapshot instrument must not be empty"
  else if WatermarkTsIngest s <=? 0 then refuse "snapshot watermark_ts_ingest must be positive"
  else if Z.of_nat (length (Venues s)) <? 2 then refuse "snapshot requires at least two venues"
  else match validateSnapshotDerivedFields s with
       | Some p => Some p
       | None => validateSnapshotVenueRows (Venues s)
       end.

Definition SpreadSignal_Validate (s : CrossVenueSpreadSignalV1) : option Problem :=
  if blank (ss_Instrument s) then refuse "spread signal instrument must not be empty"
  else if ss_WatermarkTsIngest s <=? 0 then refuse "spread signal watermark_ts_ingest must be positive"
  else if blank (ss_MinPriceVenue s) then refuse "spread signal min_price_venue must not be empty"
  else if blank (ss_MaxPriceVenue s) then refuse "spread signal max_price_venue must not be empty"
  else if negb (isFinite (ss_MinPrice s)) || negb (isFinite (ss_MaxPrice s)) || negb (isFinite (ss_SpreadAbs s))
          || negb (isFinite (ss_SpreadBps s))
  then refuse "spread signal price fields must be finite numbers"
  else if fltb (ss_SpreadAbs s) f0 then refuse "spread signal spread_abs must be >= 0"
  else if fltb (ss_MaxPrice s) (ss_MinPrice s) then refuse "spread signal max_price must be >= min_price"
  else None.
End snapshot.

(** ** join_crossvenue_trades.go *)

Record JoinCrossVenueTradesConfig := MkJoinConfig {
  MaxInstruments : Z; jc_TTL : Z; EnableSpreadSignal : bool; jc_MinVenues : Z; jc_MinSpreadBPS : float64;
  RoundingMode : string; jc_SweepEveryN : Z; jc_SweepEvery : Z;
}.

Record JoinCrossVenueTradesRequest := MkJoinRequest {
  jr_Venue : string; jr_Instrument : string; jr_MarketType : string; jr_Price : float64; jr_Size : float64;
  jr_Side : string; jr_TradeID : string; jr_TsExchange : Z; jr_TsIngest : Z; jr_Seq : Z; jr_IdempotencyKey : string;
}.

(** [SignalEmitted] is whether there is a signal. *)
Record JoinCrossVenueTradesResponse := MkJoinResponse {
  jn_Emitted : bool; jn_Snapshot : option CrossVenueTradeSnapshotV1; SpreadSignal : option CrossVenueSpreadSignalV1;
}.

Inductive spreadRoundingMode := spreadRoundingHalfEven | spreadRoundingFloor.
Definition derivedPriceDecimals : Z := 8.
Definition derivedBPSDecimals : Z := 4.

(** [instrumentState] *)
Abbreviation instrumentState := (gmap string LastTrade).

(** [clockReads] is how often the clock was read; [sweepCalls] counts the sweeps. *)
Record JoinCrossVenueTrades := MkJoin {
  join_states : BoundedMap JoinKey instrumentState; enableSignal : bool; minVenues : Z; minSpreadBPS : float64;
  roundingMode : spreadRoundingMode; sweepEveryN : Z; sweepEvery : Z; updates : Z; lastSweepMs : Z; sweepCalls : Z;
  clockReads : nat;
}.
#[export] Instance JoinCrossVenueTrades_eta : Eta JoinCrossVenueTrades := λ r,
  MkJoin (join_states r) (enableSignal r) (minVenues r) (minSpreadBPS r) (roundingMode r) (sweepEveryN r) (sweepEvery r)
    (updates r) (lastSweepMs r) (sweepCalls r) (clockReads r).

Definition cmpInt64 (a b : Z) : Z := if a <? b then -1 else if b <? a then 1 else 0.
Definition cmpFloat64 (a b : float64) : Z := if fltb a b then -1 else if fltb b a then 1 else 0.
(** [strings.Compare] *)
Definition strings_Compare (a b : string) : Z := if str_ltb a b then -1 else if str_ltb b a then 1 else 0.

Definition compareLastTrade (a b : LastTrade) : Z :=
  if negb (lt_Seq a =? lt_Seq b) then cmpInt64 (lt_Seq a) (lt_Seq b)
  else if negb (lt_TsIngest a =? lt_TsIngest b) then cmpInt64 (lt_TsIngest a) (lt_TsIngest b)
  else if negb (lt_TsExchange a =? lt_TsExchange b) then cmpInt64 (lt_TsExchange a) (lt_TsExchange b)
  else if negb (strings_Compare (lt_TradeID a) (lt_TradeID b) =? 0) then strings_Compare (lt_TradeID a) (lt_TradeID b)
  else if negb (strings_Compare (lt_Side a) (lt_Side b) =? 0) then strings_Compare (lt_Side a) (lt_Side b)
  else if negb (cmpFloat64 (lt_Price a) (lt_Price b) =? 0) then cmpFloat64 (lt_Price a) (lt_Price b)
  else if negb (cmpFloat64 (lt_Size a) (lt_Size b) =? 0) then cmpFloat64 (lt_Size a) (lt_Size b)
  else strings_Compare (lt_IdempotencyKey a) (lt_IdempotencyKey b).

Definition roundDeterministic (value : float64) (decimals : Z) (mode : spreadRoundingMode) : float64 :=
  if isNaN value || isInf value then value else
  let scale := Pow10 decimals in
  let scaled := fmul value scale in
  match mode with
  | spreadRoundingFloor => fdiv (Floor scaled) scale
  | spreadRoundingHalfEven => fdiv (RoundToEven scaled) scale
  end.

Definition rowOf (venue : string) (t : LastTrade) : SnapshotVenueTradeV1 :=
  MkVenueRow venue (lt_Price t) (lt_Size t) (lt_Side t) (lt_TradeID t) (lt_TsExchange t) (lt_TsIngest t) (lt_Seq t).

(** The loop for the least and the greatest price with their venues. *)
Definition priceStep (acc : float64 * string * float64 * string) (row : SnapshotVenueTradeV1) : float64 * string * float64 * string :=
  let '(minPrice, minVenue, maxPrice, maxVenue) := acc in
  let '(minPrice, minVenue) := if fltb (vr_Price row) minPrice then (vr_Price row, vr_Venue row) else (minPrice, minVenue) in
  let '(maxPrice, maxVenue) := if fltb maxPrice (vr_Price row) then (vr_Price row, vr_Venue row) else (maxPrice, maxVenue) in
  (minPrice, minVenue, maxPrice, maxVenue).

Definition buildSpreadSignal (s : CrossVenueTradeSnapshotV1) : CrossVenueSpreadSignalV1 :=
  MkSpreadSignal (cv_Instrument s) (cv_MarketType s) (WatermarkTsIngest s) (MinPrice s) (MinPriceVenue s) (MaxPrice s) (MaxPriceVenue s)
    (SpreadAbs s) (SpreadBps s).

(** [d.Milliseconds()] and [clock.NowUnixMilli()] of a reading. *)
Definition toMilliseconds (d : Z) : Z := Z.quot d 1000000.
Definition unixMilli (ns : Z) : Z := ns / 1000000.

Section join.
Context {GR : GoRuntime} (clk : nat → Z).

Abbreviation JoinM := (Meth JoinCrossVenueTrades Problem).

Definition parseSpreadRoundingMode (raw : string) : spreadRoundingMode :=
  if str_eqb (NormalizeSide raw) "floor" then spreadRoundingFloor else spreadRoundingHalfEven.

Definition NewJoinCrossVenueTradesWithConfig (cfg : JoinCrossVenueTradesConfig) : JoinCrossVenueTrades :=
  let maxInstruments := if MaxInstruments cfg <=? 0 then 10000 else MaxInstruments cfg in
  let ttl := if jc_TTL cfg <=? 0 then 3600 * 1000000000 else jc_TTL cfg in
  let mv := if jc_MinVenues cfg <? 2 then 2 else jc_MinVenues cfg in
  let bps := if fltb (jc_MinSpreadBPS cfg) f0 || isNaN (jc_MinSpreadBPS cfg) || isInf (jc_MinSpreadBPS cfg) then f0 else jc_MinSpreadBPS cfg in
  let n := if jc_SweepEveryN cfg <? 0 then 0 else jc_SweepEveryN cfg in
  let every := if jc_SweepEvery cfg <? 0 then 0 else jc_SweepEvery cfg in
  let states := SetOnEvict true (SetSweepMinInterval 0 (SetSweepEveryOps 0 (NewBoundedMap maxInstruments ttl (clk 0)))) in
  MkJoin states (EnableSpreadSignal cfg) mv bps (parseSpreadRoundingMode (RoundingMode cfg)) n every 0 (unixMilli (clk 1)) 0 2.

Definition NewJoinCrossVenueTrades : JoinCrossVenueTrades :=
  NewJoinCrossVenueTradesWithConfig (MkJoinConfig 10000 (3600 * 1000000000) false 2 f0 "half_even" 1024 (30 * 1000000000)).

(** A reading of the clock, and the operations of the map, one reading each. *)
Definition now : JoinM Z := λ uc, (uc <| clockReads ::= S |>, inr (clk (clockReads uc))).
Definition statesGet (key : JoinKey) : JoinM (option instrumentState) :=
  t ← now; uc ← recv;
  let '(m, r, _) := Get key t (join_states uc) in
  assign (λ uc, uc <| join_states := m |>) ;; mret r.
Definition statesPut (key : JoinKey) (st : instrumentState) : JoinM unit :=
  t ← now; assign (λ uc, uc <| join_states := (Put key st t (join_states uc)).1 |>).
Definition statesSweep : JoinM unit :=
  t ← now; assign (λ uc, uc <| join_states := (Sweep t (join_states uc)).1.1.1 |>).

Definition ActiveInstruments (uc : JoinCrossVenueTrades) : Z := Len (join_states uc).

(** The calls are one after another, so the compare-and-swap of the last sweep
    always succeeds. *)
Definition maybeSweep : JoinM unit :=
  uc ← recv;
  if 0 <? sweepEveryN uc then
    assign (λ uc, uc <| updates := wrapu64 (updates uc + 1) |>) ;;
    uc ← recv;
    if negb (updates uc mod sweepEveryN uc =? 0) then mret tt else
    statesSweep ;;
    assign (λ uc, uc <| sweepCalls := wrapu64 (sweepCalls uc + 1) |>) ;;
    t ← now; assign (λ uc, uc <| lastSweepMs := unixMilli t |>)
  else if sweepEvery uc <=? 0 then mret tt else
    t ← now;
    let nowMs := unixMilli t in
    if sub64 nowMs (lastSweepMs uc) <? toMilliseconds (sweepEvery uc) then mret tt else
    assign (λ uc, uc <| lastSweepMs := nowMs |>) ;;
    statesSweep ;;
    assign (λ uc, uc <| sweepCalls := wrapu64 (sweepCalls uc + 1) |>).

(** The metrics it sets are not part of the state. *)
Definition afterUpdate : JoinM unit := maybeSweep.

Definition getOrCreateState (key : JoinKey) : JoinM instrumentState :=
  existing ← statesGet key;
  match existing with
  | Some st => mret st
  | None => statesPut key ∅ ;; mret ∅
  end.

Definition validateRequest (req : JoinCrossVenueTradesRequest) : option Problem :=
  match Collect [NonEmptyString "venue" (jr_Venue req); NonEmptyString "instrument" (jr_Instrument req);
                 PositiveInt "ts_ingest" (jr_TsIngest req)] with
  | Some p => Some p
  | None =>
      if jr_Seq req <? 0 then Some (Newf ValidationFailed "seq must be >= 0, got %d" [AnyInt (jr_Seq req)])
      else if isNaN (jr_Price req) || isInf (jr_Price req) then refuse "price must be a finite number"
      else if isNaN (jr_Size req) || isInf (jr_Size req) then refuse "size must be a finite number"
      else None
  end.

(** [None] is the panic on [rows[0]] when there is no venue. *)
Definition buildTradeSnapshot (key : JoinKey) (watermark : Z) (byVenue : instrumentState) (mode : spreadRoundingMode)
    : option CrossVenueTradeSnapshotV1 :=
  let venues := sort_slice str_ltb (map_range byVenue).*1 in
  let rows := omap (λ v, rowOf v <$> byVenue !! v) venues in
  match rows with
  | [] => None
  | row0 :: rest =>
      let '(minPrice, minVenue, maxPrice, maxVenue) :=
        foldl priceStep (vr_Price row0, vr_Venue row0, vr_Price row0, vr_Venue row0) rest in
      let minPrice := roundDeterministic minPrice derivedPriceDecimals mode in
      let maxPrice := roundDeterministic maxPrice derivedPriceDecimals mode in
      let spreadAbs := roundDeterministic (fsub maxPrice minPrice) derivedPriceDecimals mode in
      let midPrice := roundDeterministic (fdiv (fadd maxPrice minPrice) (f_of_Z 2)) derivedPriceDecimals mode in
      let spreadBPS := if fltb f0 midPrice
                       then roundDeterministic (fmul (fdiv spreadAbs midPrice) (f_of_Z 10000)) derivedBPSDecimals mode else f0 in
      Some (MkTradeSnapshot (jk_Instrument key) (if HasMarketType key then jk_MarketType key else "") watermark rows
              minPrice minVenue maxPrice maxVenue spreadAbs spreadBPS midPrice)
  end.

Definition noRows : Problem := New Internal "index out of range [0] with length 0".

Definition lastTradeOf (req : JoinCrossVenueTradesRequest) : LastTrade :=
  MkLastTrade (CanonicalVenue (jr_Venue req)) (jr_Price req) (jr_Size req) (NormalizeSide (jr_Side req)) (TrimSpace (jr_TradeID req))
    (jr_TsExchange req) (jr_TsIngest req) (jr_Seq req) (TrimSpace (jr_IdempotencyKey req)).

Definition notEmitted : JoinCrossVenueTradesResponse := MkJoinResponse false None None.

Definition JoinExecute (req : JoinCrossVenueTradesRequest) : JoinM JoinCrossVenueTradesResponse :=
  check (validateRequest req) ;;
  key ← try_ (NewJoinKey (jr_Instrument req) (jr_MarketType req));
  state ← getOrCreateState key;
  let venue := CanonicalVenue (jr_Venue req) in
  let next := lastTradeOf req in
  let older := match state !! venue with Some prev => compareLastTrade next prev <=? 0 | None => false end in
  if older then statesPut key state ;; afterUpdate ;; mret notEmitted else
  let state := <[venue := next]> state in
  statesPut key state ;;
  if Z.of_nat (base.size state) <? 2 then afterUpdate ;; mret notEmitted else
  uc ← recv;
  snapshot ← try_ (match buildTradeSnapshot key (jr_TsIngest req) state (roundingMode uc) with Some s => inr s | None => inl noRows end);
  check (TradeSnapshot_Validate snapshot) ;;
  signal ← (if enableSignal uc && (minVenues uc <=? Z.of_nat (length (Venues snapshot))) && fleb (minSpreadBPS uc) (SpreadBps snapshot)
            then let signal := buildSpreadSignal snapshot in check (SpreadSignal_Validate signal) ;; mret (Some signal)
            else mret None);
  afterUpdate ;;
  mret (MkJoinResponse true (Some snapshot) signal).
End join.
