(* ===== verification/CrossVenueTradesSpec.v ===== *)
(** * CrossVenueTradesSpec: what the join of trades promises

    The order on trades of a venue, and the snapshot as the join of the latest trade
    of every venue of the instrument. *)

From S2P Require Import Prelude GoRuntime Shared BoundedMap Cells Insights VolumeProfile VolumeProfileSpec CrossVenueTrades.

Local Open Scope string_scope.
Local Open Scope list_scope.
Local Open Scope Z_scope.

(** ** The order on trades *)

(** The comparison that a strict order gives. *)
Definition cmpOf {A} (less : A → A → bool) (a b : A) : Z := if less a b then -1 else if less b a then 1 else 0.

Lemma cmpOf_lex {A} (l1 l2 : A → A → bool) a b :
  (l1 a b = true → l1 b a = false) → (l1 b a = true → l1 a b = false) →
  (if negb (cmpOf l1 a b =? 0) then cmpOf l1 a b else cmpOf l2 a b) = cmpOf (lex l1 l2) a b.
Proof. unfold cmpOf, lex. destruct (l1 a b), (l1 b a), (l2 a b), (l2 b a); naive_solver. Qed.

Definition bySeq (a b : LastTrade) : bool := lt_Seq a <? lt_Seq b.
Definition byIngest (a b : LastTrade) : bool := lt_TsIngest a <? lt_TsIngest b.
Definition byExchange (a b : LastTrade) : bool := lt_TsExchange a <? lt_TsExchange b.
Definition byText (f : LastTrade → string) (a b : LastTrade) : bool := str_ltb (f a) (f b).
Definition byFloat (f : LastTrade → float64) (a b : LastTrade) : bool := fltb (f a) (f b).

(** Newer trades are greater: by number, times, identifier, side, price, size and key. *)
Definition older : LastTrade → LastTrade → bool :=
  lex bySeq (lex byIngest (lex byExchange (lex (byText lt_TradeID) (lex (byText lt_Side)
    (lex (byFloat lt_Price) (lex (byFloat lt_Size) (byText lt_IdempotencyKey))))))).

Lemma cmpInt64_zero a b : (a =? b) = (cmpInt64 a b =? 0).
Proof. unfold cmpInt64. destruct (Z.ltb_spec a b), (Z.ltb_spec b a), (Z.eqb_spec a b); lia || done. Qed.
Lemma text_asym f a b : byText f a b = true → byText f b a = false.
Proof. apply (str_weak_order f [a; b]); set_solver. Qed.

Lemma compareLastTrade_older a b : compareLastTrade a b = cmpOf older a b.
Proof.
  unfold compareLastTrade, older. 
  rewrite (cmpInt64_zero (lt_Seq a)), (cmpInt64_zero (lt_TsIngest a)), (cmpInt64_zero (lt_TsExchange a)).
  rewrite <- cmpOf_lex by (unfold bySeq; lia). rewrite <- cmpOf_lex by (unfold byIngest; lia). rewrite <- cmpOf_lex by (unfold byExchange; lia).
  rewrite <- cmpOf_lex by apply text_asym. rewrite <- cmpOf_lex by apply text_asym.
  rewrite <- cmpOf_lex by apply fltb_asym. rewrite <- cmpOf_lex by apply fltb_asym. done.
Qed.

Definition comparableTrade (t : LastTrade) : Prop := isNaN (lt_Price t) = false ∧ isNaN (lt_Size t) = false.

Lemma older_weak_order l : Forall comparableTrade l → weak_order_on older l.
Proof.
  intros Hl. unfold older.
  repeat match goal with |- weak_order_on (lex _ _) _ => apply lex_weak_order end;
    [apply key_weak_order..|apply str_weak_order|apply str_weak_order| | |apply str_weak_order];
    (apply fltb_weak_order; eapply Forall_impl; [exact Hl|]; by intros t []).
Qed.

(** The newest of some trades. *)
Definition isLatest (t : LastTrade) (ts : list LastTrade) : Prop := t ∈ ts ∧ ∀ u, u ∈ ts → older t u = false.

Lemma latest_keeps t u ts : isLatest t ts → older t u = false → isLatest t (ts ++ [u]).
Proof. intros [Hin Hall] Hu. split; [set_solver|]. intros x [Hx| ->%list_elem_of_singleton]%elem_of_app; auto. Qed.
Lemma latest_new t u ts : Forall comparableTrade (u :: ts) → isLatest t ts → older t u = true → isLatest u (ts ++ [u]).
Proof.
  intros Hc [Hin Hall] Hu. destruct (older_weak_order _ Hc) as [As Nt]. split; [set_solver|].
  intros x [Hx| ->%list_elem_of_singleton]%elem_of_app.
  - destruct (older u x) eqn:Hux; [|done]. destruct (Nt u x t) as [H|H]; [set_solver..|done| |].
    + by rewrite (As t u) in H by set_solver.
    + by rewrite (Hall x Hx) in H.
  - destruct (older u u) eqn:H; [|done]. by rewrite (As u u) in H by set_solver.
Qed.
Lemma latest_single u : comparableTrade u → isLatest u [u].
Proof.
  intros Hc. destruct (older_weak_order [u]) as [As _]; [by constructor|]. split; [set_solver|]. intros x ->%list_elem_of_singleton.
  destruct (older u u) eqn:H; [|done]. by rewrite (As u u) in H by set_solver.
Qed.

(** The newest trade of every venue. *)
Definition ofVenue (v : string) (ts : list LastTrade) : list LastTrade := filter (λ t, lt_Venue t = v) ts.
Definition latestPerVenue (ts : list LastTrade) (m : instrumentState) : Prop :=
  ∀ v, match m !! v with Some t => isLatest t (ofVenue v ts) | None => ofVenue v ts = [] end.

Lemma ofVenue_snoc v ts t : ofVenue v (ts ++ [t]) = ofVenue v ts ++ (if decide (lt_Venue t = v) then [t] else []).
Proof. unfold ofVenue. by rewrite filter_app, filter_cons, filter_nil. Qed.

(** The update of the state with a trade. *)
Definition isOlder (t : LastTrade) (m : instrumentState) : bool :=
  match m !! lt_Venue t with Some prev => compareLastTrade t prev <=? 0 | None => false end.
Definition joined (t : LastTrade) (m : instrumentState) : instrumentState := if isOlder t m then m else <[lt_Venue t := t]> m.

Lemma compare_older a b : Forall comparableTrade [a; b] → (compareLastTrade a b <=? 0) = negb (older b a).
Proof.
  intros Hc. destruct (older_weak_order _ Hc) as [As _]. rewrite compareLastTrade_older. unfold cmpOf.
  destruct (older a b) eqn:Hab; [by rewrite (As a b) by set_solver|]. by destruct (older b a).
Qed.

Lemma joined_latest ts t m :
  Forall comparableTrade (t :: ts) → latestPerVenue ts m → latestPerVenue (ts ++ [t]) (joined t m).
Proof.
  intros Hc Hm v. pose proof (Hm (lt_Venue t)) as Ht. apply Forall_cons in Hc as [Hct Hcs].
  assert (Hof : ∀ v, Forall comparableTrade (ofVenue v ts)). { intros v'. rewrite Forall_forall in Hcs |- *. intros x [_ Hx]%list_elem_of_filter. auto. }
  rewrite ofVenue_snoc. unfold joined, isOlder. destruct (m !! lt_Venue t) as [prev|] eqn:Hprev.
  - rewrite compare_older; [|repeat constructor; try apply Hct; destruct Ht as [Hin _]; apply (proj1 (Forall_forall _ _) (Hof (lt_Venue t)) prev Hin)].
    destruct (older prev t) eqn:Hold; cbn [negb].
    + destruct (decide (lt_Venue t = v)) as [<-|Hne].
      * rewrite lookup_insert_eq. eapply latest_new; [by constructor|exact Ht|done].
      * rewrite lookup_insert_ne, app_nil_r by done. apply Hm.
    + destruct (decide (lt_Venue t = v)) as [<-|Hne]; [|rewrite app_nil_r; apply Hm]. rewrite Hprev. by apply latest_keeps.
  - destruct (decide (lt_Venue t = v)) as [<-|Hne].
    + rewrite lookup_insert_eq, Ht. by apply latest_single.
    + rewrite lookup_insert_ne, app_nil_r by done. apply Hm.
Qed.

(** ** The snapshot of a state *)

(** A row of least, or greatest, price. *)
Definition cheapest (rows : list SnapshotVenueTradeV1) (price : float64) (venue : string) : Prop :=
  ∃ r, r ∈ rows ∧ vr_Venue r = venue ∧ vr_Price r = price ∧ ∀ x, x ∈ rows → fltb (vr_Price x) price = false.
Definition dearest (rows : list SnapshotVenueTradeV1) (price : float64) (venue : string) : Prop :=
  ∃ r, r ∈ rows ∧ vr_Venue r = venue ∧ vr_Price r = price ∧ ∀ x, x ∈ rows → fltb price (vr_Price x) = false.

Lemma cheapest_snoc rows p v r :
  cheapest rows p v → Forall (λ r, isNaN (vr_Price r) = false) (rows ++ [r]) →
  let '(p', v') := if fltb (vr_Price r) p then (vr_Price r, vr_Venue r) else (p, v) in cheapest (rows ++ [r]) p' v'.
Proof.
  intros (r0 & Hin & <- & <- & Hall) Hn. rewrite Forall_forall in Hn. destruct (fltb (vr_Price r) (vr_Price r0)) eqn:Hlt.
  - exists r. split_and!; [set_solver|done|done|]. intros x [Hx| ->%list_elem_of_singleton]%elem_of_app; [|apply fltb_irrefl].
    destruct (fltb (vr_Price x) (vr_Price r)) eqn:H; [|done]. destruct (fltb_ntrans (vr_Price x) (vr_Price r) (vr_Price r0)) as [H'|H'].
    + apply Hn. set_solver.
    + done.
    + by rewrite (Hall x Hx) in H'.
    + by rewrite (fltb_asym _ _ Hlt) in H'.
  - exists r0. split_and!; [set_solver|done|done|]. intros x [Hx| ->%list_elem_of_singleton]%elem_of_app; auto.
Qed.
Lemma dearest_snoc rows p v r :
  dearest rows p v → Forall (λ r, isNaN (vr_Price r) = false) (rows ++ [r]) →
  let '(p', v') := if fltb p (vr_Price r) then (vr_Price r, vr_Venue r) else (p, v) in dearest (rows ++ [r]) p' v'.
Proof.
  intros (r0 & Hin & <- & <- & Hall) Hn. rewrite Forall_forall in Hn. destruct (fltb (vr_Price r0) (vr_Price r)) eqn:Hlt.
  - exists r. split_and!; [set_solver|done|done|]. intros x [Hx| ->%list_elem_of_singleton]%elem_of_app; [|apply fltb_irrefl].
    destruct (fltb (vr_Price r) (vr_Price x)) eqn:H; [|done]. destruct (fltb_ntrans (vr_Price r) (vr_Price x) (vr_Price r0)) as [H'|H'].
    + apply Hn. set_solver.
    + done.
    + by rewrite (fltb_asym _ _ Hlt) in H'.
    + by rewrite (Hall x Hx) in H'.
  - exists r0. split_and!; [set_solver|done|done|]. intros x [Hx| ->%list_elem_of_singleton]%elem_of_app; auto.
Qed.

Lemma prices_fold row0 rest minP minV maxP maxV :
  Forall (λ r, isNaN (vr_Price r) = false) (row0 :: rest) →
  foldl priceStep (vr_Price row0, vr_Venue row0, vr_Price row0, vr_Venue row0) rest = (minP, minV, maxP, maxV) →
  cheapest (row0 :: rest) minP minV ∧ dearest (row0 :: rest) maxP maxV.
Proof.
  revert minP minV maxP maxV. induction rest as [|r rest IH] using rev_ind; intros minP minV maxP maxV Hn.
  - intros [= <- <- <- <-]. split; exists row0; (split_and!; [set_solver|done|done|]); intros x ->%list_elem_of_singleton; apply fltb_irrefl.
  - rewrite foldl_app. cbn [foldl]. destruct (foldl priceStep _ rest) as [[[p v] p'] v'] eqn:Hf. rewrite app_comm_cons in Hn.
    pose proof (proj1 (Forall_app _ _ _) Hn) as [Hn' _]. destruct (IH _ _ _ _ Hn' eq_refl) as [Hc Hd].
    pose proof (cheapest_snoc _ _ _ r Hc Hn) as Hc'. pose proof (dearest_snoc _ _ _ r Hd Hn) as Hd'. cbn [priceStep].
    destruct (if fltb (vr_Price r) p then _ else _) as [p1 v1], (if fltb p' (vr_Price r) then _ else _) as [p2 v2].
    intros [= <- <- <- <-]. by rewrite app_comm_cons.
Qed.

Section snapshot.
Context {GR : GoRuntime}.

(** What a snapshot over the trades [ts] of an instrument says. *)
Record joinsTrades (mode : spreadRoundingMode) (ts : list LastTrade) (s : CrossVenueTradeSnapshotV1) : Prop := {
  jt_sorted : Sorted (λ a b, str_ltb a b = true) (vr_Venue <$> Venues s);
  jt_rows : ∀ row, row ∈ Venues s → ∃ t, isLatest t (ofVenue (vr_Venue row) ts) ∧ row = rowOf (vr_Venue row) t;
  jt_all : ∀ t, t ∈ ts → lt_Venue t ∈ vr_Venue <$> Venues s;
  jt_min : ∃ p, cheapest (Venues s) p (MinPriceVenue s) ∧ MinPrice s = roundDeterministic p derivedPriceDecimals mode;
  jt_max : ∃ p, dearest (Venues s) p (MaxPriceVenue s) ∧ MaxPrice s = roundDeterministic p derivedPriceDecimals mode;
}.

Lemma str_total a b : a ≠ b → str_ltb b a = false → str_ltb a b = true.
Proof.
  intros Hne Hba. destruct (str_lt_total a b) as [H%str_ltb_lt|[H|H%str_ltb_lt]]; congruence.
Qed.
Lemma Sorted_strict l : Sorted str_le l → NoDup l → Sorted (λ a b, str_ltb a b = true) l.
Proof.
  induction 1 as [|a l Hl IH Hd]; intros Hnd; constructor; apply NoDup_cons in Hnd as [Ha Hnd]; [by apply IH|].
  destruct Hd as [|b l Hab]; constructor. apply str_total; [set_solver|done].
Qed.

Lemma venues_rows (m : instrumentState) venues :
  Forall (λ v, is_Some (m !! v)) venues → vr_Venue <$> omap (λ v, rowOf v <$> m !! v) venues = venues.
Proof. induction 1 as [|v vs [t Ht] _ IH]; [done|]. cbn. rewrite Ht. cbn. by f_equal. Qed.

Lemma buildTradeSnapshot_joins key w m mode ts s :
  Forall comparableTrade ts → latestPerVenue ts m → buildTradeSnapshot key w m mode = Some s →
  joinsTrades mode ts s ∧ WatermarkTsIngest s = w.
Proof.
  intros Hts Hm. unfold buildTradeSnapshot. set (venues := sort_slice str_ltb (map_range m).*1).
  assert (Hp : venues ≡ₚ (map_to_list m).*1) by (unfold venues; by rewrite sort_slice_perm, map_range_perm).
  assert (Hk : ∀ v, v ∈ venues ↔ is_Some (m !! v)).
  { intros v. rewrite Hp, list_elem_of_fmap. split; [intros ([v' t] & -> & H%elem_of_map_to_list); by exists t|].
    intros [t Ht]. exists (v, t). split; [done|by apply elem_of_map_to_list]. }
  set (rows := omap _ venues).
  assert (Hrows : ∀ row, row ∈ rows → ∃ t, m !! vr_Venue row = Some t ∧ row = rowOf (vr_Venue row) t).
  { intros row (v & _ & (t & Ht & ->)%fmap_Some)%list_elem_of_omap. cbn. eauto. }
  assert (Hvr : vr_Venue <$> rows = venues). { apply venues_rows, Forall_forall. intros v. by rewrite Hk. }
  assert (Hn : Forall (λ r, isNaN (vr_Price r) = false) rows).
  { apply Forall_forall. intros row (t & Ht & ->)%Hrows. pose proof (Hm (vr_Venue row)) as Hl. rewrite Ht in Hl. destruct Hl as [Hin _].
    apply list_elem_of_filter in Hin as [_ Hin]. rewrite Forall_forall in Hts. apply (Hts _ Hin). }
  destruct rows as [|row0 rest] eqn:Hr; [done|]. destruct (foldl priceStep _ rest) as [[[p v] p'] v'] eqn:Hf.
  destruct (prices_fold _ _ _ _ _ _ Hn Hf) as [Hc Hd]. intros [= <-]. split; [|done]. split; cbn [Venues MinPriceVenue MaxPriceVenue MinPrice MaxPrice].
  - rewrite Hvr. apply Sorted_strict.
    + apply sort_slice_sorted. apply (str_weak_order id).
    + rewrite Hp. apply NoDup_fst_map_to_list.
  - intros row Hrow. destruct (Hrows row Hrow) as (t & Ht & Heq). exists t. split; [|done]. pose proof (Hm (vr_Venue row)) as Hl. by rewrite Ht in Hl.
  - intros t Hin. rewrite Hvr. apply Hk. pose proof (Hm (lt_Venue t)) as Hl. destruct (m !! lt_Venue t); [done|].
    assert (Hin' : t ∈ ofVenue (lt_Venue t) ts) by by apply list_elem_of_filter. rewrite Hl in Hin'. by apply elem_of_nil in Hin'.
  - by exists p.
  - by exists p'.
Qed.
End snapshot.

(** ** Runs *)

(** A map whose entries do not expire while it is in use and that is not full keeps
    every key it was given. *)
Section room.
Context {GR : GoRuntime} (clk : nat → Z) {V : Type}.
Implicit Types (m : BoundedMap JoinKey V) (l : list (JoinKey * boundedEntry V)) (D : gset JoinKey).

Definition alive (ttl0 : Z) l : Prop := Forall (λ x, ∃ i, expiresAt x.2 = clk i + ttl0) l.
Definition exactly D l : Prop := ∀ k, k ∈ l.*1 ↔ k ∈ D.
Definition lasting (ttl0 : Z) : Prop := 0 < ttl0 ∧ ∀ i j, clk j < clk i + ttl0.

Lemma alive_fresh m l i : lasting (ttl m) → alive (ttl m) l → Forall (λ x, isExpiredAt m x.2 (clk i) = false) l.
Proof.
  intros [Ht Hl] Ha. eapply Forall_impl; [exact Ha|]. intros x [j Hj]. unfold isExpiredAt. rewrite Hj. pose proof (Hl j i).
  destruct (_ <=? 0); [done|]. apply andb_false_iff. right. by apply Z.leb_gt.
Qed.
Lemma alive_all m l i : lasting (ttl m) → alive (ttl m) l → filter (λ x, isExpiredAt m x.2 (clk i) = false) l = l.
Proof.
  intros Hl Ha. pose proof (alive_fresh m l i Hl Ha) as Hf. clear Ha. induction Hf as [|x l Hx _ IH]; [done|].
  by rewrite filter_cons_True, IH by done.
Qed.
Lemma alive_sweep m l i : lasting (ttl m) → alive (ttl m) l → spec_sweep m (clk i) l = l.
Proof. intros Hl Ha. unfold spec_sweep. destruct (_ || _); [done|]. by apply alive_all. Qed.
Lemma alive_drop ttl0 l k : alive ttl0 l → alive ttl0 (drop_key k l).
Proof. unfold alive, drop_key. rewrite !Forall_forall. intros Ha x [_ Hx]%list_elem_of_filter. auto. Qed.
Lemma exactly_touch D l k e : exactly D l → k ∈ l.*1 → exactly D ((k, e) :: drop_key k l).
Proof.
  intros Hd Hk k'. rewrite <- (Hd k'), fmap_cons, elem_of_cons. cbn. split.
  - intros [->|Hin]; [done|]. unfold drop_key in Hin. apply list_elem_of_fmap in Hin as (x & -> & [_ Hx]%list_elem_of_filter). by apply list_elem_of_fmap_2.
  - intros Hin. destruct (decide (k' = k)) as [->|Hne]; [by left|]. right. apply list_elem_of_fmap in Hin as (x & -> & Hx).
    apply list_elem_of_fmap_2. by apply list_elem_of_filter.
Qed.

Lemma Get_room m l D k i :
  rep m l → lasting (ttl m) → alive (ttl m) l → exactly D l →
  alive (ttl m) (spec_Get m k (clk i) l).1 ∧ exactly D (spec_Get m k (clk i) l).1 ∧ ((spec_Get m k (clk i) l).2 = None → k ∉ D).
Proof.
  intros Hr Hl Ha Hd. unfold spec_Get. destruct (as_map l !! k) as [e|] eqn:Hk.
  - apply as_map_lookup in Hk; [|by destruct Hr]. pose proof (proj1 (Forall_forall _ _) (alive_fresh _ _ i Hl Ha) _ Hk) as Hexp.
    change (isExpiredAt (bumpOps m) e (clk i)) with (isExpiredAt m e (clk i)). cbn [snd] in Hexp. rewrite Hexp. cbn [fst snd].
    assert (Ha' : alive (ttl m) ((k, e) :: drop_key k l)). { constructor; [exact (proj1 (Forall_forall _ _) Ha _ Hk)|by apply alive_drop]. }
    change (ttl m) with (ttl (bumpOps m)) in Hl, Ha' |- *. rewrite alive_sweep by done. split_and!; [done| |done].
    apply exactly_touch; [done|]. by apply (list_elem_of_fmap_2 fst) in Hk.
  - cbn [fst snd]. change (ttl m) with (ttl (bumpOps m)) in Hl, Ha |- *. rewrite alive_sweep by done. split_and!; [done|done|].
    intros _. rewrite <- (Hd k). by apply as_map_none.
Qed.

Lemma Put_room m l D k v i :
  rep m l → lasting (ttl m) → alive (ttl m) l → exactly D l → Z.of_nat (base.size ({[k]} ∪ D)) ≤ maxSize m →
  alive (ttl m) (spec_Put m k v (clk i) l) ∧ exactly ({[k]} ∪ D) (spec_Put m k v (clk i) l).
Proof.
  intros Hr Hl Ha Hd Hsz. unfold spec_Put. set (e := MkEntry v _).
  assert (He : ∃ j, expiresAt e = clk j + ttl m). { exists i. cbn. unfold nextExpiryAt. cbn. destruct Hl as [Ht _]. by destruct (Z.leb_spec (ttl m) 0); [lia|]. }
  destruct (as_map l !! k) as [e0|] eqn:Hk.
  - assert (Ha' : alive (ttl m) ((k, e) :: drop_key k l)) by (constructor; [exact He|by apply alive_drop]).
    change (ttl m) with (ttl (bumpOps m)) in Hl, Ha' |- *. rewrite alive_sweep by done. split; [done|].
    apply as_map_lookup in Hk; [|by destruct Hr]. apply (list_elem_of_fmap_2 fst) in Hk. cbn in Hk. intros k'.
    rewrite (exactly_touch D l k e Hd Hk k'), elem_of_union, elem_of_singleton. apply Hd in Hk. naive_solver.
  - apply as_map_none in Hk. assert (HkD : k ∉ D) by by rewrite <- (Hd k). assert (Hlen : (length l < base.size ({[k]} ∪ D))%nat).
    { rewrite size_union by (clear Hd; set_solver). rewrite size_singleton.
      assert (Hle : (length l.*1 ≤ base.size D)%nat) by (apply NoDup_size_le; [by destruct Hr|intros x Hx; by apply Hd]). rewrite length_fmap in Hle. lia. }
    destruct (Z.leb_spec (maxSize (bumpOps m)) (Z.of_nat (length l))) as [Hfull|_]; [cbn in Hfull; lia|].
    assert (Ha' : alive (ttl m) ((k, e) :: l)) by by constructor.
    change (ttl m) with (ttl (bumpOps m)) in Hl, Ha' |- *. rewrite alive_sweep by done. split; [done|].
    intros k'. rewrite fmap_cons, elem_of_cons, (Hd k'), elem_of_union, elem_of_singleton. done.
Qed.

Lemma Sweep_room m l i : lasting (ttl m) → alive (ttl m) l → spec_Sweep m (clk i) l = l.
Proof. intros Hl Ha. unfold spec_Sweep. destruct (_ <=? 0); [done|]. by apply alive_all. Qed.
End room.

Section run.
Context {GR : GoRuntime} (clk : nat → Z) (mode : spreadRoundingMode) (cap ttl0 : Z) (all : gset JoinKey).

(** The readings of the clock are less than the time to live apart, and the keys in
    play fit in the map. *)
Definition roomy : Prop := lasting clk ttl0 ∧ Z.of_nat (base.size all) ≤ cap.

(** Every state in the map has the property for its key; with room the map has
    exactly the keys [D]. *)
Definition holds (P : JoinKey → instrumentState → Prop) (D : gset JoinKey) (uc : JoinCrossVenueTrades) : Prop :=
  roundingMode uc = mode ∧ maxSize (join_states uc) = cap ∧ ttl (join_states uc) = ttl0 ∧
  ∃ l, rep (join_states uc) l ∧ (∀ k e, (k, e) ∈ l → P k (value e)) ∧ (roomy → alive clk ttl0 l ∧ exactly D l).

Lemma triple_pure {S E A} (φ : Prop) (Pre : S → Prop) (m : Meth S E A) Post Err :
  (φ → triple Pre m Post Err) → triple (λ s, φ ∧ Pre s) m Post Err.
Proof. intros H s [Hφ Hs]. by apply H. Qed.

Lemma clock_holds P D Err : triple (holds P D) (now clk) (λ _, holds P D) Err.
Proof. intros uc H. exact H. Qed.

Lemma statesGet_holds P D key Err :
  triple (holds P D) (statesGet clk key)
    (λ r uc, ((∀ st, r = Some st → P key st) ∧ (roomy → r = None → key ∉ D)) ∧ holds P D uc) Err.
Proof.
  intros uc (Hmode & Hcap & Httl & l & Hr & Hl & Hroom). unfold statesGet, mbind, Meth_bind, now, recv, mret, Meth_ret, assign. cbn.
  unfold upd. cbn. set (i := clockReads uc). pose proof (Get_moves key (clk i) (join_states uc) l Hr) as Hmv.
  destruct (Get_entries (join_states uc) l key (clk i) Hr) as (m' & r & evs & l' & Hget & _ & _ & Hv).
  assert (Hfew : ∀ x, x ∈ (spec_Get (join_states uc) key (clk i) l).1 → x ∈ l).
  { intros x Hx. unfold spec_Get in Hx. destruct (as_map l !! key) as [e|] eqn:He; [destruct (isExpiredAt _ e _)|];
      (eapply elem_of_submseteq in Hx; [|apply sweep_fewer]); [| |done].
    - by apply list_elem_of_filter in Hx as [_ ?].
    - eapply elem_of_submseteq; [exact Hx|]. apply touch_fewer; [by destruct Hr|done]. }
  rewrite Hget in Hmv |- *. cbn. destruct Hmv as [[Hr' Hcfg _] ->]. injection Hcfg as Hc1 Hc2 _ _ _ _.
  split; [split|].
  - intros st Hst. destruct (Hv st Hst) as (e & He & <-). apply Hl. apply as_map_lookup; [by destruct Hr|done].
  - intros Hroomy. destruct (Hroom Hroomy) as [Ha Hd]. rewrite <- Httl in Ha. apply (Get_room clk _ _ _ _ _ Hr); [rewrite Httl; apply Hroomy|done|done].
  - split_and!; [done|cbn; congruence|cbn; congruence|]. eexists. split; [exact Hr'|]. split; [intros k e Hin; by apply Hl, Hfew|].
    intros Hroomy. destruct (Hroom Hroomy) as [Ha Hd]. rewrite <- Httl in Ha |- *.
    destruct (Get_room clk _ _ D key i Hr) as (? & ? & _); [rewrite Httl; apply Hroomy|done|done|done].
Qed.

Lemma statesPut_holds (P P' : JoinKey → instrumentState → Prop) D key st Err :
  P' key st → (∀ k m, k ≠ key → P k m → P' k m) → {[key]} ∪ D ⊆ all →
  triple (λ uc, holds P D uc ∨ holds P ({[key]} ∪ D) uc) (statesPut clk key st) (λ _, holds P' ({[key]} ∪ D)) Err.
Proof.
  intros Hst HP Hall. assert (Hone : ∀ D', {[key]} ∪ D' = {[key]} ∪ D → triple (holds P D') (statesPut clk key st) (λ _, holds P' ({[key]} ∪ D)) Err).
  2: { intros uc [Huc|Huc]; [by apply (Hone D)|]. apply (Hone ({[key]} ∪ D)); [set_solver|done]. }
  intros D' HD uc (Hmode & Hcap & Httl & l & Hr & Hl & Hroom). unfold statesPut, mbind, Meth_bind, now, assign. cbn. unfold upd. cbn.
  set (i := clockReads uc). pose proof (Put_moves key st (clk i) (join_states uc) l Hr) as Hmv.
  destruct (spec_Put_entries (join_states uc) l key st (clk i) Hr) as [_ Hf]. destruct (Put key st (clk i) (join_states uc)) as [m evs].
  destruct Hmv as [Hr' Hcfg _]. injection Hcfg as Hc1 Hc2 _ _ _ _. split_and!; [done|cbn; congruence|cbn; congruence|].
  exists (spec_Put (join_states uc) key st (clk i) l). split; [exact Hr'|]. split.
  - intros k e Hin. eapply elem_of_submseteq in Hin; [|exact Hf]. apply elem_of_cons in Hin as [[= -> ->]|Hin]; [done|].
    unfold drop_key in Hin. apply list_elem_of_filter in Hin as [Hne Hin]. cbn in *. apply HP; [done|by apply Hl].
  - intros Hroomy. destruct (Hroom Hroomy) as [Ha Hd]. rewrite <- HD, <- Httl in *. destruct Hroomy as [Hlast Hsz]. rewrite <- Httl in Hlast.
    apply Put_room; [done|done|done|done|]. pose proof (subseteq_size _ _ Hall). lia.
Qed.

Lemma statesSweep_holds P D Err : triple (holds P D) (statesSweep clk) (λ _, holds P D) Err.
Proof.
  intros uc (Hmode & Hcap & Httl & l & Hr & Hl & Hroom). unfold statesSweep, mbind, Meth_bind, now, assign. cbn. unfold upd. cbn.
  set (i := clockReads uc). pose proof (bm_step_moves OSweep (clk i) (join_states uc) l Hr) as Hmv. cbn [bm_step spec_step fst] in Hmv.
  destruct (Sweep (clk i) (join_states uc)) as [[[m n] evs] o]. destruct Hmv as [[Hr' Hcfg _] _]. injection Hcfg as Hc1 Hc2 _ _ _ _.
  split_and!; [done|cbn; congruence|cbn; congruence|]. exists (spec_Sweep (join_states uc) (clk i) l). split; [exact Hr'|]. split.
  - intros k e Hin. apply Hl. unfold spec_Sweep in Hin. destruct (_ <=? _); [done|]. by apply list_elem_of_filter in Hin as [_ ?].
  - intros Hroomy. rewrite Sweep_room; [by apply Hroom|rewrite Httl; apply Hroomy|rewrite Httl; by apply Hroom].
Qed.

Lemma count_holds P D (f : JoinCrossVenueTrades → JoinCrossVenueTrades) Err :
  (∀ uc, roundingMode (f uc) = roundingMode uc ∧ join_states (f uc) = join_states uc) → triple (holds P D) (assign f : Meth _ Problem unit) (λ _, holds P D) Err.
Proof. intros Hf. apply triple_assign. intros uc Hl. unfold holds. destruct (Hf uc) as [-> ->]. exact Hl. Qed.

Lemma maybeSweep_holds P D Err : triple (holds P D) (maybeSweep clk) (λ _, holds P D) Err.
Proof.
  unfold maybeSweep. eapply triple_bind with (Mid := λ _, holds P D); [by apply triple_recv|]. intros uc. destruct (0 <? _).
  - eapply triple_bind; [by apply count_holds|]. intros ?. eapply triple_bind with (Mid := λ _, holds P D); [by apply triple_recv|].
    intros uc'. destruct (negb _); [by apply triple_ret|]. eapply triple_bind; [apply statesSweep_holds|]. intros ?.
    eapply triple_bind; [by apply count_holds|]. intros ?. eapply triple_bind; [apply clock_holds|]. intros t. by apply count_holds.
  - destruct (_ <=? 0); [by apply triple_ret|]. eapply triple_bind; [apply clock_holds|]. intros t.
    destruct (_ <? _); [by apply triple_ret|]. eapply triple_bind; [by apply count_holds|]. intros ?.
    eapply triple_bind; [apply statesSweep_holds|]. intros ?. by apply count_holds.
Qed.

Lemma getOrCreate_holds P D key Err :
  ((roomy → key ∉ D) → P key ∅) → {[key]} ∪ D ⊆ all →
  triple (holds P D) (getOrCreateState clk key) (λ st uc, P key st ∧ (holds P D uc ∨ holds P ({[key]} ∪ D) uc)) Err.
Proof.
  intros H0 Hall. unfold getOrCreateState. eapply triple_bind; [apply statesGet_holds|]. intros [st|]; apply triple_pure; intros [Hst Hnone].
  - apply triple_ret. intros uc Huc. split; [by apply Hst|by left].
  - assert (Hempty : P key ∅) by (apply H0; intros Hr; by apply Hnone).
    eapply triple_bind with (Mid := λ _, holds P ({[key]} ∪ D)); [|intros ?; apply triple_ret; by auto].
    eapply triple_conseq; [apply (statesPut_holds P P D key ∅ Err); [done|by intros ? ? _ ?|done]| | |]; [by left|done|done].
Qed.

(** The trades taken, with their keys, and those since an instrument was last taken
    into the map. *)
Definition taken (req : JoinCrossVenueTradesRequest) : option (JoinKey * LastTrade) :=
  match validateRequest req, NewJoinKey (jr_Instrument req) (jr_MarketType req) with
  | None, inr k => Some (k, lastTradeOf req)
  | _, _ => None
  end.
Definition tradesOf (k : JoinKey) (ts : list (JoinKey * LastTrade)) : list LastTrade := (filter (λ x, x.1 = k) ts).*2.
Definition sinceTaken (ts : list (JoinKey * LastTrade)) (k : JoinKey) (m : instrumentState) : Prop :=
  ∃ before since, tradesOf k ts = before ++ since ∧ (roomy → before = []) ∧ latestPerVenue since m.
Definition keysTaken (ts : list (JoinKey * LastTrade)) : gset JoinKey := list_to_set ts.*1.

Lemma taken_comparable req k t : taken req = Some (k, t) → comparableTrade t ∧ t = lastTradeOf req.
Proof.
  unfold taken, validateRequest. destruct (Collect _); [done|]. destruct (_ <? 0); [done|].
  destruct (isNaN (jr_Price req) || _) eqn:Hp; [done|]. destruct (isNaN (jr_Size req) || _) eqn:Hs; [done|].
  destruct (NewJoinKey _ _); [done|]. intros [= <- <-]. apply orb_false_iff in Hp as [Hp _], Hs as [Hs _]. by split.
Qed.

Lemma tradesOf_snoc k ts x : tradesOf k (ts ++ [x]) = tradesOf k ts ++ (if decide (x.1 = k) then [x.2] else []).
Proof. unfold tradesOf. rewrite filter_app, filter_cons, filter_nil, fmap_app. by case_decide. Qed.

Lemma tradesOf_absent k ts : k ∉ keysTaken ts → tradesOf k ts = [].
Proof.
  intros Hk. unfold tradesOf. assert (Hnil : filter (λ x, x.1 = k) ts = []); [|by rewrite Hnil].
  destruct (filter _ ts) as [|x l] eqn:Hf; [done|]. exfalso. assert (Hx : x ∈ filter (λ x, x.1 = k) ts) by (rewrite Hf; by left).
  apply list_elem_of_filter in Hx as [<- Hx]. apply Hk, elem_of_list_to_set. by apply list_elem_of_fmap_2.
Qed.

Lemma sinceTaken_other ts key t k m : k ≠ key → sinceTaken ts k m → sinceTaken (ts ++ [(key, t)]) k m.
Proof. intros Hne (b & s & Heq & Hb & Hm). exists b, s. split; [|done]. rewrite tradesOf_snoc, decide_False, app_nil_r by (cbn; congruence). done. Qed.

Lemma since_comparable ts k before since : Forall comparableTrade ts.*2 → tradesOf k ts = before ++ since → Forall comparableTrade since.
Proof.
  intros Hts Heq. apply (proj1 (Forall_app _ before since)). rewrite <- Heq. rewrite Forall_forall in Hts |- *. intros t Ht.
  apply Hts. unfold tradesOf in Ht. apply list_elem_of_fmap in Ht as (x & -> & [_ Hx]%list_elem_of_filter). by apply list_elem_of_fmap_2.
Qed.

(** What the answer to a trade of [key] says. *)
Definition answers (ts : list (JoinKey * LastTrade)) (key : JoinKey) (t : LastTrade) (resp : JoinCrossVenueTradesResponse) : Prop :=
  jn_Emitted resp = true → ∃ before since s, tradesOf key (ts ++ [(key, t)]) = before ++ since ++ [t] ∧ (roomy → before = []) ∧
    jn_Snapshot resp = Some s ∧ TradeSnapshot_Validate s = None ∧ joinsTrades mode (since ++ [t]) s ∧ WatermarkTsIngest s = lt_TsIngest t ∧
    isLatest t (ofVenue (lt_Venue t) (since ++ [t])).

Definition joinInv (ts : list (JoinKey * LastTrade)) : JoinCrossVenueTrades → Prop := holds (sinceTaken ts) (keysTaken ts).

Lemma keysTaken_snoc ts key t : keysTaken (ts ++ [(key, t)]) = {[key]} ∪ keysTaken ts.
Proof. unfold keysTaken. rewrite fmap_app, list_to_set_app_L. cbn. set_solver. Qed.

Lemma JoinExecute_holds ts req key t :
  taken req = Some (key, t) → Forall comparableTrade ts.*2 → keysTaken (ts ++ [(key, t)]) ⊆ all →
  triple (joinInv ts) (JoinExecute clk req)
    (λ resp uc, joinInv (ts ++ [(key, t)]) uc ∧ answers ts key t resp) (joinInv (ts ++ [(key, t)])).
Proof.
  intros Htk Hts Hall. rewrite keysTaken_snoc in Hall. destruct (taken_comparable _ _ _ Htk) as [Hct Ht]. unfold taken in Htk. unfold JoinExecute.
  destruct (validateRequest req); [done|]. destruct (NewJoinKey _ _) as [p|k]; [done|]. injection Htk as -> _.
  eapply triple_bind with (Mid := λ _, joinInv ts); [by apply triple_check|]. intros _.
  eapply triple_bind with (Mid := λ k uc, k = key ∧ joinInv ts uc); [by apply triple_try|]. intros k.
  apply triple_pure. intros ->.
  eapply triple_bind with (Mid := λ st uc, sinceTaken ts key st ∧ (joinInv ts uc ∨ holds (sinceTaken ts) ({[key]} ∪ keysTaken ts) uc)).
  { apply getOrCreate_holds; [|done]. intros Hk. exists (tradesOf key ts), []. split_and!; [by rewrite app_nil_r| |].
    - intros Hr. apply tradesOf_absent. by apply Hk.
    - intros v. by rewrite lookup_empty. }
  intros st. apply triple_pure. intros (before & since & Heq & Hbef & Hst). change (CanonicalVenue (jr_Venue req)) with (lt_Venue (lastTradeOf req)). rewrite <- Ht.
  pose proof (joined_latest since t st (Forall_cons_2 _ _ _ Hct (since_comparable _ _ _ _ Hts Heq)) Hst) as Hj. unfold joined in Hj.
  assert (Heq' : tradesOf key (ts ++ [(key, t)]) = before ++ since ++ [t]). { rewrite tradesOf_snoc, decide_True, Heq, app_assoc by done. done. }
  assert (Hput : ∀ m Err, latestPerVenue (since ++ [t]) m → triple (λ uc, joinInv ts uc ∨ holds (sinceTaken ts) ({[key]} ∪ keysTaken ts) uc) (statesPut clk key m) (λ _, joinInv (ts ++ [(key, t)])) Err).
  { intros m Err Hm. unfold joinInv. rewrite keysTaken_snoc.
    apply statesPut_holds; [by exists before, (since ++ [t])| |done]. intros k' m'. apply sinceTaken_other. }
  fold (isOlder t st). destruct (isOlder t st) eqn:Hold.
  { eapply triple_bind; [by apply Hput|]. intros ?. eapply triple_bind; [apply maybeSweep_holds|]. intros ?. apply triple_ret. intros uc Huc. by split. }
  eapply triple_bind; [by apply Hput|]. intros ?. destruct (_ <? 2).
  { eapply triple_bind; [apply maybeSweep_holds|]. intros ?. apply triple_ret. intros uc Huc. by split. }
  eapply triple_bind with (Mid := λ u uc, roundingMode u = mode ∧ joinInv (ts ++ [(key, t)]) uc).
  { apply triple_recv. intros uc Huc. split; [apply Huc|done]. }
  intros u. apply triple_pure. intros Hmode.
  destruct (buildTradeSnapshot _ _ _ _) as [s|] eqn:Hb; [|by intros uc Huc].
  eapply triple_bind with (Mid := λ y uc, y = s ∧ joinInv (ts ++ [(key, t)]) uc); [by apply triple_try|]. intros y.
  apply triple_pure. intros ->. rewrite Hmode in Hb.
  destruct (buildTradeSnapshot_joins _ _ _ _ _ _ (Forall_app_2 _ _ _ (since_comparable _ _ _ _ Hts Heq) (Forall_cons_2 _ _ _ Hct (Forall_nil_2 _))) Hj Hb) as [Hjs Hw].
  destruct (TradeSnapshot_Validate s) eqn:Hv; [by intros uc Huc|].
  eapply triple_bind with (Mid := λ _, joinInv (ts ++ [(key, t)])); [by apply triple_check|]. intros _.
  eapply triple_bind with (Mid := λ _, joinInv (ts ++ [(key, t)])).
  { destruct (_ && _); [|by apply triple_ret]. eapply triple_bind with (Mid := λ _, joinInv (ts ++ [(key, t)])); [|intros _; by apply triple_ret].
    apply triple_check. intros uc Huc. by destruct (SpreadSignal_Validate _). }
  intros signal. eapply triple_bind; [apply maybeSweep_holds|]. intros ?. apply triple_ret. intros uc Huc. split; [done|]. intros _.
  exists before, since, s. split_and!; [done|done|done|done|done|by rewrite Ht|].
  pose proof (Hj (lt_Venue t)) as Hl. by rewrite lookup_insert_eq in Hl.
Qed.

Lemma JoinExecute_refused req uc : taken req = None → (JoinExecute clk req uc).1 = uc ∧ ∃ p, (JoinExecute clk req uc).2 = inl p.
Proof.
  unfold taken, JoinExecute. destruct (validateRequest req) as [p|].
  - intros _. rewrite (bind_err _ _ _ uc p) by done. by eauto.
  - rewrite (bind_run _ _ _ uc tt) by done. destruct (NewJoinKey _ _) as [p|]; [|done]. intros _. rewrite (bind_err _ _ _ uc p) by done. by eauto.
Qed.

Lemma taken_all_comparable reqs : Forall comparableTrade (omap taken reqs).*2.
Proof.
  apply Forall_forall. intros t Ht. apply list_elem_of_fmap in Ht as ([k t'] & -> & (req & _ & Htk)%list_elem_of_omap).
  by apply (taken_comparable req k).
Qed.

Lemma run_joinInv reqs uc :
  joinInv [] uc → keysTaken (omap taken reqs) ⊆ all → joinInv (omap taken reqs) (foldl (λ uc r, (JoinExecute clk r uc).1) uc reqs).
Proof.
  intros H0. induction reqs as [|req reqs IH] using rev_ind; [done|]. rewrite omap_app, foldl_app. cbn [omap list_omap foldl].
  destruct (taken req) as [[key t]|] eqn:Htk.
  - intros Hall. specialize (IH ltac:(rewrite keysTaken_snoc in Hall; set_solver)).
    pose proof (JoinExecute_holds _ _ _ _ Htk (taken_all_comparable reqs) Hall _ IH) as Hex. by destruct (JoinExecute clk req _) as [uc' [|]]; [|destruct Hex].
  - rewrite app_nil_r. intros Hall. destruct (JoinExecute_refused req (foldl (λ uc r, (JoinExecute clk r uc).1) uc reqs) Htk) as [-> _]. by apply IH.
Qed.
End run.

Definition runTrades {GR : GoRuntime} (clk : nat → Z) (reqs : list JoinCrossVenueTradesRequest) (uc : JoinCrossVenueTrades) : JoinCrossVenueTrades :=
  foldl (λ uc r, (JoinExecute clk r uc).1) uc reqs.

(** C27: A snapshot that is emitted joins the latest trades. It is valid, and has a row for
    each venue that traded since the instrument was last taken into the map, in the
    order of their names: the newest trade of the venue, whatever the order of arrival.
    The venues of least and greatest price are named, the trade that led to the
    snapshot is the newest of its venue. When the instruments fit in the map and all
    readings of the clock are less than one time to live apart, these are all the
    trades of the instrument; otherwise the trades before it was last taken in are
    forgotten, however many. *)
Theorem snapshot_joins_latest_trades {GR : GoRuntime} clk config reqs req resp :
  let uc0 := NewJoinCrossVenueTradesWithConfig clk config in
  let ts := omap taken reqs in
  (JoinExecute clk req (runTrades clk reqs uc0)).2 = inr resp → jn_Emitted resp = true →
  ∃ key t before since s, taken req = Some (key, t) ∧ tradesOf key (ts ++ [(key, t)]) = before ++ since ++ [t] ∧
    jn_Snapshot resp = Some s ∧ TradeSnapshot_Validate s = None ∧
    joinsTrades (roundingMode uc0) (since ++ [t]) s ∧ isLatest t (ofVenue (lt_Venue t) (since ++ [t])) ∧ WatermarkTsIngest s = lt_TsIngest t ∧
    (roomy clk (maxSize (join_states uc0)) (ttl (join_states uc0)) (keysTaken (ts ++ [(key, t)])) → before = []).
Proof.
  intros uc0 ts Hrun Hem. destruct (taken req) as [[key t]|] eqn:Htk.
  2: { destruct (JoinExecute_refused clk req (runTrades clk reqs uc0) Htk) as [_ [p Hp]]. congruence. }
  set (all := keysTaken (ts ++ [(key, t)])). set (cap := maxSize (join_states uc0)). set (ttl0 := ttl (join_states uc0)).
  assert (H0 : joinInv clk (roundingMode uc0) cap ttl0 all [] uc0).
  { split_and!; [done|done|done|]. exists []. split_and!; [|by intros ? ? ?%elem_of_nil|].
    - pose proof (rep_new (K:=JoinKey) (V:=instrumentState) (if MaxInstruments config <=? 0 then 10000 else MaxInstruments config)
                    (if jc_TTL config <=? 0 then 3600 * 1000000000 else jc_TTL config) (clk 0%nat)) as []. by split.
    - intros _. split; [by apply Forall_nil|]. intros k. by rewrite !elem_of_nil, elem_of_empty || set_solver. }
  assert (Hall : keysTaken ts ⊆ all) by (unfold all; rewrite keysTaken_snoc; set_solver).
  pose proof (run_joinInv clk _ _ _ all reqs uc0 H0 Hall) as Hinv.
  pose proof (JoinExecute_holds clk _ _ _ all _ _ _ _ Htk (taken_all_comparable reqs) (reflexivity all) _ Hinv) as Hex.
  unfold runTrades in Hrun. destruct (JoinExecute clk req _) as [uc' r]. cbn in Hrun. subst r. destruct Hex as [_ Hans].
  destruct (Hans Hem) as (before & since & s & ? & ? & ? & ? & ? & ? & ?). by exists key, t, before, since, s.
Qed.

(** ** Examples *)

Section examples.
#[local] Existing Instance go_amd64.

Definition stopped : nat → Z := λ _, 0.
Definition tradeOn (v : string) (p : float64) (ts n : Z) : JoinCrossVenueTradesRequest :=
  MkJoinRequest v "BTC-USDT" "spot" p f1 "buy" "" ts ts n "".

(** A trade at a price near the largest float is taken; its rounding is infinite, so
    from then on the other venues of the instrument get an error instead of a
    snapshot. *)
Theorem absurd_price_blocks_instrument :
  let uc := runTrades stopped [tradeOn "binance" (f_of_Z 100) 1 1; tradeOn "kraken" (f_of_Z (10 ^ 301)) 2 1] (NewJoinCrossVenueTrades stopped) in
  match (JoinExecute stopped (tradeOn "binance" (f_of_Z 101) 3 2) uc).2 with
  | inl p => p = New ValidationFailed "snapshot derived price fields must be finite numbers"
  | inr _ => False
  end.
Proof. by vm_compute. Qed.

(** The watermark is the time of the trade that came last, not of the latest one: it
    goes back when a venue is behind. *)
Theorem watermark_goes_back :
  let before := runTrades stopped [tradeOn "binance" (f_of_Z 100) 5 1] (NewJoinCrossVenueTrades stopped) in
  let watermark r := match r with inr resp => WatermarkTsIngest <$> jn_Snapshot resp | inl _ => None end in
  let '(uc, r1) := JoinExecute stopped (tradeOn "kraken" (f_of_Z 101) 9 1) before in
  watermark r1 = Some 9 ∧ watermark (JoinExecute stopped (tradeOn "okx" (f_of_Z 102) 4 1) uc).2 = Some 4.
Proof. by vm_compute. Qed.

Lemma snapshot_joins_latest_trades_witness :
  let reqs := [tradeOn "binance" (f_of_Z 100) 5 2; tradeOn "kraken" (f_of_Z 99) 6 1; tradeOn "binance" (f_of_Z 98) 4 1] in
  let req := tradeOn "okx" (f_of_Z 103) 9 1 in
  ∃ key t (before since : list LastTrade) s, taken req = Some (key, t) ∧
    TradeSnapshot_Validate s = None ∧ joinsTrades spreadRoundingHalfEven (since ++ [t]) s ∧
    (roomy stopped 10000 3600000000000 (keysTaken (omap taken reqs ++ [(key, t)])) → before = []).
Proof.
  intros reqs req. set (uc0 := NewJoinCrossVenueTrades stopped).
  destruct (JoinExecute stopped req (runTrades stopped reqs uc0)).2 as [p|resp] eqn:Hrun.
  { exfalso. assert (Hok : match (JoinExecute stopped req (runTrades stopped reqs uc0)).2 with inl _ => 0 | inr _ => 1 end = 1) by by vm_compute.
    by rewrite Hrun in Hok. }
  assert (Hem : match (JoinExecute stopped req (runTrades stopped reqs uc0)).2 with inr r => jn_Emitted r | inl _ => false end = true) by by vm_compute.
  rewrite Hrun in Hem.
  destruct (snapshot_joins_latest_trades stopped (MkJoinConfig 10000 (3600 * 1000000000) false 2 f0 "half_even" 1024 (30 * 1000000000)) reqs req resp Hrun Hem)
    as (key & t & before & since & s & Htk & _ & _ & Hv & Hj & _ & _ & Hb).
  exists key, t, before, since, s. split_and!; [exact Htk|exact Hv|exact Hj|exact Hb].
Defined.
End examples.
