(* ===== verification/Heatmap.v ===== *)
(** * Heatmap: internal/core/insights/app/build_heatmap.go

    The use case that builds liquidity heatmaps, with the artifact of
    domain/heatmap_bucket.go. Windows and cells are reached only through their maps,
    so what the code writes through a pointer is the entry of the map. The endless
    [for] of [apply] is run with fuel: it goes around again only after a coarsening,
    of which a window has at most six. *)

From S2P Require Import Prelude GoRuntime Loops Shared Hash Insights VolumeProfile.

Local Open Scope string_scope.
Local Open Scope list_scope.
Local Open Scope Z_scope.

(** ** heatmap_bucket.go *)

Record HeatmapCellV1 := MkCell {
  PriceBucketLow : float64; PriceBucketHigh : float64; SizeBucket : string;
  BidLiquidity : float64; AskLiquidity : float64; TradeVolume : float64;
  cell_SeqMin : Z; cell_SeqMax : Z; Samples : Z;
}.
Record HeatmapArtifactV1 := MkArtifact {
  ha_Venue : string; ha_Instrument : string; ha_Timeframe : string; ha_WindowStartTs : Z; ha_WindowEndTs : Z;
  HeatCells : list HeatmapCellV1;
}.

Section domain.
Context {GR : GoRuntime}.

Definition sizeName (s : string) : string := ToUpper (TrimSpace s).

Definition compareCellOrder (a b : HeatmapCellV1) : Z :=
  if fltb (PriceBucketLow a) (PriceBucketLow b) then -1
  else if fltb (PriceBucketLow b) (PriceBucketLow a) then 1
  else if fltb (PriceBucketHigh a) (PriceBucketHigh b) then -1
  else if fltb (PriceBucketHigh b) (PriceBucketHigh a) then 1
  else let as_ := sizeName (SizeBucket a) in
       let bs := sizeName (SizeBucket b) in
       if str_ltb as_ bs then -1 else if str_ltb bs as_ then 1 else 0.

Definition validateHeatmapArtifactMetadata (a : HeatmapArtifactV1) : option Problem :=
  if blank (ha_Venue a) then refuse "heatmap venue must not be empty"
  else if blank (ha_Instrument a) then refuse "heatmap instrument must not be empty"
  else if blank (ha_Timeframe a) then refuse "heatmap timeframe must not be empty"
  else if (ha_WindowStartTs a <=? 0) || (ha_WindowEndTs a <=? ha_WindowStartTs a) then refuse "heatmap window bounds are invalid"
  else if Z.of_nat (length (HeatCells a)) =? 0 then refuse "heatmap artifact requires at least one cell"
  else None.

Definition validateHeatmapCell (c : HeatmapCellV1) : option Problem :=
  if blank (SizeBucket c) then refuse "heatmap size_bucket must not be empty"
  else if negb (isFinite (PriceBucketLow c)) || negb (isFinite (PriceBucketHigh c)) then refuse "heatmap price buckets must be finite"
  else if fltb (PriceBucketHigh c) (PriceBucketLow c) then refuse "heatmap price_bucket_high must be >= price_bucket_low"
  else if fltb (BidLiquidity c) f0 || fltb (AskLiquidity c) f0 || fltb (TradeVolume c) f0 then refuse "heatmap cell volumes must be >= 0"
  else if (cell_SeqMin c <=? 0) || (cell_SeqMax c <? cell_SeqMin c) then refuse "heatmap seq bounds are invalid"
  else if Samples c <=? 0 then refuse "heatmap samples must be > 0"
  else None.

(** The keys seen: their floats are compared as floats. *)
Fixpoint cellsLoop (cells : list HeatmapCellV1) (seen : list (float64 * float64 * string)) : option Problem :=
  match cells with
  | [] => None
  | c :: rest =>
      match validateHeatmapCell c with
      | Some p => Some p
      | None =>
          let size := sizeName (SizeBucket c) in
          if existsb (λ '(lo, hi, s), feqb lo (PriceBucketLow c) && feqb hi (PriceBucketHigh c) && str_eqb s size) seen
          then refuse "heatmap cells must be unique by price bucket + size bucket"
          else cellsLoop rest ((PriceBucketLow c, PriceBucketHigh c, size) :: seen)
      end
  end.

Definition Artifact_Validate (a : HeatmapArtifactV1) : option Problem :=
  match validateHeatmapArtifactMetadata a with
  | Some p => Some p
  | None =>
      match cellsLoop (HeatCells a) [] with
      | Some p => Some p
      | None => if negb (IsSortedFunc compareCellOrder (HeatCells a))
                then refuse "heatmap cells must be sorted by price bucket then size bucket" else None
      end
  end.
End domain.

(** ** build_heatmap.go *)

Definition heatmapDefaultWindowMs : Z := 60000.
Definition heatmapDefaultPriceBucketCap : Z := 512.
Definition heatmapDefaultSizeBucketCap : Z := 5.
Definition heatmapDefaultCellsCap : Z := 2048.
Definition heatmapDefaultOpenWindowsCap : Z := 2.
Definition heatmapDefaultMaxPayload : Z := 256 * 1024.

Record BuildHeatmapConfig := MkHeatConfig {
  MaxPriceBucketsPerWindow : Z; MaxSizeBuckets : Z; MaxCellsPerWindow : Z; hc_MaxOpenWindowsPerKey : Z; MaxPayloadBytes : Z;
}.
Record BuildHeatmapRequest := MkHeatRequest {
  hr_EventType : string; hr_Venue : string; hr_Instrument : string; hr_Timeframe : string; hr_TickSize : float64;
  hr_Price : float64; hr_Size : float64; hr_Side : string; hr_TsIngest : Z; hr_Seq : Z;
}.
Record BuildHeatmapResponse := MkHeatResponse {
  hp_Emitted : bool; hp_DropReason : string; Artifact : HeatmapArtifactV1; hp_IdempotencyKey : string;
}.
Record heatmapCellState := MkCellState {
  priceMid : float64; cs_low : float64; cs_high : float64; cs_size : string; bid : float64; ask : float64; trade : float64;
  cs_seqMin : Z; cs_seqMax : Z; samples : Z;
}.
#[export] Instance heatmapCellState_eta : Eta heatmapCellState := λ r,
  MkCellState (priceMid r) (cs_low r) (cs_high r) (cs_size r) (bid r) (ask r) (trade r) (cs_seqMin r) (cs_seqMax r) (samples r).
Record windowState := MkHeatWindow { hw_startMs : Z; hw_endMs : Z; priceMult : Z; cells : gmap Z heatmapCellState }.
#[export] Instance windowState_eta : Eta windowState := λ r, MkHeatWindow (hw_startMs r) (hw_endMs r) (priceMult r) (cells r).
Record partitionState := MkHeatPartition { heat_windows : gmap Z windowState; heat_order : list Z }.
#[export] Instance partitionState_eta : Eta partitionState := λ r, MkHeatPartition (heat_windows r) (heat_order r).
Record BuildHeatmap := MkHeatmap { heat_cfg : BuildHeatmapConfig; heat_states : gmap string partitionState }.
#[export] Instance BuildHeatmap_eta : Eta BuildHeatmap := λ r, MkHeatmap (heat_cfg r) (heat_states r).

Definition NewBuildHeatmapWithConfig (cfg : BuildHeatmapConfig) : BuildHeatmap :=
  MkHeatmap (MkHeatConfig (orDefault (MaxPriceBucketsPerWindow cfg) heatmapDefaultPriceBucketCap)
               (orDefault (MaxSizeBuckets cfg) heatmapDefaultSizeBucketCap) (orDefault (MaxCellsPerWindow cfg) heatmapDefaultCellsCap)
               (orDefault (hc_MaxOpenWindowsPerKey cfg) heatmapDefaultOpenWindowsCap)
               (orDefault (MaxPayloadBytes cfg) heatmapDefaultMaxPayload)) ∅.
Definition NewBuildHeatmap : BuildHeatmap := NewBuildHeatmapWithConfig (MkHeatConfig 0 0 0 0 0).

Definition sizeToOrdinal (s : string) : Z :=
  if str_eqb s "XS" then 0 else if str_eqb s "S" then 1 else if str_eqb s "M" then 2
  else if str_eqb s "L" then 3 else if str_eqb s "XL" then 4 else 5.
Definition toSizeBucket (size : float64) : string :=
  if fltb size (flit 25 100) then "XS" else if fltb size f1 then "S" else if fltb size (f_of_Z 5) then "M"
  else if fltb size (f_of_Z 20) then "L" else "XL".
Definition makeCellKey (priceIdx : Z) (sizeBucket : string) : Z := Z.lor (wrap64 (Z.shiftl priceIdx 4)) (sizeToOrdinal sizeBucket).

Definition priceBounds (bucketIdx : Z) (binSize : float64) (mult : Z) : float64 * float64 :=
  let step := fmul binSize (f_of_Z mult) in
  let low := fmul (f_of_Z bucketIdx) step in
  (low, fadd low step).

(** The set of floats [seen] has one entry for each value that is not equal to one
    before; a NaN is equal to none. *)
Definition priceBucketCount (ws : windowState) (range : list (Z * heatmapCellState)) : Z :=
  Z.of_nat (length (foldl (λ seen c, if existsb (feqb (cs_low c)) seen then seen else cs_low c :: seen) [] range.*2)).

(** [priceBounds] and [bucketIndex] for the bin of a price. *)
Section build.
Context {GR : GoRuntime}.

Definition bucketIndex (price binSize : float64) (mult : Z) : Z :=
  let step := fmul binSize (f_of_Z mult) in i64_of_f (Floor (fdiv price step)).

Definition applyEventVolume (req : BuildHeatmapRequest) (c : heatmapCellState) : heatmapCellState :=
  let side := NormalizeSide (hr_Side req) in
  if str_eqb (NormalizeEventType (hr_EventType req)) "marketdata.bookdelta" then
    if str_eqb side "buy" then c <| bid ::= λ v, fadd v (hr_Size req) |> else c <| ask ::= λ v, fadd v (hr_Size req) |>
  else c <| trade ::= λ v, fadd v (hr_Size req) |>.

(** The event added to its cell. *)
Definition addEvent (req : BuildHeatmapRequest) (c : heatmapCellState) : heatmapCellState :=
  let c := applyEventVolume req c in
  let c := if hr_Seq req <? cs_seqMin c then c <| cs_seqMin := hr_Seq req |> else c in
  let c := if cs_seqMax c <? hr_Seq req then c <| cs_seqMax := hr_Seq req |> else c in
  c <| samples ::= λ n, add64 n 1 |>.

(** A cell added to the one it falls into. *)
Definition mergeCell (c dst : heatmapCellState) : heatmapCellState :=
  let dst := dst <| bid ::= λ v, fadd v (bid c) |> <| ask ::= λ v, fadd v (ask c) |> <| trade ::= λ v, fadd v (trade c) |> in
  let dst := if cs_seqMin c <? cs_seqMin dst then dst <| cs_seqMin := cs_seqMin c |> else dst in
  let dst := if cs_seqMax dst <? cs_seqMax c then dst <| cs_seqMax := cs_seqMax c |> else dst in
  dst <| samples ::= λ n, add64 n (samples c) |>.

(** One cell of the range loop of [coarsen]. *)
Definition coarsenStep (mult : Z) (tickSize binFactor : float64) (c : heatmapCellState) (next : gmap Z heatmapCellState)
    : option (gmap Z heatmapCellState) :=
  cellBin ← CalculateHeatmapBinSizeWithFactor (priceMid c) tickSize binFactor;
  let priceIdx := bucketIndex (priceMid c) cellBin mult in
  let '(low, high) := priceBounds priceIdx cellBin mult in
  let key := makeCellKey priceIdx (cs_size c) in
  let dst := default (MkCellState (priceMid c) low high (cs_size c) f0 f0 f0 (cs_seqMin c) (cs_seqMax c) 0) (next !! key) in
  Some (<[key := mergeCell c dst]> next).
Fixpoint coarsenLoop (mult : Z) (tickSize binFactor : float64) (cs : list heatmapCellState) (next : gmap Z heatmapCellState)
    : option (gmap Z heatmapCellState) :=
  match cs with
  | [] => Some next
  | c :: rest => next' ← coarsenStep mult tickSize binFactor c next; coarsenLoop mult tickSize binFactor rest next'
  end.

(** [inl] of the window is [false], [inr] is [true]. *)
Definition coarsen (tickSize binFactor : float64) (ws : windowState) : option (windowState + windowState) :=
  if 64 <=? priceMult ws then Some (inl ws) else
  let ws := ws <| priceMult := mul64 (priceMult ws) 2 |> in
  next ← coarsenLoop (priceMult ws) tickSize binFactor (map_range (cells ws)).*2 ∅;
  Some (inr (ws <| cells := next |>)).

(** The state of the endless loop: the window and the drop reason so far, and when it
    is over whether the event was dropped. *)
Inductive applyState := Trying (ws : windowState) (reason : string) | Added (ws : windowState) (reason : string) | Dropped (ws : windowState).

Definition applyPass (cfg : BuildHeatmapConfig) (req : BuildHeatmapRequest) (factor binSize : float64) (ws : windowState) (reason : string)
    : option applyState :=
  let priceIdx := bucketIndex (hr_Price req) binSize (priceMult ws) in
  let '(low, high) := priceBounds priceIdx binSize (priceMult ws) in
  let sizeBucket := toSizeBucket (hr_Size req) in
  let cellKey := makeCellKey priceIdx sizeBucket in
  let add c := Some (Added (ws <| cells ::= <[cellKey := addEvent req c]> |>) reason) in
  match cells ws !! cellKey with
  | Some c => add c
  | None =>
      if MaxPriceBucketsPerWindow cfg <=? priceBucketCount ws (map_range (cells ws)) then
        r ← coarsen (hr_TickSize req) factor ws;
        match r with
        | inr ws' => Some (Trying ws' "coarsen_price_bucket")
        | inl ws' => Some (Dropped ws')
        end
      else add (MkCellState (hr_Price req) low high sizeBucket f0 f0 f0 (hr_Seq req) (hr_Seq req) 0)
  end.
Definition applyBody (cfg : BuildHeatmapConfig) (req : BuildHeatmapRequest) (factor binSize : float64) (s : option applyState)
    : option (option applyState) :=
  match s with Some (Trying ws reason) => Some (applyPass cfg req factor binSize ws reason) | _ => None end.

Definition compareCellState (a b : Z * heatmapCellState) : Z :=
  let ia := fadd (fadd (bid a.2) (ask a.2)) (trade a.2) in
  let ib := fadd (fadd (bid b.2) (ask b.2)) (trade b.2) in
  if fltb ib ia then -1 else if fltb ia ib then 1
  else if fltb (cs_low a.2) (cs_low b.2) then -1 else if fltb (cs_low b.2) (cs_low a.2) then 1
  else if str_ltb (cs_size a.2) (cs_size b.2) then -1 else if str_ltb (cs_size b.2) (cs_size a.2) then 1 else 0.
Definition keepTopCells (cs : gmap Z heatmapCellState) (n : Z) : gmap Z heatmapCellState :=
  list_to_map (take (Z.to_nat n) (SortFunc compareCellState (map_range cs))).

(** The window and the drop reason. [None] is a loop that does not end. *)
Definition apply (cfg : BuildHeatmapConfig) (req : BuildHeatmapRequest) (ws : windowState) : option (windowState * string) :=
  let factor := HeatmapBinFactorForTimeframe (NormalizeTimeframe (hr_Timeframe req)) in
  binSize ← CalculateHeatmapBinSizeWithFactor (hr_Price req) (hr_TickSize req) factor;
  s ← loop (applyBody cfg req factor binSize) 9 (Some (Trying ws ""));
  match s with
  | Some (Dropped ws) => Some (ws, "price_bucket_cap")
  | Some (Added ws reason) =>
      if MaxCellsPerWindow cfg <? Z.of_nat (base.size (cells ws))
      then Some (ws <| cells := keepTopCells (cells ws) (MaxCellsPerWindow cfg) |>, "top_n_cells")
      else Some (ws, reason)
  | _ => None
  end.

Definition getHeatWindow (cfg : BuildHeatmapConfig) (start end_ : Z) (ps : partitionState) : partitionState * windowState :=
  match heat_windows ps !! start with
  | Some ws => (ps, ws)
  | None =>
      let ps := if hc_MaxOpenWindowsPerKey cfg <=? Z.of_nat (length (heat_order ps)) then
                  match heat_order ps with
                  | oldest :: rest => ps <| heat_windows ::= delete oldest |> <| heat_order := rest |>
                  | [] => ps
                  end
                else ps in
      let ws := MkHeatWindow start end_ 1 ∅ in
      (ps <| heat_windows ::= <[start := ws]> |> <| heat_order := sort_slice Z.ltb (heat_order ps ++ [start]) |>, ws)
  end.

Definition toArtifact (v i tf : string) (ws : windowState) : HeatmapArtifactV1 :=
  let cell c := MkCell (cs_low c) (cs_high c) (cs_size c) (bid c) (ask c) (trade c) (cs_seqMin c) (cs_seqMax c) (samples c) in
  MkArtifact (CanonicalVenue v) (CanonicalInstrument i) (NormalizeTimeframe tf) (hw_startMs ws) (hw_endMs ws)
    (SortFunc compareCellOrder (cell <$> (map_range (cells ws)).*2)).

Definition compareCellVolume (a b : HeatmapCellV1) : Z :=
  let ia := fadd (fadd (BidLiquidity a) (AskLiquidity a)) (TradeVolume a) in
  let ib := fadd (fadd (BidLiquidity b) (AskLiquidity b)) (TradeVolume b) in
  if fltb ib ia then -1 else if fltb ia ib then 1 else compareCellOrder a b.
Definition pickTopNCells (l : list HeatmapCellV1) (n : Z) : list HeatmapCellV1 :=
  if Z.of_nat (length l) <=? n then l else SortFunc compareCellOrder (take (Z.to_nat n) (SortFunc compareCellVolume l)).
Definition trimToPayloadBudget (cfg : BuildHeatmapConfig) (a : HeatmapArtifactV1) : HeatmapArtifactV1 :=
  if Z.of_nat (length (HeatCells a)) =? 0 then a else
  let maxCells := Z.quot (MaxPayloadBytes cfg - 200) 280 in
  let maxCells := if maxCells <? 1 then 1 else maxCells in
  if maxCells <? Z.of_nat (length (HeatCells a)) then
    MkArtifact (ha_Venue a) (ha_Instrument a) (ha_Timeframe a) (ha_WindowStartTs a) (ha_WindowEndTs a) (pickTopNCells (HeatCells a) maxCells)
  else a.

Definition timeframeToWindowMs (tf : string) : Z :=
  let tf := NormalizeTimeframe tf in
  if str_eqb tf "1s" then 1000 else if str_eqb tf "5s" then 5000 else if str_eqb tf "10s" then 10000
  else if str_eqb tf "1m" || str_eqb tf "raw" then 60000 else if str_eqb tf "5m" then 300000
  else if str_eqb tf "15m" then 900000 else if str_eqb tf "30m" then 1800000 else if str_eqb tf "1h" then 3600000
  else if str_eqb tf "4h" then 14400000 else if str_eqb tf "1d" then 86400000 else heatmapDefaultWindowMs.

Definition heatPartitionKey (v i tf : string) : string :=
  (CanonicalVenue v ++ "|" ++ CanonicalInstrument i ++ "|" ++ NormalizeTimeframe tf)%string.

Definition HeatmapArtifactIdempotencyKey (a : HeatmapArtifactV1) : string :=
  match last (HeatCells a) with
  | None => ""
  | Some c =>
      Hex (HashInt64 (cell_SeqMax c) (HashString (sizeName (SizeBucket c)) (HashFloat64 (PriceBucketHigh c) (HashFloat64 (PriceBucketLow c)
        (HashInt64 (ha_WindowStartTs a) (HashString (NormalizeTimeframe (ha_Timeframe a))
          (HashString (CanonicalInstrument (ha_Instrument a)) (HashString (CanonicalVenue (ha_Venue a)) NewFieldHasher))))))))
  end.

Definition validateHeatmapRequest (req : BuildHeatmapRequest) : option Problem :=
  Collect [NonEmptyString "event_type" (hr_EventType req); NonEmptyString "venue" (hr_Venue req);
           NonEmptyString "instrument" (hr_Instrument req); NonEmptyString "timeframe" (hr_Timeframe req);
           NonEmptyString "side" (hr_Side req); Positive "tick_size" (hr_TickSize req); Positive "price" (hr_Price req);
           Positive "size" (hr_Size req); PositiveInt "ts_ingest" (hr_TsIngest req); PositiveInt "seq" (hr_Seq req)].

Definition noEnd : Problem := New Internal "the loop does not end".

Definition HeatExecute (req : BuildHeatmapRequest) : Meth BuildHeatmap Problem BuildHeatmapResponse := λ uc,
  match validateHeatmapRequest req with
  | Some p => (uc, inl p)
  | None =>
      let key := heatPartitionKey (hr_Venue req) (hr_Instrument req) (hr_Timeframe req) in
      let windowMs := timeframeToWindowMs (hr_Timeframe req) in
      let windowMs := if windowMs <=? 0 then heatmapDefaultWindowMs else windowMs in
      let windowStart := mul64 (quot64 (hr_TsIngest req) windowMs) windowMs in
      let windowEnd := add64 windowStart windowMs in
      let '(ps, ws) := getHeatWindow (heat_cfg uc) windowStart windowEnd (default (MkHeatPartition ∅ []) (heat_states uc !! key)) in
      match apply (heat_cfg uc) req ws with
      | None => (uc <| heat_states ::= <[key := ps]> |>, inl noEnd)
      | Some (ws, reason) =>
          let uc := uc <| heat_states ::= <[key := ps <| heat_windows ::= <[windowStart := ws]> |>]> |> in
          let artifact := toArtifact (hr_Venue req) (hr_Instrument req) (hr_Timeframe req) ws in
          let trimmed := trimToPayloadBudget (heat_cfg uc) artifact in
          match Artifact_Validate trimmed with
          | Some p => (uc, inl p)
          | None => (uc, inr (MkHeatResponse true reason trimmed (HeatmapArtifactIdempotencyKey trimmed)))
          end
      end
  end.

(** [Snapshot] *)
Definition latestHeatmap (v i tf : string) (uc : BuildHeatmap) : Problem + HeatmapArtifactV1 :=
  match Collect [NonEmptyString "venue" v; NonEmptyString "instrument" i; NonEmptyString "timeframe" tf] with
  | Some p => inl p
  | None =>
      let notFound msg := inl (Newf NotFound msg [AnyStr v; AnyStr i; AnyStr tf]) in
      match heat_states uc !! heatPartitionKey v i tf with
      | None => notFound "heatmap snapshot not found for %s/%s/%s"
      | Some ps =>
          match last (heat_order ps) with
          | None => notFound "heatmap snapshot not found for %s/%s/%s"
          | Some windowStart =>
              match heat_windows ps !! windowStart with
              | None => notFound "heatmap snapshot window not found for %s/%s/%s"
              | Some ws =>
                  let artifact := trimToPayloadBudget (heat_cfg uc) (toArtifact v i tf ws) in
                  match Artifact_Validate artifact with Some p => inl p | None => inr artifact end
              end
          end
      end
  end.
End build.
