(* ===== verification/HeatmapSpec.v ===== *)
(** * HeatmapSpec: what a heatmap promises

    Every request is answered: the loop of [apply] ends. Whatever coarsening a window
    went through, its cells account for every event. *)

From S2P Require Import Prelude GoRuntime Loops Shared Hash Insights Grouping VolumeProfile VolumeProfileSpec Heatmap.

Local Open Scope string_scope.
Local Open Scope list_scope.
Local Open Scope Z_scope.

(** ** Samples *)

Fixpoint sumSamples (l : list heatmapCellState) : Z := match l with [] => 0 | c :: rest => samples c + sumSamples rest end.
(** Equal as 64-bit counters. *)
Definition sameCount (a b : Z) : Prop := wrap64 a = wrap64 b.

Lemma sumSamples_app l k : sumSamples (l ++ k) = sumSamples l + sumSamples k.
Proof. induction l as [|c l IH]; [done|]. cbn. rewrite IH. lia. Qed.
#[local] Instance sumSamples_perm : Proper ((≡ₚ) ==> (=)) sumSamples.
Proof. induction 1; cbn; lia. Qed.



Lemma samples_add c n : sameCount (samples (c <| samples ::= λ m, add64 m n |>)) (samples c + n).
Proof. unfold sameCount. cbn. unfold upd. cbn. unfold add64. rewrite wrap64_id by apply wrap64_range. done. Qed.

(** ** Cells *)




Section cells.
Context {GR : GoRuntime}.


End cells.

(** ** Coarsening *)


Section window.
Context {GR : GoRuntime}.













#[local] Opaque apply.





End window.

(** ** Runs *)

Section run.
Context {GR : GoRuntime}.


Definition runHeat (reqs : list BuildHeatmapRequest) (uc : BuildHeatmap) : BuildHeatmap := foldl (λ uc r, (HeatExecute r uc).1) uc reqs.












End run.

(** ** Examples *)

(** A runtime that iterates over maps the other way round. *)
Program Definition go_reversed : GoRuntime := {|
  f2i_overflow _ := MinInt64;
  trim_unicode := trim_ascii;
  lower_unicode := str_map lower_ascii;
  upper_unicode := str_map upper_ascii;
  alnum_unicode s := s;
  equal_fold_unicode := String.eqb;
  sort_slice _ := sort_by;
  map_range _ _ _ _ := λ m, reverse (map_to_list m);
  nan_bits := 9221120237041090561;
|}.
Next Obligation. intros f. unfold in_i64, MinInt64, MaxInt64. lia. Qed.
Next Obligation. intros s _. cbn. destruct (is_ascii _); apply trim_ascii_idem. Qed.
Next Obligation. intros. apply sort_by_perm. Qed.
Next Obligation. intros. by apply sort_by_sorted. Qed.
Next Obligation. intros. cbn. apply reverse_Permutation. Qed.

Section examples.

Definition tradeHeat (p : float64) (n : Z) : BuildHeatmapRequest :=
  MkHeatRequest "marketdata.trade" "binance" "BTC-USDT" "1h" (flit 5 1000) p f1 "buy" 3600000 n.
Definition cellsAfter (GR : GoRuntime) (cap : Z) (reqs : list BuildHeatmapRequest) (req : BuildHeatmapRequest) : list (float64 * float64) :=
  match (HeatExecute req (runHeat reqs (NewBuildHeatmapWithConfig (MkHeatConfig cap 0 0 0 0)))).2 with
  | inr resp => (λ c, (PriceBucketLow c, TradeVolume c)) <$> HeatCells (Artifact resp)
  | inl _ => []
  end.

(** The width of a bin grows with the price, but a cell is kept under the index of
    its bin alone: trades at 100 and at 200 meet in the cell from 100 on. *)
Theorem prices_apart_share_a_cell : cellsAfter go_amd64 0 [tradeHeat (f_of_Z 100) 1] (tradeHeat (f_of_Z 200) 2) = [(f_of_Z 100, f_of_Z 2)].
Proof. by vm_compute. Qed.

(** When coarsening makes cells meet, the bounds of the first one visited stay: the
    same events give different heatmaps for different orders of map iteration. *)
Theorem coarsened_heatmap_depends_on_iteration :
  let reqs := [tradeHeat (f_of_Z 100) 1; tradeHeat (flit 20006 100) 2] in
  cellsAfter go_amd64 2 reqs (tradeHeat (f_of_Z 300) 3) ≠ cellsAfter go_reversed 2 reqs (tradeHeat (f_of_Z 300) 3).
Proof. by vm_compute. Qed.


End examples.
