(* ===== verification/Sha256.v ===== *)
(** * Sha256: the SHA-256 routines of internal/shared/hash/hash.go

    [HashBytes] and [HashFields] call crypto/sha256, which is written out here:
    padding, the message schedule and the compression of 512-bit blocks, on
    32-bit words as [Z]. Bytes are in [0, 256). *)

From S2P Require Import Prelude GoRuntime Hash.

Local Open Scope string_scope.
Local Open Scope list_scope.
Local Open Scope Z_scope.

(** ** crypto/sha256 *)

Definition rotr (x n : Z) : Z := Z.lor (Z.shiftr x n) (wrapu32 (Z.shiftl x (32 - n))).
Definition not32 (x : Z) : Z := Z.lxor x 4294967295.

Definition bigSigma0 (x : Z) : Z := Z.lxor (Z.lxor (rotr x 2) (rotr x 13)) (rotr x 22).
Definition bigSigma1 (x : Z) : Z := Z.lxor (Z.lxor (rotr x 6) (rotr x 11)) (rotr x 25).
Definition smallSigma0 (x : Z) : Z := Z.lxor (Z.lxor (rotr x 7) (rotr x 18)) (Z.shiftr x 3).
Definition smallSigma1 (x : Z) : Z := Z.lxor (Z.lxor (rotr x 17) (rotr x 19)) (Z.shiftr x 10).
Definition choose (x y z : Z) : Z := Z.lxor (Z.land x y) (Z.land (not32 x) z).
Definition majority (x y z : Z) : Z := Z.lxor (Z.lxor (Z.land x y) (Z.land x z)) (Z.land y z).

(** The constants of the algorithm are the first 32 bits of the fractional parts of
    the cube roots of the first sixty-four primes, and of the square roots of the
    first eight; they are computed here once. *)
Definition is_prime (n : Z) : bool :=
  forallb (λ d, negb (n mod d =? 0)) (seqZ 2 (n - 2)).
Definition firstPrimes : list Z := List.filter is_prime (seqZ 2 310).

(** The largest [r + d] with [d < 2^k] whose cube is at most [n]. *)
Fixpoint cubeRoot (k : nat) (r n : Z) : Z :=
  match k with
  | O => r
  | S k' =>
      let candidate := r + Z.shiftl 1 (Z.of_nat k') in
      cubeRoot k' (if candidate * candidate * candidate <=? n then candidate else r) n
  end.

Definition roundConstants : list Z :=
  Eval vm_compute in ((λ q, wrapu32 (cubeRoot 40 0 (Z.shiftl q 96))) <$> firstPrimes).
Definition initialState : list Z :=
  Eval vm_compute in ((λ q, wrapu32 (Z.sqrt (Z.shiftl q 64))) <$> take 8 firstPrimes).

(** [k] bytes of [u], the most significant first. *)
Fixpoint bigEndian (k : nat) (u : Z) : list Z :=
  match k with O => [] | S k' => Z.land (Z.shiftr u (8 * Z.of_nat k')) 255 :: bigEndian k' u end.

(** A one bit, zeros up to 56 modulo 64, and the length in bits. *)
Definition padding (len : Z) : list Z :=
  128 :: replicate (Z.to_nat ((55 - len) mod 64)) 0 ++ bigEndian 8 (wrapu64 (8 * len)).

(** The sixteen words of a block; shorter input ends the list. *)
Fixpoint words (l : list Z) : list Z :=
  match l with
  | a :: b :: c :: d :: rest =>
      Z.lor (Z.lor (Z.shiftl a 24) (Z.shiftl b 16)) (Z.lor (Z.shiftl c 8) d) :: words rest
  | _ => []
  end.

(** [w] holds the last sixteen words, the latest first. *)
Fixpoint schedule (n : nat) (w : list Z) : list Z :=
  match n with
  | O => []
  | S n' =>
      let next := wrapu32 (smallSigma1 (w !!! 1%nat) + w !!! 6%nat + smallSigma0 (w !!! 14%nat) + w !!! 15%nat) in
      next :: schedule n' (next :: take 15 w)
  end.

Definition round (s : list Z) (kw : Z * Z) : list Z :=
  match s with
  | [a; b; c; d; e; f; g; h] =>
      let t1 := h + bigSigma1 e + choose e f g + kw.1 + kw.2 in
      let t2 := bigSigma0 a + majority a b c in
      [wrapu32 (t1 + t2); a; b; c; wrapu32 (d + t1); e; f; g]
  | _ => s
  end.

Definition compress (s : list Z) (block : list Z) : list Z :=
  let w := words block in
  let w := w ++ schedule 48 (reverse w) in
  zip_with (λ x y, wrapu32 (x + y)) s (foldl round s (zip roundConstants w)).

Fixpoint blocks (n : nat) (s data : list Z) : list Z :=
  match n with
  | O => s
  | S n' => blocks n' (compress s (take 64 data)) (drop 64 data)
  end.

Definition Sum256 (data : list Z) : list Z :=
  let padded := data ++ padding (Z.of_nat (length data)) in
  mjoin (bigEndian 4 <$> blocks (length padded / 64) initialState padded).

(** ** encoding/hex and hash.go *)

Fixpoint EncodeToString (bytes : list Z) : string :=
  match bytes with
  | [] => ""
  | b :: rest => String (hexDigit (Z.shiftr b 4)) (String (hexDigit (Z.land b 15)) (EncodeToString rest))
  end.

Definition HashBytes (data : list Z) : string := EncodeToString (Sum256 data).

(** [HashFields]: the fields with a zero byte between them. *)
Definition HashFields (fields : list string) : string := HashBytes (joined (bytesOf <$> fields)).

(** ** Properties *)

Example sha256_of_abc :
  HashBytes (bytesOf "abc") = "ba7816bf8f01cfea414140de5dae2223b00361a396177a9cb410ff61f20015ad".
Proof. vm_compute. reflexivity. Qed.
Example sha256_of_nothing :
  HashBytes [] = "e3b0c44298fc1c149afbf4c8996fb92427ae41e4649b934ca495991b7852b855".
Proof. vm_compute. reflexivity. Qed.
Example sha256_of_two_blocks :
  HashBytes (bytesOf "abcdbcdecdefdefgefghfghighijhijkijkljklmklmnlmnomnopnopq")
  = "248d6a61d20638b8e5c026930c3e6039a33ce45964ff2167f6ecedd419db06c1".
Proof. vm_compute. reflexivity. Qed.

(** The state stays eight words whatever the block: the digest has thirty-two bytes. *)
Lemma length_round s kw : length s = 8%nat → length (round s kw) = 8%nat.
Proof. intros. do 9 (destruct s as [|? s]; try done). Qed.
Lemma length_rounds l s : length s = 8%nat → length (foldl round s l) = 8%nat.
Proof. revert s. induction l as [|kw l IH]; intros s Hs; [done|]. apply IH. by apply length_round. Qed.
Lemma length_compress s block : length s = 8%nat → length (compress s block) = 8%nat.
Proof. intros Hs. unfold compress. cbv zeta. by rewrite length_zip_with, length_rounds, Hs. Qed.
Lemma length_blocks n s data : length s = 8%nat → length (blocks n s data) = 8%nat.
Proof.
  revert s data. induction n as [|n IH]; intros s data Hs; [done|]. cbn [blocks]. apply IH. by apply length_compress.
Qed.

Lemma length_EncodeToString l : String.length (EncodeToString l) = (2 * length l)%nat.
Proof. induction l as [|b l IH]; [done|]. cbn [EncodeToString String.length length]. lia. Qed.

Lemma length_bigEndian k u : length (bigEndian k u) = k.
Proof. induction k as [|k IH]; cbn; by f_equal. Qed.

Lemma length_Sum256 data : length (Sum256 data) = 32%nat.
Proof.
  unfold Sum256. cbv zeta.
  assert (∀ l : list Z, length (mjoin (bigEndian 4 <$> l)) = (4 * length l)%nat) as Hl.
  { induction l as [|x l IH]; [done|]. cbn [fmap list_fmap mjoin list_join length].
    rewrite length_app, length_bigEndian. change (length (mjoin (bigEndian 4 <$> l)) = (4 * length l)%nat) in IH.
    change (4 + length (mjoin (bigEndian 4 <$> l)) = 4 * S (length l))%nat. lia. }
  by rewrite Hl, length_blocks.
Qed.

(** The digest is sixty-four characters, as the documentation says. *)
Lemma HashBytes_length data : String.length (HashBytes data) = 64%nat.
Proof. unfold HashBytes. by rewrite length_EncodeToString, length_Sum256. Qed.
