(* ===== verification/Subjects.v ===== *)
(** * Subjects: internal/adapters/jetstream/subject_validation.go, shard.go

    The taxonomy of the subjects on the bus, {event}.{version}.{venue}.{instrument},
    its validation, and the assignment of subjects to the groups of consumers. A
    regular expression is the predicate it stands for. *)

From S2P Require Import Prelude GoRuntime Shared Hash Envelope.
From Stdlib Require Import Ascii.

Local Open Scope string_scope.
Local Open Scope list_scope.
Local Open Scope Z_scope.

(** [strings.ContainsAny] *)
Fixpoint str_elem (c : Ascii.ascii) (s : string) : bool :=
  match s with EmptyString => false | String d s' => Ascii.eqb c d || str_elem c s' end.
Definition ContainsAny (s chars : string) : bool := negb (str_forallb (λ c, negb (str_elem c chars)) s).

(** [" \t\r\n"] *)
Definition blanks : string :=
  String " "%char (String (Ascii.ascii_of_N 9) (String (Ascii.ascii_of_N 13) (String (Ascii.ascii_of_N 10) ""))).

Definition in_range (lo hi : N) (c : Ascii.ascii) : bool :=
  let n := Ascii.N_of_ascii c in ((lo <=? n) && (n <=? hi))%N.
Definition is_lower (c : Ascii.ascii) : bool := in_range 97 122 c.
Definition is_upper (c : Ascii.ascii) : bool := in_range 65 90 c.
Definition is_digit (c : Ascii.ascii) : bool := in_range 48 57 c.
Definition is_char (d c : Ascii.ascii) : bool := Ascii.eqb c d.

(** [ [p]+ ] and [ ^[p]+$ ] *)
Definition plus (p : Ascii.ascii → bool) (s : string) : bool := negb (str_eqb s "") && str_forallb p s.

(** [ ^[a-z0-9_]+(?:\.[a-z0-9_]+)*$ ] *)
Definition subjectEventPattern (s : string) : bool :=
  forallb (plus (λ c, is_lower c || is_digit c || is_char "_"%char c)) (Split "."%char s).
(** [ ^v[1-9][0-9]*$ ] *)
Definition subjectVersionPattern (s : string) : bool :=
  match s with
  | String v (String d rest) => is_char "v"%char v && in_range 49 57 d && str_forallb is_digit rest
  | _ => false
  end.
(** [ ^[A-Za-z0-9_-]+$ ] *)
Definition subjectTokenPattern : string → bool :=
  plus (λ c, is_upper c || is_lower c || is_digit c || is_char "_"%char c || is_char "-"%char c).

Definition allowedSubjectRoots : list string :=
  ["aggregation"; "dataplane"; "evidence"; "execution"; "insights"; "liquidity"; "marketdata"; "portfolio";
   "quarantine"; "signal"; "strategy"].

Section subjects.
Context {GR : GoRuntime}.

Record taxonomy := MkTaxonomy { tx_event : string; tx_version : string; tx_venue : string; tx_instrument : string }.

(** [tokens[:len(tokens)-3]] and the last three tokens, the list reversed. *)
Definition splitSubjectTaxonomy (subject : string) : Problem + taxonomy :=
  let subject := TrimSpace subject in
  if str_eqb subject "" then inl (New ValidationFailed "subject must not be empty") else
  if ContainsAny subject (blanks +:+ "*>") then
    inl (Newf ValidationFailed "subject %q must be concrete and without spaces" [AnyStr subject]) else
  let tokens := Split "."%char subject in
  match reverse tokens with
  | instrument :: venue :: version :: e :: es =>
      if existsb (λ token, str_eqb (TrimSpace token) "") tokens then
        inl (Newf ValidationFailed "subject %q has empty token" [AnyStr subject])
      else inr (MkTaxonomy (Join (reverse (e :: es)) ".") version venue instrument)
  | _ => inl (Newf ValidationFailed "subject %q must have at least 4 tokens" [AnyStr subject])
  end.

Definition ValidateSubjectTaxonomy (subject : string) : option Problem :=
  match splitSubjectTaxonomy subject with
  | inl err => Some err
  | inr (MkTaxonomy event version venue instrument) =>
      if negb (subjectEventPattern event) then
        Some (Newf ValidationFailed "subject event %q is invalid" [AnyStr event])
      else if negb (subjectVersionPattern version) then
        Some (Newf ValidationFailed "subject version %q must be v{int}" [AnyStr version])
      else if negb (subjectTokenPattern venue) then
        Some (Newf ValidationFailed "subject venue %q is invalid" [AnyStr venue])
      else if negb (subjectTokenPattern instrument) then
        Some (Newf ValidationFailed "subject instrument %q is invalid" [AnyStr instrument])
      else
        let root := default "" (head (Split "."%char event)) in
        if one_of root allowedSubjectRoots then None
        else Some (Newf ValidationFailed "subject root %q is not allowed" [AnyStr root])
  end.

(** The loop over the tokens: an error, or whether there is a wildcard. *)
Fixpoint patternTokens (pattern : string) (hasWildcard : bool) (tokens : list string) : Problem + bool :=
  match tokens with
  | [] => inr hasWildcard
  | token :: rest =>
      if str_eqb token "" then inl (Newf ValidationFailed "subject pattern %q has an empty token" [AnyStr pattern])
      else if str_eqb token "*" then patternTokens pattern true rest
      else if str_eqb token ">" then
        match rest with
        | [] => inr true
        | _ => inl (Newf ValidationFailed "subject pattern %q has invalid > placement" [AnyStr pattern])
        end
      else if ContainsAny token "*>" then
        inl (Newf ValidationFailed "subject pattern %q has invalid wildcard token %q" [AnyStr pattern; AnyStr token])
      else if negb (subjectTokenPattern token) then
        inl (Newf ValidationFailed "subject pattern %q token %q is invalid" [AnyStr pattern; AnyStr token])
      else patternTokens pattern hasWildcard rest
  end.

Definition ValidateSubjectPattern (pattern : string) : option Problem :=
  let pattern := TrimSpace pattern in
  if str_eqb pattern "" then Some (New ValidationFailed "subject pattern must not be empty") else
  if ContainsAny pattern blanks then
    Some (Newf ValidationFailed "subject pattern %q must not contain spaces" [AnyStr pattern]) else
  let tokens := Split "."%char pattern in
  match tokens with
  | root :: _ :: _ =>
      if negb (one_of root allowedSubjectRoots) then
        Some (Newf ValidationFailed "subject pattern root %q is not allowed" [AnyStr root])
      else match patternTokens pattern false tokens with
           | inl err => Some err
           | inr true => None
           | inr false => ValidateSubjectTaxonomy pattern
           end
  | _ => Some (Newf ValidationFailed "subject pattern %q must have at least 2 tokens" [AnyStr pattern])
  end.

(** ** shard.go *)

(** [hash/fnv], 32-bit FNV-1a *)
Definition fnv32a (bytes : list Z) : Z :=
  foldl (λ h b, wrapu32 (Z.lxor h b * 16777619)) 2166136261 bytes.

Definition ShardKey (subject : string) : Z :=
  match splitSubjectTaxonomy subject with
  | inl _ => fnv32a (bytesOf subject)
  | inr t => fnv32a (bytesOf (tx_venue t) ++ [0] ++ bytesOf (tx_instrument t))
  end.

(** [groupCount] converted to [uint32]; a zero there is a division by zero, which
    needs a count that is a multiple of 2^32. *)
Definition ShardGroup (shardKey groupCount : Z) : Z :=
  if groupCount <=? 1 then 0 else shardKey mod wrapu32 groupCount.

Definition subjectBelongsToOtherShard (subject : string) (groupCount myGroupID : Z) : bool :=
  if groupCount <=? 1 then false
  else negb (ShardGroup (ShardKey subject) groupCount =? myGroupID).
End subjects.

(** ** Strings of harmless characters *)

Section strings.

Lemma str_forallb_impl (p q : ascii → bool) s :
  (∀ c, p c = true → q c = true) → str_forallb p s = true → str_forallb q s = true.
Proof. intros Hpq. induction s as [|c s IH]; [done|]. cbn. intros [? ?]%andb_true_iff. rewrite Hpq, IH; done. Qed.

Lemma append_cons c s t : String c s +:+ t = String c (s +:+ t).
Proof. reflexivity. Qed.

Lemma str_forallb_app p s t : str_forallb p (s +:+ t) = str_forallb p s && str_forallb p t.
Proof. induction s as [|c s IH]; [done|]. rewrite append_cons. cbn [str_forallb]. by rewrite IH, andb_assoc. Qed.

(** A text without blanks is not changed by trimming. *)
Definition plain (c : ascii) : bool := ascii_lt128 c && negb (is_space c) && negb (str_elem c (blanks +:+ "*>")).

Lemma trim_right_plain s : str_forallb plain s = true → trim_right s = s.
Proof.
  induction s as [|c s IH]; [done|]. cbn [str_forallb trim_right]. intros [Hc Hs]%andb_true_iff. rewrite (IH Hs).
  unfold plain in Hc. reflect_bools. destruct s; [|done]. by rewrite H1.
Qed.
Lemma trim_plain s : str_forallb plain s = true → trim_ascii s = s.
Proof.
  intros Hs. unfold trim_ascii. rewrite <- (trim_right_plain s Hs) at 2. f_equal.
  destruct s as [|c s]; [done|]. cbn in Hs. apply andb_true_iff in Hs as [Hc _]. unfold plain in Hc. reflect_bools.
  cbn [trim_left]. by rewrite H1.
Qed.
Lemma TrimSpace_plain {GR : GoRuntime} s : str_forallb plain s = true → TrimSpace s = s.
Proof.
  intros Hs. unfold TrimSpace. rewrite trim_plain by done. unfold is_ascii.
  rewrite (str_forallb_impl plain); [done| |done]. unfold plain. intros c Hc. by reflect_bools.
Qed.
Lemma ContainsAny_plain s : str_forallb plain s = true → ContainsAny s (blanks +:+ "*>") = false.
Proof.
  intros Hs. unfold ContainsAny. apply negb_false_iff. apply (str_forallb_impl plain); [|done].
  unfold plain. by intros c [_ Hc]%andb_true_iff.
Qed.

(** ** [Split] and [Join] *)

Definition nodot (s : string) : Prop := str_forallb (λ c, negb (Ascii.eqb c "."%char)) s = true.

Lemma Split_nodot s : nodot s → Split "."%char s = [s].
Proof.
  unfold nodot. induction s as [|c s IH]; [done|]. cbn [str_forallb Split]. intros [Hc Hs]%andb_true_iff.
  apply negb_true_iff in Hc. by rewrite Hc, (IH Hs).
Qed.
Lemma Split_not_nil s : Split "."%char s ≠ [].
Proof. destruct s as [|c s]; cbn; [done|]. repeat case_match; done. Qed.
(** Splitting a text made of two parts splits each of them. *)
Lemma Split_app s t : Split "."%char (s +:+ "." +:+ t) = Split "."%char s ++ Split "."%char t.
Proof.
  induction s as [|c s IH]; [done|]. rewrite append_cons. cbn [Split]. rewrite IH. case_match; [done|].
  destruct (Split "."%char s) eqn:Hs; [by apply Split_not_nil in Hs|done].
Qed.

Lemma Join_Split s : Join (Split "."%char s) "." = s.
Proof.
  induction s as [|c s IH]; [done|]. cbn [Split]. case_match eqn:Hc.
  - apply Ascii.eqb_eq in Hc as ->. rewrite <- IH at 2. by destruct (Split "."%char s) eqn:?; [apply Split_not_nil in Heql|].
  - rewrite <- IH at 2. destruct (Split "."%char s) as [|w ws] eqn:Hs; [by apply Split_not_nil in Hs|]. by destruct ws.
Qed.
End strings.

(** ** Canonical subjects *)

Section canonical.
Context {GR : GoRuntime}.

Definition subjectOf (event version venue instrument : string) : string :=
  event +:+ "." +:+ version +:+ "." +:+ venue +:+ "." +:+ instrument.

(** What the taxonomy demands of the four parts, the root apart. *)
Record canonical (event version venue instrument : string) : Prop := {
  can_event : subjectEventPattern event = true;
  can_version : subjectVersionPattern version = true;
  can_venue : subjectTokenPattern venue = true;
  can_instrument : subjectTokenPattern instrument = true;
}.

(** The characters of a token are harmless, and none is a dot. *)
Definition tokenChar (c : ascii) : bool := is_upper c || is_lower c || is_digit c || is_char "_"%char c || is_char "-"%char c.

Lemma tokenChar_ok c : tokenChar c = true → plain c = true ∧ Ascii.eqb c "."%char = false.
Proof. destruct c as [[] [] [] [] [] [] [] []]; vm_compute; auto. Qed.
Lemma digit_token c : is_digit c = true → tokenChar c = true.
Proof. intros H. unfold tokenChar. rewrite H. by destruct (is_upper c), (is_lower c). Qed.

Lemma plus_all p s : plus p s = true → s ≠ "" ∧ str_forallb p s = true.
Proof.
  unfold plus. intros [Hne ?]%andb_true_iff. split; [|done]. intros ->. done.
Qed.

Lemma tokenChars_ok s : str_forallb tokenChar s = true → str_forallb plain s = true ∧ nodot s.
Proof.
  intros H. split; (apply (str_forallb_impl tokenChar); [|done]); intros c [Hp Hd]%tokenChar_ok; [done|by rewrite Hd].
Qed.

Lemma version_token s : subjectVersionPattern s = true → s ≠ "" ∧ str_forallb tokenChar s = true.
Proof.
  destruct s as [|v [|d rest]]; [done..|]. cbn [subjectVersionPattern]. intros [[Hv Hd]%andb_true_iff Hr]%andb_true_iff.
  split; [done|]. cbn [str_forallb]. rewrite (str_forallb_impl is_digit); [|exact digit_token|done].
  unfold is_char in Hv. apply Ascii.eqb_eq in Hv as ->.
  rewrite (digit_token d); [done|]. revert Hd. clear. unfold is_digit, in_range. intros. reflect_bools. apply andb_true_iff.
  rewrite !N.leb_le in *. lia.
Qed.

(** Text whose parts between dots satisfy [p] has no other characters. *)
Lemma Split_forallb p s :
  forallb (str_forallb p) (Split "."%char s) = true → str_forallb (λ c, Ascii.eqb c "."%char || p c) s = true.
Proof.
  induction s as [|c s IH]; [done|]. cbn [Split str_forallb]. destruct (Ascii.eqb c "."%char) eqn:Hc.
  - intros H. cbn in *. by apply IH.
  - pose proof (Split_not_nil s). destruct (Split "."%char s) as [|w ws]; [done|]. cbn [forallb str_forallb].
    intros [[Hp Hw]%andb_true_iff Hws]%andb_true_iff. rewrite Hp. cbn. apply IH. cbn. by rewrite Hw, Hws.
Qed.

Lemma eventChar_token c : is_lower c || is_digit c || is_char "_"%char c = true → tokenChar c = true.
Proof. unfold tokenChar. destruct (is_upper c), (is_lower c), (is_digit c), (is_char "_"%char c); done. Qed.

Lemma event_plain s : subjectEventPattern s = true →
  s ≠ "" ∧ str_forallb plain s = true ∧ forallb (λ w, negb (str_eqb w "") && str_forallb tokenChar w) (Split "."%char s) = true.
Proof.
  unfold subjectEventPattern. intros H.
  assert (forallb (λ w, negb (str_eqb w "") && str_forallb tokenChar w) (Split "."%char s) = true) as Ht.
  { rewrite forallb_forall in *. intros w Hw. specialize (H w Hw). unfold plus in H.
    apply andb_true_iff in H as [-> H]. cbn. apply (str_forallb_impl _ _ _ eventChar_token H). }
  repeat split; [by intros ->| |done].
  apply (str_forallb_impl (λ c, Ascii.eqb c "."%char || tokenChar c)).
  - intros c [->%Ascii.eqb_eq|[? _]%tokenChar_ok]%orb_true_iff; [reflexivity|done].
  - apply Split_forallb. rewrite forallb_forall in *. intros w Hw. specialize (Ht w Hw). by apply andb_true_iff in Ht as [_ ?].
Qed.

Lemma nonblank_token w : w ≠ "" → str_forallb tokenChar w = true → str_eqb (TrimSpace w) "" = false.
Proof.
  intros Hne Hw. rewrite TrimSpace_plain by by apply tokenChars_ok. by apply String.eqb_neq.
Qed.

(** Taking a canonical subject apart gives the parts it was made of. *)
Lemma splitSubjectTaxonomy_subjectOf event version venue instrument :
  canonical event version venue instrument →
  splitSubjectTaxonomy (subjectOf event version venue instrument) = inr (MkTaxonomy event version venue instrument).
Proof.
  intros [He Hv Hn Hi].
  destruct (event_plain _ He) as (Hene & Hep & Het). destruct (version_token _ Hv) as [Hvne Hvt].
  destruct (plus_all _ _ Hn) as [Hnne Hnt]. destruct (plus_all _ _ Hi) as [Hine Hit].
  destruct (tokenChars_ok _ Hvt) as [Hvp Hvd], (tokenChars_ok _ Hnt) as [Hnp Hnd], (tokenChars_ok _ Hit) as [Hip Hid].
  assert (str_forallb plain (subjectOf event version venue instrument) = true) as Hp.
  { unfold subjectOf. rewrite !str_forallb_app, Hep, Hvp, Hnp, Hip. reflexivity. }
  unfold splitSubjectTaxonomy. rewrite TrimSpace_plain by done. cbv zeta. rewrite ContainsAny_plain by done.
  replace (str_eqb _ "") with false by (symmetry; apply String.eqb_neq; unfold subjectOf; by destruct event).
  unfold subjectOf. rewrite !Split_app, !(Split_nodot version), !(Split_nodot venue), !(Split_nodot instrument) by done.
  set (tokens := Split "."%char event ++ _).
  assert (existsb (λ token, str_eqb (TrimSpace token) "") tokens = false) as Htok.
  { subst tokens. rewrite !existsb_app. cbn [existsb]. rewrite !nonblank_token by done. cbn.
    rewrite !orb_false_r. apply not_true_iff_false. rewrite existsb_exists. intros (w & Hw & Hb).
    rewrite forallb_forall in Het. specialize (Het w Hw). apply andb_true_iff in Het as [Hwn Hwt].
    apply negb_true_iff, String.eqb_neq in Hwn. by rewrite nonblank_token in Hb. }
  pose proof (Join_Split event) as HJ. pose proof (Split_not_nil event) as HN.
  rewrite Htok.
  destruct (reverse (Split "."%char event)) as [|e es] eqn:Hr.
  { apply (f_equal reverse) in Hr. by rewrite reverse_involutive in Hr. }
  assert (reverse tokens = instrument :: venue :: version :: e :: es) as ->.
  { subst tokens. rewrite reverse_app, Hr. reflexivity. }
  by rewrite <- Hr, reverse_involutive, HJ.
Qed.

(** The group that a stream is for, the same for all its events and versions. *)
Definition ownerGroup (venue instrument : string) (groupCount : Z) : Z :=
  ShardGroup (fnv32a (bytesOf venue ++ [0] ++ bytesOf instrument)) groupCount.

Lemma ownerGroup_range venue instrument n : 1 < n < 4294967296 → 0 ≤ ownerGroup venue instrument n < n.
Proof.
  intros Hn. unfold ownerGroup, ShardGroup. destruct (n <=? 1) eqn:?; reflect_bools; [lia|].
  unfold wrapu32. rewrite (Z.mod_small n) by lia. apply Z.mod_pos_bound. lia.
Qed.

Lemma canonical_belongs event version venue instrument n g :
  canonical event version venue instrument → 1 < n →
  subjectBelongsToOtherShard (subjectOf event version venue instrument) n g = negb (ownerGroup venue instrument n =? g).
Proof.
  intros Hc Hn. unfold subjectBelongsToOtherShard, ShardKey. rewrite splitSubjectTaxonomy_subjectOf by done.
  destruct (n <=? 1) eqn:?; [reflect_bools; lia|done].
Qed.
End canonical.
