(* ===== verification/RetryBudget.v ===== *)
(** * RetryBudget: the tracker of internal/adapters/jetstream/retry_budget.go

    When the bus does not say how often a message was delivered, the consumer
    counts the failures of a partition (venue and instrument) itself, in a table
    bounded by a ring: a new partition takes the next slot of the ring and evicts
    the partition that is there. The mutex makes every call one step. Indexing
    outside the ring panics, which is an error of the method; the invariant below
    shows that it does not happen. The tracker is not nil: [NewConsumer] makes one. *)

From S2P Require Import Prelude GoRuntime Shared.

Local Open Scope string_scope.
Local Open Scope list_scope.
Local Open Scope Z_scope.

Definition defaultTransientRetryBudgetDeliveries : Z := 3.
Definition defaultRetryBudgetFallbackCapacity : Z := 1024.

Record retryBudgetEntry := MkEntry { attempts : Z; slot : Z }.
#[export] Instance retryBudgetEntry_eta : Eta retryBudgetEntry := λ r, MkEntry (attempts r) (slot r).

Record retryBudgetTracker := MkTracker {
  maxSize : Z;
  next : Z;
  ring : list string;
  entries : gmap string retryBudgetEntry;
}.
#[export] Instance retryBudgetTracker_eta : Eta retryBudgetTracker := λ r,
  MkTracker (maxSize r) (next r) (ring r) (entries r).

Definition newRetryBudgetTracker (maxSize : Z) : retryBudgetTracker :=
  let maxSize := if maxSize <=? 0 then defaultRetryBudgetFallbackCapacity else maxSize in
  MkTracker maxSize 0 (replicate (Z.to_nat maxSize) "") ∅.

Definition trackerPanic : Problem := New Internal "runtime error: index out of range".

(** [t.ring[i]] *)
Definition ringAt (t : retryBudgetTracker) (i : Z) : option string :=
  if i <? 0 then None else ring t !! Z.to_nat i.

Section tracker.
Context {GR : GoRuntime}.

(** The results are the attempts and whether a partition was evicted. *)
Definition increment (key : string) : Meth retryBudgetTracker Problem (Z * bool) :=
  if str_eqb (TrimSpace key) "" then mret (0, false) else
  t ← recv;
  match entries t !! key with
  | Some entry =>
      let entry := entry <| attempts ::= λ a, add64 a 1 |> in
      assign (λ t, t <| entries ::= <[key := entry]> |>) ;;
      mret (attempts entry, false)
  | None =>
      let s := next t in
      match ringAt t s with
      | None => throw trackerPanic
      | Some victim =>
          let evicted := negb (str_eqb victim "") in
          (if evicted then assign (λ t, t <| entries ::= delete victim |>) else mret tt) ;;
          assign (λ t, t <| ring ::= <[Z.to_nat s := key]> |>
                         <| entries ::= <[key := MkEntry 1 s]> |>) ;;
          fail_if (maxSize t =? 0) trackerPanic ;;
          assign (λ t, t <| next := Z.rem (s + 1) (maxSize t) |>) ;;
          mret (1, evicted)
      end
  end.

Definition reset (key : string) (t : retryBudgetTracker) : retryBudgetTracker :=
  if str_eqb (TrimSpace key) "" then t else
  match entries t !! key with
  | None => t
  | Some entry =>
      let t := if (0 <=? slot entry) && (slot entry <? Z.of_nat (length (ring t)))
               then t <| ring ::= <[Z.to_nat (slot entry) := ""]> |> else t in
      t <| entries ::= delete key |>
  end.

Definition tracked (t : retryBudgetTracker) : Z := Z.of_nat (base.size (entries t)).

Definition withTransientRetryBudget (maxDeliver : Z) : Z :=
  let limit := defaultTransientRetryBudgetDeliveries in
  let limit := if (0 <? maxDeliver) && (maxDeliver <? limit) then maxDeliver else limit in
  if limit <=? 0 then 1 else limit.

(** ** Properties *)

(** The ring and the table agree: an entry has its own slot, and a slot that is
    not free has its entry. *)
Record consistent (t : retryBudgetTracker) : Prop := {
  cs_size : 0 < maxSize t;
  cs_ring : Z.of_nat (length (ring t)) = maxSize t;
  cs_next : 0 ≤ next t < maxSize t;
  cs_entry : ∀ k e, entries t !! k = Some e →
    TrimSpace k ≠ "" ∧ 0 ≤ slot e ∧ ring t !! Z.to_nat (slot e) = Some k;
  cs_slot : ∀ i k, ring t !! i = Some k → k ≠ "" → ∃ e, entries t !! k = Some e ∧ slot e = Z.of_nat i;
}.

Lemma newRetryBudgetTracker_consistent n : consistent (newRetryBudgetTracker n).
Proof.
  unfold newRetryBudgetTracker, defaultRetryBudgetFallbackCapacity.
  set (m := if n <=? 0 then 1024 else n). assert (0 < m) by (subst m; destruct (n <=? 0) eqn:?; reflect_bools; lia).
  split; cbn.
  - done.
  - rewrite length_replicate. lia.
  - lia.
  - intros k e H1. by rewrite lookup_empty in H1.
  - intros i k [-> _]%lookup_replicate. done.
Qed.

Lemma nonblank_not_empty k : TrimSpace k ≠ "" → k ≠ "".
Proof. intros H ->. by apply H. Qed.

Lemma increment_blank k t : TrimSpace k = "" → increment k t = (t, inr (0, false)).
Proof. intros H. unfold increment. by rewrite H. Qed.
Lemma reset_blank k t : TrimSpace k = "" → reset k t = t.
Proof. intros H. unfold reset. by rewrite H. Qed.

Lemma increment_known k t e : TrimSpace k ≠ "" → entries t !! k = Some e →
  increment k t = (t <| entries ::= <[k := e <| attempts ::= λ a, add64 a 1 |>]> |>, inr (add64 (attempts e) 1, false)).
Proof.
  intros Hk He. unfold increment. apply String.eqb_neq in Hk. unfold str_eqb. rewrite Hk, recv_run, He. done.
Qed.

(** The tracker after the new partition [k] took the next slot from [victim]. *)
Definition replaced (k victim : string) (t : retryBudgetTracker) : retryBudgetTracker :=
  MkTracker (maxSize t) (Z.rem (next t + 1) (maxSize t)) (<[Z.to_nat (next t) := k]> (ring t))
    (<[k := MkEntry 1 (next t)]> (if str_eqb victim "" then entries t else delete victim (entries t))).

Lemma increment_new k t : consistent t → TrimSpace k ≠ "" → entries t !! k = None →
  ∃ victim, ring t !! Z.to_nat (next t) = Some victim ∧
    increment k t = (replaced k victim t, inr (1, negb (str_eqb victim ""))).
Proof.
  intros [Hs Hr Hn _ _] Hk He.
  destruct (lookup_lt_is_Some_2 (ring t) (Z.to_nat (next t))) as [victim Hv]; [lia|]. exists victim. split; [done|].
  unfold increment. apply String.eqb_neq in Hk. unfold str_eqb in *. rewrite Hk, recv_run, He. unfold ringAt.
  destruct (next t <? 0) eqn:?; [reflect_bools; lia|]. rewrite Hv.
  unfold mbind, Meth_bind, assign, fail_if, mret, Meth_ret, replaced. unfold upd, str_eqb. cbn [maxSize next ring entries].
  destruct (maxSize t =? 0) eqn:?; [reflect_bools; lia|]. destruct (String.eqb victim ""); reflexivity.
Qed.

Lemma reset_known k t e : consistent t → entries t !! k = Some e →
  reset k t = MkTracker (maxSize t) (next t) (<[Z.to_nat (slot e) := ""]> (ring t)) (delete k (entries t)).
Proof.
  intros Hc He. destruct (cs_entry _ Hc _ _ He) as (Hk & H0 & Hl). unfold reset. apply String.eqb_neq in Hk.
  unfold str_eqb. rewrite Hk, He. apply lookup_lt_Some in Hl.
  destruct (0 <=? slot e) eqn:?; [|reflect_bools; lia].
  destruct (slot e <? Z.of_nat (length (ring t))) eqn:?; [|reflect_bools; lia]. reflexivity.
Qed.

Lemma known_consistent k t e a : consistent t → entries t !! k = Some e →
  consistent (t <| entries ::= <[k := e <| attempts := a |>]> |>).
Proof.
  intros [Hs Hr Hn Hen Hsl] He. unfold upd. split; cbn [maxSize next ring entries]; [done..| |].
  - intros k' e' [[<- <-]|[? H]]%lookup_insert_Some; cbn; eauto.
  - intros i k' Hi Hk'. destruct (Hsl _ _ Hi Hk') as (e' & He' & Hse). destruct (decide (k = k')) as [<-|].
    + eexists. rewrite lookup_insert_eq. split; [done|]. cbn. by simplify_eq.
    + exists e'. by rewrite lookup_insert_ne.
Qed.

Lemma reset_consistent k t : consistent t → consistent (reset k t).
Proof.
  intros Hc. destruct (entries t !! k) as [e|] eqn:He.
  2: { unfold reset. rewrite He. by case_match. }
  rewrite (reset_known _ _ _ Hc He). pose proof (cs_entry _ Hc _ _ He) as (Hk & H0 & Hl).
  destruct Hc as [Hs Hr Hn Hen Hsl]. split; cbn [maxSize next ring entries]; [done|by rewrite length_insert|done| |].
  - intros k' e' [Hne He']%lookup_delete_Some. destruct (Hen _ _ He') as (? & ? & Hl'). repeat split; [done..|].
    rewrite list_lookup_insert_ne; [done|]. intros Heq. rewrite Heq, Hl' in Hl. by simplify_eq.
  - intros i k' [(? & <- & ?)|[Hne Hi]]%list_lookup_insert_Some Hk'; [done|].
    destruct (Hsl _ _ Hi Hk') as (e' & He' & Hse). exists e'. split; [|done]. rewrite lookup_delete_ne; [done|].
    intros <-. simplify_eq. by rewrite Hse, Nat2Z.id in Hne.
Qed.

Lemma replaced_consistent k victim t : consistent t → TrimSpace k ≠ "" → entries t !! k = None →
  ring t !! Z.to_nat (next t) = Some victim → consistent (replaced k victim t).
Proof.
  intros Hc Hk He Hv. pose proof Hc as [Hs Hr Hn Hen Hsl].
  assert (∀ k' e', (if str_eqb victim "" then entries t else delete victim (entries t)) !! k' = Some e' ↔
    entries t !! k' = Some e' ∧ slot e' ≠ next t) as Hkeep.
  { intros k' e'. unfold str_eqb. destruct (String.eqb_spec victim "") as [->|Hne].
    - split; [|naive_solver]. intros H. split; [done|]. intros Heq. destruct (Hen _ _ H) as (Hb & _ & Hl).
      rewrite Heq, Hv in Hl. by simplify_eq.
    - rewrite lookup_delete_Some. split; intros [H1 H2]; split; try exact H1; try exact H2.
      + intros Heq. destruct (Hen _ _ H2) as (Hb & _ & Hl). rewrite Heq, Hv in Hl. by simplify_eq.
      + intros <-. destruct (Hsl _ _ Hv Hne) as (e2 & ? & ?). simplify_eq. lia. }
  unfold replaced. split; cbn [maxSize next ring entries]; [done|by rewrite length_insert|..].
  - rewrite Z.rem_mod_nonneg by lia. apply Z.mod_pos_bound. lia.
  - intros k' e' [[<- <-]|[Hne [H1 H2]%Hkeep]]%lookup_insert_Some; cbn.
    + repeat split; [done|lia|]. apply list_lookup_insert_eq. lia.
    + destruct (Hen _ _ H1) as (? & ? & Hl). repeat split; [done..|]. rewrite list_lookup_insert_ne; [done|lia].
  - intros i k' [(<- & <- & _)|[Hne Hi]]%list_lookup_insert_Some Hk'.
    + eexists. rewrite lookup_insert_eq. split; [done|]. cbn. lia.
    + destruct (Hsl _ _ Hi Hk') as (e' & He' & Hse). exists e'. split; [|done].
      rewrite lookup_insert_ne by (intros ->; by rewrite He in He'). apply Hkeep. split; [done|lia].
Qed.

(** Counting a failure never leaves the ring, and keeps it consistent. *)
Lemma increment_consistent k t : consistent t →
  consistent (increment k t).1 ∧ ∃ r, (increment k t).2 = inr r.
Proof.
  intros Hc. destruct (decide (TrimSpace k = "")) as [Hk|Hk].
  { rewrite increment_blank by done. eauto. }
  destruct (entries t !! k) as [e|] eqn:He.
  - rewrite (increment_known _ _ _ Hk He). split; [|eauto]. cbn [fst].
    apply (known_consistent k t e (add64 (attempts e) 1) Hc He).
  - destruct (increment_new _ _ Hc Hk He) as (victim & Hv & ->). split; [|eauto]. by apply replaced_consistent.
Qed.

(** Different partitions have different slots, so there are no more than slots. *)
Lemma consistent_bounded t : consistent t → tracked t ≤ maxSize t.
Proof.
  intros [Hs Hr Hn Hen Hsl]. unfold tracked. rewrite <- length_map_to_list.
  rewrite <- (length_fmap (λ p : string * retryBudgetEntry, slot p.2)).
  enough ((λ p : string * retryBudgetEntry, slot p.2) <$> map_to_list (entries t) ⊆+ seqZ 0 (maxSize t)) as Hsub.
  { apply submseteq_length in Hsub. rewrite length_seqZ in Hsub. lia. }
  apply NoDup_submseteq.
  - apply NoDup_fmap_2_strong; [|apply NoDup_map_to_list].
    intros [k1 e1] [k2 e2] H1%elem_of_map_to_list H2%elem_of_map_to_list Heq. cbn in Heq.
    destruct (Hen _ _ H1) as (_ & _ & Hl1), (Hen _ _ H2) as (_ & _ & Hl2). rewrite Heq, Hl2 in Hl1. by simplify_eq.
  - intros i ([k e] & -> & H)%list_elem_of_fmap. apply elem_of_map_to_list in H. cbn.
    destruct (Hen _ _ H) as (_ & H0 & Hl). apply lookup_lt_Some in Hl. apply elem_of_seqZ. lia.
Qed.

(** ** Runs *)

Inductive trackerOp := Increment (key : string) | Reset_ (key : string).
#[export] Instance trackerOp_eq_dec : EqDecision trackerOp.
Proof. solve_decision. Defined.

Definition opKey (op : trackerOp) : string := match op with Increment k | Reset_ k => k end.
Definition opStep (t : retryBudgetTracker) (op : trackerOp) : retryBudgetTracker :=
  match op with Increment k => (increment k t).1 | Reset_ k => reset k t end.
Definition opRun (ops : list trackerOp) (t : retryBudgetTracker) : retryBudgetTracker := foldl opStep t ops.

Lemma opStep_consistent t op : consistent t → consistent (opStep t op).
Proof. intros Hc. destruct op; [by apply increment_consistent|by apply reset_consistent]. Qed.
Lemma opRun_consistent ops t : consistent t → consistent (opRun ops t).
Proof. revert t. induction ops as [|op ops IH]; intros t Hc; [done|]. apply IH. by apply opStep_consistent. Qed.

(** The failures of [k] and of other partitions in a run. *)
Definition isFailureOf (k : string) (op : trackerOp) : bool :=
  match op with Increment k' => str_eqb k' k | Reset_ _ => false end.
Definition isFailureOfOther (k : string) (op : trackerOp) : bool :=
  match op with Increment k' => negb (str_eqb k' k) | Reset_ _ => false end.
Definition tally (p : trackerOp → bool) (ops : list trackerOp) : Z := Z.of_nat (length (List.filter p ops)).

Lemma tally_cons p op ops : tally p (op :: ops) = (if p op then 1 else 0) + tally p ops.
Proof. unfold tally. cbn [List.filter]. destruct (p op); cbn [length]; lia. Qed.
Lemma tally_nonneg p ops : 0 ≤ tally p ops.
Proof. unfold tally. lia. Qed.

(** [k] has an entry with [a] attempts, and [d] partitions took a slot since and
    including its own. *)
Definition holds (k : string) (a d : Z) (t : retryBudgetTracker) : Prop :=
  ∃ s, entries t !! k = Some (MkEntry a s) ∧ next t = (s + d) mod maxSize t.

Lemma mod_shift s d m : 0 ≤ s < m → 0 < d < m → (s + d) mod m ≠ s.
Proof.
  intros Hs Hd. destruct (Z_lt_le_dec (s + d) m).
  - rewrite Z.mod_small by lia. lia.
  - rewrite <- (Z_mod_plus_full _ (-1)), Z.mod_small by lia. lia.
Qed.

Lemma opStep_maxSize t op : consistent t → maxSize (opStep t op) = maxSize t.
Proof.
  intros Hc. destruct op as [k|k]; cbn.
  - destruct (decide (TrimSpace k = "")) as [Hk|Hk]; [by rewrite increment_blank|].
    destruct (entries t !! k) as [e|] eqn:He; [by rewrite (increment_known _ _ _ Hk He)|].
    by destruct (increment_new _ _ Hc Hk He) as (victim & Hv & ->).
  - destruct (entries t !! k) as [e|] eqn:He; [by rewrite (reset_known _ _ _ Hc He)|].
    unfold reset. rewrite He. by case_match.
Qed.

(** A failure of another partition leaves the entry, as long as there was room. *)
Lemma other_keeps_entry k k' a d t : consistent t → k' ≠ k → holds k a d t → 0 < d < maxSize t →
  ∃ d', d ≤ d' ≤ d + 1 ∧ holds k a d' (increment k' t).1.
Proof.
  intros Hc Hne (s & He & Hn) Hd. destruct (decide (TrimSpace k' = "")) as [Hk'|Hk'].
  { rewrite increment_blank by done. exists d. split; [lia|]. by exists s. }
  destruct (entries t !! k') as [e'|] eqn:He'.
  - rewrite (increment_known _ _ _ Hk' He'). exists d. split; [lia|]. exists s. cbn. by rewrite lookup_insert_ne.
  - destruct (increment_new _ _ Hc Hk' He') as (victim & Hv & ->). exists (d + 1). split; [lia|]. exists s. cbn.
    destruct (cs_entry _ Hc _ _ He) as (_ & H0 & Hl). cbn in H0, Hl. pose proof (lookup_lt_Some _ _ _ Hl) as Hlt.
    pose proof (cs_ring _ Hc). pose proof (cs_next _ Hc).
    assert (next t ≠ s) as Hns by (rewrite Hn; apply mod_shift; lia).
    split.
    + rewrite lookup_insert_ne by done. unfold str_eqb. destruct (String.eqb_spec victim "") as [|Hvn]; [done|].
      rewrite lookup_delete_ne; [done|]. intros ->. destruct (cs_slot _ Hc _ _ Hv Hvn) as (e & He2 & Hse).
      rewrite He in He2. injection He2 as <-. cbn in Hse. lia.
    + rewrite Z.rem_mod_nonneg by lia. rewrite Hn, Zplus_mod_idemp_l. f_equal. lia.
Qed.

Lemma reset_keeps_entry k k' a d t : consistent t → k' ≠ k → holds k a d t → holds k a d (reset k' t).
Proof.
  intros Hc Hne (s & He & Hn). destruct (entries t !! k') as [e'|] eqn:He'.
  - rewrite (reset_known _ _ _ Hc He'). exists s. cbn. by rewrite lookup_delete_ne.
  - unfold reset. rewrite He'. by case_match; exists s.
Qed.

Lemma holds_run k ops a d t : consistent t → TrimSpace k ≠ "" → holds k a d t → 0 < d →
  Reset_ k ∉ ops → d + tally (isFailureOfOther k) ops ≤ maxSize t →
  0 ≤ a → a + tally (isFailureOf k) ops ≤ MaxInt64 →
  ∃ d', holds k (a + tally (isFailureOf k) ops) d' (opRun ops t).
Proof.
  revert a d t. induction ops as [|op ops IH]; intros a d t Hc Hk Hh Hd Hr Hroom Ha Hmax.
  { exists d. unfold tally. cbn. by rewrite Z.add_0_r. }
  apply not_elem_of_cons in Hr as [Hop Hr]. rewrite tally_cons in *.
  pose proof (tally_nonneg (isFailureOf k) ops). pose proof (tally_nonneg (isFailureOfOther k) ops).
  cbn [opRun foldl]. change (foldl opStep (opStep t op) ops) with (opRun ops (opStep t op)).
  pose proof (opStep_consistent t op Hc) as Hc'. pose proof (opStep_maxSize t op Hc) as Hm.
  destruct op as [k'|k']; cbn [isFailureOf isFailureOfOther opStep] in *; unfold str_eqb in *.
  - destruct (String.eqb_spec k' k) as [->|Hne]; cbn [negb] in *.
    + rewrite Z.add_assoc. destruct Hh as (s & He & Hn).
      assert (holds k (a + 1) d (increment k t).1) as Hh'.
      { rewrite (increment_known _ _ _ Hk He). exists s. cbn. rewrite lookup_insert_eq.
        unfold upd. cbn. unfold add64. rewrite wrap64_id; [done|]. unfold in_i64, MinInt64. lia. }
      apply (IH _ d); [done..|lia|lia|lia].
    + destruct (other_keeps_entry k k' a d t Hc Hne Hh) as (d' & Hd' & Hh'); [lia|].
      apply (IH _ d'); [done..|lia|done|lia|lia|lia].
  - assert (k' ≠ k) as Hne by (by intros ->). apply (IH _ d); [done|done|by apply reset_keeps_entry|lia|done|lia|lia|lia].
Qed.

(** C14: The failures of a partition are counted as long as fewer other failures come
    in than the ring has slots: whatever happened before, when the failures [ops]
    of a run follow the first one of [k] and none is a reset of [k], the next
    failure of [k] is answered with the number of all of them. The table stays
    consistent with the ring, within its size, and no call panics. *)
Theorem partition_failures_are_counted n before k ops :
  let t := opRun before (newRetryBudgetTracker n) in
  TrimSpace k ≠ "" → entries t !! k = None → Reset_ k ∉ ops →
  tally (isFailureOfOther k) ops < maxSize t → Z.of_nat (length ops) < MaxInt64 - 1 →
  let t' := opRun (Increment k :: ops) t in
  consistent t' ∧ tracked t' ≤ maxSize t ∧
  observed (λ _ r, r) (increment k t') = Some (2 + tally (isFailureOf k) ops, false).
Proof.
  intros t Hk Hnew Hr Hroom Hlen t'.
  assert (consistent t) as Hc by apply opRun_consistent, newRetryBudgetTracker_consistent.
  destruct (increment_new _ _ Hc Hk Hnew) as (victim & Hv & Hinc).
  pose proof (opStep_consistent t (Increment k) Hc) as Hc1. pose proof (opStep_maxSize t (Increment k) Hc) as Hm1.
  assert (tally (isFailureOf k) ops ≤ Z.of_nat (length ops)) as Hle.
  { unfold tally. apply Nat2Z.inj_le, filter_length_le. }
  assert (holds k 1 1 (opStep t (Increment k))) as Hh.
  { cbn [opStep]. rewrite Hinc. exists (next t). cbn. rewrite lookup_insert_eq. split; [done|].
    pose proof (cs_next _ Hc). apply Z.rem_mod_nonneg; lia. }
  destruct (holds_run k ops 1 1 _ Hc1 Hk Hh) as (d & s & He & _); [lia|done|lia|lia|lia|].
  assert (consistent t') as Hc' by by apply opRun_consistent.
  assert (maxSize t' = maxSize t) as Hm.
  { rewrite <- Hm1. subst t'. cbn [opRun foldl]. revert Hc1. generalize (opStep t (Increment k)). clear.
    induction ops as [|op ops IH]; intros t1 Hc; [done|]. cbn [foldl]. rewrite IH by by apply opStep_consistent.
    by apply opStep_maxSize. }
  split_and!; [done|rewrite <- Hm; by apply consistent_bounded|].
  change (opRun ops (opStep t (Increment k))) with t' in He. pose proof (tally_nonneg (isFailureOf k) ops).
  rewrite (increment_known _ _ _ Hk He). cbn [observed attempts]. unfold add64. rewrite wrap64_id; [do 2 f_equal; lia|].
  unfold in_i64, MinInt64. lia.
Qed.

(** A partition is evicted although a slot is free: the slot of a partition that
    was reset is not taken before the ring comes round to it. *)
Theorem partition_evicted_despite_room :
  let t := opRun [Increment "okx|BTCUSDT"; Increment "okx|ETHUSDT"; Reset_ "okx|ETHUSDT"] (newRetryBudgetTracker 2) in
  tracked t < maxSize t ∧ entries t !! "okx|BTCUSDT" = Some (MkEntry 1 0) ∧
  observed (λ t' r, (entries t' !! "okx|BTCUSDT", r)) (increment "okx|SOLUSDT" t) = Some (None, (1, true)).
Proof. vm_compute. auto. Qed.
End tracker.

Lemma partition_failures_are_counted_witness :
  observed (λ _ r, r) (increment (GR := go_amd64) "a|B"
    (opRun (GR := go_amd64) (Increment "a|B" :: [Increment "c|D"; Increment "a|B"])
      (opRun (GR := go_amd64) [Increment "x|Y"] (newRetryBudgetTracker 4)))) = Some (3, false).
Proof.
  apply (partition_failures_are_counted (GR := go_amd64) 4 [Increment "x|Y"] "a|B" [Increment "c|D"; Increment "a|B"]).
  - vm_compute. discriminate.
  - vm_compute. reflexivity.
  - apply (bool_decide_unpack _). vm_compute. exact I.
  - vm_compute. reflexivity.
  - vm_compute. reflexivity.
Defined.
