(* ===== verification/BusPolicy.v ===== *)
(** * BusPolicy: internal/adapters/jetstream/ingest_policy.go, internal/shared/envelope/binary.go

    What a consumer of the bus does with a message that could not be handled: the
    classification of problems into poison (terminate and quarantine) and
    transient (deliver again), and the envelope that quarantines a message; with
    the encoding of envelopes on the bus. The libraries below it are parameters
    ([BusLib]): encoding/json for the two types it is used at, the rendering of a
    problem's message by fmt, and [strings.Fields] on non-ASCII text. *)

From S2P Require Import Prelude GoRuntime Shared Hash Envelope Sha256 Subjects.
From Stdlib Require Import Ascii.

Local Open Scope string_scope.
Local Open Scope list_scope.
Local Open Scope Z_scope.

(** ** Messages and errors of nats.go *)

(** The errors the code asks for with [errors.Is]. *)
Inductive sentinel :=
| ErrAuthorization | Canceled | DeadlineExceeded | ErrTimeout | ErrNoResponders | ErrConnectionClosed | ErrDisconnected | ErrBadSubject
| ErrStreamNotFound | ErrConsumerNameAlreadyInUse.
#[export] Instance sentinel_eq_dec : EqDecision sentinel.
Proof. solve_decision. Defined.

Record error := MkError { err_text : string; err_chain : list sentinel }.
Definition errors_Is (err : error) (target : sentinel) : bool := bool_decide (target ∈ err_chain err).

(** [nats.Msg]; [NumDelivered] is the metadata's counter, [None] when the message
    has none. *)
Record NatsMsg := MkNatsMsg {
  m_Subject : string;
  m_Header : option (gmap string (list string));
  m_Data : list Z;
  NumDelivered : option Z;
}.

(** [nats.Header.Get] *)
Definition HeaderGet (h : option (gmap string (list string))) (key : string) : string :=
  match h with
  | Some m => match m !! key with Some (v :: _) => v | _ => "" end
  | None => ""
  end.
Definition MsgIdHdr : string := "Nats-Msg-Id".

(** ** Types and constants of ingest_policy.go *)

Inductive Disposition := DispositionAck | DispositionNak | DispositionTerm.
#[export] Instance Disposition_eq_dec : EqDecision Disposition.
Proof. solve_decision. Defined.

Definition ingestReasonOK : string := "OK".
Definition ingestReasonDecodeFailed : string := "DECODE_FAILED".
Definition ingestReasonValidationFailed : string := "VALIDATION_FAILED".
Definition ingestReasonUnknownEventType : string := "UNKNOWN_EVENT_TYPE".
Definition ingestReasonUnknownEventVersion : string := "UNKNOWN_EVENT_VERSION".
Definition ingestReasonTransientFailure : string := "TRANSIENT_FAILURE".
Definition ingestReasonTransientExhausted : string := "TRANSIENT_EXHAUSTED".
Definition ingestReasonQuarantinePublishError : string := "QUARANTINE_PUBLISH_FAILED".

Definition quarantineEventType : string := "quarantine".
Definition quarantineEventVersion : Z := 1.
Definition quarantineErrorMaxLen : Z := 512.

Record ingestDecision := MkDecision {
  d_Disposition : Disposition;
  Status : string;
  ReasonCode : string;
  Quarantine : bool;
  Drop : bool;
}.
#[export] Instance ingestDecision_eq_dec : EqDecision ingestDecision.
Proof. solve_decision. Defined.

Record quarantineSource := MkSource {
  qs_Subject : string;
  MsgID : string;
  qs_EventType : string;
  qs_Version : Z;
  qs_Venue : string;
  qs_Instrument : string;
  qs_ContentType : string;
  qs_IdempotencyKey : string;
  PayloadSHA256 : string;
}.
Record quarantinePayload := MkPayload { qp_ReasonCode : string; qp_Error : string; qp_Source : quarantineSource }.

Class BusLib := {
  Sprintf : message → string;
  (** A text without arguments is the message. *)
  Sprintf_text : ∀ s, Sprintf (Msg s []) = s;
  json_MarshalEnvelope : Envelope → error + list Z;
  json_UnmarshalEnvelope : list Z → error + Envelope;
  json_MarshalQuarantine : quarantinePayload → error + list Z;
  fields_unicode : string → list string;
}.

Section policy.
Context {GR : GoRuntime} {BL : BusLib}.

(** The text of a code, and [Error] of problem.go. *)
Definition codeText (c : ProblemCode) : string :=
  match c with
  | ValidationFailed => "VAL_VALIDATION_FAILED" | InvalidArgument => "VAL_INVALID_ARGUMENT"
  | NotFound => "SYS_NOT_FOUND" | Conflict => "SYS_CONFLICT" | Internal => "SYS_INTERNAL"
  | Unavailable => "SYS_UNAVAILABLE" | OutOfOrder => "MD_OUT_OF_ORDER" | Duplicate => "MD_DUPLICATE"
  | IntegrityViolation => "AGG_INTEGRITY_VIOLATION"
  end.
Definition problem_Error (p : Problem) : string :=
  match Cause p with
  | Some cause => codeText (Code p) +:+ ": " +:+ Sprintf (Message p) +:+ ": " +:+ cause
  | None => codeText (Code p) +:+ ": " +:+ Sprintf (Message p)
  end.

Definition poisonDecision (reasonCode : string) : ingestDecision :=
  MkDecision DispositionTerm "term" reasonCode true false.
Definition transientDecision (reasonCode : string) : ingestDecision :=
  MkDecision DispositionNak "nak" reasonCode false false.
Definition exhaustedTransientDecision : ingestDecision :=
  MkDecision DispositionTerm "term" ingestReasonTransientExhausted false false.

(** [v.(string)] *)
Definition as_string (v : any) : option string := match v with AnyStr s => Some s | _ => None end.

(** The reason a detail gives, when it is one the code knows. *)
Definition reasonFromDetail (s : string) : option string :=
  if Contains s "unknown_event_type" then Some ingestReasonUnknownEventType
  else if Contains s "missing_payload_codec" then Some ingestReasonUnknownEventVersion
  else if Contains s "json_fallback_decode" then Some ingestReasonDecodeFailed
  else if Contains s "unknown_content_type" then Some ingestReasonValidationFailed
  else None.

Definition reasonFromMessage (p : Problem) : string :=
  let msg := ToLower (TrimSpace (Sprintf (Message p))) in
  if Contains msg "unhandled envelope type" then ingestReasonUnknownEventType
  else if Contains msg "unsupported envelope version" then ingestReasonUnknownEventVersion
  else if Contains msg "decode" || Contains msg "unmarshal" then ingestReasonDecodeFailed
  else "".

Definition reasonCodeFromProblem (p : Problem) : string :=
  match Details p !! "reason_code" ≫= as_string with
  | Some s => s
  | None =>
      match (Details p !! "reason" ≫= as_string) ≫= reasonFromDetail with
      | Some reason => reason
      | None => reasonFromMessage p
      end
  end.

Definition looksLikeDecodeFailure (p : Problem) : bool :=
  let msg := ToLower (TrimSpace (Sprintf (Message p))) in
  if Contains msg "decode" || Contains msg "unmarshal" then true
  else match Cause p with
       | Some err => let cause := ToLower (TrimSpace err) in Contains cause "json" || Contains cause "unmarshal"
       | None => false
       end.

Definition isKnownEventVersionUnsupported (env : Envelope) : bool :=
  if one_of (ToLower (TrimSpace (Type_ env))) ["marketdata.bookdelta"; "marketdata.trade"; "marketdata.raw"]
  then (0 <? Version env) && negb (Version env =? 1)
  else false.

Definition normalizeIngestReason (reasonCode : string) : string :=
  let r := ToUpper (TrimSpace reasonCode) in
  if one_of r [ingestReasonOK; ingestReasonDecodeFailed; ingestReasonValidationFailed; ingestReasonUnknownEventType;
               ingestReasonUnknownEventVersion; ingestReasonTransientFailure; ingestReasonTransientExhausted;
               ingestReasonQuarantinePublishError]
  then r else "".

(** Codes whose problems are the message's own fault. *)
Definition poisonCode (c : ProblemCode) : bool :=
  match c with
  | ValidationFailed | InvalidArgument | NotFound | Conflict | OutOfOrder | Duplicate | IntegrityViolation => true
  | Internal | Unavailable => false
  end.

Definition ClassifyIngestError (p : option Problem) (env : Envelope) : ingestDecision :=
  match p with
  | None => MkDecision DispositionAck "ok" ingestReasonOK false false
  | Some p =>
      let reason := normalizeIngestReason (reasonCodeFromProblem p) in
      if str_eqb reason ingestReasonUnknownEventType then poisonDecision ingestReasonUnknownEventType
      else if str_eqb reason ingestReasonUnknownEventVersion then poisonDecision ingestReasonUnknownEventVersion
      else if str_eqb reason ingestReasonDecodeFailed then poisonDecision ingestReasonDecodeFailed
      else if str_eqb reason ingestReasonValidationFailed then poisonDecision ingestReasonValidationFailed
      else if isKnownEventVersionUnsupported env then poisonDecision ingestReasonUnknownEventVersion
      else if Retryable p || bool_decide (Code p = Unavailable) then transientDecision ingestReasonTransientFailure
      else if bool_decide (Code p = Internal) && negb (looksLikeDecodeFailure p) then
        transientDecision ingestReasonTransientFailure
      else if poisonCode (Code p) then poisonDecision ingestReasonValidationFailed
      else transientDecision ingestReasonTransientFailure
  end.

Definition classifyEnvelopeDecodeFailure (p : option Problem) : ingestDecision :=
  match p with
  | None => poisonDecision ingestReasonDecodeFailed
  | Some p => if looksLikeDecodeFailure p then poisonDecision ingestReasonDecodeFailed
              else poisonDecision ingestReasonValidationFailed
  end.

Definition applyQuarantinePublishResult (decision : ingestDecision) (quarantineErr : option Problem) : ingestDecision :=
  match quarantineErr with
  | None => decision
  | Some p =>
      if negb (Retryable p) then MkDecision DispositionTerm "term" ingestReasonQuarantinePublishError false false
      else MkDecision DispositionNak "nak" ingestReasonQuarantinePublishError false false
  end.

Definition isQuarantineMessage (msg : NatsMsg) (env : Envelope) : bool :=
  if EqualFold (TrimSpace (Type_ env)) quarantineEventType then true
  else HasPrefix (ToLower (TrimSpace (m_Subject msg))) "quarantine.v1.".

(** [MapProblemToDisposition] of consumer.go, for callers without an envelope. *)
Definition zeroEnvelope : Envelope := MkEnvelope "" 0 "" "" 0 0 0 "" "" ∅ [] "".
Definition MapProblemToDisposition (p : option Problem) : Disposition * string :=
  let decision := ClassifyIngestError p zeroEnvelope in (d_Disposition decision, Status decision).

(** The results are whether to retry, and the reason. *)
Definition ClassifyQuarantinePublishError (err : error) : bool * string :=
  let msg := ToLower (TrimSpace (err_text err)) in
  if errors_Is err ErrAuthorization || Contains msg "authorization violation" || Contains msg "permission denied"
     || Contains msg "no permissions" || Contains msg "not authorized" || Contains msg "forbidden"
     || Contains msg " 403" || Contains msg "403 "
  then (false, ingestReasonQuarantinePublishError)
  else (true, ingestReasonQuarantinePublishError).

(** ** The quarantine envelope *)

Definition fallbackOrDefault (value fallback : string) : string :=
  if negb (str_eqb (TrimSpace value) "") then TrimSpace value else TrimSpace fallback.
Definition fallbackVersion (version fallback : Z) : Z :=
  if 0 <? version then version else if 0 <? fallback then fallback else 1.
Definition normalizeOrDefaultContentType (contentType : string) : string :=
  let contentType := TrimSpace contentType in
  if str_eqb contentType "" then ContentTypeJSON
  else match NormalizeContentType contentType with inr normalized => normalized | inl _ => ContentTypeJSON end.
Definition boundedPositiveTsIngest (tsIngest : Z) : Z := if 0 <? tsIngest then tsIngest else 1.
Definition boundedNonNegativeSeq (seq : Z) : Z := if 0 <=? seq then seq else 0.

(** [strings.TrimPrefix(s, "v")] *)
Definition trimV (s : string) : string := match s with String "v"%char s' => s' | _ => s end.

(** The parts of a subject: event type, version, venue and instrument. *)
Definition parseSubjectMeta (subject : string) : string * Z * string * string :=
  match reverse (Split "."%char (TrimSpace subject)) with
  | instrument :: venue :: version :: e :: es =>
      let versionPart := TrimSpace version in
      if negb (HasPrefix (ToLower versionPart) "v") then ("", 0, TrimSpace venue, TrimSpace instrument)
      else
        let v := match ParseInt64 (trimV (ToLower versionPart)) with
                 | Some v => if v <=? 0 then 0 else v
                 | None => 0
                 end in
        (Join (reverse (e :: es)) ".", v, TrimSpace venue, TrimSpace instrument)
  | _ => ("", 0, "", "")
  end.

(** [strings.Fields] *)
Fixpoint fields_ascii (word s : string) : list string :=
  match s with
  | EmptyString => if str_eqb word "" then [] else [word]
  | String c s' =>
      if is_space c then (if str_eqb word "" then fields_ascii "" s' else word :: fields_ascii "" s')
      else fields_ascii (word +:+ String c "") s'
  end.
Definition Fields (s : string) : list string := if is_ascii s then fields_ascii "" s else fields_unicode s.

(** [text[:maxLen]] of a text that is at least that long. *)
Fixpoint firstBytes (n : nat) (s : string) : string :=
  match n, s with
  | S n', String c s' => String c (firstBytes n' s')
  | _, _ => ""
  end.
Definition normalizeBoundedProblemText (p : option Problem) (maxLen : Z) : string :=
  match p with
  | None => ""
  | Some p =>
      let text := TrimSpace (Sprintf (Message p)) in
      let text := Join (Fields text) " " in
      if (maxLen <=? 0) || (Z.of_nat (String.length text) <=? maxLen) then text
      else firstBytes (Z.to_nat maxLen) text
  end.

Definition resolveQuarantineSource (msg : NatsMsg) (env : Envelope) : quarantineSource :=
  let '(parsedType, parsedVersion, parsedVenue, parsedInstrument) := parseSubjectMeta (m_Subject msg) in
  let msgID := TrimSpace (HeaderGet (m_Header msg) MsgIdHdr) in
  let payloadSHA := HashBytes (m_Data msg) in
  let originalID := fallbackOrDefault (TrimSpace (IdempotencyKey env)) msgID in
  let originalID := if str_eqb originalID "" then HashFieldsFast [m_Subject msg; payloadSHA] else originalID in
  MkSource (TrimSpace (m_Subject msg)) msgID
    (fallbackOrDefault (TrimSpace (Type_ env)) parsedType)
    (fallbackVersion (Version env) parsedVersion)
    (fallbackOrDefault (TrimSpace (Venue env)) (fallbackOrDefault parsedVenue "UNKNOWN"))
    (fallbackOrDefault (TrimSpace (Instrument env)) (fallbackOrDefault parsedInstrument "UNKNOWN"))
    (normalizeOrDefaultContentType (ContentType env))
    originalID payloadSHA.

Definition buildQuarantineEnvelope (msg : NatsMsg) (env : Envelope) (reasonCode : string) (p : option Problem)
    : Problem + Envelope :=
  let source := resolveQuarantineSource msg env in
  let reason := normalizeIngestReason reasonCode in
  let reason := if str_eqb reason "" then ingestReasonValidationFailed else reason in
  let payload := MkPayload reason (normalizeBoundedProblemText p quarantineErrorMaxLen) source in
  match json_MarshalQuarantine payload with
  | inl err => inl (Wrap (err_text err) Internal "marshal quarantine payload failed")
  | inr payloadBytes =>
      let out := MkEnvelope quarantineEventType quarantineEventVersion (qs_Venue source) (qs_Instrument source)
        (TsExchange env) (boundedPositiveTsIngest (TsIngest env)) (boundedNonNegativeSeq (Seq env))
        (HashFieldsFast ["quarantine"; reason; qs_Subject source; MsgID source; qs_IdempotencyKey source;
                         PayloadSHA256 source])
        ContentTypeJSON ∅ payloadBytes "" in
      match Validate out with
      | (_, inl pp) => inl pp
      | (out, inr _) =>
          match ValidateSubjectTaxonomy (SubjectFromEnvelope out) with
          | Some err => inl (Newf ValidationFailed "jetstream quarantine subject taxonomy invalid: %v"
                              [AnyStr (problem_Error err)])
          | None => inr out
          end
      end
  end.

(** ** binary.go *)

Definition MarshalBinary (env : Envelope) : Problem + list Z :=
  match Validate env with
  | (_, inl p) => inl p
  | (env, inr _) =>
      match json_MarshalEnvelope env with
      | inl err => inl (Wrap (err_text err) Internal "envelope marshal binary failed")
      | inr b => inr b
      end
  end.

(** [string(data)] *)
Fixpoint string_of_bytes (l : list Z) : string :=
  match l with [] => "" | b :: l' => String (ascii_of_N (Z.to_N b)) (string_of_bytes l') end.

Definition UnmarshalBinary (data : list Z) : Problem + Envelope :=
  if str_eqb (TrimSpace (string_of_bytes data)) "" then
    inl (New ValidationFailed "envelope binary payload must not be empty")
  else match json_UnmarshalEnvelope data with
       | inl err => inl (Wrap (err_text err) ValidationFailed "envelope unmarshal binary failed")
       | inr env => match Validate env with
                    | (_, inl p) => inl p
                    | (env, inr _) => inr env
                    end
       end.
End policy.
