(* ===== verification/Consumer.v ===== *)
(** * Consumer: internal/adapters/jetstream/consumer.go, publisher.go, stream.go and the budget of retry_budget.go

    A consumer of the bus takes messages in batches, hands each to a handler and
    settles it with the broker: acknowledged, to be delivered again, or terminated
    after its quarantine. What the consumer calls (the broker, the handler, the
    context) are ports that answer by the history of calls, which the state keeps
    ([calls]); reading the context is a call, so that it may be cancelled between
    any two of them. [*nats.Msg] has [AckSync], so acknowledging is synchronous.
    Metrics, logs, the heartbeat that keeps a message in progress and the polling
    of the lag are left out, as is draining the connection. Setting a client up asks
    the broker for the stream and the consumer ([brokerAnswers]). *)

From S2P Require Import Prelude GoRuntime Shared Envelope Subjects RetryBudget BusPolicy.
From Stdlib Require Import Ascii.

Local Open Scope string_scope.
Local Open Scope list_scope.
Local Open Scope Z_scope.

(** ** Configuration; durations are nanoseconds *)

Record PublisherConfig := MkPublisherConfig {
  pc_URL : string;
  pc_StreamName : string;
  pc_DedupWindow : Z;
  pc_MaxAge : Z;
  pc_MaxBytes : Z;
  PublishTimeout : Z;
}.
#[export] Instance PublisherConfig_eta : Eta PublisherConfig := λ r,
  MkPublisherConfig (pc_URL r) (pc_StreamName r) (pc_DedupWindow r) (pc_MaxAge r) (pc_MaxBytes r) (PublishTimeout r).

Record ConsumerConfig := MkConsumerConfig {
  URL : string;
  StreamName : string;
  DedupWindow : Z;
  MaxAge : Z;
  MaxBytes : Z;
  ConsumerDurable : string;
  FilterSubjects : list string;
  AckWait : Z;
  MaxAckPending : Z;
  MaxDeliver : Z;
  DeliverPolicy : string;
  FetchTimeout : Z;
  FetchBatchSize : Z;
  LagPollInterval : Z;
  ShardGroupCount : Z;
  ShardGroupID : Z;
  MaxLag : Z;
}.
#[export] Instance ConsumerConfig_eta : Eta ConsumerConfig := λ r,
  MkConsumerConfig (URL r) (StreamName r) (DedupWindow r) (MaxAge r) (MaxBytes r) (ConsumerDurable r) (FilterSubjects r)
    (AckWait r) (MaxAckPending r) (MaxDeliver r) (DeliverPolicy r) (FetchTimeout r) (FetchBatchSize r)
    (LagPollInterval r) (ShardGroupCount r) (ShardGroupID r) (MaxLag r).

Definition defaultPublishTimeout : Z := 5000000000.
Definition defaultFetchTimeout : Z := 750000000.
Definition defaultLagPollInterval : Z := 5000000000.
Definition defaultFetchBatchSize : Z := 128.
Definition maxFetchBatchSize : Z := 256.
Definition minHeartbeatInterval : Z := 250000000.
Definition maxHeartbeatInterval : Z := 5000000000.

Definition withDefaults (cfg : PublisherConfig) : PublisherConfig :=
  let cfg := if str_eqb (pc_StreamName cfg) "" then cfg <| pc_StreamName := "MARKETDATA" |> else cfg in
  let cfg := if pc_DedupWindow cfg <=? 0 then cfg <| pc_DedupWindow := 300000000000 |> else cfg in
  let cfg := if pc_MaxAge cfg <=? 0 then cfg <| pc_MaxAge := 86400000000000 |> else cfg in
  let cfg := if pc_MaxBytes cfg <=? 0 then cfg <| pc_MaxBytes := 10000000000 |> else cfg in
  if PublishTimeout cfg <=? 0 then cfg <| PublishTimeout := defaultPublishTimeout |> else cfg.

Definition toConsumerDefaults (p : PublisherConfig) (cfg : ConsumerConfig) : ConsumerConfig :=
  cfg <| URL := pc_URL p |> <| StreamName := pc_StreamName p |> <| DedupWindow := pc_DedupWindow p |>
      <| MaxAge := pc_MaxAge p |> <| MaxBytes := pc_MaxBytes p |>.

Definition withConsumerDefaults (cfg : ConsumerConfig) : ConsumerConfig :=
  let cfg := toConsumerDefaults (withDefaults (MkPublisherConfig (URL cfg) (StreamName cfg) (DedupWindow cfg)
    (MaxAge cfg) (MaxBytes cfg) defaultPublishTimeout)) cfg in
  let cfg := if ShardGroupCount cfg <=? 0 then cfg <| ShardGroupCount := 1 |> else cfg in
  let cfg := if str_eqb (ConsumerDurable cfg) "" then
      cfg <| ConsumerDurable := if 1 <? ShardGroupCount cfg then "mr-processor-g" +:+ Itoa (ShardGroupID cfg)
                                else "processor-v1" |>
    else cfg in
  let cfg := if AckWait cfg <=? 0 then cfg <| AckWait := 30000000000 |> else cfg in
  let cfg := if MaxAckPending cfg <=? 0 then cfg <| MaxAckPending := 1024 |> else cfg in
  let cfg := if MaxDeliver cfg <=? 0 then cfg <| MaxDeliver := 10 |> else cfg in
  let cfg := if str_eqb (DeliverPolicy cfg) "" then cfg <| DeliverPolicy := "all" |> else cfg in
  let cfg := if Z.of_nat (length (FilterSubjects cfg)) =? 0 then cfg <| FilterSubjects := ["marketdata.>"] |> else cfg in
  let cfg := if FetchTimeout cfg <=? 0 then cfg <| FetchTimeout := defaultFetchTimeout |> else cfg in
  let cfg := if FetchBatchSize cfg <=? 0 then cfg <| FetchBatchSize := defaultFetchBatchSize |> else cfg in
  if LagPollInterval cfg <=? 0 then cfg <| LagPollInterval := defaultLagPollInterval |> else cfg.

Inductive natsDeliverPolicy := DeliverAllPolicy | DeliverNewPolicy | DeliverLastPolicy.

Section config.
Context {GR : GoRuntime} {BL : BusLib}.

Definition mapDeliverPolicy (policy : string) : Problem + natsDeliverPolicy :=
  let p := ToLower (TrimSpace policy) in
  if str_eqb p "all" then inr DeliverAllPolicy
  else if str_eqb p "new" then inr DeliverNewPolicy
  else if str_eqb p "last" then inr DeliverLastPolicy
  else inl (Newf ValidationFailed "unsupported deliver policy %q" [AnyStr policy]).

Fixpoint validateFilterSubjects (i : Z) (l : list string) : option Problem :=
  match l with
  | [] => None
  | s :: rest =>
      if str_eqb (TrimSpace s) "" then
        Some (Newf ValidationFailed "jetstream consumer filter_subjects[%d] must not be empty" [AnyInt i])
      else match ValidateSubjectPattern s with
           | Some err => Some (Newf ValidationFailed "jetstream consumer filter_subjects[%d] invalid: %v"
                                [AnyInt i; AnyStr (problem_Error err)])
           | None => validateFilterSubjects (i + 1) rest
           end
  end.

Definition validateConsumerRequired (cfg : ConsumerConfig) : option Problem :=
  if str_eqb (TrimSpace (URL cfg)) "" then Some (New ValidationFailed "jetstream consumer url must not be empty")
  else if str_eqb (TrimSpace (StreamName cfg)) "" then
    Some (New ValidationFailed "jetstream consumer stream_name must not be empty")
  else if str_eqb (TrimSpace (ConsumerDurable cfg)) "" then
    Some (New ValidationFailed "jetstream consumer durable must not be empty")
  else if Z.of_nat (length (FilterSubjects cfg)) =? 0 then
    Some (New ValidationFailed "jetstream consumer filter_subjects must not be empty")
  else validateFilterSubjects 0 (FilterSubjects cfg).

Definition validateConsumerPositive (cfg : ConsumerConfig) : option Problem :=
  if (AckWait cfg <=? 0) || (MaxAckPending cfg <=? 0) || (MaxDeliver cfg <=? 0) || (FetchTimeout cfg <=? 0)
     || (LagPollInterval cfg <=? 0) then
    Some (New ValidationFailed "jetstream consumer config has non-positive values")
  else if (MaxBytes cfg <=? 0) || (MaxAge cfg <=? 0) || (DedupWindow cfg <=? 0) then
    Some (New ValidationFailed "jetstream consumer stream config has non-positive values")
  else None.

Definition validateConsumerConfig (cfg : ConsumerConfig) : option Problem :=
  match validateConsumerRequired cfg with
  | Some p => Some p
  | None => match validateConsumerPositive cfg with
            | Some p => Some p
            | None => err_of (mapDeliverPolicy (DeliverPolicy cfg))
            end
  end.
End config.

(** [ackWait / 3] within bounds. *)
Definition heartbeatInterval (ackWait : Z) : Z :=
  let interval := quot64 ackWait 3 in
  if interval <? minHeartbeatInterval then minHeartbeatInterval
  else if maxHeartbeatInterval <? interval then maxHeartbeatInterval
  else interval.

(** ** The errors of the broker *)

Definition wrapUnavailable (kind : string) (err : error) (msg : string) : Problem :=
  (with_detail (Wrap (err_text err) Unavailable msg) "kind" (AnyStr kind)) <| Retryable := true |>.

Definition classifyPublishError (err : error) : string :=
  if errors_Is err DeadlineExceeded || errors_Is err ErrTimeout then "timeout"
  else if errors_Is err ErrBadSubject then "validation"
  else if errors_Is err ErrConnectionClosed || errors_Is err ErrDisconnected || errors_Is err ErrNoResponders
       then "unavailable"
  else "publish_failed".

(** ** stream.go: the stream on the broker *)

(** [nats.StreamConfig]; the policies are the library's numbers. *)
Record StreamConfig := MkStreamConfig {
  sc_Name : string;
  sc_Subjects : list string;
  sc_Retention : Z;
  sc_Storage : Z;
  sc_MaxAge : Z;
  sc_MaxBytes : Z;
  sc_MaxMsgs : Z;
  sc_Duplicates : Z;
}.
Definition LimitsPolicy : Z := 0.
Definition FileStorage : Z := 0.

Definition subjectWildcards : list string :=
  ["dataplane.>"; "marketdata.>"; "aggregation.>"; "evidence.>"; "insights.>"; "liquidity.>"; "signal.>"; "strategy.>";
   "execution.>"; "portfolio.>"; "quarantine.>"].

(** What the broker and the connection answer while a client is set up. *)
Record brokerAnswers := MkAnswers {
  on_Connect : option error;
  on_JetStream : option error;
  on_StreamInfo : error + StreamConfig;
  on_UpdateStream : option error;
  on_AddStream : option error;
  on_AddConsumer : option error;
  on_UpdateConsumer : option error;
  on_PullSubscribe : option error;
}.

Definition buildStreamConfig (cfg : PublisherConfig) : StreamConfig :=
  let cfg := withDefaults cfg in
  MkStreamConfig (pc_StreamName cfg) subjectWildcards LimitsPolicy FileStorage (pc_MaxAge cfg) (pc_MaxBytes cfg) 0
    (pc_DedupWindow cfg).

Definition streamConfigMatches (current desired : StreamConfig) : bool :=
  if negb (str_eqb (sc_Name current) (sc_Name desired)) then false
  else if negb (sc_Retention current =? sc_Retention desired) || negb (sc_Storage current =? sc_Storage desired) then false
  else if negb (sc_MaxAge current =? sc_MaxAge desired) || negb (sc_MaxBytes current =? sc_MaxBytes desired)
          || negb (sc_Duplicates current =? sc_Duplicates desired) then false
  else bool_decide (sc_Subjects current = sc_Subjects desired).

Section setup.
Context {GR : GoRuntime} {BL : BusLib}.

Fixpoint validateStreamSubjects (i : Z) (l : list string) : option Problem :=
  match l with
  | [] => None
  | subject :: rest =>
      match ValidateSubjectPattern subject with
      | Some err => Some (Newf ValidationFailed "jetstream stream subjects[%d] invalid: %v"
                           [AnyInt i; AnyStr (problem_Error err)])
      | None => validateStreamSubjects (i + 1) rest
      end
  end.

Definition validateStreamConfigInvariants (cfg : StreamConfig) : option Problem :=
  if str_eqb (TrimSpace (sc_Name cfg)) "" then Some (New ValidationFailed "jetstream stream name must not be empty")
  else if Z.of_nat (length (sc_Subjects cfg)) =? 0 then
    Some (New ValidationFailed "jetstream stream subjects must not be empty")
  else match validateStreamSubjects 0 (sc_Subjects cfg) with
       | Some p => Some p
       | None =>
           if (sc_MaxAge cfg <=? 0) && (sc_MaxBytes cfg <=? 0) && (sc_MaxMsgs cfg <=? 0) then
             Some (New ValidationFailed "jetstream stream requires at least one bound (max_age|max_bytes|max_msgs)")
           else if sc_MaxAge cfg <=? 0 then Some (New ValidationFailed "jetstream stream max_age must be > 0")
           else if (sc_MaxBytes cfg <? 0) || (sc_MaxMsgs cfg <? 0) then
             Some (New ValidationFailed "jetstream stream max_bytes/max_msgs must be >= 0")
           else if sc_Duplicates cfg <=? 0 then Some (New ValidationFailed "jetstream stream dedup_window must be > 0")
           else None
       end.

(** [if err := call(); err != nil { return wrapUnavailable(kind, err, msg) }] *)
Definition unavailable (r : option error) (kind msg : string) : option Problem :=
  match r with Some err => Some (wrapUnavailable kind err msg) | None => None end.

Definition ensureStream (broker : brokerAnswers) (cfg : PublisherConfig) : option Problem :=
  let streamCfg := buildStreamConfig cfg in
  match validateStreamConfigInvariants streamCfg with
  | Some p => Some p
  | None =>
      match on_StreamInfo broker with
      | inr info =>
          if negb (streamConfigMatches info streamCfg) then
            unavailable (on_UpdateStream broker) "stream_update_failed" "jetstream stream update failed"
          else None
      | inl err =>
          if errors_Is err ErrStreamNotFound then
            unavailable (on_AddStream broker) "stream_create_failed" "jetstream stream create failed"
          else Some (wrapUnavailable "stream_info_failed" err "jetstream stream info failed")
      end
  end.

(** Adding the consumer, or updating it when the name is taken. *)
Definition ensureConsumer (broker : brokerAnswers) : option Problem :=
  match on_AddConsumer broker with
  | None => None
  | Some err =>
      if negb (errors_Is err ErrConsumerNameAlreadyInUse) then
        Some (wrapUnavailable "consumer_create_failed" err "jetstream consumer create failed")
      else unavailable (on_UpdateConsumer broker) "consumer_update_failed" "jetstream consumer update failed"
  end.
End setup.

(** ** Ports *)

Inductive settlement := CallAck | CallAckSync | CallNak | CallTerm.
#[export] Instance settlement_eq_dec : EqDecision settlement.
Proof. solve_decision. Defined.

(** The message published to quarantine another. *)
Record outgoing := MkOutgoing { out_Subject : string; out_Data : list Z; out_MsgID : string }.

Inductive call :=
| CtxErr (cancelled : bool)
| Handle (env : Envelope) (p : option Problem)
| Settle (msg : NatsMsg) (how : settlement) (err : option error)
| PublishMsg (msg : outgoing) (err : option error)
| Fetch (n : Z) (r : error + list NatsMsg).

Class ConsumerPorts := {
  ask_ctx : list call → bool;
  ask_handler : list call → Envelope → option Problem;
  ask_settle : list call → NatsMsg → settlement → option error;
  ask_publish : list call → outgoing → option error;
  ask_fetch : list call → Z → error + list NatsMsg;
}.

Record Consumer := MkConsumer {
  cfg : ConsumerConfig;
  transientRetryBudget : Z;
  retryBudget : retryBudgetTracker;
  calls : list call;
}.
#[export] Instance Consumer_eta : Eta Consumer := λ r,
  MkConsumer (cfg r) (transientRetryBudget r) (retryBudget r) (calls r).

Abbreviation ConsumerM := (Meth Consumer Problem).

Section consumer.
Context {GR : GoRuntime} {BL : BusLib} {ports : ConsumerPorts}.

(** The first problem ends the setup; [toNATSConsumerConfig] fails as [mapDeliverPolicy] does. *)
Definition NewConsumer (broker : brokerAnswers) (cfg : ConsumerConfig) : Problem + Consumer :=
  let cfg := withConsumerDefaults cfg in
  let streamCfg := MkPublisherConfig (URL cfg) (StreamName cfg) (DedupWindow cfg) (MaxAge cfg) (MaxBytes cfg) 0 in
  match Collect [validateConsumerConfig cfg;
                 unavailable (on_Connect broker) "connect_failed" "jetstream consumer connect failed";
                 unavailable (on_JetStream broker) "context_failed" "jetstream consumer context create failed";
                 ensureStream broker streamCfg;
                 err_of (mapDeliverPolicy (DeliverPolicy cfg));
                 ensureConsumer broker;
                 unavailable (on_PullSubscribe broker) "subscribe_failed" "jetstream pull subscribe failed"] with
  | Some p => inl p
  | None => inr (MkConsumer cfg (withTransientRetryBudget (MaxDeliver cfg))
                   (newRetryBudgetTracker defaultRetryBudgetFallbackCapacity) [])
  end.

(** ** The calls *)

Definition record (x : call) : ConsumerM unit := assign (λ c, c <| calls ::= λ l, l ++ [x] |>).
Definition ctxErr : ConsumerM bool :=
  c ← recv; let b := ask_ctx (calls c) in record (CtxErr b) ;; mret b.
Definition handle (env : Envelope) : ConsumerM (option Problem) :=
  c ← recv; let p := ask_handler (calls c) env in record (Handle env p) ;; mret p.
Definition settle (msg : NatsMsg) (how : settlement) : ConsumerM (option error) :=
  c ← recv; let r := ask_settle (calls c) msg how in record (Settle msg how r) ;; mret r.
Definition publishMsg (out : outgoing) : ConsumerM (option error) :=
  c ← recv; let r := ask_publish (calls c) out in record (PublishMsg out r) ;; mret r.
Definition fetch (n : Z) : ConsumerM (error + list NatsMsg) :=
  c ← recv; let r := ask_fetch (calls c) n in record (Fetch n r) ;; mret r.

(** ** The retry budget *)

Definition parseNonNegativeInt (raw : string) : option Z :=
  if str_eqb raw "" then None
  else match ParseInt64 raw with
       | Some value => if value <? 0 then None else Some value
       | None => None
       end.
Definition parsePositiveInt (raw : string) : option Z :=
  match parseNonNegativeInt raw with
  | Some value => if value <=? 0 then None else Some value
  | None => None
  end.

Definition jsHeaderNumDelivered : string := "Nats-Num-Delivered".
Definition jsHeaderMsgDelivery : string := "Nats-Msg-Redelivery".

(** The metadata's counter is a [uint64], cut to an [int]. *)
Definition deliveredCount (meta : option Z) (header : option (gmap string (list string))) : option Z :=
  let fromHeader :=
    match header with
    | None => None
    | Some _ =>
        match parsePositiveInt (TrimSpace (HeaderGet header jsHeaderNumDelivered)) with
        | Some delivered => Some delivered
        | None =>
            match parseNonNegativeInt (TrimSpace (HeaderGet header jsHeaderMsgDelivery)) with
            | Some redelivered => Some (add64 redelivered 1)
            | None => None
            end
        end
    end in
  match meta with
  | Some n => if 0 <? n then Some (if MaxInt64 <? n then MaxInt64 else n) else fromHeader
  | None => fromHeader
  end.

Definition retryBudgetPartition (msg : NatsMsg) (env : Envelope) : string :=
  let venue := ToLower (TrimSpace (Venue env)) in
  let instrument := ToUpper (TrimSpace (Instrument env)) in
  let '(venue, instrument) :=
    if str_eqb venue "" || str_eqb instrument "" then
      let '(_, _, subjectVenue, subjectInstrument) := parseSubjectMeta (m_Subject msg) in
      (if str_eqb venue "" then ToLower (TrimSpace subjectVenue) else venue,
       if str_eqb instrument "" then ToUpper (TrimSpace subjectInstrument) else instrument)
    else (venue, instrument) in
  let venue := if str_eqb venue "" then "unknown" else venue in
  let instrument := if str_eqb instrument "" then "unknown" else instrument in
  venue +:+ "|" +:+ instrument.

Definition isRetryBudgetReason (reason : string) : bool :=
  one_of (normalizeIngestReason reason) [ingestReasonTransientFailure; ingestReasonQuarantinePublishError].

Definition onTracker {A} (m : Meth retryBudgetTracker Problem A) : ConsumerM A := λ c,
  let '(t, r) := m (retryBudget c) in (c <| retryBudget := t |>, r).
Definition resetPartition (partition : string) : ConsumerM unit :=
  assign (λ c, c <| retryBudget ::= reset partition |>).
Definition resetRetryBudgetPartition (msg : NatsMsg) (env : Envelope) : ConsumerM unit :=
  resetPartition (retryBudgetPartition msg env).

Definition applyTransientRetryBudget (msg : NatsMsg) (env : Envelope) (meta : option Z) (decision : ingestDecision)
    : ConsumerM ingestDecision :=
  if negb (bool_decide (d_Disposition decision = DispositionNak)) then
    resetRetryBudgetPartition msg env ;; mret decision
  else if negb (isRetryBudgetReason (ReasonCode decision)) then mret decision
  else
    c ← recv;
    if transientRetryBudget c <=? 0 then mret decision else
    match deliveredCount meta (m_Header msg) with
    | Some delivered =>
        if transientRetryBudget c <=? delivered then
          resetRetryBudgetPartition msg env ;; mret exhaustedTransientDecision
        else mret decision
    | None =>
        let partition := retryBudgetPartition msg env in
        r ← onTracker (increment partition);
        if transientRetryBudget c <=? r.1 then
          resetPartition partition ;; mret exhaustedTransientDecision
        else mret decision
    end.

(** ** Settling a message *)

(** The problem a failed quarantine returns is the result, [None] a success. *)
Definition publishQuarantine (msg : NatsMsg) (env : Envelope) (reasonCode : string) (procProb : option Problem)
    : ConsumerM (option Problem) :=
  match buildQuarantineEnvelope msg env reasonCode procProb with
  | inl p => mret (Some p)
  | inr out =>
      match MarshalBinary out with
      | inl p => mret (Some p)
      | inr data =>
          r ← publishMsg (MkOutgoing (SubjectFromEnvelope out) data (IdempotencyKey out));
          match r with
          | None => mret None
          | Some err =>
              let '(retryable, reason) := ClassifyQuarantinePublishError err in
              let reason := if str_eqb reason "" then ingestReasonQuarantinePublishError else reason in
              let out := with_detail (with_detail (Wrap (err_text err) Unavailable "jetstream quarantine publish failed")
                "kind" (AnyStr (classifyPublishError err))) "reason_code" (AnyStr reason) in
              mret (Some (if retryable : bool then out <| Retryable := true |> else out))
          end
      end
  end.

Definition ackWithDisposition (msg : NatsMsg) (disposition : Disposition) : ConsumerM unit :=
  cancelled ← ctxErr;
  if cancelled : bool then mret tt else
  r ← settle msg (match disposition with
                  | DispositionAck => CallAckSync
                  | DispositionNak => CallNak
                  | DispositionTerm => CallTerm
                  end);
  match r with
  | Some err => throw (wrapUnavailable "ack_failed" err "jetstream ack operation failed")
  | None => mret tt
  end.

(** [if decision.Quarantine && !isQuarantineMessage(...) { ... }] *)
Definition quarantineIfPoison (msg : NatsMsg) (env : Envelope) (decision : ingestDecision) (p : option Problem)
    : ConsumerM ingestDecision :=
  if Quarantine decision && negb (isQuarantineMessage msg env) then
    r ← publishQuarantine msg env (ReasonCode decision) p;
    mret (applyQuarantinePublishResult decision r)
  else mret decision.

Definition consumeOne (msg : NatsMsg) : ConsumerM unit :=
  c ← recv;
  if subjectBelongsToOtherShard (m_Subject msg) (ShardGroupCount (cfg c)) (ShardGroupID (cfg c)) then
    settle msg CallAck ;; mret tt
  else
    match UnmarshalBinary (m_Data msg) with
    | inl decodeProb =>
        let decision := classifyEnvelopeDecodeFailure (Some decodeProb) in
        decision ← quarantineIfPoison msg zeroEnvelope decision (Some decodeProb);
        ackWithDisposition msg (d_Disposition decision)
    | inr env =>
        procProb ← handle env;
        cancelled ← ctxErr;
        if cancelled : bool then mret tt else
        let decision := ClassifyIngestError procProb env in
        decision ← quarantineIfPoison msg env decision procProb;
        decision ← applyTransientRetryBudget msg env (NumDelivered msg) decision;
        ackWithDisposition msg (d_Disposition decision)
    end.

(** ** The loop *)

Definition shouldContinueAfterConsumeError (p : Problem) : bool :=
  if negb (Retryable p) || negb (bool_decide (Code p = Unavailable)) then false
  else match Details p !! "kind" with Some (AnyStr kind) => str_eqb kind "ack_failed" | _ => false end.

Definition fetchBatchSize (cfg : ConsumerConfig) : Z :=
  let size := FetchBatchSize cfg in
  let size := if size <=? 0 then defaultFetchBatchSize else size in
  let size := if (0 <? MaxAckPending cfg) && (MaxAckPending cfg <? size) then MaxAckPending cfg else size in
  let size := if maxFetchBatchSize <? size then maxFetchBatchSize else size in
  if size <? 1 then 1 else size.

(** A problem that is not about the settlement ends the loop. *)
Fixpoint consumeBatch (msgs : list NatsMsg) : ConsumerM unit := λ c,
  match msgs with
  | [] => (c, inr tt)
  | msg :: rest =>
      match consumeOne msg c with
      | (c, inl p) => if shouldContinueAfterConsumeError p then consumeBatch rest c else (c, inl p)
      | (c, inr _) => consumeBatch rest c
      end
  end.

(** One pass of the loop; [true] when [Consume] returns nil. *)
Definition consumePass : ConsumerM bool :=
  cancelled ← ctxErr;
  if cancelled : bool then mret true else
  c ← recv;
  r ← fetch (fetchBatchSize (cfg c));
  match r with
  | inl err =>
      if errors_Is err ErrTimeout then mret false else
      cancelled ← ctxErr;
      if cancelled || errors_Is err Canceled then mret true
      else throw (wrapUnavailable "fetch_failed" err "jetstream fetch failed")
  | inr msgs => consumeBatch msgs ;; mret false
  end.

(** [n] passes of [Consume]: [true] when it has returned nil, [false] while it is
    still running, and the problem when it has returned one. *)
Fixpoint Consume (n : nat) : ConsumerM bool :=
  match n with
  | O => mret false
  | S n' =>
      stop ← consumePass;
      if stop : bool then mret true else Consume n'
  end.
End consumer.

(** ** publisher.go *)

Section publisher.
Context {GR : GoRuntime} {BL : BusLib}.

(** Publishing one message, by the history of publications: an error, or whether
    the broker had it already. *)
Class PublisherPort := ask_PublishMsg : list (outgoing * (error + bool)) → outgoing → error + bool.
Context {port : PublisherPort}.

Record Publisher := MkPublisher { p_cfg : PublisherConfig; p_sent : list (outgoing * (error + bool)) }.
#[export] Instance Publisher_eta : Eta Publisher := λ r, MkPublisher (p_cfg r) (p_sent r).

Definition validateConfig (cfg : PublisherConfig) : option Problem :=
  if str_eqb (TrimSpace (pc_URL cfg)) "" then Some (New ValidationFailed "jetstream url must not be empty")
  else if str_eqb (TrimSpace (pc_StreamName cfg)) "" then
    Some (New ValidationFailed "jetstream stream_name must not be empty")
  else if (pc_DedupWindow cfg <=? 0) || (pc_MaxAge cfg <=? 0) || (pc_MaxBytes cfg <=? 0) || (PublishTimeout cfg <=? 0) then
    Some (New ValidationFailed "jetstream publisher config has non-positive values")
  else None.

Definition NewPublisher (broker : brokerAnswers) (cfg : PublisherConfig) : Problem + Publisher :=
  let cfg := withDefaults cfg in
  match Collect [validateConfig cfg;
                 unavailable (on_Connect broker) "connect_failed" "jetstream connect failed";
                 unavailable (on_JetStream broker) "context_failed" "jetstream context create failed";
                 ensureStream broker cfg] with
  | Some p => inl p
  | None => inr (MkPublisher cfg [])
  end.

Definition subjectPrefixMetaKey : string := "subject_prefix".

(** [strings.Trim(s, ".")] *)
Fixpoint trimDotsLeft (s : string) : string :=
  match s with String "."%char s' => trimDotsLeft s' | _ => s end.
Fixpoint trimDotsRight (s : string) : string :=
  match s with
  | EmptyString => EmptyString
  | String ch s' =>
      match trimDotsRight s' with
      | EmptyString => if Ascii.eqb ch "."%char then EmptyString else String ch EmptyString
      | t => String ch t
      end
  end.
Definition TrimDots (s : string) : string := trimDotsRight (trimDotsLeft s).

Definition subjectFromEnvelopeWithPrefix (env : Envelope) : string :=
  let base := SubjectFromEnvelope env in
  if Z.of_nat (base.size (Meta env)) =? 0 then base else
  let prefix := TrimSpace (default "" (Meta env !! subjectPrefixMetaKey)) in
  if str_eqb prefix "" then base else
  match reverse (Split "."%char base) with
  | instrument :: venue :: _ :: _ :: _ =>
      let prefix := TrimDots (TrimSpace prefix) in
      if str_eqb prefix "" then base
      else prefix +:+ "." +:+ Join [venue; instrument] "."
  | _ => base
  end.

Definition Publish (env : Envelope) : Meth Publisher Problem unit :=
  let subject := subjectFromEnvelopeWithPrefix env in
  match ValidateSubjectTaxonomy subject with
  | Some err => throw (Newf ValidationFailed "jetstream publish subject taxonomy invalid: %v" [AnyStr (problem_Error err)])
  | None =>
      data ← try_ (MarshalBinary env);
      p ← recv;
      let msg := MkOutgoing subject data (TrimSpace (IdempotencyKey env)) in
      let r := ask_PublishMsg (p_sent p) msg in
      assign (λ p, p <| p_sent ::= λ l, l ++ [(msg, r)] |>) ;;
      match r with
      | inl err =>
          let kind := classifyPublishError err in
          if str_eqb kind "validation" then throw (Wrap (err_text err) ValidationFailed "jetstream publish validation failed")
          else throw (wrapUnavailable kind err "jetstream publish failed")
      | inr _ => mret tt
      end
  end.
End publisher.
