(* ===== verification/ConsumerSpec.v ===== *)
(** * ConsumerSpec: theorems about the consumer of the bus

    How a message is settled ([consumer_settles_every_message]), that no message ends
    the loop, that quarantine messages are not quarantined again, and that every
    stream is handled by one group of consumers. *)

From S2P Require Import Prelude GoRuntime Shared Envelope Subjects RetryBudget BusPolicy Consumer.

Local Open Scope string_scope.
Local Open Scope list_scope.
Local Open Scope Z_scope.

Section spec.
Context {GR : GoRuntime} {BL : BusLib} {ports : ConsumerPorts}.

(** ** What a run adds to the history *)

(** [c'] is [c] with the calls [tr] added, the tracker apart. *)
Definition extends (c c' : Consumer) (tr : list call) : Prop :=
  calls c' = calls c ++ tr ∧ cfg c' = cfg c ∧ transientRetryBudget c' = transientRetryBudget c.

Lemma extends_trans c1 c2 c3 tr1 tr2 : extends c1 c2 tr1 → extends c2 c3 tr2 → extends c1 c3 (tr1 ++ tr2).
Proof. intros (H1 & H2 & H3) (H4 & H5 & H6). unfold extends. by rewrite H4, H5, H6, H1, H2, H3, app_assoc. Qed.
Lemma extends_refl c : extends c c [].
Proof. unfold extends. by rewrite app_nil_r. Qed.
Lemma extends_record c x : extends c (c <| calls ::= λ l, l ++ [x] |>) [x].
Proof. done. Qed.
Lemma extends_tracker c t : extends c (c <| retryBudget := t |>) [].
Proof. unfold extends, upd. cbn. by rewrite app_nil_r. Qed.

(** ** Quarantining *)

(** The quarantine of [msg] cannot be made or encoded. *)
Definition unquarantinable (msg : NatsMsg) (env : Envelope) (reason : string) (p : option Problem) : Prop :=
  (∃ q, buildQuarantineEnvelope msg env reason p = inl q) ∨
  (∃ out q, buildQuarantineEnvelope msg env reason p = inr out ∧ MarshalBinary out = inl q).

(** [out] quarantines [msg]. *)
Definition quarantines (msg : NatsMsg) (env : Envelope) (reason : string) (p : option Problem) (out : outgoing) : Prop :=
  ∃ e data, buildQuarantineEnvelope msg env reason p = inr e ∧ MarshalBinary e = inr data ∧
    out = MkOutgoing (SubjectFromEnvelope e) data (IdempotencyKey e).

Definition failedQuarantine (retryable : bool) : ingestDecision :=
  if retryable then MkDecision DispositionNak "nak" ingestReasonQuarantinePublishError false false
  else MkDecision DispositionTerm "term" ingestReasonQuarantinePublishError false false.

(** The calls and the decision after the quarantine step for decision [d]. *)
Inductive quarantineOutcome (msg : NatsMsg) (env : Envelope) (d : ingestDecision) (p : option Problem)
    : list call → ingestDecision → Prop :=
| qo_healthy : Quarantine d = false → quarantineOutcome msg env d p [] d
| qo_already : Quarantine d = true → isQuarantineMessage msg env = true → quarantineOutcome msg env d p [] d
| qo_impossible : Quarantine d = true → isQuarantineMessage msg env = false →
    unquarantinable msg env (ReasonCode d) p → quarantineOutcome msg env d p [] (failedQuarantine false)
| qo_done out : Quarantine d = true → isQuarantineMessage msg env = false →
    quarantines msg env (ReasonCode d) p out → quarantineOutcome msg env d p [PublishMsg out None] d
| qo_failed out err : Quarantine d = true → isQuarantineMessage msg env = false →
    quarantines msg env (ReasonCode d) p out →
    quarantineOutcome msg env d p [PublishMsg out (Some err)] (failedQuarantine (ClassifyQuarantinePublishError err).1).

(** Problems of validation and encoding are not retryable. *)
Lemma NormalizeContentType_final ct p : NormalizeContentType ct = inl p → Retryable p = false.
Proof. unfold NormalizeContentType. repeat case_match; intros; by simplify_eq. Qed.
Lemma Validate_final : fails_with (λ p, Retryable p = false) Validate.
Proof. unfold Validate. solve_fails; try done. apply NormalizeContentType_final. Qed.

Lemma buildQuarantineEnvelope_final msg env reason p q :
  buildQuarantineEnvelope msg env reason p = inl q → Retryable q = false.
Proof.
  unfold buildQuarantineEnvelope. cbv zeta. destruct (json_MarshalQuarantine _) as [err|bytes]; [by intros [= <-]|].
  set (out := MkEnvelope _ _ _ _ _ _ _ _ _ _ _ _). pose proof (Validate_final out) as Hv.
  destruct (Validate out) as [out' [pp|?]]; [intros [= <-]; by eapply Hv|].
  destruct (ValidateSubjectTaxonomy _); [by intros [= <-]|done].
Qed.
Lemma MarshalBinary_final e q : MarshalBinary e = inl q → Retryable q = false.
Proof.
  unfold MarshalBinary. pose proof (Validate_final e) as Hv. destruct (Validate e) as [e' [pp|?]]; [intros [= <-]; by eapply Hv|].
  destruct (json_MarshalEnvelope e'); [by intros [= <-]|done].
Qed.

Lemma publishQuarantine_run msg env reason p c :
  ∃ c' tr r, publishQuarantine msg env reason p c = (c', inr r) ∧ extends c c' tr ∧ retryBudget c' = retryBudget c ∧
    ((tr = [] ∧ unquarantinable msg env reason p ∧ ∃ q, r = Some q ∧ Retryable q = false) ∨
     ∃ out err, tr = [PublishMsg out err] ∧ quarantines msg env reason p out ∧
       match err with
       | None => r = None
       | Some err => ∃ q, r = Some q ∧ Retryable q = (ClassifyQuarantinePublishError err).1
       end).
Proof.
  unfold publishQuarantine. destruct (buildQuarantineEnvelope msg env reason p) as [q|e] eqn:Hb.
  { exists c, [], (Some q). repeat split; [by rewrite app_nil_r|]. left. repeat split; [left; eauto|].
    eauto using buildQuarantineEnvelope_final. }
  destruct (MarshalBinary e) as [q|data] eqn:Hm.
  { exists c, [], (Some q). repeat split; [by rewrite app_nil_r|]. left. repeat split; [right; eauto|].
    eauto using MarshalBinary_final. }
  unfold publishMsg. set (out := MkOutgoing _ _ _). unfold mbind, Meth_bind, recv, record, assign, mret, Meth_ret.
  destruct (ask_publish (calls c) out) as [err|] eqn:He.
  - destruct (ClassifyQuarantinePublishError err) as [retryable reason'] eqn:Hcl.
    do 3 eexists. repeat split. right. exists out, (Some err). split_and!; [done|by exists e, data|].
    eexists. split; [done|]. rewrite Hcl. by destruct retryable.
  - do 3 eexists. repeat split. right. exists out, None. split_and!; [done|by exists e, data|done].
Qed.

Lemma quarantineIfPoison_run msg env d p c :
  ∃ c' tr d', quarantineIfPoison msg env d p c = (c', inr d') ∧ extends c c' tr ∧ retryBudget c' = retryBudget c ∧
    quarantineOutcome msg env d p tr d'.
Proof.
  unfold quarantineIfPoison. destruct (Quarantine d) eqn:Hq; cbn [andb].
  2: { exists c, [], d. repeat split; [by rewrite app_nil_r|]. by apply qo_healthy. }
  destruct (isQuarantineMessage msg env) eqn:Hi; cbn [negb].
  { exists c, [], d. repeat split; [by rewrite app_nil_r|]. by apply qo_already. }
  destruct (publishQuarantine_run msg env (ReasonCode d) p c) as (c' & tr & r & Hrun & Hext & Ht & Hout).
  exists c', tr, (applyQuarantinePublishResult d r). split; [by rewrite (bind_run _ _ _ _ _ Hrun)|].
  split_and!; [done..|]. unfold applyQuarantinePublishResult.
  destruct Hout as [(-> & Hun & q & -> & Hr)|(out & [err|] & -> & Hq' & Hr)].
  - rewrite Hr. by apply qo_impossible.
  - destruct Hr as (q & -> & Hr). rewrite Hr.
    replace (if negb _ then _ else _) with (failedQuarantine (ClassifyQuarantinePublishError err).1)
      by by destruct (ClassifyQuarantinePublishError err).1.
    by apply qo_failed.
  - subst r. by apply qo_done.
Qed.

(** ** The retry budget *)

(** The tracker is consistent, and no partition in it has used up the budget. *)
Record budgetOK (c : Consumer) : Prop := {
  bo_budget : 1 ≤ transientRetryBudget c ≤ defaultTransientRetryBudgetDeliveries;
  bo_tracker : consistent (retryBudget c);
  bo_attempts : ∀ k e, entries (retryBudget c) !! k = Some e → 1 ≤ attempts e < transientRetryBudget c;
}.

(** The deliveries the bus reports, or the failures counted here, reach the budget. *)
Definition budgetSpent (c : Consumer) (msg : NatsMsg) (env : Envelope) : Prop :=
  match deliveredCount (NumDelivered msg) (m_Header msg) with
  | Some delivered => transientRetryBudget c ≤ delivered
  | None => ∃ a e, (increment (retryBudgetPartition msg env) (retryBudget c)).2 = inr (a, e) ∧ transientRetryBudget c ≤ a
  end.

Lemma withTransientRetryBudget_range n :
  1 ≤ withTransientRetryBudget n ≤ defaultTransientRetryBudgetDeliveries.
Proof.
  unfold withTransientRetryBudget, defaultTransientRetryBudgetDeliveries.
  destruct (0 <? n) eqn:?, (n <? 3) eqn:?; cbn [andb]; try (destruct (_ <=? 0) eqn:?); reflect_bools; lia.
Qed.

Lemma NewConsumer_budgetOK broker cf c : NewConsumer broker cf = inr c → budgetOK c.
Proof.
  unfold NewConsumer. generalize (withConsumerDefaults cf) as cf'. intros cf'. cbv zeta.
  pose proof (newRetryBudgetTracker_consistent defaultRetryBudgetFallbackCapacity) as Ht.
  assert (entries (newRetryBudgetTracker defaultRetryBudgetFallbackCapacity) = ∅) as He by reflexivity.
  revert Ht He. generalize (newRetryBudgetTracker defaultRetryBudgetFallbackCapacity) as t. intros t Ht He.
  destruct (Collect _); [done|]. intros Heq. injection Heq as <-.
  split; cbn [transientRetryBudget retryBudget]; [apply withTransientRetryBudget_range|done|].
  intros k e. by rewrite He, lookup_empty.
Qed.

Lemma reset_entries k t k' e : entries (reset k t) !! k' = Some e → entries t !! k' = Some e.
Proof.
  unfold reset. destruct (str_eqb _ _); [done|]. destruct (entries t !! k); [|done]. destruct (_ && _); unfold upd; cbn;
    by intros [_ ?]%lookup_delete_Some.
Qed.
Lemma reset_gone k t e : TrimSpace k ≠ "" → entries (reset k t) !! k = Some e → False.
Proof.
  intros Hk%String.eqb_neq. unfold reset, str_eqb. rewrite Hk. destruct (entries t !! k) eqn:He; [|by rewrite He].
  destruct (_ && _); unfold upd; cbn; by rewrite lookup_delete_eq.
Qed.

Lemma reset_budgetOK c k : budgetOK c → budgetOK (c <| retryBudget ::= reset k |>).
Proof.
  intros [Hb Ht Ha]. unfold upd. split; cbn; [done|by apply reset_consistent|]. intros k' e He. by eapply Ha, reset_entries.
Qed.

(** Counting a failure: the entry of [k] has the number returned, the others are as before. *)
Lemma increment_entries k t t' a ev : consistent t → TrimSpace k ≠ "" → increment k t = (t', inr (a, ev)) →
  a = match entries t !! k with Some e => add64 (attempts e) 1 | None => 1 end ∧
  ∀ k' e', entries t' !! k' = Some e' → (k' = k ∧ attempts e' = a) ∨ entries t !! k' = Some e'.
Proof.
  intros Hc Hk. destruct (entries t !! k) as [e|] eqn:He.
  - rewrite (increment_known _ _ _ Hk He). intros [= <- <- _]. split; [done|]. unfold upd. cbn.
    intros k' e' [[<- <-]|[_ ?]]%lookup_insert_Some; [by left|by right].
  - destruct (increment_new _ _ Hc Hk He) as (victim & Hv & ->). intros [= <- <- _]. split; [done|]. unfold replaced. cbn.
    intros k' e' [[<- <-]|[_ H]]%lookup_insert_Some; [by left|right]. destruct (str_eqb victim ""); [done|].
    by apply lookup_delete_Some in H as [_ ?].
Qed.

Lemma applyTransientRetryBudget_run msg env d c : budgetOK c →
  ∃ c' d', applyTransientRetryBudget msg env (NumDelivered msg) d c = (c', inr d') ∧ extends c c' [] ∧ budgetOK c' ∧
    (d' = d ∧ (d_Disposition d = DispositionNak → isRetryBudgetReason (ReasonCode d) = true → ¬ budgetSpent c msg env) ∨
     d_Disposition d = DispositionNak ∧ isRetryBudgetReason (ReasonCode d) = true ∧
     d' = exhaustedTransientDecision ∧ budgetSpent c msg env).
Proof.
  intros Hok. pose proof Hok as [Hb Hc Ha]. unfold applyTransientRetryBudget.
  destruct (bool_decide (d_Disposition d = DispositionNak)) eqn:Hn; cbn [negb].
  2: { reflect_bools. do 2 eexists. split; [reflexivity|].
    split_and!; [apply extends_tracker|by apply reset_budgetOK|by left]. }
  reflect_bools. destruct (isRetryBudgetReason (ReasonCode d)) eqn:Hr; cbn [negb].
  2: { exists c, d. split_and!; [done|apply extends_refl|done|left; split; [done|by intros _]]. }
  rewrite recv_run. destruct (transientRetryBudget c <=? 0) eqn:?; [reflect_bools; lia|].
  unfold budgetSpent. destruct (deliveredCount (NumDelivered msg) (m_Header msg)) as [delivered|] eqn:Hd.
  - destruct (transientRetryBudget c <=? delivered) eqn:Hle; reflect_bools.
    + do 2 eexists. split; [reflexivity|]. split_and!; [apply extends_tracker|by apply reset_budgetOK|by right].
    + exists c, d. split_and!; [done|apply extends_refl|done|left; split; [done|lia]].
  - cbv zeta. set (k := retryBudgetPartition msg env). destruct (increment k (retryBudget c)) as [t r] eqn:Hi.
    destruct (increment_consistent k _ Hc) as [Hc' [[a ev] Hr']]. rewrite Hi in Hc', Hr'. cbn in Hc', Hr'. subst r.
    unfold onTracker. unfold mbind at 1, Meth_bind at 1. rewrite Hi. cbn [fst].
    destruct (decide (TrimSpace k = "")) as [Hk|Hk].
    { rewrite increment_blank in Hi by done. injection Hi as <- <- <-.
      destruct (transientRetryBudget c <=? 0) eqn:?; [reflect_bools; lia|].
      do 2 eexists. split; [reflexivity|]. split_and!; [apply extends_tracker|by destruct c|left; split; [done|]].
      intros _ _ (a & e & [= <- <-] & Hle). lia. }
    destruct (increment_entries _ _ _ _ _ Hc Hk Hi) as [Hav He'].
    assert (1 ≤ a) as Ha1.
    { rewrite Hav. destruct (entries (retryBudget c) !! k) as [e|] eqn:He; [|lia]. specialize (Ha _ _ He).
      unfold add64. unfold defaultTransientRetryBudgetDeliveries in Hb. rewrite wrap64_id; [lia|].
      unfold in_i64, MinInt64, MaxInt64. lia. }
    destruct (transientRetryBudget c <=? a) eqn:Hle; reflect_bools.
    + do 2 eexists. split; [reflexivity|]. split_and!; [unfold extends, upd; cbn; by rewrite app_nil_r| |right; naive_solver].
      unfold upd. split; cbn; [done|by apply reset_consistent|]. intros k' e Hk'.
      pose proof (reset_entries _ _ _ _ Hk') as Hk2. destruct (He' _ _ Hk2) as [[-> _]|?]; [|eauto].
      by apply reset_gone in Hk'.
    + do 2 eexists. split; [reflexivity|].
      split_and!; [apply extends_tracker| |left; split; [done|intros _ _ (? & ? & [= <- <-] & ?); lia]].
      unfold upd. split; cbn; [done|done|]. intros k' e [[-> ->]|?]%He'; [lia|eauto].
Qed.

(** ** Settling *)

Definition settlementOf (d : Disposition) : settlement :=
  match d with DispositionAck => CallAckSync | DispositionNak => CallNak | DispositionTerm => CallTerm end.

Lemma ackWithDisposition_run msg d c :
  ∃ c' tr r, ackWithDisposition msg d c = (c', r) ∧ extends c c' tr ∧ retryBudget c' = retryBudget c ∧
    (tr = [CtxErr true] ∧ r = inr tt ∨
     ∃ err, tr = [CtxErr false; Settle msg (settlementOf d) err] ∧
       match err with
       | Some e => r = inl (wrapUnavailable "ack_failed" e "jetstream ack operation failed")
       | None => r = inr tt
       end).
Proof.
  unfold ackWithDisposition, ctxErr, settle, record. unfold mbind, Meth_bind, recv, assign, mret, Meth_ret, throw.
  destruct (ask_ctx (calls c)) eqn:Hx.
  - do 3 eexists. split_and!; [reflexivity|done..|by left].
  - cbv zeta. destruct (ask_settle _ _ _) as [err|] eqn:Hs.
    + do 3 eexists. split_and!; [reflexivity| |done|].
      * unfold extends, upd. cbn. by rewrite <- app_assoc.
      * right. exists (Some err). by destruct d.
    + do 3 eexists. split_and!; [reflexivity| |done|].
      * unfold extends, upd. cbn. by rewrite <- app_assoc.
      * right. exists None. by destruct d.
Qed.

(** The messages settled in a history, and how. *)
Definition settlements (tr : list call) : list (NatsMsg * settlement) :=
  omap (λ x, match x with Settle msg how _ => Some (msg, how) | _ => None end) tr.

(** [msg] failed with [p], which is decided as [d]: it could not be decoded, or its
    handler refused [env]. *)
Inductive failedWith (msg : NatsMsg) (tr : list call) : Envelope → Problem → ingestDecision → Prop :=
| fw_decode p : UnmarshalBinary (m_Data msg) = inl p →
    failedWith msg tr zeroEnvelope p (classifyEnvelopeDecodeFailure (Some p))
| fw_handler env p : UnmarshalBinary (m_Data msg) = inr env → Handle env (Some p) ∈ tr →
    failedWith msg tr env p (ClassifyIngestError (Some p) env).

(** The failure may pass: it is transient, or the quarantine could not be published
    this time. *)
Definition mayPass (msg : NatsMsg) (tr : list call) (env : Envelope) (p : Problem) (d : ingestDecision) : Prop :=
  d = transientDecision ingestReasonTransientFailure ∨
  ∃ out err, quarantines msg env (ReasonCode d) (Some p) out ∧ PublishMsg out (Some err) ∈ tr ∧
    (ClassifyQuarantinePublishError err).1 = true.

(** Why a message that failed may be taken off the bus for good: it is poison and
    was dealt with, or the failure may pass but the retries are used up. *)
Inductive mayTerminate (c : Consumer) (msg : NatsMsg) (tr : list call) (env : Envelope) (p : Problem) (d : ingestDecision)
    : Prop :=
| mt_quarantined out : Quarantine d = true →
    quarantines msg env (ReasonCode d) (Some p) out → PublishMsg out None ∈ tr → mayTerminate c msg tr env p d
| mt_quarantine : Quarantine d = true → isQuarantineMessage msg env = true → mayTerminate c msg tr env p d
| mt_refused out err : Quarantine d = true →
    quarantines msg env (ReasonCode d) (Some p) out → PublishMsg out (Some err) ∈ tr →
    (ClassifyQuarantinePublishError err).1 = false → mayTerminate c msg tr env p d
| mt_impossible : Quarantine d = true → unquarantinable msg env (ReasonCode d) (Some p) → mayTerminate c msg tr env p d
| mt_spent : mayPass msg tr env p d → budgetSpent c msg env → mayTerminate c msg tr env p d.

(** A message that was decoded is delivered again only within the budget. *)
Definition justified (c : Consumer) (msg : NatsMsg) (tr : list call) (how : settlement) : Prop :=
  match how with
  | CallAck => subjectBelongsToOtherShard (m_Subject msg) (ShardGroupCount (cfg c)) (ShardGroupID (cfg c)) = true
  | CallAckSync => ∃ env, UnmarshalBinary (m_Data msg) = inr env ∧ Handle env None ∈ tr
  | CallNak => ∃ env p d, failedWith msg tr env p d ∧ mayPass msg tr env p d ∧
      (UnmarshalBinary (m_Data msg) = inr env → ¬ budgetSpent c msg env)
  | CallTerm => ∃ env p d, failedWith msg tr env p d ∧ mayTerminate c msg tr env p d
  end.

(** The calls made for one message: it is settled once, for a reason, or left to
    be delivered again because the process is shutting down. *)
Definition settledSafely (c : Consumer) (msg : NatsMsg) (tr : list call) : Prop :=
  settlements tr = [] ∧ CtxErr true ∈ tr ∨
  ∃ how, settlements tr = [(msg, how)] ∧ justified c msg tr how.

(** The envelopes handed to the handler, and the messages published. *)
Definition handled (tr : list call) : list Envelope :=
  omap (λ x, match x with Handle env _ => Some env | _ => None end) tr.
Definition publications (tr : list call) : list outgoing :=
  omap (λ x, match x with PublishMsg out _ => Some out | _ => None end) tr.

Lemma settlements_app tr1 tr2 : settlements (tr1 ++ tr2) = settlements tr1 ++ settlements tr2.
Proof. apply omap_app. Qed.

Lemma quarantineOutcome_settlements msg env d p tr d' : quarantineOutcome msg env d p tr d' → settlements tr = [].
Proof. by destruct 1. Qed.

(** The end of a message: after the calls [pre], which settle nothing. *)
Lemma settle_last c msg d pre c1 c2 r :
  settlements pre = [] → extends c c1 pre → ackWithDisposition msg d c1 = (c2, r) →
  (∀ post, justified c msg (pre ++ post) (settlementOf d)) →
  retryBudget c2 = retryBudget c1 ∧ (∀ p, r = inl p → shouldContinueAfterConsumeError p = true) ∧
  ∃ post, extends c c2 (pre ++ post) ∧ handled post = [] ∧ publications post = [] ∧ settledSafely c msg (pre ++ post).
Proof.
  intros Hpre Hext Hrun Hj. destruct (ackWithDisposition_run msg d c1) as (c' & tr & r' & Hrun' & Hext' & Ht & Hout).
  rewrite Hrun in Hrun'. injection Hrun' as <- <-. split; [done|]. split.
  { intros p ->. destruct Hout as [[_ ?]|(err & _ & He)]; [done|]. destruct err as [e|]; [|done]. by injection He as ->. }
  exists tr. split; [by eapply extends_trans|].
  split; [by destruct Hout as [[-> _]|(? & -> & _)]|]. split; [by destruct Hout as [[-> _]|(? & -> & _)]|].
  unfold settledSafely. rewrite settlements_app, Hpre. cbn [app].
  destruct Hout as [[-> _]|(err & -> & _)].
  - left. split; [done|]. apply elem_of_app. right. set_solver.
  - right. exists (settlementOf d). split; [done|apply Hj].
Qed.

Lemma failedWith_app msg tr post env p d : failedWith msg tr env p d → failedWith msg (tr ++ post) env p d.
Proof. destruct 1; [by apply fw_decode|apply fw_handler; [done|set_solver]]. Qed.

Lemma ClassifyIngestError_cases p env :
  (∃ reason, ClassifyIngestError (Some p) env = poisonDecision reason) ∨
  ClassifyIngestError (Some p) env = transientDecision ingestReasonTransientFailure.
Proof. unfold ClassifyIngestError. cbv zeta. repeat case_match; eauto. Qed.
Lemma classifyEnvelopeDecodeFailure_poison p : ∃ reason, classifyEnvelopeDecodeFailure (Some p) = poisonDecision reason.
Proof. unfold classifyEnvelopeDecodeFailure. case_match; eauto. Qed.

Lemma failedWith_decision msg tr env p d : failedWith msg tr env p d →
  (∃ reason, d = poisonDecision reason) ∨ d = transientDecision ingestReasonTransientFailure.
Proof.
  destruct 1 as [p _|env p _ _]; [left; apply classifyEnvelopeDecodeFailure_poison|].
  destruct (ClassifyIngestError_cases p env) as [[reason ->]| ->]; eauto.
Qed.

(** The decision [d'] after the quarantine step of a failed message: terminate with
    a justification, or deliver again because the failure may pass. *)
Lemma outcome_cases c msg env p d pre tr d' post :
  failedWith msg pre env p d → quarantineOutcome msg env d (Some p) tr d' →
  (d_Disposition d' = DispositionTerm ∧ mayTerminate c msg ((pre ++ tr) ++ post) env p d) ∨
  (d_Disposition d' = DispositionNak ∧ isRetryBudgetReason (ReasonCode d') = true ∧
   mayPass msg ((pre ++ tr) ++ post) env p d).
Proof.
  intros Hf Hq. apply failedWith_decision in Hf as [[reason ->]| ->].
  - inversion Hq as [Hd Htr|Hd Hi Htr|Hd Hi Hu Htr|out Hd Hi Ho Htr|out err Hd Hi Ho Htr]; subst;
      [done|left; eauto using mt_quarantine|left; eauto using mt_impossible|left; split; [done|]|].
    + eapply mt_quarantined; [done..|]. set_solver.
    + unfold failedQuarantine. destruct (ClassifyQuarantinePublishError err).1 eqn:Hr; [right|left]; (split; [done|]).
      * split; [reflexivity|]. right. exists out, err. split_and!; [done|set_solver|done].
      * eapply mt_refused; [done|done| |done]. set_solver.
  - inversion Hq; subst; cbn in *; try done. right. split_and!; [done|reflexivity|by left].
Qed.

Lemma ack_outcome msg env tr d' :
  quarantineOutcome msg env (ClassifyIngestError None env) None tr d' → tr = [] ∧ d' = ClassifyIngestError None env.
Proof. intros H. inversion H; subst; cbn in *; done. Qed.

(** What the consumer hands to the handler. *)
Definition toHandle (c : Consumer) (msg : NatsMsg) : list Envelope :=
  if subjectBelongsToOtherShard (m_Subject msg) (ShardGroupCount (cfg c)) (ShardGroupID (cfg c)) then []
  else match UnmarshalBinary (m_Data msg) with inr env => [env] | inl _ => [] end.

Lemma quarantineOutcome_handled msg env d p tr d' : quarantineOutcome msg env d p tr d' → handled tr = [].
Proof. by destruct 1. Qed.
Lemma handled_app tr1 tr2 : handled (tr1 ++ tr2) = handled tr1 ++ handled tr2.
Proof. apply omap_app. Qed.
Lemma publications_app tr1 tr2 : publications (tr1 ++ tr2) = publications tr1 ++ publications tr2.
Proof. apply omap_app. Qed.

(** What is published is a quarantine of the message, and never of one that is a
    quarantine already. *)
Definition quarantined (msg : NatsMsg) (tr : list call) : Prop :=
  publications tr = [] ∨
  ∃ env reason p out, publications tr = [out] ∧ quarantines msg env reason p out ∧ isQuarantineMessage msg env = false.

Lemma quarantineOutcome_quarantined msg env d p tr d' : quarantineOutcome msg env d p tr d' → quarantined msg tr.
Proof. destruct 1; [by left..| |]; right; exists env, (ReasonCode d), p, out; done. Qed.

(** Everything one message does to a consumer. *)
Definition consumed (c c' : Consumer) (msg : NatsMsg) (r : Problem + unit) (tr : list call) : Prop :=
  extends c c' tr ∧ budgetOK c' ∧ (∀ p, r = inl p → shouldContinueAfterConsumeError p = true) ∧
  settledSafely c msg tr ∧ handled tr = toHandle c msg ∧ quarantined msg tr.

Lemma consumed_skip c msg : budgetOK c →
  subjectBelongsToOtherShard (m_Subject msg) (ShardGroupCount (cfg c)) (ShardGroupID (cfg c)) = true →
  ∃ c' r tr, consumeOne msg c = (c', r) ∧ consumed c c' msg r tr.
Proof.
  intros [? ? ?] Hskip. unfold consumeOne. rewrite recv_run, Hskip. unfold settle, record.
  unfold mbind, Meth_bind, recv, assign, mret, Meth_ret. do 3 eexists. split; [reflexivity|].
  split; [apply extends_record|]. split_and!; [done|done| | |by left].
  - right. eexists. split; [reflexivity|done].
  - unfold toHandle. by rewrite Hskip.
Qed.

Lemma consumed_undecoded c msg p : budgetOK c →
  subjectBelongsToOtherShard (m_Subject msg) (ShardGroupCount (cfg c)) (ShardGroupID (cfg c)) = false →
  UnmarshalBinary (m_Data msg) = inl p →
  ∃ c' r tr, consumeOne msg c = (c', r) ∧ consumed c c' msg r tr.
Proof.
  intros Hok Hskip Hu. unfold consumeOne. rewrite recv_run, Hskip, Hu. cbv zeta.
  destruct (classifyEnvelopeDecodeFailure_poison p) as [reason Hcl]. rewrite Hcl.
  destruct (quarantineIfPoison_run msg zeroEnvelope (poisonDecision reason) (Some p) c) as (c1 & tr & d' & Hrun & Hext & Ht & Hq).
  rewrite (bind_run _ _ _ _ _ Hrun). destruct (ackWithDisposition msg (d_Disposition d') c1) as [c2 r] eqn:Hack.
  edestruct (settle_last c msg (d_Disposition d') tr c1 c2 r) as (Ht2 & Hr & post & Hext2 & Hh & Hp & Hs);
    [by eapply quarantineOutcome_settlements|done|done| |].
  { intros post. pose proof (fw_decode msg [] p Hu) as Hf. rewrite <- Hcl in Hq.
    pose proof (failedWith_app _ _ (tr ++ post) _ _ _ Hf) as Hf'.
    destruct (outcome_cases c _ _ _ _ _ _ _ post Hf Hq) as [[-> Hm]|(-> & _ & Hm)]; cbn [settlementOf justified].
    - exists zeroEnvelope, p, (classifyEnvelopeDecodeFailure (Some p)). done.
    - exists zeroEnvelope, p, (classifyEnvelopeDecodeFailure (Some p)). split_and!; [done..|]. by rewrite Hu. }
  do 3 eexists. split; [reflexivity|]. split; [exact Hext2|]. split_and!; [|done|done| |].
  - destruct Hok as [? ? ?]. destruct Hext2 as (_ & _ & Hb). split; rewrite ?Hb, ?Ht2, ?Ht; done.
  - unfold toHandle. rewrite Hskip, Hu, handled_app, Hh. by rewrite (quarantineOutcome_handled _ _ _ _ _ _ Hq).
  - unfold quarantined. rewrite publications_app, Hp, app_nil_r. by eapply quarantineOutcome_quarantined.
Qed.

Lemma budgetOK_same c c' tr : extends c c' tr → retryBudget c' = retryBudget c → budgetOK c → budgetOK c'.
Proof. intros (_ & _ & Hb) Ht [? ? ?]. split; rewrite ?Hb, ?Ht; done. Qed.

(** The run of the handler and the reading of the context after it. *)
Lemma handle_run {A} env (k : option Problem → bool → ConsumerM A) c :
  ∃ c2 answer b, extends c c2 [Handle env answer; CtxErr b] ∧ retryBudget c2 = retryBudget c ∧
    (answer0 ← handle env; cancelled ← ctxErr; k answer0 cancelled) c = k answer b c2.
Proof.
  unfold handle, ctxErr, record. unfold mbind, Meth_bind, recv, assign, mret, Meth_ret. cbv zeta.
  do 3 eexists. split_and!; [|..|reflexivity]; [|done]. unfold extends, upd. cbn. by rewrite <- app_assoc.
Qed.

Lemma consumed_decoded c msg env : budgetOK c →
  subjectBelongsToOtherShard (m_Subject msg) (ShardGroupCount (cfg c)) (ShardGroupID (cfg c)) = false →
  UnmarshalBinary (m_Data msg) = inr env →
  ∃ c' r tr, consumeOne msg c = (c', r) ∧ consumed c c' msg r tr.
Proof.
  intros Hok Hskip Hu. unfold consumeOne. rewrite recv_run, Hskip, Hu.
  assert (toHandle c msg = [env]) as Hto by (unfold toHandle; by rewrite Hskip, Hu).
  edestruct (handle_run env (λ procProb cancelled, if cancelled : bool then mret tt else
      decision ← quarantineIfPoison msg env (ClassifyIngestError procProb env) procProb;
      decision ← applyTransientRetryBudget msg env (NumDelivered msg) decision;
      ackWithDisposition msg (d_Disposition decision)) c) as (c2 & answer & b & Hext & Ht & ->).
  pose proof (budgetOK_same _ _ _ Hext Ht Hok) as Hok2. destruct b.
  { do 3 eexists. split; [reflexivity|]. split; [exact Hext|]. rewrite Hto. split_and!; [done|done| |done|by left].
    left. split; [done|set_solver]. }
  destruct (quarantineIfPoison_run msg env (ClassifyIngestError answer env) answer c2) as (c3 & tr & d & Hrun & Hext3 & Ht3 & Hq).
  rewrite (bind_run _ _ _ _ _ Hrun). pose proof (budgetOK_same _ _ _ Hext3 Ht3 Hok2) as Hok3.
  destruct (applyTransientRetryBudget_run msg env d c3 Hok3) as (c4 & d' & Hrun4 & Hext4 & Hok4 & Hd').
  rewrite (bind_run _ _ _ _ _ Hrun4). destruct (ackWithDisposition msg (d_Disposition d') c4) as [c5 r] eqn:Hack.
  set (pre := [Handle env answer; CtxErr false] ++ tr).
  assert (extends c c4 pre) as Hext'.
  { pose proof (extends_trans _ _ _ _ _ (extends_trans _ _ _ _ _ Hext Hext3) Hext4) as H. by rewrite app_nil_r in H. }
  edestruct (settle_last c msg (d_Disposition d') pre c4 c5 r) as (Ht5 & Hr & post & Hext5 & Hh & Hp & Hs); [|done|done| |].
  { subst pre. rewrite settlements_app. by rewrite (quarantineOutcome_settlements _ _ _ _ _ _ Hq). }
  { intros post. assert (budgetSpent c3 msg env ↔ budgetSpent c msg env) as Hsp.
    { unfold budgetSpent. destruct Hext as (_ & _ & Hb), Hext3 as (_ & _ & Hb3). by rewrite Hb3, Hb, Ht3, Ht. }
    destruct answer as [p|].
    2: { apply ack_outcome in Hq as [-> ->]. destruct Hd' as [[-> _]|[? _]]; [|done]. exists env. split; [done|]. set_solver. }
    assert (failedWith msg [Handle env (Some p); CtxErr false] env p (ClassifyIngestError (Some p) env)) as Hf
      by (apply fw_handler; [done|set_solver]).
    pose proof (failedWith_app _ _ (tr ++ post) _ _ _ Hf) as Hf'. rewrite app_assoc in Hf'.
    pose proof (outcome_cases c _ _ _ _ _ _ _ post Hf Hq) as Hcases. fold pre in Hf', Hcases.
    destruct Hd' as [[-> Hin]|(Hnak & _ & -> & Hspent)].
    - destruct Hcases as [[-> Hm]|(Hn & Hr' & Hm)]; [by do 3 eexists|].
      rewrite Hn. do 3 eexists. split_and!; [done..|]. intros _ ?%Hsp. by apply Hin.
    - destruct Hcases as [[Hn _]|(_ & _ & Hm)]; [congruence|]. do 3 eexists. split; [done|]. apply mt_spent; [done|by apply Hsp]. }
  do 3 eexists. split; [reflexivity|]. split; [exact Hext5|]. split_and!; [|done|done| |].
  - destruct Hext5 as (_ & _ & Hb5), Hext' as (_ & _ & Hb4). destruct Hok4 as [? ? ?].
    split; rewrite ?Hb5, <- ?Hb4, ?Ht5; done.
  - rewrite Hto. subst pre. rewrite !handled_app, Hh. by rewrite (quarantineOutcome_handled _ _ _ _ _ _ Hq).
  - unfold quarantined. subst pre. rewrite !publications_app, Hp, app_nil_r. by eapply quarantineOutcome_quarantined.
Qed.

Lemma consumeOne_run c msg : budgetOK c → ∃ c' r tr, consumeOne msg c = (c', r) ∧ consumed c c' msg r tr.
Proof.
  intros Hok. destruct (subjectBelongsToOtherShard (m_Subject msg) (ShardGroupCount (cfg c)) (ShardGroupID (cfg c))) eqn:Hs.
  - by apply consumed_skip.
  - destruct (UnmarshalBinary (m_Data msg)) eqn:Hu; [by eapply consumed_undecoded|by eapply consumed_decoded].
Qed.

(** ** Runs of the loop *)

(** A consumer goes from [c] to [c'] over a batch, settling its messages in order. *)
Fixpoint settledAll (c : Consumer) (msgs : list NatsMsg) (c' : Consumer) : Prop :=
  match msgs with
  | [] => c' = c
  | msg :: rest => ∃ c1 r tr, consumeOne msg c = (c1, r) ∧ consumed c c1 msg r tr ∧ settledAll c1 rest c'
  end.

(** [c'] is [c] after the call [x], which does not touch the tracker. *)
Definition called (c c' : Consumer) (x : call) : Prop := extends c c' [x] ∧ retryBudget c' = retryBudget c.

(** The consumers that come out of [c0] by reading the context, by fetching in vain,
    and by settling all the messages of a batch in order. *)
Inductive orderly (c0 : Consumer) : Consumer → Prop :=
| ord_start : orderly c0 c0
| ord_ctx c c' b : orderly c0 c → called c c' (CtxErr b) → orderly c0 c'
| ord_empty c c' n err : orderly c0 c → called c c' (Fetch n (inl err)) → orderly c0 c'
| ord_batch c c1 c' n msgs : orderly c0 c → called c c1 (Fetch n (inr msgs)) → settledAll c1 msgs c' → orderly c0 c'.

Lemma consumeBatch_run msgs c : budgetOK c →
  ∃ c', consumeBatch msgs c = (c', inr tt) ∧ budgetOK c' ∧ settledAll c msgs c'.
Proof.
  revert c. induction msgs as [|msg msgs IH]; intros c Hok; [by exists c|].
  destruct (consumeOne_run c msg Hok) as (c1 & r & tr & Hrun & Hcon).
  pose proof Hcon as (_ & Hok1 & Hr & _). destruct (IH c1 Hok1) as (c' & Hrun' & Hok' & Hall).
  exists c'. cbn [consumeBatch settledAll]. rewrite Hrun. split_and!; [|done|by do 3 eexists].
  destruct r as [p|[]]; [by rewrite (Hr p eq_refl)|done].
Qed.

Lemma ctxErr_run c : ∃ c', ctxErr c = (c', inr (ask_ctx (calls c))) ∧ called c c' (CtxErr (ask_ctx (calls c))).
Proof. exists (c <| calls ::= λ l, l ++ [CtxErr (ask_ctx (calls c))] |>). done. Qed.
Lemma fetch_run n c : ∃ c', fetch n c = (c', inr (ask_fetch (calls c) n)) ∧ called c c' (Fetch n (ask_fetch (calls c) n)).
Proof. exists (c <| calls ::= λ l, l ++ [Fetch n (ask_fetch (calls c) n)] |>). done. Qed.
Lemma called_budgetOK c c' x : called c c' x → budgetOK c → budgetOK c'.
Proof. intros [? ?]. by eapply budgetOK_same. Qed.

(** The problem that ends the loop. *)
Definition fetchFailed (c : Consumer) (p : Problem) : Prop :=
  ∃ n err, p = wrapUnavailable "fetch_failed" err "jetstream fetch failed" ∧ Fetch n (inl err) ∈ calls c.

(** One pass keeps the consumer orderly; only a failed fetch is returned. *)
Lemma consumePass_run c0 c : budgetOK c → orderly c0 c →
  ∃ c' r, consumePass c = (c', r) ∧ budgetOK c' ∧ orderly c0 c' ∧ ∀ p, r = inl p → fetchFailed c' p.
Proof.
  intros Hok Ho. unfold consumePass. destruct (ctxErr_run c) as (c1 & Hx1 & Hc1). rewrite (bind_run _ _ _ _ _ Hx1).
  pose proof (called_budgetOK _ _ _ Hc1 Hok) as Hok1. pose proof (ord_ctx _ _ _ _ Ho Hc1) as Ho1.
  destruct (ask_ctx (calls c)); [by do 2 eexists|]. rewrite recv_run.
  set (n := fetchBatchSize (cfg c1)). destruct (fetch_run n c1) as (c2 & Hx2 & Hc2). rewrite (bind_run _ _ _ _ _ Hx2).
  pose proof (called_budgetOK _ _ _ Hc2 Hok1) as Hok2.
  destruct (ask_fetch (calls c1) n) as [err|msgs] eqn:Hf.
  - pose proof (ord_empty _ _ _ _ _ Ho1 Hc2) as Ho2. destruct (errors_Is err ErrTimeout); [by do 2 eexists|].
    destruct (ctxErr_run c2) as (c3 & Hx3 & Hc3). rewrite (bind_run _ _ _ _ _ Hx3).
    pose proof (called_budgetOK _ _ _ Hc3 Hok2) as Hok3. pose proof (ord_ctx _ _ _ _ Ho2 Hc3) as Ho3.
    destruct (_ || _); [by do 2 eexists|]. do 2 eexists. split_and!; [reflexivity|done..|].
    intros p [= <-]. exists n, err. split; [done|]. destruct Hc3 as [[-> _] _], Hc2 as [[-> _] _]. set_solver.
  - destruct (consumeBatch_run msgs c2 Hok2) as (c3 & Hx3 & Hok3 & Hall). rewrite (bind_run _ _ _ _ _ Hx3).
    do 2 eexists. split_and!; [reflexivity|done|by eapply ord_batch|done].
Qed.

Lemma Consume_run n c0 c : budgetOK c → orderly c0 c →
  ∃ c' r, Consume n c = (c', r) ∧ orderly c0 c' ∧ ∀ p, r = inl p → fetchFailed c' p.
Proof.
  revert c. induction n as [|n IH]; intros c Hok Ho; cbn [Consume]; [by do 2 eexists|].
  destruct (consumePass_run c0 c Hok Ho) as (c1 & [p|stop] & Hrun & Hok1 & Ho1 & Hp).
  - rewrite (bind_err _ _ _ _ _ Hrun). by do 2 eexists.
  - rewrite (bind_run _ _ _ _ _ Hrun). destruct stop; [by do 2 eexists|]. by apply IH.
Qed.

(** C12: Every message a consumer fetches is settled once, in the order of its batch,
    and for a reason: acknowledged when its handler succeeded or it is another
    group's, delivered again when the failure is transient or its quarantine could
    not be published now, and terminated only when it is quarantined, is itself a
    quarantine, cannot be quarantined (it cannot be built, or the broker refuses it
    for good), or has used up its retries. A message that was decoded is delivered
    again only within the retry budget. A message is left unsettled only at shutdown. No message ends the loop: the one problem it returns
    is that of a failed fetch. *)
Theorem consumer_settles_every_message broker cf c0 n c r :
  NewConsumer broker cf = inr c0 → Consume n c0 = (c, r) →
  orderly c0 c ∧ (∀ p, r = inl p → fetchFailed c p).
Proof.
  intros Hnew Hrun. pose proof (NewConsumer_budgetOK _ _ _ Hnew) as Hok.
  destruct (Consume_run n c0 c0 Hok (ord_start c0)) as (c' & r' & Hrun' & Ho & Hp).
  rewrite Hrun in Hrun'. by injection Hrun' as <- <-.
Qed.

(** ** Groups of consumers *)

(** C13: All events of one stream, whatever their type and version, are handled by the
    consumers of one group and by no other: in a fleet of [n] groups there is a
    group [g] for every venue and instrument, such that a consumer hands a decodable
    message of the stream to its handler, once, exactly when it is of that group. *)
Theorem each_stream_is_handled_by_one_group n venue instrument :
  1 < n < 4294967296 →
  ∃ g, 0 ≤ g < n ∧
    ∀ c msg event version env c' r, budgetOK c → ShardGroupCount (cfg c) = n →
      canonical event version venue instrument → m_Subject msg = subjectOf event version venue instrument →
      UnmarshalBinary (m_Data msg) = inr env → consumeOne msg c = (c', r) →
      ∃ tr, calls c' = calls c ++ tr ∧ handled tr = if g =? ShardGroupID (cfg c) then [env] else [].
Proof.
  intros Hn. exists (ownerGroup venue instrument n). split; [by apply ownerGroup_range|].
  intros c msg event version env c' r Hok Hcount Hcan Hsubj Hu Hrun.
  destruct (consumeOne_run c msg Hok) as (c1 & r1 & tr & Hrun1 & [Hcalls _] & _ & _ & _ & Hh & _).
  rewrite Hrun in Hrun1. injection Hrun1 as <- <-. exists tr. split; [done|]. rewrite Hh. unfold toHandle.
  rewrite Hsubj, Hcount, canonical_belongs, Hu by (done || lia). by destruct (_ =? _).
Qed.

(** ** Quarantines of quarantines *)

Lemma trim_right_app s t : str_forallb (λ c, negb (is_space c)) s = true → trim_right (s +:+ t) = s +:+ trim_right t.
Proof.
  induction s as [|c s IH]; [done|]. cbn [str_forallb]. intros [Hc%negb_true_iff Hs]%andb_true_iff.
  rewrite !append_cons. cbn [trim_right]. rewrite (IH Hs). destruct (s +:+ trim_right t); [by rewrite Hc|done].
Qed.
Lemma str_map_app f s t : str_map f (s +:+ t) = str_map f s +:+ str_map f t.
Proof. induction s as [|c s IH]; [done|]. rewrite !append_cons. cbn [str_map]. by rewrite IH, append_cons. Qed.
Lemma prefix_app s t : String.prefix s (s +:+ t) = true.
Proof. induction s as [|c s IH]; [by destruct t|]. rewrite append_cons. cbn. rewrite IH. by destruct (Ascii.ascii_dec c c). Qed.

Lemma is_ascii_trim_right s : is_ascii s = true → is_ascii (trim_right s) = true.
Proof.
  unfold is_ascii. induction s as [|c s IH]; [done|]. cbn [str_forallb trim_right]. intros [Hc Hs]%andb_true_iff.
  specialize (IH Hs). destruct (trim_right s).
  - destruct (is_space c); cbn; [done|]. by rewrite Hc.
  - cbn [str_forallb]. cbn [str_forallb] in IH. by rewrite Hc, IH.
Qed.

Lemma quarantine_subject_recognised rest msg env :
  m_Subject msg = "quarantine.v1." +:+ rest → is_ascii rest = true → isQuarantineMessage msg env = true.
Proof.
  intros Hs Ha. unfold isQuarantineMessage. destruct (EqualFold _ _); [done|]. rewrite Hs.
  assert (TrimSpace ("quarantine.v1." +:+ rest) = "quarantine.v1." +:+ trim_right rest) as ->.
  { unfold TrimSpace, is_ascii. rewrite str_forallb_app. fold (is_ascii rest). rewrite Ha.
    change (trim_right ("quarantine.v1." +:+ rest) = "quarantine.v1." +:+ trim_right rest). by apply trim_right_app. }
  unfold ToLower, is_ascii. rewrite str_forallb_app. fold (is_ascii (trim_right rest)). rewrite is_ascii_trim_right by done.
  change (HasPrefix (str_map lower_ascii ("quarantine.v1." +:+ trim_right rest)) "quarantine.v1." = true).
  rewrite str_map_app. apply prefix_app.
Qed.

(** A quarantine envelope is of the quarantine type, in version 1. *)
Lemma quarantines_subject msg env reason p out : quarantines msg env reason p out →
  ∃ rest, out_Subject out = "quarantine.v1." +:+ rest.
Proof.
  intros (e & data & Hb & _ & ->). cbn [out_Subject]. revert Hb. unfold buildQuarantineEnvelope. cbv zeta.
  destruct (json_MarshalQuarantine _); [done|]. set (q := MkEnvelope _ _ _ _ _ _ _ _ _ _ _ _).
  destruct (Validate q) as [q' [pp|[]]] eqn:Hv; [done|]. apply envelope_Validate_ok in Hv as (_ & ct & ->).
  destruct (ValidateSubjectTaxonomy _); [done|]. intros [= <-]. unfold SubjectFromEnvelope. by eexists.
Qed.

(** C15: A message that quarantines another is never quarantined itself, whatever
    becomes of it: the consumer of the quarantine publishes nothing. The subject is
    ASCII text, as the taxonomy demands of it. *)
Theorem quarantine_is_not_quarantined_again c msg c1 r1 tr1 out err c' msg' c2 r2 :
  budgetOK c → consumeOne msg c = (c1, r1) → calls c1 = calls c ++ tr1 → PublishMsg out err ∈ tr1 →
  is_ascii (out_Subject out) = true → budgetOK c' → m_Subject msg' = out_Subject out →
  consumeOne msg' c' = (c2, r2) →
  ∃ tr2, calls c2 = calls c' ++ tr2 ∧ publications tr2 = [].
Proof.
  intros Hok Hrun Hcalls Hin Ha Hok' Hsubj Hrun'.
  destruct (consumeOne_run c msg Hok) as (? & ? & tr & Hx & [Hc _] & _ & _ & _ & _ & Hq).
  rewrite Hrun in Hx. injection Hx as <- <-. rewrite Hcalls in Hc. apply app_inv_head in Hc as <-.
  assert (out ∈ publications tr1) as Hout by (apply list_elem_of_omap; by exists (PublishMsg out err)).
  destruct Hq as [Hq|(env & reason & p & out' & Hq & Hqs & _)]; rewrite Hq in Hout; [by apply elem_of_nil in Hout|].
  apply list_elem_of_singleton in Hout as ->. destruct (quarantines_subject _ _ _ _ _ Hqs) as [rest Hrest].
  destruct (consumeOne_run c' msg' Hok') as (? & ? & tr2 & Hx & [Hc _] & _ & _ & _ & _ & Hq').
  rewrite Hrun' in Hx. injection Hx as <- <-. exists tr2. split; [done|].
  destruct Hq' as [?|(env' & ? & ? & ? & _ & _ & Hno)]; [done|].
  rewrite (quarantine_subject_recognised rest) in Hno; [done|by rewrite Hsubj|].
  rewrite Hrest in Ha. unfold is_ascii in *. rewrite str_forallb_app in Ha. by apply andb_true_iff in Ha as [_ ?].
Qed.

(** ** The publisher *)

(** What [Publish] sends is a valid envelope under a subject of the taxonomy, and a
    success is an answer of the broker. *)
Lemma Publish_sends (port : PublisherPort) env p p' :
  Publish env p = (p', inr tt) →
  ∃ msg duplicate, p_sent p' = p_sent p ++ [(msg, inr duplicate)] ∧
    ValidateSubjectTaxonomy (out_Subject msg) = None ∧ MarshalBinary env = inr (out_Data msg) ∧
    (Validate env).2 = inr tt.
Proof.
  unfold Publish. cbv zeta. destruct (ValidateSubjectTaxonomy _) eqn:Ht; [done|].
  intros (p1 & data & [Hm ->]%try_ok & H)%bind_ok. rewrite recv_run, assign_run in H.
  set (msg := MkOutgoing _ _ _) in H. destruct (ask_PublishMsg (p_sent p) msg) as [err|duplicate] eqn:Ha.
  { destruct (str_eqb _ _); discriminate H. }
  injection H as <-. exists msg, duplicate. split_and!; [done..|]. unfold MarshalBinary in Hm.
  destruct (Validate env) as [e [q|[]]]; done.
Qed.
End spec.

(** ** Concrete runs *)

Section runs.

Definition textLib : BusLib := {|
  Sprintf := msg_format;
  Sprintf_text := λ s, eq_refl;
  json_MarshalEnvelope := λ _, inr [65];
  json_UnmarshalEnvelope := λ data,
    match data with
    | [65] => inr (MkEnvelope "marketdata.trade" 1 "binance" "BTCUSDT" 1 1 1 "k1" "" ∅ [1] "")
    | [66] => inr (MkEnvelope "marketdata.trade" 1 "bin ance" "BTCUSDT" 1 1 1 "k2" "" ∅ [1] "")
    | [67] => inr (MkEnvelope "marketdata.trade" 1 "okx" "ETHUSDT" 1 1 1 "k3" "" ∅ [1] "")
    | _ => inl (MkError "invalid character in json" [])
    end;
  json_MarshalQuarantine := λ _, inr [66];
  fields_unicode := λ s, [s];
|}.

(** A handler that takes the trades of binance and refuses the others; a broker
    that takes every settlement, and publications when [up]. *)
Definition testPorts (up : bool) (batch : list NatsMsg) : ConsumerPorts := {|
  ask_ctx := λ _, false;
  ask_handler := λ _ env, if str_eqb (Venue env) "binance" then None else Some (New ValidationFailed "no such stream");
  ask_settle := λ _ _ _, None;
  ask_publish := λ _ _, if up then None else Some (MkError "nats: timeout" [ErrTimeout]);
  ask_fetch := λ h _, match h with [_] => inr batch | _ => inl (MkError "nats: timeout" [ErrTimeout]) end;
|}.

(** A broker that does not have the stream yet. *)
Definition newBroker : brokerAnswers :=
  MkAnswers None None (inl (MkError "nats: stream not found" [ErrStreamNotFound])) None None None None None.
Definition testConfig (groups id : Z) : ConsumerConfig :=
  MkConsumerConfig "nats://bus:4222" "" 0 0 0 "" [] 0 0 0 "" 0 0 0 groups id 0.
Definition testConsumer (groups id : Z) : Consumer :=
  MkConsumer (withConsumerDefaults (testConfig groups id)) 3 (newRetryBudgetTracker 8) [].

(** A message with [data] that was delivered [n] times. *)
Definition testMsg (data : list Z) (n : Z) : NatsMsg :=
  MkNatsMsg "marketdata.trade.v1.binance.BTCUSDT" None data (Some n).

Lemma testConsumer_budgetOK groups id : budgetOK (GR := go_amd64) (testConsumer groups id).
Proof.
  split; cbn [transientRetryBudget retryBudget testConsumer]; [vm_compute; split; discriminate| |].
  - apply newRetryBudgetTracker_consistent.
  - intros k e He. change ((∅ : gmap string retryBudgetEntry) !! k = Some e) in He. by rewrite lookup_empty in He.
Qed.

Lemma consumer_settles_every_message_witness :
  let ports := testPorts true [testMsg [65] 1; testMsg [1] 1] in
  ∃ c0 c r, NewConsumer (GR := go_amd64) (BL := textLib) newBroker (testConfig 0 0) = inr c0 ∧
    Consume (GR := go_amd64) (BL := textLib) (ports := ports) 2 c0 = (c, r) ∧
    orderly (GR := go_amd64) (BL := textLib) (ports := ports) c0 c ∧
    (settlements (calls c)).*2 = [CallAckSync; CallTerm].
Proof.
  intros ports. destruct (NewConsumer (GR := go_amd64) (BL := textLib) newBroker (testConfig 0 0)) as [p|c0] eqn:Hnew.
  { exfalso. apply (f_equal err_of) in Hnew. vm_compute in Hnew. discriminate. }
  destruct (Consume (GR := go_amd64) (BL := textLib) (ports := ports) 2 c0) as [c r] eqn:Hrun.
  exists c0, c, r. split; [reflexivity|]. split; [exact Hrun|]. split.
  - exact (proj1 (consumer_settles_every_message (GR := go_amd64) (BL := textLib) (ports := ports) newBroker (testConfig 0 0) c0 2 c r Hnew Hrun)).
  - apply (f_equal (λ x, (settlements (calls x.1)).*2)) in Hrun. cbn [fst] in Hrun. rewrite <- Hrun.
    assert (c0 = default c0 (ok_of (NewConsumer (GR := go_amd64) (BL := textLib) newBroker (testConfig 0 0)))) as -> by (rewrite Hnew; reflexivity).
    vm_compute. reflexivity.
Defined.

Lemma each_stream_is_handled_by_one_group_witness :
  ∃ g, 0 ≤ g < 4 ∧ ∀ id, ∃ tr,
    calls (consumeOne (GR := go_amd64) (BL := textLib) (ports := testPorts true []) (testMsg [65] 1) (testConsumer 4 id)).1 = tr ∧
    length (handled tr) = if g =? id then 1%nat else 0%nat.
Proof.
  destruct (each_stream_is_handled_by_one_group (GR := go_amd64) (BL := textLib) (ports := testPorts true [])
    4 "binance" "BTCUSDT") as (g & Hg & H); [lia|].
  exists g. split; [exact Hg|]. intros id.
  destruct (consumeOne (GR := go_amd64) (BL := textLib) (ports := testPorts true []) (testMsg [65] 1) (testConsumer 4 id)) as [c' r] eqn:Hrun.
  destruct (H (testConsumer 4 id) (testMsg [65] 1) "marketdata.trade" "v1"
    (MkEnvelope "marketdata.trade" 1 "binance" "BTCUSDT" 1 1 1 "k1" ContentTypeJSON ∅ [1] "") c' r) as (tr & Hcalls & Hh).
  - apply testConsumer_budgetOK.
  - vm_compute. reflexivity.
  - split; vm_compute; reflexivity.
  - vm_compute. reflexivity.
  - vm_compute. reflexivity.
  - exact Hrun.
  - exists tr. split; [exact Hcalls|]. rewrite Hh. cbn [cfg testConsumer].
    change (ShardGroupID (withConsumerDefaults (testConfig 4 id))) with id. destruct (g =? id); reflexivity.
Defined.

Lemma quarantine_is_not_quarantined_again_witness :
  let run := consumeOne (GR := go_amd64) (BL := textLib) (ports := testPorts true []) in
  let c := testConsumer 1 0 in
  ∃ out tr, calls (run (testMsg [1] 1) c).1 = tr ∧ publications tr = [out] ∧
    ∃ tr2, calls (run (MkNatsMsg (out_Subject out) None [1] (Some 1)) c).1 = tr2 ∧ publications tr2 = [].
Proof.
  intros run c. destruct (run (testMsg [1] 1) c) as [c1 r1] eqn:Hrun.
  assert (∃ out, calls c1 = [PublishMsg out None; CtxErr false; Settle (testMsg [1] 1) CallTerm None] ∧
    is_ascii (out_Subject out) = true) as (out & Hcalls & Ha).
  { apply (f_equal (λ x, calls x.1)) in Hrun. cbn [fst] in Hrun. rewrite <- Hrun.
    exists (default (MkOutgoing "" [] "") (head (publications (calls (run (testMsg [1] 1) c).1)))).
    split; vm_compute; reflexivity. }
  exists out, (calls c1). split; [reflexivity|]. split; [rewrite Hcalls; reflexivity|].
  destruct (run (MkNatsMsg (out_Subject out) None [1] (Some 1)) c) as [c2 r2] eqn:Hrun2.
  destruct (quarantine_is_not_quarantined_again (GR := go_amd64) (BL := textLib) (ports := testPorts true [])
    c (testMsg [1] 1) c1 r1 (calls c1) out None c (MkNatsMsg (out_Subject out) None [1] (Some 1)) c2 r2) as (tr2 & Hc2 & Hp).
  - apply testConsumer_budgetOK.
  - exact Hrun.
  - reflexivity.
  - rewrite Hcalls. left.
  - exact Ha.
  - apply testConsumer_budgetOK.
  - reflexivity.
  - exact Hrun2.
  - exists tr2. split; [exact Hc2|exact Hp].
Defined.

(** The retry budget is not applied to a message that cannot be decoded: while its
    quarantine cannot be published, it is delivered again however often it was,
    where a message that was decoded and refused is terminated. *)
Theorem undecodable_message_has_no_budget :
  let run := consumeOne (GR := go_amd64) (BL := textLib) (ports := testPorts false []) in
  let how msg := (settlements (calls (run msg (testConsumer 1 0)).1)).*2 in
  how (testMsg [67] 50) = [CallTerm] ∧ how (testMsg [1] 50) = [CallNak].
Proof. vm_compute. split; reflexivity. Qed.

(** A message whose envelope names a venue that is no token of a subject cannot be
    quarantined, although the bus is up and its subject is in order: it is dropped. *)
Theorem malformed_venue_is_not_quarantined :
  let run := consumeOne (GR := go_amd64) (BL := textLib) (ports := testPorts true []) in
  let tr msg := calls (run msg (testConsumer 1 0)).1 in
  (settlements (tr (testMsg [66] 1))).*2 = [CallTerm] ∧ publications (tr (testMsg [66] 1)) = [] ∧
  ValidateSubjectTaxonomy (GR := go_amd64) (m_Subject (testMsg [66] 1)) = None.
Proof. vm_compute. split_and!; reflexivity. Qed.
End runs.
